(* ===== verification/_CoqProject ===== *)
-Q . S2P
Prelude.v
AgentMachine.v
SessionJournal.v
Pricing.v
TaskStates.v
CostLedger.v
TaskMachine.v
Strings.v
Bytes.v
Ownership.v
Resource.v
Scheduler.v
SchedulerInv.v
SchedulerDag.v
SchedulerThms.v
CircuitBreaker.v
WorkspacePath.v
LineDiff.v
MyersThms.v
LineHunks.v
HunkThms.v
EditOps.v
EditSyntax.v
EditJournal.v
EditJournalThms.v
EditTxn.v
EditTxnThms.v
EditRecovery.v
EditRollback.v
EditLedgerJournal.v
Effects.v
Rely.v
WorkerModel.v
WorkerStore.v
WorkerPlane.v
WorkerInv.v
WorkerCalls.v
WorkerSafe.v
WorkerThms.v
WorkerRevoke.v
ApprovalModel.v
ApprovalStore.v
ApprovalAuthority.v
ApprovalSystem.v
ApprovalChain.v
ApprovalText.v
ApprovalRuns.v
ApprovalLogic.v
ApprovalInv.v
ApprovalSafe.v
ApprovalThms.v
ApprovalJam.v
ApprovalProgress.v
ApprovalWire.v
ApprovalDemo.v
UpdaterManifest.v
UpdaterCanonical.v
UpdaterStore.v
UpdaterInstall.v
UpdaterService.v
UpdaterRelease.v
UpdaterSystem.v
UpdaterInv.v
UpdaterCalls.v
UpdaterLogic.v
UpdaterSafe.v
UpdaterReleaseSafe.v
UpdaterQuiet.v
UpdaterRuns.v
UpdaterDemo.v
UpdaterThms.v
UpdaterRecovery.v
UpdaterLiveness.v
UpdaterJam.v
