(* ===== verification/Prelude.v ===== *)
(** * Faktor: runtime core, scheduler, ledgers, edit engine, worker plane, approvals, updater

    Faktor runs coding agents as durable sessions.  A session is an append-only
    event journal with a row of current state; tasks of a session spend money
    against a reservation ledger and end in a certified completion; work is
    run by a DAG scheduler behind circuit breakers; files are changed by an
    edit engine that validates, diffs and commits edits of several files
    through a compare-and-swap writer and a journal of its own; jobs go out to
    remote workers under leases that expire; what an agent may not do alone
    waits for a human's signed approval; and the program updates itself from
    signed manifests, to releases it can go back from.  This
    development models those parts, operation by operation, and proves what
    makes them correct.  All paths below are under [src/crates].

    ** The parts, and where they are

    Session.  [AgentMachine] is [core/src/state.rs] ([AgentState],
    [SessionLifecycle], [StateMachine]) and the typed errors of
    [core/src/error.rs].  [SessionJournal] is the event vocabulary and
    [JournalInvariants] of [core/src/event.rs], [validate_transition] and
    [replay] of [session/src/journal.rs], the payload checks of
    [session/src/payload.rs], the store transactions [insert_event_locked],
    [create_session] and [transition_session], and the commands of
    [session/src/handle.rs] and [recovery.rs] over them.  A store command is
    one writer transaction and therefore one function on the session store;
    [session_run] is any sequence of commands, accepted or refused.

    Money and tasks.  [Pricing] is the quote arithmetic of
    [core/src/model.rs].  [TaskStates] is the task machine of
    [core/src/state.rs] and the completion contract of
    [core/src/completion.rs].  [CostLedger] is [store/src/billing.rs]: the
    monetary columns of the task table and the reservation table, and every
    command that moves money.  [TaskMachine] is [session/src/task/mod.rs] with
    [store/src/tasks.rs] and [task_completion_guard.rs]: task rows, patches,
    transitions, verification records and the completion sequence with the
    seams at which the process may die.  Both work on one [TStore], so ledger
    and task commands interleave in one history.

    Scheduler.  [Resource] is [core/src/resource.rs].  [Ownership] is the
    ownership half of [scheduler/src/lib.rs] with [path_identity.rs].
    [Scheduler] is the DAG runner: one function per critical section on
    [Inner], and the step relation [Sys.step], which interleaves them in any
    order with lease grants, executions, aborts and retries.  [SchedulerInv]
    is the invariant of one state, [SchedulerDag] the validator,
    [SchedulerThms] the invariant and theorems of the whole system.
    [CircuitBreaker] is the breaker, as the atomic actions of its methods
    interleaved across threads, and the board that caches breakers.
    [WorkspacePath] is [core/src/path.rs] and the [OwnershipSpec] of
    [core/src/state.rs], which planning uses before work reaches the
    scheduler.

    Edit engine.  [LineDiff] and [LineHunks] are [edit/src/diff.rs]; [MyersThms]
    and [HunkThms] their correctness.  [EditOps] and [EditSyntax] are the edit
    operations and the parse-before-accept check of [edit/src/lib.rs].
    [EditTxn] is the rest of that file: staging, begin, commit, roll back and
    recovery, over the compare-and-swap writer of [fs/src/atomic.rs] and
    [workspace_service.rs].  It meets its journal through the class
    [EditTxnJournal] (the operations of the trait of that name); what the
    engine needs of a journal is the class [LawfulJournal] of [EditRecovery].
    [EditJournal] is the session ledger's rows for such transactions
    ([session/src/ledger]), [EditLedgerJournal] the instance of both classes
    over them.  [EditTxnThms], [EditRecovery] and [EditRollback] prove the
    engine against the interface; [EditJournalThms] proves the ledger's fold.

    Worker plane.  [WorkerModel] is the data of [worker/src/ids.rs], [model.rs]
    and [error.rs], with capability normalisation and matching.  [WorkerStore]
    is the trait [WorkerStore] of [store.rs] as a signature of calls and its
    memory implementation as functions on [MemoryState].  [WorkerPlane] is
    [service.rs]: every method as a program over those calls, and [step], which
    runs any number of methods at once, one store call at a time, and may end
    one or move the clock between any two.  [WorkerInv] is the invariant of the
    store and [evolves], the order in which stores grow; [WorkerCalls] proves
    each store call against them, [WorkerSafe] each method; [WorkerThms] draws
    the properties; [WorkerRevoke] is what a revocation guarantees.

    Approvals.  [ApprovalModel] is the data of [approval/src/model.rs] with its
    checks, digests and signatures; [ApprovalStore] the hash-chained ledger of
    [store.rs], its head and anchor files, the transaction that appends and the
    monotonic clock; [ApprovalAuthority] every method of [authority.rs] and the
    registry of [operator.rs].  Methods are programs over files and locks;
    [ApprovalSystem] runs any number of them, one file operation at a time,
    with operations that fail, appends that stop half-way and processes that
    die.  [ApprovalChain] is what the ledger stands for, [ApprovalText] its
    bytes; [ApprovalRuns] proves what one method may conclude whoever wrote the
    files; [ApprovalLogic] is a rely-guarantee logic for programs that take
    locks, [ApprovalInv] the layouts of the disk, [ApprovalSafe] and
    [ApprovalThms] prove every method and the system against it;
    [ApprovalJam] is what an interrupted append leaves behind,
    [ApprovalProgress] the way of a request that should be approved.
    [ApprovalWire] and [ApprovalDemo] instantiate the parameters and run it.

    Updates.  [UpdaterManifest] is [updater/src/version.rs], [compat.rs],
    [channel.rs], [keys.rs], [manifest.rs] and [error.rs]: what a manifest
    says, when it is well formed, and when a key of the allowlist signed it;
    [UpdaterCanonical] shows what the signed bytes determine.  [UpdaterStore]
    is the data of [store.rs] (operation rows, anti-rollback floors), the
    install pointer and the signature of events the methods are written in;
    [UpdaterInstall] the install root of [install.rs] and [release.rs];
    [UpdaterService] and [UpdaterRelease] every method of [service.rs].
    [UpdaterSystem] says what each event may answer and do, and runs any number
    of methods at once, one event at a time, with calls that fail and processes
    that die anywhere.  [UpdaterInv] is the invariant of the disk and [evolves],
    how a disk may change; [UpdaterCalls] proves each event against them,
    [UpdaterLogic], [UpdaterSafe] and [UpdaterReleaseSafe] each method, and
    [UpdaterThms] draws the properties of the system.  [UpdaterQuiet] is a host
    on which nothing fails, [UpdaterRuns] the logic of one method on it,
    [UpdaterRecovery] and [UpdaterLiveness] what recovery and an install then
    achieve, [UpdaterJam] the one signed input that stops it; [UpdaterDemo]
    instantiates the parameters and runs the updater.

    Shared.  [Prelude] holds the results, machine integers and tactics
    everything uses; [Strings] and [Bytes] the operations on [&str] and on
    bytes, [Effects] the trees of events that worker plane, approval
    authority and updater are written in, [Rely] the systems of such programs
    that share a world, with the rule that programs safe alone keep an
    invariant together.

    ** What the theorems show

    - Sessions: replay of the journal reconstructs the row after any history of
      commands, storage refusals and SQLite errors included; replay accepts
      exactly the journals of a declarative contract; closed and failed sessions
      stay so; what crash recovery answers and leaves is fixed by the journal,
      the state and what storage lets it append.
    - Tasks: every completed task carries a passing verification record for
      exactly its revision; completion resumes after a death at any seam;
      revisions lock content.
    - Money: the spent column is the sum of the settled charges, added one by
      one as SQLite adds; spending stays under a cap of at most 2^53 micro-units
      up to what providers bill above their predictions;
      reservations only move forward; recovery and finalisation are exact and
      idempotent; a quote is the exact rounded-up price, capped.
    - Scheduling: outcomes are recorded exactly once, dependencies run first,
      tasks whose canonical entries share a file never run together (the test is
      on spellings: other spellings of one path escape it), permits are exactly
      accounted for,
      nothing panics, no wake-up is lost, the validator is exact; ownership
      tests agree with the sets of files they stand for.
    - Breakers: one probe per trip under any interleaving; for one caller the
      atomics refine the three-state circuit; the board is an LRU cache.
    - Edits: an operation replaces exactly the range, match or region it names,
      or fails for the one reason that applies, and keeps text valid UTF-8; a
      diff is a minimal edit script, and a patch that applies; under any
      interference, failure or crash the engine writes only where it has just
      read a text with the digest it expects, and replaces that very text unless
      somebody changed the file after the recheck opened it; a conflicted
      roll-back transaction restores what it wrote; a transaction survives any
      number of crashes up to one typed refusal; the ledger's read-back of open
      transactions is the product of one automaton per transaction, and is kept
      by compaction.

    - Workers: under any interleaving and any death between two store calls, a
      generation has one lease, tenants and trust domains do not mix, attempts
      are accounted for and bounded, history only grows, a job has at most one
      result as long as results land under leases of their own jobs, and a
      revoked worker stays without leases once the calls in flight are done
      (a job assigned to it is stranded: [revoked_assignee_strands_job]).

    - Approvals: under any interleaving, failure and death the ledger stays a
      chain of admitted entries, what was answered stays on record and expiry
      is final; a token takes a registered human's signature on exactly the
      action, whatever the files say; a rewritten or shortened ledger is
      refused as long as the anchor stands; approved work gets its token; an
      append interrupted before its head stops the authority.

    - Updates: under any interleaving, failure and death the install pointer
      and every release binary are an artifact of a signed manifest, whose bytes
      are there and hash to its digest, and a floor is earned by a signed
      manifest whose artifact was published; a floor falls only by a recorded
      downgrade; a launch target takes a signature over exactly it, whatever
      the files say; the signed bytes determine the manifest; recovery settles
      every interrupted operation, an apply or downgrade with exactly the
      outcome that the pointer, the release and the probe call for, unless a
      signed generation does not fit the store, which stops the updater for
      good; a signed release that is served honestly installs on an idle host
      whose release directories are in order.

    Where the code does something else than it says, the theorem states what
    it does (for example [submit_ignores_the_leases_job],
    [interrupted_append_jams] or [second_prepared_row_blocks_recovery]).

    ** Modelling choices

    - Machine integers are [N] or [Z] with their bounds written out: [u64] and
      [u32] saturate, check or wrap as the source does at that place.  The
      diff is the debug build (a failed [debug_assert] or an index out of
      bounds is [None]); [apply_op] is the release build (unchecked [usize]
      additions wrap).  Everything is the Unix build.
    - Strings are their bytes.  JSON texts are strings that enter already
      printed; where only their size matters it is a parameter.
    - Tables are [gmap]s or row lists of one session.  A store method is one
      transaction.  A money column is an SQLite number: an integer that fits 64
      bits, or the REAL an addition past them turns it into.  How [total()] adds
      doubles is a class ([SqlTotal]) of what SQLite documents: exact up to 2^53,
      and never small when the exact sum is large.  The storage-governance
      admission of an append and the failures of SQLite are an argument of each
      session command ([StoreAccess]), answered before the append.
    - A panic is [None]; an error is its kind (and, where tests tell them
      apart, the site), never its prose.
    - The scheduler's lock makes each critical section atomic; the iteration
      order of a [HashMap] is an argument, any enumeration of its keys.
      Breaker atomics are SeqCst, so interleaving is the whole story.
    - The edit engine runs on a schedule: each system or journal call takes one
      [tick], which carries what others did to the disk, the time passed, and
      whether the call fails or the process dies before it.  The writer's last
      digest recheck, its walk of the parent directory and its rename are calls
      of their own, so a text another program writes between them is lost, as
      the source says ([write_in_the_window_is_lost]).
    - A worker-plane method is a tree of store calls, clock reads and minted
      names.  UUIDs, token secrets and the token hash are parameters, assumed
      not to collide.  A minted name carries a ghost tag that says what it was
      minted for; nothing the code does depends on it.
    - An approval method is a tree of file and lock operations; a read is of a
      whole file, an append may write any prefix of its bytes and fail, a
      replacement ([atomic_replace]) happens or not.  Directories, [fsync], file
      names and the polling for a lock are left out: their failure is the
      failure of the operation they belong to.
    - An updater method is a tree of store statements, file steps and the seams
      (fetch, probe, restart, the schema observation).  All methods of a system
      run under one configuration.  A UUID or nonce is not drawn twice: the
      world keeps who drew it, a ghost.  The digest memo answers what hashing
      the file would.  The install root is written by the updater only; the
      theorem on launches assumes nothing of the files.  Recovery and the
      install are run to completion on a host where no call fails.
    - serde_json, blake3, ed25519 and the secret scanner are type classes
      ([Encode], [Decode], [Crypto], [Scanner]); what is used of them is stated
      as classes of laws ([JsonLine], [LawfulJson], [LawfulCrypto],
      [ShortRows]), which [ApprovalWire] shows to be consistent.  The updater
      has its own: [ReleaseWire] (manifest JSON, SHA-256, base64, ed25519),
      [InstallWire] with [LawfulInstall] and, in [UpdaterCanonical],
      [LawfulJson]; [UpdaterDemo] has the instances.
    - Other third-party code is a parameter: the tree-sitter parser, blake3,
      [from_utf8_lossy], [std::fs::canonicalize], the structural validators
      behind the task commands.

    ** Bounds and fuel

    A loop the source bounds by a counter keeps that bound.  The others run on
    fuel that is proved or computed to be enough: [propagate_total]
    (terminalization, one unit per edge and task), [visit_total] (DAG
    validation, one unit per task); a scheduling pass takes twice the queue's
    length, the snake and the rewind of the diff take the number of lines
    ([myers_total] says the search always answers), a row of diagonals [S d];
    the paging loops of the worker plane take any fuel and are, out of it, a
    method that died;
    the loop that computes the distance cap of the diff stops at 2828, within
    its 4096.

    ** Not modelled

    Asynchronous drivers (agent turns, orchestrator, tokio plumbing of the
    runner), HTTP and protocol surfaces, provider adapters, subprocesses,
    search and index (floating point and file I/O), the hosted control plane, payments,
    the commerce, supply and engineering domains, the build tooling.  Of the
    modelled parts: permission, checkpoint and compaction transactions of the
    session; price schedules; the billing outbox; serde visitors; path
    resolution, locks and watchers of the file service; entry kinds of the
    ledger other than [edit_txn]; the SQLite store of the worker plane (the
    same checks, one transaction per call), its runtime and HTTP client; the private
    key files of the approval authority; the updater's SQLite migrations and
    backups, its HTTP fetcher, the digest memo table, and how the launcher
    execs a release and waits for its handshake. *)
From Stdlib Require Export Lia.
From stdpp Require Export prelude gmap strings.

(** ** Machine integers

    Unsigned Rust integers are [N] kept below the width's bound, signed ones
    are [Z].  The saturating and checked operations of the source are written
    out here; subtraction on [N] is already the saturating one. *)
Module U64.
Definition max : N := 18446744073709551615.
Definition sat_add (a b : N) : N := N.min (a + b) max.
Definition sat_sub (a b : N) : N := a - b.
Definition sat_mul (a b : N) : N := N.min (a * b) max.
Definition checked_add (a b : N) : option N :=
  if (a + b <=? max)%N then Some (a + b)%N else None.
Definition fits (a : N) : Prop := (a <= max)%N.

Lemma checked_add_Some a b c :
  checked_add a b = Some c ↔ c = (a + b)%N ∧ (a + b <= max)%N.
Proof.
  unfold checked_add. destruct (N.leb_spec (a + b) max); naive_solver lia.
Qed.
End U64.
#[global] Arguments U64.checked_add : simpl never.
#[global] Arguments U64.max : simpl never.

Module U32.
Definition max : N := 4294967295.
Definition sat_add (a b : N) : N := N.min (a + b) max.
Definition fits (a : N) : Prop := (a <= max)%N.
End U32.

Module I64.
Definition max : Z := 9223372036854775807.
Definition min : Z := -9223372036854775808.
Definition clamp (z : Z) : Z := Z.max min (Z.min z max).
Definition sat_add (a b : Z) : Z := clamp (a + b).
Definition sat_sub (a b : Z) : Z := clamp (a - b).
(** The [u64 as i64] cast: the same 64 bits, read as two's complement. *)
Definition of_u64 (n : N) : Z :=
  if decide ((n <= 9223372036854775807)%N) then Z.of_N n
  else (Z.of_N n - 18446744073709551616)%Z.
Definition fits (z : Z) : Prop := (min <= z <= max)%Z.
End I64.

Create HintDb machine_ints.
#[export] Hint Unfold U64.max U64.sat_add U64.sat_sub U64.sat_mul U64.fits
  U32.max U32.sat_add U32.fits I64.max I64.min I64.clamp I64.sat_add
  I64.sat_sub I64.fits : machine_ints.
Ltac ints := autounfold with machine_ints in *; try lia.

(** ** Fallible code *)
Inductive result (A E : Type) : Type :=
  | Ok (a : A)
  | Err (e : E).
Arguments Ok {A E} a.
Arguments Err {A E} e.

Definition is_ok {A E} (r : result A E) : bool :=
  match r with Ok _ => true | Err _ => false end.

Definition rbind {A B E} (m : result A E) (k : A → result B E) : result B E :=
  match m with Ok a => k a | Err e => Err e end.

Definition rmap_err {A E F} (f : E → F) (m : result A E) : result A F :=
  match m with Ok a => Ok a | Err e => Err (f e) end.

Declare Scope rust_scope.
Delimit Scope rust_scope with rust.
Notation "x <-? m ; k" := (rbind m (λ x, k))
  (at level 20, m at level 100, k at level 200) : rust_scope.
Notation "m ;? k" := (rbind m (λ _, k))
  (at level 100, k at level 200, right associativity) : rust_scope.
Open Scope rust_scope.

#[global] Instance result_eq_dec {A E} `{EqDecision A, EqDecision E} :
  EqDecision (result A E).
Proof. solve_decision. Defined.

Lemma rbind_Ok {A B E} (m : result A E) (k : A → result B E) b :
  rbind m k = Ok b ↔ ∃ a, m = Ok a ∧ k a = Ok b.
Proof. destruct m; naive_solver. Qed.

Lemma rbind_Err {A B E} (m : result A E) (k : A → result B E) e :
  rbind m k = Err e ↔ m = Err e ∨ ∃ a, m = Ok a ∧ k a = Err e.
Proof. destruct m; naive_solver. Qed.

Lemma is_ok_true {A E} (r : result A E) : is_ok r = true ↔ ∃ a, r = Ok a.
Proof. destruct r; naive_solver. Qed.

(** ** Sums over finite maps *)
Definition msum {K A} `{Countable K} (f : K → A → nat) (m : gmap K A) : nat :=
  map_fold (λ k x acc, f k x + acc) 0 m.

Section MapSum.
Context {K A : Type} `{Countable K}.
Implicit Types (f : K → A → nat) (m : gmap K A).

Lemma msum_empty f : msum f ∅ = 0.
Proof. apply map_fold_empty. Qed.

Lemma msum_insert_fresh f m k x :
  m !! k = None → msum f (<[k:=x]> m) = f k x + msum f m.
Proof. intros Hk. unfold msum. rewrite map_fold_insert_L; [done|lia|done]. Qed.

Lemma msum_delete f m k x :
  m !! k = Some x → msum f m = f k x + msum f (delete k m).
Proof.
  intros Hk. rewrite <- (insert_delete_id m k x) at 1 by done.
  apply msum_insert_fresh, lookup_delete_eq.
Qed.

Lemma msum_insert f m k x y :
  m !! k = Some x → msum f (<[k:=y]> m) + f k x = msum f m + f k y.
Proof.
  intros Hk. rewrite (msum_delete f m k x) by done.
  rewrite <- insert_delete_eq, msum_insert_fresh by apply lookup_delete_eq. lia.
Qed.

Lemma msum_ext f g m :
  (∀ k x, m !! k = Some x → f k x = g k x) → msum f m = msum g m.
Proof.
  induction m as [|k x m Hk IH] using map_ind; intros Hfg; [done|].
  rewrite !msum_insert_fresh by done. rewrite (Hfg k x) by apply lookup_insert_eq.
  f_equal. apply IH. intros j y Hj. apply Hfg. rewrite lookup_insert_ne; naive_solver.
Qed.

Lemma msum_le f g m :
  (∀ k x, m !! k = Some x → f k x ≤ g k x) → msum f m ≤ msum g m.
Proof.
  induction m as [|k x m Hk IH] using map_ind; intros Hfg; [done|].
  rewrite !msum_insert_fresh by done.
  apply Nat.add_le_mono; [apply Hfg, lookup_insert_eq|].
  apply IH. intros j y Hj. apply Hfg. rewrite lookup_insert_ne; naive_solver.
Qed.

Lemma msum_zero f m : (∀ k x, m !! k = Some x → f k x = 0) → msum f m = 0.
Proof.
  intros Hz. induction m as [|k x m Hk IH] using map_ind; [done|].
  rewrite msum_insert_fresh by done. rewrite (Hz k x) by apply lookup_insert_eq.
  apply IH. intros j y Hj. apply Hz. rewrite lookup_insert_ne; naive_solver.
Qed.
End MapSum.
