(* ===== verification/AgentMachine.v ===== *)
(** * The session state machines of [crates/core]

    [core/src/state.rs] ([AgentState], [SessionLifecycle], [StateMachine]) and
    the typed errors of [core/src/error.rs] they raise.  The turn machine is
    the projection every journal event carries, the lifecycle is orthogonal to
    it and lives on the session row. *)
From S2P Require Import Prelude.

(** ** [AgentState] *)
Inductive AgentState :=
  | Idle | Preparing | BuildingContext | WaitingForModel | Streaming
  | ToolRequested | WaitingForPermission | ExecutingTool | Validating
  | UpdatingMemory | ReadyForNextTurn | Completed | Cancelled
  | FailedRecoverable | FailedPermanent | NeedsUserInput | Suspended.

#[global] Instance AgentState_eq_dec : EqDecision AgentState.
Proof. solve_decision. Defined.

Definition all_agent_states : list AgentState :=
  [Idle; Preparing; BuildingContext; WaitingForModel; Streaming;
   ToolRequested; WaitingForPermission; ExecutingTool; Validating;
   UpdatingMemory; ReadyForNextTurn; Completed; Cancelled;
   FailedRecoverable; FailedPermanent; NeedsUserInput; Suspended].

Module AgentState.
Definition as_tag (s : AgentState) : string :=
  match s with
  | Idle => "idle"
  | Preparing => "preparing"
  | BuildingContext => "building_context"
  | WaitingForModel => "waiting_for_model"
  | Streaming => "streaming"
  | ToolRequested => "tool_requested"
  | WaitingForPermission => "waiting_for_permission"
  | ExecutingTool => "executing_tool"
  | Validating => "validating"
  | UpdatingMemory => "updating_memory"
  | ReadyForNextTurn => "ready_for_next_turn"
  | Completed => "completed"
  | Cancelled => "cancelled"
  | FailedRecoverable => "failed_recoverable"
  | FailedPermanent => "failed_permanent"
  | NeedsUserInput => "needs_user_input"
  | Suspended => "suspended"
  end.

Definition allowed_transitions (s : AgentState) : list AgentState :=
  match s with
  | Idle => [Preparing; Suspended; Completed; Cancelled]
  | Preparing => [BuildingContext; FailedRecoverable; Cancelled; Suspended]
  | BuildingContext => [WaitingForModel; FailedRecoverable; Cancelled; Suspended]
  | WaitingForModel =>
      [Streaming; FailedRecoverable; Cancelled; Suspended; NeedsUserInput]
  | Streaming =>
      [ToolRequested; Validating; WaitingForModel; FailedRecoverable;
       Cancelled; Suspended]
  | ToolRequested =>
      [WaitingForPermission; ExecutingTool; Validating; Cancelled; Suspended]
  | WaitingForPermission =>
      [ExecutingTool; ReadyForNextTurn; Cancelled; Suspended; NeedsUserInput]
  | ExecutingTool =>
      [Validating; ToolRequested; FailedRecoverable; Cancelled; Suspended]
  | Validating =>
      [UpdatingMemory; ToolRequested; ExecutingTool; FailedRecoverable;
       Completed; Cancelled; Suspended]
  | UpdatingMemory =>
      [ReadyForNextTurn; WaitingForModel; Completed; FailedRecoverable;
       Cancelled; Suspended]
  | ReadyForNextTurn =>
      [Preparing; Completed; Cancelled; Suspended; NeedsUserInput]
  | Completed => []
  | Cancelled => [Preparing; ReadyForNextTurn; Suspended]
  | FailedPermanent => []
  | FailedRecoverable =>
      [Preparing; Idle; Cancelled; Suspended; NeedsUserInput]
  | NeedsUserInput => [ReadyForNextTurn; Preparing; Cancelled; Suspended]
  | Suspended => [Idle; Preparing; Cancelled; Completed]
  end.

Definition is_terminal (s : AgentState) : bool :=
  match s with Completed | FailedPermanent => true | _ => false end.

Definition is_active (s : AgentState) : bool :=
  negb (is_terminal s) && bool_decide (s ≠ Idle) && bool_decide (s ≠ Suspended).

Definition label (s : AgentState) : string :=
  match s with
  | Idle => "idle"
  | Preparing => "preparing"
  | BuildingContext => "building context"
  | WaitingForModel => "waiting for model"
  | Streaming => "streaming"
  | ToolRequested => "tool requested"
  | WaitingForPermission => "waiting for permission"
  | ExecutingTool => "executing tool"
  | Validating => "validating"
  | UpdatingMemory => "updating memory"
  | ReadyForNextTurn => "ready"
  | Completed => "completed"
  | Cancelled => "cancelled"
  | FailedRecoverable => "failed, retrying"
  | FailedPermanent => "failed"
  | NeedsUserInput => "needs input"
  | Suspended => "suspended"
  end.
End AgentState.

(** ** [SessionLifecycle] *)
Module SessionLifecycle.
Inductive t := Open | Suspended | Closing | Closed | FailedPermanent.

#[global] Instance t_eq_dec : EqDecision t.
Proof. solve_decision. Defined.

Definition allowed_transitions (l : t) : list t :=
  match l with
  | Open => [Suspended; Closing; Closed; FailedPermanent]
  | Suspended => [Open; Closing; Closed; FailedPermanent]
  | Closing => [Closed; FailedPermanent; Open]
  | Closed => []
  | FailedPermanent => []
  end.

Definition can_accept_prompts (l : t) : bool := bool_decide (l = Open).

Definition is_terminal (l : t) : bool :=
  match l with Closed | FailedPermanent => true | _ => false end.

Definition label (l : t) : string :=
  match l with
  | Open => "open"
  | Suspended => "suspended"
  | Closing => "closing"
  | Closed => "closed"
  | FailedPermanent => "failed"
  end.
End SessionLifecycle.

(** ** Typed errors ([core/src/error.rs]) *)
Inductive ErrorKind :=
  | NotFound
  | Conflict
  | InvalidState (from to : AgentState)
  | Permission
  | Timeout
  | CancelledKind
  | StoreKind
  | Network
  | Provider (code : string) (retryable : bool)
  | Malformed
  | Oversized
  | RateLimited
  | GoalUnavailableAfterRedaction (source_message_id : Z)
  | Deadlock
  | Internal.

#[global] Instance ErrorKind_eq_dec : EqDecision ErrorKind.
Proof. solve_decision. Defined.

Module ErrorKind.
Definition is_retryable (k : ErrorKind) : bool :=
  match k with
  | Network | Timeout | RateLimited | StoreKind | Deadlock => true
  | Provider _ r => r
  | _ => false
  end.
End ErrorKind.

Record Error := MkError {
  err_kind : ErrorKind;
  err_message : string;
  err_retryable : bool;
}.

#[global] Instance Error_eq_dec : EqDecision Error.
Proof. solve_decision. Defined.

Module Error.
Definition new (k : ErrorKind) (message : string) : Error :=
  MkError k message (ErrorKind.is_retryable k).
Definition not_found := new NotFound.
Definition conflict := new Conflict.
Definition timeout := new Timeout.
Definition cancelled : Error := new CancelledKind "operation cancelled".
Definition malformed := new Malformed.
Definition oversized := new Oversized.
Definition internal := new Internal.
End Error.

(** ** [StateMachine]

    The mutable wrapper is its single field; [transition] returns the state it
    leaves behind, or the error and (implicitly) the unchanged state. *)
Module StateMachine.
Definition new (initial : AgentState) : AgentState := initial.

Definition transition (m to : AgentState) : result AgentState Error :=
  if decide (m = to) then Ok m
  else if decide (to ∈ AgentState.allowed_transitions m) then Ok to
  else Err (Error.new (InvalidState m to)
              ("illegal state transition: " +:+ AgentState.label m +:+
               " -> " +:+ AgentState.label to)).

Definition force (m to : AgentState) : AgentState := to.

(** A sequence of [transition] calls on one machine; a refused call leaves
    the machine where it was. *)
Definition step (m to : AgentState) : AgentState :=
  match transition m to with Ok m' => m' | Err _ => m end.

Definition run (m : AgentState) (tos : list AgentState) : AgentState :=
  foldl step m tos.
End StateMachine.

(** [crash_target] of [session/src/recovery.rs]: the loop over the three
    candidates keeps the same machine, which a refused transition leaves
    untouched. *)
Definition crash_target (current : AgentState) : AgentState :=
  default current
    (list_find (λ t, is_ok (StateMachine.transition current t) = true)
       [FailedRecoverable; WaitingForPermission; NeedsUserInput] ≫= λ x, Some x.2).

(** ** Lemmas *)
Lemma all_agent_states_spec s : s ∈ all_agent_states.
Proof. destruct s; compute_done. Qed.

(** Decide a statement on all states by computation. *)
Lemma all_agent_states_forall (P : AgentState → bool) :
  forallb P all_agent_states = true → ∀ s, P s = true.
Proof.
  rewrite forallb_forall. intros H s. apply H, list_elem_of_In, all_agent_states_spec.
Qed.

Lemma transition_Ok m to m' :
  StateMachine.transition m to = Ok m' ↔
  m' = to ∧ (m = to ∨ to ∈ AgentState.allowed_transitions m).
Proof.
  unfold StateMachine.transition. repeat case_decide; naive_solver.
Qed.

Lemma transition_refused m to e :
  StateMachine.transition m to = Err e ↔
  m ≠ to ∧ to ∉ AgentState.allowed_transitions m ∧
  e = Error.new (InvalidState m to)
        ("illegal state transition: " +:+ AgentState.label m +:+
         " -> " +:+ AgentState.label to).
Proof.
  unfold StateMachine.transition. repeat case_decide; naive_solver.
Qed.

Lemma transition_self m : StateMachine.transition m m = Ok m.
Proof. unfold StateMachine.transition. by rewrite decide_True. Qed.

Lemma failed_permanent_not_allowed m :
  FailedPermanent ∉ AgentState.allowed_transitions m.
Proof. destruct m; compute_done. Qed.

Lemma step_terminal m to :
  AgentState.is_terminal m = true → StateMachine.step m to = m.
Proof. by destruct m, to. Qed.

Lemma step_not_failed_permanent m to :
  m ≠ FailedPermanent → StateMachine.step m to ≠ FailedPermanent.
Proof. by destruct m, to. Qed.

Lemma run_terminal m tos :
  AgentState.is_terminal m = true → StateMachine.run m tos = m.
Proof.
  intros Hm. induction tos as [|to tos IH]; [done|].
  unfold StateMachine.run in *. simpl. by rewrite step_terminal.
Qed.

Lemma run_not_failed_permanent m tos :
  m ≠ FailedPermanent → StateMachine.run m tos ≠ FailedPermanent.
Proof.
  revert m. induction tos as [|to tos IH]; intros m Hm; [done|].
  apply IH. by apply step_not_failed_permanent.
Qed.
