(* ===== verification/SessionJournal.v ===== *)
(** * The event journal and the session commands that append to it

    [core/src/event.rs] (event vocabulary, [JournalInvariants]),
    [session/src/journal.rs] ([validate_transition], [replay]),
    [session/src/payload.rs], the append path of [store/src/ledger.rs]
    ([insert_event_locked]) and [store/src/sessions.rs] ([create_session],
    [transition_session]), and the commands of [session/src/handle.rs] built on
    them.  Diagnostic texts are represented by one constructor per [format!]
    site carrying the interpolated values.

    Every command goes through a store that may refuse it: [StoreAccess] says,
    per command, what reading the row and what the writer answer.  The storage
    governor, the writer's queue and SQLite decide that; here it is any
    function of the admission purpose, and every theorem holds for all of
    them. *)
From S2P Require Import Prelude AgentMachine.

(** ** Event vocabulary *)
Inductive EventKind :=
  | SessionCreated | PromptReceived | ContextPrepared | ModelStarted
  | ModelChunkReceived | EvToolRequested | ToolStarted | FileChanged
  | ToolCompleted | ToolCancelled | CheckpointCreated | ContextCompacted
  | CompactRejected | SubagentStarted | SubagentCompleted | TurnCompleted
  | PermissionGranted | PermissionDenied | PermissionExpired | PromptAdmitted
  | PhaseChanged | ReplayStarted | CrashDetected | RecoveryApplied
  | SessionEnded | EvSuspended | Resumed | EvFailed.

#[global] Instance EventKind_eq_dec : EqDecision EventKind.
Proof. solve_decision. Defined.

Module EventKind.
Definition as_tag (k : EventKind) : string :=
  match k with
  | SessionCreated => "session_created"
  | PromptReceived => "prompt_received"
  | ContextPrepared => "context_prepared"
  | ModelStarted => "model_started"
  | ModelChunkReceived => "model_chunk_received"
  | EvToolRequested => "tool_requested"
  | ToolStarted => "tool_started"
  | FileChanged => "file_changed"
  | ToolCompleted => "tool_completed"
  | ToolCancelled => "tool_cancelled"
  | CheckpointCreated => "checkpoint_created"
  | ContextCompacted => "context_compacted"
  | CompactRejected => "compact_rejected"
  | SubagentStarted => "subagent_started"
  | SubagentCompleted => "subagent_completed"
  | TurnCompleted => "turn_completed"
  | PermissionGranted => "permission_granted"
  | PermissionDenied => "permission_denied"
  | PermissionExpired => "permission_expired"
  | PromptAdmitted => "prompt_admitted"
  | PhaseChanged => "phase_changed"
  | ReplayStarted => "replay_started"
  | CrashDetected => "crash_detected"
  | RecoveryApplied => "recovery_applied"
  | SessionEnded => "session_ended"
  | EvSuspended => "suspended"
  | Resumed => "resumed"
  | EvFailed => "failed"
  end.

Definition ALL : list EventKind :=
  [SessionCreated; PromptReceived; ContextPrepared; ModelStarted;
   ModelChunkReceived; EvToolRequested; ToolStarted; FileChanged;
   ToolCompleted; ToolCancelled; CheckpointCreated; ContextCompacted;
   CompactRejected; SubagentStarted; SubagentCompleted; TurnCompleted;
   PermissionGranted; PermissionDenied; PermissionExpired; PromptAdmitted;
   PhaseChanged; ReplayStarted; CrashDetected; RecoveryApplied;
   SessionEnded; EvSuspended; Resumed; EvFailed].
End EventKind.

(** The durable spelling of [store/src/ledger.rs]. *)
Definition kind_name (k : EventKind) : string :=
  match k with
  | SessionCreated => "session_created"
  | PromptReceived => "prompt_received"
  | ContextPrepared => "context_prepared"
  | ModelStarted => "model_started"
  | ModelChunkReceived => "model_chunk_received"
  | EvToolRequested => "tool_requested"
  | ToolStarted => "tool_started"
  | FileChanged => "file_changed"
  | ToolCompleted => "tool_completed"
  | ToolCancelled => "tool_cancelled"
  | CheckpointCreated => "checkpoint_created"
  | ContextCompacted => "context_compacted"
  | CompactRejected => "compact_rejected"
  | SubagentStarted => "subagent_started"
  | SubagentCompleted => "subagent_completed"
  | TurnCompleted => "turn_completed"
  | PermissionGranted => "permission_granted"
  | PermissionDenied => "permission_denied"
  | PermissionExpired => "permission_expired"
  | PhaseChanged => "phase_changed"
  | ReplayStarted => "replay_started"
  | PromptAdmitted => "prompt_admitted"
  | CrashDetected => "crash_detected"
  | RecoveryApplied => "recovery_applied"
  | SessionEnded => "session_ended"
  | EvSuspended => "suspended"
  | Resumed => "resumed"
  | EvFailed => "failed"
  end.

Definition kind_from_name (name : string) : option EventKind :=
  if decide (name = "session_created") then Some SessionCreated
  else if decide (name = "prompt_received") then Some PromptReceived
  else if decide (name = "context_prepared") then Some ContextPrepared
  else if decide (name = "model_started") then Some ModelStarted
  else if decide (name = "model_chunk_received") then Some ModelChunkReceived
  else if decide (name = "tool_requested") then Some EvToolRequested
  else if decide (name = "tool_started") then Some ToolStarted
  else if decide (name = "file_changed") then Some FileChanged
  else if decide (name = "tool_completed") then Some ToolCompleted
  else if decide (name = "tool_cancelled") then Some ToolCancelled
  else if decide (name = "checkpoint_created") then Some CheckpointCreated
  else if decide (name = "context_compacted") then Some ContextCompacted
  else if decide (name = "compact_rejected") then Some CompactRejected
  else if decide (name = "subagent_started") then Some SubagentStarted
  else if decide (name = "subagent_completed") then Some SubagentCompleted
  else if decide (name = "turn_completed") then Some TurnCompleted
  else if decide (name = "permission_granted") then Some PermissionGranted
  else if decide (name = "permission_denied") then Some PermissionDenied
  else if decide (name = "permission_expired") then Some PermissionExpired
  else if decide (name = "phase_changed") then Some PhaseChanged
  else if decide (name = "replay_started") then Some ReplayStarted
  else if decide (name = "prompt_admitted") then Some PromptAdmitted
  else if decide (name = "crash_detected") then Some CrashDetected
  else if decide (name = "recovery_applied") then Some RecoveryApplied
  else if decide (name = "session_ended") then Some SessionEnded
  else if decide (name = "suspended") then Some EvSuspended
  else if decide (name = "resumed") then Some Resumed
  else if decide (name = "failed") then Some EvFailed
  else None.

(** ** [JournalInvariants] *)
Module JournalInvariants.
Definition checked_next_seq (prev : option N) : option N :=
  match prev with
  | None => Some 1%N
  | Some p => U64.checked_add p 1
  end.

Definition monotonic_ts (prev_ts : option Z) (now : Z) : Z :=
  match prev_ts with
  | None => now
  | Some p => if decide ((now >= p)%Z) then now else p
  end.
End JournalInvariants.

(** ** Errors of the session layer *)
Inductive Corruption :=
  | MissingSessionCreated
  | FirstSeq (seq : N)
  | FirstKind (k : EventKind)
  | FirstState (s : AgentState)
  | SeqMismatch (seq expected : N)
  | SequenceOverflow
  | TimestampRegression (seq : N) (ts prev : Z)
  | IllegalAt (seq : N) (from to : AgentState)
  | MalformedAt (seq : N).

Inductive StoreError :=
  | CorruptSeq (** the latest row holds sequence 0 *)
  | CorruptSeqOverflow
  | LifecycleMismatch (durable expected : SessionLifecycle.t)
  | StateMismatch (durable expected : AgentState)
  | StorageRefused
  | WriterQueueFull
  | WriterUnavailable
  | ReaderBusy
  | SqliteError.

Inductive SessionError :=
  | IllegalTransition (from to : AgentState) (message : string)
  | MalformedInput (what : string)
  | ConflictProcesses (n : nat)
  | ConflictOwned (pid : N)
  | NotOwned (pid : N)
  | ConflictTerminal (l : SessionLifecycle.t)
  | InternalCorruption (c : Corruption)
  | FromStore (e : StoreError).

(** The admission band a write asks for. *)
Inductive AdmissionPurpose := Normal | EmergencyMetadata | Recovery.

(** One command's luck with the store: what its [n]-th read of the session row
    fails with, and what the writer refuses a transaction of each band with;
    [None] is no failure.  A transaction that fails has rolled back. *)
Record StoreAccess := MkStoreAccess {
  acc_read : nat → option StoreError;
  acc_write : AdmissionPurpose → option StoreError;
}.

Definition fails_with (e : option StoreError) : result () StoreError :=
  match e with Some e => Err e | None => Ok () end.

(** [WriterService::execute_with_purpose] around one transaction. *)
Definition execute_with_purpose {A} (acc : StoreAccess) (purpose : AdmissionPurpose)
    (txn : result A StoreError) : result A StoreError :=
  fails_with (acc_write acc purpose);? txn.

Definition illegal (from to : AgentState) : SessionError :=
  IllegalTransition from to
    (AgentState.label from +:+ " -> " +:+ AgentState.label to).

(** ** [validate_transition] *)
Definition hop (current to m target : AgentState) : result AgentState SessionError :=
  rmap_err (λ _, illegal current to) (StateMachine.transition m target).

Definition validate_transition (current : AgentState) (kind : EventKind)
    (to : AgentState) : result () SessionError :=
  let m := StateMachine.new current in
  match kind with
  | EvToolRequested =>
      if decide (to ≠ WaitingForPermission) then
        Err (MalformedInput
               "ToolRequested events must record state WaitingForPermission")
      else
        m1 <-? hop current to m ToolRequested;
        (hop current to m1 WaitingForPermission;? Ok ())
  | EvFailed =>
      if decide (to = FailedPermanent) then
        hop current to m FailedRecoverable;? Ok ()
      else hop current to m to;? Ok ()
  | _ => hop current to m to;? Ok ()
  end.

Section Journal.
(** [serde_json] values and the derived decoders of the two registered
    payload shapes are third-party code. *)
Context {Value : Type}.
Variable abort_of : Value → option (string * option N).
Variable failed_of : Value → option string.

Record Event := MkEvent {
  ev_seq : N;
  ev_op : option N;
  ev_kind : EventKind;
  ev_state : AgentState;
  ev_ts : Z;
  ev_payload : option Value;
}.

(** ** Journal payloads ([session/src/payload.rs]) *)
Definition PAYLOAD_SCHEMA_V : Z := 1.

Inductive TypedEventPayload :=
  | PFailed (message : string)
  | PFailedAborted (error : string) (op_id : option N)
  | POpaque (v : option Value).

Definition decode_payload (kind : EventKind) (ver : Z) (payload : option Value) :
    result TypedEventPayload SessionError :=
  if decide (ver ≠ PAYLOAD_SCHEMA_V) then
    Err (MalformedInput "journal payload schema version is unknown")
  else
    match kind with
    | EvFailed =>
        match payload with
        | None => Err (MalformedInput
            "Failed event without a payload violates the v1 schema")
        | Some value =>
            match abort_of value with
            | Some (error, op_id) => Ok (PFailedAborted error op_id)
            | None =>
                match failed_of value with
                | Some message => Ok (PFailed message)
                | None => Err (MalformedInput
                    "Failed event payload violates the v1 schema")
                end
            end
        end
    | _ => Ok (POpaque payload)
    end.

Definition validate_payload (kind : EventKind) (ver : Z) (payload : option Value) :
    result () SessionError :=
  if decide (ver ≠ PAYLOAD_SCHEMA_V) then
    Err (MalformedInput "journal payload schema version is unknown")
  else
    match kind with
    | EvFailed =>
        match payload with
        | None => Err (MalformedInput
            "Failed event without a payload violates the v1 schema")
        | Some value =>
            match abort_of value with
            | Some _ => Ok ()
            | None =>
                match failed_of value with
                | Some _ => Ok ()
                | None => Err (MalformedInput
                    "Failed event payload violates the v1 schema")
                end
            end
        end
    | _ => Ok ()
    end.

(** ** [replay] *)
Record ReplayOutcome := MkReplayOutcome {
  ro_state : AgentState;
  ro_last_seq : N;
  ro_event_count : N;
}.

Definition corruption_at (seq : N) (e : SessionError) : SessionError :=
  match e with
  | IllegalTransition from to _ => InternalCorruption (IllegalAt seq from to)
  | _ => InternalCorruption (MalformedAt seq)
  end.

(** One iteration of the replay loop; [index] is the loop counter. *)
Definition replay_step (index : nat) (acc : AgentState * N * Z) (e : Event) :
    result (AgentState * N * Z) SessionError :=
  let '(m, expected_seq, previous_ts) := acc in
  if decide (ev_seq e ≠ expected_seq) then
    Err (InternalCorruption (SeqMismatch (ev_seq e) expected_seq))
  else
    match U64.checked_add expected_seq 1 with
    | None => Err (InternalCorruption SequenceOverflow)
    | Some expected_seq' =>
        if decide ((ev_ts e < previous_ts)%Z) then
          Err (InternalCorruption
                 (TimestampRegression (ev_seq e) (ev_ts e) previous_ts))
        else if decide (index = 0) then Ok (m, expected_seq', ev_ts e)
        else
          rmap_err (corruption_at (ev_seq e))
            (validate_transition m (ev_kind e) (ev_state e));?
          Ok (StateMachine.force m (ev_state e), expected_seq', ev_ts e)
    end.

Fixpoint replay_loop (index : nat) (acc : AgentState * N * Z) (es : list Event) :
    result (AgentState * N * Z) SessionError :=
  match es with
  | [] => Ok acc
  | e :: es' => acc' <-? replay_step index acc e; replay_loop (S index) acc' es'
  end.

Definition replay (events : list Event) : result ReplayOutcome SessionError :=
  match head events with
  | None => Err (InternalCorruption MissingSessionCreated)
  | Some first =>
      if decide (ev_seq first ≠ 1%N) then
        Err (InternalCorruption (FirstSeq (ev_seq first)))
      else if decide (ev_kind first ≠ SessionCreated) then
        Err (InternalCorruption (FirstKind (ev_kind first)))
      else if decide (ev_state first ≠ Idle) then
        Err (InternalCorruption (FirstState (ev_state first)))
      else
        acc <-? replay_loop 0 (StateMachine.new (ev_state first), 1%N, ev_ts first) events;
        match last events with
        | None => Err (InternalCorruption MissingSessionCreated)
        | Some l => Ok (MkReplayOutcome acc.1.1 (ev_seq l) (N.of_nat (length events)))
        end
  end.

(** ** The session row, its journal and its owned processes

    One session: the columns of the row the commands touch, the journal rows
    in ascending sequence order, and the pids of the process registry. *)
Record Session := MkSession {
  s_lifecycle : SessionLifecycle.t;
  s_state : AgentState;
  s_updated_ms : Z;
  s_events : list Event;
  s_owned : gset N;
}.

(** [ORDER BY seq DESC LIMIT 1]. *)
Definition latest_event (events : list Event) : option Event :=
  foldl (λ acc e,
    match acc with
    | None => Some e
    | Some a => if decide ((ev_seq a < ev_seq e)%N) then Some e else Some a
    end) None events.

Definition insert_event_locked (s : Session) (op : option N) (kind : EventKind)
    (state : AgentState) (ts_ms : Z) (payload : option Value) :
    result (Session * N) StoreError :=
  prev <-? match latest_event (s_events s) with
           | None => Ok (None, None)
           | Some e =>
               if decide (ev_seq e = 0%N) then Err CorruptSeq
               else Ok (Some (ev_seq e), Some (ev_ts e))
           end;
  match JournalInvariants.checked_next_seq prev.1 with
  | None => Err CorruptSeqOverflow
  | Some seq =>
      if decide ((seq <= 9223372036854775807)%N) then
        let ts := JournalInvariants.monotonic_ts prev.2 ts_ms in
        Ok (MkSession (s_lifecycle s) state ts
              (s_events s ++ [MkEvent seq op kind state ts payload]) (s_owned s),
            seq)
      else Err CorruptSeqOverflow
  end.

(** [Store::append_event_v] and its recovery-class sibling. *)
Definition append_event_v_with_purpose (acc : StoreAccess) (purpose : AdmissionPurpose)
    (s : Session) (op : option N) (kind : EventKind) (state : AgentState) (ts_ms : Z)
    (payload : option Value) : result (Session * N) StoreError :=
  execute_with_purpose acc purpose (insert_event_locked s op kind state ts_ms payload).

(** [Store::create_session]: the row and its seed event in one transaction. *)
Definition create_session (acc : StoreAccess) (now : Z) (created_payload : Value) :
    result Session StoreError :=
  r <-? execute_with_purpose acc EmergencyMetadata
          (insert_event_locked
             (MkSession SessionLifecycle.Open Idle now [] ∅)
             None SessionCreated Idle now (Some created_payload));
  Ok r.1.

Record SessionTransition := MkSessionTransition {
  expected_lifecycle : option SessionLifecycle.t;
  new_lifecycle : option SessionLifecycle.t;
  expected_state : option AgentState;
  new_state : AgentState;
  event_kind : EventKind;
  event_payload : option Value;
}.

Definition transition_session (acc : StoreAccess) (s : Session) (op : option N)
    (t : SessionTransition) (now : Z) : result (Session * N) StoreError :=
  execute_with_purpose acc EmergencyMetadata
    ((match expected_lifecycle t with
      | Some expected =>
          if decide (s_lifecycle s ≠ expected)
          then Err (LifecycleMismatch (s_lifecycle s) expected) else Ok ()
      | None => Ok ()
      end);?
     (match expected_state t with
      | Some expected =>
          if decide (s_state s ≠ expected)
          then Err (StateMismatch (s_state s) expected) else Ok ()
      | None => Ok ()
      end);?
     let row :=
       MkSession (default (s_lifecycle s) (new_lifecycle t)) (new_state t) now
         (s_events s) (s_owned s) in
     insert_event_locked row op (event_kind t) (new_state t) now (event_payload t)).

(** ** The commands of [SessionHandle]

    Every command reads the durable row under the session's command lock, so
    a command is one atomic step on [Session]. *)

(** [SessionHandle::row]: the columns the caller asks for, of the durable row. *)
Definition read_row {A} (acc : StoreAccess) (n : nat) (column : A) : result A SessionError :=
  rmap_err FromStore (fails_with (acc_read acc n));? Ok column.

Definition transition_locked_inner (acc : StoreAccess) (n : nat) (recovery : bool)
    (s : Session) (kind : EventKind) (to : AgentState) (op : option N) (payload : option Value)
    (now : Z) : result (Session * N) SessionError :=
  current <-? read_row acc n (s_state s);
  validate_transition current kind to;?
  validate_payload kind PAYLOAD_SCHEMA_V payload;?
  rmap_err FromStore
    (append_event_v_with_purpose acc (if recovery then Recovery else EmergencyMetadata)
       s op kind to now payload).

Definition transition_locked (acc : StoreAccess) :=
  transition_locked_inner acc 0 false.

(** The sweep has read the row once before it gets here. *)
Definition transition_locked_recovery (acc : StoreAccess) :=
  transition_locked_inner acc 1 true.

Definition append_event := transition_locked.

Definition force_append_event (acc : StoreAccess) (s : Session) (kind : EventKind)
    (state : AgentState) (op : option N) (payload : option Value) (now : Z) :
    result (Session * N) SessionError :=
  validate_payload kind PAYLOAD_SCHEMA_V payload;?
  rmap_err FromStore
    (append_event_v_with_purpose acc EmergencyMetadata s op kind state now payload).

Definition suspend (acc : StoreAccess) (s : Session) (now : Z) :
    result (Session * N) SessionError :=
  current <-? read_row acc 0 (s_state s);
  validate_transition current EvSuspended Suspended;?
  rmap_err FromStore
    (transition_session acc s None
       (MkSessionTransition (Some SessionLifecycle.Open)
          (Some SessionLifecycle.Suspended) (Some current) Suspended
          EvSuspended None) now).

Definition resume (acc : StoreAccess) (s : Session) (to : AgentState) (now : Z) :
    result (Session * N) SessionError :=
  if decide (to ≠ Idle ∧ to ≠ Preparing) then
    Err (MalformedInput "resume target must be Idle or Preparing")
  else
    current <-? read_row acc 0 (s_state s);
    validate_transition current Resumed to;?
    rmap_err FromStore
      (transition_session acc s None
         (MkSessionTransition (Some SessionLifecycle.Suspended)
            (Some SessionLifecycle.Open) (Some current) to Resumed None) now).

Definition reset (acc : StoreAccess) (s : Session) (now : Z) :
    result (Session * N) SessionError :=
  append_event acc s RecoveryApplied Idle None None now.

Definition end_session (acc : StoreAccess) (s : Session) (now : Z) :
    result (Session * N) SessionError :=
  if decide (s_owned s ≠ ∅) then Err (ConflictProcesses (size (s_owned s)))
  else
    lifecycle <-? read_row acc 0 (s_lifecycle s);
    if SessionLifecycle.is_terminal lifecycle then Err (ConflictTerminal lifecycle)
    else
      current <-? read_row acc 1 (s_state s);
      validate_transition current SessionEnded Completed;?
      rmap_err FromStore
        (transition_session acc s None
           (MkSessionTransition (Some lifecycle) (Some SessionLifecycle.Closed)
              (Some current) Completed SessionEnded None) now).

(** [json_message] is [serde_json::json!({ "message": message })]. *)
Variable json_message : string → Value.

Definition mark_failed (acc : StoreAccess) (s : Session) (permanent : bool)
    (message : string) (now : Z) : result (Session * N) SessionError :=
  let to := if permanent then FailedPermanent else FailedRecoverable in
  append_event acc s EvFailed to None (Some (json_message message)) now.

Definition is_op_active (s : AgentState) : bool :=
  match s with
  | Preparing | BuildingContext | WaitingForModel | Streaming | ToolRequested
  | WaitingForPermission | ExecutingTool | Validating | UpdatingMemory => true
  | _ => false
  end.

Definition drained (s : Session) : Session :=
  MkSession (s_lifecycle s) (s_state s) (s_updated_ms s) (s_events s) ∅.

(** The [pending.is_empty()] branch of [recover_all]: the registry is
    drained, and only then is an interrupted turn journaled as
    [CrashDetected], which the store may refuse: the session this command
    leaves is its first component, its answer the second. *)
Definition recover_interrupted (acc : StoreAccess) (s : Session) (recovered_from : Value)
    (now : Z) : Session * result () SessionError :=
  match read_row acc 0 (s_state s) with
  | Err e => (s, Err e)
  | Ok current =>
      let s' := drained s in
      if is_op_active current then
        match transition_locked_recovery acc s' CrashDetected (crash_target current) None
                (Some recovered_from) now with
        | Ok r => (r.1, Ok ())
        | Err e => (s', Err e)
        end
      else (s', Ok ())
  end.

(** The process registry ([session/src/process.rs]). *)
Definition register_process (s : Session) (pid : N) : result Session SessionError :=
  if decide (pid = 0%N) then Err (MalformedInput "pid 0 is not a child")
  else if decide (pid ∈ s_owned s) then Err (ConflictOwned pid)
  else Ok (MkSession (s_lifecycle s) (s_state s) (s_updated_ms s) (s_events s)
             ({[pid]} ∪ s_owned s)).

Definition release_process (s : Session) (pid : N) : result Session SessionError :=
  if decide (pid ∈ s_owned s) then
    Ok (MkSession (s_lifecycle s) (s_state s) (s_updated_ms s) (s_events s)
          (s_owned s ∖ {[pid]}))
  else Err (NotOwned pid).

Inductive Command :=
  | CAppend (kind : EventKind) (to : AgentState) (op : option N)
      (payload : option Value)
  | CSuspend
  | CResume (to : AgentState)
  | CReset
  | CEnd
  | CMarkFailed (permanent : bool) (message : string)
  | CRecover (recovered_from : Value)
  | CRegister (pid : N)
  | CRelease (pid : N).

(** A refused command writes nothing; only [CRecover] may leave its mark, on
    the registry. *)
Definition or_unchanged (s : Session) (r : result Session SessionError) :
    Session * result () SessionError :=
  match r with Ok s' => (s', Ok ()) | Err e => (s, Err e) end.

Definition exec (acc : StoreAccess) (s : Session) (c : Command) (now : Z) :
    Session * result () SessionError :=
  let fst_of (r : result (Session * N) SessionError) :=
    or_unchanged s (p <-? r; Ok p.1) in
  match c with
  | CAppend kind to op payload => fst_of (append_event acc s kind to op payload now)
  | CSuspend => fst_of (suspend acc s now)
  | CResume to => fst_of (resume acc s to now)
  | CReset => fst_of (reset acc s now)
  | CEnd => fst_of (end_session acc s now)
  | CMarkFailed p m => fst_of (mark_failed acc s p m now)
  | CRecover v => recover_interrupted acc s v now
  | CRegister pid => or_unchanged s (register_process s pid)
  | CRelease pid => or_unchanged s (release_process s pid)
  end.

Definition exec_or_keep (s : Session) (cn : Command * Z * StoreAccess) : Session :=
  (exec cn.2 s cn.1.1 cn.1.2).1.

Definition session_run (s : Session) (cs : list (Command * Z * StoreAccess)) : Session :=
  foldl exec_or_keep s cs.

(** ** The journal contract

    [journal es m]: [es] is a journal whose replay ends in [m].  A journal
    starts with the [SessionCreated]/[Idle] event at sequence 1 and grows by
    events that carry the next sequence number, a timestamp no earlier than
    the previous one and a state the kind may land on. *)
Inductive journal : list Event → AgentState → Prop :=
  | journal_created op ts v :
      journal [MkEvent 1 op SessionCreated Idle ts v] Idle
  | journal_append es m e l :
      journal es m →
      last es = Some l →
      ev_seq e = N.succ (N.of_nat (length es)) →
      (ev_ts l <= ev_ts e)%Z →
      validate_transition m (ev_kind e) (ev_state e) = Ok () →
      journal (es ++ [e]) (ev_state e).

(** ** Lemmas on the journal *)
Lemma journal_last es m :
  journal es m →
  ∃ l, last es = Some l ∧ latest_event es = Some l ∧
       ev_seq l = N.of_nat (length es) ∧ ev_state l = m.
Proof.
  induction 1 as [op ts v | es m e l J (l' & Hl & Hlat & Hseq & Hst) Hlast He Hts Hv].
  - by eexists.
  - exists e. rewrite last_snoc, length_app. unfold latest_event in *.
    rewrite foldl_app, Hlat. simpl. rewrite decide_True by lia.
    repeat split; simpl; lia.
Qed.

Lemma journal_nonempty es m : journal es m → es ≠ [].
Proof. destruct 1; [done|]. by destruct es. Qed.

Lemma journal_head es m :
  journal es m →
  ∃ e, head es = Some e ∧ ev_seq e = 1%N ∧ ev_kind e = SessionCreated ∧
       ev_state e = Idle.
Proof.
  induction 1 as [|es m e l J (f & Hf & ?) ?]; [by eexists|].
  exists f. by destruct es.
Qed.

Lemma latest_event_empty es : latest_event es = None ↔ es = [].
Proof.
  split; [|by intros ->]. destruct es as [|e es _] using rev_ind; [done|].
  unfold latest_event. rewrite foldl_app. simpl.
  destruct (foldl _ _ _); [|done]. by case_decide.
Qed.

(** What one append does to a journal that ends in [m]. *)
Lemma insert_event_locked_Ok s m op kind st now pl s' n :
  journal (s_events s) m →
  insert_event_locked s op kind st now pl = Ok (s', n) →
  ∃ l ts, last (s_events s) = Some l ∧
    ts = (if decide (now >= ev_ts l)%Z then now else ev_ts l) ∧
    n = N.succ (N.of_nat (length (s_events s))) ∧ (n <= 9223372036854775807)%N ∧
    s' = MkSession (s_lifecycle s) st ts
           (s_events s ++ [MkEvent n op kind st ts pl]) (s_owned s).
Proof.
  intros (l & Hl & Hlat & Hseq & Hst)%journal_last.
  unfold insert_event_locked. rewrite Hlat, Hseq.
  destruct (decide _) as [|Hnz]; [done|]. simpl.
  destruct (U64.checked_add _ _) as [seq|] eqn:Hadd; [|done].
  apply U64.checked_add_Some in Hadd as [-> Hfit]. rewrite N.add_1_r in *.
  destruct (decide _) as [Hle|]; [|done]. intros [= <- <-].
  exists l. eexists. split; [done|]. by split.
Qed.

Lemma insert_event_journal s m op kind st now pl s' n :
  journal (s_events s) m →
  validate_transition m kind st = Ok () →
  insert_event_locked s op kind st now pl = Ok (s', n) →
  journal (s_events s') st ∧ s_state s' = st ∧
  s_lifecycle s' = s_lifecycle s ∧ s_owned s' = s_owned s ∧
  n = N.of_nat (length (s_events s')) ∧ (n <= 9223372036854775807)%N.
Proof.
  intros HJ Hv Hi.
  destruct (insert_event_locked_Ok _ _ _ _ _ _ _ _ _ HJ Hi)
    as (l & ts & Hl & Hts & Hn & Hmax & ->). simpl.
  repeat split; try done.
  - apply (journal_append _ m (MkEvent n op kind st ts pl) l HJ Hl);
      simpl; [done| |done].
    subst ts. case_decide; lia.
  - rewrite length_app. simpl. lia.
Qed.

Lemma replay_loop_app i acc es es' :
  replay_loop i acc (es ++ es') =
  (acc' <-? replay_loop i acc es; replay_loop (i + length es) acc' es').
Proof.
  revert i acc. induction es as [|e es IH]; intros i acc; simpl.
  { by rewrite Nat.add_0_r. }
  destruct (replay_step i acc e); simpl; [|done].
  rewrite IH. by replace (i + S (length es)) with (S i + length es) by lia.
Qed.

(** The loop of [replay] accepts exactly the journals. *)
Lemma replay_loop_journal es f m n t :
  head es = Some f → ev_seq f = 1%N → ev_kind f = SessionCreated →
  ev_state f = Idle →
  replay_loop 0 (Idle, 1%N, ev_ts f) es = Ok (m, n, t) ↔
  journal es m ∧ n = N.succ (N.of_nat (length es)) ∧
  (N.of_nat (length es) < U64.max)%N ∧ ∃ l, last es = Some l ∧ ev_ts l = t.
Proof.
  revert m n t. induction es as [|e es IH] using rev_ind; [done|].
  intros m n t Hf Hseq Hk Hs.
  destruct (decide (es = [])) as [->|Hne].
  { simpl in Hf. injection Hf as ->. simpl. unfold replay_step. cbn beta iota.
    rewrite (decide_False (P := ev_seq f ≠ 1%N)) by naive_solver.
    rewrite (decide_False (P := (ev_ts f < ev_ts f)%Z)) by lia. simpl. split.
    - intros [= <- <- <-]. repeat split; try (unfold U64.max; lia); [|by eexists].
      destruct f; simpl in *; subst. constructor.
    - intros (J & -> & _ & l & [= <-] & <-). inversion J as [|es m' e' l' J']; subst.
      + done.
      + destruct es; [|by destruct es]. by apply journal_nonempty in J'. }
  assert (head es = Some f) as Hf' by by destruct es.
  rewrite replay_loop_app. rewrite length_app. simpl.
  destruct (length es) as [|k] eqn:Hlen; [by destruct es|].
  rewrite rbind_Ok. split.
  - intros ([[m0 n0] t0] & Hl & Hstep).
    apply (IH m0 n0 t0) in Hl; try done.
    destruct Hl as (HJ & -> & Hlt & l & Hlast & <-).
    rewrite rbind_Ok in Hstep. destruct Hstep as (acc & Hstep & [= ->]).
    unfold replay_step in Hstep.
    destruct (decide _) as [|Hseq']; [done|]. apply dec_stable in Hseq'.
    destruct (U64.checked_add _ _) as [n1|] eqn:Hadd; [|done].
    apply U64.checked_add_Some in Hadd as [-> Hle].
    destruct (decide _) as [|Hts]; [done|]. simpl in Hstep.
    apply rbind_Ok in Hstep as ([] & Hval & [= <- <- <-]).
    destruct (validate_transition m0 (ev_kind e) (ev_state e)) as [[]|] eqn:Hv; [|done].
    repeat split; try lia.
    + unfold StateMachine.force. apply (journal_append es m0 e l); try done; [|lia].
      rewrite Hlen. lia.
    + exists e. by rewrite last_snoc.
  - intros (HJ & -> & Hlt & l & Hl & <-). rewrite last_snoc in Hl. injection Hl as <-.
    inversion HJ as [op ts v Heq|es' m' e' l' HJ' Hlast Hseq' Hts Hv Heq]; subst.
    { apply (f_equal length) in Heq. rewrite length_app in Heq. simpl in Heq. lia. }
    apply app_inj_tail in Heq as [-> ->].
    exists (m', N.succ (N.of_nat (S k)), ev_ts l').
    rewrite Hlen in Hseq'. split.
    + apply IH; try done. rewrite <-Hlen. repeat split; try done; [lia|by eexists].
    + unfold replay_step.
      rewrite decide_False by (rewrite Hseq'; naive_solver).
      rewrite (proj2 (U64.checked_add_Some _ _ _)) by (split; [done|lia]).
      destruct (decide _) as [|_]; [lia|]. simpl.
      rewrite Hv. simpl. repeat f_equal. lia.
Qed.

(** ** Lemmas on the commands *)
Lemma hop_Ok current to m target m' :
  hop current to m target = Ok m' ↔
  m' = target ∧ (m = target ∨ target ∈ AgentState.allowed_transitions m).
Proof.
  unfold hop. rewrite <-transition_Ok.
  destruct (StateMachine.transition m target); naive_solver.
Qed.

Lemma validate_transition_terminal m kind to :
  AgentState.is_terminal m = true →
  validate_transition m kind to = Ok () → to = m.
Proof.
  intros Hm. destruct m; try discriminate Hm; by destruct kind, to.
Qed.

Lemma validate_transition_failed_permanent m kind :
  validate_transition m kind FailedPermanent = Ok () →
  m = FailedPermanent ∨
  kind = EvFailed ∧ (m = FailedRecoverable ∨
    FailedRecoverable ∈ AgentState.allowed_transitions m).
Proof.
  destruct m, kind; try done; intros _;
    first [by left | right; split; [done|]; first [by left | right; compute_done]].
Qed.

Lemma execute_Ok {A} acc purpose (txn : result A StoreError) x :
  execute_with_purpose acc purpose txn = Ok x ↔ acc_write acc purpose = None ∧ txn = Ok x.
Proof using Type.
  unfold execute_with_purpose, fails_with.
  destruct (acc_write acc purpose); cbn; split; try done; by intros [].
Qed.

Lemma read_row_Ok {A} acc n (c v : A) : read_row acc n c = Ok v ↔ acc_read acc n = None ∧ v = c.
Proof using Type.
  unfold read_row, fails_with. destruct (acc_read acc n); cbn; split; try done; try by intros [].
  - by intros [= <-].
  - by intros [_ ->].
Qed.

Lemma read_row_granted {A} acc n (c : A) : acc_read acc n = None → read_row acc n c = Ok c.
Proof using Type. intros H. by apply read_row_Ok. Qed.

Lemma read_row_refused {A} acc n e (c : A) :
  acc_read acc n = Some e → read_row acc n c = Err (FromStore e).
Proof using Type. intros H. unfold read_row, fails_with. by rewrite H. Qed.

Lemma transition_session_Ok acc s op t now s' n :
  transition_session acc s op t now = Ok (s', n) →
  (∀ l, expected_lifecycle t = Some l → s_lifecycle s = l) ∧
  insert_event_locked
    (MkSession (default (s_lifecycle s) (new_lifecycle t)) (new_state t) now
       (s_events s) (s_owned s))
    op (event_kind t) (new_state t) now (event_payload t) = Ok (s', n).
Proof.
  unfold transition_session. intros [_ H]%execute_Ok.
  apply rbind_Ok in H as (u1 & H1 & H). apply rbind_Ok in H as (u2 & H2 & H).
  split; [|done]. intros l Hl. rewrite Hl in H1.
  destruct (decide _) as [|Heq]; [done|]. by apply dec_stable in Heq.
Qed.

Definition session_ok (s : Session) : Prop :=
  journal (s_events s) (s_state s) ∧
  (N.of_nat (length (s_events s)) <= 9223372036854775807)%N.

(** The effect of every command on the row: nothing, or one legal event. *)
Inductive row_step (s s' : Session) : Prop :=
  | row_same :
      s_events s' = s_events s → s_state s' = s_state s →
      s_lifecycle s' = s_lifecycle s → row_step s s'
  | row_event kind op payload :
      validate_transition (s_state s) kind (s_state s') = Ok () →
      journal (s_events s') (s_state s') →
      (N.of_nat (length (s_events s')) <= 9223372036854775807)%N →
      (s_lifecycle s' = s_lifecycle s ∨
       s_lifecycle s' ∈ SessionLifecycle.allowed_transitions (s_lifecycle s)) →
      (s_lifecycle s' = SessionLifecycle.Closed →
       s_lifecycle s = SessionLifecycle.Closed ∨ s_state s' = Completed) →
      (s_lifecycle s' ∈ [SessionLifecycle.Open; SessionLifecycle.Suspended;
          SessionLifecycle.Closed] ∨ s_lifecycle s' = s_lifecycle s) →
      (∃ e, last (s_events s') = Some e ∧ ev_kind e = kind ∧
            ev_op e = op ∧ ev_payload e = payload) →
      validate_payload kind PAYLOAD_SCHEMA_V payload = Ok () →
      row_step s s'.

Lemma transition_locked_row acc i b s kind to op payload now s' n :
  session_ok s →
  transition_locked_inner acc i b s kind to op payload now = Ok (s', n) → row_step s s'.
Proof.
  intros [HJ Hlen] H. unfold transition_locked_inner in H.
  apply rbind_Ok in H as (c & [_ ->]%read_row_Ok & H).
  apply rbind_Ok in H as ([] & Hv & H). apply rbind_Ok in H as ([] & Hp & H).
  destruct (append_event_v_with_purpose _ _ _ _ _ _ _ _) as [[s1 n1]|] eqn:Hi; [|done].
  injection H as <- <-. apply execute_Ok in Hi as [_ Hi].
  destruct (insert_event_journal _ _ _ _ _ _ _ _ _ HJ Hv Hi)
    as (HJ' & Hst & Hl & Ho & Hn & Hm).
  destruct (insert_event_locked_Ok _ _ _ _ _ _ _ _ _ HJ Hi)
    as (l & ts & _ & _ & _ & _ & Hs1).
  apply (row_event _ _ kind op payload); rewrite ?Hst; try done.
  - by rewrite <-Hn.
  - by left.
  - rewrite Hl. auto.
  - by right.
  - subst s1. simpl. eexists. by rewrite last_snoc.
Qed.

Lemma transition_session_row s kind to l now s' n :
  session_ok s →
  validate_transition (s_state s) kind to = Ok () →
  kind ≠ EvFailed →
  l ∈ SessionLifecycle.allowed_transitions (s_lifecycle s) →
  l ∈ [SessionLifecycle.Open; SessionLifecycle.Suspended; SessionLifecycle.Closed] →
  (l = SessionLifecycle.Closed → to = Completed) →
  insert_event_locked (MkSession l to now (s_events s) (s_owned s))
    None kind to now None = Ok (s', n) → row_step s s'.
Proof.
  intros [HJ Hlen] Hv Hk Hl Hl' Hc Hi.
  destruct (insert_event_journal (MkSession l to now (s_events s) (s_owned s))
    (s_state s) _ _ _ _ _ _ _ HJ Hv Hi)
    as (HJ' & Hst & Hlc & Ho & Hn & Hm). simpl in *.
  destruct (insert_event_locked_Ok (MkSession l to now (s_events s) (s_owned s))
    (s_state s) _ _ _ _ _ _ _ HJ Hi)
    as (e & ts & _ & _ & _ & _ & Hs').
  apply (row_event _ _ kind None None); rewrite ?Hst, ?Hlc; try done; auto.
  - by rewrite <-Hn.
  - subst s'. simpl. eexists. by rewrite last_snoc.
  - unfold validate_payload. simpl. by destruct kind.
Qed.

Lemma row_step_refl s : row_step s s.
Proof. by apply row_same. Qed.

Lemma or_unchanged_row s (r : result (Session * N) SessionError) :
  (∀ s' n, r = Ok (s', n) → row_step s s') →
  row_step s (or_unchanged s (p <-? r; Ok p.1)).1.
Proof. intros H. destruct r as [[s' n]|e]; [by eapply H|apply row_step_refl]. Qed.

(** A session command over [transition_session]. *)
Lemma transition_session_rows acc s kind to now l l' s' n :
  session_ok s →
  validate_transition (s_state s) kind to = Ok () → kind ≠ EvFailed →
  (s_lifecycle s = l → l' ∈ SessionLifecycle.allowed_transitions l) →
  l' ∈ [SessionLifecycle.Open; SessionLifecycle.Suspended; SessionLifecycle.Closed] →
  (l' = SessionLifecycle.Closed → to = Completed) →
  rmap_err FromStore
    (transition_session acc s None
       (MkSessionTransition (Some l) (Some l') (Some (s_state s)) to kind None) now)
  = Ok (s', n) → row_step s s'.
Proof.
  intros Hok Hv Hk Hl Hl' Hc H.
  destruct (transition_session _ _ _ _ _) as [[s2 n2]|] eqn:Ht; [|done].
  injection H as <- <-. apply transition_session_Ok in Ht as [Hex Ht].
  specialize (Hex _ eq_refl). simpl in Ht.
  eapply transition_session_row; eauto. rewrite Hex. auto.
Qed.

Lemma recover_interrupted_row acc s v now :
  session_ok s → row_step s (recover_interrupted acc s v now).1.
Proof.
  intros Hok. unfold recover_interrupted. destruct (read_row _ _ _) as [c|e]; [|apply row_step_refl].
  assert (row_step s (drained s)) as Hd by by apply row_same.
  destruct (is_op_active c); [|done].
  destruct (transition_locked_recovery _ _ _ _ _ _ _) as [[s1 n]|e] eqn:E; [|done].
  apply transition_locked_row in E; [|done]. destruct E; [by apply row_same|by eapply row_event].
Qed.

Lemma exec_row acc s c now : session_ok s → row_step s (exec acc s c now).1.
Proof.
  intros Hok. destruct c as [kind to op pl| |to| | |p msg|v|pid|pid]; simpl.
  - apply or_unchanged_row. intros s' n. by eapply transition_locked_row.
  - apply or_unchanged_row. intros s' n H. unfold suspend in H.
    apply rbind_Ok in H as (c & [_ ->]%read_row_Ok & H). apply rbind_Ok in H as ([] & Hv & H).
    refine (transition_session_rows acc s _ _ now _ _ s' n Hok Hv _ _ _ _ H);
      [done|intros _; compute_done|compute_done|done].
  - apply or_unchanged_row. intros s' n H. unfold resume in H. destruct (decide _); [done|].
    apply rbind_Ok in H as (c & [_ ->]%read_row_Ok & H). apply rbind_Ok in H as ([] & Hv & H).
    refine (transition_session_rows acc s _ _ now _ _ s' n Hok Hv _ _ _ _ H);
      [done|intros _; compute_done|compute_done|done].
  - apply or_unchanged_row. intros s' n. by eapply transition_locked_row.
  - apply or_unchanged_row. intros s' n H. unfold end_session in H. destruct (decide _); [done|].
    apply rbind_Ok in H as (lc & [_ ->]%read_row_Ok & H).
    destruct (SessionLifecycle.is_terminal _) eqn:Hterm; [done|].
    apply rbind_Ok in H as (c & [_ ->]%read_row_Ok & H). apply rbind_Ok in H as ([] & Hv & H).
    refine (transition_session_rows acc s _ _ now _ _ s' n Hok Hv _ _ _ _ H);
      [done| |compute_done|done].
    intros _. destruct (s_lifecycle s); try done; compute_done.
  - apply or_unchanged_row. intros s' n. by eapply transition_locked_row.
  - by apply recover_interrupted_row.
  - unfold register_process. repeat (destruct (decide _); try apply row_step_refl). by apply row_same.
  - unfold release_process. repeat (destruct (decide _); try apply row_step_refl). by apply row_same.
Qed.

Lemma row_step_ok s s' : session_ok s → row_step s s' → session_ok s'.
Proof. intros [HJ Hl] [He Hs _|]; split; rewrite ?He, ?Hs; done. Qed.

Lemma exec_or_keep_ok s cn : session_ok s → session_ok (exec_or_keep s cn).
Proof. intros Hok. eapply row_step_ok, exec_row; done. Qed.

Lemma create_session_Ok acc now v s :
  create_session acc now v = Ok s ↔ acc_write acc EmergencyMetadata = None ∧
  s = MkSession SessionLifecycle.Open Idle now
        [MkEvent 1 None SessionCreated Idle now (Some v)] ∅.
Proof using Type.
  unfold create_session, execute_with_purpose, fails_with.
  destruct (acc_write acc EmergencyMetadata); [split; [done|by intros [? _]]|]. cbn.
  rewrite decide_True by (vm_compute; done).
  split; [by intros [= <-]|by intros [_ ->]].
Qed.

Lemma create_session_ok acc now v s : create_session acc now v = Ok s → session_ok s.
Proof using Type.
  intros [_ ->]%create_session_Ok. split; [constructor|vm_compute; done].
Qed.

(** Invariants proved step by step hold after every run. *)
Lemma session_run_invariant (I : Session → Prop) s cs :
  session_ok s → I s →
  (∀ s s', session_ok s → I s → row_step s s' → I s') →
  session_ok (session_run s cs) ∧ I (session_run s cs).
Proof.
  intros Hok HI Hstep. revert s Hok HI.
  induction cs as [|cn cs IH]; intros s Hok HI; [done|]. simpl.
  apply IH; [by apply exec_or_keep_ok|]. eapply Hstep; [done..|]. by apply exec_row.
Qed.

(** ** Properties *)

(** C22: [replay] accepts exactly the journals of the contract whose
    sequence space is not exhausted, and then reports the state of the last
    event, its sequence number and the number of events. *)
Theorem replay_iff_journal es o :
  replay es = Ok o ↔
  journal es (ro_state o) ∧ (N.of_nat (length es) < U64.max)%N ∧
  ro_last_seq o = N.of_nat (length es) ∧
  ro_event_count o = N.of_nat (length es).
Proof.
  unfold replay. split.
  - destruct (head es) as [f|] eqn:Hf; [|done].
    destruct (decide _) as [|Hseq%dec_stable]; [done|].
    destruct (decide _) as [|Hk%dec_stable]; [done|].
    destruct (decide _) as [|Hs%dec_stable]; [done|].
    rewrite Hs. intros ([[m n] t] & Hloop & Ho)%rbind_Ok.
    apply (replay_loop_journal es f) in Hloop as (HJ & _ & Hlt & _); try done.
    destruct (journal_last _ _ HJ) as (l & Hl & _ & Hn & _).
    rewrite Hl in Ho. injection Ho as <-. simpl. by rewrite Hn.
  - intros (HJ & Hlt & Hseq & Hcount).
    destruct (journal_head _ _ HJ) as (f & Hf & Hf1 & Hf2 & Hf3).
    destruct (journal_last _ _ HJ) as (l & Hl & _ & Hn & _).
    rewrite Hf. rewrite Hf1, Hf2, Hf3, !decide_False by (intros Hne; by apply Hne).
    unfold StateMachine.new.
    rewrite (proj2 (replay_loop_journal es f (ro_state o)
      (N.succ (N.of_nat (length es))) (ev_ts l) Hf Hf1 Hf2 Hf3)) by (repeat split; eauto).
    simpl. rewrite Hl. destruct o; simpl in *. by rewrite Hn, Hseq, Hcount.
Qed.

(** C1: after a session is created, any sequence of commands (accepted or
    refused, whatever the store answers to each) leaves a journal that replays, and the replay reconstructs the
    durable row: its state, and the sequence number of the last append. *)
Theorem reachable_session_replays acc now v s0 cs :
  create_session acc now v = Ok s0 →
  let s := session_run s0 cs in
  replay (s_events s) =
  Ok (MkReplayOutcome (s_state s) (N.of_nat (length (s_events s)))
        (N.of_nat (length (s_events s)))).
Proof.
  intros Hc s.
  destruct (session_run_invariant (λ _, True) s0 cs) as [[HJ Hlen] _]; try done.
  { by eapply create_session_ok. }
  apply replay_iff_journal. repeat split; [done|]. fold s in Hlen.
  unfold U64.max. lia.
Qed.

(** a closed session stays closed.  Once the lifecycle is [Closed] the
    turn machine is [Completed], and no later command moves either. *)
Theorem closed_session_final acc now v s0 cs cs' :
  create_session acc now v = Ok s0 →
  s_lifecycle (session_run s0 cs) = SessionLifecycle.Closed →
  let s := session_run (session_run s0 cs) cs' in
  s_lifecycle s = SessionLifecycle.Closed ∧ s_state s = Completed.
Proof.
  intros Hc Hcl. pose proof (create_session_ok _ _ _ _ Hc) as Hok.
  apply create_session_Ok in Hc as [_ Hc].
  destruct (session_run_invariant (λ s, s_lifecycle s = SessionLifecycle.Closed →
    s_state s = Completed) s0 cs Hok) as [Hok' HI].
  { by subst s0. }
  { intros s s' _ HI [He Hs Hl|kind op pl Hv _ _ _ HC _ _ _];
      [by rewrite Hs, Hl|].
    intros Hcl'. destruct (HC Hcl') as [Hcl''|]; [|done].
    rewrite (HI Hcl'') in Hv. by eapply validate_transition_terminal. }
  apply (session_run_invariant (λ s, s_lifecycle s = SessionLifecycle.Closed ∧
    s_state s = Completed)); [done|auto|].
  intros s s' _ [Hl Hs] [He Hs' Hl'|kind op pl Hv _ _ HL _ _ _ _].
  - by rewrite Hs', Hl'.
  - rewrite Hs in Hv. apply validate_transition_terminal in Hv; [|done].
    split; [|done]. rewrite Hl in HL. destruct HL as [|HL]; [done|].
    by apply elem_of_nil in HL.
Qed.

(** Escalation to [FailedPermanent] is recorded.  The row enters it only
    by an appended [Failed] event whose payload passed the versioned
    validator, from a state that may fail recoverably; from then on the state
    never changes. *)
Theorem failed_permanent_recorded acc s c now s' res :
  session_ok s → exec acc s c now = (s', res) →
  (s_state s = FailedPermanent → s_state s' = FailedPermanent) ∧
  (s_state s ≠ FailedPermanent → s_state s' = FailedPermanent →
   ∃ e, last (s_events s') = Some e ∧ ev_kind e = EvFailed ∧
        validate_payload EvFailed PAYLOAD_SCHEMA_V (ev_payload e) = Ok () ∧
        (s_state s = FailedRecoverable ∨
         FailedRecoverable ∈ AgentState.allowed_transitions (s_state s))).
Proof.
  intros Hok Hx. pose proof (exec_row acc s c now Hok) as Hrow. rewrite Hx in Hrow. cbn [fst] in Hrow.
  destruct Hrow as [_ Hs _|kind op pl Hv _ _ _ _ _ (e & He & Hk & _ & Hpl) Hp].
  { rewrite Hs. by split. }
  split.
  - intros Hs. rewrite Hs in Hv. by apply validate_transition_terminal in Hv.
  - intros Hs Hs'. rewrite Hs' in Hv.
    apply validate_transition_failed_permanent in Hv as [|[-> Hv]]; [done|].
    exists e. repeat split; try done. by rewrite Hpl.
Qed.

(** Where an interrupted turn lands. *)
Definition recovery_landing (m : AgentState) : AgentState :=
  match m with
  | ToolRequested | WaitingForPermission => WaitingForPermission
  | _ => FailedRecoverable
  end.

(** The recovery append, when the store takes it. *)
Lemma recovery_append acc s v now :
  session_ok s → is_op_active (s_state s) = true →
  acc_read acc 1 = None → acc_write acc Recovery = None →
  (N.of_nat (length (s_events s)) < 9223372036854775807)%N →
  ∃ l, last (s_events s) = Some l ∧
  transition_locked_recovery acc (drained s) CrashDetected (crash_target (s_state s)) None
    (Some v) now =
  let ts := if decide (now >= ev_ts l)%Z then now else ev_ts l in
  let seq := N.succ (N.of_nat (length (s_events s))) in
  Ok (MkSession (s_lifecycle s) (recovery_landing (s_state s)) ts
        (s_events s ++ [MkEvent seq None CrashDetected (recovery_landing (s_state s)) ts (Some v)]) ∅,
      seq).
Proof.
  intros [HJ _] Ha Hr Hw Hlt. destruct (journal_last _ _ HJ) as (l & Hl & Hlat & Hseq & _).
  exists l. split; [done|]. unfold transition_locked_recovery, transition_locked_inner.
  rewrite read_row_granted by done. cbn [s_state drained].
  assert (validate_transition (s_state s) CrashDetected
    (crash_target (s_state s)) = Ok ()) as Hv by by destruct (s_state s).
  cbn [rbind]. rewrite Hv. simpl. unfold append_event_v_with_purpose, execute_with_purpose.
  rewrite Hw. simpl. unfold insert_event_locked. simpl. rewrite Hlat, Hseq.
  rewrite decide_False by (destruct (s_events s); [by apply journal_nonempty in HJ|done]).
  simpl. rewrite (proj2 (U64.checked_add_Some _ _ _)) by
    (split; [done|unfold U64.max; lia]).
  rewrite N.add_1_r. destruct (decide _); [|lia]. simpl. by destruct (s_state s).
Qed.

(** What the store answers the sweep's append with: its second read of the
    row, then the recovery band. *)
Definition sweep_refusal (acc : StoreAccess) : option StoreError :=
  match acc_read acc 1 with Some e => Some e | None => acc_write acc Recovery end.

(** A refused sweep has already emptied the registry: the children it owned
    are reported by no later sweep. *)
Lemma refused_sweep_forgets_orphans acc s v now e :
  acc_read acc 0 = None → is_op_active (s_state s) = true → sweep_refusal acc = Some e →
  recover_interrupted acc s v now = (drained s, Err (FromStore e)).
Proof.
  intros Hr Ha Hw. unfold recover_interrupted. rewrite read_row_granted, Ha by done.
  unfold transition_locked_recovery, transition_locked_inner. unfold sweep_refusal in Hw.
  destruct (acc_read acc 1) as [e'|] eqn:H1.
  { injection Hw as ->. by rewrite (read_row_refused _ _ e). }
  rewrite read_row_granted by done. cbn [rbind s_state drained].
  assert (validate_transition (s_state s) CrashDetected
    (crash_target (s_state s)) = Ok ()) as -> by by destruct (s_state s).
  simpl. unfold append_event_v_with_purpose, execute_with_purpose. by rewrite Hw.
Qed.


(** On every registered kind and schema version the validator that runs
    before a write accepts exactly the payloads the decoder reads back, and
    refuses the others with the decoder's error. *)
Theorem validate_agrees_with_decode kind ver pl :
  validate_payload kind ver pl = (decode_payload kind ver pl;? Ok ()).
Proof.
  unfold validate_payload, decode_payload. destruct (decide _); [done|].
  destruct kind; try done. destruct pl as [v|]; [|done].
  destruct (abort_of v) as [[]|]; [done|]. by destruct (failed_of v).
Qed.
End Journal.

(** the durable spelling of an event kind reads back as that kind, and
    only the 28 spellings are read at all. *)
Theorem kind_name_roundtrip name k :
  kind_from_name name = Some k ↔ kind_name k = name.
Proof.
  split; [|intros <-; by destruct k].
  unfold kind_from_name.
  repeat (destruct (decide _) as [->|]; [by intros [= <-]|]). done.
Qed.

(** The serde tag and the ledger spelling are the same word. *)
Lemma kind_name_as_tag k : kind_name k = EventKind.as_tag k.
Proof. by destruct k. Qed.

(** The doc comment of [validate_transition] calls every self-transition legal
    and idempotent.  Re-emitting a [ToolRequested] event is refused, and so is
    repeating a [Failed]/[FailedPermanent] one. *)
Theorem self_transition_refused :
  validate_transition WaitingForPermission EvToolRequested WaitingForPermission
    = Err (illegal WaitingForPermission WaitingForPermission) ∧
  validate_transition FailedPermanent EvFailed FailedPermanent
    = Err (illegal FailedPermanent FailedPermanent).
Proof. done. Qed.

(** ** Witnesses

    A concrete run: payloads are strings, every string decodes as a failure
    message. *)
Module Demo.
Definition abort_of (v : string) : option (string * option N) := None.
Definition failed_of (v : string) : option string := Some v.
Definition json_message (m : string) : string := m.
Definition run := session_run abort_of failed_of json_message.

Definition created : Session (Value := string) :=
  MkSession SessionLifecycle.Open Idle 100
    [MkEvent 1 None SessionCreated Idle 100 (Some "demo")] ∅.

(** A turn that asks for a tool, a clock that goes backwards, a refused
    command, and an end. *)
(** A store that takes everything, and one that is full up to the recovery
    band or beyond it. *)
Definition calm : StoreAccess := MkStoreAccess (λ _, None) (λ _, None).
Definition saturated : StoreAccess :=
  MkStoreAccess (λ _, None) (λ p, match p with Recovery => None | _ => Some StorageRefused end).
Definition full : StoreAccess := MkStoreAccess (λ _, None) (λ _, Some StorageRefused).

(** A turn that asks for a tool, a clock that goes backwards, a refused
    command, one the store refuses, and an end. *)
Definition commands : list (Command (Value := string) * Z * StoreAccess) :=
  [(CAppend PromptReceived Preparing (Some 7%N) None, 110%Z, calm);
   (CAppend ContextPrepared BuildingContext (Some 7%N) None, 105%Z, calm);
   (CAppend ModelStarted WaitingForModel (Some 7%N) None, 120%Z, calm);
   (CAppend ModelChunkReceived Streaming (Some 7%N) None, 121%Z, full);
   (CAppend ModelChunkReceived Streaming (Some 7%N) None, 121%Z, calm);
   (CAppend EvToolRequested WaitingForPermission (Some 8%N) None, 122%Z, calm);
   (CEnd, 123%Z, calm);
   (CSuspend, 124%Z, calm); (CResume Idle, 125%Z, calm); (CEnd, 126%Z, calm)].

Example run_length : length (s_events (run created commands)) = 9.
Proof. vm_compute. reflexivity. Qed.
End Demo.

Lemma reachable_session_replays_witness :
  replay (s_events (Demo.run Demo.created Demo.commands)) =
  Ok (MkReplayOutcome Completed 9 9).
Proof.
  exact (reachable_session_replays Demo.abort_of Demo.failed_of Demo.json_message
    Demo.calm 100 "demo" Demo.created Demo.commands
    (proj2 (create_session_Ok Demo.calm 100 "demo" Demo.created) (conj eq_refl eq_refl))).
Defined.

Lemma closed_session_final_witness :
  s_lifecycle (Demo.run Demo.created Demo.commands) = SessionLifecycle.Closed ∧
  s_state (Demo.run (Demo.run Demo.created Demo.commands)
    [(CAppend PromptReceived Preparing None None, 200%Z, Demo.calm); (CSuspend, 201%Z, Demo.calm)])
    = Completed.
Proof.
  split; [vm_compute; reflexivity|].
  apply (closed_session_final Demo.abort_of Demo.failed_of Demo.json_message
    Demo.calm 100 "demo" Demo.created Demo.commands
    [(CAppend PromptReceived Preparing None None, 200%Z, Demo.calm); (CSuspend, 201%Z, Demo.calm)]).
  - apply create_session_Ok. split; reflexivity.
  - vm_compute. reflexivity.
Defined.

Lemma demo_created_ok : session_ok Demo.created.
Proof. apply (create_session_ok Demo.calm 100 "demo"), create_session_Ok. split; reflexivity. Qed.

Definition demo_failed : Session (Value := string) :=
  Demo.run Demo.created
    [(CAppend PromptReceived Preparing None None, 110%Z, Demo.calm)].

Lemma demo_failed_ok : session_ok demo_failed.
Proof.
  refine (proj1 (session_run_invariant Demo.abort_of Demo.failed_of
    Demo.json_message (λ _, True) Demo.created _ demo_created_ok I _)). done.
Qed.

Lemma failed_permanent_recorded_witness :
  ∃ e, last (s_events (Demo.run demo_failed [(CMarkFailed true "disk", 111%Z, Demo.calm)]))
         = Some e ∧ ev_kind e = EvFailed ∧ ev_payload e = Some "disk".
Proof.
  destruct (failed_permanent_recorded Demo.abort_of Demo.failed_of
    Demo.json_message Demo.calm demo_failed (CMarkFailed true "disk") 111
    (Demo.run demo_failed [(CMarkFailed true "disk", 111%Z, Demo.calm)]) (Ok ()) demo_failed_ok)
    as [_ H]; [vm_compute; reflexivity|].
  destruct H as (e & He & Hk & _); [vm_compute; discriminate|vm_compute; reflexivity|].
  exists e. split; [exact He|]. split; [exact Hk|].
  vm_compute in He. injection He as <-. reflexivity.
Defined.

(** The recovery band still admits the sweep where ordinary writes are refused;
    a full store refuses it and the orphan 42 is gone from the registry. *)
Definition demo_owner : Session (Value := string) :=
  Demo.run demo_failed [(CRegister 42, 112%Z, Demo.calm)].

Lemma demo_owner_ok : session_ok demo_owner.
Proof.
  refine (proj1 (session_run_invariant Demo.abort_of Demo.failed_of
    Demo.json_message (λ _, True) demo_failed _ demo_failed_ok I _)). done.
Qed.

