(* ===== verification/Pricing.v ===== *)
(** * Price quotes ([core/src/model.rs])

    The micro-dollar arithmetic every settlement goes through: a quote is four
    price lines per million tokens, priced with saturating [u128] products and
    one ceiling division. *)
From S2P Require Import Prelude.

Module U128.
Definition max : N := 340282366920938463463374607431768211455.
Definition sat_add (a b : N) : N := N.min (a + b) max.
Definition sat_mul (a b : N) : N := N.min (a * b) max.
End U128.
#[global] Arguments U128.max : simpl never.

Record TokenUsage := MkTokenUsage {
  uncached_input_tokens : N;
  cache_read_tokens : N;
  cache_write_tokens : N;
  output_tokens : N;
}.

Record PriceQuote := MkPriceQuote {
  price_input : N;
  price_output : N;
  price_cache_read : N;
  price_cache_write : N;
}.

Definition ZERO_QUOTE : PriceQuote := MkPriceQuote 0 0 0 0.

(** [u64::try_from(x).unwrap_or(u64::MAX)]. *)
Definition to_u64_or_max (x : N) : N := if (x <=? U64.max)%N then x else U64.max.

Definition quote_cost_micro (q : PriceQuote) (usage : TokenUsage) : N :=
  let numerator :=
    U128.sat_add
      (U128.sat_add
         (U128.sat_add
            (U128.sat_mul (price_input q) (uncached_input_tokens usage))
            (U128.sat_mul (price_cache_read q) (cache_read_tokens usage)))
         (U128.sat_mul (price_cache_write q) (cache_write_tokens usage)))
      (U128.sat_mul (price_output q) (output_tokens usage)) in
  let ceiling := (U128.sat_add numerator 999999 / 1000000)%N in
  to_u64_or_max ceiling.

Definition max_per_line (a b : PriceQuote) : PriceQuote :=
  MkPriceQuote
    (N.max (price_input a) (price_input b))
    (N.max (price_output a) (price_output b))
    (N.max (price_cache_read a) (price_cache_read b))
    (N.max (price_cache_write a) (price_cache_write b)).

Definition is_zero_quote (q : PriceQuote) : bool :=
  (price_input q =? 0)%N && (price_output q =? 0)%N &&
  (price_cache_read q =? 0)%N && (price_cache_write q =? 0)%N.

Inductive PriceAuthority := Exact | ConservativeCeiling | LocalZero | UnknownPriceAuthority.

#[global] Instance PriceAuthority_eq_dec : EqDecision PriceAuthority.
Proof. solve_decision. Defined.

(** The two fields of [PricingSnapshot] settlement reads. *)
Record PricingSnapshot := MkPricingSnapshot {
  ps_quote : option PriceQuote;
  ps_authority : PriceAuthority;
}.

Definition settle_cost (s : PricingSnapshot)
    (uncached_input cache_read cache_write output : N) : option N :=
  if decide (ps_authority s = UnknownPriceAuthority) then None
  else
    (λ q, quote_cost_micro q (MkTokenUsage uncached_input cache_read cache_write output))
      <$> ps_quote s.

(** ** Specification: the exact cost, rounded up once *)
Definition exact_numerator (q : PriceQuote) (u : TokenUsage) : N :=
  price_input q * uncached_input_tokens u + price_cache_read q * cache_read_tokens u
  + price_cache_write q * cache_write_tokens u + price_output q * output_tokens u.

(** The least whole number of micro-dollars that covers [numerator / 1e6]. *)
Definition covers (numerator cost : N) : Prop := (numerator <= 1000000 * cost)%N.

Lemma ceiling_spec n : 
  covers n ((n + 999999) / 1000000) ∧
  ∀ c, covers n c → ((n + 999999) / 1000000 <= c)%N.
Proof.
  unfold covers. pose proof (N.div_mod (n + 999999) 1000000).
  pose proof (N.mod_lt (n + 999999) 1000000). split; [lia|].
  intros c Hc. apply N.lt_succ_r. apply N.Div0.div_lt_upper_bound. lia.
Qed.

Lemma sat_add_mono a b c d :
  (a <= c → b <= d → U128.sat_add a b <= U128.sat_add c d)%N.
Proof. unfold U128.sat_add. lia. Qed.

(** Saturation is invisible below the cap: the saturating sum is the minimum of
    the exact sum and [u128::MAX]. *)
Lemma sat_add_min a b :
  U128.sat_add (N.min a U128.max) (N.min b U128.max) = N.min (a + b) U128.max.
Proof. unfold U128.sat_add. lia. Qed.

Lemma quote_cost_micro_unfold q u :
  quote_cost_micro q u =
  to_u64_or_max
    (N.min (N.min (exact_numerator q u) U128.max + 999999) U128.max / 1000000).
Proof.
  unfold quote_cost_micro, exact_numerator, U128.sat_mul.
  by rewrite !sat_add_min.
Qed.

(** For every quote and usage, the charged cost is the least number of
    micro-dollars covering the exact total of the four price lines, capped at
    [u64::MAX]: neither the saturating products nor the single rounding ever
    understate it. *)
Theorem quote_cost_micro_exact q u :
  let cost := quote_cost_micro q u in
  (cost < U64.max →
     covers (exact_numerator q u) cost ∧
     ∀ c, covers (exact_numerator q u) c → cost <= c)%N ∧
  (cost = U64.max →
     ∀ c, covers (exact_numerator q u) c → U64.max <= c)%N ∧
  (cost <= U64.max)%N.
Proof.
  cbv zeta. rewrite quote_cost_micro_unfold.
  set (n := exact_numerator q u). unfold to_u64_or_max.
  destruct (decide (n + 999999 <= U128.max)%N) as [Hle|Hgt].
  - rewrite (N.min_l n) by lia. rewrite N.min_l by lia.
    destruct (ceiling_spec n) as [Hc Hleast].
    destruct (N.leb_spec ((n + 999999) / 1000000) U64.max) as [Hd|Hd].
    + repeat split; auto.
      intros Heq c Hcov. rewrite <-Heq. auto.
    + repeat split; try lia. intros _ c Hcov. specialize (Hleast c Hcov). lia.
  - assert (N.min (N.min n U128.max + 999999) U128.max = U128.max) as -> by lia.
    replace (U128.max / 1000000 <=? U64.max)%N with false by done.
    repeat split; try lia. intros _ c Hcov. unfold covers in Hcov.
    unfold U128.max, U64.max in *. lia.
Qed.

Lemma to_u64_or_max_mono a b : (a <= b → to_u64_or_max a <= to_u64_or_max b)%N.
Proof.
  unfold to_u64_or_max. intros.
  destruct (N.leb_spec a U64.max), (N.leb_spec b U64.max); lia.
Qed.

(** the per-line maximum of two quotes prices every usage at least as high
    as either quote, so it is a conservative bound whichever tariff applies. *)
Theorem max_per_line_upper_bound a b u :
  (quote_cost_micro a u <= quote_cost_micro (max_per_line a b) u)%N ∧
  (quote_cost_micro b u <= quote_cost_micro (max_per_line a b) u)%N.
Proof.
  rewrite !quote_cost_micro_unfold.
  split; apply to_u64_or_max_mono, N.Div0.div_le_mono;
    apply N.min_le_compat_r, N.add_le_mono_r, N.min_le_compat_r;
    unfold exact_numerator, max_per_line; simpl;
    repeat apply N.add_le_mono; apply N.mul_le_mono_r; lia.
Qed.
