(* ===== verification/TaskStates.v ===== *)
(** * The task state machine and the durable task rows

    [core/src/state.rs] ([TaskState], [TaskTransition], [NoOpDisposition]),
    [core/src/completion.rs] (completion contract steps) and the rows of
    [store/src/tasks.rs] the session and cost-ledger commands share. *)
From S2P Require Import Prelude.

Module TaskState.
Inductive t :=
  | Pending | Planning | Running | Waiting | Blocked | NeedsVerification
  | Verifying | VerifiedComplete | Failed | Cancelled.

#[global] Instance t_eq_dec : EqDecision t.
Proof. solve_decision. Defined.

Definition allowed_transitions (s : t) : list t :=
  match s with
  | Pending => [Planning; Running; Cancelled]
  | Planning => [Running; Cancelled]
  | Running => [Waiting; Blocked; NeedsVerification; Failed; Cancelled]
  | Waiting => [Running; Blocked; Cancelled]
  | Blocked => [Running; Failed; Cancelled]
  | NeedsVerification => [Verifying; Cancelled]
  | Verifying => [Failed; NeedsVerification; Cancelled]
  | VerifiedComplete => []
  | Failed => []
  | Cancelled => []
  end.

Definition transition_legal (from to : t) : bool :=
  bool_decide (from = to) || bool_decide (to ∈ allowed_transitions from).

Definition is_terminal (s : t) : bool :=
  match s with VerifiedComplete | Failed | Cancelled => true | _ => false end.

Definition is_completion_relevant (s : t) : bool :=
  match s with
  | NeedsVerification | Verifying | VerifiedComplete => true
  | _ => false
  end.

Definition is_creatable (s : t) : bool :=
  match s with Pending | Planning | Running => true | _ => false end.

Definition label (s : t) : string :=
  match s with
  | Pending => "pending"
  | Planning => "planning"
  | Running => "running"
  | Waiting => "waiting"
  | Blocked => "blocked"
  | NeedsVerification => "needs_verification"
  | Verifying => "verifying"
  | VerifiedComplete => "verified_complete"
  | Failed => "failed"
  | Cancelled => "cancelled"
  end.
End TaskState.

Module TaskTransition.
Inductive t :=
  | StartPlanning | StartRunning | PlanComplete | Wait | BlockFromRunning
  | RequestVerification | FailFromRunning | ResumeFromWaiting
  | BlockFromWaiting | Unblock | FailFromBlocked | StartVerification
  | Reverify | FailFromVerifying | Cancel.

#[global] Instance t_eq_dec : EqDecision t.
Proof. solve_decision. Defined.

Definition to_state (e : t) : TaskState.t :=
  match e with
  | StartPlanning => TaskState.Planning
  | StartRunning => TaskState.Running
  | PlanComplete => TaskState.Running
  | Wait => TaskState.Waiting
  | BlockFromRunning | BlockFromWaiting => TaskState.Blocked
  | RequestVerification | Reverify => TaskState.NeedsVerification
  | ResumeFromWaiting | Unblock => TaskState.Running
  | StartVerification => TaskState.Verifying
  | FailFromRunning | FailFromBlocked | FailFromVerifying => TaskState.Failed
  | Cancel => TaskState.Cancelled
  end.

Definition legal_from (e : t) (from : TaskState.t) : bool :=
  match e with
  | Cancel => negb (TaskState.is_terminal from)
  | StartPlanning => bool_decide (from = TaskState.Pending)
  | StartRunning => bool_decide (from = TaskState.Pending)
  | PlanComplete => bool_decide (from = TaskState.Planning)
  | Wait | BlockFromRunning | RequestVerification | FailFromRunning =>
      bool_decide (from = TaskState.Running)
  | ResumeFromWaiting | BlockFromWaiting => bool_decide (from = TaskState.Waiting)
  | Unblock | FailFromBlocked => bool_decide (from = TaskState.Blocked)
  | StartVerification => bool_decide (from = TaskState.NeedsVerification)
  | Reverify | FailFromVerifying => bool_decide (from = TaskState.Verifying)
  end.

Definition ALL : list t :=
  [StartPlanning; StartRunning; PlanComplete; Wait; BlockFromRunning;
   RequestVerification; FailFromRunning; ResumeFromWaiting; BlockFromWaiting;
   Unblock; FailFromBlocked; StartVerification; Reverify; FailFromVerifying;
   Cancel].
End TaskTransition.

Module NoOpDisposition.
Inductive t := Allowed | RequiresCriterionProof | Refused.

Definition tag (d : t) : string :=
  match d with
  | Allowed => "allowed"
  | RequiresCriterionProof => "requires_criterion_proof"
  | Refused => "refused"
  end.

Definition permits_completion (d : t) : bool :=
  match d with Refused => false | _ => true end.

Definition default_for_mutating_task : t := RequiresCriterionProof.

Definition completion_allowed (d : t) (criterion_proof : bool) : bool :=
  match d with
  | Allowed => true
  | RequiresCriterionProof => criterion_proof
  | Refused => false
  end.
End NoOpDisposition.

(** ** Completion contract ([core/src/completion.rs]) *)
Module CompletionStep.
Inductive t := Commit | Push | Pr.

#[global] Instance t_eq_dec : EqDecision t.
Proof. solve_decision. Defined.

Definition ALL : list t := [Commit; Push; Pr].

Definition tag (s : t) : string :=
  match s with Commit => "commit" | Push => "push" | Pr => "pr" end.
End CompletionStep.

Module CompletionStepOutcome.
Inductive t := Succeeded | Failed | Skipped | Invalidated.

#[global] Instance t_eq_dec : EqDecision t.
Proof. solve_decision. Defined.

Definition tag (o : t) : string :=
  match o with
  | Succeeded => "succeeded"
  | Failed => "failed"
  | Skipped => "skipped"
  | Invalidated => "invalidated"
  end.
End CompletionStepOutcome.

Record CompletionContract := MkCompletionContract {
  include_commit : bool;
  include_push : bool;
  include_pr : bool;
}.

Module CompletionContract.
Definition NONE : CompletionContract := MkCompletionContract false false false.

Definition is_default (c : CompletionContract) : bool :=
  negb (include_commit c) && negb (include_push c) && negb (include_pr c).

Definition requested_steps (c : CompletionContract) : list CompletionStep.t :=
  filter (λ s,
    match s with
    | CompletionStep.Commit => include_commit c
    | CompletionStep.Push => include_push c
    | CompletionStep.Pr => include_pr c
    end = true) CompletionStep.ALL.
End CompletionContract.

(** ** Lemmas *)
Lemma completion_state_has_no_edge from to :
  to ∈ TaskState.allowed_transitions from → to ≠ TaskState.VerifiedComplete.
Proof. destruct from, to; try done; intros H; set_unfold in H; naive_solver. Qed.

Lemma terminal_no_edges s : TaskState.is_terminal s = true ↔ TaskState.allowed_transitions s = [].
Proof. by destruct s. Qed.

(** the fifteen named transitions are exactly the machine's edges: from a
    state, a transition is legal if and only if the state it lands on is one of
    the state's allowed successors reached by that name, and every allowed
    successor has such a name.  No name lands on [VerifiedComplete]. *)
Theorem task_transitions_are_the_edges from to :
  (to ∈ TaskState.allowed_transitions from ↔
   ∃ e, TaskTransition.to_state e = to ∧ TaskTransition.legal_from e from = true) ∧
  (∀ e, e ∈ TaskTransition.ALL ∧ TaskTransition.to_state e ≠ TaskState.VerifiedComplete).
Proof.
  split; [|intros []; (split; [compute_done|done])].
  split.
  - destruct from, to; intros H; try (exfalso; revert H; compute_done);
      first [ by exists TaskTransition.StartPlanning | by exists TaskTransition.StartRunning
            | by exists TaskTransition.PlanComplete | by exists TaskTransition.Wait
            | by exists TaskTransition.BlockFromRunning
            | by exists TaskTransition.RequestVerification
            | by exists TaskTransition.FailFromRunning
            | by exists TaskTransition.ResumeFromWaiting
            | by exists TaskTransition.BlockFromWaiting | by exists TaskTransition.Unblock
            | by exists TaskTransition.FailFromBlocked
            | by exists TaskTransition.StartVerification | by exists TaskTransition.Reverify
            | by exists TaskTransition.FailFromVerifying | by exists TaskTransition.Cancel ].
  - intros (e & <- & Hl). destruct e, from; try discriminate Hl; compute_done.
Qed.
