(* ===== verification/CostLedger.v ===== *)
(** * The durable cost ledger ([store/src/billing.rs])

    The task table's monetary columns and the [cost_reservation] table of one
    session, with the commands that move money between "free", "held" and
    "spent".  Each command is one writer transaction, hence one atomic step on
    [TStore].  The arithmetic is SQLite's: an addition that leaves [i64] turns
    [spent_cost_micro] into a REAL, which no [i64] read accepts ([SqlNum]),
    and the open sum of the plain reserve goes through a binary64 [total()]
    ([SqlTotal], of which only the documented rounding is assumed). *)
From S2P Require Import Prelude Pricing TaskStates.

(** ** SQLite numbers
    A value of an INTEGER column: [SqlInt], or [SqlReal] once an addition has
    left [i64].  A REAL of [spent_cost_micro] is 2^63 or more, so INTEGER
    affinity leaves it a REAL and, as only non-negative amounts are added, it
    stays one; rusqlite's [get::<i64>] answers an error for it. *)
Inductive SqlNum := SqlInt (z : Z) | SqlReal.

#[global] Instance SqlNum_eq_dec : EqDecision SqlNum.
Proof. solve_decision. Defined.

(** SQLite's [+] on such a value. *)
Definition sql_add (s : SqlNum) (amount : Z) : SqlNum :=
  match s with
  | SqlInt z => if decide (I64.fits (z + amount)) then SqlInt (z + amount) else SqlReal
  | SqlReal => SqlReal
  end.

(** [total()] of a column of integers, as the integer its binary64 result is
    (a sum up to 2^53 is exact; larger binary64 numbers are integers).  Only
    this is relied on: non-negative integers whose sum stays within 2^53 add up
    exactly, and past it rounding never falls below 2^53. *)
Class SqlTotal := {
  sqlite_total : list Z → Z;
  total_exact l : Forall (λ z, 0 <= z)%Z l → (foldr Z.add 0 l <= 2 ^ 53)%Z →
    sqlite_total l = foldr Z.add 0%Z l;
  total_large l : Forall (λ z, 0 <= z)%Z l → (2 ^ 53 < foldr Z.add 0 l)%Z →
    (2 ^ 53 <= sqlite_total l)%Z;
}.

(** ** Rows *)
Record TaskRow := MkTaskRow {
  t_goal : string;
  t_criteria : list string;
  t_plan : list string;
  (** The attachments and engineering-contract columns, as their JSON texts. *)
  t_attachments : list string;
  t_contract : string;
  t_max_tokens : option N;
  t_max_turns : option N;
  t_spent_tokens : N;
  t_spent_turns : N;
  t_state : TaskState.t;
  t_revision : N;
  t_created_ms : Z;
  t_updated_ms : Z;
  (** The monetary columns, written only by the ledger. *)
  t_max_cost : option Z;
  t_spent_cost : SqlNum;
}.

Inductive RStatus := RReserved | RDispatched | RSettled | RRefunded | RUncertain.

#[global] Instance RStatus_eq_dec : EqDecision RStatus.
Proof. solve_decision. Defined.

Record Reservation := MkReservation {
  r_id : Z;
  r_task : N;
  r_op : N;
  r_attempt : option N;
  r_predicted : Z;
  r_status : RStatus;
  r_dispatched_ms : option Z;
  r_snapshot : option PricingSnapshot;
  r_settled_cost : option Z;
}.

(** The verification records ([verification_record] table), of every session. *)
Inductive VStatus := VRunning | VPassed | VFailed.

#[global] Instance VStatus_eq_dec : EqDecision VStatus.
Proof. solve_decision. Defined.

Record CriterionVerdict := MkCriterionVerdict {
  cv_key : string;
  cv_passed : bool;
  cv_binding : option string;
}.

#[global] Instance CriterionVerdict_eq_dec : EqDecision CriterionVerdict.
Proof. solve_decision. Defined.

Record VRecord := MkVRecord {
  v_session : option N;
  v_task : N;
  v_revision : N;
  v_workspace : N;
  v_worktree : N;
  v_tree_hash : option string;
  v_criteria : list CriterionVerdict;
  (** checks, changed files, unrelated changes and reviewer, as JSON texts. *)
  v_evidence : list string;
  v_status : VStatus;
}.

#[global] Instance VRecord_eq_dec : EqDecision VRecord.
Proof. solve_decision. Defined.

(** What the commands of one session read and write. *)
Record TStore := MkTStore {
  ts_session : N;
  ts_workspace : N;
  ts_worktree : N;
  ts_tasks : gmap N TaskRow;
  ts_records : gmap N VRecord;
  ts_resv : list Reservation;
  ts_next_resv : Z;
}.

Definition set_tasks (st : TStore) (m : gmap N TaskRow) : TStore :=
  MkTStore (ts_session st) (ts_workspace st) (ts_worktree st) m
    (ts_records st) (ts_resv st) (ts_next_resv st).

Definition set_records (st : TStore) (m : gmap N VRecord) : TStore :=
  MkTStore (ts_session st) (ts_workspace st) (ts_worktree st) (ts_tasks st) m
    (ts_resv st) (ts_next_resv st).

Definition set_resv (st : TStore) (l : list Reservation) : TStore :=
  MkTStore (ts_session st) (ts_workspace st) (ts_worktree st) (ts_tasks st)
    (ts_records st) l (ts_next_resv st).

Definition with_cost (r : TaskRow) (cap : option Z) (spent : SqlNum) : TaskRow :=
  MkTaskRow (t_goal r) (t_criteria r) (t_plan r) (t_attachments r) (t_contract r)
    (t_max_tokens r) (t_max_turns r) (t_spent_tokens r) (t_spent_turns r)
    (t_state r) (t_revision r) (t_created_ms r) (t_updated_ms r) cap spent.

Definition with_status (r : Reservation) (s : RStatus) : Reservation :=
  MkReservation (r_id r) (r_task r) (r_op r) (r_attempt r) (r_predicted r) s
    (r_dispatched_ms r) (r_snapshot r) (r_settled_cost r).

Definition dispatched_at (r : Reservation) (ms : Z) : Reservation :=
  MkReservation (r_id r) (r_task r) (r_op r) (r_attempt r) (r_predicted r)
    RDispatched (Some ms) (r_snapshot r) (r_settled_cost r).

Definition settled_at (r : Reservation) (cost : option Z) : Reservation :=
  MkReservation (r_id r) (r_task r) (r_op r) (r_attempt r) (r_predicted r)
    RSettled (r_dispatched_ms r) (r_snapshot r) cost.

(** ** Helpers *)
Definition task_state_permits_provider_operation (s : TaskState.t) : bool :=
  negb (TaskState.is_terminal s) && negb (TaskState.is_completion_relevant s).

(** A row that holds budget: [status IN ('reserved','dispatched','uncertain')]. *)
Definition is_held (r : Reservation) : bool :=
  match r_status r with RReserved | RDispatched | RUncertain => true | _ => false end.

Definition is_open (r : Reservation) : bool :=
  match r_status r with RReserved | RDispatched => true | _ => false end.

Definition held_of (t : N) (l : list Reservation) : list Reservation :=
  filter (λ r, r_task r = t ∧ is_held r = true) l.

Definition zsum (l : list Z) : Z := foldr Z.add 0%Z l.

(** [u64] to the signed column: [min(i64::MAX as u64) as i64]. *)
Definition to_i64_col (n : N) : Z := Z.min (Z.of_N n) I64.max.

(** [i64::try_from(n).unwrap_or(i64::MAX)] is the same clamp. *)
Definition find_resv (st : TStore) (id : Z) : option Reservation :=
  snd <$> list_find (λ r, r_id r = id) (ts_resv st).

Definition update_resv (st : TStore) (id : Z) (f : Reservation → Reservation) : TStore :=
  set_resv st (map (λ r, if decide (r_id r = id) then f r else r) (ts_resv st)).

(** [UPDATE task SET spent_cost_micro = spent_cost_micro + ?1]; [None] when no
    row matches. *)
Definition add_spent (st : TStore) (t : N) (amount : Z) : option TStore :=
  row ← ts_tasks st !! t;
  Some (set_tasks st
    (<[t := with_cost row (t_max_cost row) (sql_add (t_spent_cost row) amount)]> (ts_tasks st))).

Inductive LedgerError :=
  | NoTaskRow
  | StateForbids (s : TaskState.t)
  | SqlIntegerOverflow
  | SqlTypeMismatch.

Inductive CostReserveOutcome :=
  | Granted (id : Z)
  | Exceeded (free : Z).

Inductive CostReservationState :=
  | Applied
  | MissingReservation
  | NotOpen (current : RStatus).

Inductive RefundOutcome :=
  | RefundApplied
  | RefundMissing
  | RefundBlocked (current : RStatus) (dispatched_ms : option Z).

Inductive CostSettleOutcome :=
  | SettleApplied (actual_micro : Z)
  | SettleAppliedUnknown
  | SettleUnknownPrice
  | SettleMissing
  | SettleNotOpen (current : RStatus).

(** ** Reserve *)
Definition free_balance (cap : option Z) (spent open_sum : Z) : Z :=
  let cap_limit := default 0%Z cap in
  Z.max 0
    (I64.sat_sub (I64.sat_sub (Z.max cap_limit 0) (Z.max spent 0)) (Z.max open_sum 0)).

(** [CAST(MIN(total(...), 9223372036854774784.0) AS INTEGER)]. *)
Definition clamped_open_sum `{SqlTotal} (t : N) (l : list Reservation) : Z :=
  Z.min (sqlite_total (map (λ r, Z.max 0 (r_predicted r)) (held_of t l))) 9223372036854774784.

(** [SUM] over an integer column: an error when the total leaves [i64]. *)
Definition checked_open_sum (t : N) (l : list Reservation) : result Z LedgerError :=
  let s := zsum (map r_predicted (held_of t l)) in
  if decide (I64.fits s) then Ok s else Err SqlIntegerOverflow.

Definition insert_reservation (st : TStore) (t op : N) (attempt : option N)
    (predicted : N) (snap : option PricingSnapshot) : TStore * CostReserveOutcome :=
  let r := MkReservation (ts_next_resv st) t op attempt (to_i64_col predicted)
             RReserved None snap None in
  (MkTStore (ts_session st) (ts_workspace st) (ts_worktree st) (ts_tasks st)
     (ts_records st) (ts_resv st ++ [r]) (ts_next_resv st + 1),
   Granted (ts_next_resv st)).

Definition reserve_with (st : TStore) (t op : N) (attempt : option N)
    (predicted : N) (snap : option PricingSnapshot)
    (open_sum_of : N → list Reservation → result Z LedgerError) :
    result (TStore * CostReserveOutcome) LedgerError :=
  match ts_tasks st !! t with
  | None => Err NoTaskRow
  | Some row =>
      if negb (task_state_permits_provider_operation (t_state row))
      then Err (StateForbids (t_state row))
      else
        match t_spent_cost row with
        | SqlReal => Err SqlTypeMismatch
        | SqlInt spent =>
            open_sum <-? open_sum_of t (ts_resv st);
            let cap_limit := default 0%Z (t_max_cost row) in
            let free := free_balance (t_max_cost row) spent open_sum in
            if decide (0 < cap_limit ∧ free < to_i64_col predicted)%Z
            then Ok (st, Exceeded free)
            else Ok (insert_reservation st t op attempt predicted snap)
        end
  end.

Definition cost_reserve_inner `{SqlTotal} (st : TStore) (t op : N) (predicted : N)
    (snap : option PricingSnapshot) : result (TStore * CostReserveOutcome) LedgerError :=
  reserve_with st t op None predicted snap (λ t l, Ok (clamped_open_sum t l)).

Definition cost_reserve_attempt (st : TStore) (t op : N) (predicted : N)
    (snap : option PricingSnapshot) : result (TStore * CostReserveOutcome) LedgerError :=
  reserve_with st t op (Some op) predicted snap checked_open_sum.

Definition cost_task_cap_set (st : TStore) (t : N) (cap : option N) :
    result TStore LedgerError :=
  match ts_tasks st !! t with
  | None => Err NoTaskRow
  | Some row =>
      Ok (set_tasks st
        (<[t := with_cost row (to_i64_col <$> cap) (t_spent_cost row)]> (ts_tasks st)))
  end.

(** ** Dispatch, settle, refund *)
Definition cost_mark_dispatched (st : TStore) (id ms : Z) : TStore * CostReservationState :=
  match find_resv st id with
  | None => (st, MissingReservation)
  | Some r =>
      if is_open r then (update_resv st id (λ r, dispatched_at r ms), Applied)
      else (st, NotOpen (r_status r))
  end.

Definition cost_mark_uncertain (st : TStore) (id : Z) : TStore * CostReservationState :=
  match find_resv st id with
  | None => (st, MissingReservation)
  | Some r =>
      match r_status r with
      | RDispatched => (update_resv st id (λ r, with_status r RUncertain), Applied)
      | s => (st, NotOpen s)
      end
  end.

Definition cost_settle (st : TStore) (id : Z) (actual_micro : N) :
    result (TStore * CostReservationState) LedgerError :=
  match find_resv st id with
  | None => Ok (st, MissingReservation)
  | Some r =>
      if is_open r then
        let actual := to_i64_col actual_micro in
        match add_spent (update_resv st id (λ r, settled_at r (Some actual))) (r_task r) actual with
        | None => Err NoTaskRow
        | Some st' => Ok (st', Applied)
        end
      else Ok (st, NotOpen (r_status r))
  end.

(** The amount folded by a usage settlement: the higher of the provider report
    and the locally priced categories. *)
Definition chosen_actual (reported local : option Z) : option Z :=
  match reported, local with
  | Some reported, Some local => Some (Z.max reported local)
  | Some reported, None => Some reported
  | None, Some local => Some local
  | None, None => None
  end.

Definition has_cap (st : TStore) (t : N) : bool :=
  match t_max_cost <$> ts_tasks st !! t with
  | Some (Some c) => (0 <? c)%Z
  | _ => false
  end.

Definition cost_settle_usage_with_context (st : TStore) (id : Z)
    (uncached_input cache_read cache_write output : N) (reported : option N) :
    result (TStore * CostSettleOutcome) LedgerError :=
  match find_resv st id with
  | None => Ok (st, SettleMissing)
  | Some r =>
      if is_open r then
        let local := r_snapshot r ≫= λ s,
          settle_cost s uncached_input cache_read cache_write output in
        match chosen_actual (to_i64_col <$> reported) (to_i64_col <$> local) with
        | Some chosen =>
            match add_spent (update_resv st id (λ r, settled_at r (Some chosen)))
                    (r_task r) chosen with
            | None => Err NoTaskRow
            | Some st' => Ok (st', SettleApplied (Z.max chosen 0))
            end
        | None =>
            if has_cap st (r_task r) then Ok (st, SettleUnknownPrice)
            else Ok (update_resv st id (λ r, settled_at r None), SettleAppliedUnknown)
        end
      else Ok (st, SettleNotOpen (r_status r))
  end.

Definition refundable (r : Reservation) : bool :=
  match r_status r, r_dispatched_ms r with RReserved, None => true | _, _ => false end.

Definition cost_refund (st : TStore) (id : Z) : TStore * RefundOutcome :=
  match find_resv st id with
  | None => (st, RefundMissing)
  | Some r =>
      if refundable r
      then (update_resv st id (λ r, with_status r RRefunded), RefundApplied)
      else (st, RefundBlocked (r_status r) (r_dispatched_ms r))
  end.

(** ** Crash recovery and task-end finalize *)
Definition recover_reservation (r : Reservation) : Reservation :=
  if refundable r then with_status r RRefunded
  else if is_open r then with_status r RUncertain else r.

Definition cost_recover_open_reservations (st : TStore) : TStore * (nat * nat) :=
  let refunded := length (filter (λ r, refundable r = true) (ts_resv st)) in
  let uncertain :=
    length (filter (λ r, is_open r = true ∧ refundable r = false) (ts_resv st)) in
  (set_resv st (map recover_reservation (ts_resv st)), (refunded, uncertain)).

Definition cost_abandon_open_reservations (st : TStore) : TStore * nat :=
  let '(st', (refunded, uncertain)) := cost_recover_open_reservations st in
  (st', refunded + uncertain).

(** One candidate of a reconcile or finalize pass: the body runs in its own
    savepoint, [None] means it rolled back. *)
Definition finalize_candidate (st : TStore) (t : N) (id : Z) : option TStore :=
  match find_resv st id with
  | Some r =>
      if decide (r_status r = RUncertain) then
        let predicted := Z.max (r_predicted r) 0 in
        add_spent (update_resv st id (λ r, settled_at r (Some predicted))) t predicted
      else None
  | None => None
  end.

Definition uncertain_ids (st : TStore) (t : N) : list Z :=
  map r_id (filter (λ r, r_task r = t ∧ r_status r = RUncertain) (ts_resv st)).

Definition cost_finalize_uncertain (st : TStore) (t : N) : TStore :=
  foldl (λ st id, default st (finalize_candidate st t id)) st (uncertain_ids st t).

(** [completed] reads the [provider_call] table: the input and output tokens of
    the latest completed call of the reservation's own attempt, or of its op
    for a reservation without an attempt id. *)
Definition reconcile_candidate (completed : Reservation → option (N * N))
    (st : TStore) (t : N) (id : Z) : option TStore :=
  match find_resv st id with
  | Some r =>
      if decide (r_status r = RUncertain) then
        match completed r with
        | None => None
        | Some (tokens_in, tokens_out) =>
            match r_snapshot r ≫= λ s, settle_cost s tokens_in 0 0 tokens_out with
            | Some cost =>
                let cost := to_i64_col cost in
                add_spent (update_resv st id (λ r, settled_at r (Some cost))) t cost
            | None =>
                if has_cap st t then None
                else Some (update_resv st id (λ r, settled_at r None))
            end
        end
      else None
  | None => None
  end.

Definition cost_reconcile_uncertain (completed : Reservation → option (N * N))
    (st : TStore) (t : N) : TStore :=
  let candidates :=
    map r_id (filter (λ r, r_task r = t ∧ r_status r = RUncertain ∧
                           is_Some (completed r)) (ts_resv st)) in
  foldl (λ st id, default st (reconcile_candidate completed st t id)) st candidates.

(** [completion_accounting_balance]: open and uncertain counts. *)
Definition completion_accounting_balance (st : TStore) (t : N) : nat * nat :=
  (length (filter (λ r, r_task r = t ∧ is_open r = true) (ts_resv st)),
   length (filter (λ r, r_task r = t ∧ r_status r = RUncertain) (ts_resv st))).

(** ** Ledger commands as one vocabulary *)
Inductive LedgerOp :=
  | LReserve (t op predicted : N) (snap : option PricingSnapshot)
  | LReserveAttempt (t op predicted : N) (snap : option PricingSnapshot)
  | LCapSet (t : N) (cap : option N)
  | LDispatch (id ms : Z)
  | LMarkUncertain (id : Z)
  | LSettle (id : Z) (actual : N)
  | LSettleUsage (id : Z) (uncached_input cache_read cache_write output : N)
      (reported : option N)
  | LRefund (id : Z)
  | LRecover
  | LReconcile (completed : Reservation → option (N * N)) (t : N)
  | LFinalize (t : N).

Definition or_keep {A E} (st : TStore) (r : result (TStore * A) E) : TStore :=
  match r with Ok p => p.1 | Err _ => st end.

Definition ledger_exec `{SqlTotal} (st : TStore) (op : LedgerOp) : TStore :=
  match op with
  | LReserve t op p snap => or_keep st (cost_reserve_inner st t op p snap)
  | LReserveAttempt t op p snap => or_keep st (cost_reserve_attempt st t op p snap)
  | LCapSet t cap =>
      match cost_task_cap_set st t cap with Ok st' => st' | Err _ => st end
  | LDispatch id ms => (cost_mark_dispatched st id ms).1
  | LMarkUncertain id => (cost_mark_uncertain st id).1
  | LSettle id actual => or_keep st (cost_settle st id actual)
  | LSettleUsage id a b c d rep =>
      or_keep st (cost_settle_usage_with_context st id a b c d rep)
  | LRefund id => (cost_refund st id).1
  | LRecover => (cost_recover_open_reservations st).1
  | LReconcile completed t => cost_reconcile_uncertain completed st t
  | LFinalize t => cost_finalize_uncertain st t
  end.

Definition ledger_run `{SqlTotal} (st : TStore) (ops : list LedgerOp) : TStore :=
  foldl ledger_exec st ops.

(** ** Specification: money as sums over the reservation table *)
Definition spent_w (t : N) (r : Reservation) : Z :=
  if decide (r_task r = t ∧ r_status r = RSettled) then default 0%Z (r_settled_cost r)
  else 0%Z.

Definition held_w (t : N) (r : Reservation) : Z :=
  if decide (r_task r = t ∧ is_held r = true) then Z.max 0 (r_predicted r) else 0%Z.

(** What a settlement billed above its own reservation's prediction. *)
Definition overshoot_w (t : N) (r : Reservation) : Z :=
  if decide (r_task r = t ∧ r_status r = RSettled)
  then Z.max 0 (default 0%Z (r_settled_cost r) - Z.max 0 (r_predicted r)) else 0%Z.

Definition wsum (w : Reservation → Z) (l : list Reservation) : Z := zsum (map w l).

(** What the column holds when the settlements come to [z]. *)
Definition sql_total (z : Z) : SqlNum := if decide (I64.fits z) then SqlInt z else SqlReal.

Record ledger_ok (st : TStore) : Prop := MkLedgerOk {
  lo_nodup : NoDup (map r_id (ts_resv st));
  lo_fresh : ∀ r, r ∈ ts_resv st → (r_id r < ts_next_resv st)%Z;
  lo_predicted : ∀ r, r ∈ ts_resv st → (0 <= r_predicted r)%Z;
  lo_task : ∀ r, r ∈ ts_resv st → is_Some (ts_tasks st !! r_task r);
  lo_settled : ∀ r, r ∈ ts_resv st → (0 <= default 0 (r_settled_cost r))%Z;
  lo_spent : ∀ t row, ts_tasks st !! t = Some row →
    t_spent_cost row = sql_total (wsum (spent_w t) (ts_resv st));
}.

(** The moves of a reservation that touch no task row. *)
Inductive rmove : Reservation → Reservation → Prop :=
  | rmove_dispatch r ms : is_open r = true → rmove r (dispatched_at r ms)
  | rmove_uncertain r : is_open r = true → rmove r (with_status r RUncertain)
  | rmove_refund r : refundable r = true → rmove r (with_status r RRefunded)
  | rmove_close_unknown r : is_held r = true → rmove r (settled_at r None).

(** The largest cap for which neither the rounding of [total()] nor the clamp
    of [clamped_open_sum] is visible: 2^53 micro-units. *)
Definition EXACT : Z := 2 ^ 53.
#[global] Arguments EXACT : simpl never.

Inductive lstep (st : TStore) : TStore → Prop :=
  | ls_reserve row r spent :
      ts_tasks st !! r_task r = Some row →
      task_state_permits_provider_operation (t_state row) = true →
      t_spent_cost row = SqlInt spent →
      r_id r = ts_next_resv st → r_status r = RReserved → r_settled_cost r = None →
      (0 <= r_predicted r)%Z →
      (∀ c, t_max_cost row = Some c → (0 < c <= EXACT)%Z →
         (r_predicted r = 0 ∨
          Z.max 0 spent + wsum (held_w (r_task r)) (ts_resv st)
          + r_predicted r <= c)%Z) →
      lstep st (MkTStore (ts_session st) (ts_workspace st) (ts_worktree st)
                  (ts_tasks st) (ts_records st) (ts_resv st ++ [r])
                  (ts_next_resv st + 1))
  | ls_move g :
      (∀ r, r ∈ ts_resv st → g r = r ∨ rmove r (g r)) →
      lstep st (set_resv st (map g (ts_resv st)))
  | ls_settle id r row amount :
      find_resv st id = Some r → is_held r = true →
      ts_tasks st !! r_task r = Some row → (0 <= amount)%Z →
      lstep st (set_tasks (update_resv st id (λ r, settled_at r (Some amount)))
        (<[r_task r := with_cost row (t_max_cost row) (sql_add (t_spent_cost row) amount)]>
           (ts_tasks st))).

(** ** Lemmas *)
Lemma zsum_app a b : zsum (a ++ b) = (zsum a + zsum b)%Z.
Proof. induction a as [|x a IH]; simpl; [done|]. rewrite IH. lia. Qed.

Lemma wsum_app w a b : wsum w (a ++ b) = (wsum w a + wsum w b)%Z.
Proof. unfold wsum. by rewrite map_app, zsum_app. Qed.

Lemma wsum_ext (w w' : Reservation → Z) l :
  (∀ r, r ∈ l → w r = w' r) → wsum w l = wsum w' l.
Proof.
  induction l as [|r l IH]; intros H; [done|]. unfold wsum in *. simpl.
  rewrite IH by (intros; apply H; by right). by rewrite H by left.
Qed.

Lemma wsum_map w g l : wsum w (map g l) = wsum (λ r, w (g r)) l.
Proof. unfold wsum. by rewrite map_map. Qed.

Lemma wsum_le (w w' : Reservation → Z) l :
  (∀ r, r ∈ l → (w r <= w' r)%Z) → (wsum w l <= wsum w' l)%Z.
Proof.
  induction l as [|r l IH]; intros H; unfold wsum in *; simpl; [lia|].
  pose proof (H r ltac:(by left)).
  specialize (IH ltac:(intros; apply H; by right)). lia.
Qed.

Lemma wsum_zero l : wsum (λ _, 0%Z) l = 0%Z.
Proof. induction l as [|r l IH]; unfold wsum in *; simpl in *; lia. Qed.

Lemma wsum_nonneg w l : (∀ r, r ∈ l → (0 <= w r)%Z) → (0 <= wsum w l)%Z.
Proof.
  intros H. rewrite <-(wsum_zero l). by apply wsum_le.
Qed.

Lemma zsum_filter (P : Reservation → Prop) `{∀ r, Decision (P r)} f l :
  zsum (map f (filter P l)) = wsum (λ r, if decide (P r) then f r else 0%Z) l.
Proof.
  induction l as [|r l IH]; [done|]. rewrite filter_cons. unfold wsum in *. simpl.
  destruct (decide (P r)); simpl; rewrite IH; lia.
Qed.

Lemma find_resv_Some st id r :
  find_resv st id = Some r → r ∈ ts_resv st ∧ r_id r = id.
Proof.
  unfold find_resv. destruct (list_find _ _) as [[i r']|] eqn:Hf; [|done].
  intros [= <-]. apply list_find_Some in Hf as (Hl & Hid & _). simpl.
  split; [by eapply list_elem_of_lookup_2|done].
Qed.

Lemma nodup_ids_unique l r r' :
  NoDup (map r_id l) → r ∈ l → r' ∈ l → r_id r = r_id r' → r = r'.
Proof.
  induction l as [|x l IH]; intros Hnd Hr Hr' Heq; [by apply elem_of_nil in Hr|].
  simpl in Hnd. apply NoDup_cons in Hnd as [Hx Hnd].
  apply elem_of_cons in Hr as [->|Hr], Hr' as [->|Hr']; [done| | |by apply IH];
    exfalso; apply Hx; [rewrite Heq|rewrite <-Heq]; by apply list_elem_of_fmap_2.
Qed.

Lemma find_resv_elem st r :
  NoDup (map r_id (ts_resv st)) → r ∈ ts_resv st → find_resv st (r_id r) = Some r.
Proof.
  intros Hnd Hr. unfold find_resv.
  destruct (list_find_elem_of (λ r', r_id r' = r_id r) (ts_resv st) r Hr eq_refl)
    as [[i r'] Hf].
  rewrite Hf. simpl. apply list_find_Some in Hf as (Hl & Hid & _).
  f_equal. apply (nodup_ids_unique (ts_resv st)); try done.
  by eapply list_elem_of_lookup_2.
Qed.

(** Replacing one reservation changes a sum by the difference of its weights. *)
Lemma wsum_update w st id f r :
  NoDup (map r_id (ts_resv st)) → find_resv st id = Some r →
  wsum w (ts_resv (update_resv st id f)) =
  (wsum w (ts_resv st) + w (f r) - w r)%Z.
Proof.
  intros Hnd (Hr & Hid)%find_resv_Some. unfold update_resv, set_resv. simpl.
  revert Hnd Hr. generalize (ts_resv st). intros l.
  induction l as [|x l IH]; intros Hnd Hr; [by apply elem_of_nil in Hr|].
  simpl in Hnd. apply NoDup_cons in Hnd as [Hx Hnd].
  unfold wsum in *. simpl.
  apply elem_of_cons in Hr as [->|Hr].
  - rewrite decide_True by done.
    assert (map (λ r, if decide (r_id r = id) then f r else r) l = l) as ->.
    { rewrite <-(map_id l) at 2. apply map_ext_in. intros y Hy.
      rewrite decide_False; [done|]. intros Hyid. apply Hx.
      rewrite Hid, <-Hyid. by apply list_elem_of_fmap_2, list_elem_of_In. }
    lia.
  - rewrite IH by done. rewrite decide_False; [lia|].
    intros Hxid. apply Hx. rewrite Hxid, <-Hid. by apply list_elem_of_fmap_2.
Qed.

Lemma find_update_ne st id id' f :
  id ≠ id' → (∀ r, r_id (f r) = r_id r) →
  find_resv (update_resv st id f) id' = find_resv st id'.
Proof.
  intros Hne Hf. unfold find_resv, update_resv, set_resv. simpl.
  induction (ts_resv st) as [|x l IH]; [done|]. simpl.
  destruct (decide (r_id x = id)) as [Hx|Hx].
  - rewrite decide_False by (rewrite Hf; congruence).
    rewrite (decide_False (P := r_id x = id')) by congruence.
    destruct (list_find _ (map _ l)) as [[]|], (list_find _ l) as [[]|]; naive_solver.
  - destruct (decide (r_id x = id')); [done|].
    destruct (list_find _ (map _ l)) as [[]|], (list_find _ l) as [[]|]; naive_solver.
Qed.

Lemma add_spent_Some st t a st' :
  add_spent st t a = Some st' ↔
  ∃ row, ts_tasks st !! t = Some row ∧
    st' = set_tasks st (<[t := with_cost row (t_max_cost row) (sql_add (t_spent_cost row) a)]>
            (ts_tasks st)).
Proof.
  unfold add_spent. destruct (ts_tasks st !! t); naive_solver.
Qed.

Lemma sql_add_total z a : (0 <= z)%Z → (0 <= a)%Z → sql_add (sql_total z) a = sql_total (z + a).
Proof.
  intros Hz Ha. unfold sql_total. destruct (decide (I64.fits z)) as [|Hn]; [done|].
  cbn [sql_add]. rewrite decide_False; [done|]. unfold I64.fits in *.
  intros [_ ?]. apply Hn. split; [|lia]. etransitivity; [|exact Hz]. done.
Qed.

Lemma sql_total_int z y : sql_total z = SqlInt y → y = z.
Proof. unfold sql_total. case_decide; [|done]. by intros [= <-]. Qed.

Lemma spent_w_nonneg t l :
  (∀ r, r ∈ l → (0 <= default 0 (r_settled_cost r))%Z) → (0 <= wsum (spent_w t) l)%Z.
Proof.
  intros H. apply wsum_nonneg. intros r Hr. unfold spent_w. case_decide; [by apply H|done].
Qed.

Lemma to_i64_col_nonneg n : (0 <= to_i64_col n)%Z.
Proof. unfold to_i64_col, I64.max. lia. Qed.

Lemma is_open_held r : is_open r = true → is_held r = true.
Proof. unfold is_open, is_held. by destruct (r_status r). Qed.

Lemma refundable_open r : refundable r = true → is_open r = true.
Proof. unfold refundable, is_open. by destruct (r_status r), (r_dispatched_ms r). Qed.

Lemma lstep_update st id r f :
  ledger_ok st → find_resv st id = Some r → rmove r (f r) →
  lstep st (update_resv st id f).
Proof.
  intros Hok Hf Hm. apply ls_move. intros r' Hr'.
  destruct (decide (r_id r' = id)) as [Hid|]; [|by left]. right.
  apply find_resv_Some in Hf as [Hr Hid'].
  assert (r' = r) as ->; [|done].
  apply (nodup_ids_unique (ts_resv st)); [apply Hok|done|done|congruence].
Qed.

#[local] Arguments I64.max : simpl never.
#[local] Arguments I64.min : simpl never.

Lemma free_balance_bound cap spent open p :
  (0 < default 0 cap <= I64.max)%Z → (0 <= p)%Z →
  ¬ (free_balance cap spent open < p)%Z →
  (p = 0 ∨ Z.max 0 spent + Z.max 0 open + p <= default 0 cap)%Z.
Proof.
  unfold free_balance. generalize (default 0%Z cap). intros c Hc Hp Hlt.
  unfold I64.sat_sub, I64.clamp in Hlt.
  assert (I64.min = - I64.max - 1)%Z as Hmin by done. rewrite Hmin in Hlt.
  assert (0 <= I64.max)%Z as Hmax by done.
  revert Hmax Hc Hlt. generalize I64.max. lia.
Qed.

Lemma held_of_wsum t l :
  (∀ r, r ∈ l → (0 <= r_predicted r)%Z) →
  zsum (map r_predicted (held_of t l)) = wsum (held_w t) l ∧
  zsum (map (λ r, Z.max 0 (r_predicted r)) (held_of t l)) = wsum (held_w t) l.
Proof.
  intros Hp. unfold held_of. rewrite !zsum_filter. split; [|done].
  apply wsum_ext. intros r Hr. unfold held_w. destruct (decide _); [|done].
  specialize (Hp r Hr). lia.
Qed.

Lemma held_w_nonneg t l : (0 <= wsum (held_w t) l)%Z.
Proof. apply wsum_nonneg. intros r _. unfold held_w. case_decide; lia. Qed.

(** One lemma for both reserve entry points: [open_sum_of] may clamp. *)
Lemma reserve_with_step st t op attempt p snap osum :
  ledger_ok st →
  (∀ s, osum t (ts_resv st) = Ok s →
     s = wsum (held_w t) (ts_resv st) ∨ (EXACT <= s)%Z) →
  rtc lstep st (or_keep st (reserve_with st t op attempt p snap osum)).
Proof.
  intros Hok Hosum. unfold reserve_with.
  destruct (ts_tasks st !! t) as [row|] eqn:Hrow; [|done].
  destruct (task_state_permits_provider_operation (t_state row)) eqn:Hperm; [|done].
  simpl. destruct (t_spent_cost row) as [spent|] eqn:Hspent; [|done].
  destruct (osum t (ts_resv st)) as [s|] eqn:Hs; [|done]. simpl.
  destruct (decide _) as [|Hfree]; [done|]. simpl.
  apply rtc_once, (ls_reserve st row _ spent); try done; simpl.
  - apply to_i64_col_nonneg.
  - intros c Hc Hcap. rewrite Hc in Hfree. simpl in Hfree.
    assert (¬ (free_balance (Some c) spent s < to_i64_col p)%Z) as Hf
      by (intros ?; apply Hfree; split; [lia|done]).
    assert (EXACT <= I64.max)%Z as Hclamp by done.
    apply free_balance_bound in Hf; [|simpl; lia|apply to_i64_col_nonneg].
    simpl in Hf. pose proof (held_w_nonneg t (ts_resv st)).
    pose proof (to_i64_col_nonneg p).
    destruct (Hosum s eq_refl) as [->|Hge]; lia.
Qed.

Lemma settle_step st id r a st' :
  ledger_ok st → find_resv st id = Some r → is_held r = true → (0 <= a)%Z →
  add_spent (update_resv st id (λ r, settled_at r (Some a))) (r_task r) a = Some st' →
  lstep st st'.
Proof.
  intros Hok Hf Hh Ha (row & Hrow & ->)%add_spent_Some. simpl in Hrow.
  by apply (ls_settle st id r row a).
Qed.

Lemma close_unknown_step st id r :
  ledger_ok st → find_resv st id = Some r → is_held r = true →
  lstep st (update_resv st id (λ r, settled_at r None)).
Proof. intros. eapply lstep_update; eauto. by apply rmove_close_unknown. Qed.

Lemma rmove_frame r r' :
  rmove r r' → r_id r' = r_id r ∧ r_task r' = r_task r ∧
    r_predicted r' = r_predicted r ∧ is_held r = true ∧ 
    (∀ t, spent_w t r' = 0 ∧ spent_w t r = 0 ∧ held_w t r' <= held_w t r ∧
          overshoot_w t r' = 0 ∧ overshoot_w t r = 0)%Z.
Proof.
  assert (∀ t r, is_held r = true → spent_w t r = 0%Z ∧ overshoot_w t r = 0%Z) as Hz.
  { intros t x Hx. unfold spent_w, overshoot_w. unfold is_held in Hx.
    rewrite !decide_False; [done| |]; intros [_ Hs]; by rewrite Hs in Hx. }
  assert (∀ t a b, is_held a = true → r_task b = r_task a → r_predicted b = r_predicted a →
    (held_w t b <= held_w t a)%Z) as Hle.
  { intros t a b Ha Ht Hp. unfold held_w. rewrite Ht, Hp.
    destruct (decide _) as [[-> _]|], (decide _) as [|Hn]; try lia.
    exfalso. by apply Hn. }
  destruct 1 as [r ms Ho|r Ho|r Hr|r Hh].
  - apply is_open_held in Ho. repeat split; try done; try (by apply Hz). by apply Hle.
  - apply is_open_held in Ho. repeat split; try done; try (by apply Hz). by apply Hle.
  - apply refundable_open, is_open_held in Hr.
    repeat split; try done; try (by apply Hz); [|by apply Hle|].
    + unfold spent_w. rewrite decide_False; [done|]. by intros [_ ?].
    + unfold overshoot_w. rewrite decide_False; [done|]. by intros [_ ?].
  - repeat split; try done; try (by apply Hz); [|by apply Hle|].
    + unfold spent_w. by case_decide.
    + unfold overshoot_w. simpl. case_decide; lia.
Qed.

Lemma rmove_settled r r' :
  rmove r r' → (0 <= default 0 (r_settled_cost r))%Z → (0 <= default 0 (r_settled_cost r'))%Z.
Proof. by destruct 1. Qed.

Lemma lstep_ok st st' : ledger_ok st → lstep st st' → ledger_ok st'.
Proof.
  intros Hok. pose proof Hok as [Hnd Hfr Hpr Htk Hse Hsp].
  destruct 1 as [row r spent Hrow _ _ Hid Hst Hnone Hp _|g Hg|id r row a Hf Hh Hrow Ha].
  - split; simpl.
    + rewrite map_app. apply NoDup_app. split; [done|]. split; [|apply NoDup_singleton].
      intros i (x & -> & Hx)%list_elem_of_fmap Hi. apply list_elem_of_singleton in Hi.
      specialize (Hfr x Hx). lia.
    + intros x [Hx| ->%list_elem_of_singleton]%elem_of_app; [specialize (Hfr x Hx)|]; lia.
    + intros x [Hx| ->%list_elem_of_singleton]%elem_of_app; auto.
    + intros x [Hx| ->%list_elem_of_singleton]%elem_of_app; eauto.
    + intros x [Hx| ->%list_elem_of_singleton]%elem_of_app; [auto|by rewrite Hnone].
    + intros t row' Hrow'. rewrite wsum_app, (Hsp t row' Hrow'). f_equal. unfold wsum at 3. simpl.
      unfold spent_w at 3. rewrite Hst, decide_False by naive_solver. lia.
  - assert (∀ r, r ∈ ts_resv st → r_id (g r) = r_id r ∧ r_task (g r) = r_task r ∧
      r_predicted (g r) = r_predicted r ∧ ∀ t, spent_w t (g r) = spent_w t r) as Hsame.
    { intros r Hr. destruct (Hg r Hr) as [->|Hm%rmove_frame]; [done|].
      destruct Hm as (? & ? & ? & _ & Hw). repeat split; try done.
      intros t. destruct (Hw t) as (-> & -> & _). done. }
    split; simpl.
    + rewrite map_map, (map_ext_in _ r_id); [done|].
      intros r Hr%list_elem_of_In. by apply Hsame.
    + intros x (r & -> & Hr)%list_elem_of_fmap. destruct (Hsame r Hr) as (-> & _). auto.
    + intros x (r & -> & Hr)%list_elem_of_fmap. destruct (Hsame r Hr) as (_ & _ & -> & _). auto.
    + intros x (r & -> & Hr)%list_elem_of_fmap. destruct (Hsame r Hr) as (_ & -> & _). auto.
    + intros x (r & -> & Hr)%list_elem_of_fmap. destruct (Hg r Hr) as [->|Hm]; [by apply Hse|].
      eapply rmove_settled; [done|by apply Hse].
    + intros t row Hrow. rewrite wsum_map. rewrite (Hsp t row Hrow). f_equal.
      apply wsum_ext. intros r Hr. symmetry. by apply Hsame.
  - assert (∀ x, r_id (settled_at x (Some a)) = r_id x) as Hid by done.
    pose proof (find_resv_Some _ _ _ Hf) as [Hr Hrid].
    split; simpl.
    + rewrite map_map, (map_ext_in _ r_id); [done|]. intros x _. by case_decide.
    + intros x (y & -> & Hy)%list_elem_of_fmap. case_decide; simpl; auto.
    + intros x (y & -> & Hy)%list_elem_of_fmap. case_decide; simpl; auto.
    + intros x (y & -> & Hy)%list_elem_of_fmap. specialize (Htk y Hy).
      destruct (decide (r_task r = r_task y)) as [Heq|].
      * case_decide; simpl; rewrite <-Heq, lookup_insert_eq; eauto.
      * case_decide; simpl; rewrite lookup_insert_ne by done; done.
    + intros x (y & -> & Hy)%list_elem_of_fmap. case_decide; simpl; auto.
    + intros t row' Hrow'.
      change (map _ (ts_resv st)) with
        (ts_resv (update_resv st id (λ x, settled_at x (Some a)))).
      rewrite (wsum_update _ st id _ r Hnd Hf).
      assert (spent_w t r = 0)%Z as ->.
      { unfold spent_w. rewrite decide_False; [done|]. intros [_ Hs].
        unfold is_held in Hh. by rewrite Hs in Hh. }
      unfold spent_w at 2. simpl.
      destruct (decide (r_task r = t)) as [<-|Hne].
      * rewrite lookup_insert_eq in Hrow'. injection Hrow' as <-. simpl.
        rewrite (Hsp _ row Hrow), sql_add_total by (done || by apply spent_w_nonneg).
        rewrite decide_True by done. f_equal. lia.
      * rewrite lookup_insert_ne in Hrow' by done.
        rewrite (Hsp t row' Hrow'). rewrite decide_False by naive_solver. f_equal. lia.
Qed.

Lemma lsteps_ok st st' : ledger_ok st → rtc lstep st st' → ledger_ok st'.
Proof. induction 2; eauto using lstep_ok. Qed.

Lemma uncertain_held r : r_status r = RUncertain → is_held r = true.
Proof. unfold is_held. by intros ->. Qed.

(** The candidates of the task's own passes carry the task's id. *)
Lemma add_spent_step st id r t a st' :
  ledger_ok st → find_resv st id = Some r → is_held r = true → (0 <= a)%Z →
  r_task r = t →
  add_spent (update_resv st id (λ r, settled_at r (Some a))) t a = Some st' →
  lstep st st'.
Proof. intros ? ? ? ? <-. by apply settle_step. Qed.

(** A pass only visits reservations of its task. *)
Definition in_task (st : TStore) (t : N) (id : Z) : Prop :=
  ∀ r, find_resv st id = Some r → r_task r = t.

Lemma finalize_candidate_step st t id st' :
  ledger_ok st → in_task st t id → finalize_candidate st t id = Some st' → lstep st st'.
Proof.
  intros Hok Ht. unfold finalize_candidate.
  destruct (find_resv st id) as [r|] eqn:Hf; [|done].
  destruct (decide _) as [Hu|]; [|done].
  eapply add_spent_step; eauto using uncertain_held; lia.
Qed.

Lemma reconcile_candidate_step completed st t id st' :
  ledger_ok st → in_task st t id →
  reconcile_candidate completed st t id = Some st' → lstep st st'.
Proof.
  intros Hok Ht. unfold reconcile_candidate.
  destruct (find_resv st id) as [r|] eqn:Hf; [|done].
  destruct (decide _) as [Hu|]; [|done].
  destruct (completed r) as [[ti to]|]; [|done].
  destruct (r_snapshot r ≫= _) as [c|].
  - eapply add_spent_step; eauto using uncertain_held. apply to_i64_col_nonneg.
  - destruct (has_cap st t); [done|]. intros [= <-].
    eapply close_unknown_step; eauto using uncertain_held.
Qed.

Lemma lstep_in_task st st' t id :
  ledger_ok st → (∃ r, find_resv st id = Some r ∧ r_task r = t) → lstep st st' →
  ∃ r, find_resv st' id = Some r ∧ r_task r = t.
Proof.
  intros Hok (r & Hf & Ht) Hstep.
  assert (ledger_ok st') as Hok' by by eapply lstep_ok.
  pose proof (find_resv_Some _ _ _ Hf) as [Hr Hid].
  assert (∃ r', r' ∈ ts_resv st' ∧ r_id r' = id ∧ r_task r' = t) as (r' & Hr' & <- & <-).
  { destruct Hstep as [row x|g Hg|id' x row a Hf' Hh]; simpl.
    - exists r. by rewrite elem_of_app; auto.
    - exists (g r). split; [by apply list_elem_of_fmap_2|].
      destruct (Hg r Hr) as [->|Hm%rmove_frame]; [done|].
      destruct Hm as (-> & -> & _). done.
    - exists (if decide (r_id r = id') then settled_at r (Some a) else r).
      split; [apply list_elem_of_fmap; by exists r|]. by case_decide. }
  exists r'. split; [|done]. apply find_resv_elem; [apply Hok'|done].
Qed.

Lemma pass_steps (f : TStore → N → Z → option TStore) t ids st :
  (∀ st id st', ledger_ok st → in_task st t id → f st t id = Some st' → lstep st st') →
  ledger_ok st →
  (∀ id, id ∈ ids → ∃ r, find_resv st id = Some r ∧ r_task r = t) →
  rtc lstep st (foldl (λ st id, default st (f st t id)) st ids).
Proof.
  intros Hf. revert st. induction ids as [|id ids IH]; intros st Hok Hin; [done|]. simpl.
  destruct (f st t id) as [st'|] eqn:Hst; simpl.
  - assert (lstep st st') as Hs.
    { apply (Hf _ id); try done. intros r Hr.
      destruct (Hin id) as (r' & Hr' & Ht); [by left|]. naive_solver. }
    eapply rtc_l; [done|]. apply IH; [by eapply lstep_ok|].
    intros id' Hid'. eapply lstep_in_task; eauto. apply Hin. by right.
  - apply IH; [done|]. intros; apply Hin. by right.
Qed.

Lemma filter_ids_in_task (P : Reservation → Prop) `{∀ r, Decision (P r)} st t :
  ledger_ok st → (∀ r, P r → r_task r = t) →
  ∀ id, id ∈ map r_id (filter P (ts_resv st)) →
    ∃ r, find_resv st id = Some r ∧ r_task r = t.
Proof.
  intros Hok HP id (r & -> & [Hr Hin]%list_elem_of_filter)%list_elem_of_fmap.
  exists r. split; [apply find_resv_elem; [apply Hok|done]|auto].
Qed.

Lemma reconcile_steps completed st t :
  ledger_ok st → rtc lstep st (cost_reconcile_uncertain completed st t).
Proof.
  intros Hok.
  apply (pass_steps (reconcile_candidate completed)); [by eauto using reconcile_candidate_step|done|].
  apply filter_ids_in_task; [done|]. by intros r [].
Qed.

Lemma finalize_steps st t : ledger_ok st → rtc lstep st (cost_finalize_uncertain st t).
Proof.
  intros Hok.
  apply (pass_steps finalize_candidate); [by eauto using finalize_candidate_step|done|].
  apply filter_ids_in_task; [done|]. by intros r [].
Qed.

Section Ledger.
Context {rounding : SqlTotal}.

(** Through binary64 and the clamp: exact up to 2^53, never below it past it. *)
Lemma clamped_open_sum_bound t l :
  (∀ r, r ∈ l → (0 <= r_predicted r)%Z) →
  clamped_open_sum t l = wsum (held_w t) l ∨ (EXACT <= clamped_open_sum t l)%Z.
Proof.
  intros Hp. unfold clamped_open_sum. set (ps := map _ (held_of t l)).
  assert (foldr Z.add 0%Z ps = wsum (held_w t) l) as Hsum.
  { destruct (held_of_wsum t l Hp) as [_ E]. exact E. }
  assert (Forall (λ z, 0 <= z)%Z ps) as Hpos.
  { apply Forall_forall. intros z (r & -> & _)%list_elem_of_fmap. lia. }
  assert (2 ^ 53 <= 9223372036854774784)%Z as Hc by done.
  unfold EXACT. destruct (Z.le_gt_cases (foldr Z.add 0%Z ps) (2 ^ 53)) as [Hle|Hgt].
  - left. rewrite (total_exact _ Hpos Hle), Hsum in *. apply Z.min_l. lia.
  - right. pose proof (total_large _ Hpos Hgt). lia.
Qed.

(** Every command other than setting the cap is a sequence of ledger steps. *)
Lemma ledger_exec_steps st op :
  ledger_ok st → (∀ t cap, op ≠ LCapSet t cap) → rtc lstep st (ledger_exec st op).
Proof.
  intros Hok Hcap. pose proof (lo_predicted st Hok) as Hpr.
  destruct op as [t o p snap|t o p snap|t cap|id ms|id|id a|id a b c d rep|id| |completed t|t];
    simpl.
  - apply reserve_with_step; [done|]. intros s [= <-]. by apply clamped_open_sum_bound.
  - apply reserve_with_step; [done|]. intros s. unfold checked_open_sum.
    destruct (held_of_wsum t (ts_resv st) Hpr) as [-> _].
    case_decide; [|done]. intros [= <-]. by left.
  - by destruct (Hcap t cap).
  - unfold cost_mark_dispatched. destruct (find_resv st id) as [r|] eqn:Hf; [|done].
    destruct (is_open r) eqn:Ho; [|done]. simpl. eapply rtc_once, lstep_update; eauto.
    by apply rmove_dispatch.
  - unfold cost_mark_uncertain. destruct (find_resv st id) as [r|] eqn:Hf; [|done].
    destruct (r_status r) eqn:Hs; try done. simpl. eapply rtc_once, lstep_update; eauto.
    apply rmove_uncertain. unfold is_open. by rewrite Hs.
  - unfold cost_settle. destruct (find_resv st id) as [r|] eqn:Hf; [|done].
    destruct (is_open r) eqn:Ho; [|done]. simpl.
    destruct (add_spent _ _ _) as [st'|] eqn:Ha; [|done]. simpl.
    eapply rtc_once, settle_step; eauto using is_open_held, to_i64_col_nonneg.
  - unfold cost_settle_usage_with_context.
    destruct (find_resv st id) as [r|] eqn:Hf; [|done].
    destruct (is_open r) eqn:Ho; [|done]. simpl.
    destruct (chosen_actual _ _) as [ch|] eqn:Hch.
    + destruct (add_spent _ _ _) as [st'|] eqn:Ha; [|done]. simpl.
      eapply rtc_once, settle_step; eauto using is_open_held.
      revert Hch. destruct rep as [n|], (r_snapshot r ≫= _) as [m|]; simpl;
        intros [= <-]; try (pose proof (to_i64_col_nonneg n));
        try (pose proof (to_i64_col_nonneg m)); lia.
    + destruct (has_cap st (r_task r)); [done|]. simpl.
      eapply rtc_once, close_unknown_step; eauto using is_open_held.
  - unfold cost_refund. destruct (find_resv st id) as [r|] eqn:Hf; [|done].
    destruct (refundable r) eqn:Hr; [|done]. simpl. eapply rtc_once, lstep_update; eauto.
    by apply rmove_refund.
  - apply rtc_once, ls_move. intros r _. unfold recover_reservation.
    destruct (refundable r) eqn:Hr; [right; by apply rmove_refund|].
    destruct (is_open r) eqn:Ho; [right; by apply rmove_uncertain|by left].
  - by apply reconcile_steps.
  - by apply finalize_steps.
Qed.

Lemma cap_set_ok st t cap :
  ledger_ok st → ledger_ok (ledger_exec st (LCapSet t cap)).
Proof.
  intros Hok. simpl. unfold cost_task_cap_set.
  destruct (ts_tasks st !! t) as [row|] eqn:Hrow; [|done].
  destruct Hok as [Hnd Hfr Hpr Htk Hse Hsp]. split; simpl; try done.
  - intros r Hr. specialize (Htk r Hr). destruct (decide (t = r_task r)) as [->|].
    + rewrite lookup_insert_eq. eauto.
    + by rewrite lookup_insert_ne.
  - intros t' row'. destruct (decide (t = t')) as [<-|].
    + rewrite lookup_insert_eq. intros [= <-]. simpl. auto.
    + rewrite lookup_insert_ne by done. auto.
Qed.

Lemma ledger_exec_ok st op : ledger_ok st → ledger_ok (ledger_exec st op).
Proof.
  intros Hok.
  destruct op as [| |t cap| | | | | | | |]; try by (eapply lsteps_ok, ledger_exec_steps).
  by apply cap_set_ok.
Qed.

Lemma ledger_run_ok st ops : ledger_ok st → ledger_ok (ledger_run st ops).
Proof.
  revert st. induction ops as [|op ops IH]; intros st Hok; [done|].
  apply IH. by apply ledger_exec_ok.
Qed.

(** ** The cap *)
Definition charge (t : N) (r : Reservation) : Z :=
  (spent_w t r + held_w t r - overshoot_w t r)%Z.

Definition capped (t : N) (c : Z) (st : TStore) : Prop :=
  (∀ row, ts_tasks st !! t = Some row → t_max_cost row = Some c) ∧
  (wsum (charge t) (ts_resv st) <= c)%Z.

Lemma wsum_charge t l :
  wsum (charge t) l = (wsum (spent_w t) l + wsum (held_w t) l - wsum (overshoot_w t) l)%Z.
Proof. induction l as [|r l IH]; unfold wsum, charge in *; simpl in *; lia. Qed.

Lemma overshoot_w_nonneg t l : (0 <= wsum (overshoot_w t) l)%Z.
Proof. apply wsum_nonneg. intros r _. unfold overshoot_w. case_decide; lia. Qed.

Lemma charge_other t r : r_task r ≠ t → charge t r = 0%Z.
Proof.
  intros Hne. unfold charge, spent_w, held_w, overshoot_w.
  by rewrite !decide_False by naive_solver.
Qed.

Lemma lstep_capped t c st st' :
  ledger_ok st → (0 < c <= EXACT)%Z → lstep st st' → capped t c st → capped t c st'.
Proof.
  intros Hok Hc Hstep [Hcap Hsum].
  destruct Hstep as [row r spent Hrow _ Hspent Hid Hst _ Hp Hb|g Hg|id r row a Hf Hh Hrow Ha].
  - split; simpl; [done|]. rewrite wsum_app. unfold wsum at 2. simpl.
    destruct (decide (r_task r = t)) as [Ht|]; [subst t|rewrite charge_other by done; lia].
    assert (charge (r_task r) r = r_predicted r) as ->.
    { unfold charge, spent_w, held_w, overshoot_w, is_held. rewrite Hst.
      rewrite !(decide_False (P := _ ∧ _ = RSettled)) by naive_solver.
      rewrite decide_True by done. lia. }
    destruct (Hb c (Hcap row Hrow) Hc) as [Hz|Hle]; [lia|].
    rewrite wsum_charge. rewrite wsum_charge in Hsum.
    pose proof (overshoot_w_nonneg (r_task r) (ts_resv st)).
    pose proof (lo_spent st Hok _ row Hrow) as Hs. rewrite Hspent in Hs.
    apply eq_sym, sql_total_int in Hs. lia.
  - split; simpl; [done|]. rewrite wsum_map. etransitivity; [|done].
    apply wsum_le. intros r Hr. destruct (Hg r Hr) as [->|Hm%rmove_frame]; [done|].
    destruct Hm as (_ & _ & _ & _ & Hw). destruct (Hw t) as (? & ? & ? & ? & ?).
    unfold charge. lia.
  - split.
    + intros row'. simpl. destruct (decide (r_task r = t)) as [<-|].
      * rewrite lookup_insert_eq. intros [= <-]. simpl. auto.
      * rewrite lookup_insert_ne by done. auto.
    + simpl. change (map _ (ts_resv st)) with
        (ts_resv (update_resv st id (λ x, settled_at x (Some a)))).
      rewrite (wsum_update _ st id _ r (lo_nodup st Hok) Hf).
      enough (charge t (settled_at r (Some a)) <= charge t r)%Z by lia.
      destruct (decide (r_task r = t)) as [Ht|]; [subst t|by rewrite !charge_other].
      unfold charge, spent_w, held_w, overshoot_w. rewrite Hh. simpl.
      assert (r_status r ≠ RSettled) by (unfold is_held in Hh; by destruct (r_status r)).
      rewrite !(decide_False (P := _ ∧ r_status r = RSettled)) by naive_solver.
      rewrite !(decide_True (P := _ ∧ RSettled = RSettled)) by done.
      rewrite !(decide_True (P := _ ∧ true = true)) by done.
      unfold is_held. simpl. rewrite decide_False by naive_solver. lia.
Qed.

Lemma lsteps_capped t c st st' :
  ledger_ok st → (0 < c <= EXACT)%Z → rtc lstep st st' → capped t c st → capped t c st'.
Proof.
  intros Hok Hc Hs. revert Hok. induction Hs; eauto using lstep_capped, lstep_ok.
Qed.

Lemma cap_set_other_capped t t' cap c st :
  t ≠ t' → capped t c st → capped t c (ledger_exec st (LCapSet t' cap)).
Proof.
  intros Hne [Hcap Hsum]. simpl. unfold cost_task_cap_set.
  destruct (ts_tasks st !! t') eqn:Hrow; [|done].
  split; [|done]. intros row. simpl. rewrite lookup_insert_ne by done. auto.
Qed.

Definition sets_cap_of (t : N) (op : LedgerOp) : Prop :=
  match op with LCapSet t' _ => t' = t | _ => False end.

Lemma ledger_exec_capped t c st op :
  ledger_ok st → (0 < c <= EXACT)%Z → ¬ sets_cap_of t op →
  capped t c st → capped t c (ledger_exec st op).
Proof.
  intros Hok Hc Hop Hcap. destruct op as [| |t' cap| | | | | | | |];
    try by (eapply lsteps_capped; [done|done|by apply ledger_exec_steps|done]).
  apply cap_set_other_capped; [|done]. simpl in Hop. congruence.
Qed.

(** A ledger nobody has reserved from yet. *)
Definition fresh_ledger (st : TStore) : Prop :=
  ts_resv st = [] ∧ ∀ t row, ts_tasks st !! t = Some row → t_spent_cost row = SqlInt 0.

Lemma fresh_ledger_ok st : fresh_ledger st → ledger_ok st.
Proof.
  intros [Hr Hs]. split; rewrite ?Hr; simpl; try constructor;
    try (by intros ? ?%elem_of_nil). intros t row Ht. by rewrite (Hs t row Ht).
Qed.

Lemma run_spent st ops t row :
  fresh_ledger st → ts_tasks (ledger_run st ops) !! t = Some row →
  t_spent_cost row = sql_total (wsum (spent_w t) (ts_resv (ledger_run st ops))).
Proof. intros Hf. apply lo_spent, ledger_run_ok, fresh_ledger_ok, Hf. Qed.

Lemma run_capped st ops t c row :
  fresh_ledger st → ts_tasks st !! t = Some row → t_max_cost row = Some c →
  (0 < c <= EXACT)%Z → Forall (λ op, ¬ sets_cap_of t op) ops →
  capped t c (ledger_run st ops).
Proof.
  intros Hf Hrow Hcap Hc Hops.
  assert (capped t c st) as Hst.
  { split; [naive_solver|]. destruct Hf as [-> _]. unfold wsum. simpl. lia. }
  apply fresh_ledger_ok in Hf. clear Hrow. revert st Hf Hst.
  induction Hops as [|op ops Hop Hops IH]; intros st Hok Hst; [done|]. simpl.
  apply IH; [by apply ledger_exec_ok|by apply ledger_exec_capped].
Qed.

(** ** Properties *)

(** C26: money is conserved.  After any sequence of ledger commands on a fresh
    ledger, a task's spent column is the sum of what its settled reservations
    were charged, as SQLite keeps it: exactly that integer while it fits the
    signed 64-bit column, and from then on a REAL, which every read of the
    column refuses.  Nothing is charged twice, lost on a crash recovery, or
    charged outside a reservation. *)
Theorem spent_is_the_settled_sum st ops t row :
  fresh_ledger st → ts_tasks (ledger_run st ops) !! t = Some row →
  t_spent_cost row = sql_total (wsum (spent_w t) (ts_resv (ledger_run st ops))).
Proof. apply run_spent. Qed.

(** C27: a monetary cap binds.  While the cap of a task stays [c], at most 2^53
    micro-units, what its settled reservations were charged plus everything
    reserved, dispatched or uncertain exceeds [c] at most by what providers
    billed above their own reservation's prediction; and the spent column the
    reserves read is that settled amount or refuses to be read. *)
Theorem spending_stays_under_cap st ops t c row row' :
  fresh_ledger st → ts_tasks st !! t = Some row → t_max_cost row = Some c →
  (0 < c <= EXACT)%Z → Forall (λ op, ¬ sets_cap_of t op) ops →
  ts_tasks (ledger_run st ops) !! t = Some row' →
  let resv := ts_resv (ledger_run st ops) in
  (wsum (spent_w t) resv + wsum (held_w t) resv <= c + wsum (overshoot_w t) resv)%Z
  ∧ ∀ spent, t_spent_cost row' = SqlInt spent → spent = wsum (spent_w t) resv.
Proof.
  intros Hf Hrow Hcap Hc Hops Hrow' resv. split.
  - destruct (run_capped st ops t c row Hf Hrow Hcap Hc Hops) as [_ Hsum].
    rewrite wsum_charge in Hsum. subst resv. lia.
  - intros spent E. rewrite (run_spent st ops t row' Hf Hrow') in E.
    by apply sql_total_int.
Qed.

(** ** The life of one reservation *)
Definition rank (s : RStatus) : nat :=
  match s with
  | RReserved => 0 | RDispatched => 1 | RUncertain => 2 | RSettled | RRefunded => 3
  end.

(** [r'] is a later version of the row [r]. *)
Definition later (r r' : Reservation) : Prop :=
  r_id r' = r_id r ∧ r_task r' = r_task r ∧ r_predicted r' = r_predicted r ∧
  rank (r_status r) <= rank (r_status r') ∧
  (is_held r = false → r' = r) ∧
  (is_Some (r_dispatched_ms r) →
     is_Some (r_dispatched_ms r') ∧
     (r_status r' = RRefunded → r_status r = RRefunded)).

Lemma later_refl r : later r r.
Proof. unfold later. naive_solver. Qed.

Lemma later_trans r1 r2 r3 : later r1 r2 → later r2 r3 → later r1 r3.
Proof.
  intros (Hi & Ht & Hp & Hr & Hc & Hd) (Hi' & Ht' & Hp' & Hr' & Hc' & Hd').
  repeat split; try congruence; [lia| |naive_solver|naive_solver].
  intros Hh. pose proof (Hc Hh) as ->. auto.
Qed.

Lemma rmove_later r r' : rmove r r' → later r r'.
Proof.
  destruct 1 as [r ms Ho|r Ho|r Hr|r Hh]; repeat split; simpl; try done;
    unfold is_open, is_held, refundable in *; destruct (r_status r); try done;
    simpl; try lia; try (by destruct (r_dispatched_ms r)); eauto.
Qed.

Lemma settled_later r a : is_held r = true → later r (settled_at r a).
Proof.
  intros Hh. unfold later, is_held in *. simpl. destruct (r_status r); naive_solver lia.
Qed.

Lemma lstep_later st st' r :
  ledger_ok st → lstep st st' → r ∈ ts_resv st → ∃ r', r' ∈ ts_resv st' ∧ later r r'.
Proof.
  intros Hok Hstep Hr. destruct Hstep as [row x|g Hg|id x row a Hf Hh]; simpl.
  - exists r. split; [by apply elem_of_app; left|apply later_refl].
  - exists (g r). split; [by apply list_elem_of_fmap_2|].
    destruct (Hg r Hr) as [->|Hm]; [apply later_refl|by apply rmove_later].
  - exists (if decide (r_id r = id) then settled_at r (Some a) else r).
    split; [apply list_elem_of_fmap; by exists r|].
    case_decide as Hid; [|apply later_refl]. apply find_resv_Some in Hf as [Hx Hxid].
    assert (r = x) as ->; [|by apply settled_later].
    apply (nodup_ids_unique (ts_resv st)); [apply Hok|done|done|congruence].
Qed.

Lemma lsteps_later st st' r :
  ledger_ok st → rtc lstep st st' → r ∈ ts_resv st →
  ∃ r', r' ∈ ts_resv st' ∧ later r r'.
Proof.
  intros Hok Hs. revert Hok r.
  induction Hs as [|st st1 st' Hstep _ IH]; intros Hok r Hr;
    [exists r; split; [done|apply later_refl]|].
  destruct (lstep_later _ _ r Hok Hstep Hr) as (r1 & Hr1 & Hl1).
  destruct (IH (lstep_ok _ _ Hok Hstep) r1 Hr1) as (r2 & Hr2 & Hl2).
  exists r2. split; [done|]. by eapply later_trans.
Qed.

(** The life of a reservation.  Whatever commands follow, a reservation
    keeps its identity and its predicted amount and only moves forward
    (reserved, dispatched, uncertain, closed); once settled or refunded its row
    never changes again, so a double settle or a settle after a refund is inert;
    and a reservation that was ever dispatched is never refunded. *)
Theorem reservation_lifecycle st ops r :
  ledger_ok st → r ∈ ts_resv st →
  ∃ r', find_resv (ledger_run st ops) (r_id r) = Some r' ∧ later r r'.
Proof.
  intros Hok Hr.
  enough (∃ r', r' ∈ ts_resv (ledger_run st ops) ∧ later r r') as (r' & Hr' & Hl).
  { exists r'. split; [|done]. destruct Hl as (<- & _).
    apply find_resv_elem; [by apply lo_nodup, ledger_run_ok|done]. }
  revert st r Hok Hr. induction ops as [|op ops IH]; intros st r Hok Hr;
    [exists r; split; [done|apply later_refl]|].
  assert (∃ r1, r1 ∈ ts_resv (ledger_exec st op) ∧ later r r1) as (r1 & Hr1 & Hl1).
  { destruct op as [| |t cap| | | | | | | |];
      try by (eapply lsteps_later; [done|by apply ledger_exec_steps|done]).
    exists r. split; [|apply later_refl]. simpl. unfold cost_task_cap_set.
    by destruct (ts_tasks st !! t). }
  destruct (IH _ r1 (ledger_exec_ok _ _ Hok) Hr1) as (r2 & Hr2 & Hl2).
  exists r2. split; [done|]. by eapply later_trans.
Qed.

Lemma recover_reservation_closed r : is_open (recover_reservation r) = false.
Proof.
  unfold recover_reservation. destruct (refundable r); [done|].
  by destruct (is_open r) eqn:Ho.
Qed.

Lemma recover_reservation_id r : is_open r = false → recover_reservation r = r.
Proof.
  intros Ho. unfold recover_reservation. destruct (refundable r) eqn:Hr.
  - apply refundable_open in Hr. congruence.
  - by rewrite Ho.
Qed.

(** Crash recovery.  It leaves no open reservation, refunds exactly those
    with no dispatch marker and marks the other open ones uncertain, reports
    how many of each, touches no task row, and a second recovery changes
    nothing and reports nothing. *)
Theorem recover_open_reservations_spec st :
  let '(st', (refunded, uncertain)) := cost_recover_open_reservations st in
  ts_tasks st' = ts_tasks st ∧ ts_records st' = ts_records st ∧
  ts_resv st' =
    map (λ r, if refundable r then with_status r RRefunded
              else if is_open r then with_status r RUncertain else r) (ts_resv st) ∧
  (∀ r, r ∈ ts_resv st' → is_open r = false) ∧
  refunded + uncertain = length (filter (λ r, is_open r = true) (ts_resv st)) ∧
  cost_recover_open_reservations st' = (st', (0, 0)).
Proof.
  simpl. repeat split.
  - intros r (x & -> & _)%list_elem_of_fmap. apply recover_reservation_closed.
  - induction (ts_resv st) as [|r l IH]; [done|]. rewrite !filter_cons.
    destruct (is_open r) eqn:Ho, (refundable r) eqn:Hr; simpl in *; try lia.
    apply refundable_open in Hr. congruence.
  - unfold cost_recover_open_reservations, set_resv. simpl. rewrite map_map.
    f_equal; [f_equal|f_equal].
    + apply map_ext. intros r. apply recover_reservation_id, recover_reservation_closed.
    + induction (ts_resv st) as [|r l IH]; [done|]. simpl. rewrite filter_cons.
      destruct (refundable (recover_reservation r)) eqn:Hr; [|done].
      apply refundable_open in Hr. by rewrite recover_reservation_closed in Hr.
    + induction (ts_resv st) as [|r l IH]; [done|]. simpl. rewrite filter_cons.
      by rewrite recover_reservation_closed.
Qed.

(** ** The task-end finalize pass in closed form *)
Definition uncertain_w (t : N) (r : Reservation) : Z :=
  if decide (r_task r = t ∧ r_status r = RUncertain) then Z.max (r_predicted r) 0
  else 0%Z.

Definition finalized (t : N) (r : Reservation) : Reservation :=
  if decide (r_task r = t ∧ r_status r = RUncertain)
  then settled_at r (Some (Z.max (r_predicted r) 0)) else r.

Definition finalized_store (st : TStore) (t : N) (row : TaskRow) : TStore :=
  set_tasks (set_resv st (map (finalized t) (ts_resv st)))
    (<[t := with_cost row (t_max_cost row)
              (sql_add (t_spent_cost row) (wsum (uncertain_w t) (ts_resv st)))]> (ts_tasks st)).

Lemma finalized_nothing t l :
  map r_id (filter (λ r, r_task r = t ∧ r_status r = RUncertain) l) = [] →
  map (finalized t) l = l ∧ wsum (uncertain_w t) l = 0%Z.
Proof.
  induction l as [|r l IH]; [done|]. rewrite filter_cons. unfold wsum in *. simpl.
  unfold finalized at 1, uncertain_w at 1. destruct (decide _); [done|].
  intros Hl. destruct (IH Hl) as [-> ->]. split; [done|lia].
Qed.

(** Closing the first uncertain reservation of a task leaves the others. *)
Lemma uncertain_tail t l id ids f :
  NoDup (map r_id l) →
  map r_id (filter (λ r, r_task r = t ∧ r_status r = RUncertain) l) = id :: ids →
  (∀ r, r_status (f r) ≠ RUncertain) →
  map r_id (filter (λ r, r_task r = t ∧ r_status r = RUncertain)
    (map (λ r, if decide (r_id r = id) then f r else r) l)) = ids.
Proof.
  intros Hnd Hl Hf. revert Hnd Hl. induction l as [|x l IH]; [done|]. simpl.
  intros [Hx Hnd]%NoDup_cons. rewrite filter_cons. destruct (decide _) as [HP|HP]; simpl.
  - intros [= <- <-]. rewrite decide_True by done. rewrite filter_cons.
    rewrite decide_False by (intros [_ ?]; by eapply Hf).
    f_equal. f_equal. rewrite <-(map_id l) at 2. apply map_ext_in. intros y Hy.
    rewrite decide_False; [done|]. intros Hyid. apply Hx. rewrite <-Hyid.
    by apply list_elem_of_fmap_2, list_elem_of_In.
  - intros Hl. rewrite (decide_False (P := r_id x = id)).
    + rewrite filter_cons, decide_False by done. auto.
    + intros Hxid. apply Hx. rewrite Hxid.
      assert (id ∈ id :: ids) as Hin by by left. rewrite <-Hl in Hin.
      apply list_elem_of_fmap in Hin as (y & -> & [_ Hy]%list_elem_of_filter).
      by apply list_elem_of_fmap_2.
Qed.

Lemma with_cost_id row : with_cost row (t_max_cost row) (t_spent_cost row) = row.
Proof. by destruct row. Qed.

(** The column of a sound ledger adds as the sums do. *)
Lemma spent_add st t row a b :
  ledger_ok st → ts_tasks st !! t = Some row → (0 <= a)%Z → (0 <= b)%Z →
  sql_add (t_spent_cost row) 0 = t_spent_cost row
  ∧ sql_add (sql_add (t_spent_cost row) a) b = sql_add (t_spent_cost row) (a + b).
Proof.
  intros Hok Hrow Ha Hb. rewrite (lo_spent st Hok t row Hrow).
  pose proof (spent_w_nonneg t (ts_resv st) (lo_settled st Hok)).
  rewrite !sql_add_total by lia. split; f_equal; lia.
Qed.

Lemma uncertain_w_nonneg t l : (0 <= wsum (uncertain_w t) l)%Z.
Proof. apply wsum_nonneg. intros r _. unfold uncertain_w. case_decide; lia. Qed.

Lemma finalize_closed_form st t row :
  ledger_ok st → ts_tasks st !! t = Some row →
  cost_finalize_uncertain st t = finalized_store st t row.
Proof.
  unfold cost_finalize_uncertain. remember (uncertain_ids st t) as ids eqn:Hids.
  symmetry in Hids. revert st row Hids.
  induction ids as [|id ids IH]; intros st row Hids Hok Hrow; simpl.
  - unfold uncertain_ids in Hids. apply finalized_nothing in Hids as [Hm Hw].
    unfold finalized_store. destruct (spent_add st t row 0 0 Hok Hrow ltac:(lia) ltac:(lia)) as [E _].
    rewrite Hm, Hw, E, with_cost_id, insert_id by done.
    by destruct st.
  - assert (∃ r, find_resv st id = Some r ∧ r_task r = t ∧ r_status r = RUncertain)
      as (r & Hf & Ht & Hu).
    { assert (id ∈ uncertain_ids st t) as Hin by (rewrite Hids; by left).
      apply list_elem_of_fmap in Hin as (r & -> & [[Ht Hu] Hr]%list_elem_of_filter).
      exists r. split; [|done]. apply find_resv_elem; [apply Hok|done]. }
    unfold finalize_candidate. rewrite Hf. rewrite decide_True by done.
    set (p := Z.max (r_predicted r) 0).
    set (st1 := update_resv st id (λ r, settled_at r (Some p))).
    destruct (add_spent st1 t p) as [st2|] eqn:Hadd;
      [|unfold add_spent in Hadd; simpl in Hadd; by rewrite Hrow in Hadd]. simpl.
    assert (lstep st st2) as Hstep.
    { eapply add_spent_step; eauto using uncertain_held. lia. }
    apply add_spent_Some in Hadd as (row' & Hrow' & ->). simpl in Hrow'.
    rewrite Hrow in Hrow'. injection Hrow' as <-.
    rewrite (IH _ (with_cost row (t_max_cost row) (sql_add (t_spent_cost row) p))).
    + unfold finalized_store, set_tasks, set_resv. simpl. f_equal.
      * rewrite insert_insert_eq. do 2 f_equal. cbn [t_spent_cost with_cost].
        assert (0 <= p)%Z as Hp by lia.
        destruct (spent_add st t row p (wsum (uncertain_w t) (ts_resv st1)) Hok Hrow Hp
                    (uncertain_w_nonneg t _)) as [_ E].
        change (map _ (ts_resv st)) with (ts_resv st1). rewrite E. f_equal.
        unfold st1. rewrite (wsum_update _ st id _ r (lo_nodup st Hok) Hf).
        unfold uncertain_w at 2 3. simpl.
        rewrite decide_False by naive_solver. rewrite decide_True by done. fold p. lia.
      * rewrite map_map. apply map_ext_in. intros x Hx%list_elem_of_In.
        destruct (decide (r_id x = id)) as [Hxid|]; [|done].
        apply find_resv_Some in Hf as [Hr Hrid].
        assert (x = r) as ->
          by (apply (nodup_ids_unique (ts_resv st)); [apply Hok|done|done|congruence]).
        unfold finalized. rewrite decide_False by naive_solver.
        by rewrite decide_True.
    + unfold uncertain_ids. simpl. apply uncertain_tail; [apply Hok|done|done].
    + by eapply lstep_ok.
    + simpl. apply lookup_insert_eq.
Qed.

Lemma finalized_no_uncertain t l :
  map r_id (filter (λ r, r_task r = t ∧ r_status r = RUncertain) (map (finalized t) l)) = [].
Proof.
  induction l as [|r l IH]; [done|]. simpl. rewrite filter_cons.
  rewrite decide_False; [done|]. unfold finalized. by destruct (decide _); [intros [_ ?]|].
Qed.

Lemma finalized_money t r :
  (spent_w t (finalized t r) = spent_w t r + uncertain_w t r)%Z ∧
  (held_w t (finalized t r) = held_w t r - uncertain_w t r)%Z.
Proof.
  unfold finalized. destruct (decide _) as [[Ht Hu]|Hn].
  - unfold spent_w, held_w, uncertain_w, is_held. simpl. rewrite Hu.
    repeat case_decide; try lia; naive_solver.
  - unfold uncertain_w. rewrite !(decide_False (P := _ ∧ _ = RUncertain)) by done. lia.
Qed.

(** The task-end finalize charges every uncertain reservation of the task at
    its reserved estimate, exactly once: none is left uncertain, the spent total
    grows by the sum of their predictions, what was held becomes spent (the
    committed total does not move), other tasks' rows are untouched, and a
    second pass changes nothing. *)
Theorem finalize_uncertain_exact st t row :
  ledger_ok st → ts_tasks st !! t = Some row →
  let st' := cost_finalize_uncertain st t in
  uncertain_ids st' t = [] ∧
  (∃ row', ts_tasks st' !! t = Some row' ∧ t_state row' = t_state row ∧
     t_spent_cost row' = sql_add (t_spent_cost row) (wsum (uncertain_w t) (ts_resv st))) ∧
  (wsum (spent_w t) (ts_resv st') + wsum (held_w t) (ts_resv st')
   = wsum (spent_w t) (ts_resv st) + wsum (held_w t) (ts_resv st))%Z ∧
  (∀ t', t' ≠ t → ts_tasks st' !! t' = ts_tasks st !! t') ∧
  cost_finalize_uncertain st' t = st'.
Proof.
  intros Hok Hrow st'. unfold st'. rewrite (finalize_closed_form st t row) by done.
  set (st1 := finalized_store st t row).
  assert (uncertain_ids st1 t = []) as Hnone by apply finalized_no_uncertain.
  split; [done|]. split; [|split; [|split]].
  - eexists. split; [apply lookup_insert_eq|done].
  - change (ts_resv st1) with (map (finalized t) (ts_resv st)). rewrite !wsum_map.
    induction (ts_resv st) as [|r l IH]; unfold wsum in *; simpl in *; [done|].
    destruct (finalized_money t r) as [-> ->]. lia.
  - intros t' Ht'. simpl. by rewrite lookup_insert_ne.
  - unfold cost_finalize_uncertain at 1. by rewrite Hnone.
Qed.

(** ** A reconcile pass is idempotent *)
Lemma find_update_eq st id f :
  (∀ r, r_id (f r) = r_id r) →
  find_resv (update_resv st id f) id = f <$> find_resv st id.
Proof.
  intros Hf. unfold find_resv, update_resv, set_resv. simpl.
  induction (ts_resv st) as [|x l IH]; [done|]. simpl.
  destruct (decide (r_id x = id)) as [Hx|Hx].
  - rewrite decide_True by (rewrite Hf; congruence). done.
  - rewrite decide_False by done.
    destruct (list_find _ (map _ l)) as [[]|], (list_find _ l) as [[]|]; naive_solver.
Qed.

(** What a reconcile candidate reads besides its own reservation. *)
Definition same_reconcile_context (t : N) (st st' : TStore) : Prop :=
  has_cap st' t = has_cap st t ∧
  (is_Some (ts_tasks st' !! t) ↔ is_Some (ts_tasks st !! t)).

Lemma add_spent_None st t a : add_spent st t a = None ↔ ¬ is_Some (ts_tasks st !! t).
Proof.
  unfold add_spent. rewrite <-eq_None_not_Some. destruct (ts_tasks st !! t); naive_solver.
Qed.

Lemma reconcile_candidate_local completed st st' t id :
  same_reconcile_context t st st' → find_resv st' id = find_resv st id →
  reconcile_candidate completed st t id = None →
  reconcile_candidate completed st' t id = None.
Proof.
  intros [Hcap Hrow] Hf. unfold reconcile_candidate. rewrite Hf, Hcap.
  destruct (find_resv st id) as [r|]; [|done]. destruct (decide _); [|done].
  destruct (completed r) as [[ti to]|]; [|done].
  destruct (r_snapshot r ≫= _) as [c|]; [|by destruct (has_cap st t)].
  rewrite !add_spent_None. simpl. tauto.
Qed.

Lemma add_spent_context st1 t a st2 :
  add_spent st1 t a = Some st2 →
  same_reconcile_context t st1 st2 ∧ ts_resv st2 = ts_resv st1.
Proof.
  intros (row & Hrow & ->)%add_spent_Some. split; [|done].
  unfold same_reconcile_context, has_cap. simpl. rewrite lookup_insert_eq, Hrow. done.
Qed.

Lemma reconcile_candidate_effect completed st t id st1 :
  reconcile_candidate completed st t id = Some st1 →
  same_reconcile_context t st st1 ∧
  (∀ id', id' ≠ id → find_resv st1 id' = find_resv st id') ∧
  reconcile_candidate completed st1 t id = None.
Proof.
  unfold reconcile_candidate at 1.
  destruct (find_resv st id) as [r|] eqn:Hf; [|done]. destruct (decide _); [|done].
  destruct (completed r) as [[ti to]|]; [|done].
  assert (∀ a st2, ts_resv st2 = ts_resv (update_resv st id (λ r, settled_at r a)) →
    (∀ id', id' ≠ id → find_resv st2 id' = find_resv st id') ∧
    reconcile_candidate completed st2 t id = None) as Heffect.
  { intros a st2 Hr.
    assert (∀ i, find_resv st2 i = find_resv (update_resv st id (λ r, settled_at r a)) i)
      as Hfind by (intros i; unfold find_resv; by rewrite Hr).
    split.
    - intros id' Hne. rewrite Hfind. by apply find_update_ne.
    - unfold reconcile_candidate. rewrite Hfind, find_update_eq, Hf by done. done. }
  destruct (r_snapshot r ≫= _) as [c|].
  - intros Hadd. destruct (add_spent_context _ _ _ _ Hadd) as [Hctx Hr].
    split; [done|]. by eapply Heffect.
  - destruct (has_cap st t) eqn:Hcap; [done|]. intros [= <-]. split; [done|].
    by apply (Heffect None).
Qed.

Lemma reconcile_fold completed t ids st :
  NoDup ids →
  let st' := foldl (λ st id, default st (reconcile_candidate completed st t id)) st ids in
  same_reconcile_context t st st' ∧
  (∀ id, id ∉ ids → find_resv st' id = find_resv st id) ∧
  (∀ id, id ∈ ids → reconcile_candidate completed st' t id = None).
Proof.
  intros Hnd. revert st. induction Hnd as [|id ids Hid Hnd IH]; intros st; simpl.
  { repeat split; try done. by intros id ?%elem_of_nil. }
  set (st1 := default st (reconcile_candidate completed st t id)).
  assert (same_reconcile_context t st st1 ∧
    (∀ id', id' ≠ id → find_resv st1 id' = find_resv st id') ∧
    reconcile_candidate completed st1 t id = None) as (Hctx1 & Hfind1 & Hnone1).
  { unfold st1. destruct (reconcile_candidate completed st t id) as [st2|] eqn:Hc; simpl.
    - by eapply reconcile_candidate_effect.
    - done. }
  destruct (IH st1) as (Hctx & Hfind & Hnone).
  split; [|split].
  - destruct Hctx, Hctx1. split; [congruence|tauto].
  - intros id' [Hne Hin]%not_elem_of_cons. rewrite Hfind by done. by apply Hfind1.
  - intros id' [->|Hin]%elem_of_cons; [|by apply Hnone].
    eapply reconcile_candidate_local; [exact Hctx|by apply Hfind|done].
Qed.

Lemma fold_none_id completed t ids st :
  (∀ id, id ∈ ids → reconcile_candidate completed st t id = None) →
  foldl (λ st id, default st (reconcile_candidate completed st t id)) st ids = st.
Proof.
  induction ids as [|id ids IH]; intros H; [done|]. simpl.
  rewrite H by left. simpl. apply IH. intros. apply H. by right.
Qed.

Lemma NoDup_filter_ids (P : Reservation → Prop) `{∀ r, Decision (P r)} l :
  NoDup (map r_id l) → NoDup (map r_id (filter P l)).
Proof.
  induction l as [|x l IH]; [done|]. simpl. intros [Hx Hnd]%NoDup_cons.
  rewrite filter_cons. destruct (decide _); [|by apply IH]. simpl.
  apply NoDup_cons. split; [|by apply IH]. intros (y & Hy & Hin)%list_elem_of_fmap.
  apply Hx. rewrite Hy. apply list_elem_of_filter in Hin as [_ Hin].
  by apply list_elem_of_fmap_2.
Qed.

Lemma reconcile_idempotent completed st t :
  ledger_ok st →
  cost_reconcile_uncertain completed (cost_reconcile_uncertain completed st t) t =
  cost_reconcile_uncertain completed st t.
Proof.
  intros Hok. assert (ledger_ok (cost_reconcile_uncertain completed st t)) as Hok'.
  { by eapply lsteps_ok, reconcile_steps. }
  set (ids := map r_id (filter
    (λ r, r_task r = t ∧ r_status r = RUncertain ∧ is_Some (completed r)) (ts_resv st))).
  assert (NoDup ids) as Hnd by apply NoDup_filter_ids, Hok.
  pose proof (reconcile_fold completed t ids st Hnd) as (_ & Hfind & Hnone).
  change (foldl _ st ids) with (cost_reconcile_uncertain completed st t) in Hfind, Hnone.
  revert Hok' Hfind Hnone. generalize (cost_reconcile_uncertain completed st t).
  intros st' Hok' Hfind Hnone. apply fold_none_id. intros id.
  intros (r & -> & [(Ht & Hu & Hcall) Hr]%list_elem_of_filter)%list_elem_of_fmap.
  destruct (decide (r_id r ∈ ids)) as [Hin|Hin]; [by apply Hnone|].
  exfalso. apply Hin. pose proof (find_resv_elem st' r (lo_nodup _ Hok') Hr) as Hf.
  rewrite Hfind in Hf by done. apply find_resv_Some in Hf as [Hrst _].
  apply list_elem_of_fmap_2. by apply list_elem_of_filter.
Qed.

(** Near the top of the signed column the two reserve entry points differ.
    With two maximal predictions already held on an uncapped task, the plain
    reserve still grants, because its open sum is clamped; the per-attempt
    reserve, whose open sum is a plain SQL [SUM], fails with an integer
    overflow. *)
Theorem reserve_attempt_overflows st t row spent op snap r1 r2 :
  ts_tasks st !! t = Some row → t_max_cost row = None → t_spent_cost row = SqlInt spent →
  task_state_permits_provider_operation (t_state row) = true →
  held_of t (ts_resv st) = [r1; r2] →
  r_predicted r1 = I64.max → r_predicted r2 = I64.max →
  cost_reserve_attempt st t op 1 snap = Err SqlIntegerOverflow ∧
  cost_reserve_inner st t op 1 snap = Ok (insert_reservation st t op None 1 snap).
Proof.
  intros Hrow Hcap Hspent Hperm Hheld H1 H2.
  unfold cost_reserve_attempt, cost_reserve_inner, reserve_with, checked_open_sum.
  rewrite Hrow, Hperm, Hspent, Hheld. simpl. rewrite H1, H2, Hcap. split.
  - rewrite decide_False; [done|]. intros [_ Hle]. vm_compute in Hle. by apply Hle.
  - rewrite decide_False; [done|]. intros [Hlt _]. vm_compute in Hlt. done.
Qed.

End Ledger.

(** ** Witnesses *)
(** Round to nearest, as binary64 does: past 2^53 a result keeps its 53
    leading bits (ties upwards here; the laws say nothing of ties). *)
Definition to_binary64 (z : Z) : Z :=
  if decide (z <= 2 ^ 53)%Z then z
  else let e := (Z.log2 z - 52)%Z in ((z + 2 ^ (e - 1)) / 2 ^ e * 2 ^ e)%Z.

Lemma to_binary64_large z : (2 ^ 53 < z)%Z → (2 ^ 53 <= to_binary64 z)%Z.
Proof.
  intros Hz. unfold to_binary64. rewrite decide_False by lia. cbv zeta.
  pose proof (Z.log2_spec z ltac:(lia)) as [Hlo _].
  pose proof (Z.log2_le_mono (2 ^ 53) z ltac:(lia)) as Hlog. rewrite Z.log2_pow2 in Hlog by lia.
  set (e := (Z.log2 z - 52)%Z). assert (Z.log2 z = 52 + e)%Z as El by (unfold e; lia).
  rewrite El, Z.pow_add_r in Hlo by lia.
  assert (0 < 2 ^ e)%Z by (apply Z.pow_pos_nonneg; lia).
  assert (0 < 2 ^ (e - 1))%Z by (apply Z.pow_pos_nonneg; lia).
  assert (2 ^ 52 <= (z + 2 ^ (e - 1)) / 2 ^ e)%Z by (apply Z.div_le_lower_bound; lia).
  assert (2 <= 2 ^ e)%Z by (change 2%Z with (2 ^ 1)%Z at 1; apply Z.pow_le_mono_r; lia).
  nia.
Qed.

Definition one_rounding : SqlTotal.
Proof.
  refine {| sqlite_total := λ l, to_binary64 (foldr Z.add 0%Z l) |}.
  - intros l _ H. unfold to_binary64. by rewrite decide_True.
  - intros l _ H. by apply to_binary64_large.
Defined.
#[local] Existing Instance one_rounding.

Module LedgerDemo.
Definition row : TaskRow :=
  MkTaskRow "ship the fix" ["tests pass"] [] [] "{}" None None 0 0
    TaskState.Running 1 100 100 (Some 1000%Z) (SqlInt 0).

Definition store : TStore := MkTStore 1 5 6 {[ 7%N := row ]} ∅ [] 1.

Definition snapshot : PricingSnapshot :=
  MkPricingSnapshot (Some (MkPriceQuote 3000000 15000000 300000 3750000)) Exact.

(** Two attempts, one settled from usage above its estimate, one lost in a
    crash and finalized; the third reserve is over the cap. *)
Definition ops : list LedgerOp :=
  [LReserveAttempt 7 11 400 (Some snapshot); LDispatch 1 101;
   LSettleUsage 1 100 0 0 20 None;
   LReserveAttempt 7 12 300 (Some snapshot); LDispatch 2 102;
   LReserve 7 13 200 None; LRecover; LFinalize 7; LRefund 1].

Definition reserved : TStore :=
  ledger_run store [LReserveAttempt 7 11 400 (Some snapshot); LDispatch 1 101; LMarkUncertain 1].
End LedgerDemo.

Lemma demo_fresh : fresh_ledger LedgerDemo.store.
Proof.
  split; [done|]. intros t row. unfold LedgerDemo.store. simpl.
  destruct (decide (t = 7%N)) as [->|].
  - rewrite lookup_singleton_eq. by intros [= <-].
  - by rewrite lookup_singleton_ne.
Qed.

Lemma spent_is_the_settled_sum_witness :
  ∃ row, ts_tasks (ledger_run LedgerDemo.store LedgerDemo.ops) !! 7%N = Some row ∧
    t_spent_cost row = SqlInt 900.
Proof.
  destruct (ts_tasks (ledger_run LedgerDemo.store LedgerDemo.ops) !! 7%N) as [row|] eqn:Hrow;
    [|vm_compute in Hrow; discriminate].
  exists row. split; [reflexivity|].
  rewrite (spent_is_the_settled_sum LedgerDemo.store LedgerDemo.ops 7 row demo_fresh Hrow).
  vm_compute. reflexivity.
Defined.

Lemma spending_stays_under_cap_witness :
  let resv := ts_resv (ledger_run LedgerDemo.store LedgerDemo.ops) in
  (wsum (spent_w 7) resv + wsum (held_w 7) resv <= 1000 + wsum (overshoot_w 7) resv)%Z.
Proof.
  assert (is_Some (ts_tasks (ledger_run LedgerDemo.store LedgerDemo.ops) !! 7%N)) as [row Hrow]
    by (vm_compute; eexists; reflexivity).
  apply (spending_stays_under_cap LedgerDemo.store LedgerDemo.ops 7 1000
    LedgerDemo.row row demo_fresh).
  - vm_compute. reflexivity.
  - reflexivity.
  - split; [reflexivity|vm_compute; discriminate].
  - repeat (constructor; [intros []|]). constructor.
  - exact Hrow.
Defined.

Lemma demo_reserved_ok : ledger_ok LedgerDemo.reserved.
Proof. apply ledger_run_ok, fresh_ledger_ok, demo_fresh. Qed.

Lemma reservation_lifecycle_witness :
  ∃ r', find_resv (ledger_run LedgerDemo.reserved [LRefund 1; LFinalize 7; LSettle 1 5]) 1
        = Some r' ∧ r_settled_cost r' = Some 400%Z.
Proof.
  destruct (find_resv LedgerDemo.reserved 1) as [r|] eqn:Hf;
    [|vm_compute in Hf; discriminate].
  destruct (find_resv_Some _ _ _ Hf) as [Hin Hid].
  destruct (reservation_lifecycle LedgerDemo.reserved
    [LRefund 1; LFinalize 7; LSettle 1 5] r demo_reserved_ok Hin) as (r' & Hr' & _).
  rewrite Hid in Hr'. exists r'. split; [exact Hr'|].
  vm_compute in Hr'. injection Hr' as <-. reflexivity.
Defined.

Lemma finalize_uncertain_exact_witness :
  uncertain_ids (cost_finalize_uncertain LedgerDemo.reserved 7) 7 = [].
Proof.
  destruct (ts_tasks LedgerDemo.reserved !! 7%N) as [row|] eqn:Hrow;
    [|vm_compute in Hrow; discriminate].
  exact (proj1 (finalize_uncertain_exact LedgerDemo.reserved 7 row demo_reserved_ok Hrow)).
Defined.

Module OverflowDemo.
Definition big (id : Z) : Reservation :=
  MkReservation id 7 (Z.to_N id) None I64.max RReserved None None None.
Definition row : TaskRow :=
  MkTaskRow "ship the fix" ["tests pass"] [] [] "{}" None None 0 0
    TaskState.Running 1 100 100 None (SqlInt 0).
Definition store : TStore :=
  MkTStore 1 5 6 {[ 7%N := row ]} ∅ [big 1; big 2] 3.
End OverflowDemo.

Lemma reserve_attempt_overflows_witness :
  cost_reserve_attempt OverflowDemo.store 7 9 1 None = Err SqlIntegerOverflow.
Proof.
  exact (proj1 (reserve_attempt_overflows OverflowDemo.store 7 OverflowDemo.row 0 9 None
    (OverflowDemo.big 1) (OverflowDemo.big 2) eq_refl eq_refl eq_refl eq_refl eq_refl eq_refl eq_refl)).
Defined.

(** Two settlements near the top of the signed column make the spent column a
    REAL, and from then on no reserve of the task goes through, whatever its
    cap. *)
Example overflowed_task_refuses_reserves :
  let st := ledger_run OverflowDemo.store [LSettle 1 (2 ^ 63); LSettle 2 (2 ^ 63)] in
  (t_spent_cost <$> ts_tasks st !! 7%N) = Some SqlReal
  ∧ cost_reserve_inner st 7 9 1 None = Err SqlTypeMismatch
  ∧ cost_reserve_attempt st 7 9 1 None = Err SqlTypeMismatch.
Proof. by vm_compute. Qed.
