(* ===== verification/TaskMachine.v ===== *)
(** * Tasks: rows, transitions, verification records and completion

    The task commands of [session/src/task/mod.rs] over the rows of
    [store/src/tasks.rs] and [store/src/task_completion_guard.rs]: creation,
    patches, machine transitions, verification records, and the completion
    sequence (proof validation, completion contract, accounting, atomic
    transition).  Each store method is one writer transaction, each session
    command runs under the session's command lock. *)
From S2P Require Import Prelude Pricing TaskStates CostLedger.

(** ** Errors *)
Inductive TaskError :=
  | TMalformed (what : string)
  | TOversized (what : string)
  | TNotFound (t : N)
  | TAlreadyExists (t : N)
  | TIllegalCreateState (s : TaskState.t)
  | TIllegalTransition (from to : TaskState.t)
  | TCompletionStateViaPatch (s : TaskState.t)
  | TTerminalTask (t : N) (s : TaskState.t)
  | TRevisionMismatch (t expected actual : N)
  | TNotVerifying (actual : TaskState.t)
  | TRecordNotFound (record : N)
  | TRecordUnboundLegacy (record : N)
  | TRecordScopeMismatch (record : N)
  | TRecordWrongTask (record record_task requested : N)
  | TRecordWrongRevision (record record_revision expected : N)
  | TRecordNotPassed (record : N) (status : VStatus)
  | TCriteriaNotCovered (record : N) (missing : list string)
  | TLegacyProofRequiresReverification (record : N) (criteria : list string)
  | TWorktreeMismatch (record record_ws record_wt task_ws task_wt : N)
  | TIntegrationRecordMissing (record : N)
  | TIntegrationSnapshotMismatch (record : N) (recorded current : string)
  | TIntegrationSnapshotUnavailable (record : N)
  | TManifestBindingMissing (record : N)
  | TCorruptDurableState (what : string)
  | TStoreFailure (what : string)
  | TStoreConflict (what : string)
  | TCompletionStepFailed (revision : N) (step : CompletionStep.t)
  | TCompletionStepMissing (revision : N) (step : CompletionStep.t)
  | TCompletionStepNotSucceeded (revision : N) (step : CompletionStep.t)
      (status : CompletionStepOutcome.t)
  | TCompletionStepSnapshotMismatch (revision : N) (step : CompletionStep.t)
      (recorded current : string)
  | TRootSnapshotUnavailable
  | TRootSnapshotSpecialFile (paths : list string)
  | TAccountingIncomplete (open uncertain : nat).

(** ** Rows in and out of the store *)

(** A [u64] column written with [as i64] and read back with [max(0) as u64]. *)
Definition max_tokens_column (m : N) : N := Z.to_N (Z.max 0 (I64.of_u64 m)).

(** The non-monetary columns, as the row reads back after an upsert. *)
Definition persisted (r : TaskRow) (cap : option Z) (spent : SqlNum) : TaskRow :=
  MkTaskRow (t_goal r) (t_criteria r) (t_plan r) (t_attachments r) (t_contract r)
    (max_tokens_column <$> t_max_tokens r) (t_max_turns r)
    (N.min (t_spent_tokens r) 9223372036854775807) (t_spent_turns r)
    (t_state r) (t_revision r) (t_created_ms r) (t_updated_ms r) cap spent.

Definition with_state (r : TaskRow) (s : TaskState.t) (revision : N) (now : Z) : TaskRow :=
  MkTaskRow (t_goal r) (t_criteria r) (t_plan r) (t_attachments r) (t_contract r)
    (t_max_tokens r) (t_max_turns r) (t_spent_tokens r) (t_spent_turns r)
    s revision (t_created_ms r) now (t_max_cost r) (t_spent_cost r).

(** [Store::upsert_task]: the completion backstop, then insert-or-replace of
    every column but the monetary ones. *)
Definition upsert_task (st : TStore) (t : N) (row : TaskRow) : result TStore TaskError :=
  let current := ts_tasks st !! t in
  let write :=
    Ok (set_tasks st
      (<[t := persisted row (current ≫= t_max_cost) (default (SqlInt 0) (t_spent_cost <$> current))]>
         (ts_tasks st))) in
  if TaskState.is_completion_relevant (t_state row) then
    let legal :=
      match current with
      | Some cur =>
          bool_decide (t_state cur = t_state row)
          || bool_decide (t_state row ∈ TaskState.allowed_transitions (t_state cur))
      | None => false
      end in
    if negb legal then Err (TMalformed "completion backstop") else write
  else write.

Definition checked_next (revision : N) : option N := U64.checked_add revision 1.

Record TaskBudgetPatch := MkTaskBudgetPatch {
  b_max_tokens : option N;
  b_max_turns : option N;
  b_spent_tokens : N;
  b_spent_turns : N;
}.

Record TaskPatch := MkTaskPatch {
  p_goal : option string;
  p_criteria : option (list string);
  p_plan : option (list string);
  p_attachments : option (list string);
  p_budget : option TaskBudgetPatch;
  p_state : option TaskState.t;
}.

(** The content a [Task] value carries: everything but the revision and the
    monetary columns. *)
Definition content (r : TaskRow) :=
  (t_goal r, t_criteria r, t_plan r, t_attachments r, t_contract r, t_max_tokens r,
   t_max_turns r, t_spent_tokens r, t_spent_turns r, t_state r, t_created_ms r,
   t_updated_ms r).

(** ** Bounds *)
Definition MAX_TASK_GOAL_BYTES : nat := N.to_nat 16384.
Definition MAX_TASK_CRITERIA : nat := 32.
Definition MAX_TASK_CRITERION_BYTES : nat := N.to_nat 3000.
Definition MAX_TASK_PLAN_STEPS : nat := 256.
Definition MAX_TASK_STEP_BYTES : nat := N.to_nat 3000.
Definition MAX_ATTACHMENTS_PER_TASK : nat := 64.

Definition guard_that (b : bool) (e : TaskError) : result () TaskError :=
  if b then Ok () else Err e.

Fixpoint check_all {A} (f : A → result () TaskError) (l : list A) : result () TaskError :=
  match l with
  | [] => Ok ()
  | a :: l' => f a;? check_all f l'
  end.

(** ** Completion inputs *)
Inductive DurableRead (A : Type) :=
  | DMissing
  | DPresentValid (a : A)
  | DPresentMalformed (detail : string)
  | DStoreFailure (detail : string).
Arguments DMissing {A}.
Arguments DPresentValid {A} a.
Arguments DPresentMalformed {A} detail.
Arguments DStoreFailure {A} detail.

Record StepRow := MkStepRow {
  sr_step : CompletionStep.t;
  sr_status : CompletionStepOutcome.t;
  sr_snapshot : option string;
}.

(** What completion reads outside the task tables: the integration and shadow
    ledgers, the completion contract with its step rows, the digest of the
    workspace root (a file-system walk) and the completed provider calls. *)
Record CompletionEnv := MkCompletionEnv {
  ce_integration : DurableRead string;
  ce_live_shadow_base : option (DurableRead ());
  ce_root_digest : result (option string) TaskError;
  ce_contract : DurableRead (N * CompletionContract);
  ce_steps : list StepRow;
  ce_completed_calls : Reservation → option (N * N);
}.

Inductive CompletionCrashPoint :=
  | AfterProofLoad | AfterReconcile | AfterCostFold | BeforeTransition.

#[global] Instance CompletionCrashPoint_eq_dec : EqDecision CompletionCrashPoint.
Proof. solve_decision. Defined.

(** ** Verification records *)
Definition next_record_id (st : TStore) : N :=
  N.succ (map_fold (λ k _ m, N.max k m) 0%N (ts_records st)).

(** The store view holds the one session of [TStore]. *)
Definition verification_record_put (st : TStore) (rec : VRecord) :
    result (TStore * N) TaskError :=
  match v_session rec with
  | None => Err (TMalformed "verification record carries no durable session binding")
  | Some s =>
      if decide (s ≠ ts_session st) then Err (TMalformed "not a durable session")
      else if decide (v_workspace rec = ts_workspace st ∧ v_worktree rec = ts_worktree st)
      then
        let id := next_record_id st in
        Ok (set_records st (<[id := rec]> (ts_records st)), id)
      else Err (TMalformed "session does not own the worktree")
  end.

Inductive RecordLookup :=
  | LFound (rec : VRecord)
  | LMissing
  | LUnboundLegacy
  | LScopeMismatch.

(** [verification_record_lookup] and [read_and_validate_completion_record] make
    the same classification. *)
Definition record_lookup (st : TStore) (id : N) : RecordLookup :=
  match ts_records st !! id with
  | None => LMissing
  | Some rec =>
      match v_session rec with
      | None => LUnboundLegacy
      | Some owner =>
          if decide (owner ≠ ts_session st) then LMissing
          else if decide (v_workspace rec = ts_workspace st) then LFound rec
          else LScopeMismatch
      end
  end.

Definition with_vstatus (r : VRecord) (s : VStatus) : VRecord :=
  MkVRecord (v_session r) (v_task r) (v_revision r) (v_workspace r) (v_worktree r)
    (v_tree_hash r) (v_criteria r) (v_evidence r) s.

Inductive FinalizeRefusal :=
  | FMalformed | FMissing | FUnboundLegacy | FScopeMismatch | FNotRunning (s : VStatus).

Definition verification_record_finalize (st : TStore) (id : N) (new_status : VStatus) :
    result TStore FinalizeRefusal :=
  if decide (new_status = VRunning) then Err FMalformed
  else
    match ts_records st !! id with
    | None => Err FMissing
    | Some rec =>
        match v_session rec with
        | None => Err FUnboundLegacy
        | Some owner =>
            if decide (owner ≠ ts_session st) then Err FMissing
            else if decide (v_workspace rec ≠ ts_workspace st) then Err FScopeMismatch
            else if decide (v_status rec ≠ VRunning) then Err (FNotRunning (v_status rec))
            else Ok (set_records st (<[id := with_vstatus rec new_status]> (ts_records st)))
        end
    end.

(** [record_unchanged]: every compared column; [tree_hash] is not one of them. *)
Definition record_unchanged (now prepared : VRecord) : bool :=
  bool_decide (v_task now = v_task prepared) &&
  bool_decide (v_revision now = v_revision prepared) &&
  bool_decide (v_workspace now = v_workspace prepared) &&
  bool_decide (v_worktree now = v_worktree prepared) &&
  bool_decide (v_criteria now = v_criteria prepared) &&
  bool_decide (v_evidence now = v_evidence prepared) &&
  bool_decide (v_status now = v_status prepared).

(** ** [Store::task_complete_verified]

    The criteria a record leaves uncovered: those with no passed verdict of
    that key. *)
Definition missing_criteria (criteria : list string) (verdicts : list CriterionVerdict) :
    list string :=
  filter (λ c,
    Forall (λ v, ¬ (cv_passed v = true ∧ cv_key v = c)) verdicts) criteria.

(** [prepared] is the lookup the caller made on an earlier store state; the
    rest runs in the completion transaction. *)
Definition task_complete_verified (prepared : RecordLookup) (st : TStore)
    (t expected_revision record_id : N) (now : Z) : result TStore TaskError :=
  match ts_tasks st !! t with
  | None => Err (TNotFound t)
  | Some row =>
      if decide (t_revision row ≠ expected_revision) then
        Err (TRevisionMismatch t expected_revision (t_revision row))
      else if decide (t_state row ≠ TaskState.Verifying) then Err (TNotVerifying (t_state row))
      else
        match ts_records st !! record_id ≫= λ rec,
                if decide (v_session rec = Some (ts_session st)) then Some rec else None,
              prepared with
        | None, LUnboundLegacy => Err (TRecordUnboundLegacy record_id)
        | None, LScopeMismatch => Err (TRecordScopeMismatch record_id)
        | None, _ => Err (TRecordNotFound record_id)
        | Some _, LUnboundLegacy => Err (TRecordUnboundLegacy record_id)
        | Some _, LScopeMismatch => Err (TRecordScopeMismatch record_id)
        | Some _, LMissing => Err (TRecordNotFound record_id)
        | Some rec, LFound prep =>
            guard_that (record_unchanged rec prep)
              (TStoreConflict "verification_record changed before write");?
            guard_that (bool_decide (v_task rec = t))
              (TRecordWrongTask record_id (v_task rec) t);?
            guard_that (bool_decide (v_revision rec = expected_revision))
              (TRecordWrongRevision record_id (v_revision rec) expected_revision);?
            guard_that (bool_decide (v_status rec = VPassed))
              (TRecordNotPassed record_id (v_status rec));?
            guard_that (bool_decide (missing_criteria (t_criteria row) (v_criteria rec) = []))
              (TCriteriaNotCovered record_id
                 (missing_criteria (t_criteria row) (v_criteria rec)));?
            guard_that (bool_decide (v_workspace rec = ts_workspace st ∧
                                     v_worktree rec = ts_worktree st))
              (TWorktreeMismatch record_id (v_workspace rec) (v_worktree rec)
                 (ts_workspace st) (ts_worktree st));?
            let reserved :=
              length (filter (λ r, r_task r = t ∧ r_status r = RReserved) (ts_resv st)) in
            let dispatched :=
              length (filter (λ r, r_task r = t ∧ r_status r = RDispatched) (ts_resv st)) in
            let uncertain :=
              length (filter (λ r, r_task r = t ∧ r_status r = RUncertain) (ts_resv st)) in
            guard_that (bool_decide (reserved + dispatched + uncertain = 0))
              (TAccountingIncomplete (reserved + dispatched) uncertain);?
            match checked_next expected_revision with
            | None => Err (TMalformed "revision overflow at completion")
            | Some new_revision =>
                Ok (set_tasks st
                  (<[t := with_state row TaskState.VerifiedComplete new_revision now]>
                     (ts_tasks st)))
            end
        end
  end.

(** ** Session commands

    The structural validators of typed criteria, attachments and engineering
    contracts, and the binding a criterion decodes to, are parameters: they
    only decide whether a write is refused, and every theorem holds for all of
    them. *)
Section Session.
Variable criterion_id : string → option (result string TaskError).
Variable attachment_ok : string → result () TaskError.
Variable contract_ok : string → result () TaskError.
Variable binding_of : string → string * bool.
Context {rounding : SqlTotal}.

Fixpoint validate_criteria (seen : gset string) (l : list string) : result () TaskError :=
  match l with
  | [] => Ok ()
  | c :: l' =>
      guard_that (String.length c <=? MAX_TASK_CRITERION_BYTES) (TOversized "criterion");?
      match criterion_id c with
      | None => validate_criteria seen l'
      | Some r =>
          id <-? r;
          guard_that (bool_decide (id ∉ seen)) (TMalformed "duplicate criterion id");?
          validate_criteria ({[id]} ∪ seen) l'
      end
  end.

Definition validate_task_fields (r : TaskRow) : result () TaskError :=
  guard_that (String.length (t_goal r) <=? MAX_TASK_GOAL_BYTES) (TOversized "goal");?
  guard_that (length (t_criteria r) <=? MAX_TASK_CRITERIA) (TOversized "criteria");?
  validate_criteria ∅ (t_criteria r);?
  guard_that (length (t_plan r) <=? MAX_TASK_PLAN_STEPS) (TOversized "plan");?
  check_all (λ s, guard_that (String.length s <=? MAX_TASK_STEP_BYTES) (TOversized "step"))
    (t_plan r);?
  guard_that (length (t_attachments r) <=? MAX_ATTACHMENTS_PER_TASK)
    (TOversized "attachments");?
  check_all attachment_ok (t_attachments r);?
  contract_ok (t_contract r).

(** [row] carries the caller's [Task]; its revision and monetary fields are
    ignored. *)
Definition create_task (st : TStore) (t : N) (row : TaskRow) : result TStore TaskError :=
  if decide (t = 0%N) then Err (TMalformed "task_id and session_id must be non-zero")
  else if negb (TaskState.is_creatable (t_state row)) then
    Err (TIllegalCreateState (t_state row))
  else
    validate_task_fields row;?
    if decide (t_created_ms row = 0%Z) then Err (TMalformed "created_ms must be set")
    else
      match ts_tasks st !! t with
      | Some _ => Err (TAlreadyExists t)
      | None => upsert_task st t (with_state row (t_state row) 1 (t_updated_ms row))
      end.

Definition apply_patch (row : TaskRow) (patch : TaskPatch) (state : TaskState.t) : TaskRow :=
  let b := p_budget patch in
  MkTaskRow (default (t_goal row) (p_goal patch))
    (default (t_criteria row) (p_criteria patch))
    (default (t_plan row) (p_plan patch))
    (default (t_attachments row) (p_attachments patch))
    (t_contract row)
    (from_option b_max_tokens (t_max_tokens row) b)
    (from_option b_max_turns (t_max_turns row) b)
    (from_option (λ b, N.max (b_spent_tokens b) (t_spent_tokens row)) (t_spent_tokens row) b)
    (from_option (λ b, N.max (b_spent_turns b) (t_spent_turns row)) (t_spent_turns row) b)
    state (t_revision row) (t_created_ms row) (t_updated_ms row)
    (t_max_cost row) (t_spent_cost row).

Definition update_task (st : TStore) (t : N) (patch : TaskPatch) (now : Z) :
    result TStore TaskError :=
  if decide (t = 0%N) then Err (TMalformed "task_id must be non-zero")
  else
    match ts_tasks st !! t with
    | None => Err (TNotFound t)
    | Some row =>
        state <-? match p_state patch with
                  | None => Ok (t_state row)
                  | Some s =>
                      if TaskState.is_completion_relevant s
                      then Err (TCompletionStateViaPatch s)
                      else if decide (s ≠ t_state row ∧
                                      s ∉ TaskState.allowed_transitions (t_state row))
                      then Err (TIllegalTransition (t_state row) s)
                      else Ok s
                  end;
        let next := apply_patch row patch state in
        validate_task_fields next;?
        if decide (content next = content row) then Ok st
        else if TaskState.is_terminal (t_state row) then Err (TTerminalTask t (t_state row))
        else
          match checked_next (t_revision row) with
          | None => Err (TMalformed "task revision overflow")
          | Some revision => upsert_task st t (with_state next (t_state next) revision now)
          end
    end.

Definition transition_task (st : TStore) (t expected_revision : N)
    (e : TaskTransition.t) (proof : option N) (now : Z) : result TStore TaskError :=
  if decide (t = 0%N) then Err (TMalformed "task_id must be non-zero")
  else
    match proof with
    | Some _ => Err (TMalformed "transition_task does not consume a proof")
    | None =>
        match ts_tasks st !! t with
        | None => Err (TNotFound t)
        | Some row =>
            if decide (t_revision row ≠ expected_revision) then
              Err (TRevisionMismatch t expected_revision (t_revision row))
            else if negb (TaskTransition.legal_from e (t_state row)) then
              Err (TIllegalTransition (t_state row) (TaskTransition.to_state e))
            else
              match checked_next expected_revision with
              | None => Err (TMalformed "task revision overflow")
              | Some revision =>
                  upsert_task st t (with_state row (TaskTransition.to_state e) revision now)
              end
        end
    end.

(** *** Completion *)
Definition covers_modern (binding : string) (modern : bool) (v : CriterionVerdict) : bool :=
  match cv_binding v, modern with
  | Some recorded, _ => bool_decide (recorded = binding)
  | None, false => true
  | None, true => false
  end.

Definition criterion_covered (verdicts : list CriterionVerdict) (key : string) : bool :=
  let '(binding, modern) := binding_of key in
  existsb (λ v, cv_passed v && bool_decide (cv_key v = key) && covers_modern binding modern v)
    verdicts.

Definition only_legacy_verdict (verdicts : list CriterionVerdict) (key : string) : bool :=
  (binding_of key).2 &&
  existsb (λ v, cv_passed v && bool_decide (cv_key v = key) &&
                bool_decide (cv_binding v = None)) verdicts.

Definition durable_opt {A} (what : string) (r : DurableRead A) : result (option A) TaskError :=
  match r with
  | DMissing => Ok None
  | DPresentValid a => Ok (Some a)
  | DPresentMalformed _ => Err (TCorruptDurableState what)
  | DStoreFailure d => Err (TStoreFailure d)
  end.

Definition validate_completion_proof (env : CompletionEnv) (st : TStore)
    (t expected_revision proof : N) : result () TaskError :=
  match ts_tasks st !! t with
  | None => Err (TNotFound t)
  | Some row =>
      if decide (t_revision row ≠ expected_revision) then
        Err (TRevisionMismatch t expected_revision (t_revision row))
      else if decide (t_state row ≠ TaskState.Verifying) then Err (TNotVerifying (t_state row))
      else
        rec <-? match record_lookup st proof with
                | LFound rec => Ok rec
                | LMissing => Err (TRecordNotFound proof)
                | LUnboundLegacy => Err (TRecordUnboundLegacy proof)
                | LScopeMismatch => Err (TRecordScopeMismatch proof)
                end;
        guard_that (bool_decide (v_task rec = t)) (TRecordWrongTask proof (v_task rec) t);?
        guard_that (bool_decide (v_revision rec = expected_revision))
          (TRecordWrongRevision proof (v_revision rec) expected_revision);?
        guard_that (bool_decide (v_status rec = VPassed))
          (TRecordNotPassed proof (v_status rec));?
        let uncovered :=
          filter (λ c, criterion_covered (v_criteria rec) c = false) (t_criteria row) in
        let legacy_unbound :=
          filter (λ c, only_legacy_verdict (v_criteria rec) c = true) uncovered in
        let missing :=
          filter (λ c, only_legacy_verdict (v_criteria rec) c = false) uncovered in
        guard_that (bool_decide (legacy_unbound = []))
          (TLegacyProofRequiresReverification proof legacy_unbound);?
        guard_that (bool_decide (missing = [])) (TCriteriaNotCovered proof missing);?
        guard_that (bool_decide (v_workspace rec = ts_workspace st ∧
                                 v_worktree rec = ts_worktree st))
          (TWorktreeMismatch proof (v_workspace rec) (v_worktree rec)
             (ts_workspace st) (ts_worktree st));?
        integration <-? durable_opt "integration record" (ce_integration env);
        live_shadow_run_base <-?
          match ce_live_shadow_base env with
          | None => Ok false
          | Some r => o <-? durable_opt "run base of shadow" r;
                      Ok (match o with Some _ => true | None => false end)
          end;
        match v_tree_hash rec with
        | Some recorded =>
            match integration with
            | None => Err (TIntegrationRecordMissing proof)
            | Some final_snapshot =>
                if decide (final_snapshot = "" ∨ final_snapshot ≠ recorded) then
                  Err (TIntegrationSnapshotMismatch proof recorded final_snapshot)
                else
                  root <-? ce_root_digest env;
                  match root with
                  | Some current =>
                      if decide (current = recorded) then Ok ()
                      else Err (TIntegrationSnapshotMismatch proof recorded current)
                  | None => Err (TIntegrationSnapshotUnavailable proof)
                  end
            end
        | None =>
            match integration with
            | Some _ => Err (TManifestBindingMissing proof)
            | None =>
                if live_shadow_run_base then Err (TIntegrationRecordMissing proof) else Ok ()
            end
        end
  end.

(** One requested step of the contract gate. *)
Definition step_gate (env : CompletionEnv) (revision : N) (step : CompletionStep.t) :
    result () TaskError :=
  let step_rows := filter (λ r, sr_step r = step) (ce_steps env) in
  if existsb (λ r, bool_decide (sr_status r = CompletionStepOutcome.Failed)) step_rows then
    Err (TCompletionStepFailed revision step)
  else
    match last step_rows with
    | None => Err (TCompletionStepMissing revision step)
    | Some latest =>
        if decide (sr_status latest = CompletionStepOutcome.Succeeded) then
          match sr_snapshot latest with
          | None => Ok ()
          | Some recorded =>
              root <-? ce_root_digest env;
              match root with
              | None => Err TRootSnapshotUnavailable
              | Some current =>
                  if decide (current = recorded) then Ok ()
                  else Err (TCompletionStepSnapshotMismatch revision step recorded current)
              end
          end
        else Err (TCompletionStepNotSucceeded revision step (sr_status latest))
    end.

(** A refused gate and a failed gate both end the completion with the error. *)
Definition completion_contract_gate (env : CompletionEnv) : result () TaskError :=
  match ce_contract env with
  | DMissing => Ok ()
  | DPresentMalformed _ => Err (TCorruptDurableState "completion contract")
  | DStoreFailure d => Err (TStoreFailure d)
  | DPresentValid (revision, contract) =>
      if CompletionContract.is_default contract then Ok ()
      else if decide (revision = 0%N) then
        Err (TCorruptDurableState "completion contract revision")
      else check_all (step_gate env revision) (CompletionContract.requested_steps contract)
  end.

(** The accounting pass; its store writes stay even when it refuses. [true] is
    the crash seam. *)
Definition run_completion_accounting (env : CompletionEnv) (st : TStore) (t : N)
    (crash : option CompletionCrashPoint) : TStore * result bool TaskError :=
  let st1 := cost_reconcile_uncertain (ce_completed_calls env) st t in
  if decide (crash = Some AfterReconcile) then (st1, Ok true)
  else
    let st2 := cost_finalize_uncertain st1 t in
    if decide (crash = Some AfterCostFold) then (st2, Ok true)
    else
      let '(open, uncertain) := completion_accounting_balance st2 t in
      if decide (open = 0 ∧ uncertain = 0) then (st2, Ok false)
      else (st2, Err (TAccountingIncomplete open uncertain)).

(** [Ok false] is the simulated crash, [Ok true] a completed task. *)
Definition complete_verified_task_crashable (env : CompletionEnv) (st : TStore)
    (t expected_revision proof : N) (crash : option CompletionCrashPoint) (now : Z) :
    TStore * result bool TaskError :=
  if decide (t = 0%N) then (st, Err (TMalformed "task_id must be non-zero"))
  else
    match validate_completion_proof env st t expected_revision proof with
    | Err e => (st, Err e)
    | Ok _ =>
        if decide (crash = Some AfterProofLoad) then (st, Ok false)
        else
          match completion_contract_gate env with
          | Err e => (st, Err e)
          | Ok _ =>
              match run_completion_accounting env st t crash with
              | (st', Err e) => (st', Err e)
              | (st', Ok true) => (st', Ok false)
              | (st', Ok false) =>
                  if decide (crash = Some BeforeTransition) then (st', Ok false)
                  else
                    match task_complete_verified (record_lookup st' proof) st'
                            t expected_revision proof now with
                    | Ok st'' => (st'', Ok true)
                    | Err e => (st', Err e)
                    end
              end
          end
    end.

Definition complete_verified_task (env : CompletionEnv) (st : TStore)
    (t expected_revision proof : N) (now : Z) : TStore * result bool TaskError :=
  complete_verified_task_crashable env st t expected_revision proof None now.

(** ** Commands *)
Inductive TaskCommand :=
  | TCreate (t : N) (row : TaskRow)
  | TUpdate (t : N) (patch : TaskPatch)
  | TTransition (t expected_revision : N) (e : TaskTransition.t) (proof : option N)
  | TRecordPut (rec : VRecord)
  | TRecordFinalize (id : N) (status : VStatus)
  | TComplete (env : CompletionEnv) (t expected_revision proof : N)
      (crash : option CompletionCrashPoint)
  (** The store call alone, with a lookup made at any earlier time. *)
  | TCompleteStale (prepared : RecordLookup) (t expected_revision proof : N)
  | TLedger (op : LedgerOp).

Definition ok_or {E} (st : TStore) (r : result TStore E) : TStore :=
  match r with Ok st' => st' | Err _ => st end.

Definition task_exec (st : TStore) (cn : TaskCommand * Z) : TStore :=
  let now := cn.2 in
  match cn.1 with
  | TCreate t row => ok_or st (create_task st t row)
  | TUpdate t patch => ok_or st (update_task st t patch now)
  | TTransition t rev e proof => ok_or st (transition_task st t rev e proof now)
  | TRecordPut rec => or_keep st (verification_record_put st rec)
  | TRecordFinalize id s => ok_or st (verification_record_finalize st id s)
  | TComplete env t rev proof crash =>
      (complete_verified_task_crashable env st t rev proof crash now).1
  | TCompleteStale prepared t rev proof =>
      ok_or st (task_complete_verified prepared st t rev proof now)
  | TLedger op => ledger_exec st op
  end.

Definition task_run (st : TStore) (cs : list (TaskCommand * Z)) : TStore :=
  foldl task_exec st cs.

(** ** Lemmas: what the ledger leaves alone *)
Definition core_of (r : TaskRow) := (content r, t_revision r).

Definition same_rows (st st' : TStore) : Prop :=
  ∀ t, core_of <$> ts_tasks st' !! t = core_of <$> ts_tasks st !! t.

Definition no_held (t : N) (st : TStore) : Prop :=
  ∀ r, r ∈ ts_resv st → r_task r = t → is_held r = false.

Lemma insert_same_core st t row c s :
  ts_tasks st !! t = Some row →
  same_rows st (set_tasks st (<[t := with_cost row c s]> (ts_tasks st))).
Proof.
  intros Hrow t'. simpl. destruct (decide (t = t')) as [<-|].
  - rewrite lookup_insert_eq, Hrow. by destruct row.
  - by rewrite lookup_insert_ne.
Qed.

Lemma lstep_frame st st' :
  lstep st st' →
  same_rows st st' ∧ ts_records st' = ts_records st ∧ ts_session st' = ts_session st ∧
  ts_workspace st' = ts_workspace st ∧ ts_worktree st' = ts_worktree st.
Proof.
  destruct 1 as [row r spent|g Hg|id r row a Hf Hh Hrow]; repeat split; try done.
  by apply (insert_same_core st).
Qed.

Lemma lstep_no_held st st' t row :
  lstep st st' → ts_tasks st !! t = Some row →
  task_state_permits_provider_operation (t_state row) = false →
  no_held t st → no_held t st'.
Proof.
  intros Hstep Hrow Hforbid Hno. unfold no_held in *.
  destruct Hstep as [row' r spent Hrow' Hperm|g Hg|id r row' a Hf Hh]; simpl.
  - intros x [Hx| ->%list_elem_of_singleton]%elem_of_app Ht; [auto|].
    rewrite Ht, Hrow in Hrow'. congruence.
  - intros x (r & -> & Hr)%list_elem_of_fmap Ht.
    destruct (Hg r Hr) as [Heq|Hm%rmove_frame].
    + rewrite Heq in Ht |- *. auto.
    + destruct Hm as (_ & Ht' & _ & Hh & _).
      specialize (Hno r Hr). rewrite <-Ht', Ht in Hno. specialize (Hno eq_refl). congruence.
  - intros x (y & -> & Hy)%list_elem_of_fmap. case_decide; [done|]. auto.
Qed.

(** The frame of a whole ledger command or pass. *)
Record ledger_frame (st st' : TStore) : Prop := MkLedgerFrame {
  lf_rows : same_rows st st';
  lf_records : ts_records st' = ts_records st;
  lf_session : ts_session st' = ts_session st;
  lf_workspace : ts_workspace st' = ts_workspace st;
  lf_worktree : ts_worktree st' = ts_worktree st;
  lf_held : ∀ t row, ts_tasks st !! t = Some row →
    task_state_permits_provider_operation (t_state row) = false →
    no_held t st → no_held t st';
}.

Lemma ledger_frame_refl st : ledger_frame st st.
Proof. by split. Qed.

Lemma same_rows_state st st' t row :
  same_rows st st' → ts_tasks st !! t = Some row →
  ∃ row', ts_tasks st' !! t = Some row' ∧ core_of row' = core_of row.
Proof.
  intros Hs Hrow. specialize (Hs t). rewrite Hrow in Hs. simpl in Hs.
  apply fmap_Some in Hs as (row' & ? & ?). eauto.
Qed.

Lemma core_state row row' : core_of row' = core_of row → t_state row' = t_state row.
Proof. unfold core_of, content. congruence. Qed.

Lemma core_revision row row' : core_of row' = core_of row → t_revision row' = t_revision row.
Proof. unfold core_of. congruence. Qed.

Lemma core_criteria row row' : core_of row' = core_of row → t_criteria row' = t_criteria row.
Proof. unfold core_of, content. congruence. Qed.

Lemma ledger_frame_trans st1 st2 st3 :
  ledger_frame st1 st2 → ledger_frame st2 st3 → ledger_frame st1 st3.
Proof.
  intros [R1 C1 S1 W1 T1 H1] [R2 C2 S2 W2 T2 H2].
  split; [intros t; by rewrite (R2 t)|congruence..|].
  intros t row Hrow Hf Hno.
  destruct (same_rows_state _ _ _ _ R1 Hrow) as (row' & Hrow' & Hc).
  eapply H2; eauto. by rewrite (core_state _ _ Hc).
Qed.

Lemma lsteps_frame st st' : rtc lstep st st' → ledger_frame st st'.
Proof.
  induction 1 as [|st st1 st' Hstep _ IH]; [apply ledger_frame_refl|].
  eapply ledger_frame_trans; [|done].
  destruct (lstep_frame _ _ Hstep) as (? & ? & ? & ? & ?). split; try done.
  intros. by eapply lstep_no_held.
Qed.

Lemma ledger_exec_frame st op : ledger_ok st → ledger_frame st (ledger_exec st op).
Proof.
  intros Hok. destruct op as [| |t cap| | | | | | | |];
    try by (apply lsteps_frame, ledger_exec_steps).
  simpl. unfold cost_task_cap_set.
  destruct (ts_tasks st !! t) as [row|] eqn:Hrow; [|apply ledger_frame_refl].
  split; try done. by apply (insert_same_core st).
Qed.

Lemma accounting_frame env st t crash st' r :
  ledger_ok st → run_completion_accounting env st t crash = (st', r) →
  ledger_frame st st' ∧ ledger_ok st'.
Proof.
  intros Hok. unfold run_completion_accounting.
  set (st1 := cost_reconcile_uncertain (ce_completed_calls env) st t).
  assert (ledger_frame st st1 ∧ ledger_ok st1) as [F1 Hok1].
  { split; [by apply lsteps_frame, reconcile_steps|by eapply lsteps_ok, reconcile_steps]. }
  set (st2 := cost_finalize_uncertain st1 t).
  assert (ledger_frame st1 st2 ∧ ledger_ok st2) as [F2 Hok2].
  { split; [by apply lsteps_frame, finalize_steps|by eapply lsteps_ok, finalize_steps]. }
  assert (ledger_frame st st2) as F by by eapply ledger_frame_trans.
  destruct (decide _); [by intros [= <- _]|].
  destruct (decide _); [by intros [= <- _]|].
  destruct (completion_accounting_balance st2 t). simpl.
  destruct (decide _); by intros [= <- _].
Qed.

(** ** Lemmas: what a command does to one row *)
Definition row_evolves (row row' : TaskRow) : Prop :=
  core_of row' = core_of row ∨
  TaskState.is_terminal (t_state row) = false ∧
  t_revision row' = (t_revision row + 1)%N.

Lemma guard_that_Ok b e u : guard_that b e = Ok u ↔ b = true.
Proof. destruct u, b; naive_solver. Qed.

Lemma upsert_task_Ok st t row st' :
  upsert_task st t row = Ok st' →
  st' = set_tasks st (<[t := persisted row (ts_tasks st !! t ≫= t_max_cost)
          (default (SqlInt 0) (t_spent_cost <$> ts_tasks st !! t))]> (ts_tasks st)).
Proof.
  unfold upsert_task. destruct (TaskState.is_completion_relevant _); [|congruence].
  destruct (negb _); congruence.
Qed.

Lemma checked_next_Some r n : checked_next r = Some n → n = (r + 1)%N.
Proof. unfold checked_next. by intros [-> _]%U64.checked_add_Some. Qed.

(** The three row-writing session commands. *)
Inductive row_write (st : TStore) : TStore → Prop :=
  | rw_none : row_write st st
  | rw_write t row' cap :
      (∀ row, ts_tasks st !! t = Some row →
         TaskState.is_terminal (t_state row) = false ∧
         t_revision row' = (t_revision row + 1)%N ∧ cap = t_max_cost row ∧
         t_spent_cost row' = t_spent_cost row) →
      (ts_tasks st !! t = None → t_spent_cost row' = SqlInt 0) →
      t_state row' ≠ TaskState.VerifiedComplete →
      row_write st (set_tasks st (<[t := row']> (ts_tasks st))).

Lemma create_task_write st t row st' :
  create_task st t row = Ok st' → row_write st st'.
Proof.
  unfold create_task. destruct (decide _); [done|].
  destruct (negb _) eqn:Hc; [done|]. apply negb_false_iff in Hc.
  intros ([] & _ & H)%rbind_Ok. destruct (decide _); [done|].
  destruct (ts_tasks st !! t) eqn:Ht; [done|].
  apply upsert_task_Ok in H as ->. rewrite Ht. simpl.
  apply (rw_write st t _ None); simpl; try done; [congruence|].
  intros Heq. by rewrite Heq in Hc.
Qed.

Lemma update_task_write st t patch now st' :
  update_task st t patch now = Ok st' → row_write st st'.
Proof.
  unfold update_task. destruct (decide _); [done|].
  destruct (ts_tasks st !! t) as [row|] eqn:Ht; [|done].
  intros (s & Hs & H)%rbind_Ok. cbv zeta in H.
  apply rbind_Ok in H as ([] & _ & H).
  destruct (decide _); [injection H as <-; constructor|].
  destruct (TaskState.is_terminal (t_state row)) eqn:Hterm; [done|].
  destruct (checked_next _) as [rev|] eqn:Hrev; [|done].
  apply checked_next_Some in Hrev as ->.
  apply upsert_task_Ok in H as ->. rewrite Ht. simpl.
  apply (rw_write st t _ (t_max_cost row)); simpl; [intros; by simplify_eq|congruence|].
  destruct (p_state patch) as [s'|].
  - destruct (TaskState.is_completion_relevant s') eqn:Hrel; [done|].
    destruct (decide _); [done|]. injection Hs as <-. intros ->. done.
  - injection Hs as <-. intros Heq. by rewrite Heq in Hterm.
Qed.

Lemma legal_from_not_terminal e s :
  TaskTransition.legal_from e s = true → TaskState.is_terminal s = false.
Proof. by destruct e, s. Qed.

Lemma to_state_not_verified e : TaskTransition.to_state e ≠ TaskState.VerifiedComplete.
Proof. by destruct e. Qed.

Lemma transition_task_write st t rev e proof now st' :
  transition_task st t rev e proof now = Ok st' → row_write st st'.
Proof.
  unfold transition_task. destruct (decide _); [done|]. destruct proof; [done|].
  destruct (ts_tasks st !! t) as [row|] eqn:Ht; [|done].
  destruct (decide _) as [|Hrev%dec_stable]; [done|].
  destruct (negb _) eqn:Hl; [done|]. apply negb_false_iff in Hl.
  destruct (checked_next rev) as [rev'|] eqn:Hn; [|done].
  apply checked_next_Some in Hn as ->. intros H.
  apply upsert_task_Ok in H as ->. rewrite Ht. simpl.
  apply (rw_write st t _ (t_max_cost row)); simpl; [|congruence|apply to_state_not_verified].
  intros row' Hrow'. rewrite Ht in Hrow'. injection Hrow' as <-.
  repeat split; [by eapply legal_from_not_terminal|congruence].
Qed.

(** What a successful completion transaction checked, and what it wrote. *)
Lemma task_complete_verified_Ok prepared st t rev rid now st' :
  task_complete_verified prepared st t rev rid now = Ok st' →
  ∃ row rec,
    ts_tasks st !! t = Some row ∧ t_revision row = rev ∧
    t_state row = TaskState.Verifying ∧
    ts_records st !! rid = Some rec ∧ v_session rec = Some (ts_session st) ∧
    v_task rec = t ∧ v_revision rec = rev ∧ v_status rec = VPassed ∧
    v_workspace rec = ts_workspace st ∧ v_worktree rec = ts_worktree st ∧
    (∀ c, c ∈ t_criteria row → ∃ v, v ∈ v_criteria rec ∧ cv_passed v = true ∧ cv_key v = c) ∧
    no_held t st ∧
    st' = set_tasks st
      (<[t := with_state row TaskState.VerifiedComplete (rev + 1) now]> (ts_tasks st)).
Proof.
  unfold task_complete_verified.
  destruct (ts_tasks st !! t) as [row|]; [|done].
  destruct (decide _) as [|Hrev%dec_stable]; [done|].
  destruct (decide _) as [|Hst%dec_stable]; [done|].
  destruct (ts_records st !! rid) as [rec|] eqn:Hrec; simpl; [|by destruct prepared].
  destruct (decide (v_session rec = Some _)) as [Hs|]; [|by destruct prepared].
  destruct prepared as [prep| | |]; try done.
  intros (u1 & _ & H)%rbind_Ok.
  apply rbind_Ok in H as (u2 & H2%guard_that_Ok%bool_decide_eq_true & H).
  apply rbind_Ok in H as (u3 & H3%guard_that_Ok%bool_decide_eq_true & H).
  apply rbind_Ok in H as (u4 & H4%guard_that_Ok%bool_decide_eq_true & H).
  apply rbind_Ok in H as (u5 & H5%guard_that_Ok%bool_decide_eq_true & H).
  apply rbind_Ok in H as (u6 & [H6 H7]%guard_that_Ok%bool_decide_eq_true & H).
  cbv zeta in H. apply rbind_Ok in H as (u7 & H8%guard_that_Ok%bool_decide_eq_true & H).
  destruct (checked_next rev) as [n|] eqn:Hn; [|done].
  apply checked_next_Some in Hn as ->. injection H as <-.
  exists row, rec. do 10 (split; [done|]). split; [|split; [|done]].
  - intros c Hc.
    assert (¬ Forall (λ v, ¬ (cv_passed v = true ∧ cv_key v = c)) (v_criteria rec)) as Hx.
    { intros Hall. assert (c ∈ missing_criteria (t_criteria row) (v_criteria rec)) as Hin
        by by apply list_elem_of_filter.
      rewrite H5 in Hin. by apply elem_of_nil in Hin. }
    apply not_Forall_Exists in Hx; [|apply _].
    apply Exists_exists in Hx as (v & Hv & Hp%dec_stable). eauto.
  - intros r Hr Ht. destruct (is_held r) eqn:Hh; [exfalso|done].
    assert (∀ s, r_status r = s →
      length (filter (λ r, r_task r = t ∧ r_status r = s) (ts_resv st)) ≠ 0) as Hlen.
    { intros s Hrs Hz. apply length_zero_iff_nil in Hz.
      assert (r ∈ filter (λ r, r_task r = t ∧ r_status r = s) (ts_resv st)) as Hin
        by by apply list_elem_of_filter.
      rewrite Hz in Hin. by apply elem_of_nil in Hin. }
    unfold is_held in Hh. destruct (r_status r) eqn:Hrs; try done;
      specialize (Hlen _ eq_refl); lia.
Qed.

(** ** Invariants of the command loop *)
Lemma set_row_ledger_ok st t row' :
  ledger_ok st →
  (∀ row, ts_tasks st !! t = Some row → t_spent_cost row' = t_spent_cost row) →
  (ts_tasks st !! t = None → t_spent_cost row' = SqlInt 0) →
  ledger_ok (set_tasks st (<[t := row']> (ts_tasks st))).
Proof.
  intros [Hnd Hfr Hpr Htk Hse Hsp] Hsome Hnone. split; simpl; try done.
  - intros r Hr. destruct (decide (t = r_task r)) as [->|].
    + rewrite lookup_insert_eq. eauto.
    + rewrite lookup_insert_ne by done. auto.
  - intros t' row. destruct (decide (t = t')) as [<-|].
    + rewrite lookup_insert_eq. intros [= <-].
      destruct (ts_tasks st !! t) as [row|] eqn:Ht.
      * rewrite (Hsome row eq_refl). auto.
      * rewrite (Hnone eq_refl). rewrite (wsum_ext _ (λ _, 0%Z)); [by rewrite wsum_zero|].
        intros r Hr. unfold spent_w. rewrite decide_False; [done|]. intros [Hrt _].
        destruct (Htk r Hr) as [x Hx]. rewrite Hrt in Hx. congruence.
    + rewrite lookup_insert_ne by done. auto.
Qed.

Lemma row_write_ledger_ok st st' : ledger_ok st → row_write st st' → ledger_ok st'.
Proof.
  intros Hok [|t row' cap Hsome Hnone _]; [done|].
  apply set_row_ledger_ok; [done| |done]. intros row Hrow.
  by destruct (Hsome row Hrow) as (_ & _ & _ & ?).
Qed.

Definition record_certifies (st : TStore) (t : N) (row : TaskRow) (rec : VRecord) : Prop :=
  v_session rec = Some (ts_session st) ∧ v_task rec = t ∧ v_status rec = VPassed ∧
  (v_revision rec + 1)%N = t_revision row ∧
  v_workspace rec = ts_workspace st ∧ v_worktree rec = ts_worktree st ∧
  ∀ c, c ∈ t_criteria row → ∃ v, v ∈ v_criteria rec ∧ cv_passed v = true ∧ cv_key v = c.

(** Every completed task has a passing record of its own revision, and no
    reservation of it holds budget. *)
Definition certified (st : TStore) : Prop :=
  ∀ t row, ts_tasks st !! t = Some row → t_state row = TaskState.VerifiedComplete →
    (∃ rid rec, ts_records st !! rid = Some rec ∧ record_certifies st t row rec) ∧
    no_held t st.

Lemma frame_certified st st' : ledger_frame st st' → certified st → certified st'.
Proof.
  intros [R C S W T H] Hc t row' Hrow' Hst.
  specialize (R t). rewrite Hrow' in R. simpl in R. symmetry in R.
  apply fmap_Some in R as (row & Hrow & Hcore).
  rewrite (core_state _ _ Hcore) in Hst.
  destruct (Hc t row Hrow Hst) as ((rid & rec & Hrec & Hcert) & Hno). split.
  - exists rid, rec. rewrite C. split; [done|]. unfold record_certifies.
    by rewrite S, W, T, (core_revision _ _ Hcore), (core_criteria _ _ Hcore).
  - eapply H; eauto. by rewrite Hst.
Qed.

Lemma row_write_certified st st' : row_write st st' → certified st → certified st'.
Proof.
  intros [|t row' cap Hsome _ Hst] Hc; [done|]. intros t' row. simpl.
  destruct (decide (t = t')) as [<-|].
  - rewrite lookup_insert_eq. by intros [= <-].
  - rewrite lookup_insert_ne by done. intros Hrow Hr. by apply (Hc t' row).
Qed.

Lemma next_record_id_fresh st : ts_records st !! next_record_id st = None.
Proof.
  unfold next_record_id. set (f := λ (k : N) (_ : VRecord) m, N.max k m).
  enough (∀ k r, ts_records st !! k = Some r → (k <= map_fold f 0 (ts_records st))%N) as Hle.
  { destruct (ts_records st !! _) as [r|] eqn:Hr; [|done]. specialize (Hle _ r Hr). lia. }
  apply (map_fold_weak_ind (λ b m, ∀ k r, m !! k = Some r → (k <= b)%N)); [done|].
  intros k v m b Hk IH k' r. unfold f. destruct (decide (k = k')) as [<-|]; [lia|].
  rewrite lookup_insert_ne by done. intros Hr. specialize (IH _ _ Hr). lia.
Qed.

Lemma records_certified st m :
  (∀ rid rec, ts_records st !! rid = Some rec → v_status rec = VPassed →
     m !! rid = Some rec) →
  certified st → certified (set_records st m).
Proof.
  intros Hm Hc t row Hrow Hst.
  destruct (Hc t row Hrow Hst) as ((rid & rec & Hrec & Hcert) & Hno).
  split; [|done]. exists rid, rec. split; [|done]. apply Hm; [done|apply Hcert].
Qed.

Lemma complete_store_certified prepared st t rev rid now st' :
  ledger_ok st → certified st →
  task_complete_verified prepared st t rev rid now = Ok st' →
  ledger_ok st' ∧ certified st'.
Proof.
  intros Hok Hc H.
  destruct (task_complete_verified_Ok _ _ _ _ _ _ _ H) as (row & rec & Hrow & Hrev & Hst
    & Hrec & Hs & Ht & Hrv & Hp & Hw & Hwt & Hcov & Hno & ->).
  split.
  - apply set_row_ledger_ok; [done| |congruence]. intros row'. by intros [= <-]%(eq_trans (eq_sym Hrow)).
  - intros t' row'. simpl. destruct (decide (t = t')) as [<-|].
    + rewrite lookup_insert_eq. intros [= <-] _. split; [|done].
      exists rid, rec. split; [done|]. repeat split; simpl; try done. lia.
    + rewrite lookup_insert_ne by done. apply Hc.
Qed.

Lemma completion_inv env st t rev proof crash now :
  ledger_ok st → certified st →
  let st' := (complete_verified_task_crashable env st t rev proof crash now).1 in
  ledger_ok st' ∧ certified st'.
Proof.
  intros Hok Hc. unfold complete_verified_task_crashable.
  destruct (decide _); [done|]. destruct (validate_completion_proof _ _ _ _ _); [|done].
  destruct (decide _); [done|]. destruct (completion_contract_gate env); [|done].
  destruct (run_completion_accounting env st t crash) as [st1 r] eqn:Hacc.
  destruct (accounting_frame _ _ _ _ _ _ Hok Hacc) as [F Hok1].
  pose proof (frame_certified _ _ F Hc) as Hc1.
  destruct r as [[]|]; [done| |done]. destruct (decide _); [done|].
  destruct (task_complete_verified _ _ _ _ _ _) as [st2|] eqn:H; [|done].
  by eapply complete_store_certified.
Qed.

Lemma task_exec_inv st cn :
  ledger_ok st → certified st → ledger_ok (task_exec st cn) ∧ certified (task_exec st cn).
Proof.
  intros Hok Hc. destruct cn as [c now].
  assert (∀ st', row_write st st' → ledger_ok st' ∧ certified st') as Hw.
  { intros st' Hw. split; [by eapply row_write_ledger_ok|by eapply row_write_certified]. }
  destruct c as [t row|t patch|t rev e proof|rec|id s|env t rev proof crash
    |prepared t rev proof|op]; unfold task_exec; simpl.
  - destruct (create_task st t row) eqn:H; [|done]. eapply Hw, create_task_write, H.
  - destruct (update_task st t patch now) eqn:H; [|done]. eapply Hw, update_task_write, H.
  - destruct (transition_task st t rev e proof now) eqn:H; [|done].
    eapply Hw, transition_task_write, H.
  - unfold verification_record_put. destruct (v_session rec); [|done].
    destruct (decide _); [done|]. destruct (decide _); [|done]. simpl.
    split; [by destruct Hok|]. apply records_certified; [|done]. intros rid r Hr _.
    rewrite lookup_insert_ne; [done|]. intros <-. by rewrite next_record_id_fresh in Hr.
  - unfold verification_record_finalize. destruct (decide _); [done|].
    destruct (ts_records st !! id) as [rec|] eqn:Hrec; [|done].
    destruct (v_session rec); [|done].
    destruct (decide _); [done|]. destruct (decide _); [done|].
    destruct (decide _) as [|Hrun%dec_stable]; [done|]. simpl.
    split; [by destruct Hok|]. apply records_certified; [|done]. intros rid r Hr Hp.
    rewrite lookup_insert_ne; [done|]. intros <-. congruence.
  - by apply completion_inv.
  - destruct (task_complete_verified _ _ _ _ _ _) as [st'|] eqn:H; [|done].
    by eapply complete_store_certified.
  - split; [by apply ledger_exec_ok|]. by eapply frame_certified, Hc; apply ledger_exec_frame.
Qed.

Lemma task_run_inv st cs :
  ledger_ok st → certified st → ledger_ok (task_run st cs) ∧ certified (task_run st cs).
Proof.
  revert st. induction cs as [|cn cs IH]; intros st Hok Hc; [done|].
  destruct (task_exec_inv st cn Hok Hc). by apply IH.
Qed.

(** ** Row evolution *)
Lemma frame_evolves st st' t row :
  same_rows st st' → ts_tasks st !! t = Some row →
  ∃ row', ts_tasks st' !! t = Some row' ∧ core_of row' = core_of row.
Proof. apply same_rows_state. Qed.

Lemma row_write_evolves st st' t row :
  row_write st st' → ts_tasks st !! t = Some row →
  ∃ row', ts_tasks st' !! t = Some row' ∧ row_evolves row row'.
Proof.
  intros [|t' row' cap Hsome _ _] Hrow; [exists row; split; [done|by left]|]. simpl.
  destruct (decide (t' = t)) as [->|].
  - rewrite lookup_insert_eq. eexists; split; [done|].
    destruct (Hsome row Hrow) as (? & ? & _). by right.
  - rewrite lookup_insert_ne by done. exists row. split; [done|by left].
Qed.

Lemma complete_store_evolves prepared st t0 rev rid now st' t row :
  task_complete_verified prepared st t0 rev rid now = Ok st' →
  ts_tasks st !! t = Some row →
  ∃ row', ts_tasks st' !! t = Some row' ∧ row_evolves row row'.
Proof.
  intros H Hrow. destruct (task_complete_verified_Ok _ _ _ _ _ _ _ H)
    as (row0 & rec & Hrow0 & Hrev & Hst & _ & _ & _ & _ & _ & _ & _ & _ & _ & ->). simpl.
  destruct (decide (t0 = t)) as [->|].
  - rewrite lookup_insert_eq. eexists; split; [done|]. right.
    rewrite Hrow in Hrow0. injection Hrow0 as <-. rewrite Hst. simpl. by subst.
  - rewrite lookup_insert_ne by done. exists row. split; [done|by left].
Qed.

Lemma task_exec_evolves st cn t row :
  ledger_ok st → ts_tasks st !! t = Some row →
  ∃ row', ts_tasks (task_exec st cn) !! t = Some row' ∧ row_evolves row row'.
Proof.
  intros Hok Hrow. destruct cn as [c now].
  assert (∃ row', ts_tasks st !! t = Some row' ∧ row_evolves row row') as Hstay
    by (exists row; split; [done|by left]).
  destruct c as [t' x|t' patch|t' rev e proof|rec|id s|env t' rev proof crash
    |prepared t' rev proof|op]; unfold task_exec; simpl.
  - destruct (create_task st t' x) eqn:H; [|done].
    eapply row_write_evolves, Hrow. by eapply create_task_write.
  - destruct (update_task st t' patch now) eqn:H; [|done].
    eapply row_write_evolves, Hrow. by eapply update_task_write.
  - destruct (transition_task st t' rev e proof now) eqn:H; [|done].
    eapply row_write_evolves, Hrow. by eapply transition_task_write.
  - unfold verification_record_put. destruct (v_session rec); [|done].
    by repeat (destruct (decide _); try done).
  - unfold verification_record_finalize. destruct (decide _); [done|].
    destruct (ts_records st !! id) as [rec|]; [|done]. destruct (v_session rec); [|done].
    by repeat (destruct (decide _); try done).
  - unfold complete_verified_task_crashable.
    destruct (decide _); [done|]. destruct (validate_completion_proof _ _ _ _ _); [|done].
    destruct (decide _); [done|]. destruct (completion_contract_gate env); [|done].
    destruct (run_completion_accounting env st t' crash) as [st1 r] eqn:Hacc.
    destruct (accounting_frame _ _ _ _ _ _ Hok Hacc) as [F _].
    destruct (frame_evolves _ _ _ _ (lf_rows _ _ F) Hrow) as (row1 & Hrow1 & Hc1).
    assert (∃ row', ts_tasks st1 !! t = Some row' ∧ row_evolves row row') as Hs1
      by (exists row1; split; [done|by left]).
    destruct r as [[]|]; [done| |done]. destruct (decide _); [done|].
    destruct (task_complete_verified _ _ _ _ _ _) as [st2|] eqn:H; [|done]. simpl.
    destruct (complete_store_evolves _ _ _ _ _ _ _ _ _ H Hrow1) as (row2 & Hrow2 & He).
    exists row2. split; [done|]. unfold row_evolves in *.
    rewrite Hc1, (core_state _ _ Hc1), (core_revision _ _ Hc1) in He. done.
  - destruct (task_complete_verified _ _ _ _ _ _) as [st'|] eqn:H; [|done].
    by eapply complete_store_evolves.
  - destruct (frame_evolves _ _ _ _ (lf_rows _ _ (ledger_exec_frame st op Hok)) Hrow)
      as (row' & ? & ?). exists row'. split; [done|by left].
Qed.

(** ** Crash seams *)
Lemma validate_proof_frame env st st' t rev proof :
  ledger_frame st st' →
  validate_completion_proof env st' t rev proof = validate_completion_proof env st t rev proof.
Proof.
  intros [R C S W T _]. unfold validate_completion_proof, record_lookup.
  specialize (R t). rewrite C, S, W, T.
  destruct (ts_tasks st !! t) as [row|], (ts_tasks st' !! t) as [row'|]; try done.
  simpl in R. injection R as Hcore.
  assert (core_of row' = core_of row) as Hc by (unfold core_of, content; congruence).
  by rewrite (core_revision _ _ Hc), (core_state _ _ Hc), (core_criteria _ _ Hc).
Qed.

Lemma reconcile_after_finalize completed st t row :
  ledger_ok st → ts_tasks st !! t = Some row →
  let st' := cost_finalize_uncertain st t in
  cost_reconcile_uncertain completed st' t = st' ∧ cost_finalize_uncertain st' t = st'.
Proof.
  intros Hok Hrow st'. assert (uncertain_ids st' t = []) as Hnone.
  { unfold st'. rewrite (finalize_closed_form st t row) by done. apply finalized_no_uncertain. }
  split.
  - unfold cost_reconcile_uncertain.
    enough (filter (λ r, r_task r = t ∧ r_status r = RUncertain ∧ is_Some (completed r))
      (ts_resv st') = []) as -> by done.
    destruct (filter _ _) as [|r l] eqn:Hf; [done|]. exfalso.
    assert (r ∈ filter (λ r, r_task r = t ∧ r_status r = RUncertain ∧
      is_Some (completed r)) (ts_resv st')) as Hin by (rewrite Hf; by left).
    apply list_elem_of_filter in Hin as [(Ht & Hu & _) Hin].
    assert (r_id r ∈ uncertain_ids st' t) as Hid.
    { apply list_elem_of_fmap_2. by apply list_elem_of_filter. }
    rewrite Hnone in Hid. by apply elem_of_nil in Hid.
  - unfold cost_finalize_uncertain at 1. by rewrite Hnone.
Qed.

(** ** Properties *)

(** The completion transaction is sound against any interleaving.  Whatever
    record lookup the caller made before, a success means that at the moment of
    the write the task was [Verifying] at the expected revision, the record
    existed in this session, certified this task at this revision with status
    [Passed] against the session's worktree, carried a passed verdict for every
    acceptance criterion, and the task held no budget; the only change is the
    row's state, its revision (plus one) and its timestamp. *)
Theorem completion_transaction_sound prepared st t rev rid now st' :
  task_complete_verified prepared st t rev rid now = Ok st' →
  ∃ row rec,
    ts_tasks st !! t = Some row ∧ t_revision row = rev ∧
    t_state row = TaskState.Verifying ∧ ts_records st !! rid = Some rec ∧
    v_status rec = VPassed ∧ record_certifies st t (with_state row (t_state row) (rev + 1) now) rec ∧
    no_held t st ∧
    st' = set_tasks st
      (<[t := with_state row TaskState.VerifiedComplete (rev + 1) now]> (ts_tasks st)).
Proof.
  intros H. destruct (task_complete_verified_Ok _ _ _ _ _ _ _ H) as (row & rec & Hrow & Hrev
    & Hst & Hrec & Hs & Ht & Hrv & Hp & Hw & Hwt & Hcov & Hno & ->).
  exists row, rec. repeat split; try done. simpl. lia.
Qed.

(** C24: completion is earned.  Starting from a store with no completed task,
    after any sequence of commands (creations, patches, transitions, records,
    completions at any crash seam or with a stale lookup, ledger commands), every
    [VerifiedComplete] task has a passing verification record of this session
    for exactly the revision it completed, covering all its criteria, and none
    of its reservations holds budget. *)
Theorem verified_complete_is_certified st cs t row :
  fresh_ledger st →
  (∀ t row, ts_tasks st !! t = Some row → t_state row ≠ TaskState.VerifiedComplete) →
  ts_tasks (task_run st cs) !! t = Some row →
  t_state row = TaskState.VerifiedComplete →
  (∃ rid rec, ts_records (task_run st cs) !! rid = Some rec ∧
     record_certifies (task_run st cs) t row rec) ∧
  no_held t (task_run st cs).
Proof.
  intros Hf Hst. apply (task_run_inv st cs); [by apply fresh_ledger_ok|].
  intros t' row' Hrow' Heq. by destruct (Hst t' row' Hrow').
Qed.

(** the revision is a lock on the content.  A task row never disappears,
    its revision never decreases, and as long as the revision has not moved
    neither has any non-monetary column; a terminal row's never move at all. *)
Theorem revision_locks_content st cs t row :
  ledger_ok st → certified st → ts_tasks st !! t = Some row →
  ∃ row', ts_tasks (task_run st cs) !! t = Some row' ∧
    (t_revision row <= t_revision row')%N ∧
    (t_revision row' = t_revision row → content row' = content row) ∧
    (TaskState.is_terminal (t_state row) = true →
     content row' = content row ∧ t_revision row' = t_revision row).
Proof.
  revert st row. induction cs as [|cn cs IH]; intros st row Hok Hc Hrow;
    [by exists row|].
  destruct (task_exec_inv st cn Hok Hc) as [Hok1 Hc1].
  destruct (task_exec_evolves st cn t row Hok Hrow) as (row1 & Hrow1 & He).
  destruct (IH _ row1 Hok1 Hc1 Hrow1) as (row2 & Hrow2 & Hle & Heq & Hterm).
  exists row2. split; [done|]. destruct He as [Hcore|[Hnt Hrev]].
  - pose proof (core_state _ _ Hcore) as Hs. pose proof (core_revision _ _ Hcore) as Hr.
    assert (content row1 = content row) as Hcont by (unfold core_of in Hcore; congruence).
    rewrite Hs, Hr, Hcont in *. done.
  - split; [lia|]. split; [lia|]. congruence.
Qed.

(** C25: completion resumes.  If the process dies at any seam of the completion
    sequence, nothing but the ledger has moved, and running the full completion
    again gives exactly the outcome the uninterrupted run would have given. *)
Theorem completion_resumes_after_crash env st t rev proof crash now now' st1 :
  ledger_ok st →
  complete_verified_task_crashable env st t rev proof (Some crash) now = (st1, Ok false) →
  ledger_frame st st1 ∧
  complete_verified_task env st1 t rev proof now' = complete_verified_task env st t rev proof now'.
Proof.
  intros Hok. unfold complete_verified_task, complete_verified_task_crashable.
  destruct (decide (t = 0%N)); [done|].
  destruct (validate_completion_proof env st t rev proof) as [u|] eqn:Hv; [|done].
  assert (∃ row, ts_tasks st !! t = Some row) as [row Hrow].
  { unfold validate_completion_proof in Hv. destruct (ts_tasks st !! t); [eauto|done]. }
  destruct (decide (Some crash = Some AfterProofLoad)).
  { intros [= <-]. split; [apply ledger_frame_refl|]. by rewrite Hv. }
  destruct (completion_contract_gate env) as [u'|] eqn:Hg; [|done].
  destruct (run_completion_accounting env st t (Some crash)) as [st' r] eqn:Hacc.
  destruct (accounting_frame _ _ _ _ _ _ Hok Hacc) as [F Hok'].
  intros Hres. assert (st1 = st') as ->.
  { destruct r as [[]|]; [congruence| |congruence].
    destruct (decide _); [congruence|].
    destruct (task_complete_verified _ _ _ _ _ _); congruence. }
  split; [done|]. rewrite (validate_proof_frame _ _ _ _ _ _ F), Hv.
  rewrite !decide_False by done.
  enough (run_completion_accounting env st' t None = run_completion_accounting env st t None)
    as -> by done.
  unfold run_completion_accounting in Hacc |- *.
  set (st2 := cost_reconcile_uncertain (ce_completed_calls env) st t) in *.
  assert (ledger_ok st2) as Hok2.
  { by eapply lsteps_ok, reconcile_steps. }
  assert (ledger_frame st st2) as F2.
  { by apply lsteps_frame, reconcile_steps. }
  destruct (same_rows_state _ _ _ _ (lf_rows _ _ F2) Hrow) as (row2 & Hrow2 & _).
  destruct (decide (Some crash = Some AfterReconcile)).
  { assert (st' = st2) as -> by congruence.
    by assert (cost_reconcile_uncertain (ce_completed_calls env) st2 t = st2) as ->
      by by apply reconcile_idempotent. }
  destruct (reconcile_after_finalize (ce_completed_calls env) st2 t row2 Hok2 Hrow2)
    as [Hre Hfin].
  assert (st' = cost_finalize_uncertain st2 t) as ->.
  { destruct (decide _); [congruence|].
    destruct (completion_accounting_balance _ _). destruct (decide _); congruence. }
  rewrite Hre, Hfin. done.
Qed.
End Session.

(** A token cap above [i64::MAX] does not survive the store.  The column is
    written with a wrapping cast and read back clamped at zero, so a task created
    with the largest cap reads back with a cap of zero. *)
Theorem token_cap_wraps_to_zero cap :
  (9223372036854775808 <= cap <= U64.max)%N → max_tokens_column cap = 0%N.
Proof.
  intros [Hlo Hhi]. unfold max_tokens_column, I64.of_u64.
  rewrite decide_False by lia. unfold U64.max in Hhi. lia.
Qed.

(** Below that bound the column round-trips. *)
Lemma token_cap_roundtrip cap :
  (cap <= 9223372036854775807)%N → max_tokens_column cap = cap.
Proof.
  intros H. unfold max_tokens_column, I64.of_u64. rewrite decide_True by done. lia.
Qed.

(** ** Witnesses

    A task driven from creation to a certified completion, with one settled and
    one crashed model call. *)
#[local] Existing Instance one_rounding.

Module TaskDemo.
Definition run :=
  task_run (λ _, None) (λ _, Ok ()) (λ _, Ok ()) (λ _, ("", false)).

Definition store : TStore := MkTStore 1 5 6 ∅ ∅ [] 1.

Definition row : TaskRow :=
  MkTaskRow "ship the fix" ["tests pass"] ["step one"] [] "{}" (Some 50000%N) None 0 0
    TaskState.Running 1 100 100 None (SqlInt 0).

Definition record : VRecord :=
  MkVRecord (Some 1%N) 7 3 5 6 None [MkCriterionVerdict "tests pass" true None] ["[]"] VRunning.

Definition env : CompletionEnv :=
  MkCompletionEnv DMissing None (Ok None)
    (DPresentValid (3%N, MkCompletionContract true false false))
    [MkStepRow CompletionStep.Commit CompletionStepOutcome.Succeeded None] (λ _, None).

Definition setup : list (TaskCommand * Z) :=
  [(TCreate 7 row, 100%Z); (TLedger (LCapSet 7 (Some 1000%N)), 100%Z);
   (TLedger (LReserveAttempt 7 11 400 (Some LedgerDemo.snapshot)), 101%Z);
   (TLedger (LDispatch 1 102), 102%Z); (TLedger (LMarkUncertain 1), 103%Z);
   (TUpdate 7 (MkTaskPatch None None None None None (Some TaskState.VerifiedComplete)), 104%Z);
   (TTransition 7 1 TaskTransition.RequestVerification None, 105%Z);
   (TTransition 7 2 TaskTransition.StartVerification None, 106%Z);
   (TRecordPut record, 107%Z); (TRecordFinalize 1 VPassed, 108%Z)].

Definition verifying : TStore := run store setup.

Definition finish : list (TaskCommand * Z) :=
  [(TComplete env 7 3 1 (Some AfterReconcile), 109%Z); (TComplete env 7 3 1 None, 110%Z);
   (TTransition 7 4 TaskTransition.Cancel None, 111%Z)].
End TaskDemo.

Lemma completion_transaction_sound_witness :
  ∃ st', task_complete_verified (record_lookup TaskDemo.verifying 1)
           (ledger_exec TaskDemo.verifying (LFinalize 7)) 7 3 1 110 = Ok st' ∧
         no_held 7 (ledger_exec TaskDemo.verifying (LFinalize 7)).
Proof.
  destruct (task_complete_verified (record_lookup TaskDemo.verifying 1)
    (ledger_exec TaskDemo.verifying (LFinalize 7)) 7 3 1 110) as [st'|e] eqn:H;
    [|vm_compute in H; discriminate].
  exists st'. split; [reflexivity|].
  destruct (completion_transaction_sound _ _ _ _ _ _ _ H)
    as (row & rec & _ & _ & _ & _ & _ & _ & Hno & _). exact Hno.
Defined.

Lemma demo_store_fresh : fresh_ledger TaskDemo.store.
Proof. split; [done|]. intros t row. unfold TaskDemo.store. simpl. by rewrite lookup_empty. Qed.

Lemma verified_complete_is_certified_witness :
  ∃ rid rec, ts_records (TaskDemo.run TaskDemo.store (TaskDemo.setup ++ TaskDemo.finish)) !! rid
           = Some rec ∧ v_revision rec = 3%N.
Proof.
  unfold TaskDemo.run.
  destruct (ts_tasks (task_run (λ _, None) (λ _, Ok ()) (λ _, Ok ()) (λ _, ("", false))
    TaskDemo.store (TaskDemo.setup ++ TaskDemo.finish)) !! 7%N) as [row|] eqn:Hrow;
    [|vm_compute in Hrow; discriminate].
  destruct (verified_complete_is_certified (λ _, None) (λ _, Ok ()) (λ _, Ok ())
    (λ _, ("", false)) TaskDemo.store (TaskDemo.setup ++ TaskDemo.finish) 7 row demo_store_fresh)
    as [(rid & rec & Hrec & Hcert) _].
  - intros t r. unfold TaskDemo.store. simpl. rewrite lookup_empty. discriminate.
  - exact Hrow.
  - vm_compute in Hrow. injection Hrow as <-. reflexivity.
  - exists rid, rec. split; [exact Hrec|].
    destruct Hcert as (_ & _ & _ & Hr & _). vm_compute in Hrow. injection Hrow as <-.
    simpl in Hr. lia.
Defined.

Lemma empty_certified : certified TaskDemo.store.
Proof. intros t row. unfold TaskDemo.store. simpl. by rewrite lookup_empty. Qed.

Lemma demo_verifying_ok : ledger_ok TaskDemo.verifying ∧ certified TaskDemo.verifying.
Proof.
  unfold TaskDemo.verifying, TaskDemo.run.
  apply task_run_inv; [apply fresh_ledger_ok, demo_store_fresh|apply empty_certified].
Qed.

Lemma revision_locks_content_witness :
  ∃ row', ts_tasks (TaskDemo.run TaskDemo.verifying TaskDemo.finish) !! 7%N = Some row' ∧
    (3 <= t_revision row')%N.
Proof.
  unfold TaskDemo.run.
  destruct (ts_tasks TaskDemo.verifying !! 7%N) as [row|] eqn:Hrow;
    [|vm_compute in Hrow; discriminate].
  destruct (revision_locks_content (λ _, None) (λ _, Ok ()) (λ _, Ok ()) (λ _, ("", false))
    TaskDemo.verifying TaskDemo.finish 7 row (proj1 demo_verifying_ok) (proj2 demo_verifying_ok)
    Hrow) as (row' & Hrow' & Hle & _).
  exists row'. split; [exact Hrow'|]. vm_compute in Hrow. injection Hrow as <-. exact Hle.
Defined.

Lemma completion_resumes_after_crash_witness :
  complete_verified_task (λ _, ("", false)) TaskDemo.env
    (complete_verified_task_crashable (λ _, ("", false)) TaskDemo.env
       TaskDemo.verifying 7 3 1 (Some AfterCostFold) 109).1 7 3 1 110 =
  complete_verified_task (λ _, ("", false)) TaskDemo.env TaskDemo.verifying 7 3 1 110.
Proof.
  refine (proj2 (completion_resumes_after_crash (λ _, ("", false)) TaskDemo.env
    TaskDemo.verifying 7 3 1 AfterCostFold 109 110 _ (proj1 demo_verifying_ok) _)).
  vm_compute. reflexivity.
Defined.

Lemma token_cap_wraps_to_zero_witness : max_tokens_column U64.max = 0%N.
Proof.
  apply token_cap_wraps_to_zero. split; [vm_compute; discriminate|reflexivity].
Defined.
