(* ===== verification/Strings.v ===== *)
(** * Strings of the Rust standard library

    The operations on [&str] the modelled code uses, over byte strings, and
    the lemmas the path components share. *)
From S2P Require Import Prelude.
From Stdlib Require Export Ascii String.
From stdpp Require Import sorting.
#[local] Open Scope string_scope.

(** ** The string operations of the standard library the source uses, bytewise *)
Definition slash : ascii := "/"%char.
Definition backslash : ascii := "\"%char.

Fixpoint ends_with (p : ascii → bool) (s : string) : bool :=
  match s with
  | EmptyString => false
  | String c EmptyString => p c
  | String _ s' => ends_with p s'
  end.

Fixpoint trim_end_matches (p : ascii → bool) (s : string) : string :=
  match s with
  | EmptyString => EmptyString
  | String c s' =>
      match trim_end_matches p s' with
      | EmptyString => if p c then EmptyString else String c EmptyString
      | t => String c t
      end
  end.

Definition starts_with (pre s : string) : bool := String.prefix pre s.

Fixpoint split_on (p : ascii → bool) (s : string) : list string :=
  match s with
  | EmptyString => [""]
  | String c s' =>
      if p c then "" :: split_on p s'
      else match split_on p s' with
           | [] => [String c ""]
           | w :: ws => String c w :: ws
           end
  end.

Fixpoint mem_char (c : ascii) (s : string) : bool :=
  match s with
  | EmptyString => false
  | String d s' => bool_decide (c = d) || mem_char c s'
  end.

Definition is_slash (c : ascii) : bool := bool_decide (c = slash).
Definition is_sep (c : ascii) : bool :=
  bool_decide (c = slash) || bool_decide (c = backslash).

(** [str::to_ascii_lowercase] *)
Definition ascii_lower (c : ascii) : ascii :=
  let n := N_of_ascii c in
  if ((65 <=? n) && (n <=? 90))%N then ascii_of_N (n + 32) else c.
Fixpoint to_ascii_lowercase (s : string) : string :=
  match s with
  | EmptyString => EmptyString
  | String c s' => String (ascii_lower c) (to_ascii_lowercase s')
  end.

(** [char::is_whitespace] on the UTF-8 encodings of one, two and three bytes. *)
Definition white1 (c : ascii) : bool :=
  let n := N_of_ascii c in (((9 <=? n) && (n <=? 13)) || (n =? 32))%N.
Definition white2 (c d : ascii) : bool :=
  ((N_of_ascii c =? 194) && ((N_of_ascii d =? 133) || (N_of_ascii d =? 160)))%N.
Definition white3 (c d e : ascii) : bool :=
  let c := N_of_ascii c in let d := N_of_ascii d in let e := N_of_ascii e in
  ((c =? 225) && (d =? 154) && (e =? 128)
   || (c =? 226) && (d =? 128)
      && ((128 <=? e) && (e <=? 138) || (e =? 168) || (e =? 169) || (e =? 175))
   || (c =? 226) && (d =? 129) && (e =? 159)
   || (c =? 227) && (d =? 128) && (e =? 128))%N.

(** [str::trim] on valid UTF-8. *)
Fixpoint trim_start (s : string) : string :=
  match s with
  | String c s1 =>
      if white1 c then trim_start s1
      else match s1 with
           | String d s2 =>
               if white2 c d then trim_start s2
               else match s2 with
                    | String e s3 => if white3 c d e then trim_start s3 else s
                    | EmptyString => s
                    end
           | EmptyString => s
           end
  | EmptyString => s
  end.
Fixpoint trim_end (s : string) : string :=
  if bool_decide (trim_start s = "") then ""
  else match s with
       | EmptyString => EmptyString
       | String c s' => String c (trim_end s')
       end.
Definition trim (s : string) : string := trim_end (trim_start s).

(** No byte of the string satisfies [p]. *)
Fixpoint lacks (p : ascii → bool) (s : string) : bool :=
  match s with
  | EmptyString => true
  | String c s' => negb (p c) && lacks p s'
  end.

(** ** Character classes *)
(** [u8::is_ascii_graphic] *)
Definition is_ascii_graphic (c : ascii) : bool :=
  ((33 <=? N_of_ascii c) && (N_of_ascii c <=? 126))%N.
(** [u8::is_ascii_hexdigit] *)
Definition is_ascii_hexdigit (c : ascii) : bool :=
  let n := N_of_ascii c in
  ((48 <=? n) && (n <=? 57) || (97 <=? n) && (n <=? 102) || (65 <=? n) && (n <=? 70))%N.
(** [str::len], in bytes *)
Definition slen (s : string) : N := N.of_nat (String.length s).

(** [Vec::sort] and [Vec::dedup]: bytewise order, then adjacent duplicates. *)
Definition str_le (a b : string) : Prop := String.leb a b = true.
#[global] Instance str_le_dec : RelDecision str_le.
Proof. intros a b. unfold str_le. apply _. Defined.

Fixpoint dedup (l : list string) : list string :=
  match l with
  | [] => []
  | x :: l' =>
      match dedup l' with
      | [] => [x]
      | y :: d => if decide (x = y) then y :: d else x :: y :: d
      end
  end.

(** ** Lemmas on the string operations *)
#[local] Arguments String.append !_ _ / : assert.
Lemma append_assoc (a b c : string) : ((a ++ b) ++ c = a ++ (b ++ c))%string.
Proof. induction a as [|x a IH]; cbn; [done|by rewrite IH]. Qed.

Lemma append_nil_r (a : string) : (a ++ "" = a)%string.
Proof. induction a as [|x a IH]; cbn; [done|by rewrite IH]. Qed.

Lemma starts_with_spec p s : starts_with p s = true ↔ ∃ t, s = (p ++ t)%string.
Proof.
  unfold starts_with. revert s; induction p as [|c p IH]; intros s.
  - split; [eauto|by destruct s].
  - destruct s as [|d s]; cbn; [by split; [|intros [??]]|].
    destruct (ascii_dec c d) as [->|Hn].
    + rewrite IH. split; intros [t Ht]; exists t; congruence.
    + split; [done|intros [t Ht]; congruence].
Qed.

Lemma ends_with_app p a c : ends_with p (a ++ String c "") = p c.
Proof.
  induction a as [|x a IH]; [done|]. cbn. rewrite IH. by destruct a.
Qed.

Lemma ends_with_cons p c s : s ≠ "" → ends_with p (String c s) = ends_with p s.
Proof. by destruct s. Qed.

Lemma trim_no_end p s : ends_with p (trim_end_matches p s) = false.
Proof.
  induction s as [|c s IH]; [done|]. cbn.
  destruct (trim_end_matches p s) as [|d t] eqn:E.
  - by destruct (p c) eqn:Hc; cbn.
  - by rewrite ends_with_cons.
Qed.

Lemma trim_id p s : ends_with p s = false → trim_end_matches p s = s.
Proof.
  induction s as [|c s IH]; [done|]. destruct s as [|d s]; intros He.
  - cbn in *. by rewrite He.
  - rewrite ends_with_cons in He by done. cbn [trim_end_matches] in *.
    by rewrite (IH He).
Qed.

Lemma trim_app_end p a c :
  p c = true → ends_with p a = false → trim_end_matches p (a ++ String c "") = a.
Proof.
  intros Hc; induction a as [|x a IH]; intros Ha; cbn; [by rewrite Hc|].
  destruct a as [|y a].
  - cbn in *. by rewrite Hc, Ha.
  - rewrite ends_with_cons in Ha by done. by rewrite (IH Ha).
Qed.

Lemma prefix_comparable (p q t u : string) :
  (p ++ t = q ++ u)%string → (∃ v, q = p ++ v)%string ∨ (∃ v, p = q ++ v)%string.
Proof.
  revert q; induction p as [|c p IH]; intros [|d q]; cbn; [eauto..|].
  intros [= -> H]. destruct (IH _ H) as [[v ->]|[v ->]]; eauto.
Qed.

Lemma append_snoc_inv (p a : string) c v :
  (a ++ String c "" = p ++ v)%string → p = (a ++ String c "")%string ∨ ∃ w, a = (p ++ w)%string.
Proof.
  revert p; induction a as [|x a IH]; intros [|y p]; cbn; [eauto..| |eauto|].
  - intros [= -> H]. left. by destruct p.
  - intros [= -> H]. destruct (IH _ H) as [->|[w ->]]; eauto.
Qed.

Lemma append_inj_r (a b : string) c : (a ++ String c "" = b ++ String c "")%string → a = b.
Proof.
  revert b; induction a as [|x a IH]; intros [|y b]; cbn; [done|..].
  - intros [= -> H]. by destruct b.
  - intros [= -> H]. by destruct a.
  - intros [= -> H]. by rewrite (IH _ H).
Qed.
(** ** Splitting and joining *)
Lemma split_on_nonnil p s : split_on p s ≠ [].
Proof. destruct s as [|c s]; cbn; [done|]. by repeat case_match. Qed.

Lemma split_lacks p s : Forall (λ w, lacks p w = true) (split_on p s).
Proof.
  induction s as [|c s IH]; cbn; [by repeat constructor|].
  destruct (p c) eqn:E; [by constructor|].
  destruct (split_on p s) as [|w ws]; inversion_clear IH || idtac;
    (constructor; [cbn; rewrite E; done|done || by constructor]).
Qed.

Lemma split_on_app p a c b :
  p c = true → split_on p (a ++ String c b) = (split_on p a ++ split_on p b)%list.
Proof.
  intros Hc. induction a as [|x a IH]; cbn [split_on String.append]; [by rewrite Hc|].
  rewrite IH. destruct (p x); [done|].
  destruct (split_on p a) eqn:E; [by destruct (split_on_nonnil p a)|done].
Qed.

Lemma split_on_lacks p c : lacks p c = true → split_on p c = [c].
Proof.
  induction c as [|x c IH]; cbn; [done|]. intros [Hx Hc]%andb_prop.
  apply negb_true_iff in Hx. by rewrite Hx, (IH Hc).
Qed.

Lemma string_concat_cons c d cs :
  String.concat "/" (c :: d :: cs) = (c ++ String slash (String.concat "/" (d :: cs)))%string.
Proof. done. Qed.

(** Splitting at the separators undoes joining with slashes. *)
Lemma split_on_concat p cs :
  p slash = true → cs ≠ [] → Forall (λ c, lacks p c = true) cs →
  split_on p (String.concat "/" cs) = cs.
Proof.
  intros Hp Hne Hc. induction Hc as [|c [|d cs] Hn Hc IH]; [done|by apply split_on_lacks|].
  by rewrite string_concat_cons, split_on_app, split_on_lacks, IH.
Qed.

Lemma concat_split s : String.concat "/" (split_on is_slash s) = s.
Proof.
  induction s as [|c s IH]; [done|]. cbn [split_on].
  destruct (split_on is_slash s) as [|w ws] eqn:E; [by destruct (split_on_nonnil is_slash s)|].
  destruct (is_slash c) eqn:Hc.
  - apply bool_decide_eq_true in Hc as ->. rewrite string_concat_cons, IH. done.
  - destruct ws as [|w' ws]; [by rewrite <- IH|].
    rewrite string_concat_cons in *. cbn [String.append]. by rewrite IH.
Qed.

Lemma lacks_app p a b : lacks p (a ++ b) = lacks p a && lacks p b.
Proof. induction a as [|x a IH]; cbn; [done|]. by rewrite IH, andb_assoc. Qed.

Lemma ends_with_last_app p a b : b ≠ "" → ends_with p (a ++ b) = ends_with p b.
Proof.
  intros Hb. induction a as [|x a IH]; [done|].
  change (ends_with p (String x (a ++ b)) = ends_with p b).
  rewrite ends_with_cons; [done|]. by destruct a, b.
Qed.

Lemma ends_with_mono (p q : ascii → bool) s :
  (∀ c, p c = true → q c = true) → ends_with q s = false → ends_with p s = false.
Proof.
  intros Hpq. induction s as [|c [|d s] IH]; intros H; [done| |by apply IH].
  cbn in *. destruct (p c) eqn:E; [|done]. apply Hpq in E. congruence.
Qed.

Lemma lacks_ends p s : lacks p s = true → ends_with p s = false.
Proof.
  induction s as [|c [|d s] IH]; cbn; [done|..]; intros [H1 H2]%andb_prop; [|by apply IH].
  by apply negb_true_iff in H1.
Qed.

(** A join of non-empty components that do not end in a slash neither is
    empty nor ends in one. *)
Lemma concat_plain cs :
  cs ≠ [] → Forall (λ c, c ≠ "" ∧ ends_with is_slash c = false) cs →
  String.concat "/" cs ≠ "" ∧ ends_with is_slash (String.concat "/" cs) = false.
Proof.
  intros Hne Hc. induction Hc as [|c [|d cs] [Hn Hs] Hc IH]; [done|done|].
  rewrite string_concat_cons. destruct IH as [IH1 IH2]; [done|]. split; [by destruct c|].
  rewrite ends_with_last_app by done. by rewrite ends_with_cons.
Qed.

Lemma string_concat_app cs ds :
  cs ≠ [] → ds ≠ [] →
  String.concat "/" (cs ++ ds) = (String.concat "/" cs ++ String slash (String.concat "/" ds))%string.
Proof.
  intros Hc Hd. induction cs as [|c cs IH]; [done|]. destruct cs as [|c' cs].
  - by destruct ds.
  - rewrite <- app_comm_cons, string_concat_cons, append_assoc. cbn [String.append].
    rewrite <- IH by done. by rewrite <- app_comm_cons.
Qed.

Lemma length_append a b : String.length (a ++ b) = String.length a + String.length b.
Proof. induction a as [|x a IH]; cbn; [done|by rewrite IH]. Qed.

Lemma get_append a b : String.get (String.length a) (a ++ b) = String.get 0 b.
Proof. induction a as [|x a IH]; cbn; [done|by rewrite IH]. Qed.

Lemma mem_char_app c a b : mem_char c (a ++ b) = mem_char c a || mem_char c b.
Proof. induction a as [|x a IH]; cbn; [done|]. by rewrite IH, orb_assoc. Qed.

Lemma slen_app s t : slen (s ++ t) = (slen s + slen t)%N.
Proof. unfold slen. rewrite length_append. lia. Qed.

(** ** The byte order *)
Lemma ascii_compare_trans a b c :
  Ascii.compare a b = Lt → Ascii.compare b c = Lt → Ascii.compare a c = Lt.
Proof. unfold Ascii.compare. rewrite !N.compare_lt_iff. lia. Qed.

Lemma string_compare_trans a b c :
  String.compare a b = Lt → String.compare b c = Lt → String.compare a c = Lt.
Proof.
  revert b c; induction a as [|x a IH]; intros [|y b] [|z c]; cbn; try done.
  destruct (Ascii.compare x y) eqn:E1, (Ascii.compare y z) eqn:E2; try done; intros H1 H2.
  - apply Ascii.compare_eq_iff in E1 as ->. rewrite E2. eauto.
  - apply Ascii.compare_eq_iff in E1 as ->. by rewrite E2.
  - apply Ascii.compare_eq_iff in E2 as ->. by rewrite E1.
  - by rewrite (ascii_compare_trans _ _ _ E1 E2).
Qed.

#[global] Instance str_le_trans : Transitive str_le.
Proof.
  intros a b c. unfold str_le, String.leb.
  destruct (String.compare a b) eqn:E1, (String.compare b c) eqn:E2; try done; intros _ _.
  - apply String.compare_eq_iff in E1 as ->. by rewrite E2.
  - apply String.compare_eq_iff in E1 as ->. by rewrite E2.
  - apply String.compare_eq_iff in E2 as ->. by rewrite E1.
  - by rewrite (string_compare_trans _ _ _ E1 E2).
Qed.

#[global] Instance str_le_total : Total str_le.
Proof. intros a b. apply String.leb_total. Qed.

#[global] Instance str_le_antisym : AntiSymm (=) str_le.
Proof. intros a b. apply String.leb_antisym. Qed.

(** ** Maps with string keys: [BTreeMap::values], in the order of the keys *)
Definition key_le {A} (a b : string * A) : Prop := str_le a.1 b.1.
#[global] Instance key_le_dec {A} : RelDecision (@key_le A).
Proof. intros a b. unfold key_le. apply _. Defined.
Definition values {A} (m : gmap string A) : list A := (merge_sort key_le (map_to_list m)).*2.
Lemma values_perm {A} (m : gmap string A) : values m ≡ₚ (map_to_list m).*2.
Proof. unfold values. by rewrite merge_sort_Permutation. Qed.
Lemma elem_of_values {A} (m : gmap string A) x : x ∈ values m ↔ ∃ k, m !! k = Some x.
Proof.
  rewrite values_perm, list_elem_of_fmap. split.
  - intros ([k y] & -> & Hk%elem_of_map_to_list). eauto.
  - intros [k Hk%elem_of_map_to_list]. by exists (k, x).
Qed.
