(* ===== verification/Bytes.v ===== *)
(** * Strings as bytes

    UTF-8 as [str::from_utf8] accepts it, with the lemmas about its scalars,
    and digests as hexadecimal text ([crates/core/src/hash.rs]). *)
From S2P Require Import Prelude Strings.
#[local] Open Scope string_scope.
#[local] Open Scope nat_scope.

(** ** [str] as bytes *)
Definition byte_in (lo hi : N) (c : ascii) : bool :=
  (lo <=? N_of_ascii c)%N && (N_of_ascii c <=? hi)%N.

(** A continuation byte [10xxxxxx]. *)
Definition is_cont (c : ascii) : bool := byte_in 128 191 c.

(** One scalar value in UTF-8, as [str::from_utf8] accepts it (no overlong
    form, no surrogate, nothing above U+10FFFF). *)
Definition uchar (w : string) : bool :=
  match w with
  | String a "" => byte_in 0 127 a
  | String a (String b "") => byte_in 194 223 a && is_cont b
  | String a (String b (String c "")) =>
      ((byte_in 224 224 a && byte_in 160 191 b) || (byte_in 225 236 a && is_cont b)
       || (byte_in 237 237 a && byte_in 128 159 b) || (byte_in 238 239 a && is_cont b))
      && is_cont c
  | String a (String b (String c (String d ""))) =>
      ((byte_in 240 240 a && byte_in 144 191 b) || (byte_in 241 243 a && is_cont b)
       || (byte_in 244 244 a && byte_in 128 143 b))
      && is_cont c && is_cont d
  | _ => false
  end.

(** [String::from_utf8(..).is_ok()] *)
Fixpoint utf8 (s : string) : bool :=
  match s with
  | EmptyString => true
  | String a s1 =>
      if uchar (String a "") then utf8 s1 else
      match s1 with
      | EmptyString => false
      | String b s2 =>
          if uchar (String a (String b "")) then utf8 s2 else
          match s2 with
          | EmptyString => false
          | String c s3 =>
              if uchar (String a (String b (String c ""))) then utf8 s3 else
              match s3 with
              | EmptyString => false
              | String d s4 =>
                  uchar (String a (String b (String c (String d "")))) && utf8 s4
              end
          end
      end
  end.

#[local] Arguments String.append !_ _ / : assert.
(** ** Well-formed UTF-8 *)
Inductive Utf8 : string → Prop :=
  | utf8_nil : Utf8 ""
  | utf8_char w r : uchar w = true → Utf8 r → Utf8 (w ++ r).

Lemma utf8_Utf8_len n s : String.length s ≤ n → utf8 s = true → Utf8 s.
Proof.
  revert s; induction n as [|n IH]; intros s Hn Hs; [destruct s; [constructor|cbn in *; lia]|].
  destruct s as [|a s]; [constructor|]. cbn [utf8] in Hs.
  destruct (uchar (String a "")) eqn:E1.
  { apply (utf8_char (String a "")); [done|apply IH; cbn in *; [lia|done]]. }
  destruct s as [|b s]; [done|].
  destruct (uchar (String a (String b ""))) eqn:E2.
  { apply (utf8_char (String a (String b ""))); [done|apply IH; cbn in *; [lia|done]]. }
  destruct s as [|c s]; [done|].
  destruct (uchar (String a (String b (String c "")))) eqn:E3.
  { apply (utf8_char (String a (String b (String c "")))); [done|apply IH; cbn in *; [lia|done]]. }
  destruct s as [|d s]; [done|]. apply andb_prop in Hs as [E4 Hs].
  apply (utf8_char (String a (String b (String c (String d ""))))); [done|].
  apply IH; cbn in *; [lia|done].
Qed.

Lemma utf8_Utf8 s : utf8 s = true → Utf8 s.
Proof. by apply (utf8_Utf8_len (String.length s)). Qed.

(** Split a boolean condition on bytes into its clauses. *)
Ltac ubytes :=
  repeat match goal with
  | H : _ && _ = true |- _ => apply andb_prop in H as [??]
  | H : _ || _ = true |- _ => apply orb_prop in H as [?|?]
  end; try done.

Lemma lead_byte_excl a lo hi lo' hi' :
  byte_in lo hi a = true → (hi < lo' ∨ hi' < lo)%N → byte_in lo' hi' a = false.
Proof.
  unfold byte_in. intros [Ha%N.leb_le Hb%N.leb_le]%andb_prop Hd.
  apply andb_false_iff. rewrite !N.leb_gt. lia.
Qed.

(** The first byte of a scalar decides its width. *)
Lemma uchar_utf8 w r : uchar w = true → utf8 (w ++ r) = utf8 r.
Proof.
  destruct w as [|a [|b [|c [|d [|e w]]]]]; try done; intros Hw; cbn [String.append utf8].
  - by rewrite Hw.
  - assert (uchar (String a "") = false) as ->.
    { cbn in Hw |- *. apply andb_prop in Hw as [H _]. apply (lead_byte_excl a _ _ _ _ H). lia. }
    by rewrite Hw.
  - assert (uchar (String a "") = false ∧ uchar (String a (String b "")) = false) as [-> ->].
    { cbn in Hw |- *. apply andb_prop in Hw as [H _].
      repeat apply orb_prop in H as [H|H]; apply andb_prop in H as [H _];
        split; rewrite ?(lead_byte_excl a _ _ 0 127 H), ?(lead_byte_excl a _ _ 194 223 H) by lia; done. }
    by rewrite Hw.
  - assert (uchar (String a "") = false ∧ uchar (String a (String b "")) = false
            ∧ uchar (String a (String b (String c ""))) = false) as (-> & -> & ->).
    { cbn in Hw |- *. apply andb_prop in Hw as [[H _]%andb_prop _].
      repeat apply orb_prop in H as [H|H]; apply andb_prop in H as [H _];
        repeat split; rewrite ?(lead_byte_excl a _ _ 0 127 H), ?(lead_byte_excl a _ _ 194 223 H),
          ?(lead_byte_excl a _ _ 224 224 H), ?(lead_byte_excl a _ _ 225 236 H),
          ?(lead_byte_excl a _ _ 237 237 H), ?(lead_byte_excl a _ _ 238 239 H) by lia; done. }
    by rewrite Hw.
Qed.

Lemma Utf8_iff s : Utf8 s ↔ utf8 s = true.
Proof.
  split; [|apply utf8_Utf8]. induction 1 as [|w r Hw Hr IH]; [done|]. by rewrite uchar_utf8.
Qed.

Lemma utf8_app_l a b : utf8 a = true → utf8 (a ++ b) = utf8 b.
Proof.
  intros H%Utf8_iff. induction H as [|w r Hw Hr IH]; [done|].
  by rewrite append_assoc, uchar_utf8.
Qed.

(** ** Digests as text ([crates/core/src/hash.rs]) *)
Definition hexval (c : ascii) : option N :=
  let n := N_of_ascii c in
  if byte_in 48 57 c then Some (n - 48)%N
  else if byte_in 97 102 c then Some (n - 97 + 10)%N
  else if byte_in 65 70 c then Some (n - 65 + 10)%N
  else None.

Fixpoint hex_pairs (s : string) : option string :=
  match s with
  | EmptyString => Some EmptyString
  | String a (String b s') =>
      match hexval a, hexval b, hex_pairs s' with
      | Some hi, Some lo, Some t => Some (String (ascii_of_N (N.lor (N.shiftl hi 4) lo)) t)
      | _, _, _ => None
      end
  | String _ EmptyString => None
  end.

Definition from_hex (hex : string) : option string :=
  if negb (String.length hex =? 64) then None else hex_pairs hex.

Definition hex_digit (n : N) : ascii :=
  if (n <? 10)%N then ascii_of_N (48 + n) else ascii_of_N (87 + n).

Fixpoint to_hex (h : string) : string :=
  match h with
  | EmptyString => EmptyString
  | String c h' =>
      String (hex_digit (N_of_ascii c / 16)) (String (hex_digit (N_of_ascii c mod 16)) (to_hex h'))
  end.

Lemma hexval_digit n : (n < 16)%N → hexval (hex_digit n) = Some n.
Proof.
  intros H. destruct n as [|p]; [done|].
  do 4 (try (destruct p as [p|p|])); try done; lia.
Qed.

Lemma hex_byte a :
  ascii_of_N (N.lor (N.shiftl (N_of_ascii a / 16) 4) (N_of_ascii a mod 16)) = a.
Proof. by destruct a as [[] [] [] [] [] [] [] []]. Qed.

Lemma hex_pairs_to_hex h : hex_pairs (to_hex h) = Some h.
Proof.
  induction h as [|a h IH]; [done|]. cbn [to_hex hex_pairs].
  assert (N_of_ascii a < 256)%N by (apply N_ascii_bounded).
  rewrite !hexval_digit, IH, hex_byte; [done| |].
  - apply N.mod_lt. done.
  - apply N.Div0.div_lt_upper_bound. lia.
Qed.

Lemma from_hex_to_hex h h' : from_hex (to_hex h) = Some h' → h' = h.
Proof. unfold from_hex. destruct (negb _); [done|]. rewrite hex_pairs_to_hex. congruence. Qed.
