(* ===== verification/Ownership.v ===== *)
(** * Ownership sets of the scheduler

    [crates/scheduler/src/lib.rs] (the ownership half) and
    [crates/scheduler/src/path_identity.rs]: the sorted path lists two
    operations are serialised by, the overlap test on their entries, and the
    lexical normal form an entry is brought to before it is compared.
    The model is the Unix build: [cfg!(windows)] and [cfg!(target_os)] are
    both false there, so [normalize_owned_path] is the identity and
    [Path::join] inserts one [/]. *)
From S2P Require Import Prelude Strings.
From stdpp Require Import sorting.
#[local] Open Scope string_scope.

(** ** [OwnershipSet] *)
Definition OwnershipSet : Type := list string.

Definition WORKSPACE_ROOT_SENTINEL : string := "**".

Module OwnershipSet.
Definition new (paths : list string) : OwnershipSet :=
  dedup (merge_sort str_le paths).

Definition is_empty (s : OwnershipSet) : bool :=
  match s with [] => true | _ => false end.

Definition workspace_root : OwnershipSet := [WORKSPACE_ROOT_SENTINEL].

Definition entries (s : OwnershipSet) : list string := s.
End OwnershipSet.

(** On the Unix build both [cfg!] arms are compiled out. *)
Definition normalize_owned_path (s : string) : string := s.

Definition path_overlaps (a0 b0 : string) : bool :=
  if bool_decide (a0 = WORKSPACE_ROOT_SENTINEL)
     || bool_decide (b0 = WORKSPACE_ROOT_SENTINEL) then true
  else
    let a := normalize_owned_path a0 in
    let b := normalize_owned_path b0 in
    if bool_decide (a = b) then true
    else
      let a_dir := ends_with is_slash a in
      let b_dir := ends_with is_slash b in
      if a_dir && starts_with (trim_end_matches is_slash a ++ "/")
                              (trim_end_matches is_slash b)
      then true
      else if b_dir && starts_with (trim_end_matches is_slash b ++ "/")
                                   (trim_end_matches is_slash a)
      then true
      else false.

Definition overlaps (s o : OwnershipSet) : bool :=
  existsb (λ a, existsb (λ b, path_overlaps a b) o) s.

(** ** [path_identity.rs]

    A [PathBuf] under construction is the list of its components, last
    first: [push] conses, [pop] drops the head and fails on the empty path. *)
Fixpoint lexical_components (parts : list string) (out : list string) :
    option (list string) :=
  match parts with
  | [] => Some (rev out)
  | part :: ps =>
      if bool_decide (part = "") || bool_decide (part = ".") then
        lexical_components ps out
      else if bool_decide (part = "..") then
        match out with
        | [] => None
        | _ :: out' => lexical_components ps out'
        end
      else lexical_components ps (part :: out)
  end.

Definition lexical_relative (rel : string) : option (list string) :=
  lexical_components (split_on is_sep rel) [].

(** [Path::join] of a relative path, and of a spelling that may be absolute. *)
Definition join_components (comps : list string) : string :=
  String.concat "/" comps.
Definition path_join (base rel : string) : string :=
  match rel with
  | String c _ =>
      if is_slash c then rel
      else if ends_with is_slash base || bool_decide (base = "") then base ++ rel
      else base ++ "/" ++ rel
  | EmptyString => if ends_with is_slash base then base else base ++ "/"
  end.

Section Canonicalized.
(** [std::fs::canonicalize]: resolves links of an existing path. *)
Context (fs_canonicalize : string → option string).

Definition canonical_entry (base p : string) : option string :=
  if bool_decide (p = WORKSPACE_ROOT_SENTINEL) then Some p
  else
    let is_dir := ends_with is_sep p in
    let trimmed := trim_end_matches is_sep p in
    if bool_decide (trimmed = "") then None
    else
      let finish joined :=
        let s := default joined (fs_canonicalize joined) in
        Some (if is_dir then s ++ "/" else s) in
      match lexical_relative trimmed with
      | Some [] => None
      | Some rel => finish (path_join base (join_components rel))
      | None => finish (path_join base trimmed)
      end.

Definition canonicalized (base0 : string) (s : OwnershipSet) : OwnershipSet :=
  let base := default base0 (fs_canonicalize base0) in
  dedup (merge_sort str_le (omap (canonical_entry base) s)).
End Canonicalized.

(** ** The overlap test *)
Lemma path_overlaps_sym a b : path_overlaps a b = path_overlaps b a.
Proof.
  unfold path_overlaps, normalize_owned_path.
  repeat case_bool_decide; cbn; try naive_solver.
  destruct (ends_with is_slash a), (ends_with is_slash b); cbn; try done;
    by repeat match goal with |- context [if ?b then _ else _] => destruct b end.
Qed.

Lemma overlaps_true s o :
  overlaps s o = true ↔ ∃ a b, a ∈ s ∧ b ∈ o ∧ path_overlaps a b = true.
Proof.
  unfold overlaps. rewrite existsb_exists. setoid_rewrite existsb_exists.
  setoid_rewrite list_elem_of_In. naive_solver.
Qed.

Lemma overlaps_sym s o : overlaps s o = overlaps o s.
Proof.
  apply eq_true_iff_eq. rewrite !overlaps_true.
  setoid_rewrite path_overlaps_sym at 1. naive_solver.
Qed.

(** ** What an entry owns

    A plain path names one file; a [/]-terminated entry owns what is below it,
    the sentinel owns everything, any other entry the path it spells. *)
Definition plain (f : string) : Prop := f ≠ "" ∧ ends_with is_slash f = false.

Definition owns (e f : string) : Prop :=
  e = WORKSPACE_ROOT_SENTINEL
  ∨ (ends_with is_slash e = false ∧ e = f)
  ∨ (ends_with is_slash e = true
     ∧ ∃ t, f = (trim_end_matches is_slash e ++ "/" ++ t)%string).

Definition set_owns (s : OwnershipSet) (f : string) : Prop :=
  ∃ e, e ∈ s ∧ owns e f.

Definition entry_ok (e : string) : Prop :=
  e ≠ "" ∧ (ends_with is_slash e = true → e = (trim_end_matches is_slash e ++ "/")%string).

Lemma owns_some e : entry_ok e → ∃ f, plain f ∧ owns e f.
Proof.
  intros [Hne Hd]. unfold owns, plain. destruct (ends_with is_slash e) eqn:E; [|by exists e; auto].
  exists (trim_end_matches is_slash e ++ "/" ++ "x")%string. split; [|by eauto].
  split; [by destruct (trim_end_matches is_slash e)|].
  by rewrite <- append_assoc, ends_with_app.
Qed.

Lemma path_overlaps_true a b :
  path_overlaps a b = true ↔
  a = WORKSPACE_ROOT_SENTINEL ∨ b = WORKSPACE_ROOT_SENTINEL ∨ a = b
  ∨ (ends_with is_slash a = true
     ∧ ∃ t, trim_end_matches is_slash b = (trim_end_matches is_slash a ++ "/" ++ t)%string)
  ∨ (ends_with is_slash b = true
     ∧ ∃ t, trim_end_matches is_slash a = (trim_end_matches is_slash b ++ "/" ++ t)%string).
Proof.
  unfold path_overlaps, normalize_owned_path.
  pose proof (starts_with_spec (trim_end_matches is_slash a ++ "/")
                (trim_end_matches is_slash b)) as H1.
  pose proof (starts_with_spec (trim_end_matches is_slash b ++ "/")
                (trim_end_matches is_slash a)) as H2.
  setoid_rewrite append_assoc in H1. setoid_rewrite append_assoc in H2.
  rewrite <- H1, <- H2. clear H1 H2.
  repeat case_bool_decide; cbn; try (split; [by auto|done]).
  destruct (ends_with is_slash a), (ends_with is_slash b), (starts_with _ _),
    (starts_with _ _); cbn; intuition congruence.
Qed.

(** Two directories that both lie above one path are comparable. *)
Lemma dirs_comparable a b t u :
  (a ++ "/" ++ t = b ++ "/" ++ u)%string →
  a = b ∨ (∃ v, b = a ++ "/" ++ v)%string ∨ (∃ v, a = b ++ "/" ++ v)%string.
Proof.
  intros H. rewrite <- (append_assoc a), <- (append_assoc b) in H.
  destruct (prefix_comparable _ _ _ _ H) as [[v Hv]|[v Hv]];
    destruct (append_snoc_inv _ _ _ _ Hv) as [Hx|[w Hw]];
    try (rewrite append_assoc in Hw; by eauto); left;
    apply append_inj_r in Hx; done.
Qed.

(** A directory shares a path with every entry spelled below it. *)
Lemma below_shares a b t :
  entry_ok a → entry_ok b → ends_with is_slash a = true →
  trim_end_matches is_slash b = (trim_end_matches is_slash a ++ "/" ++ t)%string →
  ∃ f, plain f ∧ owns a f ∧ owns b f.
Proof.
  intros Ha Hb Hd Ht. destruct (decide (b = WORKSPACE_ROOT_SENTINEL)) as [->|Hs].
  { destruct (owns_some a Ha) as (f & Hf & Ho). exists f. unfold owns at 2. auto. }
  destruct (owns_some b Hb) as (f & Hf & Ho). exists f. split_and!; [done| |done].
  right; right. split; [done|]. destruct Ho as [|[[Hn <-]|[He [u ->]]]]; [done|..].
  - exists t. rewrite <- Ht. symmetry. by apply trim_id.
  - exists (t ++ "/" ++ u)%string. by rewrite Ht, !append_assoc.
Qed.

Lemma path_overlaps_share a b :
  entry_ok a → entry_ok b →
  path_overlaps a b = true ↔ ∃ f, plain f ∧ owns a f ∧ owns b f.
Proof.
  intros Ha Hb. rewrite path_overlaps_true. split.
  - intros [->|[->|[->|[[Hd [t Ht]]|[Hd [t Ht]]]]]].
    + destruct (owns_some b Hb) as (f & Hf & Ho). exists f. unfold owns at 1. auto.
    + destruct (owns_some a Ha) as (f & Hf & Ho). exists f. unfold owns at 2. auto.
    + destruct (owns_some b Hb) as (f & Hf & Ho). eauto.
    + by apply (below_shares a b t).
    + destruct (below_shares b a t) as (f & ? & ? & ?); eauto.
  - intros (f & Hf & [->|[[Ha1 ->]|[Ha1 [t Ht]]]] & [->|[[Hb1 ->]|[Hb1 [u Hu]]]]); auto.
    + right; right; right; right. split; [done|]. exists u. by rewrite trim_id.
    + right; right; right; left. split; [done|]. exists t. by rewrite trim_id.
    + destruct Ha as [_ Ha], Hb as [_ Hb].
      destruct (dirs_comparable (trim_end_matches is_slash a) (trim_end_matches is_slash b) t u)
        as [He|[Hv|Hv]]; [congruence|..|by auto 10|by auto 10].
      right; right; left. rewrite (Ha Ha1), (Hb Hb1), He. done.
Qed.

(** ** Sorting and deduplicating *)
Lemma elem_of_dedup x l : x ∈ dedup l ↔ x ∈ l.
Proof.
  induction l as [|y l IH]; [done|]. cbn.
  destruct (dedup l) as [|z d].
  - rewrite list_elem_of_singleton, elem_of_cons, <- IH. set_solver.
  - case_decide; subst; rewrite ?elem_of_cons, <- IH; set_solver.
Qed.

Lemma dedup_sorted l :
  StronglySorted str_le l → StronglySorted str_le (dedup l) ∧ NoDup (dedup l).
Proof.
  induction 1 as [|x l Hs [IHs IHn] Hx]; cbn; [by split; constructor|].
  pose proof (λ y, elem_of_dedup y l) as Hm.
  destruct (dedup l) as [|y d]; [by split; repeat constructor; set_solver|].
  case_decide as E; [done|]. rewrite Forall_forall in Hx.
  apply StronglySorted_cons in IHs as [Hy IHs]. rewrite Forall_forall in Hy.
  split.
  - constructor; [by constructor; [|rewrite Forall_forall]|].
    rewrite Forall_forall. intros z Hz. apply Hx. by apply Hm.
  - constructor; [|done]. intros Hin. apply elem_of_cons in Hin as [|Hin]; [done|].
    apply E. apply (anti_symm str_le); [apply Hx, Hm; set_solver|by apply Hy].
Qed.

Lemma elem_of_new x l : x ∈ OwnershipSet.new l ↔ x ∈ l.
Proof. unfold OwnershipSet.new. by rewrite elem_of_dedup, merge_sort_Permutation. Qed.

Lemma new_sorted l :
  StronglySorted str_le (OwnershipSet.new l) ∧ NoDup (OwnershipSet.new l).
Proof. apply dedup_sorted, StronglySorted_merge_sort; apply _. Qed.

Lemma sorted_ext l k :
  StronglySorted str_le l → NoDup l → StronglySorted str_le k → NoDup k →
  (∀ x, x ∈ l ↔ x ∈ k) → l = k.
Proof.
  intros. apply (StronglySorted_unique str_le); [done..|]. by apply NoDup_Permutation.
Qed.

(** ** The lexical normal form *)
Notation no_sep := (lacks is_sep).

Definition proper (c : string) : Prop :=
  c ≠ "" ∧ c ≠ "." ∧ c ≠ ".." ∧ no_sep c = true.

Lemma lexical_components_proper parts out cs :
  Forall (λ w, no_sep w = true) parts → Forall proper out →
  lexical_components parts out = Some cs → Forall proper cs.
Proof.
  revert out; induction parts as [|p ps IH]; intros out Hp Ho; cbn.
  { intros [= <-]. by apply Forall_rev. }
  inversion_clear Hp as [|? ? Hn Hps].
  repeat case_bool_decide; cbn; eauto.
  - destruct out; [done|]. inversion_clear Ho; eauto.
  - apply IH; [done|]. constructor; [|done]. unfold proper; naive_solver.
Qed.

Lemma lexical_relative_proper rel cs : lexical_relative rel = Some cs → Forall proper cs.
Proof. apply lexical_components_proper; [apply split_lacks|constructor]. Qed.

Lemma lexical_components_id cs out :
  Forall proper cs → lexical_components cs out = Some (rev out ++ cs)%list.
Proof.
  revert out; induction cs as [|c cs IH]; intros out Hc; cbn; [by rewrite app_nil_r|].
  inversion_clear Hc as [|? ? (H1 & H2 & H3 & _) Hcs].
  rewrite !bool_decide_eq_false_2 by done. cbn. rewrite IH by done. cbn.
  by rewrite <- app_assoc.
Qed.

Lemma split_on_join cs :
  cs ≠ [] → Forall proper cs → split_on is_sep (join_components cs) = cs.
Proof.
  intros Hne Hc. apply split_on_concat; [done|done|]. eapply Forall_impl; [done|].
  by intros c (_ & _ & _ & ?).
Qed.

(** Normalising a spelling is idempotent: the normal form has only proper
    components (no empty one, no [.] or [..], no separator inside), and
    spelling it with single slashes and normalising again gives it back. *)
Theorem lexical_relative_idempotent rel cs :
  lexical_relative rel = Some cs →
  Forall proper cs ∧ lexical_relative (join_components cs) = Some cs.
Proof.
  intros H. pose proof (lexical_relative_proper _ _ H) as Hp. split; [done|].
  unfold lexical_relative. destruct cs as [|c cs]; [done|].
  rewrite split_on_join by done. by rewrite lexical_components_id.
Qed.

Lemma lexical_relative_idempotent_witness :
  lexical_relative "src//x/./../a.rs" = Some ["src"; "a.rs"]
  ∧ lexical_relative (join_components ["src"; "a.rs"]) = Some ["src"; "a.rs"].
Proof.
  split; [vm_compute; reflexivity|].
  apply (lexical_relative_idempotent "src//x/./../a.rs"). vm_compute. reflexivity.
Defined.

(** ** Canonicalised sets *)
Lemma no_sep_ends s : no_sep s = true → ends_with is_slash s = false.
Proof.
  induction s as [|c [|d s] IH]; cbn; [done|..]; intros [H1 H2]%andb_prop; [|by apply IH].
  apply negb_true_iff in H1. unfold is_sep, is_slash in *. by destruct (bool_decide (c = slash)).
Qed.

Lemma join_components_plain cs : cs ≠ [] → Forall proper cs → plain (join_components cs).
Proof.
  intros Hne Hc. apply concat_plain; [done|]. eapply Forall_impl; [done|].
  intros c (Hn & _ & _ & Hs). split; [done|by apply no_sep_ends].
Qed.

Lemma path_join_plain base rel : plain base → plain rel → plain (path_join base rel).
Proof.
  intros [Hb1 Hb2] [Hr1 Hr2]. unfold path_join. destruct rel as [|c r]; [done|].
  destruct (is_slash c); [done|]. rewrite Hb2, bool_decide_eq_false_2 by done. cbn [orb].
  split; [by destruct base|]. rewrite ends_with_last_app by done. done.
Qed.

Lemma entry_ok_plain e : plain e → entry_ok e.
Proof. intros [? He]. split; [done|]. by rewrite He. Qed.

Lemma entry_ok_dir e : plain e → entry_ok (e ++ "/").
Proof.
  intros [? He]. split; [by destruct e|]. intros _. by rewrite trim_app_end.
Qed.

Section Canonical.
Context (fs_canonicalize : string → option string).
(** [std::fs::canonicalize] returns an absolute path without a trailing
    separator; the root of the file system is not inside a workspace. *)
Context (canonicalize_plain : ∀ p q, fs_canonicalize p = Some q → plain q).

Lemma default_plain p : plain p → plain (default p (fs_canonicalize p)).
Proof.
  intros Hp. destruct (fs_canonicalize p) as [q|] eqn:E; cbn; [|done].
  by apply canonicalize_plain in E.
Qed.

Lemma canonical_entry_ok base p e :
  plain base → canonical_entry fs_canonicalize base p = Some e → entry_ok e.
Proof.
  intros Hb. unfold canonical_entry.
  case_bool_decide; [intros [= <-]; subst; by apply entry_ok_plain|].
  case_bool_decide as Ht; [done|]. cbn zeta.
  assert (plain (trim_end_matches is_sep p)) as Hp.
  { split; [done|]. apply (ends_with_mono _ is_sep); [|apply trim_no_end].
    unfold is_slash, is_sep. intros c ->. done. }
  assert (∀ j, plain j →
            (let s := default j (fs_canonicalize j) in
             Some (if ends_with is_sep p then s ++ "/" else s)) = Some e → entry_ok e) as Hfin.
  { intros j Hj%default_plain. cbn zeta. intros [= <-].
    destruct (ends_with is_sep p); [by apply entry_ok_dir|by apply entry_ok_plain]. }
  destruct (lexical_relative _) as [[|c cs]|] eqn:E; [done|..]; apply Hfin;
    apply path_join_plain; try done.
  apply join_components_plain; [done|]. by eapply lexical_relative_proper.
Qed.

Lemma canonicalized_ok base s e :
  plain base → e ∈ canonicalized fs_canonicalize base s → entry_ok e.
Proof.
  intros Hb. unfold canonicalized. rewrite elem_of_dedup, merge_sort_Permutation.
  intros (p & _ & He)%list_elem_of_omap. eapply canonical_entry_ok, He. by apply default_plain.
Qed.

(** The overlap test that serialises edits is exact on canonicalised
    ownership sets: it says yes if and only if some file path is owned by both
    sets, a directory entry owning everything below it at a component
    boundary and [**] owning everything.  So disjoint operations never touch a
    common path, and operations that share none are never serialised. *)
Theorem canonicalized_overlap_exact base s o :
  plain base →
  let S1 := canonicalized fs_canonicalize base s in
  let S2 := canonicalized fs_canonicalize base o in
  overlaps S1 S2 = true ↔ ∃ f, plain f ∧ set_owns S1 f ∧ set_owns S2 f.
Proof.
  intros Hb; cbn zeta. rewrite overlaps_true. unfold set_owns. split.
  - intros (a & b & Ha & Hb' & H).
    apply path_overlaps_share in H as (f & ? & ? & ?); eauto 10 using canonicalized_ok.
  - intros (f & Hf & (a & Ha & Hoa) & (b & Hb' & Hob)). exists a, b. split_and!; [done..|].
    apply path_overlaps_share; eauto using canonicalized_ok.
Qed.
End Canonical.

(** The identity resolver of a workspace without links. *)
Definition no_links (p : string) : option string :=
  if bool_decide (p = "/w") then Some "/w" else None.

Lemma canonicalized_overlap_exact_witness :
  overlaps (canonicalized no_links "/w" ["./src/"]) (canonicalized no_links "/w" ["src//a.rs"]) = true
  ∧ ∃ f, plain f ∧ set_owns (canonicalized no_links "/w" ["./src/"]) f
         ∧ set_owns (canonicalized no_links "/w" ["src//a.rs"]) f.
Proof.
  split; [vm_compute; reflexivity|].
  apply (canonicalized_overlap_exact no_links); [|done|vm_compute; reflexivity].
  unfold no_links. intros p q. case_bool_decide; [|done]. by intros [= <-].
Defined.

(** An ownership set is a canonical form: it depends only on which paths
    were declared, not on their order or repetition, so two registrations
    with the same declared paths compare equal. *)
Theorem ownership_new_canonical l k :
  (∀ x, x ∈ l ↔ x ∈ k) ↔ OwnershipSet.new l = OwnershipSet.new k.
Proof.
  split.
  - intros H. destruct (new_sorted l), (new_sorted k). apply sorted_ext; [done..|].
    intros x. by rewrite !elem_of_new.
  - intros H x. by rewrite <- (elem_of_new x l), H, elem_of_new.
Qed.

(** Entries that are not canonical can escape the test: [src//] and [src/]
    both own [src/a.rs] and do not overlap. *)
Example double_slash_escapes :
  path_overlaps "src//" "src/" = false ∧ owns "src//" "src/a.rs" ∧ owns "src/" "src/a.rs".
Proof.
  split; [by vm_compute|]. split; right; right; (split; [done|]); by exists "a.rs".
Qed.

(** ** Disjointness, component by component

    What the test is for, said without strings: a path is a list of
    components, absolute or not; a file entry touches the one path it spells,
    a directory entry every path strictly below it, the sentinel every
    path. *)
Definition segment (c : string) : Prop :=
  c ≠ "" ∧ c ≠ "." ∧ c ≠ ".." ∧ lacks is_slash c = true.

Record owned_path := MkPath { is_abs : bool; comps : list string }.

Definition path_ok (p : owned_path) : Prop := comps p ≠ [] ∧ Forall segment (comps p).

Definition spelled (p : owned_path) : string :=
  (if is_abs p then "/" else "") ++ join_components (comps p).

(** An entry in canonical spelling: one separator between components, no [.]
    and no [..], at most one trailing separator. *)
Definition canonical (e : string) : Prop :=
  e = WORKSPACE_ROOT_SENTINEL
  ∨ ∃ p, path_ok p ∧ (e = spelled p ∨ e = (spelled p ++ "/")%string).

Definition touches (e : string) (p : owned_path) : Prop :=
  e = WORKSPACE_ROOT_SENTINEL ∨ e = spelled p
  ∨ ∃ up below, up ≠ [] ∧ below ≠ [] ∧ comps p = (up ++ below)%list
                ∧ e = (spelled (MkPath (is_abs p) up) ++ "/")%string.

Definition set_touches (s : OwnershipSet) (p : owned_path) : Prop := ∃ e, e ∈ s ∧ touches e p.

(** No path is touched by both sets. *)
Definition disjoint_sets (s o : OwnershipSet) : Prop :=
  ∀ p, path_ok p → ¬ (set_touches s p ∧ set_touches o p).

Lemma segment_plain c : segment c → c ≠ "" ∧ ends_with is_slash c = false.
Proof. intros (? & _ & _ & ?). split; [done|by apply lacks_ends]. Qed.

Lemma spelled_plain p : path_ok p → plain (spelled p).
Proof.
  intros [Hne Hc]. destruct (concat_plain (comps p) Hne) as [H1 H2].
  { eapply Forall_impl; [exact Hc|]. apply segment_plain. }
  unfold spelled, join_components. destruct (is_abs p); [|done]. split; [done|].
  by rewrite ends_with_last_app.
Qed.

Lemma spelled_below a up below :
  up ≠ [] → below ≠ [] →
  spelled (MkPath a (up ++ below)) = (spelled (MkPath a up) ++ "/" ++ join_components below)%string.
Proof.
  intros. unfold spelled, join_components. cbn [is_abs comps].
  rewrite string_concat_app by done. by rewrite append_assoc.
Qed.

Lemma canonical_ok e : canonical e → entry_ok e.
Proof.
  intros [->|(p & Hp%spelled_plain & [-> | ->])];
    [by apply entry_ok_plain|by apply entry_ok_plain|by apply entry_ok_dir].
Qed.

Lemma touches_owns e p : path_ok p → touches e p → owns e (spelled p).
Proof.
  intros Hp [->|[->|(up & below & Hu & Hb & Hc & ->)]].
  - by left.
  - right; left. split; [by apply spelled_plain|done].
  - destruct p as [a cs]. cbn in Hc. subst cs. right; right.
    assert (plain (spelled (MkPath a up))) as [_ Hpl].
    { apply spelled_plain. split; [done|]. cbn. destruct Hp as [_ Hc]. cbn in Hc.
      by apply Forall_app in Hc as [? _]. }
    split; [by rewrite ends_with_last_app|]. exists (join_components below).
    rewrite spelled_below by done. by rewrite trim_app_end.
Qed.

(** The string test decides it: sets in canonical spelling that do not
    overlap are disjoint. *)
Lemma overlaps_false_disjoint s o :
  Forall canonical s → Forall canonical o → overlaps s o = false → disjoint_sets s o.
Proof.
  rewrite !Forall_forall. intros Hs Ho Hf p Hp [(a & Ha & Hta) (b & Hb & Htb)].
  apply not_true_iff_false in Hf. apply Hf, overlaps_true. exists a, b. split_and!; [done..|].
  apply path_overlaps_share; [by apply canonical_ok, Hs|by apply canonical_ok, Ho|].
  exists (spelled p). split_and!; [by apply spelled_plain|by apply touches_owns..].
Qed.

(** A set that has been through [canonicalized] is in canonical spelling, when
    [std::fs::canonicalize] answers absolute paths in normal form and every
    entry that climbs out of the base exists. *)
Section CanonicalSpelling.
Context (fs_canonicalize : string → option string).
Context (canonicalize_spells : ∀ p q, fs_canonicalize p = Some q →
           ∃ cs, path_ok (MkPath true cs) ∧ q = spelled (MkPath true cs)).

Lemma proper_segment c : proper c → segment c.
Proof.
  intros (? & ? & ? & Hs). split_and!; [done..|]. clear -Hs. induction c as [|x c IH]; [done|].
  cbn in *. apply andb_true_iff in Hs as [H1 H2]. rewrite IH by done. unfold is_sep, is_slash in *.
  by destruct (bool_decide (x = slash)).
Qed.

Lemma spelled_join a cs rel :
  path_ok (MkPath a cs) → rel ≠ [] → Forall segment rel →
  path_join (spelled (MkPath a cs)) (join_components rel) = spelled (MkPath a (cs ++ rel)).
Proof.
  intros Hp Hne Hr. pose proof (spelled_plain _ Hp) as [Hb1 Hb2].
  rewrite spelled_below by (done || apply Hp). unfold path_join.
  destruct rel as [|c rel]; [done|]. inversion_clear Hr as [|? ? (Hc & _ & _ & Hl) _].
  destruct c as [|x c]; [done|]. cbn in Hl. apply andb_true_iff in Hl as [Hx _].
  assert (∃ r, join_components (String x c :: rel) = String x r) as [r ->]
    by (destruct rel; cbn; eauto).
  apply negb_true_iff in Hx. rewrite Hx, Hb2, bool_decide_eq_false_2 by done. done.
Qed.

Lemma canonicalized_canonical base cs s :
  path_ok (MkPath true cs) → base = spelled (MkPath true cs) →
  Forall (λ p, lexical_relative (trim_end_matches is_sep p) ≠ None) s →
  Forall canonical (canonicalized fs_canonicalize base s).
Proof.
  intros Hcs -> Hs. apply Forall_forall. intros e. unfold canonicalized.
  rewrite elem_of_dedup, merge_sort_Permutation. intros (p & Hp & He)%list_elem_of_omap.
  rewrite Forall_forall in Hs. specialize (Hs _ Hp). unfold canonical_entry in He.
  case_bool_decide; [injection He as <-; by left|]. case_bool_decide; [done|]. cbn zeta in He.
  destruct (lexical_relative _) as [[|c rel]|] eqn:E; [done| |done].
  assert (∃ bs, path_ok (MkPath true bs)
            ∧ default (spelled (MkPath true cs)) (fs_canonicalize (spelled (MkPath true cs)))
              = spelled (MkPath true bs)) as (bs & Hbs & Eb).
  { destruct (fs_canonicalize (spelled (MkPath true cs))) as [q|] eqn:Eq; [|eauto].
    destruct (canonicalize_spells _ _ Eq) as (bs & ? & ->). eauto. }
  assert (Forall segment (c :: rel)) as Hrel.
  { eapply Forall_impl; [by eapply lexical_relative_proper|]. apply proper_segment. }
  rewrite Eb, spelled_join in He by done.
  assert (∃ ds, path_ok (MkPath true ds)
            ∧ default (spelled (MkPath true (bs ++ c :: rel)))
                (fs_canonicalize (spelled (MkPath true (bs ++ c :: rel))))
              = spelled (MkPath true ds)) as (ds & Hds & Ed).
  { destruct (fs_canonicalize (spelled (MkPath true (bs ++ c :: rel)))) as [q|] eqn:Eq.
    - destruct (canonicalize_spells _ _ Eq) as (ds & ? & ->). eauto.
    - exists (bs ++ c :: rel)%list. split; [|done]. split; cbn; [by destruct bs|].
      apply Forall_app. split; [apply Hbs|done]. }
  rewrite Ed in He. injection He as <-. right. exists (MkPath true ds). split; [done|].
  destruct (ends_with is_sep p); auto.
Qed.
End CanonicalSpelling.
