(* ===== verification/Resource.v ===== *)
(** * Resource classes and concurrency budgets ([core/src/resource.rs])

    The per-class limits and the gauge of in-flight operations.  [release]
    panics in the source when nothing is in flight: [None] here. *)
From S2P Require Import Prelude.

Inductive ResourceClass :=
  | CModel | CDiskRead | CDiskWrite | CCpu | CGit | CNetwork | CTerminal | CMcp
  | CIndexing.

#[global] Instance ResourceClass_eq_dec : EqDecision ResourceClass.
Proof. solve_decision. Defined.

Definition class_index (c : ResourceClass) : nat :=
  match c with
  | CModel => 0 | CDiskRead => 1 | CDiskWrite => 2 | CCpu => 3 | CGit => 4
  | CNetwork => 5 | CTerminal => 6 | CMcp => 7 | CIndexing => 8
  end.

Definition ALL_CLASSES : list ResourceClass :=
  [CModel; CDiskRead; CDiskWrite; CCpu; CGit; CNetwork; CTerminal; CMcp; CIndexing].

#[global] Instance ResourceClass_countable : Countable ResourceClass.
Proof.
  apply (inj_countable class_index (λ n, ALL_CLASSES !! n)). by intros [].
Defined.

Notation ResourceLimits := (gmap ResourceClass nat).
Notation ResourceGauge := (gmap ResourceClass nat).

Record ResourceBusy := MkBusy { busy_class : ResourceClass; used : nat; max : nat }.

Module ResourceLimits.
Definition default_limits : ResourceLimits :=
  list_to_map [(CModel, 1); (CDiskRead, 16); (CDiskWrite, 4); (CCpu, 2); (CGit, 1);
               (CNetwork, 8); (CTerminal, 2); (CMcp, 4); (CIndexing, 1)].

Definition get (l : ResourceLimits) (c : ResourceClass) : nat := default 1 (l !! c).
End ResourceLimits.

Module ResourceGauge.
Definition usage (g : ResourceGauge) (c : ResourceClass) : nat := default 0 (g !! c).

Definition try_acquire (g : ResourceGauge) (c : ResourceClass) (l : ResourceLimits) :
    result ResourceGauge ResourceBusy :=
  let u := usage g c in
  let m := ResourceLimits.get l c in
  if bool_decide (m ≤ u) then Err (MkBusy c u m) else Ok (<[c := S u]> g).

Definition release (g : ResourceGauge) (c : ResourceClass) : option ResourceGauge :=
  match usage g c with 0 => None | S u => Some (<[c := u]> g) end.

Lemma usage_insert g c d u :
  usage (<[c := u]> g) d = if decide (c = d) then u else usage g d.
Proof.
  unfold usage. case_decide as E; [subst; by rewrite lookup_insert_eq|by rewrite lookup_insert_ne].
Qed.

Lemma try_acquire_Ok g c l g' :
  try_acquire g c l = Ok g' ↔
  usage g c < ResourceLimits.get l c ∧ g' = <[c := S (usage g c)]> g.
Proof. unfold try_acquire. case_bool_decide; naive_solver lia. Qed.

Lemma release_Some g c g' :
  release g c = Some g' ↔ ∃ u, usage g c = S u ∧ g' = <[c := u]> g.
Proof. unfold release. destruct (usage g c); naive_solver. Qed.
End ResourceGauge.
