(* ===== verification/Scheduler.v ===== *)
(** * The session scheduler ([crates/scheduler/src/lib.rs])

    Operations form a dependency DAG; every edge has a policy saying which
    outcome of the upstream satisfies it.  A task runs once all its edges are
    satisfied, its ownership sets do not conflict with a running task's and
    its resource class has a free permit.

    Every critical section of the source (the code run under one
    [faktor_core::lock::recover(&self.inner)]) is one function on [Inner];
    the concurrent runner is the step relation [Sys.step], whose steps are
    those sections in any interleaving.  A panic of the source ([unwrap],
    indexing of a missing key, underflow of the gauge) is [None].  The
    iteration order of a [HashMap] is a list argument, any enumeration of the
    keys. *)
From S2P Require Import Prelude AgentMachine Ownership Resource.

Notation OpId := N (only parsing).
Notation TokenId := N (only parsing).

Inductive DependencyPolicy := Success | Terminal | Always.
Inductive TaskStatus := Pending | Running | Done | Failed | Cancelled | Blocked.

#[global] Instance DependencyPolicy_eq_dec : EqDecision DependencyPolicy.
Proof. solve_decision. Defined.
#[global] Instance TaskStatus_eq_dec : EqDecision TaskStatus.
Proof. solve_decision. Defined.

(** The retry policy's fields that decide whether to retry ([core/retry.rs]). *)
Inductive RetryClass := RetryNetwork | RetryRateLimited | RetryServerError | RetryAlways.
Record RetryPolicy := MkRetryPolicy { max_attempts : N; retry_class : RetryClass }.

Definition should_retry (p : RetryPolicy) (attempt : N) (retryable rate_limited : bool) : bool :=
  if (max_attempts p <=? U32.sat_add attempt 1)%N || negb retryable then false
  else match retry_class p with
       | RetryNetwork => negb rate_limited
       | RetryRateLimited | RetryServerError | RetryAlways => true
       end.

(** [Deadline::is_expired]. *)
Definition is_expired (at_ms now : Z) : bool := (at_ms <=? now)%Z.

(** [OpMeta]: the fields the scheduler reads.  The cancellation token is a
    shared object, named by its identity. *)
Record OpMeta := MkMeta {
  operation_id : OpId;
  op_session_id : N;
  deadline : Z;
  retry_policy : RetryPolicy;
  cancellation : TokenId;
}.

Record ScheduledOp := MkOp {
  meta : OpMeta;
  resource_class : ResourceClass;
  reads : OwnershipSet;
  writes : OwnershipSet;
  dependencies : list (OpId * DependencyPolicy);
}.

Record TaskState := MkTask {
  op : ScheduledOp;
  status : TaskStatus;
  error : option string;
  start_ms : Z;
  end_ms : option Z;
  remaining : nat;
  blocked : nat;
  dependents : list (OpId * DependencyPolicy);
}.

Definition with_status (st : TaskStatus) (t : TaskState) : TaskState :=
  MkTask (op t) st (error t) (start_ms t) (end_ms t) (remaining t) (blocked t) (dependents t).
Definition with_counts (r b : nat) (t : TaskState) : TaskState :=
  MkTask (op t) (status t) (error t) (start_ms t) (end_ms t) r b (dependents t).
Definition with_dependents (ds : list (OpId * DependencyPolicy)) (t : TaskState) : TaskState :=
  MkTask (op t) (status t) (error t) (start_ms t) (end_ms t) (remaining t) (blocked t) ds.
Definition with_start (ms : Z) (t : TaskState) : TaskState :=
  MkTask (op t) (status t) (error t) ms (end_ms t) (remaining t) (blocked t) (dependents t).
Definition with_end (e : option string) (ms : Z) (t : TaskState) : TaskState :=
  MkTask (op t) (status t) e (start_ms t) (Some ms) (remaining t) (blocked t) (dependents t).

Definition MAX_TASKS_PER_DAG : nat := 1024.
Definition MAX_DEPENDENCIES_PER_TASK : nat := 64.
Definition MAX_OWNERSHIP_PATHS : nat := 512.

Record Inner := MkInner {
  tasks : gmap OpId TaskState;
  gauge : ResourceGauge;
  ready : list OpId;
  running : gmap OpId (OwnershipSet * OwnershipSet);
  terminalized : gmap OpId N;
}.

Definition empty_inner : Inner := MkInner ∅ ∅ [] ∅ ∅.

Definition with_tasks (ts : gmap OpId TaskState) (g : Inner) : Inner :=
  MkInner ts (gauge g) (ready g) (running g) (terminalized g).
Definition set_task (id : OpId) (t : TaskState) (g : Inner) : Inner :=
  with_tasks (<[id := t]> (tasks g)) g.
Definition with_gauge (x : ResourceGauge) (g : Inner) : Inner :=
  MkInner (tasks g) x (ready g) (running g) (terminalized g).
Definition with_ready (q : list OpId) (g : Inner) : Inner :=
  MkInner (tasks g) (gauge g) q (running g) (terminalized g).
Definition push_ready (id : OpId) (g : Inner) : Inner := with_ready (ready g ++ [id]) g.
Definition with_running (m : gmap OpId (OwnershipSet * OwnershipSet)) (g : Inner) : Inner :=
  MkInner (tasks g) (gauge g) (ready g) m (terminalized g).
Definition with_terminalized (m : gmap OpId N) (g : Inner) : Inner :=
  MkInner (tasks g) (gauge g) (ready g) (running g) m.

(** ** Edge semantics *)
Definition edge_satisfied (policy : DependencyPolicy) (upstream : TaskStatus) : bool :=
  match policy with
  | Success => match upstream with Done => true | _ => false end
  | Terminal => match upstream with Done | Failed | Cancelled => true | _ => false end
  | Always => match upstream with Done | Failed | Cancelled | Blocked => true | _ => false end
  end.

Definition success_edge_dead (upstream : TaskStatus) : bool :=
  match upstream with Failed | Cancelled | Blocked => true | _ => false end.

Definition status_is_terminal (s : TaskStatus) : bool :=
  match s with Done | Failed | Cancelled | Blocked => true | _ => false end.

Definition is_pending (t : TaskState) : bool := bool_decide (status t = Pending).

Definition same_registration (a b : ScheduledOp) : bool :=
  bool_decide (operation_id (meta a) = operation_id (meta b))
  && bool_decide (op_session_id (meta a) = op_session_id (meta b))
  && bool_decide (resource_class a = resource_class b)
  && bool_decide (reads a = reads b)
  && bool_decide (writes a = writes b)
  && bool_decide (dependencies a = dependencies b).

(** ** [terminalize] *)

(** The satisfied-edge arm: one fewer pending dependency, and the dependent
    becomes ready when that was its last. *)
Definition release_edge (dep_id : OpId) (g : Inner) : Inner :=
  match tasks g !! dep_id with
  | None => g
  | Some t =>
      let r := remaining t - 1 in
      let g' := set_task dep_id (with_counts r (blocked t) t) g in
      if bool_decide (r = 0) && bool_decide (blocked t = 0) && is_pending t
      then push_ready dep_id g' else g'
  end.

(** The dead-edge arm: a still pending dependent becomes [Blocked] and joins
    the worklist. *)
Definition block_edge (dep_id : OpId) (gw : Inner * list OpId) : Inner * list OpId :=
  let '(g, wl) := gw in
  match tasks g !! dep_id with
  | None => (g, wl)
  | Some t =>
      let t' := with_counts (remaining t) (S (blocked t)) t in
      if is_pending t then (set_task dep_id (with_status Blocked t') g, wl ++ [dep_id])
      else (set_task dep_id t' g, wl)
  end.

Definition notify_dependent (upstream : TaskStatus) (gw : Inner * list OpId)
    (e : OpId * DependencyPolicy) : Inner * list OpId :=
  let '(dep_id, policy) := e in
  if edge_satisfied policy upstream then (release_edge dep_id gw.1, gw.2)
  else if bool_decide (policy ≠ Always) then block_edge dep_id gw
  else gw.

(** The inner loop of the transitive phase, for one newly blocked task. *)
Definition propagate_one (gw : Inner * list OpId) (e : OpId * DependencyPolicy) :
    Inner * list OpId :=
  let '(dep_id, policy) := e in
  match policy with
  | Always => (release_edge dep_id gw.1, gw.2)
  | Success => block_edge dep_id gw
  | Terminal => block_edge dep_id gw
  end.

(** [while let Some(id) = worklist.pop()]: the top of the stack is the end of
    the list.  [None] when the fuel runs out ([propagate_total]). *)
Fixpoint propagate (fuel : nat) (g : Inner) (wl : list OpId) : option Inner :=
  match fuel with
  | 0 => match wl with [] => Some g | _ => None end
  | S fuel' =>
      match rev wl with
      | [] => Some g
      | id :: rest =>
          let subs := from_option dependents [] (tasks g !! id) in
          let '(g', wl') := foldl propagate_one (g, rev rest) subs in
          propagate fuel' g' wl'
      end
  end.

Definition terminalize (upstream_id : OpId) (g : Inner) : option Inner :=
  match terminalized g !! upstream_id with
  | Some attempts =>
      Some (with_terminalized (<[upstream_id := U32.sat_add attempts 1]> (terminalized g)) g)
  | None =>
      let g := with_terminalized (<[upstream_id := 1%N]> (terminalized g)) g in
      let g := with_running (delete upstream_id (running g)) g in
      match tasks g !! upstream_id with
      | None => None
      | Some t =>
          let upstream := status t in
          let deps := dependents t in
          let g := set_task upstream_id (with_dependents [] t) g in
          let '(g, wl) := foldl (notify_dependent upstream) (g, []) deps in
          propagate (size (tasks g) + length wl) g wl
      end
  end.

(** ** Submission *)

(** The registration loop over the declared edges: the counts, and the
    upstream tables with the new back-edges. *)
Definition register_edge (id : OpId) (acc : gmap OpId TaskState * nat * nat)
    (e : OpId * DependencyPolicy) : gmap OpId TaskState * nat * nat :=
  let '(ts, rem, blk) := acc in
  let '(dep_id, policy) := e in
  match ts !! dep_id with
  | None => (ts, S rem, blk)
  | Some d =>
      if edge_satisfied policy (status d) then (ts, rem, blk)
      else if bool_decide (policy = Success) && success_edge_dead (status d)
      then (ts, rem, S blk)
      else (<[dep_id := with_dependents (dependents d ++ [(id, policy)]) d]> ts, S rem, blk)
  end.

Definition try_submit (o : ScheduledOp) (g : Inner) : result Inner ErrorKind :=
  let op_len := length (dependencies o) in
  if bool_decide (MAX_DEPENDENCIES_PER_TASK < op_len) then Err Oversized
  else
    let paths := length (OwnershipSet.entries (reads o))
                 + length (OwnershipSet.entries (writes o)) in
    if bool_decide (MAX_OWNERSHIP_PATHS < paths) then Err Oversized
    else
      let id := operation_id (meta o) in
      match tasks g !! id with
      | Some existing => if same_registration (op existing) o then Ok g else Err Conflict
      | None =>
          if bool_decide (MAX_TASKS_PER_DAG ≤ size (tasks g)) then Err Oversized
          else
            let '(ts, rem, blk) := foldl (register_edge id) (tasks g, 0, 0) (dependencies o) in
            let st := if bool_decide (0 < blk) then Blocked else Pending in
            let g' := with_tasks (<[id := MkTask o st None 0 None rem blk []]> ts) g in
            Ok (if bool_decide (rem = 0) && bool_decide (blk = 0) && bool_decide (st = Pending)
                then push_ready id g' else g')
      end.

(** ** Validation *)

(** The loop of [visit_dag] over one task's dependencies. *)
Fixpoint visit_deps (rec : OpId → gset OpId * gset OpId →
      option (result (gset OpId * gset OpId) ErrorKind))
    (ts : gmap OpId TaskState) (deps : list (OpId * DependencyPolicy))
    (st : gset OpId * gset OpId) : option (result (gset OpId * gset OpId) ErrorKind) :=
  match deps with
  | [] => Some (Ok st)
  | (dep, _) :: deps' =>
      if bool_decide (ts !! dep = None) then Some (Err NotFound)
      else match rec dep st with
           | Some (Ok st') => visit_deps rec ts deps' st'
           | r => r
           end
  end.

(** [visit_dag]: depth-first, [visiting] is the current path.  The fuel is a
    bound on the depth of the recursion; [validate] gives one more than the
    number of tasks, which is enough ([SchedulerDag.visit_total]). *)
Fixpoint visit_dag (fuel : nat) (ts : gmap OpId TaskState) (id : OpId)
    (st : gset OpId * gset OpId) : option (result (gset OpId * gset OpId) ErrorKind) :=
  match fuel with
  | 0 => None
  | S fuel' =>
      let '(visiting, visited) := st in
      if bool_decide (id ∈ visited) then Some (Ok (visiting, visited))
      else if bool_decide (id ∈ visiting) then Some (Err Deadlock)
      else
        match ts !! id with
        | None => Some (Err NotFound)
        | Some task =>
            match visit_deps (visit_dag fuel' ts) ts (dependencies (op task))
                    ({[id]} ∪ visiting, visited) with
            | Some (Ok (visiting', visited')) =>
                Some (Ok (visiting' ∖ {[id]}, {[id]} ∪ visited'))
            | r => r
            end
        end
  end.

Fixpoint visit_all (fuel : nat) (ts : gmap OpId TaskState) (ids : list OpId)
    (st : gset OpId * gset OpId) : option (result unit ErrorKind) :=
  match ids with
  | [] => Some (Ok tt)
  | id :: ids' =>
      match visit_dag fuel ts id st with
      | Some (Ok st') => visit_all fuel ts ids' st'
      | Some (Err e) => Some (Err e)
      | None => None
      end
  end.

Definition within_bounds (t : TaskState) : bool :=
  bool_decide (length (dependencies (op t)) ≤ MAX_DEPENDENCIES_PER_TASK)
  && bool_decide (length (OwnershipSet.entries (reads (op t)))
                  + length (OwnershipSet.entries (writes (op t))) ≤ MAX_OWNERSHIP_PATHS).

(** [ids] enumerates the keys. *)
Definition validate (ids : list OpId) (g : Inner) : option (result unit ErrorKind) :=
  let ts := tasks g in
  if bool_decide (MAX_TASKS_PER_DAG < size ts) then Some (Err Oversized)
  else if negb (forallb (λ id, from_option within_bounds true (ts !! id)) ids)
  then Some (Err Oversized)
  else visit_all (S (size ts)) ts ids (∅, ∅).

(** ** [rebuild_graph] *)

(** One dependency of the task being recounted; [None] is the panic of
    [statuses[&dep_id]] on an unregistered dependency. *)
Definition recount_edge (statuses : OpId → option TaskStatus) (id : OpId)
    (acc : option (gmap OpId TaskState * nat * nat)) (e : OpId * DependencyPolicy) :
    option (gmap OpId TaskState * nat * nat) :=
  '(ts, rem, blk) ← acc;
  let '(dep_id, policy) := e in
  dep_status ← statuses dep_id;
  if edge_satisfied policy dep_status then Some (ts, rem, blk)
  else if bool_decide (policy = Success) && success_edge_dead dep_status
  then Some (ts, rem, S blk)
  else
    d ← ts !! dep_id;
    Some (<[dep_id := with_dependents (dependents d ++ [(id, policy)]) d]> ts, S rem, blk).

Definition recount_task (statuses : OpId → option TaskStatus)
    (acc : option (gmap OpId TaskState * list OpId)) (id : OpId) :
    option (gmap OpId TaskState * list OpId) :=
  '(ts, newly) ← acc;
  t0 ← ts !! id;
  '(ts, rem, blk) ← foldl (recount_edge statuses id) (Some (ts, 0, 0)) (dependencies (op t0));
  t ← ts !! id;
  let t := with_counts rem blk t in
  if bool_decide (0 < blk) && is_pending t
  then Some (<[id := with_status Blocked t]> ts, newly ++ [id])
  else Some (<[id := t]> ts, newly).

Definition terminalize_all (ids : list OpId) (g : Inner) : option Inner :=
  foldl (λ acc id, acc ≫= terminalize id) (Some g) ids.

Definition push_if_ready (g : Inner) (id : OpId) : Inner :=
  match tasks g !! id with
  | Some t =>
      if is_pending t && bool_decide (remaining t = 0) && bool_decide (blocked t = 0)
      then push_ready id g else g
  | None => g
  end.

Definition rebuild_graph (ids : list OpId) (g : Inner) : option Inner :=
  let g := with_ready [] g in
  let statuses id := status <$> tasks g !! id in
  let cleared := (λ t, with_dependents [] (with_counts 0 0 t)) <$> tasks g in
  '(ts, newly) ← foldl (recount_task statuses) (Some (cleared, [])) ids;
  g' ← terminalize_all newly (with_tasks ts g);
  Some (foldl push_if_ready g' ids).

(** ** [schedule_ready]: one pass over the ready queue, under one lock *)
Definition conflicts (o : ScheduledOp) (run : gmap OpId (OwnershipSet * OwnershipSet)) : bool :=
  existsb (λ '(_, (rr, ww)),
             overlaps (writes o) ww || overlaps (writes o) rr || overlaps (reads o) ww)
          (map_to_list run).

(** [None]: a queued id that is not registered ([unwrap]).  The spawned
    operations are returned with the class whose permit they hold. *)
Fixpoint schedule_pass (fuel n : nat) (lim : ResourceLimits) (now : Z) (deferred : nat)
    (g : Inner) (spawned : list (OpId * ResourceClass)) :
    option (Inner * list (OpId * ResourceClass)) :=
  match fuel with
  | 0 => Some (g, spawned)
  | S fuel' =>
      if bool_decide (n ≤ deferred) then Some (g, spawned)
      else
        match ready g with
        | [] => Some (g, spawned)
        | id :: rest =>
            let g := with_ready rest g in
            t ← tasks g !! id;
            if negb (is_pending t) || bool_decide (remaining t ≠ 0)
            then schedule_pass fuel' n lim now deferred g spawned
            else
              let class := resource_class (op t) in
              if conflicts (op t) (running g) then
                schedule_pass fuel' n lim now (S deferred) (push_ready id g) spawned
              else
                match ResourceGauge.try_acquire (gauge g) class lim with
                | Err _ =>
                    schedule_pass fuel' n lim now (S deferred) (push_ready id g) spawned
                | Ok gauge' =>
                    let g := with_gauge gauge' g in
                    let g := set_task id (with_start now (with_status Running t)) g in
                    let g := with_running (<[id := (reads (op t), writes (op t))]> (running g)) g in
                    schedule_pass fuel' n lim now deferred g (spawned ++ [(id, class)])
                end
        end
  end.

(** Every iteration defers once more or shortens the queue, so twice the
    queue's length is enough ([schedule_pass_fuel]). *)
Definition schedule_ready (lim : ResourceLimits) (now : Z) (g : Inner) :
    option (Inner * list (OpId * ResourceClass)) :=
  schedule_pass (length (ready g) + length (ready g)) (length (ready g)) lim now 0 g [].

(** ** Recording outcomes, cancelling, settling a lease *)
Definition mark (id : OpId) (st : TaskStatus) (err : option string) (now : Z) (g : Inner) : Inner :=
  match tasks g !! id with
  | None => g
  | Some t =>
      if status_is_terminal (status t) then g
      else set_task id (with_end err now (with_status st t)) g
  end.

(** The returned token fires; [None] under the [Ok] is a panic. *)
Definition try_cancel (id : OpId) (g : Inner) : result (option Inner * TokenId) ErrorKind :=
  match tasks g !! id with
  | None => Err NotFound
  | Some t =>
      if status_is_terminal (status t) then Err Conflict
      else
        let token := cancellation (meta (op t)) in
        if is_pending t
        then Ok (terminalize id (set_task id (with_status Cancelled t) g), token)
        else Ok (Some g, token)
  end.

(** [RunningLease::settle] of an armed lease; [permit] is the state of its
    [GaugeLease]. *)
Definition settle (id : OpId) (class : ResourceClass) (permit : bool) (now : Z) (g : Inner) :
    option Inner :=
  g ← (if permit then (λ x, with_gauge x g) <$> ResourceGauge.release (gauge g) class
       else Some g);
  let g := match tasks g !! id with
           | Some t =>
               if bool_decide (status t = Running)
               then set_task id (MkTask (op t) Cancelled (error t) (start_ms t) (Some now)
                                   (remaining t) (blocked t) (dependents t)) g
               else g
           | None => g
           end in
  terminalize id g.

(** ** The executor ([execute_inner]) *)

(** Where an execution is: about to check and start an attempt, awaiting the
    runnable, sleeping out a retry backoff, waiting for a fresh permit, or
    returned with its lease not yet dropped. *)
Inductive ExecPc := AtTop | InRun | InBackoff | WaitPermit | Returned.

#[global] Instance ExecPc_eq_dec : EqDecision ExecPc.
Proof. solve_decision. Defined.

(** One logical execution.  [x_dag] distinguishes a spawned DAG task (its
    lease is a [RunningLease]) from a standalone [Scheduler::execute] (a bare
    [GaugeLease]); [x_armed] is whether the [GaugeLease] holds its permit. *)
Record Exec := MkExec {
  x_id : OpId;
  x_op : ScheduledOp;
  x_class : ResourceClass;
  x_armed : bool;
  x_attempt : N;
  x_pc : ExecPc;
  x_dag : bool;
}.

Definition at_pc (pc : ExecPc) (x : Exec) : Exec :=
  MkExec (x_id x) (x_op x) (x_class x) (x_armed x) (x_attempt x) pc (x_dag x).
Definition with_permit (armed : bool) (x : Exec) : Exec :=
  MkExec (x_id x) (x_op x) (x_class x) armed (x_attempt x) (x_pc x) (x_dag x).
Definition with_attempt (n : N) (x : Exec) : Exec :=
  MkExec (x_id x) (x_op x) (x_class x) (x_armed x) n (x_pc x) (x_dag x).

Inductive RunResult :=
  | ROk
  | RErr (message : string) (retryable : bool)
  | RElapsed
  | RPanic.
Inductive WaitOutcome := WReady | WCancelled | WDeadlineExceeded.

Definition deadline_message : string := "deadline exceeded".
Definition circuit_message : string := "circuit open for this resource, not attempting".
Definition panic_message : string := "runnable panicked".

(** [GaugeLease::release]: gives the permit back once. *)
Definition lease_release (x : Exec) (g : Inner) : option (Inner * Exec) :=
  if x_armed x then
    gauge' ← ResourceGauge.release (gauge g) (x_class x);
    Some (with_gauge gauge' g, with_permit false x)
  else Some (g, x).

Definition returns (st : TaskStatus) (err : option string) (now : Z) (x : Exec) (g : Inner) :
    Inner * Exec :=
  (mark (x_id x) st err now g, at_pc Returned x).

(** The loop head: cancellation, deadline, circuit breaker. *)
Definition exec_top (cancelled denied : bool) (now : Z) (x : Exec) (g : Inner) : Inner * Exec :=
  if cancelled then returns Cancelled None now x g
  else if is_expired (deadline (meta (x_op x))) now
  then returns Failed (Some deadline_message) now x g
  else if denied then returns Failed (Some circuit_message) now x g
  else (g, at_pc InRun x).

(** The attempt's outcome. *)
Definition exec_result (r : RunResult) (cancelled : bool) (now : Z) (x : Exec) (g : Inner) :
    option (Inner * Exec) :=
  match r with
  | ROk =>
      Some (if cancelled then returns Cancelled None now x g else returns Done None now x g)
  | RErr msg retryable =>
      if cancelled then Some (returns Cancelled None now x g)
      else
        let x := with_attempt (x_attempt x + 1) x in
        if retryable && should_retry (retry_policy (meta (x_op x))) (x_attempt x - 1) true false
        then '(g, x) ← lease_release x g; Some (g, at_pc InBackoff x)
        else Some (returns Failed (Some msg) now x g)
  | RElapsed => Some (returns Failed (Some deadline_message) now x g)
  | RPanic =>
      Some (if x_dag x then returns Failed (Some panic_message) now x g
            else (g, at_pc Returned x))
  end.

Definition exec_backoff (w : WaitOutcome) (now : Z) (x : Exec) (g : Inner) : Inner * Exec :=
  match w with
  | WReady => (g, at_pc WaitPermit x)
  | WCancelled => returns Cancelled None now x g
  | WDeadlineExceeded => returns Failed (Some deadline_message) now x g
  end.

(** One turn of [wait_for_permit]: the checks, the admission attempt, and the
    outcome of the wait when the class is still full. *)
Definition exec_permit (lim : ResourceLimits) (cancelled : bool) (w : WaitOutcome) (now : Z)
    (x : Exec) (g : Inner) : Inner * Exec :=
  if cancelled then returns Cancelled None now x g
  else if is_expired (deadline (meta (x_op x))) now
  then returns Failed (Some deadline_message) now x g
  else
    match ResourceGauge.try_acquire (gauge g) (x_class x) lim with
    | Ok gauge' => (with_gauge gauge' g, at_pc AtTop (with_permit true x))
    | Err _ => match w with
               | WReady => (g, x)
               | _ => exec_backoff w now x g
               end
    end.

Inductive ExecEvent :=
  | EvTop (denied : bool)
  | EvResult (r : RunResult)
  | EvBackoff (w : WaitOutcome)
  | EvPermit (w : WaitOutcome).

Definition exec_event (lim : ResourceLimits) (e : ExecEvent) (cancelled : bool) (now : Z)
    (x : Exec) (g : Inner) : option (Inner * Exec) :=
  match e, x_pc x with
  | EvTop denied, AtTop =>
      (* a DAG task carries no breaker *)
      Some (exec_top cancelled (denied && negb (x_dag x)) now x g)
  | EvResult r, InRun => exec_result r cancelled now x g
  | EvBackoff w, InBackoff => Some (exec_backoff w now x g)
  | EvPermit w, WaitPermit => Some (exec_permit lim cancelled w now x g)
  | _, _ => None
  end.

(** [finish] or [Drop] of the execution's lease, at any point of its life. *)
Definition drop_exec (now : Z) (x : Exec) (g : Inner) : option Inner :=
  if x_dag x then settle (x_id x) (x_class x) (x_armed x) now g
  else fst <$> lease_release x g.

(** [Scheduler::execute] up to the first attempt: two critical sections, the
    refusal of a terminal operation and the permit. *)
Definition execute_admit (id : OpId) (g : Inner) : result unit ErrorKind :=
  if from_option (λ t, status_is_terminal (status t)) false (tasks g !! id)
  then Err Conflict else Ok tt.

Definition execute_acquire (lim : ResourceLimits) (id : OpId) (o : ScheduledOp) (g : Inner) :
    result (Inner * Exec) ResourceClass :=
  let class := resource_class o in
  match ResourceGauge.try_acquire (gauge g) class lim with
  | Err _ => Err class
  | Ok gauge' => Ok (with_gauge gauge' g, MkExec id o class true 0 AtTop false)
  end.

Definition execute (lim : ResourceLimits) (id : OpId) (o : ScheduledOp) (g : Inner) :
    result (Inner * Exec) (ErrorKind + ResourceClass) :=
  rmap_err inl (execute_admit id g) ;? rmap_err inr (execute_acquire lim id o g).

(** ** The scheduler as a transition system *)
Module Sys.
Record t := MkSys {
  inner : Inner;
  execs : gmap N Exec;
  next : N;
  cancelled : gset TokenId;
}.

Definition init : t := MkSys empty_inner ∅ 0 ∅.

Definition spawn (s : t) (sp : OpId * ResourceClass) : t :=
  match tasks (inner s) !! sp.1 with
  | None => s
  | Some tk =>
      MkSys (inner s)
        (<[next s := MkExec sp.1 (op tk) sp.2 true 0 AtTop true]> (execs s))
        (next s + 1) (cancelled s)
  end.

Definition with_inner (g : Inner) (s : t) : t := MkSys g (execs s) (next s) (cancelled s).

Definition token_fired (s : t) (x : Exec) : bool :=
  bool_decide (cancellation (meta (x_op x)) ∈ cancelled s).

Inductive step (lim : ResourceLimits) (s : t) : t → Prop :=
  | step_submit o g :
      try_submit o (inner s) = Ok g → step lim s (with_inner g s)
  | step_rebuild ids g :
      ids ≡ₚ elements (dom (tasks (inner s))) → rebuild_graph ids (inner s) = Some g →
      step lim s (with_inner g s)
  | step_schedule now g sps :
      schedule_ready lim now (inner s) = Some (g, sps) →
      step lim s (foldl spawn (with_inner g s) sps)
  | step_cancel id g tok :
      try_cancel id (inner s) = Ok (Some g, tok) →
      step lim s (MkSys g (execs s) (next s) ({[tok]} ∪ cancelled s))
  | step_token tok :
      step lim s (MkSys (inner s) (execs s) (next s) ({[tok]} ∪ cancelled s))
  (* [execute]'s check of the status may have read an earlier state *)
  | step_execute id o g x :
      execute_acquire lim id o (inner s) = Ok (g, x) →
      step lim s (MkSys g (<[next s := x]> (execs s)) (next s + 1) (cancelled s))
  | step_exec k x e now g x' :
      execs s !! k = Some x →
      exec_event lim e (token_fired s x) now x (inner s) = Some (g, x') →
      step lim s (MkSys g (<[k := x']> (execs s)) (next s) (cancelled s))
  | step_drop k x now g :
      execs s !! k = Some x → drop_exec now x (inner s) = Some g →
      step lim s (MkSys g (delete k (execs s)) (next s) (cancelled s)).

Inductive reachable (lim : ResourceLimits) : t → Prop :=
  | reach_init : reachable lim init
  | reach_step s s' : reachable lim s → step lim s s' → reachable lim s'.
End Sys.

(** [run_to_completion]'s verdict when its [JoinSet] is empty. *)
Inductive RunVerdict := VBreak | VRebuild | VReadyStuck | VDeadlock.

Definition idle_verdict (rebuilt_once : bool) (g : Inner) : RunVerdict :=
  let pend := filter (λ '(_, t), is_pending t = true) (map_to_list (tasks g)) in
  match pend with
  | [] => VBreak
  | _ =>
      if negb rebuilt_once then VRebuild
      else if existsb (λ '(_, t), bool_decide (remaining t = 0)) pend then VReadyStuck
      else VDeadlock
  end.
