(* ===== verification/SchedulerInv.v ===== *)
(** * Invariant of one scheduler's state

    Every critical section of [Scheduler.v] preserves [InnerInv]: the counting
    invariant that ties a task's [remaining] and [blocked] counters to its
    unsatisfied edges and to the notifications still on their way, the ready
    queue's completeness, the terminalization ledger, and what is known of the
    running tasks. *)
From S2P Require Import Prelude AgentMachine Ownership Resource Scheduler.

(** ** The shape of the DAG: operation, status and back-edges of each task *)
Notation Shape := (ScheduledOp * TaskStatus * list (OpId * DependencyPolicy))%type (only parsing).
Definition shape_of (t : TaskState) : Shape := (op t, status t, dependents t).
Definition sh (g : Inner) : gmap OpId Shape := shape_of <$> tasks g.

Definition count {A} `{EqDecision A} (x : A) (l : list A) : nat :=
  length (filter (λ y, y = x) l).

#[global] Arguments count : simpl never.

Lemma count_nil {A} `{EqDecision A} (x : A) : count x [] = 0.
Proof. done. Qed.

Lemma count_cons {A} `{EqDecision A} (x y : A) l :
  count x (y :: l) = (if decide (y = x) then 1 else 0) + count x l.
Proof. unfold count. rewrite filter_cons. by case_decide. Qed.

Lemma count_app {A} `{EqDecision A} (x : A) l k : count x (l ++ k) = count x l + count x k.
Proof. unfold count. by rewrite filter_app, length_app. Qed.

Lemma sh_lookup g id :
  sh g !! id = shape_of <$> tasks g !! id.
Proof. apply lookup_fmap. Qed.

Lemma sh_Some g id t : tasks g !! id = Some t → sh g !! id = Some (shape_of t).
Proof. intros H. by rewrite sh_lookup, H. Qed.

Lemma sh_inv g id o st ds :
  sh g !! id = Some (o, st, ds) →
  ∃ t, tasks g !! id = Some t ∧ op t = o ∧ status t = st ∧ dependents t = ds.
Proof. rewrite sh_lookup. intros (t & ? & [= -> -> ->])%fmap_Some. eauto. Qed.

Lemma sh_set_task g id t : sh (set_task id t g) = <[id := shape_of t]> (sh g).
Proof. unfold sh. cbn. by rewrite fmap_insert. Qed.

Lemma sh_set_counts g id t r b :
  tasks g !! id = Some t → sh (set_task id (with_counts r b t) g) = sh g.
Proof. intros H. rewrite sh_set_task. apply insert_id. exact (sh_Some _ _ _ H). Qed.

(** ** What the notification loops leave alone *)
Definition frame (g g' : Inner) : Prop :=
  gauge g' = gauge g ∧ running g' = running g ∧ terminalized g' = terminalized g.

#[global] Instance frame_preorder : PreOrder frame.
Proof. split; [by repeat split|]. unfold frame. intros x y z. intuition congruence. Qed.

Lemma release_edge_frame d g : frame g (release_edge d g).
Proof. unfold release_edge. repeat case_match; by repeat split. Qed.

Lemma block_edge_frame d gw : frame gw.1 (block_edge d gw).1.
Proof. destruct gw. unfold block_edge. repeat case_match; by repeat split. Qed.

Lemma notify_frame st gw e : frame gw.1 (notify_dependent st gw e).1.
Proof.
  destruct e as [d p], gw as [g wl]. unfold notify_dependent. cbn -[block_edge].
  case_match; [apply release_edge_frame|].
  case_match; [apply (block_edge_frame _ (g, wl))|reflexivity].
Qed.

Lemma notify_all_frame st es gw : frame gw.1 (foldl (notify_dependent st) gw es).1.
Proof.
  revert gw; induction es as [|e es IH]; intros gw; cbn; [reflexivity|].
  etransitivity; [apply (notify_frame st)|apply IH].
Qed.

(** The transitive phase treats a newly blocked task exactly as the first
    phase treats a [Blocked] upstream. *)
Lemma propagate_one_notify gw e : propagate_one gw e = notify_dependent Blocked gw e.
Proof. by destruct gw, e as [? []]. Qed.

Lemma propagate_all_notify es gw :
  foldl propagate_one gw es = foldl (notify_dependent Blocked) gw es.
Proof.
  revert gw; induction es as [|e es IH]; intros gw; cbn; [done|].
  by rewrite propagate_one_notify, IH.
Qed.

Lemma propagate_step fuel g wl x :
  propagate (S fuel) g (wl ++ [x]) =
  let '(g', wl') := foldl (notify_dependent Blocked) (g, wl)
                      (from_option dependents [] (tasks g !! x)) in
  propagate fuel g' wl'.
Proof.
  cbn. rewrite rev_app_distr. cbn. by rewrite rev_involutive, propagate_all_notify.
Qed.

(** An induction principle for the worklist: a property of (state, worklist)
    kept by popping one task and notifying its dependents holds at the end. *)
Lemma propagate_ind (P : Inner → list OpId → Prop) fuel g wl g' :
  (∀ g wl x, P g (wl ++ [x]) →
     let r := foldl (notify_dependent Blocked) (g, wl)
                (from_option dependents [] (tasks g !! x)) in P r.1 r.2) →
  P g wl → propagate fuel g wl = Some g' → P g' [].
Proof.
  intros Hstep. revert g wl; induction fuel as [|fuel IH]; intros g wl HP Hr.
  - cbn in Hr. destruct wl; [by simplify_eq|done].
  - destruct wl as [|x wl _] using rev_ind; [cbn in Hr; by simplify_eq|].
    rewrite propagate_step in Hr. specialize (Hstep _ _ _ HP).
    destruct (foldl _ _ _) as [g1 wl1]. eauto.
Qed.

Lemma propagate_frame fuel g wl g' : propagate fuel g wl = Some g' → frame g g'.
Proof.
  apply (propagate_ind (λ h _, frame g h)); [|done].
  intros h wl' x Hf. cbn zeta. etransitivity; [exact Hf|].
  apply (notify_all_frame Blocked _ (h, wl')).
Qed.

(** ** The worklist terminates *)
Definition pend_one (_ : OpId) (s : Shape) : nat :=
  if decide (s.1.2 = Pending) then 1 else 0.
Definition pend (g : Inner) : nat := msum pend_one (sh g).

Lemma pend_le_size g : pend g ≤ size (tasks g).
Proof.
  unfold pend, sh. generalize (tasks g) as m. intros m.
  induction m as [|k x m Hk IH] using map_ind; [done|].
  rewrite fmap_insert, msum_insert_fresh, map_size_insert_None by (rewrite ?lookup_fmap, ?Hk; done).
  unfold pend_one at 1. case_decide; lia.
Qed.

Lemma release_edge_sh d g : sh (release_edge d g) = sh g.
Proof.
  unfold release_edge. destruct (tasks g !! d) as [t|] eqn:E; [|done].
  rewrite <- (sh_set_counts g d t (remaining t - 1) (blocked t) E).
  by case_match.
Qed.

Lemma block_edge_spec d g wl :
  let r := block_edge d (g, wl) in
  (sh r.1 = sh g ∧ r.2 = wl ∧ (∀ t, tasks g !! d = Some t → status t ≠ Pending))
  ∨ (∃ t, tasks g !! d = Some t ∧ status t = Pending ∧ r.2 = wl ++ [d]
          ∧ sh r.1 = <[d := (op t, Blocked, dependents t)]> (sh g)).
Proof.
  unfold block_edge. destruct (tasks g !! d) as [t|] eqn:E; [|left; naive_solver].
  unfold is_pending. case_bool_decide as Hp; cbn [fst snd].
  - right. exists t. rewrite sh_set_task. auto.
  - left. rewrite sh_set_counts by done. naive_solver.
Qed.

Lemma notify_measure st gw e :
  let r := notify_dependent st gw e in pend r.1 + length r.2 = pend gw.1 + length gw.2.
Proof.
  destruct e as [d p], gw as [g wl]. unfold notify_dependent. cbn -[block_edge].
  case_match; [unfold pend; cbn; by rewrite release_edge_sh|]. case_match; [|done].
  pose proof (block_edge_spec d g wl) as [(Hs & Hw & _)|(t & Ht & Hp & Hw & Hs)].
  - unfold pend. by rewrite Hs, Hw.
  - unfold pend. rewrite Hs, Hw, length_app. cbn.
    pose proof (msum_insert pend_one (sh g) d (shape_of t) (op t, Blocked, dependents t)
                  (sh_Some _ _ _ Ht)) as Hm.
    assert (pend_one d (shape_of t) = 1) by (unfold pend_one; cbn; by rewrite Hp).
    assert (pend_one d (op t, Blocked, dependents t) = 0) by done. lia.
Qed.

Lemma notify_all_measure st es gw :
  let r := foldl (notify_dependent st) gw es in pend r.1 + length r.2 = pend gw.1 + length gw.2.
Proof.
  revert gw; induction es as [|e es IH]; intros gw; cbn; [done|].
  rewrite IH. apply notify_measure.
Qed.

Lemma propagate_total fuel g wl :
  pend g + length wl ≤ fuel → is_Some (propagate fuel g wl).
Proof.
  revert g wl; induction fuel as [|fuel IH]; intros g wl Hf.
  - destruct wl; cbn in *; [eauto|lia].
  - destruct wl as [|x wl _] using rev_ind; [eauto|].
    rewrite propagate_step.
    pose proof (notify_all_measure Blocked (from_option dependents [] (tasks g !! x)) (g, wl)) as Hm.
    destruct (foldl _ _ _) as [g' wl']. cbn in Hm. rewrite length_app in Hf. cbn in Hf.
    apply IH. lia.
Qed.

Lemma terminalize_total id g : is_Some (tasks g !! id) → is_Some (terminalize id g).
Proof.
  intros [t Ht]. unfold terminalize. destruct (terminalized g !! id); [eauto|].
  cbn. rewrite Ht. destruct (foldl _ _ _) as [g' wl]. apply propagate_total.
  pose proof (pend_le_size g'). lia.
Qed.

(** ** Statuses only move forward *)
Definition status_le (st st' : TaskStatus) : bool :=
  match st, st' with
  | Pending, _ => true
  | Running, (Running | Done | Failed | Cancelled) => true
  | _, _ => bool_decide (st = st')
  end.

Lemma status_le_refl st : status_le st st = true.
Proof. by destruct st. Qed.

Lemma status_le_trans a b c :
  status_le a b = true → status_le b c = true → status_le a c = true.
Proof. by destruct a, b, c. Qed.

Lemma status_le_terminal st st' :
  status_le st st' = true → status_is_terminal st = true → st' = st.
Proof. by destruct st, st'. Qed.

Definition evolves (g g' : Inner) : Prop :=
  ∀ id o st ds, sh g !! id = Some (o, st, ds) →
  ∃ st' ds', sh g' !! id = Some (o, st', ds') ∧ status_le st st' = true.

#[global] Instance evolves_preorder : PreOrder evolves.
Proof.
  split; [intros g id o st ds H; eauto using status_le_refl|].
  intros a b c Hab Hbc id o st ds H.
  destruct (Hab _ _ _ _ H) as (st1 & ds1 & H1 & E1).
  destruct (Hbc _ _ _ _ H1) as (st2 & ds2 & H2 & E2).
  eauto using status_le_trans.
Qed.

Lemma evolves_insert g g' d o st ds st' ds' :
  sh g !! d = Some (o, st, ds) → sh g' = <[d := (o, st', ds')]> (sh g) →
  status_le st st' = true → evolves g g'.
Proof.
  intros Hd Hs Ht id o0 st0 ds0 H. rewrite Hs.
  destruct (decide (d = id)) as [->|]; [rewrite lookup_insert_eq|rewrite lookup_insert_ne by done];
    simplify_eq; eauto using status_le_refl.
Qed.

Lemma evolves_sh g g' : sh g' = sh g → evolves g g'.
Proof. intros E id o st ds H. rewrite E. eauto using status_le_refl. Qed.

Lemma notify_evolves st gw e : evolves gw.1 (notify_dependent st gw e).1.
Proof.
  destruct e as [d p], gw as [g wl]. unfold notify_dependent. cbn -[block_edge].
  case_match; [apply evolves_sh, release_edge_sh|]. case_match; [|reflexivity].
  pose proof (block_edge_spec d g wl) as [(Hs & _)|(t & Ht & Hp & _ & Hs)].
  - by apply evolves_sh.
  - eapply evolves_insert; [exact (sh_Some _ _ _ Ht)|exact Hs|]. by rewrite Hp.
Qed.

Lemma notify_all_evolves st es gw : evolves gw.1 (foldl (notify_dependent st) gw es).1.
Proof.
  revert gw; induction es as [|e es IH]; intros gw; cbn; [reflexivity|].
  etransitivity; [apply (notify_evolves st)|apply IH].
Qed.

Lemma propagate_evolves fuel g wl g' : propagate fuel g wl = Some g' → evolves g g'.
Proof.
  apply (propagate_ind (λ h _, evolves g h)); [|done].
  intros h wl' x Hf. cbn zeta. etransitivity; [exact Hf|].
  apply (notify_all_evolves Blocked _ (h, wl')).
Qed.

(** What [terminalize] does on the first terminal event of a registered task. *)
Lemma terminalize_Some id g g' :
  terminalize id g = Some g' ↔
  (∃ n, terminalized g !! id = Some n
        ∧ g' = with_terminalized (<[id := U32.sat_add n 1]> (terminalized g)) g)
  ∨ (terminalized g !! id = None ∧ ∃ t, tasks g !! id = Some t ∧
     let g1 := set_task id (with_dependents [] t)
                 (with_running (delete id (running g))
                   (with_terminalized (<[id := 1%N]> (terminalized g)) g)) in
     let r := foldl (notify_dependent (status t)) (g1, []) (dependents t) in
     propagate (size (tasks r.1) + length r.2) r.1 r.2 = Some g').
Proof.
  unfold terminalize. destruct (terminalized g !! id) as [n|]; [naive_solver|]. cbn.
  destruct (tasks g !! id) as [t|]; [|naive_solver].
  destruct (foldl _ _ _) as [g1 wl] eqn:E. split.
  - intros H. right. split; [done|]. exists t. split; [done|]. by rewrite E.
  - intros [(n & [=] & _)|(_ & t' & [= <-] & H)]. by rewrite E in H.
Qed.

Lemma terminalize_evolves id g g' : terminalize id g = Some g' → evolves g g'.
Proof.
  rewrite terminalize_Some. intros [(n & _ & ->)|(_ & t & Ht & Hp)]; [by apply evolves_sh|].
  cbn zeta in Hp. apply propagate_evolves in Hp. etransitivity; [|exact Hp].
  etransitivity; [|apply (notify_all_evolves (status t))].
  eapply evolves_insert; [exact (sh_Some _ _ _ Ht)| |apply status_le_refl].
  cbn [fst]. rewrite sh_set_task. reflexivity.
Qed.

Lemma terminalize_frame id g g' :
  terminalize id g = Some g' →
  gauge g' = gauge g
  ∧ ((∃ n, terminalized g !! id = Some n ∧ running g' = running g
           ∧ terminalized g' = <[id := U32.sat_add n 1]> (terminalized g)
           ∧ tasks g' = tasks g ∧ ready g' = ready g)
     ∨ (terminalized g !! id = None ∧ running g' = delete id (running g)
        ∧ terminalized g' = <[id := 1%N]> (terminalized g))).
Proof.
  rewrite terminalize_Some. intros [(n & Hn & ->)|(Hn & t & Ht & Hp)].
  - split; [done|]. left. eauto 10.
  - cbn zeta in Hp. apply propagate_frame in Hp.
    pose proof (notify_all_frame (status t) (dependents t)) as Hf.
    match type of Hp with context [foldl _ (?g1, []) _] => specialize (Hf (g1, [])) end.
    destruct Hp as (-> & -> & ->), Hf as (-> & -> & ->). auto.
Qed.

Lemma terminalize_all_cons x ids g :
  terminalize_all (x :: ids) g = terminalize x g ≫= terminalize_all ids.
Proof.
  unfold terminalize_all. cbn. destruct (terminalize x g) as [g1|]; cbn; [done|].
  by induction ids.
Qed.

Lemma terminalize_all_evolves ids g g' : terminalize_all ids g = Some g' → evolves g g'.
Proof.
  revert g; induction ids as [|x ids IH]; intros g; [by intros [= <-]|].
  rewrite terminalize_all_cons. intros (g1 & H1 & H2)%bind_Some.
  etransitivity; [by eapply terminalize_evolves|by apply IH].
Qed.

(** ** Counting: why a ready task's edges are all satisfied

    A worklist [W] names blocked tasks whose dependents are still to be
    notified, [H] the targets of satisfied notifications taken off an
    upstream's table and not delivered yet. *)
Definition live (W : list OpId) (u : OpId) (st : TaskStatus) : bool :=
  bool_decide (st ≠ Blocked) || bool_decide (u ∈ W).

Definition count_sat (t : OpId) (st : TaskStatus) (ds : list (OpId * DependencyPolicy)) : nat :=
  (if edge_satisfied Success st then count (t, Success) ds else 0)
  + (if edge_satisfied Terminal st then count (t, Terminal) ds else 0)
  + (if edge_satisfied Always st then count (t, Always) ds else 0).

Definition owed_by (W : list OpId) (t u : OpId) (s : Shape) : nat :=
  if live W u s.1.2 then count_sat t s.1.2 s.2 else 0.

(** Satisfied notifications to [t] that are still in some upstream's table. *)
Definition owed (W : list OpId) (S : gmap OpId Shape) (t : OpId) : nat :=
  msum (owed_by W t) S.

Definition sat_edge (S : gmap OpId Shape) (e : OpId * DependencyPolicy) : bool :=
  match S !! e.1 with Some s => edge_satisfied e.2 s.1.2 | None => false end.

(** The edges of a task that no upstream satisfies yet. *)
Definition unsat (S : gmap OpId Shape) (deps : list (OpId * DependencyPolicy)) : nat :=
  length (filter (λ e, sat_edge S e = false) deps).

Definition edge_count (S : gmap OpId Shape) (u t : OpId) (p : DependencyPolicy) : nat :=
  match S !! t with Some s => count (u, p) (dependencies s.1.1) | None => 0 end.

Record ShapeInv (W : list OpId) (S : gmap OpId Shape) : Prop := {
  si_edges u s t p : S !! u = Some s → count (t, p) s.2 ≤ edge_count S u t p;
  si_nodup : NoDup W;
  si_work x : x ∈ W → ∃ o ds, S !! x = Some (o, Blocked, ds);
}.

Record CountInv (W H : list OpId) (g : Inner) : Prop := {
  ci_shape : ShapeInv W (sh g);
  ci_count t tt : tasks g !! t = Some tt →
    unsat (sh g) (dependencies (op tt)) + owed W (sh g) t + count t H
    ≤ remaining tt + blocked tt;
  ci_blocked t tt : tasks g !! t = Some tt → 0 < blocked tt → status tt ≠ Pending;
}.

Lemma count_sat_nil t st : count_sat t st [] = 0.
Proof. unfold count_sat. by repeat case_match. Qed.

Lemma count_sat_live t st ds : status_is_terminal st = false → count_sat t st ds = 0.
Proof. by destruct st. Qed.

(** Setting the status of one task: the edges it satisfies leave [unsat], and
    at most that many notifications become owed. *)
Lemma unsat_status (S : gmap OpId Shape) u o st ds st' ds' deps :
  S !! u = Some (o, st, ds) → status_is_terminal st = false →
  unsat S deps =
  unsat (<[u := (o, st', ds')]> S) deps
  + ((if edge_satisfied Success st' then count (u, Success) deps else 0)
     + (if edge_satisfied Terminal st' then count (u, Terminal) deps else 0)
     + (if edge_satisfied Always st' then count (u, Always) deps else 0)).
Proof.
  intros Hu Hst. unfold unsat. induction deps as [|[d p] deps IH].
  { rewrite !filter_nil, !count_nil. cbn. by repeat case_match. }
  rewrite !filter_cons, !count_cons.
  assert (sat_edge S (d, p) = false ∨ d ≠ u) as Hcase.
  { destruct (decide (d = u)) as [->|]; [|by right]. left. unfold sat_edge. cbn. rewrite Hu. cbn.
    destruct p, st; done. }
  destruct (decide (d = u)) as [->|Hne].
  - destruct Hcase as [Hf|]; [|done]. rewrite decide_True by done.
    assert (sat_edge (<[u := (o, st', ds')]> S) (u, p) = edge_satisfied p st') as ->.
    { unfold sat_edge. cbn. by rewrite lookup_insert_eq. }
    cbn [length]. rewrite IH. clear IH.
    destruct p, st'; cbn; repeat case_decide; simplify_eq; cbn; lia.
  - assert (sat_edge (<[u := (o, st', ds')]> S) (d, p) = sat_edge S (d, p)) as ->.
    { unfold sat_edge. cbn. by rewrite lookup_insert_ne. }
    rewrite (decide_False (P := (d, p) = (u, Success))), (decide_False (P := (d, p) = (u, Terminal))),
      (decide_False (P := (d, p) = (u, Always))) by congruence.
    rewrite !Nat.add_0_l. case_decide; cbn [length]; lia.
Qed.

Lemma count_sat_le W S u s t tt st' :
  ShapeInv W S → S !! u = Some s → S !! t = Some tt →
  count_sat t st' s.2
  ≤ (if edge_satisfied Success st' then count (u, Success) (dependencies tt.1.1) else 0)
    + (if edge_satisfied Terminal st' then count (u, Terminal) (dependencies tt.1.1) else 0)
    + (if edge_satisfied Always st' then count (u, Always) (dependencies tt.1.1) else 0).
Proof.
  intros HS Hu Ht. unfold count_sat.
  pose proof (si_edges _ _ HS u s t) as He. unfold edge_count in He.
  setoid_rewrite Ht in He.
  pose proof (He Success Hu). pose proof (He Terminal Hu). pose proof (He Always Hu).
  destruct (edge_satisfied Success st'), (edge_satisfied Terminal st'),
    (edge_satisfied Always st'); lia.
Qed.

Lemma edge_count_status (S : gmap OpId Shape) u o st ds st' ds' v t p :
  S !! u = Some (o, st, ds) → edge_count (<[u := (o, st', ds')]> S) v t p = edge_count S v t p.
Proof.
  intros Hu. unfold edge_count. destruct (decide (u = t)) as [->|].
  - by rewrite lookup_insert_eq, Hu.
  - by rewrite lookup_insert_ne.
Qed.

(** A live task changes status; a task that becomes [Blocked] joins the
    worklist. *)
Lemma status_change W W' (S : gmap OpId Shape) u o st ds st' t tt :
  ShapeInv W S → S !! u = Some (o, st, ds) → status_is_terminal st = false →
  (∀ v, v ≠ u → v ∈ W' ↔ v ∈ W) → S !! t = Some tt →
  let S' := <[u := (o, st', ds)]> S in
  unsat S' (dependencies tt.1.1) + owed W' S' t ≤ unsat S (dependencies tt.1.1) + owed W S t.
Proof.
  intros HS Hu Hst HW Ht S'.
  rewrite (unsat_status S u o st ds st' ds) by done. fold S'.
  pose proof (count_sat_le W S u (o, st, ds) t tt st' HS Hu Ht) as Hc. cbn [fst snd] in Hc.
  enough (owed W' S' t ≤ owed W S t + count_sat t st' ds) by lia.
  unfold owed, S'. rewrite (msum_delete (owed_by W' t) _ u (o, st', ds)) by apply lookup_insert_eq.
  rewrite (msum_delete (owed_by W t) S u (o, st, ds)) by done.
  rewrite delete_insert_eq.
  rewrite (msum_ext (owed_by W' t) (owed_by W t)).
  - assert (owed_by W' t u (o, st', ds) ≤ count_sat t st' ds).
    { unfold owed_by; cbn [fst snd]. destruct (live W' u st'); lia. }
    lia.
  - intros k x Hk%lookup_delete_Some. unfold owed_by, live.
    rewrite (bool_decide_ext (k ∈ W') (k ∈ W)); [done|]. apply HW. naive_solver.
Qed.

Lemma shape_status W W' S u o st ds st' :
  ShapeInv W S → S !! u = Some (o, st, ds) → NoDup W' →
  (∀ v, v ∈ W' → v ≠ u → v ∈ W) → (u ∈ W' → st' = Blocked) →
  ShapeInv W' (<[u := (o, st', ds)]> S).
Proof.
  intros HS Hu Hn HW Hb. split; [|done|].
  - intros v s t p Hv. rewrite (edge_count_status _ u o st ds) by done.
    destruct (decide (u = v)) as [<-|].
    + rewrite lookup_insert_eq in Hv. simplify_eq. cbn. by apply (si_edges W S HS u (o, st, ds)).
    + rewrite lookup_insert_ne in Hv by done. by eapply si_edges.
  - intros x Hx. destruct (decide (u = x)) as [<-|].
    + rewrite lookup_insert_eq, Hb by done. eauto.
    + rewrite lookup_insert_ne by done. eapply si_work; [done|]. by apply HW.
Qed.

Definition targets (st : TaskStatus) (es : list (OpId * DependencyPolicy)) : list OpId :=
  (filter (λ e, edge_satisfied e.2 st = true) es).*1.

Lemma targets_cons st d p es :
  targets st ((d, p) :: es) = if edge_satisfied p st then d :: targets st es else targets st es.
Proof.
  unfold targets. rewrite filter_cons. cbn. destruct (edge_satisfied p st).
  - by rewrite decide_True.
  - by rewrite decide_False.
Qed.

Lemma count_targets t st es : count t (targets st es) = count_sat t st es.
Proof.
  induction es as [|[d p] es IH]; [by rewrite count_sat_nil|].
  rewrite targets_cons. unfold count_sat in *. rewrite !count_cons.
  destruct (decide (d = t)) as [->|Hne].
  - assert (∀ l, count t (t :: l) = S (count t l)) as Hc.
    { intros l. by rewrite count_cons, decide_True. }
    destruct p, st; repeat case_decide; simplify_eq; cbn in *; rewrite ?Hc; rewrite ?IH; lia.
  - rewrite (decide_False (P := (d, p) = (t, Success))), (decide_False (P := (d, p) = (t, Terminal))),
      (decide_False (P := (d, p) = (t, Always))) by congruence.
    rewrite !Nat.add_0_l. destruct (edge_satisfied p st); [|done]. by rewrite count_cons, decide_False by done.
Qed.

Lemma release_edge_inv W H d g : CountInv W (d :: H) g → CountInv W H (release_edge d g).
Proof.
  intros [Hs Hc Hb]. split.
  - by rewrite release_edge_sh.
  - rewrite release_edge_sh. intros t tt Ht. unfold release_edge in Ht.
    destruct (tasks g !! d) as [td|] eqn:Ed.
    + assert (tasks (set_task d (with_counts (remaining td - 1) (blocked td) td) g) !! t
              = Some tt) as Ht' by (revert Ht; by case_match).
      clear Ht. cbn in Ht'. destruct (decide (d = t)) as [->|Hne].
      * rewrite lookup_insert_eq in Ht'. simplify_eq. cbn. specialize (Hc _ _ Ed).
        rewrite count_cons, decide_True in Hc by done. lia.
      * rewrite lookup_insert_ne in Ht' by done. specialize (Hc _ _ Ht').
        rewrite count_cons, decide_False in Hc by done. lia.
    + specialize (Hc _ _ Ht). rewrite count_cons in Hc. lia.
  - intros t tt Ht. unfold release_edge in Ht.
    destruct (tasks g !! d) as [td|] eqn:Ed; [|by eauto].
    assert (tasks (set_task d (with_counts (remaining td - 1) (blocked td) td) g) !! t
            = Some tt) as Ht' by (revert Ht; by case_match).
    cbn in Ht'. destruct (decide (d = t)) as [->|Hne].
    + rewrite lookup_insert_eq in Ht'. simplify_eq. cbn. eauto.
    + rewrite lookup_insert_ne in Ht' by done. eauto.
Qed.

Lemma block_edge_inv W H d g wl :
  CountInv (W ++ wl) H g →
  let r := block_edge d (g, wl) in CountInv (W ++ r.2) H r.1.
Proof.
  intros [Hs Hc Hb]. unfold block_edge. destruct (tasks g !! d) as [td|] eqn:Ed; [|done].
  unfold is_pending. case_bool_decide as Hp; cbn [fst snd].
  - assert (d ∉ W ++ wl) as Hd.
    { intros Hx. apply (si_work _ _ Hs) in Hx as (o & ds & Hx).
      rewrite (sh_Some _ _ _ Ed) in Hx. unfold shape_of in Hx. congruence. }
    pose proof (sh_Some _ _ _ Ed) as Hu. unfold shape_of in Hu.
    assert (∀ r b, shape_of (with_status Blocked (with_counts r b td))
                   = (op td, Blocked, dependents td)) as Hsh by done.
    rewrite app_assoc. split; rewrite ?sh_set_task, ?Hsh.
    + apply (shape_status (W ++ wl) _ _ _ _ (status td)); [done|done|..].
      * apply NoDup_app. split; [by eapply si_nodup|]. split; [set_solver|apply NoDup_singleton].
      * set_solver.
      * done.
    + intros t tt Ht. cbn in Ht.
      pose proof (status_change (W ++ wl) ((W ++ wl) ++ [d]) (sh g) d (op td) (status td)
                    (dependents td) Blocked t) as Hsc.
      destruct (decide (d = t)) as [->|Hne].
      * rewrite lookup_insert_eq in Ht. simplify_eq. cbn.
        specialize (Hsc _ Hs Hu ltac:(by rewrite Hp) ltac:(set_solver) Hu). cbn in Hsc.
        specialize (Hc _ _ Ed). lia.
      * rewrite lookup_insert_ne in Ht by done.
        specialize (Hsc _ Hs Hu ltac:(by rewrite Hp) ltac:(set_solver) (sh_Some _ _ _ Ht)).
        cbn in Hsc. specialize (Hc _ _ Ht). lia.
    + intros t tt Ht. cbn in Ht. destruct (decide (d = t)) as [->|Hne].
      * rewrite lookup_insert_eq in Ht. by simplify_eq.
      * rewrite lookup_insert_ne in Ht by done. eauto.
  - split; rewrite ?sh_set_counts by done; [done|..]; intros t tt Ht; cbn in Ht;
      (destruct (decide (d = t)) as [->|Hne];
       [rewrite lookup_insert_eq in Ht; simplify_eq; cbn
       |rewrite lookup_insert_ne in Ht by done; eauto]); [|done].
    specialize (Hc _ _ Ed). lia.
Qed.

Lemma notify_inv W st g wl e es :
  CountInv (W ++ wl) (targets st (e :: es)) g →
  let r := notify_dependent st (g, wl) e in CountInv (W ++ r.2) (targets st es) r.1.
Proof.
  destruct e as [d p]. rewrite targets_cons. unfold notify_dependent. cbn [fst snd].
  destruct (edge_satisfied p st); [apply release_edge_inv|]. intros H.
  case_match; [by apply block_edge_inv|done].
Qed.

Lemma notify_all_inv W st g wl es :
  CountInv (W ++ wl) (targets st es) g →
  let r := foldl (notify_dependent st) (g, wl) es in CountInv (W ++ r.2) [] r.1.
Proof.
  revert g wl; induction es as [|e es IH]; intros g wl H; [done|].
  apply notify_inv in H. cbn [foldl]. destruct (notify_dependent st (g, wl) e) as [g1 wl1].
  by apply IH.
Qed.

Lemma live_Blocked W u : live W u Blocked = bool_decide (u ∈ W).
Proof. unfold live. by rewrite (bool_decide_eq_false_2 (Blocked ≠ Blocked)) by naive_solver. Qed.

(** Popping a worklist entry: its table becomes inert, its satisfied
    notifications are in hand. *)
Lemma pop_inv W x g :
  CountInv (W ++ [x]) [] g →
  CountInv W (targets Blocked (from_option dependents [] (tasks g !! x))) g.
Proof.
  intros [Hs Hc Hb]. pose proof (si_nodup _ _ Hs) as Hn.
  apply NoDup_app in Hn as (HnW & HxW & _).
  destruct (si_work _ _ Hs x) as (o & ds & Hx); [set_solver|].
  destruct (sh_inv _ _ _ _ _ Hx) as (tx & Htx & Ho & Hst & Hds).
  split; [split|..]; [eapply si_edges, Hs|done| | |done].
  { intros y Hy. eapply si_work; [exact Hs|set_solver]. }
  intros t tt Ht. specialize (Hc _ _ Ht). rewrite count_nil in Hc.
  rewrite Htx. cbn [from_option]. rewrite count_targets, Hds.
  enough (owed W (sh g) t + count_sat t Blocked ds ≤ owed (W ++ [x]) (sh g) t) by lia.
  unfold owed. rewrite !(msum_delete _ (sh g) x (o, Blocked, ds)) by done.
  rewrite (msum_ext (owed_by (W ++ [x]) t) (owed_by W t)).
  - assert (owed_by W t x (o, Blocked, ds) = 0) as ->.
    { unfold owed_by. cbn [fst snd]. rewrite live_Blocked, bool_decide_eq_false_2; [done|].
      intros Hx'. specialize (HxW _ Hx'). set_solver. }
    assert (owed_by (W ++ [x]) t x (o, Blocked, ds) = count_sat t Blocked ds) as ->.
    { unfold owed_by. cbn [fst snd]. rewrite live_Blocked, bool_decide_eq_true_2; [done|].
      set_solver. }
    lia.
  - intros k s Hk%lookup_delete_Some. unfold owed_by, live.
    rewrite (bool_decide_ext (k ∈ W ++ [x]) (k ∈ W)); [done|]. set_solver.
Qed.

Lemma propagate_inv W fuel g wl g' :
  CountInv (W ++ wl) [] g → propagate fuel g wl = Some g' → CountInv W [] g'.
Proof.
  intros H Hp. pose proof (propagate_ind (λ h w, CountInv (W ++ w) [] h) fuel g wl g') as Hi.
  cbv beta in Hi. rewrite app_nil_r in Hi. apply Hi; [|done..].
  intros h w x Hx. rewrite app_assoc in Hx. apply pop_inv in Hx.
  by apply notify_all_inv.
Qed.

(** Taking the dependents table of a live task. *)
Lemma take_inv W W' u g g1 t :
  CountInv W [] g → tasks g !! u = Some t → live W u (status t) = true →
  NoDup W' → (∀ x, x ∈ W' → x ∈ W) → (∀ x, x ∈ W → x = u ∨ x ∈ W') →
  tasks g1 = tasks g →
  CountInv W' (targets (status t) (dependents t)) (set_task u (with_dependents [] t) g1).
Proof.
  intros [Hs Hc Hb] Hu Hl Hn HW1 HW2 Hg1.
  pose proof (sh_Some _ _ _ Hu) as Hsu. unfold shape_of in Hsu.
  assert (sh (set_task u (with_dependents [] t) g1) = <[u := (op t, status t, [])]> (sh g)) as Esh.
  { rewrite sh_set_task. unfold sh. by rewrite Hg1. }
  split; rewrite ?Esh.
  - split; [|done|].
    + intros v s w p Hv. rewrite (edge_count_status _ u (op t) (status t) (dependents t)) by done.
      destruct (decide (u = v)) as [<-|].
      * rewrite lookup_insert_eq in Hv. simplify_eq. cbn. rewrite count_nil. lia.
      * rewrite lookup_insert_ne in Hv by done. by eapply si_edges.
    + intros x Hx. destruct (si_work _ _ Hs x (HW1 _ Hx)) as (o & ds & Hxs).
      destruct (decide (u = x)) as [<-|].
      * rewrite lookup_insert_eq. assert (status t = Blocked) as -> by congruence. eauto.
      * rewrite lookup_insert_ne by done. eauto.
  - intros v tv Hv. cbn in Hv. rewrite Hg1 in Hv.
    assert (∃ tv0, tasks g !! v = Some tv0 ∧ op tv = op tv0 ∧ remaining tv = remaining tv0
                   ∧ blocked tv = blocked tv0) as (tv0 & Hv0 & -> & -> & ->).
    { destruct (decide (u = v)) as [<-|].
      - rewrite lookup_insert_eq in Hv. simplify_eq. eauto.
      - rewrite lookup_insert_ne in Hv by done. eauto. }
    specialize (Hc _ _ Hv0). rewrite count_nil in Hc. rewrite count_targets.
    assert (unsat (<[u := (op t, status t, [])]> (sh g)) (dependencies (op tv0))
            = unsat (sh g) (dependencies (op tv0))) as ->.
    { unfold unsat. f_equal. apply list_filter_iff. intros [d p]. unfold sat_edge. cbn.
      destruct (decide (u = d)) as [<-|]; [rewrite lookup_insert_eq, Hsu|
        rewrite lookup_insert_ne by done]; done. }
    enough (owed W' (<[u := (op t, status t, [])]> (sh g)) v
            + count_sat v (status t) (dependents t) ≤ owed W (sh g) v) by lia.
    unfold owed. rewrite (msum_delete (owed_by W v) (sh g) u _ Hsu).
    rewrite (msum_delete (owed_by W' v) _ u (op t, status t, [])) by apply lookup_insert_eq.
    rewrite delete_insert_eq.
    rewrite (msum_ext (owed_by W' v) (owed_by W v)).
    + assert (owed_by W v u (op t, status t, dependents t)
              = count_sat v (status t) (dependents t)) as ->.
      { unfold owed_by. cbn [fst snd]. by rewrite Hl. }
      assert (owed_by W' v u (op t, status t, []) = 0) as ->.
      { unfold owed_by. cbn [fst snd]. rewrite count_sat_nil. by case_match. }
      lia.
    + intros k s Hk%lookup_delete_Some. unfold owed_by, live.
      rewrite (bool_decide_ext (k ∈ W') (k ∈ W)); [done|]. naive_solver.
  - intros v tv Hv Hbl. cbn in Hv. rewrite Hg1 in Hv.
    destruct (decide (u = v)) as [<-|].
    + rewrite lookup_insert_eq in Hv. simplify_eq. cbn in *. eauto.
    + rewrite lookup_insert_ne in Hv by done. eauto.
Qed.

Lemma CountInv_tasks W H g g' : tasks g' = tasks g → CountInv W H g → CountInv W H g'.
Proof. intros E [Hs Hc Hb]. split; unfold sh in *; rewrite E; done. Qed.

(** [terminalize] of a live task. *)
Lemma terminalize_inv W W' u g g' t :
  CountInv W [] g → tasks g !! u = Some t → live W u (status t) = true →
  NoDup W' → (∀ x, x ∈ W' → x ∈ W) → (∀ x, x ∈ W → x = u ∨ x ∈ W') →
  (u ∈ W → terminalized g !! u = None) →
  terminalize u g = Some g' → CountInv W' [] g'.
Proof.
  intros HI Hu Hl Hn HW1 HW2 Hled. rewrite terminalize_Some.
  intros [(n & Hn' & ->)|(_ & t' & Ht' & Hp)].
  - assert (u ∉ W) as HuW by (intros ?%Hled; congruence).
    apply (CountInv_tasks _ _ g); [done|]. destruct HI as [[He Hnd Hw] Hc Hb].
    split; [split; [done|done|by eauto]| |done].
    intros v tv Hv. specialize (Hc _ _ Hv).
    assert (owed W' (sh g) v = owed W (sh g) v) as ->; [|done].
    apply msum_ext. intros k s _. unfold owed_by, live.
    rewrite (bool_decide_ext (k ∈ W') (k ∈ W)); [done|].
    split; [apply HW1|]. intros Hk. destruct (HW2 _ Hk); [congruence|done].
  - simplify_eq. cbn zeta in Hp. eapply propagate_inv; [|exact Hp].
    apply notify_all_inv. rewrite app_nil_r. by apply (take_inv W W' u g).
Qed.

Lemma evolves_lookup g g' id t :
  evolves g g' → tasks g !! id = Some t →
  ∃ t', tasks g' !! id = Some t' ∧ op t' = op t ∧ status_le (status t) (status t') = true.
Proof.
  intros He Ht. destruct (He _ _ _ _ (sh_Some _ _ _ Ht)) as (st & ds & H & Hle).
  destruct (sh_inv _ _ _ _ _ H) as (t' & ? & ? & <- & _). eauto.
Qed.

Lemma edge_satisfied_le p st st' :
  edge_satisfied p st = true → status_le st st' = true → edge_satisfied p st' = true.
Proof. by destruct p, st, st'. Qed.

Lemma sat_edge_evolves g g' e :
  evolves g g' → sat_edge (sh g) e = true → sat_edge (sh g') e = true.
Proof.
  unfold sat_edge. intros He. destruct (sh g !! e.1) as [[[o st] ds]|] eqn:E; [|done]. cbn.
  destruct (He _ _ _ _ E) as (st' & ds' & -> & Hle). cbn. intros H. by eapply edge_satisfied_le.
Qed.

Lemma unsat_zero S deps : unsat S deps = 0 ↔ ∀ e, e ∈ deps → sat_edge S e = true.
Proof.
  unfold unsat. split.
  - intros H e He. apply length_zero_iff_nil in H.
    destruct (sat_edge S e) eqn:E; [done|].
    assert (e ∈ filter (λ e, sat_edge S e = false) deps) as Hin by (by apply list_elem_of_filter).
    rewrite H in Hin. by apply elem_of_nil in Hin.
  - intros H. apply length_zero_iff_nil. induction deps as [|e deps IH]; [done|].
    rewrite filter_cons, decide_False; [apply IH; set_solver|].
    rewrite H by set_solver. done.
Qed.

(** ** The ready queue *)
(** Queued ids are registered; a pending task of [Q] with nothing left to wait
    for is queued. *)
Record QueueInvP (Q : Prop) (g : Inner) : Prop := {
  qi_known id : id ∈ ready g → is_Some (tasks g !! id);
  qi_wake id t : Q → tasks g !! id = Some t → status t = Pending →
    remaining t = 0 → blocked t = 0 → id ∈ ready g;
}.
Notation QueueInv := (QueueInvP True).

Lemma release_edge_queue Q d g : QueueInvP Q g → QueueInvP Q (release_edge d g).
Proof.
  intros [Hk Hw]. unfold release_edge. destruct (tasks g !! d) as [t|] eqn:Ed; [|done].
  set (t' := with_counts (remaining t - 1) (blocked t) t).
  assert (∀ id, is_Some (tasks g !! id) → is_Some (tasks (set_task d t' g) !! id)) as Hdom.
  { intros id. cbn. rewrite lookup_insert_is_Some'. tauto. }
  assert (Q → ∀ id u, tasks (set_task d t' g) !! id = Some u → status u = Pending →
            remaining u = 0 → blocked u = 0 → id ∈ ready g
            ∨ (id = d ∧ remaining t - 1 = 0 ∧ blocked t = 0 ∧ status t = Pending)) as Hcase.
  { intros HQ id u. cbn. destruct (decide (d = id)) as [->|].
    - rewrite lookup_insert_eq. intros [= <-]. cbn. auto.
    - rewrite lookup_insert_ne by done. eauto. }
  unfold is_pending. destruct (_ && _) eqn:Eb.
  - split; cbn [push_ready with_ready ready tasks].
    + intros id [Hin|Hin%list_elem_of_singleton]%elem_of_app; [by apply Hdom, Hk|].
      subst. apply Hdom. eauto.
    + intros id u HQ Hu Hp Hr Hb. destruct (Hcase HQ id u) as [?|(-> & _)]; [done..| |];
        set_solver.
  - split; cbn [set_task with_tasks ready].
    + intros id Hin. by apply Hdom, Hk.
    + intros id u HQ Hu Hp Hr Hb. destruct (Hcase HQ id u) as [?|(-> & H1 & H2 & H3)]; [done..|].
      rewrite !bool_decide_eq_true_2 in Eb by done. done.
Qed.

Lemma block_edge_queue Q d g wl : QueueInvP Q g → QueueInvP Q (block_edge d (g, wl)).1.
Proof.
  intros [Hk Hw]. unfold block_edge. destruct (tasks g !! d) as [t|] eqn:Ed; [|done].
  case_match; (split; cbn [set_task with_tasks ready tasks fst];
    [intros id Hin; rewrite lookup_insert_is_Some'; eauto
    |intros id u HQ; destruct (decide (d = id)) as [->|];
      [rewrite lookup_insert_eq; intros [= <-]; cbn; done
      |rewrite lookup_insert_ne by done; eauto]]).
Qed.

Lemma notify_all_queue Q st es g wl :
  QueueInvP Q g → QueueInvP Q (foldl (notify_dependent st) (g, wl) es).1.
Proof.
  revert g wl; induction es as [|[d p] es IH]; intros g wl Hq; [done|]. cbn [foldl].
  enough (QueueInvP Q (notify_dependent st (g, wl) (d, p)).1) as H.
  { destruct (notify_dependent st (g, wl) (d, p)) as [g1 wl1]. by apply IH. }
  unfold notify_dependent. cbn [fst snd].
  case_match; [by apply release_edge_queue|]. case_match; [by apply block_edge_queue|done].
Qed.

Lemma terminalize_queue Q id g g' :
  QueueInvP Q g → terminalize id g = Some g' → QueueInvP Q g'.
Proof.
  intros Hq. rewrite terminalize_Some. intros [(n & _ & ->)|(_ & t & Ht & Hp)].
  { destruct Hq. by split. }
  cbn zeta in Hp. revert Hp. apply (propagate_ind (λ h _, QueueInvP Q h)).
  - intros h wl x Hh. by apply notify_all_queue.
  - apply notify_all_queue. destruct Hq as [Hk Hw].
    split; cbn [set_task with_tasks with_running with_terminalized ready tasks].
    + intros x Hx. rewrite lookup_insert_is_Some'. eauto.
    + intros x u HQ. destruct (decide (id = x)) as [->|].
      * rewrite lookup_insert_eq. intros [= <-]. cbn. eauto.
      * rewrite lookup_insert_ne by done. eauto.
Qed.

(** ** The invariant of one scheduler's state *)
Definition no_conflict (a b : OwnershipSet * OwnershipSet) : Prop :=
  overlaps a.2 b.2 = false ∧ overlaps a.2 b.1 = false ∧ overlaps a.1 b.2 = false.

Record InnerInv (g : Inner) : Prop := {
  ii_count : CountInv [] [] g;
  ii_queue : QueueInv g;
  ii_ledger id n : terminalized g !! id = Some n →
    ∃ t, tasks g !! id = Some t ∧ status_is_terminal (status t) = true;
  ii_running id rw : running g !! id = Some rw →
    ∃ t, tasks g !! id = Some t ∧ rw = (reads (op t), writes (op t))
         ∧ status_le Running (status t) = true
         ∧ unsat (sh g) (dependencies (op t)) = 0;
  ii_excl a b ra rb : running g !! a = Some ra → running g !! b = Some rb → a ≠ b →
    no_conflict ra rb;
}.

Lemma pending_unledgered g id t :
  InnerInv g → tasks g !! id = Some t → status t = Pending → terminalized g !! id = None.
Proof.
  intros HI Ht Hp. destruct (terminalized g !! id) as [n|] eqn:E; [|done].
  destruct (ii_ledger _ HI _ _ E) as (t' & Ht' & Hst). simplify_eq. by rewrite Hp in Hst.
Qed.

(** The facts about running tasks survive any evolution that starts none. *)
Lemma running_carry g g' id rw :
  InnerInv g → evolves g g' → running g !! id = Some rw →
  ∃ t, tasks g' !! id = Some t ∧ rw = (reads (op t), writes (op t))
       ∧ status_le Running (status t) = true
       ∧ unsat (sh g') (dependencies (op t)) = 0.
Proof.
  intros HI He Hr. destruct (ii_running _ HI _ _ Hr) as (t & Ht & -> & Hst & Hu).
  destruct (evolves_lookup _ _ _ _ He Ht) as (t' & Ht' & Hop & Hle).
  exists t'. rewrite Hop. split_and!; [done|done|by eapply status_le_trans|].
  rewrite unsat_zero in Hu |- *. intros e Hin. by eapply sat_edge_evolves, Hu.
Qed.

Lemma ledger_carry g g' id n :
  InnerInv g → evolves g g' → terminalized g !! id = Some n →
  ∃ t, tasks g' !! id = Some t ∧ status_is_terminal (status t) = true.
Proof.
  intros HI He Hl. destruct (ii_ledger _ HI _ _ Hl) as (t & Ht & Hst).
  destruct (evolves_lookup _ _ _ _ He Ht) as (t' & Ht' & _ & Hle).
  exists t'. split; [done|]. by rewrite (status_le_terminal _ _ Hle Hst).
Qed.

Lemma inner_inv_carry g g' :
  InnerInv g → evolves g g' → CountInv [] [] g' → QueueInv g' →
  running g' ⊆ running g → terminalized g' = terminalized g → InnerInv g'.
Proof.
  intros HI He Hc Hq Hr Hl. split; [done|done|..].
  - intros id n. rewrite Hl. intros H. by eapply ledger_carry.
  - intros id rw H. eapply running_carry; [done..|]. by eapply lookup_weaken.
  - intros a b ra rb Ha Hb. by eapply (ii_excl _ HI a b); eapply lookup_weaken.
Qed.

Lemma terminalize_inner u g g' t :
  InnerInv g → tasks g !! u = Some t → status_is_terminal (status t) = true →
  status t ≠ Blocked → terminalize u g = Some g' → InnerInv g'.
Proof.
  intros HI Hu Hst Hb Ht. pose proof (terminalize_evolves _ _ _ Ht) as He.
  pose proof (terminalize_frame _ _ _ Ht) as (_ & Hf).
  assert (CountInv [] [] g') as Hc.
  { eapply (terminalize_inv [] [] u g); [apply HI|done| |apply NoDup_nil_2|set_solver..|done].
    unfold live. by rewrite (bool_decide_eq_true_2 (_ ≠ _)). }
  pose proof (terminalize_queue _ _ _ _ (ii_queue _ HI) Ht) as Hq.
  assert (∀ id n, terminalized g' !! id = Some n →
            id = u ∨ ∃ m, terminalized g !! id = Some m) as Hled.
  { intros id n. destruct Hf as [(m & _ & _ & -> & _)|(_ & _ & ->)];
      destruct (decide (u = id)) as [->|]; auto; rewrite lookup_insert_ne by done; eauto. }
  assert (running g' ⊆ running g) as Hr.
  { destruct Hf as [(m & _ & -> & _)|(_ & -> & _)]; [done|]. apply delete_subseteq. }
  split; [done|done|..].
  - intros id n H. destruct (Hled _ _ H) as [->|(m & Hm)]; [|by eapply ledger_carry].
    destruct (evolves_lookup _ _ _ _ He Hu) as (t' & Ht' & _ & Hle).
    exists t'. split; [done|]. by rewrite (status_le_terminal _ _ Hle Hst).
  - intros id rw H. eapply running_carry; [done..|]. by eapply lookup_weaken.
  - intros a b ra rb Ha Hb'. by eapply (ii_excl _ HI a b); eapply lookup_weaken.
Qed.

(** Recording the outcome of a live task. *)
Lemma outcome_inner id g t t' :
  InnerInv g → tasks g !! id = Some t → status_is_terminal (status t) = false →
  op t' = op t → dependents t' = dependents t → remaining t' = remaining t →
  blocked t' = blocked t → status_is_terminal (status t') = true → status t' ≠ Blocked →
  InnerInv (set_task id t' g) ∧ evolves g (set_task id t' g).
Proof.
  intros HI Ht Hst Hop Hds Hrem Hblk Hst' Hb'.
  pose proof (sh_Some _ _ _ Ht) as Hs. unfold shape_of in Hs.
  assert (shape_of t' = (op t, status t', dependents t)) as Esh.
  { unfold shape_of. by rewrite Hop, Hds. }
  assert (evolves g (set_task id t' g)) as He.
  { eapply evolves_insert; [exact Hs|by rewrite sh_set_task, Esh|].
    destruct (status t), (status t'); done. }
  split; [|done]. destruct (ii_count _ HI) as [HS Hc Hbl]. destruct (ii_queue _ HI) as [Hk Hw].
  apply (inner_inv_carry g); [done|done| | |done|done].
  - split; rewrite ?sh_set_task, ?Esh.
    + apply (shape_status [] _ _ _ _ (status t)); [done|done|apply NoDup_nil_2|set_solver|].
      intros Hin. by apply elem_of_nil in Hin.
    + intros v tv Hv. cbn in Hv.
      pose proof (λ tt Htt, status_change [] [] (sh g) id (op t) (status t) (dependents t)
                    (status t') v tt HS Hs Hst (λ _ _, iff_refl _) Htt) as Hsc.
      destruct (decide (id = v)) as [<-|].
      * rewrite lookup_insert_eq in Hv. simplify_eq. specialize (Hsc _ Hs). cbn in Hsc.
        specialize (Hc _ _ Ht). rewrite Hop, Hrem, Hblk. lia.
      * rewrite lookup_insert_ne in Hv by done. specialize (Hsc _ (sh_Some _ _ _ Hv)).
        cbn in Hsc. specialize (Hc _ _ Hv). lia.
    + intros v tv Hv. cbn in Hv. destruct (decide (id = v)) as [<-|].
      * rewrite lookup_insert_eq in Hv. simplify_eq. intros _ E. by rewrite E in Hst'.
      * rewrite lookup_insert_ne in Hv by done. eauto.
  - split; cbn [set_task with_tasks ready tasks].
    + intros x Hx. rewrite lookup_insert_is_Some'. eauto.
    + intros x u HQ. destruct (decide (id = x)) as [->|].
      * rewrite lookup_insert_eq. intros [= <-] E. by rewrite E in Hst'.
      * rewrite lookup_insert_ne by done. eauto.
Qed.

Lemma mark_inner id st err now g :
  InnerInv g → status_is_terminal st = true → st ≠ Blocked →
  InnerInv (mark id st err now g) ∧ evolves g (mark id st err now g).
Proof.
  intros HI Hst Hb. unfold mark. destruct (tasks g !! id) as [t|] eqn:E; [|done].
  destruct (status_is_terminal (status t)) eqn:Et; [done|].
  by eapply outcome_inner.
Qed.

Lemma with_gauge_inner x g : InnerInv g → InnerInv (with_gauge x g).
Proof.
  intros HI. apply (inner_inv_carry g); [done|by apply evolves_sh|..|done|done].
  - by eapply CountInv_tasks, HI.
  - destruct (ii_queue _ HI). by split.
Qed.

Lemma try_cancel_inner id g g' tok :
  InnerInv g → try_cancel id g = Ok (Some g', tok) → InnerInv g' ∧ evolves g g'.
Proof.
  intros HI. unfold try_cancel. destruct (tasks g !! id) as [t|] eqn:E; [|done].
  destruct (status_is_terminal (status t)) eqn:Et; [done|].
  unfold is_pending. case_bool_decide as Hp; [|by intros [= <- _]].
  intros [= Ht _].
  destruct (outcome_inner id g t (with_status Cancelled t) HI E Et) as [HI' He]; [done..|].
  split.
  - eapply terminalize_inner; [exact HI'| | | |exact Ht]; [cbn; by rewrite lookup_insert_eq|done..].
  - etransitivity; [exact He|]. by eapply terminalize_evolves.
Qed.

(** ** Starting tasks *)
Definition start (lim : ResourceLimits) (now : Z) (id : OpId) (t : TaskState)
    (gauge' : ResourceGauge) (g : Inner) : Inner :=
  with_running (<[id := (reads (op t), writes (op t))]> (running g))
    (set_task id (with_start now (with_status Running t)) (with_gauge gauge' g)).

(** An induction principle for one scheduling pass: popping the head of the
    queue either drops it, defers it to the tail, or starts it. *)
Lemma schedule_pass_ind (P : Inner → list (OpId * ResourceClass) → Prop) lim now :
  (∀ g sp id rest t, P g sp → ready g = id :: rest → tasks g !! id = Some t →
     status t ≠ Pending ∨ remaining t ≠ 0 → P (with_ready rest g) sp) →
  (∀ g sp id rest t, P g sp → ready g = id :: rest → tasks g !! id = Some t →
     P (push_ready id (with_ready rest g)) sp) →
  (∀ g sp id rest t gauge', P g sp → ready g = id :: rest → tasks g !! id = Some t →
     status t = Pending → remaining t = 0 → conflicts (op t) (running g) = false →
     ResourceGauge.try_acquire (gauge g) (resource_class (op t)) lim = Ok gauge' →
     P (start lim now id t gauge' (with_ready rest g)) (sp ++ [(id, resource_class (op t))])) →
  ∀ fuel n deferred g sp g' sp',
    P g sp → schedule_pass fuel n lim now deferred g sp = Some (g', sp') → P g' sp'.
Proof.
  intros Hdrop Hdefer Hstart. induction fuel as [|fuel IH]; intros n deferred g sp g' sp' HP Hs;
    cbn in Hs; [by simplify_eq|].
  case_bool_decide; [by simplify_eq|]. destruct (ready g) as [|id rest] eqn:Er; [by simplify_eq|].
  cbn in Hs. destruct (tasks g !! id) as [t|] eqn:Et; [cbn in Hs|done].
  unfold is_pending in Hs. case_bool_decide as Hp; cbn in Hs; [|by eapply IH; [|exact Hs]; eauto].
  case_bool_decide as Hr; cbn in Hs; [by eapply IH; [|exact Hs]; eauto|].
  destruct (conflicts _ _) eqn:Ec; [by eapply IH; [|exact Hs]; eapply Hdefer|].
  destruct (ResourceGauge.try_acquire _ _ _) as [gauge'|] eqn:Eg;
    [|by eapply IH; [|exact Hs]; eapply Hdefer].
  eapply IH; [|exact Hs]. eapply (Hstart g sp id rest t gauge'); done.
Qed.

Lemma conflicts_false o run id rr ww :
  conflicts o run = false → run !! id = Some (rr, ww) →
  no_conflict (reads o, writes o) (rr, ww) ∧ no_conflict (rr, ww) (reads o, writes o).
Proof.
  unfold conflicts. intros Hc Hr. rewrite <- not_true_iff_false, existsb_exists in Hc.
  destruct (overlaps (writes o) ww || overlaps (writes o) rr || overlaps (reads o) ww) eqn:E.
  - exfalso. apply Hc. exists (id, (rr, ww)). split; [|done].
    by apply list_elem_of_In, elem_of_map_to_list.
  - apply orb_false_iff in E as [[E1 E2]%orb_false_iff E3]. unfold no_conflict.
    cbn [fst snd]. rewrite (overlaps_sym ww (writes o)), (overlaps_sym ww (reads o)),
      (overlaps_sym rr (writes o)). auto.
Qed.

Lemma start_sh lim now id t x g :
  sh (start lim now id t x g) = <[id := (op t, Running, dependents t)]> (sh g).
Proof. exact (sh_set_task (with_gauge x g) id (with_start now (with_status Running t))). Qed.

Lemma start_evolves lim now id t x g :
  tasks g !! id = Some t → status t = Pending → evolves g (start lim now id t x g).
Proof.
  intros Ht Hp. eapply evolves_insert; [exact (sh_Some _ _ _ Ht)|apply start_sh|by rewrite Hp].
Qed.

Lemma ready_inner g q :
  InnerInv g → (∀ id, id ∈ q → is_Some (tasks g !! id)) →
  (∀ id t, tasks g !! id = Some t → status t = Pending → remaining t = 0 → id ∈ ready g → id ∈ q) →
  InnerInv (with_ready q g).
Proof.
  intros HI Hk Hw. apply (inner_inv_carry g); [done|by apply evolves_sh|..|done|done].
  - by eapply CountInv_tasks, HI.
  - split; [done|]. intros id t _ Ht Hp Hr Hb. eapply Hw; eauto.
    by eapply (qi_wake _ _ (ii_queue _ HI)).
Qed.

Lemma drop_inner g id rest t :
  InnerInv g → ready g = id :: rest → tasks g !! id = Some t →
  status t ≠ Pending ∨ remaining t ≠ 0 → InnerInv (with_ready rest g).
Proof.
  intros HI Er Ht Hs. apply ready_inner; [done|..]; intros v.
  - intros Hv. apply (qi_known _ _ (ii_queue _ HI)). rewrite Er. set_solver.
  - intros tv Htv Hp Hr. rewrite Er. intros [->|]%elem_of_cons; naive_solver.
Qed.

Lemma defer_inner g id rest :
  InnerInv g → ready g = id :: rest → InnerInv (push_ready id (with_ready rest g)).
Proof.
  intros HI Er. apply (ready_inner g (rest ++ [id])); [done|..]; intros v.
  - intros Hv. apply (qi_known _ _ (ii_queue _ HI)). rewrite Er. set_solver.
  - intros tv _ _ _. rewrite Er. set_solver.
Qed.

Lemma start_inner lim now id t x g rest :
  InnerInv g → ready g = id :: rest → tasks g !! id = Some t → status t = Pending →
  remaining t = 0 → conflicts (op t) (running g) = false →
  InnerInv (start lim now id t x (with_ready rest g)).
Proof.
  intros HI Er Ht Hp Hr Hconf. set (g' := start lim now id t x (with_ready rest g)).
  assert (evolves g g') as He.
  { etransitivity; [|by apply start_evolves]. by apply evolves_sh. }
  pose proof (sh_Some _ _ _ Ht) as Hs. unfold shape_of in Hs.
  assert (sh g' = <[id := (op t, Running, dependents t)]> (sh g)) as Esh.
  { exact (start_sh lim now id t x (with_ready rest g)). }
  destruct (ii_count _ HI) as [HS Hc Hbl]. destruct (ii_queue _ HI) as [Hk Hw].
  assert (status_is_terminal (status t) = false) as Hnt by (by rewrite Hp).
  assert (blocked t = 0) as Hb0.
  { destruct (decide (0 < blocked t)) as [E|]; [|lia]. by apply (Hbl _ _ Ht) in E. }
  assert (unsat (sh g) (dependencies (op t)) = 0) as Hu0.
  { specialize (Hc _ _ Ht). lia. }
  assert (running g !! id = None) as Hnr.
  { destruct (running g !! id) as [rw|] eqn:E; [|done].
    destruct (ii_running _ HI _ _ E) as (t0 & Ht0 & _ & Hle & _). simplify_eq.
    rewrite Hp in Hle. done. }
  split.
  - split; rewrite ?Esh.
    + apply (shape_status [] _ _ _ _ (status t)); [done|done|apply NoDup_nil_2|set_solver|].
      intros Hin. by apply elem_of_nil in Hin.
    + intros v tv Hv.
      pose proof (λ tt Htt, status_change [] [] (sh g) id (op t) (status t) (dependents t)
                    Running v tt HS Hs Hnt (λ _ _, iff_refl _) Htt) as Hsc.
      cbn in Hv. destruct (decide (id = v)) as [<-|].
      * rewrite lookup_insert_eq in Hv. simplify_eq. specialize (Hsc _ Hs). cbn in Hsc.
        specialize (Hc _ _ Ht). cbn. lia.
      * rewrite lookup_insert_ne in Hv by done. specialize (Hsc _ (sh_Some _ _ _ Hv)).
        cbn in Hsc. specialize (Hc _ _ Hv). lia.
    + intros v tv Hv. cbn in Hv. destruct (decide (id = v)) as [<-|].
      * rewrite lookup_insert_eq in Hv. by simplify_eq.
      * rewrite lookup_insert_ne in Hv by done. eauto.
  - split; unfold g', start; cbn.
    + intros v Hv. rewrite lookup_insert_is_Some'. right. apply Hk. rewrite Er. set_solver.
    + intros v tv _. destruct (decide (id = v)) as [->|].
      * rewrite lookup_insert_eq. by intros [= <-].
      * rewrite lookup_insert_ne by done. intros Hv Hpv Hrv Hbv.
        specialize (Hw _ _ I Hv Hpv Hrv Hbv). rewrite Er in Hw. set_solver.
  - intros v n Hl. by eapply (ledger_carry g).
  - intros v rw Hrun. unfold g' in Hrun. cbn in Hrun. destruct (decide (id = v)) as [<-|].
    + rewrite lookup_insert_eq in Hrun. simplify_eq.
      exists (with_start now (with_status Running t)). split_and!; [|done|done|].
      * unfold g'. cbn. by rewrite lookup_insert_eq.
      * rewrite unsat_zero in Hu0 |- *. intros e Hin. by eapply sat_edge_evolves, Hu0.
    + rewrite lookup_insert_ne in Hrun by done. by eapply (running_carry g).
  - intros a b ra rb. unfold g'. cbn.
    destruct (decide (id = a)) as [<-|], (decide (id = b)) as [<-|];
      rewrite ?lookup_insert_eq, ?lookup_insert_ne by done; intros Ha Hb Hne; simplify_eq.
    + destruct rb. by eapply conflicts_false.
    + destruct ra. by eapply conflicts_false.
    + by eapply (ii_excl _ HI a b).
Qed.

(** ** Registering edges

    [S0] is the shape before the loop over the edges of [id], [S] the shape
    reached, [dn] the edges processed and [cost] the waiting and dead edges
    counted so far. *)
Record Reg (W : list OpId) (S0 S : gmap OpId Shape) (id : OpId)
    (dn : list (OpId * DependencyPolicy)) (cost : nat) : Prop := {
  rg_same k : fst <$> S !! k = fst <$> S0 !! k;
  rg_edges u s s0 t p : S !! u = Some s → S0 !! u = Some s0 →
    count (t, p) s.2 ≤ count (t, p) s0.2 + (if decide (t = id) then count (u, p) dn else 0);
  rg_owed t : t ≠ id → owed W S t = owed W S0 t;
  rg_cost : unsat S0 dn + owed W S id ≤ cost + owed W S0 id;
}.

Lemma reg_init W S0 id : Reg W S0 S0 id [] 0.
Proof. split; [done| |done|]; [intros; simplify_eq; case_decide; lia|cbn; lia]. Qed.

Lemma unsat_snoc S dn e :
  unsat S (dn ++ [e]) = unsat S dn + (if sat_edge S e then 0 else 1).
Proof.
  unfold unsat. rewrite filter_app, length_app. f_equal. rewrite filter_cons.
  destruct (sat_edge S e); [rewrite decide_False by done|rewrite decide_True by done]; done.
Qed.

Lemma reg_none W S0 S id dn cost e c :
  Reg W S0 S id dn cost → (sat_edge S0 e = true ∨ c = 1) →
  Reg W S0 S id (dn ++ [e]) (cost + c).
Proof.
  intros [H1 H2 H3 H4] He. split; [done| |done|].
  - intros u s s0 t p Hu Hu0. specialize (H2 u s s0 t p Hu Hu0).
    case_decide; [|done]. rewrite count_app. lia.
  - rewrite unsat_snoc. destruct He as [->| ->]; [lia|]. destruct (sat_edge S0 e); lia.
Qed.

Lemma count_sat_snoc t st ds id p :
  count_sat t st (ds ++ [(id, p)])
  = count_sat t st ds + (if decide (t = id) then (if edge_satisfied p st then 1 else 0) else 0).
Proof.
  unfold count_sat. rewrite !count_app, !count_cons, !count_nil.
  destruct (decide (t = id)) as [->|Hne].
  - destruct p; repeat case_decide; simplify_eq; destruct st; cbn; lia.
  - rewrite (decide_False (P := (id, p) = (t, Success))), (decide_False (P := (id, p) = (t, Terminal))),
      (decide_False (P := (id, p) = (t, Always))) by congruence.
    destruct st; cbn; lia.
Qed.

Lemma owed_push W S d o st ds id p t :
  S !! d = Some (o, st, ds) →
  owed W (<[d := (o, st, ds ++ [(id, p)])]> S) t
  = owed W S t
    + (if decide (t = id) then (if live W d st && edge_satisfied p st then 1 else 0) else 0).
Proof.
  intros Hd. unfold owed.
  pose proof (msum_insert (owed_by W t) S d _ (o, st, ds ++ [(id, p)]) Hd) as Hm.
  unfold owed_by in Hm at 2 4. cbn [fst snd] in Hm. rewrite count_sat_snoc in Hm.
  destruct (live W d st), (decide (t = id)); cbn [andb]; lia.
Qed.

Lemma reg_push W S0 S id dn cost d p o st ds :
  Reg W S0 S id dn cost → S !! d = Some (o, st, ds) →
  Reg W S0 (<[d := (o, st, ds ++ [(id, p)])]> S) id (dn ++ [(d, p)]) (cost + 1).
Proof.
  intros [H1 H2 H3 H4] Hd. split.
  - intros k. rewrite <- H1. destruct (decide (d = k)) as [<-|].
    + by rewrite lookup_insert_eq, Hd.
    + by rewrite lookup_insert_ne.
  - intros u s s0 t q Hu Hu0. destruct (decide (d = u)) as [<-|].
    + rewrite lookup_insert_eq in Hu. simplify_eq. specialize (H2 _ _ _ t q Hd Hu0). cbn in *.
      rewrite count_app, count_cons, count_nil. destruct (decide (t = id)) as [->|].
      * rewrite count_app, count_cons, count_nil. repeat case_decide; simplify_eq; lia.
      * rewrite (decide_False (P := (id, p) = (t, q))) by congruence. lia.
    + rewrite lookup_insert_ne in Hu by done. specialize (H2 _ _ _ t q Hu Hu0).
      case_decide; [|done]. rewrite count_app. lia.
  - intros t Ht. rewrite (owed_push _ _ _ o st ds) by done. rewrite decide_False by done.
    rewrite H3 by done. lia.
  - rewrite unsat_snoc, (owed_push _ _ _ o st ds), decide_True by done.
    assert (sat_edge S0 (d, p) = edge_satisfied p st) as ->.
    { unfold sat_edge. cbn. specialize (H1 d). rewrite Hd in H1.
      destruct (S0 !! d) as [[[o0 st0] ds0]|]; cbn in H1; [|done]. cbn. by simplify_eq. }
    destruct (edge_satisfied p st), (live W d st); cbn; lia.
Qed.

(** The fields the registration loops never write. *)
Definition core (t : TaskState) : TaskState := with_dependents [] t.

Lemma core_push (ts : gmap OpId TaskState) d td ds :
  ts !! d = Some td → core <$> <[d := with_dependents ds td]> ts = core <$> ts.
Proof.
  intros Hd. rewrite fmap_insert. apply insert_id. by rewrite lookup_fmap, Hd.
Qed.

Lemma shape_push (ts : gmap OpId TaskState) d td ds :
  shape_of <$> <[d := with_dependents ds td]> ts
  = <[d := (op td, status td, ds)]> (shape_of <$> ts).
Proof. by rewrite fmap_insert. Qed.

Lemma fmap_shape_Some (ts : gmap OpId TaskState) d td :
  ts !! d = Some td → (shape_of <$> ts) !! d = Some (op td, status td, dependents td).
Proof. intros H. by rewrite lookup_fmap, H. Qed.

Lemma register_loop W S0 id deps : ∀ dn (ts : gmap OpId TaskState) rem blk ts' rem' blk',
  Reg W S0 (shape_of <$> ts) id dn (rem + blk) →
  foldl (register_edge id) (ts, rem, blk) deps = (ts', rem', blk') →
  Reg W S0 (shape_of <$> ts') id (dn ++ deps) (rem' + blk') ∧ core <$> ts' = core <$> ts.
Proof.
  induction deps as [|[d p] deps IH]; intros dn ts rem blk ts' rem' blk' HR Hf.
  { cbn in Hf. simplify_eq. by rewrite app_nil_r. }
  replace (dn ++ (d, p) :: deps) with ((dn ++ [(d, p)]) ++ deps) by by rewrite <- app_assoc.
  cbn [foldl] in Hf. unfold register_edge at 2 in Hf.
  destruct (ts !! d) as [td|] eqn:Ed.
  2:{ eapply IH; [|exact Hf]. replace (S rem + blk) with (rem + blk + 1) by lia.
      apply reg_none; auto. }
  assert (edge_satisfied p (status td) = sat_edge S0 (d, p)) as Esat.
  { unfold sat_edge. cbn. pose proof (rg_same _ _ _ _ _ _ HR d) as Hs.
    rewrite (fmap_shape_Some _ _ _ Ed) in Hs.
    destruct (S0 !! d) as [[[o0 st0] ds0]|]; cbn in Hs; [|done]. cbn. by simplify_eq. }
  destruct (edge_satisfied p (status td)) eqn:Es.
  { eapply IH; [|exact Hf]. replace (rem + blk) with (rem + blk + 0) by lia.
    apply reg_none; auto. }
  destruct (_ && _).
  { eapply IH; [|exact Hf]. replace (rem + S blk) with (rem + blk + 1) by lia.
    apply reg_none; auto. }
  assert (core <$> ts' = core <$> ts ↔ core <$> ts' =
          core <$> <[d := with_dependents (dependents td ++ [(id, p)]) td]> ts) as ->.
  { by rewrite core_push. }
  eapply IH; [|exact Hf]. rewrite shape_push. replace (S rem + blk) with (rem + blk + 1) by lia.
  apply reg_push; [done|]. by apply fmap_shape_Some.
Qed.

Lemma recount_None statuses id deps : foldl (recount_edge statuses id) None deps = None.
Proof. by induction deps. Qed.

(** [statuses] is the snapshot: every current status follows it. *)
Lemma recount_loop W S0 id statuses deps : ∀ dn (ts : gmap OpId TaskState) rem blk ts' rem' blk',
  (∀ d st0, statuses d = Some st0 → ∃ s, S0 !! d = Some s ∧ status_le st0 s.1.2 = true) →
  Reg W S0 (shape_of <$> ts) id dn (rem + blk) →
  foldl (recount_edge statuses id) (Some (ts, rem, blk)) deps = Some (ts', rem', blk') →
  Reg W S0 (shape_of <$> ts') id (dn ++ deps) (rem' + blk') ∧ core <$> ts' = core <$> ts.
Proof.
  induction deps as [|[d p] deps IH]; intros dn ts rem blk ts' rem' blk' Hst HR Hf.
  { cbn in Hf. simplify_eq. by rewrite app_nil_r. }
  replace (dn ++ (d, p) :: deps) with ((dn ++ [(d, p)]) ++ deps) by by rewrite <- app_assoc.
  cbn [foldl] in Hf. unfold recount_edge at 2 in Hf. cbn in Hf.
  destruct (statuses d) as [st0|] eqn:Es0; cbn in Hf; [|by rewrite recount_None in Hf].
  destruct (edge_satisfied p st0) eqn:Es.
  { eapply IH; [done| |exact Hf]. replace (rem + blk) with (rem + blk + 0) by lia.
    apply reg_none; [done|]. left. destruct (Hst _ _ Es0) as (s & Hs & Hle).
    unfold sat_edge. cbn. rewrite Hs. by eapply edge_satisfied_le. }
  destruct (_ && _).
  { eapply IH; [done| |exact Hf]. replace (rem + S blk) with (rem + blk + 1) by lia.
    apply reg_none; auto. }
  destruct (ts !! d) as [td|] eqn:Ed; cbn in Hf; [|by rewrite recount_None in Hf].
  assert (core <$> ts' = core <$> ts ↔ core <$> ts' =
          core <$> <[d := with_dependents (dependents td ++ [(id, p)]) td]> ts) as ->.
  { by rewrite core_push. }
  eapply IH; [done| |exact Hf]. rewrite shape_push. replace (S rem + blk) with (rem + blk + 1) by lia.
  apply reg_push; [done|]. by apply fmap_shape_Some.
Qed.

Lemma unsat_mono S S' deps :
  (∀ e, sat_edge S e = true → sat_edge S' e = true) → unsat S' deps ≤ unsat S deps.
Proof.
  intros H. unfold unsat. induction deps as [|e deps IH]; [done|].
  rewrite !filter_cons. specialize (H e).
  destruct (sat_edge S e) eqn:E.
  - rewrite (decide_False (P := sat_edge S' e = false)); [|by rewrite H].
    rewrite decide_False by done. done.
  - rewrite (decide_True (P := false = false)) by done. cbn.
    case_decide; cbn; lia.
Qed.

Lemma owed_unknown W S id : ShapeInv W S → S !! id = None → owed W S id = 0.
Proof.
  intros HS Hid. apply msum_zero. intros u s Hu. unfold owed_by.
  destruct (live W u s.1.2); [|done].
  unfold count_sat. pose proof (λ p, si_edges _ _ HS u s id p Hu) as He.
  unfold edge_count in He. setoid_rewrite Hid in He.
  pose proof (He Success). pose proof (He Terminal). pose proof (He Always).
  destruct (edge_satisfied Success s.1.2), (edge_satisfied Terminal s.1.2),
    (edge_satisfied Always s.1.2); lia.
Qed.

Lemma core_lookup (ts ts' : gmap OpId TaskState) k t :
  core <$> ts' = core <$> ts → ts' !! k = Some t →
  ∃ t0, ts !! k = Some t0 ∧ core t = core t0.
Proof.
  intros E Hk. assert ((core <$> ts') !! k = Some (core t)) as H by (by rewrite lookup_fmap, Hk).
  rewrite E, lookup_fmap in H. apply fmap_Some in H as (t0 & ? & ?). eauto.
Qed.

Lemma core_eq t t0 :
  core t = core t0 → op t = op t0 ∧ status t = status t0 ∧ remaining t = remaining t0
                     ∧ blocked t = blocked t0.
Proof. unfold core, with_dependents. by intros [= -> -> _ _ _ -> ->]. Qed.

(** The successful outcomes of a submission. *)
Lemma try_submit_Ok o g g' :
  try_submit o g = Ok g' →
  (∃ t, tasks g !! operation_id (meta o) = Some t ∧ same_registration (op t) o = true ∧ g' = g)
  ∨ (tasks g !! operation_id (meta o) = None ∧ size (tasks g) < MAX_TASKS_PER_DAG
     ∧ length (dependencies o) ≤ MAX_DEPENDENCIES_PER_TASK
     ∧ ∃ ts rem blk st,
         foldl (register_edge (operation_id (meta o))) (tasks g, 0, 0) (dependencies o)
           = (ts, rem, blk)
         ∧ st = (if bool_decide (0 < blk) then Blocked else Pending)
         ∧ g' = (let t := MkTask o st None 0 None rem blk [] in
                 let g1 := with_tasks (<[operation_id (meta o) := t]> ts) g in
                 if bool_decide (rem = 0) && bool_decide (blk = 0) && bool_decide (st = Pending)
                 then push_ready (operation_id (meta o)) g1 else g1)).
Proof.
  unfold try_submit. cbn zeta. case_bool_decide; [done|]. case_bool_decide; [done|].
  destruct (tasks g !! _) as [t|].
  { destruct (same_registration (op t) o) eqn:E; [|done]. intros [= <-]. left. eauto. }
  case_bool_decide as Hs; [done|]. intros Ho. right.
  split; [done|]. split; [lia|]. split; [lia|].
  destruct (foldl _ _ _) as [[ts rem] blk]. injection Ho as Ho.
  eexists ts, rem, blk, _. split; [done|]. split; [done|]. by symmetry.
Qed.

Lemma try_submit_inner o g g' :
  InnerInv g → try_submit o g = Ok g' → InnerInv g' ∧ evolves g g'.
Proof.
  intros HI [(t & _ & _ & ->)|(Hid & _ & _ & ts & rem & blk & st & Hf & -> & ->)]%try_submit_Ok;
    [done|].
  set (id := operation_id (meta o)) in *. cbn zeta.
  set (st := if bool_decide (0 < blk) then Blocked else Pending).
  set (t := MkTask o st None 0 None rem blk []).
  set (g1 := with_tasks (<[id := t]> ts) g).
  destruct (ii_count _ HI) as [HS Hc Hbl].
  destruct (register_loop [] (sh g) id (dependencies o) [] (tasks g) 0 0 ts rem blk) as [HR Hcore];
    [apply reg_init|exact Hf|]. cbn [app] in HR.
  assert (Hown : owed [] (sh g) id = 0) by (apply owed_unknown; [done|by rewrite sh_lookup, Hid]).
  assert (Hts : ts !! id = None).
  { destruct (ts !! id) as [u|] eqn:E; [|done].
    destruct (core_lookup _ _ _ _ Hcore E) as (? & ? & _). congruence. }
  assert (Esh : sh g1 = <[id := (o, st, [])]> (shape_of <$> ts)).
  { unfold g1, sh. cbn. by rewrite fmap_insert. }
  assert (He : evolves g g1).
  { intros k ok sk dsk Hk. rewrite Esh. pose proof (rg_same _ _ _ _ _ _ HR k) as Hsame.
    rewrite Hk in Hsame. cbn in Hsame. destruct (decide (id = k)) as [<-|].
    - by rewrite sh_lookup, Hid in Hk.
    - rewrite lookup_insert_ne by done.
      destruct ((shape_of <$> ts) !! k) as [[[o1 s1] d1]|]; cbn in Hsame; simplify_eq.
      eauto using status_le_refl. }
  assert (Howed : ∀ k, owed [] (sh g1) k = owed [] (shape_of <$> ts) k).
  { intros k. rewrite Esh. unfold owed. rewrite msum_insert_fresh by (by rewrite lookup_fmap, Hts).
    unfold owed_by at 1. cbn [fst snd]. rewrite count_sat_nil. by case_match. }
  assert (Hun : ∀ deps, unsat (sh g1) deps ≤ unsat (sh g) deps).
  { intros deps. apply unsat_mono. intros e. by apply sat_edge_evolves. }
  assert (Hcount : CountInv [] [] g1).
  { split.
    - rewrite Esh. split; [|apply NoDup_nil_2|intros x Hx; by apply elem_of_nil in Hx].
      intros u s k p Hu. destruct (decide (id = u)) as [<-|Hne].
      { rewrite lookup_insert_eq in Hu. simplify_eq. cbn. rewrite count_nil. lia. }
      rewrite lookup_insert_ne in Hu by done.
      pose proof (rg_same _ _ _ _ _ _ HR u) as Hsame. rewrite Hu in Hsame.
      destruct (sh g !! u) as [s0|] eqn:Es0; [|done].
      pose proof (rg_edges _ _ _ _ _ _ HR u s s0 k p Hu Es0) as Hle.
      pose proof (si_edges _ _ HS u s0 k p Es0) as Hle0. unfold edge_count in *.
      destruct (decide (k = id)) as [->|].
      + rewrite lookup_insert_eq. cbn. rewrite sh_lookup, Hid in Hle0. cbn in Hle0. lia.
      + rewrite lookup_insert_ne by done. pose proof (rg_same _ _ _ _ _ _ HR k) as Hk.
        destruct ((shape_of <$> ts) !! k) as [[[o1 s1] d1]|], (sh g !! k) as [[[o2 s2] d2]|];
          cbn in Hk; simplify_eq; cbn in *; lia.
    - intros k tk Hk. cbn in Hk. rewrite count_nil, Howed. destruct (decide (id = k)) as [<-|].
      + rewrite lookup_insert_eq in Hk. simplify_eq. cbn [op remaining blocked].
        pose proof (rg_cost _ _ _ _ _ _ HR). specialize (Hun (dependencies o)). lia.
      + rewrite lookup_insert_ne in Hk by done.
        destruct (core_lookup _ _ _ _ Hcore Hk) as (t0 & Ht0 & (-> & _ & -> & ->)%core_eq).
        rewrite (rg_owed _ _ _ _ _ _ HR) by done. specialize (Hc _ _ Ht0).
        specialize (Hun (dependencies (op t0))). lia.
    - intros k tk Hk. cbn in Hk. destruct (decide (id = k)) as [<-|].
      + rewrite lookup_insert_eq in Hk. simplify_eq. cbn. intros Hb. unfold st.
        by rewrite bool_decide_eq_true_2.
      + rewrite lookup_insert_ne in Hk by done.
        destruct (core_lookup _ _ _ _ Hcore Hk) as (t0 & Ht0 & (_ & -> & _ & ->)%core_eq). eauto. }
  assert (Hdom : ∀ k, is_Some (tasks g !! k) → is_Some (tasks g1 !! k)).
  { intros k [tk Hk]. destruct (evolves_lookup _ _ _ _ He Hk) as (? & ? & _). eauto. }
  destruct (ii_queue _ HI) as [Hk Hw].
  assert (Hwake : ∀ k tk, tasks g1 !! k = Some tk → status tk = Pending → remaining tk = 0 →
            blocked tk = 0 → k ∈ ready g ∨ (k = id ∧ rem = 0 ∧ blk = 0 ∧ st = Pending)).
  { intros k tk. cbn. destruct (decide (id = k)) as [<-|].
    - rewrite lookup_insert_eq. intros [= <-]. cbn. auto.
    - rewrite lookup_insert_ne by done. intros Hkk.
      destruct (core_lookup _ _ _ _ Hcore Hkk) as (t0 & Ht0 & (_ & -> & -> & ->)%core_eq). eauto. }
  destruct (_ && _) eqn:Eb; (split; [|done]).
  - apply (inner_inv_carry g); [done|done|by apply (CountInv_tasks _ _ g1)| |done|done].
    split; cbn.
    + intros k [Hin|Hin%list_elem_of_singleton]%elem_of_app; [by apply Hdom, Hk|].
      subst k. rewrite lookup_insert_eq. eauto.
    + intros k tk _ Htk Hp Hr Hb. destruct (Hwake k tk) as [?|(-> & _)]; [done..| |]; set_solver.
  - apply (inner_inv_carry g); [done|done|done| |done|done].
    split.
    + intros k Hin. by apply Hdom, Hk.
    + intros k tk _ Htk Hp Hr Hb. destruct (Hwake k tk) as [?|(-> & H1 & H2 & H3)]; [done..|].
      by rewrite !bool_decide_eq_true_2 in Eb.
Qed.

(** ** Rebuilding the graph

    [D] are the tasks recounted so far, [W] the ones newly blocked. *)
Record Partial (W D : list OpId) (ts : gmap OpId TaskState) : Prop := {
  pt_shape : ShapeInv W (shape_of <$> ts);
  pt_count t tt : t ∈ D → ts !! t = Some tt →
    unsat (shape_of <$> ts) (dependencies (op tt)) + owed W (shape_of <$> ts) t
    ≤ remaining tt + blocked tt;
  pt_blocked t tt : t ∈ D → ts !! t = Some tt → 0 < blocked tt → status tt ≠ Pending;
  pt_fresh t u tu p : t ∉ D → ts !! u = Some tu → count (t, p) (dependents tu) = 0;
}.

Definition follows (statuses : OpId → option TaskStatus) (ts : gmap OpId TaskState) : Prop :=
  ∀ d st0, statuses d = Some st0 → ∃ td, ts !! d = Some td ∧ status_le st0 (status td) = true.

Lemma unsat_fst S S' deps :
  (∀ k, fst <$> S !! k = fst <$> S' !! k) → unsat S deps = unsat S' deps.
Proof.
  intros H. unfold unsat. f_equal. apply list_filter_iff. intros [d p]. unfold sat_edge. cbn.
  specialize (H d). destruct (S !! d) as [[[??]?]|], (S' !! d) as [[[??]?]|]; cbn in *;
    by simplify_eq.
Qed.

Lemma edge_count_fst S S' u t p :
  (∀ k, fst <$> S !! k = fst <$> S' !! k) → edge_count S u t p = edge_count S' u t p.
Proof.
  intros H. unfold edge_count. specialize (H t).
  destruct (S !! t) as [[[??]?]|], (S' !! t) as [[[??]?]|]; cbn in *; by simplify_eq.
Qed.

(** The edges of one task have been registered and its counts set. *)
Lemma partial_edges W D ts ts1 id t t1 rem blk :
  Partial W D ts → id ∉ D → ts !! id = Some t →
  Reg W (shape_of <$> ts) (shape_of <$> ts1) id (dependencies (op t)) (rem + blk) →
  core <$> ts1 = core <$> ts → ts1 !! id = Some t1 →
  ShapeInv W (shape_of <$> ts1)
  ∧ unsat (shape_of <$> ts1) (dependencies (op t)) + owed W (shape_of <$> ts1) id ≤ rem + blk
  ∧ (∀ k tk, k ∈ D → ts1 !! k = Some tk →
       unsat (shape_of <$> ts1) (dependencies (op tk)) + owed W (shape_of <$> ts1) k
       ≤ remaining tk + blocked tk ∧ (0 < blocked tk → status tk ≠ Pending))
  ∧ (∀ k u tu p, k ∉ D → k ≠ id → ts1 !! u = Some tu → count (k, p) (dependents tu) = 0).
Proof.
  intros HP Hid Ht HR Hcore Ht1. pose proof (rg_same _ _ _ _ _ _ HR) as Hsame.
  assert (Hback : ∀ u tu, ts1 !! u = Some tu →
            ∃ tu0, ts !! u = Some tu0 ∧ core tu = core tu0 ∧ ∀ k p,
              count (k, p) (dependents tu) ≤ count (k, p) (dependents tu0)
                + (if decide (k = id) then count (u, p) (dependencies (op t)) else 0)).
  { intros u tu Hu. destruct (core_lookup _ _ _ _ Hcore Hu) as (tu0 & Hu0 & Ec).
    exists tu0. split; [done|]. split; [done|]. intros k p.
    by apply (rg_edges _ _ _ _ _ _ HR u _ _ k p (fmap_shape_Some _ _ _ Hu) (fmap_shape_Some _ _ _ Hu0)). }
  assert (Hown : owed W (shape_of <$> ts) id = 0).
  { apply msum_zero. intros u s Hu. rewrite lookup_fmap in Hu.
    apply fmap_Some in Hu as (tu & Hu & ->). unfold owed_by. cbn.
    pose proof (λ p, pt_fresh _ _ _ HP id u tu p Hid Hu) as Hz. unfold count_sat.
    rewrite !Hz. destruct (live _ _ _), (status tu); done. }
  split_and!.
  - split; [|eapply si_nodup, HP|].
    + intros u s k p Hu. rewrite lookup_fmap in Hu. apply fmap_Some in Hu as (tu & Hu & ->).
      destruct (Hback _ _ Hu) as (tu0 & Hu0 & _ & Hle). specialize (Hle k p). cbn [snd shape_of].
      rewrite (edge_count_fst _ (shape_of <$> ts)) by done.
      pose proof (si_edges _ _ (pt_shape _ _ _ HP) u _ k p (fmap_shape_Some _ _ _ Hu0)) as He.
      cbn [snd] in He. case_decide; [subst k|lia].
      rewrite (pt_fresh _ _ _ HP id u tu0 p Hid Hu0) in Hle.
      unfold edge_count. rewrite (fmap_shape_Some _ _ _ Ht). cbn. lia.
    + intros x Hx. destruct (si_work _ _ (pt_shape _ _ _ HP) x Hx) as (o & ds & Hs).
      specialize (Hsame x). rewrite Hs in Hsame.
      destruct ((shape_of <$> ts1) !! x) as [[[??]?]|]; cbn in Hsame; simplify_eq. eauto.
  - rewrite (unsat_fst _ (shape_of <$> ts)) by done. pose proof (rg_cost _ _ _ _ _ _ HR). lia.
  - intros k tk Hk Hkk. destruct (Hback _ _ Hkk) as (tk0 & Hk0 & (-> & -> & -> & ->)%core_eq & _).
    rewrite (unsat_fst _ (shape_of <$> ts)) by done.
    rewrite (rg_owed _ _ _ _ _ _ HR) by (by intros ->).
    split; [by eapply pt_count|by eapply pt_blocked].
  - intros k u tu p Hk Hne Hu. destruct (Hback _ _ Hu) as (tu0 & Hu0 & _ & Hle).
    specialize (Hle k p). rewrite decide_False, (pt_fresh _ _ _ HP k u tu0 p) in Hle by done. lia.
Qed.

Lemma recount_task_None statuses ids : foldl (recount_task statuses) None ids = None.
Proof. by induction ids. Qed.

(** The row [recount_task] writes back. *)
Record Recounted (id : OpId) (t1 tn : TaskState) (W W' : list OpId) (rem blk : nat) : Prop := {
  rc_op : op tn = op t1;
  rc_deps : dependents tn = dependents t1;
  rc_rem : remaining tn = rem;
  rc_blk : blocked tn = blk;
  rc_status : (W' = W ∧ status tn = status t1 ∧ (0 < blk → status t1 ≠ Pending))
              ∨ (W' = W ++ [id] ∧ status t1 = Pending ∧ status tn = Blocked);
}.

Lemma recount_task_Some statuses ts W id ts' W' :
  recount_task statuses (Some (ts, W)) id = Some (ts', W') ↔
  ∃ t ts1 rem blk t1 tn,
    ts !! id = Some t
    ∧ foldl (recount_edge statuses id) (Some (ts, 0, 0)) (dependencies (op t))
      = Some (ts1, rem, blk)
    ∧ ts1 !! id = Some t1 ∧ ts' = <[id := tn]> ts1
    ∧ W' = (if bool_decide (0 < blk) && is_pending t1 then W ++ [id] else W)
    ∧ tn = (let t2 := with_counts rem blk t1 in
            if bool_decide (0 < blk) && is_pending t1 then with_status Blocked t2 else t2).
Proof.
  unfold recount_task. cbn. destruct (ts !! id) as [t|]; cbn; [|naive_solver].
  destruct (foldl _ _ _) as [[[ts1 rem] blk]|] eqn:Ef; cbn; [|naive_solver].
  destruct (ts1 !! id) as [t1|] eqn:E1; cbn; [|naive_solver].
  change (is_pending (with_counts rem blk t1)) with (is_pending t1).
  split.
  - intros H. exists t, ts1, rem, blk, t1. eexists. split_and!; [done|done|done| | |reflexivity];
      destruct (_ && _); by simplify_eq.
  - intros (t' & ts1' & rem' & blk' & t1' & tn & ? & ? & ? & -> & -> & ->). simplify_eq.
    by destruct (_ && _).
Qed.

Lemma recounted_intro id t1 W rem blk :
  Recounted id t1
    (let t2 := with_counts rem blk t1 in
     if bool_decide (0 < blk) && is_pending t1 then with_status Blocked t2 else t2)
    W (if bool_decide (0 < blk) && is_pending t1 then W ++ [id] else W) rem blk.
Proof.
  unfold is_pending. repeat case_bool_decide; cbn; split; try done; cbn; naive_solver lia.
Qed.

Lemma partial_set W W' D ts1 id t1 tn rem blk :
  Recounted id t1 tn W W' rem blk → id ∉ D → id ∉ W → ts1 !! id = Some t1 →
  ShapeInv W (shape_of <$> ts1) →
  unsat (shape_of <$> ts1) (dependencies (op t1)) + owed W (shape_of <$> ts1) id ≤ rem + blk →
  (∀ k tk, k ∈ D → ts1 !! k = Some tk →
     unsat (shape_of <$> ts1) (dependencies (op tk)) + owed W (shape_of <$> ts1) k
     ≤ remaining tk + blocked tk ∧ (0 < blocked tk → status tk ≠ Pending)) →
  (∀ k u tu p, k ∉ D → k ≠ id → ts1 !! u = Some tu → count (k, p) (dependents tu) = 0) →
  Partial W' (D ++ [id]) (<[id := tn]> ts1).
Proof.
  intros [Hop Hds Hrem Hblk Hst] HidD HidW Ht1 HS Hid HD Hfr.
  pose proof (fmap_shape_Some _ _ _ Ht1) as Hs1.
  assert (Hsh : shape_of <$> <[id := tn]> ts1
                = <[id := (op t1, status tn, dependents t1)]> (shape_of <$> ts1)).
  { rewrite fmap_insert. unfold shape_of at 1. by rewrite Hop, Hds. }
  assert (Hall : ShapeInv W' (shape_of <$> <[id := tn]> ts1)
          ∧ ∀ k tk, ts1 !! k = Some tk →
            unsat (shape_of <$> <[id := tn]> ts1) (dependencies (op tk))
            + owed W' (shape_of <$> <[id := tn]> ts1) k
            ≤ unsat (shape_of <$> ts1) (dependencies (op tk)) + owed W (shape_of <$> ts1) k).
  { rewrite Hsh. destruct Hst as [(-> & -> & _)|(-> & Hp & ->)].
    - rewrite insert_id by done. auto.
    - split.
      + apply (shape_status W _ _ _ _ (status t1)); [done|done|..].
        * apply NoDup_app. split; [by eapply si_nodup|]. split; [set_solver|apply NoDup_singleton].
        * set_solver.
        * done.
      + intros k tk Hk. apply (status_change W _ _ _ _ (status t1)  _ _ k (shape_of tk));
          [done|done|by rewrite Hp|set_solver|]. by rewrite lookup_fmap, Hk. }
  destruct Hall as [HS' Hle]. split; [done|..].
  - intros k tk [Hk|Hk%list_elem_of_singleton]%elem_of_app Hkk.
    + rewrite lookup_insert_ne in Hkk by naive_solver. specialize (Hle _ _ Hkk).
      destruct (HD _ _ Hk Hkk). lia.
    + subst k. rewrite lookup_insert_eq in Hkk. simplify_eq. specialize (Hle _ _ Ht1).
      rewrite Hop. lia.
  - intros k tk [Hk|Hk%list_elem_of_singleton]%elem_of_app Hkk.
    + rewrite lookup_insert_ne in Hkk by naive_solver. by destruct (HD _ _ Hk Hkk).
    + subst k. rewrite lookup_insert_eq in Hkk. simplify_eq.
      destruct Hst as [(_ & -> & H)|(_ & _ & ->)]; done.
  - intros k u tu p Hk Hu. assert (k ∉ D ∧ k ≠ id) as [Hk1 Hk2] by set_solver.
    destruct (decide (id = u)) as [<-|].
    + rewrite lookup_insert_eq in Hu. simplify_eq. rewrite Hds. by eapply Hfr.
    + rewrite lookup_insert_ne in Hu by done. by eapply Hfr.
Qed.

(** How one recount changes the table: only [id]'s counts and, from [Pending]
    to [Blocked], its status. *)
Definition recount_rel (id : OpId) (ts ts' : gmap OpId TaskState) : Prop :=
  (∀ k t, ts !! k = Some t → ∃ t', ts' !! k = Some t' ∧ op t' = op t
     ∧ (status t' = status t ∨ (k = id ∧ status t = Pending ∧ status t' = Blocked)))
  ∧ (∀ k, ts !! k = None → ts' !! k = None).

Lemma recount_task_inv statuses W D ts id ts' W' :
  Partial W D ts → id ∉ D → id ∉ W → follows statuses ts →
  recount_task statuses (Some (ts, W)) id = Some (ts', W') →
  Partial W' (D ++ [id]) ts' ∧ recount_rel id ts ts'
  ∧ (W' = W ∨ W' = W ++ [id] ∧ ∃ t, ts !! id = Some t ∧ status t = Pending).
Proof.
  intros HP Hid HidW Hfol. rewrite recount_task_Some.
  intros (t & ts1 & rem & blk & t1 & tn & Ht & Hf & Ht1 & -> & HW & Htn).
  pose proof (recounted_intro id t1 W rem blk) as HRc. rewrite <- HW, <- Htn in HRc. clear HW Htn.
  destruct (recount_loop W (shape_of <$> ts) id statuses (dependencies (op t)) [] ts 0 0 ts1 rem blk)
    as [HR Hcore]; [|apply reg_init|exact Hf|].
  { intros d st0 Hd. destruct (Hfol _ _ Hd) as (td & Htd & Hle).
    exists (shape_of td). by rewrite lookup_fmap, Htd. }
  cbn [app] in HR.
  destruct (partial_edges W D ts ts1 id t t1 rem blk) as (HS & Hcid & HcD & Hfr); [done..|].
  destruct (core_lookup _ _ _ _ Hcore Ht1) as (t0 & Ht0 & (Hop & Hst & _ & _)%core_eq).
  simplify_eq. split; [|split].
  - eapply partial_set; try done. by rewrite Hop.
  - split.
    + intros k tk Hk. destruct (decide (id = k)) as [<-|].
      * simplify_eq. exists tn. rewrite lookup_insert_eq, (rc_op _ _ _ _ _ _ _ HRc).
        split; [done|]. split; [done|].
        destruct (rc_status _ _ _ _ _ _ _ HRc) as [(_ & -> & _)|(_ & E1 & E2)]; [by left|].
        right. by rewrite <- Hst.
      * rewrite lookup_insert_ne by done. symmetry in Hcore.
        destruct (core_lookup _ _ _ _ Hcore Hk) as (t2 & Ht2 & (E1 & E2 & _)%core_eq). eauto.
    + intros k Hk. rewrite lookup_insert_ne by naive_solver.
      destruct (ts1 !! k) as [tk|] eqn:E; [|done].
      destruct (core_lookup _ _ _ _ Hcore E) as (? & ? & _). congruence.
  - destruct (rc_status _ _ _ _ _ _ _ HRc) as [(-> & _)|(-> & E1 & _)]; [by left|].
    right. split; [done|]. exists t. split; [done|]. by rewrite <- Hst.
Qed.

(** The table change of a whole recount. *)
Definition recount_rel_all (W' : list OpId) (ts ts' : gmap OpId TaskState) : Prop :=
  (∀ k t, ts !! k = Some t → ∃ t', ts' !! k = Some t' ∧ op t' = op t
     ∧ (status t' = status t ∨ (status t = Pending ∧ status t' = Blocked)))
  ∧ (∀ k, ts !! k = None → ts' !! k = None).

Lemma recount_rel_follows statuses id ts ts' :
  follows statuses ts → recount_rel id ts ts' → follows statuses ts'.
Proof.
  intros Hf [Hr _] d st0 Hd. destruct (Hf _ _ Hd) as (td & Htd & Hle).
  destruct (Hr _ _ Htd) as (t' & Ht' & _ & [E|(_ & E1 & E2)]); exists t'; split; try done.
  - by rewrite E.
  - rewrite E2. rewrite E1 in Hle. by destruct st0.
Qed.

Lemma recount_all_inv statuses ids : ∀ W D ts ts' W',
  Partial W D ts → NoDup ids → (∀ x, x ∈ ids → x ∉ D ∧ x ∉ W) → follows statuses ts →
  foldl (recount_task statuses) (Some (ts, W)) ids = Some (ts', W') →
  Partial W' (D ++ ids) ts' ∧ recount_rel_all W' ts ts'
  ∧ (∀ x, x ∈ W' → x ∈ W ∨ ∃ t, ts !! x = Some t ∧ status t = Pending).
Proof.
  induction ids as [|id ids IH]; intros W D ts ts' W' HP Hnd Hdis Hfol Hf.
  { cbn in Hf. simplify_eq. rewrite app_nil_r. split; [done|]. split; [|auto].
    split; [|done]. intros k t Hk. eauto. }
  apply NoDup_cons in Hnd as [Hnin Hnd]. cbn [foldl] in Hf.
  destruct (recount_task statuses (Some (ts, W)) id) as [[ts1 W1]|] eqn:E1;
    [|by rewrite recount_task_None in Hf].
  destruct (Hdis id) as [HidD HidW]; [set_solver|].
  destruct (recount_task_inv _ _ _ _ _ _ _ HP HidD HidW Hfol E1) as (HP1 & [Hr1 Hn1] & HW1).
  destruct (IH W1 (D ++ [id]) ts1 ts' W') as (HP' & [Hr' Hn'] & HW'); [done|done| | |done|].
  { intros x Hx. destruct (Hdis x) as [HxD HxW]; [set_solver|].
    destruct HW1 as [->|[-> _]]; set_solver. }
  { eapply recount_rel_follows; [done|by split]. }
  rewrite <- app_assoc in HP'. split; [done|]. split; [split|].
  - intros k t Hk. destruct (Hr1 _ _ Hk) as (t1 & Ht1 & Eo1 & Es1).
    destruct (Hr' _ _ Ht1) as (t2 & Ht2 & Eo2 & Es2). exists t2.
    split; [done|]. split; [congruence|].
    destruct Es1 as [E|(_ & Ea & Eb)], Es2 as [E'|(Ea' & Eb')]; rewrite ?E, ?E' in *; auto; congruence.
  - auto.
  - intros x Hx. destruct (HW' _ Hx) as [Hx1|(t1 & Ht1 & Hp1)].
    + destruct HW1 as [->|[-> (t & Ht & Hp)]]; [by left|].
      apply elem_of_app in Hx1 as [|Hx1%list_elem_of_singleton]; [by left|]. subst. eauto.
    + right. destruct (ts !! x) as [t|] eqn:Et.
      * destruct (Hr1 _ _ Et) as (t1' & Ht1' & _ & [E|(_ & _ & E)]); simplify_eq; [|congruence].
        exists t. split; [done|]. congruence.
      * apply Hn1 in Et. congruence.
Qed.

Lemma terminalize_all_inv newly : ∀ g g' Q,
  CountInv newly [] g → QueueInvP Q g → (∀ x, x ∈ newly → terminalized g !! x = None) →
  terminalize_all newly g = Some g' →
  CountInv [] [] g' ∧ QueueInvP Q g' ∧ running g' ⊆ running g
  ∧ (∀ id n, terminalized g' !! id = Some n → id ∈ newly ∨ terminalized g !! id = Some n).
Proof.
  induction newly as [|x newly IH]; intros g g' Q HC HQ Hled Ht.
  { cbn in Ht. injection Ht as <-. auto. }
  rewrite terminalize_all_cons in Ht. apply bind_Some in Ht as (g1 & Ht1 & Ht).
  pose proof (ci_shape _ _ _ HC) as HS. pose proof (si_nodup _ _ HS) as Hnd.
  apply NoDup_cons in Hnd as [Hnin Hnd].
  destruct (si_work _ _ HS x) as (o & ds & Hx); [set_solver|].
  destruct (sh_inv _ _ _ _ _ Hx) as (t & Htx & _ & Hst & _).
  pose proof (terminalize_frame _ _ _ Ht1) as (_ & Hf).
  destruct Hf as [(n & Hn & _)|(_ & Hrun & Hter)]; [rewrite Hled in Hn; [done|set_solver]|].
  destruct (IH g1 g' Q) as (HC' & HQ' & Hr' & Hl'); [| | |done|].
  - eapply (terminalize_inv (x :: newly) newly x g); [done|exact Htx| |done|set_solver|set_solver| |done].
    + rewrite Hst, live_Blocked. apply bool_decide_eq_true_2. set_solver.
    + intros _. apply Hled. set_solver.
  - by eapply terminalize_queue.
  - intros y Hy. rewrite Hter, lookup_insert_ne by (by intros ->). apply Hled. set_solver.
  - split; [done|]. split; [done|]. split.
    + etransitivity; [exact Hr'|]. rewrite Hrun. apply delete_subseteq.
    + intros id n Hid. destruct (Hl' _ _ Hid) as [|Hl]; [set_solver|].
      rewrite Hter in Hl. destruct (decide (x = id)) as [->|]; [set_solver|].
      rewrite lookup_insert_ne in Hl by done. auto.
Qed.

Lemma push_if_ready_sub ids : ∀ g, 
  let g' := foldl push_if_ready g ids in
  tasks g' = tasks g ∧ frame g g' ∧ (∀ id, id ∈ ready g → id ∈ ready g')
  ∧ (∀ id t, id ∈ ids → tasks g !! id = Some t → status t = Pending → remaining t = 0 →
       blocked t = 0 → id ∈ ready g')
  ∧ (∀ id, id ∈ ready g' → id ∈ ready g ∨ is_Some (tasks g !! id)).
Proof.
  induction ids as [|x ids IH]; intros g; cbn [foldl].
  { cbn zeta. split; [done|]. split; [reflexivity|]. split; [done|].
    split; [intros id t Hx; by apply elem_of_nil in Hx|auto]. }
  cbn zeta.
  assert (tasks (push_if_ready g x) = tasks g ∧ frame g (push_if_ready g x)
          ∧ (∀ id, id ∈ ready g → id ∈ ready (push_if_ready g x))
          ∧ (∀ t, tasks g !! x = Some t → status t = Pending → remaining t = 0 →
               blocked t = 0 → x ∈ ready (push_if_ready g x))
          ∧ (∀ id, id ∈ ready (push_if_ready g x) → id ∈ ready g ∨ is_Some (tasks g !! id)))
    as (E & Hf & H1 & H2 & H3).
  { unfold push_if_ready. destruct (tasks g !! x) as [t|] eqn:Ex; [|by split_and!; auto].
    unfold is_pending. destruct (_ && _) eqn:Eb.
    - cbn. split; [done|]. split; [by repeat split|]. split; [set_solver|]. split; [set_solver|].
      intros id [|Hid%list_elem_of_singleton]%elem_of_app; [by left|]. subst. right. eauto.
    - split; [done|]. split; [reflexivity|]. split; [done|]. split; [|auto].
      intros t' [= <-] Hp Hr Hb. by rewrite !bool_decide_eq_true_2 in Eb. }
  destruct (IH (push_if_ready g x)) as (E' & Hf' & H1' & H2' & H3'). rewrite E in *.
  split; [done|]. split; [by etransitivity|]. split; [by auto|]. split.
  - intros id t [->|Hin]%elem_of_cons; [|by apply H2']. intros. apply H1'. by eapply H2.
  - intros id Hid. destruct (H3' _ Hid); auto.
Qed.

(** Notification registers nothing. *)
Definition no_new (g g' : Inner) : Prop := ∀ id, sh g !! id = None → sh g' !! id = None.

#[global] Instance no_new_preorder : PreOrder no_new.
Proof. split; [by intros g id|]. intros a b c H1 H2 id H. auto. Qed.

Lemma no_new_insert g g' d s : is_Some (sh g !! d) → sh g' = <[d := s]> (sh g) → no_new g g'.
Proof.
  intros [x Hx] E id Hid. rewrite E, lookup_insert_ne; [done|]. intros ->. congruence.
Qed.

Lemma notify_all_no_new st es gw : no_new gw.1 (foldl (notify_dependent st) gw es).1.
Proof.
  revert gw; induction es as [|[d p] es IH]; intros gw; cbn [foldl]; [reflexivity|].
  etransitivity; [|apply IH]. destruct gw as [g wl]. unfold notify_dependent. cbn -[block_edge].
  case_match; [intros id; cbn [fst]; by rewrite release_edge_sh|]. case_match; [|reflexivity].
  destruct (block_edge_spec d g wl) as [(E & _)|(t & Ht & _ & _ & E)].
  - intros id. by rewrite E.
  - eapply no_new_insert; [|exact E]. rewrite (sh_Some _ _ _ Ht). eauto.
Qed.

Lemma terminalize_no_new id g g' : terminalize id g = Some g' → no_new g g'.
Proof.
  rewrite terminalize_Some. intros [(n & _ & ->)|(_ & t & Ht & Hp)]; [by intros ?|].
  cbn zeta in Hp. revert Hp. apply (propagate_ind (λ h _, no_new g h)).
  - intros h wl x Hh. cbn zeta. etransitivity; [exact Hh|].
    apply (notify_all_no_new Blocked _ (h, wl)).
  - etransitivity; [|apply (notify_all_no_new (status t))].
    eapply no_new_insert; [rewrite (sh_Some _ _ _ Ht); eauto|].
    cbn [fst]. rewrite sh_set_task. reflexivity.
Qed.

Lemma terminalize_all_no_new ids g g' : terminalize_all ids g = Some g' → no_new g g'.
Proof.
  revert g; induction ids as [|x ids IH]; intros g; [by intros [= <-]|].
  rewrite terminalize_all_cons. intros (g1 & H1 & H2)%bind_Some.
  etransitivity; [by eapply terminalize_no_new|by apply IH].
Qed.

Definition clear_counts (t : TaskState) : TaskState := with_dependents [] (with_counts 0 0 t).

Lemma partial_start (ts : gmap OpId TaskState) : Partial [] [] (clear_counts <$> ts).
Proof.
  split.
  - split; [|apply NoDup_nil_2|intros x Hx; by apply elem_of_nil in Hx].
    intros u s t p. rewrite !lookup_fmap. destruct (ts !! u); cbn; [|done].
    intros [= <-]. cbn. rewrite count_nil. lia.
  - intros t tt Ht. by apply elem_of_nil in Ht.
  - intros t tt Ht. by apply elem_of_nil in Ht.
  - intros t u tu p _. rewrite lookup_fmap. destruct (ts !! u); cbn; [|done].
    by intros [= <-].
Qed.

Lemma rebuild_Some ids g g' :
  rebuild_graph ids g = Some g' ↔
  ∃ ts newly g1,
    foldl (recount_task (λ id, status <$> tasks g !! id))
          (Some (clear_counts <$> tasks g, [])) ids = Some (ts, newly)
    ∧ terminalize_all newly (with_tasks ts (with_ready [] g)) = Some g1
    ∧ g' = foldl push_if_ready g1 ids.
Proof.
  unfold rebuild_graph. cbn.
  change (λ t, with_dependents [] (with_counts 0 0 t)) with clear_counts.
  destruct (foldl (recount_task _) _ ids) as [[ts newly]|]; cbn; [|naive_solver].
  destruct (terminalize_all _ _) as [g1|] eqn:E; cbn; [|naive_solver].
  split; [intros [= <-]; eauto 10|]. intros (? & ? & ? & [= <- <-] & H & ->). congruence.
Qed.

(** The recount of a whole rebuild. *)
Lemma rebuild_recount ids g ts newly :
  ids ≡ₚ elements (dom (tasks g)) →
  foldl (recount_task (λ id, status <$> tasks g !! id))
        (Some (clear_counts <$> tasks g, [])) ids = Some (ts, newly) →
  Partial newly ids ts ∧ recount_rel_all newly (clear_counts <$> tasks g) ts
  ∧ NoDup newly ∧ ∀ x, x ∈ newly → ∃ t, tasks g !! x = Some t ∧ status t = Pending.
Proof.
  intros Hids Hf.
  destruct (recount_all_inv (λ id, status <$> tasks g !! id) ids [] [] (clear_counts <$> tasks g)
              ts newly) as (HP & HR & Hnew); [apply partial_start|..|exact Hf|].
  { rewrite Hids. apply NoDup_elements. }
  { intros x _. split; apply not_elem_of_nil. }
  { intros d st0 Hd. apply fmap_Some in Hd as (td & Htd & ->).
    exists (clear_counts td). rewrite lookup_fmap, Htd. split; [done|]. apply status_le_refl. }
  split; [done|]. split; [done|]. split; [by eapply si_nodup, HP|].
  intros x Hx. destruct (Hnew _ Hx) as [Hx0|(t & Ht & Hp)]; [by apply elem_of_nil in Hx0|].
  rewrite lookup_fmap in Ht. apply fmap_Some in Ht as (t0 & Ht0 & ->). eauto.
Qed.

Lemma rebuild_inner ids g g' :
  InnerInv g → ids ≡ₚ elements (dom (tasks g)) → rebuild_graph ids g = Some g' →
  InnerInv g' ∧ evolves g g'.
Proof.
  intros HI Hids. rewrite rebuild_Some. intros (ts & newly & g1 & Hf & Hta & ->).
  assert (Hin : ∀ id, id ∈ ids ↔ is_Some (tasks g !! id)).
  { intros id. by rewrite Hids, elem_of_elements, elem_of_dom. }
  destruct (rebuild_recount ids g ts newly Hids Hf) as (HP & [Hr Hn] & _ & Hnew).
  assert (Htasks : ∀ k tk, ts !! k = Some tk → is_Some (tasks g !! k)).
  { intros k tk Hk. destruct (tasks g !! k) eqn:E; [eauto|].
    rewrite (Hn k) in Hk; [done|]. by rewrite lookup_fmap, E. }
  set (g0 := with_tasks ts (with_ready [] g)) in *.
  assert (He0 : evolves g g0).
  { intros k o st ds Hk. destruct (sh_inv _ _ _ _ _ Hk) as (t & Ht & <- & <- & _).
    destruct (Hr k (clear_counts t)) as (t' & Ht' & Ho & Hs); [by rewrite lookup_fmap, Ht|].
    exists (status t'), (dependents t').
    split; [change (sh g0) with (shape_of <$> ts); rewrite (fmap_shape_Some _ _ _ Ht'); by rewrite Ho|].
    cbn in Hs. destruct Hs as [->|[-> ->]]; [apply status_le_refl|done]. }
  assert (HC0 : CountInv newly [] g0).
  { split; [apply HP|..].
    - intros t tt Ht. rewrite count_nil. pose proof (pt_count _ _ _ HP t tt) as Hc.
      change (sh g0) with (shape_of <$> ts). specialize (Hc (proj2 (Hin _) (Htasks _ _ Ht)) Ht). lia.
    - intros t tt Ht. eapply (pt_blocked _ _ _ HP); [|exact Ht]. apply Hin. by eapply Htasks. }
  destruct (terminalize_all_inv newly g0 g1 False) as (HC1 & HQ1 & Hrun & Hled); [done| | |done|].
  { split; [|done]. intros id Hid. by apply elem_of_nil in Hid. }
  { intros x Hx. destruct (Hnew x Hx) as (t & Ht & Hp). by eapply (pending_unledgered g). }
  assert (He1 : evolves g g1).
  { etransitivity; [exact He0|]. by eapply terminalize_all_evolves. }
  destruct (push_if_ready_sub ids g1) as (Et & (_ & Er & El) & Hpr & Hpush & Hback).
  set (g2 := foldl push_if_ready g1 ids) in *.
  assert (He2 : evolves g g2) by (etransitivity; [exact He1|]; apply evolves_sh; unfold sh; by rewrite Et).
  split; [|done]. split.
  - by apply (CountInv_tasks _ _ g1).
  - split.
    + intros id Hid. rewrite Et. destruct (Hback _ Hid) as [Hid1|]; [|done].
      by apply (qi_known _ _ HQ1).
    + intros id t _. rewrite Et. intros Ht Hp Hrm Hb. eapply Hpush; [|exact Ht|done..].
      apply Hin. destruct (tasks g !! id) as [t0|] eqn:E0; [eauto|exfalso].
      pose proof (terminalize_all_no_new _ _ _ Hta id) as Hnone.
      change (sh g0) with (shape_of <$> ts) in Hnone. rewrite sh_lookup, Ht in Hnone.
      discriminate Hnone. rewrite lookup_fmap, (Hn id); [done|]. by rewrite lookup_fmap, E0.
  - intros id n. rewrite El. intros Hl. destruct (Hled _ _ Hl) as [Hnw|Hl0].
    + destruct (si_work _ _ (ci_shape _ _ _ HC0) _ Hnw) as (o & ds & Hs0).
      destruct (terminalize_all_evolves _ _ _ Hta _ _ _ _ Hs0) as (st' & ds' & Hs1 & Hle).
      destruct (sh_inv _ _ _ _ _ Hs1) as (t1 & Ht1 & _ & <- & _).
      exists t1. rewrite Et. split; [done|]. by destruct (status t1).
    + by eapply (ledger_carry g).
  - intros id rw. rewrite Er. intros Hrw. eapply (running_carry g); [done|done|].
    eapply lookup_weaken; [exact Hrw|]. exact Hrun.
  - intros a b ra rb. rewrite Er. intros Ha Hb. eapply (ii_excl _ HI a b);
      (eapply lookup_weaken; [|exact Hrun]); done.
Qed.
