(* ===== verification/SchedulerDag.v ===== *)
(** * The DAG validation is exact

    [validate] accepts a graph exactly when it is within its bounds, every
    dependency is registered and there is no dependency cycle; its two graph
    errors are truthful, and it always returns. *)
From S2P Require Import Prelude AgentMachine Ownership Resource Scheduler.

(** [a] declares a dependency on [b]. *)
Definition depends (ts : gmap OpId TaskState) (a b : OpId) : Prop :=
  ∃ t p, ts !! a = Some t ∧ (b, p) ∈ dependencies (op t).

Definition cyclic (ts : gmap OpId TaskState) : Prop := ∃ a, tc (depends ts) a a.
Definition dangling (ts : gmap OpId TaskState) : Prop :=
  ∃ a b, depends ts a b ∧ ts !! b = None.

(** Everything below the task is registered and the descent ends. *)
Inductive good (ts : gmap OpId TaskState) : OpId → Prop :=
  | good_intro a t : ts !! a = Some t →
      (∀ b p, (b, p) ∈ dependencies (op t) → good ts b) → good ts a.

Lemma good_depends ts a b : good ts a → depends ts a b → good ts b.
Proof. intros [a' t Ht H] (t' & p & Ht' & Hin). simplify_eq. eauto. Qed.

Lemma good_tc ts a b : tc (depends ts) a b → good ts a → good ts b.
Proof. induction 1; intros; [by eapply good_depends|]. eauto using good_depends. Qed.

Lemma good_acyclic ts a : good ts a → ¬ tc (depends ts) a a.
Proof.
  induction 1 as [a t Ht _ IH]. intros Hc.
  assert (∃ b p, (b, p) ∈ dependencies (op t) ∧ tc (depends ts) b b) as (b & p & Hin & Hb).
  { inversion Hc as [? ? (t' & p & Ht' & Hin)|? b ? (t' & p & Ht' & Hin) Hba]; subst; simplify_eq.
    - eauto.
    - exists b, p. split; [done|]. eapply tc_r; [exact Hba|]. eexists _, _. eauto. }
  by eapply IH.
Qed.

Lemma all_good ts : (∀ a, is_Some (ts !! a) → good ts a) → ¬ cyclic ts ∧ ¬ dangling ts.
Proof.
  intros H. split.
  - intros [a Ha]. assert (is_Some (ts !! a)) as Hs.
    { inversion Ha as [? ? (t & p & Ht & _)|? ? ? (t & p & Ht & _)]; eauto. }
    by apply (good_acyclic ts a); [apply H|].
  - intros (a & b & Hab & Hb). destruct Hab as (t & p & Ht & Hin).
    assert (good ts b) as Hgb.
    { eapply good_depends; [by apply H|]. by exists t, p. }
    inversion Hgb. congruence.
Qed.

(** ** One visit *)
Definition visit_ok (ts : gmap OpId TaskState) (V D : gset OpId) (targets : list OpId)
    (r : result (gset OpId * gset OpId) ErrorKind) : Prop :=
  match r with
  | Ok (V', D') => V' = V ∧ D ⊆ D' ∧ (∀ x, x ∈ targets → x ∈ D') ∧ (∀ x, x ∈ D' → good ts x)
  | Err Deadlock => cyclic ts
  | Err NotFound => dangling ts ∨ ∃ x, x ∈ targets ∧ ts !! x = None
  | Err _ => False
  end.

Lemma visit_deps_spec rec ts id (V : gset OpId) :
  (∀ b D r, depends ts id b → (∀ x, x ∈ D → good ts x) → rec b (V, D) = Some r →
     visit_ok ts V D [b] r) →
  ∀ deps D r, (∀ b p, (b, p) ∈ deps → depends ts id b) → (∀ x, x ∈ D → good ts x) →
  visit_deps rec ts deps (V, D) = Some r → visit_ok ts V D deps.*1 r.
Proof.
  intros Hrec. induction deps as [|[b p] deps IH]; intros D r Hdep HD Hr; cbn in Hr.
  { simplify_eq. cbn. split_and!; [done|done|set_solver|done]. }
  assert (depends ts id b) as Hb by (eapply Hdep; constructor).
  case_bool_decide as Hnone; [simplify_eq; left; by exists id, b|].
  destruct (rec b (V, D)) as [[[V1 D1]|e]|] eqn:Eb; [| |done].
  - destruct (Hrec _ _ _ Hb HD Eb) as (-> & HDD & Hin & HD1).
    assert (visit_ok ts V D1 deps.*1 r) as Hok.
    { apply IH; [|done|done]. intros b' p' ?. eapply Hdep. by constructor. }
    destruct r as [[V' D']|[]]; cbn in Hok |- *; try done.
    + destruct Hok as (-> & Hs & Hall & Hg). split_and!; [done|set_solver| |done].
      intros x. rewrite elem_of_cons. intros [->|Hx]; [|by apply Hall]. apply Hs, Hin. set_solver.
    + destruct Hok as [|(x & Hx & Hn)]; [by left|]. right. exists x. set_solver.
  - simplify_eq. pose proof (Hrec _ _ _ Hb HD Eb) as Hok. destruct e; cbn in *; try done.
    destruct Hok as [|(x & Hx & Hn)]; [by left|]. right. exists x. set_solver.
Qed.

Lemma visit_spec ts fuel : ∀ id V D r,
  (∀ v, v ∈ V → tc (depends ts) v id) → (∀ x, x ∈ D → good ts x) →
  visit_dag fuel ts id (V, D) = Some r → visit_ok ts V D [id] r.
Proof.
  induction fuel as [|fuel IH]; intros id V D r HV HD Hr; [done|]. cbn in Hr.
  case_bool_decide as HidD.
  { simplify_eq. cbn. split_and!; [done|done|set_solver|done]. }
  case_bool_decide as HidV; [simplify_eq; exists id; auto|].
  destruct (ts !! id) as [t|] eqn:Et; [|simplify_eq; right; exists id; set_solver].
  destruct (visit_deps _ _ _ _) as [r1|] eqn:Ed; [|done].
  assert (visit_ok ts ({[id]} ∪ V) D (dependencies (op t)).*1 r1) as Hok.
  { eapply (visit_deps_spec _ _ id); [| |exact HD|exact Ed].
    - intros b D' r' Hb HD' Hr'. apply (IH b ({[id]} ∪ V) D' r'); [|done|done].
      intros v [->%elem_of_singleton|Hv]%elem_of_union; [by apply tc_once|].
      eapply tc_r; [by apply HV|done].
    - intros b p Hin. by exists t, p. }
  destruct r1 as [[V1 D1]|e].
  - simplify_eq. cbn in Hok |- *. destruct Hok as (-> & Hs & Hall & Hg).
    assert (good ts id) as Hid.
    { econstructor; [done|]. intros b p Hin. apply Hg, Hall. apply list_elem_of_fmap. by exists (b, p). }
    split_and!; [set_solver|set_solver|set_solver|].
    intros x [->%elem_of_singleton|Hx]%elem_of_union; auto.
  - simplify_eq. destruct e; cbn in *; try done. destruct Hok as [|(x & Hx & Hn)]; [by left|].
    left. apply list_elem_of_fmap in Hx as ([b p] & -> & Hin). exists id, b. split; [|done].
    by exists t, p.
Qed.

(** ** Termination *)
Lemma visit_total ts fuel : ∀ id V D,
  (∀ v, v ∈ V → tc (depends ts) v id) → (∀ x, x ∈ D → good ts x) → is_Some (ts !! id) →
  size (dom ts ∖ V) < fuel → is_Some (visit_dag fuel ts id (V, D)).
Proof.
  induction fuel as [|fuel IH]; intros id V D HV HD [t Ht] Hf; [lia|]. cbn.
  case_bool_decide; [eauto|]. case_bool_decide as HidV; [eauto|]. rewrite Ht.
  assert (∀ v b, depends ts id b → v ∈ {[id]} ∪ V → tc (depends ts) v b) as HV'.
  { intros v b Hb [->%elem_of_singleton|Hv]%elem_of_union; [by apply tc_once|].
    eapply tc_r; [by apply HV|done]. }
  enough (∀ deps D, (∀ b p, (b, p) ∈ deps → depends ts id b) → (∀ x, x ∈ D → good ts x) →
            is_Some (visit_deps (visit_dag fuel ts) ts deps ({[id]} ∪ V, D))) as Hdeps.
  { destruct (Hdeps (dependencies (op t)) D) as [r ->]; [|done|].
    - intros b p Hin. by exists t, p.
    - destruct r as [[??]|]; eauto. }
  induction deps as [|[b p] deps IHd]; intros D' Hdep HD'; [by eexists|]. cbn.
  case_bool_decide as Hb; [by eexists|].
  assert (depends ts id b) as Hdb by (eapply Hdep; constructor).
  destruct (IH b ({[id]} ∪ V) D') as [r Hr]; [intros v Hv; by apply HV'|done| | |].
  - destruct (ts !! b) eqn:E; [eauto|done].
  - assert (id ∈ dom ts) as Hdom by (apply elem_of_dom; eauto).
    assert (dom ts ∖ ({[id]} ∪ V) ⊂ dom ts ∖ V) as Hsub%subset_size by set_solver. lia.
  - rewrite Hr. destruct r as [[V1 D1]|]; [|by eexists].
    destruct (visit_spec _ _ _ _ _ _ (λ v Hv, HV' v b Hdb Hv) HD' Hr) as (-> & _ & _ & Hg).
    apply IHd; [|done]. intros b' p' ?. eapply Hdep. by constructor.
Qed.

Lemma visit_all_spec ts ids : ∀ D,
  (∀ x, x ∈ D → good ts x) → (∀ id, id ∈ ids → is_Some (ts !! id)) →
  ∃ r, visit_all (S (size ts)) ts ids (∅, D) = Some r ∧
  match r with
  | Ok _ => ∀ id, id ∈ ids → good ts id
  | Err Deadlock => cyclic ts
  | Err NotFound => dangling ts
  | Err _ => False
  end.
Proof.
  induction ids as [|id ids IH]; intros D HD Hids.
  { eexists. split; [done|]. cbn. set_solver. }
  cbn [visit_all].
  assert (size (dom ts ∖ ∅) < S (size ts)) as Hsz.
  { rewrite difference_empty_L, size_dom. lia. }
  destruct (visit_total ts (S (size ts)) id ∅ D) as [r Hr];
    [set_solver|done|apply Hids; set_solver|done|]. rewrite Hr.
  assert (visit_ok ts ∅ D [id] r) as Hok by (eapply visit_spec; [|done|exact Hr]; set_solver).
  destruct r as [[V1 D1]|e].
  - destruct Hok as (-> & Hs & Hin & Hg).
    destruct (IH D1) as (r & Hr' & Hspec); [done|intros; apply Hids; set_solver|].
    exists r. split; [done|]. destruct r as [|[]]; try done.
    intros x [->|Hx]%elem_of_cons; [|by apply Hspec]. apply Hg, Hin. set_solver.
  - eexists. split; [done|]. destruct e; cbn in Hok; try done.
    destruct Hok as [|(x & ->%list_elem_of_singleton & Hn)]; [done|].
    destruct (Hids id) as [t Ht]; [set_solver|congruence].
Qed.

(** ** [validate] *)
Definition bounded (g : Inner) : Prop :=
  size (tasks g) ≤ MAX_TASKS_PER_DAG ∧
  ∀ id t, tasks g !! id = Some t → within_bounds t = true.

(** C32: Validation is exact and always returns, for any iteration order of the
    task table: it accepts if and only if the graph is within its structural
    bounds, has no dependency cycle and names only registered tasks; it
    reports [Oversized] exactly for a graph out of bounds, and its [Deadlock]
    and [NotFound] errors only for a real cycle and a real missing
    dependency. *)
Theorem validate_exact ids g :
  ids ≡ₚ elements (dom (tasks g)) →
  ∃ r, validate ids g = Some r
    ∧ (r = Ok tt ↔ bounded g ∧ ¬ cyclic (tasks g) ∧ ¬ dangling (tasks g))
    ∧ (r = Err Oversized ↔ ¬ bounded g)
    ∧ (r = Err Deadlock → cyclic (tasks g))
    ∧ (r = Err NotFound → dangling (tasks g)).
Proof.
  intros Hids.
  assert (Hin : ∀ id, id ∈ ids ↔ is_Some (tasks g !! id)).
  { intros id. by rewrite Hids, elem_of_elements, elem_of_dom. }
  unfold validate. cbn zeta. case_bool_decide as Hsz.
  { eexists. split; [done|]. unfold bounded. naive_solver lia. }
  destruct (forallb _ ids) eqn:Ef; cbn [negb].
  - assert (bounded g) as Hb.
    { split; [lia|]. intros id t Ht. rewrite forallb_forall in Ef. specialize (Ef id).
      rewrite Ht in Ef. apply Ef, list_elem_of_In, Hin. eauto. }
    destruct (visit_all_spec (tasks g) ids ∅) as (r & Hr & Hspec); [set_solver|by intros ? ?%Hin|].
    exists r. split; [done|]. destruct r as [[]|e].
    + destruct (all_good (tasks g)) as [Hc Hd]; [intros a Ha; by apply Hspec, Hin|]. naive_solver.
    + destruct e; try done; naive_solver.
  - assert (¬ bounded g) as Hb.
    { intros [_ Hall]. assert (forallb (λ id, from_option within_bounds true (tasks g !! id)) ids = true)
        as Ht; [|congruence].
      apply forallb_forall. intros id _. destruct (tasks g !! id) eqn:E; [by eapply Hall|done]. }
    eexists. split; [done|]. naive_solver.
Qed.

(** Two tasks waiting for each other. *)
Definition demo_op (id : N) (deps : list (OpId * DependencyPolicy)) : ScheduledOp :=
  MkOp (MkMeta id 1 1000 (MkRetryPolicy 3 RetryNetwork) id) CCpu [] [] deps.
Definition demo_task (id : N) (deps : list (OpId * DependencyPolicy)) : TaskState :=
  MkTask (demo_op id deps) Pending None 0 None (length deps) 0 [].
Definition two_cycle : Inner :=
  with_tasks (<[1%N := demo_task 1 [(2%N, Success)]]> (<[2%N := demo_task 2 [(1%N, Success)]]> ∅))
    empty_inner.

Lemma validate_exact_witness :
  ∃ r, validate [1%N; 2%N] two_cycle = Some r
    ∧ (r = Ok tt ↔ bounded two_cycle ∧ ¬ cyclic (tasks two_cycle) ∧ ¬ dangling (tasks two_cycle))
    ∧ (r = Err Oversized ↔ ¬ bounded two_cycle)
    ∧ (r = Err Deadlock → cyclic (tasks two_cycle))
    ∧ (r = Err NotFound → dangling (tasks two_cycle)).
Proof.
  apply (validate_exact [1%N; 2%N] two_cycle).
  assert (elements (dom (tasks two_cycle)) = [2%N; 1%N]) as -> by (vm_compute; reflexivity).
  by constructor.
Defined.

Example two_cycle_detected : validate [1%N; 2%N] two_cycle = Some (Err Deadlock).
Proof. vm_compute. reflexivity. Qed.
