(* ===== verification/SchedulerThms.v ===== *)
(** * Properties of the scheduler

    The invariant of the whole transition system [Sys.step] and the theorems
    that follow from it: exactly-once outcomes, permit accounting, mutual
    exclusion of conflicting tasks, dependency order, no lost wake-up, and the
    exactness of the DAG validation. *)
From S2P Require Import Prelude AgentMachine Ownership Resource Scheduler SchedulerInv SchedulerDag.

(** ** The whole scheduler

    [sps] are tasks already started whose execution is not spawned yet. *)
Definition holds (c : ResourceClass) (_ : N) (x : Exec) : nat :=
  if x_armed x && bool_decide (x_class x = c) then 1 else 0.

Definition reserved (c : ResourceClass) (sps : list (OpId * ResourceClass)) : nat :=
  count c (sps.*2).

Definition pc_armed (x : Exec) : Prop :=
  match x_pc x with
  | AtTop | InRun => x_armed x = true
  | InBackoff | WaitPermit => x_armed x = false
  | Returned => True
  end.

Record SysInvP (lim : ResourceLimits) (s : Sys.t) (sps : list (OpId * ResourceClass)) : Prop := {
  sv_inner : InnerInv (Sys.inner s);
  sv_usage c : ResourceGauge.usage (gauge (Sys.inner s)) c
               = msum (holds c) (Sys.execs s) + reserved c sps;
  sv_limit c : ResourceGauge.usage (gauge (Sys.inner s)) c ≤ ResourceLimits.get lim c;
  sv_dag k x : Sys.execs s !! k = Some x → x_dag x = true →
    is_Some (running (Sys.inner s) !! x_id x) ∧ terminalized (Sys.inner s) !! x_id x = None;
  sv_sps id c : (id, c) ∈ sps →
    is_Some (running (Sys.inner s) !! id) ∧ terminalized (Sys.inner s) !! id = None;
  sv_uniq k k' x x' : Sys.execs s !! k = Some x → Sys.execs s !! k' = Some x' →
    x_dag x = true → x_dag x' = true → x_id x = x_id x' → k = k';
  sv_sps_uniq : NoDup sps.*1;
  sv_apart k x id c : Sys.execs s !! k = Some x → x_dag x = true → (id, c) ∈ sps → x_id x ≠ id;
  sv_owner id : is_Some (running (Sys.inner s) !! id) →
    (∃ k x, Sys.execs s !! k = Some x ∧ x_dag x = true ∧ x_id x = id) ∨ id ∈ sps.*1;
  sv_fresh k : (Sys.next s <= k)%N → Sys.execs s !! k = None;
  sv_pc k x : Sys.execs s !! k = Some x → pc_armed x;
}.
Notation SysInv lim s := (SysInvP lim s []).

(** A step of [Inner] alone that keeps the gauge and leaves every running
    task's entry and ledger slot alone. *)
Lemma sys_inner_step lim s sps g cs :
  SysInvP lim s sps → InnerInv g → gauge g = gauge (Sys.inner s) →
  (∀ id, is_Some (running (Sys.inner s) !! id) → terminalized (Sys.inner s) !! id = None →
     is_Some (running g !! id) ∧ terminalized g !! id = None) →
  (∀ id, is_Some (running g !! id) → is_Some (running (Sys.inner s) !! id)) →
  SysInvP lim (Sys.MkSys g (Sys.execs s) (Sys.next s) cs) sps.
Proof.
  intros HS HI Hg Hfwd Hbwd. destruct HS as [? Hu Hl Hd Hp ? ? ? Ho ? ?].
  split; cbn; try done.
  - intros c. rewrite Hg. apply Hu.
  - intros c. rewrite Hg. apply Hl.
  - intros k x Hk Hx. destruct (Hd _ _ Hk Hx). by apply Hfwd.
  - intros id c Hin. destruct (Hp _ _ Hin). by apply Hfwd.
  - intros id Hid. by apply Ho, Hbwd.
Qed.

Lemma try_submit_frame o g g' : try_submit o g = Ok g' → frame g g'.
Proof.
  intros [(t & _ & _ & ->)|(_ & _ & _ & ts & rem & blk & st & _ & _ & ->)]%try_submit_Ok;
    [reflexivity|]. cbn zeta. by case_match.
Qed.

(** Terminalizing tasks that do not run leaves the running ones alone. *)
Lemma terminalize_keeps u g g' :
  running g !! u = None → terminalize u g = Some g' →
  gauge g' = gauge g ∧ running g' = running g
  ∧ (∀ id, id ≠ u → terminalized g' !! id = terminalized g !! id).
Proof.
  intros Hu Ht. apply terminalize_frame in Ht as (Hg & [(n & _ & Hr & Hl & _)|(_ & Hr & Hl)]).
  - split; [done|]. split; [done|]. intros id Hid. by rewrite Hl, lookup_insert_ne.
  - split; [done|]. split; [by rewrite Hr, delete_id|].
    intros id Hid. by rewrite Hl, lookup_insert_ne.
Qed.

Lemma terminalize_all_keeps us : ∀ g g',
  (∀ u, u ∈ us → running g !! u = None) → terminalize_all us g = Some g' →
  gauge g' = gauge g ∧ running g' = running g
  ∧ (∀ id, id ∉ us → terminalized g' !! id = terminalized g !! id).
Proof.
  induction us as [|u us IH]; intros g g' Hu Ht; [cbn in Ht; by simplify_eq|].
  rewrite terminalize_all_cons in Ht. apply bind_Some in Ht as (g1 & Ht1 & Ht).
  apply terminalize_keeps in Ht1 as (Hg & Hr & Hl); [|apply Hu; set_solver].
  destruct (IH g1 g') as (Hg' & Hr' & Hl'); [|done|].
  - intros v Hv. rewrite Hr. apply Hu. set_solver.
  - split; [congruence|]. split; [congruence|].
    intros id Hid. rewrite Hl', Hl by set_solver. done.
Qed.

Lemma not_running g id t :
  InnerInv g → tasks g !! id = Some t → status_le Running (status t) = false →
  running g !! id = None.
Proof.
  intros HI Ht Hst. destruct (running g !! id) as [rw|] eqn:E; [|done].
  destruct (ii_running _ HI _ _ E) as (t' & Ht' & _ & Hle & _). congruence.
Qed.

Lemma rebuild_keeps ids g g' :
  InnerInv g → ids ≡ₚ elements (dom (tasks g)) → rebuild_graph ids g = Some g' →
  gauge g' = gauge g ∧ running g' = running g
  ∧ (∀ id, is_Some (running g !! id) → terminalized g' !! id = terminalized g !! id).
Proof.
  intros HI Hids. rewrite rebuild_Some. intros (ts & newly & g1 & Hf & Hta & ->).
  destruct (rebuild_recount ids g ts newly Hids Hf) as (_ & _ & _ & Hnew).
  assert (Hnr : ∀ u, u ∈ newly → running g !! u = None).
  { intros u Hu. destruct (Hnew _ Hu) as (t & Ht & Hp).
    eapply not_running; [done|exact Ht|]. by rewrite Hp. }
  apply terminalize_all_keeps in Hta as (Hg & Hr & Hl); [|done].
  destruct (push_if_ready_sub ids g1) as (_ & (Eg & Er & El) & _).
  rewrite Eg, Er, El, Hg, Hr. cbn. split; [done|]. split; [done|].
  intros id [rw Hid]. rewrite Hl; [done|]. intros Hin. rewrite Hnr in Hid; done.
Qed.

Lemma try_cancel_keeps id g g' tok :
  InnerInv g → try_cancel id g = Ok (Some g', tok) →
  gauge g' = gauge g ∧ running g' = running g
  ∧ (∀ k, is_Some (running g !! k) → terminalized g' !! k = terminalized g !! k).
Proof.
  intros HI. unfold try_cancel. destruct (tasks g !! id) as [t|] eqn:E; [|done].
  destruct (status_is_terminal (status t)) eqn:Et; [done|].
  unfold is_pending. case_bool_decide as Hp; [|by intros [= <- _]].
  intros [= Ht _]. assert (running g !! id = None) as Hnr.
  { eapply not_running; [done..|]. by rewrite Hp. }
  apply terminalize_keeps in Ht as (Hg & Hr & Hl); [|done]. split; [done|]. split; [done|].
  intros k [rw Hk]. apply Hl. intros ->. congruence.
Qed.

Lemma reserved_snoc c sps id d :
  reserved c (sps ++ [(id, d)]) = reserved c sps + (if decide (d = c) then 1 else 0).
Proof.
  unfold reserved. rewrite fmap_app, count_app. cbn. rewrite count_cons, count_nil. lia.
Qed.

Lemma reserved_cons c sps id d :
  reserved c ((id, d) :: sps) = (if decide (d = c) then 1 else 0) + reserved c sps.
Proof. unfold reserved. cbn. by rewrite count_cons. Qed.

Lemma start_sys lim now s sps id t gauge' rest :
  let g := Sys.inner s in
  SysInvP lim s sps → ready g = id :: rest → tasks g !! id = Some t → status t = Pending →
  remaining t = 0 → conflicts (op t) (running g) = false →
  ResourceGauge.try_acquire (gauge g) (resource_class (op t)) lim = Ok gauge' →
  SysInvP lim (Sys.with_inner (start lim now id t gauge' (with_ready rest g)) s)
    (sps ++ [(id, resource_class (op t))]).
Proof.
  intros g HS Er Ht Hp Hr Hc [Hlt ->]%ResourceGauge.try_acquire_Ok.
  pose proof (sv_inner _ _ _ HS) as HI. fold g in HI.
  assert (Hnr : running g !! id = None) by (eapply not_running; [done..|by rewrite Hp]).
  assert (Hnt : terminalized g !! id = None).
  { destruct (terminalized g !! id) as [n|] eqn:E; [|done].
    destruct (ii_ledger _ HI _ _ E) as (t' & Ht' & Hst). simplify_eq. by rewrite Hp in Hst. }
  destruct HS as [_ Hu Hl Hd Hps Hq Hsq Ha Ho Hfr Hpc].
  split; cbn [Sys.inner Sys.execs Sys.next Sys.with_inner start with_running set_task with_tasks
    with_gauge with_ready gauge running terminalized]; try done.
  - by eapply start_inner.
  - intros c. rewrite ResourceGauge.usage_insert, reserved_snoc. specialize (Hu c).
    fold g in Hu. case_decide; subst; lia.
  - intros c. rewrite ResourceGauge.usage_insert. case_decide; [subst; lia|]. apply Hl.
  - intros k x Hk Hx. destruct (Hd _ _ Hk Hx) as [H1 H2]. split; [|done].
    rewrite lookup_insert_is_Some'. auto.
  - intros id' c [Hin|Hin%list_elem_of_singleton]%elem_of_app.
    + destruct (Hps _ _ Hin) as [H1 H2]. split; [|done]. rewrite lookup_insert_is_Some'. auto.
    + simplify_eq. by rewrite lookup_insert_eq.
  - rewrite fmap_app. apply NoDup_app. split; [done|]. split; [|apply NoDup_singleton].
    intros v Hv ->%list_elem_of_singleton. cbn in *.
    apply list_elem_of_fmap in Hv as ([v' c] & -> & Hv). cbn in *.
    destruct (Hps _ _ Hv) as [[rw Hrw] _]. fold g in Hrw. congruence.
  - intros k x id' c Hk Hx [Hin|Hin%list_elem_of_singleton]%elem_of_app; [by eapply Ha|].
    simplify_eq. destruct (Hd _ _ Hk Hx) as [[rw Hrw] _]. intros E. rewrite E in Hrw.
    fold g in Hrw. congruence.
  - intros id'. rewrite lookup_insert_is_Some'. rewrite fmap_app. intros [<-|Hid].
    + right. set_solver.
    + destruct (Ho _ Hid); [by left|]. right. set_solver.
Qed.

Lemma schedule_sys lim now s g' sps :
  SysInv lim s → schedule_ready lim now (Sys.inner s) = Some (g', sps) →
  SysInvP lim (Sys.with_inner g' s) sps.
Proof.
  intros HS. unfold schedule_ready.
  apply (schedule_pass_ind (λ g sp, SysInvP lim (Sys.with_inner g s) sp) lim now).
  - intros g sp id rest t HP Er Ht Hst.
    apply (sys_inner_step _ (Sys.with_inner g s)); [done| |done|done|done].
    by eapply drop_inner, Hst; [apply HP|..].
  - intros g sp id rest t HP Er Ht.
    apply (sys_inner_step _ (Sys.with_inner g s)); [done| |done|done|done].
    eapply defer_inner; [apply HP|done].
  - intros g sp id rest t gauge' HP Er Ht Hp Hr Hc Hg.
    by apply (start_sys lim now (Sys.with_inner g s) sp id t gauge' rest).
  - by destruct s.
Qed.

(** Inserting an execution under the fresh key. *)
Lemma insert_exec_usage s c x :
  Sys.execs s !! Sys.next s = None →
  msum (holds c) (<[Sys.next s := x]> (Sys.execs s))
  = holds c (Sys.next s) x + msum (holds c) (Sys.execs s).
Proof. intros H. by rewrite msum_insert_fresh. Qed.

Lemma spawn_sys lim s id c sps :
  SysInvP lim s ((id, c) :: sps) → SysInvP lim (Sys.spawn s (id, c)) sps.
Proof.
  intros HS. pose proof (sv_inner _ _ _ HS) as HI.
  destruct (sv_sps _ _ _ HS id c) as [[rw Hrw] Hnt]; [set_solver|].
  destruct (ii_running _ HI _ _ Hrw) as (t & Ht & _). unfold Sys.spawn. cbn [fst snd]. rewrite Ht.
  assert (Hfresh : Sys.execs s !! Sys.next s = None) by (apply (sv_fresh _ _ _ HS); lia).
  destruct HS as [_ Hu Hl Hd Hps Hq Hsq Ha Ho Hfr Hpc].
  cbn in Hsq. apply NoDup_cons in Hsq as [Hnin Hsq].
  split; cbn [Sys.inner Sys.execs Sys.next]; try done.
  - intros d. rewrite insert_exec_usage by done. specialize (Hu d). rewrite reserved_cons in Hu.
    unfold holds at 1. cbn. repeat case_decide; repeat case_bool_decide; try done; lia.
  - intros k x. rewrite lookup_insert_Some. intros [[<- <-]|[_ Hk]]; [cbn; eauto|by eapply Hd].
  - intros id' c' Hin. apply (Hps id' c'). set_solver.
  - intros k k' x x'. rewrite !lookup_insert_Some.
    intros [[<- <-]|[_ Hk]] [[<- <-]|[_ Hk']] H1 H2 E; [done|cbn in E..|by eapply Hq].
    + exfalso. eapply (Ha k' x' id c); [done|done|set_solver|done].
    + exfalso. eapply (Ha k x id c); [done|done|set_solver|done].
  - intros k x id' c'. rewrite lookup_insert_Some. intros [[<- <-]|[_ Hk]] Hx Hin.
    + cbn. intros <-. apply Hnin. apply list_elem_of_fmap. by exists (id, c').
    + eapply (Ha k x id' c'); [done|done|set_solver].
  - intros id' Hid. destruct (Ho _ Hid) as [(k & x & Hk & Hx & Hxi)|Hin].
    + left. exists k, x. rewrite lookup_insert_ne; [done|]. intros <-. congruence.
    + cbn in Hin. apply elem_of_cons in Hin as [->|Hin]; [|by right].
      left. eexists _, _. rewrite lookup_insert_eq. done.
  - intros k Hk. rewrite lookup_insert_ne by lia. apply Hfr. lia.
  - intros k x. rewrite lookup_insert_Some. intros [[<- <-]|[_ Hk]]; [done|by eapply Hpc].
Qed.

Lemma spawn_all_sys lim sps : ∀ s, SysInvP lim s sps → SysInv lim (foldl Sys.spawn s sps).
Proof.
  induction sps as [|[id c] sps IH]; intros s HS; [done|]. cbn [foldl]. by apply IH, spawn_sys.
Qed.

(** One execution moves on. *)
Lemma exec_update lim s k x x' g :
  SysInv lim s → Sys.execs s !! k = Some x →
  x_id x' = x_id x → x_dag x' = x_dag x → pc_armed x' →
  InnerInv g → running g = running (Sys.inner s) → terminalized g = terminalized (Sys.inner s) →
  (∀ c, ResourceGauge.usage (gauge g) c + holds c k x
        = ResourceGauge.usage (gauge (Sys.inner s)) c + holds c k x') →
  (∀ c, ResourceGauge.usage (gauge g) c ≤ ResourceLimits.get lim c) →
  SysInv lim (Sys.MkSys g (<[k := x']> (Sys.execs s)) (Sys.next s) (Sys.cancelled s)).
Proof.
  intros [_ Hu Hl Hd Hps Hq Hsq Ha Ho Hfr Hpc] Hk Hid Hdag Hpc' HI Er Et Hus Hlim.
  assert (Hold : ∀ j y, <[k := x']> (Sys.execs s) !! j = Some y →
            ∃ y0, Sys.execs s !! j = Some y0 ∧ x_id y = x_id y0 ∧ x_dag y = x_dag y0).
  { intros j y. rewrite lookup_insert_Some. intros [[<- <-]|[_ Hj]]; eauto. }
  split; cbn [Sys.inner Sys.execs Sys.next]; try done; rewrite ?Er, ?Et.
  - intros c. pose proof (msum_insert (holds c) (Sys.execs s) k x x' Hk). specialize (Hus c).
    specialize (Hu c). lia.
  - intros j y Hj Hy. destruct (Hold _ _ Hj) as (y0 & Hj0 & -> & E). rewrite E in Hy. eauto.
  - intros id c Hin. by apply elem_of_nil in Hin.
  - intros j j' y y' Hj Hj' Hy Hy' E.
    destruct (Hold _ _ Hj) as (y0 & Hj0 & E0 & D0), (Hold _ _ Hj') as (y1 & Hj1 & E1 & D1).
    eapply Hq; [exact Hj0|exact Hj1|congruence..].
  - intros j y id c _ _ Hin. by apply elem_of_nil in Hin.
  - intros id Hrun. destruct (Ho _ Hrun) as [(j & y & Hj & Hy & <-)|Hin]; [|by apply elem_of_nil in Hin].
    left. destruct (decide (k = j)) as [<-|].
    + exists k, x'. rewrite lookup_insert_eq. simplify_eq. split; [done|]. by rewrite Hdag.
    + exists j, y. by rewrite lookup_insert_ne.
  - intros j Hj. rewrite lookup_insert_ne; [by apply Hfr|]. intros ->. rewrite Hfr in Hk; done.
  - intros j y. rewrite lookup_insert_Some. intros [[_ <-]|[_ Hj]]; [done|eauto].
Qed.

Lemma mark_frame id st err now g : frame g (mark id st err now g).
Proof. unfold mark. by repeat case_match. Qed.

Ltac recorded Hret := intros; left; eapply Hret; [| |eassumption]; done.

(** What an event does: an outcome is recorded, the control point moves, or
    the permit is given back or taken. *)
Lemma exec_event_cases lim e cn now x g g' x' :
  exec_event lim e cn now x g = Some (g', x') →
  (∃ st err, status_is_terminal st = true ∧ st ≠ Blocked
     ∧ g' = mark (x_id x) st err now g ∧ x_id x' = x_id x ∧ x_dag x' = x_dag x
     ∧ x_class x' = x_class x ∧ x_armed x' = x_armed x ∧ x_pc x' = Returned)
  ∨ (g' = g ∧ x_id x' = x_id x ∧ x_dag x' = x_dag x ∧ x_class x' = x_class x
     ∧ x_armed x' = x_armed x
     ∧ ((x_pc x = AtTop ∧ x_pc x' = InRun) ∨ x_pc x' = Returned
        ∨ (x_pc x = InBackoff ∧ x_pc x' = WaitPermit) ∨ (x_pc x = WaitPermit ∧ x' = x)))
  ∨ (x_pc x = InRun ∧ x_pc x' = InBackoff ∧ x_id x' = x_id x ∧ x_dag x' = x_dag x
     ∧ x_class x' = x_class x ∧ x_armed x' = false
     ∧ if x_armed x then ∃ y, ResourceGauge.release (gauge g) (x_class x) = Some y
                              ∧ g' = with_gauge y g
       else g' = g)
  ∨ (x_pc x = WaitPermit ∧ x_pc x' = AtTop ∧ x_id x' = x_id x ∧ x_dag x' = x_dag x
     ∧ x_class x' = x_class x ∧ x_armed x' = true
     ∧ ∃ y, ResourceGauge.try_acquire (gauge g) (x_class x) lim = Ok y ∧ g' = with_gauge y g).
Proof.
  assert (Hret : ∀ st err, status_is_terminal st = true → st ≠ Blocked →
            Some (returns st err now x g) = Some (g', x') →
            ∃ st err, status_is_terminal st = true ∧ st ≠ Blocked
              ∧ g' = mark (x_id x) st err now g ∧ x_id x' = x_id x ∧ x_dag x' = x_dag x
              ∧ x_class x' = x_class x ∧ x_armed x' = x_armed x ∧ x_pc x' = Returned).
  { intros st err H1 H2 [= <- <-]. by exists st, err. }
  unfold exec_event. destruct e as [denied|r|w|w], (x_pc x) eqn:Epc; try done.
  - unfold exec_top. destruct cn; [recorded Hret|].
    case_match; [recorded Hret|]. case_match; [recorded Hret|].
    intros [= <- <-]. right; left. cbn. auto 10.
  - unfold exec_result. destruct r as [|msg retryable| |].
    + destruct cn; recorded Hret.
    + destruct cn; [recorded Hret|]. case_match.
      * unfold lease_release. cbn. destruct (x_armed x) eqn:Ea.
        -- destruct (ResourceGauge.release _ _) as [y|] eqn:Er; cbn; [|done].
           intros [= <- <-]. right; right; left. cbn. eauto 10.
        -- cbn. intros [= <- <-]. right; right; left. cbn. auto 10.
      * intros [= <- <-]. left. exists Failed, (Some msg). by split_and!.
    + recorded Hret.
    + destruct (x_dag x) eqn:Ed; [recorded Hret|].
      intros [= <- <-]. right; left. cbn. auto 10.
  - unfold exec_backoff. destruct w; [|recorded Hret..].
    intros [= <- <-]. right; left. cbn. auto 10.
  - unfold exec_permit. destruct cn; [recorded Hret|].
    case_match; [recorded Hret|]. destruct (ResourceGauge.try_acquire _ _ _) as [y|] eqn:Eg.
    + intros [= <- <-]. right; right; right. cbn. eauto 10.
    + destruct w; [|recorded Hret..]. intros [= <- <-]. right; left. auto 10.
Qed.

Lemma holds_eq c k x y : x_class y = x_class x → x_armed y = x_armed x → holds c k y = holds c k x.
Proof. unfold holds. by intros -> ->. Qed.

Lemma exec_event_sys lim s k x e cn now g x' :
  SysInv lim s → Sys.execs s !! k = Some x →
  exec_event lim e cn now x (Sys.inner s) = Some (g, x') →
  SysInv lim (Sys.MkSys g (<[k := x']> (Sys.execs s)) (Sys.next s) (Sys.cancelled s)).
Proof.
  intros HS Hk He. pose proof (sv_inner _ _ _ HS) as HI. pose proof (sv_pc _ _ _ HS _ _ Hk) as Hpc.
  destruct (exec_event_cases _ _ _ _ _ _ _ _ He)
    as [(st & err & H1 & H2 & -> & Ei & Ed & Ec & Ea & Ep)
       |[(-> & Ei & Ed & Ec & Ea & Ep)
       |[(Ep & Ep' & Ei & Ed & Ec & Ea & Hg)
       |(Ep & Ep' & Ei & Ed & Ec & Ea & y & Hy & ->)]]].
  - destruct (mark_frame (x_id x) st err now (Sys.inner s)) as (Eg & Er & Et).
    eapply exec_update; try done; [unfold pc_armed; by rewrite Ep|by apply mark_inner|..];
      rewrite Eg; [intros c; by rewrite (holds_eq c k x x')|apply HS].
  - eapply exec_update; try done; [|intros c; by rewrite (holds_eq c k x x')|apply HS].
    unfold pc_armed in *. rewrite Ea.
    destruct Ep as [[E1 E2]|[->|[[E1 E2]|[E1 ->]]]]; [| done| |by rewrite E1 in *];
      rewrite E1 in Hpc; by rewrite E2.
  - unfold pc_armed in Hpc. rewrite Ep in Hpc. rewrite Hpc in Hg.
    destruct Hg as (y & (u & Hu & ->)%ResourceGauge.release_Some & ->).
    eapply exec_update; try done; [unfold pc_armed; by rewrite Ep'|by apply with_gauge_inner|..];
      intros c; cbn [with_gauge gauge]; rewrite ResourceGauge.usage_insert.
    + unfold holds. rewrite Ec, Ea, Hpc. cbn [andb]. case_decide; case_bool_decide; subst; try done; lia.
    + pose proof (sv_limit _ _ _ HS c). case_decide; subst; lia.
  - apply ResourceGauge.try_acquire_Ok in Hy as [Hlt ->]. unfold pc_armed in Hpc. rewrite Ep in Hpc.
    eapply exec_update; try done; [unfold pc_armed; by rewrite Ep'|by apply with_gauge_inner|..];
      intros c; cbn [with_gauge gauge]; rewrite ResourceGauge.usage_insert.
    + unfold holds. rewrite Ec, Ea, Hpc. cbn [andb]. case_decide; case_bool_decide; subst; try done; lia.
    + pose proof (sv_limit _ _ _ HS c). case_decide; subst; lia.
Qed.

(** The task's status once its lease settles. *)
Definition settled (t : TaskState) (now : Z) : TaskState :=
  if bool_decide (status t = Running)
  then MkTask (op t) Cancelled (error t) (start_ms t) (Some now) (remaining t) (blocked t) (dependents t)
  else t.

Lemma settle_unfold id class permit now g t :
  tasks g !! id = Some t →
  settle id class permit now g =
  (g1 ← (if permit then (λ x, with_gauge x g) <$> ResourceGauge.release (gauge g) class else Some g);
   terminalize id (if bool_decide (status t = Running) then set_task id (settled t now) g1 else g1)).
Proof.
  intros Ht. unfold settle, settled. destruct permit; cbn.
  - destruct (ResourceGauge.release _ _); cbn; [|done]. rewrite Ht. by case_bool_decide.
  - rewrite Ht. by case_bool_decide.
Qed.

(** The settled task is terminal and not [Blocked]; the state before the
    notification still satisfies the invariant. *)
Lemma settle_before id now g t :
  InnerInv g → tasks g !! id = Some t → status_le Running (status t) = true →
  let g1 := if bool_decide (status t = Running) then set_task id (settled t now) g else g in
  InnerInv g1 ∧ evolves g g1 ∧ tasks g1 !! id = Some (settled t now)
  ∧ status_is_terminal (status (settled t now)) = true ∧ status (settled t now) ≠ Blocked.
Proof.
  intros HI Ht Hle. unfold settled. case_bool_decide as Hr; cbn zeta.
  - destruct (outcome_inner id g t (settled t now) HI Ht) as [H1 H2];
      unfold settled in *; rewrite ?bool_decide_eq_true_2 in * by done; try done;
      [by rewrite Hr|].
    split_and!; try done. cbn. by rewrite lookup_insert_eq.
  - split_and!; try done; destruct (status t); done.
Qed.

Lemma settle_inner id class permit now g g' rw :
  InnerInv g → running g !! id = Some rw → terminalized g !! id = None →
  settle id class permit now g = Some g' →
  InnerInv g' ∧ evolves g g' ∧ running g' = delete id (running g)
  ∧ terminalized g' = <[id := 1%N]> (terminalized g)
  ∧ (if permit then ∃ y, ResourceGauge.release (gauge g) class = Some y ∧ gauge g' = y
     else gauge g' = gauge g).
Proof.
  intros HI Hrw Hnt. destruct (ii_running _ HI _ _ Hrw) as (t & Ht & _ & Hle & _).
  rewrite (settle_unfold _ _ _ _ _ t) by done. intros (g1 & Hg1 & Hs)%bind_Some.
  assert (Hg : ∃ y, g1 = with_gauge y g
            ∧ if permit then ResourceGauge.release (gauge g) class = Some y else y = gauge g).
  { destruct permit; [apply fmap_Some in Hg1 as (y & Hy & ->); eauto|].
    simplify_eq. exists (gauge g1). by destruct g1. }
  destruct Hg as (y & -> & Hy).
  destruct (settle_before id now (with_gauge y g) t) as (HI1 & He1 & Ht1 & Hst & Hnb);
    [by apply with_gauge_inner|done|done|].
  set (g2 := if bool_decide (status t = Running) then set_task id (settled t now) (with_gauge y g)
             else with_gauge y g) in *.
  assert (Ef : frame (with_gauge y g) g2) by (unfold g2; destruct (bool_decide _); repeat split).
  destruct Ef as (Eg & Er & El).
  pose proof (terminalize_frame _ _ _ Hs) as (Hgg & [(n & Hn & _)|(_ & Hr & Hl)]).
  { rewrite El in Hn. cbn in Hn. congruence. }
  split_and!.
  - eapply terminalize_inner; [exact HI1|exact Ht1|done..].
  - etransitivity; [|by eapply terminalize_evolves].
    etransitivity; [|exact He1]. by apply evolves_sh.
  - by rewrite Hr, Er.
  - by rewrite Hl, El.
  - rewrite Hgg, Eg. destruct permit; cbn; [by exists y|done].
Qed.

(** Removing an execution whose effects on the shared state are given. *)
Lemma remove_exec lim s k x g :
  SysInv lim s → Sys.execs s !! k = Some x → InnerInv g →
  (∀ c, ResourceGauge.usage (gauge g) c + holds c k x
        = ResourceGauge.usage (gauge (Sys.inner s)) c) →
  (if x_dag x then running g = delete (x_id x) (running (Sys.inner s))
                   ∧ terminalized g = <[x_id x := 1%N]> (terminalized (Sys.inner s))
   else running g = running (Sys.inner s) ∧ terminalized g = terminalized (Sys.inner s)) →
  SysInv lim (Sys.MkSys g (delete k (Sys.execs s)) (Sys.next s) (Sys.cancelled s)).
Proof.
  intros [_ Hu Hl Hd Hps Hq Hsq Ha Ho Hfr Hpc] Hk HI Hus Hrt.
  assert (Hlk : ∀ j y, delete k (Sys.execs s) !! j = Some y → j ≠ k ∧ Sys.execs s !! j = Some y).
  { intros j y. rewrite lookup_delete_Some. naive_solver. }
  split; cbn [Sys.inner Sys.execs Sys.next]; try done.
  - intros c. specialize (Hus c). specialize (Hu c).
    rewrite (msum_delete (holds c) (Sys.execs s) k x Hk) in Hu. lia.
  - intros c. specialize (Hus c). specialize (Hl c). lia.
  - intros j y [Hjk Hj]%Hlk Hy. destruct (Hd _ _ Hj Hy) as [H1 H2].
    destruct (x_dag x) eqn:Ex; [|by destruct Hrt as [-> ->]].
    assert (x_id x ≠ x_id y) by (intros E; by eapply Hjk, Hq).
    destruct Hrt as [-> ->]. by rewrite lookup_delete_ne, lookup_insert_ne.
  - intros id c Hin. by apply elem_of_nil in Hin.
  - intros j j' y y' [_ Hj]%Hlk [_ Hj']%Hlk. by eapply Hq.
  - intros j y id c _ _ Hin. by apply elem_of_nil in Hin.
  - intros id Hrun. left.
    assert (is_Some (running (Sys.inner s) !! id) ∧ (x_dag x = true → id ≠ x_id x)) as [Hr0 Hne].
    { destruct (x_dag x); destruct Hrt as [Er _]; rewrite Er in Hrun; [|done].
      destruct Hrun as [rw Hrw%lookup_delete_Some]. naive_solver. }
    destruct (Ho _ Hr0) as [(j & y & Hj & Hy & Hi)|Hin]; [|by apply elem_of_nil in Hin].
    exists j, y. rewrite lookup_delete_ne; [done|]. intros ->. simplify_eq. by apply Hne.
  - intros j Hj. apply lookup_delete_None. auto.
  - intros j y [_ Hj]%Hlk. eauto.
Qed.

Lemma held_usage lim s k x :
  SysInv lim s → Sys.execs s !! k = Some x → x_armed x = true →
  ∃ u, ResourceGauge.usage (gauge (Sys.inner s)) (x_class x) = S u.
Proof.
  intros HS Hk Ha. pose proof (sv_usage _ _ _ HS (x_class x)) as Hu.
  rewrite (msum_delete _ _ k x Hk) in Hu. unfold holds at 1 in Hu.
  rewrite Ha, bool_decide_eq_true_2 in Hu by done. cbn in Hu. eauto.
Qed.

Lemma release_usage lim s k x y :
  SysInv lim s → Sys.execs s !! k = Some x → x_armed x = true →
  ResourceGauge.release (gauge (Sys.inner s)) (x_class x) = Some y →
  ∀ c, ResourceGauge.usage y c + holds c k x = ResourceGauge.usage (gauge (Sys.inner s)) c.
Proof.
  intros HS Hk Ha (u & Hu & ->)%ResourceGauge.release_Some c.
  rewrite ResourceGauge.usage_insert. unfold holds. rewrite Ha. cbn [andb].
  case_decide; case_bool_decide; subst; try done; lia.
Qed.

Lemma drop_exec_sys lim s k x now g :
  SysInv lim s → Sys.execs s !! k = Some x → drop_exec now x (Sys.inner s) = Some g →
  SysInv lim (Sys.MkSys g (delete k (Sys.execs s)) (Sys.next s) (Sys.cancelled s))
  ∧ evolves (Sys.inner s) g.
Proof.
  intros HS Hk Hdrop. pose proof (sv_inner _ _ _ HS) as HI. unfold drop_exec in Hdrop.
  assert (Hunheld : ∀ c, x_armed x = false → holds c k x = 0) by (unfold holds; by intros c ->).
  destruct (x_dag x) eqn:Ed.
  - destruct (sv_dag _ _ _ HS _ _ Hk Ed) as [[rw Hrw] Hnt].
    destruct (settle_inner _ _ _ _ _ _ _ HI Hrw Hnt Hdrop) as (HI' & He & Hr & Hl & Hg).
    split; [|done]. eapply remove_exec; try done; [|by rewrite Ed].
    intros c. destruct (x_armed x) eqn:Ea.
    + destruct Hg as (y & Hy & ->). by eapply release_usage.
    + rewrite Hg, Hunheld by done. lia.
  - unfold lease_release in Hdrop. destruct (x_armed x) eqn:Ea.
    + destruct (ResourceGauge.release _ _) as [y|] eqn:Er; [|done]. cbn in Hdrop. simplify_eq.
      split; [|by apply evolves_sh].
      eapply remove_exec; try done; [by apply with_gauge_inner|by eapply release_usage|by rewrite Ed].
    + cbn in Hdrop. simplify_eq. split; [|done].
      eapply remove_exec; try done; [|by rewrite Ed]. intros c. rewrite Hunheld by done. lia.
Qed.

Lemma execute_acquire_Ok lim id o g g' x :
  execute_acquire lim id o g = Ok (g', x) ↔
  (∃ y, ResourceGauge.try_acquire (gauge g) (resource_class o) lim = Ok y ∧ g' = with_gauge y g)
  ∧ x = MkExec id o (resource_class o) true 0 AtTop false.
Proof. unfold execute_acquire. destruct (ResourceGauge.try_acquire _ _ _); naive_solver. Qed.

Lemma execute_sys lim s id o g x :
  SysInv lim s → execute_acquire lim id o (Sys.inner s) = Ok (g, x) →
  SysInv lim (Sys.MkSys g (<[Sys.next s := x]> (Sys.execs s)) (Sys.next s + 1) (Sys.cancelled s)).
Proof.
  intros HS ((y & [Hlt ->]%ResourceGauge.try_acquire_Ok & ->) & ->)%execute_acquire_Ok.
  pose proof (sv_inner _ _ _ HS) as HI.
  assert (Hfresh : Sys.execs s !! Sys.next s = None) by (apply (sv_fresh _ _ _ HS); lia).
  destruct HS as [_ Hu Hl Hd Hps Hq Hsq Ha Ho Hfr Hpc].
  split; cbn [Sys.inner Sys.execs Sys.next with_gauge gauge running terminalized]; try done.
  - by apply with_gauge_inner.
  - intros c. rewrite insert_exec_usage by done. rewrite ResourceGauge.usage_insert.
    specialize (Hu c). unfold holds at 1. cbn.
    case_decide; case_bool_decide; subst; try done; lia.
  - intros c. rewrite ResourceGauge.usage_insert. specialize (Hl c). case_decide; subst; lia.
  - intros j y. rewrite lookup_insert_Some. intros [[<- <-]|[_ Hj]]; [done|by eapply Hd].
  - intros j j' y y'. rewrite !lookup_insert_Some.
    intros [[_ <-]|[_ Hj]] [[_ <-]|[_ Hj']] Hy Hy'; try done. by eapply Hq.
  - intros j y id' c _ _ Hin. by apply elem_of_nil in Hin.
  - intros id' Hrun. destruct (Ho _ Hrun) as [(j & y & Hj & Hy & Hi)|Hin]; [|by apply elem_of_nil in Hin].
    left. exists j, y. rewrite lookup_insert_ne; [done|]. intros <-. congruence.
  - intros j Hj. rewrite lookup_insert_ne by lia. apply Hfr. lia.
  - intros j y. rewrite lookup_insert_Some. intros [[<- <-]|[_ Hj]]; [done|by eapply Hpc].
Qed.

Lemma schedule_evolves lim now g g' sps :
  schedule_ready lim now g = Some (g', sps) → evolves g g'.
Proof.
  unfold schedule_ready. intros H. eapply (schedule_pass_ind (λ h _, evolves g h)); [..|exact H].
  - intros h sp id rest t He _ _ _. etransitivity; [exact He|]. by apply evolves_sh.
  - intros h sp id rest t He _ _. etransitivity; [exact He|]. by apply evolves_sh.
  - intros h sp id rest t x He _ Ht Hp _ _ _. etransitivity; [exact He|].
    etransitivity; [|by apply start_evolves]. by apply evolves_sh.
  - reflexivity.
Qed.

Lemma spawn_all_inner sps : ∀ s, Sys.inner (foldl Sys.spawn s sps) = Sys.inner s.
Proof.
  induction sps as [|sp sps IH]; intros s; [done|]. cbn [foldl]. rewrite IH.
  unfold Sys.spawn. by case_match.
Qed.

Lemma exec_event_evolves lim e cn now x g g' x' :
  InnerInv g → exec_event lim e cn now x g = Some (g', x') → evolves g g'.
Proof.
  intros HI He. destruct (exec_event_cases _ _ _ _ _ _ _ _ He)
    as [(st & err & H1 & H2 & -> & _)|[(-> & _)|[(_ & _ & _ & _ & _ & _ & Hg)
       |(_ & _ & _ & _ & _ & _ & y & _ & ->)]]].
  - by apply mark_inner.
  - reflexivity.
  - destruct (x_armed x); [destruct Hg as (y & _ & ->); by apply evolves_sh|by rewrite Hg].
  - by apply evolves_sh.
Qed.

Lemma sys_step lim s s' :
  SysInv lim s → Sys.step lim s s' → SysInv lim s' ∧ evolves (Sys.inner s) (Sys.inner s').
Proof.
  intros HS Hstep. pose proof (sv_inner _ _ _ HS) as HI.
  destruct Hstep as [o g Hg|ids g Hids Hg|now g sps Hg|id g tok Hg|tok|id o g x Hg
                    |k x e now g x' Hk Hg|k x now g Hk Hg]; cbn [Sys.inner Sys.with_inner].
  - destruct (try_submit_inner _ _ _ HI Hg) as [HI' He]. split; [|done].
    destruct (try_submit_frame _ _ _ Hg) as (Eg & Er & Et).
    apply sys_inner_step; try done; intros id; by rewrite Er, ?Et.
  - destruct (rebuild_inner _ _ _ HI Hids Hg) as [HI' He]. split; [|done].
    destruct (rebuild_keeps _ _ _ HI Hids Hg) as (Eg & Er & Et).
    apply sys_inner_step; try done; intros id; rewrite Er; [|done].
    intros Hr Ht. split; [done|]. by rewrite Et.
  - split; [by eapply spawn_all_sys, schedule_sys|]. rewrite spawn_all_inner.
    by eapply schedule_evolves.
  - destruct (try_cancel_inner _ _ _ _ HI Hg) as [HI' He]. split; [|done].
    destruct (try_cancel_keeps _ _ _ _ HI Hg) as (Eg & Er & Et).
    apply sys_inner_step; try done; intros k; rewrite Er; [|done].
    intros Hr Ht. split; [done|]. by rewrite Et.
  - split; [|done]. apply sys_inner_step; try done.
  - split; [by eapply execute_sys|].
    apply execute_acquire_Ok in Hg as ((y & _ & ->) & _). by apply evolves_sh.
  - split; [by eapply exec_event_sys|by eapply exec_event_evolves].
  - by eapply drop_exec_sys.
Qed.

Lemma init_inv lim : SysInv lim Sys.init.
Proof.
  split; cbn; try done.
  - split; cbn; try done.
    + split; cbn; try done. split; [done|apply NoDup_nil_2|]. intros x Hx. by apply elem_of_nil in Hx.
    + split; cbn; [|done]. intros id Hid. by apply elem_of_nil in Hid.
  - intros c. unfold ResourceGauge.usage. rewrite lookup_empty. cbn. lia.
  - intros id c Hin. by apply elem_of_nil in Hin.
  - apply NoDup_nil_2.
  - intros id [x Hx]. done.
Qed.

Lemma reachable_inv lim s : Sys.reachable lim s → SysInv lim s.
Proof. induction 1; [apply init_inv|by eapply sys_step]. Qed.

(** ** Terminal outcomes are final *)
Definition ledger_one (g : Inner) : Prop :=
  ∀ id n, terminalized g !! id = Some n → n = 1%N.

Lemma terminalize_ledger_one u g g' :
  terminalized g !! u = None → ledger_one g → terminalize u g = Some g' → ledger_one g'.
Proof.
  intros Hu H1 Ht id n. apply terminalize_frame in Ht as (_ & [(m & Hm & _)|(_ & _ & ->)]);
    [congruence|]. rewrite lookup_insert_Some. intros [[_ <-]|[_ Hid]]; eauto.
Qed.

Lemma terminalize_all_ledger_one us : ∀ g g',
  NoDup us → (∀ u, u ∈ us → terminalized g !! u = None) → ledger_one g →
  terminalize_all us g = Some g' → ledger_one g'.
Proof.
  induction us as [|u us IH]; intros g g' Hnd Hu H1 Ht; [cbn in Ht; by simplify_eq|].
  apply NoDup_cons in Hnd as [Hnin Hnd].
  rewrite terminalize_all_cons in Ht. apply bind_Some in Ht as (g1 & Ht1 & Ht).
  apply (IH g1 g'); [done| |eapply terminalize_ledger_one; [|done|exact Ht1]; apply Hu; set_solver|done].
  intros v Hv. pose proof (terminalize_frame _ _ _ Ht1) as (_ & [(m & Hm & _)|(_ & _ & ->)]).
  - rewrite Hu in Hm; [done|set_solver].
  - rewrite lookup_insert_ne by (by intros ->). apply Hu. set_solver.
Qed.

Lemma rebuild_ledger_one ids g g' :
  InnerInv g → ids ≡ₚ elements (dom (tasks g)) → rebuild_graph ids g = Some g' →
  ledger_one g → ledger_one g'.
Proof.
  intros HI Hids. rewrite rebuild_Some. intros (ts & newly & g1 & Hf & Hta & ->) H1.
  destruct (rebuild_recount ids g ts newly Hids Hf) as (_ & _ & Hnd & Hnew).
  destruct (push_if_ready_sub ids g1) as (_ & (_ & _ & El) & _).
  intros id n. rewrite El. revert id n.
  apply (terminalize_all_ledger_one newly (with_tasks ts (with_ready [] g))); try done.
  intros u Hu. destruct (Hnew _ Hu) as (t & Ht & Hp). by eapply (pending_unledgered g).
Qed.

Lemma schedule_ledger lim now g g' sps :
  schedule_ready lim now g = Some (g', sps) → terminalized g' = terminalized g.
Proof.
  unfold schedule_ready. intros H.
  by eapply (schedule_pass_ind (λ h _, terminalized h = terminalized g)); [..|exact H].
Qed.

Lemma step_ledger_one lim s s' :
  SysInv lim s → Sys.step lim s s' → ledger_one (Sys.inner s) → ledger_one (Sys.inner s').
Proof.
  intros HS Hstep H1. pose proof (sv_inner _ _ _ HS) as HI.
  destruct Hstep as [o g Hg|ids g Hids Hg|now g sps Hg|id g tok Hg|tok|id o g x Hg
                    |k x e now g x' Hk Hg|k x now g Hk Hg]; cbn [Sys.inner Sys.with_inner].
  - destruct (try_submit_frame _ _ _ Hg) as (_ & _ & El). intros id n. rewrite El. apply H1.
  - by eapply rebuild_ledger_one.
  - rewrite spawn_all_inner. cbn. intros id n. rewrite (schedule_ledger _ _ _ _ _ Hg). apply H1.
  - unfold try_cancel in Hg. destruct (tasks _ !! id) as [t|] eqn:E; [|done].
    destruct (status_is_terminal (status t)); [done|]. unfold is_pending in Hg.
    case_bool_decide as Hp; [|by simplify_eq]. injection Hg as Hg _.
    eapply (terminalize_ledger_one id (set_task id (with_status Cancelled t) (Sys.inner s)));
      [by eapply (pending_unledgered (Sys.inner s))|exact H1|exact Hg].
  - done.
  - apply execute_acquire_Ok in Hg as ((y & _ & ->) & _). exact H1.
  - destruct (exec_event_cases _ _ _ _ _ _ _ _ Hg)
      as [(st & err & _ & _ & -> & _)|[(-> & _)|[(_ & _ & _ & _ & _ & _ & Hx)
         |(_ & _ & _ & _ & _ & _ & y & _ & ->)]]]; [|done| |exact H1].
    + destruct (mark_frame (x_id x) st err now (Sys.inner s)) as (_ & _ & El).
      intros id n. rewrite El. apply H1.
    + destruct (x_armed x); [destruct Hx as (y & _ & ->); exact H1|by rewrite Hx].
  - unfold drop_exec in Hg. destruct (x_dag x) eqn:Ed.
    + destruct (sv_dag _ _ _ HS _ _ Hk Ed) as [[rw Hrw] Hnt].
      destruct (settle_inner _ _ _ _ _ _ _ HI Hrw Hnt Hg) as (_ & _ & _ & El & _).
      intros id n. rewrite El, lookup_insert_Some. intros [[_ <-]|[_ Hid]]; [done|by eapply H1].
    + unfold lease_release in Hg. destruct (x_armed x); [|cbn in Hg; by simplify_eq].
      destruct (ResourceGauge.release _ _); [|done]. cbn in Hg. simplify_eq. exact H1.
Qed.

Lemma reachable_ledger_one lim s : Sys.reachable lim s → ledger_one (Sys.inner s).
Proof.
  induction 1 as [|s s' Hr IH Hs]; [done|].
  eapply step_ledger_one; [by apply reachable_inv|done|done].
Qed.

Lemma steps_inv lim s s' :
  Sys.reachable lim s → rtc (Sys.step lim) s s' →
  Sys.reachable lim s' ∧ evolves (Sys.inner s) (Sys.inner s').
Proof.
  intros Hr Hs. induction Hs as [s|s s1 s' Hstep Hs IH]; [done|].
  destruct IH as [Hr' He]; [by eapply Sys.reach_step|]. split; [done|].
  etransitivity; [|exact He]. by eapply sys_step, Hstep; apply reachable_inv.
Qed.

(** C28: A task's outcome is decided exactly once.  Whatever interleaving of
    submissions, rebuilds, scheduling passes, cancellations, executions,
    aborts and standalone [execute] calls follows, a registered operation keeps
    its payload, its status only moves along the task machine, a terminal
    status is never changed, and the terminalization ledger never holds more
    than the one attempt (the duplicate-terminalization refusal never fires). *)
Theorem terminal_exactly_once lim s s' id t :
  Sys.reachable lim s → rtc (Sys.step lim) s s' → tasks (Sys.inner s) !! id = Some t →
  ∃ t', tasks (Sys.inner s') !! id = Some t' ∧ op t' = op t
    ∧ status_le (status t) (status t') = true
    ∧ (status_is_terminal (status t) = true → status t' = status t)
    ∧ (∀ n, terminalized (Sys.inner s') !! id = Some n → n = 1%N).
Proof.
  intros Hr Hs Ht. destruct (steps_inv _ _ _ Hr Hs) as [Hr' He].
  destruct (evolves_lookup _ _ _ _ He Ht) as (t' & Ht' & Hop & Hle).
  exists t'. split_and!; [done|done|done|by apply status_le_terminal|].
  by apply (reachable_ledger_one _ _ Hr').
Qed.

(** The pass starts a task only when the overlap test says no against every
    running entry. *)
Lemma running_sets_apart lim s a b ta tb :
  Sys.reachable lim s → a ≠ b →
  is_Some (running (Sys.inner s) !! a) → is_Some (running (Sys.inner s) !! b) →
  tasks (Sys.inner s) !! a = Some ta → tasks (Sys.inner s) !! b = Some tb →
  overlaps (writes (op ta)) (writes (op tb)) = false
  ∧ overlaps (writes (op ta)) (reads (op tb)) = false
  ∧ overlaps (reads (op ta)) (writes (op tb)) = false.
Proof.
  intros Hr Hne [ra Ha] [rb Hb] Hta Htb.
  pose proof (sv_inner _ _ _ (reachable_inv _ _ Hr)) as HI.
  destruct (ii_running _ HI _ _ Ha) as (ta' & Hta' & -> & _).
  destruct (ii_running _ HI _ _ Hb) as (tb' & Htb' & -> & _). simplify_eq.
  exact (ii_excl _ HI _ _ _ _ Ha Hb Hne).
Qed.

(** C29: Conflicting tasks never run together.  Of two tasks that hold their
    [running] entry at the same time (from the start of one to the settling of
    its lease), whose declared entries are in canonical spelling (what
    [OwnershipSet::canonicalized] produces, see
    [Ownership.canonicalized_canonical]), no path is touched by what one
    writes and by what the other writes or reads: a path is a list of
    components, a file entry touches the path it spells, a directory entry
    every path below it, and the workspace token every path. *)
Theorem running_tasks_never_conflict lim s a b ta tb :
  Sys.reachable lim s → a ≠ b →
  is_Some (running (Sys.inner s) !! a) → is_Some (running (Sys.inner s) !! b) →
  tasks (Sys.inner s) !! a = Some ta → tasks (Sys.inner s) !! b = Some tb →
  Forall canonical (reads (op ta) ++ writes (op ta)) →
  Forall canonical (reads (op tb) ++ writes (op tb)) →
  disjoint_sets (writes (op ta)) (writes (op tb))
  ∧ disjoint_sets (writes (op ta)) (reads (op tb))
  ∧ disjoint_sets (reads (op ta)) (writes (op tb)).
Proof.
  intros Hr Hne Ha Hb Hta Htb [Cra Cwa]%Forall_app [Crb Cwb]%Forall_app.
  destruct (running_sets_apart lim s a b ta tb Hr Hne Ha Hb Hta Htb) as (Hww & Hwr & Hrw).
  split_and!; by apply overlaps_false_disjoint.
Qed.

(** A task starts only after its dependencies: every task that runs (and
    until its lease settles) has each declared dependency registered in a
    status that satisfies the edge's policy, and that status is final. *)
Theorem running_after_dependencies lim s id :
  Sys.reachable lim s → is_Some (running (Sys.inner s) !! id) →
  ∃ t, tasks (Sys.inner s) !! id = Some t ∧
    ∀ d p, (d, p) ∈ dependencies (op t) →
    ∃ td, tasks (Sys.inner s) !! d = Some td ∧ edge_satisfied p (status td) = true
          ∧ status_is_terminal (status td) = true.
Proof.
  intros Hr [rw Hrw]. pose proof (sv_inner _ _ _ (reachable_inv _ _ Hr)) as HI.
  destruct (ii_running _ HI _ _ Hrw) as (t & Ht & _ & _ & Hu). exists t. split; [done|].
  intros d p Hin. rewrite unsat_zero in Hu. specialize (Hu _ Hin). unfold sat_edge in Hu. cbn in Hu.
  rewrite sh_lookup in Hu. destruct (tasks (Sys.inner s) !! d) as [td|]; [|done]. cbn in Hu.
  exists td. split_and!; [done|done|]. by destruct p, (status td).
Qed.

(** C30: Permits are accounted for exactly: at every point the gauge of each
    class counts the executions that hold a permit of that class and never
    exceeds the class limit; an execution holds its permit while its runnable
    runs and holds none while it sleeps out a retry backoff or waits for
    re-admission. *)
Theorem permits_exact lim s :
  Sys.reachable lim s →
  (∀ c, ResourceGauge.usage (gauge (Sys.inner s)) c = msum (holds c) (Sys.execs s)
        ∧ ResourceGauge.usage (gauge (Sys.inner s)) c ≤ ResourceLimits.get lim c)
  ∧ ∀ k x, Sys.execs s !! k = Some x →
      (x_pc x = InRun → x_armed x = true)
      ∧ (x_pc x = InBackoff ∨ x_pc x = WaitPermit → x_armed x = false).
Proof.
  intros Hr%reachable_inv. split.
  - intros c. split; [|apply Hr]. rewrite (sv_usage _ _ _ Hr). unfold reserved. cbn.
    rewrite count_nil. lia.
  - intros k x Hk. pose proof (sv_pc _ _ _ Hr _ _ Hk) as Hpc. unfold pc_armed in Hpc.
    split; [intros E|intros [E|E]]; by rewrite E in Hpc.
Qed.

(** ** The scheduler does not panic *)
Lemma schedule_pass_total lim now fuel : ∀ n deferred g sp,
  (∀ id, id ∈ ready g → is_Some (tasks g !! id)) →
  is_Some (schedule_pass fuel n lim now deferred g sp).
Proof.
  induction fuel as [|fuel IH]; intros n deferred g sp Hk; cbn; [by eexists|].
  case_bool_decide; [by eexists|]. destruct (ready g) as [|id rest] eqn:Er; [by eexists|].
  cbn. destruct (Hk id) as [t Ht]; [set_solver|]. rewrite Ht. cbn.
  assert (Hrest : ∀ v, v ∈ rest → is_Some (tasks g !! v)) by (intros; apply Hk; set_solver).
  assert (Hdef : ∀ v, v ∈ rest ++ [id] → is_Some (tasks g !! v)) by (intros; apply Hk; set_solver).
  destruct (_ || _); [by apply IH|].
  destruct (conflicts _ _); [by apply IH|].
  destruct (ResourceGauge.try_acquire _ _ _); [|by apply IH].
  apply IH. cbn. intros v Hv. rewrite lookup_insert_is_Some'. auto.
Qed.

Lemma recount_edges_total statuses id deps : ∀ (ts : gmap OpId TaskState) rem blk,
  (∀ d p, (d, p) ∈ deps → is_Some (statuses d) ∧ is_Some (ts !! d)) →
  ∃ ts' rem' blk', foldl (recount_edge statuses id) (Some (ts, rem, blk)) deps = Some (ts', rem', blk')
    ∧ ∀ k, is_Some (ts !! k) → is_Some (ts' !! k).
Proof.
  induction deps as [|[d p] deps IH]; intros ts rem blk Hd; cbn [foldl]; [by eauto 10|].
  destruct (Hd d p) as [[st Hst] [td Htd]]; [by constructor|].
  assert (Hd' : ∀ d p, (d, p) ∈ deps → is_Some (statuses d) ∧ is_Some (ts !! d)).
  { intros d' p' ?. apply (Hd d' p'). by constructor. }
  unfold recount_edge at 2. cbn. rewrite Hst. cbn.
  destruct (edge_satisfied p st); [by apply IH|]. destruct (_ && _); [by apply IH|].
  rewrite Htd. cbn.
  destruct (IH (<[d := with_dependents (dependents td ++ [(id, p)]) td]> ts) (S rem) blk)
    as (ts' & r & b & E & Hdom).
  { intros d' p' Hin. destruct (Hd' _ _ Hin). split; [done|]. rewrite lookup_insert_is_Some'. auto. }
  exists ts', r, b. split; [done|]. intros k Hk. apply Hdom. rewrite lookup_insert_is_Some'. auto.
Qed.

Lemma recount_core statuses id deps : ∀ (ts : gmap OpId TaskState) rem blk ts' rem' blk',
  foldl (recount_edge statuses id) (Some (ts, rem, blk)) deps = Some (ts', rem', blk') →
  core <$> ts' = core <$> ts.
Proof.
  induction deps as [|[d p] deps IH]; intros ts rem blk ts' rem' blk' Hf; [by cbn in Hf; simplify_eq|].
  cbn [foldl] in Hf. unfold recount_edge at 2 in Hf. cbn in Hf.
  destruct (statuses d); cbn in Hf; [|by rewrite recount_None in Hf].
  destruct (edge_satisfied _ _); [by eapply IH|]. destruct (_ && _); [by eapply IH|].
  destruct (ts !! d) as [td|] eqn:Ed; cbn in Hf; [|by rewrite recount_None in Hf].
  apply IH in Hf. by rewrite core_push in Hf.
Qed.

(** A recount keeps the keys and the operations. *)
Lemma recount_task_ops statuses ts W id ts' W' :
  recount_task statuses (Some (ts, W)) id = Some (ts', W') →
  (∀ k, is_Some (ts !! k) → is_Some (ts' !! k))
  ∧ ∀ k t', ts' !! k = Some t' → ∃ t, ts !! k = Some t ∧ op t' = op t.
Proof.
  rewrite recount_task_Some. intros (t & ts1 & rem & blk & t1 & tn & Ht & Hf & Ht1 & -> & _ & Htn).
  apply recount_core in Hf as Hcore.
  assert (op tn = op t1) as Hop by (subst tn; by destruct (_ && _)).
  split.
  - intros k [tk Hk]. rewrite lookup_insert_is_Some'. right. symmetry in Hcore.
    destruct (core_lookup _ _ _ _ Hcore Hk) as (t2 & Ht2 & _). eauto.
  - intros k t'. rewrite lookup_insert_Some. intros [[<- <-]|[_ Hk]].
    + destruct (core_lookup _ _ _ _ Hcore Ht1) as (t2 & Ht2 & (E & _)%core_eq).
      exists t2. split; [done|]. congruence.
    + destruct (core_lookup _ _ _ _ Hcore Hk) as (t2 & Ht2 & (E & _)%core_eq). eauto.
Qed.

Lemma recount_tasks_total statuses ids : ∀ W (ts : gmap OpId TaskState),
  (∀ id, id ∈ ids → is_Some (ts !! id)) →
  (∀ id t d p, ts !! id = Some t → (d, p) ∈ dependencies (op t) →
     is_Some (statuses d) ∧ is_Some (ts !! d)) →
  is_Some (foldl (recount_task statuses) (Some (ts, W)) ids).
Proof.
  induction ids as [|id ids IH]; intros W ts Hids Hdeps; cbn [foldl]; [by eexists|].
  destruct (Hids id) as [t Ht]; [set_solver|].
  destruct (recount_edges_total statuses id (dependencies (op t)) ts 0 0)
    as (ts1 & rem & blk & E & Hdom); [intros d p Hin; by eapply (Hdeps id)|].
  destruct (Hdom id) as [t1 Ht1]; [eauto|].
  destruct (recount_task statuses (Some (ts, W)) id) as [[ts' W']|] eqn:Er.
  - destruct (recount_task_ops _ _ _ _ _ _ Er) as [Hd Ho]. apply IH.
    + intros k Hk. apply Hd, Hids. set_solver.
    + intros k tk d p Hk Hin. destruct (Ho _ _ Hk) as (t0 & Ht0 & Eo). rewrite Eo in Hin.
      destruct (Hdeps _ _ _ _ Ht0 Hin). auto.
  - exfalso. unfold recount_task in Er. cbn in Er. rewrite Ht in Er. cbn in Er. rewrite E in Er.
    cbn in Er. rewrite Ht1 in Er. cbn in Er. by destruct (_ && _).
Qed.

Lemma terminalize_all_total us : ∀ g,
  (∀ u, u ∈ us → is_Some (tasks g !! u)) → is_Some (terminalize_all us g).
Proof.
  induction us as [|u us IH]; intros g Hu; [by eexists|]. rewrite terminalize_all_cons.
  destruct (terminalize_total u g) as [g1 Hg1]; [apply Hu; set_solver|]. rewrite Hg1. cbn.
  apply IH. intros v Hv. destruct (Hu v) as [tv Htv]; [set_solver|].
  destruct (evolves_lookup _ _ _ _ (terminalize_evolves _ _ _ Hg1) Htv) as (t' & ? & _). eauto.
Qed.

Lemma rebuild_total ids g :
  ids ≡ₚ elements (dom (tasks g)) → ¬ dangling (tasks g) → is_Some (rebuild_graph ids g).
Proof.
  intros Hids Hd.
  assert (Hin : ∀ id, id ∈ ids → is_Some (tasks g !! id)).
  { intros id. by rewrite Hids, elem_of_elements, elem_of_dom. }
  destruct (recount_tasks_total (λ id, status <$> tasks g !! id) ids [] (clear_counts <$> tasks g))
    as [[ts newly] Hf].
  { intros id Hid. rewrite lookup_fmap, fmap_is_Some. auto. }
  { intros id t d p Ht Hdp. rewrite lookup_fmap in Ht. apply fmap_Some in Ht as (t0 & Ht0 & ->).
    rewrite lookup_fmap, !fmap_is_Some. destruct (tasks g !! d) eqn:E; [by eauto|].
    exfalso. apply Hd. exists id, d. split; [|done]. by exists t0, p. }
  destruct (rebuild_recount ids g ts newly Hids Hf) as (_ & [Hr _] & _ & Hnew).
  destruct (terminalize_all_total newly (with_tasks ts (with_ready [] g))) as [g1 Hg1].
  { intros u Hu. destruct (Hnew _ Hu) as (t & Ht & _).
    destruct (Hr u (clear_counts t)) as (t' & ? & _); [by rewrite lookup_fmap, Ht|]. cbn. eauto. }
  eexists. apply rebuild_Some. eauto 10.
Qed.

Lemma settle_total g id class permit now :
  is_Some (tasks g !! id) →
  (permit = true → is_Some (ResourceGauge.release (gauge g) class)) →
  is_Some (settle id class permit now g).
Proof.
  intros [t Ht] Hg. rewrite (settle_unfold _ _ _ _ _ t) by done.
  assert (∃ y, (if permit then (λ x, with_gauge x g) <$> ResourceGauge.release (gauge g) class
                else Some g) = Some (with_gauge y g)) as [y ->].
  { destruct permit; [|exists (gauge g); by destruct g].
    destruct Hg as [y ->]; [done|]. by exists y. }
  cbn [mbind option_bind]. apply terminalize_total.
  destruct (bool_decide _); cbn; [rewrite lookup_insert_is_Some'; auto|eauto].
Qed.

(** The scheduler never panics.  In every reachable state a scheduling pass
    finds each queued id registered, a cancellation and the settling or drop
    of any lease find their task and a permit to give back (the gauge never
    underflows), giving a permit back for a retry backoff succeeds, and a
    rebuild succeeds whenever every declared dependency is registered. *)
Theorem scheduler_never_panics lim s :
  Sys.reachable lim s →
  (∀ now, is_Some (schedule_ready lim now (Sys.inner s)))
  ∧ (∀ id r tok, try_cancel id (Sys.inner s) = Ok (r, tok) → is_Some r)
  ∧ (∀ k x now, Sys.execs s !! k = Some x → is_Some (drop_exec now x (Sys.inner s)))
  ∧ (∀ k x r cn now, Sys.execs s !! k = Some x → x_pc x = InRun →
       is_Some (exec_result r cn now x (Sys.inner s)))
  ∧ (∀ ids, ids ≡ₚ elements (dom (tasks (Sys.inner s))) → ¬ dangling (tasks (Sys.inner s)) →
       is_Some (rebuild_graph ids (Sys.inner s))).
Proof.
  intros Hr%reachable_inv. pose proof (sv_inner _ _ _ Hr) as HI.
  assert (Hrel : ∀ k x, Sys.execs s !! k = Some x → x_armed x = true →
            is_Some (ResourceGauge.release (gauge (Sys.inner s)) (x_class x))).
  { intros k x Hk Ha. destruct (held_usage _ _ _ _ Hr Hk Ha) as [u Hu].
    eexists. apply ResourceGauge.release_Some. eauto. }
  split_and!.
  - intros now. apply schedule_pass_total, (ii_queue _ HI).
  - intros id r tok. unfold try_cancel. destruct (tasks _ !! id) as [t|] eqn:E; [|done].
    destruct (status_is_terminal _); [done|]. destruct (is_pending t); intros [= <- _]; [|by eexists].
    apply terminalize_total. cbn. rewrite lookup_insert_is_Some'. auto.
  - intros k x now Hk. unfold drop_exec. destruct (x_dag x) eqn:Ed.
    + apply settle_total; [|by eauto]. destruct (sv_dag _ _ _ Hr _ _ Hk Ed) as [[rw Hrw] _].
      destruct (ii_running _ HI _ _ Hrw) as (t & Ht & _). eauto.
    + unfold lease_release. destruct (x_armed x) eqn:Ea; [|by eexists].
      destruct (Hrel _ _ Hk Ea) as [y ->]. by eexists.
  - intros k x r cn now Hk Hpc. unfold exec_result. destruct r; try (by repeat case_match; eexists).
    destruct cn; [by eexists|]. destruct (_ && _); [|by eexists]. unfold lease_release. cbn.
    destruct (x_armed x) eqn:Ea; [|by eexists]. destruct (Hrel _ _ Hk Ea) as [y ->]. by eexists.
  - intros ids. apply rebuild_total.
Qed.

(** ** Progress *)
Lemma schedule_pass_extends lim now fuel n deferred g sp g' sp' :
  schedule_pass fuel n lim now deferred g sp = Some (g', sp') → ∃ more, sp' = sp ++ more.
Proof.
  intros H. eapply (schedule_pass_ind (λ _ q, ∃ more, q = sp ++ more) lim now); [..|exact H]; [eauto..| |].
  - intros ? q id rest t x [more ->] _ _ _ _ _ _. exists (more ++ [(id, resource_class (op t))]).
    by rewrite app_assoc.
  - exists []. by rewrite app_nil_r.
Qed.

Lemma idle_pass_starts lim now n id t : ∀ fuel g,
  running g = ∅ → (∀ c, ResourceGauge.usage (gauge g) c = 0) →
  (∀ c, 1 ≤ ResourceLimits.get lim c) → (∀ v, v ∈ ready g → is_Some (tasks g !! v)) →
  id ∈ ready g → tasks g !! id = Some t → status t = Pending → remaining t = 0 →
  0 < n → length (ready g) ≤ fuel →
  ∃ g' sps, schedule_pass fuel n lim now 0 g [] = Some (g', sps) ∧ sps ≠ [].
Proof.
  induction fuel as [|fuel IH]; intros g Hrun Hus Hlim Hk Hin Ht Hp Hr Hn Hf;
    destruct (ready g) as [|v rest] eqn:Er; [by apply elem_of_nil in Hin|cbn in Hf; lia|
      by apply elem_of_nil in Hin|].
  cbn. rewrite bool_decide_eq_false_2 by lia. rewrite Er. cbn.
  destruct (Hk v) as [tv Htv]; [set_solver|]. rewrite Htv. cbn.
  destruct (negb (is_pending tv) || bool_decide (remaining tv ≠ 0)) eqn:Estale.
  - apply (IH (with_ready rest g)); try done; [intros w Hw; apply Hk; set_solver| |cbn in *; lia].
    apply elem_of_cons in Hin as [<-|]; [|done]. simplify_eq. unfold is_pending in Estale.
    rewrite bool_decide_eq_true_2, bool_decide_eq_false_2 in Estale by lia || done. done.
  - assert (conflicts (op tv) (running g) = false) as ->.
    { unfold conflicts. rewrite Hrun, map_to_list_empty. done. }
    destruct (ResourceGauge.try_acquire (gauge g) (resource_class (op tv)) lim) as [y|] eqn:Eg.
    + cbn. destruct (schedule_pass_total lim now fuel n 0
        (start lim now v tv y (with_ready rest g)) [(v, resource_class (op tv))]) as [[g' sps] Hs].
      { cbn. intros w Hw. rewrite lookup_insert_is_Some'. right. apply Hk. set_solver. }
      exists g', sps. split; [exact Hs|].
      apply schedule_pass_extends in Hs as [more ->]. done.
    + unfold ResourceGauge.try_acquire in Eg. rewrite Hus in Eg. case_bool_decide; [|done].
      specialize (Hlim (resource_class (op tv))). lia.
Qed.

(** C31: No ready work is ever stranded.  A pending task with nothing left to
    wait for is always in the ready queue; and when the runner is idle (no
    execution is alive) and every class admits at least one operation, the
    next scheduling pass does start something, so the runner's "resource
    budgets prevent any ready task from starting" verdict cannot occur. *)
Theorem ready_work_is_started lim s id t :
  Sys.reachable lim s → tasks (Sys.inner s) !! id = Some t →
  status t = Pending → remaining t = 0 →
  id ∈ ready (Sys.inner s)
  ∧ (Sys.execs s = ∅ → (∀ c, 1 ≤ ResourceLimits.get lim c) →
     ∀ now, ∃ g' sps, schedule_ready lim now (Sys.inner s) = Some (g', sps) ∧ sps ≠ []).
Proof.
  intros Hr%reachable_inv Ht Hp Hrem. pose proof (sv_inner _ _ _ Hr) as HI.
  assert (id ∈ ready (Sys.inner s)) as Hin.
  { eapply (qi_wake _ _ (ii_queue _ HI)); try done.
    destruct (decide (0 < blocked t)) as [Hb|]; [|lia].
    by apply (ci_blocked _ _ _ (ii_count _ HI) _ _ Ht) in Hb. }
  split; [done|]. intros Hex Hlim now.
  assert (ready (Sys.inner s) ≠ []) as Hne by (intros E; rewrite E in Hin; by apply elem_of_nil in Hin).
  apply (idle_pass_starts lim now _ id t); try done.
  - apply map_eq. intros k. rewrite lookup_empty.
    destruct (running (Sys.inner s) !! k) as [rw|] eqn:E; [|done].
    destruct (sv_owner _ _ _ Hr k) as [(j & x & Hj & _)|Hj]; [eauto| |by apply elem_of_nil in Hj].
    rewrite Hex in Hj. done.
  - intros c. rewrite (sv_usage _ _ _ Hr), Hex, msum_empty. unfold reserved. cbn. apply count_nil.
  - apply (ii_queue _ HI).
  - destruct (ready _); [done|cbn; lia].
  - lia.
Qed.

(** ** Submission *)
Lemma same_registration_refl o : same_registration o o = true.
Proof. unfold same_registration. by rewrite !bool_decide_eq_true_2. Qed.

(** Registration is conflict-checked and idempotent.  After a successful
    submission the operation is registered with exactly that payload and no
    registered operation has changed its payload or status; submitting it
    again succeeds and changes nothing; submitting another payload under the
    same id is refused with [Conflict], so it never overwrites the first. *)
Theorem submission_is_idempotent o g g' :
  InnerInv g → try_submit o g = Ok g' →
  (∃ t, tasks g' !! operation_id (meta o) = Some t ∧ same_registration (op t) o = true)
  ∧ (∀ id t, tasks g !! id = Some t →
       ∃ t', tasks g' !! id = Some t' ∧ op t' = op t ∧ status t' = status t)
  ∧ try_submit o g' = Ok g'
  ∧ (∀ o2, operation_id (meta o2) = operation_id (meta o) →
       length (dependencies o2) ≤ MAX_DEPENDENCIES_PER_TASK →
       length (reads o2) + length (writes o2) ≤ MAX_OWNERSHIP_PATHS →
       (∀ t, tasks g' !! operation_id (meta o) = Some t → same_registration (op t) o2 = false) →
       try_submit o2 g' = Err Conflict).
Proof.
  intros HI Ho. pose proof Ho as Ho'.
  assert (length (dependencies o) ≤ MAX_DEPENDENCIES_PER_TASK
          ∧ length (reads o) + length (writes o) ≤ MAX_OWNERSHIP_PATHS) as [Hb1 Hb2].
  { unfold try_submit, OwnershipSet.entries in Ho. case_bool_decide; [done|].
    cbn zeta in Ho. case_bool_decide; [done|]. lia. }
  assert (Hreg : (∃ t, tasks g' !! operation_id (meta o) = Some t ∧ same_registration (op t) o = true)
          ∧ ∀ id t, tasks g !! id = Some t →
            ∃ t', tasks g' !! id = Some t' ∧ op t' = op t ∧ status t' = status t).
  { apply try_submit_Ok in Ho as [(t & Ht & Hs & ->)|(Hid & _ & _ & ts & rem & blk & st & Hf & _ & ->)];
      [split; eauto|].
    destruct (register_loop [] (sh g) (operation_id (meta o)) (dependencies o) [] (tasks g) 0 0 ts rem blk)
      as [_ Hcore]; [apply reg_init|exact Hf|].
    set (t := MkTask o st None 0 None rem blk []).
    cbn zeta. fold t. set (g1 := with_tasks (<[operation_id (meta o) := t]> ts) g).
    assert (tasks (if bool_decide (rem = 0) && bool_decide (blk = 0) && bool_decide (st = Pending)
                   then push_ready (operation_id (meta o)) g1 else g1)
            = <[operation_id (meta o) := t]> ts) as -> by (by destruct (_ && _)).
    split.
    - exists t. rewrite lookup_insert_eq. split; [done|]. apply same_registration_refl.
    - intros id u Hu. rewrite lookup_insert_ne by congruence. symmetry in Hcore.
      destruct (core_lookup _ _ _ _ Hcore Hu) as (u' & Hu' & (E1 & E2 & _)%core_eq). eauto. }
  destruct Hreg as [(t & Ht & Hs) Hold]. split; [eauto|]. split; [done|].
  unfold try_submit, OwnershipSet.entries. split.
  - rewrite !bool_decide_eq_false_2 by lia. by rewrite Ht, Hs.
  - intros o2 Hid H1 H2 Hdiff. rewrite !bool_decide_eq_false_2 by lia.
    rewrite Hid, Ht, (Hdiff _ Ht). done.
Qed.

(** ** Concrete runs *)
Module SchedDemo.
Definition do_submit (o : ScheduledOp) (s : Sys.t) : Sys.t :=
  match try_submit o (Sys.inner s) with Ok g => Sys.with_inner g s | Err _ => s end.

Definition do_schedule (lim : ResourceLimits) (now : Z) (s : Sys.t) : Sys.t :=
  match schedule_ready lim now (Sys.inner s) with
  | Some (g, sps) => foldl Sys.spawn (Sys.with_inner g s) sps
  | None => s
  end.

Definition do_event (lim : ResourceLimits) (k : N) (e : ExecEvent) (now : Z) (s : Sys.t) : Sys.t :=
  match Sys.execs s !! k with
  | Some x =>
      match exec_event lim e (Sys.token_fired s x) now x (Sys.inner s) with
      | Some (g, x') => Sys.MkSys g (<[k := x']> (Sys.execs s)) (Sys.next s) (Sys.cancelled s)
      | None => s
      end
  | None => s
  end.

Definition do_drop (k : N) (now : Z) (s : Sys.t) : Sys.t :=
  match Sys.execs s !! k with
  | Some x =>
      match drop_exec now x (Sys.inner s) with
      | Some g => Sys.MkSys g (delete k (Sys.execs s)) (Sys.next s) (Sys.cancelled s)
      | None => s
      end
  | None => s
  end.

Lemma submit_steps lim o s : rtc (Sys.step lim) s (do_submit o s).
Proof.
  unfold do_submit. destruct (try_submit _ _) eqn:E; [|done].
  by eapply rtc_once, Sys.step_submit.
Qed.
Lemma schedule_steps lim now s : rtc (Sys.step lim) s (do_schedule lim now s).
Proof.
  unfold do_schedule. destruct (schedule_ready _ _ _) as [[g sps]|] eqn:E; [|done].
  by eapply rtc_once, Sys.step_schedule.
Qed.
Lemma event_steps lim k e now s : rtc (Sys.step lim) s (do_event lim k e now s).
Proof.
  unfold do_event. destruct (Sys.execs s !! k) as [x|] eqn:Ek; [|done].
  destruct (exec_event _ _ _ _ _ _) as [[g x']|] eqn:E; [|done].
  by eapply rtc_once, Sys.step_exec.
Qed.
Lemma drop_steps lim k now s : rtc (Sys.step lim) s (do_drop k now s).
Proof.
  unfold do_drop. destruct (Sys.execs s !! k) as [x|] eqn:Ek; [|done].
  destruct (drop_exec _ _ _) as [g|] eqn:E; [|done]. by eapply rtc_once, Sys.step_drop.
Qed.

Lemma reach_steps lim s s' : Sys.reachable lim s → rtc (Sys.step lim) s s' → Sys.reachable lim s'.
Proof. intros Hr Hs. by apply (steps_inv lim s s'). Qed.

Definition lim : ResourceLimits := ResourceLimits.default_limits.
Definition an_op (id : N) (w : list string) (deps : list (OpId * DependencyPolicy)) : ScheduledOp :=
  MkOp (MkMeta id 1 1000 (MkRetryPolicy 3 RetryNetwork) id) CCpu [] (OwnershipSet.new w) deps.

(** Two disjoint writers run together, a third waits for the first. *)
Definition two_running : Sys.t :=
  do_schedule lim 5
    (do_submit (an_op 3 ["src/c.rs"%string] [(1%N, Success)])
      (do_submit (an_op 2 ["src/b.rs"%string] [])
        (do_submit (an_op 1 ["src/a.rs"%string] []) Sys.init))).

(** The first fails for good; the dependent is blocked. *)
Definition one_failed : Sys.t :=
  do_drop 0 7 (do_event lim 0 (EvResult (RErr "boom" false)) 6
    (do_event lim 0 (EvTop false) 6 two_running)).

(** A failed task, a [Success] dependent submitted afterwards (blocked), and a
    [Terminal] dependent of that one submitted last. *)
Definition late_terminal : Sys.t :=
  do_submit (an_op 3 [] [(2%N, Terminal)])
    (do_submit (an_op 2 [] [(1%N, Success)])
      (do_drop 0 7 (do_event lim 0 (EvResult (RErr "boom" false)) 6
        (do_event lim 0 (EvTop false) 6
          (do_schedule lim 5 (do_submit (an_op 1 [] []) Sys.init)))))).

Lemma two_running_reachable : Sys.reachable lim two_running.
Proof.
  unfold two_running. eapply reach_steps; [|apply schedule_steps].
  do 3 (eapply reach_steps; [|apply submit_steps]). apply Sys.reach_init.
Qed.

Lemma one_failed_steps : rtc (Sys.step lim) two_running one_failed.
Proof.
  unfold one_failed. etransitivity; [|apply drop_steps].
  etransitivity; [|apply event_steps]. apply event_steps.
Qed.

Lemma late_terminal_reachable : Sys.reachable lim late_terminal.
Proof.
  unfold late_terminal. do 2 (eapply reach_steps; [|apply submit_steps]).
  eapply reach_steps; [|apply drop_steps]. do 2 (eapply reach_steps; [|apply event_steps]).
  eapply reach_steps; [|apply schedule_steps].
  eapply reach_steps; [|apply submit_steps]. apply Sys.reach_init.
Qed.

Definition status_at (s : Sys.t) (id : OpId) : option TaskStatus :=
  status <$> tasks (Sys.inner s) !! id.

Example two_running_statuses :
  status_at two_running <$> [1; 2; 3]%N = [Some Running; Some Running; Some Pending].
Proof. vm_compute. reflexivity. Qed.
Example one_failed_statuses :
  status_at one_failed <$> [1; 2; 3]%N = [Some Failed; Some Running; Some Blocked].
Proof. vm_compute. reflexivity. Qed.
Example late_terminal_statuses :
  status_at late_terminal <$> [1; 2; 3]%N = [Some Failed; Some Blocked; Some Pending].
Proof. vm_compute. reflexivity. Qed.
End SchedDemo.

Import SchedDemo.

Lemma terminal_exactly_once_witness :
  ∃ t t', tasks (Sys.inner two_running) !! 1%N = Some t
    ∧ tasks (Sys.inner one_failed) !! 1%N = Some t' ∧ op t' = op t
    ∧ status_le (status t) (status t') = true.
Proof.
  destruct (tasks (Sys.inner two_running) !! 1%N) as [t|] eqn:E; [|vm_compute in E; discriminate].
  destruct (terminal_exactly_once lim two_running one_failed 1%N t) as (t' & Ht' & Hop & Hle & _);
    [apply two_running_reachable|apply one_failed_steps|exact E|].
  exists t, t'. split; [reflexivity|]. split; [exact Ht'|]. split; [exact Hop|exact Hle].
Defined.

Ltac prove_canonical cs :=
  apply Forall_cons; split; [|constructor]; right; exists (MkPath false cs);
  split; [split; [discriminate|repeat constructor; discriminate]|left; reflexivity].

(** Two running operations, one on [src/a.rs], the other on [src/b.rs]: their
    write sets share no path. *)
Lemma running_tasks_never_conflict_witness :
  ∃ ta tb, tasks (Sys.inner two_running) !! 1%N = Some ta
    ∧ tasks (Sys.inner two_running) !! 2%N = Some tb
    ∧ disjoint_sets (writes (op ta)) (writes (op tb)).
Proof.
  destruct (tasks (Sys.inner two_running) !! 1%N) as [ta|] eqn:Ea; [|vm_compute in Ea; discriminate].
  destruct (tasks (Sys.inner two_running) !! 2%N) as [tb|] eqn:Eb; [|vm_compute in Eb; discriminate].
  exists ta, tb. split; [reflexivity|]. split; [reflexivity|].
  apply (running_tasks_never_conflict lim two_running 1%N 2%N ta tb);
    [apply two_running_reachable|discriminate| | |exact Ea|exact Eb| |];
    [vm_compute; eexists; reflexivity|vm_compute; eexists; reflexivity| |].
  - assert (reads (op ta) ++ writes (op ta) = ["src/a.rs"%string])%list as ->
      by (revert Ea; vm_compute; intros [= <-]; reflexivity).
    prove_canonical ["src"%string; "a.rs"%string].
  - assert (reads (op tb) ++ writes (op tb) = ["src/b.rs"%string])%list as ->
      by (revert Eb; vm_compute; intros [= <-]; reflexivity).
    prove_canonical ["src"%string; "b.rs"%string].
Defined.

Definition second_running : Sys.t :=
  do_schedule lim 9 (do_drop 0 8 (do_event lim 0 (EvResult ROk) 7 (do_event lim 0 (EvTop false) 6 two_running))).

Lemma second_running_reachable : Sys.reachable lim second_running.
Proof.
  unfold second_running. eapply reach_steps; [|apply schedule_steps].
  eapply reach_steps; [|apply drop_steps]. do 2 (eapply reach_steps; [|apply event_steps]).
  apply two_running_reachable.
Qed.

Lemma running_after_dependencies_witness :
  ∃ t, tasks (Sys.inner second_running) !! 3%N = Some t ∧
    ∀ d p, (d, p) ∈ dependencies (op t) →
    ∃ td, tasks (Sys.inner second_running) !! d = Some td ∧ edge_satisfied p (status td) = true
          ∧ status_is_terminal (status td) = true.
Proof.
  apply (running_after_dependencies lim second_running 3%N);
    [apply second_running_reachable|vm_compute; eexists; reflexivity].
Defined.

Lemma permits_exact_witness :
  (∀ c, ResourceGauge.usage (gauge (Sys.inner two_running)) c = msum (holds c) (Sys.execs two_running)
        ∧ ResourceGauge.usage (gauge (Sys.inner two_running)) c ≤ ResourceLimits.get lim c)
  ∧ ∀ k x, Sys.execs two_running !! k = Some x →
      (x_pc x = InRun → x_armed x = true)
      ∧ (x_pc x = InBackoff ∨ x_pc x = WaitPermit → x_armed x = false).
Proof. apply (permits_exact lim two_running), two_running_reachable. Defined.

Lemma scheduler_never_panics_witness :
  is_Some (schedule_ready lim 9 (Sys.inner one_failed)).
Proof.
  apply (scheduler_never_panics lim one_failed).
  eapply reach_steps; [apply two_running_reachable|apply one_failed_steps].
Defined.

Definition just_submitted : Sys.t := do_submit (an_op 1 ["src/a.rs"%string] []) Sys.init.

Lemma ready_work_is_started_witness :
  ∃ t, tasks (Sys.inner just_submitted) !! 1%N = Some t
    ∧ ∃ g' sps, schedule_ready lim 5 (Sys.inner just_submitted) = Some (g', sps) ∧ sps ≠ [].
Proof.
  destruct (tasks (Sys.inner just_submitted) !! 1%N) as [t|] eqn:E; [|vm_compute in E; discriminate].
  exists t. split; [reflexivity|].
  apply (ready_work_is_started lim just_submitted 1%N t).
  - eapply reach_steps; [apply Sys.reach_init|apply submit_steps].
  - exact E.
  - vm_compute in E. injection E as <-. reflexivity.
  - vm_compute in E. injection E as <-. reflexivity.
  - vm_compute. reflexivity.
  - intros []; vm_compute; repeat constructor.
Defined.

Lemma submission_is_idempotent_witness :
  ∃ g', try_submit (an_op 1 ["src/a.rs"%string] []) empty_inner = Ok g'
    ∧ try_submit (an_op 1 ["src/a.rs"%string] []) g' = Ok g'
    ∧ try_submit (an_op 1 ["src/b.rs"%string] []) g' = Err Conflict.
Proof.
  destruct (try_submit (an_op 1 ["src/a.rs"%string] []) empty_inner) as [g'|] eqn:E;
    [|vm_compute in E; discriminate].
  destruct (submission_is_idempotent (an_op 1 ["src/a.rs"%string] []) empty_inner g') as (_ & _ & H1 & H2);
    [apply (sv_inner lim Sys.init [] (init_inv lim))|exact E|].
  exists g'. split; [reflexivity|]. split; [exact H1|].
  apply H2; [reflexivity|vm_compute; repeat constructor..|].
  intros t. vm_compute in E. injection E as <-. vm_compute. intros [= <-]. reflexivity.
Defined.

(** A [Terminal] edge on an upstream that is already [Blocked] never
    blocks its dependent: in a reachable state the dependent is [Pending] with
    no execution alive, rebuilding the graph from live state leaves it so, a
    scheduling pass starts nothing, and the runner's verdict is a deadlock,
    where the policy's documentation says that the dependent becomes
    [Blocked]. *)
Theorem late_terminal_edge_deadlocks :
  Sys.reachable lim late_terminal ∧ Sys.execs late_terminal = ∅
  ∧ ∃ g', rebuild_graph [1; 2; 3]%N (Sys.inner late_terminal) = Some g'
    ∧ status <$> tasks g' !! 2%N = Some Blocked ∧ status <$> tasks g' !! 3%N = Some Pending
    ∧ schedule_ready lim 9 g' = Some (g', [])
    ∧ idle_verdict true g' = VDeadlock.
Proof.
  split; [apply late_terminal_reachable|]. split; [vm_compute; reflexivity|].
  destruct (rebuild_graph [1; 2; 3]%N (Sys.inner late_terminal)) as [g'|] eqn:E;
    [|vm_compute in E; discriminate].
  exists g'. split; [reflexivity|]. vm_compute in E. injection E as <-.
  repeat split; vm_compute; reflexivity.
Qed.
