(* ===== verification/CircuitBreaker.v ===== *)
(** * Circuit breakers ([crates/scheduler/src/lib.rs])

    One breaker is three atomics; a method is the sequence of its atomic
    actions, so concurrent callers are threads that interleave action by
    action ([Concurrent]), and one caller alone runs a method to its end
    ([Breaker.run]).  A board is a bounded least-recently-consulted cache of
    breakers keyed by resource ([Board]). *)
From S2P Require Import Prelude.

Definition STATE_CLOSED : N := 0.
Definition STATE_OPEN : N := 1.
Definition STATE_HALF_OPEN : N := 2.

Inductive CircuitState := Closed | Open | HalfOpen.

#[global] Instance CircuitState_eq_dec : EqDecision CircuitState.
Proof. solve_decision. Defined.

(** [failure_threshold] and [cooldown_ms] are fixed at creation. *)
Record BreakerConfig := MkConfig { failure_threshold : N; cooldown_ms : N }.

(** The three atomics. *)
Record Mem := MkMem { m_state : N; m_failures : N; m_opened_at : Z }.

Definition DEFAULT_BREAKER_FAILURE_THRESHOLD : N := 4.
Definition DEFAULT_BREAKER_COOLDOWN_MS : N := 5000.

Definition store_state (v : N) (m : Mem) : Mem := MkMem v (m_failures m) (m_opened_at m).
Definition store_failures (v : N) (m : Mem) : Mem := MkMem (m_state m) v (m_opened_at m).
Definition store_opened_at (v : Z) (m : Mem) : Mem := MkMem (m_state m) (m_failures m) v.

(** The next atomic action of a method in flight. *)
Inductive Pc :=
  | AllowLoad (now : Z)                 (* [state.load] at the loop head *)
  | AllowStamp (now : Z)                (* [opened_at_ms.load] *)
  | AllowCas (now : Z)                  (* the compare-exchange *)
  | SuccessFailures                     (* [record_success] *)
  | SuccessState
  | FailLoad (now : Z)                  (* [record_failure] *)
  | FailAdd (now : Z)
  | FailOpen (now : Z)
  | FailStamp (now : Z)
  | OpenFailures (now : Z)              (* [open] *)
  | OpenState (now : Z)
  | OpenStamp (now : Z)
  | Allowed
  | Denied
  | Returned.

(** What a successful action did to the circuit, for the history. *)
Inductive Event := ETrip | EProbe.

Module Breaker.
Definition new (threshold cooldown : N) : BreakerConfig * Mem :=
  (MkConfig (N.max threshold 1) cooldown, MkMem STATE_CLOSED 0 0).

Definition state (m : Mem) : CircuitState :=
  if (m_state m =? STATE_CLOSED)%N then Closed
  else if (m_state m =? STATE_OPEN)%N then Open else HalfOpen.

(** [now_ms.saturating_sub(opened) < self.cooldown_ms as i64] *)
Definition in_cooldown (c : BreakerConfig) (now opened : Z) : bool :=
  (I64.sat_sub now opened <? I64.of_u64 (cooldown_ms c))%Z.

Definition act (c : BreakerConfig) (m : Mem) (pc : Pc) : Mem * Pc * option Event :=
  match pc with
  | AllowLoad now =>
      if (m_state m =? STATE_CLOSED)%N then (m, Allowed, None)
      else if (m_state m =? STATE_HALF_OPEN)%N then (m, Denied, None)
      else (m, AllowStamp now, None)
  | AllowStamp now =>
      if in_cooldown c now (m_opened_at m) then (m, Denied, None)
      else (m, AllowCas now, None)
  | AllowCas now =>
      if (m_state m =? STATE_OPEN)%N
      then (store_state STATE_HALF_OPEN m, Allowed, Some EProbe)
      else (m, AllowLoad now, None)
  | SuccessFailures => (store_failures 0 m, SuccessState, None)
  | SuccessState => (store_state STATE_CLOSED m, Returned, None)
  | FailLoad now =>
      match state m with
      | Closed => (m, FailAdd now, None)
      | HalfOpen => (m, FailOpen now, None)
      | Open => (m, Returned, None)
      end
  | FailAdd now =>
      let seen := ((m_failures m + 1) mod 4294967296)%N in  (* [fetch_add] wraps *)
      (store_failures seen m,
       if (failure_threshold c <=? seen)%N then FailOpen now else Returned, None)
  | FailOpen now => (store_state STATE_OPEN m, FailStamp now, Some ETrip)
  | FailStamp now => (store_opened_at now m, Returned, None)
  | OpenFailures now => (store_failures (failure_threshold c) m, OpenState now, None)
  | OpenState now => (store_state STATE_OPEN m, OpenStamp now, Some ETrip)
  | OpenStamp now => (store_opened_at now m, Returned, None)
  | Allowed | Denied | Returned => (m, pc, None)
  end.

(** One caller alone: a method runs to its end.  Every method takes at most
    four actions when nothing interferes. *)
Fixpoint run (fuel : nat) (c : BreakerConfig) (m : Mem) (pc : Pc) : Mem * Pc :=
  match fuel with
  | 0 => (m, pc)
  | S fuel' => let '(m', pc', _) := act c m pc in run fuel' c m' pc'
  end.

Definition allow (c : BreakerConfig) (now : Z) (m : Mem) : Mem * bool :=
  let '(m', pc) := run 4 c m (AllowLoad now) in
  (m', match pc with Allowed => true | _ => false end).
Definition record_success (c : BreakerConfig) (m : Mem) : Mem := (run 4 c m SuccessFailures).1.
Definition record_failure (c : BreakerConfig) (now : Z) (m : Mem) : Mem :=
  (run 4 c m (FailLoad now)).1.
Definition open (c : BreakerConfig) (now : Z) (m : Mem) : Mem := (run 4 c m (OpenFailures now)).1.
End Breaker.

(** ** Concurrent callers *)
Module Concurrent.
Record Sys := MkCSys { mem : Mem; threads : gmap N Pc; history : list Event }.

Inductive step (c : BreakerConfig) (s : Sys) : Sys → Prop :=
  | step_call t pc :
      match threads s !! t with
      | None | Some Allowed | Some Denied | Some Returned => True
      | _ => False
      end →
      match pc with
      | AllowLoad _ | SuccessFailures | FailLoad _ | OpenFailures _ => True
      | _ => False
      end →
      step c s (MkCSys (mem s) (<[t := pc]> (threads s)) (history s))
  | step_act t pc m' pc' e :
      threads s !! t = Some pc → Breaker.act c (mem s) pc = (m', pc', e) →
      step c s (MkCSys m' (<[t := pc']> (threads s)) (history s ++ option_list e)).

Definition start (m : Mem) : Sys := MkCSys m ∅ [].

Inductive reachable (c : BreakerConfig) (m : Mem) : Sys → Prop :=
  | reach_start : reachable c m (start m)
  | reach_next s s' : reachable c m s → step c s s' → reachable c m s'.
End Concurrent.

(** ** The board: one breaker object per resource, least recently consulted
    evicted.  A breaker object is named by its allocation number. *)
Inductive ResourceKey :=
  | KProvider (instance model endpoint : string)
  | KMcp (server : string)
  | KTool (name : string)
  | KHost (scheme host : string) (port : N).

#[global] Instance ResourceKey_eq_dec : EqDecision ResourceKey.
Proof. solve_decision. Defined.

#[global] Instance ResourceKey_countable : Countable ResourceKey.
Proof.
  apply (inj_countable'
    (λ k, match k with
          | KProvider a b c => inl (a, b, c)
          | KMcp s => inr (inl s)
          | KTool s => inr (inr (inl s))
          | KHost s h p => inr (inr (inr (s, h, p)))
          end)
    (λ x, match x with
          | inl (a, b, c) => KProvider a b c
          | inr (inl s) => KMcp s
          | inr (inr (inl s)) => KTool s
          | inr (inr (inr (s, h, p))) => KHost s h p
          end)).
  by intros [].
Defined.

Module Board.
Record t := MkBoard {
  max_keys : nat;
  tick : N;
  map : gmap ResourceKey (N * N);   (* breaker object, last consulted *)
  next_object : N;
}.

Definition with_max_keys (n : nat) : t := MkBoard (Nat.max n 1) 0 ∅ 0.

Definition len (b : t) : nat := size (map b).

(** [min_by_key]: the first minimum in iteration order. *)
Definition older (a b : ResourceKey * (N * N)) : ResourceKey * (N * N) :=
  if (b.2.2 <? a.2.2)%N then b else a.

Definition victim (m : gmap ResourceKey (N * N)) : option ResourceKey :=
  match map_to_list m with
  | [] => None
  | x :: l => Some (foldl older x l).1
  end.

Definition breaker (r : ResourceKey) (b : t) : t * N :=
  let now := (tick b + 1)%N in
  match map b !! r with
  | Some (o, _) => (MkBoard (max_keys b) now (<[r := (o, now)]> (map b)) (next_object b), o)
  | None =>
      let m := if bool_decide (max_keys b ≤ size (map b))
               then match victim (map b) with Some v => delete v (map b) | None => map b end
               else map b in
      (MkBoard (max_keys b) now (<[r := (next_object b, now)]> m) (next_object b + 1)%N,
       next_object b)
  end.

(** A sequence of consults. *)
Definition consult (rs : list ResourceKey) (b : t) : t := foldl (λ b r, (breaker r b).1) b rs.
End Board.

(** ** One probe per trip *)
Definition armed (h : list Event) : bool :=
  match h with
  | [] => false
  | ETrip :: _ => true
  | EProbe :: _ => false
  end.

(** [legal] reads the history backwards: a probe needs a trip after the last
    probe before it. *)
Fixpoint legal (h : list Event) : Prop :=
  match h with
  | [] => True
  | ETrip :: h' => legal h'
  | EProbe :: h' => armed h' = true ∧ legal h'
  end.

Lemma armed_app_trip h1 h2 : armed (h1 ++ EProbe :: h2) = true → ETrip ∈ h1.
Proof. destruct h1 as [|[] h1]; cbn; [done|set_solver|done]. Qed.

Lemma armed_trip h : armed h = true → ETrip ∈ h.
Proof. destruct h as [|[] h]; cbn; [done|set_solver|done]. Qed.

Lemma legal_app h1 h2 : legal (h1 ++ h2) → legal h2.
Proof. induction h1 as [|[] h1 IH]; cbn; naive_solver. Qed.

Record CInv (s : Concurrent.Sys) : Prop := {
  cv_legal : legal (rev (Concurrent.history s));
  cv_open : m_state (Concurrent.mem s) = STATE_OPEN → armed (rev (Concurrent.history s)) = true;
}.

Lemma act_inv c m pc m' pc' e h :
  legal (rev h) → (m_state m = STATE_OPEN → armed (rev h) = true) →
  Breaker.act c m pc = (m', pc', e) →
  legal (rev (h ++ option_list e))
  ∧ (m_state m' = STATE_OPEN → armed (rev (h ++ option_list e)) = true).
Proof.
  intros Hl Ho Ha. rewrite rev_app_distr.
  destruct pc; cbn in Ha; repeat (case_match; try (injection Ha as <- <- <-)); simplify_eq; cbn;
    try done; try (by split; [auto|]).
  split; [|done]. split; [|done]. apply Ho. by apply N.eqb_eq.
Qed.

Lemma concurrent_inv c m s :
  m_state m = STATE_CLOSED → Concurrent.reachable c m s → CInv s.
Proof.
  intros Hm. induction 1 as [|s s' Hr [Hl Ho] Hs]; [split; cbn; [done|by rewrite Hm]|].
  destruct Hs as [t pc _ _|t pc m' pc' e Ht Ha]; [done|].
  destruct (act_inv _ _ _ _ _ _ _ Hl Ho Ha). done.
Qed.

(** C39: Whatever the interleaving of the atomic actions of any number of
    concurrent [allow], [record_success], [record_failure] and [open] calls on
    a breaker created closed, a half-open probe is claimed only after a trip,
    and between two claimed probes the circuit was tripped again: each trip
    admits at most one probe. *)
Theorem one_probe_per_trip c m s h1 h2 :
  m_state m = STATE_CLOSED → Concurrent.reachable c m s →
  Concurrent.history s = h1 ++ EProbe :: h2 →
  ETrip ∈ h1 ∧ ∀ h0 h, h1 = h0 ++ EProbe :: h → ETrip ∈ h.
Proof.
  intros Hm Hr Hh. destruct (concurrent_inv _ _ _ Hm Hr) as [Hl _].
  rewrite Hh, rev_app_distr in Hl. cbn in Hl. rewrite <- app_assoc in Hl.
  apply legal_app in Hl. cbn in Hl. destruct Hl as [Ha _]. split.
  - apply armed_trip in Ha. rewrite list_elem_of_In, <- in_rev, <- list_elem_of_In in Ha. done.
  - intros h0 h ->. rewrite rev_app_distr in Ha. cbn in Ha. rewrite <- app_assoc in Ha. cbn in Ha.
    apply armed_app_trip in Ha. rewrite list_elem_of_In, <- in_rev, <- list_elem_of_In in Ha. done.
Qed.

(** ** A caller alone: the abstract circuit *)
Inductive Spec := SClosed (failures : N) | SOpen (since : Z) | SHalf.
Inductive Call := CAllow (now : Z) | CSuccess | CFailure (now : Z) | COpen (now : Z).

Definition spec_call (c : BreakerConfig) (k : Call) (s : Spec) : Spec * option bool :=
  match k, s with
  | CAllow now, SClosed n => (s, Some true)
  | CAllow now, SOpen since =>
      if decide (now - since < Z.of_N (cooldown_ms c))%Z then (s, Some false) else (SHalf, Some true)
  | CAllow now, SHalf => (s, Some false)
  | CSuccess, _ => (SClosed 0, None)
  | CFailure now, SClosed n =>
      if decide (failure_threshold c <= n + 1)%N then (SOpen now, None) else (SClosed (n + 1), None)
  | CFailure now, SHalf => (SOpen now, None)
  | CFailure now, SOpen _ => (s, None)
  | COpen now, _ => (SOpen now, None)
  end.

Definition breaker_call (c : BreakerConfig) (k : Call) (m : Mem) : Mem * option bool :=
  match k with
  | CAllow now => let '(m', b) := Breaker.allow c now m in (m', Some b)
  | CSuccess => (Breaker.record_success c m, None)
  | CFailure now => (Breaker.record_failure c now m, None)
  | COpen now => (Breaker.open c now m, None)
  end.

Fixpoint calls {S : Type} (f : Call → S → S * option bool) (ks : list Call) (s : S) :
    S * list (option bool) :=
  match ks with
  | [] => (s, [])
  | k :: ks' => let '(s1, r) := f k s in let '(s2, rs) := calls f ks' s1 in (s2, r :: rs)
  end.

(** What the atomics mean. *)
Definition abstracts (c : BreakerConfig) (m : Mem) (s : Spec) : Prop :=
  match s with
  | SClosed n => m_state m = STATE_CLOSED ∧ m_failures m = n ∧ (n < failure_threshold c)%N
  | SOpen since => m_state m = STATE_OPEN ∧ m_opened_at m = since
  | SHalf => m_state m = STATE_HALF_OPEN
  end.

Lemma in_cooldown_exact c now since :
  (Z.of_N (cooldown_ms c) <= I64.max)%Z →
  Breaker.in_cooldown c now since = bool_decide (now - since < Z.of_N (cooldown_ms c))%Z.
Proof.
  intros Hc. unfold Breaker.in_cooldown, I64.of_u64, I64.sat_sub, I64.clamp, I64.max, I64.min in *.
  rewrite decide_True by lia. apply eq_true_iff_eq. rewrite Z.ltb_lt, bool_decide_eq_true. lia.
Qed.

Lemma call_refines c k m s :
  (failure_threshold c <= U32.max)%N → (0 < failure_threshold c)%N →
  (Z.of_N (cooldown_ms c) <= I64.max)%Z → abstracts c m s →
  let '(m', r) := breaker_call c k m in
  let '(s', r') := spec_call c k s in abstracts c m' s' ∧ r = r'.
Proof.
  intros Ht Ht0 Hc Habs. destruct m as [st f o].
  unfold breaker_call, Breaker.allow, Breaker.record_success, Breaker.record_failure, Breaker.open.
  destruct k as [now| |now|now], s as [n|since|]; cbn in Habs; destruct_and?; simplify_eq; cbn; try done.
  - rewrite in_cooldown_exact by done.
    case_bool_decide; [rewrite decide_True by done|rewrite decide_False by done]; done.
  - unfold U32.max in Ht. rewrite N.mod_small by lia.
    destruct (N.leb_spec (failure_threshold c) (n + 1)); cbn;
      [rewrite decide_True by done|rewrite decide_False by lia]; done.
Qed.

(** C40: For one caller at a time the breaker is the textbook circuit: started
    closed with any threshold and cooldown in range, every sequence of calls
    gives exactly the answers of the abstract machine, which opens at the
    threshold of consecutive failures, denies for the whole cooldown, admits
    one probe after it, closes on success and re-opens on the probe's
    failure. *)
Theorem breaker_refines_circuit threshold cooldown ks :
  (threshold <= U32.max)%N → (Z.of_N cooldown <= I64.max)%Z →
  let '(c, m) := Breaker.new threshold cooldown in
  let '(m', rs) := calls (breaker_call c) ks m in
  let '(s', rs') := calls (spec_call c) ks (SClosed 0) in
  rs = rs' ∧ abstracts c m' s'.
Proof.
  intros Ht Hc. unfold Breaker.new. set (c := MkConfig _ _).
  assert (failure_threshold c <= U32.max)%N as H1 by (cbn; unfold U32.max in *; lia).
  assert (0 < failure_threshold c)%N as H2 by (cbn; lia).
  assert (abstracts c (MkMem STATE_CLOSED 0 0) (SClosed 0)) as Habs by done.
  revert Habs. generalize (MkMem STATE_CLOSED 0 0) as m. generalize (SClosed 0) as s.
  induction ks as [|k ks IH]; intros s m Habs; cbn; [done|].
  pose proof (call_refines c k m s H1 H2 Hc Habs) as Hk.
  destruct (breaker_call c k m) as [m1 r], (spec_call c k s) as [s1 r']. destruct Hk as [Habs1 ->].
  specialize (IH s1 m1 Habs1).
  destruct (calls (breaker_call c) ks m1) as [m2 rs], (calls (spec_call c) ks s1) as [s2 rs'].
  by destruct IH as [-> ?].
Qed.

Lemma breaker_refines_circuit_witness :
  calls (breaker_call (Breaker.new 2 5000).1)
    [CFailure 10; CFailure 20; CAllow 5019; CAllow 5020; CAllow 5021; CSuccess; CAllow 5022]
    (Breaker.new 2 5000).2
  = (MkMem STATE_CLOSED 0 20,
     [None; None; Some false; Some true; Some false; None; Some true])
  ∧ abstracts (Breaker.new 2 5000).1 (MkMem STATE_CLOSED 0 20) (SClosed 0).
Proof.
  split; [vm_compute; reflexivity|].
  assert (2 <= U32.max)%N as H1 by (vm_compute; discriminate).
  assert (Z.of_N 5000 <= I64.max)%Z as H2 by (vm_compute; discriminate).
  exact (proj2 (breaker_refines_circuit 2 5000
    [CFailure 10; CFailure 20; CAllow 5019; CAllow 5020; CAllow 5021; CSuccess; CAllow 5022] H1 H2)).
Defined.

(** ** A schedule of two callers *)
Module BreakerDemo.
Definition config : BreakerConfig := MkConfig 1 5000.
Definition closed : Mem := MkMem STATE_CLOSED 0 0.

(** Thread [t] calls a method, or takes its next action. *)
Definition call (t : N) (pc : Pc) (s : Concurrent.Sys) : Concurrent.Sys :=
  Concurrent.MkCSys (Concurrent.mem s) (<[t := pc]> (Concurrent.threads s)) (Concurrent.history s).
Definition go (t : N) (s : Concurrent.Sys) : Concurrent.Sys :=
  match Concurrent.threads s !! t with
  | Some pc =>
      let '(m', pc', e) := Breaker.act config (Concurrent.mem s) pc in
      Concurrent.MkCSys m' (<[t := pc']> (Concurrent.threads s)) (Concurrent.history s ++ option_list e)
  | None => s
  end.

Lemma go_reachable t s :
  Concurrent.reachable config closed s → Concurrent.reachable config closed (go t s).
Proof.
  intros Hr. unfold go. destruct (Concurrent.threads s !! t) as [pc|] eqn:E; [|done].
  destruct (Breaker.act _ _ _) as [[m' pc'] e] eqn:Ea.
  eapply Concurrent.reach_next; [exact Hr|]. by eapply Concurrent.step_act.
Qed.

(** Caller 1 records the failure that trips the circuit and is interrupted
    between its two stores; caller 2 asks in the same millisecond. *)
Definition interrupted : Concurrent.Sys :=
  go 2 (go 2 (go 2 (call 2 (AllowLoad 10000)
    (go 1 (go 1 (go 1 (call 1 (FailLoad 10000) (Concurrent.start closed)))))))).

Lemma interrupted_reachable : Concurrent.reachable config closed interrupted.
Proof.
  unfold interrupted. do 3 apply go_reachable.
  eapply Concurrent.reach_next; [|apply Concurrent.step_call; [vm_compute; exact I|exact I]].
  do 3 apply go_reachable.
  eapply Concurrent.reach_next; [|apply Concurrent.step_call; [vm_compute; exact I|exact I]].
  apply Concurrent.reach_start.
Qed.
End BreakerDemo.
Import BreakerDemo.

Lemma one_probe_per_trip_witness :
  Concurrent.history interrupted = [ETrip] ++ EProbe :: [] ∧ ETrip ∈ [ETrip].
Proof.
  assert (Concurrent.history interrupted = [ETrip] ++ EProbe :: []) as H by (vm_compute; reflexivity).
  split; [exact H|].
  apply (one_probe_per_trip config closed interrupted [ETrip] []);
    [reflexivity|apply interrupted_reachable|exact H].
Defined.

(** The cooldown can be skipped by a race: [record_failure] publishes the
    open state before it stores the trip time, so a caller that asks in
    between is measured against the previous (here initial) stamp.  In this
    reachable state the call that trips the circuit at millisecond 10000 has
    not returned, and a caller of the same millisecond already owns the
    probe, with a cooldown of 5000. *)
Theorem stale_stamp_skips_cooldown :
  Concurrent.reachable config closed interrupted
  ∧ Concurrent.threads interrupted !! 1%N = Some (FailStamp 10000)
  ∧ Concurrent.threads interrupted !! 2%N = Some Allowed
  ∧ m_state (Concurrent.mem interrupted) = STATE_HALF_OPEN
  ∧ Breaker.in_cooldown config 10000 10000 = true.
Proof. split; [apply interrupted_reachable|]. repeat split; vm_compute; reflexivity. Qed.

(** ** The board *)
Record BoardInv (b : Board.t) : Prop := {
  bi_size : size (Board.map b) ≤ Board.max_keys b;
  bi_pos : 0 < Board.max_keys b;
  bi_tick k e : Board.map b !! k = Some e → (e.2 <= Board.tick b)%N;
  bi_inj k k' e e' : Board.map b !! k = Some e → Board.map b !! k' = Some e' → e.2 = e'.2 → k = k';
  bi_object k e : Board.map b !! k = Some e → (e.1 < Board.next_object b)%N;
  bi_owner k k' e e' : Board.map b !! k = Some e → Board.map b !! k' = Some e' → e.1 = e'.1 → k = k';
}.

Lemma fold_older_spec l : ∀ x,
  let y := foldl Board.older x l in
  (y = x ∨ y ∈ l) ∧ (y.2.2 <= x.2.2)%N ∧ ∀ z, z ∈ l → (y.2.2 <= z.2.2)%N.
Proof.
  induction l as [|a l IH]; intros x; cbn [foldl].
  { split_and!; [by left|lia|]. intros z Hz. by apply elem_of_nil in Hz. }
  destruct (IH (Board.older x a)) as (H1 & H2 & H3).
  assert ((Board.older x a = x ∨ Board.older x a = a)
          ∧ ((Board.older x a).2.2 <= x.2.2)%N ∧ ((Board.older x a).2.2 <= a.2.2)%N) as (E & Ex & Ea).
  { unfold Board.older. destruct (N.ltb_spec a.2.2 x.2.2); split_and!; auto; lia. }
  cbn zeta. split_and!.
  - destruct H1 as [->|]; [|set_solver]. destruct E as [->| ->]; [by left|set_solver].
  - lia.
  - intros z [->|Hz]%elem_of_cons; [lia|auto].
Qed.

Lemma victim_spec m v :
  Board.victim m = Some v →
  ∃ e, m !! v = Some e ∧ ∀ k e', m !! k = Some e' → (e.2 <= e'.2)%N.
Proof.
  unfold Board.victim. destruct (map_to_list m) as [|x l] eqn:El; [done|]. intros [= <-].
  destruct (fold_older_spec l x) as (H1 & H2 & H3). set (y := foldl Board.older x l) in *.
  assert (∀ k e, m !! k = Some e ↔ (k, e) ∈ x :: l) as Hm.
  { intros k e. by rewrite <- El, elem_of_map_to_list. }
  exists y.2. split.
  - apply Hm. destruct y as [yk ye]. cbn. destruct H1 as [->|]; set_solver.
  - intros k e' Hk. apply Hm in Hk. apply elem_of_cons in Hk as [<-|Hk]; [done|by apply (H3 (k, e'))].
Qed.

Lemma victim_None m : Board.victim m = None → m = ∅.
Proof.
  unfold Board.victim. destruct (map_to_list m) eqn:E; [|done]. intros _. by apply map_to_list_empty_iff.
Qed.

(** The table after the eviction that precedes an insertion. *)
Definition evicted (b : Board.t) : gmap ResourceKey (N * N) :=
  if bool_decide (Board.max_keys b ≤ size (Board.map b))
  then match Board.victim (Board.map b) with
       | Some v => delete v (Board.map b) | None => Board.map b end
  else Board.map b.

Lemma evicted_sub b k e : evicted b !! k = Some e → Board.map b !! k = Some e.
Proof. unfold evicted. repeat case_match; try done. rewrite lookup_delete_Some. tauto. Qed.

Lemma evicted_size b : BoardInv b → size (evicted b) < Board.max_keys b.
Proof.
  intros [Hs Hp _ _ _ _]. unfold evicted. case_bool_decide; [|lia].
  destruct (Board.victim _) as [v|] eqn:Ev.
  - apply victim_spec in Ev as (e & He & _). rewrite map_size_delete_Some by eauto. lia.
  - apply victim_None in Ev. rewrite Ev in *. rewrite map_size_empty in *. lia.
Qed.

(** Inserting an entry stamped with the new tick, for a key that owns its
    object or with a fresh object. *)
Lemma insert_board b m r o next :
  BoardInv b → (∀ k e, m !! k = Some e → Board.map b !! k = Some e) →
  size (<[r := (o, (Board.tick b + 1)%N)]> m) ≤ Board.max_keys b →
  (o < next)%N → (Board.next_object b <= next)%N →
  (∀ k e, m !! k = Some e → e.1 = o → k = r) →
  BoardInv (Board.MkBoard (Board.max_keys b) (Board.tick b + 1) (<[r := (o, (Board.tick b + 1)%N)]> m) next).
Proof.
  intros [Hs Hp Ht Hi Ho Hw] Hm Hsz Hon Hnext Hown. split; cbn; [done|done|..].
  - intros k e. rewrite lookup_insert_Some. intros [[_ <-]|[_ Hk]]; [done|].
    specialize (Ht _ _ (Hm _ _ Hk)). lia.
  - intros k k' e e'. rewrite !lookup_insert_Some.
    intros [[<- <-]|[_ Hk]] [[<- <-]|[_ Hk']] E; cbn in E; [done|..].
    + specialize (Ht _ _ (Hm _ _ Hk')). lia.
    + specialize (Ht _ _ (Hm _ _ Hk)). lia.
    + by eapply Hi; [apply Hm, Hk|apply Hm, Hk'|].
  - intros k e. rewrite lookup_insert_Some. intros [[_ <-]|[_ Hk]]; [done|].
    specialize (Ho _ _ (Hm _ _ Hk)). lia.
  - intros k k' e e'. rewrite !lookup_insert_Some.
    intros [[<- <-]|[_ Hk]] [[<- <-]|[_ Hk']] E; cbn in E; [done|..].
    + symmetry. by eapply Hown.
    + by eapply Hown.
    + by eapply Hw; [apply Hm, Hk|apply Hm, Hk'|].
Qed.

Lemma breaker_inv r b : BoardInv b → BoardInv (Board.breaker r b).1.
Proof.
  intros HB. pose proof (evicted_size b HB) as Hes. unfold Board.breaker.
  destruct (Board.map b !! r) as [[o t0]|] eqn:Er; cbn [fst].
  - apply insert_board; [done|done| |by eapply (bi_object b HB r (o, t0))|done|].
    + rewrite map_size_insert_Some by eauto. apply HB.
    + intros k e Hk E. by eapply (bi_owner b HB k r e (o, t0)).
  - fold (evicted b). apply insert_board; [done|apply evicted_sub| |lia|lia|].
    + rewrite map_size_insert. destruct (evicted b !! r); unfold id; cbn; lia.
    + intros k e Hk%evicted_sub E. apply (bi_object b HB) in Hk. lia.
Qed.

Lemma consult_inv rs b : BoardInv b → BoardInv (Board.consult rs b).
Proof.
  unfold Board.consult. revert b; induction rs as [|r rs IH]; intros b HB; [done|].
  apply IH. by apply breaker_inv.
Qed.

(** [r] is cached as object [o]; only keys of [P] were consulted since. *)
Definition cached (r : ResourceKey) (o : N) (P : gset ResourceKey) (b : Board.t) : Prop :=
  ∃ t0, Board.map b !! r = Some (o, t0)
        ∧ ∀ k e, Board.map b !! k = Some e → k ≠ r → (t0 < e.2)%N → k ∈ P.

Lemma cached_step r o P b k :
  BoardInv b → k ≠ r → size ({[k]} ∪ P) < Board.max_keys b → cached r o P b →
  cached r o ({[k]} ∪ P) (Board.breaker k b).1.
Proof.
  intros HB Hkr Hsz (t0 & Hr & Hold). unfold Board.breaker, cached.
  assert (Hins : ∀ (m : gmap ResourceKey (N * N)) (o' : N), m !! r = Some (o, t0) → (∀ j e, m !! j = Some e → Board.map b !! j = Some e) →
            ∃ t1, <[k := (o', Board.tick b + 1)%N]> m !! r = Some (o, t1)
              ∧ ∀ j e, <[k := (o', Board.tick b + 1)%N]> m !! j = Some e → j ≠ r → (t1 < e.2)%N →
                j ∈ {[k]} ∪ P).
  { intros m o' Hm Hsub. exists t0. rewrite lookup_insert_ne by done. split; [done|].
    intros j e. rewrite lookup_insert_Some. intros [[<- _]|[_ Hj]] Hne Hlt; [set_solver|].
    apply elem_of_union_r. eapply Hold; eauto. }
  destruct (Board.map b !! k) as [[o' t']|] eqn:Ek; cbn [fst Board.map]; [by apply Hins|].
  fold (evicted b). apply Hins; [|apply evicted_sub].
  unfold evicted. case_bool_decide as Hfull; [|done].
  destruct (Board.victim _) as [v|] eqn:Ev; [|done].
  rewrite lookup_delete_ne; [done|]. intros ->.
  (* evicting [r] would need [max_keys - 1] other keys consulted since, and [k] *)
  apply victim_spec in Ev as (e & He & Hmin). rewrite Hr in He. injection He as <-. cbn in Hmin.
  assert (k ∉ dom (Board.map b)) as Hkd by (by apply not_elem_of_dom).
  assert (size (dom (Board.map b) ∖ {[r]}) = size (Board.map b) - 1) as Hsd.
  { rewrite size_difference, size_singleton, size_dom; [done|].
    intros x ->%elem_of_singleton. apply elem_of_dom. eauto. }
  assert ({[k]} ∪ (dom (Board.map b) ∖ {[r]}) ⊆ {[k]} ∪ P) as Hall.
  { intros j [Hj|Hj]%elem_of_union; [set_solver|]. apply elem_of_union_r.
    apply elem_of_difference in Hj as [Hj Hjr]. apply elem_of_dom in Hj as [e' He'].
    eapply Hold; [done|set_solver|]. specialize (Hmin _ _ He').
    assert (t0 ≠ e'.2); [|lia]. intros E. apply Hjr, elem_of_singleton.
    symmetry. by eapply (bi_inj b HB); eauto. }
  apply subseteq_size in Hall.
  rewrite size_union, size_singleton, Hsd in Hall by set_solver.
  pose proof (bi_pos _ HB). lia.
Qed.

Lemma cached_weaken r o (P Q : gset ResourceKey) b : P ⊆ Q → cached r o P b → cached r o Q b.
Proof. intros HPQ (t0 & Hr & Hold). exists t0. split; [done|]. intros k e ???. eapply HPQ, Hold; eauto. Qed.

Lemma cached_consult r o b P :
  BoardInv b → cached r o P b → cached r o ∅ (Board.breaker r b).1 ∧ (Board.breaker r b).2 = o.
Proof.
  intros HB (t0 & Hr & _). unfold Board.breaker. rewrite Hr. split; [|done].
  exists (Board.tick b + 1)%N. cbn. rewrite lookup_insert_eq. split; [done|].
  intros k e Hk Hne Hlt. rewrite lookup_insert_ne in Hk by done.
  apply (bi_tick b HB) in Hk. lia.
Qed.

Lemma breaker_max_keys r b : Board.max_keys (Board.breaker r b).1 = Board.max_keys b.
Proof. unfold Board.breaker. by repeat case_match. Qed.

Lemma consult_max_keys rs b : Board.max_keys (Board.consult rs b) = Board.max_keys b.
Proof.
  unfold Board.consult. revert b; induction rs as [|k rs IH]; intros b; [done|].
  cbn [foldl]. by rewrite IH, breaker_max_keys.
Qed.

Lemma consult_cached r o rs : ∀ (P : gset ResourceKey) b,
  BoardInv b → size ((list_to_set rs ∪ P) ∖ {[r]}) < Board.max_keys b → r ∉ P → cached r o P b →
  ∃ Q, cached r o Q (Board.consult rs b).
Proof.
  unfold Board.consult. induction rs as [|k rs IH]; intros P b HB Hsz HrP Hc; [by exists P|].
  cbn [foldl]. pose proof (breaker_inv k b HB) as HB1. pose proof (breaker_max_keys k b) as Hmk.
  destruct (decide (k = r)) as [->|Hne].
  - apply (IH P); [done| |done|].
    + rewrite Hmk. eapply Nat.le_lt_trans; [|exact Hsz]. apply subseteq_size. set_solver.
    + eapply cached_weaken; [|by eapply cached_consult]. set_solver.
  - apply (IH ({[k]} ∪ P)); [done| |set_solver|].
    + rewrite Hmk. eapply Nat.le_lt_trans; [|exact Hsz]. apply subseteq_size. set_solver.
    + apply cached_step; [done|done| |done].
      eapply Nat.le_lt_trans; [|exact Hsz]. apply subseteq_size. set_solver.
Qed.

Lemma with_max_keys_inv n : BoardInv (Board.with_max_keys n).
Proof. split; cbn; rewrite ?map_size_empty; try done; lia. Qed.

Lemma breaker_cached r b : BoardInv b → cached r (Board.breaker r b).2 ∅ (Board.breaker r b).1.
Proof.
  intros HB. unfold Board.breaker. destruct (Board.map b !! r) as [[o t0]|] eqn:Er; cbn [fst snd].
  - exists (Board.tick b + 1)%N. cbn. rewrite lookup_insert_eq. split; [done|].
    intros k e Hk Hne Hlt. rewrite lookup_insert_ne in Hk by done. apply (bi_tick b HB) in Hk. lia.
  - fold (evicted b). exists (Board.tick b + 1)%N. cbn. rewrite lookup_insert_eq. split; [done|].
    intros k e Hk Hne Hlt. rewrite lookup_insert_ne in Hk by done.
    apply evicted_sub, (bi_tick b HB) in Hk. lia.
Qed.

(** The breaker cache is a correct LRU: after any sequence of consults it
    holds at most its configured number of keys, no two resources share a
    breaker object, and a resource gets the same breaker object again, so its
    failure history is kept, as long as fewer than [max_keys] other resources
    were consulted in between. *)
Theorem board_is_lru n rs0 r rs :
  let b := Board.consult rs0 (Board.with_max_keys n) in
  let '(b1, o) := Board.breaker r b in
  Board.len b ≤ Nat.max n 1
  ∧ (∀ k k' e e', Board.map b !! k = Some e → Board.map b !! k' = Some e' → e.1 = e'.1 → k = k')
  ∧ (size ((list_to_set rs : gset ResourceKey) ∖ {[r]}) < Nat.max n 1 →
     (Board.breaker r (Board.consult rs b1)).2 = o).
Proof.
  cbn zeta. set (b := Board.consult rs0 (Board.with_max_keys n)).
  assert (HB : BoardInv b) by apply consult_inv, with_max_keys_inv.
  assert (Hmk : Board.max_keys b = Nat.max n 1).
  { unfold b. by rewrite consult_max_keys. }
  destruct (Board.breaker r b) as [b1 o] eqn:Eb. split; [|split].
  - rewrite <- Hmk. apply HB.
  - apply HB.
  - intros Hsz. pose proof (breaker_inv r b HB) as HB1. pose proof (breaker_cached r b HB) as Hc.
    pose proof (breaker_max_keys r b) as Hm1. rewrite Eb in *. cbn in *.
    destruct (consult_cached r o rs ∅ b1) as [Q HQ]; [done| |set_solver|done|].
    + rewrite Hm1, Hmk. by rewrite union_empty_r_L.
    + by eapply cached_consult; [apply consult_inv|].
Qed.
