(* ===== verification/WorkspacePath.v ===== *)
(** * Workspace paths and write ownership of work items

    [crates/core/src/path.rs] ([NormalizedWorkspacePath]) and the
    [OwnershipSpec] half of [crates/core/src/state.rs]: the one path spelling
    an ownership decision may consume, and the decision whether two mutating
    work items may be planned side by side.  Strings are their UTF-8 bytes;
    the build is the Unix one ([cmp_key] is the text itself).  The prose
    [message] of a violation is not modelled. *)
From S2P Require Import Prelude Strings.
#[local] Open Scope string_scope.

Definition MAX_NORMALIZED_WORKSPACE_PATH_BYTES : nat := 256.

Module PathViolationKind.
Inductive t :=
  | Empty | TooLong | Absolute | RootedPrefix | AlternateSeparator | ParentComponent
  | CurrentComponent | EmptyComponent | ControlCharacter | PlatformAlias.
End PathViolationKind.

Record PathViolation := MkPathViolation { kind : PathViolationKind.t; raw_value : string }.

(** [char::is_control] (general category Cc): U+0000 to U+001F, U+007F and
    U+0080 to U+009F, the last ones spelled [0xC2 0x80] to [0xC2 0x9F]. *)
Definition is_control_byte (c : ascii) : bool :=
  (N_of_ascii c <? 32)%N || (N_of_ascii c =? 127)%N.

Definition is_c1_tail (s : string) : bool :=
  match s with
  | String d _ => (128 <=? N_of_ascii d)%N && (N_of_ascii d <=? 159)%N
  | EmptyString => false
  end.

Fixpoint has_control (s : string) : bool :=
  match s with
  | EmptyString => false
  | String c s' =>
      is_control_byte c || ((N_of_ascii c =? 194)%N && is_c1_tail s') || has_control s'
  end.

Definition to_ascii_uppercase_char (c : ascii) : ascii :=
  if ((97 <=? N_of_ascii c) && (N_of_ascii c <=? 122))%N
  then ascii_of_N (N_of_ascii c - 32) else c.

Fixpoint to_ascii_uppercase (s : string) : string :=
  match s with
  | EmptyString => EmptyString
  | String c s' => String (to_ascii_uppercase_char c) (to_ascii_uppercase s')
  end.

Fixpoint strip_prefix (p s : string) : option string :=
  match p, s with
  | EmptyString, _ => Some s
  | String c p', String d s' => if bool_decide (c = d) then strip_prefix p' s' else None
  | String _ _, EmptyString => None
  end.

(** [strip_suffix('/')] *)
Fixpoint strip_slash (s : string) : option string :=
  match s with
  | EmptyString => None
  | String c EmptyString => if is_slash c then Some EmptyString else None
  | String c s' => String c <$> strip_slash s'
  end.

Definition is_ascii_digit (c : ascii) : bool :=
  ((48 <=? N_of_ascii c) && (N_of_ascii c <=? 57))%N.

Definition is_reserved_device_name (component : string) : bool :=
  let stem := default component (head (split_on (λ c, bool_decide (c = "."%char)) component)) in
  let upper := to_ascii_uppercase stem in
  if bool_decide (upper ∈ ["CON"; "PRN"; "AUX"; "NUL"]) then true
  else match match strip_prefix "COM" upper with
             | Some suffix => Some suffix
             | None => strip_prefix "LPT" upper
             end with
       | None => false
       | Some suffix =>
           (String.length suffix =? 1)%nat && lacks (λ c, negb (is_ascii_digit c)) suffix
       end.

(** ** [NormalizedWorkspacePath] *)
Module NormalizedWorkspacePath.
Record t := MkPath { as_str : string }.

(** The loop over the components with its accumulator [canonical]. *)
Fixpoint push_components (parts : list string) (canonical : string) :
    result string PathViolationKind.t :=
  match parts with
  | [] => Ok canonical
  | component :: rest =>
      if bool_decide (component = "") then Err PathViolationKind.EmptyComponent
      else if bool_decide (component = ".") then Err PathViolationKind.CurrentComponent
      else if bool_decide (component = "..") then Err PathViolationKind.ParentComponent
      else if ends_with (λ c, bool_decide (c = "."%char)) component
              || ends_with (λ c, bool_decide (c = " "%char)) component
      then Err PathViolationKind.PlatformAlias
      else if is_reserved_device_name component then Err PathViolationKind.PlatformAlias
      else push_components rest
             (if bool_decide (canonical = "") then component
              else (canonical ++ "/") ++ component)
  end.

Definition new (raw : string) : result t PathViolation :=
  let refuse k := Err (MkPathViolation k raw) in
  if bool_decide (raw = "") then refuse PathViolationKind.Empty
  else if (MAX_NORMALIZED_WORKSPACE_PATH_BYTES <? String.length raw)%nat
  then refuse PathViolationKind.TooLong
  else if has_control raw then refuse PathViolationKind.ControlCharacter
  else if starts_with "/" raw then refuse PathViolationKind.Absolute
  else if mem_char backslash raw then refuse PathViolationKind.AlternateSeparator
  else if mem_char ":"%char raw then refuse PathViolationKind.RootedPrefix
  else
    let body := match strip_slash raw with
                | Some rest => if ends_with is_slash rest then None else Some rest
                | None => Some raw
                end in
    match body with
    | None => refuse PathViolationKind.EmptyComponent
    | Some body =>
        match push_components (split_on is_slash body) "" with
        | Err k => refuse k
        | Ok canonical =>
            if bool_decide (canonical = "") then refuse PathViolationKind.Empty
            else Ok (MkPath canonical)
        end
    end.

Definition components (p : t) : list string := split_on is_slash (as_str p).

Definition cmp_key (p : t) : string := as_str p.

Definition covers (self other : t) : bool :=
  let a := cmp_key self in
  let b := cmp_key other in
  if bool_decide (a = b) then true
  else starts_with a b && bool_decide (String.get (String.length a) b = Some slash).

Definition overlaps (self other : t) : bool := covers self other || covers other self.
End NormalizedWorkspacePath.

Notation NPath := NormalizedWorkspacePath.t (only parsing).

(** ** [OwnershipSpec] *)
Record OwnershipSpecViolation := MkSpecViolation { what : string; value : string }.

Definition MAX_OWNERSHIP_SPEC_ENTRIES : nat := 64.
Definition MAX_OWNERSHIP_SPEC_ENTRY_CHARS : nat := 256.

(** A byte of a multi-byte character is not ASCII, so such a string is
    refused whatever its number of characters; an accepted one has a byte per
    character. *)
Definition is_ascii_whitespace (c : ascii) : bool :=
  let n := N_of_ascii c in ((n =? 32) || ((9 <=? n) && (n <=? 13)))%N.
Definition is_ascii (c : ascii) : bool := (N_of_ascii c <? 128)%N.

Definition sane (s : string) : bool :=
  bool_decide (s ≠ "") && (String.length s <=? MAX_OWNERSHIP_SPEC_ENTRY_CHARS)%nat
  && lacks (λ c, is_control_byte c || is_ascii_whitespace c || negb (is_ascii c)) s.

Definition sane_id (s : string) : bool :=
  sane s && negb (mem_char slash s) && negb (mem_char backslash s)
  && lacks (λ c, negb (is_ascii_graphic c)) s.

Definition p_display (a b : string) : string := a ++ " vs " ++ b.

Module OwnershipSpec.
Inductive t :=
  | NoWrites
  | Paths (paths : list string)
  | IsolatedWorktree
  | SemanticEntities (provider_id snapshot_id : string) (entities : list string).

Definition allows_writes (s : t) : bool :=
  match s with NoWrites => false | _ => true end.

Definition exclusive_paths (s : t) : option (list string) :=
  match s with Paths paths => Some paths | _ => None end.

Definition path_errs (paths : list string) : list OwnershipSpecViolation :=
  omap (λ p, match NormalizedWorkspacePath.new p with
             | Ok _ => None
             | Err _ => Some (MkSpecViolation "paths" p)
             end) paths.

Definition path_out (paths : list string) : list NPath :=
  omap (λ p, match NormalizedWorkspacePath.new p with Ok n => Some n | Err _ => None end) paths.

Definition normalized_paths (s : t) : result (list NPath) (list OwnershipSpecViolation) :=
  match s with
  | Paths paths => match path_errs paths with
                   | [] => Ok (path_out paths)
                   | errs => Err errs
                   end
  | _ => Ok []
  end.

(** The pairs [i < j] in order. *)
Fixpoint pair_errs (paths : list string) (ns : list NPath) : list OwnershipSpecViolation :=
  match paths, ns with
  | p :: ps, n :: ns' =>
      omap (λ qm, if NormalizedWorkspacePath.overlaps n qm.2
                  then Some (MkSpecViolation "paths" (p_display p qm.1)) else None)
           (zip ps ns')
      ++ pair_errs ps ns'
  | _, _ => []
  end%list.

Definition when (b : bool) (v : OwnershipSpecViolation) : list OwnershipSpecViolation :=
  if b then [v] else [].

(** The entity loop with its [seen] set. *)
Fixpoint entity_errs (entities : list string) (seen : gset string) :
    list OwnershipSpecViolation :=
  match entities with
  | [] => []
  | e :: es =>
      when (negb (sane e)) (MkSpecViolation "entities" e)
      ++ when (bool_decide (e ∈ seen)) (MkSpecViolation "entities" e)
      ++ entity_errs es ({[e]} ∪ seen)
  end%list.

Definition violations (s : t) : list OwnershipSpecViolation :=
  match s with
  | NoWrites | IsolatedWorktree => []
  | Paths paths =>
      when (bool_decide (paths = [])) (MkSpecViolation "paths" "")
      ++ when (MAX_OWNERSHIP_SPEC_ENTRIES <? List.length paths)%nat (MkSpecViolation "paths" "")
      ++ omap (λ p, if sane p then None else Some (MkSpecViolation "paths" p)) paths
      ++ match normalized_paths s with
         | Ok ns => pair_errs paths ns
         | Err vs => vs
         end
  | SemanticEntities provider_id snapshot_id entities =>
      when (negb (sane_id provider_id)) (MkSpecViolation "provider_id" provider_id)
      ++ when (negb (sane_id snapshot_id)) (MkSpecViolation "snapshot_id" snapshot_id)
      ++ when (bool_decide (entities = [])) (MkSpecViolation "entities" "")
      ++ when (MAX_OWNERSHIP_SPEC_ENTRIES <? List.length entities)%nat (MkSpecViolation "entities" "")
      ++ entity_errs entities ∅
  end%list.

Definition validate (s : t) : result unit (list OwnershipSpecViolation) :=
  match violations s with [] => Ok tt | errs => Err errs end.

Definition overlaps (self other : t) : bool :=
  match self, other with
  | NoWrites, _ | _, NoWrites => false
  | IsolatedWorktree, _ | _, IsolatedWorktree => false
  | Paths _, Paths _ =>
      match normalized_paths self, normalized_paths other with
      | Ok a, Ok b =>
          existsb (λ p, existsb (λ q, NormalizedWorkspacePath.overlaps p q) b) a
      | _, _ => true
      end
  | SemanticEntities _ _ _, Paths _ | Paths _, SemanticEntities _ _ _ => false
  | SemanticEntities pa sa ea, SemanticEntities pb sb eb =>
      bool_decide (pa = pb) && bool_decide (sa = sb)
      && existsb (λ e, existsb (λ f, bool_decide (f = e)) eb) ea
  end.
End OwnershipSpec.

Module PathExamples.
Definition kind_of (raw : string) : option PathViolationKind.t :=
  match NormalizedWorkspacePath.new raw with Ok _ => None | Err v => Some (kind v) end.
Example ok1 : NormalizedWorkspacePath.new "src/core/" = Ok (NormalizedWorkspacePath.MkPath "src/core").
Proof. vm_compute. reflexivity. Qed.
Example refused :
  map kind_of [""; "/etc"; "a//b"; "a//"; "a/../b"; "./a"; "a\b"; "c:x"; "aux.txt"; "a./b"; "COM1"; "/"]
  = [Some PathViolationKind.Empty; Some PathViolationKind.Absolute;
     Some PathViolationKind.EmptyComponent; Some PathViolationKind.EmptyComponent;
     Some PathViolationKind.ParentComponent; Some PathViolationKind.CurrentComponent;
     Some PathViolationKind.AlternateSeparator; Some PathViolationKind.RootedPrefix;
     Some PathViolationKind.PlatformAlias; Some PathViolationKind.PlatformAlias;
     Some PathViolationKind.PlatformAlias; Some PathViolationKind.Absolute].
Proof. vm_compute. reflexivity. Qed.
Example accepted : map kind_of ["COM10"; ".gitignore"; "a b/c"; "..."; "com"]
  = [None; None; None; Some PathViolationKind.PlatformAlias; None].
Proof. vm_compute. reflexivity. Qed.
End PathExamples.

(** ** The canonical form *)
Definition trailing_alias (c : string) : bool :=
  ends_with (λ ch, bool_decide (ch = "."%char)) c || ends_with (λ ch, bool_decide (ch = " "%char)) c.

Record component_ok (c : string) : Prop := {
  co_nonempty : c ≠ "";
  co_current : c ≠ ".";
  co_parent : c ≠ "..";
  co_alias : trailing_alias c = false;
  co_device : is_reserved_device_name c = false;
  co_slash : lacks is_slash c = true;
}.

Record text_ok (raw : string) : Prop := {
  to_length : (String.length raw ≤ MAX_NORMALIZED_WORKSPACE_PATH_BYTES)%nat;
  to_control : has_control raw = false;
  to_backslash : mem_char backslash raw = false;
  to_colon : mem_char ":"%char raw = false;
}.

Definition join (cs : list string) : string := String.concat "/" cs.

Lemma components_plain cs :
  Forall component_ok cs → Forall (λ c, c ≠ "" ∧ ends_with is_slash c = false) cs.
Proof. intros H. eapply Forall_impl; [done|]. intros c []. auto using lacks_ends. Qed.

Lemma components_lack cs : Forall component_ok cs → Forall (λ c, lacks is_slash c = true) cs.
Proof. intros H. eapply Forall_impl; [done|]. by intros c []. Qed.

Lemma split_join cs : cs ≠ [] → Forall component_ok cs → split_on is_slash (join cs) = cs.
Proof. intros Hne Hc. apply split_on_concat; [done|done|by apply components_lack]. Qed.

Lemma push_components_Ok parts acc r :
  Forall (λ c, lacks is_slash c = true) parts →
  NormalizedWorkspacePath.push_components parts acc = Ok r ↔
  Forall component_ok parts
  ∧ r = match parts with
        | [] => acc
        | _ => if bool_decide (acc = "") then join parts else (acc ++ "/") ++ join parts
        end.
Proof.
  revert acc; induction parts as [|c ps IH]; intros acc Hl; cbn [NormalizedWorkspacePath.push_components].
  { split; [intros [= ->]; by split|by intros [_ ->]]. }
  inversion_clear Hl as [|? ? Hc Hps].
  rewrite Forall_cons. fold (trailing_alias c).
  destruct (decide (c = "")) as [->|H1]; [by split; [|intros [[[]]]]|].
  rewrite (bool_decide_eq_false_2 (c = "")) by done.
  repeat (case_bool_decide; [by split; [|intros [[[]]]]|]).
  destruct (trailing_alias c) eqn:Ha; [by split; [|intros [[[] ]]; congruence]|].
  destruct (is_reserved_device_name c) eqn:Hd; [by split; [|intros [[[] ]]; congruence]|].
  rewrite IH by done.
  assert (Hcok : component_ok c) by by split.
  destruct ps as [|d ps].
  { unfold join; cbn. naive_solver. }
  rewrite (bool_decide_eq_false_2 (_ = "")) by (case_bool_decide; [done|by destruct acc]).
  unfold join. rewrite string_concat_cons.
  split; (intros [Hf ->]; split; [tauto|]); case_bool_decide;
    by rewrite ?append_assoc.
Qed.

Lemma strip_slash_Some raw rest : strip_slash raw = Some rest ↔ raw = (rest ++ "/")%string.
Proof.
  revert rest; induction raw as [|c [|d s] IH]; intros rest.
  - split; [done|by destruct rest].
  - cbn. unfold is_slash, slash. case_bool_decide as Hc; subst.
    + split; [by intros [= <-]|]. destruct rest as [|x [|y rest]]; cbn; [done|intros [= ]..].
    + split; [done|]. destruct rest as [|x [|y rest]]; cbn; intros [= ]; congruence.
  - change (strip_slash (String c (String d s))) with (String c <$> strip_slash (String d s)).
    rewrite fmap_Some. split.
    + intros (t & Ht & ->). apply IH in Ht. by rewrite Ht.
    + destruct rest as [|x rest]; [done|]. cbn. intros [= -> Hr]. exists rest.
      split; [by apply IH|done].
Qed.

Lemma strip_slash_no_slash s : ends_with is_slash s = false → strip_slash s = None.
Proof.
  intros He. destruct (strip_slash s) as [r|] eqn:E; [|done].
  apply strip_slash_Some in E as ->. by rewrite ends_with_app in He.
Qed.

Lemma has_control_snoc s : has_control (s ++ "/") = has_control s.
Proof.
  induction s as [|c s IH]; [done|].
  change (String c s ++ "/")%string with (String c (s ++ "/")). cbn [has_control]. rewrite IH.
  do 2 f_equal. destruct s as [|d s]; [|done]. by destruct (_ =? 194)%N.
Qed.

Lemma text_ok_snoc s : text_ok (s ++ "/") → text_ok s.
Proof.
  intros [H1 H2 H3 H4]. rewrite length_append in H1. rewrite has_control_snoc in H2.
  rewrite mem_char_app in H3, H4. apply orb_false_iff in H3, H4.
  split; [lia|tauto..].
Qed.

Lemma join_not_absolute cs t :
  Forall component_ok cs → cs ≠ [] → starts_with "/" (join cs ++ t) = false.
Proof.
  intros Hc Hne.
  destruct Hc as [|c cs' [Hn _ _ _ _ Hs] _]; [done|].
  destruct c as [|x c]; [done|]. cbn in Hs. apply andb_prop in Hs as [Hx _].
  apply negb_true_iff in Hx. unfold is_slash in Hx. apply bool_decide_eq_false in Hx.
  assert (∃ u, (join (String x c :: cs') ++ t = String x u)%string) as [u ->].
  { destruct cs'; unfold join; cbn; eauto. }
  unfold starts_with. cbn [String.prefix]. destruct (ascii_dec _ x); [by subst|reflexivity].
Qed.

Lemma text_guards raw :
  text_ok raw ↔
  (MAX_NORMALIZED_WORKSPACE_PATH_BYTES <? String.length raw)%nat = false ∧ has_control raw = false
  ∧ mem_char backslash raw = false ∧ mem_char ":"%char raw = false.
Proof. rewrite Nat.ltb_ge. split; [by intros []|intros (? & ? & ? & ?); by split]. Qed.

Lemma new_Ok_components raw p :
  NormalizedWorkspacePath.new raw = Ok p →
  ∃ cs, cs ≠ [] ∧ Forall component_ok cs ∧ text_ok raw
        ∧ NormalizedWorkspacePath.as_str p = join cs ∧ (raw = join cs ∨ raw = (join cs ++ "/")%string).
Proof.
  unfold NormalizedWorkspacePath.new. cbv zeta. case_bool_decide as Hne; [done|].
  destruct (_ <? _)%nat eqn:E1; [done|]. destruct (has_control raw) eqn:E2; [done|].
  destruct (starts_with "/" raw) eqn:E3; [done|].
  destruct (mem_char backslash raw) eqn:E4; [done|]. destruct (mem_char ":"%char raw) eqn:E5; [done|].
  assert (text_ok raw) as Ht by (apply text_guards; by split_and!).
  set (body := match strip_slash raw with Some _ => _ | None => _ end).
  assert (∀ b, body = Some b → raw = b ∨ raw = (b ++ "/")%string) as Hb.
  { intros b. subst body. destruct (strip_slash raw) as [r|] eqn:Es.
    - apply strip_slash_Some in Es as ->. destruct (ends_with is_slash r); naive_solver.
    - naive_solver. }
  destruct body as [b|]; [|done].
  destruct (NormalizedWorkspacePath.push_components _ _) as [r|k] eqn:Ep; [|done].
  case_bool_decide; [done|]. intros [= <-].
  apply push_components_Ok in Ep as [Hc ->]; [|apply split_lacks].
  exists (split_on is_slash b). assert (b = join (split_on is_slash b)) as Hj.
  { symmetry. apply concat_split. }
  rewrite <- Hj. destruct (split_on is_slash b) eqn:E; [by destruct (split_on_nonnil is_slash b)|].
  split_and!; [done|done|done|done|by apply Hb].
Qed.

Lemma new_of_components cs raw :
  cs ≠ [] → Forall component_ok cs → text_ok raw →
  raw = join cs ∨ raw = (join cs ++ "/")%string →
  NormalizedWorkspacePath.new raw = Ok (NormalizedWorkspacePath.MkPath (join cs)).
Proof.
  intros Hne Hc Ht Hr.
  destruct (concat_plain cs Hne (components_plain _ Hc)) as [Hj He].
  pose proof Ht as (E1 & E2 & E3 & E4)%text_guards.
  assert (∃ t, raw = (join cs ++ t)%string) as [t Heq].
  { destruct Hr as [->| ->]; [exists ""; by rewrite append_nil_r|eauto]. }
  unfold NormalizedWorkspacePath.new. cbv zeta. rewrite E1, E2, E3, E4.
  rewrite bool_decide_eq_false_2 by (rewrite Heq; unfold join; by destruct (String.concat "/" cs)).
  rewrite Heq, join_not_absolute, <- Heq by done.
  assert (match strip_slash raw with
          | Some rest => if ends_with is_slash rest then None else Some rest
          | None => Some raw
          end = Some (join cs)) as ->.
  { destruct Hr as [->| ->].
    - by rewrite strip_slash_no_slash.
    - rewrite (proj2 (strip_slash_Some _ (join cs))) by done. unfold join. by rewrite He. }
  rewrite split_join by done.
  assert (NormalizedWorkspacePath.push_components cs "" = Ok (join cs)) as ->.
  { apply push_components_Ok; [by apply components_lack|]. by destruct cs. }
  by rewrite bool_decide_eq_false_2.
Qed.

(** ** Coverage is the component prefix order *)
Definition accepted (p : NPath) : Prop :=
  ∃ cs, cs ≠ [] ∧ Forall component_ok cs ∧ NormalizedWorkspacePath.as_str p = join cs
        ∧ NormalizedWorkspacePath.components p = cs.

Lemma new_accepted raw p : NormalizedWorkspacePath.new raw = Ok p → accepted p.
Proof.
  intros (cs & Hne & Hc & _ & Hp & _)%new_Ok_components. exists cs.
  split_and!; try done. unfold NormalizedWorkspacePath.components. rewrite Hp. by apply split_join.
Qed.

Lemma join_prefix cs ds :
  cs ≠ [] → ds ≠ [] → Forall component_ok cs → Forall component_ok ds →
  (∃ t, join ds = (join cs ++ String slash t)%string) ↔ ∃ es, es ≠ [] ∧ ds = (cs ++ es)%list.
Proof.
  intros Hc Hd Hcs Hds. split.
  - intros [t Ht]. exists (split_on is_slash t). split; [apply split_on_nonnil|].
    rewrite <- (split_join ds Hd Hds), Ht, split_on_app by done.
    by rewrite split_join.
  - intros (es & He & ->). exists (join es). by apply string_concat_app.
Qed.

Lemma join_inj cs ds :
  cs ≠ [] → ds ≠ [] → Forall component_ok cs → Forall component_ok ds →
  join cs = join ds → cs = ds.
Proof.
  intros Hc Hd Hcs Hds H. by rewrite <- (split_join cs Hc Hcs), H, split_join.
Qed.

Lemma covers_prefix p q :
  accepted p → accepted q →
  NormalizedWorkspacePath.covers p q = true ↔
  NormalizedWorkspacePath.components p `prefix_of` NormalizedWorkspacePath.components q.
Proof.
  intros (cs & Hc & Hcs & Hp & Hpc) (ds & Hd & Hds & Hq & Hqc). rewrite Hpc, Hqc.
  unfold NormalizedWorkspacePath.covers, NormalizedWorkspacePath.cmp_key. rewrite Hp, Hq.
  case_bool_decide as He.
  { split; [|done]. intros _. by rewrite (join_inj cs ds). }
  rewrite andb_true_iff, bool_decide_eq_true, starts_with_spec. split.
  - intros [[t Ht] Hg]. rewrite Ht, get_append in Hg.
    destruct t as [|c t]; [done|]. injection Hg as ->.
    destruct (proj1 (join_prefix cs ds Hc Hd Hcs Hds)) as (es & _ & ->); [by exists t|].
    by apply prefix_app_r.
  - intros [es ->]. destruct es as [|e es]; [by rewrite app_nil_r in He|].
    destruct (proj2 (join_prefix cs (cs ++ e :: es) Hc Hd Hcs Hds)) as [t Ht]; [by exists (e :: es)|].
    rewrite Ht, get_append. split; [by eexists|done].
Qed.

Lemma prefix_comparable_list {A} (a b f : list A) :
  a `prefix_of` f → b `prefix_of` f → a `prefix_of` b ∨ b `prefix_of` a.
Proof. intros Ha Hb. destruct (prefix_weak_total a b f Ha Hb); auto. Qed.

Lemma path_overlap_shared p q :
  accepted p → accepted q →
  NormalizedWorkspacePath.overlaps p q = true ↔
  ∃ f, NormalizedWorkspacePath.components p `prefix_of` f
       ∧ NormalizedWorkspacePath.components q `prefix_of` f.
Proof.
  intros Hp Hq. unfold NormalizedWorkspacePath.overlaps.
  rewrite orb_true_iff, !covers_prefix by done. split.
  - intros [H|H]; eauto.
  - intros (f & H1 & H2). by eapply prefix_comparable_list.
Qed.

(** A path is accepted exactly when it is a slash-separated list of proper
    components (none empty, [.], [..], a device name, or ending in a dot or a
    space) with at most one trailing slash, at most 256 bytes, and no control
    character, backslash or colon; the stored text is the components joined by
    single slashes, and normalising the stored text gives it back. *)
Theorem workspace_path_exact raw p :
  (NormalizedWorkspacePath.new raw = Ok p ↔
   ∃ cs, cs ≠ [] ∧ Forall component_ok cs ∧ text_ok raw
         ∧ NormalizedWorkspacePath.as_str p = join cs
         ∧ (raw = join cs ∨ raw = (join cs ++ "/")%string))
  ∧ (NormalizedWorkspacePath.new raw = Ok p →
     NormalizedWorkspacePath.new (NormalizedWorkspacePath.as_str p) = Ok p).
Proof.
  assert (∀ cs, NormalizedWorkspacePath.as_str p = join cs →
                p = NormalizedWorkspacePath.MkPath (join cs)) as Hp.
  { by destruct p; cbn; intros ? ->. }
  split; [split; [apply new_Ok_components|]|].
  - intros (cs & Hne & Hc & Ht & Hj & Hr). rewrite (Hp cs Hj). by apply new_of_components.
  - intros (cs & Hne & Hc & Ht & Hj & Hr)%new_Ok_components. rewrite Hj, (Hp cs Hj).
    apply new_of_components; [done..| |by left].
    destruct Hr as [->| ->]; [done|by apply text_ok_snoc].
Qed.

Lemma workspace_path_exact_witness :
  NormalizedWorkspacePath.new "src/core" = Ok (NormalizedWorkspacePath.MkPath "src/core").
Proof.
  apply (proj2 (workspace_path_exact "src/core/" (NormalizedWorkspacePath.MkPath "src/core"))).
  vm_compute. reflexivity.
Defined.

(** ** What a specification grants *)
Definition grants (paths : list string) (f : list string) : Prop :=
  ∃ raw p, raw ∈ paths ∧ NormalizedWorkspacePath.new raw = Ok p
           ∧ NormalizedWorkspacePath.components p `prefix_of` f.

Definition canonical_paths (paths : list string) : Prop :=
  Forall (λ raw, is_ok (NormalizedWorkspacePath.new raw)) paths.

Definition collide (s o : OwnershipSpec.t) : Prop :=
  match s, o with
  | OwnershipSpec.Paths ps, OwnershipSpec.Paths qs =>
      ¬ canonical_paths ps ∨ ¬ canonical_paths qs ∨ ∃ f, grants ps f ∧ grants qs f
  | OwnershipSpec.SemanticEntities pa sa ea, OwnershipSpec.SemanticEntities pb sb eb =>
      pa = pb ∧ sa = sb ∧ ∃ e, e ∈ ea ∧ e ∈ eb
  | _, _ => False
  end.

Lemma path_errs_nil paths : OwnershipSpec.path_errs paths = [] ↔ canonical_paths paths.
Proof.
  unfold OwnershipSpec.path_errs, canonical_paths.
  induction paths as [|p ps IH]; cbn; [done|]. rewrite Forall_cons.
  destruct (NormalizedWorkspacePath.new p); cbn; naive_solver.
Qed.

Lemma normalized_paths_Ok paths ns :
  OwnershipSpec.normalized_paths (OwnershipSpec.Paths paths) = Ok ns ↔
  canonical_paths paths ∧ ns = OwnershipSpec.path_out paths.
Proof.
  cbn. rewrite <- path_errs_nil. destruct (OwnershipSpec.path_errs paths); naive_solver.
Qed.

Lemma elem_of_path_out paths n :
  n ∈ OwnershipSpec.path_out paths ↔ ∃ raw, raw ∈ paths ∧ NormalizedWorkspacePath.new raw = Ok n.
Proof.
  unfold OwnershipSpec.path_out. rewrite list_elem_of_omap.
  split; intros (raw & Hr & Hn); exists raw; destruct (NormalizedWorkspacePath.new raw); naive_solver.
Qed.

Lemma existsb_elem {A} (f : A → bool) l : existsb f l = true ↔ ∃ x, x ∈ l ∧ f x = true.
Proof. rewrite existsb_exists. setoid_rewrite list_elem_of_In. done. Qed.

Lemma path_sets_share ps qs :
  existsb (λ p, existsb (λ q, NormalizedWorkspacePath.overlaps p q) (OwnershipSpec.path_out qs))
          (OwnershipSpec.path_out ps) = true
  ↔ ∃ f, grants ps f ∧ grants qs f.
Proof.
  rewrite existsb_elem. setoid_rewrite existsb_elem. setoid_rewrite elem_of_path_out.
  unfold grants. split.
  - intros (p & (rp & Hrp & Hp) & q & (rq & Hrq & Hq) & Ho).
    apply path_overlap_shared in Ho as (f & Hf & Hg); [|by eapply new_accepted..].
    exists f. eauto 10.
  - intros (f & (rp & p & Hrp & Hp & Hf) & (rq & q & Hrq & Hq & Hg)).
    exists p. split; [eauto|]. exists q. split; [eauto|].
    apply path_overlap_shared; [by eapply new_accepted..|eauto].
Qed.

(** Two ownership specifications of one plan are found in conflict exactly
    when they may write the same thing: two path sets that both are canonical
    conflict iff some file path lies below an entry of each, a path set with a
    refused spelling conflicts with every path set, two entity sets conflict iff
    they share an entity of the same provider snapshot, and read-only and
    isolated work conflicts with nothing; the test is symmetric. *)
Theorem ownership_conflict_exact s o :
  (OwnershipSpec.overlaps s o = true ↔ collide s o)
  ∧ OwnershipSpec.overlaps s o = OwnershipSpec.overlaps o s.
Proof.
  assert (∀ s o, OwnershipSpec.overlaps s o = true ↔ collide s o) as Hex.
  { clear. intros s o. destruct s as [|ps| |pa sa ea], o as [|qs| |pb sb eb]; try done.
    - unfold OwnershipSpec.overlaps, collide.
      destruct (OwnershipSpec.normalized_paths (OwnershipSpec.Paths ps)) as [a|e] eqn:Ea.
      2:{ split; [|done]. intros _. left. intros Hc.
          by rewrite (proj2 (normalized_paths_Ok ps _) (conj Hc eq_refl)) in Ea. }
      destruct (OwnershipSpec.normalized_paths (OwnershipSpec.Paths qs)) as [b|e] eqn:Eb.
      2:{ split; [|done]. intros _. right; left. intros Hc.
          by rewrite (proj2 (normalized_paths_Ok qs _) (conj Hc eq_refl)) in Eb. }
      apply normalized_paths_Ok in Ea as [Ha ->], Eb as [Hb ->].
      rewrite path_sets_share. tauto.
    - cbn. rewrite !andb_true_iff, !bool_decide_eq_true, existsb_elem.
      setoid_rewrite existsb_elem. setoid_rewrite bool_decide_eq_true. naive_solver. }
  split; [apply Hex|]. apply eq_true_iff_eq. rewrite !Hex.
  destruct s, o; cbn; naive_solver.
Qed.

Definition spec_valid (s : OwnershipSpec.t) : Prop :=
  match s with
  | OwnershipSpec.NoWrites | OwnershipSpec.IsolatedWorktree => True
  | OwnershipSpec.Paths ps =>
      ps ≠ [] ∧ (List.length ps ≤ MAX_OWNERSHIP_SPEC_ENTRIES)%nat ∧ Forall sane ps
      ∧ canonical_paths ps
      ∧ ∀ i j a b, (i < j)%nat → ps !! i = Some a → ps !! j = Some b →
          ¬ ∃ f, grants [a] f ∧ grants [b] f
  | OwnershipSpec.SemanticEntities provider_id snapshot_id es =>
      sane_id provider_id ∧ sane_id snapshot_id ∧ es ≠ []
      ∧ (List.length es ≤ MAX_OWNERSHIP_SPEC_ENTRIES)%nat ∧ Forall sane es ∧ NoDup es
  end.

Lemma when_nil b v : OwnershipSpec.when b v = [] ↔ b = false.
Proof. by destruct b. Qed.

Lemma omap_nil {A B} (f : A → option B) l : omap f l = [] ↔ Forall (λ x, f x = None) l.
Proof.
  induction l as [|x l IH]; cbn; [done|]. rewrite Forall_cons. destruct (f x); naive_solver.
Qed.

Lemma insane_nil what ps :
  omap (λ p, if sane p then None else Some (MkSpecViolation what p)) ps = [] ↔ Forall sane ps.
Proof.
  rewrite omap_nil. split; intros H; eapply Forall_impl; try done; intros p; cbn;
    destruct (sane p); by cbn.
Qed.

Lemma entity_errs_nil es seen :
  OwnershipSpec.entity_errs es seen = [] ↔
  Forall sane es ∧ NoDup es ∧ ∀ e, e ∈ es → e ∉ seen.
Proof.
  revert seen; induction es as [|e es IH]; intros seen; cbn [OwnershipSpec.entity_errs].
  { split; [|done]. intros _. split_and!; [constructor..|set_solver]. }
  rewrite !app_nil, !when_nil, IH, Forall_cons, NoDup_cons, negb_false_iff,
    bool_decide_eq_false.
  rewrite <- (Is_true_true (sane e)). set_unfold. naive_solver.
Qed.

Lemma path_errs_cons p ps :
  canonical_paths (p :: ps) →
  ∃ n, NormalizedWorkspacePath.new p = Ok n ∧ canonical_paths ps
       ∧ OwnershipSpec.path_out (p :: ps) = n :: OwnershipSpec.path_out ps.
Proof.
  intros [Hp Hps]%Forall_cons. unfold OwnershipSpec.path_out. cbn.
  destruct (NormalizedWorkspacePath.new p) as [n|]; [eauto|done].
Qed.

Lemma grants_one a n f :
  NormalizedWorkspacePath.new a = Ok n →
  grants [a] f ↔ NormalizedWorkspacePath.components n `prefix_of` f.
Proof.
  intros Ha. unfold grants. setoid_rewrite list_elem_of_singleton. split.
  - intros (raw & p & -> & Hp & Hf). congruence.
  - intros Hf. by exists a, n.
Qed.

Lemma pair_row_nil p n ps :
  NormalizedWorkspacePath.new p = Ok n → canonical_paths ps →
  omap (λ qm, if NormalizedWorkspacePath.overlaps n qm.2
              then Some (MkSpecViolation "paths" (p_display p qm.1)) else None)
       (zip ps (OwnershipSpec.path_out ps)) = [] ↔
  ∀ j b, ps !! j = Some b → ¬ ∃ f, grants [p] f ∧ grants [b] f.
Proof.
  intros Hn. induction ps as [|q ps IH]; intros Hc; [done|].
  destruct (path_errs_cons _ _ Hc) as (m & Hm & Hps & ->). cbn [zip zip_with].
  assert (NormalizedWorkspacePath.overlaps n m = true ↔ ∃ f, grants [p] f ∧ grants [q] f) as Ho.
  { rewrite path_overlap_shared by eauto using new_accepted.
    setoid_rewrite (grants_one p n); [|done]. by setoid_rewrite (grants_one q m). }
  cbn. destruct (NormalizedWorkspacePath.overlaps n m).
  - split; [done|]. intros H. exfalso. apply (H 0 q eq_refl). by apply Ho.
  - rewrite IH by done. split.
    + intros H [|j] b; cbn; [|apply H]. intros [= <-] Hf. by apply Ho in Hf.
    + intros H j b Hj. by apply (H (S j) b).
Qed.

Lemma pair_errs_nil ps :
  canonical_paths ps →
  OwnershipSpec.pair_errs ps (OwnershipSpec.path_out ps) = [] ↔
  ∀ i j a b, (i < j)%nat → ps !! i = Some a → ps !! j = Some b →
    ¬ ∃ f, grants [a] f ∧ grants [b] f.
Proof.
  induction ps as [|p ps IH]; intros Hc; [done|].
  destruct (path_errs_cons _ _ Hc) as (n & Hn & Hps & ->). cbn [OwnershipSpec.pair_errs].
  rewrite app_nil, pair_row_nil, IH by done. split.
  - intros [H1 H2] [|i] [|j] a b Hij; cbn; [lia| |lia|].
    + intros [= <-]. apply H1.
    + apply H2. lia.
  - intros H. split.
    + intros j b. apply (H 0 (S j) p b); [lia|done].
    + intros i j a b Hij. apply (H (S i) (S j)). lia.
Qed.

(** Validation of an ownership specification succeeds exactly on the sane
    ones: a path set is non-empty, within 64 entries, of printable canonical
    paths no two of which own a common file; an entity set has
    identifiers without separators and 1 to 64 distinct printable entities. *)
Theorem ownership_validate_exact s : OwnershipSpec.validate s = Ok tt ↔ spec_valid s.
Proof.
  assert (OwnershipSpec.validate s = Ok tt ↔ OwnershipSpec.violations s = []) as ->.
  { unfold OwnershipSpec.validate. by destruct (OwnershipSpec.violations s). }
  destruct s as [|ps| |pid sid es]; [done| |done|]; cbn [OwnershipSpec.violations spec_valid];
    rewrite !app_nil, !when_nil, bool_decide_eq_false, Nat.ltb_ge.
  - rewrite insane_nil.
    destruct (OwnershipSpec.normalized_paths (OwnershipSpec.Paths ps)) as [ns|e] eqn:En.
    + apply normalized_paths_Ok in En as [Hc ->]. rewrite pair_errs_nil by done. tauto.
    + cbn in En. destruct (OwnershipSpec.path_errs ps) as [|v vs] eqn:Ee; [done|].
      assert (¬ canonical_paths ps) by by rewrite <- path_errs_nil, Ee.
      injection En as <-. split; [by intros (? & ? & ? & ?)|tauto].
  - rewrite !negb_false_iff, entity_errs_nil, !Is_true_true. set_solver.
Qed.
