(* ===== verification/LineDiff.v ===== *)
(** * Line diff: the edit script ([crates/edit/src/diff.rs])

    The bounded greedy O(ND) search of the diff engine, its backtracking and
    the merge of equal runs.  [None] in an [option] result is a panic: an index
    out of bounds or a failed [debug_assert] (the model is the debug build).
    A line is a string; the search only compares lines.  Frontier values are
    [Z] ([isize] values stay within the line counts, far from its bounds). *)
From S2P Require Import Prelude.

Definition MAX_DIFF_LINES : nat := 20000.
Definition MAX_MYERS_D_ITER : nat := 4096.
Definition TRACE_ENTRY_BUDGET : N := 8000000.

Inductive Op := Eq (count : nat) | Del (line : string) | Ins (line : string).

#[global] Instance Op_eq_dec : EqDecision Op.
Proof. solve_decision. Defined.

(** ** Vectors indexed by a diagonal *)
(** [v[k + off]], a panic out of bounds. *)
Definition vget (v : list Z) (off k : Z) : option Z :=
  if decide (0 <= k + off)%Z then v !! Z.to_nat (k + off) else None.

Definition vset (v : list Z) (off k x : Z) : option (list Z) :=
  if decide (0 <= k + off ∧ k + off < Z.of_nat (length v))%Z
  then Some (<[Z.to_nat (k + off) := x]> v) else None.

(** [v[lo..hi].to_vec()] *)
Definition slice {A} (v : list A) (lo hi : nat) : option (list A) :=
  if decide (lo ≤ hi ∧ hi ≤ length v) then Some (take (hi - lo) (drop lo v)) else None.

(** [l[x as usize]]; a negative [x] is a huge [usize]. *)
Definition line_at (l : list string) (x : Z) : option string :=
  if decide (0 <= x)%Z then l !! Z.to_nat x else None.

Section Myers.
Context (a b : list string).

(** The guard of the snake loop: both indices in bounds and equal lines. *)
Definition matches (x y : Z) : bool :=
  match line_at a x, line_at b y with
  | Some s, Some t => bool_decide (s = t)
  | _, _ => false
  end.

Fixpoint snake (fuel : nat) (x y : Z) : Z * Z :=
  match fuel with
  | 0 => (x, y)
  | S fuel' => if matches x y then snake fuel' (x + 1) (y + 1) else (x, y)
  end.

Definition came_from_kplus1 (v : list Z) (off d k : Z) : option bool :=
  if decide (k = - d)%Z then Some true
  else if decide (k = d) then Some false
  else l ← vget v off (k - 1); r ← vget v off (k + 1); Some (bool_decide (l < r)%Z).

Definition step_start (v : list Z) (off d k : Z) : option Z :=
  c ← came_from_kplus1 v off d k;
  if (c : bool) then vget v off (k + 1) else (λ x, x + 1)%Z <$> vget v off (k - 1).

(** The [while k <= d_i] loop; the flag says that the corner was reached. *)
Fixpoint diagonals (fuel : nat) (off d k : Z) (v : list Z) : option (list Z * bool) :=
  match fuel with
  | 0 => Some (v, false)
  | S fuel' =>
      if decide (k <= d)%Z then
        x0 ← step_start v off d k;
        let '(x, y) := snake (length a) x0 (x0 - k)%Z in
        v' ← vset v off k x;
        if decide (Z.of_nat (length a) <= x ∧ Z.of_nat (length b) <= y)%Z then Some (v', true)
        else diagonals fuel' off d (k + 2)%Z v'
      else Some (v, false)
  end.

(** The ['outer] loop over [d in ds]: the iteration that reached the corner
    and the trace rows, one per iteration. *)
Fixpoint search (off : nat) (ds : list nat) (v : list Z) (trace : list (list Z)) :
    option (option nat * list (list Z)) :=
  match ds with
  | [] => Some (None, trace)
  | d :: ds' =>
      row ← slice v (off - d) (off + d + 1);
      let trace := trace ++ [row] in
      '(v', found) ← diagonals (S d) (Z.of_nat off) (Z.of_nat d) (- Z.of_nat d)%Z v;
      if (found : bool) then Some (Some d, trace) else search off ds' v' trace
  end.

(** [while x > sx && y > sy]: the ops are built in front, so the list is the
    reverse of the vector the code reverses at the end. *)
Fixpoint rewind (fuel : nat) (x y sx sy : Z) (ops : list Op) : Z * Z * list Op :=
  match fuel with
  | 0 => (x, y, ops)
  | S fuel' =>
      if decide (sx < x ∧ sy < y)%Z
      then rewind fuel' (x - 1) (y - 1) sx sy (Eq 1 :: ops) else (x, y, ops)
  end.

Fixpoint backtrack (trace : list (list Z)) (d : nat) (x y : Z) (ops : list Op) :
    option (Z * Z * list Op) :=
  match d with
  | 0 => Some (x, y, ops)
  | S d' =>
      let d_i := Z.of_nat d in
      let k := (x - y)%Z in
      row ← trace !! d;
      c ← came_from_kplus1 row d_i d_i k;
      let prev_k := if (c : bool) then (k + 1)%Z else (k - 1)%Z in
      px ← vget row d_i prev_k;
      let py := (px - prev_k)%Z in
      let '(sx, sy) := if (c : bool) then (px, py + 1)%Z else (px + 1, py)%Z in
      let '(x, y, ops) := rewind (length a) x y sx sy ops in
      if decide (x = sx ∧ y = sy) then
        if (c : bool) then
          t ← line_at b (y - 1);
          if decide (x = px ∧ y - 1 = py)%Z then backtrack trace d' x (y - 1) (Ins t :: ops) else None
        else
          s ← line_at a (x - 1);
          if decide (x - 1 = px ∧ y = py)%Z then backtrack trace d' (x - 1) y (Del s :: ops) else None
      else None
  end.

(** Merging adjacent equal runs. *)
Definition merge_op (merged : list Op) (op : Op) : list Op :=
  match last merged, op with
  | Some (Eq run), Eq n => take (length merged - 1) merged ++ [Eq (run + n)]
  | _, _ => merged ++ [op]
  end.

Definition merge_runs (ops : list Op) : list Op := foldl merge_op [] ops.
End Myers.

(** [while (d_budget + 1) * (d_budget + 1) <= TRACE_ENTRY_BUDGET] *)
Fixpoint budget_loop (fuel : nat) (d_budget : N) : N :=
  match fuel with
  | 0 => d_budget
  | S fuel' =>
      if ((d_budget + 1) * (d_budget + 1) <=? TRACE_ENTRY_BUDGET)%N
      then budget_loop fuel' (d_budget + 1) else d_budget
  end.

Definition d_budget : nat := N.to_nat (budget_loop 4096 0).
Definition d_cap : nat := Nat.min MAX_MYERS_D_ITER d_budget.

(** [myers_edit_script] for a given cap, past the shortcut for two empty files:
    [Some None] is the fallback. *)
Definition myers_body (cap : nat) (a b : list string) : option (option (list Op)) :=
  '(found, trace) ← search a b cap (seq 0 (S cap)) (replicate (2 * cap + 1) 0%Z) [];
  match found with
  | None => Some None
  | Some d =>
      '(x, y, ops) ← backtrack a b trace d (Z.of_nat (length a)) (Z.of_nat (length b)) [];
      if decide (x = y) then
        let ops := if decide (0 < x)%Z then Eq (Z.to_nat x) :: ops else ops in
        Some (Some (merge_runs ops))
      else None
  end.

Definition myers_with (cap : nat) (a b : list string) : option (option (list Op)) :=
  match a, b with [], [] => Some (Some []) | _, _ => myers_body cap a b end.

Definition myers_edit_script (a b : list string) : option (option (list Op)) :=
  myers_with d_cap a b.

Example myers_classic :
  myers_with 10 ["a"; "b"; "c"; "a"; "b"; "b"; "a"] ["c"; "b"; "a"; "b"; "a"; "c"]
  = Some (Some [Del "a"; Del "b"; Eq 1; Ins "b"; Eq 2; Del "b"; Eq 1; Ins "c"]).
Proof. vm_compute. reflexivity. Qed.
Example myers_over : myers_with 1 ["a"; "b"] ["c"] = Some None.
Proof. vm_compute. reflexivity. Qed.
Example d_cap_value : d_cap = 2828.
Proof. vm_compute. reflexivity. Qed.
