(* ===== verification/MyersThms.v ===== *)
(** * Correctness of the edit-script search

    The edit graph, the furthest-reaching frontier and its invariant, and the
    theorems on [LineDiff.myers_edit_script]: it never panics, its script turns
    the old lines into the new ones with the least number of removed and added
    lines, and it falls back exactly past the cap. *)
From S2P Require Import Prelude LineDiff.

(** ** What a script does *)
Fixpoint apply_ops (ops : list Op) (old : list string) : option (list string) :=
  match ops with
  | [] => match old with [] => Some [] | _ => None end
  | Eq c :: ops' =>
      if decide (c ≤ length old) then app (take c old) <$> apply_ops ops' (drop c old) else None
  | Del s :: ops' =>
      match old with
      | t :: old' => if decide (t = s) then apply_ops ops' old' else None
      | [] => None
      end
  | Ins s :: ops' => cons s <$> apply_ops ops' old
  end.

Fixpoint cost (ops : list Op) : nat :=
  match ops with
  | [] => 0
  | Eq _ :: ops' => cost ops'
  | _ :: ops' => S (cost ops')
  end.

(** No empty and no adjacent equal runs. *)
Fixpoint merged (ops : list Op) : Prop :=
  match ops with
  | [] => True
  | Eq c :: ops' => 0 < c ∧ match ops' with Eq _ :: _ => False | _ => True end ∧ merged ops'
  | _ :: ops' => merged ops'
  end.

Lemma apply_merge l r n ops old :
  apply_ops (l ++ Eq r :: Eq n :: ops) old = apply_ops (l ++ Eq (r + n) :: ops) old.
Proof.
  revert old; induction l as [|[c|s|s] l IH]; intros old; cbn [app apply_ops].
  - rewrite length_drop, drop_drop. repeat case_decide; try lia; try done.
    destruct (apply_ops ops _); [|done]. cbn. f_equal.
    rewrite app_assoc. f_equal. rewrite <- (take_drop r (take (r + n) old)).
    rewrite take_take, Nat.min_l by lia. f_equal.
    rewrite skipn_firstn_comm. f_equal. lia.
  - case_decide; [|done]. by rewrite IH.
  - destruct old; [done|]. case_decide; [|done]. apply IH.
  - by rewrite IH.
Qed.

Lemma cost_app l k : cost (l ++ k) = cost l + cost k.
Proof. induction l as [|[] l IH]; cbn; lia. Qed.

Lemma take_init {A} (l : list A) x : take (length (l ++ [x]) - 1) (l ++ [x]) = l.
Proof. rewrite length_app. cbn. rewrite Nat.add_sub. apply take_app_length. Qed.

Lemma merge_op_spec acc op rest old :
  apply_ops (merge_op acc op ++ rest) old = apply_ops (acc ++ op :: rest) old
  ∧ cost (merge_op acc op) = cost acc + cost [op].
Proof.
  assert (apply_ops ((acc ++ [op]) ++ rest) old = apply_ops (acc ++ op :: rest) old
          ∧ cost (acc ++ [op]) = cost acc + cost [op]) as Hd
    by by rewrite <- app_assoc, cost_app.
  unfold merge_op. destruct (last acc) as [[run|s|s]|] eqn:El; try done.
  destruct op as [n|s'|s']; try done. clear Hd.
  apply last_Some in El as [l ->]. rewrite take_init, <- !app_assoc, !cost_app. cbn [app cost].
  by rewrite apply_merge.
Qed.

Lemma merge_runs_spec ops old :
  apply_ops (merge_runs ops) old = apply_ops ops old ∧ cost (merge_runs ops) = cost ops.
Proof.
  unfold merge_runs.
  assert (∀ acc, apply_ops (foldl merge_op acc ops) old = apply_ops (acc ++ ops) old
                 ∧ cost (foldl merge_op acc ops) = cost acc + cost ops) as H.
  { induction ops as [|op ops IH]; intros acc; cbn [foldl]; [by rewrite app_nil_r, Nat.add_0_r|].
    destruct (IH (merge_op acc op)) as [H1 H2]. destruct (merge_op_spec acc op ops old) as [H3 H4].
    split; [congruence|]. rewrite H2, H4. destruct op; cbn; lia. }
  apply (H []).
Qed.

Definition positive (op : Op) : Prop := match op with Eq c => 0 < c | _ => True end.

Lemma merged_snoc acc op :
  merged (acc ++ [op]) ↔
  merged acc ∧ positive op ∧ match last acc, op with Some (Eq _), Eq _ => False | _, _ => True end.
Proof.
  induction acc as [|x acc IH]; [destruct op; cbn; tauto|].
  assert (last (x :: acc) = match acc with [] => Some x | _ => last acc end) as ->
    by by destruct acc.
  destruct x as [c|s|s], acc as [|y acc]; cbn [app merged] in *; rewrite ?IH;
    destruct op; try destruct y; cbn in *; tauto.
Qed.

Lemma merge_op_merged acc op : merged acc → positive op → merged (merge_op acc op).
Proof.
  intros Ha Hp. unfold merge_op. destruct (last acc) as [[run|s|s]|] eqn:El;
    try (destruct op as [n|s'|s']); try (apply merged_snoc; by rewrite El).
  apply last_Some in El as [l ->]. rewrite take_init.
  apply merged_snoc in Ha as (H1 & H2 & H3). apply merged_snoc. split_and!; [done|cbn in *; lia|done].
Qed.

Lemma merge_runs_merged ops : Forall positive ops → merged (merge_runs ops).
Proof.
  unfold merge_runs. intros H.
  assert (∀ acc, merged acc → merged (foldl merge_op acc ops)) as Hm; [|by apply Hm].
  induction H as [|op ops Hp _ IH]; intros acc Ha; cbn; [done|].
  by apply IH, merge_op_merged.
Qed.

(** ** The edit graph

    [reach d x y]: the position [(x, y)] is reached with [d] removals and
    insertions.  Removals and insertions are not stopped at the ends of the
    files, exactly as in the search. *)
Section Graph.
Context (a b : list string).
Notation n := (Z.of_nat (length a)).
Notation m := (Z.of_nat (length b)).
Notation matches := (matches a b).

Inductive reach : nat → Z → Z → Prop :=
  | reach_origin : reach 0 0 0
  | reach_match d x y : reach d x y → matches x y = true → reach d (x + 1) (y + 1)
  | reach_del d x y : reach d x y → reach (S d) (x + 1) y
  | reach_ins d x y : reach d x y → reach (S d) x (y + 1).

(** The diagonals of iteration [d]. *)
Definition diag_of (d : nat) (k : Z) : Prop := ∃ j, (0 <= j <= Z.of_nat d ∧ k = Z.of_nat d - 2 * j)%Z.

Lemma reach_bounds d x y : reach d x y → (0 <= x ∧ 0 <= y)%Z ∧ diag_of d (x - y).
Proof.
  unfold diag_of. induction 1 as [|d x y _ [? (j & ? & ?)]|d x y _ [? (j & ? & ?)]|d x y _ [? (j & ? & ?)]].
  - split; [lia|]. exists 0%Z. lia.
  - split; [lia|]. exists j. lia.
  - split; [lia|]. exists j. lia.
  - split; [lia|]. exists (j + 1)%Z. lia.
Qed.

Lemma line_at_Some l x s : line_at l x = Some s → (0 <= x < Z.of_nat (length l))%Z.
Proof.
  unfold line_at. case_decide; [|done]. intros Hl%lookup_lt_Some. lia.
Qed.

Lemma matches_true x y :
  matches x y = true ↔ ∃ s, line_at a x = Some s ∧ line_at b y = Some s.
Proof.
  unfold LineDiff.matches. destruct (line_at a x), (line_at b y);
    rewrite ?bool_decide_eq_true; naive_solver.
Qed.

Lemma matches_bounds x y : matches x y = true → (0 <= x < n ∧ 0 <= y < m)%Z.
Proof. intros (s & H1%line_at_Some & H2%line_at_Some)%matches_true. lia. Qed.

(** A path that ends outside the rectangle can be cut back to the corner. *)
Lemma reach_clip d x y :
  reach d x y →
  ∃ d', (Z.of_nat d' + Z.max 0 (x - n) + Z.max 0 (y - m) <= Z.of_nat d)%Z
        ∧ reach d' (Z.min x n) (Z.min y m).
Proof.
  induction 1 as [|d x y _ (d' & Hd & Hr) Hm|d x y _ (d' & Hd & Hr)|d x y _ (d' & Hd & Hr)].
  - exists 0. rewrite !Z.min_l by lia. split; [lia|constructor].
  - apply matches_bounds in Hm as Hb. exists d'. split; [lia|].
    rewrite !Z.min_l in * by lia. by constructor.
  - destruct (decide (x < n)%Z).
    + exists (S d'). split; [lia|]. rewrite (Z.min_l (x + 1)), (Z.min_l x) in * by lia. by constructor.
    + exists d'. split; [lia|]. by rewrite (Z.min_r (x + 1)), (Z.min_r x) in * by lia.
  - destruct (decide (y < m)%Z).
    + exists (S d'). split; [lia|]. rewrite (Z.min_l (y + 1)), (Z.min_l y) in * by lia. by constructor.
    + exists d'. split; [lia|]. by rewrite (Z.min_r (y + 1)), (Z.min_r y) in * by lia.
Qed.

Definition unreached (d : nat) : Prop := ∀ d', d' < d → ¬ reach d' n m.

Lemma corner_exact d x y :
  unreached d → reach d x y → (n <= x)%Z → (m <= y)%Z → x = n ∧ y = m.
Proof.
  intros Hu Hr Hx Hy. destruct (reach_clip _ _ _ Hr) as (d' & Hd & Hc).
  rewrite !Z.min_r in Hc by lia. destruct (decide (d' < d)); [by destruct (Hu d')|lia].
Qed.

(** ** Furthest-reaching points *)
Definition Far (d : nat) (k x : Z) : Prop :=
  reach d x (x - k) ∧ ∀ x' y', reach d x' y' → (x' - y' = k)%Z → (x' <= x)%Z.

Lemma Far_unique d k x x' : Far d k x → Far d k x' → x = x'.
Proof.
  intros [Hr Hm] [Hr' Hm']. specialize (Hm _ _ Hr'). specialize (Hm' _ _ Hr). lia.
Qed.

(** Positions reached by a last step that is not a match. *)
Definition arrives (d : nat) (x y : Z) : Prop :=
  match d with
  | 0 => x = 0%Z ∧ y = 0%Z
  | S d' => reach d' (x - 1) y ∨ reach d' x (y - 1)
  end.

Definition start_ok (d : nat) (k x0 : Z) : Prop :=
  reach d x0 (x0 - k) ∧ ∀ x y, arrives d x y → (x - y = k)%Z → (x <= x0)%Z.

Lemma snake_spec fuel d x y X Y :
  snake a b fuel x y = (X, Y) → reach d x y →
  reach d X Y ∧ (x <= X)%Z ∧ (X - Y = x - y)%Z
  ∧ ((n - x <= Z.of_nat fuel)%Z → matches X Y = false).
Proof.
  revert x y; induction fuel as [|fuel IH]; intros x y; cbn.
  { intros [= <- <-] Hr. split_and!; [done|lia..|]. intros Hf.
    apply not_true_iff_false. intros Hm%matches_bounds. lia. }
  destruct (matches x y) eqn:Hm.
  - intros Hs Hr. apply IH in Hs as (H1 & H2 & H3 & H4); [|by constructor].
    split_and!; [done|lia..|]. intros Hf. apply H4. lia.
  - intros [= <- <-] Hr. split_and!; [done|lia..|done].
Qed.

Lemma far_snake d k x0 X Y :
  start_ok d k x0 → snake a b (length a) x0 (x0 - k) = (X, Y) →
  Far d k X ∧ Y = (X - k)%Z ∧ (x0 <= X)%Z.
Proof.
  intros [Hr0 Hmax] Hs. pose proof (reach_bounds _ _ _ Hr0) as [Hb _].
  apply (snake_spec _ d) in Hs as (Hr & Hle & Hk & Hend); [|done].
  specialize (Hend ltac:(lia)). assert (Y = (X - k)%Z) as -> by lia.
  split_and!; [split; [done|]|done|done].
  intros x y Hxy. revert Hmax Hend. clear Hr0 Hr Hb.
  induction Hxy as [|d x y Hxy IH Hm|d x y Hxy IH|d x y Hxy IH]; intros Hmax Hend Hd.
  - specialize (Hmax 0 0)%Z. cbn in Hmax. lia.
  - specialize (IH Hmax Hend ltac:(lia)). destruct (decide (x = X)) as [->|]; [|lia].
    replace (X - k)%Z with y in Hend by lia. congruence.
  - enough (x + 1 <= x0)%Z by lia. apply (Hmax _ y); [left; by rewrite Z.add_simpl_r|lia].
  - enough (x <= x0)%Z by lia. apply (Hmax _ (y + 1)%Z); [right; by rewrite Z.add_simpl_r|lia].
Qed.

(** A vector that holds the frontier of iteration [d]. *)
Definition frontier (v : list Z) (off : Z) (d : nat) : Prop :=
  ∀ k, diag_of d k → ∃ x, vget v off k = Some x ∧ Far d k x.

(** What iteration [d] reads. *)
Definition prev (v : list Z) (off : Z) (d : nat) : Prop :=
  match d with 0 => vget v off 1 = Some 0%Z | S d' => frontier v off d' end.

Lemma came_from_spec v off d k :
  prev v off d → diag_of d k →
  ∃ (c : bool) px,
    came_from_kplus1 v off (Z.of_nat d) k = Some c
    ∧ vget v off (if c then k + 1 else k - 1)%Z = Some px
    ∧ start_ok d k (if c then px else px + 1)%Z
    ∧ ∀ d', d = S d' → Far d' (if c then k + 1 else k - 1)%Z px.
Proof.
  unfold came_from_kplus1. destruct d as [|d]; cbn [prev].
  { intros Hv (j & Hj & ->). exists true, 0%Z. rewrite decide_True by lia.
    replace (Z.of_nat 0 - 2 * j)%Z with 0%Z by lia. split; [done|]. split; [done|]. split; [|done].
    split; [apply reach_origin|]. cbn. lia. }
  intros Hv (j & Hj & Hk).
  assert (diag_of d (k + 1) ∨ k = Z.of_nat (S d)) as Hp.
  { destruct (decide (k = Z.of_nat (S d))); [by right|left]. exists (j - 1)%Z. lia. }
  assert (diag_of d (k - 1) ∨ k = (- Z.of_nat (S d))%Z) as Hq.
  { destruct (decide (k = (- Z.of_nat (S d))%Z)); [by right|left]. exists j. lia. }
  assert (∀ px, Far d (k + 1) px → (∀ x y, reach d (x - 1) y → x - y = k → x <= px)%Z →
                start_ok (S d) k px) as Hins.
  { intros px [Hr Hmax] Hother. split.
    - replace (px - k)%Z with (px - (k + 1) + 1)%Z by lia. by constructor.
    - intros x y [H|H] Hxy; [by apply (Hother x y)|]. apply (Hmax _ _ H). lia. }
  assert (∀ px, Far d (k - 1) px → (∀ x y, reach d x (y - 1) → x - y = k → x <= px + 1)%Z →
                start_ok (S d) k (px + 1)) as Hdel.
  { intros px [Hr Hmax] Hother. split.
    - replace (px + 1 - k)%Z with (px - (k - 1))%Z by lia. by constructor.
    - intros x y [H|H] Hxy; [|by apply (Hother x y)].
      specialize (Hmax _ _ H ltac:(lia)). lia. }
  case_decide as H1.
  { destruct Hp as [Hp|?]; [|lia]. destruct (Hv _ Hp) as (px & Hget & HF).
    exists true, px. split_and!; [done|done| |by intros ? [= <-]].
    apply Hins; [done|]. intros x y Hr Hxy.
    apply reach_bounds in Hr as [_ (i & ? & ?)]. lia. }
  case_decide as H2.
  { destruct Hq as [Hq|?]; [|lia]. destruct (Hv _ Hq) as (px & Hget & HF).
    exists false, px. split_and!; [done|done| |by intros ? [= <-]].
    apply Hdel; [done|]. intros x y Hr Hxy.
    apply reach_bounds in Hr as [_ (i & ? & ?)]. lia. }
  destruct Hp as [Hp|?]; [|lia]. destruct Hq as [Hq|?]; [|lia].
  destruct (Hv _ Hp) as (pr & Hgr & HFr), (Hv _ Hq) as (pl & Hgl & HFl).
  rewrite Hgl, Hgr. cbn. case_bool_decide as Hlt.
  - exists true, pr. split_and!; [done|done| |by intros ? [= <-]].
    apply Hins; [done|]. intros x y Hr Hxy.
    pose proof (proj2 HFl _ _ Hr ltac:(lia)). lia.
  - exists false, pl. split_and!; [done|done| |by intros ? [= <-]].
    apply Hdel; [done|]. intros x y Hr Hxy.
    pose proof (proj2 HFr _ _ Hr ltac:(lia)). lia.
Qed.

(** ** The forward search *)
Lemma vset_ok v off k x :
  (0 <= k + off < Z.of_nat (length v))%Z →
  ∃ v', vset v off k x = Some v' ∧ length v' = length v ∧ vget v' off k = Some x
        ∧ ∀ k', k' ≠ k → vget v' off k' = vget v off k'.
Proof.
  intros Hk. unfold vset, vget. rewrite decide_True by lia. eexists. split; [done|].
  rewrite length_insert. split_and!; [done| |].
  - rewrite decide_True by lia. apply list_lookup_insert_eq. lia.
  - intros k' Hne. case_decide; [|done]. apply list_lookup_insert_ne. lia.
Qed.

Lemma prev_write v v' off d k :
  diag_of d k → (∀ k', k' ≠ k → vget v' off k' = vget v off k') →
  prev v off d → prev v' off d.
Proof.
  intros (j & Hj & ->) Hne. destruct d as [|d]; cbn [prev].
  - intros H. rewrite Hne; [done|lia].
  - intros Hf k' Hk'. rewrite Hne; [by apply Hf|]. destruct Hk' as (i & ? & ->). lia.
Qed.

(** The diagonals of iteration [d] below [k] are done and none of them
    reached the corner. *)
Definition done_below (v : list Z) (off : Z) (d : nat) (k : Z) : Prop :=
  ∀ k', diag_of d k' → (k' < k)%Z →
    ∃ x, vget v off k' = Some x ∧ Far d k' x ∧ ¬ (n <= x ∧ m <= x - k')%Z.

Lemma done_below_write v v' off d k X :
  done_below v off d k → vget v' off k = Some X →
  (∀ k', k' ≠ k → vget v' off k' = vget v off k') →
  Far d k X → ¬ (n <= X ∧ m <= X - k)%Z → diag_of d k → done_below v' off d (k + 2).
Proof.
  intros Hd Hk Hne HF Hc (j & Hj & ->) k' Hk' Hlt.
  destruct (decide (k' = Z.of_nat d - 2 * j)%Z) as [->|Hn]; [eauto|].
  rewrite Hne by done. apply Hd; [done|]. destruct Hk' as (i & Hi & ->). lia.
Qed.

Lemma done_all v off d k :
  done_below v off d k → (Z.of_nat d < k)%Z → frontier v off d ∧ ¬ reach d n m.
Proof.
  intros Hd Hk. split.
  - intros k' Hk'. destruct (Hd k' Hk') as (x & ? & ? & _); [|eauto].
    destruct Hk' as (j & ? & ->). lia.
  - intros Hr. pose proof (reach_bounds _ _ _ Hr) as [_ Hg].
    destruct (Hd _ Hg) as (x & _ & [_ Hmax] & Hc); [destruct Hg as (j & ? & ->); lia|].
    apply Hc. specialize (Hmax _ _ Hr eq_refl). lia.
Qed.

Lemma diagonals_spec fuel off d k v :
  (Z.of_nat (length v) = 2 * off + 1)%Z → (Z.of_nat d <= off)%Z → unreached d →
  prev v off d → done_below v off d k →
  (diag_of d k ∨ k = Z.of_nat d + 2)%Z → (Z.of_nat d - k < 2 * Z.of_nat fuel)%Z →
  ∃ v' found,
    diagonals a b fuel off (Z.of_nat d) k v = Some (v', found) ∧ length v' = length v
    ∧ if found : bool then reach d n m else frontier v' off d ∧ ¬ reach d n m.
Proof.
  intros Hlen Hoff Hun. revert k v Hlen.
  induction fuel as [|fuel IH]; intros k v Hlen Hp Hd Hk Hf; cbn [diagonals].
  { exists v, false. split; [done|]. split; [done|]. apply (done_all _ _ _ k); [done|lia]. }
  case_decide as Hkd.
  2:{ exists v, false. split; [done|]. split; [done|]. apply (done_all _ _ _ k); [done|lia]. }
  destruct Hk as [Hk|?]; [|lia].
  destruct (came_from_spec _ _ _ _ Hp Hk) as (c & px & Hc & Hpx & Hs & _).
  unfold step_start. rewrite Hc. cbn.
  assert ((if c then vget v off (k + 1) else (λ x, x + 1)%Z <$> vget v off (k - 1))
          = Some (if c then px else px + 1)%Z) as ->
    by by destruct c; rewrite Hpx.
  cbn. destruct (snake _ _ _ _ _) as [X Y] eqn:Es.
  apply (far_snake d) in Es as (HF & -> & _); [|done].
  destruct (vset_ok v off k X) as (v' & -> & Hl & Hg & Hne).
  { destruct Hk as (j & ? & ->). lia. }
  cbn. case_decide as Hcorner.
  - exists v', true. split; [done|]. split; [done|].
    destruct (corner_exact d X (X - k)) as [-> Hm]; [done|apply HF|lia..|].
    destruct HF as [Hr _]. by rewrite Hm in Hr.
  - destruct (IH (k + 2)%Z v') as (v'' & found & -> & Hl' & Hres).
    + lia.
    + by eapply prev_write.
    + by eapply done_below_write.
    + destruct Hk as (j & ? & ->). destruct (decide (j = 0)%Z) as [->|]; [right; lia|left].
      exists (j - 1)%Z. lia.
    + lia.
    + exists v'', found. split; [done|]. split; [lia|done].
Qed.

(** A trace row shows the frontier its iteration reads. *)
Lemma slice_prev v (off d : nat) row :
  0 < d → d ≤ off → prev v (Z.of_nat off) d → slice v (off - d) (off + d + 1) = Some row →
  prev row (Z.of_nat d) d.
Proof.
  intros H0 Hd. destruct d as [|d]; [lia|]. cbn [prev]. intros Hf.
  unfold slice. case_decide as Hb; [|done]. intros [= <-] k Hk.
  destruct (Hf k Hk) as (x & Hx & HF). exists x. split; [|done].
  destruct Hk as (j & Hj & ->). unfold vget in *.
  rewrite decide_True in Hx by lia. rewrite decide_True by lia.
  rewrite lookup_take_lt by lia. rewrite lookup_drop. rewrite <- Hx. f_equal. lia.
Qed.

Definition rows_ok (trace : list (list Z)) (d : nat) : Prop :=
  ∀ e, 0 < e < d → ∃ row, trace !! e = Some row ∧ prev row (Z.of_nat e) e.

Lemma search_spec off cnt d v trace :
  length v = 2 * off + 1 → d + cnt = S off → unreached d → prev v (Z.of_nat off) d →
  length trace = d → rows_ok trace d →
  ∃ found trace',
    search a b off (seq d cnt) v trace = Some (found, trace')
    ∧ match found with
      | None => unreached (S off)
      | Some e => e ≤ off ∧ reach e n m ∧ unreached e ∧ rows_ok trace' (S e)
      end.
Proof.
  revert d v trace; induction cnt as [|cnt IH]; intros d v trace Hlen Hcnt Hun Hp Hlt Hrows; cbn [seq search].
  { exists None, trace. split; [done|]. by replace (S off) with d by lia. }
  destruct (slice v (off - d) (off + d + 1)) as [row|] eqn:Es.
  2:{ unfold slice in Es. case_decide as Hb; [done|]. lia. }
  assert (rows_ok (trace ++ [row]) (S d)) as Hrows'.
  { intros e He. destruct (decide (e = d)) as [->|].
    - exists row. split; [by rewrite lookup_app_r, Hlt, Nat.sub_diag by lia|].
      eapply slice_prev; [lia| |done|done]. lia.
    - destruct (Hrows e ltac:(lia)) as (r & Hr & ?). exists r. split; [|done].
      by apply lookup_app_l_Some. }
  cbn -[diagonals].
  destruct (diagonals_spec (S d) (Z.of_nat off) d (- Z.of_nat d)%Z v) as (v' & found & -> & Hl & Hres);
    [lia..|done|done| | |lia|].
  { intros k (j & ? & ->) ?. lia. }
  { left. exists (Z.of_nat d). lia. }
  cbn -[diagonals]. destruct found.
  - exists (Some d), (trace ++ [row]). split_and!; [done|lia|done..].
  - destruct Hres as [Hfr Hnr].
    destruct (IH (S d) v' (trace ++ [row])) as (e & tr & Hs & Hpost); [lia|lia| |done| |done|].
    + intros d' Hd'. destruct (decide (d' = d)) as [->|]; [done|apply Hun; lia].
    + rewrite length_app. cbn. lia.
    + eauto.
Qed.

(** ** Backtracking *)
Lemma line_at_drop l x s :
  line_at l x = Some s → drop (Z.to_nat x) l = s :: drop (Z.to_nat (x + 1)) l.
Proof.
  intros Hl. pose proof (line_at_Some _ _ _ Hl). unfold line_at in Hl.
  rewrite decide_True in Hl by lia. replace (Z.to_nat (x + 1)) with (S (Z.to_nat x)) by lia.
  by apply drop_S.
Qed.

Lemma line_at_is_Some l x : (0 <= x < Z.of_nat (length l))%Z → ∃ s, line_at l x = Some s.
Proof.
  intros Hx. unfold line_at. rewrite decide_True by lia. apply lookup_lt_is_Some. lia.
Qed.

(** The script built so far turns the rest of the old file into the rest of
    the new one. *)
Definition tail_ok (ops : list Op) (x y : Z) : Prop :=
  apply_ops ops (drop (Z.to_nat x) a) = Some (drop (Z.to_nat y) b) ∧ Forall positive ops.

Lemma tail_eq ops x y : matches x y = true → tail_ok ops (x + 1) (y + 1) → tail_ok (Eq 1 :: ops) x y.
Proof.
  intros (s & Ha%line_at_drop & Hb%line_at_drop)%matches_true [Ho Hp].
  split; [|constructor; [cbn; lia|done]]. rewrite Ha, Hb. cbn.
  rewrite decide_True by lia. rewrite drop_0, Ho. done.
Qed.

Lemma tail_ins ops x y t : line_at b y = Some t → tail_ok ops x (y + 1) → tail_ok (Ins t :: ops) x y.
Proof.
  intros Hb%line_at_drop [Ho Hp]. split; [|by constructor]. rewrite Hb. cbn. by rewrite Ho.
Qed.

Lemma tail_del ops x y s : line_at a x = Some s → tail_ok ops (x + 1) y → tail_ok (Del s :: ops) x y.
Proof.
  intros Ha%line_at_drop [Ho Hp]. split; [|by constructor]. rewrite Ha. cbn.
  by rewrite decide_True.
Qed.

Lemma rewind_spec fuel x y sx sy ops :
  (sx <= x)%Z → (x - y = sx - sy)%Z → (x - sx <= Z.of_nat fuel)%Z →
  (∀ z, (sx <= z < x)%Z → matches z (z - (sx - sy)) = true) →
  tail_ok ops x y →
  ∃ ops', rewind fuel x y sx sy ops = (sx, sy, ops') ∧ tail_ok ops' sx sy ∧ cost ops' = cost ops.
Proof.
  revert x y ops; induction fuel as [|fuel IH]; intros x y ops Hle Hd Hf Hm Ht; cbn [rewind].
  { exists ops. replace x with sx in * by lia. by replace y with sy in * by lia. }
  case_decide.
  - destruct (IH (x - 1) (y - 1) (Eq 1 :: ops))%Z as (ops' & -> & ? & ?); [lia..| | |].
    + intros z Hz. apply Hm. lia.
    + apply tail_eq.
      * replace (y - 1)%Z with (x - 1 - (sx - sy))%Z by lia. apply Hm. lia.
      * by rewrite !Z.sub_add.
    + eauto.
  - exists ops. replace x with sx in * by lia. by replace y with sy in * by lia.
Qed.

Lemma snake_matches fuel x y X Y :
  snake a b fuel x y = (X, Y) → ∀ z, (x <= z < X)%Z → matches z (z - (x - y)) = true.
Proof.
  revert x y; induction fuel as [|fuel IH]; intros x y; cbn; [intros [= <- <-]; lia|].
  destruct (matches x y) eqn:Hm; [|intros [= <- <-]; lia].
  intros Hs z Hz. destruct (decide (z = x)) as [->|].
  - by replace (x - (x - y))%Z with y by lia.
  - replace (x - y)%Z with (x + 1 - (y + 1))%Z by lia. apply (IH _ _ Hs). lia.
Qed.

Lemma backtrack_spec trace d x y ops :
  rows_ok trace (S d) → Far d (x - y) x → (x <= n)%Z → (y <= m)%Z → tail_ok ops x y →
  ∃ x' y' ops',
    backtrack a b trace d x y ops = Some (x', y', ops')
    ∧ reach 0 x' y' ∧ tail_ok ops' x' y' ∧ cost ops' = cost ops + d ∧ (x' <= n ∧ y' <= m)%Z.
Proof.
  revert x y ops; induction d as [|d IH]; intros x y ops Hrows HF Hx Hy Ht.
  { exists x, y, ops. destruct HF as [Hr _]. rewrite Z.sub_sub_distr, Z.sub_diag in Hr.
    split_and!; [done|done|done|lia..]. }
  cbn [backtrack]. destruct (Hrows (S d) ltac:(lia)) as (row & -> & Hp).
  pose proof (reach_bounds _ _ _ (proj1 HF)) as [_ Hk].
  replace (x - (x - (x - y)))%Z with (x - y)%Z in Hk by lia. set (k := (x - y)%Z) in *.
  destruct (came_from_spec _ _ _ _ Hp Hk) as (c & px & Hc & Hpx & Hs & HFp).
  specialize (HFp d eq_refl). cbn [mbind option_bind]. rewrite Hc. cbn [mbind option_bind].
  rewrite Hpx. cbn [mbind option_bind].
  pose (x0 := if c then px else (px + 1)%Z). fold x0 in Hs.
  destruct (snake a b (length a) x0 (x0 - k)) as [X Y] eqn:Es.
  pose proof (snake_matches _ _ _ _ _ Es) as Hm.
  apply (far_snake (S d)) in Es as (HX & _ & Hle); [|done].
  rewrite (Far_unique _ _ _ _ HX HF) in *. clear HX X Y.
  pose proof (reach_bounds _ _ _ (proj1 HFp)) as [[Hpx0 Hpy0] _].
  assert (let prev_k := if c then (k + 1)%Z else (k - 1)%Z in
          (if c then (px, px - prev_k + 1) else (px + 1, px - prev_k))%Z = (x0, x0 - k)%Z) as ->.
  { subst x0. destruct c; cbn; f_equal; lia. }
  destruct (rewind_spec (length a) x y x0 (x0 - k) ops) as (ops1 & -> & Ht1 & Hc1); [done|lia| | |done|].
  { subst x0. destruct c; lia. }
  { done. }
  rewrite decide_True by done. destruct c; subst x0; cbn [mbind option_bind].
  - destruct (line_at_is_Some b (px - k - 1)) as [t Hb]; [lia|]. rewrite Hb.
    cbn [mbind option_bind]. rewrite decide_True by lia.
    destruct (IH px (px - k - 1)%Z (Ins t :: ops1)) as (x' & y' & ops' & -> & Hr & Ht' & Hcost & Hbd).
    + intros e He. apply Hrows. lia.
    + replace (px - (px - k - 1))%Z with (k + 1)%Z by lia. done.
    + lia.
    + lia.
    + apply tail_ins; [done|]. by rewrite Z.sub_add.
    + exists x', y', ops'. split_and!; [done|done|done|cbn in *; lia|lia|lia].
  - destruct (line_at_is_Some a (px + 1 - 1)) as [s Ha]; [lia|]. rewrite Ha.
    cbn [mbind option_bind]. rewrite decide_True by lia.
    destruct (IH (px + 1 - 1)%Z (px + 1 - k)%Z (Del s :: ops1)) as (x' & y' & ops' & -> & Hr & Ht' & Hcost & Hbd).
    + intros e He. apply Hrows. lia.
    + rewrite Z.add_simpl_r. replace (px - (px + 1 - k))%Z with (k - 1)%Z by lia. done.
    + lia.
    + lia.
    + apply tail_del; [done|]. by rewrite Z.sub_add.
    + exists x', y', ops'. split_and!; [done|done|done|cbn in *; lia|lia|lia].
Qed.
End Graph.

(** ** Scripts are paths *)
Lemma reach_run a b c d x y r :
  reach a b d x y → c ≤ length (drop (Z.to_nat x) a) →
  take c (drop (Z.to_nat x) a) ++ r = drop (Z.to_nat y) b →
  reach a b d (x + Z.of_nat c) (y + Z.of_nat c) ∧ r = drop (Z.to_nat (y + Z.of_nat c)) b.
Proof.
  revert x y; induction c as [|c IH]; intros x y Hr Hc Ht.
  { rewrite !Z.add_0_r. by rewrite take_0 in Ht. }
  pose proof (reach_bounds _ _ _ _ _ Hr) as [[Hx Hy] _].
  destruct (drop (Z.to_nat x) a) as [|s sa] eqn:Ea; [cbn in Hc; lia|].
  cbn [take app] in Ht.
  assert (line_at a x = Some s) as Ha.
  { unfold line_at. rewrite decide_True by done.
    by rewrite <- (Nat.add_0_r (Z.to_nat x)), <- lookup_drop, Ea. }
  assert (line_at b y = Some s) as Hb.
  { unfold line_at. rewrite decide_True by done.
    by rewrite <- (Nat.add_0_r (Z.to_nat y)), <- lookup_drop, <- Ht. }
  pose proof (line_at_drop _ _ _ Ha) as Ea'. pose proof (line_at_drop _ _ _ Hb) as Eb'.
  rewrite Ea' in Ea. injection Ea as Ea. rewrite <- Ht in Eb'. injection Eb' as Eb'.
  destruct (IH (x + 1) (y + 1))%Z as [H1 H2].
  - apply reach_match; [done|]. apply matches_true. eauto.
  - rewrite Ea. cbn in Hc. lia.
  - by rewrite Ea.
  - replace (x + Z.of_nat (S c))%Z with (x + 1 + Z.of_nat c)%Z by lia.
    by replace (y + Z.of_nat (S c))%Z with (y + 1 + Z.of_nat c)%Z by lia.
Qed.

Lemma drop_end {A} (l : list A) x :
  (0 <= x <= Z.of_nat (length l))%Z → drop (Z.to_nat x) l = [] → x = Z.of_nat (length l).
Proof. intros Hx H%(f_equal length). rewrite length_drop in H. cbn in H. lia. Qed.

Lemma drop_cons_next {A} (l : list A) x s l' :
  (0 <= x)%Z → drop (Z.to_nat x) l = s :: l' →
  drop (Z.to_nat (x + 1)) l = l' ∧ (x < Z.of_nat (length l))%Z.
Proof.
  intros Hx H. pose proof (f_equal length H) as Hl. rewrite length_drop in Hl. cbn in Hl.
  split; [|lia]. replace (Z.to_nat (x + 1)) with (Z.to_nat x + 1) by lia.
  by rewrite <- drop_drop, H.
Qed.

Lemma script_reach a b ops d x y :
  reach a b d x y → (x <= Z.of_nat (length a))%Z → (y <= Z.of_nat (length b))%Z →
  apply_ops ops (drop (Z.to_nat x) a) = Some (drop (Z.to_nat y) b) →
  reach a b (d + cost ops) (Z.of_nat (length a)) (Z.of_nat (length b)).
Proof.
  revert d x y; induction ops as [|[c|s|s] ops IH]; intros d x y Hr Hx Hy; cbn [apply_ops cost];
    pose proof (reach_bounds _ _ _ _ _ Hr) as [[Hx0 Hy0] _].
  - destruct (drop (Z.to_nat x) a) eqn:Ea; [|done]. intros [= Eb]. symmetry in Eb.
    apply drop_end in Ea as <-; [|lia]. apply drop_end in Eb as <-; [|lia].
    by rewrite Nat.add_0_r.
  - case_decide as Hc; [|done]. intros (r & Hops & Heq)%fmap_Some.
    symmetry in Heq. destruct (reach_run _ _ _ _ _ _ _ Hr Hc Heq) as [Hr' ->].
    pose proof (f_equal length Heq) as Hl. rewrite length_app, length_take, !length_drop in Hl.
    rewrite length_drop in Hc. eapply (IH _ _ _ Hr').
    + lia.
    + lia.
    + rewrite drop_drop in Hops. rewrite <- Hops. f_equal. f_equal. lia.
  - destruct (drop (Z.to_nat x) a) as [|t old] eqn:Ea; [done|]. case_decide; [|done].
    intros Hops. apply drop_cons_next in Ea as [<- Hlt]; [|done].
    rewrite <- Nat.add_succ_comm. eapply IH; [by apply reach_del|lia|done|done].
  - intros (r & Hops & Heq)%fmap_Some. apply drop_cons_next in Heq as [<- Hlt]; [|done].
    rewrite <- Nat.add_succ_comm. eapply IH; [by apply reach_ins|done|lia|done].
Qed.

(** Every total rewrite is a script, so the distance is finite. *)
Definition transforms (ops : list Op) (a b : list string) : Prop := apply_ops ops a = Some b.

Lemma transforms_reach a b ops :
  transforms ops a b → reach a b (cost ops) (Z.of_nat (length a)) (Z.of_nat (length b)).
Proof.
  intros H. apply (script_reach a b ops 0 0 0); [constructor|lia|lia|]. by rewrite !drop_0.
Qed.

Lemma reach_zero a b d x y :
  reach a b d x y → d = 0 →
  x = y ∧ (0 <= x)%Z ∧ Z.to_nat x ≤ length a ∧ ∀ i, i < Z.to_nat x → a !! i = b !! i.
Proof.
  induction 1 as [|d x y Hr IH Hm| |]; intros Hd; [cbn; split_and!; lia| |done|done].
  destruct (IH Hd) as (-> & Hx & Hl & Hi). pose proof (matches_bounds _ _ _ _ Hm).
  split_and!; [done|lia|lia|]. intros i Hlt.
  destruct (decide (i < Z.to_nat y)); [auto|].
  apply matches_true in Hm as (s & H1 & H2). unfold line_at in *. rewrite !decide_True in * by lia.
  replace i with (Z.to_nat y) by lia. congruence.
Qed.

Lemma take_agree {A} (l k : list A) i :
  (∀ j, j < i → l !! j = k !! j) → take i l = take i k.
Proof.
  intros H. apply list_eq. intros j. destruct (decide (j < i)).
  - rewrite !lookup_take_lt by done. auto.
  - by rewrite !lookup_take_ge by lia.
Qed.

Lemma reach_zero_script a b x y ops :
  reach a b 0 x y → tail_ok a b ops x y →
  x = y ∧ transforms (if decide (0 < x)%Z then Eq (Z.to_nat x) :: ops else ops) a b
  ∧ Forall positive (if decide (0 < x)%Z then Eq (Z.to_nat x) :: ops else ops).
Proof.
  intros Hr [Ho Hp]. destruct (reach_zero _ _ _ _ _ Hr eq_refl) as (<- & Hx & Hl & Hi).
  split; [done|]. case_decide.
  - split; [|constructor; [cbn; lia|done]]. unfold transforms. cbn. rewrite decide_True by done.
    rewrite Ho. cbn. by rewrite (take_agree a b), take_drop.
  - split; [|done]. unfold transforms. by replace (Z.to_nat x) with 0 in Ho by lia.
Qed.

(** ** The search as a whole *)
Lemma cost_final x ops : cost (if decide (0 < x)%Z then Eq (Z.to_nat x) :: ops else ops) = cost ops.
Proof. by case_decide. Qed.

Lemma initial_prev a b cap : 1 ≤ cap → prev a b (replicate (2 * cap + 1) 0%Z) (Z.of_nat cap) 0.
Proof.
  intros Hc. cbn. unfold vget. rewrite decide_True by lia. apply lookup_replicate. lia.
Qed.

Lemma tail_start a b : tail_ok a b [] (Z.of_nat (length a)) (Z.of_nat (length b)).
Proof. split; [|constructor]. by rewrite !Nat2Z.id, !drop_all. Qed.

Lemma corner_Far a b d :
  unreached a b d → reach a b d (Z.of_nat (length a)) (Z.of_nat (length b)) →
  Far a b d (Z.of_nat (length a) - Z.of_nat (length b)) (Z.of_nat (length a)).
Proof.
  intros Hu Hr. split; [by rewrite Z.sub_sub_distr, Z.sub_diag|].
  intros x y Hxy Hd. destruct (decide (Z.of_nat (length a) <= x)%Z) as [Hx|]; [|lia].
  destruct (corner_exact _ _ _ _ _ Hu Hxy); lia.
Qed.

Definition minimal (ops : list Op) (a b : list string) : Prop :=
  ∀ ops', transforms ops' a b → cost ops ≤ cost ops'.

Lemma myers_body_spec cap a b :
  1 ≤ cap →
  ∃ r, myers_body cap a b = Some r
    ∧ match r with
      | Some ops => transforms ops a b ∧ merged ops ∧ minimal ops a b ∧ cost ops ≤ cap
      | None => ∀ ops, transforms ops a b → cap < cost ops
      end.
Proof.
  intros Hcap. unfold myers_body.
  destruct (search_spec a b cap (S cap) 0 (replicate (2 * cap + 1) 0%Z) [])
    as (found & trace & -> & Hf); [by rewrite length_replicate|lia|by intros ? ?%Nat.nlt_0_r|
      by apply initial_prev|done|intros ? ?; lia|].
  cbn [mbind option_bind]. destruct found as [d|].
  2:{ exists None. split; [done|]. intros ops Ho%transforms_reach.
      destruct (decide (cap < cost ops)); [done|]. destruct (Hf (cost ops)); [lia|done]. }
  destruct Hf as (Hd & Hr & Hu & Hrows).
  destruct (backtrack_spec a b trace d (Z.of_nat (length a)) (Z.of_nat (length b)) [])
    as (x & y & ops & -> & Hr0 & Ht & Hc & _); [done|by apply corner_Far|lia|lia|apply tail_start|].
  cbn [mbind option_bind].
  destruct (reach_zero_script _ _ _ _ _ Hr0 Ht) as (<- & Hops & Hp).
  rewrite decide_True by done. eexists. split; [done|]. cbv zeta.
  destruct (merge_runs_spec (if decide (0 < x)%Z then Eq (Z.to_nat x) :: ops else ops) a) as [Hm Hmc].
  rewrite cost_final in Hmc. cbn in Hc. unfold minimal.
  split_and!; [unfold transforms in *; congruence|by apply merge_runs_merged| |lia].
  intros ops' Ho%transforms_reach. rewrite Hmc, Hc.
  destruct (decide (d ≤ cost ops')); [lia|]. destruct (Hu (cost ops')); [lia|done].
Qed.

Lemma myers_with_spec cap a b :
  1 ≤ cap →
  ∃ r, myers_with cap a b = Some r
    ∧ match r with
      | Some ops => transforms ops a b ∧ merged ops ∧ minimal ops a b ∧ cost ops ≤ cap
      | None => ∀ ops, transforms ops a b → cap < cost ops
      end.
Proof.
  intros Hcap. destruct a, b; [|by apply myers_body_spec..].
  exists (Some []). split; [done|]. split_and!; [done|done| |cbn; lia]. intros ops' _. cbn. lia.
Qed.

(** C37: The edit script is correct and shortest: when the search answers with a
    script, running it on the old lines gives the new lines, equal runs are
    non-empty and maximal, and no script that turns the old lines into the new
    ones removes and adds fewer lines in total. *)
Theorem myers_script_correct a b ops :
  myers_edit_script a b = Some (Some ops) →
  transforms ops a b ∧ merged ops ∧ minimal ops a b.
Proof.
  unfold myers_edit_script. assert (d_cap = 2828) as -> by (vm_compute; reflexivity).
  intros H. destruct (myers_with_spec 2828 a b) as (r & Hr & Hs); [lia|].
  rewrite Hr in H. injection H as ->. tauto.
Qed.

(** C38: The search always answers: no index runs out of bounds and no debug
    assertion fails on any two files, and it gives up exactly when more than
    2828 lines would have to be removed or added. *)
Theorem myers_total a b :
  ∃ r, myers_edit_script a b = Some r
       ∧ (r = None ↔ ∀ ops, transforms ops a b → 2828 < cost ops).
Proof.
  unfold myers_edit_script. assert (d_cap = 2828) as -> by (vm_compute; reflexivity).
  destruct (myers_with_spec 2828 a b) as (r & Hr & Hs); [lia|].
  exists r. split; [done|]. destruct r as [ops|]; [|tauto].
  destruct Hs as (Ht & _ & _ & Hc). split; [done|]. intros H. specialize (H ops Ht). lia.
Qed.

#[local] Open Scope string_scope.
Lemma myers_script_correct_witness :
  transforms [Del "a"; Eq 1; Ins "c"] ["a"; "b"] ["b"; "c"]
  ∧ merged [Del "a"; Eq 1; Ins "c"] ∧ minimal [Del "a"; Eq 1; Ins "c"] ["a"; "b"] ["b"; "c"].
Proof. apply (myers_script_correct ["a"; "b"] ["b"; "c"]). vm_compute. reflexivity. Defined.
