(* ===== verification/LineHunks.v ===== *)
(** * Line diff: hunks, fallbacks and rendering ([crates/edit/src/diff.rs])

    Expansion of the edit script into numbered events, their grouping into
    hunks, the prefix/suffix fallback, the coarse marker and the bounded
    renderer.  [None] is a panic of the debug build, as in [LineDiff].  The
    lossy UTF-8 decoding of the standard library is the parameter
    [from_utf8_lossy]; strings are the UTF-8 bytes of the decoded text. *)
From S2P Require Import Prelude Strings LineDiff.
From stdpp Require Import pretty.
#[local] Open Scope string_scope.

Definition MAX_DIFF_BYTES : N := 524288.
Definition DIFF_CONTEXT_LINES : nat := 3.
Definition DIFF_MAX_RENDER_LINES : nat := 2000.

Inductive DiffLine := Context (l : string) | Removed (l : string) | Added (l : string).

Record DiffHunk := MkHunk {
  old_start : nat; old_count : nat; new_start : nat; new_count : nat;
  lines : list DiffLine;
}.

Inductive DiffMode := Myers | Coarse | PrefixSuffix.

#[global] Instance DiffMode_eq_dec : EqDecision DiffMode.
Proof. solve_decision. Defined.

Record DiffOutcome := MkOutcome { hunks : list DiffHunk; mode : DiffMode }.

Module DiffLine.
Definition render (d : DiffLine) : string :=
  match d with
  | Context l => " " ++ l
  | Removed l => "-" ++ l
  | Added l => "+" ++ l
  end.
End DiffLine.

Definition newline : ascii := "010"%char.
Definition nl : string := String newline EmptyString.
Definition is_newline (c : ascii) : bool := bool_decide (c = newline).

(** ** Splitting *)
Definition split_lines (text : string) : list string :=
  let ls := split_on is_newline text in
  match last ls with
  | Some l => if bool_decide (l = "") then removelast ls else ls
  | None => ls
  end.

Fixpoint count_newlines (s : string) : nat :=
  match s with
  | EmptyString => 0
  | String c s' => (if is_newline c then 1 else 0) + count_newlines s'
  end.

Definition line_count (bytes : string) : nat :=
  if bool_decide (bytes = "") then 0
  else if ends_with is_newline bytes then count_newlines bytes
  else count_newlines bytes + 1.

Definition coarse (before after : string) : DiffOutcome :=
  let n := line_count before in
  let m := line_count after in
  MkOutcome
    [MkHunk 1 n 1 m
       [Context ("… diff too large to line-diff within bounds (" ++ pretty n
                 ++ " removed / " ++ pretty m ++ " added lines, "
                 ++ pretty (String.length before) ++ " / " ++ pretty (String.length after)
                 ++ " bytes); use the saved snapshot content instead …")]]
    Coarse.

(** ** The prefix/suffix fallback *)
Fixpoint common_prefix (a b : list string) : nat :=
  match a, b with
  | x :: a', y :: b' => if bool_decide (x = y) then S (common_prefix a' b') else 0
  | _, _ => 0
  end.

Fixpoint suffix_loop (fuel : nat) (a b : list string) (prefix suffix : nat) : option nat :=
  match fuel with
  | 0 => Some suffix
  | S fuel' =>
      if decide (suffix < length a - prefix ∧ suffix < length b - prefix) then
        x ← a !! (length a - 1 - suffix);
        y ← b !! (length b - 1 - suffix);
        if bool_decide (x = y) then suffix_loop fuel' a b prefix (S suffix) else Some suffix
      else Some suffix
  end%nat.

Definition is_old_line (d : DiffLine) : bool :=
  match d with Context _ | Removed _ => true | Added _ => false end.
Definition is_new_line (d : DiffLine) : bool :=
  match d with Context _ | Added _ => true | Removed _ => false end.

Definition count_lines (p : DiffLine → bool) (ls : list DiffLine) : nat :=
  length (filter (λ d, p d = true) ls).

Definition prefix_suffix_hunk (a b : list string) : option DiffHunk :=
  if decide (a = b) then Some (MkHunk 1 0 1 0 [])
  else
    let prefix := common_prefix a b in
    suffix ← suffix_loop (length a) a b prefix 0;
    let ctx_start := prefix - DIFF_CONTEXT_LINES in
    pre ← slice a ctx_start prefix;
    removed ← slice a prefix (length a - suffix);
    added ← slice b prefix (length b - suffix);
    let ctx_end := Nat.min (length b - suffix + DIFF_CONTEXT_LINES) (length b) in
    post ← slice b (length b - suffix) ctx_end;
    let ls := (map Context pre ++ map Removed removed ++ map Added added ++ map Context post)%list in
    let start := ctx_start + 1 in
    let pre_ctx := bool_decide (ctx_start < prefix)%nat in
    let has_added := bool_decide (prefix < length b - suffix)%nat in
    let has_post := bool_decide (length b - suffix < ctx_end)%nat in
    Some (MkHunk start (count_lines is_old_line ls)
            (if pre_ctx then start
             else if has_added then prefix + 1
             else if has_post then length b - suffix + 1
             else 0)
            (count_lines is_new_line ls) ls).

(** ** Events *)
Inductive Kind := KCtx | KDel | KAdd.

#[global] Instance Kind_eq_dec : EqDecision Kind.
Proof. solve_decision. Defined.

Record Ev := MkEv { ev_kind : Kind; ev_old : nat; ev_new : nat; ev_text : string }.

Section Events.
Context (a b : list string).

(** [for _ in 0..*count]; the four counters [o], [n], [ai], [bi]. *)
Fixpoint eq_events (count o n ai bi : nat) : option (list Ev) :=
  match count with
  | 0 => Some []
  | S count' =>
      t ← a !! ai;
      evs ← eq_events count' (S o) (S n) (S ai) (S bi);
      Some (MkEv KCtx (S o) (S n) t :: evs)
  end.

Fixpoint expand (ops : list Op) (o n ai bi : nat) : option (list Ev) :=
  match ops with
  | [] => if decide (ai = length a ∧ bi = length b) then Some [] else None
  | Eq count :: ops' =>
      evs ← eq_events count o n ai bi;
      rest ← expand ops' (o + count) (n + count) (ai + count) (bi + count);
      Some (evs ++ rest)%list
  | Del _ :: ops' =>
      t ← a !! ai;
      rest ← expand ops' (S o) n (S ai) bi;
      Some (MkEv KDel (S o) 0 t :: rest)
  | Ins _ :: ops' =>
      t ← b !! bi;
      rest ← expand ops' o (S n) ai (S bi);
      Some (MkEv KAdd 0 (S n) t :: rest)
  end.

(** The debug assertions on the numbering. *)
Definition numbering_ok (ev : Ev) : bool :=
  let old_ok := bool_decide (a !! (ev_old ev - 1) = Some (ev_text ev)) in
  let new_ok := bool_decide (b !! (ev_new ev - 1) = Some (ev_text ev)) in
  match ev_kind ev with
  | KCtx => old_ok && new_ok
  | KDel => old_ok
  | KAdd => new_ok
  end.
End Events.

(** ** Grouping *)
Definition line_of (ev : Ev) : DiffLine :=
  match ev_kind ev with
  | KCtx => Context (ev_text ev)
  | KDel => Removed (ev_text ev)
  | KAdd => Added (ev_text ev)
  end.

Definition is_old_ev (ev : Ev) : bool := bool_decide (ev_kind ev ≠ KAdd).
Definition is_new_ev (ev : Ev) : bool := bool_decide (ev_kind ev ≠ KDel).

Definition build_hunk (evs : list Ev) (s e : nat) : option DiffHunk :=
  sl ← slice evs s (e + 1);
  Some (MkHunk
          (default 0 (ev_old <$> head (filter (λ ev, is_old_ev ev = true) sl)))
          (length (filter (λ ev, is_old_ev ev = true) sl))
          (default 0 (ev_new <$> head (filter (λ ev, is_new_ev ev = true) sl)))
          (length (filter (λ ev, is_new_ev ev = true) sl))
          (map line_of sl)).

(** The walk over the events [rest], the first of which has index [i]. *)
Fixpoint walk (evs rest : list Ev) (i : nat) (open : option (nat * nat)) (last_change : nat)
    (hs : list DiffHunk) : option (list DiffHunk) :=
  match rest with
  | [] =>
      match open with
      | Some (s, e) => h ← build_hunk evs s e; Some (hs ++ [h])%list
      | None => Some hs
      end
  | ev :: rest' =>
      if decide (ev_kind ev = KCtx) then walk evs rest' (S i) open last_change hs
      else
        let e' := Nat.min (i + DIFF_CONTEXT_LINES) (length evs - 1) in
        let fresh := Some (i - DIFF_CONTEXT_LINES, e') in
        match open with
        | Some (s, e) =>
            if decide (i - last_change ≤ 2 * DIFF_CONTEXT_LINES)%nat
            then walk evs rest' (S i) (Some (s, e')) i hs
            else h ← build_hunk evs s e; walk evs rest' (S i) fresh i (hs ++ [h])%list
        | None => walk evs rest' (S i) fresh i hs
        end
  end.

Definition hunks_from_ops (a b : list string) (ops : list Op) : option (list DiffHunk) :=
  evs ← expand a b ops 0 0 0 0;
  if forallb (numbering_ok a b) evs then walk evs evs 0 None 0 [] else None.

(** ** The whole diff *)
Section Diff.
Context (from_utf8_lossy : string → string).

Definition over_bytes (s : string) : bool := (MAX_DIFF_BYTES <? N.of_nat (String.length s))%N.

Definition diff_hunks (before after : string) : option DiffOutcome :=
  if over_bytes before || over_bytes after then Some (coarse before after)
  else
    let a := split_lines (from_utf8_lossy before) in
    let b := split_lines (from_utf8_lossy after) in
    if (MAX_DIFF_LINES <? length a)%nat || (MAX_DIFF_LINES <? length b)%nat
    then Some (coarse before after)
    else
      script ← myers_edit_script a b;
      match script with
      | None => h ← prefix_suffix_hunk a b; Some (MkOutcome [h] PrefixSuffix)
      | Some ops => hs ← hunks_from_ops a b ops; Some (MkOutcome hs Myers)
      end.
End Diff.

(** ** Rendering *)
Definition truncated : string := "… diff truncated: more than 2000 lines" ++ nl.

Definition header (h : DiffHunk) : string :=
  "@@ -" ++ pretty (old_start h) ++ "," ++ pretty (old_count h) ++ " +"
  ++ pretty (new_start h) ++ "," ++ pretty (new_count h) ++ " @@" ++ nl.

Fixpoint render_lines (ls : list DiffLine) (remaining : nat) (out : string) : string * nat :=
  match ls with
  | [] => (out, remaining)
  | l :: ls' =>
      match remaining with
      | 0 => (out ++ truncated, 0)
      | S r => render_lines ls' r ((out ++ DiffLine.render l) ++ nl)
      end
  end.

Fixpoint render_hunks (hs : list DiffHunk) (remaining : nat) (out : string) : string :=
  match hs with
  | [] => out
  | h :: hs' =>
      match remaining with
      | 0 => out
      | 1 => out ++ truncated
      | S r =>
          let '(out', r') := render_lines (lines h) r (out ++ header h) in
          render_hunks hs' r' out'
      end
  end.

Definition render_unified (hs : list DiffHunk) : string :=
  render_hunks hs DIFF_MAX_RENDER_LINES "".
