(* ===== verification/HunkThms.v ===== *)
(** * The hunks are a patch

    Hunks are read as a patch on the old lines, as a reader of the diff does:
    each hunk starts at its old line number, its context and removed lines must
    be found there, and its counts and its new line number must be true. *)
From S2P Require Import Prelude Strings LineDiff MyersThms LineHunks.
#[local] Open Scope string_scope.
#[local] Open Scope nat_scope.

Fixpoint patch_lines (ls : list DiffLine) (old : list string) : option (list string * list string) :=
  match ls with
  | [] => Some ([], old)
  | Context s :: ls' =>
      match old with
      | t :: old' =>
          if decide (s = t) then '(new, rest) ← patch_lines ls' old'; Some (s :: new, rest) else None
      | [] => None
      end
  | Removed s :: ls' =>
      match old with
      | t :: old' => if decide (s = t) then patch_lines ls' old' else None
      | [] => None
      end
  | Added s :: ls' => '(new, rest) ← patch_lines ls' old; Some (s :: new, rest)
  end.

(** [old] is what follows the first [oc] old lines, [nc] new lines were
    written so far. *)
Fixpoint patch (hs : list DiffHunk) (oc nc : nat) (old : list string) : option (list string) :=
  match hs with
  | [] => Some old
  | h :: hs' =>
      let skip := old_start h - 1 - oc in
      if decide (skip ≤ List.length old
                 ∧ (old_start h = oc + skip + 1 ∨ old_start h = 0 ∧ oc = 0)
                 ∧ old_count h = count_lines is_old_line (lines h)
                 ∧ new_count h = count_lines is_new_line (lines h)
                 ∧ (new_count h = 0 ∨ new_start h = nc + skip + 1)) then
        '(new, rest) ← patch_lines (lines h) (drop skip old);
        tail ← patch hs' (oc + skip + old_count h) (nc + skip + new_count h) rest;
        Some (take skip old ++ new ++ tail)%list
      else None
  end.

Module DiffExamples.
Definition old_text : string := "a" ++ nl ++ "b" ++ nl ++ "c" ++ nl.
Definition new_text : string := "a" ++ nl ++ "x" ++ nl ++ "c" ++ nl ++ "d" ++ nl.
Definition id_text (s : string) : string := s.
Example small_diff :
  diff_hunks id_text old_text new_text
  = Some (MkOutcome [MkHunk 1 3 1 4 [Context "a"; Removed "b"; Added "x"; Context "c"; Added "d"]] Myers).
Proof. vm_compute. reflexivity. Qed.
Example small_patch :
  patch [MkHunk 1 3 1 4 [Context "a"; Removed "b"; Added "x"; Context "c"; Added "d"]] 0 0
    (split_lines old_text) = Some (split_lines new_text).
Proof. vm_compute. reflexivity. Qed.
Example render_small :
  render_unified [MkHunk 1 1 1 1 [Context "a"]] = "@@ -1,1 +1,1 @@" ++ nl ++ " a" ++ nl.
Proof. vm_compute. reflexivity. Qed.
Example fallback :
  prefix_suffix_hunk ["a"; "b"; "c"] ["a"; "x"; "y"; "c"]
  = Some (MkHunk 1 3 1 4 [Context "a"; Removed "b"; Added "x"; Added "y"; Context "c"]).
Proof. vm_compute. reflexivity. Qed.
(** Insertion at the head of a file that is not empty: the old start is the
    line of the first context line. *)
Example head_insertion :
  hunks_from_ops ["x"] ["y"; "x"] [Ins "y"; Eq 1] = Some [MkHunk 1 1 1 2 [Added "y"; Context "x"]].
Proof. vm_compute. reflexivity. Qed.
End DiffExamples.

(** ** What the events carry *)
Definition olds (evs : list Ev) : list string := map ev_text (filter (λ ev, is_old_ev ev = true) evs).
Definition news (evs : list Ev) : list string := map ev_text (filter (λ ev, is_new_ev ev = true) evs).

Fixpoint numbered (o n : nat) (evs : list Ev) : Prop :=
  match evs with
  | [] => True
  | ev :: evs' =>
      match ev_kind ev with
      | KCtx => ev_old ev = S o ∧ ev_new ev = S n ∧ numbered (S o) (S n) evs'
      | KDel => ev_old ev = S o ∧ ev_new ev = 0 ∧ numbered (S o) n evs'
      | KAdd => ev_old ev = 0 ∧ ev_new ev = S n ∧ numbered o (S n) evs'
      end
  end.

Lemma olds_app l k : olds (l ++ k) = (olds l ++ olds k)%list.
Proof. unfold olds. by rewrite filter_app, map_app. Qed.
Lemma news_app l k : news (l ++ k) = (news l ++ news k)%list.
Proof. unfold news. by rewrite filter_app, map_app. Qed.

Lemma olds_cons ev l :
  olds (ev :: l) = match ev_kind ev with KAdd => olds l | _ => ev_text ev :: olds l end.
Proof. unfold olds, is_old_ev. rewrite filter_cons. destruct (ev_kind ev); done. Qed.
Lemma news_cons ev l :
  news (ev :: l) = match ev_kind ev with KDel => news l | _ => ev_text ev :: news l end.
Proof. unfold news, is_new_ev. rewrite filter_cons. destruct (ev_kind ev); done. Qed.

Lemma numbered_app o n l k :
  numbered o n (l ++ k) ↔
  numbered o n l ∧ numbered (o + List.length (olds l)) (n + List.length (news l)) k.
Proof.
  revert o n; induction l as [|ev l IH]; intros o n; cbn [app numbered].
  { cbn. rewrite !Nat.add_0_r. tauto. }
  rewrite olds_cons, news_cons. destruct (ev_kind ev); rewrite IH; cbn [List.length];
    rewrite ?Nat.add_succ_r; cbn; tauto.
Qed.

Definition all_ctx (evs : list Ev) : Prop := Forall (λ ev, ev_kind ev = KCtx) evs.

Lemma all_ctx_texts evs : all_ctx evs → olds evs = map ev_text evs ∧ news evs = map ev_text evs.
Proof.
  induction 1 as [|ev evs He _ [IH1 IH2]]; [done|].
  rewrite olds_cons, news_cons, He, IH1, IH2. done.
Qed.

(** ** Expansion *)
Section Expand.
Context (a b : list string).

Lemma drop_lookup_cons {A} (l : list A) i x l' :
  drop i l = x :: l' → l !! i = Some x ∧ drop (S i) l = l'.
Proof.
  intros H. split.
  - by rewrite <- (Nat.add_0_r i), <- lookup_drop, H.
  - rewrite <- Nat.add_1_r, <- drop_drop, H. done.
Qed.

Lemma eq_events_spec c o n r :
  c ≤ List.length (drop o a) → (take c (drop o a) ++ r)%list = drop n b →
  ∃ evs, eq_events a c o n o n = Some evs ∧ numbered o n evs
    ∧ olds evs = take c (drop o a) ∧ news evs = take c (drop o a)
    ∧ List.length (olds evs) = c ∧ List.length (news evs) = c.
Proof.
  revert o n; induction c as [|c IH]; intros o n Hc Ht; [by exists []|].
  destruct (drop o a) as [|x oa] eqn:Ea; [cbn in Hc; lia|].
  apply drop_lookup_cons in Ea as [Hx Eo]. symmetry in Ht. apply drop_lookup_cons in Ht as [_ Et].
  destruct (IH (S o) (S n)) as (evs & He & Hn & Ho & Hw & Hlo & Hlw).
  - rewrite Eo. cbn in Hc. lia.
  - by rewrite Eo, Et.
  - cbn [eq_events]. rewrite Hx. cbn. rewrite He. eexists. split; [done|].
    rewrite olds_cons, news_cons. cbn. rewrite Ho, Hw, Eo. rewrite Ho in Hlo. rewrite Eo in Hlo.
    split_and!; [done..| |]; by rewrite Hlo.
Qed.

Lemma expand_spec ops o n :
  o ≤ List.length a → n ≤ List.length b → apply_ops ops (drop o a) = Some (drop n b) →
  ∃ evs, expand a b ops o n o n = Some evs ∧ numbered o n evs
    ∧ olds evs = drop o a ∧ news evs = drop n b.
Proof.
  revert o n; induction ops as [|[c|s|s] ops IH]; intros o n Ho Hn; cbn [apply_ops expand].
  - destruct (drop o a) eqn:Ea; [|done]. intros [= Eb]. exists [].
    apply (f_equal List.length) in Ea. symmetry in Eb. pose proof (f_equal List.length Eb) as Hb.
    rewrite length_drop in *. cbn in *. rewrite decide_True by lia. by rewrite <- Eb.
  - case_decide as Hc; [|done]. intros (r & Hops & Heq)%fmap_Some. symmetry in Heq.
    destruct (eq_events_spec _ _ _ _ Hc Heq) as (evs & -> & Hnum & Ho1 & Hn1 & Hlo & Hln).
    pose proof (f_equal List.length Heq) as Hl.
    rewrite length_app, length_take, !length_drop in Hl. rewrite length_drop in Hc.
    assert (r = drop (n + c) b) as ->.
    { rewrite <- drop_drop, <- Heq, drop_app_length'; [done|]. rewrite length_take, length_drop. lia. }
    rewrite drop_drop in Hops.
    destruct (IH (o + c) (n + c)) as (rest & -> & Hnum' & Ho' & Hn'); [lia|lia|done|].
    cbn. eexists. split; [done|]. rewrite numbered_app, Hlo, Hln, olds_app, news_app, Ho1, Hn1, Ho', Hn'.
    split_and!; [done|done| |done]. by rewrite <- drop_drop, take_drop.
  - destruct (drop o a) as [|t old] eqn:Ea; [done|]. case_decide; [|done]. intros Hops.
    pose proof (f_equal List.length Ea) as Hl. rewrite length_drop in Hl. cbn in Hl.
    apply drop_lookup_cons in Ea as [Ha Ea].
    destruct (IH (S o) n) as (rest & He & Hnum & Ho' & Hn'); [lia|done|by rewrite Ea|].
    rewrite Ha. cbn. rewrite He. eexists. split; [done|].
    rewrite olds_cons, news_cons. cbn. by rewrite Ho', Hn', Ea.
  - intros (r & Hops & Heq)%fmap_Some.
    pose proof (f_equal List.length Heq) as Hl. rewrite length_drop in Hl. cbn in Hl.
    apply drop_lookup_cons in Heq as [Hb Eb].
    destruct (IH o (S n)) as (rest & He & Hnum & Ho' & Hn'); [done|lia|by rewrite Eb|].
    rewrite Hb. cbn. rewrite He. eexists. split; [done|].
    rewrite olds_cons, news_cons. cbn. rewrite Ho', Hn', Eb. split_and!; try done.
    rewrite <- Eb. symmetry. by apply drop_S.
Qed.

Lemma numbering_checks evs o n :
  numbered o n evs → olds evs = drop o a → news evs = drop n b →
  forallb (numbering_ok a b) evs = true.
Proof.
  revert o n; induction evs as [|ev evs IH]; intros o n; cbn [numbered forallb]; [done|].
  rewrite olds_cons, news_cons. unfold numbering_ok at 1. intros Hn Ho Hw.
  destruct (ev_kind ev).
  - destruct Hn as (-> & -> & Hn). symmetry in Ho, Hw.
    apply drop_lookup_cons in Ho as [Ha Ho], Hw as [Hb Hw]. cbn. rewrite !Nat.sub_0_r, Ha, Hb.
    rewrite !bool_decide_eq_true_2 by done. by apply (IH (S o) (S n)).
  - destruct Hn as (-> & _ & Hn). symmetry in Ho.
    apply drop_lookup_cons in Ho as [Ha Ho]. cbn. rewrite !Nat.sub_0_r, Ha.
    rewrite !bool_decide_eq_true_2 by done. by apply (IH (S o) n).
  - destruct Hn as (_ & -> & Hn). symmetry in Hw.
    apply drop_lookup_cons in Hw as [Hb Hw]. cbn. rewrite !Nat.sub_0_r, Hb.
    rewrite !bool_decide_eq_true_2 by done. by apply (IH o (S n)).
Qed.
End Expand.

(** ** One hunk *)
Lemma patch_lines_events sl r :
  patch_lines (map line_of sl) (olds sl ++ r) = Some (news sl, r).
Proof.
  induction sl as [|ev sl IH]; [done|]. rewrite olds_cons, news_cons. cbn [map]. unfold line_of at 1.
  destruct (ev_kind ev); cbn; rewrite ?decide_True by done; by rewrite IH.
Qed.

Lemma count_olds sl : count_lines is_old_line (map line_of sl) = List.length (olds sl).
Proof.
  unfold count_lines. induction sl as [|ev sl IH]; [done|]. rewrite olds_cons. cbn [map].
  unfold line_of at 1. destruct (ev_kind ev);
    [rewrite filter_cons_True by done..|rewrite filter_cons_False by done];
    cbn [List.length]; by rewrite IH.
Qed.

Lemma count_news sl : count_lines is_new_line (map line_of sl) = List.length (news sl).
Proof.
  unfold count_lines. induction sl as [|ev sl IH]; [done|]. rewrite news_cons. cbn [map].
  unfold line_of at 1. destruct (ev_kind ev);
    [rewrite filter_cons_True by done|rewrite filter_cons_False by done|rewrite filter_cons_True by done];
    cbn [List.length]; by rewrite IH.
Qed.

Lemma first_old o n sl :
  numbered o n sl →
  default 0 (ev_old <$> head (filter (λ ev, is_old_ev ev = true) sl))
  = match olds sl with [] => 0 | _ => S o end.
Proof.
  revert n; induction sl as [|[[] eo en t] sl IH]; intros n; [done|..]; rewrite olds_cons.
  - rewrite filter_cons_True by done. cbn; by intros (-> & _).
  - rewrite filter_cons_True by done. cbn; by intros (-> & _).
  - rewrite filter_cons_False by done. intros (_ & _ & H). by eapply IH.
Qed.

Lemma first_new o n sl :
  numbered o n sl →
  default 0 (ev_new <$> head (filter (λ ev, is_new_ev ev = true) sl))
  = match news sl with [] => 0 | _ => S n end.
Proof.
  revert o; induction sl as [|[[] eo en t] sl IH]; intros o; [done|..]; rewrite news_cons.
  - rewrite filter_cons_True by done. cbn; by intros (_ & -> & _).
  - rewrite filter_cons_False by done. intros (_ & _ & H). by eapply IH.
  - rewrite filter_cons_True by done. cbn; by intros (_ & -> & _).
Qed.

(** A hunk made of the events [sl], after an omitted run [gap] of context. *)
Lemma hunk_step hs o n gap sl rest :
  numbered o n (gap ++ sl) → all_ctx gap →
  (olds sl = [] → o + List.length (olds gap) = 0) →
  patch hs (o + List.length (olds (gap ++ sl))) (n + List.length (news (gap ++ sl))) (olds rest)
  = Some (news rest) →
  patch (MkHunk
           (default 0 (ev_old <$> head (filter (λ ev, is_old_ev ev = true) sl)))
           (List.length (filter (λ ev, is_old_ev ev = true) sl))
           (default 0 (ev_new <$> head (filter (λ ev, is_new_ev ev = true) sl)))
           (List.length (filter (λ ev, is_new_ev ev = true) sl))
           (map line_of sl) :: hs) o n (olds (gap ++ sl ++ rest))
  = Some (news (gap ++ sl ++ rest)).
Proof.
  intros [Hg Hs]%numbered_app Hctx Hnone Hrest. cbn [patch old_start old_count new_start new_count lines].
  rewrite (first_old _ _ _ Hs), (first_new _ _ _ Hs).
  destruct (all_ctx_texts _ Hctx) as [Ho Hn].
  assert (∀ p, List.length (filter (λ ev, p ev = true) sl) = List.length (map ev_text (filter (λ ev, p ev = true) sl)))
    as Hlen by (intros; by rewrite length_map).
  rewrite (Hlen is_old_ev), (Hlen is_new_ev). fold (olds sl) (news sl).
  set (skip := _ - 1 - o). assert (skip = List.length (olds gap)) as Hskip.
  { subst skip. destruct (olds sl) eqn:Es; [specialize (Hnone eq_refl); lia|lia]. }
  clearbody skip. subst skip. rewrite !olds_app, !news_app in *. rewrite !length_app in *.
  rewrite decide_True.
  2:{ rewrite count_olds, count_news. assert (List.length (news gap) = List.length (olds gap)) as Hl
        by by rewrite Ho, Hn. split_and!; [lia| |done|done|].
      - destruct (olds sl); [right; split; [done|]|left; lia]. specialize (Hnone eq_refl). lia.
      - destruct (news sl); [by left|right; lia]. }
  rewrite drop_app_length, patch_lines_events. cbn.
  assert (List.length (news gap) = List.length (olds gap)) as Hl by by rewrite Ho, Hn.
  rewrite Hl in Hrest. rewrite <- !Nat.add_assoc, Hrest. cbn. rewrite take_app_length.
  by rewrite Hn, Ho.
Qed.

(** ** The walk over the events *)
Section Walk.
Context (evs : list Ev) (Hnum : numbered 0 0 evs).

(** The hunks [hs] patch what follows the first [p] events. *)
Definition good (hs : list DiffHunk) (p : nat) : Prop :=
  patch hs (List.length (olds (take p evs))) (List.length (news (take p evs))) (olds (drop p evs))
  = Some (news (drop p evs)).

Definition ctx_range (p q : nat) : Prop :=
  ∀ j ev, p ≤ j < q → evs !! j = Some ev → ev_kind ev = KCtx.

Lemma ctx_slice p q : ctx_range p q → all_ctx (take (q - p) (drop p evs)).
Proof.
  intros H. apply Forall_lookup. intros i ev Hi. rewrite lookup_take_Some, lookup_drop in Hi.
  apply (H (p + i)); [lia|tauto].
Qed.

Lemma good_nil p : ctx_range p (List.length evs) → good [] p.
Proof.
  intros H%ctx_slice. rewrite <- length_drop, firstn_all in H.
  destruct (all_ctx_texts _ H) as [Ho Hn]. unfold good. cbn. by rewrite Ho, Hn.
Qed.

Lemma build_hunk_Some s e :
  s ≤ e < List.length evs → ∃ h, build_hunk evs s e = Some h.
Proof. intros H. unfold build_hunk, slice. rewrite decide_True by lia. by eexists. Qed.

Lemma split_range p s e :
  p ≤ s ≤ e → e < List.length evs →
  evs = (take p evs ++ take (s - p) (drop p evs) ++ take (e + 1 - s) (drop s evs) ++ drop (e + 1) evs)%list.
Proof.
  intros Hp He. rewrite <- (take_drop p evs) at 1. f_equal.
  rewrite <- (take_drop (s - p) (drop p evs)) at 1. f_equal.
  rewrite drop_drop. replace (p + (s - p)) with s by lia.
  rewrite <- (take_drop (e + 1 - s) (drop s evs)) at 1. f_equal.
  rewrite drop_drop. f_equal. lia.
Qed.

Lemma take_split p s e :
  p ≤ s ≤ e → e < List.length evs →
  take (e + 1) evs = (take p evs ++ take (s - p) (drop p evs) ++ take (e + 1 - s) (drop s evs))%list.
Proof.
  intros Hp He. rewrite (split_range p s e) at 1 by done. rewrite !app_assoc, take_app_length'; [done|].
  rewrite !length_app, !length_take, !length_drop. lia.
Qed.

Lemma good_cons h hs p s e :
  p ≤ s ≤ e → e < List.length evs → ctx_range p s →
  (s = 0 ∨ ∃ ev, evs !! s = Some ev ∧ ev_kind ev = KCtx) →
  build_hunk evs s e = Some h → good hs (e + 1) → good (h :: hs) p.
Proof.
  intros Hp He Hctx Hs Hb Hg. unfold build_hunk, slice in Hb.
  rewrite decide_True in Hb by lia. cbn in Hb. injection Hb as <-.
  pose proof Hnum as Hn. rewrite (split_range p s e Hp He), !numbered_app in Hn.
  destruct Hn as (_ & Hn1 & Hn2 & _).
  assert (drop p evs = (take (s - p) (drop p evs) ++ take (e + 1 - s) (drop s evs) ++ drop (e + 1) evs)%list) as Hd.
  { rewrite (split_range p s e Hp He) at 1. rewrite drop_app_length'; [done|]. rewrite length_take. lia. }
  unfold good in *. rewrite Hd at 1 2. cbn in Hn1, Hn2. apply hunk_step.
  - by rewrite numbered_app.
  - by apply ctx_slice.
  - intros Hnil. destruct Hs as [->|(ev & Hev & Hk)].
    + by replace p with 0 by lia.
    + exfalso. rewrite (drop_S _ _ _ Hev) in Hnil. replace (e + 1 - s) with (S (e - s)) in Hnil by lia.
      cbn [take] in Hnil. by rewrite olds_cons, Hk in Hnil.
  - rewrite (take_split p s e Hp He), !olds_app, !news_app, !length_app in Hg.
    by rewrite olds_app, news_app, !length_app.
Qed.

Definition open_ok (open : option (nat * nat)) (last i p : nat) : Prop :=
  match open with
  | None => p = 0 ∧ ctx_range 0 i
  | Some (s, e) =>
      p ≤ s ∧ s ≤ last ∧ last < i ∧ e = Nat.min (last + 3) (List.length evs - 1)
      ∧ ctx_range p s ∧ ctx_range (S last) i
      ∧ (s = 0 ∨ ∃ ev, evs !! s = Some ev ∧ ev_kind ev = KCtx)
  end.

Lemma ctx_range_snoc p i ev :
  ctx_range p i → evs !! i = Some ev → ev_kind ev = KCtx → ctx_range p (S i).
Proof.
  intros H Hev Hk j ev' Hj Hl. destruct (decide (j = i)) as [->|]; [congruence|].
  apply (H j); [lia|done].
Qed.

Lemma open_ok_ctx open last i p ev :
  open_ok open last i p → evs !! i = Some ev → ev_kind ev = KCtx → open_ok open last (S i) p.
Proof.
  intros Ho Hev Hk. destruct open as [[s e]|]; cbn in *.
  - destruct Ho as (? & ? & ? & ? & ? & ? & ?). split_and!; try done; [lia|].
    by eapply ctx_range_snoc.
  - destruct Ho. split; [done|]. by eapply ctx_range_snoc.
Qed.

(** A change that opens a hunk after the previous one closed. *)
Lemma open_ok_fresh last i p ev :
  ctx_range last i → p ≤ i - 3 → ctx_range p (i - 3) → (last ≤ i - 3) → evs !! i = Some ev →
  open_ok (Some (i - 3, Nat.min (i + 3) (List.length evs - 1))) i (S i) p.
Proof.
  intros Hc Hp Hpc Hl Hev. pose proof (lookup_lt_Some _ _ _ Hev). cbn.
  split_and!; try done; try lia.
  - intros j ev' Hj. lia.
  - destruct (decide (i - 3 = 0)); [by left|right].
    destruct (lookup_lt_is_Some_2 evs (i - 3)) as [ev' Hev']; [lia|].
    exists ev'. split; [done|]. apply (Hc (i - 3)); [lia|done].
Qed.

Lemma walk_spec rest i open last hs p :
  rest = drop i evs → i ≤ List.length evs → open_ok open last i p →
  ∃ tail, walk evs rest i open last hs = Some (hs ++ tail)%list ∧ good tail p.
Proof.
  revert i open last hs p; induction rest as [|ev rest IH]; intros i open last hs p Hr Hi Ho;
    cbn [walk].
  { symmetry in Hr. apply (f_equal List.length) in Hr. rewrite length_drop in Hr. cbn in Hr.
    assert (i = List.length evs) as -> by lia. destruct open as [[s e]|]; cbn in Ho.
    - destruct Ho as (Hps & Hsl & Hli & -> & Hc & Hc' & Hs).
      destruct (build_hunk_Some s (Nat.min (last + 3) (List.length evs - 1))) as [h Hh]; [lia|].
      rewrite Hh. exists [h]. split; [done|]. eapply good_cons; [| |done|done|done|]; [lia|lia|].
      apply good_nil. intros j ev Hj. apply Hc'. lia.
    - exists []. rewrite app_nil_r. split; [done|]. apply good_nil.
      destruct Ho as [-> Ho]. done. }
  symmetry in Hr. apply drop_lookup_cons in Hr as [Hev <-].
  pose proof (lookup_lt_Some _ _ _ Hev) as Hlt.
  case_decide as Hk.
  { eapply IH; [done|lia|]. by eapply open_ok_ctx. }
  change DIFF_CONTEXT_LINES with 3. destruct open as [[s e]|].
  - destruct Ho as (Hps & Hsl & Hli & -> & Hc & Hc' & Hs). case_decide as Hgap.
    + eapply IH; [done|lia|]. cbn. split_and!; try done; try lia.
      intros j ev' Hj. lia.
    + destruct (build_hunk_Some s (Nat.min (last + 3) (List.length evs - 1))) as [h Hh]; [lia|].
      rewrite Hh. cbn [mbind option_bind].
      destruct (IH (S i) (Some (i - 3, Nat.min (i + 3) (List.length evs - 1))) i (hs ++ [h])%list
                  (Nat.min (last + 3) (List.length evs - 1) + 1)) as (tail & -> & Hg); [done|lia| |].
      * apply (open_ok_fresh (S last)) with ev; [done|lia| |lia|done].
        intros j ev' Hj. apply Hc'. lia.
      * exists (h :: tail). rewrite <- app_assoc. split; [done|].
        eapply good_cons; [| |done|done|done|done]; lia.
  - destruct Ho as [-> Hc]. eapply IH; [done|lia|].
    apply (open_ok_fresh 0) with ev; [done|lia| |lia|done].
    intros j ev' Hj. apply Hc. lia.
Qed.
End Walk.

Lemma hunks_patch a b ops :
  transforms ops a b →
  ∃ hs, hunks_from_ops a b ops = Some hs ∧ patch hs 0 0 a = Some b.
Proof.
  intros Ht. destruct (expand_spec a b ops 0 0) as (evs & He & Hnum & Ho & Hn); [lia|lia|by rewrite !drop_0|].
  unfold hunks_from_ops. rewrite He. cbn [mbind option_bind].
  rewrite (numbering_checks a b evs 0 0) by done.
  destruct (walk_spec evs Hnum evs 0 None 0 [] 0) as (hs & -> & Hg); [by rewrite drop_0|lia|by split; [|intros j ev; lia]|].
  exists hs. split; [done|]. unfold good in Hg. rewrite !drop_0, take_0 in Hg. cbn in Hg.
  by rewrite Ho, Hn, !drop_0 in Hg.
Qed.

(** ** The fallback is a patch too *)
Lemma patch_context l ls old :
  patch_lines (map Context l ++ ls) (l ++ old) =
  ('(new, rest) ← patch_lines ls old; Some (l ++ new, rest)%list).
Proof.
  induction l as [|x l IH]; cbn; [by destruct (patch_lines ls old) as [[]|]|].
  rewrite decide_True by done. rewrite IH. by destruct (patch_lines ls old) as [[]|].
Qed.

Lemma patch_removed l ls old : patch_lines (map Removed l ++ ls) (l ++ old) = patch_lines ls old.
Proof. induction l as [|x l IH]; cbn; [done|]. by rewrite decide_True. Qed.

Lemma patch_added l ls old :
  patch_lines (map Added l ++ ls) old = ('(new, rest) ← patch_lines ls old; Some (l ++ new, rest)%list).
Proof.
  induction l as [|x l IH]; cbn; [by destruct (patch_lines ls old) as [[]|]|].
  rewrite IH. by destruct (patch_lines ls old) as [[]|].
Qed.

Lemma common_prefix_spec a b :
  common_prefix a b ≤ List.length a ∧ common_prefix a b ≤ List.length b
  ∧ take (common_prefix a b) a = take (common_prefix a b) b.
Proof.
  revert b; induction a as [|x a IH]; intros [|y b]; cbn; try (split_and!; [lia|lia|done]).
  case_bool_decide as H; cbn; [|split_and!; [lia|lia|done]].
  destruct (IH b) as (? & ? & ->). subst. split_and!; [lia|lia|done].
Qed.

Lemma drop_one_less {A} (l : list A) s x :
  s < List.length l → l !! (List.length l - 1 - s) = Some x →
  drop (List.length l - S s) l = x :: drop (List.length l - s) l.
Proof.
  intros Hs Hx. replace (List.length l - S s) with (List.length l - 1 - s) by lia.
  rewrite (drop_S _ _ _ Hx). do 2 f_equal. lia.
Qed.

Lemma suffix_loop_spec fuel a b prefix s :
  prefix ≤ List.length a → prefix ≤ List.length b →
  s ≤ List.length a - prefix → s ≤ List.length b - prefix →
  drop (List.length a - s) a = drop (List.length b - s) b →
  ∃ s', suffix_loop fuel a b prefix s = Some s'
        ∧ s' ≤ List.length a - prefix ∧ s' ≤ List.length b - prefix
        ∧ drop (List.length a - s') a = drop (List.length b - s') b.
Proof.
  intros Ha Hb. revert s; induction fuel as [|fuel IH]; intros s Hsa Hsb Hd; cbn [suffix_loop]; [eauto|].
  case_decide as Hc; [|eauto].
  destruct (lookup_lt_is_Some_2 a (List.length a - 1 - s)) as [x Hx]; [lia|].
  destruct (lookup_lt_is_Some_2 b (List.length b - 1 - s)) as [y Hy]; [lia|].
  rewrite Hx, Hy. cbn. case_bool_decide as Hxy; [|eauto]. subst y. apply IH; [lia|lia|].
  rewrite (drop_one_less a s x), (drop_one_less b s x) by (done || lia). by rewrite Hd.
Qed.

Lemma slice_Some {A} (l : list A) lo hi :
  lo ≤ hi ≤ List.length l → slice l lo hi = Some (take (hi - lo) (drop lo l)).
Proof. intros H. unfold slice. by rewrite decide_True by lia. Qed.

Lemma take_drop_mid {A} (l : list A) i j : i ≤ j → (take (j - i) (drop i l) ++ drop j l)%list = drop i l.
Proof.
  intros H. rewrite <- (take_drop (j - i) (drop i l)) at 2. f_equal. rewrite drop_drop. f_equal. lia.
Qed.

Lemma count_lines_app p l k : count_lines p (l ++ k) = count_lines p l + count_lines p k.
Proof. unfold count_lines. by rewrite filter_app, length_app. Qed.

Lemma count_removed_new l : count_lines is_new_line (map Removed l) = 0.
Proof. unfold count_lines. induction l as [|x l IH]; [done|]. cbn [map]. by rewrite filter_cons_False. Qed.

Lemma prefix_suffix_patch a b :
  ∃ h, prefix_suffix_hunk a b = Some h ∧ patch [h] 0 0 a = Some b.
Proof.
  unfold prefix_suffix_hunk. case_decide as Hab.
  { subst b. eexists. split; [done|]. cbn. rewrite decide_True by (split_and!; [lia|by left|done|done|by left]).
    cbn. by rewrite drop_0. }
  cbv zeta. destruct (common_prefix_spec a b) as (Hpa & Hpb & Hp). set (P := common_prefix a b) in *.
  destruct (suffix_loop_spec (List.length a) a b P 0) as (s & -> & Hsa & Hsb & Hs);
    [lia..|by rewrite !Nat.sub_0_r, !drop_all|].
  cbn [mbind option_bind]. change DIFF_CONTEXT_LINES with 3.
  set (ce := Nat.min (List.length b - s + 3) (List.length b)).
  rewrite (slice_Some a (P - 3) P), (slice_Some a P), (slice_Some b P), (slice_Some b (List.length b - s)) by lia.
  cbn [mbind option_bind].
  set (pre := take (P - (P - 3)) (drop (P - 3) a)).
  set (rem := take (List.length a - s - P) (drop P a)).
  set (add := take (List.length b - s - P) (drop P b)).
  set (post := take (ce - (List.length b - s)) (drop (List.length b - s) b)).
  eexists. split; [done|]. cbn [patch old_start old_count new_start new_count lines].
  replace (P - 3 + 1 - 1 - 0) with (P - 3) by lia.
  assert (drop (P - 3) a = (pre ++ rem ++ post ++ drop ce b)%list) as Hda.
  { subst pre rem post. rewrite (take_drop_mid b) by lia. rewrite <- Hs.
    rewrite (take_drop_mid a P) by lia. by rewrite take_drop_mid by lia. }
  rewrite decide_True.
  2:{ rewrite !count_lines_app, count_removed_new. split_and!; [lia|left; lia|done|done|].
      repeat case_bool_decide; try (right; lia). left.
      assert (pre = [] ∧ add = [] ∧ post = []) as (-> & -> & ->); [|done].
      subst pre add post. replace (P - (P - 3)) with 0 by lia.
      replace (List.length b - s - P) with 0 by lia. by replace (ce - (List.length b - s)) with 0 by lia. }
  rewrite Hda, patch_context, patch_removed, patch_added.
  rewrite <- (app_nil_r (map Context post)), patch_context. cbn. rewrite app_nil_r. f_equal.
  rewrite <- !app_assoc. unfold post at 1. rewrite (take_drop_mid b) by lia.
  unfold add. rewrite (take_drop_mid b) by lia. rewrite app_assoc.
  assert ((take (P - 3) a ++ pre)%list = take P b) as ->; [|apply take_drop].
  rewrite <- Hp. unfold pre. rewrite <- (take_drop (P - 3) (take P a)).
  rewrite take_take, Nat.min_l by lia. f_equal. by rewrite skipn_firstn_comm.
Qed.

(** ** The whole diff *)
Lemma expand_free ops a b o n ai bi evs :
  cost ops = 0 → expand a b ops o n ai bi = Some evs → all_ctx evs.
Proof.
  assert (∀ c o n ai bi evs, eq_events a c o n ai bi = Some evs → all_ctx evs) as He.
  { clear. induction c as [|c IH]; intros o n ai bi evs; cbn; [by intros [= <-]; constructor|].
    destruct (a !! ai); [|done]. cbn. destruct (eq_events _ _ _ _ _ _) eqn:E; [|done].
    intros [= <-]. constructor; [done|]. by eapply IH. }
  revert o n ai bi evs; induction ops as [|[c|s|s] ops IH]; intros o n ai bi evs Hc; cbn in Hc |- *.
  - case_decide; [|done]. intros [= <-]. constructor.
  - destruct (eq_events _ _ _ _ _ _) as [e1|] eqn:E1; [|done]. cbn.
    destruct (expand _ _ _ _ _ _ _) as [e2|] eqn:E2; [|done]. intros [= <-].
    apply Forall_app_2; [by eapply He|by eapply IH].
  - done.
  - done.
Qed.

Lemma walk_ctx evs rest i last hs : all_ctx rest → walk evs rest i None last hs = Some hs.
Proof.
  intros H. revert i. induction H as [|ev rest Hk _ IH]; intros i; [done|]. cbn [walk].
  by rewrite decide_True.
Qed.

Lemma equal_files_no_hunks a ops hs :
  transforms ops a a → minimal ops a a → hunks_from_ops a a ops = Some hs → hs = [].
Proof.
  intros Ht Hm. assert (cost ops = 0) as Hc.
  { specialize (Hm [Eq (List.length a)]). cbn in Hm. enough (cost ops ≤ 0) by lia. apply Hm.
    unfold transforms. cbn. rewrite decide_True by done. rewrite drop_all. cbn.
    by rewrite firstn_all, app_nil_r. }
  unfold hunks_from_ops. destruct (expand _ _ _ _ _ _ _) as [evs|] eqn:E; [|done]. cbn.
  destruct (forallb _ _); [|done]. rewrite walk_ctx by (by eapply expand_free). congruence.
Qed.

Section Whole.
Context (from_utf8_lossy : string → string).

Definition text_lines (s : string) : list string := split_lines (from_utf8_lossy s).

Definition too_large (before after : string) : Prop :=
  (MAX_DIFF_BYTES < N.of_nat (String.length before))%N
  ∨ (MAX_DIFF_BYTES < N.of_nat (String.length after))%N
  ∨ MAX_DIFF_LINES < List.length (text_lines before)
  ∨ MAX_DIFF_LINES < List.length (text_lines after).

Lemma diff_hunks_cases before after :
  too_large before after ∧ diff_hunks from_utf8_lossy before after = Some (coarse before after)
  ∨ ¬ too_large before after
    ∧ diff_hunks from_utf8_lossy before after
      = (script ← myers_edit_script (text_lines before) (text_lines after);
         match script with
         | None => h ← prefix_suffix_hunk (text_lines before) (text_lines after);
                   Some (MkOutcome [h] PrefixSuffix)
         | Some ops => hs ← hunks_from_ops (text_lines before) (text_lines after) ops;
                       Some (MkOutcome hs Myers)
         end).
Proof.
  unfold diff_hunks, too_large, over_bytes. fold (text_lines before) (text_lines after).
  destruct (N.ltb_spec MAX_DIFF_BYTES (N.of_nat (String.length before))); cbn [orb]; [tauto|].
  destruct (N.ltb_spec MAX_DIFF_BYTES (N.of_nat (String.length after))); cbn [orb]; [tauto|].
  destruct (Nat.ltb_spec MAX_DIFF_LINES (List.length (text_lines before))); cbn [orb]; [tauto|].
  destruct (Nat.ltb_spec MAX_DIFF_LINES (List.length (text_lines after))); cbn [orb]; [tauto|].
  right. split; [|done]. intros [?|[?|[?|?]]]; lia.
Qed.

(** C36: A diff always comes out, whatever the two texts (and whatever the
    decoder returns): no index is out of bounds and no debug assertion fails.
    It is the coarse marker exactly when a side is over the byte or line bound;
    otherwise its hunks, read as a patch with their line numbers and counts
    checked, turn the old lines into the new lines, and equal line lists have
    no hunk. *)
Theorem diff_is_a_patch before after :
  ∃ out, diff_hunks from_utf8_lossy before after = Some out
    ∧ (mode out = Coarse ↔ too_large before after)
    ∧ (mode out ≠ Coarse →
       patch (hunks out) 0 0 (text_lines before) = Some (text_lines after))
    ∧ (mode out ≠ Coarse → text_lines before = text_lines after → hunks out = []).
Proof.
  destruct (diff_hunks_cases before after) as [[Hl ->]|[Hl ->]].
  { exists (coarse before after). split_and!; done. }
  destruct (myers_with_spec 2828 (text_lines before) (text_lines after)) as (r & Hr & Hs); [lia|].
  unfold myers_edit_script. assert (d_cap = 2828) as -> by (vm_compute; reflexivity).
  rewrite Hr. cbn [mbind option_bind]. destruct r as [ops|].
  - destruct Hs as (Ht & _ & Hm & _). destruct (hunks_patch _ _ _ Ht) as (hs & Hh & Hp).
    rewrite Hh. eexists. split; [done|]. split_and!; [done|done|]. intros _ He. cbn.
    rewrite <- He in Ht, Hm, Hh. by eapply equal_files_no_hunks.
  - destruct (prefix_suffix_patch (text_lines before) (text_lines after)) as (h & -> & Hp).
    eexists. split; [done|]. split_and!; [done|done|]. intros _ He. exfalso.
    specialize (Hs [Eq (List.length (text_lines before))]). cbn in Hs. enough (2828 < 0) by lia.
    apply Hs. unfold transforms. cbn. rewrite decide_True by done. rewrite drop_all. cbn.
    by rewrite firstn_all, app_nil_r, He.
Qed.
End Whole.

(** ** The renderer *)
Fixpoint body (ls : list DiffLine) : string :=
  match ls with
  | [] => ""
  | l :: ls' => DiffLine.render l ++ nl ++ body ls'
  end%string.

Lemma render_lines_fit ls r out :
  List.length ls ≤ r → render_lines ls r out = ((out ++ body ls)%string, r - List.length ls).
Proof.
  revert r out; induction ls as [|l ls IH]; intros r out H; cbn [render_lines body].
  - by rewrite append_nil_r, Nat.sub_0_r.
  - destruct r as [|r]; [cbn in H; lia|]. rewrite IH by (cbn in H; lia).
    by rewrite !append_assoc.
Qed.

(** The truncation marker can be missing: after a hunk of 1999 lines, which
    uses up the cap of 2000 output lines together with its header, every later
    hunk is dropped and the output ends as if the diff were complete. *)
Theorem render_drops_tail_silently h hs :
  List.length (lines h) = 1999 → render_unified (h :: hs) = (header h ++ body (lines h))%string.
Proof.
  intros Hl. unfold render_unified. change DIFF_MAX_RENDER_LINES with (S (S 1998)).
  cbn [render_hunks]. rewrite render_lines_fit, Hl by (rewrite Hl; lia).
  cbn [Nat.sub]. by destruct hs.
Qed.

Lemma render_drops_tail_silently_witness :
  render_unified [MkHunk 1 0 1 1999 (repeat (Added "x") 1999); MkHunk 5000 1 6999 0 [Removed "y"]]
  = (header (MkHunk 1 0 1 1999 (repeat (Added "x") 1999)) ++ body (repeat (Added "x") 1999))%string.
Proof.
  apply (render_drops_tail_silently (MkHunk 1 0 1 1999 (repeat (Added "x") 1999))).
  vm_compute. reflexivity.
Defined.
