(* ===== verification/EditOps.v ===== *)
(** * Edit operations on one file

    The pure half of [crates/edit/src/lib.rs]: the three edit operations of
    an [EditRequest] ([apply_op]), the byte-level string operations of the
    standard library they call, and the parse-before-accept check
    ([check_syntax], [language_for], [first_parse_error]).

    A file's text is its bytes.  [usize] offsets are [N] below 2^64; the
    additions of [BoundedRegion] wrap, as they do in the release build (the
    release profile sets no overflow checks).  The tree-sitter grammars are
    third-party code and enter as the parameters [set_language] and [parse]. *)
From S2P Require Import Prelude Strings Bytes AgentMachine.
#[local] Open Scope string_scope.
#[local] Open Scope nat_scope.

(** ** Slices *)
Fixpoint stake (n : nat) (s : string) : string :=
  match n, s with
  | S n', String c s' => String c (stake n' s')
  | _, _ => EmptyString
  end.

Fixpoint sdrop (n : nat) (s : string) : string :=
  match n, s with
  | S n', String _ s' => sdrop n' s'
  | _, _ => s
  end.

Definition starts_cont (s : string) : bool :=
  match s with String c _ => is_cont c | EmptyString => false end.

(** [str::is_char_boundary] *)
Definition is_char_boundary (s : string) (i : N) : bool :=
  (i <=? slen s)%N && ((i =? 0)%N || negb (starts_cont (sdrop (N.to_nat i) s))).

(** [String::replace_range(start..end, by)]; the callers have checked the
    range. *)
Definition replace_range (s : string) (start end_ : nat) (by_ : string) : string :=
  stake start s ++ by_ ++ sdrop end_ s.

(** [str::match_indices] for a non-empty pattern: leftmost matches that do
    not overlap; [skip] bytes still belong to the previous match. *)
Fixpoint matches_from (p s : string) (i skip : nat) : list nat :=
  match s with
  | EmptyString => []
  | String _ s' =>
      match skip with
      | S k => matches_from p s' (S i) k
      | O => if starts_with p s
             then i :: matches_from p s' (S i) (Nat.pred (String.length p))
             else matches_from p s' (S i) 0
      end
  end.

(** The empty pattern matches at every character boundary. *)
Fixpoint boundaries_from (s : string) (i : nat) : list nat :=
  match s with
  | EmptyString => [i]
  | String c s' =>
      if is_cont c then boundaries_from s' (S i) else i :: boundaries_from s' (S i)
  end.

Definition match_indices (p s : string) : list nat :=
  match p with
  | EmptyString => boundaries_from s 0
  | _ => matches_from p s 0 0
  end.

(** ** [EditOp] and [apply_op] *)
Inductive EditOp :=
  | Range (start end_ : N) (replacement : string)
  | SearchReplace (before after : string)
  | BoundedRegion (anchor : string) (region_start region_end : N) (replacement : string).

Definition usize_add (a b : N) : N := ((a + b) mod 2 ^ 64)%N.

(** The tail the [Range] and [BoundedRegion] arms share, check by check. *)
Definition splice (buf : string) (start end_ : N) (replacement : string)
    : result string ErrorKind :=
  if (end_ <? start)%N then Err Malformed
  else if negb (is_char_boundary buf start) || negb (is_char_boundary buf end_)
  then Err Malformed
  else if (slen buf <? end_)%N then Err Malformed
  else Ok (replace_range buf (N.to_nat start) (N.to_nat end_) replacement).

Definition apply_op (buf : string) (op : EditOp) : result string ErrorKind :=
  match op with
  | Range start end_ replacement => splice buf start end_ replacement
  | SearchReplace before after =>
      match match_indices before buf with
      | [] => Err Malformed
      | [start] => Ok (replace_range buf start (start + String.length before) after)
      | _ => Err Conflict
      end
  | BoundedRegion anchor region_start region_end replacement =>
      match match_indices anchor buf with
      | [base] =>
          splice buf (usize_add (N.of_nat base) region_start)
            (usize_add (N.of_nat base) region_end) replacement
      | _ => Err Conflict
      end
  end.

(** The loop over [req.ops] on a copy of the content. *)
Fixpoint apply_ops (buf : string) (ops : list EditOp) : result string ErrorKind :=
  match ops with
  | [] => Ok buf
  | op :: ops' => buf' <-? apply_op buf op; apply_ops buf' ops'
  end.

Definition replacement_of (op : EditOp) : string :=
  match op with
  | Range _ _ r | SearchReplace _ r | BoundedRegion _ _ _ r => r
  end.
Definition pattern_of (op : EditOp) : string :=
  match op with
  | Range _ _ _ => ""
  | SearchReplace b _ => b
  | BoundedRegion a _ _ _ => a
  end.

(** ** Positions in a text *)
#[local] Arguments String.append !_ _ / : assert.

Lemma sdrop_app a b : sdrop (String.length a) (a ++ b) = b.
Proof. induction a as [|x a IH]; [by destruct b|done]. Qed.

Lemma stake_app a b : stake (String.length a) (a ++ b) = a.
Proof. induction a as [|x a IH]; cbn; [by destruct b|by rewrite IH]. Qed.

Lemma stake_sdrop n s : (stake n s ++ sdrop n s)%string = s.
Proof. revert s; induction n as [|n IH]; intros [|c s]; cbn; [done..|by rewrite IH]. Qed.

Lemma length_stake n s : n ≤ String.length s → String.length (stake n s) = n.
Proof.
  revert s; induction n as [|n IH]; intros [|c s]; cbn; intros; try lia. rewrite IH; lia.
Qed.

Lemma length_sdrop n s : String.length (sdrop n s) = String.length s - n.
Proof. revert s; induction n as [|n IH]; intros [|c s]; cbn; [done..|apply IH]. Qed.

Lemma sdrop_sdrop m n s : sdrop m (sdrop n s) = sdrop (n + m) s.
Proof. revert s; induction n as [|n IH]; intros [|c s]; cbn; [by destruct m..|apply IH]. Qed.

Lemma sdrop_0 s : sdrop 0 s = s.
Proof. by destruct s. Qed.

Lemma sdrop_all n s : String.length s ≤ n → sdrop n s = "".
Proof. revert s; induction n as [|n IH]; intros [|c s]; cbn; intros; try done; [lia|]. apply IH; lia. Qed.

(** A text cut at two positions. *)
Lemma cut_at (s : string) i j :
  i ≤ j → j ≤ String.length s →
  ∃ l m r, s = (l ++ m ++ r)%string ∧ String.length l = i ∧ String.length l + String.length m = j.
Proof.
  intros Hij Hj. exists (stake i s), (stake (j - i) (sdrop i s)), (sdrop j s).
  assert (sdrop j s = sdrop (j - i) (sdrop i s)) as -> by (rewrite sdrop_sdrop; f_equal; lia).
  rewrite !stake_sdrop, !length_stake by (rewrite ?length_sdrop; lia). split_and!; [done|lia..].
Qed.

Lemma replace_range_app l m r by_ :
  replace_range (l ++ m ++ r) (String.length l) (String.length l + String.length m) by_
  = (l ++ by_ ++ r)%string.
Proof.
  unfold replace_range. rewrite stake_app.
  replace (String.length l + String.length m) with (String.length (l ++ m)) by apply length_append.
  rewrite <- (append_assoc l m r). by rewrite sdrop_app.
Qed.

(** ** Character boundaries *)
(** Inside a scalar every byte but the first is a continuation byte. *)
Lemma uchar_inner w r i :
  uchar w = true → 0 < i < String.length w → starts_cont (sdrop i (w ++ r)) = true.
Proof.
  intros Hw Hi. destruct w as [|a [|b [|c [|d [|e w]]]]]; cbn in Hi; try done; try lia;
    destruct i as [|[|[|[|i]]]]; try lia; cbn [String.append sdrop starts_cont];
    cbn [uchar] in Hw; ubytes; unfold is_cont, byte_in in *;
    ubytes; repeat match goal with H : (_ <=? _)%N = true |- _ => apply N.leb_le in H end;
    apply andb_true_intro; rewrite !N.leb_le; lia.
Qed.

Lemma uchar_first w : uchar w = true → starts_cont w = false ∧ 0 < String.length w.
Proof.
  destruct w as [|a w]; [done|]; intros Hw; cbn; split; [|lia].
  destruct w as [|b [|c [|d [|e w]]]]; cbn [uchar] in Hw; ubytes; eapply lead_byte_excl; eauto; lia.
Qed.

Lemma Utf8_first s : Utf8 s → starts_cont s = false.
Proof. destruct 1 as [|w r Hw _]; [done|]. apply uchar_first in Hw as [? ?]. destruct w; cbn in *; [lia|done]. Qed.

Lemma boundary_alt s i :
  is_char_boundary s (N.of_nat i) = true ↔
  i ≤ String.length s ∧ (i = 0 ∨ starts_cont (sdrop i s) = false).
Proof.
  unfold is_char_boundary, slen. rewrite andb_true_iff, orb_true_iff, N.leb_le, N.eqb_eq,
    negb_true_iff, Nat2N.id. split; intros [? [?|?]]; split; auto; lia.
Qed.

Lemma boundary_0 s : is_char_boundary s (N.of_nat 0) = true.
Proof. apply boundary_alt. split; [lia|by left]. Qed.

(** Cutting a well-formed text at a character boundary leaves two
    well-formed texts. *)
Lemma utf8_cut l r :
  utf8 (l ++ r) = true → is_char_boundary (l ++ r) (slen l) = true →
  utf8 l = true ∧ utf8 r = true.
Proof.
  intros Hs%Utf8_iff Hb. apply boundary_alt in Hb as [_ Hb]. rewrite sdrop_app in Hb.
  remember (l ++ r)%string as s eqn:E. revert l r E Hb.
  induction Hs as [|w s Hw Hs IH]; intros l r E Hb.
  { destruct l, r; done. }
  destruct Hb as [Hl|Hb].
  { destruct l; [|done]. split; [done|]. cbn in E. subst r. rewrite uchar_utf8 by done.
    by apply Utf8_iff. }
  destruct (prefix_comparable _ _ _ _ E) as [[v Hv]|[v Hv]].
  - subst l. rewrite append_assoc in E. 
    assert (s = (v ++ r)%string) as ->.
    { apply (f_equal (sdrop (String.length w))) in E. by rewrite !sdrop_app in E. }
    destruct (IH v r eq_refl) as [? ?]; [by right|]. rewrite uchar_utf8 by done. done.
  - subst w. destruct (decide (v = "")) as [->|Hv].
    { rewrite append_nil_r in *. assert (s = r) as ->.
      { apply (f_equal (sdrop (String.length l))) in E. by rewrite !sdrop_app in E. }
      split; [|by apply Utf8_iff].
      rewrite <- (append_nil_r l). by rewrite uchar_utf8. }
    destruct l as [|x l]; [cbn in *; subst; split; [done|]; rewrite uchar_utf8 by done; by apply Utf8_iff|].
    exfalso. pose proof (uchar_inner _ s (String.length (String x l)) Hw) as Hin.
    rewrite E, sdrop_app in Hin.
    rewrite Hin in Hb; [done|]. rewrite length_append. destruct v; [done|]. cbn. lia.
Qed.

Lemma utf8_splice l m r by_ :
  utf8 (l ++ m ++ r) = true → utf8 by_ = true →
  is_char_boundary (l ++ m ++ r) (slen l) = true →
  is_char_boundary (l ++ m ++ r) (slen (l ++ m)) = true →
  utf8 (l ++ by_ ++ r) = true.
Proof.
  intros Hs Hy Hl Hm. destruct (utf8_cut _ _ Hs Hl) as [Hu _].
  rewrite <- append_assoc in Hs, Hm. destruct (utf8_cut _ _ Hs Hm) as [_ Hr].
  by rewrite !utf8_app_l.
Qed.

(** ** Where a pattern matches *)
Definition matches_at (p s : string) (i : nat) : Prop :=
  i ≤ String.length s ∧ starts_with p (sdrop i s) = true
  ∧ (p = "" → is_char_boundary s (N.of_nat i) = true).

(** How far a match reaches: the matches the search lists do not overlap. *)
Definition reach (p : string) : nat := Nat.max 1 (String.length p).

(** The match at [i] is the first, and every other one overlaps it. *)
Definition sole_match (p s : string) (i : nat) : Prop :=
  matches_at p s i ∧ ∀ j, matches_at p s j → i ≤ j < i + reach p.

Lemma matches_at_S p c s i :
  p ≠ "" → matches_at p (String c s) (S i) ↔ matches_at p s i.
Proof. intros Hp. unfold matches_at. cbn. split; intros (? & ? & ?); split_and!; auto; lia || done. Qed.

Lemma matches_at_0 p s : p ≠ "" → matches_at p s 0 ↔ starts_with p s = true.
Proof. intros Hp. unfold matches_at. rewrite sdrop_0. split; [naive_solver|]. intros. split_and!; [lia|done|done]. Qed.

Lemma matches_at_nil p i : p ≠ "" → ¬ matches_at p "" i.
Proof. intros Hp (? & H & _). rewrite sdrop_all in H by (cbn; lia). by destruct p. Qed.

Lemma matches_at_app p s i :
  matches_at p s i ↔
  ∃ l r, s = (l ++ p ++ r)%string ∧ String.length l = i
         ∧ (p = "" → is_char_boundary s (N.of_nat i) = true).
Proof.
  split.
  - intros (Hi & [r Hr]%starts_with_spec & Hb). exists (stake i s), r.
    rewrite <- Hr, stake_sdrop, length_stake by done. done.
  - intros (l & r & Hs & <- & Hb). split_and!; [rewrite Hs, length_append; lia| |done].
    rewrite Hs, sdrop_app. apply starts_with_spec. eauto.
Qed.

Section MatchesFrom.
Context (p : string) (Hp : p ≠ "").

Lemma length_pos : 0 < String.length p.
Proof using Hp. destruct p; [done|cbn; lia]. Qed.

(** Every listed position is a match, at least [skip] bytes in, and two
    consecutive ones are disjoint. *)
Lemma matches_from_elem s i skip k :
  k ∈ matches_from p s i skip → ∃ j, k = i + j ∧ skip ≤ j ∧ matches_at p s j.
Proof using Hp.
  revert i skip; induction s as [|c s IH]; intros i skip; cbn [matches_from]; [by intros ?%elem_of_nil|].
  assert (∀ i k', k ∈ matches_from p s (S i) k' →
    ∃ j, k = i + j ∧ S k' ≤ j ∧ matches_at p (String c s) j) as Hgo.
  { intros i' k' (j & -> & ? & ?)%IH. exists (S j). rewrite matches_at_S by done. split_and!; [lia..|done]. }
  destruct skip as [|k']; [|by apply Hgo].
  destruct (starts_with p (String c s)) eqn:E.
  - intros [->|(j & -> & ? & ?)%Hgo]%elem_of_cons.
    + exists 0. rewrite matches_at_0 by done. split_and!; [lia..|done].
    + exists j. split_and!; [lia..|done].
  - intros (j & -> & ? & ?)%Hgo. exists j. split_and!; [lia..|done].
Qed.

Lemma matches_from_disjoint s i skip a b l :
  matches_from p s i skip = a :: b :: l → a + String.length p ≤ b.
Proof using Hp.
  revert i skip; induction s as [|c s IH]; intros i skip; cbn [matches_from]; [done|].
  destruct skip as [|k']; [|apply IH].
  destruct (starts_with p (String c s)); [|apply IH].
  intros [= <- Hb]. assert (b ∈ matches_from p s (S i) (Nat.pred (String.length p))) as Hin
    by (rewrite Hb; left).
  apply matches_from_elem in Hin as (j & -> & ? & _). pose proof length_pos. lia.
Qed.

(** The first listed position is the first match after the skipped bytes. *)
Lemma matches_from_first s i skip j :
  skip ≤ j → matches_at p s j →
  ∃ k l, matches_from p s i skip = k :: l ∧ k ≤ i + j
         ∧ (k + String.length p ≤ i + j → ∃ k' l', l = k' :: l' ∧ k' ≤ i + j).
Proof using Hp.
  pose proof length_pos as Hlen.
  revert i skip j; induction s as [|c s IH]; intros i skip j Hj Hm; [by apply matches_at_nil in Hm|].
  cbn [matches_from].
  destruct skip as [|k0].
  - destruct (starts_with p (String c s)) eqn:E.
    + eexists _, _. split; [done|]. split; [lia|]. intros Hk.
      destruct j as [|j]; [lia|]. apply matches_at_S in Hm; [|done].
      destruct (IH (S i) (Nat.pred (String.length p)) j) as (k & l & -> & ? & _); [lia|done|].
      eexists _, _. split; [done|lia].
    + destruct j as [|j]; [apply matches_at_0 in Hm; [congruence|done]|].
      apply matches_at_S in Hm; [|done].
      destruct (IH (S i) 0 j) as (k & l & -> & ? & Hn); [lia|done|].
      eexists _, _. split; [done|]. split; [lia|]. intros. destruct Hn as (k' & l' & -> & ?); [lia|].
      eexists _, _. split; [done|lia].
  - destruct j as [|j]; [lia|]. apply matches_at_S in Hm; [|done].
    destruct (IH (S i) k0 j) as (k & l & -> & ? & Hn); [lia|done|].
    eexists _, _. split; [done|]. split; [lia|]. intros. destruct Hn as (k' & l' & -> & ?); [lia|].
    eexists _, _. split; [done|lia].
Qed.
End MatchesFrom.

Lemma boundaries_from_elem s i : utf8 s = true →
  ∃ l, boundaries_from s i = i :: l ∧ (s = "" → l = []) ∧ (s ≠ "" → l ≠ []).
Proof.
  intros Hs%utf8_Utf8%Utf8_first. destruct s as [|c s]; cbn [starts_cont boundaries_from] in *; [by exists []|]. rewrite Hs.
  eexists. split_and!; [done..|]. intros _. clear. revert i.
  induction s as [|d s IH]; intros i; cbn; [done|]. destruct (is_cont d); [apply IH|done].
Qed.

(** The search lists one position exactly when it is the only disjoint
    match, and none exactly when nothing matches. *)
Lemma match_indices_sole p s i :
  utf8 s = true → match_indices p s = [i] ↔ sole_match p s i.
Proof.
  intros Hs. destruct (decide (p = "")) as [->|Hp].
  - cbn [match_indices]. destruct (boundaries_from_elem s 0 Hs) as (l & -> & Hn & Hc).
    unfold sole_match, reach, matches_at. cbn [String.length]. split.
    + intros [= <- ->]. destruct (decide (s = "")) as [->|Hne]; [|by destruct Hc].
      split; [split_and!; [done|done|intros; apply boundary_0]|]. intros j (? & _ & _). cbn in *. lia.
    + intros [_ H]. destruct (decide (s = "")) as [->|Hne].
      * rewrite Hn by done. destruct (H 0) as [? _]; [split_and!; [done|done|intros; apply boundary_0]|]. f_equal. lia.
      * exfalso. assert (∀ t, starts_with "" t = true) as Hall by (by intros []).
        assert (0 < String.length s) by (destruct s; cbn; [done|lia]).
        assert (i <= 0 < i + Nat.max 1 0) by (apply H; split_and!; [lia|apply Hall|intros; apply boundary_0]).
        destruct (H (String.length s)) as [? ?]; [|lia].
        split_and!; [lia|apply Hall|]. intros _. apply boundary_alt. split; [lia|].
        right. by rewrite sdrop_all by lia.
  - assert (match_indices p s = matches_from p s 0 0) as -> by (by destruct p).
    assert (reach p = String.length p) as Hr by (unfold reach; destruct p; cbn; [done|lia]).
    split.
    + intros E. assert (i ∈ matches_from p s 0 0) as Hin by (rewrite E; left).
      apply matches_from_elem in Hin as (j & -> & _ & Hm); [|done]. split; [done|].
      intros j' Hm'. rewrite Hr.
      destruct (matches_from_first p Hp s 0 0 j' (Nat.le_0_l _) Hm') as (k & l & E' & Hk & Hd).
      rewrite E in E'. injection E' as <- <-. split; [done|].
      destruct (decide (0 + j' < 0 + j + String.length p)); [done|].
      destruct Hd as (? & ? & [=] & _). lia.
    + intros [Hm H]. rewrite Hr in H.
      destruct (matches_from_first p Hp s 0 0 i (Nat.le_0_l _) Hm) as (k & l & E & Hk & _).
      assert (k ∈ matches_from p s 0 0) as Hin by (rewrite E; left).
      apply matches_from_elem in Hin as (j & -> & _ & Hj); [|done].
      pose proof (H _ Hj). rewrite E. destruct l as [|b l]; [f_equal; cbn in *; lia|]. exfalso.
      pose proof (matches_from_disjoint p Hp _ _ _ _ _ _ E).
      assert (b ∈ matches_from p s 0 0) as Hin by (rewrite E; right; left).
      apply matches_from_elem in Hin as (j' & -> & _ & Hj'); [|done]. pose proof (H _ Hj'). lia.
Qed.

Lemma match_indices_nil p s :
  utf8 s = true → match_indices p s = [] ↔ ∀ i, ¬ matches_at p s i.
Proof.
  intros Hs. destruct (decide (p = "")) as [->|Hp].
  - cbn [match_indices]. destruct (boundaries_from_elem s 0 Hs) as (l & -> & _). split; [done|].
    intros H. destruct (H 0). unfold matches_at. split_and!; [lia|by destruct s|intros; apply boundary_0].
  - assert (match_indices p s = matches_from p s 0 0) as -> by (by destruct p). split.
    + intros E i Hm. destruct (matches_from_first p Hp s 0 0 i (Nat.le_0_l _) Hm) as (? & ? & E' & _).
      congruence.
    + intros H. destruct (matches_from p s 0 0) as [|k l] eqn:E; [done|].
      assert (k ∈ matches_from p s 0 0) as Hin by (rewrite E; left).
      apply matches_from_elem in Hin as (j & -> & _ & Hj); [by destruct (H j)|done].
Qed.

(** A UTF-8 pattern found in a UTF-8 text begins and ends on character
    boundaries: the encoding synchronises itself. *)
Lemma match_on_boundaries p s l r :
  utf8 p = true → utf8 s = true → s = (l ++ p ++ r)%string →
  (p = "" → is_char_boundary s (slen l) = true) →
  is_char_boundary s (slen l) = true ∧ is_char_boundary s (slen (l ++ p)) = true.
Proof.
  intros Hpu Hs E Hb.
  assert (is_char_boundary s (slen l) = true) as Hl.
  { destruct (decide (p = "")) as [|Hp]; [by apply Hb|]. apply boundary_alt.
    split; [rewrite E, length_append; lia|]. right. rewrite E, sdrop_app.
    apply utf8_Utf8, Utf8_first in Hpu. by destruct p. }
  split; [done|]. subst s. destruct (utf8_cut _ _ Hs Hl) as [_ Hr].
  rewrite utf8_app_l in Hr by done. apply boundary_alt.
  rewrite <- append_assoc, sdrop_app. split; [rewrite (length_append (l ++ p) r); lia|].
  right. by apply Utf8_first, utf8_Utf8.
Qed.

(** ** What one operation does *)
Definition spliced (s : string) (start end_ : N) (by_ out : string) : Prop :=
  ∃ l m r, s = (l ++ m ++ r)%string ∧ slen l = start ∧ slen (l ++ m) = end_
    ∧ is_char_boundary s start = true ∧ is_char_boundary s end_ = true
    ∧ out = (l ++ by_ ++ r)%string.

Inductive edited (s out : string) : EditOp → Prop :=
  | edited_range start end_ by_ :
      spliced s start end_ by_ out → edited s out (Range start end_ by_)
  | edited_search l r before after :
      s = (l ++ before ++ r)%string → sole_match before s (String.length l) →
      out = (l ++ after ++ r)%string → edited s out (SearchReplace before after)
  | edited_region anchor base rs re by_ :
      sole_match anchor s base →
      spliced s (usize_add (N.of_nat base) rs) (usize_add (N.of_nat base) re) by_ out →
      edited s out (BoundedRegion anchor rs re by_).

(** Two matches far enough apart for the search to list both. *)
Definition ambiguous (p s : string) : Prop :=
  ∃ i j, matches_at p s i ∧ matches_at p s j ∧ i + reach p ≤ j.

Lemma splice_ok s a b by_ out : splice s a b by_ = Ok out ↔ spliced s a b by_ out.
Proof.
  unfold splice, spliced. split.
  - destruct (N.ltb_spec b a) as [|Hab]; [done|].
    destruct (is_char_boundary s a) eqn:Ha; [|done].
    destruct (is_char_boundary s b) eqn:Hb; [|done]. cbn.
    destruct (N.ltb_spec (slen s) b) as [|Hl]; [done|]. intros [= <-].
    destruct (cut_at s (N.to_nat a) (N.to_nat b)) as (l & m & r & E & Hla & Hlb);
      [lia|unfold slen in Hl; lia|].
    exists l, m, r. rewrite E, <- Hla, <- Hlb, replace_range_app.
    unfold slen. rewrite length_append. split_and!; try done; lia.
  - intros (l & m & r & E & Ha & Hb & Hba & Hbb & ->). rewrite Hba, Hbb. cbn.
    assert (slen (l ++ m) = slen l + slen m)%N as Hlm by (unfold slen; rewrite length_append; lia).
    assert (slen s = slen l + slen m + slen r)%N as Hs
      by (rewrite E; unfold slen; rewrite !length_append; lia).
    destruct (N.ltb_spec b a) as [|_]; [lia|]. destruct (N.ltb_spec (slen s) b) as [|_]; [lia|].
    f_equal. rewrite E. replace (N.to_nat a) with (String.length l) by (unfold slen in *; lia).
    replace (N.to_nat b) with (String.length l + String.length m) by (unfold slen in *; lia).
    apply replace_range_app.
Qed.

Lemma splice_err s a b by_ e : splice s a b by_ = Err e → e = Malformed.
Proof. unfold splice. repeat case_match; naive_solver. Qed.

Lemma match_indices_many p s i j l :
  utf8 s = true → match_indices p s = i :: j :: l → ambiguous p s.
Proof.
  intros Hs E. destruct (decide (p = "")) as [->|Hp].
  - cbn [match_indices] in E. exists 0, (String.length s).
    destruct (boundaries_from_elem s 0 Hs) as (l' & E' & Hn & _).
    assert (s ≠ "") as Hne by (intros He; rewrite Hn in E'; [congruence|done]).
    assert (∀ t, starts_with "" t = true) as Hall by (by intros []).
    split_and!; [split_and!; [lia|apply Hall|intros; apply boundary_0]| |].
    + split_and!; [lia|apply Hall|]. intros _. apply boundary_alt. split; [lia|].
      right. by rewrite sdrop_all by lia.
    + unfold reach. destruct s; [done|cbn; lia].
  - assert (match_indices p s = matches_from p s 0 0) as Em by (by destruct p).
    rewrite Em in E. pose proof (matches_from_disjoint p Hp _ _ _ _ _ _ E).
    assert (i ∈ matches_from p s 0 0 ∧ j ∈ matches_from p s 0 0) as [Hi Hj]
      by (rewrite E; split; [left|right; left]).
    apply matches_from_elem in Hi as (i' & -> & _ & ?); [|done].
    apply matches_from_elem in Hj as (j' & -> & _ & ?); [|done].
    exists i', j'. split_and!; [done..|].
    pose proof (length_pos p Hp). unfold reach. lia.
Qed.

Lemma ambiguous_not_sole p s i : ambiguous p s → ¬ sole_match p s i.
Proof. intros (a & b & Ha & Hb & Hr) [_ H]. apply H in Ha, Hb. lia. Qed.

(** The list of matches, by what it says of the text. *)
Lemma match_indices_cases p s :
  utf8 s = true →
  (match_indices p s = [] ∧ ∀ i, ¬ matches_at p s i)
  ∨ (∃ i, match_indices p s = [i] ∧ sole_match p s i)
  ∨ (∃ i j l, match_indices p s = i :: j :: l ∧ ambiguous p s).
Proof.
  intros Hs. destruct (match_indices p s) as [|i [|j l]] eqn:E.
  - left. split; [done|]. by apply match_indices_nil.
  - right; left. exists i. split; [done|]. by apply match_indices_sole.
  - right; right. exists i, j, l. split; [done|]. by eapply match_indices_many.
Qed.

(** [apply_op] on every text: the search and the wrapping addition as they
    are, overlapping occurrences and huge offsets included. *)
Lemma apply_op_cases buf op (Hu : utf8 buf = true) :
  (∀ out, apply_op buf op = Ok out ↔ edited buf out op)
  ∧ (apply_op buf op = Err Conflict ↔
     match op with
     | Range _ _ _ => False
     | SearchReplace before _ => ambiguous before buf
     | BoundedRegion anchor _ _ _ => ∀ i, ¬ sole_match anchor buf i
     end)
  ∧ (∀ e, apply_op buf op = Err e → e = Conflict ∨ e = Malformed).
Proof.
  destruct op as [a b by_|before after|anchor rs re by_]; cbn [apply_op].
  - split_and!.
    + intros out. rewrite splice_ok. split; [by constructor|by inversion 1].
    + split; [|done]. intros H%splice_err. done.
    + intros e ->%splice_err. by right.
  - destruct (match_indices_cases before buf Hu) as [[E Hm]|[(i & E & Hm)|(i & j & l & E & Hm)]];
      rewrite E; split_and!.
    + intros out. split; [done|]. inversion 1 as [|l r ? ? _ [Hl _]|]; subst. by destruct (Hm _ Hl).
    + split; [done|]. intros (i & _ & Hi & _). by destruct (Hm i).
    + naive_solver.
    + intros out. destruct Hm as [Hm Hs]. split.
      * intros [= <-]. pose proof Hm as (l & r & Eb & <- & _)%matches_at_app.
        eapply edited_search; [done| |by rewrite Eb, replace_range_app]. done.
      * inversion 1 as [|l r ? ? Eb [Hl Hs'] Eo|]; subst.
        assert (String.length l = i) as <-; [|by rewrite replace_range_app].
        apply Hs in Hl. apply Hs' in Hm. lia.
    + split; [done|]. intros Ha. by destruct (ambiguous_not_sole _ _ i Ha).
    + done.
    + intros out. split; [done|]. inversion 1 as [|? ? ? ? _ Hs|]; subst.
      by destruct (ambiguous_not_sole _ _ _ Hm Hs).
    + done.
    + naive_solver.
  - destruct (match_indices_cases anchor buf Hu) as [[E Hm]|[(i & E & Hm)|(i & j & l & E & Hm)]];
      rewrite E; split_and!.
    + intros out. split; [done|]. inversion 1 as [| |? ? ? ? ? [Hl _]]; subst. by destruct (Hm _ Hl).
    + split; [|done]. intros _ i [Hi _]. by destruct (Hm i).
    + naive_solver.
    + intros out. rewrite splice_ok. split; [by econstructor|].
      inversion 1 as [| |? base ? ? ? Hb]; subst.
      assert (base = i) as ->; [|done]. destruct Hm as [Hm Hs], Hb as [Hb Hs'].
      apply Hs in Hb. apply Hs' in Hm. lia.
    + split; [|by intros H; destruct (H i)]. intros H%splice_err. done.
    + intros e ->%splice_err. by right.
    + intros out. split; [done|]. inversion 1 as [| |? ? ? ? ? Hs]; subst.
      by destruct (ambiguous_not_sole _ _ _ Hm Hs).
    + split; [|done]. intros _ k Hk. by destruct (ambiguous_not_sole _ _ _ Hm Hk).
    + naive_solver.
Qed.

(** ** The contract
    What the doc of [EditOp] promises: the text to replace, or the anchor,
    occurs exactly once, and a region is counted from the anchor's start.  It
    holds on the operations below; the two examples at the end of the file
    show what [apply_op] does to the others. *)
Definition once (p s : string) (i : nat) : Prop :=
  matches_at p s i ∧ ∀ j, matches_at p s j → j = i.

Definition repeated (p s : string) : Prop :=
  ∃ i j, i < j ∧ matches_at p s i ∧ matches_at p s j.

(** No two occurrences of [p] in [s] overlap. *)
Definition apart (p s : string) : Prop :=
  ∀ i j, matches_at p s i → matches_at p s j → i < j → i + reach p ≤ j.

(** The operation's text does not overlap itself in [s], and its offsets do
    not leave the machine word. *)
Definition plain_op (s : string) (op : EditOp) : Prop :=
  match op with
  | Range _ _ _ => True
  | SearchReplace before _ => apart before s
  | BoundedRegion anchor rs re _ =>
      apart anchor s ∧ (slen s + rs < 2 ^ 64)%N ∧ (slen s + re < 2 ^ 64)%N
  end.

Inductive performed (s out : string) : EditOp → Prop :=
  | performed_range start end_ by_ :
      spliced s start end_ by_ out → performed s out (Range start end_ by_)
  | performed_search l r before after :
      s = (l ++ before ++ r)%string → once before s (String.length l) →
      out = (l ++ after ++ r)%string → performed s out (SearchReplace before after)
  | performed_region anchor base rs re by_ :
      once anchor s base →
      spliced s (N.of_nat base + rs) (N.of_nat base + re) by_ out →
      performed s out (BoundedRegion anchor rs re by_).

Lemma reach_pos p : 0 < reach p.
Proof. unfold reach. lia. Qed.

Lemma apart_once p s i : apart p s → sole_match p s i ↔ once p s i.
Proof.
  intros Ha. pose proof (reach_pos p). split; intros [Hi Hj]; (split; [done|]); intros j Hm.
  - destruct (Hj j Hm). destruct (decide (i = j)) as [|Hn]; [done|].
    pose proof (Ha i j Hi Hm ltac:(lia)). lia.
  - rewrite (Hj j Hm). lia.
Qed.

Lemma apart_repeated p s : apart p s → ambiguous p s ↔ repeated p s.
Proof.
  intros Ha. pose proof (reach_pos p). split.
  - intros (i & j & Hi & Hj & ?). exists i, j. split_and!; [lia|done..].
  - intros (i & j & ? & Hi & Hj). exists i, j. split_and!; [done..|by apply Ha].
Qed.

Lemma usize_add_small s base rs :
  (N.of_nat base ≤ slen s)%N → (slen s + rs < 2 ^ 64)%N →
  usize_add (N.of_nat base) rs = (N.of_nat base + rs)%N.
Proof. intros. apply N.mod_small. lia. Qed.

Lemma edited_performed buf out op : plain_op buf op → edited buf out op ↔ performed buf out op.
Proof.
  destruct op as [a b by_|before after|anchor rs re by_]; cbn.
  - split; inversion 1; by constructor.
  - intros Ha. split; inversion 1; subst; econstructor; try done; by apply apart_once.
  - intros (Ha & Hrs & Hre).
    assert (∀ base, matches_at anchor buf base → (N.of_nat base ≤ slen buf)%N) as Hb.
    { intros base (? & _). unfold slen. lia. }
    split; inversion 1 as [| |? base ? ? ? Hm Hs]; subst; pose proof (Hb _ (proj1 Hm)) as Hl;
      econstructor; try (by apply apart_once); revert Hs;
      by rewrite !(usize_add_small buf) by done.
Qed.

(** C34: one edit operation does exactly what it says, and nothing else.  On a
    UTF-8 text in which the operation's search text or anchor does not overlap
    itself, and with offsets that do not leave the 64-bit word, [apply_op]
    succeeds with [out] if and only if [out] is the text with the addressed
    byte range, the one occurrence of the search text, or the region counted
    from the start of the one occurrence of the anchor, replaced; it answers
    [Conflict] exactly when the search text occurs more than once or the
    anchor does not occur exactly once, and every other failure is
    [Malformed]. *)
Theorem apply_op_exact buf op (Hu : utf8 buf = true) (Hplain : plain_op buf op) :
  (∀ out, apply_op buf op = Ok out ↔ performed buf out op)
  ∧ (apply_op buf op = Err Conflict ↔
     match op with
     | Range _ _ _ => False
     | SearchReplace before _ => repeated before buf
     | BoundedRegion anchor _ _ _ => ∀ i, ¬ once anchor buf i
     end)
  ∧ (∀ e, apply_op buf op = Err e → e = Conflict ∨ e = Malformed).
Proof.
  destruct (apply_op_cases buf op Hu) as (Hok & Hc & He). split_and!; [|rewrite Hc|done].
  - intros out. rewrite Hok. by apply edited_performed.
  - destruct op as [| |anchor]; cbn in Hplain; [done|by apply apart_repeated|].
    destruct Hplain as [Ha _]. split; intros H i Hi; by apply (H i), apart_once.
Qed.

Definition op_utf8 (op : EditOp) : bool := utf8 (pattern_of op) && utf8 (replacement_of op).

Lemma spliced_utf8 s a b by_ out :
  utf8 s = true → utf8 by_ = true → spliced s a b by_ out → utf8 out = true.
Proof. intros Hs Hy (l & m & r & -> & <- & <- & Ha & Hb & ->). by eapply utf8_splice. Qed.

Lemma apply_op_utf8 buf op out :
  utf8 buf = true → op_utf8 op = true → apply_op buf op = Ok out → utf8 out = true.
Proof.
  intros Hb [Hp Hr]%andb_prop. destruct op as [a b by_|before after|anchor rs re by_]; cbn in *.
  - intros H%splice_ok. exact (spliced_utf8 _ _ _ _ _ Hb Hr H).
  - destruct (match_indices_cases before buf Hb) as [[E _]|[(i & E & Hm & _)|(i & j & l & E & _)]];
      rewrite E; [done| |done]. intros [= <-].
    apply matches_at_app in Hm as (l & r & -> & <- & Hbd). rewrite replace_range_app.
    destruct (match_on_boundaries before _ l r Hp Hb eq_refl Hbd) as [H1 H2].
    exact (utf8_splice _ _ _ _ Hb Hr H1 H2).
  - destruct (match_indices anchor buf) as [|i [|]]; [done| |done].
    intros H%splice_ok. exact (spliced_utf8 _ _ _ _ _ Hb Hr H).
Qed.

(** C35: editing keeps a file's type. Whatever sequence of operations is
    applied, a valid UTF-8 text edited by valid UTF-8 arguments is a valid
    UTF-8 text: no operation ever splits a code point, although matches and
    regions are found by byte offsets. *)
Theorem apply_ops_utf8 buf ops out
  (Hb : utf8 buf = true) (Hops : Forall (λ op, op_utf8 op = true) ops)
  (Hok : apply_ops buf ops = Ok out) : utf8 out = true.
Proof.
  revert buf Hb Hok. induction Hops as [|op ops Ho _ IH]; intros buf Hb Hok; cbn in Hok; [congruence|].
  apply rbind_Ok in Hok as (buf' & H1 & H2). eapply IH; [|done]. by eapply apply_op_utf8.
Qed.

Lemma apply_ops_app buf ops ops' :
  apply_ops buf (ops ++ ops') = (buf' <-? apply_ops buf ops; apply_ops buf' ops').
Proof.
  revert buf; induction ops as [|op ops IH]; intros buf; [done|]. cbn.
  destruct (apply_op buf op); cbn; [apply IH|done].
Qed.

(** The search counts occurrences that do not overlap, so a text holding two
    overlapping occurrences of [before] is edited at the first one. *)
Example overlapping_occurrences_accepted :
  apply_op "aaa" (SearchReplace "aa" "b") = Ok "ba" ∧ matches_at "aa" "aaa" 0
  ∧ matches_at "aa" "aaa" 1.
Proof. split; [done|]. split; (split; [cbn; lia|done]). Qed.

(** A region offset past 2^64 wraps to a position before the anchor. *)
Example region_wraps_before_anchor :
  apply_op "abcX" (BoundedRegion "X" (2 ^ 64 - 3) (2 ^ 64 - 2) "z") = Ok "zbcX".
Proof. by vm_compute. Qed.

(** The third check of [splice] never fires: an offset past the end is no
    character boundary. *)
Lemma end_check_unreachable buf b :
  is_char_boundary buf b = true → (slen buf <? b)%N = false.
Proof. unfold is_char_boundary. intros [H%N.leb_le _]%andb_prop. by apply N.ltb_ge. Qed.

Example apply_ops_utf8_witness :
  apply_ops "abcabd" [SearchReplace "abd" "x"; Range 0 1 "y"] = Ok "ybcx"
  ∧ utf8 "ybcx" = true.
Proof.
  split; [by vm_compute|].
  apply (apply_ops_utf8 "abcabd" [SearchReplace "abd" "x"; Range 0 1 "y"]);
    [done|by repeat constructor|by vm_compute].
Defined.

Lemma apart_abd : apart "abd" "abcabd" ∧ apart "X" "abcX".
Proof.
  assert (∀ p s l i, match_indices p s = [l] → utf8 s = true → matches_at p s i → l ≤ i < l + reach p) as H.
  { intros p s l i E Hs Hi. apply (proj1 (match_indices_sole p s l Hs)) in E. by apply E. }
  split; intros i j Hi Hj Hij.
  - destruct (H "abd" "abcabd" 3 i eq_refl eq_refl Hi), (H "abd" "abcabd" 3 j eq_refl eq_refl Hj).
    destruct Hi as (? & Hi & _). assert (i = 3 ∨ i = 4 ∨ i = 5) as [E|[E|E]]
      by (unfold reach in *; cbn in *; lia); subst i; [|by vm_compute in Hi..].
    destruct Hj as (? & Hj & _). assert (j = 4 ∨ j = 5) as [E|E] by (unfold reach in *; cbn in *; lia); subst j;
      by vm_compute in Hj.
  - destruct (H "X" "abcX" 3 i eq_refl eq_refl Hi), (H "X" "abcX" 3 j eq_refl eq_refl Hj).
    unfold reach in *. cbn in *. lia.
Qed.

(** A search and a region counted from its anchor, both performed. *)
Lemma apply_op_exact_witness :
  apply_op "abcabd" (SearchReplace "abd" "x") = Ok "abcx"
  ∧ performed "abcX" "abcXz" (BoundedRegion "X" 1 1 "z").
Proof.
  split.
  - apply (apply_op_exact "abcabd" (SearchReplace "abd" "x") eq_refl (proj1 apart_abd)).
    apply (performed_search "abcabd" "abcx" "abc" "" "abd" "x"); [done| |done].
    apply (apart_once _ _ _ (proj1 apart_abd)), match_indices_sole; done.
  - apply (apply_op_exact "abcX" (BoundedRegion "X" 1 1 "z") eq_refl); [|by vm_compute].
    split; [exact (proj2 apart_abd)|done].
Defined.
