(* ===== verification/EditSyntax.v ===== *)
(** * Parse-before-accept

    [check_syntax] of [crates/edit/src/lib.rs] and what it calls:
    [language_for] (with [Path::extension] of the standard library),
    [parse_ok], [first_parse_error] and its tree walk.  The grammars and the
    parser are tree-sitter's: [set_language] and [parse] are parameters. *)
From S2P Require Import Prelude Strings.
#[local] Open Scope string_scope.
#[local] Open Scope nat_scope.

(** ** [Path::extension] (Unix) *)

(** The last component, when it is a name. *)
Definition file_name (path : string) : option string :=
  match last (filter (λ c, c ≠ "" ∧ c ≠ ".") (split_on is_slash path)) with
  | Some c => if bool_decide (c = "..") then None else Some c
  | None => None
  end.

(** The text before and after the last dot. *)
Fixpoint rsplit_dot (s : string) : option (string * string) :=
  match s with
  | EmptyString => None
  | String c s' =>
      match rsplit_dot s' with
      | Some (b, a) => Some (String c b, a)
      | None => if bool_decide (c = "."%char) then Some ("", s') else None
      end
  end.

Definition extension (path : string) : option string :=
  match file_name path with
  | Some f => match rsplit_dot f with Some (b, a) => if bool_decide (b = "") then None else Some a | None => None end
  | None => None
  end.

Inductive Language := LRust | LPython | LTypescript | LTsx | LJavascript | LGo | LJava.

Definition language_for (rel : string) : option Language :=
  match extension rel with
  | Some e =>
      if bool_decide (e = "rs") then Some LRust
      else if bool_decide (e = "py") then Some LPython
      else if bool_decide (e = "ts") then Some LTypescript
      else if bool_decide (e = "tsx") then Some LTsx
      else if bool_decide (e = "js") then Some LJavascript
      else if bool_decide (e = "go") then Some LGo
      else if bool_decide (e = "java") then Some LJava
      else None
  | None => None
  end.

(** ** The syntax tree *)
Inductive Node :=
  | MkNode (is_error is_missing : bool) (row : N) (node_kind text : string)
      (children : list Node).

Inductive ParseError :=
  | GrammarUnavailable
  | MissingNode (row : N) (node_kind : string)
  | Unexpected (row : N) (text node_kind : string).

Definition issue_of (n : Node) : option (N * ParseError) :=
  match n with
  | MkNode e m row k t _ =>
      if e || m then Some (row, if m then MissingNode (row + 1) k else Unexpected (row + 1) t k)
      else None
  end.

(** Keep the first issue of the lowest row. *)
Definition keep (first : option (N * ParseError)) (i : N * ParseError) : option (N * ParseError) :=
  match first with
  | Some (k, e) => if (i.1 <? k)%N then Some i else Some (k, e)
  | None => Some i
  end.

Fixpoint walk_tree (n : Node) (first : option (N * ParseError)) {struct n} : option (N * ParseError) :=
  match n with
  | MkNode _ _ _ _ _ children =>
      fold_left (λ f c, walk_tree c f) children
        (match issue_of n with Some i => keep first i | None => first end)
  end.

Section Parser.
Variable set_language : Language → bool.
Variable parse : Language → string → option Node.

Definition first_parse_error (lang : Language) (src : string) : option ParseError :=
  if negb (set_language lang) then Some GrammarUnavailable
  else match parse lang src with
       | Some root => option_map snd (walk_tree root None)
       | None => None
       end.

Definition parse_ok (lang : Language) (src : string) : bool :=
  match first_parse_error lang src with None => true | Some _ => false end.

Definition check_syntax (rel original edited : string) : bool * option ParseError :=
  match language_for rel with
  | None => (false, None)
  | Some lang =>
      if negb (parse_ok lang original) then (false, None)
      else match first_parse_error lang edited with
           | Some err => (true, Some err)
           | None => (false, None)
           end
  end.

Lemma check_syntax_suspicious rel original edited :
  (check_syntax rel original edited).1 = true ↔
  ∃ lang, language_for rel = Some lang ∧ parse_ok lang original = true
          ∧ parse_ok lang edited = false.
Proof.
  unfold check_syntax, parse_ok. destruct (language_for rel) as [lang|]; [|naive_solver].
  destruct (first_parse_error lang original) eqn:E1;
    destruct (first_parse_error lang edited) eqn:E2; cbn; split; try done.
  - intros (? & [= <-] & H & _). by rewrite E1 in H.
  - intros (? & [= <-] & H & _). by rewrite E1 in H.
  - intros _. exists lang. by rewrite E1, E2.
  - intros (? & [= <-] & _ & H). by rewrite E2 in H.
Qed.

(** An edit that changes nothing is never suspicious. *)
Lemma check_syntax_same rel src : check_syntax rel src src = (false, None).
Proof.
  unfold check_syntax, parse_ok. destruct (language_for rel); [|done].
  by destruct (first_parse_error l src).
Qed.
End Parser.

(** ** The walk reports the first issue of the lowest row *)
Fixpoint issues (n : Node) : list (N * ParseError) :=
  match n with
  | MkNode _ _ _ _ _ children =>
      match issue_of n with Some i => [i] | None => [] end
      ++ (fix go cs := match cs with [] => [] | c :: cs' => issues c ++ go cs' end) children
  end%list.

Section NodeInd.
Variable P : Node → Prop.
Hypothesis step : ∀ e m row k t cs, Forall P cs → P (MkNode e m row k t cs).

Fixpoint Node_nested_ind (n : Node) : P n :=
  match n with
  | MkNode e m row k t cs =>
      step e m row k t cs
        ((fix go cs := match cs return Forall P cs with
                       | [] => Forall_nil_2 P
                       | c :: cs' => Forall_cons_2 P c cs' (Node_nested_ind c) (go cs')
                       end) cs)
  end.
End NodeInd.

Lemma walk_issues n : ∀ first, walk_tree n first = fold_left keep (issues n) first.
Proof.
  induction n as [e m row k t cs IH] using Node_nested_ind. intros first. cbn [walk_tree issues].
  rewrite fold_left_app.
  replace (fold_left keep (match issue_of (MkNode e m row k t cs) with Some i => [i] | None => [] end) first)
    with (match issue_of (MkNode e m row k t cs) with Some i => keep first i | None => first end)
    by (by destruct (issue_of _)).
  generalize (match issue_of (MkNode e m row k t cs) with Some i => keep first i | None => first end).
  induction IH as [|c cs Hc _ IHc]; intros f; cbn; [done|]. by rewrite fold_left_app, <- Hc.
Qed.

Lemma fold_keep_spec xs first r :
  fold_left keep xs first = Some r →
  (first = Some r ∨ r ∈ xs) ∧ (∀ i, first = Some i → (r.1 <= i.1)%N)
  ∧ ∀ i, i ∈ xs → (r.1 <= i.1)%N.
Proof.
  revert first; induction xs as [|i xs IH]; intros first H; cbn in H.
  { subst. split_and!; [by left|by intros ? [= ->]|by intros ? ?%elem_of_nil]. }
  destruct (IH _ H) as (Hin & Hf & Hall). destruct first as [[k e]|]; cbn in *.
  - destruct (N.ltb_spec i.1 k) as [Hk|Hk]; pose proof (Hf _ eq_refl) as Hr; cbn in Hr.
    + split_and!.
      * right. destruct Hin as [[= ->]|]; [left|by right].
      * intros ? [= <-]. cbn. lia.
      * intros j [->|Hj]%elem_of_cons; [done|by apply Hall].
    + split_and!.
      * destruct Hin as [[= <-]|]; [by left|right; by right].
      * by intros ? [= <-].
      * intros j [->|Hj]%elem_of_cons; [lia|by apply Hall].
  - split_and!; [|done|].
    + right. destruct Hin as [[= ->]|]; [left|by right].
    + intros j [->|Hj]%elem_of_cons; [by apply Hf|by apply Hall].
Qed.

(** The walk finds nothing exactly in a tree without error or missing nodes,
    and otherwise an issue no other one precedes by row. *)
Lemma walk_lowest n :
  (walk_tree n None = None ↔ issues n = [])
  ∧ ∀ r, walk_tree n None = Some r → r ∈ issues n ∧ ∀ i, i ∈ issues n → (r.1 <= i.1)%N.
Proof.
  rewrite walk_issues. split.
  - split; [|by intros ->]. destruct (issues n) as [|i xs]; [done|]. intros H.
    exfalso. cbn in H. revert i H.
    induction xs as [|j xs IH]; intros i H; [done|]. cbn in H. destruct i as [k e].
    destruct (j.1 <? k)%N; by eapply IH.
  - intros r (Hin & _ & Hall)%fold_keep_spec. by destruct Hin.
Qed.
