(* ===== verification/EditJournal.v ===== *)
(** * The session ledger's edit-transaction rows

    The durable side of a multi-file edit: the [edit_txn_*] operations of
    [crates/session/src/ledger/mod.rs], the row validators of
    [validation.rs], the read-back of the open transactions
    ([ledger_open_edit_txns]) and what [compact_typed_ledger] keeps of them.
    A ledger is the stream of its decoded rows, oldest first; rows of other
    kinds are [LOther].  The size of a row's JSON text is serde_json's and
    enters as the parameter [payload_bytes]. *)
From S2P Require Import Prelude Strings Bytes AgentMachine EditOps.
From stdpp Require Import sorting.
#[local] Open Scope string_scope.
#[local] Open Scope nat_scope.

Definition MAX_LEDGER_TEXT : N := 4096.
Definition MAX_LEDGER_ENTRY_BYTES : N := 16384.
Definition MAX_EDIT_TXN_FILES : N := 2000.
Definition MAX_EDIT_TXN_SESSION_BYTES : N := 128.
Definition MAX_EDIT_TXN_TERMINAL_PATHS : N := MAX_EDIT_TXN_FILES.
Definition EDIT_TXN_STRATEGY_ROLL_FORWARD := "roll_forward".
Definition EDIT_TXN_STRATEGY_ROLL_BACK := "roll_back".
Definition EDIT_TXN_OUTCOME_COMMITTED := "committed".
Definition EDIT_TXN_OUTCOME_CONFLICTED := "conflicted".

(** ** Rows *)
Record EditTxnLedgerFile := MkLedgerFile {
  lf_path : string; lf_base_digest : string; lf_base_bytes_len : N
}.

Inductive LedgerPayload :=
  | EditTxnPrepared (txn_id : N) (session : string) (files : list EditTxnLedgerFile)
      (strategy : string)
  | EditTxnProgress (txn_id seq : N) (path row_outcome : string)
  | EditTxnCommitted (txn_id : N) (committed conflicted skipped : list string)
  | EditTxnRolledBack (txn_id : N) (rolled_back rollback_conflicts : list string)
  | LOther.

Record EditTxnOpenProgress := MkOpenProgress { op_seq : N; op_path : string; op_outcome : string }.

Record EditTxnOpenRow := MkOpenRow {
  or_txn_id : N;
  or_session : string;
  or_strategy : string;
  or_files : list EditTxnLedgerFile;
  or_progress : list EditTxnOpenProgress
}.

Definition check_text (value : string) : result unit ErrorKind :=
  if bool_decide (value = "") then Err Malformed
  else if (MAX_LEDGER_TEXT <? slen value)%N then Err Oversized
  else Ok tt.

Fixpoint check_each {A} (f : A → result unit ErrorKind) (l : list A) : result unit ErrorKind :=
  match l with
  | [] => Ok tt
  | a :: l' => f a ;? check_each f l'
  end.

Definition check_file (f : EditTxnLedgerFile) : result unit ErrorKind :=
  check_text (lf_path f) ;?
  match from_hex (lf_base_digest f) with None => Err Malformed | Some _ => Ok tt end.

Definition validate_edit_txn_prepared (txn_id : N) (session : string)
    (files : list EditTxnLedgerFile) (strategy : string) : result unit ErrorKind :=
  if (txn_id =? 0)%N then Err Malformed
  else if bool_decide (session = "") || (MAX_EDIT_TXN_SESSION_BYTES <? slen session)%N
  then Err Malformed
  else if bool_decide (List.length files = 0) then Err Malformed
  else if (MAX_EDIT_TXN_FILES <? N.of_nat (List.length files))%N then Err Oversized
  else if negb (bool_decide (strategy = EDIT_TXN_STRATEGY_ROLL_FORWARD)
                || bool_decide (strategy = EDIT_TXN_STRATEGY_ROLL_BACK))
  then Err Malformed
  else check_each check_file files.

Definition check_edit_txn_path_list (l : list string) : result unit ErrorKind :=
  if (MAX_EDIT_TXN_TERMINAL_PATHS <? N.of_nat (List.length l))%N then Err Oversized
  else check_each check_text l.

Definition check_outcome (o : string) : result unit ErrorKind :=
  if bool_decide (o = EDIT_TXN_OUTCOME_COMMITTED) || bool_decide (o = EDIT_TXN_OUTCOME_CONFLICTED)
  then Ok tt else Err Malformed.

Section Ledger.
Variable payload_bytes : LedgerPayload → N.   (* serde_json *)

Definition check_payload_bytes (p : LedgerPayload) : result unit ErrorKind :=
  if (MAX_LEDGER_ENTRY_BYTES <? payload_bytes p)%N then Err Oversized else Ok tt.

Definition append_entry (p : LedgerPayload) (es : list LedgerPayload)
    : result (list LedgerPayload) ErrorKind :=
  check_payload_bytes p ;? Ok (es ++ [p])%list.

Definition ledger_edit_txn_prepared (txn_id : N) (session : string)
    (files : list EditTxnLedgerFile) (strategy : string) (es : list LedgerPayload)
    : result (list LedgerPayload) ErrorKind :=
  validate_edit_txn_prepared txn_id session files strategy ;?
  append_entry (EditTxnPrepared txn_id session files strategy) es.

Definition ledger_edit_txn_progress (txn_id seq : N) (path row_outcome : string)
    (es : list LedgerPayload) : result (list LedgerPayload) ErrorKind :=
  if (txn_id =? 0)%N then Err Malformed
  else check_text path ;? check_outcome row_outcome ;?
       append_entry (EditTxnProgress txn_id seq path row_outcome) es.

Definition ledger_edit_txn_committed (txn_id : N) (committed conflicted skipped : list string)
    (es : list LedgerPayload) : result (list LedgerPayload) ErrorKind :=
  if (txn_id =? 0)%N then Err Malformed
  else check_each check_edit_txn_path_list [committed; conflicted; skipped] ;?
       append_entry (EditTxnCommitted txn_id committed conflicted skipped) es.

Definition ledger_edit_txn_rolled_back (txn_id : N) (rolled_back rollback_conflicts : list string)
    (es : list LedgerPayload) : result (list LedgerPayload) ErrorKind :=
  if (txn_id =? 0)%N then Err Malformed
  else check_each check_edit_txn_path_list [rolled_back; rollback_conflicts] ;?
       append_entry (EditTxnRolledBack txn_id rolled_back rollback_conflicts) es.
End Ledger.

(** ** Reading the open transactions back *)
Inductive Phase := Prepared | Terminal.
#[global] Instance Phase_eq_dec : EqDecision Phase.
Proof. solve_decision. Defined.

Record ProgressRow := MkProgressRow { pg_txn_id : N; pg_row : EditTxnOpenProgress }.

Record OpenFold := MkFold {
  phase : gmap N Phase;
  prepared : gmap N (list EditTxnLedgerFile * string * string);
  progress : list ProgressRow
}.
Definition fold_new : OpenFold := MkFold ∅ ∅ [].

Definition terminal_row (txn_id : N) (st : OpenFold) : result OpenFold ErrorKind :=
  if negb (bool_decide (is_Some (prepared st !! txn_id))) then Err Conflict
  else if bool_decide (phase st !! txn_id = Some Terminal) then Err Malformed
  else Ok (MkFold (<[txn_id := Terminal]> (phase st)) (prepared st) (progress st)).

Definition fold_row (st : OpenFold) (p : LedgerPayload) : result OpenFold ErrorKind :=
  match p with
  | EditTxnPrepared txn_id session files strategy =>
      validate_edit_txn_prepared txn_id session files strategy ;?
      if bool_decide (is_Some (phase st !! txn_id)) then Err Malformed
      else Ok (MkFold (<[txn_id := Prepared]> (phase st))
                 (<[txn_id := (files, session, strategy)]> (prepared st)) (progress st))
  | EditTxnProgress txn_id seq path row_outcome =>
      if (txn_id =? 0)%N then Err Malformed
      else
        check_text path ;? check_outcome row_outcome ;?
        if negb (bool_decide (phase st !! txn_id = Some Prepared)) then Err Malformed
        else Ok (MkFold (phase st) (prepared st)
                   (progress st ++
                      [MkProgressRow txn_id (MkOpenProgress seq path row_outcome)])%list)
  | EditTxnCommitted txn_id committed conflicted skipped =>
      check_each check_edit_txn_path_list [committed; conflicted; skipped] ;?
      terminal_row txn_id st
  | EditTxnRolledBack txn_id rolled_back rollback_conflicts =>
      check_each check_edit_txn_path_list [rolled_back; rollback_conflicts] ;?
      terminal_row txn_id st
  | LOther => Ok st
  end.

Fixpoint fold_rows (st : OpenFold) (es : list LedgerPayload) : result OpenFold ErrorKind :=
  match es with
  | [] => Ok st
  | p :: es' => st' <-? fold_row st p; fold_rows st' es'
  end.

(** [progress_by_txn.entry(row.txn_id).or_default().push(row)] *)
Definition progress_by_txn (rows : list ProgressRow) : gmap N (list EditTxnOpenProgress) :=
  foldl (λ m r, <[pg_txn_id r := (default [] (m !! pg_txn_id r) ++ [pg_row r])%list]> m) ∅ rows.

Definition check_progress_row (files : list EditTxnLedgerFile) (r : EditTxnOpenProgress)
    : result unit ErrorKind :=
  if (N.of_nat (List.length files) <=? op_seq r)%N then Err Malformed
  else match files !! N.to_nat (op_seq r) with
       | Some f => if bool_decide (lf_path f = op_path r) then Ok tt else Err Malformed
       | None => Err Malformed
       end.

Definition seq_le (a b : EditTxnOpenProgress) : Prop := (op_seq a <= op_seq b)%N.
#[global] Instance seq_le_dec : RelDecision seq_le.
Proof. intros a b. unfold seq_le. apply _. Defined.

(** [windows(2)] finds two neighbours with one seq. *)
Fixpoint has_twin (l : list EditTxnOpenProgress) : bool :=
  match l with
  | a :: ((b :: _) as l') => (op_seq a =? op_seq b)%N || has_twin l'
  | _ => false
  end.

Definition open_row (by_txn : gmap N (list EditTxnOpenProgress)) (txn_id : N)
    (files : list EditTxnLedgerFile) (session strategy : string)
    : result EditTxnOpenRow ErrorKind :=
  let rows := default [] (by_txn !! txn_id) in
  check_each (check_progress_row files) rows ;?
  let sorted := merge_sort seq_le rows in
  if has_twin sorted then Err Malformed
  else Ok (MkOpenRow txn_id session strategy files sorted).

Definition id_le (a b : N * (list EditTxnLedgerFile * string * string)) : Prop := (a.1 <= b.1)%N.
#[global] Instance id_le_dec : RelDecision id_le.
Proof. intros a b. unfold id_le. apply _. Defined.

Fixpoint open_rows (phase : gmap N Phase) (by_txn : gmap N (list EditTxnOpenProgress))
    (txns : list (N * (list EditTxnLedgerFile * string * string)))
    : result (list EditTxnOpenRow) ErrorKind :=
  match txns with
  | [] => Ok []
  | (txn_id, (files, session, strategy)) :: txns' =>
      if bool_decide (phase !! txn_id = Some Terminal) then open_rows phase by_txn txns'
      else
        r <-? open_row by_txn txn_id files session strategy;
        rs <-? open_rows phase by_txn txns';
        Ok (r :: rs)
  end.

(** The [BTreeMap] of prepared rows is walked by ascending id, so the final
    sort of the source changes nothing. *)
Definition ledger_open_edit_txns (es : list LedgerPayload)
    : result (list EditTxnOpenRow) ErrorKind :=
  st <-? fold_rows fold_new es;
  open_rows (phase st) (progress_by_txn (progress st))
    (merge_sort id_le (map_to_list (prepared st))).

(** ** What a compaction keeps: of this subsystem, the prepared and progress
    rows of the transactions that are still open *)
Definition prepared_id (p : LedgerPayload) : option N :=
  match p with EditTxnPrepared id _ _ _ => Some id | _ => None end.
Definition terminal_id (p : LedgerPayload) : option N :=
  match p with EditTxnCommitted id _ _ _ | EditTxnRolledBack id _ _ => Some id | _ => None end.
Definition open_ids (es : list LedgerPayload) : gset N :=
  list_to_set (omap prepared_id es) ∖ list_to_set (omap terminal_id es).

Definition pinned (open : gset N) (p : LedgerPayload) : bool :=
  match p with
  | EditTxnPrepared id _ _ _ | EditTxnProgress id _ _ _ => bool_decide (id ∈ open)
  | _ => false
  end.

Definition compact (es : list LedgerPayload) : list LedgerPayload :=
  filter (λ p, pinned (open_ids es) p = true) es.
