(* ===== verification/EditJournalThms.v ===== *)
(** * The open transactions of a ledger

    The fold of [EditJournal.ledger_open_edit_txns] refines the obvious
    picture: every transaction is an automaton of its own (absent, live,
    ended), a row concerns one of them, and the open set is the live ones.
    A compaction keeps that picture. *)
From S2P Require Import Prelude Strings Bytes AgentMachine EditOps EditJournal.
From stdpp Require Import sorting.
#[local] Open Scope string_scope.
#[local] Open Scope nat_scope.

(** ** One transaction on its own *)
Inductive Life :=
  | Absent
  | Live (files : list EditTxnLedgerFile) (session strategy : string)
      (rows : list EditTxnOpenProgress)
  | Ended.

Definition row_txn (p : LedgerPayload) : option N :=
  match p with
  | EditTxnPrepared id _ _ _ | EditTxnProgress id _ _ _
  | EditTxnCommitted id _ _ _ | EditTxnRolledBack id _ _ => Some id
  | LOther => None
  end.

Definition row_fields (p : LedgerPayload) : result unit ErrorKind :=
  match p with
  | EditTxnPrepared id session files strategy => validate_edit_txn_prepared id session files strategy
  | EditTxnProgress id _ path o =>
      if (id =? 0)%N then Err Malformed else check_text path ;? check_outcome o
  | EditTxnCommitted _ a b c => check_each check_edit_txn_path_list [a; b; c]
  | EditTxnRolledBack _ a b => check_each check_edit_txn_path_list [a; b]
  | LOther => Ok tt
  end.

Definition life_step (id : N) (p : LedgerPayload) (l : Life) : option Life :=
  if bool_decide (row_txn p = Some id) then
    match p, l with
    | EditTxnPrepared _ session files strategy, Absent => Some (Live files session strategy [])
    | EditTxnProgress _ seq path o, Live files session strategy rows =>
        Some (Live files session strategy (rows ++ [MkOpenProgress seq path o])%list)
    | (EditTxnCommitted _ _ _ _ | EditTxnRolledBack _ _ _), Live _ _ _ _ => Some Ended
    | _, _ => None
    end
  else Some l.

Fixpoint life_from (id : N) (l : Life) (es : list LedgerPayload) : option Life :=
  match es with
  | [] => Some l
  | p :: es' => match life_step id p l with Some l' => life_from id l' es' | None => None end
  end.
Definition life (id : N) (es : list LedgerPayload) : option Life := life_from id Absent es.

Definition live_ok (files : list EditTxnLedgerFile) (rows : list EditTxnOpenProgress) : Prop :=
  Forall (λ r, check_progress_row files r = Ok tt) rows ∧ NoDup (map op_seq rows).

(** ** The fold, seen one transaction at a time *)
Definition abs (st : OpenFold) (id : N) : Life :=
  match phase st !! id, prepared st !! id with
  | Some Prepared, Some (files, session, strategy) =>
      Live files session strategy (map pg_row (filter (λ r, pg_txn_id r = id) (progress st)))
  | Some Terminal, _ => Ended
  | _, _ => Absent
  end.

Definition fold_wf (st : OpenFold) : Prop :=
  (∀ id, phase st !! id = None ↔ prepared st !! id = None)
  ∧ ∀ r, r ∈ progress st → is_Some (phase st !! pg_txn_id r).

Lemma fold_wf_new : fold_wf fold_new.
Proof. split; [done|]. by intros r ?%elem_of_nil. Qed.

Lemma result_unit (r : result unit ErrorKind) : is_ok r = true ↔ r = Ok tt.
Proof. destruct r as [[]|]; naive_solver. Qed.

Lemma rseq_Ok {B} (r : result unit ErrorKind) (k : result B ErrorKind) b :
  (r ;? k) = Ok b ↔ r = Ok tt ∧ k = Ok b.
Proof. destruct r as [[]|]; cbn; naive_solver. Qed.

Lemma check_each_ok {A} (f : A → result unit ErrorKind) l :
  check_each f l = Ok tt ↔ Forall (λ a, f a = Ok tt) l.
Proof.
  induction l as [|a l IH]; cbn; [by split; [constructor|]|].
  rewrite rseq_Ok, IH, Forall_cons. done.
Qed.

(** Setting one transaction leaves the others' view as it is. *)
Lemma abs_other st st' id :
  phase st' !! id = phase st !! id → prepared st' !! id = prepared st !! id →
  filter (λ r, pg_txn_id r = id) (progress st') = filter (λ r, pg_txn_id r = id) (progress st) →
  abs st' id = abs st id.
Proof. intros Hp Hq Hr. unfold abs. by rewrite Hp, Hq, Hr. Qed.

Lemma abs_prepared st id files session strategy :
  phase st !! id = Some Prepared → prepared st !! id = Some (files, session, strategy) →
  abs st id = Live files session strategy
                (map pg_row (filter (λ r, pg_txn_id r = id) (progress st))).
Proof. intros Hp Hq. unfold abs. by rewrite Hp, Hq. Qed.

(** What the fold demands of a row besides its fields. *)
Definition row_fits (st : OpenFold) (p : LedgerPayload) : Prop :=
  match p with
  | EditTxnPrepared id _ _ _ => phase st !! id = None
  | EditTxnProgress id _ _ _ => phase st !! id = Some Prepared
  | EditTxnCommitted id _ _ _ | EditTxnRolledBack id _ _ => phase st !! id = Some Prepared
  | LOther => True
  end.

Definition row_result (st : OpenFold) (p : LedgerPayload) : OpenFold :=
  match p with
  | EditTxnPrepared id session files strategy =>
      MkFold (<[id := Prepared]> (phase st)) (<[id := (files, session, strategy)]> (prepared st))
        (progress st)
  | EditTxnProgress id seq path o =>
      MkFold (phase st) (prepared st)
        (progress st ++ [MkProgressRow id (MkOpenProgress seq path o)])%list
  | EditTxnCommitted id _ _ _ | EditTxnRolledBack id _ _ =>
      MkFold (<[id := Terminal]> (phase st)) (prepared st) (progress st)
  | LOther => st
  end.

Lemma terminal_row_Ok st id st' :
  fold_wf st →
  terminal_row id st = Ok st' ↔
  phase st !! id = Some Prepared ∧ st' = MkFold (<[id := Terminal]> (phase st)) (prepared st) (progress st).
Proof.
  intros [Hdom _]. unfold terminal_row. specialize (Hdom id).
  destruct (prepared st !! id) as [x|] eqn:E.
  - rewrite bool_decide_eq_true_2 by eauto. cbn.
    destruct (phase st !! id) as [[]|] eqn:Ep.
    + rewrite bool_decide_eq_false_2 by done. split; [intros [= <-]; done|by intros [_ ->]].
    + rewrite bool_decide_eq_true_2 by done. naive_solver.
    + by destruct Hdom as [Hd _]; specialize (Hd eq_refl).
  - rewrite bool_decide_eq_false_2 by (by intros []). cbn.
    destruct Hdom as [_ Hd]. rewrite Hd by done. naive_solver.
Qed.

Lemma fold_row_Ok st p st' :
  fold_wf st →
  fold_row st p = Ok st' ↔ row_fields p = Ok tt ∧ row_fits st p ∧ st' = row_result st p.
Proof.
  intros Hwf. destruct p as [id s fs str|id sq path o|id a b c|id a b|]; cbn [fold_row row_fields row_fits row_result].
  - rewrite rseq_Ok. destruct (phase st !! id) eqn:E.
    + rewrite bool_decide_eq_true_2 by eauto. naive_solver.
    + rewrite bool_decide_eq_false_2 by (by intros []). naive_solver.
  - destruct (id =? 0)%N; [naive_solver|]. rewrite !rseq_Ok.
    destruct (decide (phase st !! id = Some Prepared)) as [E|E].
    + rewrite bool_decide_eq_true_2 by done. cbn. naive_solver.
    + rewrite bool_decide_eq_false_2 by done. cbn. naive_solver.
  - rewrite rseq_Ok, terminal_row_Ok by done. done.
  - rewrite rseq_Ok, terminal_row_Ok by done. done.
  - naive_solver.
Qed.

Lemma wf_prepared_some st id :
  fold_wf st → phase st !! id = Some Prepared → ∃ x, prepared st !! id = Some x.
Proof.
  intros [Hdom _] H. destruct (prepared st !! id) eqn:E; [eauto|]. apply Hdom in E. congruence.
Qed.

Lemma filter_none {A} (P : A → Prop) `{∀ x, Decision (P x)} l :
  (∀ x, x ∈ l → ¬ P x) → filter P l = [].
Proof.
  induction l as [|x l IH]; intros H'; [done|].
  rewrite filter_cons_False by (apply H'; left). apply IH. intros y Hy. apply H'. by right.
Qed.

(** The progress of a transaction that has not begun is empty. *)
Lemma wf_no_progress st id :
  fold_wf st → phase st !! id = None → filter (λ r, pg_txn_id r = id) (progress st) = [].
Proof.
  intros [_ Hp] H. apply filter_none. intros r Hr He.
  destruct (Hp r Hr) as [? Hs]. congruence.
Qed.

Lemma row_result_wf st p : fold_wf st → row_fits st p → fold_wf (row_result st p).
Proof.
  intros Hwf Hfit. pose proof Hwf as [Hdom Hpr].
  destruct p as [id s fs str|id sq path o|id a b c|id a b|]; cbn in *; [| | | |done].
  - split; cbn.
    + intros id'. destruct (decide (id = id')) as [->|Hne];
        [by rewrite !lookup_insert_eq|by rewrite !lookup_insert_ne].
    + intros r Hr. destruct (decide (id = pg_txn_id r)) as [->|Hne];
        [rewrite lookup_insert_eq; eauto|rewrite lookup_insert_ne; auto].
  - split; cbn; [done|]. intros r [Hr| ->%list_elem_of_singleton]%elem_of_app; [auto|]. cbn. eauto.
  - destruct (wf_prepared_some _ _ Hwf Hfit) as [x Hx]. split; cbn.
    + intros id'. destruct (decide (id = id')) as [->|Hne];
        [rewrite lookup_insert_eq, Hx; done|by rewrite lookup_insert_ne].
    + intros r Hr. destruct (decide (id = pg_txn_id r)) as [->|Hne];
        [rewrite lookup_insert_eq; eauto|rewrite lookup_insert_ne; auto].
  - destruct (wf_prepared_some _ _ Hwf Hfit) as [x Hx]. split; cbn.
    + intros id'. destruct (decide (id = id')) as [->|Hne];
        [rewrite lookup_insert_eq, Hx; done|by rewrite lookup_insert_ne].
    + intros r Hr. destruct (decide (id = pg_txn_id r)) as [->|Hne];
        [rewrite lookup_insert_eq; eauto|rewrite lookup_insert_ne; auto].
Qed.

Lemma life_step_ne id p l : row_txn p ≠ Some id → life_step id p l = Some l.
Proof. intros H. unfold life_step. by rewrite bool_decide_eq_false_2. Qed.

Lemma row_result_abs st p id :
  fold_wf st → row_fits st p → life_step id p (abs st id) = Some (abs (row_result st p) id).
Proof.
  intros Hwf Hfit. destruct (decide (row_txn p = Some id)) as [Ht|Ht].
  - unfold life_step. rewrite bool_decide_eq_true_2 by done.
    destruct p as [i s fs str|i sq path o|i a b c|i a b|]; cbn in Ht; try done;
      injection Ht as ->; cbn [row_result row_fits] in *.
    + unfold abs at 1. rewrite Hfit. erewrite abs_prepared; cbn;
        [|by rewrite lookup_insert_eq|by rewrite lookup_insert_eq].
      by rewrite (wf_no_progress _ _ Hwf Hfit).
    + destruct (wf_prepared_some _ _ Hwf Hfit) as [[[fs s] str] Hx].
      rewrite (abs_prepared st id fs s str) by done. erewrite abs_prepared by done. cbn.
      rewrite filter_app, map_app. rewrite (filter_cons_True _ _ []) by done. done.
    + destruct (wf_prepared_some _ _ Hwf Hfit) as [[[fs s] str] Hx].
      rewrite (abs_prepared st id fs s str) by done. unfold abs. cbn. by rewrite lookup_insert_eq.
    + destruct (wf_prepared_some _ _ Hwf Hfit) as [[[fs s] str] Hx].
      rewrite (abs_prepared st id fs s str) by done. unfold abs. cbn. by rewrite lookup_insert_eq.
  - rewrite life_step_ne by done. f_equal. symmetry.
    destruct p as [i s fs str|i sq path o|i a b c|i a b|]; cbn [row_txn row_result] in *;
      [| | | |done].
    all: assert (i ≠ id) by congruence; apply abs_other; cbn; rewrite ?lookup_insert_ne; try done.
    rewrite filter_app, (filter_cons_False _ _ []) by done. cbn. by rewrite app_nil_r.
Qed.

Lemma life_step_fits st p :
  fold_wf st → (∀ id, is_Some (life_step id p (abs st id))) → row_fits st p.
Proof.
  intros Hwf H. destruct (row_txn p) as [id|] eqn:Ht; [|by destruct p].
  specialize (H id). unfold life_step in H. rewrite bool_decide_eq_true_2 in H by done.
  unfold abs in H.
  destruct p as [i s fs str|i sq path o|i a b c|i a b|]; cbn in *; try done; injection Ht as ->;
    destruct (phase st !! id) as [[]|] eqn:E; try done;
    destruct (prepared st !! id) as [[[??]?]|] eqn:E2; try done; try (by destruct H);
    by apply Hwf in E2; congruence.
Qed.

(** The fold succeeds exactly when every row is well formed and every
    transaction's rows are accepted, and then holds each one's state. *)
Lemma fold_rows_life st es :
  fold_wf st →
  (∀ st', fold_rows st es = Ok st' →
     fold_wf st' ∧ Forall (λ p, row_fields p = Ok tt) es
     ∧ ∀ id, life_from id (abs st id) es = Some (abs st' id))
  ∧ (Forall (λ p, row_fields p = Ok tt) es → (∀ id, is_Some (life_from id (abs st id) es)) →
     ∃ st', fold_rows st es = Ok st').
Proof.
  revert st; induction es as [|p es IH]; intros st Hwf; cbn [fold_rows life_from].
  { split; [intros st' [= <-]; split_and!; [done|constructor|done]|eauto]. }
  split.
  - intros st' (st1 & H1 & H2)%rbind_Ok. apply fold_row_Ok in H1 as (Hf & Hfit & ->); [|done].
    pose proof (row_result_wf _ _ Hwf Hfit) as Hwf1.
    destruct (proj1 (IH _ Hwf1) _ H2) as (? & ? & Hl). split_and!; [done|by constructor|].
    intros id. rewrite row_result_abs by done. apply Hl.
  - intros [Hf Hfs]%Forall_cons Hl.
    assert (row_fits st p) as Hfit.
    { apply life_step_fits; [done|]. intros id. specialize (Hl id).
      destruct (life_step id p (abs st id)); [eauto|by destruct Hl]. }
    pose proof (row_result_wf _ _ Hwf Hfit) as Hwf1.
    assert (fold_row st p = Ok (row_result st p)) as -> by (apply fold_row_Ok; done).
    cbn. apply (proj2 (IH _ Hwf1)); [done|]. intros id. specialize (Hl id).
    by rewrite row_result_abs in Hl by done.
Qed.

(** ** Reading the live transactions off the fold *)
Lemma progress_by_txn_lookup rows id :
  default [] (progress_by_txn rows !! id) = map pg_row (filter (λ r, pg_txn_id r = id) rows).
Proof.
  unfold progress_by_txn. induction rows as [|r rows IH] using rev_ind; [done|].
  rewrite foldl_app, filter_app, map_app. cbn [foldl].
  destruct (decide (pg_txn_id r = id)) as [<-|Hne].
  - rewrite lookup_insert_eq, filter_cons_True by done. cbn. by rewrite IH.
  - rewrite lookup_insert_ne, filter_cons_False by done. cbn. by rewrite IH, app_nil_r.
Qed.

#[global] Instance seq_le_trans : Transitive seq_le.
Proof. unfold seq_le. intros a b c. lia. Qed.
#[global] Instance seq_le_total : Total seq_le.
Proof. unfold seq_le. intros a b. lia. Qed.
#[global] Instance id_le_trans : Transitive id_le.
Proof. unfold id_le. intros a b c. lia. Qed.
#[global] Instance id_le_total : Total id_le.
Proof. unfold id_le. intros a b. lia. Qed.

Lemma has_twin_NoDup l :
  StronglySorted seq_le l → has_twin l = false ↔ NoDup (map op_seq l).
Proof.
  induction 1 as [|a l Hs IH Ha]; [by split; [constructor|]|].
  destruct l as [|b l]; [split; [by repeat constructor; intros ?%elem_of_nil|done]|].
  change (has_twin (a :: b :: l)) with ((op_seq a =? op_seq b)%N || has_twin (b :: l)).
  rewrite orb_false_iff, IH. change (map op_seq (a :: b :: l)) with (op_seq a :: map op_seq (b :: l)).
  rewrite NoDup_cons, N.eqb_neq. split; intros [H1 H2]; (split; [|done]).
  - intros (c & Hc & Hin)%list_elem_of_fmap.
    pose proof (proj1 (Forall_cons _ _ _) Ha) as [Hab _].
    inversion Hs as [|? ? _ Hb]; subst. unfold seq_le in *.
    apply elem_of_cons in Hin as [->|Hin]; [done|].
    rewrite Forall_forall in Hb. specialize (Hb c Hin). cbn in *. lia.
  - intros E. apply H1. cbn. rewrite E. left.
Qed.

Lemma live_ok_sort files rows :
  live_ok files rows ↔
  check_each (check_progress_row files) rows = Ok tt ∧ has_twin (merge_sort seq_le rows) = false.
Proof.
  unfold live_ok. rewrite check_each_ok.
  rewrite has_twin_NoDup by (apply StronglySorted_merge_sort; apply _).
  by rewrite (Permutation_map op_seq (merge_sort_Permutation seq_le rows)).
Qed.

Definition live_row (id : N) (l : Life) : option EditTxnOpenRow :=
  match l with
  | Live files session strategy rows =>
      Some (MkOpenRow id session strategy files (merge_sort seq_le rows))
  | _ => None
  end.
Definition life_ok (l : Life) : Prop :=
  match l with Live files _ _ rows => live_ok files rows | _ => True end.

Lemma open_rows_spec st txns out :
  fold_wf st → (∀ id x, (id, x) ∈ txns → prepared st !! id = Some x) →
  open_rows (phase st) (progress_by_txn (progress st)) txns = Ok out ↔
  (∀ id x, (id, x) ∈ txns → life_ok (abs st id))
  ∧ out = omap (λ t, live_row t.1 (abs st t.1)) txns.
Proof.
  intros Hwf. revert out.
  induction txns as [|[id [[fs s] str]] txns IH]; intros out Hin; cbn [open_rows omap list_omap].
  { split; [intros [= <-]; split; [by intros ?? ?%elem_of_nil|done]|by intros [_ ->]]. }
  assert (prepared st !! id = Some (fs, s, str)) as Hq by (apply Hin; left).
  assert (∀ i x, (i, x) ∈ txns → prepared st !! i = Some x) as Hin'
    by (intros; apply Hin; by right).
  cbn [fst]. destruct (phase st !! id) as [[]|] eqn:Ep.
  - rewrite bool_decide_eq_false_2 by done.
    rewrite (abs_prepared _ _ _ _ _ Ep Hq). cbn [live_row].
    unfold open_row. rewrite progress_by_txn_lookup.
    set (rows := map pg_row _). rewrite rbind_Ok. setoid_rewrite rseq_Ok.
    setoid_rewrite rbind_Ok. setoid_rewrite IH; [|done]. split.
    + intros (r & [Hc Ht] & out' & [Hall ->] & [= <-]).
      destruct (has_twin _) eqn:E; [done|]. injection Ht as <-. split; [|done].
      intros i x [[= -> ->]|Hi]%elem_of_cons; [|by eapply Hall].
      rewrite (abs_prepared _ _ _ _ _ Ep Hq). by apply live_ok_sort.
    + intros [Hall ->]. assert (life_ok (abs st id)) as Hok by (eapply Hall; left).
      rewrite (abs_prepared _ _ _ _ _ Ep Hq) in Hok. apply live_ok_sort in Hok as [Hc Ht].
      eexists. split; [split; [done|]|].
      { fold rows in Ht. rewrite Ht. done. }
      eexists. split; [split; [|done]|done]. intros i x Hi. eapply Hall. by right.
  - rewrite bool_decide_eq_true_2 by done. rewrite IH by done.
    assert (abs st id = Ended) as Ha by (unfold abs; by rewrite Ep). rewrite Ha. cbn.
    split; intros [Hall ->]; (split; [|done]).
    + intros i x [[= -> ->]|Hi]%elem_of_cons; [by rewrite Ha|by eapply Hall].
    + intros i x Hi. eapply Hall. by right.
  - apply Hwf in Ep. congruence.
Qed.

Lemma live_row_inv id l r :
  live_row id l = Some r ↔
  ∃ fs s str rows, l = Live fs s str rows ∧ r = MkOpenRow id s str fs (merge_sort seq_le rows).
Proof. destruct l; cbn; naive_solver. Qed.

(** Lists of rows sorted by transaction id are determined by their elements. *)
Lemma sorted_rows_unique (a b : list EditTxnOpenRow) :
  StronglySorted N.lt (map or_txn_id a) → StronglySorted N.lt (map or_txn_id b) →
  (∀ r, r ∈ a ↔ r ∈ b) → a = b.
Proof.
  revert b; induction a as [|x a IH]; intros [|y b] Ha Hb Hab; [done|..].
  - by pose proof (proj2 (Hab y) (list_elem_of_here _ _)) as ?%elem_of_nil.
  - by pose proof (proj1 (Hab x) (list_elem_of_here _ _)) as ?%elem_of_nil.
  - inversion Ha as [|? ? Ha1 Ha2]; inversion Hb as [|? ? Hb1 Hb2]; subst.
    rewrite Forall_map, Forall_forall in Ha2, Hb2.
    assert (x = y) as ->.
    { pose proof (proj1 (Hab x) (list_elem_of_here _ _)) as [?|Hx]%elem_of_cons; [done|].
      pose proof (proj2 (Hab y) (list_elem_of_here _ _)) as [?|Hy]%elem_of_cons; [done|].
      specialize (Ha2 _ Hy). specialize (Hb2 _ Hx). cbn in *. lia. }
    f_equal. apply IH; [done..|]. intros r. specialize (Hab r). rewrite !elem_of_cons in Hab.
    split; intros Hr.
    + destruct (proj1 Hab (or_intror Hr)) as [->|]; [|done]. specialize (Ha2 _ Hr). cbn in *. lia.
    + destruct (proj2 Hab (or_intror Hr)) as [->|]; [|done]. specialize (Hb2 _ Hr). cbn in *. lia.
Qed.

Lemma omap_live_sorted st txns :
  StronglySorted id_le txns → NoDup (map fst txns) →
  StronglySorted N.lt (map or_txn_id (omap (λ t, live_row t.1 (abs st t.1)) txns)).
Proof.
  induction 1 as [|[id x] txns Hs IH Hx]; intros [Hid Hnd]%NoDup_cons || intros Hnd; [constructor|].
  cbn [omap list_omap fst]. specialize (IH Hnd).
  destruct (live_row id (abs st id)) as [r|] eqn:E; [|done].
  apply live_row_inv in E as (fs & s & str & rows & _ & ->). cbn. constructor; [done|].
  rewrite Forall_map, Forall_forall. intros r' ([i y] & Hin & Hr)%list_elem_of_omap. cbn in Hr.
  apply live_row_inv in Hr as (? & ? & ? & ? & _ & ->). cbn.
  rewrite Forall_forall in Hx. specialize (Hx _ Hin). unfold id_le in Hx. cbn in Hx.
  assert (i ≠ id); [|lia]. intros ->. apply Hid, list_elem_of_fmap. by exists (id, y).
Qed.

Definition open_set_spec (es : list LedgerPayload) (out : list EditTxnOpenRow) : Prop :=
  StronglySorted N.lt (map or_txn_id out)
  ∧ ∀ r, r ∈ out ↔ ∃ l, life (or_txn_id r) es = Some l ∧ live_row (or_txn_id r) l = Some r.

Definition ledger_ok (es : list LedgerPayload) : Prop :=
  Forall (λ p, row_fields p = Ok tt) es
  ∧ ∀ id, ∃ l, life id es = Some l ∧ life_ok l.

(** The read-back, given the fold. *)
Lemma open_txns_folded st txns :
  fold_wf st → txns = merge_sort id_le (map_to_list (prepared st)) →
  (∀ id x, (id, x) ∈ txns ↔ prepared st !! id = Some x)
  ∧ StronglySorted id_le txns ∧ NoDup (map fst txns).
Proof.
  intros Hwf ->. pose proof (merge_sort_Permutation id_le (map_to_list (prepared st))) as Hp.
  split_and!.
  - intros id x. rewrite Hp. apply elem_of_map_to_list.
  - apply StronglySorted_merge_sort; apply _.
  - rewrite (Permutation_map fst Hp). apply NoDup_fst_map_to_list.
Qed.

Lemma abs_live_prepared st id l :
  fold_wf st → l = abs st id → l ≠ Absent → ∃ x, prepared st !! id = Some x.
Proof.
  intros Hwf -> H. destruct (prepared st !! id) eqn:E; [eauto|].
  apply Hwf in E. unfold abs in H. by rewrite E in H.
Qed.

Lemma open_txns_sound es out :
  ledger_open_edit_txns es = Ok out → ledger_ok es ∧ open_set_spec es out.
Proof.
  intros (st & Hst & Hout)%rbind_Ok.
  destruct (proj1 (fold_rows_life _ es fold_wf_new) _ Hst) as (Hwf & Hf & Hl).
  remember (merge_sort _ _) as txns eqn:Et.
  destruct (open_txns_folded _ _ Hwf Et) as (Hin & Hs & Hnd).
  apply open_rows_spec in Hout as [Hok ->]; [|done|by intros; apply Hin].
  assert (∀ id, life id es = Some (abs st id)) as Hl' by apply Hl. split.
  - split; [done|]. intros id. eexists. split; [apply Hl'|].
    destruct (abs st id) eqn:E; try done.
    destruct (abs_live_prepared st id _ Hwf (eq_sym E)) as [x Hx]; [done|].
    rewrite <- E. by eapply Hok, Hin.
  - split; [by apply omap_live_sorted|]. intros r. rewrite list_elem_of_omap. split.
    + intros ([id x] & Hi & Hr). cbn in Hr. eexists. pose proof Hr as Hr'.
      apply live_row_inv in Hr' as (? & ? & ? & ? & _ & ->). cbn. split; [apply Hl'|done].
    + intros (l & Hl1 & Hr). rewrite Hl' in Hl1. injection Hl1 as <-.
      destruct (abs_live_prepared st (or_txn_id r) _ Hwf eq_refl) as [x Hx].
      { intros E. by rewrite E in Hr. }
      exists (or_txn_id r, x). split; [by apply Hin|done].
Qed.

Lemma open_txns_total es : ledger_ok es → ∃ out, ledger_open_edit_txns es = Ok out.
Proof.
  intros [Hf Hlok].
  destruct (proj2 (fold_rows_life _ es fold_wf_new) Hf) as [st Hst].
  { intros id. destruct (Hlok id) as (l & Hl & _). exists l. exact Hl. }
  destruct (proj1 (fold_rows_life _ es fold_wf_new) _ Hst) as (Hwf & _ & Hl).
  set (txns := merge_sort id_le (map_to_list (prepared st))).
  destruct (open_txns_folded _ txns Hwf eq_refl) as (Hin & Hs & Hnd).
  exists (omap (λ t, live_row t.1 (abs st t.1)) txns).
  unfold ledger_open_edit_txns. rewrite Hst. cbn. apply open_rows_spec; [done|by intros; apply Hin|].
  split; [|done]. intros id x _. destruct (Hlok id) as (l & Hl1 & Hok).
  assert (life id es = Some (abs st id)) as Hl2 by apply Hl. congruence.
Qed.

(** Sorted, complete, nothing twice: the open set is determined. *)
Lemma open_set_spec_unique es a b : open_set_spec es a → open_set_spec es b → a = b.
Proof.
  intros [Hs1 Hm1] [Hs2 Hm2]. apply sorted_rows_unique; [done..|]. intros r. by rewrite Hm1, Hm2.
Qed.

(** The read-back on every stream, what it does not check included: the
    progress rows of a finished transaction. *)
Lemma open_txns_exact es out :
  ledger_open_edit_txns es = Ok out ↔ ledger_ok es ∧ open_set_spec es out.
Proof.
  split; [apply open_txns_sound|]. intros [Hok Hspec].
  destruct (open_txns_total es Hok) as [out' E]. rewrite E. f_equal.
  eapply open_set_spec_unique; [by apply open_txns_sound|done].
Qed.

(** What the doc of [ledger_open_edit_txns] asks of a stream: well-formed
    rows, each transaction prepared once, then progressing, then ended at most
    once, and progress that names each prepared file at most once by its index
    and path, at every point of the stream and so in finished transactions
    too. *)
Definition ledger_strict (es : list LedgerPayload) : Prop :=
  Forall (λ p, row_fields p = Ok tt) es
  ∧ ∀ id, is_Some (life id es)
          ∧ ∀ es1 es2, es = (es1 ++ es2)%list → ∀ l, life id es1 = Some l → life_ok l.

Lemma ledger_strict_ok es : ledger_strict es → ledger_ok es.
Proof.
  intros [Hf Hl]. split; [done|]. intros id. destruct (Hl id) as [[l E] Hp].
  exists l. split; [done|]. apply (Hp es []); [by rewrite app_nil_r|done].
Qed.

(** C33: the ledger's open set is the set of live transactions.  On every
    stream whose rows are well formed and in which each transaction, finished
    or not, is one prepared row, then progress rows that name each of its
    files at most once by index and path, then at most one terminal row,
    [ledger_open_edit_txns] succeeds; and whenever it succeeds, every row is
    well formed, every transaction's rows follow that order, the progress of
    every live transaction is valid, and the answer is exactly one row per
    live transaction, in ascending order of ids, with its progress sorted by
    sequence number. *)
Theorem open_txns_refine_lives es :
  (ledger_strict es → ∃ out, ledger_open_edit_txns es = Ok out)
  ∧ ∀ out, ledger_open_edit_txns es = Ok out → ledger_ok es ∧ open_set_spec es out.
Proof.
  split; [|by intros out ?%open_txns_exact]. intros Hs%ledger_strict_ok.
  by apply open_txns_total.
Qed.

(** ** Compaction *)
Lemma life_from_filter id l es :
  life_from id l es = life_from id l (filter (λ p, row_txn p = Some id) es).
Proof.
  revert l; induction es as [|p es IH]; intros l; [done|]. cbn [life_from].
  destruct (decide (row_txn p = Some id)) as [Ht|Ht].
  - rewrite filter_cons_True by done. cbn [life_from]. destruct (life_step id p l); [apply IH|done].
  - rewrite life_step_ne, filter_cons_False by done. apply IH.
Qed.

Lemma life_from_ended id es l : life_from id Ended es = Some l → l = Ended.
Proof.
  induction es as [|p es IH]; [by intros [= <-]|]. cbn [life_from].
  destruct (life_step id p Ended) as [l'|] eqn:E; [|done]. unfold life_step in E.
  case_bool_decide; [by destruct p|]. injection E as <-. apply IH.
Qed.

Definition is_live (l : Life) : bool := match l with Live _ _ _ _ => true | _ => false end.

(** A live transaction was prepared and has no terminal row. *)
Lemma life_from_live id es l l' :
  life_from id l es = Some l' → is_live l' = true →
  (is_live l = true ∨ ∃ p, p ∈ es ∧ prepared_id p = Some id)
  ∧ ∀ p, p ∈ es → terminal_id p ≠ Some id.
Proof.
  revert l; induction es as [|p es IH]; intros l H Hl'; cbn [life_from] in H.
  { injection H as ->. split; [by left|by intros ? ?%elem_of_nil]. }
  destruct (life_step id p l) as [l1|] eqn:E; [|done].
  destruct (IH _ H Hl') as [Hpre Hterm].
  assert (l1 ≠ Ended) as Hne by (intros ->; apply life_from_ended in H; by subst).
  assert (terminal_id p ≠ Some id ∧ (is_live l = true ∨ prepared_id p = Some id ∨ is_live l1 = false))
    as [Hp1 Hp2].
  { unfold life_step in E. case_bool_decide as Ht.
    - destruct p, l; cbn in *; naive_solver.
    - injection E as <-. split; [destruct p; cbn in *; congruence|]. destruct (is_live l); auto. }
  split.
  - destruct Hp2 as [?|[?|Hl1]]; [by left|right; exists p; split; [left|done]|].
    destruct Hpre as [?|(q & ? & ?)]; [congruence|right; exists q; split; [by right|done]].
  - intros q [->|Hq]%elem_of_cons; [done|by apply Hterm].
Qed.

Lemma elem_of_open_ids es id :
  id ∈ open_ids es ↔
  (∃ p, p ∈ es ∧ prepared_id p = Some id) ∧ ∀ p, p ∈ es → terminal_id p ≠ Some id.
Proof.
  unfold open_ids. rewrite elem_of_difference, !elem_of_list_to_set, !list_elem_of_omap.
  naive_solver.
Qed.

Lemma filter_ext_in {A} (P Q : A → Prop) `{!∀ x, Decision (P x)} `{!∀ x, Decision (Q x)} (l : list A) :
  (∀ x, x ∈ l → P x ↔ Q x) → filter P l = filter Q l.
Proof.
  induction l as [|x l IH]; intros Hpq; [done|].
  assert (P x ↔ Q x) as Hx by (apply Hpq; left).
  rewrite !filter_cons, IH by (intros y Hy; apply Hpq; by right).
  destruct (decide (P x)), (decide (Q x)); tauto.
Qed.

Lemma pinned_row es p id :
  p ∈ es → row_txn p = Some id → pinned (open_ids es) p = true ↔ id ∈ open_ids es.
Proof.
  intros Hp Ht. destruct p; cbn in *; injection Ht as -> || idtac; try done;
    rewrite ?bool_decide_eq_true; [done|done|..].
  all: split; [done|]; intros [_ Hterm]%elem_of_open_ids; by destruct (Hterm _ Hp).
Qed.

Lemma compact_rows es id :
  filter (λ p, row_txn p = Some id) (compact es)
  = if decide (id ∈ open_ids es) then filter (λ p, row_txn p = Some id) es else [].
Proof.
  unfold compact. rewrite list_filter_filter. destruct (decide (id ∈ open_ids es)) as [Ho|Ho].
  - apply filter_ext_in. intros p Hp. split; [naive_solver|]. intros Ht. split; [done|].
    by eapply pinned_row.
  - apply filter_none. intros p Hp [Ht Hpin]. by eapply Ho, pinned_row.
Qed.

Lemma life_compact es id :
  life id (compact es) = if decide (id ∈ open_ids es) then life id es else Some Absent.
Proof.
  unfold life. rewrite life_from_filter, compact_rows. case_decide; [|done].
  by rewrite <- life_from_filter.
Qed.

(** Compaction never loses an unfinished edit. Whatever rows
    [compact_typed_ledger] deletes, the open transactions read back from the
    compacted stream are the ones of the full stream: same ids, same files,
    same strategy and same progress, in the same order. *)
Theorem compaction_keeps_open_txns es out
  (Hok : ledger_open_edit_txns es = Ok out) : ledger_open_edit_txns (compact es) = Ok out.
Proof.
  apply open_txns_exact in Hok as [[Hf Hl] [Hs Hm]]. apply open_txns_exact.
  split; [split|split; [done|]].
  - apply Forall_forall. intros p [_ Hp]%list_elem_of_filter. by eapply Forall_forall in Hf.
  - intros id. rewrite life_compact. case_decide; [apply Hl|by exists Absent].
  - intros r. rewrite Hm, life_compact. case_decide as Ho; [done|].
    split; [|by intros (l & [= <-] & ?)]. intros (l & Hlife & Hr).
    assert (is_live l = true) as Hlive by (by destruct l).
    destruct (life_from_live _ _ _ _ Hlife Hlive) as [[?|Hp] Ht]; [done|].
    destruct Ho. by apply elem_of_open_ids.
Qed.

(** ** What the read-back refuses, and what it lets pass *)
Lemma life_from_not_absent id l es p :
  p ∈ es → prepared_id p = Some id → life_from id l es ≠ Some Absent.
Proof.
  assert (∀ l' es', l' ≠ Absent → life_from id l' es' ≠ Some Absent) as Hstay.
  { intros l' es'. revert l'. induction es' as [|q es' IH]; intros l' Hl; cbn; [congruence|].
    destruct (life_step id q l') as [l1|] eqn:E; [|done]. apply IH. unfold life_step in E.
    case_bool_decide; [destruct q, l'; naive_solver|congruence]. }
  intros Hp. revert l. induction Hp as [p es|p q es Hq IH]; intros l0 Hid; cbn [life_from].
  - destruct (life_step id p l0) as [l1|] eqn:E; [|done]. apply Hstay. unfold life_step in E.
    destruct p as [i s fs str|?|?|?|]; try done. cbn in Hid. injection Hid as ->.
    rewrite bool_decide_eq_true_2 in E by done. destruct l0; naive_solver.
  - destruct (life_step id q l0); [by apply IH|done].
Qed.

Lemma life_from_twice id l es es' session files strategy :
  life_from id l es ≠ Some Absent →
  life_from id l (es ++ EditTxnPrepared id session files strategy :: es') = None.
Proof.
  revert l. induction es as [|q es IH]; intros l Hna; cbn [app life_from] in *.
  - unfold life_step. rewrite bool_decide_eq_true_2 by done. by destruct l.
  - destruct (life_step id q l); [by apply IH|done].
Qed.

(** Beginning a transaction id twice disables recovery. The ledger
    accepts a second prepared row for an id it has already seen, open or
    finished; from then on, whatever rows follow, reading the open
    transactions fails, for every transaction of the session. *)
Theorem second_prepared_row_blocks_recovery payload_bytes es id session files strategy
  (Hvalid : validate_edit_txn_prepared id session files strategy = Ok tt)
  (Hsize : (payload_bytes (EditTxnPrepared id session files strategy) <= MAX_LEDGER_ENTRY_BYTES)%N)
  (Hseen : id ∈ omap prepared_id es) :
  let row := EditTxnPrepared id session files strategy in
  ledger_edit_txn_prepared payload_bytes id session files strategy es = Ok (es ++ [row])%list
  ∧ ∀ es' out, ledger_open_edit_txns (es ++ row :: es') ≠ Ok out.
Proof.
  cbv zeta. split.
  - unfold ledger_edit_txn_prepared, append_entry, check_payload_bytes. rewrite Hvalid. cbn.
    by destruct (N.ltb_spec MAX_LEDGER_ENTRY_BYTES
                   (payload_bytes (EditTxnPrepared id session files strategy))); [lia|].
  - intros es' out [[_ Hl] _]%open_txns_exact.
    apply list_elem_of_omap in Hseen as (p & Hp & Hid).
    destruct (Hl id) as (l' & El & _). unfold life in El.
    by rewrite life_from_twice in El by (by eapply life_from_not_absent).
Qed.

Module DemoRows.
Definition hex := "aaaaaaaaaaaaaaaaaaaaaaaaaaaaaaaaaaaaaaaaaaaaaaaaaaaaaaaaaaaaaaaa".
Definition file (p : string) := MkLedgerFile p hex 3.
(** One finished transaction and one open one, its rows interleaved with
    others. *)
Definition rows : list LedgerPayload :=
  [EditTxnPrepared 7 "s" [file "a"] "roll_forward"; LOther;
   EditTxnPrepared 3 "s" [file "b"; file "c"] "roll_back";
   EditTxnProgress 7 0 "a" "committed"; EditTxnProgress 3 0 "b" "committed";
   EditTxnCommitted 7 ["a"] [] []; LOther].
End DemoRows.

Lemma life_from_skips id l es : Forall (λ p, row_txn p ≠ Some id) es → life_from id l es = Some l.
Proof.
  induction 1 as [|p es Hp _ IH]; [done|]. cbn [life_from]. by rewrite life_step_ne by done.
Qed.

Lemma prefixes {A} (P : list A → Prop) es :
  (∀ n, n ≤ List.length es → P (take n es)) → ∀ es1 es2, es = (es1 ++ es2)%list → P es1.
Proof.
  intros H es1 es2 ->. specialize (H (List.length es1)). rewrite take_app_length in H.
  apply H. rewrite length_app. lia.
Qed.

Ltac prove_live_ok :=
  cbn [life_ok]; first [exact I|split; [by repeat constructor|]];
  cbn; repeat (apply NoDup_cons; split; [by intros ?%elem_of_nil|]); constructor.

Lemma demo_rows_strict : ledger_strict DemoRows.rows.
Proof.
  split; [repeat (apply Forall_cons; split; [by vm_compute|]); constructor|].
  intros id. destruct (decide (id = 7%N)) as [->|H7]; [|destruct (decide (id = 3%N)) as [->|H3]].
  3: { assert (∀ es1 es2, DemoRows.rows = (es1 ++ es2)%list → life id es1 = Some Absent) as Hall.
       { intros es1 es2 E. apply life_from_skips.
         assert (Forall (λ p, row_txn p ≠ Some id) DemoRows.rows) as Hf.
         { repeat (apply Forall_cons; split; [cbn; congruence|]). constructor. }
         rewrite E in Hf. by apply Forall_app in Hf as [? _]. }
       split; [rewrite (Hall _ []); [eauto|by rewrite app_nil_r]|].
       intros es1 es2 E l. rewrite (Hall _ _ E). by intros [= <-]. }
  all: split; [eexists; vm_compute; reflexivity|]; apply (prefixes (λ es1, ∀ l, life _ es1 = Some l → life_ok l)); intros n Hn l.
  all: do 8 (destruct n as [|n]; [vm_compute; intros [= <-]; prove_live_ok|]); cbn in Hn; lia.
Qed.

Lemma open_txns_refine_lives_witness :
  ∃ out, ledger_open_edit_txns DemoRows.rows = Ok out ∧ map or_txn_id out = [3%N].
Proof.
  destruct (proj1 (open_txns_refine_lives DemoRows.rows) demo_rows_strict) as [out E].
  exists out. split; [done|]. revert E. vm_compute. intros E. by simplify_eq.
Defined.

Lemma compaction_keeps_open_txns_witness :
  compact DemoRows.rows ≠ DemoRows.rows
  ∧ ledger_open_edit_txns (compact DemoRows.rows)
    = Ok [MkOpenRow 3 "s" "roll_back" [DemoRows.file "b"; DemoRows.file "c"]
            [MkOpenProgress 0 "b" "committed"]].
Proof. split; [by vm_compute|]. apply compaction_keeps_open_txns. vm_compute. reflexivity. Defined.

Lemma second_prepared_row_blocks_recovery_witness :
  ledger_edit_txn_prepared (λ _, 0%N) 7 "s" [DemoRows.file "a"] "roll_forward" DemoRows.rows
    = Ok (DemoRows.rows ++ [EditTxnPrepared 7 "s" [DemoRows.file "a"] "roll_forward"])%list
  ∧ ledger_open_edit_txns
      (DemoRows.rows ++ [EditTxnPrepared 7 "s" [DemoRows.file "a"] "roll_forward"; LOther]) ≠ Ok [].
Proof.
  destruct (second_prepared_row_blocks_recovery (λ _, 0%N) DemoRows.rows 7 "s"
              [DemoRows.file "a"] "roll_forward") as [H1 H2];
    [vm_compute; reflexivity|vm_compute; discriminate|by left|].
  split; [exact H1|exact (H2 [LOther] [])].
Defined.

(** The progress rows of a finished transaction are not checked against its
    files. *)
Example finished_progress_unchecked :
  ledger_open_edit_txns
    [EditTxnPrepared 7 "s" [DemoRows.file "a"] "roll_forward"; EditTxnProgress 7 9 "zz" "committed";
     EditTxnCommitted 7 ["a"] [] []] = Ok [].
Proof. by vm_compute. Qed.
