(* ===== verification/EditTxn.v ===== *)
(** * Durable multi-file edit transactions

    [crates/edit/src/lib.rs]: the engine that stages, commits, rolls back and
    recovers an edit of several files, over the compare-and-swap writer of
    [crates/fs/src] ([write_atomic_cas], [FileState], [read]) and a journal
    behind the interface [EditTxnJournal].

    The engine runs in a world it does not own.  Every system call and every
    journal call takes one [tick] of a schedule, which says what the rest of
    the machine did to the disk since the last call, how much time has passed
    and whether the call fails or the process dies before it.  An exhausted
    schedule is a quiet machine on which every call works.  A file is read over
    a stretch of time, so a tick also says what a read that starts there
    returns of the content it opened.  The log of the world is a ghost: it
    records, for each rename, what the recheck before it read, what others did
    to the disk from there to the rename, and what the rename replaced.

    Not modelled: path resolution and symbolic links (paths are the texts the
    requests carry), parent directories, the temporary file of a write (it has
    a name of its own and only its rename is visible), error messages. *)
From S2P Require Import Prelude Strings Bytes AgentMachine EditOps EditSyntax.
From stdpp Require Import sorting.
#[local] Open Scope string_scope.
#[local] Open Scope nat_scope.

(** The 32 bytes of a BLAKE3 digest. *)
Definition FileHash : Type := string.

Definition MAX_FILE_BYTES : N := 16777216.
Definition MAX_TXN_FILES : N := 2000.
Definition MAX_TXN_PAYLOAD_BYTES : N := 65536.
Definition MAX_TXN_PATH_BYTES : N := 4096.

Record EditRequest := MkRequest {
  rq_path : string;
  rq_expected_hash : FileHash;
  rq_ops : list EditOp
}.

Inductive RepairMode := Rollback | AllowModelRepair.
Inductive EditTxnStrategy := RollForward | RollBack.
Inductive TxnFileOutcome := Committed | Conflicted.

#[global] Instance EditTxnStrategy_eq_dec : EqDecision EditTxnStrategy.
Proof. solve_decision. Defined.
#[global] Instance TxnFileOutcome_eq_dec : EqDecision TxnFileOutcome.
Proof. solve_decision. Defined.

Record EditTxnFileRef := MkFileRef { f_path : string; f_base_digest : FileHash; f_base_len : N }.
Record TxnProgressRow := MkProgress { pr_seq : N; pr_path : string; pr_outcome : TxnFileOutcome }.
Record OpenEditTxn := MkOpen {
  open_id : N;
  open_strategy : EditTxnStrategy;
  open_files : list EditTxnFileRef;
  open_progress : list TxnProgressRow
}.

(** The journal as the engine sees it ([trait EditTxnJournal]); a call that
    fails leaves the journal as it was. *)
Class EditTxnJournal (J : Type) := {
  entry_payload_cap : J → N;
  record_prepared : N → string → list EditTxnFileRef → EditTxnStrategy → J → result J ErrorKind;
  record_progress : N → N → string → TxnFileOutcome → J → result J ErrorKind;
  record_committed : N → list string → list string → list string → J → result J ErrorKind;
  record_rolled_back : N → list string → list string → J → result J ErrorKind;
  open_transactions : J → result (list OpenEditTxn) ErrorKind
}.

(** A validated single-file edit, ready for the commit-time write. *)
Record StagedEdit := MkStaged {
  st_rel : string;
  st_expected_hash : FileHash;
  st_base_len : N;
  st_original : string;
  st_edited : string;
  st_ops_applied : nat;
  st_suspicious : bool;
  st_parse_error : option ParseError
}.

Record PreparedEdit := MkPrepared {
  pe_txn_id : N;
  pe_strategy : EditTxnStrategy;
  pe_files : list StagedEdit
}.

Record EditOutcome := MkEditOutcome {
  eo_new_hash : FileHash; eo_ops_applied : nat; eo_suspicious : bool; eo_parse_error : option ParseError
}.

Record BatchCommittedFile := MkBatchFile {
  bf_path : string; bf_new_hash : FileHash; bf_ops_applied : nat; bf_suspicious : bool
}.

Record CommitRun := MkRun {
  run_committed : list BatchCommittedFile;
  run_conflicted : list (string * ErrorKind);
  run_skipped : list string;
  run_rolled_back : list string;
  run_rollback_conflicts : list string;
  run_ops_applied_total : nat
}.

Record EditTxnResume := MkResume {
  rs_txn_id : N;
  rs_reqs : list EditRequest;
  rs_before_content : string → option string
}.

Record RecoveryTxnOutcome := MkRecovered {
  ro_txn_id : N;
  ro_strategy : EditTxnStrategy;
  ro_committed : list string;
  ro_conflicted : list string;
  ro_skipped : list string;
  ro_rolled_back : list string;
  ro_rollback_conflicts : list string;
  ro_wrote : list string
}.

Record JustWritten := MkJust { jw_idx : nat; jw_new_hash : FileHash; jw_original : string }.

Record WorkspaceHandle := MkHandle {
  ws_id : N;
  ws_owned : bool   (* the engine's own service registers this handle *)
}.

(** ** The machine *)
Record file := MkFile { bytes : string; modified_ms : option Z }.
Notation disk := (gmap string file).

Inductive fate := Go | Fail_io (e : ErrorKind) | Crash.
Record tick := MkTick {
  t_env : disk → disk;        (* what others did since the last call *)
  t_read : string → string;   (* what a read started here returns of a content *)
  t_now : option Z;           (* the clock, as file times report it *)
  t_elapsed : N;              (* time since staging started *)
  t_fate : fate
}.
Definition idle : tick := MkTick id id None 0 Go.

(** One rename of the writer: [wr_read] is the text whose digest the recheck
    before it took ([None]: it found no file), [wr_at] the disk when the recheck
    opened the file, [wr_between] what others did from there to the rename,
    [wr_old] the text the rename replaced. *)
Record write := MkWrite {
  wr_path : string;
  wr_read : option string;
  wr_at : disk;
  wr_between : disk → disk;
  wr_old : option string;
  wr_new : string
}.

Record World (J : Type) := MkWorld {
  w_disk : disk;
  w_journal : J;
  w_log : list write;
  w_sched : list tick
}.
Arguments MkWorld {J} _ _ _ _.
Arguments w_disk {J} _.
Arguments w_journal {J} _.
Arguments w_log {J} _.
Arguments w_sched {J} _.

Inductive outcome (A : Type) :=
  | Done (a : A)
  | Failed (e : ErrorKind)
  | Crashed.
Arguments Done {A} a.
Arguments Failed {A} e.
Arguments Crashed {A}.

Definition M (J A : Type) : Type := World J → outcome A * World J.
Definition eret {J A} (a : A) : M J A := λ w, (Done a, w).
Definition efail {J A} (e : ErrorKind) : M J A := λ w, (Failed e, w).
Definition ebind {J A B} (m : M J A) (k : A → M J B) : M J B :=
  λ w, match m w with
       | (Done a, w') => k a w'
       | (Failed e, w') => (Failed e, w')
       | (Crashed, w') => (Crashed, w')
       end.
(** [match r { Ok(..) => .., Err(..) => .. }] on a fallible call. *)
Definition etry {J A} (m : M J A) : M J (result A ErrorKind) :=
  λ w, match m w with
       | (Done a, w') => (Done (Ok a), w')
       | (Failed e, w') => (Done (Err e), w')
       | (Crashed, w') => (Crashed, w')
       end.
Definition elift {J A} (r : result A ErrorKind) : M J A :=
  match r with Ok a => eret a | Err e => efail e end.

Declare Scope edit_scope.
Delimit Scope edit_scope with edit.
Notation "x <~ m ; k" := (ebind m (λ x, k))
  (at level 20, m at level 100, k at level 200) : edit_scope.
Notation "m ~; k" := (ebind m (λ _, k))
  (at level 100, k at level 200, right associativity) : edit_scope.
#[local] Open Scope edit_scope.

(** One call to the system: the others move first. *)
Definition syscall {J} : M J tick :=
  λ w, match w_sched w with
       | [] => (Done idle, w)
       | t :: ts =>
           let w' := MkWorld (t_env t (w_disk w)) (w_journal w) (w_log w) ts in
           (match t_fate t with Go => Done t | Fail_io e => Failed e | Crash => Crashed end, w')
       end.
Definition get_disk {J} : M J disk := λ w, (Done (w_disk w), w).

(** What a capture of a file's state pins ([crates/fs/src/atomic.rs]). *)
Module FileState.
Record t := MkState {
  exists_ : bool; size : option N; digest : option FileHash; modified : option Z
}.
Definition absent : t := MkState false None None None.

Definition axis {A} `{EqDecision A} (a b : option A) : bool :=
  match a, b with Some x, Some y => bool_decide (x = y) | _, _ => true end.

Definition satisfied_by (self actual : t) : bool :=
  bool_decide (exists_ self = exists_ actual)
  && axis (size self) (size actual) && axis (digest self) (digest actual)
  && axis (modified self) (modified actual).

Definition of_file (f : option file) : t :=
  match f with
  | Some f => MkState true (Some (slen (bytes f))) None (modified_ms f)
  | None => absent
  end.
End FileState.

Definition is_Some_b {A} (o : option A) : bool := match o with Some _ => true | None => false end.

Section Engine.
Context {J : Type} `{!EditTxnJournal J}.
Variable hash : string → FileHash.                       (* blake3 *)
Variable set_language : Language → bool.                 (* tree-sitter *)
Variable parse : Language → string → option Node.

Definition jcall (f : J → result J ErrorKind) : M J unit :=
  syscall ~; λ w,
  match f (w_journal w) with
  | Ok j => (Done tt, MkWorld (w_disk w) j (w_log w) (w_sched w))
  | Err e => (Failed e, w)
  end.

(** ** Files ([crates/fs/src/atomic.rs], [workspace_service.rs], [lib.rs]) *)

(** [FileState::now] *)
Definition state_now (path : string) : M J FileState.t :=
  syscall ~; d <~ get_disk; eret (FileState.of_file (d !! path)).

(** The rename of the temporary file over [path]; the arguments after [new]
    only feed the log. *)
Definition rename_over (path new : string) (read : option string) (at_ : disk)
    (between : disk → disk) (t : tick) : M J unit :=
  λ w, (Done tt,
        MkWorld (<[path := MkFile new (t_now t)]> (w_disk w)) (w_journal w)
          (w_log w ++ [MkWrite path read at_ between (bytes <$> w_disk w !! path) new])%list
          (w_sched w)).

(** [FileState::now_with_digest]: a stat, then the file opened and streamed
    through the hasher.  Besides the state, for the log: the text the digest
    is of. *)
Definition now_with_digest (path : string) : M J (FileState.t * option string) :=
  state <~ state_now path;
  if negb (FileState.exists_ state) then eret (state, None)
  else
    t <~ syscall; d <~ get_disk;
    match d !! path with
    | None => efail Internal
    | Some f =>
        let text := t_read t (bytes f) in
        eret (FileState.MkState (FileState.exists_ state) (FileState.size state)
                (Some (hash text)) (FileState.modified state), Some text)
    end.

(** The last steps of [atomic_replace_cas_guarded], each a call of its own: the
    digest recheck, the walk of the parent directory ([verify]), the rename. *)
Definition recheck_and_rename (path : string) (expected : FileState.t) (new : string)
    : M J unit :=
  actual <~ now_with_digest path;
  if negb (FileState.satisfied_by expected actual.1) then efail Conflict
  else
    d <~ get_disk;
    v <~ syscall;
    t <~ syscall;
    rename_over path new actual.2 d (λ d, t_env t (t_env v d)) t.

Definition atomic_replace_cas_guarded (path : string) (expected : FileState.t) (new : string)
    : M J FileHash :=
  quick <~ state_now path;
  if negb (FileState.satisfied_by expected quick) then efail Conflict
  else recheck_and_rename path expected new ~; eret (hash new).

Definition write_atomic_cas (rel : string) (expected_hash : FileHash) (new : string)
    : M J FileHash :=
  st <~ state_now rel;
  if negb (FileState.exists_ st) then efail Conflict
  else atomic_replace_cas_guarded rel
         (FileState.MkState (FileState.exists_ st) (FileState.size st) (Some expected_hash)
            (FileState.modified st)) new.

Inductive ContentDigest := Full (h : FileHash) | Slice (h : FileHash) (offset len : N).
Record FileData := MkData { fd_bytes : string; fd_digest : ContentDigest }.

Definition read_open_bounded (content : string) (max_bytes : N) : FileData :=
  if (max_bytes <? slen content)%N
  then let b := stake (N.to_nat max_bytes) content in MkData b (Slice (hash b) 0 (slen b))
  else MkData content (Full (hash content)).

Definition full_hash (fd : FileData) : option FileHash :=
  match fd_digest fd with Full h => Some h | Slice _ _ _ => None end.

Definition read (rel : string) (max_bytes : N) : M J FileData :=
  t <~ syscall; d <~ get_disk;
  match d !! rel with
  | Some f => eret (read_open_bounded (t_read t (bytes f)) max_bytes)
  | None => efail NotFound
  end.

(** ** Guards *)
Definition require_owned_workspace (ws : WorkspaceHandle) : M J unit :=
  if ws_owned ws then eret tt else efail Permission.

Definition verify_identity (ws : WorkspaceHandle) (identity : N) : M J unit :=
  if (identity =? ws_id ws)%N then eret tt else efail Permission.

Definition budget (stage_budget : option N) : M J unit :=
  match stage_budget with
  | None => eret tt
  | Some b => t <~ syscall; if (b <? t_elapsed t)%N then efail Timeout else eret tt
  end.

Definition from_utf8 (b : string) : result string ErrorKind :=
  if utf8 b then Ok b else Err Malformed.

(** ** Staging: no write *)
Definition stage_one (ws : WorkspaceHandle) (identity : N) (req : EditRequest)
    (mode : RepairMode) : M J StagedEdit :=
  verify_identity ws identity ~;
  current <~ read (rq_path req) MAX_FILE_BYTES;
  match full_hash current with
  | None => efail Oversized
  | Some current_hash =>
      if negb (bool_decide (current_hash = rq_expected_hash req)) then efail Conflict
      else
        let original_bytes := fd_bytes current in
        original <~ elift (from_utf8 original_bytes);
        edited <~ elift (apply_ops original (rq_ops req));
        let '(suspicious, parse_error) :=
          check_syntax set_language parse (rq_path req) original edited in
        match suspicious, mode with
        | true, Rollback => efail Malformed
        | _, _ =>
            eret (MkStaged (rq_path req) current_hash (slen original_bytes) original_bytes edited
                    (List.length (rq_ops req)) suspicious parse_error)
        end
  end.

Fixpoint stage_all (ws : WorkspaceHandle) (identity : N) (reqs : list EditRequest)
    (mode : RepairMode) (stage_budget : option N) : M J (list StagedEdit) :=
  match reqs with
  | [] => eret []
  | req :: reqs' =>
      budget stage_budget ~;
      s <~ stage_one ws identity req mode;
      budget stage_budget ~;
      staged <~ stage_all ws identity reqs' mode stage_budget;
      eret (s :: staged)
  end.

Definition stage_batch (ws : WorkspaceHandle) (identity : N) (reqs : list EditRequest)
    (mode : RepairMode) (stage_budget : option N) : M J (list StagedEdit) :=
  verify_identity ws identity ~; stage_all ws identity reqs mode stage_budget.

Definition apply (ws : WorkspaceHandle) (identity : N) (req : EditRequest) (mode : RepairMode)
    : M J EditOutcome :=
  require_owned_workspace ws ~;
  staged <~ stage_one ws identity req mode;
  new_hash <~ write_atomic_cas (st_rel staged) (st_expected_hash staged) (st_edited staged);
  eret (MkEditOutcome new_hash (List.length (rq_ops req)) (st_suspicious staged)
          (st_parse_error staged)).

(** ** Commit *)
Definition record_if (txn : option N) (f : N → J → result J ErrorKind) : M J unit :=
  match txn with Some id => jcall (f id) | None => eret tt end.

Definition run_new : CommitRun := MkRun [] [] [] [] [] 0.

(** The restore of the files this run wrote, newest first: the swap expects
    the digest this run wrote. *)
Fixpoint restore_written (written : list (StagedEdit * FileHash)) (rb rc : list string)
    : M J (list string * list string) :=
  match written with
  | [] => eret (rb, rc)
  | (s, our_digest) :: rest =>
      r <~ etry (write_atomic_cas (st_rel s) our_digest (st_original s));
      match r with
      | Ok _ => restore_written rest (rb ++ [st_rel s])%list rc
      | Err _ => restore_written rest rb (rc ++ [st_rel s])%list
      end
  end.

(** The loop of [commit_staged] from the [i]-th file on; [written] holds the
    files this run wrote, newest first. *)
Fixpoint commit_loop (txn : option N) (strategy : EditTxnStrategy) (files : list StagedEdit)
    (i : nat) (written : list (StagedEdit * FileHash)) (run : CommitRun) : M J CommitRun :=
  match files with
  | [] =>
      record_if txn (λ id, record_committed id (map bf_path (run_committed run)) [] []) ~;
      eret run
  | s :: rest =>
      r <~ etry (write_atomic_cas (st_rel s) (st_expected_hash s) (st_edited s));
      match r with
      | Ok new_hash =>
          let run' :=
            MkRun (run_committed run ++
                     [MkBatchFile (st_rel s) new_hash (st_ops_applied s) (st_suspicious s)])%list
              (run_conflicted run) (run_skipped run) (run_rolled_back run)
              (run_rollback_conflicts run) (run_ops_applied_total run + st_ops_applied s) in
          record_if txn (λ id, record_progress id (N.of_nat i) (st_rel s) Committed) ~;
          commit_loop txn strategy rest (S i) ((s, new_hash) :: written) run'
      | Err e =>
          let conflicted := (run_conflicted run ++ [(st_rel s, e)])%list in
          let skipped := (run_skipped run ++ map st_rel rest)%list in
          record_if txn (λ id, record_progress id (N.of_nat i) (st_rel s) Conflicted) ~;
          match strategy with
          | RollBack =>
              restored <~ restore_written written (run_rolled_back run)
                            (run_rollback_conflicts run);
              let '(rb, rc) := restored in
              record_if txn (λ id, record_rolled_back id rb rc) ~;
              eret (MkRun (run_committed run) conflicted skipped rb rc
                      (run_ops_applied_total run))
          | RollForward =>
              record_if txn (λ id, record_committed id (map bf_path (run_committed run))
                                     (map fst conflicted) skipped) ~;
              eret (MkRun (run_committed run) conflicted skipped (run_rolled_back run)
                      (run_rollback_conflicts run) (run_ops_applied_total run))
          end
      end
  end.

Definition commit_staged (ws : WorkspaceHandle) (identity : N) (txn : option N)
    (strategy : EditTxnStrategy) (files : list StagedEdit) : M J CommitRun :=
  verify_identity ws identity ~; commit_loop txn strategy files 0 [] run_new.

Definition apply_many (ws : WorkspaceHandle) (identity : N) (reqs : list EditRequest)
    (mode : RepairMode) (stage_budget : option N) : M J CommitRun :=
  require_owned_workspace ws ~;
  staged <~ stage_batch ws identity reqs mode stage_budget;
  commit_staged ws identity None RollForward staged.

Definition commit_prepared (ws : WorkspaceHandle) (identity : N) (p : PreparedEdit)
    : M J CommitRun :=
  require_owned_workspace ws ~;
  commit_staged ws identity (Some (pe_txn_id p)) (pe_strategy p) (pe_files p).

(** ** Begin: stage everything, then the prepared record *)
Definition check_request (seen : gset string) (req : EditRequest) : result (gset string) ErrorKind :=
  if bool_decide (rq_path req = "") || (MAX_TXN_PATH_BYTES <? slen (rq_path req))%N
  then Err Malformed
  else if decide (rq_path req ∈ seen) then Err Malformed
  else Ok ({[rq_path req]} ∪ seen).

Fixpoint check_requests (seen : gset string) (reqs : list EditRequest) : result unit ErrorKind :=
  match reqs with
  | [] => Ok tt
  | req :: reqs' => seen' <-? check_request seen req; check_requests seen' reqs'
  end.

Definition payload_estimate (reqs : list EditRequest) : N :=
  foldl (λ acc r, (acc + (slen (rq_path r) + 152))%N) 224%N reqs.

Definition file_ref (s : StagedEdit) : EditTxnFileRef :=
  MkFileRef (st_rel s) (st_expected_hash s) (st_base_len s).

Definition begin_multi_file_edit (ws : WorkspaceHandle) (identity : N) (reqs : list EditRequest)
    (mode : RepairMode) (strategy : EditTxnStrategy) (txn_id : N) (session : string)
    (stage_budget : option N) : M J PreparedEdit :=
  require_owned_workspace ws ~;
  if bool_decide (reqs = []) then efail Malformed
  else if (MAX_TXN_FILES <? N.of_nat (List.length reqs))%N then efail Oversized
  else if bool_decide (session = "") || (128 <? slen session)%N then efail Malformed
  else
    elift (check_requests ∅ reqs) ~;
    λ w,
    (if (N.min (entry_payload_cap (w_journal w)) MAX_TXN_PAYLOAD_BYTES <? payload_estimate reqs)%N
     then efail Oversized
     else
       staged <~ stage_batch ws identity reqs mode stage_budget;
       jcall (record_prepared txn_id session (map file_ref staged) strategy) ~;
       eret (MkPrepared txn_id strategy staged)) w.

(** ** Recovery *)
Fixpoint validate_paths (seen : gset string) (files : list EditTxnFileRef) : bool :=
  match files with
  | [] => true
  | f :: files' =>
      if decide (f_path f ∈ seen) then false else validate_paths ({[f_path f]} ∪ seen) files'
  end.

Fixpoint validate_progress (files : list EditTxnFileRef) (seqs : gset N)
    (progress : list TxnProgressRow) : bool :=
  match progress with
  | [] => true
  | row :: rows =>
      if (N.of_nat (List.length files) <=? pr_seq row)%N then false
      else match files !! N.to_nat (pr_seq row) with
           | None => false
           | Some f =>
               if negb (bool_decide (f_path f = pr_path row)) then false
               else if decide (pr_seq row ∈ seqs) then false
               else validate_progress files ({[pr_seq row]} ∪ seqs) rows
           end
  end.

Definition validate_open_txn (txn : OpenEditTxn) : result unit ErrorKind :=
  if bool_decide (List.length (open_files txn) = 0) then Err Malformed
  else if negb (validate_paths ∅ (open_files txn)) then Err Malformed
  else if negb (validate_progress (open_files txn) ∅ (open_progress txn)) then Err Malformed
  else Ok tt.

Definition by_seq (progress : list TxnProgressRow) : gmap N TxnFileOutcome :=
  foldl (λ m row, <[pr_seq row := pr_outcome row]> m) ∅ progress.

(** The locals of [recover_one]'s loop. *)
Record RecoveryState := MkRec {
  rec_out : RecoveryTxnOutcome;
  rec_pre_run : list nat;
  rec_this_run : list JustWritten;
  rec_replay_stop : option nat
}.

Definition push_committed (p : string) (o : RecoveryTxnOutcome) : RecoveryTxnOutcome :=
  MkRecovered (ro_txn_id o) (ro_strategy o) (ro_committed o ++ [p])%list (ro_conflicted o)
    (ro_skipped o) (ro_rolled_back o) (ro_rollback_conflicts o) (ro_wrote o).
Definition push_conflicted (p : string) (o : RecoveryTxnOutcome) : RecoveryTxnOutcome :=
  MkRecovered (ro_txn_id o) (ro_strategy o) (ro_committed o) (ro_conflicted o ++ [p])%list
    (ro_skipped o) (ro_rolled_back o) (ro_rollback_conflicts o) (ro_wrote o).
Definition push_skipped (p : string) (o : RecoveryTxnOutcome) : RecoveryTxnOutcome :=
  MkRecovered (ro_txn_id o) (ro_strategy o) (ro_committed o) (ro_conflicted o)
    (ro_skipped o ++ [p])%list (ro_rolled_back o) (ro_rollback_conflicts o) (ro_wrote o).
Definition push_wrote (p : string) (o : RecoveryTxnOutcome) : RecoveryTxnOutcome :=
  MkRecovered (ro_txn_id o) (ro_strategy o) (ro_committed o) (ro_conflicted o)
    (ro_skipped o) (ro_rolled_back o) (ro_rollback_conflicts o) (ro_wrote o ++ [p])%list.
Definition push_rolled_back (p : string) (o : RecoveryTxnOutcome) : RecoveryTxnOutcome :=
  MkRecovered (ro_txn_id o) (ro_strategy o) (ro_committed o) (ro_conflicted o)
    (ro_skipped o) (ro_rolled_back o ++ [p])%list (ro_rollback_conflicts o) (ro_wrote o).
Definition push_rollback_conflict (p : string) (o : RecoveryTxnOutcome) : RecoveryTxnOutcome :=
  MkRecovered (ro_txn_id o) (ro_strategy o) (ro_committed o) (ro_conflicted o)
    (ro_skipped o) (ro_rolled_back o) (ro_rollback_conflicts o ++ [p])%list (ro_wrote o).
Definition clear_committed (o : RecoveryTxnOutcome) : RecoveryTxnOutcome :=
  MkRecovered (ro_txn_id o) (ro_strategy o) [] (ro_conflicted o)
    (ro_skipped o) (ro_rolled_back o) (ro_rollback_conflicts o) (ro_wrote o).
Definition outcome_new (open : OpenEditTxn) : RecoveryTxnOutcome :=
  MkRecovered (open_id open) (open_strategy open) [] [] [] [] [] [].

(** One file of the loop of [recover_one]. *)
Definition recover_file (ws : WorkspaceHandle) (identity : N) (mode : RepairMode)
    (open : OpenEditTxn) (resume : option EditTxnResume) (rollback_pending : bool)
    (i : nat) (f : EditTxnFileRef) (st : RecoveryState) : M J RecoveryState :=
  let o := rec_out st in
  match by_seq (open_progress open) !! N.of_nat i with
  | Some Committed =>
      eret (MkRec (push_committed (f_path f) o) (rec_pre_run st ++ [i])%list (rec_this_run st)
              (rec_replay_stop st))
  | Some Conflicted =>
      eret (MkRec (push_conflicted (f_path f) o) (rec_pre_run st) (rec_this_run st)
              (rec_replay_stop st))
  | None =>
      match rec_replay_stop st with
      | Some _ =>
          eret (MkRec (push_skipped (f_path f) o) (rec_pre_run st) (rec_this_run st)
                  (rec_replay_stop st))
      | None =>
          current <~ read (f_path f) MAX_FILE_BYTES;
          match full_hash current with
          | None => efail Oversized
          | Some current_hash =>
              if negb (bool_decide (current_hash = f_base_digest f)) then efail Conflict
              else if rollback_pending then
                eret (MkRec (push_skipped (f_path f) o) (rec_pre_run st) (rec_this_run st)
                        (rec_replay_stop st))
              else
                (* [needs_ops] implies a resume: [None] is unreachable *)
                match resume with
                | None => efail Internal
                | Some r =>
                    match rs_reqs r !! i with
                    | None => efail Malformed
                    | Some req =>
                        if negb (bool_decide (rq_path req = f_path f)) then efail Malformed
                        else if negb (bool_decide (rq_expected_hash req = f_base_digest f))
                        then efail Malformed
                        else
                          staged <~ stage_one ws identity req mode;
                          res <~ etry (write_atomic_cas (st_rel staged) (st_expected_hash staged)
                                         (st_edited staged));
                          match res with
                          | Ok new_hash =>
                              jcall (record_progress (open_id open) (N.of_nat i) (f_path f)
                                       Committed) ~;
                              eret (MkRec (push_wrote (f_path f) (push_committed (f_path f) o))
                                      (rec_pre_run st)
                                      (rec_this_run st ++
                                         [MkJust i new_hash (st_original staged)])%list
                                      (rec_replay_stop st))
                          | Err _ =>
                              jcall (record_progress (open_id open) (N.of_nat i) (f_path f)
                                       Conflicted) ~;
                              eret (MkRec (push_conflicted (f_path f) o) (rec_pre_run st)
                                      (rec_this_run st)
                                      (match open_strategy open with
                                       | RollBack => Some i
                                       | RollForward => rec_replay_stop st
                                       end))
                          end
                    end
                end
          end
      end
  end.

Fixpoint recover_files (ws : WorkspaceHandle) (identity : N) (mode : RepairMode)
    (open : OpenEditTxn) (resume : option EditTxnResume) (rollback_pending : bool)
    (i : nat) (files : list EditTxnFileRef) (st : RecoveryState) : M J RecoveryState :=
  match files with
  | [] => eret st
  | f :: files' =>
      st' <~ recover_file ws identity mode open resume rollback_pending i f st;
      recover_files ws identity mode open resume rollback_pending (S i) files' st'
  end.

(** [committed.sort_by_key] on the reversed index. *)
Definition rev_idx (a b : nat * option JustWritten) : Prop := b.1 ≤ a.1.
#[local] Instance rev_idx_dec : RelDecision rev_idx.
Proof. intros a b. unfold rev_idx. apply _. Defined.

Definition restore_order (pre_run : list nat) (this_run : list JustWritten)
    : list (nat * option JustWritten) :=
  merge_sort rev_idx
    (map (λ jw, (jw_idx jw, Some jw)) this_run ++ map (λ i, (i, None)) pre_run)%list.

(** The restore of one file committed before the crash. *)
Definition restore_pre_run (f : EditTxnFileRef) (resume : option EditTxnResume) (idx : nat)
    (o : RecoveryTxnOutcome) : M J RecoveryTxnOutcome :=
  current <~ read (f_path f) MAX_FILE_BYTES;
  match full_hash current with
  | None => efail Oversized
  | Some current_hash =>
      if bool_decide (current_hash = f_base_digest f) then eret (push_rolled_back (f_path f) o)
      else
        match resume with
        | None => efail Conflict
        | Some r =>
            match rs_before_content r (f_path f) with
            | None => efail Conflict
            | Some base =>
                if negb (bool_decide (hash base = f_base_digest f)) then efail Malformed
                else
                  match rs_reqs r !! idx with
                  | None => efail Malformed
                  | Some req =>
                      base_str <~ elift (from_utf8 base);
                      buf <~ elift (apply_ops base_str (rq_ops req));
                      res <~ etry (write_atomic_cas (f_path f) (hash buf) base_str);
                      match res with
                      | Ok _ => eret (push_rolled_back (f_path f) o)
                      | Err _ => eret (push_rollback_conflict (f_path f) o)
                      end
                  end
            end
        end
  end.

Fixpoint recovery_rollback (files : list EditTxnFileRef) (resume : option EditTxnResume)
    (todo : list (nat * option JustWritten)) (o : RecoveryTxnOutcome)
    : M J RecoveryTxnOutcome :=
  match todo with
  | [] => eret o
  | (idx, written) :: todo' =>
      match files !! idx with
      | None => efail Internal   (* unreachable: every index comes from the file list *)
      | Some f =>
          o' <~ match written with
                | Some jw =>
                    res <~ etry (write_atomic_cas (f_path f) (jw_new_hash jw) (jw_original jw));
                    match res with
                    | Ok _ => eret (push_rolled_back (f_path f) o)
                    | Err _ => eret (push_rollback_conflict (f_path f) o)
                    end
                | None => restore_pre_run f resume idx o
                end;
          recovery_rollback files resume todo' o'
      end
  end.

Definition find_resume (resumes : list EditTxnResume) (txn : N) : option EditTxnResume :=
  List.find (λ r, (rs_txn_id r =? txn)%N) resumes.

Definition has_conflict (progress : list TxnProgressRow) : bool :=
  existsb (λ r, bool_decide (pr_outcome r = Conflicted)) progress.

Definition recover_one (ws : WorkspaceHandle) (identity : N) (open : OpenEditTxn)
    (resumes : list EditTxnResume) (mode : RepairMode) : M J RecoveryTxnOutcome :=
  elift (validate_open_txn open) ~;
  let has_conflict_pre := has_conflict (open_progress open) in
  let roll_back := bool_decide (open_strategy open = RollBack) in
  let rollback_pending := roll_back && has_conflict_pre in
  let resume := find_resume resumes (open_id open) in
  let needs_ops := List.length (open_progress open) <? List.length (open_files open) in
  if negb (is_Some_b resume) && needs_ops then efail Conflict
  else
    st <~ recover_files ws identity mode open resume rollback_pending 0 (open_files open)
            (MkRec (outcome_new open) [] [] None);
    if roll_back && (has_conflict_pre || is_Some_b (rec_replay_stop st)) then
      o <~ recovery_rollback (open_files open) resume
             (restore_order (rec_pre_run st) (rec_this_run st)) (rec_out st);
      let o := clear_committed o in
      jcall (record_rolled_back (open_id open) (ro_rolled_back o) (ro_rollback_conflicts o)) ~;
      eret o
    else
      let o := rec_out st in
      jcall (record_committed (open_id open) (ro_committed o) (ro_conflicted o) (ro_skipped o)) ~;
      eret o.

Fixpoint recover_all (ws : WorkspaceHandle) (identity : N) (opens : list OpenEditTxn)
    (resumes : list EditTxnResume) (mode : RepairMode) : M J (list RecoveryTxnOutcome) :=
  match opens with
  | [] => eret []
  | open :: opens' =>
      o <~ recover_one ws identity open resumes mode;
      os <~ recover_all ws identity opens' resumes mode;
      eret (o :: os)
  end.

Fixpoint distinct_resumes (seen : gset N) (resumes : list EditTxnResume) : bool :=
  match resumes with
  | [] => true
  | r :: rs =>
      if decide (rs_txn_id r ∈ seen) then false else distinct_resumes ({[rs_txn_id r]} ∪ seen) rs
  end.

Definition recover_edit_transactions (ws : WorkspaceHandle) (identity : N)
    (resumes : list EditTxnResume) (mode : RepairMode) : M J (list RecoveryTxnOutcome) :=
  require_owned_workspace ws ~;
  verify_identity ws identity ~;
  if negb (distinct_resumes ∅ resumes) then efail Malformed
  else
    syscall ~; λ w,
    match open_transactions (w_journal w) with
    | Err e => (Failed e, w)
    | Ok opens => recover_all ws identity opens resumes mode w
    end.
End Engine.
