(* ===== verification/EditTxnThms.v ===== *)
(** * What the edit engine does to the disk, whatever the machine does

    Safety of [EditTxn] under every schedule: external writers, failing calls
    and crashes between any two calls.  The reasoning is a small program
    logic over the ghost log: [spec m P Q] says that every write of [m]
    satisfies [P] and every result satisfies [Q]. *)
From S2P Require Import Prelude Strings Bytes AgentMachine EditOps EditSyntax EditTxn.
From stdpp Require Import sorting.
#[local] Open Scope string_scope.
#[local] Open Scope nat_scope.
#[local] Open Scope edit_scope.

Definition spec {J A} (m : M J A) (P : write → Prop) (Q : A → Prop) : Prop :=
  ∀ w, (∃ l, w_log (m w).2 = (w_log w ++ l)%list ∧ Forall P l) ∧ ∀ a, (m w).1 = Done a → Q a.

Section Logic.
Context {J : Type}.
Implicit Types P : write → Prop.

Lemma spec_conseq {A} (m : M J A) P P' (Q Q' : A → Prop) :
  spec m P Q → (∀ x, P x → P' x) → (∀ a, Q a → Q' a) → spec m P' Q'.
Proof.
  intros Hm HP HQ w. destruct (Hm w) as [(l & Hl & Hp) Hq]. split; [|by eauto].
  exists l. split; [done|]. by eapply Forall_impl.
Qed.

Lemma spec_ret {A} (a : A) P (Q : A → Prop) : Q a → spec (eret (J:=J) a) P Q.
Proof. intros Hq w. split; [exists []; by rewrite app_nil_r|]. by intros ? [= <-]. Qed.

Lemma spec_fail {A} e P (Q : A → Prop) : spec (efail (J:=J) e) P Q.
Proof. intros w. split; [exists []; by rewrite app_nil_r|done]. Qed.

Lemma spec_bind {A B} (m : M J A) (k : A → M J B) P Q R :
  spec m P Q → (∀ a, Q a → spec (k a) P R) → spec (ebind m k) P R.
Proof.
  intros Hm Hk w. unfold ebind. destruct (Hm w) as [(l & Hl & Hp) Hq].
  destruct (m w) as [[a|e|] w'] eqn:E; cbn in *.
  - destruct (Hk a (Hq a eq_refl) w') as [(l' & Hl' & Hp') Hr]. split; [|done].
    exists (l ++ l')%list. rewrite Hl', Hl, app_assoc. split; [done|]. by apply Forall_app.
  - split; [eauto|done].
  - split; [eauto|done].
Qed.

Lemma spec_try {A} (m : M J A) P (Q : A → Prop) :
  spec m P Q → spec (etry m) P (λ r, ∀ a, r = Ok a → Q a).
Proof.
  intros Hm w. unfold etry. destruct (Hm w) as [(l & Hl & Hp) Hq].
  destruct (m w) as [[a|e|] w'] eqn:E; cbn in *; (split; [eauto|]); [|naive_solver..].
  intros r [= <-] a' [= <-]. by apply Hq.
Qed.

Lemma spec_lift {A} (r : result A ErrorKind) P (Q : A → Prop) :
  (∀ a, r = Ok a → Q a) → spec (elift (J:=J) r) P Q.
Proof. destruct r; intros H; [by apply spec_ret, H|apply spec_fail]. Qed.

Lemma spec_syscall P : spec (syscall (J:=J)) P (λ _, True).
Proof.
  intros w. unfold syscall. destruct (w_sched w) as [|t ts]; cbn;
    (split; [exists []; by rewrite app_nil_r|done]).
Qed.

Lemma spec_disk P : spec (get_disk (J:=J)) P (λ _, True).
Proof. intros w. split; [exists []; by rewrite app_nil_r|done]. Qed.

Lemma spec_if {A} (b : bool) (m m' : M J A) P Q :
  (b = true → spec m P Q) → (b = false → spec m' P Q) → spec (if b then m else m') P Q.
Proof. destruct b; auto. Qed.
End Logic.

Create HintDb spec.
#[local] Hint Resolve spec_syscall spec_disk spec_ret spec_fail : spec.
(** Step through a bind whose result nothing is asked of. *)
Ltac sbind := eapply spec_bind; [eauto with spec|intros].

Section Safety.
Context {J : Type} `{!EditTxnJournal J}.
Variable hash : string → FileHash.
Variable set_language : Language → bool.
Variable parse : Language → string → option Node.
Implicit Types P : write → Prop.

Lemma spec_jcall f P : spec (jcall (J:=J) f) P (λ _, True).
Proof.
  unfold jcall. sbind. intros w. destruct (f (w_journal w)); cbn;
    (split; [exists []; by rewrite app_nil_r|done]).
Qed.

Lemma spec_record_if txn f P : spec (record_if (J:=J) txn f) P (λ _, True).
Proof. destruct txn; [apply spec_jcall|by apply spec_ret]. Qed.

(** ** The compare-and-swap writer *)

(** Nothing was changed at the path from the moment the recheck opened the file
    to the rename: the recheck read the content it opened, and the others left
    that file alone. *)
Definition undisturbed (x : write) : Prop :=
  bytes <$> wr_at x !! wr_path x = wr_read x
  ∧ wr_between x (wr_at x) !! wr_path x = wr_at x !! wr_path x.

(** The recheck before the rename read [seen] from a file at the path, the rename replaced
    what the others left there in between, and that is [seen] itself when they
    changed nothing. *)
Definition rechecked (x : write) (seen : string) : Prop :=
  wr_read x = Some seen ∧ is_Some (wr_at x !! wr_path x)
  ∧ wr_old x = bytes <$> wr_between x (wr_at x) !! wr_path x
  ∧ (undisturbed x → wr_old x = Some seen).

Definition cas_write (path : string) (expected : FileHash) (new : string) (x : write) : Prop :=
  wr_path x = path ∧ wr_new x = new ∧ ∃ seen, rechecked x seen ∧ hash seen = expected.

Lemma state_now_spec path P :
  spec (state_now (J:=J) path) P (λ s, FileState.digest s = None).
Proof. unfold state_now. sbind. sbind. apply spec_ret. by destruct (_ !! path). Qed.

Lemma now_with_digest_spec path P :
  spec (now_with_digest (J:=J) hash path) P (λ _, True).
Proof.
  unfold now_with_digest. eapply spec_bind; [apply state_now_spec|]. intros s _.
  apply spec_if; intros _; [by apply spec_ret|]. sbind. sbind.
  destruct (_ !! path); [by apply spec_ret|apply spec_fail].
Qed.

(** The digest in the state is of the text that was read, from a file. *)
Lemma now_with_digest_read path (w w' : World J) a :
  now_with_digest hash path w = (Done a, w') →
  FileState.exists_ a.1 = true →
  ∃ text, a.2 = Some text ∧ FileState.digest a.1 = Some (hash text) ∧ is_Some (w_disk w' !! path).
Proof.
  unfold now_with_digest. unfold ebind at 1.
  destruct (state_now path w) as [[s|e|] w1]; [|done..].
  destruct (FileState.exists_ s) eqn:Es; cbn [negb]; [|intros [= <- <-]; cbn; congruence].
  unfold ebind, get_disk. destruct (syscall w1) as [[t|e|] w2]; [|done..]. cbn.
  destruct (w_disk w2 !! path) as [f|] eqn:Ef; [|done].
  intros [= <- <-] _. cbn. eauto.
Qed.

(** What follows the recheck: two more calls, the second one the rename. *)
Lemma rename_step path new read (w : World J) :
  ∃ l, w_log ((d <~ get_disk; v <~ syscall; t <~ syscall;
               rename_over path new read d (λ d, t_env t (t_env v d)) t) w).2
       = (w_log w ++ l)%list
    ∧ Forall (λ x, ∃ between, wr_old x = bytes <$> between (w_disk w) !! path
                              ∧ x = MkWrite path read (w_disk w) between (wr_old x) new) l.
Proof.
  assert (∃ l, w_log w = (w_log w ++ l)%list ∧ Forall
    (λ x, ∃ between, wr_old x = bytes <$> between (w_disk w) !! path
                     ∧ x = MkWrite path read (w_disk w) between (wr_old x) new) l) as Hnil
    by (exists []; by rewrite app_nil_r).
  unfold ebind, get_disk, syscall, rename_over. destruct w as [d j lg [|v [|t ts]]]; cbn in *.
  - eexists. split; [done|]. constructor; [|done]. by exists (λ d, d).
  - destruct (t_fate v); cbn; [|exact Hnil..].
    eexists. split; [done|]. constructor; [|done]. by exists (t_env v).
  - destruct (t_fate v); cbn; [|exact Hnil..]. destruct (t_fate t); cbn; [|exact Hnil..].
    eexists. split; [done|]. constructor; [|done]. by exists (λ d, t_env t (t_env v d)).
Qed.

Lemma recheck_and_rename_spec path expected h new :
  FileState.exists_ expected = true → FileState.digest expected = Some h →
  spec (recheck_and_rename (J:=J) hash path expected new) (cas_write path h new) (λ _, True).
Proof.
  intros Hex Hd w. unfold recheck_and_rename. unfold ebind at 1 4.
  destruct (now_with_digest_spec path (cas_write path h new) w) as [(l & Hl & Hp) _].
  destruct (now_with_digest hash path w) as [[a|e|] w1] eqn:Ea; cbn in Hl; [|by eauto..].
  destruct (FileState.satisfied_by expected a.1) eqn:Hs; cbn [negb]; [|by eauto].
  unfold FileState.satisfied_by in Hs. rewrite Hex, Hd in Hs.
  repeat apply andb_prop in Hs as [Hs ?]. apply bool_decide_eq_true in Hs.
  destruct (now_with_digest_read path w w1 a Ea (eq_sym Hs)) as (seen & Hr & Hds & Hf).
  rewrite Hds in *. cbn in *. repeat match goal with
    | H : bool_decide (_ = _) = true |- _ => apply bool_decide_eq_true in H end.
  split; [|done]. destruct (rename_step path new a.2 w1) as (l' & Hl' & Hp').
  exists (l ++ l')%list. rewrite app_assoc, <- Hl. split; [exact Hl'|]. apply Forall_app. split; [done|].
  eapply Forall_impl; [exact Hp'|]. intros x (between & Ho & ->). cbn in Ho.
  split_and!; [done..|]. exists seen. split; [|by symmetry].
  rewrite Hr. split_and!; [done..|]. intros [Hat Hb]. cbn in *. rewrite Ho, Hb, Hat. done.
Qed.

(** A swap writes only where the recheck read a text with the expected digest. *)
Lemma write_atomic_cas_spec path h new :
  spec (write_atomic_cas (J:=J) hash path h new) (cas_write path h new) (λ r, r = hash new).
Proof.
  unfold write_atomic_cas, atomic_replace_cas_guarded.
  eapply spec_bind; [apply state_now_spec|]. intros st _.
  destruct (FileState.exists_ st) eqn:Est; cbn [negb]; [|apply spec_fail].
  eapply spec_bind; [apply state_now_spec|]. intros quick _.
  apply spec_if; intros _; [apply spec_fail|].
  eapply (spec_bind _ _ _ (λ _, True)); [by apply recheck_and_rename_spec|intros; by apply spec_ret].
Qed.

(** ** Writes that are ours *)

(** The file at [path] with digest [digest] is edited by [ops], or our edit
    of it undone: the recheck read a text with the base's digest and the write
    puts the edited text there, or it read a text with the edited text's digest
    and the write puts the base back. *)
Definition our_write (path : string) (digest : FileHash) (ops : list EditOp) (x : write) : Prop :=
  wr_path x = path ∧
  ∃ base target seen, hash base = digest ∧ apply_ops base ops = Ok target ∧ rechecked x seen
    ∧ ((wr_new x = target ∧ hash seen = digest) ∨ (wr_new x = base ∧ hash seen = hash target)).

Definition request_write (reqs : list EditRequest) (x : write) : Prop :=
  ∃ req, req ∈ reqs ∧ our_write (rq_path req) (rq_expected_hash req) (rq_ops req) x.

(** What staging a request establishes. *)
Definition staged_for (req : EditRequest) (s : StagedEdit) : Prop :=
  st_rel s = rq_path req ∧ st_expected_hash s = rq_expected_hash req
  ∧ hash (st_original s) = rq_expected_hash req
  ∧ apply_ops (st_original s) (rq_ops req) = Ok (st_edited s)
  ∧ utf8 (st_original s) = true ∧ st_base_len s = slen (st_original s).

Lemma guard_spec (b : bool) e P : spec (if b then eret (J:=J) tt else efail e) P (λ _, True).
Proof. by apply spec_if; intros _; [apply spec_ret|apply spec_fail]. Qed.

Lemma budget_spec b P : spec (budget (J:=J) b) P (λ _, True).
Proof. destruct b; [|by apply spec_ret]. cbn. sbind. destruct (_ <? _)%N; [apply spec_fail|by apply spec_ret]. Qed.

Lemma read_spec rel max P :
  spec (read (J:=J) hash rel max) P (λ d, ∀ h, full_hash d = Some h → h = hash (fd_bytes d)).
Proof.
  unfold read. sbind. sbind. destruct (_ !! rel) as [f|]; [|apply spec_fail]. apply spec_ret.
  unfold read_open_bounded. destruct (max <? _)%N; cbn; naive_solver.
Qed.

Lemma from_utf8_Ok b s : from_utf8 b = Ok s ↔ s = b ∧ utf8 b = true.
Proof. unfold from_utf8. destruct (utf8 b); naive_solver. Qed.

Lemma stage_one_spec ws i req mode P :
  spec (stage_one (J:=J) hash set_language parse ws i req mode) P (staged_for req).
Proof.
  unfold stage_one, verify_identity. eapply spec_bind; [apply guard_spec|]. intros _ _.
  eapply spec_bind; [apply read_spec|]. intros cur Hcur.
  destruct (full_hash cur) as [h|] eqn:Eh; [|apply spec_fail].
  apply spec_if; intros Hb; [apply spec_fail|].
  apply negb_false_iff, bool_decide_eq_true in Hb. specialize (Hcur h Eh).
  eapply spec_bind; [apply spec_lift; intros a Ha; exact Ha|]. intros original Ho.
  apply from_utf8_Ok in Ho as [-> Hu].
  eapply spec_bind; [apply spec_lift; intros a Ha; exact Ha|]. intros edited_ He.
  destruct (check_syntax _ _ _ _ _) as [susp perr].
  destruct susp, mode; try apply spec_fail; apply spec_ret; split_and!; cbn; try done; by subst.
Qed.

Lemma stage_all_spec ws i reqs mode b P :
  spec (stage_all (J:=J) hash set_language parse ws i reqs mode b) P (Forall2 staged_for reqs).
Proof.
  induction reqs as [|req reqs IH]; cbn [stage_all]; [by apply spec_ret|].
  eapply spec_bind; [apply budget_spec|]. intros _ _.
  eapply spec_bind; [apply stage_one_spec|]. intros s Hs.
  eapply spec_bind; [apply budget_spec|]. intros _ _.
  eapply spec_bind; [apply IH|]. intros l Hl. apply spec_ret. by constructor.
Qed.

Lemma stage_batch_spec ws i reqs mode b P :
  spec (stage_batch (J:=J) hash set_language parse ws i reqs mode b) P (Forall2 staged_for reqs).
Proof.
  unfold stage_batch. eapply spec_bind; [apply guard_spec|]. intros _ _. apply stage_all_spec.
Qed.

(** ** Commit *)
Lemma cas_edit_ours reqs req s x :
  req ∈ reqs → staged_for req s → cas_write (st_rel s) (st_expected_hash s) (st_edited s) x →
  request_write reqs x.
Proof.
  intros Hin (Hr & He & Hh & Ha & _) (Hp & Hn & seen & Hseen & Hold). exists req. split; [done|].
  split; [congruence|]. exists (st_original s), (st_edited s), seen. split_and!; [done..|].
  left. split; [done|congruence].
Qed.

Lemma cas_restore_ours reqs req s x :
  req ∈ reqs → staged_for req s → cas_write (st_rel s) (hash (st_edited s)) (st_original s) x →
  request_write reqs x.
Proof.
  intros Hin (Hr & He & Hh & Ha & _) (Hp & Hn & seen & Hseen & Hold). exists req. split; [done|].
  split; [congruence|]. exists (st_original s), (st_edited s), seen. split_and!; [done..|].
  right. split; [done|congruence].
Qed.

Definition stage_of (reqs : list EditRequest) (s : StagedEdit) : Prop :=
  ∃ req, req ∈ reqs ∧ staged_for req s.

Lemma Forall2_stage_of reqs files : Forall2 staged_for reqs files → Forall (stage_of reqs) files.
Proof.
  intros H. apply Forall_forall. intros s Hs.
  apply list_elem_of_lookup in Hs as [i Hi].
  destruct (Forall2_lookup_r _ _ _ _ _ H Hi) as (req & Hreq & Hst).
  exists req. split; [|done]. by eapply list_elem_of_lookup_2.
Qed.

Definition wrote_ours (reqs : list EditRequest) (x : StagedEdit * FileHash) : Prop :=
  stage_of reqs x.1 ∧ x.2 = hash (st_edited x.1).

Lemma restore_written_spec reqs written rb rc :
  Forall (wrote_ours reqs) written →
  spec (restore_written (J:=J) hash written rb rc) (request_write reqs) (λ _, True).
Proof.
  intros H. revert rb rc. induction H as [|[s h] written [(req & Hin & Hst) Hh] _ IH]; intros rb rc;
    cbn [restore_written]; [by apply spec_ret|]. cbn in Hh; subst h.
  eapply spec_bind; [apply spec_try; eapply spec_conseq; [apply write_atomic_cas_spec| |]|].
  - intros x Hx. by eapply cas_restore_ours.
  - intros a Ha. exact Ha.
  - intros [|] _; apply IH.
Qed.

Lemma commit_loop_spec reqs txn strategy files i written run :
  Forall (stage_of reqs) files → Forall (wrote_ours reqs) written →
  spec (commit_loop (J:=J) hash txn strategy files i written run) (request_write reqs) (λ _, True).
Proof.
  intros H. revert i written run. induction H as [|s files Hs Hfiles IH]; intros i written run Hw;
    cbn [commit_loop].
  { eapply spec_bind; [apply spec_record_if|]. intros _ _. by apply spec_ret. }
  pose proof Hs as (req & Hin & Hst).
  eapply spec_bind; [apply spec_try; eapply spec_conseq; [apply write_atomic_cas_spec| |]|].
  - intros x Hx. by eapply cas_edit_ours.
  - intros a Ha. exact Ha.
  - intros [h|e] Hr; (eapply spec_bind; [apply spec_record_if|]; intros _ _).
    + apply IH. constructor; [|done]. split; [done|]. by apply Hr.
    + destruct strategy.
      * eapply spec_bind; [apply spec_record_if|]. intros _ _. by apply spec_ret.
      * eapply spec_bind; [by apply restore_written_spec|]. intros [rb rc] _.
        eapply spec_bind; [apply spec_record_if|]. intros _ _. by apply spec_ret.
Qed.

Lemma commit_staged_spec reqs ws i txn strategy files :
  Forall (stage_of reqs) files →
  spec (commit_staged (J:=J) hash ws i txn strategy files) (request_write reqs) (λ _, True).
Proof.
  intros H. unfold commit_staged. eapply spec_bind; [apply guard_spec|]. intros _ _.
  by apply commit_loop_spec.
Qed.

Lemma begin_spec ws i reqs mode strategy id session b P :
  spec (begin_multi_file_edit (J:=J) hash set_language parse ws i reqs mode strategy id session b) P
    (λ p, Forall2 staged_for reqs (pe_files p) ∧ pe_txn_id p = id ∧ pe_strategy p = strategy).
Proof.
  unfold begin_multi_file_edit. eapply spec_bind; [apply guard_spec|]. intros _ _.
  repeat (apply spec_if; intros _; [apply spec_fail|]).
  eapply spec_bind; [by apply (spec_lift _ _ (λ _, True))|]. intros _ _. 
  intros w. cbn beta. set (m := if (N.min _ _ <? _)%N then _ else _).
  assert (spec m P (λ p, Forall2 staged_for reqs (pe_files p) ∧ pe_txn_id p = id
                         ∧ pe_strategy p = strategy)) as H; [|exact (H w)].
  apply spec_if; intros _; [apply spec_fail|].
  eapply spec_bind; [apply stage_batch_spec|]. intros staged Hs.
  eapply spec_bind; [apply spec_jcall|]. intros _ _. by apply spec_ret.
Qed.

(** ** Recovery *)
Section Recover.
Context (open : OpenEditTxn) (resume : option EditTxnResume).

Definition txn_write (x : write) : Prop :=
  ∃ f r req, f ∈ open_files open ∧ resume = Some r ∧ req ∈ rs_reqs r
    ∧ our_write (f_path f) (f_base_digest f) (rq_ops req) x.

Definition just_ours (jw : JustWritten) : Prop :=
  ∃ f r req target, open_files open !! jw_idx jw = Some f ∧ resume = Some r ∧ req ∈ rs_reqs r
    ∧ hash (jw_original jw) = f_base_digest f ∧ apply_ops (jw_original jw) (rq_ops req) = Ok target
    ∧ jw_new_hash jw = hash target.

Lemma recover_file_spec ws i mode pending idx f st :
  open_files open !! idx = Some f → Forall just_ours (rec_this_run st) →
  spec (recover_file (J:=J) hash set_language parse ws i mode open resume pending idx f st)
    txn_write (λ st', Forall just_ours (rec_this_run st')).
Proof.
  intros Hf Hst. unfold recover_file.
  destruct (by_seq _ !! _) as [[]|]; [by apply spec_ret..|].
  destruct (rec_replay_stop st); [by apply spec_ret|].
  eapply spec_bind; [apply read_spec|]. intros cur _.
  destruct (full_hash cur) as [h|]; [|apply spec_fail].
  apply spec_if; intros _; [apply spec_fail|]. apply spec_if; intros _; [by apply spec_ret|].
  destruct resume as [r|] eqn:Er; [|apply spec_fail].
  destruct (rs_reqs r !! idx) as [req|] eqn:Ereq; [|apply spec_fail].
  apply spec_if; intros Hp; [apply spec_fail|]. apply spec_if; intros Hd; [apply spec_fail|].
  apply negb_false_iff, bool_decide_eq_true in Hp, Hd.
  eapply spec_bind; [apply stage_one_spec|]. intros s (Hr & He & Hh & Ha & _).
  assert (req ∈ rs_reqs r) as Hin by (by eapply list_elem_of_lookup_2).
  assert (f ∈ open_files open) as Hfin by (by eapply list_elem_of_lookup_2).
  eapply spec_bind; [apply spec_try; eapply spec_conseq; [apply write_atomic_cas_spec| |]|].
  - intros x (Hxp & Hn & seen & Hseen & Hold). exists f, r, req. split_and!; [done..|].
    split; [congruence|]. exists (st_original s), (st_edited s), seen.
    split_and!; [congruence|done|done|]. left. split; [done|congruence].
  - intros a Ha'. exact Ha'.
  - intros [nh|e] Hres; (eapply spec_bind; [apply spec_jcall|]; intros _ _); apply spec_ret; cbn.
    + apply Forall_app. split; [done|]. constructor; [|done].
      exists f, r, req, (st_edited s). split_and!; [done..|cbn; congruence|done|]. cbn. by apply Hres.
    + done.
Qed.

Lemma recover_files_spec ws i mode pending files idx st :
  (∀ k f, files !! k = Some f → open_files open !! (idx + k) = Some f) →
  Forall just_ours (rec_this_run st) →
  spec (recover_files (J:=J) hash set_language parse ws i mode open resume pending idx files st)
    txn_write (λ st', Forall just_ours (rec_this_run st')).
Proof.
  revert idx st. induction files as [|f files IH]; intros idx st Hf Hst; cbn [recover_files];
    [by apply spec_ret|].
  eapply spec_bind.
  - apply recover_file_spec; [|done]. specialize (Hf 0 f eq_refl). by rewrite Nat.add_0_r in Hf.
  - intros st' Hst'. apply IH; [|done]. intros k g Hk. specialize (Hf (S k) g Hk).
    by rewrite <- plus_n_Sm in Hf.
Qed.

Lemma restore_pre_run_spec f idx o :
  f ∈ open_files open →
  spec (restore_pre_run (J:=J) hash f resume idx o) txn_write (λ _, True).
Proof.
  intros Hf. unfold restore_pre_run. eapply spec_bind; [apply read_spec|]. intros cur _.
  destruct (full_hash cur) as [h|]; [|apply spec_fail].
  apply spec_if; intros _; [by apply spec_ret|].
  destruct resume as [r|] eqn:Er; [|apply spec_fail].
  destruct (rs_before_content r (f_path f)) as [base|]; [|apply spec_fail].
  apply spec_if; intros Hb; [apply spec_fail|].
  apply negb_false_iff, bool_decide_eq_true in Hb.
  destruct (rs_reqs r !! idx) as [req|] eqn:Ereq; [|apply spec_fail].
  eapply spec_bind; [apply spec_lift; intros a Ha; exact Ha|]. intros base_str Hs.
  apply from_utf8_Ok in Hs as [-> _].
  eapply spec_bind; [apply spec_lift; intros a Ha; exact Ha|]. intros target Ht.
  eapply spec_bind; [apply spec_try; eapply spec_conseq; [apply write_atomic_cas_spec| |]|].
  - intros x (Hp & Hn & seen & Hseen & Hold). exists f, r, req.
    split_and!; [done..|by eapply list_elem_of_lookup_2|]. split; [done|].
    exists base, target, seen. split_and!; [done..|]. by right.
  - intros a Ha. exact Ha.
  - intros [|] _; by apply spec_ret.
Qed.

Lemma recovery_rollback_spec todo o :
  Forall (λ t, ∀ jw, t.2 = Some jw → just_ours jw ∧ t.1 = jw_idx jw) todo →
  spec (recovery_rollback (J:=J) hash (open_files open) resume todo o) txn_write (λ _, True).
Proof.
  intros H. revert o. induction H as [|[idx written] todo Hjw _ IH]; intros o;
    cbn [recovery_rollback]; [by apply spec_ret|].
  destruct (open_files open !! idx) as [f|] eqn:Ef; [|apply spec_fail].
  assert (f ∈ open_files open) as Hf by (by eapply list_elem_of_lookup_2).
  eapply (spec_bind _ _ _ (λ _, True)); [|intros; apply IH].
  destruct written as [jw|]; [|by apply restore_pre_run_spec].
  destruct (Hjw jw eq_refl) as [(f' & r & req & target & Hf' & Hr & Hin & Hb & Ht & Hn) Hi].
  cbn in Hi. subst idx. assert (f' = f) as -> by congruence.
  eapply spec_bind; [apply spec_try; eapply spec_conseq; [apply write_atomic_cas_spec| |]|].
  - intros x (Hp & Hnew & seen & Hseen & Hold). exists f, r, req. split_and!; [done..|].
    split; [done|]. exists (jw_original jw), target, seen. split_and!; [done..|].
    right. split; [done|congruence].
  - intros a Ha. exact Ha.
  - intros [|] _; by apply spec_ret.
Qed.

Lemma restore_order_elem pre this t :
  t ∈ restore_order pre this ↔
  (∃ jw, t = (jw_idx jw, Some jw) ∧ jw ∈ this) ∨ (∃ i, t = (i, None) ∧ i ∈ pre).
Proof.
  unfold restore_order. rewrite merge_sort_Permutation, elem_of_app, !list_elem_of_fmap. done.
Qed.
End Recover.

Lemma recover_one_spec ws i open resumes mode :
  spec (recover_one (J:=J) hash set_language parse ws i open resumes mode)
    (txn_write open (find_resume resumes (open_id open))) (λ _, True).
Proof.
  unfold recover_one. eapply spec_bind; [by apply (spec_lift _ _ (λ _, True))|]. intros _ _.
  apply spec_if; intros _; [apply spec_fail|].
  eapply spec_bind; [apply recover_files_spec; [by intros k f|constructor]|]. intros st Hst.
  apply spec_if; intros _.
  - eapply spec_bind; [apply recovery_rollback_spec|].
    + apply Forall_forall. intros t Ht jw Hjw.
      apply restore_order_elem in Ht as [(jw' & -> & Hin)|(k & -> & _)]; [|done].
      injection Hjw as <-. split; [|done]. by eapply Forall_forall in Hst.
    + intros o _. eapply spec_bind; [apply spec_jcall|]. intros _ _. by apply spec_ret.
  - eapply spec_bind; [apply spec_jcall|]. intros _ _. by apply spec_ret.
Qed.

Definition recovery_write (opens : list OpenEditTxn) (resumes : list EditTxnResume) (x : write) :=
  ∃ open, open ∈ opens ∧ txn_write open (find_resume resumes (open_id open)) x.

Lemma recover_all_spec ws i opens resumes mode :
  spec (recover_all (J:=J) hash set_language parse ws i opens resumes mode)
    (recovery_write opens resumes) (λ _, True).
Proof.
  induction opens as [|open opens IH]; cbn [recover_all]; [by apply spec_ret|].
  eapply (spec_bind _ _ _ (λ _, True)).
  - eapply spec_conseq; [apply recover_one_spec| |done].
    intros x Hx. exists open. split; [left|done].
  - intros o _. eapply (spec_bind _ _ _ (λ _, True)); [|intros; by apply spec_ret].
    eapply spec_conseq; [apply IH| |done]. intros x (op & Hin & Hx). exists op. split; [by right|done].
Qed.

(** ** The journal of a transaction that does not begin *)
Definition keeps {A} (m : M J A) : Prop :=
  ∀ w, w_journal (m w).2 = w_journal w ∧ w_log (m w).2 = w_log w.

Lemma keeps_bind {A B} (m : M J A) (k : A → M J B) :
  keeps m → (∀ a, keeps (k a)) → keeps (ebind m k).
Proof.
  intros Hm Hk w. unfold ebind. destruct (Hm w) as [H1 H2].
  destruct (m w) as [[a|e|] w'] eqn:E; cbn in *; [|done..].
  destruct (Hk a w') as [H3 H4]. split; congruence.
Qed.
Lemma keeps_ret {A} (a : A) : keeps (eret a).
Proof. done. Qed.
Lemma keeps_fail {A} e : keeps (efail (A:=A) e).
Proof. done. Qed.
Lemma keeps_lift {A} (r : result A ErrorKind) : keeps (elift r).
Proof. by destruct r. Qed.
Lemma keeps_syscall : keeps syscall.
Proof. intros w. unfold syscall. by destruct (w_sched w). Qed.
Lemma keeps_if {A} (b : bool) (m m' : M J A) : keeps m → keeps m' → keeps (if b then m else m').
Proof. by destruct b. Qed.
#[local] Hint Resolve keeps_bind keeps_ret keeps_fail keeps_lift keeps_syscall keeps_if : spec.

Lemma keeps_read rel max : keeps (read hash rel max).
Proof.
  unfold read. apply keeps_bind; [auto with spec|]. intros t. apply keeps_bind; [done|].
  intros d. destruct (d !! rel); auto with spec.
Qed.

Lemma keeps_stage_one ws i req mode : keeps (stage_one hash set_language parse ws i req mode).
Proof.
  unfold stage_one, verify_identity. apply keeps_bind; [auto with spec|]. intros _.
  apply keeps_bind; [apply keeps_read|]. intros cur. destruct (full_hash cur); [|apply keeps_fail].
  apply keeps_if; [apply keeps_fail|].
  apply keeps_bind; [auto with spec|]. intros o. apply keeps_bind; [auto with spec|]. intros e.
  destruct (check_syntax _ _ _ _ _) as [[|] perr], mode; auto with spec.
Qed.

Lemma keeps_budget b : keeps (budget b).
Proof. destruct b; cbn; [|done]. apply keeps_bind; [auto with spec|]. intros; auto with spec. Qed.

Lemma keeps_stage_batch ws i reqs mode b :
  keeps (stage_batch hash set_language parse ws i reqs mode b).
Proof.
  unfold stage_batch, verify_identity. apply keeps_bind; [auto with spec|]. intros _.
  induction reqs as [|req reqs IH]; cbn [stage_all]; [done|].
  apply keeps_bind; [apply keeps_budget|]. intros _.
  apply keeps_bind; [apply keeps_stage_one|]. intros s.
  apply keeps_bind; [apply keeps_budget|]. intros _. apply keeps_bind; [apply IH|]. done.
Qed.

(** Followed by one journal call and a return. *)
Definition leaves {A} (m : M J A) : Prop :=
  ∀ w, w_log (m w).2 = w_log w ∧ ((∀ a, (m w).1 ≠ Done a) → w_journal (m w).2 = w_journal w).

Lemma keeps_leaves {A} (m : M J A) : keeps m → leaves m.
Proof. intros H w. destruct (H w). by split. Qed.

Lemma leaves_bind {A B} (m : M J A) (k : A → M J B) :
  keeps m → (∀ a, leaves (k a)) → leaves (ebind m k).
Proof.
  intros Hm Hk w. unfold ebind. destruct (Hm w) as [H1 H2].
  destruct (m w) as [[a|e|] w'] eqn:E; cbn in *; [|done..].
  destruct (Hk a w') as [H3 H4]. split; [congruence|]. intros H. rewrite H4; [done|exact H].
Qed.

Lemma leaves_jcall {A} f (a : A) : leaves (jcall f ~; eret a).
Proof.
  intros w. unfold jcall, ebind. destruct (keeps_syscall w) as [H1 H2].
  destruct (syscall w) as [[t|e|] w'] eqn:E; cbn in *; [|done..].
  destruct (f (w_journal w')); cbn; [|done]. split; [done|]. intros H. by destruct (H a).
Qed.

Lemma leaves_if {A} (b : bool) (m m' : M J A) : leaves m → leaves m' → leaves (if b then m else m').
Proof. by destruct b. Qed.

Lemma begin_leaves ws i reqs mode strategy id session b :
  leaves (begin_multi_file_edit hash set_language parse ws i reqs mode strategy id session b).
Proof.
  unfold begin_multi_file_edit. apply leaves_bind; [apply keeps_if; auto with spec|]. intros _.
  repeat (apply leaves_if; [apply keeps_leaves, keeps_fail|]).
  apply leaves_bind; [apply keeps_lift|]. intros _ w. cbn beta.
  set (m := if (N.min _ _ <? _)%N then _ else _). assert (leaves m) as H; [|exact (H w)].
  apply leaves_if; [apply keeps_leaves, keeps_fail|].
  apply leaves_bind; [apply keeps_stage_batch|]. intros staged. apply leaves_jcall.
Qed.

(** Recovery reads the open transactions from the journal as it found it. *)
Lemma recover_writes ws i resumes mode (w : World J) :
  ∃ l, w_log (recover_edit_transactions hash set_language parse ws i resumes mode w).2
       = (w_log w ++ l)%list
    ∧ Forall (λ x, ∃ opens, open_transactions (w_journal w) = Ok opens
                            ∧ recovery_write opens resumes x) l.
Proof.
  unfold recover_edit_transactions, require_owned_workspace, verify_identity, ebind.
  assert (∃ l, w_log w = (w_log w ++ l)%list
    ∧ Forall (λ x, ∃ opens, open_transactions (w_journal w) = Ok opens
                            ∧ recovery_write opens resumes x) l) as Hnil
    by (exists []; by rewrite app_nil_r).
  destruct (ws_owned ws); cbn; [|done]. destruct (_ =? _)%N; cbn; [|done].
  destruct (distinct_resumes _ _); cbn; [|done].
  destruct (keeps_syscall w) as [H1 H2].
  destruct (syscall w) as [[t|e|] w'] eqn:E; cbn in *; [|by rewrite H2..].
  rewrite H1. destruct (open_transactions (w_journal w)) as [opens|e] eqn:Eo; [|cbn; rewrite H2; exact Hnil].
  destruct (recover_all_spec ws i opens resumes mode w') as [(l & Hl & Hp) _].
  exists l. rewrite Hl, H2. split; [done|]. eapply Forall_impl; [exact Hp|]. eauto.
Qed.

(** C3: the engine writes only where it has just rechecked the file. Under
    every schedule of external writes, failing calls and crashes, every write a
    transaction makes - while it is begun and committed, rolled back, or
    recovered from any journal - follows a recheck that read a file at that very
    path, and either puts the edited text of one of its requests there, the
    recheck having read a text with the digest the request was validated
    against, or puts the validated text back, the recheck having read a text
    with the digest of our own edit. The text replaced is the one the recheck
    read, unless others changed the file between the opening of the file by the
    recheck and the rename: then it is what they left there. Beginning a
    transaction writes nothing, and when it does not succeed it leaves no
    journal row. *)
Theorem engine_writes_after_recheck ws identity mode :
  (∀ reqs strategy id session b,
     spec (J:=J) (p <~ begin_multi_file_edit hash set_language parse ws identity reqs mode strategy
                         id session b; commit_prepared hash ws identity p)
       (request_write reqs) (λ _, True))
  ∧ (∀ reqs b,
       spec (J:=J) (apply_many hash set_language parse ws identity reqs mode b)
         (request_write reqs) (λ _, True))
  ∧ (∀ req,
       spec (J:=J) (EditTxn.apply hash set_language parse ws identity req mode)
         (request_write [req]) (λ _, True))
  ∧ (∀ resumes (w : World J), ∃ l,
       w_log (recover_edit_transactions hash set_language parse ws identity resumes mode w).2
       = (w_log w ++ l)%list
       ∧ Forall (λ x, ∃ opens, open_transactions (w_journal w) = Ok opens
                               ∧ recovery_write opens resumes x) l)
  ∧ (∀ reqs strategy id session b (w : World J),
       let r := begin_multi_file_edit hash set_language parse ws identity reqs mode strategy
                  id session b w in
       w_log r.2 = w_log w ∧ ((∀ p, r.1 ≠ Done p) → w_journal r.2 = w_journal w)).
Proof.
  split_and!.
  - intros reqs strategy id session b. eapply spec_bind; [apply begin_spec|].
    intros p (Hp & _). unfold commit_prepared. eapply spec_bind; [apply guard_spec|]. intros _ _.
    by apply commit_staged_spec, Forall2_stage_of.
  - intros reqs b. unfold apply_many. eapply spec_bind; [apply guard_spec|]. intros _ _.
    eapply spec_bind; [apply stage_batch_spec|]. intros files Hf.
    by apply commit_staged_spec, Forall2_stage_of.
  - intros req. unfold EditTxn.apply. eapply spec_bind; [apply guard_spec|]. intros _ _.
    eapply spec_bind; [apply stage_one_spec|]. intros s Hs.
    eapply (spec_bind _ _ _ (λ _, True)); [|intros; by apply spec_ret].
    eapply spec_conseq; [apply write_atomic_cas_spec| |done].
    intros x Hx. eapply cas_edit_ours; [|done..]. left.
  - intros resumes w. apply recover_writes.
  - intros reqs strategy id session b w. cbn. apply begin_leaves.
Qed.
End Safety.

(** The window is real: a text another program puts there after the recheck is
    lost, and the write reports success. *)
Example write_in_the_window_is_lost :
  let others := λ d : disk, <["f" := MkFile "theirs" None]> d in
  let w := MkWorld {["f" := MkFile "old" None]} tt []
             [idle; idle; idle; idle; idle; MkTick others id None 0 Go] in
  let r := write_atomic_cas id "f" "old" "new" w in
  r.1 = Done "new" ∧ bytes <$> w_disk r.2 !! "f" = Some "new"
  ∧ map (λ x, (wr_read x, wr_old x)) (w_log r.2) = [(Some "old", Some "theirs")].
Proof. by vm_compute. Qed.

(** A text they put there before the recheck is a conflict, and stays. *)
Example write_before_the_recheck_is_kept :
  let others := λ d : disk, <["f" := MkFile "theirs" None]> d in
  let w := MkWorld {["f" := MkFile "old" None]} tt []
             [idle; idle; MkTick others id None 0 Go] in
  let r := write_atomic_cas id "f" "old" "new" w in
  r.1 = Failed Conflict ∧ bytes <$> w_disk r.2 !! "f" = Some "theirs".
Proof. by vm_compute. Qed.
