(* ===== verification/EditRecovery.v ===== *)
(** * Crash recovery of a multi-file edit

    On a machine nobody else writes to, but which may die between any two
    calls, any number of times: a transaction that began either ends with
    every file edited and the journal closed, or stops in front of the one
    file whose write landed without its progress row, and then recovery
    refuses and touches nothing.

    The journal is any implementation of [LawfulJournal]: what the engine
    needs of one, stated on the rows it has recorded. *)
From stdpp Require Import sorting.
From S2P Require Import Prelude Strings Bytes AgentMachine EditOps EditSyntax EditTxn EditTxnThms.
#[local] Open Scope string_scope.
#[local] Open Scope nat_scope.
#[local] Open Scope edit_scope.

(** ** What a journal promises *)
Inductive TxnRow :=
  | RPrepared (id : N) (files : list EditTxnFileRef) (strategy : EditTxnStrategy)
  | RProgress (id : N) (row : TxnProgressRow)
  | REnd (id : N).

Definition row_id (r : TxnRow) : N :=
  match r with RPrepared id _ _ | RProgress id _ | REnd id => id end.

Definition fresh (id : N) (rows : list TxnRow) : Prop := Forall (λ r, row_id r ≠ id) rows.

Definition progress_ok (files : list EditTxnFileRef) (ps : list TxnProgressRow) : Prop :=
  Forall (λ r, ∃ f, files !! N.to_nat (pr_seq r) = Some f ∧ f_path f = pr_path r) ps
  ∧ StronglySorted N.lt (map pr_seq ps).

(** Only finished transactions. *)
Inductive settled : list TxnRow → Prop :=
  | settled_nil : settled []
  | settled_txn pre id files strategy ps :
      settled pre → fresh id pre → progress_ok files ps →
      settled (pre ++ RPrepared id files strategy :: map (RProgress id) ps ++ [REnd id])%list.

Class LawfulJournal (J : Type) `{!EditTxnJournal J} := {
  jview : J → list TxnRow;
  jsane : J → Prop;
  (** A transaction whose prepared row went in fits its later rows too. *)
  jaccepts : N → list string → Prop;
  law_prepared id s files strategy j j' :
    jsane j → record_prepared id s files strategy j = Ok j' →
    jsane j' ∧ jview j' = (jview j ++ [RPrepared id files strategy])%list
    ∧ jaccepts id (map f_path files);
  law_progress id paths seq p o j :
    jsane j → jaccepts id paths → p ∈ paths →
    ∃ j', record_progress id seq p o j = Ok j' ∧ jsane j'
          ∧ jview j' = (jview j ++ [RProgress id (MkProgress seq p o)])%list;
  law_committed id paths c cf sk j :
    jsane j → jaccepts id paths → (c ++ cf ++ sk)%list ⊆+ paths →
    ∃ j', record_committed id c cf sk j = Ok j' ∧ jsane j'
          ∧ jview j' = (jview j ++ [REnd id])%list;
  law_rolled_back id paths rb rc j :
    jsane j → jaccepts id paths → (rb ++ rc)%list ⊆+ paths →
    ∃ j', record_rolled_back id rb rc j = Ok j' ∧ jsane j'
          ∧ jview j' = (jview j ++ [REnd id])%list;
  law_none_open j : jsane j → settled (jview j) → open_transactions j = Ok [];
  law_one_open j pre id files strategy ps :
    jsane j → settled pre → fresh id pre → progress_ok files ps →
    jview j = (pre ++ RPrepared id files strategy :: map (RProgress id) ps)%list →
    open_transactions j = Ok [MkOpen id strategy files ps]
}.

(** ** A machine that only crashes *)
Definition calm_tick (t : tick) : Prop :=
  (∀ d, t_env t d = d) ∧ (∀ c, t_read t c = c) ∧ (t_fate t = Go ∨ t_fate t = Crash).
Definition calm {J} (w : World J) : Prop := Forall calm_tick (w_sched w).

Definition text {J} (w : World J) (p : string) : option string := bytes <$> w_disk w !! p.

(** The machine restarts and goes on under another schedule. *)
Definition reboot {J} (sched : list tick) (w : World J) : World J :=
  MkWorld (w_disk w) (w_journal w) (w_log w) sched.

(** [post Q E C]: the assertions for a result, an error and a crash. *)
Definition post {J A} (Q : A → World J → Prop) (E : ErrorKind → World J → Prop)
    (C : World J → Prop) (r : outcome A * World J) : Prop :=
  match r with
  | (Done a, w) => Q a w
  | (Failed e, w) => E e w
  | (Crashed, w) => C w
  end.

(** Two worlds with the same files and journal. *)
Definition same {J} (w w' : World J) : Prop :=
  calm w' ∧ w_disk w' = w_disk w ∧ w_journal w' = w_journal w.

Section Calm.
Context {J : Type} `{!EditTxnJournal J}.
Implicit Types w : World J.

Lemma post_conseq {A} (Q Q' : A → World J → Prop) E E' C C' r :
  post Q E C r → (∀ a w, Q a w → Q' a w) → (∀ e w, E e w → E' e w) → (∀ w, C w → C' w) →
  post Q' E' C' r.
Proof. destruct r as [[]]; cbn; eauto. Qed.

Lemma post_bind {A B} (m : M J A) (k : A → M J B) w Q Q' E C :
  post Q E C (m w) → (∀ a w', Q a w' → post Q' E C (k a w')) → post Q' E C (ebind m k w).
Proof. unfold ebind. destruct (m w) as [[] w']; cbn; auto. Qed.

Lemma post_try {A} (m : M J A) w Q E C :
  post Q (λ _ _, False) C (m w) →
  post (λ r w', ∃ a, r = Ok a ∧ Q a w') E C (etry m w).
Proof. unfold etry. destruct (m w) as [[]]; cbn; naive_solver. Qed.

Lemma same_refl w : calm w → same w w.
Proof. done. Qed.
Lemma same_trans w1 w2 w3 : same w1 w2 → same w2 w3 → same w1 w3.
Proof. intros (? & ? & ?) (? & ? & ?). split_and!; [done|congruence..]. Qed.

(** Calls, relative to the world [w] the assertions are about. *)
Lemma syscall_calm w w1 :
  same w w1 → post (λ t w', same w w' ∧ ∀ c, t_read t c = c) (λ _ _, False) (same w) (syscall w1).
Proof.
  intros (Hc & Hd & Hj). revert Hc. unfold calm, syscall.
  destruct (w_sched w1) as [|t ts] eqn:E; intros Hc; cbn.
  - split; [|done]. split_and!; [|done..]. unfold calm. by rewrite E.
  - inversion Hc as [|? ? (Henv & Hread & Hf) Hts]; subst. rewrite Henv.
    destruct Hf as [-> | ->]; cbn; [split; [|done]|]; by split_and!.
Qed.

Lemma state_now_calm path w w1 :
  same w w1 → post (λ s w', same w w' ∧ s = FileState.of_file (w_disk w !! path))
                (λ _ _, False) (same w) (state_now path w1).
Proof.
  intros H. unfold state_now. eapply post_bind; [by apply syscall_calm|].
  intros t w' [Hs _]. cbn in *. split; [done|]. pose proof Hs as (_ & Hd & _). by rewrite Hd.
Qed.

(** A journal call that accepts its row. *)
Lemma jcall_calm (f : J → result J ErrorKind) j' w w1 :
  same w w1 → f (w_journal w) = Ok j' →
  post (λ _ w', calm w' ∧ w_disk w' = w_disk w ∧ w_journal w' = j') (λ _ _, False) (same w)
    (jcall f w1).
Proof.
  intros H Hf. unfold jcall. eapply post_bind; [by apply syscall_calm|].
  intros t w' [(Hc' & Hd & Hj) _]. rewrite Hj, Hf. cbn. by split_and!.
Qed.

Variable hash : string → FileHash.

Lemma axis_refl {A} `{EqDecision A} (a : option A) : FileState.axis a a = true.
Proof. destruct a; cbn; [by apply bool_decide_eq_true_2|done]. Qed.

(** A capture of [f] that also pins its digest is satisfied by [f]. *)
Lemma satisfied_by_digest f :
  FileState.satisfied_by
    (FileState.MkState true (Some (slen (bytes f))) (Some (hash (bytes f))) (modified_ms f))
    (FileState.of_file (Some f)) = true
  ∧ FileState.satisfied_by
      (FileState.MkState true (Some (slen (bytes f))) (Some (hash (bytes f))) (modified_ms f))
      (FileState.MkState true (Some (slen (bytes f))) (Some (hash (bytes f))) (modified_ms f)) = true.
Proof.
  unfold FileState.satisfied_by. cbn. rewrite !axis_refl. by rewrite !bool_decide_eq_true_2.
Qed.

(** With nobody else writing, the recheck reads the file as it is. *)
Lemma now_with_digest_calm path f w w1 :
  same w w1 → w_disk w !! path = Some f →
  post (λ a w', same w w' ∧ a.1 = FileState.MkState true (Some (slen (bytes f)))
                                    (Some (hash (bytes f))) (modified_ms f))
    (λ _ _, False) (same w) (now_with_digest hash path w1).
Proof.
  intros H1 Hf. unfold now_with_digest.
  eapply post_bind; [by apply state_now_calm|]. intros s w2 [H2 ->]. rewrite Hf.
  cbn [FileState.of_file FileState.exists_ negb FileState.size FileState.modified].
  eapply post_bind; [by apply syscall_calm|]. intros t w3 [H3 Hread].
  pose proof H3 as (_ & Hd & _). unfold ebind, get_disk. rewrite Hd, Hf, Hread. by split.
Qed.

(** With nobody else writing, a swap over the expected text goes through or
    does not happen. *)
Lemma write_atomic_cas_calm path f new w w1 :
  same w w1 → w_disk w !! path = Some f →
  post (λ r w', r = hash new ∧ calm w' ∧ w_journal w' = w_journal w
                ∧ ∃ t, w_disk w' = <[path := MkFile new t]> (w_disk w))
    (λ _ _, False) (same w) (write_atomic_cas hash path (hash (bytes f)) new w1).
Proof.
  intros H1 Hf. destruct (satisfied_by_digest f) as [Hs1 Hs2].
  unfold write_atomic_cas, atomic_replace_cas_guarded.
  eapply post_bind; [by apply state_now_calm|]. intros st w2 [H2 ->]. rewrite Hf.
  cbn [FileState.of_file FileState.exists_ negb FileState.size FileState.modified].
  eapply post_bind; [by apply state_now_calm|]. intros quick w3 [H3 ->].
  rewrite Hf, Hs1. cbn [negb].
  eapply (post_bind _ _ _ (λ _ w', calm w' ∧ w_journal w' = w_journal w
                ∧ ∃ t, w_disk w' = <[path := MkFile new t]> (w_disk w))).
  2: { intros t w' H. cbn. split; [done|apply H]. }
  unfold recheck_and_rename.
  eapply post_bind; [by apply now_with_digest_calm|]. intros a w4 [H4 ->].
  rewrite Hs2. cbn [negb]. eapply (post_bind _ _ _ (λ _, same w)); [by cbn|]. intros d w5 H5.
  eapply post_bind; [by apply syscall_calm|]. intros v w6 [H6 _].
  eapply post_bind; [by apply syscall_calm|]. intros t w7 [(Hc & Hd & Hj) _].
  cbn. split_and!; [done|done|]. exists (t_now t). by rewrite Hd.
Qed.

Lemma read_calm path f max w w1 :
  same w w1 → w_disk w !! path = Some f →
  post (λ d w', same w w' ∧ d = read_open_bounded hash (bytes f) max) (λ _ _, False) (same w)
    (read hash path max w1).
Proof.
  intros Hc Hf. unfold read. eapply post_bind; [by apply syscall_calm|].
  intros t w' [H Hread]. pose proof H as (_ & Hd & _). unfold ebind, get_disk.
  by rewrite Hd, Hf, Hread.
Qed.

Lemma read_whole c max :
  (slen c <= max)%N → read_open_bounded hash c max = MkData c (Full (hash c)).
Proof. intros H. unfold read_open_bounded. by destruct (N.ltb_spec max (slen c)); [lia|]. Qed.
End Calm.

(** ** Repeated recovery *)
Section Recoveries.
Context {J : Type} `{!EditTxnJournal J}.
Variable hash : string → FileHash.
Variable set_language : Language → bool.
Variable parse : Language → string → option Node.

(** Recovery runs that may each crash, one after the other. *)
Fixpoint recoveries (ws : WorkspaceHandle) (resumes : list EditTxnResume) (mode : RepairMode)
    (scheds : list (list tick)) (w : World J) : World J :=
  match scheds with
  | [] => w
  | s :: scheds' =>
      recoveries ws resumes mode scheds'
        (recover_edit_transactions hash set_language parse ws (ws_id ws) resumes mode
           (reboot s w)).2
  end.

End Recoveries.

(** ** One transaction *)
Section Txn.
Context {J : Type} `{!EditTxnJournal J} `{!LawfulJournal J}.
Variable hash : string → FileHash.
Variable set_language : Language → bool.
Variable parse : Language → string → option Node.

(** All staging learns of a request. *)
Definition staged_full (mode : RepairMode) (req : EditRequest) (s : StagedEdit) : Prop :=
  staged_for hash req s ∧ (slen (st_original s) <= MAX_FILE_BYTES)%N
  ∧ check_syntax set_language parse (rq_path req) (st_original s) (st_edited s)
    = (st_suspicious s, st_parse_error s)
  ∧ (st_suspicious s = true → mode = AllowModelRepair)
  ∧ st_ops_applied s = List.length (rq_ops req).

Lemma staged_full_eq mode req s :
  staged_full mode req s →
  s = MkStaged (rq_path req) (rq_expected_hash req) (slen (st_original s)) (st_original s)
        (st_edited s) (List.length (rq_ops req)) (st_suspicious s) (st_parse_error s).
Proof.
  intros [(H1 & H2 & _ & _ & _ & H3) (_ & _ & _ & H4)]. destruct s; cbn in *. by subst.
Qed.

(** Staging the text a request was staged on gives the same staged edit. *)
Lemma stage_one_calm mode ws i req s f (w w1 : World J) :
  staged_full mode req s → i = ws_id ws → same w w1 →
  w_disk w !! rq_path req = Some f → bytes f = st_original s →
  post (λ r w', same w w' ∧ r = s) (λ _ _, False) (same w)
    (stage_one hash set_language parse ws i req mode w1).
Proof.
  intros Hfull -> H1 Hf Hb. pose proof Hfull as [(_ & He & Hh & Ha & Hu & _) (Hlen & Hsyn & Hmode & _)].
  unfold stage_one, verify_identity. rewrite N.eqb_refl.
  eapply (post_bind _ _ _ (λ _, same w)); [by cbn|]. intros _ w2 H2.
  eapply post_bind; [by apply read_calm|]. intros d w3 [H3 ->]. rewrite read_whole by (by rewrite Hb).
  unfold full_hash. cbn [fd_digest fd_bytes]. rewrite Hb, Hh, bool_decide_eq_true_2 by done.
  cbn [negb]. unfold from_utf8. rewrite Hu. cbn [elift].
  eapply (post_bind _ _ _ (λ a w', same w w' ∧ a = st_original s)); [by cbn|]. intros ? w4 [H4 ->].
  rewrite Ha. cbn [elift].
  eapply (post_bind _ _ _ (λ a w', same w w' ∧ a = st_edited s)); [by cbn|]. intros ? w5 [H5 ->].
  rewrite Hsyn. pose proof (staged_full_eq _ _ _ Hfull) as Heq.
  destruct (st_suspicious s) eqn:Es; [rewrite (Hmode eq_refl)|]; (split; [done|symmetry; exact Heq]).
Qed.

Context (mode : RepairMode) (reqs : list EditRequest) (files : list StagedEdit).
Context (id : N) (strategy : EditTxnStrategy) (pre : list TxnRow).
Context (text0 : string → option string).
Hypothesis Hstaged : Forall2 (staged_full mode) reqs files.
Hypothesis Hnodup : NoDup (map st_rel files).
Hypothesis Hpre : settled pre.
Hypothesis Hfresh : fresh id pre.
Hypothesis Haccepts : jaccepts id (map st_rel files).
(** The digest tells an edit from its base, where they differ. *)
Hypothesis Hdigest : Forall (λ s, hash (st_edited s) = hash (st_original s) →
                                  st_edited s = st_original s) files.

Notation n := (List.length files).
Notation paths := (map st_rel files).
Notation refs := (map file_ref files).

Definition rows_upto (m : nat) : list TxnProgressRow :=
  imap (λ i s, MkProgress (N.of_nat i) (st_rel s) Committed) (take m files).

(** The first [k] files are edited, the others as they were, and nothing
    else has changed. *)
Definition disk_at (k : nat) (w : World J) : Prop :=
  (∀ i s, files !! i = Some s →
     text w (st_rel s) = Some (if decide (i < k) then st_edited s else st_original s))
  ∧ ∀ p, p ∉ paths → text w p = text0 p.

Definition journal_at (m : nat) (tail : list TxnRow) (w : World J) : Prop :=
  jsane (w_journal w)
  ∧ jview (w_journal w)
    = (pre ++ RPrepared id refs strategy :: map (RProgress id) (rows_upto m) ++ tail)%list.

(** [m] rows recorded, [k] files written. *)
Definition at_ (m k : nat) (w : World J) : Prop := calm w ∧ journal_at m [] w ∧ disk_at k w.
Definition ended (w : World J) : Prop := calm w ∧ journal_at n [REnd id] w ∧ disk_at n w.

Definition inv (w : World J) : Prop :=
  ended w ∨ (∃ m, m ≤ n ∧ at_ m m w) ∨ (∃ m, m < n ∧ at_ m (S m) w).

Lemma disk_at_same k w w' : w_disk w' = w_disk w → disk_at k w → disk_at k w'.
Proof. intros Hd [H1 H2]. unfold disk_at, text. rewrite Hd. by split. Qed.

Lemma at_same m k w w' : same w w' → at_ m k w → at_ m k w'.
Proof.
  intros (Hc & Hd & Hj) (_ & Hjr & Hdk). split_and!; [done| |by eapply disk_at_same].
  unfold journal_at. by rewrite Hj.
Qed.

Lemma file_at k w i s :
  disk_at k w → files !! i = Some s → k ≤ i →
  ∃ f, w_disk w !! st_rel s = Some f ∧ bytes f = st_original s.
Proof.
  intros [Hd _] Hs Hk. specialize (Hd i s Hs). unfold text in Hd.
  destruct (w_disk w !! st_rel s) as [f|]; [|done]. exists f. split; [done|].
  rewrite decide_False in Hd by lia. by injection Hd.
Qed.

Lemma paths_inj i j s t : files !! i = Some s → files !! j = Some t → st_rel s = st_rel t → i = j.
Proof using Hnodup.
  intros Hs Ht E. eapply (NoDup_lookup paths); [done|by rewrite list_lookup_fmap, Hs|].
  by rewrite list_lookup_fmap, Ht, E.
Qed.

Lemma disk_step k w w' s t :
  disk_at k w → files !! k = Some s →
  w_disk w' = <[st_rel s := MkFile (st_edited s) t]> (w_disk w) → disk_at (S k) w'.
Proof using Hnodup.
  intros [Hd Ho] Hs E. unfold disk_at, text. rewrite E. split.
  - intros i s' Hs'. destruct (decide (i = k)) as [->|Hne].
    + replace s' with s by congruence. rewrite lookup_insert_eq, decide_True by lia. done.
    + rewrite lookup_insert_ne; [|intros Heq; by destruct Hne; eapply paths_inj].
      specialize (Hd i s' Hs'). unfold text in Hd. rewrite Hd.
      destruct (decide (i < k)), (decide (i < S k)); try done; lia.
  - intros p Hp. rewrite lookup_insert_ne; [by apply Ho|].
    intros <-. apply Hp, list_elem_of_fmap. exists s. split; [done|]. by eapply list_elem_of_lookup_2.
Qed.

Lemma rows_upto_S m s :
  files !! m = Some s →
  rows_upto (S m) = (rows_upto m ++ [MkProgress (N.of_nat m) (st_rel s) Committed])%list.
Proof.
  intros Hs. unfold rows_upto. rewrite (take_S_r _ _ s) by done. rewrite imap_app. cbn.
  rewrite length_take, Nat.min_l; [by rewrite Nat.add_0_r|].
  apply lookup_lt_Some in Hs. lia.
Qed.

Lemma staged_at i s : files !! i = Some s → ∃ req, reqs !! i = Some req ∧ staged_full mode req s.
Proof using Hstaged.
  intros Hs. destruct (Forall2_lookup_r _ _ _ _ _ Hstaged Hs) as (req & ? & ?). eauto.
Qed.

(** ** Committing *)

(** The write of file [i] and its progress row. *)
Lemma write_step i s w w1 :
  files !! i = Some s → at_ i i w → same w w1 →
  post (λ r w', r = hash (st_edited s) ∧ at_ i (S i) w') (λ _ _, False) (at_ i i)
    (write_atomic_cas hash (st_rel s) (hash (st_original s)) (st_edited s) w1).
Proof using Hnodup.
  intros Hs Hat H1. pose proof Hat as (Hc & Hj & Hd).
  destruct (file_at i w i s Hd Hs) as (f & Hf & Hb); [lia|]. rewrite <- Hb.
  eapply post_conseq; [by apply write_atomic_cas_calm| |done|].
  - intros r w' (-> & Hc' & Hj' & t & Hd'). split; [done|]. split_and!; [done| |by eapply disk_step].
    unfold journal_at. by rewrite Hj'.
  - intros w' Hw'. by eapply at_same.
Qed.

Lemma progress_step i k s w w1 :
  files !! i = Some s → at_ i k w → same w w1 →
  post (λ _ w', at_ (S i) k w') (λ _ _, False) (at_ i k)
    (jcall (record_progress id (N.of_nat i) (st_rel s) Committed) w1).
Proof using Haccepts.
  intros Hs Hat H1. pose proof Hat as (Hc & [Hsane Hv] & Hd).
  destruct (law_progress id paths (N.of_nat i) (st_rel s) Committed (w_journal w)) as (j' & Ej & Hs' & Hv');
    [done|done| |].
  { apply list_elem_of_fmap. exists s. split; [done|]. by eapply list_elem_of_lookup_2. }
  eapply post_conseq; [by eapply jcall_calm| |done|].
  - intros _ w' (Hc' & Hd' & Hj'). split_and!; [done| |by eapply disk_at_same].
    split; rewrite Hj'; [done|]. rewrite Hv', Hv, (rows_upto_S i s) by done.
    by rewrite !app_nil_r, map_app, <- app_assoc.
  - intros w' Hw'. by eapply at_same.
Qed.

Lemma end_step (c : list string) w w1 :
  c = paths → at_ n n w → same w w1 →
  post (λ _ w', ended w') (λ _ _, False) (at_ n n)
    (jcall (record_committed id c [] []) w1).
Proof using Haccepts.
  intros -> Hat H1. pose proof Hat as (Hc & [Hsane Hv] & Hd).
  destruct (law_committed id paths paths [] [] (w_journal w)) as (j' & Ej & Hs' & Hv');
    [done|done|by rewrite !app_nil_r|].
  eapply post_conseq; [by eapply jcall_calm| |done|].
  - intros _ w' (Hc' & Hd' & Hj'). split_and!; [done| |by eapply disk_at_same].
    split; rewrite Hj'; [done|]. rewrite Hv', Hv. by rewrite app_nil_r, <- app_assoc.
  - intros w' Hw'. by eapply at_same.
Qed.

Lemma at_refl m k w : at_ m k w → same w w.
Proof. intros (Hc & _). by apply same_refl. Qed.

Lemma inv_at i w : i ≤ n → at_ i i w → inv w.
Proof. intros Hi H. right; left. eauto. Qed.
Lemma inv_gap i w : i < n → at_ i (S i) w → inv w.
Proof. intros Hi H. right; right. eauto. Qed.

Lemma expected_hash_at i s : files !! i = Some s → st_expected_hash s = hash (st_original s).
Proof using Hstaged.
  intros Hs. destruct (staged_at i s Hs) as (req & _ & (_ & He & Hh & _) & _). congruence.
Qed.

Lemma commit_loop_calm rest i written run w :
  rest = drop i files → i ≤ n → map bf_path (run_committed run) = take i paths → at_ i i w →
  post (λ r w', ended w' ∧ map bf_path (run_committed r) = paths
                ∧ run_conflicted r = run_conflicted run) (λ _ _, False) inv
    (commit_loop hash (Some id) strategy rest i written run w).
Proof using Hstaged Hnodup Haccepts.
  revert i written run w. induction rest as [|s rest IH]; intros i written run w Er Hi Hrun Hat;
    cbn [commit_loop].
  - assert (i = n) as ->.
    { apply (f_equal List.length) in Er. rewrite length_drop in Er. cbn in Er. lia. }
    assert (take n paths = paths) as Ht by (apply take_ge; by rewrite length_map).
    unfold record_if. eapply post_bind.
    + eapply post_conseq; [apply (end_step (map bf_path (run_committed run)) w w)|intros ? w' H; exact H|done|].
      * by rewrite Hrun.
      * done.
      * by eapply at_refl.
      * intros w' H. exact (inv_at n w' (le_n n) H).
    + intros ? w' H. cbn. split_and!; [done|by rewrite Hrun|done].
  - assert (files !! i = Some s) as Hs.
    { rewrite <- (Nat.add_0_r i), <- lookup_drop, <- Er. done. }
    assert (i < n) as Hlt by (by eapply lookup_lt_Some).
    rewrite (expected_hash_at i s Hs).
    eapply post_bind.
    + apply post_try. eapply post_conseq; [apply (write_step i s w w Hs Hat); by eapply at_refl| |done|].
      * intros a w' H. exact H.
      * intros w' H. exact (inv_at i w' Hi H).
    + intros r w1 (a & -> & -> & Hat1). unfold record_if. eapply post_bind.
      * eapply post_conseq; [apply (progress_step i (S i) s w1 w1 Hs Hat1); by eapply at_refl| |done|].
        -- intros a w' H. exact H.
        -- intros w' H. exact (inv_gap i w' Hlt H).
      * intros ? w2 Hat2. eapply post_conseq; [apply IH| |done|done].
        -- by rewrite <- Nat.add_1_r, <- drop_drop, <- Er.
        -- lia.
        -- cbn. rewrite map_app, Hrun. cbn. rewrite (take_S_r _ _ (st_rel s)); [done|].
           by rewrite list_lookup_fmap, Hs.
        -- done.
        -- intros r w' (? & ? & Hc). split_and!; [done..|exact Hc].
Qed.

(** ** Recovering *)
Lemma by_seq_rows m i :
  m ≤ n → by_seq (rows_upto m) !! N.of_nat i = if decide (i < m) then Some Committed else None.
Proof.
  intros Hm. induction m as [|m IH]; [done|].
  destruct (lookup_lt_is_Some_2 files m) as [s Hs]; [lia|].
  rewrite (rows_upto_S m s) by done. unfold by_seq in *. rewrite foldl_app. cbn.
  destruct (decide (i = m)) as [->|Hne].
  - by rewrite lookup_insert_eq, decide_True by lia.
  - rewrite lookup_insert_ne by lia. rewrite IH by lia.
    destruct (decide (i < m)), (decide (i < S m)); try done; lia.
Qed.

Context (ws : WorkspaceHandle) (resumes : list EditTxnResume) (r : EditTxnResume).
Hypothesis Hresume : find_resume resumes id = Some r.
Hypothesis Hreqs : rs_reqs r = reqs.

Notation open_at m := (MkOpen id strategy refs (rows_upto m)).
Notation next i m := (Nat.max i m).

(** The locals of the loop after the first [i] files. *)
Definition locals_at (i : nat) (st : RecoveryState) : Prop :=
  ro_committed (rec_out st) = take i paths ∧ ro_conflicted (rec_out st) = []
  ∧ ro_skipped (rec_out st) = [] ∧ rec_replay_stop st = None.

Lemma take_S_paths i s : files !! i = Some s → take (S i) paths = (take i paths ++ [st_rel s])%list.
Proof. intros Hs. apply take_S_r. by rewrite list_lookup_fmap, Hs. Qed.

(** A file already recorded committed costs nothing. *)
Lemma recover_file_recorded m i s st w :
  m ≤ n → i < m → files !! i = Some s → locals_at i st →
  ∃ st', locals_at (S i) st' ∧
    recover_file hash set_language parse ws (ws_id ws) mode (open_at m) (Some r) false i
      (file_ref s) st w = (Done st', w).
Proof.
  intros Hm Hi Hs (Hc & Hcf & Hsk & Hstop). unfold recover_file. cbn [open_progress].
  rewrite by_seq_rows, decide_True by lia. eexists. split; [|done]. split_and!; try done.
  cbn. by rewrite Hc, (take_S_paths i s Hs).
Qed.

Lemma recover_file_replayed m i s st w :
  m ≤ i → files !! i = Some s → locals_at i st → at_ i i w →
  post (λ st' w', locals_at (S i) st' ∧ at_ (S i) (S i) w') (λ _ _, False) inv
    (recover_file hash set_language parse ws (ws_id ws) mode (open_at m) (Some r) false i
      (file_ref s) st w).
Proof using Hstaged Hnodup Haccepts Hreqs.
  intros Hm Hs (Hc & Hcf & Hsk & Hstop) Hat. assert (i < n) as Hlt by (by eapply lookup_lt_Some).
  destruct (staged_at i s Hs) as (req & Hreq & Hfull).
  pose proof Hfull as [(Hrel & He & Hh & _) (Hlen & _)].
  unfold recover_file. cbn [open_progress open_id open_strategy]. rewrite by_seq_rows, decide_False by lia.
  rewrite Hstop.
  assert (∀ w', same w w' → inv w') as Hinv.
  { intros w' H. apply (inv_at i); [lia|]. by eapply at_same. }
  destruct (file_at i w i s (proj2 (proj2 Hat)) Hs (le_n i)) as (f & Hf & Hb).
  eapply post_bind.
  { eapply post_conseq; [eapply (read_calm hash (st_rel s) f); [by eapply at_refl|done]
                        |intros ? w' H; exact H|done|exact Hinv]. }
  intros d w1 [H1 ->]. rewrite read_whole by (by rewrite Hb). unfold full_hash. cbn [fd_digest f_base_digest file_ref].
  rewrite Hb, Hh, He, bool_decide_eq_true_2 by done. cbn [negb].
  rewrite Hreqs, Hreq. cbn [f_path file_ref]. rewrite <- Hrel, bool_decide_eq_true_2 by done. cbn [negb].
  rewrite bool_decide_eq_true_2 by done. cbn [negb].
  eapply post_bind.
  { eapply post_conseq; [eapply (stage_one_calm mode ws _ req s f w w1); [done|done|done|by rewrite <- Hrel|done]
                        |intros ? w' H; exact H|done|exact Hinv]. }
  intros ? w2 [H2 ->]. rewrite (expected_hash_at i s Hs).
  eapply post_bind.
  { apply post_try. eapply post_conseq; [by apply (write_step i s w w2)|intros ? w' H; exact H|done|].
    intros w' H. apply (inv_at i); [lia|done]. }
  intros ? w3 (a & -> & -> & Hat3).
  eapply post_bind.
  { eapply post_conseq; [apply (progress_step i (S i) s w3 w3 Hs Hat3); by eapply at_refl
                        |intros b w' H; exact H|done|].
    intros w' H. exact (inv_gap i w' Hlt H). }
  intros ? w4 Hat4. cbn. split; [|done]. split_and!; try done.
  cbn. by rewrite Hc, (take_S_paths i s Hs).
Qed.

Lemma recover_files_calm m i rest st w :
  rest = drop i files → i ≤ n → m ≤ n → locals_at i st → at_ (next i m) (next i m) w →
  post (λ st' w', locals_at n st' ∧ at_ n n w') (λ _ _, False) inv
    (recover_files hash set_language parse ws (ws_id ws) mode (open_at m) (Some r) false i
      (map file_ref rest) st w).
Proof using Hstaged Hnodup Haccepts Hreqs.
  revert i st w. induction rest as [|s rest IH]; intros i st w Er Hi Hm Hl Hat; cbn [recover_files map].
  - assert (i = n) as ->.
    { apply (f_equal List.length) in Er. rewrite length_drop in Er. cbn in Er. lia. }
    rewrite Nat.max_l in Hat by done. done.
  - assert (files !! i = Some s) as Hs.
    { rewrite <- (Nat.add_0_r i), <- lookup_drop, <- Er. done. }
    assert (i < n) as Hlt by (by eapply lookup_lt_Some).
    assert (rest = drop (S i) files) as Er' by (by rewrite <- Nat.add_1_r, <- drop_drop, <- Er).
    destruct (decide (i < m)) as [Him|Him].
    + destruct (recover_file_recorded m i s st w) as (st' & Hl' & E); [done..|].
      unfold ebind. rewrite E. apply IH; [done|lia|done|done|].
      rewrite Nat.max_r in Hat |- * by lia. done.
    + eapply post_bind.
      * rewrite Nat.max_l in Hat by lia. by apply (recover_file_replayed m i s st w); [lia|..].
      * intros st' w' [Hl' Hat']. apply IH; [done|lia|done|done|].
        rewrite Nat.max_l by lia. done.
Qed.

Hypothesis Hnonempty : files ≠ [].
Hypothesis Howned : ws_owned ws = true.
Hypothesis Hdistinct : distinct_resumes ∅ resumes = true.

Lemma progress_ok_rows m : progress_ok refs (rows_upto m).
Proof.
  split.
  - apply Forall_forall. intros x Hx. apply list_elem_of_lookup in Hx as [k Hk].
    unfold rows_upto in Hk. rewrite list_lookup_imap in Hk.
    destruct (take m files !! k) as [s|] eqn:E; [|done]. cbn in Hk. injection Hk as <-. cbn.
    rewrite Nat2N.id, list_lookup_fmap. apply lookup_take_Some in E as [-> _]. by eexists.
  - unfold rows_upto. generalize (take m files). intros l.
    assert (∀ k, StronglySorted N.lt (map pr_seq (imap (λ i s, MkProgress (N.of_nat (k + i)) (st_rel s) Committed) l))) as H.
    { induction l as [|s l IH]; intros k; [constructor|]. cbn. constructor.
      - specialize (IH (S k)). erewrite imap_ext; [exact IH|]. intros i x _. cbn. do 2 f_equal. lia.
      - rewrite Forall_map, Forall_forall. intros x Hx. apply list_elem_of_lookup in Hx as [j Hj].
        rewrite list_lookup_imap in Hj. destruct (l !! j); [|done]. injection Hj as <-. cbn. lia. }
    exact (H 0).
Qed.

Lemma validate_paths_ok l seen :
  NoDup (map f_path l) → (∀ p, p ∈ seen → p ∉ map f_path l) → validate_paths seen l = true.
Proof.
  revert seen. induction l as [|f l IH]; intros seen Hnd Hs; [done|]. cbn.
  cbn in Hnd. apply NoDup_cons in Hnd as [Hf Hnd].
  rewrite decide_False; [|intros Hin; apply (Hs _ Hin); left].
  apply IH; [done|]. intros p [->%elem_of_singleton|Hp]%elem_of_union; [done|].
  intros Hin. apply (Hs p Hp). by right.
Qed.

Lemma validate_progress_ok l seqs ps :
  progress_ok l ps → (∀ x, x ∈ seqs → x ∉ map pr_seq ps) → validate_progress l seqs ps = true.
Proof.
  intros [Hf Hs]. revert seqs. induction ps as [|x ps IH]; intros seqs Hd; [done|]. cbn.
  apply Forall_cons in Hf as [(f & Hlk & Hp) Hf]. cbn in Hs. inversion Hs as [|? ? Hs' Hall]; subst.
  pose proof (lookup_lt_Some _ _ _ Hlk) as Hlt.
  destruct (N.leb_spec (N.of_nat (List.length l)) (pr_seq x)) as [|_]; [lia|].
  rewrite Hlk, bool_decide_eq_true_2 by done. cbn [negb].
  rewrite decide_False; [|intros Hin; apply (Hd _ Hin); left].
  apply IH; [done|done|]. intros y [->%elem_of_singleton|Hy]%elem_of_union.
  - intros Hin. rewrite Forall_forall in Hall. specialize (Hall _ Hin). lia.
  - intros Hin. apply (Hd y Hy). by right.
Qed.

Lemma validate_open_ok m : validate_open_txn (open_at m) = Ok tt.
Proof using All.
  unfold validate_open_txn. cbn [open_files open_progress].
  rewrite bool_decide_eq_false_2 by (rewrite length_map; by destruct files).
  rewrite validate_paths_ok; [|by rewrite map_map|by intros p ?%elem_of_empty]. cbn [negb].
  rewrite validate_progress_ok; [done|apply progress_ok_rows|by intros p ?%elem_of_empty].
Qed.

Lemma no_conflict_rows m : has_conflict (rows_upto m) = false.
Proof.
  unfold has_conflict. apply not_true_is_false. intros (x & Hx & Hb)%existsb_exists.
  apply list_elem_of_In, list_elem_of_lookup in Hx as [k Hk]. unfold rows_upto in Hk.
  rewrite list_lookup_imap in Hk. destruct (take m files !! k); [|done]. by injection Hk as <-.
Qed.

Lemma recover_one_calm m w :
  m ≤ n → at_ m m w →
  post (λ o w', ended w' ∧ ro_committed o = paths) (λ _ _, False) inv
    (recover_one hash set_language parse ws (ws_id ws) (open_at m) resumes mode w).
Proof using All.
  intros Hm Hat. unfold recover_one. rewrite validate_open_ok. cbn [elift].
  eapply (post_bind _ _ _ (λ _ w', w' = w)); [by cbn|]. intros ? w0 ->.
  cbn [open_progress open_strategy open_id open_files]. rewrite no_conflict_rows, andb_false_r, Hresume.
  cbn [is_Some_b negb andb].
  eapply post_bind.
  { apply (recover_files_calm m 0 files); [done|lia|done|done|]. by rewrite Nat.max_r by lia. }
  intros st w1 [(Hc & Hcf & Hsk & Hstop) Hat1]. rewrite Hstop, andb_false_r. cbn [open_id].
  rewrite Hcf, Hsk. eapply post_bind.
  { eapply post_conseq; [apply (end_step (ro_committed (rec_out st)) w1 w1)|intros ? w' H; exact H|done|].
    - rewrite Hc. apply take_ge. by rewrite length_map.
    - done.
    - by eapply at_refl.
    - intros w' H. exact (inv_at n w' (le_n n) H). }
  intros ? w2 H2. cbn. split; [done|]. rewrite Hc. apply take_ge. by rewrite length_map.
Qed.

(** In front of a write without its row, recovery refuses. *)
Definition refused (e : ErrorKind) : Prop := e = Conflict ∨ e = Oversized.

Lemma recover_files_gap m s i rest st w :
  files !! m = Some s → hash (st_edited s) ≠ hash (st_original s) → at_ m (S m) w →
  rest = drop i files → i ≤ m → locals_at i st →
  post (λ _ _, False) (λ e w', refused e ∧ same w w') (same w)
    (recover_files hash set_language parse ws (ws_id ws) mode (open_at m) (Some r) false i
      (map file_ref rest) st w).
Proof using Hstaged Hnodup.
  intros Hs Hne Hat. assert (m < n) as Hlt by (by eapply lookup_lt_Some).
  revert i st. induction rest as [|s' rest IH]; intros i st Er Hi Hl; cbn [recover_files map].
  { apply (f_equal List.length) in Er. rewrite length_drop in Er. cbn in Er. lia. }
  assert (files !! i = Some s') as Hs'.
  { rewrite <- (Nat.add_0_r i), <- lookup_drop, <- Er. done. }
  destruct (decide (i < m)) as [Him|Him].
  - destruct (recover_file_recorded m i s' st w) as (st' & Hl' & E); [lia|done..|].
    unfold ebind. rewrite E. apply IH; [by rewrite <- Nat.add_1_r, <- drop_drop, <- Er|lia|done].
  - assert (i = m) as -> by lia. assert (s' = s) as -> by congruence.
    eapply (post_bind _ _ _ (λ _ _, False)); [|done].
    unfold recover_file. cbn [open_progress]. rewrite by_seq_rows, decide_False by lia.
    destruct Hl as (_ & _ & _ & ->).
    pose proof Hat as (Hc & _ & [Hd _]). specialize (Hd m s Hs). rewrite decide_True in Hd by lia.
    unfold text in Hd. destruct (w_disk w !! st_rel s) as [f|] eqn:Ef; [|done]. injection Hd as Hb.
    eapply post_bind.
    { eapply post_conseq; [apply (read_calm hash (st_rel s) f _ w w); [by apply same_refl|done]
                          |intros ? w' H; exact H|done|done]. }
    intros d w1 [H1 ->]. unfold read_open_bounded. destruct (_ <? _)%N; cbn.
    + split; [by right|done].
    + rewrite bool_decide_eq_false_2; [split; [by left|done]|].
      rewrite Hb, (expected_hash_at m s Hs). done.
Qed.

Lemma recover_one_gap m s w :
  files !! m = Some s → hash (st_edited s) ≠ hash (st_original s) → at_ m (S m) w →
  post (λ _ _, False) (λ e w', refused e ∧ same w w') (same w)
    (recover_one hash set_language parse ws (ws_id ws) (open_at m) resumes mode w).
Proof using All.
  intros Hs Hne Hat. unfold recover_one. rewrite validate_open_ok. cbn [elift].
  eapply (post_bind _ _ _ (λ _ w', w' = w)); [by cbn|]. intros ? w0 ->.
  cbn [open_progress open_strategy open_id open_files]. rewrite no_conflict_rows, andb_false_r, Hresume.
  cbn [is_Some_b negb andb]. eapply (post_bind _ _ _ (λ _ _, False)); [|done].
  by apply (recover_files_gap m s 0 files); [..|lia|].
Qed.

(** A gap file whose edit changes nothing is no gap. *)
Lemma gap_closed m s w :
  files !! m = Some s → hash (st_edited s) = hash (st_original s) → at_ m (S m) w → at_ m m w.
Proof using Hdigest Hnodup.
  intros Hs He (Hc & Hj & [Hd Ho]). split_and!; [done|done|split; [|done]].
  intros i s' Hs'. rewrite (Hd i s' Hs').
  destruct (decide (i < S m)), (decide (i < m)); try done; try lia.
  assert (i = m) as -> by lia. assert (s' = s) as -> by congruence. f_equal.
  apply (proj1 (Forall_lookup _ _) Hdigest m s Hs He).
Qed.

(** The result of one recovery run. *)
Definition stuck (w : World J) : Prop :=
  ∃ m s, files !! m = Some s ∧ hash (st_edited s) ≠ hash (st_original s) ∧ at_ m (S m) w.

Lemma inv_cases w : inv w → ended w ∨ (∃ m, m ≤ n ∧ at_ m m w) ∨ stuck w.
Proof using Hdigest Hnodup.
  intros [H|[H|(m & Hm & Hat)]]; [by left|by right; left|].
  destruct (lookup_lt_is_Some_2 files m Hm) as [s Hs].
  destruct (decide (hash (st_edited s) = hash (st_original s))) as [He|He].
  - right; left. exists m. split; [lia|]. by eapply gap_closed.
  - right; right. by exists m, s.
Qed.

Lemma recover_calm w :
  inv w →
  post (λ _ w', ended w') (λ e w', refused e ∧ stuck w' ∧ same w w') inv
    (recover_edit_transactions hash set_language parse ws (ws_id ws) resumes mode w).
Proof using All.
  intros Hinv. assert (calm w) as Hc by (by destruct Hinv as [(?&_)|[(?&_&?&_)|(?&_&?&_)]]).
  unfold recover_edit_transactions, require_owned_workspace, verify_identity.
  rewrite Howned, N.eqb_refl, Hdistinct. cbn [negb].
  eapply (post_bind _ _ _ (λ _ w', w' = w)); [by cbn|]. intros ? w0 ->.
  eapply (post_bind _ _ _ (λ _ w', w' = w)); [by cbn|]. intros ? w0 ->.
  eapply post_bind.
  { eapply post_conseq; [apply (syscall_calm w w); by apply same_refl|intros ? w' H; exact (proj1 H)|done|].
    intros w' H. destruct Hinv as [(H1 & H2 & H3)|[(m & Hm & Hat)|(m & Hm & Hat)]].
    - left. destruct H as (Hc' & Hd & Hj). split_and!; [done| |by eapply disk_at_same].
      unfold journal_at. by rewrite Hj.
    - right; left. exists m. split; [done|by eapply at_same].
    - right; right. exists m. split; [done|by eapply at_same]. }
  intros t w1 H1. cbn beta in *.
  assert (∀ m k, at_ m k w → open_transactions (w_journal w1) = Ok [open_at m]) as Hopen.
  { intros m k (_ & [Hsane Hv] & _). destruct H1 as (_ & _ & ->).
    rewrite app_nil_r in Hv. by eapply law_one_open; [..|apply progress_ok_rows|]. }
  destruct (inv_cases w Hinv) as [Hend|[(m & Hm & Hat)|(m & s & Hs & Hne & Hat)]].
  - pose proof Hend as (_ & [Hsane Hv] & Hd). pose proof H1 as (Hc1 & Hd1 & Hj1).
    rewrite Hj1, law_none_open; [|done|].
    + cbn. split_and!; [done| |by eapply disk_at_same]. unfold journal_at. by rewrite Hj1.
    + rewrite Hv. by apply settled_txn; [..|apply progress_ok_rows].
  - rewrite (Hopen m m Hat). cbn [recover_all].
    eapply post_bind.
    { eapply post_conseq; [apply (recover_one_calm m w1 Hm); exact (at_same _ _ _ _ H1 Hat)
                          |intros ? w' H; exact H|done|done]. }
    intros o w2 [H2 _]. cbn. done.
  - rewrite (Hopen m (S m) Hat). cbn [recover_all].
    assert (at_ m (S m) w1) as Hat1 by (by eapply at_same).
    eapply (post_bind _ _ _ (λ _ _, False)); [|done].
    eapply post_conseq; [apply (recover_one_gap m s w1 Hs Hne Hat1)|done| |].
    + intros e w' [He Hw]. split_and!; [done| |by eapply same_trans].
      exists m, s. split_and!; [done..|]. by eapply at_same.
    + intros w' Hw. right; right. exists m. split; [by eapply lookup_lt_Some|]. by eapply at_same.
Qed.

Lemma inv_reboot sched w : Forall calm_tick sched → inv w → inv (reboot sched w).
Proof.
  intros Hs [(Hc & Hj & Hd)|[(m & Hm & Hc & Hj & Hd)|(m & Hm & Hc & Hj & Hd)]];
    [left|right; left; exists m|right; right; exists m]; by split_and!.
Qed.

Lemma stuck_inv w : stuck w → inv w.
Proof. intros (m & s & Hs & _ & Hw). right; right. exists m. split; [by eapply lookup_lt_Some|done]. Qed.

(** Any number of recovery runs keep the invariant, wherever they die. *)
Lemma recoveries_inv scheds w :
  Forall (Forall calm_tick) scheds → inv w →
  inv (recoveries hash set_language parse ws resumes mode scheds w).
Proof using All.
  intros Hs. revert w. induction Hs as [|s scheds Hs _ IH]; intros w Hw; [done|].
  cbn. apply IH. pose proof (recover_calm _ (inv_reboot _ _ Hs Hw)) as Hrec.
  destruct (recover_edit_transactions _ _ _ _ _ _ _ _) as [[a|e|] w']; cbn in *;
    [by left|by apply stuck_inv, Hrec|done].
Qed.

(** What the recovery that does not die makes of the invariant. *)
Lemma recover_last before :
  inv before →
  let last := recover_edit_transactions hash set_language parse ws (ws_id ws) resumes mode
                (reboot [] before) in
  last.1 ≠ Crashed →
  (∃ report, last.1 = Done report ∧ disk_at n last.2 ∧ open_transactions (w_journal last.2) = Ok [])
  ∨ (∃ e m s, last.1 = Failed e ∧ refused e
       ∧ w_disk last.2 = w_disk before ∧ w_journal last.2 = w_journal before
       ∧ files !! m = Some s ∧ hash (st_edited s) ≠ hash (st_original s)
       ∧ disk_at (S m) last.2
       ∧ open_transactions (w_journal last.2) = Ok [open_at m]).
Proof using All.
  intros Hb last Hlive.
  pose proof (recover_calm _ (inv_reboot [] before (Forall_nil_2 _) Hb)) as Hrec. fold last in Hrec.
  destruct last as [[report|e|] w'] eqn:El; cbn in Hrec, Hlive |- *; [| |done].
  - left. exists report. destruct Hrec as (_ & [Hs Hv] & Hd). split_and!; [done..|].
    apply law_none_open; [done|]. rewrite Hv. by apply settled_txn; [..|apply progress_ok_rows].
  - right. destruct Hrec as (He & (m & s & Hs & Hh & Hw) & (_ & Hd & Hj)).
    exists e, m, s. split_and!; [done|done|exact Hd|exact Hj|done|done|by apply Hw|].
    destruct Hw as (_ & [Hsane Hv] & _). rewrite app_nil_r in Hv.
    by eapply law_one_open; [..|apply progress_ok_rows|].
Qed.
End Txn.

(** ** Beginning *)
Section Begin.
Context {J : Type} `{!EditTxnJournal J} `{!LawfulJournal J}.
Variable hash : string → FileHash.
Variable set_language : Language → bool.
Variable parse : Language → string → option Node.
Notation staged_full := (staged_full hash set_language parse).
Notation any := (λ _ _, True).

Lemma post_guard (b : bool) e (w w1 : World J) :
  same w w1 → post (λ _ w', same w w' ∧ b = true) any (λ _, True) ((if b then eret tt else efail e) w1).
Proof. by destruct b. Qed.

Lemma read_any path max (w w1 : World J) :
  same w w1 →
  post (λ d w', same w w' ∧ ∃ f, w_disk w !! path = Some f ∧ d = read_open_bounded hash (bytes f) max)
    any (λ _, True) (read hash path max w1).
Proof.
  intros H. destruct (w_disk w !! path) as [f|] eqn:E.
  - eapply post_conseq; [by apply read_calm|intros d w' [? ->]; eauto|done|done].
  - unfold read. eapply post_bind.
    { eapply post_conseq; [apply (syscall_calm w w1 H)|intros ? w' Hw; exact (proj1 Hw)|done|done]. }
    intros t w' (_ & Hd & _). unfold ebind, get_disk. rewrite Hd, E. done.
Qed.

Lemma stage_one_staged mode ws i req (w w1 : World J) :
  same w w1 →
  post (λ s w', same w w' ∧ staged_full mode req s ∧ text w (rq_path req) = Some (st_original s))
    any (λ _, True) (stage_one hash set_language parse ws i req mode w1).
Proof.
  intros H. unfold stage_one, verify_identity. eapply post_bind; [by apply post_guard|].
  intros ? w2 [H2 _]. eapply post_bind; [by apply read_any|]. intros d w3 [H3 (f & Hf & ->)].
  unfold read_open_bounded. destruct (N.ltb_spec MAX_FILE_BYTES (slen (bytes f))) as [|Hlen]; [done|].
  cbn [full_hash fd_digest fd_bytes].
  destruct (bool_decide (hash (bytes f) = rq_expected_hash req)) eqn:Eh; cbn [negb]; [|done].
  apply bool_decide_eq_true in Eh. unfold from_utf8. destruct (utf8 (bytes f)) eqn:Hu; [|done].
  cbn [elift]. eapply (post_bind _ _ _ (λ o w', same w w' ∧ o = bytes f)); [by cbn|]. intros ? w4 [H4 ->].
  destruct (apply_ops (bytes f) (rq_ops req)) as [e|] eqn:Ha; [|done]. cbn [elift].
  eapply (post_bind _ _ _ (λ o w', same w w' ∧ o = e)); [by cbn|]. intros ? w5 [H5 ->].
  destruct (check_syntax _ _ _ _ _) as [susp perr] eqn:Es. cbn in *.
  assert (∀ s, s = MkStaged (rq_path req) (hash (bytes f)) (slen (bytes f)) (bytes f) e
                     (List.length (rq_ops req)) susp perr →
            (susp = true → mode = AllowModelRepair) →
            staged_full mode req s ∧ text w (rq_path req) = Some (st_original s)) as Hgo.
  { intros s -> Hm. cbn. unfold text. rewrite Hf. split; [|done].
    split_and!; [split_and!; done|done|done|done|done]. }
  destruct susp, mode; cbn; try done; (split; [done|]); by apply Hgo.
Qed.

Lemma staged_paths mode reqs l :
  Forall2 (staged_full mode) reqs l → map st_rel l = map rq_path reqs.
Proof.
  induction 1 as [|req s reqs l [[Hr _] _] _ IH]; [done|]. cbn. by rewrite IH, Hr.
Qed.

Lemma stage_all_staged mode ws i reqs b (w w1 : World J) :
  same w w1 →
  post (λ l w', same w w' ∧ Forall2 (staged_full mode) reqs l
                ∧ Forall (λ s, text w (st_rel s) = Some (st_original s)) l)
    any (λ _, True) (stage_all hash set_language parse ws i reqs mode b w1).
Proof.
  assert (∀ w1 : World J, same w w1 → post (λ _ w', same w w') any (λ _, True) (budget b w1)) as Hb.
  { intros w2 H. destruct b as [b|]; cbn; [|done]. eapply post_bind.
    { eapply post_conseq; [apply (syscall_calm w w2 H)|intros ? w' Hw; exact (proj1 Hw)|done|done]. }
    intros t w' Hw. by destruct (_ <? _)%N. }
  revert w1. induction reqs as [|req reqs IH]; intros w1 H; cbn [stage_all].
  { cbn. by split_and!. }
  eapply post_bind; [by apply Hb|]. intros ? w2 H2. cbn beta in H2.
  eapply post_bind; [by apply stage_one_staged|]. intros s w3 (H3 & Hs & Ht).
  eapply post_bind; [by apply Hb|]. intros ? w4 H4. cbn beta in H4.
  eapply post_bind; [by apply IH|]. intros l w5 (H5 & Hl & Hlt). cbn.
  split_and!; [done|by constructor|]. constructor; [|done].
  destruct Hs as [(-> & _) _]. done.
Qed.

Lemma stage_batch_staged mode ws i reqs b (w w1 : World J) :
  same w w1 →
  post (λ l w', i = ws_id ws ∧ same w w' ∧ Forall2 (staged_full mode) reqs l
                ∧ Forall (λ s, text w (st_rel s) = Some (st_original s)) l)
    any (λ _, True) (stage_batch hash set_language parse ws i reqs mode b w1).
Proof.
  intros H. unfold stage_batch, verify_identity. eapply post_bind; [by apply post_guard|].
  intros ? w3 [H3 Hi]. apply N.eqb_eq in Hi.
  eapply post_conseq; [by apply (stage_all_staged mode ws i reqs b w w3)|by intros l w4 Hw|done|done].
Qed.

Lemma jcall_any f (w w1 : World J) :
  same w w1 →
  post (λ _ w', calm w' ∧ w_disk w' = w_disk w ∧ f (w_journal w) = Ok (w_journal w'))
    any (λ _, True) (jcall f w1).
Proof.
  intros H. unfold jcall. eapply post_bind.
  { eapply post_conseq; [apply (syscall_calm w w1 H)|intros ? w' Hw; exact (proj1 Hw)|done|done]. }
  intros t w' (Hc & Hd & Hj). rewrite Hj. destruct (f (w_journal w)); cbn; [|done]. by split_and!.
Qed.

Lemma check_requests_NoDup seen reqs :
  check_requests seen reqs = Ok tt →
  NoDup (map rq_path reqs) ∧ ∀ p, p ∈ seen → p ∉ map rq_path reqs.
Proof.
  revert seen. induction reqs as [|req reqs IH]; intros seen; cbn [check_requests].
  { intros _. split; [constructor|by intros p _ ?%elem_of_nil]. }
  intros (seen' & H1 & H2)%rbind_Ok. unfold check_request in H1.
  destruct (_ || _); [done|]. destruct (decide (rq_path req ∈ seen)) as [|Hn]; [done|].
  injection H1 as <-. destruct (IH _ H2) as [Hnd Hs]. cbn. split.
  - constructor; [|done]. apply Hs. set_solver.
  - intros p Hp [->|Hin]%elem_of_cons; [done|]. apply (Hs p); [set_solver|done].
Qed.

Lemma begin_calm ws i reqs mode strategy id session b (w : World J) :
  calm w → jsane (w_journal w) →
  post (λ p w', calm w' ∧ i = ws_id ws ∧ ws_owned ws = true ∧ pe_files p ≠ []
          ∧ pe_txn_id p = id ∧ pe_strategy p = strategy
          ∧ Forall2 (staged_full mode) reqs (pe_files p) ∧ NoDup (map st_rel (pe_files p))
          ∧ Forall (λ s, text w (st_rel s) = Some (st_original s)) (pe_files p)
          ∧ w_disk w' = w_disk w ∧ jsane (w_journal w')
          ∧ jview (w_journal w')
            = (jview (w_journal w) ++ [RPrepared id (map file_ref (pe_files p)) strategy])%list
          ∧ jaccepts id (map st_rel (pe_files p)))
    any (λ _, True)
    (begin_multi_file_edit hash set_language parse ws i reqs mode strategy id session b w).
Proof.
  intros Hc Hsane. unfold begin_multi_file_edit, require_owned_workspace.
  eapply post_bind; [apply post_guard; by apply same_refl|]. intros ? w1 [H1 Hown].
  destruct (bool_decide (reqs = [])) eqn:En; [done|]. apply bool_decide_eq_false in En.
  destruct (_ <? _)%N; [done|]. destruct (_ || _); [done|].
  destruct (check_requests ∅ reqs) as [[]|] eqn:Er; [|done]. cbn [elift].
  apply check_requests_NoDup in Er as [Hnd _].
  eapply (post_bind _ _ _ (λ _ w', same w w')); [by cbn|]. intros ? w2 H2. cbn beta in *.
  destruct (_ <? _)%N; [done|].
  eapply post_bind; [by apply stage_batch_staged|]. intros l w3 (Hi & H3 & Hl & Ht). 
  eapply post_bind; [by apply (jcall_any _ w)|]. intros ? w4 (Hc4 & Hd4 & Ej). cbn.
  destruct (law_prepared _ _ _ _ _ _ Hsane Ej) as (Hs' & Hv' & Ha').
  rewrite map_map in Ha'.
  pose proof (staged_paths _ _ _ Hl) as Hp.
  split_and!; try done; [|by rewrite Hp].
  intros ->. apply Forall2_nil_inv_r in Hl. done.
Qed.
End Begin.

(** ** With nothing scheduled, nothing dies *)
Create HintDb lives.
Section NoCrash.
Context {J : Type} `{!EditTxnJournal J}.
Variable hash : string → FileHash.
Variable set_language : Language → bool.
Variable parse : Language → string → option Node.

Definition lives {A} (m : M J A) : Prop :=
  ∀ w, w_sched w = [] → (m w).1 ≠ Crashed ∧ w_sched (m w).2 = [].

Lemma lives_bind {A B} (m : M J A) (k : A → M J B) :
  lives m → (∀ a, lives (k a)) → lives (ebind m k).
Proof.
  intros Hm Hk w Hw. unfold ebind. destruct (Hm w Hw) as [H1 H2].
  destruct (m w) as [[a|e|] w'] eqn:E; cbn in *; [by apply Hk|done|done].
Qed.
Lemma lives_try {A} (m : M J A) : lives m → lives (etry m).
Proof.
  intros Hm w Hw. unfold etry. destruct (Hm w Hw) as [H1 H2].
  by destruct (m w) as [[a|e|] w'] eqn:E.
Qed.
Lemma lives_ret {A} (a : A) : lives (eret a).
Proof. done. Qed.
Lemma lives_fail {A} e : lives (efail (A:=A) e).
Proof. done. Qed.
Lemma lives_lift {A} (r : result A ErrorKind) : lives (elift r).
Proof. by destruct r. Qed.
Lemma lives_syscall : lives syscall.
Proof. intros w Hw. unfold syscall. by rewrite Hw. Qed.
Lemma lives_disk : lives get_disk.
Proof. by intros w Hw. Qed.
Lemma lives_rename path new r d o t : lives (rename_over path new r d o t).
Proof. by intros w Hw. Qed.
Lemma lives_jcall f : lives (jcall f).
Proof.
  apply lives_bind; [apply lives_syscall|]. intros _ w Hw. by destruct (f (w_journal w)).
Qed.

#[local] Hint Resolve lives_ret lives_fail lives_lift lives_syscall lives_disk lives_rename
  lives_jcall : lives.
(** Walk down a computation to its calls. *)
Ltac live :=
  repeat first
    [ solve [auto with lives]
    | simple apply lives_bind; [|intros ?] | simple apply lives_try
    | match goal with
      | |- lives (match ?x with _ => _ end) => destruct x
      end
    | progress cbv zeta ].

Lemma lives_state_now path : lives (state_now path).
Proof. unfold state_now. live. Qed.
#[local] Hint Resolve lives_state_now : lives.
Lemma lives_cas path h new : lives (write_atomic_cas hash path h new).
Proof. unfold write_atomic_cas, atomic_replace_cas_guarded, recheck_and_rename, now_with_digest. live. Qed.
Lemma lives_read path max : lives (read hash path max).
Proof. unfold read. live. Qed.
#[local] Hint Resolve lives_cas lives_read : lives.
Lemma lives_stage ws i req mode : lives (stage_one hash set_language parse ws i req mode).
Proof. unfold stage_one, verify_identity. live. Qed.
#[local] Hint Resolve lives_stage : lives.

Lemma lives_record_if txn f : lives (record_if txn f).
Proof. destruct txn; cbn [record_if]; live. Qed.
#[local] Hint Resolve lives_record_if : lives.

Lemma lives_commit_loop txn strategy fs k written run :
  lives (commit_loop hash txn strategy fs k written run).
Proof.
  assert (∀ l rb rc, lives (restore_written hash l rb rc)) as Hrestore.
  { induction l as [|[s h] l IH]; intros rb rc; cbn [restore_written]; live; apply IH. }
  revert k written run. induction fs as [|s fs IH]; intros k written run; cbn [commit_loop]; live;
    first [apply IH|apply Hrestore].
Qed.

Lemma lives_recover_files ws i mode open resume pending k fs st :
  lives (recover_files hash set_language parse ws i mode open resume pending k fs st).
Proof.
  revert k st. induction fs as [|f fs IH]; intros k st; cbn [recover_files]; [apply lives_ret|].
  apply lives_bind; [|intros; apply IH]. unfold recover_file. live.
Qed.

Lemma lives_rollback fs resume todo o : lives (recovery_rollback hash fs resume todo o).
Proof.
  revert o. induction todo as [|[idx w] todo IH]; intros o; cbn [recovery_rollback]; [apply lives_ret|].
  destruct (fs !! idx); [|apply lives_fail]. apply lives_bind; [|intros; apply IH].
  unfold restore_pre_run. live.
Qed.

#[local] Hint Resolve lives_recover_files lives_rollback : lives.

Lemma lives_recover ws i resumes mode :
  lives (recover_edit_transactions hash set_language parse ws i resumes mode).
Proof.
  assert (∀ opens, lives (recover_all hash set_language parse ws i opens resumes mode)) as Hall.
  { induction opens as [|open opens IH]; cbn [recover_all]; [apply lives_ret|].
    apply lives_bind; [|intros; apply lives_bind; [apply IH|intros; apply lives_ret]].
    unfold recover_one. live. }
  unfold recover_edit_transactions, require_owned_workspace, verify_identity. live.
  intros w Hw. destruct (open_transactions (w_journal w)); [by apply Hall|done].
Qed.
End NoCrash.

(** ** The transaction survives any number of crashes *)
Section CrashRecovery.
Context {J : Type} `{!EditTxnJournal J} `{!LawfulJournal J}.
Variable hash : string → FileHash.
Variable set_language : Language → bool.
Variable parse : Language → string → option Node.

(** C2: a multi-file edit is crash-atomic up to one refusal. On a machine
    nobody else writes to, a begun transaction that commits without dying
    edits every file; and whenever the commit and any number of recovery runs
    die between any two calls, the next recovery that does not die either
    succeeds with every file edited, nothing else changed and no transaction
    open, or refuses with a typed error, changing neither file nor journal,
    because exactly one file was written whose progress row is missing: the
    files before it are edited and recorded, those after it untouched. *)
Theorem edit_txn_survives_crashes ws i mode reqs strategy id session b (w0 w1 : World J) p
    resumes r crash scheds
  (Hcalm : calm w0) (Hsane : jsane (w_journal w0)) (Hsettled : settled (jview (w_journal w0)))
  (Hfresh : fresh id (jview (w_journal w0)))
  (Hbegin : begin_multi_file_edit hash set_language parse ws i reqs mode strategy id session b w0
            = (Done p, w1))
  (Hdigest : Forall (λ s, hash (st_edited s) = hash (st_original s) → st_edited s = st_original s)
               (pe_files p))
  (Hresume : find_resume resumes id = Some r) (Hreqs : rs_reqs r = reqs)
  (Hdistinct : distinct_resumes ∅ resumes = true)
  (Hcrash : Forall calm_tick crash) (Hscheds : Forall (Forall calm_tick) scheds) :
  let files := pe_files p in
  let n := List.length files in
  let committed := commit_prepared hash ws i p (reboot crash w1) in
  let before := recoveries hash set_language parse ws resumes mode scheds committed.2 in
  let last := recover_edit_transactions hash set_language parse ws i resumes mode (reboot [] before) in
  match committed.1 with
  | Done run => disk_at files (text w0) n committed.2
                ∧ map bf_path (run_committed run) = map rq_path reqs ∧ run_conflicted run = []
  | Failed _ => False
  | Crashed => True
  end
  ∧ ((∃ report, last.1 = Done report ∧ disk_at files (text w0) n last.2
                ∧ open_transactions (w_journal last.2) = Ok [])
     ∨ (∃ e m s, last.1 = Failed e ∧ refused e
          ∧ w_disk last.2 = w_disk before ∧ w_journal last.2 = w_journal before
          ∧ files !! m = Some s ∧ hash (st_edited s) ≠ hash (st_original s)
          ∧ disk_at files (text w0) (S m) last.2
          ∧ open_transactions (w_journal last.2)
            = Ok [MkOpen id strategy (map file_ref files) (rows_upto files m)])).
Proof.
  pose proof (begin_calm hash set_language parse ws i reqs mode strategy id session b w0 Hcalm Hsane) as H.
  rewrite Hbegin in H. cbn in H.
  destruct H as (Hc1 & -> & Hown & Hne & Hid & Hst & Hfull & Hnd & Htexts & Hd1 & Hs1 & Hv1 & Hacc).
  set (files := pe_files p) in *. cbv zeta.
  assert (at_ files id strategy (jview (w_journal w0)) (text w0) 0 0 (reboot crash w1)) as Hat.
  { split_and!; [done|by split|split].
    - intros k s Hs. rewrite decide_False by lia. unfold text. cbn. rewrite Hd1.
      by eapply Forall_lookup_1 in Htexts.
    - intros q _. unfold text. cbn. by rewrite Hd1. }
  pose proof (commit_loop_calm hash set_language parse mode reqs files id strategy
    (jview (w_journal w0)) (text w0) Hfull Hnd Hacc files 0 [] run_new (reboot crash w1)
    eq_refl (Nat.le_0_l _) eq_refl Hat) as Hcommit.
  assert (commit_prepared hash ws (ws_id ws) p (reboot crash w1)
    = commit_loop hash (Some id) strategy files 0 [] run_new (reboot crash w1)) as ->.
  { unfold commit_prepared, commit_staged, require_owned_workspace, verify_identity.
    by rewrite Hown, N.eqb_refl, Hid, Hst. }
  set (com := commit_loop _ _ _ _ _ _ _ _) in *. split.
  { destruct com as [[run|e|] w']; cbn in *; [|done|done].
    destruct Hcommit as ((_ & _ & Hd) & Hp & Hcf). split_and!; [done| |done]. rewrite Hp.
    by eapply staged_paths. }
  assert (inv files id strategy (jview (w_journal w0)) (text w0) com.2) as Hcom.
  { destruct com as [[run|e|] w']; cbn in *; [left; apply Hcommit|done|done]. }
  eapply recover_last; [done..| |].
  - by eapply recoveries_inv.
  - by apply lives_recover.
Qed.
End CrashRecovery.
