(* ===== verification/EditRollback.v ===== *)
(** * Rolling a conflicted edit back

    A [RollBack] transaction that meets a file somebody else changed between
    validation and commit puts back every file it had written: the commit
    leaves the texts exactly as it found them. *)
From stdpp Require Import sorting.
From S2P Require Import Prelude Strings Bytes AgentMachine EditOps EditSyntax EditTxn EditTxnThms EditRecovery.
#[local] Open Scope string_scope.
#[local] Open Scope nat_scope.
#[local] Open Scope edit_scope.

Section Rollback.
Context {J : Type} `{!EditTxnJournal J} `{!LawfulJournal J}.
Variable hash : string → FileHash.

(** A swap over another text is refused and changes nothing. *)
Lemma write_atomic_cas_refused path h new (w w1 : World J) :
  same w w1 → (∀ t, text w path = Some t → hash t ≠ h) →
  post (λ r w', r = Err Conflict ∧ same w w') (λ _ _, False) (same w)
    (etry (write_atomic_cas hash path h new) w1).
Proof.
  intros H1 Hne.
  assert (post (λ _ _, False) (λ e w', e = Conflict ∧ same w w') (same w)
            (write_atomic_cas hash path h new w1)) as H.
  { unfold write_atomic_cas, atomic_replace_cas_guarded.
    eapply (post_bind _ _ _ (λ s w', same w w' ∧ s = FileState.of_file (w_disk w !! path))).
    { eapply post_conseq; [by apply (state_now_calm path w)|intros ? ? Hw; exact Hw|done|done]. }
    intros st w2 [H2 ->]. unfold text in Hne.
    destruct (w_disk w !! path) as [f|] eqn:Ef; cbn [FileState.of_file FileState.exists_ FileState.absent negb];
      [|by split].
    eapply (post_bind _ _ _ (λ s w', same w w' ∧ s = FileState.of_file (w_disk w !! path))).
    { eapply post_conseq; [by apply (state_now_calm path w)|intros ? ? Hw; exact Hw|done|done]. }
    intros quick w3 [H3 ->]. rewrite Ef. cbn [FileState.size FileState.modified FileState.of_file].
    destruct (FileState.satisfied_by _ _); cbn [negb]; [|by split].
    eapply (post_bind _ _ _ (λ _ _, False)); [|done]. unfold recheck_and_rename.
    eapply (post_bind _ _ _ (λ a w', same w w' ∧ a.1 = FileState.MkState true
              (Some (slen (bytes f))) (Some (hash (bytes f))) (modified_ms f))).
    { eapply post_conseq; [by apply (now_with_digest_calm hash path f w)|intros ? ? Hw; exact Hw|done|done]. }
    intros a w4 [H4 ->].
    replace (FileState.satisfied_by _ _) with false; [cbn; by split|]. symmetry.
    unfold FileState.satisfied_by. cbn. rewrite !axis_refl.
    rewrite (bool_decide_eq_false_2 (h = hash (bytes f))); [by rewrite andb_false_r|].
    intros E. by apply (Hne (bytes f)). }
  unfold etry. by destruct (write_atomic_cas hash path h new w1) as [[a|e|] w'];
    cbn in *; [|destruct H as [-> ?]|].
Qed.

(** A swap over the expected text, by its text. *)
Lemma write_atomic_cas_text path t new (w w1 : World J) :
  same w w1 → text w path = Some t →
  post (λ r w', r = Ok (hash new) ∧ calm w' ∧ w_journal w' = w_journal w
                ∧ ∀ q, text w' q = if decide (q = path) then Some new else text w q)
    (λ _ _, False) (same w) (etry (write_atomic_cas hash path (hash t) new) w1).
Proof.
  intros H1 Ht. unfold text in Ht. destruct (w_disk w !! path) as [f|] eqn:Ef; [|done].
  injection Ht as <-. eapply post_conseq; [eapply (post_try _ w1 _ (λ _ _, False)); by apply write_atomic_cas_calm| |done|done].
  intros r w' (a & -> & -> & Hc & Hj & m & Hd). split_and!; [done..|].
  intros q. unfold text. rewrite Hd. destruct (decide (q = path)) as [->|Hne].
  - by rewrite lookup_insert_eq.
  - by rewrite lookup_insert_ne.
Qed.

Context (files : list StagedEdit) (id : N) (text0 : string → option string).
Hypothesis Hstaged : Forall (λ s, hash (st_original s) = st_expected_hash s) files.
Hypothesis Hnodup : NoDup (map st_rel files).
Hypothesis Haccepts : jaccepts id (map st_rel files).

Notation paths := (map st_rel files).

(** The first [k] files hold our edits, everything else is as it was. *)
Definition wrote (k : nat) (w : World J) : Prop :=
  calm w ∧ jsane (w_journal w)
  ∧ (∀ i s, files !! i = Some s → i < k → text w (st_rel s) = Some (st_edited s))
  ∧ ∀ p, p ∉ take k paths → text w p = text0 p.

Lemma wrote_same k w w' : same w w' → wrote k w → wrote k w'.
Proof.
  intros (Hc & Hd & Hj) (_ & Hs & Hw & Ho). unfold wrote, text. rewrite Hd, Hj. by split_and!.
Qed.

Lemma rel_lookup i s : files !! i = Some s → paths !! i = Some (st_rel s).
Proof. intros H. by rewrite list_lookup_fmap, H. Qed.

Lemma not_taken k i s : files !! i = Some s → k ≤ i → st_rel s ∉ take k paths.
Proof using Hnodup.
  intros Hs Hk Hin. apply list_elem_of_lookup in Hin as [j Hj].
  apply lookup_take_Some in Hj as [Hj Hlt].
  assert (i = j); [|lia]. eapply (NoDup_lookup paths); [done|by apply rel_lookup|done].
Qed.

Lemma elem_take_S k s p :
  files !! k = Some s → p ∉ take (S k) paths ↔ p ∉ take k paths ∧ p ≠ st_rel s.
Proof.
  intros Hs. rewrite (take_S_r _ _ (st_rel s)) by (by apply rel_lookup).
  rewrite elem_of_app, list_elem_of_singleton. tauto.
Qed.

Lemma wrote_S k s w w' :
  files !! k = Some s → wrote k w → calm w' → jsane (w_journal w') →
  (∀ q, text w' q = if decide (q = st_rel s) then Some (st_edited s) else text w q) →
  wrote (S k) w'.
Proof using Hnodup.
  intros Hs (_ & _ & Hw & Ho) Hc Hj Ht. split_and!; [done|done| |].
  - intros i t Hi Hlt. rewrite Ht. case_decide as E.
    + f_equal. assert (i = k) as ->; [|congruence].
      eapply (NoDup_lookup paths); [done|by apply rel_lookup|]. rewrite (rel_lookup k s Hs). congruence.
    + apply (Hw i t Hi). destruct (decide (i = k)) as [->|]; [congruence|lia].
  - intros p [Hp Hne]%(elem_take_S k s); [|done]. rewrite Ht, decide_False by done. by apply Ho.
Qed.

Lemma wrote_back k s w w' :
  files !! k = Some s → wrote (S k) w → calm w' → jsane (w_journal w') →
  text0 (st_rel s) = Some (st_original s) →
  (∀ q, text w' q = if decide (q = st_rel s) then Some (st_original s) else text w q) →
  wrote k w'.
Proof using Hnodup.
  intros Hs (_ & _ & Hw & Ho) Hc Hj H0 Ht. split_and!; [done|done| |].
  - intros i t Hi Hlt. rewrite Ht. case_decide as E; [|apply (Hw i t Hi); lia].
    exfalso. assert (i = k); [|lia]. eapply (NoDup_lookup paths); [done|by apply rel_lookup|].
    rewrite (rel_lookup k s Hs). congruence.
  - intros p Hp. rewrite Ht. case_decide as E; [by subst|]. apply Ho, (elem_take_S k s p Hs). done.
Qed.

(** What the loop remembers of its writes, newest first. *)
Definition written_upto (k : nat) : list (StagedEdit * FileHash) :=
  rev (map (λ s, (s, hash (st_edited s))) (take k files)).

Lemma written_upto_S k s :
  files !! k = Some s → written_upto (S k) = (s, hash (st_edited s)) :: written_upto k.
Proof.
  intros Hs. unfold written_upto. rewrite (take_S_r _ _ s) by done. by rewrite map_app, rev_app_distr.
Qed.

Lemma restore_all k rb rc w :
  k ≤ List.length files → wrote k w →
  (∀ i s, files !! i = Some s → i < k → text0 (st_rel s) = Some (st_original s)) →
  post (λ r w', r = ((rb ++ rev (take k paths))%list, rc) ∧ wrote 0 w') (λ _ _, False) (λ _, True)
    (restore_written hash (written_upto k) rb rc w).
Proof using Hnodup.
  revert rb w. induction k as [|k IH]; intros rb w Hk Hw H0.
  { cbn. by rewrite app_nil_r. }
  destruct (lookup_lt_is_Some_2 files k) as [s Hs]; [lia|].
  rewrite (written_upto_S k s Hs). cbn [restore_written].
  pose proof Hw as (Hc & Hj & Hed & _).
  eapply (post_bind _ _ _ (λ r w', r = Ok (hash (st_original s)) ∧ wrote k w')).
  { eapply post_conseq;
      [apply (write_atomic_cas_text (st_rel s) (st_edited s) (st_original s) w w);
         [by apply same_refl|apply (Hed k s Hs); lia]| |done|done].
    intros r w' (-> & Hc' & Hj' & Ht). split; [done|].
    eapply (wrote_back k s w); try done; [by rewrite Hj'|by apply (H0 k s Hs); lia]. }
  intros r w' [-> Hw']. eapply post_conseq; [apply (IH _ w'); [lia|done|]| |done|done].
  - intros i t Hi Hlt. apply (H0 i t Hi). lia.
  - intros r w2 [-> H2]. split; [|done]. f_equal.
    by rewrite (take_S_r _ _ (st_rel s)) by (by apply rel_lookup); rewrite rev_app_distr, <- app_assoc.
Qed.

(** A journal call the transaction's rows fit. *)
Lemma jcall_sane (f : J → result J ErrorKind) j' k w :
  wrote k w → f (w_journal w) = Ok j' → jsane j' →
  post (λ _ w', wrote k w') (λ _ _, False) (λ _, True) (jcall f w).
Proof.
  intros Hw Hf Hj. pose proof Hw as (Hc & _ & Hed & Ho).
  eapply post_conseq; [by apply (jcall_calm f j' w w); [apply same_refl|]| |done|done].
  intros _ w' (Hc' & Hd & Hj'). unfold wrote, text. rewrite Hd, Hj'. by split_and!.
Qed.

Lemma progress_sane k i s o w :
  files !! i = Some s → wrote k w →
  post (λ _ w', wrote k w') (λ _ _, False) (λ _, True)
    (jcall (record_progress id (N.of_nat i) (st_rel s) o) w).
Proof using Haccepts.
  intros Hs Hw. pose proof Hw as (_ & Hj & _).
  destruct (law_progress id paths (N.of_nat i) (st_rel s) o (w_journal w)) as (j' & Ej & Hj' & _);
    [done|done|apply list_elem_of_lookup; exists i; by apply rel_lookup|].
  by eapply jcall_sane.
Qed.

Definition rolled_back (k : nat) (s : StagedEdit) (run : CommitRun) : Prop :=
  run_rolled_back run = rev (take k paths) ∧ run_rollback_conflicts run = []
  ∧ run_conflicted run = [(st_rel s, Conflict)] ∧ run_skipped run = drop (S k) paths.

Lemma commit_loop_conflict k sk rest i run w :
  files !! k = Some sk → (∀ t, text0 (st_rel sk) = Some t → hash t ≠ st_expected_hash sk) →
  (∀ j s, files !! j = Some s → j < k → text0 (st_rel s) = Some (st_original s)) →
  rest = drop i files → i ≤ k → wrote i w →
  run_conflicted run = [] → run_skipped run = [] → run_rolled_back run = [] →
  run_rollback_conflicts run = [] →
  post (λ r w', rolled_back k sk r ∧ wrote 0 w') (λ _ _, False) (λ _, True)
    (commit_loop hash (Some id) RollBack rest i (written_upto i) run w).
Proof using Hstaged Hnodup Haccepts.
  intros Hk Hne H0. revert i run w.
  induction rest as [|s rest IH]; intros i run w Er Hi Hw Hcf Hsk Hrb Hrc; cbn [commit_loop].
  { apply (f_equal List.length) in Er. rewrite length_drop in Er. apply lookup_lt_Some in Hk.
    cbn in Er. lia. }
  assert (files !! i = Some s) as Hs by (by rewrite <- (Nat.add_0_r i), <- lookup_drop, <- Er).
  assert (rest = drop (S i) files) as Er' by (by rewrite <- Nat.add_1_r, <- drop_drop, <- Er).
  pose proof Hw as (Hc & Hj & Hed & Ho).
  assert (text w (st_rel s) = text0 (st_rel s)) as Htext.
  { apply Ho. by apply (not_taken i i s Hs). }
  destruct (decide (i = k)) as [->|Hik].
  - assert (s = sk) as -> by congruence.
    eapply post_bind.
    { eapply post_conseq; [apply (write_atomic_cas_refused (st_rel sk) (st_expected_hash sk) (st_edited sk) w w)
                          |intros ? ? H; exact H|done|done]; [by apply same_refl|].
      intros t Ht. apply Hne. by rewrite <- Htext. }
    intros ? w1 [-> H1]. unfold record_if.
    eapply post_bind; [apply (progress_sane k k sk Conflicted w1 Hs); by eapply wrote_same|].
    intros ? w2 H2. cbn beta in H2. rewrite Hrb, Hrc.
    eapply post_bind; [apply (restore_all k [] [] w2); [by apply Nat.lt_le_incl; eapply lookup_lt_Some|done|done]|].
    intros ? w3 [-> H3]. cbn [app]. eapply post_bind.
    { pose proof H3 as (_ & Hj3 & _).
      destruct (law_rolled_back id paths (rev (take k paths)) [] (w_journal w3)) as (j' & Ej & Hj' & _);
        [done|done| |by eapply jcall_sane].
      rewrite app_nil_r, <- (Permutation_rev (take k paths)). apply submseteq_take. }
    intros ? w4 H4. cbn beta in H4. cbn. split; [|done].
    split_and!; [done|done|by rewrite Hcf|]. cbn. by rewrite Hsk, Er', skipn_map.
  - assert (text0 (st_rel s) = Some (st_original s)) as Hbase by (apply (H0 i s Hs); lia).
    eapply (post_bind _ _ _ (λ r w', r = Ok (hash (st_edited s)) ∧ wrote (S i) w')).
    { rewrite <- (proj1 (Forall_lookup _ _) Hstaged i s Hs).
      eapply post_conseq;
        [apply (write_atomic_cas_text (st_rel s) (st_original s) (st_edited s) w w);
           [by apply same_refl|by rewrite Htext]| |done|done].
      intros r w' (-> & Hc' & Hj' & Ht). split; [done|].
      eapply (wrote_S i s w); try done. by rewrite Hj'. }
    intros r w1 [-> H1]. unfold record_if.
    eapply post_bind; [by apply (progress_sane (S i) i s Committed w1 Hs)|].
    intros ? w2 H2. cbn beta in H2. rewrite <- (written_upto_S i s Hs). apply IH; try done. lia.
Qed.
End Rollback.

(** a rolled-back edit leaves no trace. When a [RollBack] transaction,
    after it began, finds at commit time that somebody changed or removed its
    [k]-th file while the files before it are as they were, the commit
    reports that file as the conflict, reports every file it had written as
    restored, newest first, attempts none of the files behind the conflict,
    and leaves every text on the disk - the other writer's included - exactly
    as the commit found it. *)
Theorem conflicted_edit_is_rolled_back {J} `{!EditTxnJournal J, !LawfulJournal J}
    hash set_language parse ws i reqs mode id session b (w0 w1 w2 w3 : World J) p k s r
  (Hcalm : calm w0) (Hsane : jsane (w_journal w0))
  (Hbegin : begin_multi_file_edit hash set_language parse ws i reqs mode RollBack id session b w0
            = (Done p, w1))
  (Hothers : w_journal w2 = w_journal w1) (Hquiet : w_sched w2 = [])
  (Hk : pe_files p !! k = Some s)
  (Hbefore : ∀ j t, pe_files p !! j = Some t → j < k → text w2 (st_rel t) = Some (st_original t))
  (Hchanged : ∀ t, text w2 (st_rel s) = Some t → hash t ≠ st_expected_hash s)
  (Hcommit : commit_prepared hash ws i p w2 = (r, w3)) :
  ∃ run, r = Done run ∧ rolled_back (pe_files p) k s run ∧ ∀ q, text w3 q = text w2 q.
Proof.
  pose proof (begin_calm hash set_language parse ws i reqs mode RollBack id session b w0 Hcalm Hsane) as H.
  rewrite Hbegin in H. cbn in H.
  destruct H as (_ & -> & Hown & _ & Hid & Hst & Hfull & Hnd & _ & _ & Hs1 & _ & Hacc).
  assert (Forall (λ s, hash (st_original s) = st_expected_hash s) (pe_files p)) as Hstaged.
  { apply Forall_forall. intros x Hx. apply list_elem_of_lookup in Hx as [j Hj].
    destruct (Forall2_lookup_r _ _ _ _ _ Hfull Hj) as (req & _ & (_ & E1 & E2 & _) & _). congruence. }
  pose proof (commit_loop_conflict hash (pe_files p) id (text w2) Hstaged Hnd Hacc k s (pe_files p) 0
    run_new w2 Hk Hchanged Hbefore eq_refl (Nat.le_0_l _)) as Hloop.
  unfold commit_prepared, commit_staged, require_owned_workspace, verify_identity in Hcommit.
  rewrite Hown, N.eqb_refl, Hid, Hst in Hcommit. cbn in Hcommit. unfold ebind in Hcommit. cbn in Hcommit.
  assert (wrote (pe_files p) (text w2) 0 w2) as Hw.
  { split_and!; [by unfold calm; rewrite Hquiet|by rewrite Hothers|intros; lia|done]. }
  specialize (Hloop Hw eq_refl eq_refl eq_refl eq_refl).
  change (written_upto hash (pe_files p) 0) with (@nil (StagedEdit * FileHash)) in Hloop.
  rewrite Hcommit in Hloop. destruct r as [run|e|]; cbn in Hloop; [|done|].
  - exists run. split; [done|]. destruct Hloop as [Hr (_ & _ & _ & Ho)]. split; [done|].
    intros q. apply Ho. by intros ?%elem_of_nil.
  - destruct (lives_commit_loop hash (Some id) RollBack (pe_files p) 0 [] run_new w2 Hquiet) as [Hl _].
    by rewrite Hcommit in Hl.
Qed.
