(* ===== verification/EditLedgerJournal.v ===== *)
(** * The session ledger as the journal of edit transactions

    [trait EditTxnJournal] of [crates/edit/src/lib.rs] over the typed rows of
    [crates/session/src/ledger]: each record call appends one row, with the
    tags and digests spelled as the rows spell them, and the open
    transactions are decoded back.  The ledger then keeps every promise of
    [EditRecovery.LawfulJournal], so the crash theorem holds for it. *)
From stdpp Require Import sorting.
From S2P Require Import Prelude Strings Bytes AgentMachine EditOps EditSyntax EditJournal EditJournalThms.
From S2P Require Import EditTxn EditTxnThms EditRecovery EditRollback.
#[local] Open Scope string_scope.
#[local] Open Scope nat_scope.

Definition strategy_tag (s : EditTxnStrategy) : string :=
  match s with
  | RollForward => EDIT_TXN_STRATEGY_ROLL_FORWARD
  | RollBack => EDIT_TXN_STRATEGY_ROLL_BACK
  end.
Definition strategy_of_tag (t : string) : option EditTxnStrategy :=
  if bool_decide (t = "roll_forward") then Some RollForward
  else if bool_decide (t = "roll_back") then Some RollBack
  else None.
Definition outcome_tag (o : TxnFileOutcome) : string :=
  match o with Committed => "committed" | Conflicted => "conflicted" end.
Definition outcome_of_tag (t : string) : option TxnFileOutcome :=
  if bool_decide (t = "committed") then Some Committed
  else if bool_decide (t = "conflicted") then Some Conflicted
  else None.

Definition file_row (f : EditTxnFileRef) : EditTxnLedgerFile :=
  MkLedgerFile (f_path f) (to_hex (f_base_digest f)) (f_base_len f).
Definition file_of_row (f : EditTxnLedgerFile) : option EditTxnFileRef :=
  h ← from_hex (lf_base_digest f); Some (MkFileRef (lf_path f) h (lf_base_bytes_len f)).
Definition progress_of_row (p : EditTxnOpenProgress) : option TxnProgressRow :=
  o ← outcome_of_tag (op_outcome p); Some (MkProgress (op_seq p) (op_path p) o).
Definition open_of_row (r : EditTxnOpenRow) : option OpenEditTxn :=
  s ← strategy_of_tag (or_strategy r);
  fs ← mapM file_of_row (or_files r);
  ps ← mapM progress_of_row (or_progress r);
  Some (MkOpen (or_txn_id r) s fs ps).

Definition ledger_open_transactions (es : list LedgerPayload) : result (list OpenEditTxn) ErrorKind :=
  rows <-? ledger_open_edit_txns es;
  match mapM open_of_row rows with Some l => Ok l | None => Err Malformed end.

#[global] Instance ledger_journal (payload_bytes : LedgerPayload → N)
    : EditTxnJournal (list LedgerPayload) := {
  entry_payload_cap _ := MAX_LEDGER_ENTRY_BYTES;
  record_prepared id session files strategy :=
    ledger_edit_txn_prepared payload_bytes id session (map file_row files) (strategy_tag strategy);
  record_progress id seq path o :=
    ledger_edit_txn_progress payload_bytes id seq path (outcome_tag o);
  record_committed id c cf sk := ledger_edit_txn_committed payload_bytes id c cf sk;
  record_rolled_back id rb rc := ledger_edit_txn_rolled_back payload_bytes id rb rc;
  open_transactions := ledger_open_transactions
}.

(** ** Spelling *)
Lemma strategy_of_tag_tag s : strategy_of_tag (strategy_tag s) = Some s.
Proof. by destruct s. Qed.
Lemma outcome_of_tag_tag o : outcome_of_tag (outcome_tag o) = Some o.
Proof. by destruct o. Qed.

(** ** The ledger's rows, as the journal interface sees them *)
Definition view_row (p : LedgerPayload) : option TxnRow :=
  match p with
  | EditTxnPrepared id _ files strategy =>
      s ← strategy_of_tag strategy; fs ← mapM file_of_row files; Some (RPrepared id fs s)
  | EditTxnProgress id seq path o =>
      o' ← outcome_of_tag o; Some (RProgress id (MkProgress seq path o'))
  | EditTxnCommitted id _ _ _ | EditTxnRolledBack id _ _ => Some (REnd id)
  | LOther => None
  end.
Definition ledger_view (es : list LedgerPayload) : list TxnRow := omap view_row es.
Definition ledger_sane (es : list LedgerPayload) : Prop := Forall (λ p, row_fields p = Ok tt) es.

Lemma validate_prepared_Ok id session files strategy :
  validate_edit_txn_prepared id session files strategy = Ok tt ↔
  id ≠ 0%N ∧ session ≠ "" ∧ (slen session <= MAX_EDIT_TXN_SESSION_BYTES)%N ∧ files ≠ []
  ∧ (N.of_nat (List.length files) <= MAX_EDIT_TXN_FILES)%N
  ∧ is_Some (strategy_of_tag strategy) ∧ Forall (λ f, check_file f = Ok tt) files.
Proof.
  unfold validate_edit_txn_prepared, strategy_of_tag, EDIT_TXN_STRATEGY_ROLL_FORWARD,
    EDIT_TXN_STRATEGY_ROLL_BACK.
  destruct (N.eqb_spec id 0); [naive_solver|].
  destruct (decide (session = "")) as [->|Hs]; [cbn; naive_solver|].
  rewrite (bool_decide_eq_false_2 _ Hs). cbn [orb].
  destruct (N.ltb_spec MAX_EDIT_TXN_SESSION_BYTES (slen session)); [split; [done|lia]|].
  destruct files as [|f files]; [cbn; naive_solver|].
  rewrite bool_decide_eq_false_2 by done.
  destruct (N.ltb_spec MAX_EDIT_TXN_FILES (N.of_nat (List.length (f :: files)))); [split; [done|lia]|].
  rewrite <- check_each_ok.
  destruct (decide (strategy = "roll_forward")) as [->|H1].
  { cbn [bool_decide decide]. rewrite bool_decide_eq_true_2 by done. cbn [orb negb]. naive_solver. }
  rewrite (bool_decide_eq_false_2 _ H1). cbn [orb].
  destruct (decide (strategy = "roll_back")) as [->|H2].
  { rewrite bool_decide_eq_true_2 by done. cbn [negb]. naive_solver. }
  rewrite (bool_decide_eq_false_2 _ H2). cbn. split; [done|]. by intros (_ & _ & _ & _ & _ & [? ?] & _).
Qed.

Lemma check_file_row f : check_file f = Ok tt → is_Some (file_of_row f) ∧ check_text (lf_path f) = Ok tt.
Proof.
  unfold check_file, file_of_row. rewrite rseq_Ok. intros [Ht H].
  destruct (from_hex (lf_base_digest f)); [|done]. split; [by eexists|done].
Qed.

(** A well-formed row of a transaction is seen. *)
Lemma view_row_some p id :
  row_fields p = Ok tt → row_txn p = Some id → ∃ r, view_row p = Some r ∧ row_id r = id.
Proof.
  destruct p as [i s fs str|i sq path o|i a b c|i a b|]; cbn; intros Hf [= ->] || intros Hf; try done.
  - apply validate_prepared_Ok in Hf as (_ & _ & _ & _ & _ & [st ->] & Hfs). cbn.
    destruct (mapM file_of_row fs) as [l|] eqn:E; [by eexists|].
    apply mapM_None in E. exfalso. apply Exists_exists in E as (f & Hin & Hn).
    rewrite Forall_forall in Hfs. destruct (check_file_row f (Hfs f Hin)) as [[? Hs] _]. congruence.
  - destruct (id =? 0)%N; [done|]. apply rseq_Ok in Hf as [_ Ho]. unfold check_outcome in Ho.
    unfold outcome_of_tag, EDIT_TXN_OUTCOME_COMMITTED, EDIT_TXN_OUTCOME_CONFLICTED in *.
    destruct (bool_decide (o = "committed")); [by eexists|].
    destruct (bool_decide (o = "conflicted")); [by eexists|done].
  - by eexists.
  - by eexists.
Qed.

(** ** Streams and their views *)
Lemma view_app a b : ledger_view (a ++ b) = (ledger_view a ++ ledger_view b)%list.
Proof. apply omap_app. Qed.

Lemma view_app_inv es a b :
  ledger_view es = (a ++ b)%list →
  ∃ e1 e2, es = (e1 ++ e2)%list ∧ ledger_view e1 = a ∧ ledger_view e2 = b.
Proof.
  revert a. induction es as [|p es IH]; intros a H; cbn in H.
  { symmetry in H. apply app_eq_nil in H as [-> ->]. by exists [], []. }
  destruct (view_row p) as [x|] eqn:E.
  - destruct a as [|y a].
    + exists [], (p :: es). cbn. by rewrite E.
    + injection H as -> H. destruct (IH a H) as (e1 & e2 & -> & H1 & H2).
      exists (p :: e1), e2. cbn. rewrite E. unfold ledger_view in H1. by rewrite H1.
  - destruct (IH a H) as (e1 & e2 & -> & H1 & H2). exists (p :: e1), e2. cbn. by rewrite E.
Qed.

Lemma view_cons_inv es x b :
  ledger_view es = x :: b →
  ∃ e1 p e2, es = (e1 ++ p :: e2)%list ∧ ledger_view e1 = [] ∧ view_row p = Some x
             ∧ ledger_view e2 = b.
Proof.
  induction es as [|p es IH]; intros H; cbn in H; [done|].
  destruct (view_row p) as [y|] eqn:E.
  - injection H as -> H. exists [], p, es. done.
  - destruct (IH H) as (e1 & q & e2 & -> & H1 & H2 & H3). exists (p :: e1), q, e2. cbn. by rewrite E.
Qed.

Lemma life_from_app id l a b :
  life_from id l (a ++ b) = match life_from id l a with Some l' => life_from id l' b | None => None end.
Proof.
  revert l. induction a as [|p a IH]; intros l; [done|]. cbn. destruct (life_step id p l); [apply IH|done].
Qed.

(** Rows that show nothing of a transaction do not move it. *)
Lemma life_from_unseen id l es :
  ledger_sane es → fresh id (ledger_view es) → life_from id l es = Some l.
Proof.
  intros Hs. induction Hs as [|p es Hp _ IH]; intros Hf; [done|]. cbn [life_from].
  assert (row_txn p ≠ Some id) as Hne.
  { intros Ht. destruct (view_row_some p id Hp Ht) as (x & Hx & Hid).
    cbn in Hf. rewrite Hx in Hf. by inversion Hf. }
  rewrite life_step_ne by done. apply IH. cbn in Hf. destruct (view_row p); [by inversion Hf|done].
Qed.

Definition progress_row (p : TxnProgressRow) : EditTxnOpenProgress :=
  MkOpenProgress (pr_seq p) (pr_path p) (outcome_tag (pr_outcome p)).

Lemma view_row_progress p id x :
  view_row p = Some (RProgress id x) →
  p = EditTxnProgress id (pr_seq x) (pr_path x) (outcome_tag (pr_outcome x)).
Proof.
  destruct p as [i s fs str|i sq path o|i a b c|i a b|]; cbn; try done.
  - destruct (strategy_of_tag str); [|done]. cbn. by destruct (mapM _ fs).
  - unfold outcome_of_tag. repeat case_bool_decide; cbn; intros [= <- <-]; by subst.
Qed.

Lemma life_from_progress id es ps fs s str rows :
  ledger_sane es → ledger_view es = map (RProgress id) ps →
  life_from id (Live fs s str rows) es = Some (Live fs s str (rows ++ map progress_row ps)%list).
Proof.
  revert es rows. induction ps as [|p ps IH]; intros es rows Hs Hv.
  - rewrite app_nil_r. apply life_from_unseen; [done|]. rewrite Hv. constructor.
  - apply view_cons_inv in Hv as (e1 & q & e2 & -> & H1 & Hq & H2).
    apply Forall_app in Hs as [Hs1 [_ Hs2]%Forall_cons].
    rewrite life_from_app, (life_from_unseen id _ e1) by (try done; by rewrite H1; constructor).
    apply view_row_progress in Hq as ->. cbn [life_from]. unfold life_step.
    rewrite bool_decide_eq_true_2 by done. rewrite (IH e2) by done. by rewrite <- app_assoc.
Qed.

Lemma fresh_progress id id' ps : id ≠ id' → fresh id' (map (RProgress id) ps).
Proof. intros H. apply Forall_map, Forall_forall. by intros x _. Qed.

Lemma view_row_end p id : view_row p = Some (REnd id) → terminal_id p = Some id ∧ row_txn p = Some id.
Proof.
  destruct p as [i s fs str|i sq path o|i a b c|i a b|]; cbn; try done.
  - destruct (strategy_of_tag str); [|done]. cbn. by destruct (mapM _ fs).
  - by destruct (outcome_of_tag o).
  - intros [= ->]. done.
  - intros [= ->]. done.
Qed.

Lemma view_row_prepared p id files strategy :
  view_row p = Some (RPrepared id files strategy) →
  ∃ s fs str, p = EditTxnPrepared id s fs str ∧ strategy_of_tag str = Some strategy
              ∧ mapM file_of_row fs = Some files.
Proof.
  destruct p as [i s fs str|i sq path o|i a b c|i a b|]; cbn; try done.
  - destruct (strategy_of_tag str) eqn:E; [|done]. cbn. destruct (mapM _ fs) eqn:E2; [|done].
    intros [= -> -> ->]. by exists s, fs, str.
  - by destruct (outcome_of_tag o).
Qed.

(** The life of a transaction begun after a settled past. *)
Lemma life_begun es pre id files strategy ps :
  ledger_sane es → fresh id pre →
  ledger_view es = (pre ++ RPrepared id files strategy :: map (RProgress id) ps)%list →
  ∃ e1 e2 fs s str, es = (e1 ++ e2)%list ∧ ledger_view e1 = pre
    ∧ strategy_of_tag str = Some strategy ∧ mapM file_of_row fs = Some files
    ∧ life id es = Some (Live fs s str (map progress_row ps))
    ∧ ∀ id' l, id' ≠ id → life_from id' l e2 = Some l.
Proof.
  intros Hs Hf Hv. apply view_app_inv in Hv as (e1 & e2 & -> & H1 & Hv).
  apply Forall_app in Hs as [Hs1 Hs2].
  pose proof Hv as (a & p & b & -> & Ha & Hp & Hb)%view_cons_inv.
  destruct (view_row_prepared _ _ _ _ Hp) as (s & fs & str & -> & Hstr & Hfs).
  pose proof Hs2 as [Hsa [_ Hsb]%Forall_cons]%Forall_app.
  exists e1, (a ++ EditTxnPrepared id s fs str :: b)%list, fs, s, str. split_and!; try done.
  - unfold life. rewrite life_from_app, (life_from_unseen id _ e1) by (try done; by rewrite H1).
    rewrite life_from_app, (life_from_unseen id _ a) by (try done; by rewrite Ha; constructor).
    cbn [life_from]. unfold life_step. rewrite bool_decide_eq_true_2 by done.
    by rewrite (life_from_progress id b ps).
  - intros id' l Hne. apply life_from_unseen; [done|]. rewrite Hv. constructor; [done|].
    by apply fresh_progress.
Qed.

Lemma settled_life es :
  ledger_sane es → settled (ledger_view es) →
  ∀ id, ∃ l, life id es = Some l ∧ is_live l = false.
Proof.
  intros Hs Hset. remember (ledger_view es) as rows eqn:E. revert es Hs E.
  induction Hset as [|pre id files strategy ps Hset IH Hf Hps]; intros es Hs E id'.
  - exists Absent. split; [|done]. apply life_from_unseen; [done|]. rewrite <- E. constructor.
  - rewrite app_comm_cons, app_assoc in E. symmetry in E.
    apply view_app_inv in E as (e1 & e2 & -> & Hv1 & Hv2).
    apply Forall_app in Hs as [Hs1 Hs2].
    destruct (life_begun e1 pre id files strategy ps Hs1 Hf Hv1)
      as (a & b & fs & s & str & -> & Ha & _ & _ & Hl & Hother).
    apply view_cons_inv in Hv2 as (c & p & d & -> & Hc & Hp & Hd).
    apply view_row_end in Hp as [Hterm Ht]. apply Forall_app in Hs2 as [Hsc [_ Hsd]%Forall_cons].
    unfold life in *. rewrite life_from_app.
    destruct (decide (id' = id)) as [->|Hne].
    + rewrite Hl, life_from_app, (life_from_unseen id _ c) by (try done; by rewrite Hc; constructor).
      cbn [life_from]. unfold life_step. rewrite bool_decide_eq_true_2 by done.
      exists Ended. split; [|done].
      destruct p; try done; apply life_from_unseen; try done; rewrite Hd; constructor.
    + apply Forall_app in Hs1 as [Hsa _]. rewrite life_from_app.
      destruct (IH a Hsa (eq_sym Ha) id') as (l & -> & Hlive). exists l. split; [|done].
      rewrite Hother by done. rewrite life_from_app, (life_from_unseen id' _ c) by (try done; by rewrite Hc; constructor).
      cbn [life_from]. rewrite life_step_ne by congruence. apply life_from_unseen; [done|].
      rewrite Hd. constructor.
Qed.

(** ** What the ledger reads back *)
Lemma files_paths fs files : mapM file_of_row fs = Some files → map lf_path fs = map f_path files.
Proof.
  intros H%mapM_Some. induction H as [|f g fs files Hf _ IH]; [done|]. cbn. rewrite IH. f_equal.
  unfold file_of_row in Hf. destruct (from_hex _); [|done]. by injection Hf as <-.
Qed.

Lemma merge_sort_sorted l : StronglySorted N.lt (map op_seq l) → merge_sort seq_le l = l.
Proof.
  intros H. assert (StronglySorted seq_le l) as Hl.
  { induction l as [|a l IH]; [constructor|]. cbn in H. inversion H as [|? ? H1 H2]; subst.
    constructor; [by apply IH|]. rewrite Forall_map in H2. eapply Forall_impl; [exact H2|].
    intros b Hb. unfold seq_le. cbn in Hb. lia. }
  assert (NoDup (map op_seq l)) as Hnd.
  { clear Hl. induction l as [|a l IH]; [constructor|]. cbn in *. inversion H as [|? ? H1 H2]; subst.
    constructor; [|by apply IH]. intros Hin. rewrite Forall_forall in H2. specialize (H2 _ Hin). lia. }
  apply (StronglySorted_unique_strong seq_le); [|apply StronglySorted_merge_sort; apply _|done|apply merge_sort_Permutation].
  intros a b Ha Hb Hab Hba. rewrite merge_sort_Permutation in Ha.
  apply list_elem_of_lookup in Ha as [i Hi]. apply list_elem_of_lookup in Hb as [j Hj].
  assert (i = j) as ->; [|congruence]. eapply (NoDup_lookup (map op_seq l)); [done|..].
  - by rewrite list_lookup_fmap, Hi.
  - rewrite list_lookup_fmap, Hj. cbn. f_equal. unfold seq_le in *. lia.
Qed.

Lemma map_seq_rows ps : map op_seq (map progress_row ps) = map pr_seq ps.
Proof. by rewrite map_map. Qed.

Lemma progress_ok_live fs files ps :
  mapM file_of_row fs = Some files → progress_ok files ps → live_ok fs (map progress_row ps).
Proof.
  intros Hfs [Hp Hs]. pose proof (files_paths _ _ Hfs) as Hpaths. split.
  - apply Forall_map. eapply Forall_impl; [exact Hp|]. intros p (f & Hf & Hpath). cbn.
    assert (map lf_path fs !! N.to_nat (pr_seq p) = Some (pr_path p)) as Hl.
    { rewrite Hpaths, list_lookup_fmap, Hf. cbn. by rewrite Hpath. }
    rewrite list_lookup_fmap in Hl. destruct (fs !! N.to_nat (pr_seq p)) as [g|] eqn:Eg; [|done].
    cbn in Hl. injection Hl as Hg. pose proof (lookup_lt_Some _ _ _ Eg).
    unfold check_progress_row. cbn [op_seq op_path progress_row].
    destruct (N.leb_spec (N.of_nat (List.length fs)) (pr_seq p)); [lia|].
    by rewrite Eg, bool_decide_eq_true_2.
  - rewrite map_seq_rows. clear -Hs. induction ps as [|a l IH]; [constructor|]. cbn in *.
    inversion Hs as [|? ? H1 H2]; subst.
    constructor; [|by apply IH]. intros Hin. rewrite Forall_forall in H2. specialize (H2 _ Hin). lia.
Qed.

Lemma ledger_none_open es :
  ledger_sane es → settled (ledger_view es) → ledger_open_transactions es = Ok [].
Proof.
  intros Hs Hset. pose proof (settled_life es Hs Hset) as Hl. unfold ledger_open_transactions.
  assert (ledger_open_edit_txns es = Ok []) as ->; [|done]. apply open_txns_exact.
  split; [split; [done|]|split; [constructor|]].
  - intros id. destruct (Hl id) as (l & El & Hlive). exists l. split; [done|]. by destruct l.
  - intros x. split; [by intros ?%elem_of_nil|]. intros (l & El & Hr).
    destruct (Hl (or_txn_id x)) as (l' & El' & Hlive). assert (l' = l) as -> by congruence.
    by destruct l.
Qed.

Lemma ledger_one_open es pre id files strategy ps :
  ledger_sane es → settled pre → fresh id pre → progress_ok files ps →
  ledger_view es = (pre ++ RPrepared id files strategy :: map (RProgress id) ps)%list →
  ledger_open_transactions es = Ok [MkOpen id strategy files ps].
Proof.
  intros Hs Hset Hf Hps Hv.
  destruct (life_begun es pre id files strategy ps Hs Hf Hv)
    as (e1 & e2 & fs & s & str & -> & H1 & Hstr & Hfs & Hl & Hother).
  pose proof Hs as [Hs1 _]%Forall_app.
  assert (∀ id', id' ≠ id → ∃ l, life id' (e1 ++ e2) = Some l ∧ is_live l = false) as Hrest.
  { intros id' Hne. destruct (settled_life e1 Hs1) with id' as (l & El & Hlive); [by rewrite H1|].
    exists l. split; [|done]. unfold life in *. rewrite life_from_app, El. by apply Hother. }
  unfold ledger_open_transactions.
  assert (ledger_open_edit_txns (e1 ++ e2) = Ok [MkOpenRow id s str fs (map progress_row ps)]) as ->.
  { apply open_txns_exact. split; [split; [done|]|split; [by repeat constructor|]].
    - intros id'. destruct (decide (id' = id)) as [->|Hne].
      + eexists. split; [done|]. cbn. by eapply progress_ok_live.
      + destruct (Hrest id' Hne) as (l & El & Hlive). exists l. split; [done|]. by destruct l.
    - intros x. rewrite list_elem_of_singleton. split.
      + intros ->. eexists. split; [exact Hl|]. cbn. by rewrite merge_sort_sorted by (rewrite map_seq_rows; apply Hps).
      + intros (l & El & Hr). destruct (decide (or_txn_id x = id)) as [E|Hne].
        * rewrite E in *. assert (l = Live fs s str (map progress_row ps)) as -> by congruence.
          cbn in Hr. rewrite merge_sort_sorted in Hr by (rewrite map_seq_rows; apply Hps). congruence.
        * destruct (Hrest _ Hne) as (l' & El' & Hlive). assert (l' = l) as -> by congruence. by destruct l. }
  cbn [rbind mapM]. unfold open_of_row. cbn. rewrite Hstr, Hfs. cbn.
  assert (mapM progress_of_row (map progress_row ps) = Some ps) as ->; [|done].
  apply mapM_fmap_Some. intros [sq p o]. unfold progress_of_row. cbn. by rewrite outcome_of_tag_tag.
Qed.

Section Lawful.
Variable payload_bytes : LedgerPayload → N.

(** serde_json: a later row names paths the prepared row also names, next to
    a digest and a length, so its text is no longer. *)
Definition later_rows_shorter : Prop :=
  ∀ id session files strategy, files ≠ [] →
    let size := payload_bytes (EditTxnPrepared id session files strategy) in
    (∀ seq p o, p ∈ map lf_path files → (payload_bytes (EditTxnProgress id seq p (outcome_tag o)) <= size)%N)
    ∧ (∀ c cf sk, (c ++ cf ++ sk)%list ⊆+ map lf_path files →
         (payload_bytes (EditTxnCommitted id c cf sk) <= size)%N)
    ∧ (∀ rb rc, (rb ++ rc)%list ⊆+ map lf_path files →
         (payload_bytes (EditTxnRolledBack id rb rc) <= size)%N).
Hypothesis Hpayload : later_rows_shorter.

Definition ledger_accepts (id : N) (paths : list string) : Prop :=
  ∃ session files strategy, paths = map lf_path files
    ∧ validate_edit_txn_prepared id session files strategy = Ok tt
    ∧ (payload_bytes (EditTxnPrepared id session files strategy) <= MAX_LEDGER_ENTRY_BYTES)%N.

Lemma append_entry_Ok p es es' :
  append_entry payload_bytes p es = Ok es' ↔
  (payload_bytes p <= MAX_LEDGER_ENTRY_BYTES)%N ∧ es' = (es ++ [p])%list.
Proof.
  unfold append_entry, check_payload_bytes.
  destruct (N.ltb_spec MAX_LEDGER_ENTRY_BYTES (payload_bytes p)); cbn.
  - split; [done|lia].
  - split; [by intros [= <-]|by intros [_ ->]].
Qed.

Lemma accepts_path_list id paths l :
  ledger_accepts id paths → l ⊆+ paths → check_edit_txn_path_list l = Ok tt.
Proof.
  intros (session & files & str & -> & Hv & _) Hl.
  apply validate_prepared_Ok in Hv as (_ & _ & _ & _ & Hn & _ & Hf).
  unfold check_edit_txn_path_list. pose proof (submseteq_length _ _ Hl) as Hlen.
  rewrite length_map in Hlen. unfold MAX_EDIT_TXN_TERMINAL_PATHS.
  destruct (N.ltb_spec MAX_EDIT_TXN_FILES (N.of_nat (List.length l))); [lia|].
  apply check_each_ok, Forall_forall. intros x Hx.
  apply (elem_of_submseteq _ _ _ Hx) in Hl. apply list_elem_of_fmap in Hl as (f & -> & Hin).
  rewrite Forall_forall in Hf. by apply check_file_row, Hf.
Qed.

Lemma file_rows_back files fs :
  map file_row files = fs → Forall (λ f, check_file f = Ok tt) fs → mapM file_of_row fs = Some files.
Proof.
  intros <- Hf. apply mapM_fmap_Forall_Some. rewrite Forall_map in Hf.
  eapply Forall_impl; [exact Hf|]. intros [p h n] Hc. apply check_file_row in Hc as [[g Hg] _].
  rewrite Hg. unfold file_of_row in Hg. cbn in Hg. destruct (from_hex (to_hex h)) as [h'|] eqn:E; [|done].
  apply from_hex_to_hex in E as ->. cbn in Hg. congruence.
Qed.

(** Appending a well-formed row the ledger has room for. *)
Lemma append_row p es x :
  ledger_sane es → row_fields p = Ok tt → view_row p = Some x →
  ledger_sane (es ++ [p]) ∧ ledger_view (es ++ [p]) = (ledger_view es ++ [x])%list.
Proof.
  intros Hs Hf Hx. split; [apply Forall_app; split; [done|by repeat constructor]|].
  rewrite view_app. cbn. by rewrite Hx.
Qed.

Lemma ledger_law_prepared id s files strategy es es' :
  ledger_sane es → record_prepared (EditTxnJournal := ledger_journal payload_bytes) id s files strategy es = Ok es' →
  ledger_sane es' ∧ ledger_view es' = (ledger_view es ++ [RPrepared id files strategy])%list
  ∧ ledger_accepts id (map f_path files).
Proof.
  intros Hs. cbn. unfold ledger_edit_txn_prepared. rewrite rseq_Ok, append_entry_Ok.
  intros (Hv & Hb & ->). pose proof Hv as Hv'.
  apply validate_prepared_Ok in Hv' as (_ & _ & _ & _ & _ & _ & Hf).
  pose proof (file_rows_back files _ eq_refl Hf) as Hback. 
  destruct (append_row (EditTxnPrepared id s (map file_row files) (strategy_tag strategy)) es
              (RPrepared id files strategy)) as [H1 H2];
    [done|done|cbn; by rewrite strategy_of_tag_tag, Hback|].
  split; [done|]. split; [done|].
  exists s, (map file_row files), (strategy_tag strategy). split_and!; [|done|done].
  symmetry. by apply files_paths.
Qed.

Lemma ledger_law_progress id paths sq p o es :
  ledger_sane es → ledger_accepts id paths → p ∈ paths →
  ∃ es', record_progress (EditTxnJournal := ledger_journal payload_bytes) id sq p o es = Ok es' ∧ ledger_sane es'
         ∧ ledger_view es' = (ledger_view es ++ [RProgress id (MkProgress sq p o)])%list.
Proof using Hpayload.
  intros Hs (session & files & str & -> & Hv & Hb) Hp.
  apply validate_prepared_Ok in Hv as (Hid & _ & _ & Hne & _ & _ & Hf).
  assert (check_text p = Ok tt) as Ht.
  { apply list_elem_of_fmap in Hp as (f & -> & Hin). rewrite Forall_forall in Hf. by apply check_file_row, Hf. }
  assert (check_outcome (outcome_tag o) = Ok tt) as Ho by (by destruct o).
  destruct (Hpayload id session files str Hne) as (Hsize & _). specialize (Hsize sq p o Hp).
  cbn. unfold ledger_edit_txn_progress. destruct (N.eqb_spec id 0) as [|_]; [done|].
  rewrite Ht, Ho. cbn. eexists. split; [apply append_entry_Ok; split; [lia|done]|].
  apply append_row; [done| |cbn; by rewrite outcome_of_tag_tag].
  cbn. destruct (N.eqb_spec id 0) as [|_]; [done|]. by rewrite Ht, Ho.
Qed.

Lemma ledger_law_committed id paths c cf sk es :
  ledger_sane es → ledger_accepts id paths → (c ++ cf ++ sk)%list ⊆+ paths →
  ∃ es', record_committed (EditTxnJournal := ledger_journal payload_bytes) id c cf sk es = Ok es' ∧ ledger_sane es'
         ∧ ledger_view es' = (ledger_view es ++ [REnd id])%list.
Proof using Hpayload.
  intros Hs Hacc Hp.
  assert (check_each check_edit_txn_path_list [c; cf; sk] = Ok tt) as Hc.
  { apply check_each_ok. repeat constructor; eapply accepts_path_list; try done;
      (etrans; [|exact Hp]).
    - by apply submseteq_inserts_r.
    - by apply submseteq_inserts_l, submseteq_inserts_r.
    - by apply submseteq_inserts_l, submseteq_inserts_l. }
  destruct Hacc as (session & files & str & -> & Hv & Hb).
  apply validate_prepared_Ok in Hv as (Hid & _ & _ & Hne & _).
  destruct (Hpayload id session files str Hne) as (_ & Hsize & _). specialize (Hsize c cf sk Hp).
  cbn -[check_each]. unfold ledger_edit_txn_committed. destruct (N.eqb_spec id 0) as [|_]; [done|].
  rewrite Hc. cbn -[check_each]. eexists. split; [apply append_entry_Ok; split; [lia|done]|].
  by apply append_row.
Qed.

Lemma ledger_law_rolled_back id paths rb rc es :
  ledger_sane es → ledger_accepts id paths → (rb ++ rc)%list ⊆+ paths →
  ∃ es', record_rolled_back (EditTxnJournal := ledger_journal payload_bytes) id rb rc es = Ok es' ∧ ledger_sane es'
         ∧ ledger_view es' = (ledger_view es ++ [REnd id])%list.
Proof using Hpayload.
  intros Hs Hacc Hp.
  assert (check_each check_edit_txn_path_list [rb; rc] = Ok tt) as Hc.
  { apply check_each_ok. repeat constructor; eapply accepts_path_list; try done;
      (etrans; [|exact Hp]); [by apply submseteq_inserts_r|by apply submseteq_inserts_l]. }
  destruct Hacc as (session & files & str & -> & Hv & Hb).
  apply validate_prepared_Ok in Hv as (Hid & _ & _ & Hne & _).
  destruct (Hpayload id session files str Hne) as (_ & _ & Hsize). specialize (Hsize rb rc Hp).
  cbn -[check_each]. unfold ledger_edit_txn_rolled_back. destruct (N.eqb_spec id 0) as [|_]; [done|].
  rewrite Hc. cbn -[check_each]. eexists. split; [apply append_entry_Ok; split; [lia|done]|].
  by apply append_row.
Qed.

Definition ledger_lawful : @LawfulJournal (list LedgerPayload) (ledger_journal payload_bytes) :=
  {| jview := ledger_view; jsane := ledger_sane; jaccepts := ledger_accepts;
     law_prepared := ledger_law_prepared; law_progress := ledger_law_progress;
     law_committed := ledger_law_committed; law_rolled_back := ledger_law_rolled_back;
     law_none_open := ledger_none_open; law_one_open := ledger_one_open |}.
End Lawful.

(** ** A concrete machine *)
Module Demo.
Definition total (l : list string) : N := foldr (λ s n, (slen s + n)%N) 0%N l.

(** A row size with a fixed part and one part per path. *)
Definition row_size (p : LedgerPayload) : N :=
  match p with
  | EditTxnPrepared _ _ files _ => 100 + total (map lf_path files) + 100 * N.of_nat (List.length files)
  | EditTxnProgress _ _ p _ => 100 + total [p]
  | EditTxnCommitted _ c cf sk => 100 + total (c ++ cf ++ sk)
  | EditTxnRolledBack _ rb rc => 100 + total (rb ++ rc)
  | LOther => 0
  end%N.

Lemma total_submseteq l k : l ⊆+ k → (total l <= total k)%N.
Proof. unfold total. induction 1; cbn in *; lia. Qed.

Lemma row_size_later : later_rows_shorter row_size.
Proof.
  intros id session files strategy Hne. cbv zeta. split_and!.
  - intros seq p o Hp. assert (total [p] <= total (map lf_path files))%N.
    { apply total_submseteq. by apply singleton_submseteq_l. }
    cbn [row_size]. lia.
  - intros c cf sk H%total_submseteq. cbn [row_size]. lia.
  - intros rb rc H%total_submseteq. cbn [row_size]. lia.
Qed.

(** A digest of 32 bytes: the first ones of the text. *)
Definition digest (s : string) : string := stake 32 (s ++ "................................").

#[local] Instance J : EditTxnJournal (list LedgerPayload) := ledger_journal row_size.
#[local] Instance JL : LawfulJournal (list LedgerPayload) := ledger_lawful row_size row_size_later.

Definition ws : WorkspaceHandle := MkHandle 1 true.
Definition reqs : list EditRequest :=
  [MkRequest "a.rs" (digest "fn one") [SearchReplace "one" "two"];
   MkRequest "b.txt" (digest "left") [Range 0 1 "s"]].
Definition resumes : list EditTxnResume := [MkResume 7 reqs (λ _, None)].
Definition w0 : World (list LedgerPayload) :=
  MkWorld {[ "a.rs" := MkFile "fn one" None; "b.txt" := MkFile "left" None;
             "c.txt" := MkFile "other" None ]} [] [] [].

Definition begun := begin_multi_file_edit (J:=list LedgerPayload) digest (λ _, true) (λ _ _, None)
  ws 1 reqs Rollback RollForward 7 "session" None w0.
Definition p : PreparedEdit :=
  match begun.1 with Done p => p | _ => MkPrepared 0 RollForward [] end.
Definition begun_back := begin_multi_file_edit (J:=list LedgerPayload) digest (λ _, true)
  (λ _ _, None) ws 1 reqs Rollback RollBack 7 "session" None w0.
Definition p_back : PreparedEdit :=
  match begun_back.1 with Done p => p | _ => MkPrepared 0 RollBack [] end.
(** Somebody changes [b.txt] before the commit. *)
Definition w_changed : World (list LedgerPayload) :=
  MkWorld (<["b.txt" := MkFile "right" None]> (w_disk begun_back.2)) (w_journal begun_back.2) [] [].
Definition dies_after (k : nat) : list tick := (replicate k idle ++ [MkTick id id None 0 Crash])%list.

Lemma dies_calm k : Forall calm_tick (dies_after k).
Proof.
  apply Forall_app. split.
  - apply Forall_replicate. split_and!; [done..|by left].
  - constructor; [split_and!; [done..|by right]|constructor].
Qed.
End Demo.

(** Begun, killed while committing, killed again while recovering, the last
    recovery of the two files answers. *)
Lemma edit_txn_survives_crashes_witness :
  Demo.begun.1 = Done Demo.p ∧
  let committed := commit_prepared (EditTxnJournal0 := Demo.J) Demo.digest Demo.ws 1 Demo.p
                     (reboot (Demo.dies_after 9) Demo.begun.2) in
  let before := recoveries (EditTxnJournal0 := Demo.J) Demo.digest (λ _, true) (λ _ _, None)
                  Demo.ws Demo.resumes Rollback [Demo.dies_after 3] committed.2 in
  (recover_edit_transactions (EditTxnJournal0 := Demo.J) Demo.digest (λ _, true) (λ _ _, None)
     Demo.ws 1 Demo.resumes Rollback (reboot [] before)).1 ≠ Crashed.
Proof.
  split; [by vm_compute|]. cbv zeta.
  destruct (edit_txn_survives_crashes (J:=list LedgerPayload) (EditTxnJournal0 := Demo.J)
    (LawfulJournal0 := Demo.JL) Demo.digest (λ _, true) (λ _ _, None) Demo.ws 1 Rollback Demo.reqs
    RollForward 7 "session" None Demo.w0 Demo.begun.2 Demo.p Demo.resumes
    (MkResume 7 Demo.reqs (λ _, None)) (Demo.dies_after 9) [Demo.dies_after 3])
    as [_ [(report & E & _)|(e & m & s & E & _)]].
  all: try (rewrite E; done).
  - constructor.
  - constructor.
  - constructor.
  - constructor.
  - by vm_compute.
  - vm_compute. repeat constructor; intros H; discriminate H.
  - done.
  - done.
  - by vm_compute.
  - apply Demo.dies_calm.
  - repeat constructor; apply Demo.dies_calm.
Defined.

(** The second of two files has changed: the first one's edit is undone. *)
Lemma conflicted_edit_is_rolled_back_witness :
  let w3 := (commit_prepared (EditTxnJournal0 := Demo.J) Demo.digest Demo.ws 1 Demo.p_back
               Demo.w_changed).2 in
  text w3 "a.rs" = Some "fn one" ∧ text w3 "b.txt" = Some "right".
Proof.
  cbv zeta.
  destruct (commit_prepared (EditTxnJournal0 := Demo.J) Demo.digest Demo.ws 1 Demo.p_back
              Demo.w_changed) as [r w3] eqn:E.
  destruct (conflicted_edit_is_rolled_back (J:=list LedgerPayload) (EditTxnJournal0 := Demo.J)
    (LawfulJournal0 := Demo.JL) Demo.digest (λ _, true) (λ _ _, None) Demo.ws 1 Demo.reqs Rollback
    7 "session" None Demo.w0 Demo.begun_back.2 Demo.w_changed w3 Demo.p_back 1
    (match pe_files Demo.p_back with _ :: s :: _ => s | _ => MkStaged "" "" 0 "" "" 0 false None end) r)
    as (run & _ & _ & Htext).
  - constructor.
  - constructor.
  - by vm_compute.
  - done.
  - done.
  - by vm_compute.
  - intros [|j] t Hj Hlt; [|lia].
    assert (match pe_files Demo.p_back with
            | t :: _ => bool_decide (text Demo.w_changed (st_rel t) = Some (st_original t))
            | [] => false end = true) as Hb by (by vm_compute).
    destruct (pe_files Demo.p_back) as [|t0 l]; [done|]. injection Hj as <-.
    by apply bool_decide_eq_true in Hb.
  - set (s := match pe_files Demo.p_back with _ :: s :: _ => s | _ => _ end). intros t Ht.
    assert (text Demo.w_changed (st_rel s) = Some "right") as Ht' by (by vm_compute).
    rewrite Ht' in Ht. injection Ht as <-.
    assert (bool_decide (Demo.digest "right" = st_expected_hash s) = false) as Hf by (by vm_compute).
    by apply bool_decide_eq_false in Hf.
  - exact E.
  - cbn [snd]. rewrite !Htext. clear E Htext. split; vm_compute; reflexivity.
Defined.
