(* ===== verification/Effects.v ===== *)
(** * Programs with effects

    A method of a service is a tree of events, one per call it makes on the
    outside world, each continued by the answer.  [Halt] is a method that
    stops there.  [E] is the events of the component; a method that can fail
    answers a [result], and [sbind] is the question mark of the source. *)
From S2P Require Import Prelude.

Inductive Prog (E : Type → Type) (A : Type) : Type :=
  | Ret (a : A)
  | Halt
  | Call {X} (e : E X) (k : X → Prog E A).
Arguments Ret {E A} a.
Arguments Halt {E A}.
Arguments Call {E A X} e k.

Section Programs.
Context {E : Type → Type}.

Fixpoint pbind {A B} (p : Prog E A) (f : A → Prog E B) : Prog E B :=
  match p with
  | Ret a => f a
  | Halt => Halt
  | Call e k => Call e (λ x, pbind (k x) f)
  end.

Context {Er : Type}.
Definition sret {A} (a : A) : Prog E (result A Er) := Ret (Ok a).
Definition sfail {A} (e : Er) : Prog E (result A Er) := Ret (Err e).
Definition sbind {A B} (p : Prog E (result A Er)) (f : A → Prog E (result B Er)) :
    Prog E (result B Er) :=
  pbind p (λ r, match r with Ok a => f a | Err e => sfail e end).
Definition lift {A} (r : result A Er) : Prog E (result A Er) := Ret r.
End Programs.

Declare Scope prog_scope.
Delimit Scope prog_scope with prog.
Notation "x <- p ; k" := (sbind p (λ x, k))
  (at level 20, p at level 100, k at level 200, right associativity) : prog_scope.
Notation "p ;; k" := (sbind p (λ _, k)) (at level 100, k at level 200, right associativity) : prog_scope.
