(* ===== verification/Rely.v ===== *)
(** * Programs that share a world

    Any number of programs run on one world, one event at a time; an event may
    have several answers, a program may stop between any two.  [safe Q p w]:
    started in [w] as thread [t], whatever the others do, every event of [p]
    stays within the guarantee and [Q] holds of what it returns.  [system_steps_ok]:
    programs that are safe alone keep the invariant together.  [run] is one
    program alone on a world that answers by a function. *)
From S2P Require Import Prelude Effects.

Section World.
Context {E : Type → Type} {World : Type}.

(** ** The system *)
Record System (A : Type) := MkSystem {
  world : World; threads : nat → option (Prog E A); next_thread : nat; returned : list (nat * A) }.
#[global] Arguments MkSystem {A} _ _ _ _.
#[global] Arguments world {A} _.
#[global] Arguments threads {A} _.
#[global] Arguments next_thread {A} _.
#[global] Arguments returned {A} _.

Definition set_thread {A} (t : nat) (p : option (Prog E A)) (ts : nat → option (Prog E A)) : nat → option (Prog E A) :=
  λ i, if decide (i = t) then p else ts i.

Variable answer : nat → ∀ X, E X → World → X → World → Prop.
Arguments answer _ {X} _ _ _ _.

Inductive step {A} (methods : Prog E A → Prop) : System A → System A → Prop :=
  | step_spawn p w ts n r :
      methods p → step methods (MkSystem w ts n r) (MkSystem w (set_thread n (Some p) ts) (S n) r)
  | step_call {X} t (e : E X) k x w w' ts n r :
      ts t = Some (Call e k) → answer t e w x w' →
      step methods (MkSystem w ts n r) (MkSystem w' (set_thread t (Some (k x)) ts) n r)
  | step_return t a w ts n r :
      ts t = Some (Ret a) →
      step methods (MkSystem w ts n r) (MkSystem w (set_thread t None ts) n ((t, a) :: r))
  | step_die t w ts n r :
      step methods (MkSystem w ts n r) (MkSystem w (set_thread t None ts) n r).

Lemma steps_trans {A} (methods : Prog E A → Prop) s1 s2 s3 :
  rtc (step methods) s1 s2 → rtc (step methods) s2 s3 → rtc (step methods) s1 s3.
Proof using. induction 1 as [|x y z ? ? IH]; intros H23; [done|]. econstructor; [done|by apply IH]. Qed.
Lemma steps_one {A} (methods : Prog E A → Prop) s1 s2 : step methods s1 s2 → rtc (step methods) s1 s2.
Proof using. intros Hs. econstructor; [done|constructor]. Qed.

(** ** Rely and guarantee *)
Variable Inv : World → Prop.
Variable evolves : World → World → Prop.
Variable rely : nat → World → World → Prop.
Variable guar : nat → World → World → Prop.

Record lawful : Prop := {
  evolves_refl w : evolves w w;
  evolves_trans w1 w2 w3 : evolves w1 w2 → evolves w2 w3 → evolves w1 w3;
  rely_refl t w : Inv w → rely t w w;
  rely_trans t w1 w2 w3 : rely t w1 w2 → rely t w2 w3 → rely t w1 w3;
  rely_inv t w w' : rely t w w' → Inv w' ∧ evolves w w';
  guar_inv t w w' : guar t w w' → Inv w' ∧ evolves w w';
  guar_rely t t' w w' : t' ≠ t → guar t w w' → rely t' w w'
}.
Hypothesis laws : lawful.

Section Thread.
Variable t : nat.

Fixpoint safe {A} (Q : A → World → Prop) (p : Prog E A) (w : World) : Prop :=
  match p with
  | Ret a => ∀ w', rely t w w' → Q a w'
  | Halt => True
  | Call e k => ∀ w', rely t w w' → ∀ x w'', answer t e w' x w'' → guar t w' w'' ∧ safe Q (k x) w''
  end.

Lemma rely_since {A} Q (p : Prog E A) w w' : rely t w w' → safe Q p w → safe Q p w'.
Proof using laws. intros Hr. destruct p; cbn; [|done|]; intros Hs w2 Hr2; apply Hs; by eapply rely_trans. Qed.
Lemma rely_weaken {A} (Q Q' : A → World → Prop) p w :
  (∀ a w', Q a w' → Q' a w') → safe Q p w → safe Q' p w.
Proof using.
  intros HQ. revert w. induction p as [a| |X e k IH]; cbn; intros w Hs; [by eauto|done|].
  intros w' Hr x w'' Ha. destruct (Hs _ Hr _ _ Ha). split; [done|]. by apply IH.
Qed.
(** Sequencing; what only grows is known afterwards. *)
Lemma rely_pbind {A B} Q Q' (p : Prog E A) (f : A → Prog E B) w :
  Inv w → safe Q p w → (∀ a w', Inv w' → evolves w w' → Q a w' → safe Q' (f a) w') → safe Q' (pbind p f) w.
Proof using laws.
  revert w. induction p as [a| |X e k IH]; cbn; intros w Hi Hs Hf; [|done|].
  - apply Hf; [done|by apply (evolves_refl laws)|]. by apply Hs, (rely_refl laws).
  - intros w' Hr x w'' Ha. destruct (Hs _ Hr _ _ Ha) as [Hg Hk]. split; [done|].
    destruct (guar_inv laws _ _ _ Hg) as [Hi2 Hev2], (rely_inv laws _ _ _ Hr) as [Hi1 Hev1].
    apply IH; [done..|]. intros a w2 Hi3 Hev3. apply Hf; [done|].
    eapply (evolves_trans laws), (evolves_trans laws); done.
Qed.
Lemma safe_call {A X} Q (e : E X) (k : X → Prog E A) w :
  (∀ w' x w'', Inv w' → evolves w w' → rely t w w' → answer t e w' x w'' → guar t w' w'' ∧ safe Q (k x) w'') →
  safe Q (Call e k) w.
Proof using laws. intros Hk w' Hr x w'' Ha. destruct (rely_inv laws _ _ _ Hr). by eapply Hk. Qed.
End Thread.

(** ** All of them *)
Definition threads_ok {A} (Q : A → World → Prop) (s : System A) : Prop :=
  Inv (world s) ∧ (∀ t p, threads s t = Some p → safe t Q p (world s) ∧ t < next_thread s)
  ∧ ∀ t a, (t, a) ∈ returned s → ∃ w, Q a w ∧ evolves w (world s).
Lemma system_step_ok {A} (methods : Prog E A → Prop) Q s s' :
  (∀ p t w, methods p → Inv w → safe t Q p w) →
  step methods s s' → threads_ok Q s → threads_ok Q s' ∧ evolves (world s) (world s').
Proof using laws.
  intros Hm Hs (Hi & Ht & Hr). destruct Hs as [p w ts n r Hp|X t e k x w w' ts n r Hk Ha|t a w ts n r Hk|t w ts n r];
    unfold threads_ok; cbn in *.
  - split; [|by apply (evolves_refl laws)]. split_and!; [done| |done]. intros t q Hq.
    unfold set_thread in Hq. case_decide; [injection Hq as <-; subst; split; [by apply Hm|lia]|].
    destruct (Ht _ _ Hq). split; [done|lia].
  - destruct (Ht _ _ Hk) as [Hsafe Hlt]. cbn in Hsafe.
    destruct (Hsafe w (rely_refl laws _ _ Hi) _ _ Ha) as [Hg Hnext].
    destruct (guar_inv laws _ _ _ Hg) as [Hi' Hev]. split; [|done]. split_and!; [done| |].
    + intros t' q Hq. unfold set_thread in Hq. case_decide; [injection Hq as <-; by subst|].
      destruct (Ht _ _ Hq) as [Hs' ?]. split; [|done].
      eapply rely_since; [|exact Hs']. by eapply (guar_rely laws), Hg.
    + intros t' a' Hin. destruct (Hr _ _ Hin) as (w0 & ? & ?). exists w0.
      split; [done|]. by eapply (evolves_trans laws).
  - split; [|by apply (evolves_refl laws)]. destruct (Ht _ _ Hk) as [Hsafe _].
    cbn in Hsafe. split_and!; [done| |].
    + intros t' q Hq. unfold set_thread in Hq. case_decide; [done|]. by apply Ht.
    + intros t' a' [[= -> ->]|Hin]%elem_of_cons; [|by eapply Hr].
      exists w. split; [by apply Hsafe, (rely_refl laws)|by apply (evolves_refl laws)].
  - split; [|by apply (evolves_refl laws)]. split_and!; [done| |done].
    intros t' q Hq. unfold set_thread in Hq. case_decide; [done|]. by apply Ht.
Qed.
Lemma system_steps_ok {A} (methods : Prog E A → Prop) Q s s' :
  (∀ p t w, methods p → Inv w → safe t Q p w) →
  rtc (step methods) s s' → threads_ok Q s → threads_ok Q s' ∧ evolves (world s) (world s').
Proof using laws.
  intros Hm. induction 1 as [s|s1 s2 s3 H12 _ IH]; intros Hok; [split; [done|by apply (evolves_refl laws)]|].
  destruct (system_step_ok _ _ _ _ Hm H12 Hok) as [Hok2 Hev]. destruct (IH Hok2) as [Hok3 Hev2].
  split; [done|]. by eapply (evolves_trans laws).
Qed.
End World.

(** ** One program alone *)
Section Alone.
Context {E : Type → Type} {World : Type}.
Variable handle : ∀ X, E X → World → X * World.
Arguments handle {X} _ _.
Fixpoint run {A} (p : Prog E A) (w : World) : option A * World :=
  match p with
  | Ret a => (Some a, w)
  | Halt => (None, w)
  | Call e k => run (k (handle e w).1) (handle e w).2
  end.
(** A process that dies after [n] events. *)
Fixpoint cut {A} (n : nat) (p : Prog E A) (w : World) : World :=
  match n, p with
  | S n, Call e k => cut n (k (handle e w).1) (handle e w).2
  | _, _ => w
  end.
Lemma run_prog_pbind {A B} (p : Prog E A) (f : A → Prog E B) w :
  run (pbind p f) w = match (run p w).1 with Some a => run (f a) (run p w).2 | None => (None, (run p w).2) end.
Proof. revert w. induction p as [a| |X e k IH]; intros w; cbn; [done..|apply IH]. Qed.
Lemma run_prog_sbind {A B Er} (p : Prog E (result A Er)) (f : A → Prog E (result B Er)) w :
  run (sbind p f) w = match (run p w).1 with
    | Some (Ok a) => run (f a) (run p w).2 | Some (Err e) => (Some (Err e), (run p w).2)
    | None => (None, (run p w).2) end.
Proof. unfold sbind. rewrite run_prog_pbind. by destruct (run p w) as [[[a|e]|] w']. Qed.
End Alone.

(** ** What a program saw
    [traces p tr a]: the program [p] can return [a] having seen exactly the
    events of [tr], in that order, each with its answer. *)
Section Traces.
Context {E : Type → Type}.
Definition Seen : Type := {X : Type & (E X * X)%type}.
Definition seen {X} (e : E X) (x : X) : Seen := existT X (e, x).
Fixpoint traces {A} (p : Prog E A) (tr : list Seen) (a : A) : Prop :=
  match p with
  | Ret b => tr = [] ∧ a = b
  | Halt => False
  | Call e k => ∃ x tr', tr = seen e x :: tr' ∧ traces (k x) tr' a
  end.
Lemma traces_pbind {A B} (p : Prog E A) (f : A → Prog E B) tr b :
  traces (pbind p f) tr b → ∃ tr1 tr2 a, tr = tr1 ++ tr2 ∧ traces p tr1 a ∧ traces (f a) tr2 b.
Proof.
  revert tr. induction p as [a| |X e k IH]; cbn; intros tr Ht; [by exists [], tr, a|done|].
  destruct Ht as (x & tr' & -> & Ht). apply IH in Ht as (tr1 & tr2 & a & -> & H1 & H2).
  exists (seen e x :: tr1), tr2, a. eauto 10.
Qed.
Lemma traces_sbind {A B Er} (p : Prog E (result A Er)) (f : A → Prog E (result B Er)) tr b :
  traces (sbind p f) tr (Ok b) →
  ∃ tr1 tr2 a, tr = tr1 ++ tr2 ∧ traces p tr1 (Ok a) ∧ traces (f a) tr2 (Ok b).
Proof.
  intros (tr1 & tr2 & [a|e] & -> & H1 & H2)%traces_pbind; [by eauto 10|]. by destruct H2 as [_ [=]].
Qed.
End Traces.
