(* ===== verification/WorkerModel.v ===== *)
(** * The worker plane's data ([crates/worker/src/ids.rs], [model.rs], [error.rs])

    Remote workers, their capability advertisements, jobs with their immutable
    generations, leases, attempts, results and the journal rows.  A validated
    identity of the source (a tuple struct whose only constructor is
    [try_new]) is a record of the text and the fact that it is valid.  Prose
    in an error ([Malformed], [Backend]) is left out. *)
From S2P Require Import Prelude Strings.
From stdpp Require Import sorting pretty.
#[local] Open Scope string_scope.
#[local] Open Scope N_scope.

(** ** Identities *)
Definition MAX_ID_BYTES : N := 128.
Definition MAX_JOB_KEY_BYTES : N := 256.
Definition WORKER_PROTOCOL_VERSION : N := 1.

Definition validate_id (value : string) : bool :=
  negb (bool_decide (value = "") || (MAX_ID_BYTES <? slen value))
  && lacks (λ b, negb (is_ascii_graphic b && negb (bool_decide (b = "034"%char))
                       && negb (bool_decide (b = backslash)))) value.

(** The macro [string_id!]: the four worker identities are copies of it, and
    so is [OrganizationId] of [crates/cloud/src/ids.rs]. *)
Record Id := MkId { as_str : string; id_valid : Is_true (validate_id as_str) }.
Definition WorkerId := Id.
Definition WorkerLeaseId := Id.
Definition ExecutionJobId := Id.
Definition OrganizationId := Id.

#[global] Instance Id_eq_dec : EqDecision Id.
Proof.
  intros [a Ha] [b Hb]. destruct (decide (a = b)) as [->|Hn].
  - left. f_equal. apply Is_true_pi.
  - right. congruence.
Defined.

Lemma as_str_inj (a b : Id) : as_str a = as_str b → a = b.
Proof. destruct a as [a Ha], b as [b Hb]. cbn. intros ->. f_equal. apply Is_true_pi. Qed.

(** A generation is a [u64] in [1..=i64::MAX]. *)
Definition generation_valid (raw : N) : bool :=
  negb (raw =? 0) && (raw <=? 9223372036854775807).
Record JobGeneration := MkGeneration { as_u64 : N; gen_valid : Is_true (generation_valid as_u64) }.

#[global] Instance JobGeneration_eq_dec : EqDecision JobGeneration.
Proof.
  intros [a Ha] [b Hb]. destruct (decide (a = b)) as [->|Hn].
  - left. f_equal. apply Is_true_pi.
  - right. congruence.
Defined.

Lemma as_u64_inj (a b : JobGeneration) : as_u64 a = as_u64 b → a = b.
Proof. destruct a as [a Ha], b as [b Hb]. cbn. intros ->. f_equal. apply Is_true_pi. Qed.

Lemma gen_bounds (g : JobGeneration) : 1 <= as_u64 g <= 9223372036854775807.
Proof.
  destruct g as [n Hn]. cbn. apply Is_true_eq_true in Hn.
  apply andb_prop in Hn as [H1%negb_true_iff%N.eqb_neq H2%N.leb_le]. lia.
Qed.

Definition job_key_valid (raw : string) : bool :=
  negb (bool_decide (raw = "") || (MAX_JOB_KEY_BYTES <? slen raw))
  && lacks (λ b, negb (is_ascii_graphic b)) raw.
Record JobKey := MkJobKey { key_str : string; key_valid : Is_true (job_key_valid key_str) }.

#[global] Instance JobKey_eq_dec : EqDecision JobKey.
Proof.
  intros [a Ha] [b Hb]. destruct (decide (a = b)) as [->|Hn].
  - left. f_equal. apply Is_true_pi.
  - right. congruence.
Defined.

(** ** Errors *)
Inductive WorkerError :=
  | Backend
  | EntitlementRefused
  | Malformed
  | UnsupportedSchema (found maximum_supported : Z)
  | UnknownToken
  | TokenRevoked
  | TokenAlreadyUsed (consumer : string)
  | TokenNotConsumed (worker : WorkerId)
  | TokenBoundElsewhere (worker : WorkerId) (token_hash : string)
  | TokenOrgMismatch (owner requested : string)
  | UnknownWorker (worker : WorkerId)
  | WorkerRevoked (worker : WorkerId)
  | AlreadyRevoked (worker : WorkerId)
  | WorkerAlreadyBound (worker : WorkerId) (token_hash : string)
  | WorkerSaturated (worker : WorkerId) (limit : N)
  | WorkerVanished (worker : WorkerId)
  | ProtocolSkew (expected got : N)
  | ForeignTrustDomain (requested actual : string)
  | SupersededLease (job : string) (generation current : JobGeneration)
  | LeaseAlreadyTaken (job : string) (generation : JobGeneration) (worker lease : string)
  | UnknownLease (lease : WorkerLeaseId) (worker : WorkerId)
  | LeaseExpired (lease : WorkerLeaseId) (expired_at_ms : Z)
  | LeaseNotLive (lease : WorkerLeaseId) (state : string)
  | NotAssignedToWorker (job : string) (generation : JobGeneration) (worker : WorkerId) (assigned : string)
  | NotLeasable (job : string) (generation : JobGeneration) (state : string)
  | NoEligibleWorker (job : string)
  | CapabilityMismatch (worker : WorkerId) (job : string)
  | AttemptsExhausted (job : string) (attempts max : N)
  | AlreadyAccepted (job : string) (generation : JobGeneration) (worker : string)
  | ResultConflict (job : string) (generation : JobGeneration)
  | DigestMismatch (expected presented : string)
  | UnknownJob (job : string)
  | UnknownGeneration (job : string) (generation : JobGeneration)
  | JobTerminal (job : string) (state : string).

Definition is_recovery_domain_refusal (e : WorkerError) : bool :=
  match e with Backend | Malformed | UnsupportedSchema _ _ => false | _ => true end.

Definition try_new_id (raw : string) : result Id WorkerError :=
  match decide (Is_true (validate_id raw)) with
  | left H => Ok (MkId raw H)
  | right _ => Err Malformed
  end.
Definition try_new_generation (raw : N) : result JobGeneration WorkerError :=
  match decide (Is_true (generation_valid raw)) with
  | left H => Ok (MkGeneration raw H)
  | right _ => Err Malformed
  end.
Definition FIRST : JobGeneration := MkGeneration 1 I.
Definition next (g : JobGeneration) : result JobGeneration WorkerError :=
  match U64.checked_add (as_u64 g) 1 with
  | Some n => try_new_generation n
  | None => Err Malformed
  end.
Definition try_new_job_key (raw : string) : result JobKey WorkerError :=
  match decide (Is_true (job_key_valid raw)) with
  | left H => Ok (MkJobKey raw H)
  | right _ => Err Malformed
  end.

(** ** Capabilities *)
Definition MAX_CAPABILITY_BYTES : N := 128.
Definition MAX_TOOLCHAINS : N := 64.
Definition MAX_SANDBOX_CAPABILITIES : N := 32.
Definition MAX_WORKER_NAME_BYTES : N := 128.
Definition RESULT_DIGEST_BYTES : N := 64.
Definition MAX_JOURNAL_DETAIL_BYTES : N := 512.
Definition HEARTBEAT_MIN_INTERVAL_MS : Z := 1000.
Definition HEARTBEAT_MAX_INTERVAL_MS : Z := 300000.
Definition HEARTBEAT_DEFAULT_INTERVAL_MS : Z := 15000.
Definition MAX_REQUEUE_ATTEMPTS : N := 32.
Definition DEFAULT_MAX_ATTEMPTS : N := 3.
Definition MAX_LIVE_LEASES_PER_WORKER : N := 16.

Definition normalize_token (raw : string) : result string WorkerError :=
  let trimmed := trim raw in
  if bool_decide (trimmed = "") || (MAX_CAPABILITY_BYTES <? slen trimmed) then Err Malformed
  else if negb (lacks (λ b, negb (is_ascii_graphic b)) trimmed) then Err Malformed
  else Ok (to_ascii_lowercase trimmed).

(** A sandbox tag is a normalised token; [SandboxCapability::try_new]. *)
Definition SandboxCapability := string.

Fixpoint normalize_all (l : list string) : result (list string) WorkerError :=
  match l with
  | [] => Ok []
  | t :: l' => t' <-? normalize_token t; ts <-? normalize_all l'; Ok (t' :: ts)
  end.
Definition sorted_tokens (l : list string) : result (list string) WorkerError :=
  ts <-? normalize_all l; Ok (dedup (merge_sort str_le ts)).

Inductive NetworkProfile := NetNone | EgressRestricted | Full.
#[global] Instance NetworkProfile_eq_dec : EqDecision NetworkProfile.
Proof. solve_decision. Defined.

Record GpuCapability := MkGpu { gpu_model : string; gpu_count : N; gpu_memory_mb : N }.
#[global] Instance GpuCapability_eq_dec : EqDecision GpuCapability.
Proof. solve_decision. Defined.

Record WorkerCapabilities := MkCaps {
  wc_os : string; wc_arch : string; wc_toolchains : list string;
  wc_sandbox : list SandboxCapability; wc_network : NetworkProfile;
  wc_cpu_cores : N; wc_memory_mb : N; wc_gpu : option GpuCapability;
  wc_region : string; wc_trust_domain : string; wc_protocol_version : N }.
#[global] Instance WorkerCapabilities_eq_dec : EqDecision WorkerCapabilities.
Proof. solve_decision. Defined.

Record JobRequirements := MkReqs {
  jr_os : option string; jr_arch : option string; jr_toolchains : list string;
  jr_sandbox : list SandboxCapability; jr_network : option NetworkProfile;
  jr_min_cpu_cores : N; jr_min_memory_mb : N; jr_gpu : bool;
  jr_region : option string; jr_trust_domain : string }.

Definition count {A} (l : list A) : N := N.of_nat (List.length l).

(** [WorkerCapabilities::normalize] *)
Definition normalize_caps (c : WorkerCapabilities) : result WorkerCapabilities WorkerError :=
  os <-? normalize_token (wc_os c);
  arch <-? normalize_token (wc_arch c);
  region <-? normalize_token (wc_region c);
  trust_domain <-? normalize_token (wc_trust_domain c);
  if bool_decide (is_Some (wc_gpu c)) && (wc_cpu_cores c =? 0) then Err Malformed
  else if MAX_TOOLCHAINS <? count (wc_toolchains c) then Err Malformed
  else if MAX_SANDBOX_CAPABILITIES <? count (wc_sandbox c) then Err Malformed
  else
    toolchains <-? sorted_tokens (wc_toolchains c);
    sandbox <-? sorted_tokens (wc_sandbox c);
    if negb (wc_protocol_version c =? WORKER_PROTOCOL_VERSION)
    then Err (ProtocolSkew WORKER_PROTOCOL_VERSION (wc_protocol_version c))
    else
      match wc_gpu c with
      | Some gpu =>
          if gpu_count gpu =? 0 then Err Malformed
          else rbind (normalize_token (gpu_model gpu)) (λ _, Ok tt)
      | None => Ok tt
      end ;?
      Ok (MkCaps os arch toolchains sandbox (wc_network c) (wc_cpu_cores c) (wc_memory_mb c)
            (wc_gpu c) region trust_domain (wc_protocol_version c)).

(** [JobRequirements::normalize] *)
Definition normalize_opt (o : option string) : result (option string) WorkerError :=
  match o with
  | Some t => t' <-? normalize_token t; Ok (Some t')
  | None => Ok None
  end.
Definition normalize_reqs (r : JobRequirements) : result JobRequirements WorkerError :=
  os <-? normalize_opt (jr_os r);
  arch <-? normalize_opt (jr_arch r);
  region <-? normalize_opt (jr_region r);
  trust_domain <-? normalize_token (jr_trust_domain r);
  if MAX_TOOLCHAINS <? count (jr_toolchains r) then Err Malformed
  else
    toolchains <-? sorted_tokens (jr_toolchains r);
    if MAX_SANDBOX_CAPABILITIES <? count (jr_sandbox r) then Err Malformed
    else
      sandbox <-? sorted_tokens (jr_sandbox r);
      Ok (MkReqs os arch toolchains sandbox (jr_network r) (jr_min_cpu_cores r)
            (jr_min_memory_mb r) (jr_gpu r) region trust_domain).

(** [WorkerCapabilities::satisfies]: [false] is the [Err] of the source. *)
Definition wants {A} `{EqDecision A} (o : option A) (a : A) : bool :=
  match o with Some b => bool_decide (a = b) | None => true end.
Definition satisfies (c : WorkerCapabilities) (req : JobRequirements) : bool :=
  wants (jr_os req) (wc_os c)
  && wants (jr_arch req) (wc_arch c)
  && bool_decide (Forall (λ tool, tool ∈ wc_toolchains c) (jr_toolchains req))
  && bool_decide (Forall (λ tag, tag ∈ wc_sandbox c) (jr_sandbox req))
  && wants (jr_network req) (wc_network c)
  && negb (wc_cpu_cores c <? jr_min_cpu_cores req)
  && negb (wc_memory_mb c <? jr_min_memory_mb req)
  && negb (jr_gpu req && bool_decide (wc_gpu c = None))
  && wants (jr_region req) (wc_region c).

(** ** Durable rows *)
Record WorkerRegistration := MkWorker {
  wr_worker_id : WorkerId; wr_organization_id : string; wr_trust_domain : string;
  wr_display_name : string; wr_token_hash : string; wr_revoked : bool;
  wr_capabilities : WorkerCapabilities; wr_capabilities_version : N;
  wr_registered_ms : Z; wr_last_seen_ms : Z; wr_revoked_ms : option Z }.

Record WorkerTokenRow := MkToken {
  tk_token_hash : string; tk_organization_id : string; tk_trust_domain : string;
  tk_label : string; tk_created_ms : Z; tk_revoked : bool; tk_consumed_by : option string }.

Record RequeuePolicy := MkPolicy { max_attempts : N }.
Definition validate_policy (p : RequeuePolicy) : result unit WorkerError :=
  if (max_attempts p =? 0) || (MAX_REQUEUE_ATTEMPTS <? max_attempts p) then Err Malformed else Ok tt.

Inductive JobState := JobAssigned | JobLeased | JobCompleted | JobFailed.
#[global] Instance JobState_eq_dec : EqDecision JobState.
Proof. solve_decision. Defined.
Definition job_is_terminal (s : JobState) : bool :=
  match s with JobCompleted | JobFailed => true | _ => false end.
Definition job_state_str (s : JobState) : string :=
  match s with
  | JobAssigned => "assigned" | JobLeased => "leased"
  | JobCompleted => "completed" | JobFailed => "failed"
  end.

Record ExecutionJob := MkJob {
  ej_job_id : ExecutionJobId; ej_organization_id : string; ej_trust_domain : string;
  ej_job_key : JobKey; ej_requirements : JobRequirements; ej_payload_digest : string;
  ej_requeue : RequeuePolicy; ej_assigned_worker : option WorkerId; ej_created_ms : Z;
  ej_current_generation : JobGeneration; ej_state : JobState }.
(** [ExecutionJob { current_generation, state, ..job }] *)
Definition job_at (g : JobGeneration) (s : JobState) (j : ExecutionJob) : ExecutionJob :=
  MkJob (ej_job_id j) (ej_organization_id j) (ej_trust_domain j) (ej_job_key j)
    (ej_requirements j) (ej_payload_digest j) (ej_requeue j) (ej_assigned_worker j)
    (ej_created_ms j) g s.

Inductive GenerationState := GenAssigned | GenLeased | GenCompleted | GenLost | GenSuperseded | GenFailed.
#[global] Instance GenerationState_eq_dec : EqDecision GenerationState.
Proof. solve_decision. Defined.
Definition gen_is_terminal (s : GenerationState) : bool :=
  match s with GenCompleted | GenLost | GenSuperseded | GenFailed => true | _ => false end.
Definition gen_state_str (s : GenerationState) : string :=
  match s with
  | GenAssigned => "assigned" | GenLeased => "leased" | GenCompleted => "completed"
  | GenLost => "lost" | GenSuperseded => "superseded" | GenFailed => "failed"
  end.

Record JobGenerationRow := MkGenRow {
  gr_job_id : ExecutionJobId; gr_organization_id : string; gr_generation : JobGeneration;
  gr_state : GenerationState; gr_created_ms : Z; gr_ended_ms : option Z; gr_reason : option string }.
#[global] Instance JobGenerationRow_eq_dec : EqDecision JobGenerationRow.
Proof. solve_decision. Defined.

Inductive LeaseState := LeaseLive | LeaseExpiredS | LeaseSuperseded | LeaseRevoked | LeaseCompleted.
#[global] Instance LeaseState_eq_dec : EqDecision LeaseState.
Proof. solve_decision. Defined.
Definition lease_state_str (s : LeaseState) : string :=
  match s with
  | LeaseLive => "live" | LeaseExpiredS => "expired" | LeaseSuperseded => "superseded"
  | LeaseRevoked => "revoked" | LeaseCompleted => "completed"
  end.

Record WorkerLease := MkLease {
  wl_lease_id : WorkerLeaseId; wl_organization_id : string; wl_job_id : ExecutionJobId;
  wl_generation : JobGeneration; wl_worker_id : WorkerId; wl_state : LeaseState;
  wl_heartbeat_interval_ms : Z; wl_accepted_ms : Z; wl_last_heartbeat_ms : Z;
  wl_expires_at_ms : Z; wl_ended_ms : option Z; wl_reason : option string }.
Definition is_expired_at (l : WorkerLease) (now_ms : Z) : bool := (wl_expires_at_ms l <=? now_ms)%Z.

Inductive AttemptState := AttPending | AttLeased | AttCompleted | AttLost | AttFailed.
#[global] Instance AttemptState_eq_dec : EqDecision AttemptState.
Proof. solve_decision. Defined.
Definition attempt_is_terminal (s : AttemptState) : bool :=
  match s with AttCompleted | AttLost | AttFailed => true | _ => false end.

Record JobAttempt := MkAttempt {
  ja_job_id : ExecutionJobId; ja_generation : JobGeneration; ja_attempt : N;
  ja_worker_id : option WorkerId; ja_lease_id : option WorkerLeaseId; ja_state : AttemptState;
  ja_started_ms : Z; ja_ended_ms : option Z; ja_reason : option string }.
#[global] Instance JobAttempt_eq_dec : EqDecision JobAttempt.
Proof. solve_decision. Defined.

Inductive JobResultOutcome := Succeeded | Failed.
#[global] Instance JobResultOutcome_eq_dec : EqDecision JobResultOutcome.
Proof. solve_decision. Defined.
Record JobVerificationClaim := MkClaim { self_verified : bool; produced_digest : option string }.
Record JobResult := MkResult {
  rs_job_id : ExecutionJobId; rs_generation : JobGeneration; rs_worker_id : WorkerId;
  rs_lease_id : WorkerLeaseId; rs_digest : string; rs_outcome : JobResultOutcome;
  rs_accepted_ms : Z; rs_verification : JobVerificationClaim }.

Record JournalEntry := MkEntry {
  je_seq : Z; je_organization_id : string; je_kind : string; je_job_id : option string;
  je_worker_id : option string; je_generation : option JobGeneration; je_at_ms : Z;
  je_detail : string }.
Definition entry_new (organization_id kind : string) (at_ms : Z) (detail : string) :
    result JournalEntry WorkerError :=
  if MAX_JOURNAL_DETAIL_BYTES <? slen detail then Err Malformed
  else Ok (MkEntry 0 organization_id kind None None None at_ms detail).
Definition with_job (job : ExecutionJobId) (g : JobGeneration) (e : JournalEntry) : JournalEntry :=
  MkEntry (je_seq e) (je_organization_id e) (je_kind e) (Some (as_str job)) (je_worker_id e)
    (Some g) (je_at_ms e) (je_detail e).
Definition with_worker (worker : WorkerId) (e : JournalEntry) : JournalEntry :=
  MkEntry (je_seq e) (je_organization_id e) (je_kind e) (je_job_id e) (Some (as_str worker))
    (je_generation e) (je_at_ms e) (je_detail e).
Definition with_seq (seq : Z) (e : JournalEntry) : JournalEntry :=
  MkEntry seq (je_organization_id e) (je_kind e) (je_job_id e) (je_worker_id e)
    (je_generation e) (je_at_ms e) (je_detail e).

Definition clamp_heartbeat_interval (requested_ms : Z) : Z :=
  Z.max HEARTBEAT_MIN_INTERVAL_MS (Z.min requested_ms HEARTBEAT_MAX_INTERVAL_MS).

Example heartbeat_intervals_are_clamped :
  clamp_heartbeat_interval 0 = HEARTBEAT_MIN_INTERVAL_MS
  ∧ clamp_heartbeat_interval I64.max = HEARTBEAT_MAX_INTERVAL_MS
  ∧ clamp_heartbeat_interval HEARTBEAT_DEFAULT_INTERVAL_MS = HEARTBEAT_DEFAULT_INTERVAL_MS.
Proof. done. Qed.
Example capability_normalization_is_stable :
  sorted_tokens ["Rust"; "rust"; " Node "] = Ok ["node"; "rust"]
  ∧ normalize_token "a b" = Err Malformed ∧ normalize_token "  " = Err Malformed.
Proof. vm_compute. split_and!; reflexivity. Qed.
