(* ===== verification/WorkerStore.v ===== *)
(** * The worker plane's store ([crates/worker/src/store.rs])

    [StoreCall] is the trait [WorkerStore] as a signature, one constructor per
    method; [memory] is its implementation by [MemoryWorkerStore].  Every
    method runs under the store's one mutex, so a call is one step on
    [MemoryState].  The SQLite twin runs the same checks in one immediate
    transaction per method.  A [BTreeMap] is a [gmap]; where the source
    iterates over one, the entries are taken in key order. *)
From S2P Require Import Prelude Strings WorkerModel.
From stdpp Require Import sorting.
#[local] Open Scope string_scope.
#[local] Open Scope N_scope.

Inductive ResultAppend := Landed | Duplicate.

Inductive StoreCall : Type → Type :=
  | PutWorker (worker : WorkerRegistration) : StoreCall unit
  | GetWorker (id : WorkerId) : StoreCall (option WorkerRegistration)
  | TouchWorker (worker : WorkerId) (last_seen_ms : Z) : StoreCall bool
  | Workers (organization : string) (after : option string) (limit : N) : StoreCall (list WorkerRegistration)
  | WorkersByTokenHash (organization token_hash : string) : StoreCall (list WorkerRegistration)
  | RegisterWorkerWithToken (registration : WorkerRegistration) (token : WorkerTokenRow)
      (journal : JournalEntry) : StoreCall unit
  | PutToken (token : WorkerTokenRow) : StoreCall unit
  | GetToken (token_hash : string) : StoreCall (option WorkerTokenRow)
  | PutJob (job : ExecutionJob) : StoreCall unit
  | GetJob (id : ExecutionJobId) : StoreCall (option ExecutionJob)
  | JobByKey (organization : string) (key : JobKey) : StoreCall (option ExecutionJob)
  | PutGeneration (row : JobGenerationRow) : StoreCall unit
  | GetGeneration (job : ExecutionJobId) (generation : JobGeneration) : StoreCall (option JobGenerationRow)
  | Generations (job : ExecutionJobId) : StoreCall (list JobGenerationRow)
  | InsertGenerationAndAttempt (job : ExecutionJob) (generation : JobGenerationRow)
      (attempt : JobAttempt) : StoreCall bool
  | SetGenerationState (job : ExecutionJobId) (generation : JobGeneration)
      (from to : GenerationState) (ended_ms : option Z) (reason : option string) : StoreCall bool
  | SetJobState (job : ExecutionJobId) (expect_generation : JobGeneration) (to : JobState) : StoreCall bool
  | TryAcceptLease (lease : WorkerLease) (journal : list JournalEntry) : StoreCall (option WorkerLease)
  | GetLease (id : WorkerLeaseId) : StoreCall (option WorkerLease)
  | LeaseForGeneration (job : ExecutionJobId) (generation : JobGeneration) : StoreCall (option WorkerLease)
  | LiveLeases (organization : string) : StoreCall (list WorkerLease)
  | LiveLeasesOfWorker (worker : WorkerId) : StoreCall (list WorkerLease)
  | RenewLease (lease : WorkerLeaseId) (expect_generation : JobGeneration)
      (last_heartbeat_ms expires_at_ms : Z) : StoreCall bool
  | EndLease (lease : WorkerLeaseId) (expect_generation : JobGeneration) (state_to : LeaseState)
      (ended_ms : Z) (reason : string) : StoreCall bool
  | PutAttempt (attempt : JobAttempt) : StoreCall unit
  | GetAttempt (job : ExecutionJobId) (generation : JobGeneration) (attempt : N) : StoreCall (option JobAttempt)
  | Attempts (job : ExecutionJobId) : StoreCall (list JobAttempt)
  | MaxAttemptNumber (job : ExecutionJobId) : StoreCall N
  | SetAttemptState (job : ExecutionJobId) (generation : JobGeneration) (attempt : N)
      (expect to : AttemptState) (ended_ms : option Z) (worker : option WorkerId)
      (lease : option WorkerLeaseId) (reason : option string) : StoreCall bool
  | LandResult (r : JobResult) : StoreCall ResultAppend
  | GetResult (job : ExecutionJobId) (generation : JobGeneration) : StoreCall (option JobResult)
  | AppendJournal (entry : JournalEntry) : StoreCall unit
  | Journal (organization : string) (after_seq : option Z) (limit : N) : StoreCall (list JournalEntry).

Record MemoryState := MkState {
  ms_workers : gmap string WorkerRegistration;
  ms_tokens : gmap string WorkerTokenRow;
  ms_jobs : gmap string ExecutionJob;
  ms_generations : gmap (string * N) JobGenerationRow;
  ms_leases : gmap string WorkerLease;
  ms_attempts : gmap (string * N * N) JobAttempt;
  ms_results : gmap (string * N) JobResult;
  ms_journal : list JournalEntry }.
Definition empty_state : MemoryState := MkState ∅ ∅ ∅ ∅ ∅ ∅ ∅ [].

(** Field updates. *)
Definition on_workers f st := MkState (f (ms_workers st)) (ms_tokens st) (ms_jobs st)
  (ms_generations st) (ms_leases st) (ms_attempts st) (ms_results st) (ms_journal st).
Definition on_tokens f st := MkState (ms_workers st) (f (ms_tokens st)) (ms_jobs st)
  (ms_generations st) (ms_leases st) (ms_attempts st) (ms_results st) (ms_journal st).
Definition on_jobs f st := MkState (ms_workers st) (ms_tokens st) (f (ms_jobs st))
  (ms_generations st) (ms_leases st) (ms_attempts st) (ms_results st) (ms_journal st).
Definition on_generations f st := MkState (ms_workers st) (ms_tokens st) (ms_jobs st)
  (f (ms_generations st)) (ms_leases st) (ms_attempts st) (ms_results st) (ms_journal st).
Definition on_leases f st := MkState (ms_workers st) (ms_tokens st) (ms_jobs st)
  (ms_generations st) (f (ms_leases st)) (ms_attempts st) (ms_results st) (ms_journal st).
Definition on_attempts f st := MkState (ms_workers st) (ms_tokens st) (ms_jobs st)
  (ms_generations st) (ms_leases st) (f (ms_attempts st)) (ms_results st) (ms_journal st).
Definition on_results f st := MkState (ms_workers st) (ms_tokens st) (ms_jobs st)
  (ms_generations st) (ms_leases st) (ms_attempts st) (f (ms_results st)) (ms_journal st).
Definition on_journal f st := MkState (ms_workers st) (ms_tokens st) (ms_jobs st)
  (ms_generations st) (ms_leases st) (ms_attempts st) (ms_results st) (f (ms_journal st)).

(** [entry.seq = journal.len() as i64 + 1; journal.push(entry)] *)
Definition push_entry (entry : JournalEntry) (st : MemoryState) : MemoryState :=
  on_journal (λ j, j ++ [with_seq (Z.of_nat (List.length j) + 1) entry])%list st.

Definition gen_key (j : ExecutionJobId) (g : JobGeneration) : string * N := (as_str j, as_u64 g).

Section Memory.
Notation M A := (MemoryState → result A WorkerError * MemoryState).

(** ** Workers and tokens *)
Definition find_other (id : WorkerId) (hash : string) (st : MemoryState) : option WorkerRegistration :=
  List.find (λ w, negb (bool_decide (wr_worker_id w = id)) && bool_decide (wr_token_hash w = hash))
    (values (ms_workers st)).

Definition put_worker (worker : WorkerRegistration) : M unit := λ st,
  let insert :=
    match find_other (wr_worker_id worker) (wr_token_hash worker) st with
    | Some other => (Err (TokenBoundElsewhere (wr_worker_id other) (wr_token_hash worker)), st)
    | None => (Ok tt, on_workers <[as_str (wr_worker_id worker) := worker]> st)
    end in
  match ms_workers st !! as_str (wr_worker_id worker) with
  | Some existing =>
      if negb (bool_decide (wr_token_hash existing = wr_token_hash worker))
      then (Err (WorkerAlreadyBound (wr_worker_id worker) (wr_token_hash existing)), st)
      else if wr_revoked existing && negb (wr_revoked worker)
      then (Err (WorkerRevoked (wr_worker_id worker)), st)
      else insert
  | None => insert
  end.

Definition worker (id : WorkerId) : M (option WorkerRegistration) := λ st,
  (Ok (ms_workers st !! as_str id), st).

Definition seen_at (ms : Z) (w : WorkerRegistration) : WorkerRegistration :=
  MkWorker (wr_worker_id w) (wr_organization_id w) (wr_trust_domain w) (wr_display_name w)
    (wr_token_hash w) (wr_revoked w) (wr_capabilities w) (wr_capabilities_version w)
    (wr_registered_ms w) (Z.max (wr_last_seen_ms w) ms) (wr_revoked_ms w).
Definition touch_worker (id : WorkerId) (last_seen_ms : Z) : M bool := λ st,
  match ms_workers st !! as_str id with
  | None => (Ok false, st)
  | Some row =>
      if wr_revoked row then (Ok false, st)
      else (Ok true, on_workers <[as_str id := seen_at last_seen_ms row]> st)
  end.

Definition after_id (after : option string) (s : string) : bool :=
  match after with Some a => String.ltb a s | None => true end.
Definition workers (organization : string) (after : option string) (limit : N) :
    M (list WorkerRegistration) := λ st,
  (Ok (take (N.to_nat limit)
        (List.filter (λ w, after_id after (as_str (wr_worker_id w)))
          (List.filter (λ w, bool_decide (wr_organization_id w = organization))
            (values (ms_workers st))))), st).

Definition workers_by_token_hash (organization token_hash : string) :
    M (list WorkerRegistration) := λ st,
  (Ok (List.filter (λ w, bool_decide (wr_organization_id w = organization)
                         && bool_decide (wr_token_hash w = token_hash))
        (values (ms_workers st))), st).

Definition consume (id : WorkerId) (t : WorkerTokenRow) : WorkerTokenRow :=
  MkToken (tk_token_hash t) (tk_organization_id t) (tk_trust_domain t) (tk_label t)
    (tk_created_ms t) (tk_revoked t) (Some (as_str id)).

Definition register_worker_with_token (registration : WorkerRegistration) (token : WorkerTokenRow)
    (journal : JournalEntry) : M unit := λ st,
  let id := wr_worker_id registration in
  let land stored :=
    (Ok tt, push_entry journal
              (on_tokens <[tk_token_hash stored := consume id stored]>
                (on_workers <[as_str id := registration]> st))) in
  if negb (bool_decide (tk_token_hash token = wr_token_hash registration)) then (Err Malformed, st) else
  match ms_tokens st !! wr_token_hash registration with
  | None => (Err UnknownToken, st)
  | Some stored =>
      if tk_revoked stored then (Err TokenRevoked, st)
      else if negb (bool_decide (tk_organization_id stored = wr_organization_id registration))
      then (Err (TokenOrgMismatch (tk_organization_id stored) (wr_organization_id registration)), st)
      else if negb (bool_decide (tk_trust_domain stored = wr_trust_domain registration))
              || negb (bool_decide (tk_trust_domain stored = wc_trust_domain (wr_capabilities registration)))
      then (Err (ForeignTrustDomain (wc_trust_domain (wr_capabilities registration))
                   (tk_trust_domain stored)), st)
      else
        let rest :=
          match find_other id (wr_token_hash registration) st with
          | Some other => (Err (TokenBoundElsewhere (wr_worker_id other) (wr_token_hash registration)), st)
          | None =>
              match ms_workers st !! as_str id with
              | Some existing =>
                  if wr_revoked existing then (Err (WorkerRevoked id), st)
                  else if negb (bool_decide (wr_token_hash existing = wr_token_hash registration))
                  then (Err (WorkerAlreadyBound id (wr_token_hash existing)), st)
                  else land stored
              | None => land stored
              end
          end in
        match tk_consumed_by stored with
        | Some consumer =>
            if negb (bool_decide (consumer = as_str id)) then (Err (TokenAlreadyUsed consumer), st)
            else rest
        | None => rest
        end
  end.

Definition put_token (token : WorkerTokenRow) : M unit := λ st,
  (Ok tt, on_tokens <[tk_token_hash token := token]> st).
Definition token (token_hash : string) : M (option WorkerTokenRow) := λ st,
  (Ok (ms_tokens st !! token_hash), st).

(** ** Jobs, generations and attempts *)
Definition put_job (job : ExecutionJob) : M unit := λ st,
  (Ok tt, on_jobs <[as_str (ej_job_id job) := job]> st).
Definition job (id : ExecutionJobId) : M (option ExecutionJob) := λ st,
  (Ok (ms_jobs st !! as_str id), st).
Definition job_by_key (organization : string) (key : JobKey) : M (option ExecutionJob) := λ st,
  (Ok (List.find (λ j, bool_decide (ej_organization_id j = organization)
                       && bool_decide (ej_job_key j = key)) (values (ms_jobs st))), st).

Definition put_generation (row : JobGenerationRow) : M unit := λ st,
  (Ok tt, on_generations <[gen_key (gr_job_id row) (gr_generation row) := row]> st).
Definition generation (job : ExecutionJobId) (g : JobGeneration) : M (option JobGenerationRow) := λ st,
  (Ok (ms_generations st !! gen_key job g), st).
Definition gen_row_le (a b : JobGenerationRow) : Prop :=
  as_u64 (gr_generation a) <= as_u64 (gr_generation b).
#[local] Instance gen_row_le_dec : RelDecision gen_row_le.
Proof. intros a b. unfold gen_row_le. apply _. Defined.
Definition generations (job : ExecutionJobId) : M (list JobGenerationRow) := λ st,
  (Ok (merge_sort gen_row_le
        (List.filter (λ e, bool_decide (e.1.1 = as_str job)) (map_to_list (ms_generations st))).*2), st).

(** The rows compare by their JSON text, which determines the row. *)
Definition insert_generation_and_attempt (job : ExecutionJob) (g : JobGenerationRow)
    (attempt : JobAttempt) : M bool := λ st,
  let key := gen_key (gr_job_id g) (gr_generation g) in
  let akey := (gen_key (ja_job_id attempt) (ja_generation attempt), ja_attempt attempt) in
  match ms_generations st !! key with
  | Some existing =>
      if bool_decide (existing = g) && bool_decide (ms_attempts st !! akey = Some attempt)
      then (Ok false, st) else (Err Malformed, st)
  | None =>
      (Ok true, on_jobs <[as_str (ej_job_id job) := job]>
                  (on_attempts <[akey := attempt]> (on_generations <[key := g]> st)))
  end.

Definition gen_in (s : GenerationState) (ended_ms : option Z) (reason : option string)
    (r : JobGenerationRow) : JobGenerationRow :=
  MkGenRow (gr_job_id r) (gr_organization_id r) (gr_generation r) s (gr_created_ms r)
    (if ended_ms then ended_ms else gr_ended_ms r) (if reason then reason else gr_reason r).
Definition set_generation_state (job : ExecutionJobId) (g : JobGeneration)
    (from to : GenerationState) (ended_ms : option Z) (reason : option string) : M bool := λ st,
  match ms_generations st !! gen_key job g with
  | None => (Ok false, st)
  | Some row =>
      if negb (bool_decide (gr_state row = from)) then (Ok false, st)
      else (Ok true, on_generations <[gen_key job g := gen_in to ended_ms reason row]> st)
  end.

Definition set_job_state (job : ExecutionJobId) (expect_generation : JobGeneration) (to : JobState) :
    M bool := λ st,
  match ms_jobs st !! as_str job with
  | None => (Ok false, st)
  | Some row =>
      if negb (bool_decide (ej_current_generation row = expect_generation)) then (Ok false, st)
      else (Ok true, on_jobs <[as_str job := job_at (ej_current_generation row) to row]> st)
  end.

(** [attempts.keys().find(..)]: the least attempt number of a generation. *)
Definition attempt_key (job : ExecutionJobId) (g : JobGeneration) (st : MemoryState) :
    option (string * N * N) :=
  (λ a, (gen_key job g, a)) <$>
    head (merge_sort N.le
      (List.filter (λ e, bool_decide (e.1.1 = gen_key job g)) (map_to_list (ms_attempts st))).*1.*2).

Definition attempt_in (s : AttemptState) (ended_ms : option Z) (worker : option WorkerId)
    (lease : option WorkerLeaseId) (reason : option string) (a : JobAttempt) : JobAttempt :=
  MkAttempt (ja_job_id a) (ja_generation a) (ja_attempt a)
    (if worker then worker else ja_worker_id a) (if lease then lease else ja_lease_id a) s
    (ja_started_ms a) (if ended_ms then ended_ms else ja_ended_ms a)
    (if reason then reason else ja_reason a).

Definition put_attempt (a : JobAttempt) : M unit := λ st,
  (Ok tt, on_attempts <[(gen_key (ja_job_id a) (ja_generation a), ja_attempt a) := a]> st).
Definition attempt (job : ExecutionJobId) (g : JobGeneration) (n : N) : M (option JobAttempt) := λ st,
  (Ok (ms_attempts st !! (gen_key job g, n)), st).
Definition attempt_le (a b : JobAttempt) : Prop :=
  as_u64 (ja_generation a) < as_u64 (ja_generation b)
  ∨ as_u64 (ja_generation a) = as_u64 (ja_generation b) ∧ ja_attempt a <= ja_attempt b.
#[local] Instance attempt_le_dec : RelDecision attempt_le.
Proof. intros a b. unfold attempt_le. apply _. Defined.
Definition attempts (job : ExecutionJobId) : M (list JobAttempt) := λ st,
  (Ok (merge_sort attempt_le
        (List.filter (λ e, bool_decide (e.1.1.1 = as_str job)) (map_to_list (ms_attempts st))).*2), st).
Definition max_attempt_number (job : ExecutionJobId) : M N := λ st,
  (Ok (foldr N.max 0
        (List.filter (λ e, bool_decide (e.1.1.1 = as_str job)) (map_to_list (ms_attempts st))).*1.*2), st).
Definition set_attempt_state (job : ExecutionJobId) (g : JobGeneration) (n : N)
    (expect to : AttemptState) (ended_ms : option Z) (worker : option WorkerId)
    (lease : option WorkerLeaseId) (reason : option string) : M bool := λ st,
  match ms_attempts st !! (gen_key job g, n) with
  | None => (Ok false, st)
  | Some row =>
      if negb (bool_decide (ja_state row = expect)) then (Ok false, st)
      else (Ok true, on_attempts <[(gen_key job g, n) := attempt_in to ended_ms worker lease reason row]> st)
  end.

(** ** Leases *)
Definition lease_in (s : LeaseState) (ended_ms : option Z) (reason : option string)
    (l : WorkerLease) : WorkerLease :=
  MkLease (wl_lease_id l) (wl_organization_id l) (wl_job_id l) (wl_generation l) (wl_worker_id l) s
    (wl_heartbeat_interval_ms l) (wl_accepted_ms l) (wl_last_heartbeat_ms l) (wl_expires_at_ms l)
    ended_ms reason.
Definition find_lease (job : ExecutionJobId) (g : JobGeneration) (st : MemoryState) : option WorkerLease :=
  List.find (λ l, bool_decide (wl_job_id l = job) && bool_decide (wl_generation l = g))
    (values (ms_leases st)).

(** The generation, job and attempt rows of a lease that was just inserted. *)
Definition lease_generation (l : WorkerLease) (st : MemoryState) : MemoryState :=
  let key := gen_key (wl_job_id l) (wl_generation l) in
  match ms_generations st !! key with
  | Some row =>
      if bool_decide (gr_state row = GenAssigned)
      then on_generations <[key := gen_in GenLeased None None row]> st else st
  | None => st
  end.
Definition lease_job (l : WorkerLease) (st : MemoryState) : MemoryState :=
  match ms_jobs st !! as_str (wl_job_id l) with
  | Some row =>
      if bool_decide (ej_current_generation row = wl_generation l)
         && bool_decide (ej_state row = JobAssigned)
      then on_jobs <[as_str (wl_job_id l) := job_at (ej_current_generation row) JobLeased row]> st else st
  | None => st
  end.
Definition lease_attempt (l : WorkerLease) (st : MemoryState) : MemoryState :=
  match attempt_key (wl_job_id l) (wl_generation l) st with
  | Some akey =>
      match ms_attempts st !! akey with
      | Some row =>
          if bool_decide (ja_state row = AttPending)
          then on_attempts <[akey := attempt_in AttLeased None (Some (wl_worker_id l))
                                       (Some (wl_lease_id l)) None row]> st else st
      | None => st
      end
  | None => st
  end.
Definition try_accept_lease (lease : WorkerLease) (journal : list JournalEntry) :
    M (option WorkerLease) := λ st,
  match find_lease (wl_job_id lease) (wl_generation lease) st with
  | Some existing => (Ok (Some existing), st)
  | None =>
      let st := on_leases <[as_str (wl_lease_id lease) := lease]> st in
      let st := lease_attempt lease (lease_job lease (lease_generation lease st)) in
      (Ok None, foldl (λ st entry, push_entry entry st) st journal)
  end.

Definition lease (id : WorkerLeaseId) : M (option WorkerLease) := λ st,
  (Ok (ms_leases st !! as_str id), st).
Definition lease_for_generation (job : ExecutionJobId) (g : JobGeneration) : M (option WorkerLease) := λ st,
  (Ok (find_lease job g st), st).
Definition live_leases (organization : string) : M (list WorkerLease) := λ st,
  (Ok (List.filter (λ l, bool_decide (wl_organization_id l = organization)
                         && bool_decide (wl_state l = LeaseLive)) (values (ms_leases st))), st).
Definition live_leases_of_worker (worker : WorkerId) : M (list WorkerLease) := λ st,
  (Ok (List.filter (λ l, bool_decide (wl_worker_id l = worker)
                         && bool_decide (wl_state l = LeaseLive)) (values (ms_leases st))), st).

Definition renewed (last_heartbeat_ms expires_at_ms : Z) (l : WorkerLease) : WorkerLease :=
  MkLease (wl_lease_id l) (wl_organization_id l) (wl_job_id l) (wl_generation l) (wl_worker_id l)
    (wl_state l) (wl_heartbeat_interval_ms l) (wl_accepted_ms l)
    (Z.max (wl_last_heartbeat_ms l) last_heartbeat_ms)
    (if (wl_expires_at_ms l <? expires_at_ms)%Z then expires_at_ms else wl_expires_at_ms l)
    (wl_ended_ms l) (wl_reason l).
(** The guard [renew_lease] and [end_lease] share. *)
Definition live_at (g : JobGeneration) (l : WorkerLease) : bool :=
  bool_decide (wl_state l = LeaseLive) && bool_decide (wl_generation l = g).
Definition renew_lease (id : WorkerLeaseId) (expect_generation : JobGeneration)
    (last_heartbeat_ms expires_at_ms : Z) : M bool := λ st,
  match ms_leases st !! as_str id with
  | None => (Ok false, st)
  | Some row =>
      if negb (live_at expect_generation row) then (Ok false, st)
      else (Ok true, on_leases <[as_str id := renewed last_heartbeat_ms expires_at_ms row]> st)
  end.
Definition end_lease (id : WorkerLeaseId) (expect_generation : JobGeneration) (state_to : LeaseState)
    (ended_ms : Z) (reason : string) : M bool := λ st,
  match ms_leases st !! as_str id with
  | None => (Ok false, st)
  | Some row =>
      if negb (live_at expect_generation row) then (Ok false, st)
      else (Ok true, on_leases <[as_str id := lease_in state_to (Some ended_ms) (Some reason) row]> st)
  end.

(** ** Results *)
Definition complete_generation (r : JobResult) (st : MemoryState) : MemoryState :=
  let key := gen_key (rs_job_id r) (rs_generation r) in
  match ms_generations st !! key with
  | Some row =>
      if gen_is_terminal (gr_state row) then st
      else on_generations <[key := gen_in GenCompleted (Some (rs_accepted_ms r)) None row]> st
  | None => st
  end.
Definition complete_job (r : JobResult) (st : MemoryState) : MemoryState :=
  match ms_jobs st !! as_str (rs_job_id r) with
  | Some row => on_jobs <[as_str (rs_job_id r) := job_at (ej_current_generation row) JobCompleted row]> st
  | None => st
  end.
Definition complete_attempt (r : JobResult) (st : MemoryState) : MemoryState :=
  match attempt_key (rs_job_id r) (rs_generation r) st with
  | Some akey =>
      match ms_attempts st !! akey with
      | Some row =>
          if attempt_is_terminal (ja_state row) then st
          else on_attempts <[akey := attempt_in AttCompleted (Some (rs_accepted_ms r)) None None None row]> st
      | None => st
      end
  | None => st
  end.
Definition land_result (r : JobResult) : M ResultAppend := λ st,
  let key := gen_key (rs_job_id r) (rs_generation r) in
  match ms_results st !! key with
  | Some existing =>
      if bool_decide (rs_digest existing = rs_digest r)
         && bool_decide (rs_worker_id existing = rs_worker_id r)
         && bool_decide (rs_lease_id existing = rs_lease_id r)
      then (Ok Duplicate, st)
      else (Err (ResultConflict (as_str (rs_job_id r)) (rs_generation r)), st)
  | None =>
      match ms_jobs st !! as_str (rs_job_id r) with
      | None => (Err (UnknownJob (as_str (rs_job_id r))), st)
      | Some job =>
          if negb (bool_decide (ej_current_generation job = rs_generation r))
          then (Err (SupersededLease (as_str (rs_job_id r)) (rs_generation r) (ej_current_generation job)), st)
          else
            match ms_leases st !! as_str (rs_lease_id r) with
            | None => (Err (UnknownLease (rs_lease_id r) (rs_worker_id r)), st)
            | Some lease =>
                if negb (bool_decide (wl_worker_id lease = rs_worker_id r))
                   || negb (bool_decide (wl_generation lease = rs_generation r))
                then (Err (UnknownLease (rs_lease_id r) (rs_worker_id r)), st)
                else if negb (bool_decide (wl_state lease = LeaseLive))
                then (Err (LeaseNotLive (rs_lease_id r) (lease_state_str (wl_state lease))), st)
                else
                  let st := on_results <[key := r]> st in
                  let st := on_leases <[as_str (rs_lease_id r) :=
                              lease_in LeaseCompleted (Some (rs_accepted_ms r)) (wl_reason lease) lease]> st in
                  (Ok Landed, complete_attempt r (complete_job r (complete_generation r st)))
            end
      end
  end.
Definition get_result (job : ExecutionJobId) (g : JobGeneration) : M (option JobResult) := λ st,
  (Ok (ms_results st !! gen_key job g), st).

(** ** The journal *)
Definition append_journal (entry : JournalEntry) : M unit := λ st, (Ok tt, push_entry entry st).
Definition journal (organization : string) (after_seq : option Z) (limit : N) :
    M (list JournalEntry) := λ st,
  (Ok (take (N.to_nat limit)
        (List.filter (λ e, match after_seq with Some a => (a <? je_seq e)%Z | None => true end)
          (List.filter (λ e, bool_decide (je_organization_id e = organization)) (ms_journal st)))), st).

Definition memory {A} (c : StoreCall A) : M A :=
  match c with
  | PutWorker w => put_worker w
  | GetWorker id => worker id
  | TouchWorker w ms => touch_worker w ms
  | Workers o a n => workers o a n
  | WorkersByTokenHash o h => workers_by_token_hash o h
  | RegisterWorkerWithToken r t j => register_worker_with_token r t j
  | PutToken t => put_token t
  | GetToken h => token h
  | PutJob j => put_job j
  | GetJob id => job id
  | JobByKey o k => job_by_key o k
  | PutGeneration r => put_generation r
  | GetGeneration j g => generation j g
  | Generations j => generations j
  | InsertGenerationAndAttempt j g a => insert_generation_and_attempt j g a
  | SetGenerationState j g s t e r => set_generation_state j g s t e r
  | SetJobState j g t => set_job_state j g t
  | TryAcceptLease l es => try_accept_lease l es
  | GetLease id => lease id
  | LeaseForGeneration j g => lease_for_generation j g
  | LiveLeases o => live_leases o
  | LiveLeasesOfWorker w => live_leases_of_worker w
  | RenewLease l g h e => renew_lease l g h e
  | EndLease l g s e r => end_lease l g s e r
  | PutAttempt a => put_attempt a
  | GetAttempt j g n => attempt j g n
  | Attempts j => attempts j
  | MaxAttemptNumber j => max_attempt_number j
  | SetAttemptState j g n s t e w l r => set_attempt_state j g n s t e w l r
  | LandResult r => land_result r
  | GetResult j g => get_result j g
  | AppendJournal e => append_journal e
  | Journal o a n => journal o a n
  end.
End Memory.
