(* ===== verification/WorkerPlane.v ===== *)
(** * The worker plane ([crates/worker/src/service.rs])

    The service methods of [WorkerPlane] as programs over the store: trees of
    store calls, clock reads and minted names.  Between two calls of one method
    any other method may run, and a method may stop between two calls because
    its process died; [Sys] is that transition system.

    The paging loops of the source run until a short page and take [fuel]
    here; a loop out of fuel is a thread that stopped.  The arguments of [MintJob],
    [MintLease] and [NewToken] are ghost: they say what a minted name is for and
    do not influence it. *)
From S2P Require Import Prelude Strings Effects WorkerModel WorkerStore.
From stdpp Require Import sorting pretty.
#[local] Open Scope string_scope.
#[local] Open Scope N_scope.

Inductive Event : Type → Type :=
  | Store {A} (c : StoreCall A) : Event (result A WorkerError)
  | Now : Event Z
  | MintJob (mk : ExecutionJobId → ExecutionJob) : Event string
  | MintLease (job : ExecutionJobId) (g : JobGeneration) : Event string
  | NewToken (organization trust_domain : string) : Event string.

Notation Prog := (Effects.Prog Event).
Notation Svc A := (Prog (result A WorkerError)).
Definition store {A} (c : StoreCall A) : Svc A := Call (Store c) Ret.
Definition now_ms : Svc Z := Call Now (λ t, Ret (Ok t)).

#[local] Open Scope prog_scope.

Definition MAX_WORKER_PAGE : N := 200.
Definition MAX_JOURNAL_PAGE : N := 500.
Definition MAX_CLAIM_SCAN_JOBS : N := 512.

Record IssuedWorkerToken := MkIssued {
  it_token : string; it_token_hash : string; it_organization_id : string;
  it_trust_domain : string; it_label : string }.
Record WorkerView := MkView {
  wv_worker_id : WorkerId; wv_organization_id : string; wv_trust_domain : string;
  wv_display_name : string; wv_revoked : bool; wv_capabilities : WorkerCapabilities;
  wv_capabilities_version : N; wv_registered_ms : Z; wv_last_seen_ms : Z }.
Definition view_of (r : WorkerRegistration) : WorkerView :=
  MkView (wr_worker_id r) (wr_organization_id r) (wr_trust_domain r) (wr_display_name r)
    (wr_revoked r) (wr_capabilities r) (wr_capabilities_version r) (wr_registered_ms r)
    (wr_last_seen_ms r).
Record ScheduledJob := MkScheduled {
  sj_job : ExecutionJob; sj_generation : JobGeneration; sj_lease : option WorkerLease; sj_replay : bool }.
Record HeartbeatOutcome := MkHeartbeat {
  ho_lease_id : WorkerLeaseId; ho_generation : JobGeneration; ho_heartbeat_interval_ms : Z;
  ho_expires_at_ms : Z }.
Record RecoveryReport := MkReport {
  rr_resumed : list string; rr_reassigned : list string; rr_expired : list string;
  rr_requeued : list (string * N); rr_exhausted : list string }.
Definition report_new : RecoveryReport := MkReport [] [] [] [] [].
Definition push_resumed x r := MkReport (rr_resumed r ++ [x])%list (rr_reassigned r) (rr_expired r) (rr_requeued r) (rr_exhausted r).
Definition push_reassigned x r := MkReport (rr_resumed r) (rr_reassigned r ++ [x])%list (rr_expired r) (rr_requeued r) (rr_exhausted r).
Definition push_expired x r := MkReport (rr_resumed r) (rr_reassigned r) (rr_expired r ++ [x])%list (rr_requeued r) (rr_exhausted r).
Definition push_requeued x r := MkReport (rr_resumed r) (rr_reassigned r) (rr_expired r) (rr_requeued r ++ [x])%list (rr_exhausted r).
Definition push_exhausted x r := MkReport (rr_resumed r) (rr_reassigned r) (rr_expired r) (rr_requeued r) (rr_exhausted r ++ [x])%list.

Definition check_protocol (presented : N) : result unit WorkerError :=
  if negb (presented =? WORKER_PROTOCOL_VERSION)
  then Err (ProtocolSkew WORKER_PROTOCOL_VERSION presented) else Ok tt.
Definition validate_digest (digest : string) : result unit WorkerError :=
  if negb (slen digest =? RESULT_DIGEST_BYTES) || negb (lacks (λ b, negb (is_ascii_hexdigit b)) digest)
  then Err Malformed else Ok tt.
Definition default_requeue : RequeuePolicy := MkPolicy DEFAULT_MAX_ATTEMPTS.

Section Plane.
(** [TokenHash::of], a SHA-256. *)
Variable token_hash_of : string → string.
(** The bound on the paging loops of one method. *)
Variable fuel : nat.

(** [fn journal] *)
Definition journal_row (organization kind : string) (at_ms : Z) (worker : option WorkerId)
    (job : option ExecutionJobId) (g : option JobGeneration) (detail : string) : Svc unit :=
  entry <- lift (entry_new organization kind at_ms detail);
  let entry := match job with
               | Some j => with_job j (match g with Some g => g | None => FIRST end) entry
               | None => entry end in
  let entry := match worker with Some w => with_worker w entry | None => entry end in
  store (AppendJournal entry).

(** ** Tokens and registrations *)
Definition mint_registration_token (organization : OrganizationId) (trust_domain label : string) :
    Svc IssuedWorkerToken :=
  if bool_decide (label = "") || (MAX_WORKER_NAME_BYTES <? slen label) then sfail Malformed else
  let trust_domain := to_ascii_lowercase (trim trust_domain) in
  if bool_decide (trust_domain = "") || (MAX_CAPABILITY_BYTES <? slen trust_domain)
  then sfail Malformed else
  Call (NewToken (as_str organization) trust_domain) (λ token,
    let hash := token_hash_of token in
    now <- now_ms;
    store (PutToken (MkToken hash (as_str organization) trust_domain label now false None)) ;;
    sret (MkIssued token hash (as_str organization) trust_domain label)).

Definition token_organization (token : string) : Svc (OrganizationId * string) :=
  row <- store (GetToken (token_hash_of token));
  match row with
  | None => sfail UnknownToken
  | Some row =>
      if tk_revoked row then sfail TokenRevoked else
      organization <- lift (try_new_id (tk_organization_id row));
      sret (organization, tk_trust_domain row)
  end.

Definition worker_for_token (token : string) : Svc WorkerId :=
  row <- store (GetToken (token_hash_of token));
  match row with
  | None => sfail UnknownToken
  | Some row =>
      if tk_revoked row then sfail TokenRevoked else
      match tk_consumed_by row with
      | None => sfail (UnknownWorker (MkId "unregistered" I))
      | Some consumer => lift (try_new_id consumer)
      end
  end.

Definition worker_organization (worker_id : WorkerId) : Svc OrganizationId :=
  w <- store (GetWorker worker_id);
  match w with
  | None => sfail (UnknownWorker worker_id)
  | Some w => lift (try_new_id (wr_organization_id w))
  end.

Definition revoked_token (t : WorkerTokenRow) : WorkerTokenRow :=
  MkToken (tk_token_hash t) (tk_organization_id t) (tk_trust_domain t) (tk_label t)
    (tk_created_ms t) true (tk_consumed_by t).
Definition revoke_token (organization : OrganizationId) (token_hash : string) : Svc unit :=
  row <- store (GetToken token_hash);
  match row with
  | None => sfail UnknownToken
  | Some row =>
      if negb (bool_decide (tk_organization_id row = as_str organization)) then sfail UnknownToken
      else if tk_revoked row then sret tt
      else store (PutToken (revoked_token row))
  end.

Definition register (organization : OrganizationId) (worker_id : WorkerId) (token : string)
    (capabilities : WorkerCapabilities) (display_name : string) : Svc (WorkerView * bool) :=
  capabilities <- lift (normalize_caps capabilities);
  if bool_decide (display_name = "") || (MAX_WORKER_NAME_BYTES <? slen display_name)
  then sfail Malformed else
  now <- now_ms;
  let hash := token_hash_of token in
  token_row <- store (GetToken hash);
  match token_row with
  | None => sfail UnknownToken
  | Some token_row =>
      if tk_revoked token_row then sfail TokenRevoked
      else if negb (bool_decide (tk_organization_id token_row = as_str organization))
      then sfail (TokenOrgMismatch (tk_organization_id token_row) (as_str organization))
      else if negb (bool_decide (wc_trust_domain capabilities = tk_trust_domain token_row))
      then sfail (ForeignTrustDomain (wc_trust_domain capabilities) (tk_trust_domain token_row))
      else
        match tk_consumed_by token_row with
        | Some consumer =>
            if negb (bool_decide (consumer = as_str worker_id)) then sfail (TokenAlreadyUsed consumer)
            else sret tt
        | None => sret tt
        end ;;
        existing <- store (GetWorker worker_id);
        match existing with
        | Some e =>
            if wr_revoked e then sfail (WorkerRevoked worker_id)
            else if negb (bool_decide (wr_token_hash e = hash))
            then sfail (WorkerAlreadyBound worker_id (wr_token_hash e))
            else sret tt
        | None => sret tt
        end ;;
        let '(capabilities_version, reconciled) :=
          match existing with
          | Some prior =>
              if bool_decide (wr_capabilities prior = capabilities)
              then (wr_capabilities_version prior, false)
              else (U64.sat_add (wr_capabilities_version prior) 1, true)
          | None => (1, false)
          end in
        let registration :=
          MkWorker worker_id (as_str organization) (tk_trust_domain token_row) display_name hash
            false capabilities capabilities_version
            (match existing with Some p => wr_registered_ms p | None => now end) now None in
        let kind := match existing with
                    | Some _ => if reconciled then "capabilities_reconciled" else "registration_refreshed"
                    | None => "worker_registered" end in
        entry <- lift (entry_new (as_str organization) kind now
                         ("capabilities_version=" ++ pretty capabilities_version ++ " reconciled="
                          ++ (if reconciled then "true" else "false")));
        store (RegisterWorkerWithToken registration (consume worker_id token_row)
                 (with_worker worker_id entry)) ;;
        sret (view_of registration, reconciled)
  end.

Definition list_workers (organization : OrganizationId) (after : option string) (limit : N) :
    Svc (list WorkerView * option string) :=
  let limit := N.max 1 (N.min limit MAX_WORKER_PAGE) in
  rows <- store (Workers (as_str organization) after (limit + 1));
  if limit <? count rows then
    let rows := removelast rows in
    sret (map view_of rows, (λ w, as_str (wr_worker_id w)) <$> last rows)
  else sret (map view_of rows, None).

(** ** Lookups *)
Definition current_generation_of (job_id : ExecutionJobId) : Svc (option JobGeneration) :=
  j <- store (GetJob job_id); sret (ej_current_generation <$> j).

Definition require_job (organization : OrganizationId) (job_id : ExecutionJobId) : Svc ExecutionJob :=
  j <- store (GetJob job_id);
  match j with
  | None => sfail (UnknownJob (as_str job_id))
  | Some j =>
      if negb (bool_decide (ej_organization_id j = as_str organization))
      then sfail (UnknownJob (as_str job_id)) else sret j
  end.

Definition require_eligible (worker_id : WorkerId) (organization : OrganizationId)
    (trust_domain : string) (requirements : JobRequirements) : Svc WorkerRegistration :=
  w <- store (GetWorker worker_id);
  match w with
  | None => sfail (UnknownWorker worker_id)
  | Some w =>
      if negb (bool_decide (wr_organization_id w = as_str organization)) then sfail (UnknownWorker worker_id)
      else if wr_revoked w then sfail (WorkerRevoked worker_id)
      else if negb (bool_decide (wr_trust_domain w = trust_domain))
      then sfail (ForeignTrustDomain trust_domain (wr_trust_domain w))
      else if negb (satisfies (wr_capabilities w) requirements)
      then sfail (CapabilityMismatch worker_id "(scheduled)")
      else sret w
  end.

Definition authenticate (worker_id : WorkerId) (token : string) : Svc WorkerRegistration :=
  w <- store (GetWorker worker_id);
  match w with
  | None => sfail (UnknownWorker worker_id)
  | Some w =>
      if wr_revoked w then sfail (WorkerRevoked worker_id) else
      let hash := token_hash_of token in
      if negb (bool_decide (wr_token_hash w = hash)) then sfail UnknownToken else
      row <- store (GetToken hash);
      match row with
      | None => sfail UnknownToken
      | Some row =>
          if tk_revoked row then sfail TokenRevoked
          else match tk_consumed_by row with
               | Some consumer =>
                   if negb (bool_decide (consumer = as_str worker_id))
                   then sfail (TokenAlreadyUsed consumer) else sret w
               | None => sfail (TokenNotConsumed worker_id)
               end
      end
  end.

(** [authenticate] and the organization check every worker call starts with. *)
Definition authenticate_in (organization : OrganizationId) (worker_id : WorkerId) (token : string) :
    Svc WorkerRegistration :=
  w <- authenticate worker_id token;
  if negb (bool_decide (wr_organization_id w = as_str organization))
  then sfail (UnknownWorker worker_id) else sret w.

(** ** Eligible workers *)
Fixpoint first_eligible (trust_domain : string) (requirements : JobRequirements)
    (page : list WorkerRegistration) : Svc (option WorkerRegistration) :=
  match page with
  | [] => sret None
  | w :: page =>
      if wr_revoked w then first_eligible trust_domain requirements page
      else if negb (bool_decide (wr_trust_domain w = trust_domain))
      then first_eligible trust_domain requirements page
      else if negb (satisfies (wr_capabilities w) requirements)
      then first_eligible trust_domain requirements page
      else
        live <- store (LiveLeasesOfWorker (wr_worker_id w));
        if MAX_LIVE_LEASES_PER_WORKER <=? count live
        then first_eligible trust_domain requirements page
        else sret (Some w)
  end.
Fixpoint eligible_pages (n : nat) (organization : OrganizationId) (trust_domain : string)
    (requirements : JobRequirements) (after : option string) : Svc (option WorkerRegistration) :=
  match n with
  | O => Halt
  | S n =>
      page <- store (Workers (as_str organization) after MAX_WORKER_PAGE);
      match last page with
      | None => sret None
      | Some w =>
          found <- first_eligible trust_domain requirements page;
          match found with
          | Some w => sret (Some w)
          | None =>
              if count page <? MAX_WORKER_PAGE then sret None
              else eligible_pages n organization trust_domain requirements
                     (Some (as_str (wr_worker_id w)))
          end
      end
  end.
Definition find_eligible (organization : OrganizationId) (trust_domain : string)
    (requirements : JobRequirements) : Svc (option WorkerRegistration) :=
  eligible_pages fuel organization trust_domain requirements None.

(** ** Accepting a lease *)
Definition new_lease (lease_id : WorkerLeaseId) (organization : OrganizationId) (job : ExecutionJob)
    (g : JobGeneration) (w : WorkerRegistration) (now : Z) : WorkerLease :=
  let interval := clamp_heartbeat_interval HEARTBEAT_DEFAULT_INTERVAL_MS in
  MkLease lease_id (as_str organization) (ej_job_id job) g (wr_worker_id w) LeaseLive interval
    now now (I64.sat_add now interval) None None.

Definition accept_lease_inner (w : WorkerRegistration) (organization : OrganizationId)
    (job : ExecutionJob) (g : JobGeneration) (now : Z) (claimed_via : option string) : Svc WorkerLease :=
  let row kind detail :=
    journal_row (as_str organization) kind now (Some (wr_worker_id w)) (Some (ej_job_id job)) (Some g) detail in
  let taken (existing : WorkerLease) :=
    row "lease_accept_lost" ("lease " ++ as_str (wl_lease_id existing) ++ " already held by "
                             ++ as_str (wl_worker_id existing)) ;;
    sfail (LeaseAlreadyTaken (as_str (ej_job_id job)) g (as_str (wl_worker_id existing))
             (as_str (wl_lease_id existing))) in
  if negb (bool_decide (wr_organization_id w = ej_organization_id job))
     || negb (bool_decide (wr_trust_domain w = ej_trust_domain job))
  then sfail (ForeignTrustDomain (ej_trust_domain job) (wr_trust_domain w)) else
  match ej_assigned_worker job with
  | Some assigned =>
      if negb (bool_decide (assigned = wr_worker_id w))
      then sfail (NotAssignedToWorker (as_str (ej_job_id job)) g (wr_worker_id w) (as_str assigned))
      else sret tt
  | None => sret tt
  end ;;
  if negb (bool_decide (g = ej_current_generation job)) then
    row "stale_lease_rejected" ("current generation is " ++ pretty (as_u64 (ej_current_generation job))) ;;
    sfail (SupersededLease (as_str (ej_job_id job)) g (ej_current_generation job))
  else if job_is_terminal (ej_state job)
  then sfail (JobTerminal (as_str (ej_job_id job)) (job_state_str (ej_state job))) else
  generation_row <- store (GetGeneration (ej_job_id job) g);
  match generation_row with
  | None => sfail (UnknownGeneration (as_str (ej_job_id job)) g)
  | Some generation_row =>
      existing <- store (LeaseForGeneration (ej_job_id job) g);
      match existing with
      | Some existing => taken existing
      | None =>
          if negb (bool_decide (gr_state generation_row = GenAssigned))
          then sfail (NotLeasable (as_str (ej_job_id job)) g (gen_state_str (gr_state generation_row)))
          else if negb (satisfies (wr_capabilities w) (ej_requirements job))
          then sfail (CapabilityMismatch (wr_worker_id w) (as_str (ej_job_id job))) else
          live <- store (LiveLeasesOfWorker (wr_worker_id w));
          if MAX_LIVE_LEASES_PER_WORKER <=? count live
          then sfail (WorkerSaturated (wr_worker_id w) MAX_LIVE_LEASES_PER_WORKER) else
          Call (MintLease (ej_job_id job) g) (λ minted,
            lease_id <- lift (try_new_id minted);
            let lease := new_lease lease_id organization job g w now in
            accepted <- lift (entry_new (as_str organization) "lease_accepted" now
                                ("lease=" ++ as_str lease_id ++ " interval_ms="
                                 ++ pretty (wl_heartbeat_interval_ms lease)));
            let accepted := with_job (ej_job_id job) g (with_worker (wr_worker_id w) accepted) in
            entries <- match claimed_via with
                       | Some via =>
                           claimed <- lift (entry_new (as_str organization) "job_claimed" now
                                              ("lease=" ++ as_str lease_id ++ " claimed via " ++ via));
                           sret [accepted; with_job (ej_job_id job) g (with_worker (wr_worker_id w) claimed)]
                       | None => sret [accepted]
                       end;
            lost <- store (TryAcceptLease lease entries);
            match lost with
            | Some existing => taken existing
            | None => sret lease
            end)
      end
  end.

(** ** Losing a lease *)
Definition attempt_number_for (job_id : ExecutionJobId) (g : JobGeneration) : Svc N :=
  rows <- store (Attempts job_id);
  sret (match List.find (λ a, bool_decide (ja_generation a = g)) rows with
        | Some a => ja_attempt a
        | None => 1
        end).

(** The worker a job's current generation is given to, if one is eligible;
    a refusal of the assigned one is not an error. *)
Definition choose_target (organization : OrganizationId) (job : ExecutionJob) :
    Svc (option WorkerRegistration) :=
  match ej_assigned_worker job with
  | Some id =>
      pbind (require_eligible id organization (ej_trust_domain job) (ej_requirements job)) (λ r,
        match r with
        | Ok w => sret (Some w)
        | Err e => if is_recovery_domain_refusal e then sret None else sfail e
        end)
  | None => find_eligible organization (ej_trust_domain job) (ej_requirements job)
  end.

(** [true] when the lease was accepted, [false] when it was refused. *)
Definition assign (organization : OrganizationId) (job : ExecutionJob) (now : Z) : Svc bool :=
  target <- choose_target organization job;
  match target with
  | Some w =>
      pbind (accept_lease_inner w organization job (ej_current_generation job) now None) (λ r,
        match r with
        | Ok _ => sret true
        | Err e => if is_recovery_domain_refusal e then sret false else sfail e
        end)
  | None => sret false
  end.

Definition finish_lost_lease (lease : WorkerLease) (reason : string) (now : Z)
    (report : RecoveryReport) : Svc RecoveryReport :=
  store (SetGenerationState (wl_job_id lease) (wl_generation lease) GenLeased GenLost (Some now) (Some reason)) ;;
  n <- attempt_number_for (wl_job_id lease) (wl_generation lease);
  store (SetAttemptState (wl_job_id lease) (wl_generation lease) n AttLeased AttLost (Some now)
           (Some (wl_worker_id lease)) (Some (wl_lease_id lease)) (Some reason)) ;;
  journal_row (wl_organization_id lease) "lease_expired" now (Some (wl_worker_id lease))
    (Some (wl_job_id lease)) (Some (wl_generation lease))
    ("lease=" ++ as_str (wl_lease_id lease) ++ " reason=" ++ reason) ;;
  job <- store (GetJob (wl_job_id lease));
  match job with
  | None => sret report
  | Some job =>
      if negb (bool_decide (ej_current_generation job = wl_generation lease))
         || job_is_terminal (ej_state job) then sret report else
      attempts <- store (MaxAttemptNumber (ej_job_id job));
      if max_attempts (ej_requeue job) <=? attempts then
        store (SetJobState (ej_job_id job) (wl_generation lease) JobFailed) ;;
        journal_row (ej_organization_id job) "attempts_exhausted" now (Some (wl_worker_id lease))
          (Some (ej_job_id job)) (Some (wl_generation lease))
          ("attempts=" ++ pretty attempts ++ " policy=" ++ pretty (max_attempts (ej_requeue job))) ;;
        sret (push_exhausted (as_str (ej_job_id job)) report)
      else
        match next (ej_current_generation job) with
        | Err _ =>
            store (SetJobState (ej_job_id job) (wl_generation lease) JobFailed) ;;
            sret (push_exhausted (as_str (ej_job_id job)) report)
        | Ok next_generation =>
            let job_row := job_at next_generation JobAssigned job in
            let requeued := Some ("requeued after " ++ reason) in
            inserted <- store (InsertGenerationAndAttempt job_row
              (MkGenRow (ej_job_id job) (ej_organization_id job) next_generation GenAssigned now None requeued)
              (MkAttempt (ej_job_id job) next_generation (U32.sat_add attempts 1) None None AttPending
                 now None requeued));
            if negb inserted then sret report else
            let report := push_requeued (as_str (ej_job_id job), as_u64 next_generation) report in
            journal_row (ej_organization_id job) "job_requeued" now (Some (wl_worker_id lease))
              (Some (ej_job_id job)) (Some next_generation)
              ("previous generation " ++ pretty (as_u64 (wl_generation lease)) ++ " lost: " ++ reason) ;;
            organization <- lift (try_new_id (ej_organization_id job));
            assign organization job_row now ;;
            sret report
        end
  end.

Definition end_lease_and_requeue (lease : WorkerLease) (state : LeaseState) (reason : string)
    (now : Z) (report : RecoveryReport) : Svc RecoveryReport :=
  ended <- store (EndLease (wl_lease_id lease) (wl_generation lease) state now reason);
  if negb ended then sret report
  else finish_lost_lease lease reason now (push_expired (as_str (wl_lease_id lease)) report).

(** The loop of [revoke_worker]. *)
Fixpoint revoke_leases (now : Z) (leases : list WorkerLease) (report : RecoveryReport) :
    Svc RecoveryReport :=
  match leases with
  | [] => sret report
  | l :: leases =>
      report <- end_lease_and_requeue l LeaseRevoked "worker revoked" now report;
      revoke_leases now leases report
  end.
Definition revoke_worker (organization : OrganizationId) (worker_id : WorkerId) : Svc RecoveryReport :=
  now <- now_ms;
  w <- store (GetWorker worker_id);
  match w with
  | None => sfail (UnknownWorker worker_id)
  | Some w =>
      if negb (bool_decide (wr_organization_id w = as_str organization)) then sfail (UnknownWorker worker_id)
      else if wr_revoked w then sfail (AlreadyRevoked worker_id) else
      store (PutWorker (MkWorker (wr_worker_id w) (wr_organization_id w) (wr_trust_domain w)
               (wr_display_name w) (wr_token_hash w) true (wr_capabilities w)
               (wr_capabilities_version w) (wr_registered_ms w) now (Some now))) ;;
      token <- store (GetToken (wr_token_hash w));
      match token with
      | Some t => store (PutToken (revoked_token t))
      | None => sret tt
      end ;;
      leases <- store (LiveLeasesOfWorker worker_id);
      report <- revoke_leases now leases report_new;
      journal_row (as_str organization) "worker_revoked" now (Some worker_id) None None
        "registration and token revoked; live leases ended" ;;
      sret report
  end.

(** ** Scheduling *)
Definition schedule_job (organization : OrganizationId) (trust_domain : string) (job_key : JobKey)
    (requirements : JobRequirements) (payload_digest : string) (requeue : RequeuePolicy)
    (assigned_worker : option WorkerId) : Svc ScheduledJob :=
  lift (validate_policy requeue) ;;
  requirements <- lift (normalize_reqs requirements);
  lift (validate_digest payload_digest) ;;
  if negb (bool_decide (jr_trust_domain requirements = to_ascii_lowercase (trim trust_domain)))
  then sfail (ForeignTrustDomain (jr_trust_domain requirements) trust_domain) else
  now <- now_ms;
  existing <- store (JobByKey (as_str organization) job_key);
  match existing with
  | Some existing =>
      lease <- store (LeaseForGeneration (ej_job_id existing) (ej_current_generation existing));
      sret (MkScheduled existing (ej_current_generation existing) lease true)
  | None =>
      w <- match assigned_worker with
           | Some id => w <- require_eligible id organization trust_domain requirements; sret (Some w)
           | None => find_eligible organization trust_domain requirements
           end;
      let mk job_id := MkJob job_id (as_str organization) trust_domain job_key requirements
                         payload_digest requeue (wr_worker_id <$> w) now FIRST JobAssigned in
      Call (MintJob mk) (λ minted,
        job_id <- lift (try_new_id minted);
        let job := mk job_id in
        journal_row (as_str organization) "job_scheduled" now (wr_worker_id <$> w) (Some job_id)
          (Some FIRST) ("job_key=" ++ key_str job_key ++ " digest=" ++ payload_digest) ;;
        store (InsertGenerationAndAttempt job
                 (MkGenRow job_id (as_str organization) FIRST GenAssigned now None None)
                 (MkAttempt job_id FIRST 1 None None AttPending now None None)) ;;
        lease <- match w with
                 | Some w => l <- accept_lease_inner w organization job FIRST now None; sret (Some l)
                 | None => sret None
                 end;
        sret (MkScheduled job FIRST lease false))
  end.

Definition accept_lease (organization : OrganizationId) (worker_id : WorkerId) (token : string)
    (protocol_version : N) (job_id : ExecutionJobId) (g : JobGeneration) : Svc WorkerLease :=
  lift (check_protocol protocol_version) ;;
  w <- authenticate_in organization worker_id token;
  job <- require_job organization job_id;
  now <- now_ms;
  accept_lease_inner w organization job g now None.

(** ** The scan over the durable index of jobs

    The journal's [job_scheduled] and [job_requeued] rows, page by page, each
    job once.  [body] is the rest of the loop's body: [inl] is [continue],
    [inr] a [return]. *)
Section Scan.
Context {S R : Type} (body : S → string → Svc (S + R)).
Fixpoint scan_page (page : list JournalEntry) (seen : gset string) (s : S) :
    Svc ((gset string * S) + R) :=
  match page with
  | [] => sret (inl (seen, s))
  | entry :: page =>
      if negb (bool_decide (je_kind entry = "job_scheduled"))
         && negb (bool_decide (je_kind entry = "job_requeued")) then scan_page page seen s else
      match je_job_id entry with
      | None => scan_page page seen s
      | Some raw =>
          if bool_decide (raw ∈ seen) then scan_page page seen s else
          r <- body s raw;
          match r with
          | inl s => scan_page page ({[raw]} ∪ seen) s
          | inr x => sret (inr x)
          end
      end
  end.
Fixpoint scan_jobs (n : nat) (organization : OrganizationId) (after : option Z)
    (seen : gset string) (s : S) : Svc (S + R) :=
  match n with
  | O => Halt
  | Datatypes.S n =>
      page <- store (Journal (as_str organization) after MAX_JOURNAL_PAGE);
      match last page with
      | None => sret (inl s)
      | Some e =>
          r <- scan_page page seen s;
          match r with
          | inl (seen, s) =>
              if count page <? MAX_JOURNAL_PAGE then sret (inl s)
              else scan_jobs n organization (Some (je_seq e)) seen s
          | inr x => sret (inr x)
          end
      end
  end.
End Scan.

(** A job of the index, unless it is unreadable, missing, foreign or terminal. *)
Definition indexed_job (organization : OrganizationId) (raw : string) : Svc (option ExecutionJob) :=
  match try_new_id raw with
  | Err _ => sret None
  | Ok job_id =>
      job <- store (GetJob job_id);
      match job with
      | None => sret None
      | Some job =>
          if negb (bool_decide (ej_organization_id job = as_str organization))
             || job_is_terminal (ej_state job) then sret None else sret (Some job)
      end
  end.

(** ** Claims *)
(** [claim_gate]: the installed gate's answer, if one is installed. *)
Definition admit_claim (claim_gate : option bool) : result unit WorkerError :=
  match claim_gate with
  | None => Ok tt
  | Some admitted => if admitted then Ok tt else Err EntitlementRefused
  end.

Definition claim_body (organization : OrganizationId) (w : WorkerRegistration) (now : Z)
    (scanned : N) (raw : string) : Svc (N + option (ExecutionJob * WorkerLease)) :=
  let scanned := scanned + 1 in
  let continue := sret (inl scanned) in
  if MAX_CLAIM_SCAN_JOBS <? scanned then sret (inr None) else
  job <- indexed_job organization raw;
  match job with
  | None => continue
  | Some job =>
      if negb (bool_decide (wr_trust_domain w = ej_trust_domain job)) then continue
      else if negb (satisfies (wr_capabilities w) (ej_requirements job)) then continue
      else if negb (match ej_assigned_worker job with
                    | Some assigned => bool_decide (assigned = wr_worker_id w)
                    | None => true end) then continue else
      let g := ej_current_generation job in
      leased <- store (LeaseForGeneration (ej_job_id job) g);
      match leased with
      | Some _ => continue
      | None =>
          row <- store (GetGeneration (ej_job_id job) g);
          match row with
          | None => continue
          | Some row =>
              if negb (bool_decide (gr_state row = GenAssigned)) then continue else
              pbind (accept_lease_inner w organization job g now (Some "long-poll")) (λ r,
                match r with
                | Ok lease => sret (inr (Some (job, lease)))
                | Err e =>
                    match e with
                    | LeaseAlreadyTaken _ _ _ _ | NotLeasable _ _ _ | SupersededLease _ _ _
                    | NotAssignedToWorker _ _ _ _ | CapabilityMismatch _ _ | WorkerSaturated _ _ => continue
                    | e => sfail e
                    end
                end)
          end
      end
  end.

Definition claim_next (claim_gate : option bool) (organization : OrganizationId)
    (worker_id : WorkerId) (token : string) (protocol_version : N) :
    Svc (option (ExecutionJob * WorkerLease)) :=
  lift (check_protocol protocol_version) ;;
  w <- authenticate_in organization worker_id token;
  lift (admit_claim claim_gate) ;;
  now <- now_ms;
  r <- scan_jobs (claim_body organization w now) fuel organization None ∅ 0;
  sret (match r with inl _ => None | inr claimed => claimed end).

Fixpoint first_adoptable (organization : OrganizationId) (w : WorkerRegistration) (now : Z)
    (leases : list WorkerLease) : Svc (option (ExecutionJob * WorkerLease)) :=
  match leases with
  | [] => sret None
  | lease :: leases =>
      let continue := first_adoptable organization w now leases in
      if negb (bool_decide (wl_organization_id lease = as_str organization)) then continue
      else if is_expired_at lease now then continue else
      job <- store (GetJob (wl_job_id lease));
      match job with
      | None => continue
      | Some job =>
          if job_is_terminal (ej_state job)
             || negb (bool_decide (ej_current_generation job = wl_generation lease)) then continue
          else if negb (bool_decide (wr_trust_domain w = ej_trust_domain job)) then continue
          else if negb (satisfies (wr_capabilities w) (ej_requirements job)) then continue else
          journal_row (as_str organization) "job_adopted" now (Some (wr_worker_id w))
            (Some (ej_job_id job)) (Some (wl_generation lease))
            ("lease=" ++ as_str (wl_lease_id lease) ++ " adopted from the scheduler's placement") ;;
          sret (Some (job, lease))
      end
  end.
Definition adoptable_lease (organization : OrganizationId) (worker_id : WorkerId) (token : string)
    (protocol_version : N) : Svc (option (ExecutionJob * WorkerLease)) :=
  lift (check_protocol protocol_version) ;;
  w <- authenticate_in organization worker_id token;
  now <- now_ms;
  leases <- store (LiveLeasesOfWorker worker_id);
  first_adoptable organization w now leases.

(** ** Heartbeats *)
Definition heartbeat (organization : OrganizationId) (worker_id : WorkerId) (token : string)
    (protocol_version : N) (lease_id : WorkerLeaseId) (g : JobGeneration) : Svc HeartbeatOutcome :=
  lift (check_protocol protocol_version) ;;
  w <- authenticate_in organization worker_id token;
  now <- now_ms;
  lease <- store (GetLease lease_id);
  match lease with
  | None => sfail (UnknownLease lease_id worker_id)
  | Some lease =>
      if negb (bool_decide (wl_worker_id lease = wr_worker_id w)) then sfail (UnknownLease lease_id worker_id)
      else if negb (bool_decide (wl_generation lease = g)) then
        journal_row (as_str organization) "stale_heartbeat_rejected" now (Some (wr_worker_id w))
          (Some (wl_job_id lease)) (Some g) ("lease generation is " ++ pretty (as_u64 (wl_generation lease))) ;;
        current <- current_generation_of (wl_job_id lease);
        sfail (SupersededLease (as_str (wl_job_id lease)) g
                 (match current with Some c => c | None => wl_generation lease end))
      else
        match wl_state lease with
        | LeaseExpiredS => sfail (LeaseExpired lease_id (wl_expires_at_ms lease))
        | LeaseSuperseded | LeaseRevoked | LeaseCompleted =>
            sfail (LeaseNotLive lease_id (lease_state_str (wl_state lease)))
        | LeaseLive => sret tt
        end ;;
        if is_expired_at lease now then
          end_lease_and_requeue lease LeaseExpiredS "heartbeat expired" now report_new ;;
          sfail (LeaseExpired lease_id (wl_expires_at_ms lease))
        else
          let expires_at := I64.sat_add now (wl_heartbeat_interval_ms lease) in
          renewed <- store (RenewLease lease_id g now expires_at);
          if negb renewed then
            after <- store (GetLease lease_id);
            match after with
            | Some after =>
                if negb (bool_decide (wl_state after = LeaseLive))
                then sfail (LeaseNotLive lease_id (lease_state_str (wl_state after)))
                else sfail (SupersededLease (as_str (wl_job_id after)) g (wl_generation after))
            | None => sfail (UnknownLease lease_id worker_id)
            end
          else
            touched <- store (TouchWorker (wr_worker_id w) now);
            if negb touched then
              after <- store (GetWorker (wr_worker_id w));
              match after with
              | Some after => if wr_revoked after then sfail (WorkerRevoked (wr_worker_id w)) else sfail Backend
              | None => sfail (UnknownWorker (wr_worker_id w))
              end
            else sret (MkHeartbeat lease_id g (wl_heartbeat_interval_ms lease) expires_at)
  end.

(** ** Results *)
Definition outcome_debug (o : JobResultOutcome) : string :=
  match o with Succeeded => "Succeeded" | Failed => "Failed" end.

Definition submit_result_with_claim (organization : OrganizationId) (worker_id : WorkerId)
    (token : string) (protocol_version : N) (job_id : ExecutionJobId) (g : JobGeneration)
    (lease_id : WorkerLeaseId) (digest : string) (outcome : JobResultOutcome)
    (verification : JobVerificationClaim) : Svc ResultAppend :=
  lift (check_protocol protocol_version) ;;
  lift (validate_digest digest) ;;
  match produced_digest verification with
  | Some produced => lift (validate_digest produced)
  | None => sret tt
  end ;;
  w <- authenticate_in organization worker_id token;
  now <- now_ms;
  job <- require_job organization job_id;
  let row kind detail :=
    journal_row (as_str organization) kind now (Some (wr_worker_id w)) (Some (ej_job_id job)) (Some g) detail in
  if negb (bool_decide (ej_current_generation job = g)) then
    row "stale_result_rejected" ("current generation is " ++ pretty (as_u64 (ej_current_generation job))) ;;
    sfail (SupersededLease (as_str (ej_job_id job)) g (ej_current_generation job))
  else if negb (bool_decide (digest = ej_payload_digest job)) then
    row "result_digest_rejected" ("presented digest " ++ digest) ;;
    sfail (DigestMismatch (ej_payload_digest job) digest)
  else
    existing <- store (GetResult job_id g);
    match existing with
    | Some existing =>
        if bool_decide (rs_digest existing = digest)
           && bool_decide (rs_worker_id existing = wr_worker_id w)
           && bool_decide (rs_lease_id existing = lease_id)
           && bool_decide (rs_outcome existing = outcome) then
          row "result_duplicate" ("lease=" ++ as_str lease_id) ;; sret Duplicate
        else
          row "result_conflict_rejected" ("lease=" ++ as_str lease_id) ;;
          sfail (ResultConflict (as_str (ej_job_id job)) g)
    | None =>
        lease <- store (GetLease lease_id);
        match lease with
        | None => sfail (UnknownLease lease_id (wr_worker_id w))
        | Some lease =>
            if negb (bool_decide (wl_worker_id lease = wr_worker_id w))
               || negb (bool_decide (wl_generation lease = g))
            then sfail (UnknownLease lease_id (wr_worker_id w))
            else if negb (bool_decide (wl_state lease = LeaseLive)) then
              row "result_lease_not_live" ("lease state " ++ lease_state_str (wl_state lease)) ;;
              match wl_state lease with
              | LeaseExpiredS => sfail (LeaseExpired lease_id (wl_expires_at_ms lease))
              | state => sfail (LeaseNotLive lease_id (lease_state_str state))
              end
            else if is_expired_at lease now then
              end_lease_and_requeue lease LeaseExpiredS "result after expiry" now report_new ;;
              row "stale_result_rejected" "lease had already expired" ;;
              sfail (LeaseExpired lease_id (wl_expires_at_ms lease))
            else
              landed <- store (LandResult (MkResult (ej_job_id job) g (wr_worker_id w) lease_id digest
                                             outcome now verification));
              match landed with
              | Landed =>
                  row "result_accepted" ("outcome=" ++ outcome_debug outcome ++ " lease=" ++ as_str lease_id) ;;
                  sret Landed
              | Duplicate => row "result_duplicate" ("lease=" ++ as_str lease_id) ;; sret Duplicate
              end
        end
    end.

Definition submit_result (organization : OrganizationId) (worker_id : WorkerId) (token : string)
    (protocol_version : N) (job_id : ExecutionJobId) (g : JobGeneration) (lease_id : WorkerLeaseId)
    (digest : string) (outcome : JobResultOutcome) : Svc ResultAppend :=
  submit_result_with_claim organization worker_id token protocol_version job_id g lease_id digest
    outcome (MkClaim false None).

(** ** Status and recovery *)
Record JobStatus := MkStatus {
  st_job : ExecutionJob; st_generations : list JobGenerationRow; st_attempts : list JobAttempt;
  st_lease : option WorkerLease; st_result : option JobResult }.
Definition job_status (organization : OrganizationId) (job_id : ExecutionJobId) : Svc JobStatus :=
  job <- require_job organization job_id;
  generations <- store (Generations job_id);
  attempts <- store (Attempts job_id);
  lease <- store (LeaseForGeneration job_id (ej_current_generation job));
  result <- store (GetResult job_id (ej_current_generation job));
  sret (MkStatus job generations attempts lease result).

Definition journal_page (organization : OrganizationId) (after_seq : option Z) (limit : N) :
    Svc (list JournalEntry) :=
  store (Journal (as_str organization) after_seq (N.max 1 (N.min limit MAX_JOURNAL_PAGE))).

Definition interrupted_body (organization : OrganizationId) (now : Z) (report : RecoveryReport)
    (raw : string) : Svc (RecoveryReport + Empty_set) :=
  let continue := sret (inl report) in
  job <- indexed_job organization raw;
  match job with
  | None => continue
  | Some job =>
      row <- store (GetGeneration (ej_job_id job) (ej_current_generation job));
      match row with
      | None => continue
      | Some row =>
          if negb (bool_decide (gr_state row = GenLeased)) && negb (bool_decide (gr_state row = GenLost))
          then continue else
          lease <- store (LeaseForGeneration (ej_job_id job) (ej_current_generation job));
          match lease with
          | None => continue
          | Some lease =>
              if bool_decide (wl_state lease = LeaseLive) then continue else
              report <- finish_lost_lease lease "lease loss completed by recovery" now
                          (push_expired (as_str (wl_lease_id lease)) report);
              sret (inl report)
          end
      end
  end.
Definition finish_interrupted_lease_losses (organization : OrganizationId) (now : Z)
    (report : RecoveryReport) : Svc RecoveryReport :=
  r <- scan_jobs (interrupted_body organization now) fuel organization None ∅ report;
  sret (match r with inl report => report | inr x => match x with end end).

Fixpoint sweep_leases (now : Z) (leases : list WorkerLease) (report : RecoveryReport) :
    Svc RecoveryReport :=
  match leases with
  | [] => sret report
  | lease :: leases =>
      report <- (if is_expired_at lease now
                 then end_lease_and_requeue lease LeaseExpiredS "lease expired without heartbeats" now report
                 else sret (push_resumed (as_str (wl_lease_id lease)) report));
      sweep_leases now leases report
  end.
Definition recover (organization : OrganizationId) : Svc RecoveryReport :=
  now <- now_ms;
  leases <- store (LiveLeases (as_str organization));
  report <- sweep_leases now leases report_new;
  finish_interrupted_lease_losses organization now
    (MkReport (merge_sort str_le (rr_resumed report)) (rr_reassigned report) (rr_expired report)
       (rr_requeued report) (rr_exhausted report)).

Definition resume_body (organization : OrganizationId) (now : Z) (report : RecoveryReport)
    (raw : string) : Svc (RecoveryReport + Empty_set) :=
  let continue := sret (inl report) in
  job <- indexed_job organization raw;
  match job with
  | None => continue
  | Some job =>
      leased <- store (LeaseForGeneration (ej_job_id job) (ej_current_generation job));
      match leased with
      | Some _ => continue
      | None =>
          row <- store (GetGeneration (ej_job_id job) (ej_current_generation job));
          match row with
          | None => continue
          | Some row =>
              if negb (bool_decide (gr_state row = GenAssigned)) then continue else
              accepted <- assign organization job now;
              sret (inl (if accepted : bool then push_reassigned (as_str (ej_job_id job)) report else report))
          end
      end
  end.
Definition resume_assignments (organization : OrganizationId) : Svc RecoveryReport :=
  now <- now_ms;
  r <- scan_jobs (resume_body organization now) fuel organization None ∅ report_new;
  sret (match r with
        | inl report => MkReport (rr_resumed report) (merge_sort str_le (rr_reassigned report))
                          (rr_expired report) (rr_requeued report) (rr_exhausted report)
        | inr x => match x with end
        end).
End Plane.

(** ** The machine the plane runs on

    One store, a clock that may jump, and the names minted so far with what
    each is for. *)
Inductive Purpose :=
  | PJob (mk : ExecutionJobId → ExecutionJob)
  | PLease (job : ExecutionJobId) (g : JobGeneration)
  | PToken (organization trust_domain : string).
Record World := MkWorld { w_store : MemoryState; w_now : Z; w_minted : list Purpose }.
Definition empty_world : World := MkWorld empty_state 0 [].

Section Machine.
(** [Uuid::new_v4().simple()] and the 256 random bits of a token. *)
Variable uuid : nat → string.
Variable secret : nat → string.
Variable token_hash_of : string → string.

Definition mint_name (prefix : string) (n : nat) : string := prefix ++ "_" ++ uuid n.

Definition minting (p : Purpose) (name : nat → string) (w : World) : string * World :=
  (name (List.length (w_minted w)), MkWorld (w_store w) (w_now w) (w_minted w ++ [p])%list).
Definition handle {X} (e : Event X) (w : World) : X * World :=
  match e in Event X return X * World with
  | Store c => let '(r, st) := memory c (w_store w) in (r, MkWorld st (w_now w) (w_minted w))
  | Now => (w_now w, w)
  | MintJob mk => minting (PJob mk) (mint_name "job") w
  | MintLease j g => minting (PLease j g) (mint_name "lease") w
  | NewToken o t => minting (PToken o t) secret w
  end.

(** One thread alone, from its first call to its last. *)
Fixpoint run {A} (p : Prog A) (w : World) : option A * World :=
  match p with
  | Ret a => (Some a, w)
  | Halt => (None, w)
  | Call e k => let '(x, w') := handle e w in run (k x) w'
  end.

Inductive PlaneCall :=
  | CMintToken (organization : OrganizationId) (trust_domain label : string)
  | CRevokeToken (organization : OrganizationId) (token_hash : string)
  | CRegister (organization : OrganizationId) (worker_id : WorkerId) (token : string)
      (capabilities : WorkerCapabilities) (display_name : string)
  | CRevokeWorker (organization : OrganizationId) (worker_id : WorkerId)
  | CListWorkers (organization : OrganizationId) (after : option string) (limit : N)
  | CSchedule (organization : OrganizationId) (trust_domain : string) (job_key : JobKey)
      (requirements : JobRequirements) (payload_digest : string) (requeue : RequeuePolicy)
      (assigned_worker : option WorkerId)
  | CAccept (organization : OrganizationId) (worker_id : WorkerId) (token : string)
      (protocol_version : N) (job_id : ExecutionJobId) (g : JobGeneration)
  | CClaim (claim_gate : option bool) (organization : OrganizationId) (worker_id : WorkerId)
      (token : string) (protocol_version : N)
  | CAdopt (organization : OrganizationId) (worker_id : WorkerId) (token : string) (protocol_version : N)
  | CHeartbeat (organization : OrganizationId) (worker_id : WorkerId) (token : string)
      (protocol_version : N) (lease_id : WorkerLeaseId) (g : JobGeneration)
  | CSubmit (organization : OrganizationId) (worker_id : WorkerId) (token : string)
      (protocol_version : N) (job_id : ExecutionJobId) (g : JobGeneration) (lease_id : WorkerLeaseId)
      (digest : string) (outcome : JobResultOutcome) (verification : JobVerificationClaim)
  | CStatus (organization : OrganizationId) (job_id : ExecutionJobId)
  | CRecover (organization : OrganizationId)
  | CResume (organization : OrganizationId).

Definition quiet {A} (p : Prog A) : Prog unit := pbind p (λ _, Ret tt).
Definition run_call (fuel : nat) (c : PlaneCall) : Prog unit :=
  match c with
  | CMintToken o t l => quiet (mint_registration_token token_hash_of o t l)
  | CRevokeToken o h => quiet (revoke_token o h)
  | CRegister o w t c d => quiet (register token_hash_of o w t c d)
  | CRevokeWorker o w => quiet (revoke_worker fuel o w)
  | CListWorkers o a n => quiet (list_workers o a n)
  | CSchedule o t k r d q a => quiet (schedule_job fuel o t k r d q a)
  | CAccept o w t v j g => quiet (accept_lease token_hash_of o w t v j g)
  | CClaim gate o w t v => quiet (claim_next token_hash_of fuel gate o w t v)
  | CAdopt o w t v => quiet (adoptable_lease token_hash_of o w t v)
  | CHeartbeat o w t v l g => quiet (heartbeat token_hash_of fuel o w t v l g)
  | CSubmit o w t v j g l d r c => quiet (submit_result_with_claim token_hash_of fuel o w t v j g l d r c)
  | CStatus o j => quiet (job_status o j)
  | CRecover o => quiet (recover fuel o)
  | CResume o => quiet (resume_assignments fuel o)
  end.

(** Any number of methods in flight, each call atomic; a process may die and
    the clock may jump at any time. *)
Record System := MkSystem { sys_world : World; sys_threads : list (Prog unit) }.
Inductive step : System → System → Prop :=
  | step_spawn fuel c w ts :
      step (MkSystem w ts) (MkSystem w (run_call fuel c :: ts))
  | step_call {X} i (e : Event X) k x w w' ts :
      ts !! i = Some (Call e k) → handle e w = (x, w') →
      step (MkSystem w ts) (MkSystem w' (<[i := k x]> ts))
  | step_die i w ts : step (MkSystem w ts) (MkSystem w (delete i ts))
  | step_clock t w ts :
      step (MkSystem w ts) (MkSystem (MkWorld (w_store w) t (w_minted w)) ts).
Definition reachable (s : System) : Prop := rtc step (MkSystem empty_world []) s.
End Machine.
