(* ===== verification/WorkerInv.v ===== *)
(** * The invariant of the worker plane's store

    [Inv] holds of every store the plane can reach, [evolves] relates every
    store to every later one, and [op_pre] says what a caller of a store
    method has to know for the two to be kept.  What it has to know is always
    a fact that no later call can falsify. *)
From S2P Require Import Prelude Strings Effects WorkerModel WorkerStore WorkerPlane.
From stdpp Require Import sorting.
#[local] Open Scope string_scope.
#[local] Open Scope N_scope.

(** ** Rows that are versions of one another *)
Record same_job (a b : ExecutionJob) : Prop := {
  sj_id : ej_job_id a = ej_job_id b;
  sj_org : ej_organization_id a = ej_organization_id b;
  sj_domain : ej_trust_domain a = ej_trust_domain b;
  sj_key : ej_job_key a = ej_job_key b;
  sj_reqs : ej_requirements a = ej_requirements b;
  sj_digest : ej_payload_digest a = ej_payload_digest b;
  sj_requeue : ej_requeue a = ej_requeue b;
  sj_assigned : ej_assigned_worker a = ej_assigned_worker b }.
Record same_lease (a b : WorkerLease) : Prop := {
  sl_id : wl_lease_id a = wl_lease_id b;
  sl_org : wl_organization_id a = wl_organization_id b;
  sl_job : wl_job_id a = wl_job_id b;
  sl_gen : wl_generation a = wl_generation b;
  sl_worker : wl_worker_id a = wl_worker_id b }.
Record same_worker (a b : WorkerRegistration) : Prop := {
  sw_id : wr_worker_id a = wr_worker_id b;
  sw_org : wr_organization_id a = wr_organization_id b;
  sw_domain : wr_trust_domain a = wr_trust_domain b;
  sw_hash : wr_token_hash a = wr_token_hash b }.
Record same_token (a b : WorkerTokenRow) : Prop := {
  st_hash : tk_token_hash a = tk_token_hash b;
  st_org : tk_organization_id a = tk_organization_id b;
  st_domain : tk_trust_domain a = tk_trust_domain b }.

#[global] Instance same_job_equiv : Equivalence same_job.
Proof. split; [done|by intros ?? []|]. intros ??? [] []. split; congruence. Qed.
#[global] Instance same_lease_equiv : Equivalence same_lease.
Proof. split; [done|by intros ?? []|]. intros ??? [] []. split; congruence. Qed.
#[global] Instance same_worker_equiv : Equivalence same_worker.
Proof. split; [done|by intros ?? []|]. intros ??? [] []. split; congruence. Qed.
#[global] Instance same_token_equiv : Equivalence same_token.
Proof. split; [done|by intros ?? []|]. intros ??? [] []. split; congruence. Qed.

Notation current j := (as_u64 (ej_current_generation j)).
(** A job with an assigned worker is for that worker only. *)
Definition may_take (assigned : option WorkerId) (u : WorkerId) : bool :=
  match assigned with Some v => bool_decide (v = u) | None => true end.

Notation lease_key l := (gen_key (wl_job_id l) (wl_generation l)).
Notation result_key r := (gen_key (rs_job_id r) (rs_generation r)).

(** ** What later stores keep *)
Record evolves (w w' : World) : Prop := {
  ev_workers : ∀ k a, ms_workers (w_store w) !! k = Some a →
    ∃ b, ms_workers (w_store w') !! k = Some b ∧ same_worker a b
         ∧ (wr_revoked a = true → wr_revoked b = true);
  ev_tokens : ∀ k a, ms_tokens (w_store w) !! k = Some a →
    ∃ b, ms_tokens (w_store w') !! k = Some b ∧ same_token a b;
  ev_jobs : ∀ k a, ms_jobs (w_store w) !! k = Some a →
    ∃ b, ms_jobs (w_store w') !! k = Some b ∧ same_job a b ∧ current a <= current b;
  ev_gens : ∀ k a, ms_generations (w_store w) !! k = Some a →
    ∃ b, ms_generations (w_store w') !! k = Some b
         ∧ (gen_is_terminal (gr_state a) = true → gr_state b = gr_state a)
         ∧ (gr_state a ≠ GenAssigned → gr_state b ≠ GenAssigned);
  ev_leases : ∀ k a, ms_leases (w_store w) !! k = Some a →
    ∃ b, ms_leases (w_store w') !! k = Some b ∧ same_lease a b
         ∧ (wl_state a ≠ LeaseLive → wl_state b = wl_state a);
  ev_results : ms_results (w_store w) ⊆ ms_results (w_store w');
  ev_journal : ms_journal (w_store w) `prefix_of` ms_journal (w_store w');
  ev_minted : w_minted w `prefix_of` w_minted w' }.

#[global] Instance evolves_refl : Reflexive evolves.
Proof.
  intros w. split; try done; intros k a Ha; exists a; (split; [done|]); try split; try done; lia.
Qed.
#[global] Instance evolves_trans : Transitive evolves.
Proof.
  intros w1 w2 w3 H1 H2. split.
  - intros k a Ha. destruct (ev_workers _ _ H1 _ _ Ha) as (b & Hb & ? & ?).
    destruct (ev_workers _ _ H2 _ _ Hb) as (c & Hc & ? & ?). exists c. split_and!; [done|by etrans|auto].
  - intros k a Ha. destruct (ev_tokens _ _ H1 _ _ Ha) as (b & Hb & ?).
    destruct (ev_tokens _ _ H2 _ _ Hb) as (c & Hc & ?). exists c. split; [done|by etrans].
  - intros k a Ha. destruct (ev_jobs _ _ H1 _ _ Ha) as (b & Hb & ? & ?).
    destruct (ev_jobs _ _ H2 _ _ Hb) as (c & Hc & ? & ?). exists c. split_and!; [done|by etrans|lia].
  - intros k a Ha. destruct (ev_gens _ _ H1 _ _ Ha) as (b & Hb & Ht & ?).
    destruct (ev_gens _ _ H2 _ _ Hb) as (c & Hc & Ht' & ?). exists c. split_and!; [done| |auto].
    intros Hx. pose proof (Ht Hx) as E. rewrite <- E. apply Ht'. by rewrite E.
  - intros k a Ha. destruct (ev_leases _ _ H1 _ _ Ha) as (b & Hb & ? & Ht).
    destruct (ev_leases _ _ H2 _ _ Hb) as (c & Hc & ? & Ht'). exists c. split_and!; [done|by etrans|].
    intros Hx. pose proof (Ht Hx) as E. rewrite <- E. apply Ht'. by rewrite E.
  - by rewrite (ev_results _ _ H1), (ev_results _ _ H2).
  - by rewrite (ev_journal _ _ H1), (ev_journal _ _ H2).
  - by rewrite (ev_minted _ _ H1), (ev_minted _ _ H2).
Qed.

(** ** Facts no later call falsifies *)
Definition worker_known (a : WorkerRegistration) (w : World) : Prop :=
  ∃ b, ms_workers (w_store w) !! as_str (wr_worker_id a) = Some b ∧ same_worker a b.
Definition token_known (a : WorkerTokenRow) (w : World) : Prop :=
  ∃ b, ms_tokens (w_store w) !! tk_token_hash a = Some b ∧ same_token a b.
Definition job_known (a : ExecutionJob) (w : World) : Prop :=
  ∃ b, ms_jobs (w_store w) !! as_str (ej_job_id a) = Some b ∧ same_job a b ∧ current a <= current b.
Definition gen_terminal (k : string * N) (w : World) : Prop :=
  ∃ b, ms_generations (w_store w) !! k = Some b ∧ gen_is_terminal (gr_state b) = true.
(** The lease is over. *)
Definition lease_over (a : WorkerLease) (w : World) : Prop :=
  ∃ b, ms_leases (w_store w) !! as_str (wl_lease_id a) = Some b ∧ same_lease a b
       ∧ wl_state b ≠ LeaseLive.
(** Every landed result was landed under a lease of its own job. *)
Definition own_results (w : World) : Prop :=
  ∀ k r l, ms_results (w_store w) !! k = Some r →
    ms_leases (w_store w) !! as_str (rs_lease_id r) = Some l → wl_job_id l = rs_job_id r.
(** The lease is over and, unless some result is foreign, without a result. *)
Definition lease_lost (a : WorkerLease) (w : World) : Prop :=
  ∃ b, ms_leases (w_store w) !! as_str (wl_lease_id a) = Some b ∧ same_lease a b
       ∧ wl_state b ≠ LeaseLive ∧ (own_results w → wl_state b ≠ LeaseCompleted).
(** The highest attempt number read for a job at its generation [c]. *)
Definition attempts_read (a : ExecutionJob) (n : N) (w : World) : Prop :=
  ∃ b, ms_jobs (w_store w) !! as_str (ej_job_id a) = Some b ∧ current a <= n <= current b.
Definition scheduled (id : ExecutionJobId) (organization : string) (w : World) : Prop :=
  ∃ e, e ∈ ms_journal (w_store w) ∧ je_kind e = "job_scheduled"
       ∧ je_organization_id e = organization ∧ je_job_id e = Some (as_str id).
Definition minted_for (n : nat) (p : Purpose) (w : World) : Prop := w_minted w !! n = Some p.

Definition lease_known (a : WorkerLease) (w : World) : Prop :=
  ∃ b, ms_leases (w_store w) !! as_str (wl_lease_id a) = Some b ∧ same_lease a b.
(** The job is the one its name was minted for. *)
Definition job_spec (uuid : nat → string) (a : ExecutionJob) (w : World) : Prop :=
  ∃ n mk, as_str (ej_job_id a) = mint_name uuid "job" n ∧ minted_for n (PJob mk) w
          ∧ same_job (mk (ej_job_id a)) a.

(** The lease, its job and its worker belong together. *)
Definition lease_home (a : WorkerLease) (w : World) : Prop :=
  ∃ j r, ms_jobs (w_store w) !! as_str (wl_job_id a) = Some j
    ∧ ms_workers (w_store w) !! as_str (wl_worker_id a) = Some r
    ∧ wl_organization_id a = ej_organization_id j ∧ as_u64 (wl_generation a) <= current j
    ∧ wr_organization_id r = ej_organization_id j ∧ wr_trust_domain r = ej_trust_domain j
    ∧ may_take (ej_assigned_worker j) (wl_worker_id a) = true.
(** The result, its job and its worker belong together. *)
Definition result_home (k : string * N) (r : JobResult) (w : World) : Prop :=
  ∃ j u, ms_jobs (w_store w) !! k.1 = Some j ∧ k.2 <= current j ∧ rs_digest r = ej_payload_digest j
    ∧ ms_workers (w_store w) !! as_str (rs_worker_id r) = Some u
    ∧ wr_organization_id u = ej_organization_id j.

Definition stable (P : World → Prop) : Prop := ∀ w w', evolves w w' → P w → P w'.

Lemma own_results_earlier w w' : evolves w w' → own_results w' → own_results w.
Proof.
  intros Hev H k r l Hr Hk. destruct (ev_leases _ _ Hev _ _ Hk) as (l' & Hk' & Hs & _).
  rewrite (sl_job _ _ Hs). eapply H; [|done]. eapply lookup_weaken; [done|apply Hev].
Qed.

Section Stable.
Lemma worker_known_stable a : stable (worker_known a).
Proof.
  intros w w' Hev (b & Hb & Hs). destruct (ev_workers _ _ Hev _ _ Hb) as (c & Hc & Hs' & _).
  exists c. split; [done|by etrans].
Qed.
Lemma token_known_stable a : stable (token_known a).
Proof.
  intros w w' Hev (b & Hb & Hs). destruct (ev_tokens _ _ Hev _ _ Hb) as (c & Hc & Hs').
  exists c. split; [done|by etrans].
Qed.
Lemma job_known_stable a : stable (job_known a).
Proof.
  intros w w' Hev (b & Hb & Hs & Hg). destruct (ev_jobs _ _ Hev _ _ Hb) as (c & Hc & Hs' & Hg').
  exists c. split_and!; [done|by etrans|lia].
Qed.
Lemma gen_terminal_stable k : stable (gen_terminal k).
Proof.
  intros w w' Hev (b & Hb & Ht). destruct (ev_gens _ _ Hev _ _ Hb) as (c & Hc & Ht' & _).
  exists c. split; [done|by rewrite Ht'].
Qed.
Lemma lease_over_stable a : stable (lease_over a).
Proof.
  intros w w' Hev (b & Hb & Hs & Ht). destruct (ev_leases _ _ Hev _ _ Hb) as (c & Hc & Hs' & Ht').
  exists c. split_and!; [done|by etrans|by rewrite Ht'].
Qed.
Lemma lease_lost_stable a : stable (lease_lost a).
Proof.
  intros w w' Hev (b & Hb & Hs & Ht & Hn). destruct (ev_leases _ _ Hev _ _ Hb) as (c & Hc & Hs' & Ht').
  exists c. rewrite (Ht' Ht). split_and!; [done|by etrans|done|].
  intros H. by eapply Hn, own_results_earlier.
Qed.
Lemma attempts_read_stable a n : stable (attempts_read a n).
Proof.
  intros w w' Hev (b & Hb & Hn). destruct (ev_jobs _ _ Hev _ _ Hb) as (c & Hc & _ & Hg).
  exists c. split; [done|lia].
Qed.
Lemma scheduled_stable id org : stable (scheduled id org).
Proof.
  intros w w' Hev (e & He & H). exists e. split; [|done].
  destruct (ev_journal _ _ Hev) as [l ->]. by apply elem_of_app; left.
Qed.
Lemma minted_for_stable n p : stable (minted_for n p).
Proof. intros w w' Hev H. unfold minted_for in *. by eapply prefix_lookup_Some, Hev. Qed.
Lemma lease_known_stable a : stable (lease_known a).
Proof.
  intros w w' Hev (b & Hb & Hs). destruct (ev_leases _ _ Hev _ _ Hb) as (c & Hc & Hs' & _).
  exists c. split; [done|by etrans].
Qed.
Lemma job_spec_stable uuid a : stable (job_spec uuid a).
Proof.
  intros w w' Hev (n & mk & ? & ? & ?). exists n, mk. split_and!; [done|by eapply minted_for_stable|done].
Qed.
Lemma job_spec_same uuid a b w : same_job a b → job_spec uuid a w → job_spec uuid b w.
Proof.
  intros Hs (n & mk & Hn & Hm & Hk). exists n, mk. rewrite <- (sj_id _ _ Hs).
  split_and!; [done..|by etrans].
Qed.
Lemma lease_home_stable a : stable (lease_home a).
Proof.
  intros w w' Hev (j & r & Hj & Hr & ? & ? & ? & ? & ?).
  destruct (ev_jobs _ _ Hev _ _ Hj) as (j' & ? & [] & ?), (ev_workers _ _ Hev _ _ Hr) as (r' & ? & [] & _).
  exists j', r'. split_and!; [done|done|congruence|lia|congruence..].
Qed.
Lemma lease_home_same a b w : same_lease a b → lease_home a w → lease_home b w.
Proof. intros []. unfold lease_home. by rewrite <- sl_org0, <- sl_job0, <- sl_gen0, <- sl_worker0. Qed.
Lemma result_home_stable k r : stable (result_home k r).
Proof.
  intros w w' Hev (j & u & Hj & ? & ? & Hu & ?).
  destruct (ev_jobs _ _ Hev _ _ Hj) as (j' & ? & [] & ?), (ev_workers _ _ Hev _ _ Hu) as (u' & ? & [] & _).
  exists j', u'. split_and!; [done|lia|congruence|done|congruence].
Qed.
End Stable.
Create HintDb plane.
#[export] Hint Resolve worker_known_stable token_known_stable job_known_stable gen_terminal_stable
  lease_over_stable lease_lost_stable attempts_read_stable scheduled_stable minted_for_stable
  lease_known_stable job_spec_stable lease_home_stable result_home_stable : plane.

Lemma lost_over a w : lease_lost a w → lease_over a w.
Proof. intros (b & ? & ? & ? & ?). by exists b. Qed.
#[export] Hint Resolve lost_over : plane.

(** ** The invariant *)
Section Invariant.
Variable uuid : nat → string.
Variable secret : nat → string.
Variable token_hash_of : string → string.
Hypothesis uuid_inj : ∀ n m, uuid n = uuid m → n = m.
Hypothesis secret_inj : ∀ n m, token_hash_of (secret n) = token_hash_of (secret m) → n = m.
Notation lease_name := (mint_name uuid "lease").

Lemma lease_name_inj n m : lease_name n = lease_name m → n = m.
Proof using uuid_inj. unfold mint_name. cbn. intros [= H]. by apply uuid_inj. Qed.

Record Inv (w : World) : Prop := {
  inv_worker : ∀ k a, ms_workers (w_store w) !! k = Some a →
    k = as_str (wr_worker_id a)
    ∧ ∃ t, ms_tokens (w_store w) !! wr_token_hash a = Some t
           ∧ tk_organization_id t = wr_organization_id a ∧ tk_trust_domain t = wr_trust_domain a;
  inv_token : ∀ k a, ms_tokens (w_store w) !! k = Some a →
    k = tk_token_hash a
    ∧ ∃ n, k = token_hash_of (secret n)
           ∧ minted_for n (PToken (tk_organization_id a) (tk_trust_domain a)) w;
  inv_job : ∀ k a, ms_jobs (w_store w) !! k = Some a →
    k = as_str (ej_job_id a)
    ∧ 1 <= current a <= max_attempts (ej_requeue a) ∧ max_attempts (ej_requeue a) <= MAX_REQUEUE_ATTEMPTS
    ∧ scheduled (ej_job_id a) (ej_organization_id a) w;
  inv_spec : ∀ k a, ms_jobs (w_store w) !! k = Some a → job_spec uuid a w;
  inv_gen : ∀ k a, ms_generations (w_store w) !! k = Some a →
    k = gen_key (gr_job_id a) (gr_generation a)
    ∧ gr_state a ≠ GenSuperseded ∧ gr_state a ≠ GenFailed
    ∧ ∃ j, ms_jobs (w_store w) !! k.1 = Some j ∧ 1 <= k.2 <= current j
           ∧ (k.2 < current j → gen_is_terminal (gr_state a) = true);
  inv_gens : ∀ k j n, ms_jobs (w_store w) !! k = Some j → 1 <= n <= current j →
    is_Some (ms_generations (w_store w) !! (k, n));
  inv_attempt : ∀ k a, ms_attempts (w_store w) !! k = Some a →
    k = (gen_key (ja_job_id a) (ja_generation a), ja_attempt a)
    ∧ k.2 = k.1.2 ∧ is_Some (ms_generations (w_store w) !! k.1);
  inv_attempts : ∀ k, is_Some (ms_generations (w_store w) !! k) →
    is_Some (ms_attempts (w_store w) !! (k, k.2));
  inv_lease : ∀ k a, ms_leases (w_store w) !! k = Some a →
    k = as_str (wl_lease_id a) ∧ wl_state a ≠ LeaseSuperseded
    ∧ (∃ n, k = lease_name n ∧ minted_for n (PLease (wl_job_id a) (wl_generation a)) w)
    ∧ lease_home a w;
  inv_unique : ∀ k k' a a', ms_leases (w_store w) !! k = Some a → ms_leases (w_store w) !! k' = Some a' →
    lease_key a = lease_key a' → k = k';
  inv_assigned : ∀ k a i l, ms_generations (w_store w) !! k = Some a → gr_state a = GenAssigned →
    ms_leases (w_store w) !! i = Some l → lease_key l ≠ k;
  inv_leased : ∀ k a, ms_generations (w_store w) !! k = Some a →
    gr_state a = GenLeased ∨ gr_state a = GenLost →
    ∃ i l, ms_leases (w_store w) !! i = Some l ∧ lease_key l = k
           ∧ (gr_state a = GenLost → wl_state l ≠ LeaseLive);
  inv_result : ∀ k r, ms_results (w_store w) !! k = Some r →
    k = result_key r ∧ gen_terminal k w
    ∧ (∃ l, ms_leases (w_store w) !! as_str (rs_lease_id r) = Some l ∧ wl_worker_id l = rs_worker_id r
            ∧ wl_generation l = rs_generation r ∧ wl_state l = LeaseCompleted)
    ∧ result_home k r w;
  inv_completed : ∀ k j a, ms_jobs (w_store w) !! k = Some j →
    ms_generations (w_store w) !! (k, current j) = Some a → gr_state a = GenCompleted →
    job_is_terminal (ej_state j) = true;
  inv_own_lease : own_results w → ∀ k l, ms_leases (w_store w) !! k = Some l →
    wl_state l = LeaseCompleted →
    ∃ r, ms_results (w_store w) !! lease_key l = Some r ∧ rs_lease_id r = wl_lease_id l;
  inv_own_result : own_results w → ∀ k r, ms_results (w_store w) !! k = Some r →
    ∃ j, ms_jobs (w_store w) !! k.1 = Some j ∧ k.2 = current j ∧ ej_state j = JobCompleted;
  inv_own_job : own_results w → ∀ k j, ms_jobs (w_store w) !! k = Some j →
    ej_state j = JobCompleted → is_Some (ms_results (w_store w) !! (k, current j)) }.

(** A step of the store that keeps both. *)
Definition keeps (w w' : World) : Prop := evolves w w' ∧ Inv w'.
Definition upd (f : MemoryState → MemoryState) (w : World) : World :=
  MkWorld (f (w_store w)) (w_now w) (w_minted w).

Lemma keeps_refl w : Inv w → keeps w w.
Proof using. by split. Qed.
Lemma keeps_trans w1 w2 w3 : keeps w1 w2 → keeps w2 w3 → keeps w1 w3.
Proof using. intros [? _] [? ?]. split; [by etrans|done]. Qed.

Lemma inv_empty : Inv empty_world.
Proof using. split; cbn; intros; destruct_and?; simplify_map_eq; try done; by edestruct is_Some_None. Qed.

(** Minting a name, or a jump of the clock. *)
Lemma keeps_minted p t w : Inv w → keeps w (MkWorld (w_store w) t (w_minted w ++ p)%list).
Proof using.
  intros Hi. assert (evolves w (MkWorld (w_store w) t (w_minted w ++ p)%list)) as Hev.
  { destruct (reflexivity w : evolves w w). split; try done; cbn. by apply prefix_app_r. }
  split; [done|]. destruct Hi. split; try done; cbn.
  - intros k a Ha. destruct (inv_token0 _ _ Ha) as (? & n & ? & ?). split; [done|]. exists n.
    split; [done|]. by eapply minted_for_stable.
  - intros k a Ha. by eapply job_spec_stable, inv_spec0.
  - intros k a Ha. destruct (inv_lease0 _ _ Ha) as (? & ? & (n & ? & ?) & ?). split_and!; [done..| |done].
    exists n. split; [done|]. by eapply minted_for_stable.
Qed.

(** The journal only feeds [scheduled]. *)
Lemma keeps_push e w : Inv w → keeps w (upd (push_entry e) w).
Proof using.
  intros Hi. assert (evolves w (upd (push_entry e) w)) as Hev.
  { destruct (reflexivity w : evolves w w). split; try done; cbn. by apply prefix_app_r. }
  split; [done|]. destruct Hi. split; try done; cbn.
  intros k a Ha. destruct (inv_job0 _ _ Ha) as (? & [? ?] & ? & ?). split_and!; [done..|].
  by eapply scheduled_stable.
Qed.

(** An attempt row in another state. *)
Lemma keeps_attempt k a b w :
  Inv w → ms_attempts (w_store w) !! k = Some a → ja_job_id b = ja_job_id a →
  ja_generation b = ja_generation a → ja_attempt b = ja_attempt a →
  keeps w (upd (on_attempts <[k := b]>) w).
Proof using.
  intros Hi Ha H1 H2 H3. assert (evolves w (upd (on_attempts <[k := b]>) w)) as Hev.
  { destruct (reflexivity w : evolves w w). by split. }
  split; [done|]. destruct Hi. split; try done; cbn.
  - intros k' a' [[<- <-]|[_ Ha']]%lookup_insert_Some; [|by apply inv_attempt0].
    rewrite H1, H2, H3. by apply inv_attempt0.
  - intros k' Hk'. apply lookup_insert_is_Some'. right. by apply inv_attempts0.
Qed.

(** A worker row whose token vouches for it. *)
Lemma keeps_worker b t w :
  Inv w → ms_tokens (w_store w) !! wr_token_hash b = Some t →
  tk_organization_id t = wr_organization_id b → tk_trust_domain t = wr_trust_domain b →
  (∀ a, ms_workers (w_store w) !! as_str (wr_worker_id b) = Some a →
    wr_token_hash a = wr_token_hash b ∧ (wr_revoked a = true → wr_revoked b = true)) →
  keeps w (upd (on_workers <[as_str (wr_worker_id b) := b]>) w).
Proof using.
  intros Hi Ht Ho Hd Hb.
  assert (∀ a, ms_workers (w_store w) !! as_str (wr_worker_id b) = Some a → same_worker a b) as Hs.
  { intros a Ha. destruct (Hb a Ha) as [Hh _]. destruct (inv_worker _ Hi _ _ Ha) as (Hk & t' & Ht' & ? & ?).
    rewrite Hh in Ht'. simplify_eq. split; [by apply as_str_inj|congruence..]. }
  assert (evolves w (upd (on_workers <[as_str (wr_worker_id b) := b]>) w)) as Hev.
  { destruct (reflexivity w : evolves w w). split; try done; cbn. intros k a Ha.
    destruct (decide (k = as_str (wr_worker_id b))) as [->|Hn].
    - exists b. split_and!; [apply lookup_insert_eq|by apply Hs|by apply Hb].
    - exists a. by rewrite lookup_insert_ne. }
  split; [done|]. destruct Hi. split; try done; cbn.
  - intros k a [[<- <-]|[_ Ha]]%lookup_insert_Some; [|by apply inv_worker0]. split; [done|by exists t].
  - intros k a Ha. destruct (inv_lease0 _ _ Ha) as (? & ? & ? & ?).
    split_and!; [done..|by eapply lease_home_stable].
  - intros k r Ha. destruct (inv_result0 _ _ Ha) as (? & ? & ? & ?).
    split_and!; [done..|by eapply result_home_stable].
Qed.

(** A token row, under a hash that was minted for its organization. *)
Lemma keeps_token b n w :
  Inv w → tk_token_hash b = token_hash_of (secret n) →
  minted_for n (PToken (tk_organization_id b) (tk_trust_domain b)) w →
  keeps w (upd (on_tokens <[tk_token_hash b := b]>) w).
Proof using secret_inj.
  intros Hi Hn Hm.
  assert (∀ a, ms_tokens (w_store w) !! tk_token_hash b = Some a → same_token a b) as Hs.
  { intros a Ha. destruct (inv_token _ Hi _ _ Ha) as (Hk & m & Hm' & Hf).
    rewrite Hn in Hm'. apply secret_inj in Hm' as <-. unfold minted_for in *. split; congruence. }
  assert (evolves w (upd (on_tokens <[tk_token_hash b := b]>) w)) as Hev.
  { destruct (reflexivity w : evolves w w). split; try done; cbn. intros k a Ha.
    destruct (decide (k = tk_token_hash b)) as [->|Hne].
    - exists b. split; [apply lookup_insert_eq|by apply Hs].
    - exists a. by rewrite lookup_insert_ne. }
  split; [done|]. destruct Hi. split; try done; cbn.
  - intros k a Ha. destruct (inv_worker0 _ _ Ha) as (? & t & Ht & ? & ?). split; [done|].
    destruct (ev_tokens _ _ Hev _ _ Ht) as (t' & Ht' & []). exists t'. cbn in Ht'.
    split_and!; [done|congruence|congruence].
  - intros k a [[<- <-]|[_ Ha]]%lookup_insert_Some; [|by apply inv_token0]. split; [done|by exists n].
Qed.

(** A lease row in another state: renewed, or ended without a result. *)
Lemma keeps_lease k a b w :
  Inv w → ms_leases (w_store w) !! k = Some a → same_lease a b → wl_state a = LeaseLive →
  wl_state b ≠ LeaseCompleted → wl_state b ≠ LeaseSuperseded →
  keeps w (upd (on_leases <[k := b]>) w).
Proof using.
  intros Hi Ha Hs Hl Hnc Hns.
  assert (evolves w (upd (on_leases <[k := b]>) w)) as Hev.
  { destruct (reflexivity w : evolves w w). split; try done; cbn. intros k' a' Ha'.
    destruct (decide (k' = k)) as [->|Hne].
    - simplify_eq. exists b. split_and!; [apply lookup_insert_eq|done|congruence].
    - exists a'. by rewrite lookup_insert_ne. }
  split; [done|]. pose proof (own_results_earlier _ _ Hev) as Hown. destruct Hi, Hs. split; try done; cbn.
  - intros k' a' [[<- <-]|[_ Ha']]%lookup_insert_Some; [|by apply inv_lease0].
    destruct (inv_lease0 _ _ Ha) as (? & ? & ? & ?). rewrite <- sl_id0, <- sl_job0, <- sl_gen0.
    split_and!; [done..|].
    apply (lease_home_stable b _ _ Hev), (lease_home_same a); [by split|done].
  - intros k1 k2 a1 a2 [[<- <-]|[_ H1]]%lookup_insert_Some [[<- <-]|[_ H2]]%lookup_insert_Some;
      rewrite <- ?sl_job0, <- ?sl_gen0; eauto.
  - intros k' g i l Hg Hst [[<- <-]|[_ Hi']]%lookup_insert_Some; [|by eapply inv_assigned0].
    rewrite <- sl_job0, <- sl_gen0. by eapply inv_assigned0.
  - intros k' g Hg Hst. destruct (inv_leased0 _ _ Hg Hst) as (i & l & Hi' & Hk & Hn).
    destruct (decide (i = k)) as [->|Hne].
    + simplify_eq. exists k, b. rewrite lookup_insert_eq, <- sl_job0, <- sl_gen0. split_and!; [done..|].
      intros Hlost. by apply Hn in Hlost.
    + exists i, l. by rewrite lookup_insert_ne.
  - intros k' r Hr. destruct (inv_result0 _ _ Hr) as (? & ? & (l & Hl' & ? & ? & ?) & ?).
    split_and!; [done|done| |done]. exists l. rewrite lookup_insert_ne; [done|]. intros ->. congruence.
  - intros Ho k' l [[<- <-]|[_ Hl']]%lookup_insert_Some Hc; [done|]. by eapply inv_own_lease0; [apply Hown|..].
  - intros Ho. by apply inv_own_result0, Hown.
  - intros Ho. by apply inv_own_job0, Hown.
Qed.

(** A leased generation whose lease is over is lost. *)
Lemma keeps_lost k a b i l w :
  Inv w → ms_generations (w_store w) !! k = Some a → gr_state a = GenLeased →
  gr_state b = GenLost → gr_job_id b = gr_job_id a → gr_generation b = gr_generation a →
  ms_leases (w_store w) !! i = Some l → lease_key l = k → wl_state l ≠ LeaseLive →
  keeps w (upd (on_generations <[k := b]>) w).
Proof using.
  intros Hi Ha Hst Hb Hj Hg Hl Hk Hn.
  assert (evolves w (upd (on_generations <[k := b]>) w)) as Hev.
  { destruct (reflexivity w : evolves w w). split; try done; cbn. intros k' a' Ha'.
    destruct (decide (k' = k)) as [->|Hne].
    - simplify_eq. exists b. rewrite lookup_insert_eq, Hst, Hb. by split_and!.
    - exists a'. by rewrite lookup_insert_ne. }
  split; [done|]. destruct Hi. split; try done; cbn.
  - intros k' a' [[<- <-]|[_ Ha']]%lookup_insert_Some; [|by apply inv_gen0].
    destruct (inv_gen0 _ _ Ha) as (? & _ & _ & j & ? & ? & _). rewrite Hj, Hg, Hb. split_and!; [done..|].
    by exists j.
  - intros k' j n Hj' Hn'. apply lookup_insert_is_Some'. right. by eapply inv_gens0.
  - intros k' a' Ha'. destruct (inv_attempt0 _ _ Ha') as (? & ? & ?). split_and!; [done..|].
    by apply lookup_insert_is_Some'; right.
  - intros k' Hk'. apply inv_attempts0. apply lookup_insert_is_Some' in Hk' as [<-|?]; [by eexists|done].
  - intros k' a' i' l' [[<- <-]|[_ Ha']]%lookup_insert_Some Hs' Hl'; [congruence|by eapply inv_assigned0].
  - intros k' a' [[<- <-]|[_ Ha']]%lookup_insert_Some Hs'; [by exists i, l|by apply inv_leased0].
  - intros k' r Hr. destruct (inv_result0 _ _ Hr) as (? & ? & ? & ?). split_and!; [done| |done..].
    by eapply gen_terminal_stable.
  - intros k' j a' Hj' [[Hk' <-]|[_ Ha']]%lookup_insert_Some Hs'; [congruence|by eapply inv_completed0].
Qed.

(** A job whose current lease was lost is given up. *)
Lemma keeps_failed k a l w :
  Inv w → ms_jobs (w_store w) !! k = Some a → lease_lost l w → lease_key l = (k, current a) →
  keeps w (upd (on_jobs <[k := job_at (ej_current_generation a) JobFailed a]>) w).
Proof using.
  intros Hi Ha (l' & Hl & Hs & Hn & Hc) Hk. destruct Hs.
  set (b := job_at _ _ _). assert (same_job a b) as Hs by done.
  assert (evolves w (upd (on_jobs <[k := b]>) w)) as Hev.
  { destruct (reflexivity w : evolves w w). split; try done; cbn. intros k' a' Ha'.
    destruct (decide (k' = k)) as [->|Hne].
    - simplify_eq. exists b. rewrite lookup_insert_eq. by split_and!.
    - exists a'. rewrite lookup_insert_ne by done. by split_and!. }
  assert (∀ k' j, ms_jobs (w_store w) !! k' = Some j →
    ∃ j', <[k := b]> (ms_jobs (w_store w)) !! k' = Some j' ∧ same_job j j' ∧ current j' = current j) as Hjob.
  { intros k' j Hj. destruct (decide (k' = k)) as [->|Hne].
    - exists b. simplify_eq. by rewrite lookup_insert_eq.
    - exists j. by rewrite lookup_insert_ne. }
  split; [done|]. destruct Hi. split; try done; cbn.
  - intros k' a' [[<- <-]|[_ Ha']]%lookup_insert_Some; [by apply (inv_job0 _ a)|by apply inv_job0].
  - intros k' a' [[<- <-]|[_ Ha']]%lookup_insert_Some; [by apply (job_spec_same _ a), inv_spec0 with k|by eapply inv_spec0].
  - intros k' g Hg. destruct (inv_gen0 _ _ Hg) as (? & ? & ? & j & Hj & [? ?] & ?). split_and!; [done..|].
    destruct (Hjob _ _ Hj) as (j' & ? & _ & E). exists j'. by rewrite E.
  - intros k' j n [[<- <-]|[_ Ha']]%lookup_insert_Some; [by apply (inv_gens0 _ a)|by apply inv_gens0].
  - intros k' l0 Hl0. destruct (inv_lease0 _ _ Hl0) as (? & ? & ? & ?).
    split_and!; [done..|by eapply lease_home_stable].
  - intros k' r Hr. destruct (inv_result0 _ _ Hr) as (? & ? & ? & ?).
    split_and!; [done..|by eapply result_home_stable].
  - intros k' j g [[<- <-]|[_ Hj]]%lookup_insert_Some; [done|by apply inv_completed0].
  - intros Ho k' r Hr. destruct (inv_own_result0 Ho _ _ Hr) as (j & Hj & E & Hst).
    exists j. destruct (decide (k'.1 = k)) as [<-|Hne]; [|by rewrite lookup_insert_ne].
    exfalso. simplify_eq. destruct (inv_result0 _ _ Hr) as (Hkr & _ & (l0 & Hl0 & _ & Hg0 & Hst0) & _).
    pose proof (Ho _ _ _ Hr Hl0) as Hj0. destruct (inv_unique0 _ _ _ _ Hl0 Hl) as [].
    { rewrite <- sl_job0, <- sl_gen0, Hk, Hj0, Hg0, <- Hkr. destruct k'; cbn in *. congruence. }
    simplify_eq. by apply Hc.
  - intros Ho k' j [[<- <-]|[_ Hj]]%lookup_insert_Some; [done|by apply inv_own_job0].
Qed.

(** A new generation of a job, with its attempt: the first of a new job, or
    the next after a lost lease. *)
Lemma keeps_insert b g at_ w :
  let k := as_str (ej_job_id b) in
  Inv w → ej_state b = JobAssigned → scheduled (ej_job_id b) (ej_organization_id b) w →
  job_spec uuid b w →
  current b <= max_attempts (ej_requeue b) → max_attempts (ej_requeue b) <= MAX_REQUEUE_ATTEMPTS →
  gr_job_id g = ej_job_id b → gr_generation g = ej_current_generation b → gr_state g = GenAssigned →
  ja_job_id at_ = ej_job_id b → ja_generation at_ = ej_current_generation b → ja_attempt at_ = current b →
  ms_generations (w_store w) !! (k, current b) = None →
  (ms_jobs (w_store w) !! k = None → current b = 1) →
  (∀ a, ms_jobs (w_store w) !! k = Some a →
    same_job a b ∧ current b = current a + 1
    ∧ (∃ l, lease_lost l w ∧ lease_key l = (k, current a)) ∧ gen_terminal (k, current a) w) →
  keeps w (upd (λ st, on_jobs <[k := b]>
    (on_attempts <[((k, current b), current b) := at_]>
      (on_generations <[(k, current b) := g]> st))) w).
Proof using.
  intros k Hi Hst Hsch Hspec Hmax Hmax' Hgj Hgg Hgs Haj Hag Haa Hnone Hnew Hold. set (w' := upd _ w).
  assert (1 <= current b) as Hpos.
  { destruct (ms_jobs (w_store w) !! k) as [a|] eqn:Ea; [|by rewrite (Hnew eq_refl)].
    destruct (Hold _ eq_refl) as (_ & -> & _). lia. }
  assert (evolves w w') as Hev.
  { destruct (reflexivity w : evolves w w). split; try done; cbn.
    - intros k' a' Ha'. destruct (decide (k' = k)) as [->|Hne].
      + exists b. destruct (Hold _ Ha') as (? & E & _). rewrite lookup_insert_eq, E.
        split_and!; [done|done|lia].
      + exists a'. rewrite lookup_insert_ne by done. by split_and!.
    - intros k' a' Ha'. exists a'. rewrite lookup_insert_ne; [done|]. intros <-. congruence. }
  assert (∀ k' j, ms_jobs (w_store w) !! k' = Some j →
    ∃ j', ms_jobs (w_store w') !! k' = Some j' ∧ same_job j j' ∧ current j <= current j') as Hjob.
  { apply (ev_jobs _ _ Hev). }
  pose proof (own_results_earlier _ _ Hev) as Hown.
  split; [done|]. pose proof Hi as Hi0. destruct Hi. split; try done; cbn.
  - intros k' a' [[<- <-]|[_ Ha']]%lookup_insert_Some; [|by apply inv_job0].
    split_and!; [done|done|done|done|by eapply scheduled_stable].
  - intros k' a' [[<- <-]|[_ Ha']]%lookup_insert_Some; [by eapply job_spec_stable|].
    by eapply job_spec_stable, inv_spec0.
  - intros k' g' [[<- <-]|[Hne Hg']]%lookup_insert_Some.
    + unfold gen_key. rewrite Hgj, Hgg, Hgs. split_and!; [done..|]. exists b. cbn. rewrite lookup_insert_eq.
      split_and!; [done|done|done|lia].
    + destruct (inv_gen0 _ _ Hg') as (? & ? & ? & j & Hj & [? ?] & Ht). split_and!; [done..|].
      destruct (decide (k'.1 = k)) as [E|Hn'].
      * exists b. rewrite E, lookup_insert_eq. rewrite E in Hj. destruct (Hold _ Hj) as (_ & E' & _ & Hterm).
        split_and!; [done|done|lia|]. intros Hlt. destruct (decide (k'.2 = current j)) as [E2|]; [|apply Ht; lia].
        destruct Hterm as (g0 & Hg0 & ?). replace g' with g0; [done|]. destruct k'; cbn in *. congruence.
      * exists j. by rewrite lookup_insert_ne.
  - intros k' j n [[<- <-]|[Hne Hj]]%lookup_insert_Some Hn; apply lookup_insert_is_Some';
      [|right; by eapply inv_gens0].
    destruct (decide (n = current b)) as [->|Hn']; [by left|right].
    destruct (ms_jobs (w_store w) !! k) as [a|] eqn:Ea; [|rewrite (Hnew eq_refl) in *; lia].
    destruct (Hold _ eq_refl) as (_ & E' & _). eapply inv_gens0; [done|lia].
  - intros k' a' [[<- <-]|[Hne Ha']]%lookup_insert_Some.
    + unfold gen_key. rewrite Haj, Hag, Haa. split_and!; [done|done|]. apply lookup_insert_is_Some'. by left.
    + destruct (inv_attempt0 _ _ Ha') as (? & ? & ?). split_and!; [done..|]. apply lookup_insert_is_Some'. by right.
  - intros k' [<-|Hk']%lookup_insert_is_Some'; apply lookup_insert_is_Some'; [by left|right; by apply inv_attempts0].
  - intros k' l0 Hl0. destruct (inv_lease0 _ _ Hl0) as (? & ? & ? & ?).
    split_and!; [done..|by eapply lease_home_stable].
  - intros k' g' i' l' [[<- <-]|[_ Hg']]%lookup_insert_Some Hs' Hl'; [|by eapply inv_assigned0].
    intros Hk. destruct (inv_lease0 _ _ Hl') as (_ & _ & _ & j & _ & Hj & _ & _ & Hle & _).
    destruct (inv_gens0 _ _ (as_u64 (wl_generation l')) Hj) as [g0 Hg0]; [|unfold gen_key in Hk; congruence].
    unfold gen_key in Hk. injection Hk as Hk1 Hk2. lia.
  - intros k' g' [[<- <-]|[_ Hg']]%lookup_insert_Some Hs'; [|by apply inv_leased0].
    rewrite Hgs in Hs'. by destruct Hs'.
  - intros k' r Hr. destruct (inv_result0 _ _ Hr) as (? & ? & ? & ?).
    split_and!; [done|by eapply gen_terminal_stable|done|by eapply result_home_stable].
  - intros k' j g' [[<- <-]|[Hne Hj]]%lookup_insert_Some [[Hk <-]|[_ Hg']]%lookup_insert_Some Hs';
      [congruence|congruence|congruence|by eapply inv_completed0].
  - intros Ho k' r Hr. destruct (inv_own_result0 (Hown Ho) _ _ Hr) as (j & Hj & E & Hs').
    exists j. destruct (decide (k'.1 = k)) as [E1|Hne]; [|by rewrite lookup_insert_ne].
    exfalso. rewrite E1 in Hj. destruct (Hold _ Hj) as (_ & _ & (l & (l' & Hl' & [] & _ & Hc) & Hk) & _).
    destruct (inv_result0 _ _ Hr) as (Hkr & _ & (l0 & Hl0 & _ & Hg0 & Hst0) & _).
    pose proof (Hown Ho _ _ _ Hr Hl0) as Hj0. destruct (inv_unique0 _ _ _ _ Hl0 Hl') as [].
    { rewrite <- sl_job0, <- sl_gen0, Hk, Hj0, Hg0, <- Hkr. destruct k'; cbn in *. congruence. }
    simplify_eq. eapply Hc; [by apply Hown|done].
  - intros Ho k' j [[<- <-]|[_ Hj]]%lookup_insert_Some Hs'; [congruence|].
    by apply inv_own_job0; [apply Hown|..].
Qed.

Lemma find_lease_Some j g st l :
  find_lease j g st = Some l → wl_job_id l = j ∧ wl_generation l = g ∧ ∃ k, ms_leases st !! k = Some l.
Proof using.
  intros [Hin [?%bool_decide_eq_true ?%bool_decide_eq_true]%andb_prop]%List.find_some.
  split_and!; [done..|]. by apply elem_of_values, list_elem_of_In.
Qed.
Lemma find_lease_None j g st k l :
  find_lease j g st = None → ms_leases st !! k = Some l → ¬ (wl_job_id l = j ∧ wl_generation l = g).
Proof using.
  intros Hf Hl [<- <-]. apply (List.find_none _ _ Hf l) in Hl as Hn || idtac.
  assert (List.In l (values (ms_leases st))) as Hin by (apply list_elem_of_In, elem_of_values; eauto).
  pose proof (List.find_none _ _ Hf l Hin) as Hb. cbn in Hb. by rewrite !bool_decide_eq_true_2 in Hb.
Qed.
Lemma key_eq_lease a b :
  lease_key a = lease_key b ↔ wl_job_id a = wl_job_id b ∧ wl_generation a = wl_generation b.
Proof using.
  split; [|by intros [-> ->]]. unfold gen_key. intros [= ? ?].
  split; [by apply as_str_inj|by apply as_u64_inj].
Qed.

(** A lease for a generation that has none, with its generation and job rows
    moved on. *)
Lemma keeps_accept l g' j' n w :
  Inv w → (∀ k l', ms_leases (w_store w) !! k = Some l' → lease_key l' ≠ lease_key l) →
  wl_state l = LeaseLive → as_str (wl_lease_id l) = lease_name n →
  minted_for n (PLease (wl_job_id l) (wl_generation l)) w →
  lease_home l w →
  (∃ j, ms_jobs (w_store w) !! as_str (wl_job_id l) = Some j ∧ same_job j j'
    ∧ ej_current_generation j' = ej_current_generation j
    ∧ job_is_terminal (ej_state j') = job_is_terminal (ej_state j)
    ∧ (ej_state j' = JobCompleted → ej_state j = JobCompleted)
    ∧ (ej_state j = JobCompleted → ej_state j' = JobCompleted)) →
  (∃ g, ms_generations (w_store w) !! lease_key l = Some g ∧ gr_job_id g' = gr_job_id g
    ∧ gr_generation g' = gr_generation g ∧ gr_state g' ≠ GenAssigned
    ∧ (gr_state g' = GenLeased ∨ gr_state g' = gr_state g)
    ∧ (gr_state g ≠ GenAssigned → gr_state g' = gr_state g)) →
  keeps w (upd (λ st, on_jobs <[as_str (wl_job_id l) := j']>
    (on_generations <[lease_key l := g']> (on_leases <[as_str (wl_lease_id l) := l]> st))) w).
Proof using uuid_inj.
  intros Hi Hfree Hlive Hn Hm Hhome (j & Hj & Hsj & Hcur & Hterm & Hc1 & Hc2)
    (g & Hg & Hgj & Hgg & Hna & Hor & Hsame).
  set (w' := upd _ w). set (id := as_str (wl_lease_id l)) in *. set (jk := as_str (wl_job_id l)) in *.
  assert (ms_leases (w_store w) !! id = None) as Hid.
  { apply eq_None_not_Some. intros [l0 Hl0]. apply (Hfree _ _ Hl0).
    destruct (inv_lease _ Hi _ _ Hl0) as (_ & _ & (m & Hk & Hm') & _). subst id. rewrite Hn in Hk.
    apply lease_name_inj in Hk as ->. unfold minted_for in *. apply key_eq_lease. by simplify_eq. }
  assert (∀ k, k ≠ id → ms_leases (w_store w') !! k = ms_leases (w_store w) !! k) as Hle'.
  { intros k Hk. by apply lookup_insert_ne. }
  assert (∀ k l0, ms_leases (w_store w) !! k = Some l0 → ms_leases (w_store w') !! k = Some l0) as Hold.
  { intros k l0 Hl0. rewrite Hle'; [done|]. intros ->. congruence. }
  assert (∀ k a, ms_jobs (w_store w) !! k = Some a → ∃ b, ms_jobs (w_store w') !! k = Some b
    ∧ same_job a b ∧ ej_current_generation b = ej_current_generation a
    ∧ (ej_state a = JobCompleted → ej_state b = JobCompleted)) as Hjob.
  { intros k a Ha. destruct (decide (k = jk)) as [->|Hk]; cbn.
    - exists j'. rewrite lookup_insert_eq. replace a with j by congruence. by split_and!.
    - exists a. by rewrite lookup_insert_ne. }
  assert (evolves w w') as Hev.
  { destruct (reflexivity w : evolves w w). split; try done.
    - intros k a Ha. destruct (Hjob _ _ Ha) as (b & ? & ? & E & _). exists b. rewrite E. by split_and!.
    - intros k a Ha. destruct (decide (k = lease_key l)) as [->|Hk]; cbn.
      + exists g'. rewrite lookup_insert_eq. replace a with g by congruence. split_and!; [done| |done].
        intros Ht. apply Hsame. by destruct (gr_state g).
      + exists a. by rewrite lookup_insert_ne.
    - intros k a Ha. exists a. split_and!; [by apply Hold|done|done]. }
  assert (∀ k a, ms_leases (w_store w') !! k = Some a →
    (id = k ∧ l = a) ∨ (id ≠ k ∧ ms_leases (w_store w) !! k = Some a)) as Hlcase.
  { intros k a Ha. by apply (lookup_insert_Some (M:=gmap _)). }
  assert (∀ k a, ms_generations (w_store w') !! k = Some a →
    (lease_key l = k ∧ g' = a) ∨ (lease_key l ≠ k ∧ ms_generations (w_store w) !! k = Some a)) as Hgcase.
  { intros k a Ha. by apply (lookup_insert_Some (M:=gmap _)). }
  pose proof (own_results_earlier _ _ Hev) as Hown.
  split; [done|]. destruct Hi. split; try done.
  - cbn. intros k a [[<- <-]|[_ Ha]]%lookup_insert_Some; [|by apply inv_job0].
    destruct (inv_job0 _ _ Hj) as (? & [? ?] & ? & ?), Hsj.
    rewrite Hcur, <- sj_id0, <- sj_requeue0, <- sj_org0. split_and!; [done..|by eapply scheduled_stable].
  - cbn. intros k a [[<- <-]|[_ Ha]]%lookup_insert_Some; [eapply job_spec_same; [done|]|]; by eapply job_spec_stable, inv_spec0.
  - cbn. intros k a [[<- <-]|[_ Ha]]%lookup_insert_Some.
    + destruct (inv_gen0 _ _ Hg) as (? & ? & ? & j0 & Hj0 & [? ?] & Ht). rewrite Hgj, Hgg.
      split_and!; [done| | |]; [by destruct Hor as [->| ->]..|].
      destruct (Hjob _ _ Hj0) as (b & ? & _ & E & _). exists b. rewrite E. split_and!; [done..|].
      intros Hlt. specialize (Ht Hlt). rewrite Hsame; [done|]. by destruct (gr_state g).
    + destruct (inv_gen0 _ _ Ha) as (? & ? & ? & j0 & Hj0 & [? ?] & Ht). split_and!; [done..|].
      destruct (Hjob _ _ Hj0) as (b & ? & _ & E & _). exists b. by rewrite E.
  - cbn. intros k a m Ha Hm'. apply lookup_insert_is_Some'. right.
    apply lookup_insert_Some in Ha as [[<- <-]|[_ Ha]]; [|by eapply inv_gens0].
    rewrite Hcur in Hm'. by eapply inv_gens0.
  - cbn. intros k a Ha. destruct (inv_attempt0 _ _ Ha) as (? & ? & ?). split_and!; [done..|].
    apply lookup_insert_is_Some'. by right.
  - cbn. intros k [<-|Hk]%lookup_insert_is_Some'; apply inv_attempts0; [by eexists|done].
  - intros k a Ha. apply Hlcase in Ha as [[<- <-]|[_ Ha]].
    + split_and!; [done|congruence|by exists n|by eapply lease_home_stable].
    + destruct (inv_lease0 _ _ Ha) as (? & ? & ? & ?). split_and!; [done..|by eapply lease_home_stable].
  - cbn. intros k1 k2 a1 a2 [[<- <-]|[_ H1]]%lookup_insert_Some [[<- <-]|[_ H2]]%lookup_insert_Some E;
      [done| | |by eapply inv_unique0]; exfalso; by eapply Hfree.
  - cbn. intros k a i0 l0 [[<- <-]|[Hk Ha]]%lookup_insert_Some Hs [[<- <-]|[_ Hi0]]%lookup_insert_Some;
      [done|done|done|by eapply inv_assigned0].
  - intros k a Ha Hs. apply Hgcase in Ha as [[<- <-]|[Hk Ha]].
    + exists id, l. cbn. rewrite lookup_insert_eq. split_and!; [done..|]. intros Hlost. exfalso.
      destruct Hor as [|E]; [congruence|]. destruct (inv_leased0 _ _ Hg) as (i0 & l0 & Hl0 & Hk0 & _); [right; congruence|].
      by eapply Hfree.
    + destruct (inv_leased0 _ _ Ha Hs) as (i0 & l0 & Hl0 & ?). exists i0, l0. split; [by apply Hold|done].
  - intros k r Hr. destruct (inv_result0 _ _ Hr) as (? & ? & (l0 & Hl0 & ?) & ?).
    split_and!; [done|by eapply gen_terminal_stable| |by eapply result_home_stable].
    exists l0. split; [by apply Hold|done].
  - cbn. intros k a b Ha Hb Hs. apply lookup_insert_Some in Ha as [[<- <-]|[Hk Ha]].
    + rewrite Hterm. rewrite Hcur in Hb. apply lookup_insert_Some in Hb as [[Hk <-]|[_ Hb]].
      * destruct Hor as [|E]; [congruence|]. eapply inv_completed0; [done|by rewrite <- Hk|congruence].
      * by eapply inv_completed0.
    + apply lookup_insert_Some in Hb as [[[= Hk' _] _]|[_ Hb]]; [by destruct Hk|by eapply inv_completed0].
  - intros Hw k l0 Hl0 Hs. apply Hlcase in Hl0 as [[<- <-]|[_ Hl0]]; [congruence|].
    by eapply inv_own_lease0; [apply Hown|..].
  - intros Hw k r Hr. destruct (inv_own_result0 (Hown Hw) _ _ Hr) as (j0 & Hj0 & E & Hs).
    destruct (Hjob _ _ Hj0) as (b & ? & _ & E' & Hs'). exists b. rewrite E'. split_and!; [done|done|by apply Hs'].
  - cbn. intros Hw k a [[<- <-]|[_ Ha]]%lookup_insert_Some Hs.
    + rewrite Hcur. apply inv_own_job0; [by apply Hown|done|by apply Hc1].
    + apply inv_own_job0; [by apply Hown|done..].
Qed.

(** A result lands: the lease and the generation complete, and the job with
    them. *)
Lemma keeps_land r l l' g' j j' u w :
  Inv w → ms_results (w_store w) !! result_key r = None →
  ms_jobs (w_store w) !! as_str (rs_job_id r) = Some j →
  ej_current_generation j = rs_generation r → rs_digest r = ej_payload_digest j →
  ms_workers (w_store w) !! as_str (rs_worker_id r) = Some u →
  wr_organization_id u = ej_organization_id j →
  ms_leases (w_store w) !! as_str (rs_lease_id r) = Some l → wl_worker_id l = rs_worker_id r →
  wl_generation l = rs_generation r → wl_state l = LeaseLive →
  same_lease l l' → wl_state l' = LeaseCompleted →
  same_job j j' → ej_current_generation j' = ej_current_generation j → ej_state j' = JobCompleted →
  (∃ g, ms_generations (w_store w) !! result_key r = Some g ∧ gr_job_id g' = gr_job_id g
    ∧ gr_generation g' = gr_generation g
    ∧ gr_state g' = if gen_is_terminal (gr_state g) then gr_state g else GenCompleted) →
  keeps w (upd (λ st, on_jobs <[as_str (rs_job_id r) := j']>
    (on_generations <[result_key r := g']>
      (on_leases <[as_str (rs_lease_id r) := l']> (on_results <[result_key r := r]> st)))) w).
Proof using.
  intros Hi Hnone Hj Hcur Hdig Hu Huo Hl Hlw Hlg Hlive Hsl Hlc Hsj Hcur' Hjc (g & Hg & Hgj & Hgg & Hgs).
  set (w' := upd _ w). set (id := as_str (rs_lease_id r)) in *. set (jk := as_str (rs_job_id r)) in *.
  assert (gen_is_terminal (gr_state g') = true) as Hgt.
  { rewrite Hgs. by destruct (gen_is_terminal (gr_state g)) eqn:E. }
  assert (∀ k a, ms_leases (w_store w') !! k = Some a →
    (id = k ∧ l' = a) ∨ (id ≠ k ∧ ms_leases (w_store w) !! k = Some a)) as Hlcase.
  { intros k a Ha. by apply (lookup_insert_Some (M:=gmap _)). }
  assert (∀ k a, ms_generations (w_store w') !! k = Some a →
    (result_key r = k ∧ g' = a) ∨ (result_key r ≠ k ∧ ms_generations (w_store w) !! k = Some a)) as Hgcase.
  { intros k a Ha. by apply (lookup_insert_Some (M:=gmap _)). }
  assert (∀ k a, ms_jobs (w_store w') !! k = Some a →
    (jk = k ∧ j' = a) ∨ (jk ≠ k ∧ ms_jobs (w_store w) !! k = Some a)) as Hjcase.
  { intros k a Ha. by apply (lookup_insert_Some (M:=gmap _)). }
  assert (∀ k a, ms_results (w_store w') !! k = Some a →
    (result_key r = k ∧ r = a) ∨ (result_key r ≠ k ∧ ms_results (w_store w) !! k = Some a)) as Hrcase.
  { intros k a Ha. by apply (lookup_insert_Some (M:=gmap _)). }
  assert (ms_leases (w_store w') !! id = Some l') as Hid by apply lookup_insert_eq.
  assert (∀ k a, ms_leases (w_store w) !! k = Some a → ∃ b, ms_leases (w_store w') !! k = Some b
    ∧ same_lease a b ∧ (wl_state a ≠ LeaseLive → b = a)) as Hlease.
  { intros k a Ha. destruct (decide (k = id)) as [->|Hk].
    - exists l'. replace a with l by congruence. by split_and!.
    - exists a. split; [by apply lookup_insert_Some; right|done]. }
  assert (∀ k a, ms_jobs (w_store w) !! k = Some a → ∃ b, ms_jobs (w_store w') !! k = Some b
    ∧ same_job a b ∧ ej_current_generation b = ej_current_generation a) as Hjob.
  { intros k a Ha. destruct (decide (k = jk)) as [->|Hk]; cbn.
    - exists j'. rewrite lookup_insert_eq. replace a with j by congruence. by split_and!.
    - exists a. by rewrite lookup_insert_ne. }
  assert (evolves w w') as Hev.
  { destruct (reflexivity w : evolves w w). split; try done.
    - intros k a Ha. destruct (Hjob _ _ Ha) as (b & ? & ? & E). exists b. rewrite E. by split_and!.
    - intros k a Ha. destruct (decide (k = result_key r)) as [->|Hk]; cbn.
      + exists g'. rewrite lookup_insert_eq. replace a with g by congruence.
        split_and!; [done|intros Ht; by rewrite Hgs, Ht|by destruct (gr_state g')].
      + exists a. by rewrite lookup_insert_ne.
    - intros k a Ha. destruct (Hlease _ _ Ha) as (b & ? & ? & Hb). exists b. split_and!; [done..|].
      intros Hn. by rewrite Hb.
    - cbn. by apply insert_subseteq. }
  pose proof (own_results_earlier _ _ Hev) as Hown.
  assert (result_key r = (jk, current j)) as Hkey by (unfold gen_key; by rewrite Hcur).
  split; [done|]. destruct Hi. split; try done.
  - intros k a [[<- <-]|[_ Ha]]%Hjcase; [|by apply inv_job0].
    destruct (inv_job0 _ _ Hj) as (? & [? ?] & ? & ?), Hsj.
    rewrite Hcur', <- sj_id0, <- sj_requeue0, <- sj_org0. split_and!; [done..|by eapply scheduled_stable].
  - intros k a [[<- <-]|[_ Ha]]%Hjcase; [eapply job_spec_same; [done|]|]; by eapply job_spec_stable, inv_spec0.
  - intros k a Ha. assert (∃ b, ms_generations (w_store w) !! k = Some b ∧ gr_job_id a = gr_job_id b
      ∧ gr_generation a = gr_generation b ∧ (gr_state a = gr_state b ∨ gr_state a = GenCompleted)
      ∧ (gen_is_terminal (gr_state b) = true → gr_state a = gr_state b)) as (b & Hb & Eb1 & Eb2 & Hor & Ht0).
    { apply Hgcase in Ha as [[<- <-]|[_ Ha]]; [|exists a; split_and!; [done..|by left|done]]. exists g.
      split_and!; [done..| |intros E; by rewrite Hgs, E]. destruct (gen_is_terminal (gr_state g)); auto. }
    destruct (inv_gen0 _ _ Hb) as (? & ? & ? & j0 & Hj0 & [? ?] & Ht). rewrite Eb1, Eb2.
    split_and!; [done|by destruct Hor as [->| ->]..|].
    destruct (Hjob _ _ Hj0) as (b' & ? & _ & E). exists b'. rewrite E. split_and!; [done..|].
    intros Hlt. rewrite Ht0; by apply Ht.
  - cbn. intros k a m Ha Hm'. apply lookup_insert_is_Some'. right.
    apply Hjcase in Ha as [[<- <-]|[_ Ha]]; [|by eapply inv_gens0].
    rewrite Hcur' in Hm'. by eapply inv_gens0.
  - cbn. intros k a Ha. destruct (inv_attempt0 _ _ Ha) as (? & ? & ?). split_and!; [done..|].
    apply lookup_insert_is_Some'. by right.
  - cbn. intros k [<-|Hk]%lookup_insert_is_Some'; apply inv_attempts0; [by eexists|done].
  - intros k a Ha. assert (∃ b, ms_leases (w_store w) !! k = Some b ∧ same_lease b a
      ∧ (wl_state a = wl_state b ∨ wl_state a = LeaseCompleted)) as (b & Hb & Hs & Hor).
    { apply Hlcase in Ha as [[<- <-]|[_ Ha]]; [by exists l; auto|exists a; split_and!; [done|done|by left]]. }
    destruct (inv_lease0 _ _ Hb) as (? & ? & ? & ?).
    rewrite <- (sl_id _ _ Hs), <- (sl_job _ _ Hs), <- (sl_gen _ _ Hs).
    split_and!; [done|by destruct Hor as [->| ->]|done|].
    eapply lease_home_same; [exact Hs|]. by eapply lease_home_stable.
  - intros k1 k2 a1 a2 H1 H2 E. apply Hlcase in H1 as [[<- <-]|[_ H1]], H2 as [[<- <-]|[_ H2]]; [done| | |by eapply inv_unique0];
      destruct Hsl as [_ _ Hs1 Hs2 _]; rewrite <- Hs1, <- Hs2 in E; by eapply inv_unique0.
  - intros k a i0 l0 [[<- <-]|[Hk Ha]]%Hgcase Hs Hl0; [by rewrite Hs in Hgt|].
    apply Hlcase in Hl0 as [[<- <-]|[_ Hl0]]; [|by eapply inv_assigned0].
    destruct Hsl as [_ _ <- <- _]. by eapply inv_assigned0.
  - intros k a Ha Hs. assert (∃ b, ms_generations (w_store w) !! k = Some b ∧ gr_state b = gr_state a) as (b & Hb & Eb).
    { apply Hgcase in Ha as [[<- <-]|[_ Ha]]; [|by exists a]. exists g. split; [done|].
      destruct (gen_is_terminal (gr_state g)); [done|]. rewrite Hgs in Hs. by destruct Hs. }
    rewrite <- Eb in Hs |- *. destruct (inv_leased0 _ _ Hb Hs) as (i0 & l0 & Hl0 & Hk & Hlost).
    destruct (Hlease _ _ Hl0) as (l1 & Hl1 & [] & Hsame). exists i0, l1.
    rewrite <- sl_job0, <- sl_gen0. split_and!; [done..|]. intros E. rewrite Hsame; auto.
  - intros k a [[<- <-]|[Hk Ha]]%Hrcase.
    + split_and!; [done| | |].
      * exists g'. split; [apply lookup_insert_eq|done].
      * exists l'. destruct Hsl. split_and!; [done|congruence|congruence|done].
      * exists j', u. rewrite Hkey. cbn. rewrite lookup_insert_eq, Hcur'. destruct Hsj.
        split_and!; [done|done|congruence|done|congruence].
    + destruct (inv_result0 _ _ Ha) as (? & ? & (l0 & Hl0 & ? & ? & Hc) & ?).
      split_and!; [done|by eapply gen_terminal_stable| |by eapply result_home_stable].
      destruct (Hlease _ _ Hl0) as (l1 & Hl1 & _ & Hsame). rewrite Hsame in Hl1 by congruence. by exists l0.
  - intros k a b [[<- <-]|[Hk Ha]]%Hjcase Hb Hs; [by rewrite Hjc|].
    apply Hgcase in Hb as [[E <-]|[_ Hb]]; [|by eapply inv_completed0]. rewrite Hkey in E. by injection E as ->.
  - intros Hw k l0 Hl0 Hs. apply Hlcase in Hl0 as [[<- <-]|[Hk Hl0]].
    + exists r. pose proof (Hw (result_key r) r l') as E. destruct (inv_lease0 _ _ Hl) as (Eid & _), Hsl. split.
      * replace (lease_key l') with (result_key r); [apply lookup_insert_eq|].
        rewrite E; [by rewrite <- sl_gen0, Hlg|apply lookup_insert_eq|done].
      * rewrite <- sl_id0. by apply as_str_inj.
    + destruct (inv_own_lease0 (Hown Hw) _ _ Hl0 Hs) as (r0 & Hr0 & ?). exists r0.
      split; [|done]. cbn. rewrite lookup_insert_ne; [done|]. intros E. rewrite <- E in Hr0. congruence.
  - intros Hw k a [[<- <-]|[Hk Ha]]%Hrcase.
    + exists j'. rewrite Hkey. cbn. rewrite lookup_insert_eq, Hcur'. by split_and!.
    + destruct (inv_own_result0 (Hown Hw) _ _ Ha) as (j0 & Hj0 & E & Hs). exists j0.
      split_and!; [|done..]. cbn. rewrite lookup_insert_ne; [done|]. intros E1. apply Hk. rewrite Hkey.
      rewrite <- E1 in Hj0. destruct k as [k1 k2]; cbn in *. congruence.
  - intros Hw k a [[<- <-]|[Hk Ha]]%Hjcase Hs; cbn; apply lookup_insert_is_Some'.
    + left. by rewrite Hkey, Hcur'.
    + right. apply inv_own_job0; [by apply Hown|done..].
Qed.
End Invariant.
