(* ===== verification/WorkerCalls.v ===== *)
(** * Store calls keep the invariant

    Each method of the store, called with what its caller must know, takes a
    store that satisfies [Inv] to a later one that does.  From that, [safe]:
    a program whose calls know what they must, whatever other programs do in
    between. *)
From S2P Require Import Prelude Strings Effects WorkerModel WorkerStore WorkerPlane WorkerInv.
From stdpp Require Import sorting.
#[local] Open Scope string_scope.
#[local] Open Scope N_scope.

(** ** What a caller has to know *)
Record next_generation (uuid : nat → string) (b : ExecutionJob) (g : JobGenerationRow) (t : JobAttempt) (w : World) : Prop := {
  ng_state : ej_state b = JobAssigned;
  ng_scheduled : scheduled (ej_job_id b) (ej_organization_id b) w;
  ng_spec : job_spec uuid b w;
  ng_max : current b <= max_attempts (ej_requeue b);
  ng_policy : max_attempts (ej_requeue b) <= MAX_REQUEUE_ATTEMPTS;
  ng_gen_job : gr_job_id g = ej_job_id b;
  ng_gen : gr_generation g = ej_current_generation b;
  ng_gen_state : gr_state g = GenAssigned;
  ng_attempt_job : ja_job_id t = ej_job_id b;
  ng_attempt_gen : ja_generation t = ej_current_generation b;
  ng_order :
    (current b = 1 ∧ ja_attempt t = 1)
    ∨ ∃ a l n, job_known a w ∧ same_job a b ∧ current b = current a + 1 ∧ attempts_read a n w
        ∧ n < MAX_REQUEUE_ATTEMPTS ∧ ja_attempt t = U32.sat_add n 1
        ∧ lease_lost l w ∧ lease_key l = (as_str (ej_job_id b), current a)
        ∧ gen_terminal (as_str (ej_job_id b), current a) w }.

Record leasable (l : WorkerLease) (n : nat) (a : ExecutionJob) (u : WorkerRegistration) (w : World) : Prop := {
  le_minted : minted_for n (PLease (wl_job_id l) (wl_generation l)) w;
  le_job : job_known a w;
  le_job_id : ej_job_id a = wl_job_id l;
  le_gen : as_u64 (wl_generation l) <= current a;
  le_org : wl_organization_id l = ej_organization_id a;
  le_worker : worker_known u w;
  le_worker_id : wr_worker_id u = wl_worker_id l;
  le_worker_org : wr_organization_id u = ej_organization_id a;
  le_worker_domain : wr_trust_domain u = ej_trust_domain a;
  le_may_take : may_take (ej_assigned_worker a) (wl_worker_id l) = true }.

Section Calls.
Variable uuid : nat → string.
Variable secret : nat → string.
Variable token_hash_of : string → string.
Hypothesis uuid_inj : ∀ n m, uuid n = uuid m → n = m.
Hypothesis secret_inj : ∀ n m, token_hash_of (secret n) = token_hash_of (secret m) → n = m.
Notation Inv := (Inv uuid secret token_hash_of).
Notation keeps := (keeps uuid secret token_hash_of).

Definition op_pre {A} (c : StoreCall A) (w : World) : Prop :=
  match c with
  | PutWorker a => wr_revoked a = true ∧ worker_known a w
  | PutToken a =>
      token_known a w
      ∨ ∃ n, tk_token_hash a = token_hash_of (secret n)
             ∧ minted_for n (PToken (tk_organization_id a) (tk_trust_domain a)) w
  | InsertGenerationAndAttempt b g t => next_generation uuid b g t w
  | SetGenerationState j g from to _ _ =>
      from = GenLeased ∧ to = GenLost ∧ ∃ l, lease_over l w ∧ lease_key l = gen_key j g
  | SetJobState j g to => to = JobFailed ∧ ∃ l, lease_lost l w ∧ lease_key l = gen_key j g
  | TryAcceptLease l _ =>
      wl_state l = LeaseLive
      ∧ ∃ n a u, as_str (wl_lease_id l) = mint_name uuid "lease" n ∧ leasable l n a u w
  | EndLease _ _ to _ _ => to = LeaseExpiredS ∨ to = LeaseRevoked
  | LandResult r =>
      ∃ a u, job_known a w ∧ ej_job_id a = rs_job_id r ∧ rs_digest r = ej_payload_digest a
        ∧ worker_known u w ∧ wr_worker_id u = rs_worker_id r
        ∧ wr_organization_id u = ej_organization_id a
  | PutJob _ | PutGeneration _ | PutAttempt _ => False
  | _ => True
  end.

Notation after c w := (handle uuid secret (Store c) w).2.

Lemma keeps_same w : Inv w → keeps w (MkWorld (w_store w) (w_now w) (w_minted w)).
Proof using. intros Hi. destruct w. by apply keeps_refl. Qed.

(** ** Call by call *)
Lemma put_worker_keeps a w : Inv w → op_pre (PutWorker a) w → keeps w (after (PutWorker a) w).
Proof using.
  intros Hi [Hr (b & Hb & [])]. cbn. unfold put_worker. rewrite Hb.
  destruct (negb _); [by apply keeps_same|]. destruct (_ && _); [by apply keeps_same|].
  destruct (find_other _ _ _); [by apply keeps_same|].
  destruct (inv_worker _ _ _ _ Hi _ _ Hb) as (_ & t & Ht & Ho & Hd).
  eapply (keeps_worker _ _ _ a t); [done|congruence|congruence|congruence|].
  intros a' Ha'. rewrite Hb in Ha'. injection Ha' as <-. done.
Qed.

Lemma touch_worker_keeps id t w : Inv w → keeps w (after (TouchWorker id t) w).
Proof using.
  intros Hi. cbn. unfold touch_worker. destruct (ms_workers (w_store w) !! as_str id) as [a|] eqn:Ha; [|by apply keeps_same].
  destruct (wr_revoked a) eqn:Hr; [by apply keeps_same|].
  destruct (inv_worker _ _ _ _ Hi _ _ Ha) as (Hk & t' & Ht & Ho & Hd). rewrite Hk.
  eapply (keeps_worker _ _ _ (seen_at t a) t'); [done..|].
  intros a' Ha'. cbn in Ha'. rewrite <- Hk, Ha in Ha'. injection Ha' as <-. by rewrite Hr.
Qed.

Lemma put_token_keeps a w : Inv w → op_pre (PutToken a) w → keeps w (after (PutToken a) w).
Proof using secret_inj.
  intros Hi Hpre. assert (∃ n, tk_token_hash a = token_hash_of (secret n)
    ∧ minted_for n (PToken (tk_organization_id a) (tk_trust_domain a)) w) as (n & Hn & Hm).
  { destruct Hpre as [(b & Hb & [])|?]; [|done]. destruct (inv_token _ _ _ _ Hi _ _ Hb) as (_ & n & ? & ?).
    exists n. rewrite st_org, st_domain. by split; [congruence|]. }
  by eapply (keeps_token _ _ _ secret_inj a n).
Qed.

Lemma consume_same id t : same_token t (consume id t).
Proof using. done. Qed.

Lemma register_keeps r t e w : Inv w → keeps w (after (RegisterWorkerWithToken r t e) w).
Proof using secret_inj.
  intros Hi. cbn. unfold register_worker_with_token. cbv zeta.
  destruct (negb _); [by apply keeps_same|].
  destruct (ms_tokens (w_store w) !! wr_token_hash r) as [s|] eqn:Hs; [|by apply keeps_same].
  destruct (tk_revoked s); [by apply keeps_same|].
  destruct (negb (bool_decide (tk_organization_id s = _))) eqn:Ho; [by apply keeps_same|].
  destruct (negb (bool_decide (tk_trust_domain s = wr_trust_domain r))) eqn:Hd; [by apply keeps_same|].
  apply negb_false_iff, bool_decide_eq_true in Ho, Hd. cbn [orb].
  destruct (negb _); [by apply keeps_same|].
  destruct (inv_token _ _ _ _ Hi _ _ Hs) as (Hk & n & Hn & Hm).
  assert ((∀ a, ms_workers (w_store w) !! as_str (wr_worker_id r) = Some a →
            wr_token_hash a = wr_token_hash r ∧ (wr_revoked a = true → wr_revoked r = true)) →
    keeps w (upd (push_entry e) (upd (on_tokens <[tk_token_hash s := consume (wr_worker_id r) s]>)
                   (upd (on_workers <[as_str (wr_worker_id r) := r]>) w)))) as Hland.
  { intros Hw. eapply keeps_trans; [by eapply (keeps_worker _ _ _ r s)|].
    eapply keeps_trans.
    - eapply (keeps_token _ _ _ secret_inj (consume (wr_worker_id r) s) n); [|cbn; congruence|done].
      eapply (keeps_worker _ _ _ r s); done.
    - apply keeps_push. eapply (keeps_token _ _ _ secret_inj (consume (wr_worker_id r) s) n);
        [eapply (keeps_worker _ _ _ r s); done|cbn; congruence|done]. }
  assert (keeps w (MkWorld (w_store w) (w_now w) (w_minted w))) as Hsame by (by apply keeps_same).
  destruct (tk_consumed_by s) as [c|]; [destruct (negb _); [done|]|];
    (destruct (find_other _ _ _); [done|];
     destruct (ms_workers (w_store w) !! as_str (wr_worker_id r)) as [a|] eqn:Ha;
     [destruct (wr_revoked a) eqn:Hr; [done|];
      destruct (bool_decide (wr_token_hash a = wr_token_hash r)) eqn:Eh; cbn [negb]; [|done];
      apply bool_decide_eq_true in Eh; apply Hland; intros ? [= <-]; by rewrite Hr
     |by apply Hland]).
Qed.

Lemma set_generation_state_keeps j g from to e r w :
  Inv w → op_pre (SetGenerationState j g from to e r) w → keeps w (after (SetGenerationState j g from to e r) w).
Proof using.
  intros Hi (-> & -> & l & (l' & Hl & [] & Hn) & Hk). cbn. unfold set_generation_state.
  destruct (ms_generations (w_store w) !! gen_key j g) as [a|] eqn:Ha; [|by apply keeps_same].
  destruct (bool_decide (gr_state a = GenLeased)) eqn:Hs; [|by apply keeps_same].
  apply bool_decide_eq_true in Hs. cbn [negb].
  eapply (keeps_lost _ _ _ _ a _ _ l'); [done..| | | |]; [done|done| |done]. congruence.
Qed.

Lemma set_job_state_keeps j g to w :
  Inv w → op_pre (SetJobState j g to) w → keeps w (after (SetJobState j g to) w).
Proof using.
  intros Hi (-> & l & Hl & Hk). cbn. unfold set_job_state.
  destruct (ms_jobs (w_store w) !! as_str j) as [a|] eqn:Ha; [|by apply keeps_same].
  destruct (bool_decide (ej_current_generation a = g)) eqn:Hs; [|by apply keeps_same].
  apply bool_decide_eq_true in Hs. cbn [negb].
  eapply (keeps_failed _ _ _ _ a l); [done..|]. rewrite Hk. unfold gen_key. by rewrite Hs.
Qed.

Lemma insert_keeps b g t w :
  Inv w → next_generation uuid b g t w → keeps w (after (InsertGenerationAndAttempt b g t) w).
Proof using.
  intros Hi []. cbn. unfold insert_generation_and_attempt, gen_key.
  rewrite ng_gen_job0, ng_gen0, ng_attempt_job0, ng_attempt_gen0.
  destruct (ms_generations (w_store w) !! (as_str (ej_job_id b), current b)) as [o|] eqn:Ho.
  { destruct (_ && _); by apply keeps_same. }
  assert (ja_attempt t = current b ∧ (ms_jobs (w_store w) !! as_str (ej_job_id b) = None → current b = 1)
    ∧ ∀ a, ms_jobs (w_store w) !! as_str (ej_job_id b) = Some a →
      same_job a b ∧ current b = current a + 1
      ∧ (∃ l, lease_lost l w ∧ lease_key l = (as_str (ej_job_id b), current a))
      ∧ gen_terminal (as_str (ej_job_id b), current a) w) as (Ht & Hnew & Hold).
  { destruct ng_order0 as [[H1 H2]|(a & l & n & (a' & Ha' & Hsa & _) & Hs & Hc & (a1 & Ha1 & Hn) & Hmax & Hta & Hl & Hk & Hterm)].
    - split_and!; [congruence|done|]. intros a Ha. exfalso.
      destruct (inv_job _ _ _ _ Hi _ _ Ha) as (_ & [? ?] & _).
      destruct (inv_gens _ _ _ _ Hi _ _ 1 Ha) as [? Hg]; [lia|]. rewrite H1 in Ho. congruence.
    - rewrite Ha' in Ha1. injection Ha1 as <-. rewrite (sj_id _ _ Hs) in Ha'.
      assert (current a' = current a) as Ea.
      { destruct (decide (current b <= current a')); [|lia].
        destruct (inv_gens _ _ _ _ Hi _ _ (current b) Ha') as [? Hg]; [lia|congruence]. }
      rewrite Hta. unfold U32.sat_add. split_and!.
      + rewrite N.min_l; [lia|]. unfold U32.max, MAX_REQUEUE_ATTEMPTS in *. lia.
      + congruence.
      + intros a0 Ha0. rewrite Ha' in Ha0. injection Ha0 as <-. rewrite Ea.
        split_and!; [by etrans|done|by exists l|done]. }
  rewrite Ht. by apply keeps_insert.
Qed.

Lemma upd_same w : upd (λ st, st) w = w.
Proof using. by destruct w. Qed.
Lemma on_generations_id k g st : ms_generations st !! k = Some g → on_generations <[k := g]> st = st.
Proof using. intros H. destruct st. unfold on_generations. cbn in *. by rewrite insert_id. Qed.
Lemma on_jobs_id k g st : ms_jobs st !! k = Some g → on_jobs <[k := g]> st = st.
Proof using. intros H. destruct st. unfold on_jobs. cbn in *. by rewrite insert_id. Qed.

(** A lease's attempt, and a result's. *)
Lemma lease_attempt_keeps l w : Inv w → keeps w (upd (lease_attempt l) w).
Proof using.
  intros Hi. unfold upd, lease_attempt. destruct (attempt_key _ _ _) as [k|]; [|by apply keeps_same].
  destruct (ms_attempts (w_store w) !! k) as [a|] eqn:Ha; [|by apply keeps_same].
  destruct (bool_decide _); [|by apply keeps_same]. by eapply keeps_attempt.
Qed.
Lemma complete_attempt_keeps r w : Inv w → keeps w (upd (complete_attempt r) w).
Proof using.
  intros Hi. unfold upd, complete_attempt. destruct (attempt_key _ _ _) as [k|]; [|by apply keeps_same].
  destruct (ms_attempts (w_store w) !! k) as [a|] eqn:Ha; [|by apply keeps_same].
  destruct (attempt_is_terminal _); [by apply keeps_same|]. by eapply keeps_attempt.
Qed.
Lemma set_attempt_state_keeps j g n e t m u l r w :
  Inv w → keeps w (after (SetAttemptState j g n e t m u l r) w).
Proof using.
  intros Hi. cbn. unfold set_attempt_state.
  destruct (ms_attempts (w_store w) !! (gen_key j g, n)) as [a|] eqn:Ha; [|by apply keeps_same].
  destruct (negb _); [by apply keeps_same|]. by eapply keeps_attempt.
Qed.
Lemma push_all_keeps es w : Inv w → keeps w (upd (λ st, foldl (λ st e, push_entry e st) st es) w).
Proof using.
  revert w. induction es as [|e es IH]; intros w Hi; [by apply keeps_same|].
  assert (keeps w (upd (push_entry e) w)) as Hk by by apply keeps_push.
  eapply keeps_trans; [exact Hk|]. exact (IH _ (proj2 Hk)).
Qed.

(** The generation and job rows after an accepted lease. *)
Lemma lease_generation_eq l g st :
  ms_generations st !! lease_key l = Some g →
  ∃ g', lease_generation l st = on_generations <[lease_key l := g']> st
    ∧ gr_job_id g' = gr_job_id g ∧ gr_generation g' = gr_generation g ∧ gr_state g' ≠ GenAssigned
    ∧ (gr_state g' = GenLeased ∨ gr_state g' = gr_state g)
    ∧ (gr_state g ≠ GenAssigned → gr_state g' = gr_state g).
Proof using.
  intros Hg. unfold lease_generation. rewrite Hg. case_bool_decide as Hs.
  - exists (gen_in GenLeased None None g). split_and!; [done..|by left|done].
  - exists g. split_and!; [by rewrite on_generations_id|done..|by right|done].
Qed.
Lemma lease_job_eq l j st :
  ms_jobs st !! as_str (wl_job_id l) = Some j →
  ∃ j', lease_job l st = on_jobs <[as_str (wl_job_id l) := j']> st
    ∧ same_job j j' ∧ ej_current_generation j' = ej_current_generation j
    ∧ job_is_terminal (ej_state j') = job_is_terminal (ej_state j)
    ∧ (ej_state j' = JobCompleted → ej_state j = JobCompleted)
    ∧ (ej_state j = JobCompleted → ej_state j' = JobCompleted).
Proof using.
  intros Hj. unfold lease_job. rewrite Hj. destruct (bool_decide (ej_current_generation j = _)).
  - cbn [andb]. case_bool_decide as Hs.
    + exists (job_at (ej_current_generation j) JobLeased j). cbn. rewrite Hs. by split_and!.
    + exists j. rewrite on_jobs_id by done. by split_and!.
  - cbn [andb]. exists j. rewrite on_jobs_id by done. by split_and!.
Qed.

Lemma try_accept_keeps l es w :
  Inv w → op_pre (TryAcceptLease l es) w → keeps w (after (TryAcceptLease l es) w).
Proof using uuid_inj.
  intros Hi (Hlive & n & a & u & Hn & []). cbn. unfold try_accept_lease.
  destruct (find_lease _ _ _) as [o|] eqn:Hf; [by apply keeps_same|].
  destruct le_job0 as (j & Hj & Hsj & Hcur), le_worker0 as (v & Hv & Hsv).
  rewrite le_job_id0 in Hj. rewrite le_worker_id0 in Hv.
  destruct (inv_gens _ _ _ _ Hi _ _ (as_u64 (wl_generation l)) Hj) as [g Hg].
  { pose proof (gen_bounds (wl_generation l)). lia. }
  set (st1 := on_leases <[as_str (wl_lease_id l) := l]> (w_store w)).
  destruct (lease_generation_eq l g st1) as (g' & Eg & Hg'); [done|].
  destruct (lease_job_eq l j (lease_generation l st1)) as (j' & Ej & Hj'); [by rewrite Eg|].
  assert (lease_home l w) as Hhome.
  { destruct Hsj, Hsv. exists j, v. split_and!; [done|done|congruence|lia|congruence..]. }
  assert (keeps w (upd (λ st, lease_job l (lease_generation l (on_leases <[as_str (wl_lease_id l) := l]> st))) w)) as Hk.
  { unfold upd. fold st1. rewrite Ej, Eg. eapply keeps_accept; [done..| | | | | | |].
    - intros k l' Hl' E. eapply find_lease_None; [exact Hf|exact Hl'|by apply key_eq_lease].
    - done.
    - exact Hn.
    - done.
    - done.
    - by exists j.
    - by exists g. }
  eapply keeps_trans; [exact Hk|]. destruct Hk as [_ Hk].
  pose proof (lease_attempt_keeps l _ Hk) as Hk2. eapply keeps_trans; [exact Hk2|]. destruct Hk2 as [_ Hk2].
  exact (push_all_keeps es _ Hk2).
Qed.

Lemma renew_keeps id g h t w : Inv w → keeps w (after (RenewLease id g h t) w).
Proof using.
  intros Hi. cbn. unfold renew_lease.
  destruct (ms_leases (w_store w) !! as_str id) as [a|] eqn:Ha; [|by apply keeps_same].
  destruct (live_at g a) eqn:Hl; [|by apply keeps_same]. cbn [negb].
  apply andb_prop in Hl as [Hl%bool_decide_eq_true _].
  eapply keeps_lease; [done..| |]; cbn; congruence.
Qed.
Lemma end_keeps id g s t r w :
  Inv w → op_pre (EndLease id g s t r) w → keeps w (after (EndLease id g s t r) w).
Proof using.
  intros Hi Hs. cbn. unfold end_lease.
  destruct (ms_leases (w_store w) !! as_str id) as [a|] eqn:Ha; [|by apply keeps_same].
  destruct (live_at g a) eqn:Hl; [|by apply keeps_same]. cbn [negb].
  apply andb_prop in Hl as [Hl%bool_decide_eq_true _].
  eapply keeps_lease; [done..| |]; by destruct Hs as [-> | ->].
Qed.

Lemma complete_generation_eq r g st :
  ms_generations st !! result_key r = Some g →
  ∃ g', complete_generation r st = on_generations <[result_key r := g']> st
    ∧ gr_job_id g' = gr_job_id g ∧ gr_generation g' = gr_generation g
    ∧ gr_state g' = if gen_is_terminal (gr_state g) then gr_state g else GenCompleted.
Proof using.
  intros Hg. unfold complete_generation. rewrite Hg. destruct (gen_is_terminal (gr_state g)) eqn:Hs.
  - exists g. rewrite on_generations_id by done. by split_and!.
  - by exists (gen_in GenCompleted (Some (rs_accepted_ms r)) None g).
Qed.
Lemma complete_job_eq r j st :
  ms_jobs st !! as_str (rs_job_id r) = Some j →
  complete_job r st
    = on_jobs <[as_str (rs_job_id r) := job_at (ej_current_generation j) JobCompleted j]> st.
Proof using. intros Hj. unfold complete_job. by rewrite Hj. Qed.

Lemma land_keeps r w : Inv w → op_pre (LandResult r) w → keeps w (after (LandResult r) w).
Proof using.
  intros Hi (a & u & (j & Hj & Hsj & _) & Hid & Hdig & (v & Hv & Hsv) & Hu & Ho). cbn. unfold land_result.
  rewrite Hid in Hj. rewrite Hu in Hv.
  destruct (ms_results (w_store w) !! result_key r) as [o|] eqn:Hr; [destruct (_ && _); by apply keeps_same|].
  rewrite Hj. destruct (bool_decide (ej_current_generation j = rs_generation r)) eqn:Hc; [|by apply keeps_same].
  apply bool_decide_eq_true in Hc. cbn [negb].
  destruct (ms_leases (w_store w) !! as_str (rs_lease_id r)) as [l|] eqn:Hl; [|by apply keeps_same].
  destruct (bool_decide (wl_worker_id l = rs_worker_id r)) eqn:Hw; [|by apply keeps_same].
  destruct (bool_decide (wl_generation l = rs_generation r)) eqn:Hg; [|by apply keeps_same].
  destruct (bool_decide (wl_state l = LeaseLive)) eqn:Hs; [|by apply keeps_same].
  apply bool_decide_eq_true in Hw, Hg, Hs. cbn [negb orb].
  destruct (inv_job _ _ _ _ Hi _ _ Hj) as (_ & [Hpos _] & _).
  destruct (inv_gens _ _ _ _ Hi _ _ (current j) Hj) as [g Hgr]; [lia|].
  set (l' := lease_in LeaseCompleted (Some (rs_accepted_ms r)) (wl_reason l) l).
  set (st1 := on_leases <[as_str (rs_lease_id r) := l']> (on_results <[result_key r := r]> (w_store w))).
  assert (ms_generations st1 !! result_key r = Some g) as Hg1 by (unfold gen_key; rewrite <- Hc; done).
  destruct (complete_generation_eq r g st1 Hg1) as (g' & Eg & Hg').
  assert (keeps w (upd (λ st, complete_job r (complete_generation r (on_leases <[as_str (rs_lease_id r) := l']>
    (on_results <[result_key r := r]> st)))) w)) as Hk.
  { unfold upd. fold st1. rewrite Eg, (complete_job_eq r j) by done.
    destruct Hsj, Hsv. eapply (keeps_land _ _ _ r l l' g' j _ v); try done; try congruence.
    exists g. split; [exact Hg1|done]. }
  eapply keeps_trans; [exact Hk|]. exact (complete_attempt_keeps r _ (proj2 Hk)).
Qed.

(** Every call. *)
Theorem store_keeps {A} (c : StoreCall A) w : Inv w → op_pre c w → keeps w (after c w).
Proof using uuid_inj secret_inj.
  intros Hi Hp. destruct c; try by apply keeps_same.
  - by apply put_worker_keeps.
  - by apply touch_worker_keeps.
  - by apply register_keeps.
  - by apply put_token_keeps.
  - by destruct Hp.
  - by destruct Hp.
  - by apply insert_keeps.
  - by apply set_generation_state_keeps.
  - by apply set_job_state_keeps.
  - by apply try_accept_keeps.
  - by apply renew_keeps.
  - by apply end_keeps.
  - by destruct Hp.
  - by apply set_attempt_state_keeps.
  - by apply land_keeps.
  - by apply keeps_push.
Qed.

(** ** What a call tells its caller *)
Definition op_post {A} (c : StoreCall A) : A → World → Prop :=
  match c in StoreCall A return A → World → Prop with
  | InsertGenerationAndAttempt b _ _ => λ _ w, job_known b w
  | SetGenerationState j g _ _ _ _ => λ _ w,
      (∃ l, lease_over l w ∧ lease_key l = gen_key j g) → gen_terminal (gen_key j g) w
  | EndLease id _ to _ _ => λ ended w,
      ended = true → ∃ b, ms_leases (w_store w) !! as_str id = Some b ∧ wl_state b = to
  | AppendJournal e => λ _ w, ∃ n, with_seq n e ∈ ms_journal (w_store w)
  | GetWorker id => λ x w, ms_workers (w_store w) !! as_str id = x
  | Workers o a n => λ x w, ∀ u, u ∈ x →
      wr_organization_id u = o ∧ ∃ k, ms_workers (w_store w) !! k = Some u
  | GetToken h => λ x w, ms_tokens (w_store w) !! h = x
  | GetJob id => λ x w, ms_jobs (w_store w) !! as_str id = x
  | LeaseForGeneration j g => λ x w, find_lease j g (w_store w) = x
  | GetLease id => λ x w, ms_leases (w_store w) !! as_str id = x
  | LiveLeases o => λ x w, ∀ l, l ∈ x → ∃ k, ms_leases (w_store w) !! k = Some l
  | LiveLeasesOfWorker u => λ x w, ∀ l, l ∈ x → ∃ k, ms_leases (w_store w) !! k = Some l
  | MaxAttemptNumber j => λ n w, ∀ a, ms_jobs (w_store w) !! as_str j = Some a → n = current a
  | _ => λ _ _, True
  end.

Lemma foldr_max_spec l : (∀ n, n ∈ l → n <= foldr N.max 0 l) ∧ (l ≠ [] → foldr N.max 0 l ∈ l).
Proof using.
  induction l as [|n l [IH1 IH2]]; [by split; [intros n ?%elem_of_nil|]|]. cbn. split.
  - intros m [->|Hm]%elem_of_cons; [lia|]. specialize (IH1 _ Hm). lia.
  - intros _. destruct (N.max_spec n (foldr N.max 0 l)) as [[? ->]|[? ->]]; [|by left].
    right. apply IH2. intros ->. cbn in *. lia.
Qed.

(** One attempt per generation, numbered like it. *)
Lemma max_attempt_current j a w :
  Inv w → ms_jobs (w_store w) !! as_str j = Some a →
  (max_attempt_number j (w_store w)).1 = Ok (current a).
Proof using.
  intros Hi Ha. cbn. f_equal. set (l := (List.filter _ _).*1.*2). destruct (foldr_max_spec l) as [Hge Hin].
  assert (∀ n, n ∈ l ↔ is_Some (ms_attempts (w_store w) !! ((as_str j, n), n))) as Hl.
  { intros n. subst l. rewrite list_elem_of_fmap. split.
    - intros (k & -> & Hk). apply list_elem_of_fmap in Hk as ([[[k' g] m] x] & -> & Hk).
      apply list_elem_of_In, List.filter_In in Hk as [Hk%list_elem_of_In%elem_of_map_to_list Hb].
      apply bool_decide_eq_true in Hb. cbn in *. destruct (inv_attempt _ _ _ _ Hi _ _ Hk) as (_ & E & _).
      cbn in E. subst. by eexists.
    - intros [x Hx]. exists (((as_str j, n), n)). split; [done|]. apply list_elem_of_fmap.
      exists (((as_str j, n), n), x). split; [done|].
      apply list_elem_of_In, List.filter_In. split; [by apply list_elem_of_In, elem_of_map_to_list|].
      by apply bool_decide_eq_true. }
  assert (∀ n, n ∈ l ↔ 1 <= n <= current a) as Hn.
  { intros n. rewrite Hl. split.
    - intros [x Hx]. destruct (inv_attempt _ _ _ _ Hi _ _ Hx) as (_ & _ & g & Hg).
      destruct (inv_gen _ _ _ _ Hi _ _ Hg) as (_ & _ & _ & b & Hb & ? & _). cbn in *.
      rewrite Ha in Hb. by injection Hb as <-.
    - intros Hn. by apply (inv_attempts _ _ _ _ Hi (as_str j, n)), (inv_gens _ _ _ _ Hi _ _ _ Ha). }
  destruct (inv_job _ _ _ _ Hi _ _ Ha) as (_ & [Hp _] & _).
  assert (current a ∈ l) as Hc by (apply Hn; lia).
  apply N.le_antisymm; [|by apply Hge]. apply Hn, Hin. intros ->. by apply elem_of_nil in Hc.
Qed.

Lemma over_terminal j g w :
  Inv w → (∃ l, lease_over l w ∧ lease_key l = gen_key j g) →
  (∀ a, ms_generations (w_store w) !! gen_key j g = Some a → gr_state a ≠ GenLeased) →
  gen_terminal (gen_key j g) w.
Proof using.
  intros Hi (l & (b & Hb & Hs & _) & Hk) Hn. destruct Hs.
  destruct (inv_lease _ _ _ _ Hi _ _ Hb) as (_ & _ & _ & jr & _ & Hj & _ & _ & Hle & _).
  destruct (inv_gens _ _ _ _ Hi _ _ (as_u64 (wl_generation b)) Hj) as [a Ha].
  { pose proof (gen_bounds (wl_generation b)). lia. }
  rewrite sl_job, sl_gen in Hk. change (_, _) with (lease_key b) in Ha.
  exists a. rewrite <- Hk. split; [done|].
  destruct (gr_state a) eqn:E; try done.
  - by destruct (inv_assigned _ _ _ _ Hi _ _ _ _ Ha E Hb).
  - by destruct (Hn a); [rewrite <- Hk|].
Qed.

Lemma in_filter_values {A} (f : A → bool) (m : gmap string A) x :
  x ∈ List.filter f (values m) → f x = true ∧ ∃ k, m !! k = Some x.
Proof using.
  intros [Hx%list_elem_of_In Hf]%list_elem_of_In%List.filter_In. split; [done|]. by apply elem_of_values.
Qed.

Lemma insert_known b g t w :
  Inv w → next_generation uuid b g t w → job_known b (after (InsertGenerationAndAttempt b g t) w)
  ∨ ∃ e, memory (InsertGenerationAndAttempt b g t) (w_store w) = (Err e, w_store w).
Proof using uuid_inj.
  intros Hi Hng. pose proof Hng as []. cbn. unfold insert_generation_and_attempt.
  destruct (ms_generations (w_store w) !! gen_key (gr_job_id g) (gr_generation g)) as [o|] eqn:Ho.
  - destruct (_ && _); [left|right; by eexists]. rewrite ng_gen_job0, ng_gen0 in Ho.
    destruct (inv_gen _ _ _ _ Hi _ _ Ho) as (_ & _ & _ & a & Ha & [_ Hle] & _). cbn in Ha, Hle.
    exists a. split_and!; [done| |done].
    destruct ng_spec0 as (n & mk & Hn & Hm & Hk), (inv_spec _ _ _ _ Hi _ _ Ha) as (n' & mk' & Hn' & Hm' & Hk').
    destruct (inv_job _ _ _ _ Hi _ _ Ha) as (Hid & _). rewrite Hid, Hn' in Hn.
    unfold mint_name in Hn. injection Hn as Hn. apply uuid_inj in Hn as ->.
    unfold minted_for in *. assert (mk' = mk) as -> by congruence.
    apply as_str_inj in Hid. rewrite <- Hid in Hk'. etrans; [symmetry; exact Hk|exact Hk'].
  - left. exists b. cbn. rewrite lookup_insert_eq. by split_and!.
Qed.

Theorem store_post {A} (c : StoreCall A) w x :
  Inv w → op_pre c w → (memory c (w_store w)).1 = Ok x → op_post c x (after c w).
Proof using uuid_inj secret_inj.
  intros Hi Hp Hx. destruct c; cbn [op_post]; try done; try by injection Hx as <-.
  - injection Hx as <-. intros u (i & Hu & _)%elem_of_take.
    apply list_elem_of_lookup_2, list_elem_of_In, List.filter_In in Hu as [Hu%list_elem_of_In _].
    apply in_filter_values in Hu as [Ho%bool_decide_eq_true Hk]. by split.
  - destruct (insert_known job generation attempt w Hi Hp) as [?|(e & He)]; [done|]. by rewrite He in Hx.
  - destruct Hp as (-> & -> & Hl). pose proof (set_generation_state_keeps job generation GenLeased GenLost
      ended_ms reason w Hi) as [Hev Hi']; [by split_and!|]. intros Hl'. apply (over_terminal _ _ _ Hi' Hl').
    cbn. intros a. unfold set_generation_state.
    destruct (ms_generations (w_store w) !! gen_key job generation) as [b|] eqn:Hb; [|cbn; congruence].
    destruct (bool_decide (gr_state b = GenLeased)) eqn:Hs; cbn.
    + rewrite lookup_insert_eq. by intros [= <-].
    + intros E. assert (a = b) as -> by congruence. by apply bool_decide_eq_false in Hs.
  - injection Hx as <-. intros l [_ Hk]%in_filter_values. done.
  - injection Hx as <-. intros l [_ Hk]%in_filter_values. done.
  - intros ->. cbn in *. unfold end_lease in *.
    destruct (ms_leases (w_store w) !! as_str lease) as [a|]; [|done].
    destruct (negb _); [done|]. cbn. rewrite lookup_insert_eq. by eexists.
  - intros a Ha. cbn in Ha. pose proof (max_attempt_current job a w Hi Ha) as Hm.
    unfold memory in Hx. rewrite Hx in Hm. by injection Hm.
  - eexists. cbn. apply elem_of_app. right. by apply list_elem_of_singleton.
Qed.
End Calls.
