(* ===== verification/WorkerSafe.v ===== *)
(** * Every method of the worker plane keeps the invariant

    [safe Q p w]: started at [w], whatever the rest of the plane does between
    its calls, every call of [p] knows what it has to, and [Q] holds of the
    result.  Each method is safe, so the invariant holds in every reachable
    system. *)
From S2P Require Import Prelude Strings Effects WorkerModel WorkerStore WorkerPlane WorkerInv WorkerCalls.
From stdpp Require Import sorting.
#[local] Open Scope string_scope.
#[local] Open Scope N_scope.
#[local] Open Scope prog_scope.

Section Safe.
Variable uuid : nat → string.
Variable secret : nat → string.
Variable token_hash_of : string → string.
Hypothesis uuid_inj : ∀ n m, uuid n = uuid m → n = m.
Hypothesis secret_inj : ∀ n m, token_hash_of (secret n) = token_hash_of (secret m) → n = m.
Notation Inv := (Inv uuid secret token_hash_of).
Notation keeps := (keeps uuid secret token_hash_of).
Notation op_pre := (op_pre uuid secret token_hash_of).
Notation handle := (handle uuid secret).

Definition ev_pre {X} (e : Event X) (w : World) : Prop :=
  match e with Store c => op_pre c w | _ => True end.

Lemma event_keeps {X} (e : Event X) w : Inv w → ev_pre e w → keeps w (handle e w).2.
Proof using uuid_inj secret_inj.
  intros Hi Hp. destruct e; cbn.
  - pose proof (store_keeps uuid secret token_hash_of uuid_inj secret_inj c w Hi Hp) as H. exact H.
  - by apply keeps_refl.
  - by apply keeps_minted.
  - by apply keeps_minted.
  - by apply keeps_minted.
Qed.

Fixpoint safe {A} (Q : A → World → Prop) (p : Prog A) (w : World) : Prop :=
  match p with
  | Ret a => ∀ w', evolves w w' → Inv w' → Q a w'
  | Halt => True
  | Call e k => ∀ w', evolves w w' → Inv w' →
      ev_pre e w' ∧ safe Q (k (handle e w').1) (handle e w').2
  end.

Lemma safe_later {A} Q (p : Prog A) w w' : evolves w w' → safe Q p w → safe Q p w'.
Proof using. intros Hev. destruct p; cbn; [|done|]; intros H w2 Hev2; apply H; by etrans. Qed.

(** Sequencing, with what the first part established. *)
Lemma safe_seq {A B} Q Q' (p : Prog A) (f : A → Prog B) w :
  Inv w → safe Q p w →
  (∀ a w', evolves w w' → Inv w' → Q a w' → safe Q' (f a) w') → safe Q' (pbind p f) w.
Proof using uuid_inj secret_inj.
  revert w. induction p as [a| |X e k IH]; cbn; intros w Hi Hp Hf; [by apply Hf, Hp|done|].
  intros w' Hev Hi'. destruct (Hp w' Hev Hi') as [Hpre Hk]. split; [done|].
  destruct (event_keeps e w' Hi' Hpre) as [Hev' Hi2]. apply IH; [done..|].
  intros a w2 Hev2. apply Hf. etrans; [exact Hev|]. by etrans.
Qed.
Lemma safe_mono {A} (Q Q' : A → World → Prop) p w :
  (∀ a w', Q a w' → Q' a w') → safe Q p w → safe Q' p w.
Proof using.
  intros HQ. revert w. induction p as [a| |X e k IH]; cbn; intros w H; [naive_solver|done|].
  intros w' Hev Hi. destruct (H w' Hev Hi). split; [done|]. by apply IH.
Qed.

(** ** Fallible programs *)
Definition oks {A} (R : A → World → Prop) (r : result A WorkerError) (w : World) : Prop :=
  match r with Ok a => R a w | Err _ => True end.
Notation ssafe R p w := (safe (oks R) p w).
Notation any := (λ _ _, True).

Lemma ssafe_bind {A B} P R (p : Svc A) (f : A → Svc B) w :
  Inv w → ssafe P p w →
  (∀ a w', evolves w w' → Inv w' → P a w' → ssafe R (f a) w') → ssafe R (sbind p f) w.
Proof using uuid_inj secret_inj.
  intros Hi Hp Hf. eapply safe_seq; [done|exact Hp|]. intros [a|e] w' Hev Hi' HP; [by apply Hf|done].
Qed.
Lemma ssafe_fail {A} R e w : ssafe R (sfail e : Svc A) w.
Proof using. done. Qed.
Lemma ssafe_ret {A} (R : A → World → Prop) a w : (∀ w', evolves w w' → Inv w' → R a w') → ssafe R (sret a) w.
Proof using. done. Qed.
Lemma ssafe_lift {A B} R (r : result A WorkerError) (f : A → Svc B) w :
  (∀ a, r = Ok a → ssafe R (f a) w) → ssafe R (sbind (lift r) f) w.
Proof using. destruct r as [a|e]; intros H; [exact (H a eq_refl)|done]. Qed.
Lemma ssafe_call {A B} R (c : StoreCall A) (f : A → Svc B) w :
  (∀ w', evolves w w' → Inv w' → op_pre c w') →
  (∀ x w', evolves w w' → Inv w' → op_post c x w' → ssafe R (f x) w') →
  ssafe R (sbind (store c) f) w.
Proof using uuid_inj secret_inj.
  intros Hp Hf w' Hev Hi. split; [by apply Hp|].
  destruct (event_keeps (Store c) w' Hi (Hp _ Hev Hi)) as [Hev' Hi'].
  pose proof (store_post uuid secret token_hash_of uuid_inj secret_inj c w') as Hpost. cbn in *.
  destruct (memory c (w_store w')) as [[x|e] st]; cbn in *; [|done].
  apply Hf; [by etrans|done|]. by apply Hpost; [|apply Hp|].
Qed.
Lemma ssafe_store {A} (c : StoreCall A) w :
  (∀ w', evolves w w' → Inv w' → op_pre c w') → ssafe any (store c) w.
Proof using. intros Hp w' Hev Hi. split; [by apply Hp|]. by destruct (handle _ w').1. Qed.
Lemma ssafe_now {B} R (f : Z → Svc B) w :
  (∀ t w', evolves w w' → Inv w' → ssafe R (f t) w') → ssafe R (sbind now_ms f) w.
Proof using. intros Hf w' Hev Hi. split; [done|]. by apply Hf. Qed.
Lemma safe_mint {X B} Q (e : Event X) (k : X → Prog B) w :
  (∀ w', ev_pre e w') →
  (∀ w', evolves w w' → Inv w' → safe Q (k (handle e w').1) (handle e w').2) → safe Q (Call e k) w.
Proof using. intros Hp Hk w' Hev Hi. split; [done|]. by apply Hk. Qed.
Lemma ssafe_journal {B} R o kind t u j g d (f : unit → Svc B) w :
  Inv w → (∀ w', evolves w w' → Inv w' → ssafe R (f tt) w') → ssafe R (sbind (journal_row o kind t u j g d) f) w.
Proof using uuid_inj secret_inj.
  intros Hi Hf. unfold journal_row. eapply (ssafe_bind any); [done| |by intros []; auto].
  apply ssafe_lift. intros e _. cbn. intros w' _ _. split; [done|]. by cbn.
Qed.

(** ** Facts read from the store *)
Definition job_seen (a : ExecutionJob) (w : World) : Prop :=
  job_known a w ∧ current a <= max_attempts (ej_requeue a)
  ∧ max_attempts (ej_requeue a) <= MAX_REQUEUE_ATTEMPTS
  ∧ scheduled (ej_job_id a) (ej_organization_id a) w ∧ job_spec uuid a w.
Lemma job_seen_stable a : stable (job_seen a).
Proof using.
  intros w w' Hev (? & ? & ? & ? & ?).
  split_and!; [by eapply job_known_stable|done|done|by eapply scheduled_stable|by eapply job_spec_stable].
Qed.
Lemma job_read id a w :
  Inv w → ms_jobs (w_store w) !! as_str id = Some a → ej_job_id a = id ∧ job_seen a w.
Proof using.
  intros Hi Ha. destruct (inv_job _ _ _ _ Hi _ _ Ha) as (Hid & [? ?] & ? & ?).
  pose proof (inv_spec _ _ _ _ Hi _ _ Ha). split; [symmetry; by apply as_str_inj|]. rewrite Hid in Ha.
  split_and!; try done. by exists a.
Qed.
Lemma worker_read id a w :
  Inv w → ms_workers (w_store w) !! id = Some a → id = as_str (wr_worker_id a) ∧ worker_known a w.
Proof using.
  intros Hi Ha. destruct (inv_worker _ _ _ _ Hi _ _ Ha) as (Hid & _). split; [done|].
  exists a. by rewrite <- Hid.
Qed.
Lemma token_read h a w : Inv w → ms_tokens (w_store w) !! h = Some a → token_known a w.
Proof using. intros Hi Ha. destruct (inv_token _ _ _ _ Hi _ _ Ha) as (Hid & _). exists a. by rewrite <- Hid. Qed.
Lemma lease_read k a w : Inv w → ms_leases (w_store w) !! k = Some a → k = as_str (wl_lease_id a) ∧ lease_known a w.
Proof using.
  intros Hi Ha. destruct (inv_lease _ _ _ _ Hi _ _ Ha) as (Hid & _). split; [done|]. exists a. by rewrite <- Hid.
Qed.
(** A lease that is over while its job goes on has no result. *)
Lemma over_lost l j w :
  Inv w → lease_over l w → ms_jobs (w_store w) !! as_str (wl_job_id l) = Some j →
  ej_current_generation j = wl_generation l → job_is_terminal (ej_state j) = false → lease_lost l w.
Proof using.
  intros Hi (b & Hb & Hs & Hn) Hj Hg Ht. exists b. split_and!; [done..|]. intros Ho Hc.
  destruct (inv_own_lease _ _ _ _ Hi Ho _ _ Hb Hc) as (r & Hr & _).
  destruct (inv_own_result _ _ _ _ Hi Ho _ _ Hr) as (j' & Hj' & _ & Hc').
  destruct Hs as [_ _ Hsj _ _]. cbn in Hj'. rewrite <- Hsj, Hj in Hj'. injection Hj' as <-. by rewrite Hc' in Ht.
Qed.

Ltac carry Hev :=
  repeat match type of Hev with evolves ?w ?w' =>
    match goal with
    | H : worker_known _ w |- _ => apply (worker_known_stable _ _ _ Hev) in H
    | H : token_known _ w |- _ => apply (token_known_stable _ _ _ Hev) in H
    | H : job_known _ w |- _ => apply (job_known_stable _ _ _ Hev) in H
    | H : job_seen _ w |- _ => apply (job_seen_stable _ _ _ Hev) in H
    | H : gen_terminal _ w |- _ => apply (gen_terminal_stable _ _ _ Hev) in H
    | H : lease_over _ w |- _ => apply (lease_over_stable _ _ _ Hev) in H
    | H : lease_lost _ w |- _ => apply (lease_lost_stable _ _ _ Hev) in H
    | H : lease_known _ w |- _ => apply (lease_known_stable _ _ _ Hev) in H
    | H : attempts_read _ _ w |- _ => apply (attempts_read_stable _ _ _ _ Hev) in H
    | H : scheduled _ _ w |- _ => apply (scheduled_stable _ _ _ _ Hev) in H
    | H : minted_for _ _ w |- _ => apply (minted_for_stable _ _ _ _ Hev) in H
    | H : job_spec _ _ w |- _ => apply (job_spec_stable _ _ _ _ Hev) in H
    end end.
(** Move to a later world, with what is known. *)
Ltac later w :=
  let Hev := fresh "Hev" in let Hi := fresh "Hi" in
  intros w Hev Hi; carry Hev.
(** A call that needs nothing, up to its result. *)
Ltac get x w :=
  apply ssafe_call; [done|]; intros x; later w; cbn [op_post].
Ltac tests :=
  repeat match goal with
    | |- ssafe _ (if ?b then _ else _) _ =>
        let E := fresh "E" in destruct b eqn:E; [try by apply ssafe_fail|try by apply ssafe_fail]
    end.

(** ** Lookups *)
Lemma safe_require_eligible id o d reqs w :
  ssafe (λ a w', worker_known a w' ∧ wr_worker_id a = id ∧ wr_organization_id a = as_str o
                 ∧ wr_trust_domain a = d) (require_eligible id o d reqs) w.
Proof using uuid_inj secret_inj.
  unfold require_eligible. get x w1. intros Hx. destruct x as [a|]; [|done].
  apply worker_read in Hx as [Hid Hk]; [|done]. tests.
  apply negb_false_iff, bool_decide_eq_true in E, E1. apply as_str_inj in Hid as ->.
  apply ssafe_ret. later w2. by split_and!.
Qed.
Lemma safe_authenticate id t w :
  ssafe (λ a w', worker_known a w' ∧ wr_worker_id a = id) (authenticate token_hash_of id t) w.
Proof using uuid_inj secret_inj.
  unfold authenticate. get x w1. intros Hx. destruct x as [a|]; [|done].
  apply worker_read in Hx as [Hid Hk]; [|done]. apply as_str_inj in Hid as ->. tests.
  get y w2. intros Hy. destruct y as [b|]; [|done]. tests. destruct (tk_consumed_by b); [|done]. tests.
  apply ssafe_ret. later w3. by split.
Qed.
Lemma safe_authenticate_in o id t w :
  Inv w → ssafe (λ a w', worker_known a w' ∧ wr_worker_id a = id ∧ wr_organization_id a = as_str o)
    (authenticate_in token_hash_of o id t) w.
Proof using uuid_inj secret_inj.
  intros Hi. unfold authenticate_in. eapply ssafe_bind; [done|apply safe_authenticate|].
  cbn. intros a w1 _ Hi1 [Hk <-]. tests. apply negb_false_iff, bool_decide_eq_true in E.
  apply ssafe_ret. later w2. by split_and!.
Qed.
Lemma safe_require_job o id w :
  ssafe (λ a w', job_seen a w' ∧ ej_job_id a = id ∧ ej_organization_id a = as_str o) (require_job o id) w.
Proof using uuid_inj secret_inj.
  unfold require_job. get x w1. intros Hx. destruct x as [a|]; [|done].
  apply job_read in Hx as [<- Hk]; [|done]. tests. apply negb_false_iff, bool_decide_eq_true in E.
  apply ssafe_ret. later w2. by split_and!.
Qed.
Lemma safe_indexed_job o raw w :
  ssafe (λ x w', ∀ a, x = Some a → job_seen a w' ∧ ej_organization_id a = as_str o
                     ∧ job_is_terminal (ej_state a) = false) (indexed_job o raw) w.
Proof using uuid_inj secret_inj.
  unfold indexed_job. destruct (try_new_id raw) as [id|]; [|done].
  get x w1. intros Hx. destruct x as [a|]; [|done]. apply job_read in Hx as [<- Hk]; [|done].
  destruct (_ || _) eqn:E; [done|]. apply orb_false_iff in E as [E%negb_false_iff%bool_decide_eq_true E'].
  apply ssafe_ret. later w2. intros b [= <-]. by split_and!.
Qed.

(** ** Eligible workers *)
Definition eligible (o : OrganizationId) (d : string) (x : option WorkerRegistration) (w : World) : Prop :=
  ∀ a, x = Some a → worker_known a w ∧ wr_organization_id a = as_str o ∧ wr_trust_domain a = d.
Lemma safe_first_eligible o d reqs page w :
  (∀ a, a ∈ page → worker_known a w ∧ wr_organization_id a = as_str o) →
  ssafe (eligible o d) (first_eligible d reqs page) w.
Proof using uuid_inj secret_inj.
  revert w. induction page as [|a page IH]; intros w Hp; [done|]. cbn.
  assert (ssafe (eligible o d) (first_eligible d reqs page) w) as Hrest.
  { apply IH. intros b Hb. apply Hp. by right. }
  destruct (Hp a) as [Hk Ho]; [by left|]. do 3 (case_match; [done|]).
  apply negb_false_iff, bool_decide_eq_true in H0.
  get x w1. intros _. case_match; [by eapply safe_later|]. apply ssafe_ret. later w2.
  intros b [= <-]. by split_and!.
Qed.
Lemma safe_find_eligible fuel o d reqs w : ssafe (eligible o d) (find_eligible fuel o d reqs) w.
Proof using uuid_inj secret_inj.
  unfold find_eligible. generalize (@None string) as after. revert w.
  induction fuel as [|n IH]; intros w after; [done|]. cbn [eligible_pages]. get page w1. intros Hpage.
  destruct (last page) as [u|]; [|done]. eapply ssafe_bind; [done|apply safe_first_eligible|].
  - intros a Ha. destruct (Hpage _ Ha) as (Ho & k & Hk). split; [|done]. by apply worker_read in Hk as [_ ?].
  - intros [a|] w2 _ Hi2 Hf; [|case_match; [done|apply IH]]. apply ssafe_ret. later w3. intros b [= <-].
    destruct (Hf a) as (? & ? & ?); [done|]. carry Hev0. by split_and!.
Qed.

(** ** Accepting a lease *)
Lemma minted_here p name w : minted_for (List.length (w_minted w)) p (minting p name w).2.
Proof using. unfold minted_for. cbn. by rewrite lookup_app_r, Nat.sub_diag. Qed.
Lemma try_new_id_str s id : try_new_id s = Ok id → as_str id = s.
Proof using. unfold try_new_id. destruct (decide _); [|done]. by intros [= <-]. Qed.

Lemma safe_reject {A} R o kind t u j g d e w :
  Inv w → ssafe R (sbind (journal_row o kind t u j g d) (λ _, sfail e) : Svc A) w.
Proof using uuid_inj secret_inj. intros Hi. by apply ssafe_journal. Qed.

Lemma safe_accept_lease_inner u o a g now via w :
  Inv w → worker_known u w → job_seen a w → ej_organization_id a = as_str o →
  ssafe any (accept_lease_inner u o a g now via) w.
Proof using uuid_inj secret_inj.
  intros Hi Hu Ha Ho. unfold accept_lease_inner. case_match eqn:E; [done|].
  apply orb_false_iff in E as [Euo%negb_false_iff%bool_decide_eq_true Eud%negb_false_iff%bool_decide_eq_true].
  eapply (ssafe_bind (λ _ _, may_take (ej_assigned_worker a) (wr_worker_id u) = true)); [done| |].
  { unfold may_take. destruct (ej_assigned_worker a) as [v|]; [|done].
    case_match eqn:E; [done|]. apply negb_false_iff in E. apply ssafe_ret. intros. exact E. }
  intros _ w1 Hev1 Hi1 Htake. carry Hev1. cbv zeta.
  case_match eqn:Eg; [by apply safe_reject|]. apply negb_false_iff, bool_decide_eq_true in Eg as ->.
  case_match; [done|].
  get row w2. intros _. destruct row as [row|]; [|done].
  get l w3. intros _. destruct l as [l|]; [by apply safe_reject|].
  do 2 (case_match; [done|]). get live w4. intros _. case_match; [done|].
  apply safe_mint; [done|]. later w5.
  destruct (event_keeps (MintLease (ej_job_id a) (ej_current_generation a)) w5) as [Hev6 Hi6]; [done..|].
  pose proof (minted_here (PLease (ej_job_id a) (ej_current_generation a)) (mint_name uuid "lease") w5) as Hm.
  change (minting _ _ w5).2 with (handle (MintLease (ej_job_id a) (ej_current_generation a)) w5).2 in Hm.
  carry Hev6. apply ssafe_lift. intros id Hid%try_new_id_str. apply ssafe_lift. intros e _.
  eapply (ssafe_bind any); [done|destruct via; [by apply ssafe_lift|done]|].
  intros es w7 Hev7 Hi7 _. carry Hev7. apply ssafe_call; [|by intros [x|]; later w8; [intros _; apply safe_reject|]].
  later w8. cbn. split; [done|]. destruct Ha as (Hk & _). by exists (List.length (w_minted w5)), a, u.
Qed.
Lemma safe_choose_target fuel o a w :
  Inv w → ssafe (eligible o (ej_trust_domain a)) (choose_target fuel o a) w.
Proof using uuid_inj secret_inj.
  intros Hi. unfold choose_target. case_match; [|by apply safe_find_eligible].
  eapply safe_seq; [done|by apply safe_require_eligible|].
  intros [u|e] w1 _ Hi1; [|by case_match]. intros (Hk & _ & Hu). apply ssafe_ret. later w2.
  intros b [= <-]. by split.
Qed.
Lemma safe_assign fuel o a now w :
  Inv w → job_seen a w → ej_organization_id a = as_str o → ssafe any (assign fuel o a now) w.
Proof using uuid_inj secret_inj.
  intros Hi Ha Ho. unfold assign. eapply ssafe_bind; [done|by apply safe_choose_target|].
  intros [u|] w1 Hev Hi1 Hu; [|done]. carry Hev. destruct (Hu u) as (Hk & _); [done|].
  eapply (safe_seq (oks any)); [done|by apply safe_accept_lease_inner|].
  intros [l|e] w2 _ _ _; [done|by case_match].
Qed.

(** ** Losing a lease *)
Lemma next_succ g g' : next g = Ok g' → as_u64 g' = as_u64 g + 1.
Proof using.
  unfold next, try_new_generation, U64.checked_add. case_match eqn:E; [|done]. destruct (decide _); [|done].
  intros [= <-]. cbn. case_match; [|done]. congruence.
Qed.

Lemma job_at_same a g s : same_job a (job_at g s a).
Proof using. by split. Qed.

(** The next generation of a job whose current one is lost. *)
Lemma requeue_generation a l n g' row att w :
  job_seen a w → lease_lost l w → gen_terminal (lease_key l) w → attempts_read a n w →
  wl_job_id l = ej_job_id a → wl_generation l = ej_current_generation a →
  n < max_attempts (ej_requeue a) → as_u64 g' = current a + 1 →
  gr_job_id row = ej_job_id a → gr_generation row = g' → gr_state row = GenAssigned →
  ja_job_id att = ej_job_id a → ja_generation att = g' → ja_attempt att = U32.sat_add n 1 →
  next_generation uuid (job_at g' JobAssigned a) row att w.
Proof using.
  intros (Hk & ? & ? & ? & ?) Hl Ht Hn Hlj Hlg ? Hg ??????.
  assert (lease_key l = (as_str (ej_job_id a), current a)) as El by (unfold gen_key; by rewrite Hlj, Hlg).
  pose proof Hn as (b & _ & Hle & _). split; try done; cbn.
  - eapply job_spec_same; [apply job_at_same|done].
  - lia.
  - right. exists a, l, n. rewrite <- El. split_and!; try done; lia.
Qed.
Lemma job_seen_at a g s w :
  job_seen a w → job_known (job_at g s a) w → as_u64 g <= max_attempts (ej_requeue a) →
  job_seen (job_at g s a) w.
Proof using. intros (? & ? & ? & ? & ?) ??. split_and!; try done. eapply job_spec_same; [apply job_at_same|done]. Qed.

Lemma safe_attempt_number_for id g w : ssafe any (attempt_number_for id g) w.
Proof using uuid_inj secret_inj. by apply ssafe_call. Qed.

Lemma safe_finish_lost_lease fuel l reason now r w :
  Inv w → lease_over l w → ssafe any (finish_lost_lease fuel l reason now r) w.
Proof using uuid_inj secret_inj.
  intros Hi Hl. unfold finish_lost_lease.
  apply ssafe_call. { later w1. cbn. split_and!; [done..|]. by exists l. }
  intros ended. later w1. intros Ht. cbn [op_post] in Ht. specialize (Ht (ex_intro _ l (conj Hl eq_refl))).
  eapply ssafe_bind; [done|apply safe_attempt_number_for|]. intros n w2 Hev2 Hi2 _. carry Hev2.
  get b w3. intros _. apply ssafe_journal; [done|]. later w4.
  get x w5. intros Hx. destruct x as [a|]; [|done].
  pose proof (over_lost l a w5) as Hlost. apply job_read in Hx as Hx'; [|done]. destruct Hx' as [Hid Ha].
  case_match eqn:E; [done|]. apply orb_false_iff in E as [Eg%negb_false_iff%bool_decide_eq_true Ej].
  specialize (Hlost ltac:(done) Hl Hx Eg Ej).
  apply ssafe_call; [done|]. intros m. later w6. cbn [op_post]. intros Hm.
  assert (attempts_read a m w6) as Hread.
  { pose proof Ha as ((b' & Hb' & _ & Hle) & _). rewrite (Hm b' Hb'). exists b'. split; [done|lia]. }
  assert (∃ l0, lease_lost l0 w6 ∧ lease_key l0 = gen_key (ej_job_id a) (wl_generation l)) as Hlost'.
  { exists l. by rewrite Hid. }
  case_match eqn:Emax; [|case_match eqn:En].
  1,3: apply ssafe_call; [later w7; cbn; split; [done|]; exists l; by rewrite Hid|];
       intros ?; later w7; intros _; try apply ssafe_journal; done.
  apply N.leb_gt in Emax. apply next_succ in En.
  apply ssafe_call. { later w7. by eapply (requeue_generation a l m). }
  intros ins. later w7. intros Hb. cbn [op_post] in Hb. case_match; [done|]. cbv zeta.
  apply ssafe_journal; [done|]. later w8. apply ssafe_lift. intros o Ho%try_new_id_str.
  pose proof Hread as (b' & _ & ? & _).
  eapply ssafe_bind; [done|apply safe_assign; [done|by apply job_seen_at; [..|lia]|done]|done].
Qed.
Lemma safe_end_lease_and_requeue fuel l s reason now r w :
  Inv w → lease_known l w → s = LeaseExpiredS ∨ s = LeaseRevoked →
  ssafe any (end_lease_and_requeue fuel l s reason now r) w.
Proof using uuid_inj secret_inj.
  intros Hi Hl Hs. unfold end_lease_and_requeue. apply ssafe_call; [done|].
  intros ended. later w1. intros Hb. cbn [op_post] in Hb. destruct ended; [|done]. cbn [negb].
  apply safe_finish_lost_lease; [done|]. destruct (Hb eq_refl) as (b & Hb' & Es), Hl as (c & Hc & Hsame).
  exists b. replace b with c in * by congruence. split_and!; [done..|]. rewrite Es. by destruct Hs as [->| ->].
Qed.

(** ** Tokens and registrations *)
Lemma safe_mint_registration_token o d l w : ssafe any (mint_registration_token token_hash_of o d l) w.
Proof using uuid_inj secret_inj.
  unfold mint_registration_token. do 2 (case_match; [done|]).
  apply safe_mint; [done|]. later w1.
  pose proof (minted_here (PToken (as_str o) (to_ascii_lowercase (trim d))) secret w1) as Hm.
  change (handle _ w1).2 with (minting (PToken (as_str o) (to_ascii_lowercase (trim d))) secret w1).2.
  apply ssafe_now. intros now. later w2. apply ssafe_call; [|done].
  later w3. right. by exists (List.length (w_minted w1)).
Qed.
Lemma revoked_known a w : token_known a w → token_known (revoked_token a) w.
Proof using. intros (b & ? & []). by exists b. Qed.
Lemma safe_revoke_token o h w : ssafe any (revoke_token o h) w.
Proof using uuid_inj secret_inj.
  unfold revoke_token. get x w1. intros Hx. destruct x as [a|]; [|done]. apply token_read in Hx; [|done].
  do 2 (case_match; [done|]). apply ssafe_store. later w2. left. by apply revoked_known.
Qed.
Lemma safe_register o u t c d w : ssafe any (register token_hash_of o u t c d) w.
Proof using uuid_inj secret_inj.
  unfold register. apply ssafe_lift. intros caps _. case_match; [done|].
  apply ssafe_now. intros now. later w1. get x w2. intros _. destruct x as [tok|]; [|done].
  do 3 (case_match; [done|]). eapply (ssafe_bind any); [done|by repeat case_match|].
  intros _ w3 _ Hi3 _. get y w4. intros _. eapply (ssafe_bind any); [done|by repeat case_match|].
  intros _ w5 _ Hi5 _. case_match. apply ssafe_lift. intros e _. by apply ssafe_call.
Qed.

Lemma safe_revoke_leases fuel now ls r w :
  Inv w → (∀ l, l ∈ ls → lease_known l w) → ssafe any (revoke_leases fuel now ls r) w.
Proof using uuid_inj secret_inj.
  revert w r. induction ls as [|l ls IH]; intros w r Hi Hl; [done|]. cbn [revoke_leases].
  eapply ssafe_bind; [done|apply safe_end_lease_and_requeue; [done|apply Hl; by left|by right]|].
  intros r' w1 Hev Hi1 _. apply IH; [done|]. intros l' Hl'. eapply lease_known_stable, Hl; [done|by right].
Qed.
Lemma live_known (x : list WorkerLease) w :
  Inv w → (∀ l, l ∈ x → ∃ k, ms_leases (w_store w) !! k = Some l) → ∀ l, l ∈ x → lease_known l w.
Proof using. intros Hi Hx l [k Hk]%Hx. by apply lease_read in Hk as [_ ?]. Qed.
Lemma safe_revoke_worker fuel o u w : ssafe any (revoke_worker fuel o u) w.
Proof using uuid_inj secret_inj.
  unfold revoke_worker. apply ssafe_now. intros now. later w1. get x w2. intros Hx.
  destruct x as [a|]; [|done]. apply worker_read in Hx as [_ Hk]; [|done]. do 2 (case_match; [done|]).
  apply ssafe_call. { later w3. split; [done|]. destruct Hk as (b & ? & []). by exists b. }
  intros []. later w3. intros _. get t w4. intros Ht.
  eapply (ssafe_bind any); [done| |].
  { destruct t as [t|]; [|done]. apply token_read in Ht; [|done].
    apply ssafe_store. later w5. left. by apply revoked_known. }
  intros _ w5 _ Hi5 _. get ls w6. intros Hls.
  eapply ssafe_bind; [done|apply safe_revoke_leases; [done|by apply live_known]|].
  intros r w7 _ Hi7 _. by apply ssafe_journal.
Qed.

(** ** Scheduling *)
Lemma ssafe_scheduled {B} R o at_ms u id g d (f : unit → Svc B) w :
  Inv w → (∀ w', evolves w w' → Inv w' → scheduled id o w' → ssafe R (f tt) w') →
  ssafe R (sbind (journal_row o "job_scheduled" at_ms u (Some id) (Some g) d) f) w.
Proof using uuid_inj secret_inj.
  intros Hi Hf. unfold journal_row. eapply (ssafe_bind (λ _, scheduled id o)); [done| |by intros []; auto].
  apply ssafe_lift. intros e He. unfold entry_new in He. case_match; [done|]. injection He as <-.
  intros w1 Hev Hi1. split; [done|]. cbn. intros w2 Hev2 _. eapply scheduled_stable; [exact Hev2|].
  eexists. cbn. split; [apply elem_of_app; right; by apply list_elem_of_singleton|]. by destruct u.
Qed.

Lemma first_generation mk id row att w n :
  (∀ id, ej_job_id (mk id) = id) → let a := mk id in
  as_str id = mint_name uuid "job" n → minted_for n (PJob mk) w →
  scheduled id (ej_organization_id a) w → ej_state a = JobAssigned → ej_current_generation a = FIRST →
  1 <= max_attempts (ej_requeue a) <= MAX_REQUEUE_ATTEMPTS →
  gr_job_id row = id → gr_generation row = FIRST → gr_state row = GenAssigned →
  ja_job_id att = id → ja_generation att = FIRST → ja_attempt att = 1 →
  next_generation uuid a row att w.
Proof using.
  intros Hmk a Hn Hm Hs Hst Hg [??] ??????. subst a. split; rewrite ?Hmk, ?Hg; try done; [|by left].
  exists n, mk. by rewrite Hmk.
Qed.
Lemma validate_policy_bounds q u : validate_policy q = Ok u → 1 <= max_attempts q <= MAX_REQUEUE_ATTEMPTS.
Proof using.
  unfold validate_policy. case_match eqn:E; [done|]. intros _.
  apply orb_false_iff in E as [?%N.eqb_neq ?%N.ltb_ge]. lia.
Qed.

Lemma safe_schedule_job fuel o d k reqs dig q asg w : ssafe any (schedule_job fuel o d k reqs dig q asg) w.
Proof using uuid_inj secret_inj.
  unfold schedule_job. apply ssafe_lift. intros v Hq%validate_policy_bounds.
  apply ssafe_lift. intros rq _. apply ssafe_lift. intros [] _. case_match; [done|].
  apply ssafe_now. intros now. later w1. get x w2. intros _. destruct x as [a|].
  { get l w3. done. }
  eapply (ssafe_bind (eligible o d)); [done| |].
  { destruct asg as [u|]; [|by apply safe_find_eligible].
    eapply ssafe_bind; [done|by apply safe_require_eligible|]. intros a w3 _ Hi3 (Hk & _ & ?).
    apply ssafe_ret. later w4. intros b [= <-]. by split. }
  intros u w3 _ Hi3 Hu. cbv zeta. set (mk := λ id, MkJob id _ _ _ _ _ _ _ _ _ _). apply safe_mint; [done|].
  intros w4 Hev4 Hi4.
  destruct (event_keeps (MintJob mk) w4) as [Hev5 Hi5]; [done..|].
  pose proof (minted_here (PJob mk) (mint_name uuid "job") w4) as Hm.
  change (minting _ _ w4).2 with (handle (MintJob mk) w4).2 in Hm.
  apply ssafe_lift. intros id Hid%try_new_id_str. cbn in Hid. apply ssafe_scheduled; [done|]. later w6. intros Hs.
  apply ssafe_call. { later w7. by eapply (first_generation mk id). }
  intros b. later w7. intros Hk. cbn [op_post] in Hk.
  assert (∀ u0, u = Some u0 → worker_known u0 w7) as Hu7.
  { intros u0 E. destruct (Hu u0 E) as (Hk0 & _). repeat (eapply worker_known_stable; [eassumption|]). done. }
  eapply (ssafe_bind any); [done| |done]. destruct u as [u|]; [|done].
  eapply ssafe_bind; [done|apply safe_accept_lease_inner; [done|by apply Hu7| |done]|done].
  change (mk id) with (mk id) in Hk. split_and!; [done|cbn; lia|cbn; lia|done|].
  exists (List.length (w_minted w4)), mk. by split_and!.
Qed.

Lemma safe_accept_lease o u t v j g w : Inv w → ssafe any (accept_lease token_hash_of o u t v j g) w.
Proof using uuid_inj secret_inj.
  intros Hi. unfold accept_lease. apply ssafe_lift. intros [] _.
  eapply ssafe_bind; [done|by apply safe_authenticate_in|]. intros a w1 _ Hi1 (Ha & _ & _).
  eapply ssafe_bind; [done|apply safe_require_job|]. intros job w2 Hev2 Hi2 (Hj & _ & Ho). carry Hev2.
  apply ssafe_now. intros now. later w3. by apply safe_accept_lease_inner.
Qed.

(** ** The scans over the durable index *)
Lemma safe_scan {S R} (Φ : World → Prop) (body : S → string → Svc (S + R)) :
  stable Φ → (∀ s raw w, Inv w → Φ w → ssafe any (body s raw) w) →
  ∀ n o after seen s w, Inv w → Φ w → ssafe any (scan_jobs body n o after seen s) w.
Proof using uuid_inj secret_inj.
  intros HΦ Hb. assert (∀ page seen s w, Inv w → Φ w → ssafe any (scan_page body page seen s) w) as Hpage.
  { induction page as [|e page IH]; intros seen s w Hi Hw; [done|]. cbn [scan_page].
    case_match; [by apply IH|]. destruct (je_job_id e) as [raw|]; [|by apply IH]. case_match; [by apply IH|].
    eapply ssafe_bind; [done|by apply Hb|]. intros [s'|x] w1 Hev Hi1 _; [|done]. apply IH; [done|by eapply HΦ]. }
  induction n as [|n IH]; intros o after seen s w Hi Hw; [done|]. cbn [scan_jobs].
  get page w1. intros _. eapply HΦ in Hw; [|done]. destruct (last page); [|done].
  eapply ssafe_bind; [done|by apply Hpage|]. intros [[seen' s']|x] w2 Hev2 Hi2 _; [|done].
  case_match; [done|]. apply IH; [done|by eapply HΦ].
Qed.
Lemma stable_true : stable (λ _, True).
Proof using. done. Qed.

(** ** Claims *)
Lemma safe_claim_body o u now n raw w :
  Inv w → worker_known u w → ssafe any (claim_body o u now n raw) w.
Proof using uuid_inj secret_inj.
  intros Hi Hu. unfold claim_body. case_match; [done|].
  eapply ssafe_bind; [done|apply safe_indexed_job|]. intros [a|] w1 Hev1 Hi1 Ha; [|done]. carry Hev1.
  destruct (Ha a eq_refl) as (Hj & Ho & _). do 3 (case_match; [done|]).
  get l w2. intros _. destruct l; [done|]. get row w3. intros _. destruct row; [|done].
  destruct (negb (bool_decide (gr_state j = _))); [done|].
  eapply (safe_seq (oks any)); [done|by apply safe_accept_lease_inner|].
  intros [lease|e] w4 _ _ _; [done|by destruct e].
Qed.
Lemma safe_claim_next fuel gate o u t v w : Inv w → ssafe any (claim_next token_hash_of fuel gate o u t v) w.
Proof using uuid_inj secret_inj.
  intros Hi. unfold claim_next. apply ssafe_lift. intros [] _.
  eapply ssafe_bind; [done|by apply safe_authenticate_in|]. intros a w1 _ Hi1 (Ha & _ & _).
  apply ssafe_lift. intros [] _. apply ssafe_now. intros now. later w2.
  eapply (ssafe_bind any); [done| |done].
  apply (safe_scan (worker_known a)); [apply worker_known_stable| |done..].
  intros. by apply safe_claim_body.
Qed.
Lemma safe_first_adoptable o u now ls w : Inv w → ssafe any (first_adoptable o u now ls) w.
Proof using uuid_inj secret_inj.
  revert w. induction ls as [|l ls IH]; intros w Hi; [done|]. cbn [first_adoptable].
  do 2 (case_match; [by apply IH|]). get j w1. intros _. destruct j; [|by apply IH].
  do 3 (case_match; [by apply IH|]). by apply ssafe_journal.
Qed.
Lemma safe_adoptable_lease o u t v w : Inv w → ssafe any (adoptable_lease token_hash_of o u t v) w.
Proof using uuid_inj secret_inj.
  intros Hi. unfold adoptable_lease. apply ssafe_lift. intros [] _.
  eapply ssafe_bind; [done|by apply safe_authenticate_in|]. intros a w1 _ Hi1 _.
  apply ssafe_now. intros now. later w2. get ls w3. intros _. by apply safe_first_adoptable.
Qed.

(** ** Heartbeats *)
Lemma safe_heartbeat fuel o u t v id g w : Inv w → ssafe any (heartbeat token_hash_of fuel o u t v id g) w.
Proof using uuid_inj secret_inj.
  intros Hi. unfold heartbeat. apply ssafe_lift. intros [] _.
  eapply ssafe_bind; [done|by apply safe_authenticate_in|]. intros a w1 _ Hi1 _.
  apply ssafe_now. intros now. later w2. get x w3. intros Hx. destruct x as [l|]; [|done].
  apply lease_read in Hx as [_ Hl]; [|done]. case_match; [done|]. case_match.
  { apply ssafe_journal; [done|]. later w4. unfold current_generation_of.
    eapply (ssafe_bind any); [done|by apply ssafe_call|done]. }
  eapply (ssafe_bind any); [done|by case_match|]. intros _ w4 Hev4 Hi4 _. carry Hev4. case_match.
  { eapply ssafe_bind; [done|apply safe_end_lease_and_requeue; [done..|by left]|done]. }
  get ok w5. intros _. case_match.
  { get after w6. intros _. by repeat case_match. }
  get touched w6. intros _. case_match; [|done]. get after w7. intros _. by repeat case_match.
Qed.

(** ** Results *)
Lemma safe_submit_result fuel o u t v j g id dig out claim w :
  Inv w → ssafe any (submit_result_with_claim token_hash_of fuel o u t v j g id dig out claim) w.
Proof using uuid_inj secret_inj.
  intros Hi. unfold submit_result_with_claim. do 2 (apply ssafe_lift; intros [] _).
  eapply (ssafe_bind any); [done|case_match; [by destruct (validate_digest _)|done]|]. intros _ w0 _ Hi0 _.
  eapply ssafe_bind; [done|by apply safe_authenticate_in|]. intros a w1 _ Hi1 (Ha & _ & Hao).
  apply ssafe_now. intros now. later w2.
  eapply ssafe_bind; [done|apply safe_require_job|]. intros job w3 Hev3 Hi3 (Hj & <- & Hjo). carry Hev3. cbv zeta.
  case_match; [by apply safe_reject|]. case_match eqn:Edig; [by apply safe_reject|].
  apply negb_false_iff, bool_decide_eq_true in Edig.
  get x w4. intros _. destruct x as [r|]; [case_match; by apply ssafe_journal|].
  get y w5. intros Hy. destruct y as [l|]; [|done]. apply lease_read in Hy as [_ Hl]; [|done].
  case_match; [done|]. case_match.
  { apply ssafe_journal; [done|]. later w6. by case_match. }
  case_match.
  { eapply ssafe_bind; [done|apply safe_end_lease_and_requeue; [done..|by left]|].
    intros _ w6 _ Hi6 _. by apply safe_reject. }
  apply ssafe_call.
  { later w6. exists job, a. destruct Hj as (? & _). split_and!; try done. congruence. }
  intros landed. later w6. intros _. case_match; by apply ssafe_journal.
Qed.

(** ** Recovery *)
Lemma safe_interrupted_body fuel o now r raw w :
  Inv w → ssafe any (interrupted_body fuel o now r raw) w.
Proof using uuid_inj secret_inj.
  intros Hi. unfold interrupted_body.
  eapply ssafe_bind; [done|apply safe_indexed_job|]. intros [a|] w1 _ Hi1 _; [|done].
  get row w2. intros _. destruct row as [row|]; [|done]. case_match; [done|].
  apply ssafe_call; [done|]. intros x. later w3. intros Hx. cbn [op_post] in Hx. destruct x as [l|]; [|done].
  case_match eqn:Es; [done|]. apply bool_decide_eq_false in Es.
  eapply (ssafe_bind any); [done| |done]. apply safe_finish_lost_lease; [done|].
  apply find_lease_Some in Hx as (_ & _ & k & Hk). apply lease_read in Hk as Hk'; [|done].
  destruct Hk' as [-> _]. by exists l.
Qed.
Lemma safe_sweep_leases fuel now ls r w :
  Inv w → (∀ l, l ∈ ls → lease_known l w) → ssafe any (sweep_leases fuel now ls r) w.
Proof using uuid_inj secret_inj.
  revert w r. induction ls as [|l ls IH]; intros w r Hi Hl; [done|]. cbn [sweep_leases].
  eapply (ssafe_bind any); [done| |].
  { case_match; [|done]. apply safe_end_lease_and_requeue; [done|apply Hl; by left|by left]. }
  intros r' w1 Hev Hi1 _. apply IH; [done|]. intros l' Hl'. eapply lease_known_stable, Hl; [done|by right].
Qed.
Lemma safe_recover fuel o w : ssafe any (recover fuel o) w.
Proof using uuid_inj secret_inj.
  unfold recover. apply ssafe_now. intros now. later w1. get ls w2. intros Hls.
  eapply ssafe_bind; [done|apply safe_sweep_leases; [done|by apply live_known]|].
  intros r w3 _ Hi3 _. unfold finish_interrupted_lease_losses. eapply (ssafe_bind any); [done| |done].
  apply (safe_scan (λ _, True)); [apply stable_true| |done..]. intros. by apply safe_interrupted_body.
Qed.
Lemma safe_resume_body fuel o now r raw w : Inv w → ssafe any (resume_body fuel o now r raw) w.
Proof using uuid_inj secret_inj.
  intros Hi. unfold resume_body.
  eapply ssafe_bind; [done|apply safe_indexed_job|]. intros [a|] w1 _ Hi1 Ha; [|done].
  destruct (Ha a eq_refl) as (Hj & Ho & _).
  get l w2. intros _. destruct l; [done|]. get row w3. intros _. destruct row as [row|]; [|done].
  case_match; [done|]. eapply ssafe_bind; [done|by apply safe_assign|done].
Qed.
Lemma safe_resume_assignments fuel o w : ssafe any (resume_assignments fuel o) w.
Proof using uuid_inj secret_inj.
  unfold resume_assignments. apply ssafe_now. intros now. later w1. eapply (ssafe_bind any); [done| |done].
  apply (safe_scan (λ _, True)); [apply stable_true| |done..]. intros. by apply safe_resume_body.
Qed.
Lemma safe_list_workers o after n w : ssafe any (list_workers o after n) w.
Proof using uuid_inj secret_inj. apply ssafe_call; [done|]. intros. by case_match. Qed.
Lemma safe_job_status o j w : Inv w → ssafe any (job_status o j) w.
Proof using uuid_inj secret_inj.
  intros Hi. unfold job_status. eapply ssafe_bind; [done|apply safe_require_job|].
  intros job w1 _ Hi1 _. by do 4 (apply ssafe_call; [done|]; intros ? ? _ _ _).
Qed.

(** ** Every method, and every system *)
Lemma safe_quiet {A} (p : Svc A) w : Inv w → ssafe any p w → safe any (quiet p) w.
Proof using uuid_inj secret_inj. intros Hi Hp. by eapply safe_seq. Qed.
Lemma safe_run_call fuel c w : Inv w → safe any (run_call token_hash_of fuel c) w.
Proof using uuid_inj secret_inj.
  intros Hi. destruct c; apply safe_quiet; try done.
  - apply safe_mint_registration_token.
  - apply safe_revoke_token.
  - apply safe_register.
  - apply safe_revoke_worker.
  - apply safe_list_workers.
  - apply safe_schedule_job.
  - by apply safe_accept_lease.
  - by apply safe_claim_next.
  - by apply safe_adoptable_lease.
  - by apply safe_heartbeat.
  - by apply safe_submit_result.
  - by apply safe_job_status.
  - apply safe_recover.
  - apply safe_resume_assignments.
Qed.

Definition sys_inv (s : System) : Prop :=
  Inv (sys_world s) ∧ ∀ p, p ∈ sys_threads s → safe any p (sys_world s).
Notation step := (step uuid secret token_hash_of).

Lemma in_deleted {A} (x : A) (i : nat) (l : list A) : x ∈ delete i l → x ∈ l.
Proof using. intros Hx. eapply elem_of_sublist, sublist_delete. exact Hx. Qed.
Lemma plane_step_inv s s' : sys_inv s → step s s' → evolves (sys_world s) (sys_world s') ∧ sys_inv s'.
Proof using uuid_inj secret_inj.
  intros [Hi Hs] Hstep. destruct Hstep as [fuel c w ts|X i e k x w w' ts Hl He|i w ts|t w ts]; cbn in *.
  - split; [done|]. split; [done|]. cbn. intros p [->|Hp]%elem_of_cons; [by apply safe_run_call|by apply Hs].
  - destruct (Hs _ (list_elem_of_lookup_2 _ _ _ Hl) w) as [Hpre Hk]; [done..|].
    destruct (event_keeps e w Hi Hpre) as [Hev Hi']. rewrite He in Hk, Hev, Hi'. split; [done|]. split; [done|].
    cbn. intros p [j Hj]%list_elem_of_lookup. apply list_lookup_insert_Some in Hj as [(_ & <- & _)|[_ Hj]]; [done|].
    eapply safe_later, Hs; [done|by eapply list_elem_of_lookup_2].
  - split; [done|]. split; [done|]. cbn. intros p Hp. by eapply Hs, in_deleted.
  - destruct (keeps_minted _ _ _ [] t w Hi) as [Hev Hi']. rewrite app_nil_r in Hev, Hi'.
    split; [done|]. split; [done|]. cbn. intros p Hp. by eapply safe_later, Hs.
Qed.
Lemma plane_steps_inv s s' : sys_inv s → rtc step s s' → evolves (sys_world s) (sys_world s') ∧ sys_inv s'.
Proof using uuid_inj secret_inj.
  intros Hi Hs. induction Hs as [|s s1 s2 H1 _ IH]; [done|].
  destruct (plane_step_inv _ _ Hi H1) as [He1 Hi1], (IH Hi1) as [? ?]. split; [by etrans|done].
Qed.
Lemma reachable_sys_inv s : reachable uuid secret token_hash_of s → sys_inv s.
Proof using uuid_inj secret_inj.
  intros Hr. apply (plane_steps_inv (MkSystem empty_world []) s); [|done].
  split; [apply inv_empty|]. by intros p ?%elem_of_nil.
Qed.
Lemma plane_reachable_inv s : reachable uuid secret token_hash_of s → Inv (sys_world s).
Proof using uuid_inj secret_inj. intros Hr. by apply reachable_sys_inv. Qed.
End Safe.
