(* ===== verification/WorkerThms.v ===== *)
(** * What the worker plane promises

    Over every reachable system: one lease per generation and no lease across
    organizations or trust domains, bounded and fully accounted attempts,
    histories that only grow, at most one result per job as long as results
    land under their own leases, and the submission that breaks that proviso.
    [Demo] replays concrete schedules for the witnesses. *)
From S2P Require Import Prelude Strings Effects WorkerModel WorkerStore WorkerPlane WorkerInv WorkerCalls WorkerSafe.
From stdpp Require Import pretty.
#[local] Open Scope string_scope.
#[local] Open Scope N_scope.

(** ** Threads run to their end, one after the other *)
Section Alone.
Variable uuid : nat → string.
Variable secret : nat → string.
Variable token_hash_of : string → string.
Notation step := (step uuid secret token_hash_of).

Lemma run_steps (p : Prog unit) w ts :
  ∃ q, rtc step (MkSystem w (p :: ts)) (MkSystem (run uuid secret p w).2 (q :: ts)).
Proof using.
  revert w. induction p as [a| |X e k IH]; intros w; cbn; [by exists (Ret a)|by exists Halt|].
  destruct (handle uuid secret e w) as [x w'] eqn:E. destruct (IH x w') as [q Hq]. exists q.
  eapply rtc_l; [|exact Hq]. exact (step_call _ _ _ 0 e k x w w' (Call e k :: ts) eq_refl E).
Qed.

(** A schedule: a call run alone, or a jump of the clock. *)
Inductive Move := Run (c : PlaneCall) | Clock (t : Z).
Definition play1 (fuel : nat) (m : Move) (w : World) : World :=
  match m with
  | Run c => (run uuid secret (run_call token_hash_of fuel c) w).2
  | Clock t => MkWorld (w_store w) t (w_minted w)
  end.
Fixpoint play (fuel : nat) (ms : list Move) (w : World) : World :=
  match ms with [] => w | m :: ms => play fuel ms (play1 fuel m w) end.

Lemma play_steps_with fuel ms w ts : rtc step (MkSystem w ts) (MkSystem (play fuel ms w) ts).
Proof using.
  revert w. induction ms as [|m ms IH]; intros w; [done|]. etrans; [|apply IH]. destruct m as [c|t]; cbn.
  - eapply rtc_l; [apply (step_spawn _ _ _ fuel c)|].
    destruct (run_steps (run_call token_hash_of fuel c) w ts) as [q Hq].
    eapply rtc_r; [exact Hq|]. exact (step_die _ _ _ 0 _ (q :: ts)).
  - apply rtc_once. constructor.
Qed.
Lemma play_steps fuel ms w : rtc step (MkSystem w []) (MkSystem (play fuel ms w) []).
Proof using. apply play_steps_with. Qed.
Lemma play_reachable fuel ms : reachable uuid secret token_hash_of (MkSystem (play fuel ms empty_world) []).
Proof using. apply play_steps. Qed.
End Alone.

(** ** The properties *)
Section Theorems.
Variable uuid : nat → string.
Variable secret : nat → string.
Variable token_hash_of : string → string.
Hypothesis uuid_inj : ∀ n m, uuid n = uuid m → n = m.
Hypothesis secret_inj : ∀ n m, token_hash_of (secret n) = token_hash_of (secret m) → n = m.
Notation reachable := (reachable uuid secret token_hash_of).
Notation step := (step uuid secret token_hash_of).

(** C18: whatever methods run at the same time, and wherever they die, a
    generation of a job never has two leases, and a lease, its job, its worker
    and the token that registered the worker belong to one organization and
    one trust domain.  A job with an assigned worker is never leased to another. *)
Theorem leases_exclusive_and_isolated s (Hs : reachable s) :
  let st := w_store (sys_world s) in
  (∀ k k' l l', ms_leases st !! k = Some l → ms_leases st !! k' = Some l' →
     wl_job_id l = wl_job_id l' → wl_generation l = wl_generation l' → k = k')
  ∧ ∀ k l, ms_leases st !! k = Some l →
      ∃ j u t, ms_jobs st !! as_str (wl_job_id l) = Some j
        ∧ ms_workers st !! as_str (wl_worker_id l) = Some u
        ∧ ms_tokens st !! wr_token_hash u = Some t
        ∧ as_u64 (wl_generation l) <= as_u64 (ej_current_generation j)
        ∧ wl_organization_id l = ej_organization_id j ∧ wr_organization_id u = ej_organization_id j
        ∧ tk_organization_id t = ej_organization_id j
        ∧ wr_trust_domain u = ej_trust_domain j ∧ tk_trust_domain t = ej_trust_domain j
        ∧ ∀ v, ej_assigned_worker j = Some v → wl_worker_id l = v.
Proof using uuid_inj secret_inj.
  pose proof (plane_reachable_inv _ _ _ uuid_inj secret_inj s Hs) as Hi. cbn. split.
  - intros k k' l l' Hk Hk' Hj Hg. eapply (inv_unique _ _ _ _ Hi); [done..|]. by rewrite Hj, Hg.
  - intros k l Hl. destruct (inv_lease _ _ _ _ Hi _ _ Hl) as (_ & _ & _ & j & u & Hj & Hu & ? & ? & Ho & Hd & Htake).
    destruct (inv_worker _ _ _ _ Hi _ _ Hu) as (_ & t & Ht & Hto & Htd). exists j, u, t.
    split_and!; [done..|congruence|done|congruence|].
    intros v Hv. unfold may_take in Htake. rewrite Hv in Htake. by apply bool_decide_eq_true in Htake.
Qed.

(** C19: the generations of a job are exactly 1 to its current one, with one
    attempt each, numbered like it; there are never more of them than the
    job's policy allows, nor than the plane's maximum; and every generation
    before the current one is over. *)
Theorem attempts_accounted_and_bounded s (Hs : reachable s) k j
    (Hj : ms_jobs (w_store (sys_world s)) !! k = Some j) :
  let st := w_store (sys_world s) in
  let current := as_u64 (ej_current_generation j) in
  1 <= current <= max_attempts (ej_requeue j) ∧ max_attempts (ej_requeue j) <= MAX_REQUEUE_ATTEMPTS
  ∧ (∀ n, is_Some (ms_generations st !! (k, n)) ↔ 1 <= n <= current)
  ∧ (∀ n m, is_Some (ms_attempts st !! ((k, n), m)) ↔ m = n ∧ 1 <= n <= current)
  ∧ (max_attempt_number (ej_job_id j) st).1 = Ok current
  ∧ ∀ n g, n < current → ms_generations st !! (k, n) = Some g → gen_is_terminal (gr_state g) = true.
Proof using uuid_inj secret_inj.
  pose proof (plane_reachable_inv _ _ _ uuid_inj secret_inj s Hs) as Hi. cbv zeta.
  destruct (inv_job _ _ _ _ Hi _ _ Hj) as (Hk & ? & ? & _).
  assert (∀ n g, ms_generations (w_store (sys_world s)) !! (k, n) = Some g →
    1 <= n <= as_u64 (ej_current_generation j)
    ∧ (n < as_u64 (ej_current_generation j) → gen_is_terminal (gr_state g) = true)) as Hgen.
  { intros n g Hg. destruct (inv_gen _ _ _ _ Hi _ _ Hg) as (_ & _ & _ & j' & Hj' & ? & ?). cbn in *.
    replace j' with j in * by congruence. by split. }
  assert (∀ n, is_Some (ms_generations (w_store (sys_world s)) !! (k, n))
    ↔ 1 <= n <= as_u64 (ej_current_generation j)) as Hgens.
  { intros n. split; [intros [g Hg]; by eapply Hgen|by apply (inv_gens _ _ _ _ Hi)]. }
  split_and!; [lia..|done| | |].
  - intros n m. rewrite <- Hgens. split.
    + intros [a Ha]. by destruct (inv_attempt _ _ _ _ Hi _ _ Ha) as (_ & ? & ?).
    + intros [-> Hn]. by apply (inv_attempts _ _ _ _ Hi (k, n)).
  - apply (max_attempt_current uuid secret token_hash_of); [done|by rewrite <- Hk].
  - intros n g Hn Hg. by eapply Hgen.
Qed.

(** the plane's history only grows.  Between a reachable system and any
    later one, accepted results, journal rows and minted names stay as they
    are; a job keeps its organization, trust domain, key, digest and policy and
    its generation never goes back; a generation that is over, a lease that has
    ended and a revoked worker stay so; and no row disappears. *)
Theorem history_only_grows s s' (Hs : reachable s) (Hlater : rtc step s s') :
  evolves (sys_world s) (sys_world s').
Proof using uuid_inj secret_inj.
  exact (proj1 (plane_steps_inv _ _ _ uuid_inj secret_inj s s'
    (reachable_sys_inv _ _ _ uuid_inj secret_inj s Hs) Hlater)).
Qed.

(** C20: as long as every result landed under a lease of its own job, a job is
    completed exactly when its current generation has a result, no other
    generation of it has one, and a lease is completed exactly when the result
    of its generation was landed under it. *)
Theorem one_result_per_job s (Hs : reachable s) (Hown : own_results (sys_world s)) :
  let st := w_store (sys_world s) in
  (∀ k j, ms_jobs st !! k = Some j →
     (ej_state j = JobCompleted ↔ is_Some (ms_results st !! (k, as_u64 (ej_current_generation j))))
     ∧ ∀ n, is_Some (ms_results st !! (k, n)) → n = as_u64 (ej_current_generation j))
  ∧ ∀ k l, ms_leases st !! k = Some l →
      (wl_state l = LeaseCompleted ↔
       ∃ r, ms_results st !! gen_key (wl_job_id l) (wl_generation l) = Some r ∧ rs_lease_id r = wl_lease_id l).
Proof using uuid_inj secret_inj.
  pose proof (plane_reachable_inv _ _ _ uuid_inj secret_inj s Hs) as Hi. cbv zeta. split.
  - intros k j Hj.
    assert (∀ n, is_Some (ms_results (w_store (sys_world s)) !! (k, n)) →
      n = as_u64 (ej_current_generation j) ∧ ej_state j = JobCompleted) as Hr.
    { intros n [r Hr]. destruct (inv_own_result _ _ _ _ Hi Hown _ _ Hr) as (j' & Hj' & ? & ?). cbn in *.
      by replace j' with j in * by congruence. }
    split; [split|]; [by apply (inv_own_job _ _ _ _ Hi Hown)|intros Hk; by eapply Hr|intros n Hk; by eapply Hr].
  - intros k l Hl. destruct (inv_lease _ _ _ _ Hi _ _ Hl) as (Hk & _). split.
    + by apply (inv_own_lease _ _ _ _ Hi Hown k).
    + intros (r & Hr & Hid). destruct (inv_result _ _ _ _ Hi _ _ Hr) as (_ & _ & (l' & Hl' & _ & _ & Hc) & _).
      rewrite Hid, <- Hk, Hl in Hl'. congruence.
Qed.
End Theorems.

(** ** Landing a result *)
Lemma id_len (id : Id) : slen (as_str id) <= MAX_ID_BYTES.
Proof.
  destruct id as [s H]. cbn. apply Is_true_eq_true in H. unfold validate_id in H.
  apply andb_prop in H as [H%negb_true_iff%orb_false_iff _]. destruct H as [_ H%N.ltb_ge]. done.
Qed.
Lemma entry_new_ok o kind at_ms detail :
  slen detail <= MAX_JOURNAL_DETAIL_BYTES →
  entry_new o kind at_ms detail = Ok (MkEntry 0 o kind None None None at_ms detail).
Proof. intros H. unfold entry_new. by apply N.ltb_ge in H as ->. Qed.

Section Submit.
Variable uuid : nat → string.
Variable secret : nat → string.
Variable token_hash_of : string → string.

Lemma run_store {A B} (c : StoreCall A) (f : A → Svc B) x st w :
  memory c (w_store w) = (Ok x, st) →
  run uuid secret (y <- store c; f y)%prog w = run uuid secret (f x) (MkWorld st (w_now w) (w_minted w)).
Proof. intros H. cbn. by rewrite H. Qed.
Lemma run_read {A B} (c : StoreCall A) (f : A → Svc B) x w :
  memory c (w_store w) = (Ok x, w_store w) →
  run uuid secret (y <- store c; f y)%prog w = run uuid secret (f x) w.
Proof. intros H. rewrite (run_store c f x (w_store w) w H). by destruct w. Qed.
Lemma run_now {B} (f : Z → Svc B) w : run uuid secret (t <- now_ms; f t)%prog w = run uuid secret (f (w_now w)) w.
Proof. done. Qed.

(** The credentials of a registered worker. *)
Record credentials (o : OrganizationId) (u : WorkerId) (tok : string) (st : MemoryState) : Prop := {
  cr_worker : ∃ a, ms_workers st !! as_str u = Some a ∧ wr_worker_id a = u ∧ wr_revoked a = false
    ∧ wr_organization_id a = as_str o ∧ wr_token_hash a = token_hash_of tok;
  cr_token : ∃ t, ms_tokens st !! token_hash_of tok = Some t ∧ tk_revoked t = false
    ∧ tk_consumed_by t = Some (as_str u) }.

Lemma run_authenticate o u tok w : credentials o u tok (w_store w) →
  ∃ a, wr_worker_id a = u ∧ wr_organization_id a = as_str o ∧
    ∀ {B} (f : WorkerRegistration → Svc B),
    run uuid secret (x <- authenticate_in token_hash_of o u tok; f x)%prog w = run uuid secret (f a) w.
Proof.
  intros [(a & Ha & Hid & Hr & Ho & Hh) (t & Ht & Htr & Htc)]. exists a. split_and!; [done..|]. intros B f.
  destruct w as [st now ms]. cbn in Ha, Ht |- *. rewrite Ha. cbn. rewrite Hr, Hh, bool_decide_eq_true_2 by done. cbn.
  rewrite Ht. cbn. rewrite Htr, Htc, bool_decide_eq_true_2 by done. cbn. by rewrite Ho, bool_decide_eq_true_2.
Qed.

Lemma run_require_job {B} o a w (f : ExecutionJob → Svc B) :
  ms_jobs (w_store w) !! as_str (ej_job_id a) = Some a → ej_organization_id a = as_str o →
  run uuid secret (x <- require_job o (ej_job_id a); f x)%prog w = run uuid secret (f a) w.
Proof.
  intros Ha Ho. destruct w as [st now ms]. cbn in *. rewrite Ha. cbn. by rewrite Ho, bool_decide_eq_true_2.
Qed.

(** The store's half: the lease is checked for its worker, its generation and
    its state. *)
Lemma land_result_ok r a l st :
  ms_results st !! gen_key (rs_job_id r) (rs_generation r) = None →
  ms_jobs st !! as_str (rs_job_id r) = Some a → ej_current_generation a = rs_generation r →
  ms_leases st !! as_str (rs_lease_id r) = Some l → wl_worker_id l = rs_worker_id r →
  wl_generation l = rs_generation r → wl_state l = LeaseLive →
  ∃ st', land_result r st = (Ok Landed, st')
    ∧ ms_results st' = <[gen_key (rs_job_id r) (rs_generation r) := r]> (ms_results st)
    ∧ ms_leases st' = <[as_str (rs_lease_id r) :=
        lease_in LeaseCompleted (Some (rs_accepted_ms r)) (wl_reason l) l]> (ms_leases st)
    ∧ ms_jobs st' = <[as_str (rs_job_id r) := job_at (rs_generation r) JobCompleted a]> (ms_jobs st).
Proof.
  intros Hr Ha Hc Hl Hw Hg Hs. unfold land_result.
  rewrite Hr, Ha, Hl, !bool_decide_eq_true_2 by done. cbn. eexists. split; [done|].
  set (st1 := on_leases _ _). assert (complete_job r (complete_generation r st1) =
    on_jobs <[as_str (rs_job_id r) := job_at (rs_generation r) JobCompleted a]> (complete_generation r st1)) as ->.
  { unfold complete_job. replace (ms_jobs (complete_generation r st1)) with (ms_jobs st).
    - by rewrite Ha, Hc.
    - unfold complete_generation. by repeat case_match. }
  unfold complete_attempt, complete_generation. by repeat case_match.
Qed.

(** a worker that presents its own credentials, a job's current
    generation and payload digest, and a live lease of its own with the same
    generation number, lands its result: the result is recorded, the job
    completes and the lease completes.  Neither the service nor the store asks
    whose lease it is, so with a lease of another job it is the presented job
    that completes, and the lease's own job stays as it was. *)
Theorem submit_ignores_the_leases_job fuel o u tok job l lid out claim w
    (Hcred : credentials o u tok (w_store w))
    (Hj : ms_jobs (w_store w) !! as_str (ej_job_id job) = Some job)
    (Ho : ej_organization_id job = as_str o)
    (Hl : ms_leases (w_store w) !! as_str lid = Some l) (Hw : wl_worker_id l = u)
    (Hg : wl_generation l = ej_current_generation job)
    (Hlive : wl_state l = LeaseLive) (Hexp : (w_now w < wl_expires_at_ms l)%Z)
    (Hr : ms_results (w_store w) !! gen_key (ej_job_id job) (ej_current_generation job) = None)
    (Hd : validate_digest (ej_payload_digest job) = Ok tt) (Hc : produced_digest claim = None) :
  let g := ej_current_generation job in
  let call := submit_result_with_claim token_hash_of fuel o u tok WORKER_PROTOCOL_VERSION
                (ej_job_id job) g lid (ej_payload_digest job) out claim in
  let st' := w_store (run uuid secret call w).2 in
  (run uuid secret call w).1 = Some (Ok Landed)
  ∧ ms_results st' = <[gen_key (ej_job_id job) g :=
      MkResult (ej_job_id job) g u lid (ej_payload_digest job) out (w_now w) claim]> (ms_results (w_store w))
  ∧ ms_jobs st' !! as_str (ej_job_id job) = Some (job_at g JobCompleted job)
  ∧ (∃ l', ms_leases st' !! as_str lid = Some l' ∧ wl_state l' = LeaseCompleted ∧ wl_job_id l' = wl_job_id l)
  ∧ (wl_job_id l ≠ ej_job_id job →
     ms_jobs st' !! as_str (wl_job_id l) = ms_jobs (w_store w) !! as_str (wl_job_id l)).
Proof.
  intros g call. subst g. destruct (run_authenticate o u tok w Hcred) as (a & Ha & _ & Hrun).
  set (r := MkResult (ej_job_id job) (ej_current_generation job) u lid (ej_payload_digest job) out (w_now w) claim).
  destruct (land_result_ok r job l (w_store w)) as (st' & Hland & Hres & Hls & Hjs); [done..|].
  assert (∃ e, run uuid secret call w = (Some (Ok Landed), MkWorld (push_entry e st') (w_now w) (w_minted w)))
    as [e He].
  { subst call. unfold submit_result_with_claim, check_protocol. rewrite N.eqb_refl. cbn [negb].
    rewrite Hd, Hc. cbn [lift sbind pbind sret]. rewrite Hrun, run_now.
    rewrite run_require_job by done. rewrite !bool_decide_eq_true_2 by done. cbn [negb].
    rewrite (run_read _ _ None) by (cbn; unfold get_result; by rewrite Hr).
    rewrite (run_read _ _ (Some l)) by (cbn; unfold lease; by rewrite Hl).
    rewrite Ha, !bool_decide_eq_true_2 by done. cbn [negb orb]. unfold is_expired_at.
    rewrite (proj2 (Z.leb_gt _ _)) by done. fold r.
    rewrite (run_store _ _ Landed st') by done.
    unfold journal_row. rewrite entry_new_ok; [by eexists|].
    rewrite !slen_app. pose proof (id_len lid). unfold MAX_ID_BYTES, MAX_JOURNAL_DETAIL_BYTES in *.
    assert (slen (outcome_debug out) <= 9) by by destruct out.
    change (slen "outcome=") with 8. change (slen " lease=") with 7. lia. }
  rewrite He. cbn. rewrite Hres, Hls, Hjs. split_and!; [done|done|apply lookup_insert_eq| |].
  - eexists. split; [apply lookup_insert_eq|done].
  - intros Hn. apply lookup_insert_ne. intros E%as_str_inj. by apply Hn.
Qed.
End Submit.

(** ** Concrete schedules *)
Module Demo.
Definition number (n : nat) : string := pretty (N.of_nat n).
Definition plain (s : string) : string := s.
Lemma number_inj n m : number n = number m → n = m.
Proof. unfold number. intros H%(inj pretty). lia. Qed.
Lemma plain_inj n m : plain (number n) = plain (number m) → n = m.
Proof. apply number_inj. Qed.

Definition acme : OrganizationId := MkId "acme" I.
Definition w1 : WorkerId := MkId "w1" I.
Definition caps : WorkerCapabilities :=
  MkCaps "linux" "x86" ["rust"] [] NetNone 8 1024 None "eu" "lab" 1.
Definition reqs : JobRequirements := MkReqs None None ["rust"] [] None 1 1 false None "lab".
Definition digest : string := "0123456789abcdef0123456789abcdef0123456789abcdef0123456789abcdef".
Definition key_a : JobKey := MkJobKey "a" I.
Definition key_b : JobKey := MkJobKey "b" I.
Definition job_1 : ExecutionJobId := MkId "job_1" I.
Definition job_3 : ExecutionJobId := MkId "job_3" I.
Definition lease_2 : WorkerLeaseId := MkId "lease_2" I.

(** Two jobs, each leased to the one worker when it is scheduled. *)
Definition setup : list Move :=
  [Run (CMintToken acme "lab" "label"); Run (CRegister acme w1 "0" caps "worker one");
   Run (CSchedule acme "lab" key_a reqs digest (MkPolicy 2) None);
   Run (CSchedule acme "lab" key_b reqs digest (MkPolicy 2) None)].
(** The first lease is answered in time; the second expires and is recovered. *)
Definition rest : list Move :=
  [Run (CSubmit acme w1 "0" 1 job_1 FIRST lease_2 digest Succeeded (MkClaim false None));
   Clock 15000; Run (CRecover acme)].
Notation system ms := (MkSystem (play number number plain 5 ms empty_world) []).
Lemma system_reachable ms : reachable number number plain (system ms).
Proof. apply play_reachable. Qed.

Definition own_result_check (st : MemoryState) (r : JobResult) : bool :=
  match ms_leases st !! as_str (rs_lease_id r) with
  | Some l => bool_decide (wl_job_id l = rs_job_id r)
  | None => true
  end.
Lemma own_results_checked w :
  bool_decide (map_Forall (λ _ r, own_result_check (w_store w) r = true) (ms_results (w_store w))) = true →
  own_results w.
Proof.
  intros H%bool_decide_eq_true k r l Hr Hl. specialize (H k r Hr). cbn in H. unfold own_result_check in H.
  rewrite Hl in H. by apply bool_decide_eq_true in H.
Qed.

Lemma leases_exclusive_and_isolated_witness :
  ∃ l, ms_leases (w_store (sys_world (system setup))) !! "lease_2" = Some l
    ∧ ∃ j u t, ms_jobs (w_store (sys_world (system setup))) !! as_str (wl_job_id l) = Some j
      ∧ ms_workers (w_store (sys_world (system setup))) !! as_str (wl_worker_id l) = Some u
      ∧ ms_tokens (w_store (sys_world (system setup))) !! wr_token_hash u = Some t
      ∧ as_u64 (wl_generation l) <= as_u64 (ej_current_generation j)
      ∧ wl_organization_id l = ej_organization_id j ∧ wr_organization_id u = ej_organization_id j
      ∧ tk_organization_id t = ej_organization_id j
      ∧ wr_trust_domain u = ej_trust_domain j ∧ tk_trust_domain t = ej_trust_domain j
      ∧ ∀ v, ej_assigned_worker j = Some v → wl_worker_id l = v.
Proof.
  eexists. split; [vm_compute; reflexivity|].
  apply (proj2 (leases_exclusive_and_isolated number number plain number_inj plain_inj (system setup)
    (system_reachable setup)) "lease_2").
  vm_compute. reflexivity.
Defined.

(** The second job's lease expires: it is at its second generation, the last
    its policy allows. *)
Lemma attempts_accounted_and_bounded_witness :
  ∃ j, ms_jobs (w_store (sys_world (system (setup ++ rest)))) !! "job_3" = Some j
    ∧ as_u64 (ej_current_generation j) = 2
    ∧ 1 <= as_u64 (ej_current_generation j) <= max_attempts (ej_requeue j)
    ∧ max_attempts (ej_requeue j) <= MAX_REQUEUE_ATTEMPTS.
Proof.
  eexists. split; [vm_compute; reflexivity|]. split; [reflexivity|].
  epose proof (attempts_accounted_and_bounded number number plain number_inj plain_inj (system (setup ++ rest))
    (system_reachable (setup ++ rest)) "job_3" _ _) as (H1 & H2 & _).
  exact (conj H1 H2).
  Unshelve. vm_compute. reflexivity.
Defined.

(** The plane assigned both jobs itself.  When their worker is revoked, a
    second eligible worker gets neither: recovery leaves them and a claim finds
    nothing. *)
Definition w2 : WorkerId := MkId "w2" I.
Definition revoked : list Move :=
  [Run (CMintToken acme "lab" "label"); Run (CRegister acme w2 "5" caps "worker two");
   Run (CRevokeWorker acme w1); Run (CRecover acme); Run (CResume acme)].
Example revocation_strands_jobs :
  let w := sys_world (system (setup ++ revoked)) in
  (run number number (claim_next plain 5 None acme w2 "5" 1) w).1 = Some (Ok None)
  ∧ (run number number (find_eligible 5 acme "lab" reqs) w).1 = Some (Ok (ms_workers (w_store w) !! "w2"))
  ∧ ∀ id, id = "job_1" ∨ id = "job_3" → ∃ j, ms_jobs (w_store w) !! id = Some j
      ∧ ej_state j = JobAssigned ∧ as_u64 (ej_current_generation j) = 2
      ∧ ms_generations (w_store w) !! (id, 2) ≠ None
      ∧ find_lease (ej_job_id j) (ej_current_generation j) (w_store w) = None.
Proof.
  split; [vm_compute; reflexivity|]. split; [vm_compute; reflexivity|].
  intros id [-> | ->]; eexists; (split; [vm_compute; reflexivity|]);
    split_and!; try reflexivity; vm_compute; congruence.
Qed.

Lemma history_only_grows_witness :
  evolves (sys_world (system setup)) (play number number plain 5 rest (sys_world (system setup))).
Proof.
  apply (history_only_grows number number plain number_inj plain_inj (system setup)
    (MkSystem (play number number plain 5 rest (sys_world (system setup))) [])).
  - apply system_reachable.
  - apply play_steps.
Defined.

Lemma one_result_per_job_witness :
  ∃ j, ms_jobs (w_store (sys_world (system (setup ++ rest)))) !! "job_1" = Some j
    ∧ ej_state j = JobCompleted
    ∧ is_Some (ms_results (w_store (sys_world (system (setup ++ rest)))) !! ("job_1", 1)).
Proof.
  assert (∃ j, ms_jobs (w_store (sys_world (system (setup ++ rest)))) !! "job_1" = Some j
    ∧ ej_current_generation j = FIRST ∧ ej_state j = JobCompleted) as (j & Hj & Hg & Hc).
  { eexists. split; [vm_compute; reflexivity|]. split; reflexivity. }
  assert (own_results (sys_world (system (setup ++ rest)))) as Hown.
  { apply own_results_checked. vm_compute. reflexivity. }
  exists j. split; [exact Hj|]. split; [exact Hc|].
  pose proof (proj1 (one_result_per_job number number plain number_inj plain_inj (system (setup ++ rest))
    (system_reachable (setup ++ rest)) Hown) "job_1" j Hj) as [H _].
  rewrite Hg in H. exact (proj1 H Hc).
Defined.

(** The worker answers for [job_3] with the lease of [job_1]. *)
Lemma submit_ignores_the_leases_job_witness :
  let w := sys_world (system setup) in
  ∃ a b, ms_jobs (w_store w) !! "job_1" = Some a ∧ ms_jobs (w_store w) !! "job_3" = Some b
    ∧ let w' := (run number number (submit_result_with_claim plain 5 acme w1 "0" WORKER_PROTOCOL_VERSION
                   (ej_job_id b) (ej_current_generation b) lease_2 (ej_payload_digest b) Succeeded
                   (MkClaim false None)) w).2 in
      ms_jobs (w_store w') !! as_str (ej_job_id b) = Some (job_at (ej_current_generation b) JobCompleted b)
      ∧ ms_jobs (w_store w') !! "job_1" = ms_jobs (w_store w) !! "job_1" ∧ ej_state a = JobLeased.
Proof.
  intros w.
  assert (∃ a, ms_jobs (w_store w) !! "job_1" = Some a ∧ ej_state a = JobLeased) as (a & Ha & Hs).
  { eexists. split; [vm_compute; reflexivity|reflexivity]. }
  assert (∃ b, ms_jobs (w_store w) !! "job_3" = Some b ∧ ej_job_id b = job_3 ∧ ej_organization_id b = as_str acme
    ∧ ej_current_generation b = FIRST ∧ ej_payload_digest b = digest) as (b & Hb & Hid & Ho & Hg & Hd).
  { eexists. split; [vm_compute; reflexivity|]. split_and!; reflexivity. }
  assert (∃ l, ms_leases (w_store w) !! as_str lease_2 = Some l ∧ wl_job_id l = job_1 ∧ wl_worker_id l = w1
    ∧ wl_generation l = FIRST ∧ wl_state l = LeaseLive ∧ (w_now w < wl_expires_at_ms l)%Z)
    as (l & Hl & Hlj & Hlw & Hlg & Hll & Hle).
  { eexists. split; [vm_compute; reflexivity|]. split_and!; reflexivity. }
  assert (credentials plain acme w1 "0" (w_store w)) as Hcred.
  { split; eexists; (split; [vm_compute; reflexivity|]); split_and!; reflexivity. }
  assert (ms_results (w_store w) = ∅) as Hr by (vm_compute; reflexivity).
  exists a, b. split; [exact Ha|]. split; [exact Hb|].
  destruct (submit_ignores_the_leases_job number number plain 5 acme w1 "0" b l lease_2 Succeeded
    (MkClaim false None) w) as (_ & _ & H1 & _ & H2); try congruence.
  - by rewrite Hid.
  - rewrite Hr. apply lookup_empty.
  - rewrite Hd. vm_compute. reflexivity.
  - reflexivity.
  - split; [exact H1|]. split; [|exact Hs]. rewrite Hlj in H2. apply H2. rewrite Hid. discriminate.
Defined.
End Demo.
