(* ===== verification/WorkerRevoke.v ===== *)
(** * What revoking a worker means

    Every call reads the worker it is about to lease to and refuses a revoked
    one.  [guarded dead p]: whatever the store answers, as long as it reports
    the workers in [dead] as revoked, [p] asks for no lease for them.  Every
    method is guarded, so once the calls in flight at a revocation have
    finished the worker gets no lease again, and neither does a job assigned
    to it. *)
From S2P Require Import Prelude Strings Effects WorkerModel WorkerStore WorkerPlane WorkerInv WorkerCalls WorkerSafe WorkerThms.
#[local] Open Scope string_scope.
#[local] Open Scope N_scope.
#[local] Open Scope prog_scope.

Section Guarded.
Variable token_hash_of : string → string.
Variable dead : WorkerId → Prop.

Definition alive (a : WorkerRegistration) : Prop := dead (wr_worker_id a) → wr_revoked a = true.
Definition reports {A} (c : StoreCall A) : A → Prop :=
  match c in StoreCall A return A → Prop with
  | GetWorker id => λ x, ∀ a, x = Some a → alive a
  | Workers o a n => λ x, ∀ u, u ∈ x → alive u
  | _ => λ _, True
  end.
Definition asks {A} (c : StoreCall A) : Prop :=
  match c with TryAcceptLease l _ => ¬ dead (wl_worker_id l) | _ => True end.
Definition event_asks {X} (e : Event X) : Prop := match e with Store c => asks c | _ => True end.
Definition event_reports {X} (e : Event X) : X → Prop :=
  match e in Event X return X → Prop with
  | Store c => λ r, match r with Ok x => reports c x | Err _ => True end
  | _ => λ _, True
  end.
Fixpoint guarded {A} (Q : A → Prop) (p : Prog A) : Prop :=
  match p with
  | Ret a => Q a
  | Halt => True
  | Call e k => event_asks e ∧ ∀ x, event_reports e x → guarded Q (k x)
  end.
(** A fallible program. *)
Definition ok_to {A} (R : A → Prop) (r : result A WorkerError) : Prop :=
  match r with Ok a => R a | Err _ => True end.
Notation sguarded R p := (guarded (ok_to R) p).
Notation any := (λ _, True).
Notation living := (λ a, ¬ dead (wr_worker_id a)).

Lemma guarded_bind {A B} Q Q' (p : Prog A) (f : A → Prog B) :
  guarded Q p → (∀ a, Q a → guarded Q' (f a)) → guarded Q' (pbind p f).
Proof using.
  intros Hp Hf. induction p as [a| |X e k IH]; cbn in *; [by apply Hf|done|].
  destruct Hp as [? Hk]. split; [done|]. intros x Hx. by apply IH, Hk.
Qed.
Lemma sguarded_bind {A B} R R' (p : Svc A) (f : A → Svc B) :
  sguarded R p → (∀ a, R a → sguarded R' (f a)) → sguarded R' (sbind p f).
Proof using. intros Hp Hf. eapply guarded_bind; [exact Hp|]. by intros [a|e] Ha; [apply Hf|]. Qed.
Lemma sguarded_call {A B} R (c : StoreCall A) (f : A → Svc B) :
  asks c → (∀ x, reports c x → sguarded R (f x)) → sguarded R (x <- store c; f x).
Proof using. intros Hc Hf. split; [done|]. by intros [x|e] Hx; [apply Hf|]. Qed.
Lemma sguarded_store {A} (c : StoreCall A) : asks c → sguarded any (store c).
Proof using. intros Hc. split; [done|]. by intros [x|e]. Qed.
Lemma sguarded_now {B} R (f : Z → Svc B) : (∀ t, sguarded R (f t)) → sguarded R (t <- now_ms; f t).
Proof using. intros Hf. split; [done|]. intros t _. apply Hf. Qed.
Lemma sguarded_lift {A B} R (r : result A WorkerError) (f : A → Svc B) :
  (∀ a, r = Ok a → sguarded R (f a)) → sguarded R (a <- lift r; f a).
Proof using. intros Hf. destruct r as [a|e]; [by apply (Hf a)|done]. Qed.
Lemma guarded_call {X B} Q (e : Event X) (k : X → Prog B) :
  event_asks e → (∀ x, event_reports e x → guarded Q (k x)) → guarded Q (Call e k).
Proof using. by split. Qed.
Lemma sguarded_any {A} R (p : Svc A) : sguarded R p → sguarded any p.
Proof using.
  induction p as [[a|e]| |X e k IH]; cbn; try done. intros [? Hk]. split; [done|]. intros x Hx. by apply IH, Hk.
Qed.

Lemma journal_row_guarded o k t u j g d : sguarded any (journal_row o k t u j g d).
Proof using. apply sguarded_lift. intros e _. by apply sguarded_store. Qed.
End Guarded.
Arguments reports {dead A} c /.
Arguments asks {dead A} c /.
Create HintDb guards.
#[export] Hint Resolve journal_row_guarded : guards.

(** Walk through a program: its calls, tests and sub-programs. *)
Ltac guard1 :=
  match goal with
  | |- guarded _ _ (sbind (store _) _) => apply sguarded_call; [try done|intros ??; cbn [reports] in *]
  | |- guarded _ _ (sbind now_ms _) => apply sguarded_now; intros ?
  | |- guarded _ _ (sbind (lift _) _) => apply sguarded_lift; intros ??
  | |- guarded _ _ (sbind (sret _) _) => cbn [sbind pbind sret]
  | |- guarded _ _ (store _) => apply sguarded_store; done
  | |- guarded _ _ (sret _) => exact I
  | |- guarded _ _ (lift ?r) => destruct r; exact I
  | |- guarded _ _ (sfail _) => exact I
  | |- guarded _ _ (if ?b then _ else _) => destruct b eqn:?
  | |- guarded _ _ (match ?x with _ => _ end) => destruct x eqn:?
  | |- guarded _ _ (Call _ _) => apply guarded_call; [exact I|intros ??]
  | |- guarded _ _ (let _ := _ in _) => cbv zeta
  end.
Ltac guards := repeat (cbv zeta; guard1).
(** A sub-program whose result matters for nothing. *)
Ltac part := eapply (sguarded_bind _ (λ _, True)); [solve [guards; eauto with guards]|intros ? _].

Section Methods.
Variable token_hash_of : string → string.
Variable dead : WorkerId → Prop.
Notation sguarded R p := (guarded dead (ok_to R) p).
Notation any := (λ _, True).
Notation living := (λ a, ¬ dead (wr_worker_id a)).
Notation all_living := (λ o, ∀ a, o = Some a → ¬ dead (wr_worker_id a)).

Lemma unrevoked a : alive dead a → wr_revoked a = false → ¬ dead (wr_worker_id a).
Proof using. intros Ha Hr Hd. by rewrite (Ha Hd) in Hr. Qed.

Lemma authenticate_guarded u t : sguarded living (authenticate token_hash_of u t).
Proof using.
  unfold authenticate. guards.
  apply unrevoked; eauto.
Qed.
Hint Resolve unrevoked authenticate_guarded : guards.

Lemma authenticate_in_guarded o u t : sguarded living (authenticate_in token_hash_of o u t).
Proof using. unfold authenticate_in. eapply sguarded_bind; [apply authenticate_guarded|]. intros a Ha. by guards. Qed.
Lemma require_eligible_guarded u o d r : sguarded living (require_eligible u o d r).
Proof using. unfold require_eligible. guards. apply unrevoked; eauto. Qed.
Lemma require_job_guarded o j : sguarded any (require_job o j).
Proof using. unfold require_job. by guards. Qed.
Lemma indexed_job_guarded o raw : sguarded any (indexed_job o raw).
Proof using. unfold indexed_job. by guards. Qed.
Lemma first_eligible_guarded d r page :
  (∀ a, a ∈ page → alive dead a) → sguarded all_living (first_eligible d r page).
Proof using.
  induction page as [|a page IH]; intros Hp; [done|]. cbn.
  assert (sguarded all_living (first_eligible d r page)) as Hrest.
  { apply IH. intros b Hb. apply Hp. by right. }
  destruct (wr_revoked a) eqn:Hr; [done|]. guards; try done. intros b [= <-]. apply unrevoked; [|done].
  apply Hp. by left.
Qed.
Lemma find_eligible_guarded fuel o d r : sguarded all_living (find_eligible fuel o d r).
Proof using.
  unfold find_eligible. generalize (@None string). induction fuel as [|n IH]; intros after; [done|].
  cbn [eligible_pages]. guard1. guard1; [|done].
  eapply sguarded_bind; [by apply first_eligible_guarded|]. intros [a|] Ha; guards; [done..|apply IH].
Qed.

Lemma accept_lease_inner_guarded u o j g now via :
  ¬ dead (wr_worker_id u) → sguarded any (accept_lease_inner u o j g now via).
Proof using.
  intros Hu. unfold accept_lease_inner. guards.
  eapply (sguarded_bind _ any); [by guards|]. intros _ _. guards; try (by part; guards).
  eapply (sguarded_bind _ any); [by guards|]. intros es _. guards. part. by guards.
Qed.
Lemma choose_target_guarded fuel o j : sguarded all_living (choose_target fuel o j).
Proof using.
  unfold choose_target. guard1; [|apply find_eligible_guarded].
  eapply guarded_bind; [apply require_eligible_guarded|]. intros [v|e] Hu; guards; [|done].
  by intros a [= <-].
Qed.
Lemma assign_guarded fuel o j now : sguarded any (assign fuel o j now).
Proof using.
  unfold assign. eapply sguarded_bind; [apply choose_target_guarded|]. intros [u|] Hu; [|done].
  eapply guarded_bind; [by apply accept_lease_inner_guarded, Hu|]. intros [?|?] _; by guards.
Qed.
Hint Resolve require_job_guarded indexed_job_guarded assign_guarded : guards.
Lemma finish_lost_lease_guarded fuel l reason now r : sguarded any (finish_lost_lease fuel l reason now r).
Proof using.
  unfold finish_lost_lease, attempt_number_for. guards. eapply (sguarded_bind _ any); [by guards|]. intros n _.
  guards. part. guards; part; guards. part. by guards.
Qed.
Hint Resolve finish_lost_lease_guarded : guards.
Lemma end_lease_and_requeue_guarded fuel l s reason now r :
  sguarded any (end_lease_and_requeue fuel l s reason now r).
Proof using. unfold end_lease_and_requeue. guards. apply finish_lost_lease_guarded. Qed.
Hint Resolve end_lease_and_requeue_guarded : guards.

Lemma scan_guarded {S R} (body : S → string → Svc (S + R)) :
  (∀ s raw, sguarded any (body s raw)) →
  ∀ n o after seen s, sguarded any (scan_jobs body n o after seen s).
Proof using.
  intros Hb. assert (∀ page seen s, sguarded any (scan_page body page seen s)) as Hpage.
  { induction page as [|e page IH]; intros seen s; [done|]. cbn [scan_page]. guards; try apply IH.
    eapply (sguarded_bind _ any); [apply Hb|]. intros [s'|x] _; [apply IH|by guards]. }
  induction n as [|n IH]; intros o after seen s; [done|]. cbn [scan_jobs]. guards.
  eapply (sguarded_bind _ any); [apply Hpage|]. intros [[seen' s']|y] _; guards. apply IH.
Qed.
Lemma claim_body_guarded o u now n raw : ¬ dead (wr_worker_id u) → sguarded any (claim_body o u now n raw).
Proof using.
  intros Hu. unfold claim_body. guards. part. guards.
  eapply guarded_bind; [by apply accept_lease_inner_guarded|]. intros [?|?] _; by guards.
Qed.

(** Every method. *)
Lemma run_call_guarded fuel c : guarded dead any (run_call token_hash_of fuel c).
Proof using.
  assert (∀ {A} (p : Svc A), sguarded any p → guarded dead any (quiet p)) as Hq.
  { intros A p Hp. by eapply guarded_bind. }
  destruct c; apply Hq.
  - unfold mint_registration_token. by guards.
  - unfold revoke_token. by guards.
  - unfold register. guards; part; guards; part; by guards.
  - unfold revoke_worker. guards. part. guards.
    eapply (sguarded_bind _ any); [|intros ? _; part; by guards].
    match goal with |- guarded _ _ (revoke_leases _ _ ?ls ?r) => generalize ls, r end.
    intros ls. induction ls as [|l ls IH]; intros r; [done|]. cbn [revoke_leases]. part. apply IH.
  - unfold list_workers. by guards.
  - unfold schedule_job. guards. eapply (sguarded_bind _ all_living).
    { guards; [|apply find_eligible_guarded]. eapply sguarded_bind; [apply require_eligible_guarded|].
      intros v Hv. guards. by intros b [= <-]. }
    intros u Hu. guards. part. guards. eapply (sguarded_bind _ any); [|intros ? _; by guards]. guards.
    eapply (sguarded_bind _ any); [by apply accept_lease_inner_guarded, Hu|intros ? _; by guards].
  - unfold accept_lease. guards. eapply sguarded_bind; [apply authenticate_in_guarded|]. intros v Hv.
    part. guards. by apply accept_lease_inner_guarded.
  - unfold claim_next. guards. eapply sguarded_bind; [apply authenticate_in_guarded|]. intros v Hv. guards.
    eapply (sguarded_bind _ any); [apply scan_guarded; intros; by apply claim_body_guarded|intros ? _; by guards].
  - unfold adoptable_lease. guards. eapply sguarded_bind; [apply authenticate_in_guarded|]. intros v _. guards.
    match goal with |- guarded _ _ (first_adoptable _ _ _ ?ls) => induction ls as [|l ls IH]; [done|] end.
    cbn [first_adoptable]. guards; try (by apply IH). part. by guards.
  - unfold heartbeat. guards. eapply sguarded_bind; [apply authenticate_in_guarded|]. intros v _. guards.
    + part. unfold current_generation_of. guards. part. by guards.
    + part. guards; [part; by guards|..].
  - unfold submit_result_with_claim. guards. eapply (sguarded_bind _ any); [by guards|]. intros ? _.
    eapply sguarded_bind; [apply authenticate_in_guarded|]. intros v _. guards. part. guards.
    all: try (part; guards; try (part; by guards)).
  - unfold job_status. part. by guards.
  - unfold recover. guards. eapply (sguarded_bind _ any).
    { match goal with |- guarded _ _ (sweep_leases _ _ ?ls ?r) => generalize ls, r end.
      intros ls. induction ls as [|l ls IH]; intros r; [done|]. cbn [sweep_leases].
      part. apply IH. }
    intros ? _. unfold finish_interrupted_lease_losses.
    eapply (sguarded_bind _ any); [apply scan_guarded|intros ? _; by guards]. intros r raw.
    unfold interrupted_body. part. guards. part. by guards.
  - unfold resume_assignments. guards.
    eapply (sguarded_bind _ any); [apply scan_guarded|intros ? _; by guards]. intros r raw.
    unfold resume_body. part. guards. part. by guards.
Qed.
End Methods.

(** ** From the programs to the plane *)
Definition lease_source {A} (c : StoreCall A) (l : WorkerLease) : Prop :=
  match c with TryAcceptLease a _ => l = a | _ => False end.
(** A store call adds no lease but the one [try_accept_lease] is given, and
    moves none to another worker. *)
Lemma leases_from {A} (c : StoreCall A) st k l' :
  ms_leases (memory c st).2 !! k = Some l' →
  (∃ l, ms_leases st !! k = Some l ∧ wl_worker_id l = wl_worker_id l') ∨ lease_source c l'.
Proof.
  assert (∀ es st0, ms_leases (foldl (λ st e, push_entry e st) st0 es) = ms_leases st0) as Hpush.
  { intros es. induction es as [|e es IH]; intros st0; [done|]. cbn. by rewrite IH. }
  assert (∀ id a b, ms_leases st !! id = Some a → wl_worker_id b = wl_worker_id a →
    <[id := b]> (ms_leases st) !! k = Some l' →
    ∃ l, ms_leases st !! k = Some l ∧ wl_worker_id l = wl_worker_id l') as Hmove.
  { intros id a b Ha Hb [[<- <-]|[_ Hl]]%lookup_insert_Some; [by exists a|by exists l']. }
  intros Hl. destruct c; cbn in Hl |- *; try (left; by exists l').
  all: try (left; exists l'; split; [|done]; revert Hl;
    unfold put_worker, touch_worker, register_worker_with_token, insert_generation_and_attempt,
      set_generation_state, set_job_state, set_attempt_state; by repeat case_match).
  - unfold try_accept_lease in Hl. case_match; [left; by exists l'|]. cbn in Hl. rewrite Hpush in Hl.
    assert (ms_leases (lease_attempt lease (lease_job lease (lease_generation lease
      (on_leases <[as_str (wl_lease_id lease):=lease]> st)))) = <[as_str (wl_lease_id lease):=lease]> (ms_leases st)) as E.
    { unfold lease_attempt, lease_job, lease_generation. by repeat case_match. }
    rewrite E in Hl. apply lookup_insert_Some in Hl as [[_ <-]|[_ Hl]]; [by right|]. left. by exists l'.
  - left. revert Hl. unfold renew_lease. destruct (ms_leases st !! as_str lease) as [a|] eqn:Ha; [|by exists l'].
    case_match; [by exists l'|]. by apply (Hmove _ a).
  - left. revert Hl. unfold end_lease. destruct (ms_leases st !! as_str lease) as [a|] eqn:Ha; [|by exists l'].
    case_match; [by exists l'|]. by apply (Hmove _ a).
  - left. revert Hl. unfold land_result. case_match; [case_match; by exists l'|].
    case_match; [|by exists l']. case_match; [by exists l'|].
    destruct (ms_leases st !! as_str (rs_lease_id r)) as [a|] eqn:Ha; [|by exists l'].
    do 2 (case_match; [by exists l'|]).
    assert (∀ st0, ms_leases (complete_attempt r (complete_job r (complete_generation r st0))) = ms_leases st0) as E.
    { intros st0. unfold complete_attempt, complete_job, complete_generation. by repeat case_match. }
    cbn. rewrite E. by apply (Hmove _ a).
Qed.

Definition was_revoked (w : World) (u : WorkerId) : Prop :=
  ∃ a, ms_workers (w_store w) !! as_str u = Some a ∧ wr_revoked a = true.

Section Revocation.
Variable uuid : nat → string.
Variable secret : nat → string.
Variable token_hash_of : string → string.
Hypothesis uuid_inj : ∀ n m, uuid n = uuid m → n = m.
Hypothesis secret_inj : ∀ n m, token_hash_of (secret n) = token_hash_of (secret m) → n = m.
Notation Inv := (Inv uuid secret token_hash_of).
Notation sys_inv := (sys_inv uuid secret token_hash_of).
Notation handle := (handle uuid secret).
Notation step := (step uuid secret token_hash_of).

Lemma was_revoked_alive w0 w a :
  Inv w → evolves w0 w → ms_workers (w_store w) !! as_str (wr_worker_id a) = Some a → alive (was_revoked w0) a.
Proof using.
  intros Hi Hev Ha (b & Hb & Hr). destruct (ev_workers _ _ Hev _ _ Hb) as (c & Hc & _ & Hrc).
  replace a with c by congruence. by apply Hrc.
Qed.
Lemma event_reports_hold {X} (e : Event X) w0 w :
  Inv w → evolves w0 w → event_reports (was_revoked w0) e (handle e w).1.
Proof using.
  intros Hi Hev. destruct e as [A c| | | |]; try done. cbn.
  destruct (memory c (w_store w)) as [[x|er] st] eqn:E; [cbn|done]. destruct c; try done; cbn.
  - injection E as <- _. intros a Ha. eapply was_revoked_alive; [done..|].
    by destruct (inv_worker _ _ _ _ Hi _ _ Ha) as [<- _].
  - injection E as <- _. intros u (i & Hu & _)%elem_of_take.
    apply list_elem_of_lookup_2, list_elem_of_In, List.filter_In in Hu as [Hu%list_elem_of_In _].
    apply in_filter_values in Hu as [_ [k Hk]]. eapply was_revoked_alive; [done..|].
    by destruct (inv_worker _ _ _ _ Hi _ _ Hk) as [<- _].
Qed.

(** What holds from a moment [w0] on at which no call is in flight. *)
Record since (w0 : World) (s : System) : Prop := {
  si_inv : sys_inv s;
  si_later : evolves w0 (sys_world s);
  si_guarded : ∀ p, p ∈ sys_threads s → guarded (was_revoked w0) (λ _, True) p;
  si_leases : ∀ k l, ms_leases (w_store (sys_world s)) !! k = Some l →
    is_Some (ms_leases (w_store w0) !! k) ∨ ¬ was_revoked w0 (wl_worker_id l) }.

Lemma event_leases {X} (e : Event X) w0 w k l' :
  event_asks (was_revoked w0) e →
  (∀ k l, ms_leases (w_store w) !! k = Some l →
    is_Some (ms_leases (w_store w0) !! k) ∨ ¬ was_revoked w0 (wl_worker_id l)) →
  ms_leases (w_store (handle e w).2) !! k = Some l' →
  is_Some (ms_leases (w_store w0) !! k) ∨ ¬ was_revoked w0 (wl_worker_id l').
Proof using.
  intros Ha Hl Hk. destruct e as [A c| | | |]; cbn in *; try by apply Hl.
  assert (ms_leases (memory c (w_store w)).2 !! k = Some l') as Hk' by by destruct (memory c (w_store w)).
  apply leases_from in Hk' as [(l & Hl0 & <-)|Hsrc]; [by apply Hl|]. right.
  destruct c; try done. cbn in *. by subst.
Qed.

Lemma since_step w0 s s' : since w0 s → step s s' → since w0 s'.
Proof using uuid_inj secret_inj.
  intros [Hi Hev Hg Hl] Hst.
  destruct (plane_step_inv _ _ _ uuid_inj secret_inj _ _ Hi Hst) as [Hev' Hi']. destruct Hi as [Hi _].
  split; [done|by etrans| |]; destruct Hst as [fuel c w ts|X i e k x w w' ts Ht He|i w ts|t w ts]; cbn in *; try done.
  - intros p [->|Hp]%elem_of_cons; [apply run_call_guarded|by apply Hg].
  - intros p [j Hj]%list_elem_of_lookup. apply list_lookup_insert_Some in Hj as [(_ & <- & _)|[_ Hj]];
      [|by eapply Hg, list_elem_of_lookup_2].
    destruct (Hg _ (list_elem_of_lookup_2 _ _ _ Ht)) as [_ Hk]. apply Hk.
    replace x with (handle e w).1 by by rewrite He. by apply event_reports_hold.
  - intros p Hp. by eapply Hg, in_deleted.
  - intros k' l Hk'. eapply (event_leases e w0 w); [|done|by rewrite He].
    by destruct (Hg _ (list_elem_of_lookup_2 _ _ _ Ht)).
Qed.

Lemma since_steps w0 s s' : since w0 s → rtc step s s' → since w0 s'.
Proof using uuid_inj secret_inj. intros Hs Hst. induction Hst as [|s s1 s2 H1 _ IH]; [done|]. by eapply IH, since_step. Qed.

Lemma revoked_never_leased s0 s u :
  reachable uuid secret token_hash_of s0 → sys_threads s0 = [] → was_revoked (sys_world s0) u → rtc step s0 s →
  since (sys_world s0) s
  ∧ ∀ k l, ms_leases (w_store (sys_world s)) !! k = Some l → wl_worker_id l = u →
      is_Some (ms_leases (w_store (sys_world s0)) !! k).
Proof using uuid_inj secret_inj.
  intros Hs0 Hquiet Hu Hlater.
  pose proof (reachable_sys_inv _ _ _ uuid_inj secret_inj s0 Hs0) as Hi0.
  assert (since (sys_world s0) s) as Hsince.
  { eapply since_steps; [|done]. split; [done|done| |intros k l Hl; left; by eexists].
    rewrite Hquiet. by intros p ?%elem_of_nil. }
  split; [done|]. intros k l Hl <-. by destruct (si_leases _ _ Hsince _ _ Hl).
Qed.

(** C21: a revocation is final.  From a moment on at which a worker is revoked
    and no call is in flight, whatever is called, interleaved or killed, the
    worker never gets another lease: every lease it ever holds existed when it
    was revoked. *)
Theorem revocation_is_final s0 s u
    (Hs0 : reachable uuid secret token_hash_of s0) (Hquiet : sys_threads s0 = [])
    (Hu : was_revoked (sys_world s0) u) (Hlater : rtc step s0 s) k l
    (Hl : ms_leases (w_store (sys_world s)) !! k = Some l) (Hw : wl_worker_id l = u) :
  is_Some (ms_leases (w_store (sys_world s0)) !! k).
Proof using uuid_inj secret_inj.
  destruct (revoked_never_leased s0 s u Hs0 Hquiet Hu Hlater) as [_ H]. by eapply H.
Qed.

(** A consequence nobody asks for: [assigned_worker], documented as a
    preference, binds every claim, requeue and re-assignment, so a job assigned
    to a worker that is then revoked is not leased again, to anyone. *)
Lemma revoked_assignee_strands_job s0 s u k j i l :
  reachable uuid secret token_hash_of s0 → sys_threads s0 = [] → was_revoked (sys_world s0) u → rtc step s0 s →
  ms_jobs (w_store (sys_world s0)) !! k = Some j → ej_assigned_worker j = Some u →
  ms_leases (w_store (sys_world s)) !! i = Some l → wl_job_id l = ej_job_id j →
  is_Some (ms_leases (w_store (sys_world s0)) !! i).
Proof using uuid_inj secret_inj.
  intros Hs0 Hquiet Hu Hlater Hj Ha Hl Hlj.
  destruct (revoked_never_leased s0 s u Hs0 Hquiet Hu Hlater) as [Hsince Hnone]. apply (Hnone _ _ Hl).
  destruct (reachable_sys_inv _ _ _ uuid_inj secret_inj s0 Hs0) as [Hi0 _].
  destruct (si_inv _ _ Hsince) as [Hi _].
  destruct (inv_job _ _ _ _ Hi0 _ _ Hj) as [-> _].
  destruct (ev_jobs _ _ (si_later _ _ Hsince) _ _ Hj) as (j' & Hj' & Hsame & _).
  destruct (inv_lease _ _ _ _ Hi _ _ Hl) as (_ & _ & _ & j2 & _ & Hj2 & _ & _ & _ & _ & _ & Htake).
  rewrite Hlj, Hj' in Hj2. injection Hj2 as <-.
  rewrite <- (sj_assigned _ _ Hsame), Ha in Htake. by apply bool_decide_eq_true in Htake as ->.
Qed.
End Revocation.

(** The first [n] calls of a thread. *)
Fixpoint advance (uuid secret : nat → string) (n : nat) (p : Prog unit) (w : World) : Prog unit * World :=
  match n, p with
  | S n, Call e k => let '(x, w') := handle uuid secret e w in advance uuid secret n (k x) w'
  | _, _ => (p, w)
  end.
Lemma advance_steps uuid secret hash n p w ts :
  rtc (step uuid secret hash) (MkSystem w (p :: ts))
    (MkSystem (advance uuid secret n p w).2 ((advance uuid secret n p w).1 :: ts)).
Proof.
  revert p w. induction n as [|n IH]; intros p w; [done|]. destruct p as [a| |X e k]; [done|done|]. cbn.
  destruct (handle uuid secret e w) as [x w'] eqn:E. eapply rtc_l; [|apply IH].
  exact (step_call _ _ _ 0 e k x w w' (Call e k :: ts) eq_refl E).
Qed.

Module Revoked.
Import Demo.
Definition before : list Move :=
  setup ++ [Run (CMintToken acme "lab" "label"); Run (CRegister acme w2 "5" caps "worker two"); Run (CRevokeWorker acme w1)].
Definition after : list Move :=
  [Run (CRecover acme); Run (CResume acme); Run (CClaim None acme w2 "5" 1); Run (CAdopt acme w1 "0" 1)].
Notation system ms := (MkSystem (play number number plain 5 ms empty_world) []).
Lemma revocation_is_final_witness :
  ∃ l, ms_leases (w_store (play number number plain 5 after (sys_world (system before)))) !! "lease_2" = Some l
    ∧ wl_worker_id l = w1 ∧ is_Some (ms_leases (w_store (sys_world (system before))) !! "lease_2").
Proof.
  assert (∃ l, ms_leases (w_store (play number number plain 5 after (sys_world (system before)))) !! "lease_2" = Some l
    ∧ wl_worker_id l = w1) as (l & Hl & Hw).
  { eexists. split; [vm_compute; reflexivity|reflexivity]. }
  exists l. split; [exact Hl|]. split; [exact Hw|].
  refine (revocation_is_final number number plain number_inj plain_inj (system before)
    (MkSystem (play number number plain 5 after (sys_world (system before))) []) w1
    (system_reachable before) eq_refl _ (play_steps _ _ _ _ _ _) "lease_2" l Hl Hw).
  eexists. split; [vm_compute; reflexivity|reflexivity].
Defined.

(** The proviso on calls in flight is needed: neither [accept_lease_inner] nor
    [try_accept_lease] looks at the worker's row again, so a claim that has
    authenticated before [revoke_worker] runs, from its first call to its last,
    still gets its lease. *)
Definition open_job : list Move :=
  [Run (CSchedule acme "lab" key_a reqs digest (MkPolicy 2) None);
   Run (CMintToken acme "lab" "label"); Run (CRegister acme w1 "1" caps "worker one")].
Definition claim : Prog unit := run_call plain 5 (CClaim None acme w1 "1" 1).
Definition in_flight : Prog unit * World := advance number number 3 claim (play number number plain 5 open_job empty_world).
Definition raced : World :=
  (run number number in_flight.1 (play number number plain 5 [Run (CRevokeWorker acme w1)] in_flight.2)).2.
Example claim_outlives_revocation :
  (∃ ts, reachable number number plain (MkSystem raced ts))
  ∧ was_revoked raced w1
  ∧ ∃ l, ms_leases (w_store raced) !! "lease_2" = Some l ∧ wl_worker_id l = w1 ∧ wl_state l = LeaseLive.
Proof.
  split_and!.
  - destruct (run_steps number number plain in_flight.1
      (play number number plain 5 [Run (CRevokeWorker acme w1)] in_flight.2) []) as [q Hq].
    exists [q]. unfold reachable. etrans; [apply (play_steps _ _ _ 5 open_job)|].
    eapply rtc_l; [apply (step_spawn _ _ _ 5 (CClaim None acme w1 "1" 1))|].
    etrans; [apply (advance_steps _ _ _ 3)|]. etrans; [apply (play_steps_with _ _ _ 5 [Run (CRevokeWorker acme w1)])|].
    exact Hq.
  - eexists. split; [vm_compute; reflexivity|reflexivity].
  - eexists. split; [vm_compute; reflexivity|]. split; reflexivity.
Qed.
End Revoked.
