(* ===== verification/ApprovalModel.v ===== *)
(** * Approvals: requests, decisions and tokens ([crates/approval/src/model.rs])

    What an agent proposes, what a human decides about it, and the token a
    gate receives.  Third-party code enters through classes: [Encode] and
    [Decode] are serde_json's [to_vec] and [from_slice] on one type (total:
    the types derive [Serialize] and have string keys; the registry is printed
    with [to_vec_pretty]), [Crypto] is blake3 and
    ed25519, [Scanner] the credential patterns.  The prose of an error is left
    out. *)
From S2P Require Import Prelude Strings Bytes Effects.
#[local] Open Scope string_scope.
#[local] Open Scope N_scope.

(** ** Third-party code *)
Class Encode (T : Type) := to_vec : T → string.
Class Decode (T : Type) := from_slice : string → option T.
Class Crypto := {
  blake3 : string → string;
  SigningKey : Type;
  verifying_key : SigningKey → string;               (* its 32 bytes *)
  ed25519_sign : SigningKey → string → string;
  key_from_bytes : string → bool;                    (* [VerifyingKey::from_bytes] succeeds *)
  ed25519_verify : string → string → string → bool   (* key, message, signature *)
}.
(** Whether [scan_secrets] finds anything. *)
Class Scanner := has_credential : string → bool.

(** ** Limits *)
Definition MAX_PRINCIPAL_ID_BYTES : N := 128.
Definition MAX_APPROVAL_TEXT_BYTES : N := 4096.
Definition MAX_APPROVAL_EVIDENCE : N := 64.
Definition MAX_APPROVAL_EVIDENCE_BYTES : N := 16384.
Definition MAX_OPEN_APPROVALS : N := 128.
Definition MAX_REQUEST_LIFETIME_MS : N := 2592000000.
Definition REQUEST_DOMAIN := "faktor.approval.request/v1".
Definition DECISION_DOMAIN := "faktor.approval.decision/v1".
Definition DECISION_SIGNATURE_DOMAIN := "faktor.approval.decision-signature/v1".

(** ** Data *)
Inductive ApprovalKind :=
  | EngineeringConstraintRelaxation | EngineeringAcceptanceCriteriaChange
  | EngineeringProofObligationWaiver | EngineeringModelValidityOverride
  | EngineeringVerifiedConstraintChange | SupplyShouldCostAssumptionOverride
  | SupplySupplierQualification | SupplyAvlChange | SupplyRfqAcceptance
  | SupplyPurchaseOrder | SupplySupplierMessage | SupplyPaymentTerms
  | SupplyContractTerms | SupplyTariffClassification | SupplyInventoryPolicy
  | SupplyPlanProceed.
#[global] Instance ApprovalKind_eq_dec : EqDecision ApprovalKind.
Proof. solve_decision. Defined.
Definition kind_str (k : ApprovalKind) : string :=
  match k with
  | EngineeringConstraintRelaxation => "engineering_constraint_relaxation"
  | EngineeringAcceptanceCriteriaChange => "engineering_acceptance_criteria_change"
  | EngineeringProofObligationWaiver => "engineering_proof_obligation_waiver"
  | EngineeringModelValidityOverride => "engineering_model_validity_override"
  | EngineeringVerifiedConstraintChange => "engineering_verified_constraint_change"
  | SupplyShouldCostAssumptionOverride => "supply_should_cost_assumption_override"
  | SupplySupplierQualification => "supply_supplier_qualification"
  | SupplyAvlChange => "supply_avl_change"
  | SupplyRfqAcceptance => "supply_rfq_acceptance"
  | SupplyPurchaseOrder => "supply_purchase_order"
  | SupplySupplierMessage => "supply_supplier_message"
  | SupplyPaymentTerms => "supply_payment_terms"
  | SupplyContractTerms => "supply_contract_terms"
  | SupplyTariffClassification => "supply_tariff_classification"
  | SupplyInventoryPolicy => "supply_inventory_policy"
  | SupplyPlanProceed => "supply_plan_proceed"
  end.

Inductive RiskLevel := Low | Medium | High | Critical.
#[global] Instance RiskLevel_eq_dec : EqDecision RiskLevel.
Proof. solve_decision. Defined.
Inductive PrincipalKind := HumanOperator | Agent | Service.
#[global] Instance PrincipalKind_eq_dec : EqDecision PrincipalKind.
Proof. solve_decision. Defined.

Record Principal := MkPrincipal { pr_id : string; pr_kind : PrincipalKind }.
#[global] Instance Principal_eq_dec : EqDecision Principal.
Proof. solve_decision. Defined.

Record ApprovalDraft := MkDraft {
  dr_kind : ApprovalKind; dr_subject : string; dr_evidence : list string;
  dr_proposed_change : string; dr_risk : RiskLevel; dr_requester : Principal;
  dr_bound_revision : string; dr_bound_digest : string; dr_expires_at_ms : N }.

Record ApprovalRequest := MkRequest {
  rq_id : string; rq_kind : ApprovalKind; rq_subject : string; rq_evidence : list string;
  rq_proposed_change : string; rq_risk : RiskLevel; rq_requester : Principal;
  rq_bound_revision : string; rq_bound_digest : string; rq_created_at_ms : N;
  rq_expires_at_ms : N }.
#[global] Instance ApprovalRequest_eq_dec : EqDecision ApprovalRequest.
Proof. solve_decision. Defined.

Record RequestIdentity := MkIdentity {
  ri_kind : ApprovalKind; ri_subject : string; ri_evidence : list string;
  ri_proposed_change : string; ri_risk : RiskLevel; ri_requester : Principal;
  ri_bound_revision : string; ri_bound_digest : string; ri_created_at_ms : N;
  ri_expires_at_ms : N }.

Record ApprovalCheck := MkCheck {
  ck_kind : ApprovalKind; ck_subject : string; ck_bound_revision : string;
  ck_bound_digest : string }.
#[global] Instance ApprovalCheck_eq_dec : EqDecision ApprovalCheck.
Proof. solve_decision. Defined.

Inductive DecisionOutcome := Approved | DeniedFor (reason : string).
#[global] Instance DecisionOutcome_eq_dec : EqDecision DecisionOutcome.
Proof. solve_decision. Defined.

Record DecisionSignature := MkSignature {
  sg_algorithm : string; sg_key_id : string; sg_public_key : string; sg_signature : string }.
#[global] Instance DecisionSignature_eq_dec : EqDecision DecisionSignature.
Proof. solve_decision. Defined.

Record ApprovalDecision := MkDecision {
  dc_request_id : string; dc_request_digest : string; dc_outcome : DecisionOutcome;
  dc_principal : Principal; dc_rationale : string; dc_decided_at_ms : N;
  dc_signature : DecisionSignature }.
#[global] Instance ApprovalDecision_eq_dec : EqDecision ApprovalDecision.
Proof. solve_decision. Defined.

Record DecisionStatement := MkStatement {
  ds_schema : string; ds_request_id : string; ds_request_digest : string;
  ds_outcome : DecisionOutcome; ds_principal : Principal; ds_rationale : string;
  ds_decided_at_ms : N }.

(** [deadline] is an [Instant], here in nanoseconds. *)
Record ApprovalToken := MkApproval {
  tn_kind : ApprovalKind; tn_subject : string; tn_bound_revision : string;
  tn_bound_digest : string; tn_request_id : string; tn_decision_key_id : string;
  tn_decided_at_ms : N; tn_expires_at_ms : N; tn_deadline : N }.

Inductive ApprovalError :=
  | ApprovalRequired (kind : ApprovalKind) (subject bound_revision bound_digest : string)
  | Pending (request_id : string) (kind : ApprovalKind) (subject : string)
  | PendingLimit (open max : N)
  | Denied (request_id : string) (kind : ApprovalKind) (subject principal reason : string)
  | Stale (request_id expected_digest actual_digest expected_revision actual_revision : string)
  | Expired (request_id : string) (expired_at_ms : N)
  | SelfApproval (principal : string)
  | AgentApproval (principal : string)
  | UntrustedOperator (key_id : string)
  | SignatureMismatch
  | Invalid
  | StoreFailed
  | AnchorDegraded
  | LedgerRollback (anchor_seq ledger_len : N)
  | Busy
  | Conflict
  | NotFound.
Definition code (e : ApprovalError) : string :=
  match e with
  | ApprovalRequired _ _ _ _ => "approval_required"
  | Pending _ _ _ => "approval_pending"
  | PendingLimit _ _ => "approval_pending_limit"
  | Denied _ _ _ _ _ => "approval_denied"
  | Stale _ _ _ _ _ => "approval_stale"
  | Expired _ _ => "approval_expired"
  | SelfApproval _ => "approval_self_refused"
  | AgentApproval _ => "approval_agent_refused"
  | UntrustedOperator _ => "approval_untrusted_operator"
  | SignatureMismatch => "approval_signature_invalid"
  | Invalid => "approval_invalid"
  | StoreFailed => "approval_store_error"
  | AnchorDegraded => "approval_anchor_degraded"
  | LedgerRollback _ _ => "approval_ledger_rollback"
  | Busy => "approval_store_busy"
  | Conflict => "approval_conflict"
  | NotFound => "approval_not_found"
  end.
Notation outcome A := (result A ApprovalError).
(** [if b { return Err(e) }] *)
Definition refuse (b : bool) (e : ApprovalError) : outcome unit := if b then Err e else Ok tt.

(** ** What the authority asks of the operating system
    Files are named by their role; a read answers the whole file.  An
    append that fails may have written any part of its bytes; a replacement
    is [atomic_replace]. *)
Inductive File := Ledger | Head | Anchor | ClockAnchor | Registry.
#[global] Instance File_eq_dec : EqDecision File.
Proof. solve_decision. Defined.
Inductive Lock := LedgerLock | ClockLock.
#[global] Instance Lock_eq_dec : EqDecision Lock.
Proof. solve_decision. Defined.
Inductive ReadAnswer := Absent | Content (s : string) | ReadFailed.
Inductive LockAnswer := Acquired | Contended | LockFailed.
Inductive Event : Type → Type :=
  | Read (f : File) : Event ReadAnswer
  | Append (f : File) (bytes : string) : Event bool
  | Replace (f : File) (bytes : string) : Event bool
  | Acquire (l : Lock) : Event LockAnswer
  | Release (l : Lock) : Event unit
  | Instant : Event N        (* [Instant::now], nanoseconds *)
  | WallClock : Event N.     (* [unix_now_ms] *)
Notation Prog := (Effects.Prog Event).
Notation Svc A := (Prog (outcome A)).

(** ** Text *)
Fixpoint contains_forbidden_formatting (s : string) : bool :=
  match s with
  | EmptyString => false
  | String c s1 =>
      let n := N_of_ascii c in
      ((n <? 32) && negb ((n =? 10) || (n =? 9))) || (n =? 127)
      || match s1 with
         | String d s2 =>
             let m := N_of_ascii d in
             ((n =? 194) && (128 <=? m) && (m <=? 159))   (* C1 controls *)
             || match s2 with
                | String e _ =>
                    let k := N_of_ascii e in
                    (n =? 226) && ((m =? 128) && ((k =? 142) || (k =? 143) || (170 <=? k) && (k <=? 174))
                                   || (m =? 129) && (166 <=? k) && (k <=? 169))
                | EmptyString => false
                end
         | EmptyString => false
         end
      || contains_forbidden_formatting s1
  end.

Definition bounded_text (value : string) (max : N) : outcome unit :=
  refuse (bool_decide (trim value = "")) Invalid ;?
  refuse (max <? slen value) Invalid ;?
  refuse (contains_forbidden_formatting value) Invalid.

Definition is_line_break (c : ascii) : bool :=
  let n := N_of_ascii c in (n =? 10) || (n =? 13) || (n =? 9).
Definition bounded_single_line (value : string) (max : N) : outcome unit :=
  bounded_text value max ;? refuse (negb (lacks is_line_break value)) Invalid.

Definition all_hex (s : string) : bool := lacks (λ c, negb (is_ascii_hexdigit c)) s.
Definition parse_hex (n : N) (value : string) : outcome string :=
  refuse (negb (slen value =? n * 2) || negb (all_hex value)) Invalid ;?
  match hex_pairs value with Some b => Ok b | None => Err Invalid end.

(** [apr-] and 32 hexadecimal digits. *)
Definition request_id_ok (id : string) : bool :=
  (slen id =? 36) && starts_with "apr-" id && all_hex (String.substring 4 32 id).
Definition digest_ok (d : string) : bool := (slen d =? 64) && all_hex d.

Definition can_approve (k : PrincipalKind) : bool :=
  match k with HumanOperator => true | _ => false end.
Definition principal_validate (p : Principal) : outcome unit :=
  refuse (bool_decide (pr_id p = "") || (MAX_PRINCIPAL_ID_BYTES <? slen (pr_id p))) Invalid ;?
  refuse (negb (lacks (λ b, negb (is_ascii_graphic b || bool_decide (b = " "%char))) (pr_id p))) Invalid.
Definition principal_new (id : string) (kind : PrincipalKind) : outcome Principal :=
  let principal := MkPrincipal id kind in
  principal_validate principal ;? Ok principal.

Fixpoint each {A} (f : A → outcome unit) (l : list A) : outcome unit :=
  match l with [] => Ok tt | a :: l' => f a ;? each f l' end.

(** [u64::to_le_bytes] *)
Definition u64_le (n : N) : string :=
  fold_right (λ i s, String (ascii_of_N (N.shiftr n (8 * N.of_nat i) mod 256)) s) "" (seq 0 8).

Section Model.
Context `{Crypto, Scanner, Encode RequestIdentity, Encode ApprovalRequest, Encode DecisionStatement}.

Definition hash_input `{Encode T} (domain : string) (value : T) : string :=
  u64_le (slen domain) ++ domain ++ to_vec value.
Definition content_digest `{Encode T} (domain : string) (value : T) : string :=
  to_hex (blake3 (hash_input domain value)).

Definition ensure_no_credential (value : string) : outcome unit :=
  refuse (has_credential value) Invalid.
Definition signing_message (digest : string) : string := DECISION_SIGNATURE_DOMAIN ++ digest.

(** ** Requests *)
Definition request_validate (r : ApprovalRequest) : outcome unit :=
  refuse (negb (request_id_ok (rq_id r))) Invalid ;?
  bounded_single_line (rq_subject r) MAX_PRINCIPAL_ID_BYTES ;?
  bounded_text (rq_proposed_change r) MAX_APPROVAL_TEXT_BYTES ;?
  bounded_single_line (rq_bound_revision r) 256 ;?
  refuse (negb (digest_ok (rq_bound_digest r))) Invalid ;?
  refuse (MAX_APPROVAL_EVIDENCE <? N.of_nat (List.length (rq_evidence r))) Invalid ;?
  each (λ e, bounded_single_line e MAX_APPROVAL_TEXT_BYTES) (rq_evidence r) ;?
  refuse (MAX_APPROVAL_EVIDENCE_BYTES
          <? fold_left (λ n e, U64.sat_add n (slen e)) (rq_evidence r) 0) Invalid ;?
  ensure_no_credential (rq_subject r) ;?
  ensure_no_credential (rq_proposed_change r) ;?
  ensure_no_credential (rq_bound_revision r) ;?
  ensure_no_credential (pr_id (rq_requester r)) ;?
  each ensure_no_credential (rq_evidence r) ;?
  principal_validate (rq_requester r) ;?
  refuse ((rq_created_at_ms r =? 0) || (rq_expires_at_ms r <=? rq_created_at_ms r)
          || (MAX_REQUEST_LIFETIME_MS <? rq_expires_at_ms r - rq_created_at_ms r)) Invalid.

Definition request_digest (r : ApprovalRequest) : string := content_digest REQUEST_DOMAIN r.
Definition request_check (r : ApprovalRequest) : ApprovalCheck :=
  MkCheck (rq_kind r) (rq_subject r) (rq_bound_revision r) (rq_bound_digest r).

Definition identity_of (d : ApprovalDraft) (now_ms : N) : RequestIdentity :=
  MkIdentity (dr_kind d) (dr_subject d) (dr_evidence d) (dr_proposed_change d) (dr_risk d)
    (dr_requester d) (dr_bound_revision d) (dr_bound_digest d) now_ms (dr_expires_at_ms d).

(** [ApprovalRequest::propose] *)
Definition request_propose (d : ApprovalDraft) (now_ms : N) : outcome ApprovalRequest :=
  refuse (now_ms =? 0) Invalid ;?
  refuse (dr_expires_at_ms d <=? now_ms) Invalid ;?
  refuse (MAX_REQUEST_LIFETIME_MS <? dr_expires_at_ms d - now_ms) Invalid ;?
  ensure_no_credential (dr_subject d) ;?
  ensure_no_credential (dr_proposed_change d) ;?
  ensure_no_credential (dr_bound_revision d) ;?
  ensure_no_credential (pr_id (dr_requester d)) ;?
  each ensure_no_credential (dr_evidence d) ;?
  let digest := content_digest REQUEST_DOMAIN (identity_of d now_ms) in
  let request :=
    MkRequest ("apr-" ++ String.substring 0 32 digest) (dr_kind d) (dr_subject d) (dr_evidence d)
      (dr_proposed_change d) (dr_risk d) (dr_requester d) (dr_bound_revision d)
      (dr_bound_digest d) now_ms (dr_expires_at_ms d) in
  request_validate request ;? Ok request.

(** ** Decisions *)
Definition statement_of (d : ApprovalDecision) : DecisionStatement :=
  MkStatement "faktor.approval.decision/v1" (dc_request_id d) (dc_request_digest d) (dc_outcome d)
    (dc_principal d) (dc_rationale d) (dc_decided_at_ms d).
Definition statement_digest (d : ApprovalDecision) : string :=
  content_digest DECISION_DOMAIN (statement_of d).

Definition decision_validate (d : ApprovalDecision) : outcome unit :=
  refuse (negb (request_id_ok (dc_request_id d))) Invalid ;?
  refuse (negb (digest_ok (dc_request_digest d))) Invalid ;?
  refuse (negb (bool_decide (pr_kind (dc_principal d) = HumanOperator)))
    (AgentApproval (pr_id (dc_principal d))) ;?
  principal_validate (dc_principal d) ;?
  bounded_text (dc_rationale d) MAX_APPROVAL_TEXT_BYTES ;?
  ensure_no_credential (dc_rationale d) ;?
  match dc_outcome d with
  | Approved => Ok tt
  | DeniedFor reason => bounded_text reason MAX_APPROVAL_TEXT_BYTES
  end ;?
  refuse (dc_decided_at_ms d =? 0) Invalid ;?
  refuse (negb (bool_decide (sg_algorithm (dc_signature d) = "ed25519"))) Invalid ;?
  public_key <-? parse_hex 32 (sg_public_key (dc_signature d));
  parse_hex 64 (sg_signature (dc_signature d)) ;?
  refuse (negb (digest_ok (sg_key_id (dc_signature d)))) Invalid ;?
  refuse (negb (bool_decide (to_hex (blake3 public_key) = sg_key_id (dc_signature d))))
    SignatureMismatch.

(** [ApprovalDecision::verify]; [trusted] is the registered key ids. *)
Definition decision_verify (trusted : option (gset string)) (d : ApprovalDecision) : outcome unit :=
  decision_validate d ;?
  match trusted with
  | Some t => refuse (negb (bool_decide (sg_key_id (dc_signature d) ∈ t)))
                (UntrustedOperator (sg_key_id (dc_signature d)))
  | None => Ok tt
  end ;?
  public_key <-? parse_hex 32 (sg_public_key (dc_signature d));
  refuse (negb (key_from_bytes public_key)) SignatureMismatch ;?
  signature <-? parse_hex 64 (sg_signature (dc_signature d));
  refuse (negb (ed25519_verify public_key (signing_message (statement_digest d)) signature))
    SignatureMismatch.

Definition key_id (key : SigningKey) : string := to_hex (blake3 (verifying_key key)).
Definition public_key_hex (key : SigningKey) : string := to_hex (verifying_key key).

Definition with_signature (s : DecisionSignature) (d : ApprovalDecision) : ApprovalDecision :=
  MkDecision (dc_request_id d) (dc_request_digest d) (dc_outcome d) (dc_principal d)
    (dc_rationale d) (dc_decided_at_ms d) s.
Definition decision_sign (d : ApprovalDecision) (key : SigningKey) : outcome ApprovalDecision :=
  let signature := ed25519_sign key (signing_message (statement_digest d)) in
  let d := with_signature (MkSignature "ed25519" (key_id key) (public_key_hex key)
                             (to_hex signature)) d in
  decision_validate d ;? Ok d.

(** [ApprovalDecision::issue] *)
Definition decision_issue (request : ApprovalRequest) (o : DecisionOutcome) (principal : Principal)
    (rationale : string) (decided_at_ms : N) (key : SigningKey) : outcome ApprovalDecision :=
  refuse (negb (bool_decide (pr_kind principal = HumanOperator))) (AgentApproval (pr_id principal)) ;?
  refuse (bool_decide (pr_id principal = pr_id (rq_requester request)))
    (SelfApproval (pr_id principal)) ;?
  refuse (decided_at_ms <? rq_created_at_ms request) Invalid ;?
  refuse (rq_expires_at_ms request <? decided_at_ms)
    (Expired (rq_id request) (rq_expires_at_ms request)) ;?
  ensure_no_credential rationale ;?
  match o with DeniedFor reason => ensure_no_credential reason | Approved => Ok tt end ;?
  decision_sign (MkDecision (rq_id request) (request_digest request) o principal rationale
                   decided_at_ms (MkSignature "" "" "" "")) key.

(** ** Tokens *)
#[local] Open Scope prog_scope.
(** [ApprovalToken::from_verified] *)
Definition from_verified (request : ApprovalRequest) (d : ApprovalDecision) (now_ms : N) :
    Svc ApprovalToken :=
  if negb (bool_decide (rq_id request = dc_request_id d))
     || negb (bool_decide (request_digest request = dc_request_digest d))
  then sfail (Stale (rq_id request) (rq_bound_digest request) (dc_request_digest d)
                (rq_bound_revision request) (rq_bound_revision request))
  else Call Instant (λ now,
    sret (MkApproval (rq_kind request) (rq_subject request) (rq_bound_revision request)
            (rq_bound_digest request) (rq_id request) (sg_key_id (dc_signature d))
            (dc_decided_at_ms d) (rq_expires_at_ms request)
            (now + 1000000 * N.min (rq_expires_at_ms request - now_ms) MAX_REQUEST_LIFETIME_MS))).

Definition token_check (t : ApprovalToken) : ApprovalCheck :=
  MkCheck (tn_kind t) (tn_subject t) (tn_bound_revision t) (tn_bound_digest t).

(** [ApprovalToken::require] *)
Definition require (t : ApprovalToken) (expected : ApprovalCheck) : Svc unit :=
  let expired := sfail (Expired (tn_request_id t) (tn_expires_at_ms t)) in
  Call Instant (λ now,
    if tn_deadline t <=? now then expired else
    Call WallClock (λ wall,
      if tn_expires_at_ms t <? wall then expired
      else if bool_decide (tn_kind t = ck_kind expected)
              && bool_decide (tn_subject t = ck_subject expected)
              && bool_decide (tn_bound_revision t = ck_bound_revision expected)
              && bool_decide (tn_bound_digest t = ck_bound_digest expected)
      then sret tt
      else sfail (Stale (tn_request_id t) (ck_bound_digest expected) (tn_bound_digest t)
                    (ck_bound_revision expected) (tn_bound_revision t)))).
End Model.
