(* ===== verification/ApprovalStore.v ===== *)
(** * The approval ledger ([crates/approval/src/store.rs])

    The hash-chained log of requests and decisions, its two commitment files
    (the head beside it, the anchor in a sibling directory), the locked
    transaction that appends to it, and the monotonic clock.  A transaction's
    lock is given back when the method that holds it returns. *)
From S2P Require Import Prelude Strings Bytes Effects ApprovalModel.
From stdpp Require Import sorting.
#[local] Open Scope string_scope.
#[local] Open Scope N_scope.

Definition LEDGER_DOMAIN := "faktor.approval.ledger/v1".
Definition LEDGER_SCHEMA := "faktor.approval.ledger-entry/v1".
Definition LEDGER_HEAD_SCHEMA := "faktor.approval.ledger-head/v1".
Definition LEDGER_ANCHOR_SCHEMA := "faktor.approval.ledger-anchor/v1".
Definition CLOCK_ANCHOR_SCHEMA := "faktor.approval.clock-anchor/v1".
Definition MAX_LEDGER_BYTES : N := 16777216.
Definition MAX_LEDGER_HEAD_BYTES : N := 1024.
Definition MAX_CLOCK_ANCHOR_BYTES : N := 1024.

(** ** Rows *)
Record LedgerHead := MkHead { lh_schema : string; lh_seq : N; lh_digest : string }.
Record LedgerAnchor := MkAnchor { la_schema : string; la_seq : N; la_digest : string }.
Record ClockAnchorRow := MkClock { ca_schema : string; max_seen_wall_ms : N }.

Inductive LedgerBody :=
  | Requested (request : ApprovalRequest)
  | Decided (decision : ApprovalDecision).
#[global] Instance LedgerBody_eq_dec : EqDecision LedgerBody.
Proof. solve_decision. Defined.

Record LedgerEntry := MkEntry {
  le_schema : string; le_seq : N; le_recorded_at_ms : N; le_prev_digest : string;
  le_body : LedgerBody; le_digest : string }.
#[global] Instance LedgerEntry_eq_dec : EqDecision LedgerEntry.
Proof. solve_decision. Defined.

Record EntryIdentity := MkEntryIdentity {
  ei_schema : string; ei_seq : N; ei_recorded_at_ms : N; ei_prev_digest : string;
  ei_body : LedgerBody }.

Record ApprovalLedger := MkLedger {
  entries : list LedgerEntry;
  requests : gmap string ApprovalRequest;
  decisions : gmap string ApprovalDecision }.
Definition empty_ledger : ApprovalLedger := MkLedger [] ∅ ∅.

(** ** Lines: [str::lines] *)
Definition newline : ascii := "010"%char.
Definition carriage_return : ascii := "013"%char.
Definition is_newline (c : ascii) : bool := bool_decide (c = newline).
Fixpoint strip_cr (s : string) : string :=
  match s with
  | EmptyString => EmptyString
  | String c EmptyString => if bool_decide (c = carriage_return) then "" else s
  | String c s' => String c (strip_cr s')
  end.
(** A piece that ended in a newline loses a carriage return too; an empty
    last piece is no line. *)
Fixpoint strip_pieces (l : list string) : list string :=
  match l with
  | [] => []
  | [last] => if bool_decide (last = "") then [] else [last]
  | line :: l' => strip_cr line :: strip_pieces l'
  end.
Definition lines (s : string) : list string := strip_pieces (split_on is_newline s).

Definition GENESIS : string := String.concat "" (repeat "0" 64).

Section Store.
Context `{Crypto, Scanner, Encode RequestIdentity, Encode ApprovalRequest, Encode DecisionStatement}.
Context `{Encode EntryIdentity, Encode LedgerEntry, Decode LedgerEntry}.
Context `{Encode LedgerHead, Decode LedgerHead, Encode LedgerAnchor, Decode LedgerAnchor}.
Context `{Encode ClockAnchorRow, Decode ClockAnchorRow}.

Definition entry_digest (prev_digest : string) (seq recorded_at_ms : N) (body : LedgerBody) : string :=
  content_digest LEDGER_DOMAIN (MkEntryIdentity LEDGER_SCHEMA seq recorded_at_ms prev_digest body).

(** ** Replaying the log
    One iteration of the loop of [load_inner] after the line is parsed. *)
Definition replay_body (l : ApprovalLedger) (body : LedgerBody) : outcome ApprovalLedger :=
  match body with
  | Requested request =>
      request_validate request ;?
      match requests l !! rq_id request with
      | Some _ => Err StoreFailed
      | None => Ok (MkLedger (entries l) (<[rq_id request := request]> (requests l)) (decisions l))
      end
  | Decided decision =>
      match requests l !! dc_request_id decision with
      | None => Err StoreFailed
      | Some request =>
          decision_validate decision ;?
          refuse (negb (bool_decide (request_digest request = dc_request_digest decision))) StoreFailed ;?
          refuse ((dc_decided_at_ms decision <? rq_created_at_ms request)
                  || (rq_expires_at_ms request <? dc_decided_at_ms decision)) StoreFailed ;?
          refuse (bool_decide (pr_id (dc_principal decision) = pr_id (rq_requester request))) StoreFailed ;?
          match decisions l !! dc_request_id decision with
          | Some _ => Err StoreFailed
          | None => Ok (MkLedger (entries l) (requests l)
                          (<[dc_request_id decision := decision]> (decisions l)))
          end
      end
  end.

(** [previous] and [expected_seq] of the loop are functions of the entries so
    far. *)
Definition last_digest (es : list LedgerEntry) : string :=
  match last es with Some e => le_digest e | None => GENESIS end.
Definition next_seq (es : list LedgerEntry) : N := N.of_nat (List.length es) + 1.

Definition push_entry (e : LedgerEntry) (l : ApprovalLedger) : ApprovalLedger :=
  MkLedger (entries l ++ [e])%list (requests l) (decisions l).
Definition replay_entry (l : ApprovalLedger) (e : LedgerEntry) : outcome ApprovalLedger :=
  refuse (negb (bool_decide (le_schema e = LEDGER_SCHEMA))) StoreFailed ;?
  refuse (negb (le_seq e =? next_seq (entries l))) StoreFailed ;?
  refuse (negb (bool_decide (le_prev_digest e = last_digest (entries l)))) StoreFailed ;?
  refuse (negb (bool_decide
    (entry_digest (le_prev_digest e) (le_seq e) (le_recorded_at_ms e) (le_body e) = le_digest e)))
    StoreFailed ;?
  l' <-? replay_body l (le_body e);
  Ok (push_entry e l').

Definition replay_line (l : ApprovalLedger) (line : string) : outcome ApprovalLedger :=
  if bool_decide (trim line = "") then Ok l
  else match from_slice line with
       | None => Err StoreFailed
       | Some e => replay_entry l e
       end.
Fixpoint replay_lines (l : ApprovalLedger) (ls : list string) : outcome ApprovalLedger :=
  match ls with
  | [] => Ok l
  | line :: ls' => l' <-? replay_line l line; replay_lines l' ls'
  end.

(** From the bytes of the file to the replayed ledger. *)
Definition parse_ledger (raw : string) : outcome ApprovalLedger :=
  refuse (MAX_LEDGER_BYTES <? slen raw) StoreFailed ;?
  refuse (negb (utf8 raw)) StoreFailed ;?
  replay_lines empty_ledger (lines raw).

#[local] Open Scope prog_scope.
(** [atomic_replace(..).map_err(Store)] *)
Definition replace (f : File) (bytes : string) : Svc unit :=
  Call (Replace f bytes) (λ done : bool, if done then sret tt else sfail StoreFailed).

(** ** The commitments *)
Definition write_anchor (seq : N) (digest : string) : Svc unit :=
  replace Anchor (to_vec (MkAnchor LEDGER_ANCHOR_SCHEMA seq digest)).
Definition write_committed_head (seq : N) (digest : string) : Svc unit :=
  replace Head (to_vec (MkHead LEDGER_HEAD_SCHEMA seq digest)) ;; write_anchor seq digest.

Definition head_matches (last : LedgerEntry) (raw : string) : bool :=
  (slen raw <=? MAX_LEDGER_HEAD_BYTES)
  && match from_slice raw with
     | None => false
     | Some head => bool_decide (lh_schema head = LEDGER_HEAD_SCHEMA)
                    && (lh_seq head =? le_seq last) && bool_decide (lh_digest head = le_digest last)
     end.
Definition local_head_matches_tail (l : ApprovalLedger) : Svc bool :=
  match last (entries l) with
  | None => sret false
  | Some e =>
      Call (Read Head) (λ raw,
        match raw with
        | Absent => sret false
        | ReadFailed => sfail StoreFailed
        | Content raw => sret (head_matches e raw)
        end)
  end.

(** [entries.get(committed.saturating_sub(1))] *)
Definition entry_at (es : list LedgerEntry) (committed : N) : option LedgerEntry :=
  es !! N.to_nat (committed - 1).

(** What [verify_anchor] makes of the anchor's bytes: [true] when the chain
    goes on past the anchor. *)
Definition anchor_verdict (l : ApprovalLedger) (raw : string) : outcome bool :=
  let len := N.of_nat (List.length (entries l)) in
  refuse (MAX_LEDGER_HEAD_BYTES <? slen raw) AnchorDegraded ;?
  match from_slice raw with
  | None => Err AnchorDegraded
  | Some anchor =>
      refuse (negb (bool_decide (la_schema anchor = LEDGER_ANCHOR_SCHEMA))) AnchorDegraded ;?
      refuse ((la_seq anchor =? 0) || negb (digest_ok (la_digest anchor))) AnchorDegraded ;?
      refuse (len <? la_seq anchor) (LedgerRollback (la_seq anchor) len) ;?
      match entry_at (entries l) (la_seq anchor) with
      | None => Err (LedgerRollback (la_seq anchor) len)
      | Some entry =>
          refuse (negb (bool_decide (le_digest entry = la_digest anchor)))
            (LedgerRollback (la_seq anchor) len) ;?
          Ok (la_seq anchor <? len)
      end
  end.
Definition verify_anchor (l : ApprovalLedger) (heal_interrupted_append : bool) : Svc unit :=
  Call (Read Anchor) (λ raw,
    match raw with
    | Absent => match entries l with [] => sret tt | _ => sfail AnchorDegraded end
    | ReadFailed => sfail AnchorDegraded
    | Content raw =>
        behind <- lift (anchor_verdict l raw);
        if (behind : bool) then
          healed <- (if heal_interrupted_append then local_head_matches_tail l else sret false);
          match last (entries l) with
          | Some e => if (healed : bool) then write_anchor (le_seq e) (le_digest e)
                      else sfail AnchorDegraded
          | None => sfail AnchorDegraded
          end
        else sret tt
    end).

Definition head_verdict (l : ApprovalLedger) (raw : string) : outcome unit :=
  refuse (MAX_LEDGER_HEAD_BYTES <? slen raw) StoreFailed ;?
  match from_slice raw with
  | None => Err StoreFailed
  | Some head =>
      refuse (negb (bool_decide (lh_schema head = LEDGER_HEAD_SCHEMA))) StoreFailed ;?
      refuse ((lh_seq head =? 0) || negb (digest_ok (lh_digest head))) StoreFailed ;?
      match entry_at (entries l) (lh_seq head) with
      | None => Err StoreFailed
      | Some entry =>
          refuse (negb (le_seq entry =? lh_seq head)
                  || negb (bool_decide (le_digest entry = lh_digest head))) StoreFailed
      end
  end.
Definition verify_committed_head (l : ApprovalLedger) : Svc unit :=
  Call (Read Head) (λ raw,
    match raw with
    | Absent => sret tt
    | ReadFailed => sfail StoreFailed
    | Content raw => lift (head_verdict l raw)
    end).

Definition load_inner (heal_anchor : bool) : Svc ApprovalLedger :=
  Call (Read Ledger) (λ raw,
    match raw with
    | Absent => verify_anchor empty_ledger false ;; sret empty_ledger
    | ReadFailed => sfail StoreFailed
    | Content raw =>
        ledger <- lift (parse_ledger raw);
        verify_anchor ledger heal_anchor ;;
        verify_committed_head ledger ;;
        sret ledger
    end).
Definition load : Svc ApprovalLedger := load_inner false.

Definition acquire (l : Lock) : Svc unit :=
  Call (Acquire l) (λ a, match a with
    | Acquired => sret tt | Contended => sfail Busy | LockFailed => sfail StoreFailed end).
(** [ApprovalLedger::begin] *)
Definition begin : Svc ApprovalLedger := acquire LedgerLock ;; load_inner true.

(** ** Appending *)
Definition is_open (l : ApprovalLedger) (now_ms : N) (r : ApprovalRequest) : bool :=
  bool_decide (decisions l !! rq_id r = None) && (now_ms <=? rq_expires_at_ms r).
Definition open_count (l : ApprovalLedger) (now_ms : N) : N :=
  N.of_nat (List.length (filter (λ r, is_open l now_ms r = true) (values (requests l)))).

Definition records_request (id : string) (e : LedgerEntry) : bool :=
  match le_body e with Requested r => bool_decide (rq_id r = id) | _ => false end.
Definition records_decision (id : string) (e : LedgerEntry) : bool :=
  match le_body e with Decided d => bool_decide (dc_request_id d = id) | _ => false end.
Definition recorded_entry (p : LedgerEntry → bool) (l : ApprovalLedger) : outcome LedgerEntry :=
  match list_find (λ e, p e = true) (entries l) with Some (_, e) => Ok e | None => Err StoreFailed end.
Definition recorded_request_entry (l : ApprovalLedger) (id : string) : outcome LedgerEntry :=
  recorded_entry (records_request id) l.
Definition recorded_decision_entry (l : ApprovalLedger) (id : string) : outcome LedgerEntry :=
  recorded_entry (records_decision id) l.

(** The checks of [append]: [Some e] when the body is already on record. *)
Definition admit_body (l : ApprovalLedger) (body : LedgerBody) (now_ms : N) :
    outcome (option LedgerEntry) :=
  refuse (now_ms =? 0) Invalid ;?
  match body with
  | Requested request =>
      request_validate request ;?
      refuse (negb (rq_created_at_ms request =? now_ms)) Invalid ;?
      match requests l !! rq_id request with
      | Some existing =>
          if bool_decide (existing = request)
          then e <-? recorded_request_entry l (rq_id request); Ok (Some e)
          else Err Conflict
      | None =>
          refuse (MAX_OPEN_APPROVALS <=? open_count l now_ms)
            (PendingLimit (open_count l now_ms) MAX_OPEN_APPROVALS) ;?
          Ok None
      end
  | Decided decision =>
      match requests l !! dc_request_id decision with
      | None => Err NotFound
      | Some request =>
          decision_validate decision ;?
          refuse (negb (bool_decide (request_digest request = dc_request_digest decision))) Invalid ;?
          refuse ((dc_decided_at_ms decision <? rq_created_at_ms request)
                  || (rq_expires_at_ms request <? dc_decided_at_ms decision)) Invalid ;?
          refuse (bool_decide (pr_id (dc_principal decision) = pr_id (rq_requester request)))
            (SelfApproval (pr_id (dc_principal decision))) ;?
          match decisions l !! dc_request_id decision with
          | Some existing =>
              if bool_decide (existing = decision)
              then e <-? recorded_decision_entry l (dc_request_id decision); Ok (Some e)
              else Err Conflict
          | None => Ok None
          end
      end
  end.

Definition next_entry (l : ApprovalLedger) (body : LedgerBody) (now_ms : N) : LedgerEntry :=
  let seq := next_seq (entries l) in
  let prev_digest := last_digest (entries l) in
  MkEntry LEDGER_SCHEMA seq now_ms prev_digest body (entry_digest prev_digest seq now_ms body).
Definition line_of (e : LedgerEntry) : string := to_vec e ++ String newline "".

(** [LedgerTransaction::record] *)
Definition record (e : LedgerEntry) (l : ApprovalLedger) : ApprovalLedger :=
  push_entry e
    match le_body e with
    | Requested r => MkLedger (entries l) (<[rq_id r := r]> (requests l)) (decisions l)
    | Decided d => MkLedger (entries l) (requests l) (<[dc_request_id d := d]> (decisions l))
    end.

(** [LedgerTransaction::append]; the transaction's ledger is returned too. *)
Definition append (l : ApprovalLedger) (body : LedgerBody) (now_ms : N) :
    Svc (LedgerEntry * ApprovalLedger) :=
  existing <- lift (admit_body l body now_ms);
  match existing with
  | Some e => sret (e, l)
  | None =>
      let e := next_entry l body now_ms in
      Call (Append Ledger (line_of e)) (λ done : bool,
        if done then
          write_committed_head (le_seq e) (le_digest e) ;; sret (e, record e l)
        else sfail StoreFailed)
  end.

(** ** The monotonic clock *)
Definition observe_locked (observed_ms : N) : Svc N :=
  Call (Read ClockAnchor) (λ raw,
    persisted <- lift match raw with
      | Content raw =>
          refuse (MAX_CLOCK_ANCHOR_BYTES <? slen raw) StoreFailed ;?
          match from_slice raw with
          | None => Err StoreFailed
          | Some anchor =>
              refuse (negb (bool_decide (ca_schema anchor = CLOCK_ANCHOR_SCHEMA))) StoreFailed ;?
              Ok (max_seen_wall_ms anchor)
          end
      | Absent => Ok 0
      | ReadFailed => Err StoreFailed
      end;
    let effective := N.max observed_ms persisted in
    if persisted <? effective
    then replace ClockAnchor (to_vec (MkClock CLOCK_ANCHOR_SCHEMA effective)) ;; sret effective
    else sret effective).
(** [MonotonicClock::effective_now] *)
Definition effective_now (observed_ms : N) : Svc N :=
  acquire ClockLock ;;
  pbind (observe_locked observed_ms) (λ r, Call (Release ClockLock) (λ _, Ret r)).
End Store.
