(* ===== verification/ApprovalAuthority.v ===== *)
(** * The approval authority ([crates/approval/src/authority.rs], [operator.rs])

    Every method replays the ledger and reloads the operator registry; nothing
    is cached between calls. *)
From S2P Require Import Prelude Strings Bytes Effects ApprovalModel ApprovalStore.
From stdpp Require Import sorting.
#[local] Open Scope string_scope.
#[local] Open Scope N_scope.

(** ** Operators *)
Definition REGISTRY_SCHEMA := "faktor.approval.operators/v1".
Definition KEY_SUFFIX := ".key".
Definition SEED_BYTES : N := 32.
Definition MAX_REGISTRY_BYTES : N := 1048576.

Record RegisteredOperator := MkOperator {
  ro_principal_id : string; ro_key_id : string; ro_public_key : string; ro_registered_at_ms : N }.
#[global] Instance RegisteredOperator_eq_dec : EqDecision RegisteredOperator.
Proof. solve_decision. Defined.
Record OperatorRegistryFile := MkRegistry {
  rf_schema : string; rf_operators : list RegisteredOperator }.

Definition is_ascii_alphanumeric (c : ascii) : bool :=
  let n := N_of_ascii c in
  (48 <=? n) && (n <=? 57) || (65 <=? n) && (n <=? 90) || (97 <=? n) && (n <=? 122).
Definition key_name_byte (c : ascii) : bool :=
  is_ascii_alphanumeric c || bool_decide (c = "-"%char) || bool_decide (c = "_"%char)
  || bool_decide (c = "."%char).
(** The file name inside the approval directory. *)
Definition operator_key_path (principal_id : string) : outcome string :=
  refuse (bool_decide (principal_id = "") || (MAX_PRINCIPAL_ID_BYTES <? slen principal_id)
          || bool_decide (principal_id = ".") || bool_decide (principal_id = "..")
          || mem_char slash principal_id || mem_char backslash principal_id
          || negb (lacks (λ c, negb (key_name_byte c)) principal_id)) Invalid ;?
  Ok (principal_id ++ KEY_SUFFIX).

Definition operator_le (a b : RegisteredOperator) : Prop :=
  if decide (ro_principal_id a = ro_principal_id b) then str_le (ro_key_id a) (ro_key_id b)
  else str_le (ro_principal_id a) (ro_principal_id b).
#[global] Instance operator_le_dec : RelDecision operator_le.
Proof. intros a b. unfold operator_le. case_decide; apply _. Defined.

(** ** Views *)
Record ApprovalView := MkApprovalView {
  av_request : ApprovalRequest; av_decision : option ApprovalDecision }.
Record ApprovalStatusView := MkStatus {
  as_status : string; as_request_id : string; as_kind : string; as_subject : string;
  as_bound_revision : string; as_bound_digest : string; as_expires_at_ms : N;
  as_decided_by : option string; as_rationale : option string }.

(** Newest first: by creation time, then by id. *)
Definition newer (a b : ApprovalRequest) : Prop :=
  if decide (rq_created_at_ms a = rq_created_at_ms b) then str_le (rq_id b) (rq_id a)
  else rq_created_at_ms b < rq_created_at_ms a.
#[global] Instance newer_dec : RelDecision newer.
Proof. intros a b. unfold newer. case_decide; apply _. Defined.
(** [Iterator::max_by_key] keeps the last of equal elements. *)
Fixpoint max_by_key {A} (key : A → N) (l : list A) : option A :=
  match l with
  | [] => None
  | a :: l' => match max_by_key key l' with
               | Some b => if key b <? key a then Some a else Some b
               | None => Some a
               end
  end.

Definition exactly (c : ApprovalCheck) (r : ApprovalRequest) : bool :=
  bool_decide (rq_kind r = ck_kind c) && bool_decide (rq_subject r = ck_subject c)
  && bool_decide (rq_bound_revision r = ck_bound_revision c)
  && bool_decide (rq_bound_digest r = ck_bound_digest c).
Definition about (kind : ApprovalKind) (subject : string) (r : ApprovalRequest) : bool :=
  bool_decide (rq_kind r = kind) && bool_decide (rq_subject r = subject).
Definition stale (c : ApprovalCheck) (r : ApprovalRequest) : ApprovalError :=
  Stale (rq_id r) (ck_bound_digest c) (rq_bound_digest r) (ck_bound_revision c) (rq_bound_revision r).

#[local] Open Scope prog_scope.
Section Authority.
Context `{Crypto, Scanner, Encode RequestIdentity, Encode ApprovalRequest, Encode DecisionStatement}.
Context `{Encode EntryIdentity, Encode LedgerEntry, Decode LedgerEntry}.
Context `{Encode LedgerHead, Decode LedgerHead, Encode LedgerAnchor, Decode LedgerAnchor}.
Context `{Encode ClockAnchorRow, Decode ClockAnchorRow}.
Context `{Encode OperatorRegistryFile, Decode OperatorRegistryFile}.

(** ** The registry *)
Definition operator_ok (o : RegisteredOperator) : outcome unit :=
  principal_new (ro_principal_id o) HumanOperator ;?
  refuse (negb (digest_ok (ro_public_key o))) StoreFailed ;?
  match hex_pairs (ro_public_key o) with
  | None => Err StoreFailed
  | Some public_key =>
      refuse (negb (bool_decide (ro_key_id o = to_hex (blake3 public_key)))) StoreFailed
  end.
Definition parse_registry (raw : string) : outcome (list RegisteredOperator) :=
  refuse (MAX_REGISTRY_BYTES <? slen raw) StoreFailed ;?
  match from_slice raw with
  | None => Err StoreFailed
  | Some file =>
      refuse (negb (bool_decide (rf_schema file = REGISTRY_SCHEMA))) StoreFailed ;?
      each operator_ok (rf_operators file) ;?
      Ok (rf_operators file)
  end.
Definition load_registry : Svc (list RegisteredOperator) :=
  Call (Read Registry) (λ raw, match raw with
    | Absent => sret []
    | ReadFailed => sfail StoreFailed
    | Content raw => lift (parse_registry raw)
    end).

Definition register_operator_key (principal_id : string) (key : SigningKey) (now_ms : N) :
    Svc RegisteredOperator :=
  principal <- lift (principal_new principal_id HumanOperator);
  lift (operator_key_path (pr_id principal)) ;;
  lift (refuse (now_ms =? 0) Invalid) ;;
  operators <- load_registry;
  let rec := MkOperator (pr_id principal) (key_id key) (public_key_hex key) now_ms in
  match list_find (λ e, ro_key_id e = ro_key_id rec) operators with
  | Some (_, existing) =>
      if bool_decide (ro_principal_id existing = ro_principal_id rec) then sret existing
      else sfail Conflict
  | None =>
      if bool_decide (Exists (λ e, ro_principal_id e = ro_principal_id rec) operators)
      then sfail Conflict
      else
        replace Registry (to_vec (MkRegistry REGISTRY_SCHEMA
          (merge_sort operator_le (operators ++ [rec])%list))) ;;
        sret rec
  end.

Definition key_ids (operators : list RegisteredOperator) : gset string :=
  list_to_set (map ro_key_id operators).
Definition trusted_key_ids : Svc (gset string) :=
  operators <- load_registry; sret (key_ids operators).

Definition holds_key (principal_id key_id public_key : string) (o : RegisteredOperator) : Prop :=
  ro_principal_id o = principal_id ∧ ro_key_id o = key_id ∧ ro_public_key o = public_key.
#[global] Instance holds_key_dec p k pk o : Decision (holds_key p k pk o).
Proof. unfold holds_key. apply _. Defined.
Definition key_registered_for (principal_id : string) (key : SigningKey) : Svc unit :=
  operators <- load_registry;
  if bool_decide (Exists (holds_key principal_id (key_id key) (public_key_hex key)) operators)
  then sret tt else sfail (UntrustedOperator (key_id key)).

(** ** Deciding *)
Definition verify_decision_with (request : ApprovalRequest) (d : ApprovalDecision)
    (trusted : gset string) (operators : list RegisteredOperator) : outcome unit :=
  refuse (negb (bool_decide (pr_kind (dc_principal d) = HumanOperator)))
    (AgentApproval (pr_id (dc_principal d))) ;?
  refuse (bool_decide (pr_id (dc_principal d) = pr_id (rq_requester request)))
    (SelfApproval (pr_id (dc_principal d))) ;?
  refuse ((dc_decided_at_ms d <? rq_created_at_ms request)
          || (rq_expires_at_ms request <? dc_decided_at_ms d)) Invalid ;?
  decision_verify (Some trusted) d ;?
  refuse (negb (bool_decide (Exists
    (holds_key (pr_id (dc_principal d)) (sg_key_id (dc_signature d)) (sg_public_key (dc_signature d)))
    operators))) (UntrustedOperator (sg_key_id (dc_signature d))).

Definition propose (draft : ApprovalDraft) (now_ms : N) : Svc ApprovalRequest :=
  now_ms <- effective_now now_ms;
  request <- lift (request_propose draft now_ms);
  ledger <- begin;
  match requests ledger !! rq_id request with
  | Some existing => if bool_decide (existing = request) then sret existing else sfail Conflict
  | None => append ledger (Requested request) now_ms ;; sret request
  end.

Definition decide_request (request_id : string) (principal : Principal) (key : SigningKey)
    (o : DecisionOutcome) (rationale : string) (now_ms : N) : Svc ApprovalDecision :=
  lift (principal_validate principal) ;;
  now_ms <- effective_now now_ms;
  lift (refuse (negb (bool_decide (pr_kind principal = HumanOperator)))
          (AgentApproval (pr_id principal))) ;;
  ledger <- begin;
  match requests ledger !! request_id with
  | None => sfail NotFound
  | Some request =>
      lift (refuse (bool_decide (pr_id (rq_requester request) = pr_id principal))
              (SelfApproval (pr_id principal))) ;;
      key_registered_for (pr_id principal) key ;;
      match decisions ledger !! request_id with
      | Some existing =>
          if bool_decide (dc_outcome existing = o) && bool_decide (dc_principal existing = principal)
             && bool_decide (dc_rationale existing = rationale)
          then sret existing else sfail Conflict
      | None =>
          lift (refuse (rq_expires_at_ms request <? now_ms)
                  (Expired (rq_id request) (rq_expires_at_ms request))) ;;
          d <- lift (decision_issue request o principal rationale now_ms key);
          append ledger (Decided d) now_ms ;;
          sret d
      end
  end.

(** ** Authorizing *)
Definition evaluate_with_trust (request : ApprovalRequest) (ledger : ApprovalLedger) (now_ms : N)
    (trusted : gset string) (operators : list RegisteredOperator) : Svc ApprovalToken :=
  lift (refuse (rq_expires_at_ms request <? now_ms)
          (Expired (rq_id request) (rq_expires_at_ms request))) ;;
  match decisions ledger !! rq_id request with
  | None => sfail (Pending (rq_id request) (rq_kind request) (rq_subject request))
  | Some d =>
      lift (verify_decision_with request d trusted operators) ;;
      match dc_outcome d with
      | Approved => from_verified request d now_ms
      | DeniedFor reason => sfail (Denied (rq_id request) (rq_kind request) (rq_subject request)
                                     (pr_id (dc_principal d)) reason)
      end
  end.
Definition evaluate (request : ApprovalRequest) (ledger : ApprovalLedger) (now_ms : N) :
    Svc ApprovalToken :=
  trusted <- trusted_key_ids;
  operators <- load_registry;
  evaluate_with_trust request ledger now_ms trusted operators.

Definition authorize (check : ApprovalCheck) (now_ms : N) : Svc ApprovalToken :=
  now_ms <- effective_now now_ms;
  ledger <- load;
  match merge_sort newer (filter (λ r, exactly check r = true) (values (requests ledger))) with
  | request :: _ => evaluate request ledger now_ms
  | [] =>
      match max_by_key rq_created_at_ms
              (filter (λ r, about (ck_kind check) (ck_subject check) r = true) (values (requests ledger))) with
      | Some request => sfail (stale check request)
      | None => sfail (ApprovalRequired (ck_kind check) (ck_subject check) (ck_bound_revision check)
                         (ck_bound_digest check))
      end
  end.

Definition authorize_request (request_id : string) (check : ApprovalCheck) (now_ms : N) :
    Svc ApprovalToken :=
  now_ms <- effective_now now_ms;
  ledger <- load;
  match requests ledger !! request_id with
  | None => sfail NotFound
  | Some request => if negb (exactly check request) then sfail (stale check request)
                    else evaluate request ledger now_ms
  end.

(** ** Looking *)
Definition of_subject (kind : ApprovalKind) (subject : string) (l : ApprovalLedger) : list ApprovalRequest :=
  merge_sort newer (filter (λ r, about kind subject r = true) (values (requests l))).
Definition latest_request (kind : ApprovalKind) (subject : string) : Svc (option ApprovalRequest) :=
  ledger <- load; sret (head (of_subject kind subject ledger)).

Fixpoint first_authorized (rs : list ApprovalRequest) (ledger : ApprovalLedger) (now_ms : N)
    (trusted : gset string) (operators : list RegisteredOperator) : Svc (option ApprovalToken) :=
  match rs with
  | [] => sret None
  | request :: rs' =>
      pbind (evaluate_with_trust request ledger now_ms trusted operators) (λ r,
        match r with
        | Ok token => sret (Some token)
        | Err (Pending _ _ _ | Denied _ _ _ _ _ | Expired _ _) =>
            first_authorized rs' ledger now_ms trusted operators
        | Err e => sfail e
        end)
  end.
Definition latest_authorized (kind : ApprovalKind) (subject : string) (now_ms : N) :
    Svc (option ApprovalToken) :=
  now_ms <- effective_now now_ms;
  ledger <- load;
  trusted <- trusted_key_ids;
  operators <- load_registry;
  first_authorized (of_subject kind subject ledger) ledger now_ms trusted operators.

Definition verify_decision (request : ApprovalRequest) (d : ApprovalDecision) : Svc unit :=
  trusted <- trusted_key_ids;
  operators <- load_registry;
  lift (verify_decision_with request d trusted operators).
Definition view (request_id : string) : Svc ApprovalView :=
  ledger <- load;
  match requests ledger !! request_id with
  | None => sfail NotFound
  | Some request =>
      let d := decisions ledger !! request_id in
      match d with Some d => verify_decision request d | None => sret tt end ;;
      sret (MkApprovalView request d)
  end.

Definition status_of (v : ApprovalView) (now_ms : N) : string :=
  let expired := rq_expires_at_ms (av_request v) <? now_ms in
  match av_decision v with
  | None => if expired then "expired" else "open"
  | Some d => match dc_outcome d with
              | Approved => if expired then "expired" else "approved"
              | DeniedFor _ => "denied"
              end
  end.
Definition status (request_id : string) : Svc ApprovalStatusView :=
  v <- view request_id;
  Call WallClock (λ wall,
    now_ms <- effective_now wall;
    let r := av_request v in
    sret (MkStatus (status_of v now_ms) (rq_id r) (kind_str (rq_kind r)) (rq_subject r)
            (rq_bound_revision r) (rq_bound_digest r) (rq_expires_at_ms r)
            (pr_id ∘ dc_principal <$> av_decision v) (dc_rationale <$> av_decision v))).

Fixpoint views_of (rs : list ApprovalRequest) (l : ApprovalLedger) (trusted : gset string)
    (operators : list RegisteredOperator) : outcome (list ApprovalView) :=
  match rs with
  | [] => Ok []
  | r :: rs' =>
      let d := decisions l !! rq_id r in
      match d with Some d => verify_decision_with r d trusted operators | None => Ok tt end ;?
      vs <-? views_of rs' l trusted operators;
      Ok (MkApprovalView r d :: vs)
  end.
Definition older_view (a b : ApprovalView) : Prop := newer (av_request b) (av_request a).
#[global] Instance older_view_dec : RelDecision older_view.
Proof. intros a b. unfold older_view. apply _. Defined.
(** [ApprovalAuthority::list] *)
Definition list_all : Svc (list ApprovalView) :=
  ledger <- load;
  trusted <- trusted_key_ids;
  operators <- load_registry;
  views <- lift (views_of (values (requests ledger)) ledger trusted operators);
  sret (merge_sort older_view views).

Definition concerns (request_id : option string) (e : LedgerEntry) : bool :=
  match request_id with
  | None => true
  | Some id => records_request id e || records_decision id e
  end.
Definition audit (request_id : option string) : Svc (list LedgerEntry) :=
  ledger <- load; sret (filter (λ e, concerns request_id e = true) (entries ledger)).
End Authority.
