(* ===== verification/ApprovalSystem.v ===== *)
(** * The approval authority as a system of processes

    Any number of the authority's methods run at once, one event at a time, in
    any order.  A read sees the whole file; an append may fail having written
    any part of its bytes; a replacement happens or does not; any call may
    fail; a process may die between any two events, which frees its locks; the
    wall clock shows anything.  [run] and [safe] are the two ways to speak
    about one method: what it answers after the answers it got, and what it
    does while everybody else runs. *)
From S2P Require Import Prelude Strings Bytes Effects ApprovalModel ApprovalStore ApprovalAuthority.
#[local] Open Scope string_scope.

#[global] Instance File_countable : Countable File.
Proof.
  refine (inj_countable' (λ f, match f with
    | Ledger => 0 | Head => 1 | Anchor => 2 | ClockAnchor => 3 | Registry => 4 end)
    (λ n, match n with 0 => Ledger | 1 => Head | 2 => Anchor | 3 => ClockAnchor | _ => Registry end) _).
  by intros [].
Defined.
#[global] Instance Lock_countable : Countable Lock.
Proof.
  refine (inj_countable' (λ l, match l with LedgerLock => true | ClockLock => false end)
    (λ b : bool, if b then LedgerLock else ClockLock) _).
  by intros [].
Defined.

Notation Disk := (gmap File string).
Definition content (d : Disk) (f : File) : string := default "" (d !! f).
Record World := MkWorld { disk : Disk; held : gmap Lock nat; instant : N }.
Definition on_disk (g : Disk → Disk) (w : World) : World := MkWorld (g (disk w)) (held w) (instant w).
Definition on_locks (g : gmap Lock nat → gmap Lock nat) (w : World) : World :=
  MkWorld (disk w) (g (held w)) (instant w).
Definition appended (f : File) (s : string) (d : Disk) : Disk := <[f := content d f ++ s]> d.

(** What thread [t] may see of one event, and what the event does. *)
Definition answer (t : nat) {X} (e : Event X) : World → X → World → Prop :=
  match e in Event X return World → X → World → Prop with
  | Read f => λ w a w', w' = w
      ∧ match a with Content s => disk w !! f = Some s | Absent => disk w !! f = None | ReadFailed => True end
  | Append f bytes => λ w (done : bool) w',
      if done then w' = on_disk (appended f bytes) w
      else w' = w ∨ ∃ p q, bytes = (p ++ q)%string ∧ w' = on_disk (appended f p) w
  | Replace f bytes => λ w (done : bool) w', w' = if done then on_disk <[f := bytes]> w else w
  | Acquire l => λ w a w',
      match a with
      | Acquired => held w !! l = None ∧ w' = on_locks <[l := t]> w
      | Contended => l = LedgerLock ∧ w' = w       (* the clock's lock is waited for *)
      | LockFailed => w' = w
      end
  | Release l => λ w _ w', w' = on_locks (λ h, if decide (h !! l = Some t) then delete l h else h) w
  | Instant => λ w n w', n = instant w ∧ w' = w
  | WallClock => λ w _ w', w' = w
  end.

(** ** The methods *)
Section System.
Context `{Crypto, Scanner, Encode RequestIdentity, Encode ApprovalRequest, Encode DecisionStatement}.
Context `{Encode EntryIdentity, Encode LedgerEntry, Decode LedgerEntry}.
Context `{Encode LedgerHead, Decode LedgerHead, Encode LedgerAnchor, Decode LedgerAnchor}.
Context `{Encode ClockAnchorRow, Decode ClockAnchorRow}.
Context `{Encode OperatorRegistryFile, Decode OperatorRegistryFile}.

Inductive Method :=
  | MPropose (draft : ApprovalDraft) (now_ms : N)
  | MDecide (request_id : string) (principal : Principal) (key : SigningKey) (o : DecisionOutcome)
      (rationale : string) (now_ms : N)
  | MAuthorize (check : ApprovalCheck) (now_ms : N)
  | MAuthorizeRequest (request_id : string) (check : ApprovalCheck) (now_ms : N)
  | MLatestRequest (kind : ApprovalKind) (subject : string)
  | MLatestAuthorized (kind : ApprovalKind) (subject : string) (now_ms : N)
  | MView (request_id : string)
  | MStatus (request_id : string)
  | MList
  | MAudit (request_id : option string)
  | MRegister (principal_id : string) (key : SigningKey) (now_ms : N).

Inductive Answer :=
  | RRequest (r : outcome ApprovalRequest)
  | RDecision (r : outcome ApprovalDecision)
  | RToken (r : outcome ApprovalToken)
  | RMaybeRequest (r : outcome (option ApprovalRequest))
  | RMaybeToken (r : outcome (option ApprovalToken))
  | RView (r : outcome ApprovalView)
  | RStatus (r : outcome ApprovalStatusView)
  | RViews (r : outcome (list ApprovalView))
  | REntries (r : outcome (list LedgerEntry))
  | ROperator (r : outcome RegisteredOperator).

Definition then_answer {A} (p : Svc A) (f : outcome A → Answer) : Prog Answer :=
  pbind p (λ r, Ret (f r)).
Definition run_method (m : Method) : Prog Answer :=
  match m with
  | MPropose draft now => then_answer (propose draft now) RRequest
  | MDecide id p key o why now => then_answer (decide_request id p key o why now) RDecision
  | MAuthorize check now => then_answer (authorize check now) RToken
  | MAuthorizeRequest id check now => then_answer (authorize_request id check now) RToken
  | MLatestRequest k s => then_answer (latest_request k s) RMaybeRequest
  | MLatestAuthorized k s now => then_answer (latest_authorized k s now) RMaybeToken
  | MView id => then_answer (view id) RView
  | MStatus id => then_answer (status id) RStatus
  | MList => then_answer list_all RViews
  | MAudit id => then_answer (audit id) REntries
  | MRegister p key now => then_answer (register_operator_key p key now) ROperator
  end.

(** ** The processes
    [next_thread] numbers them; [returned] keeps what methods answered, latest
    first. *)
Record System := MkSystem {
  world : World; threads : gmap nat (Prog Answer); next_thread : nat;
  returned : list (nat * Answer) }.
(** A process that ended holds no lock. *)
Definition release_all (t : nat) (w : World) : World :=
  on_locks (filter (λ lt, lt.2 ≠ t)) w.

Inductive step : System → System → Prop :=
  | step_spawn m w ts n r :
      step (MkSystem w ts n r) (MkSystem w (<[n := run_method m]> ts) (S n) r)
  | step_call {X} t (e : Event X) k x w w' ts n r :
      ts !! t = Some (Call e k) → answer t e w x w' →
      step (MkSystem w ts n r) (MkSystem w' (<[t := k x]> ts) n r)
  | step_return t a w ts n r :
      ts !! t = Some (Ret a) →
      step (MkSystem w ts n r) (MkSystem (release_all t w) (delete t ts) n ((t, a) :: r))
  | step_die t w ts n r :
      step (MkSystem w ts n r) (MkSystem (release_all t w) (delete t ts) n r)
  | step_instant i w ts n r :
      (instant w <= i)%N →
      step (MkSystem w ts n r) (MkSystem (MkWorld (disk w) (held w) i) ts n r).

Definition empty_world : World := MkWorld ∅ ∅ 0.
Definition initial : System := MkSystem empty_world ∅ 0 [].
Definition reachable (s : System) : Prop := rtc step initial s.
End System.

(** ** One method against given answers *)
Inductive Obs :=
  | SawFile (f : File) (a : ReadAnswer)
  | Appended (f : File) (bytes : string) (done : bool)
  | Replaced (f : File) (bytes : string) (done : bool)
  | SawLock (l : Lock) (a : LockAnswer)
  | Released (l : Lock)
  | SawInstant (n : N)
  | SawWall (n : N).
Definition observed {X} (e : Event X) : X → Obs :=
  match e with
  | Read f => SawFile f
  | Append f b => Appended f b
  | Replace f b => Replaced f b
  | Acquire l => SawLock l
  | Release l => λ _, Released l
  | Instant => SawInstant
  | WallClock => SawWall
  end.
(** [p], answered as [tr] says, returns [a]. *)
Fixpoint run {A} (p : Prog A) (tr : list Obs) (a : A) : Prop :=
  match p with
  | Ret b => tr = [] ∧ a = b
  | Halt => False
  | Call e k => ∃ x tr', tr = observed e x :: tr' ∧ run (k x) tr' a
  end.

Lemma run_pbind {A B} (p : Prog A) (f : A → Prog B) tr b :
  run (pbind p f) tr b ↔ ∃ tr1 tr2 a, tr = (tr1 ++ tr2)%list ∧ run p tr1 a ∧ run (f a) tr2 b.
Proof.
  revert tr. induction p as [a| |X e k IH]; intros tr; cbn.
  - split; [intros Hr; by exists [], tr, a|]. by intros (? & ? & ? & -> & [-> ->] & Hr).
  - naive_solver.
  - setoid_rewrite IH. split.
    + intros (x & tr' & -> & tr1 & tr2 & a & -> & H1 & H2). exists (observed e x :: tr1), tr2, a. eauto 10.
    + intros (tr1 & tr2 & a & -> & (x & tr' & -> & H1) & H2). exists x, (tr' ++ tr2)%list. eauto 10.
Qed.
Lemma run_sbind {A B} (p : Svc A) (f : A → Svc B) tr b :
  run (sbind p f) tr (Ok b) ↔
  ∃ tr1 tr2 a, tr = (tr1 ++ tr2)%list ∧ run p tr1 (Ok a) ∧ run (f a) tr2 (Ok b).
Proof.
  unfold sbind. rewrite run_pbind. split.
  - intros (tr1 & tr2 & [a|e] & -> & H1 & H2); [eauto 10|]. by destruct H2.
  - intros (tr1 & tr2 & a & -> & H1 & H2). by exists tr1, tr2, (Ok a).
Qed.
Lemma run_lift {A} (r : outcome A) tr a : run (lift r) tr (Ok a) ↔ tr = [] ∧ r = Ok a.
Proof. cbn. naive_solver. Qed.

(** ** One method while nobody interferes
    Every call succeeds, but an append writes only its first [n] bytes and
    fails when [cut] is [Some n]. *)
Definition act (t : nat) (wall : N) (cut : option nat) {X} (e : Event X) (w : World) : X * World :=
  match e in Event X return X * World with
  | Read f => (match disk w !! f with Some s => Content s | None => Absent end, w)
  | Append f b =>
      match cut with
      | None => (true, on_disk (appended f b) w)
      | Some n => (false, on_disk (appended f (String.substring 0 n b)) w)
      end
  | Replace f b => (true, on_disk <[f := b]> w)
  | Acquire l => if bool_decide (held w !! l = None) then (Acquired, on_locks <[l := t]> w) else (LockFailed, w)
  | Release l => (tt, on_locks (λ h, if decide (h !! l = Some t) then delete l h else h) w)
  | Instant => (instant w, w)
  | WallClock => (wall, w)
  end.
Fixpoint finish (t : nat) (wall : N) (cut : option nat) {A} (p : Prog A) (w : World) :
    option (list Obs * A * World) :=
  match p with
  | Ret a => Some ([], a, w)
  | Halt => None
  | Call e k =>
      let '(x, w1) := act t wall cut e w in
      '(tr, a, w2) ← finish t wall cut (k x) w1;
      Some (observed e x :: tr, a, w2)
  end.

Lemma substring_prefix n b : ∃ q, b = (String.substring 0 n b ++ q)%string.
Proof.
  revert n. induction b as [|c b IH]; intros [|n]; cbn; [by eexists..|].
  destruct (IH n) as [q Hq]. exists q. exact (f_equal (String c) Hq).
Qed.
Lemma act_answer t wall cut {X} (e : Event X) w :
  answer t e w (act t wall cut e w).1 (act t wall cut e w).2.
Proof.
  destruct e; cbn; try done.
  - split; [done|]. by destruct (disk w !! f).
  - destruct cut as [n|]; cbn; [|done]. right. destruct (substring_prefix n bytes) as [q Hq].
    by exists (String.substring 0 n bytes), q.
  - case_bool_decide; done.
Qed.
Lemma finish_run t wall cut {A} (p : Prog A) w tr a w' :
  finish t wall cut p w = Some (tr, a, w') → run p tr a.
Proof.
  revert w tr. induction p as [b| |X e k IH]; intros w tr; cbn; [by intros [= <- <- <-]|done|].
  destruct (act t wall cut e w) as [x w1]. intros ([[tr1 a1] w2] & Hf & [= <- <- <-])%bind_Some. eauto.
Qed.
Lemma finish_pbind t wall cut {A B} (p : Prog A) (f : A → Prog B) w tr a w1 tr' b w2 :
  finish t wall cut p w = Some (tr, a, w1) → finish t wall cut (f a) w1 = Some (tr', b, w2) →
  finish t wall cut (pbind p f) w = Some ((tr ++ tr')%list, b, w2).
Proof.
  intros Hp Hf. revert w tr Hp. induction p as [c| |X e k IH]; intros w tr; cbn; [by intros [= <- -> ->]|done|].
  destruct (act t wall cut e w) as [x w3]. intros ([[tr1 a1] w4] & Hk & [= <- <- <-])%bind_Some.
  by rewrite (IH _ _ _ Hk).
Qed.

Section Perform.
Context `{Crypto, Scanner, Encode RequestIdentity, Encode ApprovalRequest, Encode DecisionStatement}.
Context `{Encode EntryIdentity, Encode LedgerEntry, Decode LedgerEntry}.
Context `{Encode LedgerHead, Decode LedgerHead, Encode LedgerAnchor, Decode LedgerAnchor}.
Context `{Encode ClockAnchorRow, Decode ClockAnchorRow}.
Context `{Encode OperatorRegistryFile, Decode OperatorRegistryFile}.

Lemma finish_steps t wall cut (p : Prog Answer) w tr a w' ts n r :
  finish t wall cut p w = Some (tr, a, w') → ts !! t = Some p →
  rtc step (MkSystem w ts n r) (MkSystem (release_all t w') (delete t ts) n ((t, a) :: r)).
Proof.
  revert w tr ts. induction p as [b| |X e k IH]; intros w tr ts; cbn; [|done|].
  - intros [= <- <- <-] Ht. by apply rtc_once, step_return.
  - pose proof (act_answer t wall cut e w) as Ha. destruct (act t wall cut e w) as [x w1].
    intros ([[tr1 a1] w2] & Hf & [= <- <- <-])%bind_Some Ht.
    eapply rtc_l; [by eapply step_call|]. rewrite <- (delete_insert_eq ts t (k x)).
    eapply IH; [exact Hf|]. apply lookup_insert_eq.
Qed.

(** Methods one after the other, each with its wall clock and its cut. *)
Definition Turn : Type := Method * N * option nat.
Definition perform1 (m : Turn) (s : System) : System :=
  let '(m, wall, cut) := m in
  match finish (next_thread s) wall cut (run_method m) (world s) with
  | Some (_, a, w) =>
      MkSystem (release_all (next_thread s) w) ∅ (S (next_thread s)) ((next_thread s, a) :: returned s)
  | None => s
  end.
Definition perform (ms : list Turn) (s : System) : System := fold_left (λ s m, perform1 m s) ms s.
Lemma perform1_steps m s : threads s = ∅ → rtc step s (perform1 m s) ∧ threads (perform1 m s) = ∅.
Proof.
  destruct s as [w ts n r], m as [[m wall] cut]. cbn. intros ->.
  destruct (finish n wall cut (run_method m) w) as [[[tr a] w']|] eqn:E; [|done]. split; [|done].
  eapply rtc_l; [apply (step_spawn m)|]. rewrite <- (delete_insert_id ∅ n (run_method m)) at 2 by apply lookup_empty.
  eapply finish_steps; [exact E|]. apply lookup_insert_eq.
Qed.
Lemma perform_steps ms s : threads s = ∅ → rtc step s (perform ms s) ∧ threads (perform ms s) = ∅.
Proof.
  revert s. induction ms as [|m ms IH]; intros s Hs; [done|]. destruct (perform1_steps m s Hs) as [Hs1 Ht1].
  destruct (IH _ Ht1) as [Hs2 Ht2]. split; [by etrans|done].
Qed.
Lemma perform_reachable ms : reachable (perform ms initial).
Proof. by apply perform_steps. Qed.
End Perform.
