(* ===== verification/ApprovalChain.v ===== *)
(** * The chain of approvals

    [Chain] is what the ledger is meant to be: a log that grows by admitted
    bodies only.  A chain replays to itself; its text decodes to it; on it
    every request stands once, is decided at most once, by a human who did not
    ask for it and within its lifetime, and at most [MAX_OPEN_APPROVALS] of
    them are open. *)
From S2P Require Import Prelude Strings Bytes Effects ApprovalModel ApprovalStore.
From stdpp Require Import sorting.
#[local] Open Scope string_scope.

(** ** Promises of the third parties *)
Class LawfulJson (T : Type) `{Encode T, Decode T} : Prop :=
  from_to : ∀ x : T, from_slice (to_vec x) = Some x.
(** serde_json prints a struct on one line, between braces, in ASCII or valid
    UTF-8, and reads no proper prefix of it. *)
Class JsonLine (T : Type) `{Encode T, Decode T} : Prop := {
  line_json :: LawfulJson T;
  line_brace : ∀ x : T, ∃ s, to_vec x = String "{" s;
  line_last : ∀ x : T, ends_with (λ c, bool_decide (c = carriage_return)) (to_vec x) = false;
  line_one : ∀ x : T, lacks is_newline (to_vec x) = true;
  line_utf8 : ∀ x : T, utf8 (to_vec x) = true;
  line_whole : ∀ (x : T) p q, to_vec x = (p ++ q)%string → q ≠ "" → from_slice (T:=T) p = None
}.
Class LawfulCrypto `{Crypto} : Prop := {
  blake3_len : ∀ s, String.length (blake3 s) = 32;
  key_len : ∀ k, String.length (verifying_key k) = 32;
  sign_len : ∀ k m, String.length (ed25519_sign k m) = 64;
  key_decodes : ∀ k, key_from_bytes (verifying_key k) = true;
  sign_verifies : ∀ k m, ed25519_verify (verifying_key k) m (ed25519_sign k m) = true
}.

(** Rows with 64-bit numbers and a digest fit the limits of their files. *)
Class ShortRows `{Encode LedgerHead, Encode LedgerAnchor, Encode ClockAnchorRow} : Prop := {
  short_head n d : (n < 2 ^ 64)%N → digest_ok d = true →
    (slen (to_vec (MkHead LEDGER_HEAD_SCHEMA n d)) <= MAX_LEDGER_HEAD_BYTES)%N;
  short_anchor n d : (n < 2 ^ 64)%N → digest_ok d = true →
    (slen (to_vec (MkAnchor LEDGER_ANCHOR_SCHEMA n d)) <= MAX_LEDGER_HEAD_BYTES)%N;
  short_clock n : (n < 2 ^ 64)%N → (slen (to_vec (MkClock CLOCK_ANCHOR_SCHEMA n)) <= MAX_CLOCK_ANCHOR_BYTES)%N
}.
(** ** What head and anchor commit to *)
Definition head_row (l : ApprovalLedger) : LedgerHead :=
  MkHead LEDGER_HEAD_SCHEMA (N.of_nat (List.length (entries l))) (last_digest (entries l)).
Definition anchor_row (l : ApprovalLedger) : LedgerAnchor :=
  MkAnchor LEDGER_ANCHOR_SCHEMA (N.of_nat (List.length (entries l))) (last_digest (entries l)).
(** ** Inverting fallible code *)
Lemma refuse_Ok b e u : refuse b e = Ok u ↔ b = false.
Proof. destruct b, u; naive_solver. Qed.
Ltac is_unit a := match type of a with unit => idtac end.
(** Take a successful [?] chain apart. *)
Ltac unq H :=
  repeat match type of H with
  | rbind (refuse ?b ?e) _ = Ok _ =>
      let Hb := fresh "Hb" in
      destruct b eqn:Hb; cbn [refuse rbind] in H; [discriminate H|]
  | rbind ?m _ = Ok _ =>
      let Hm := fresh "Hm" in let a := fresh "a" in
      destruct m as [a|] eqn:Hm; cbn [rbind] in H; [|discriminate H];
      try (is_unit a; destruct a)
  end.

Lemma all_hex_digit n : (n < 16)%N → is_ascii_hexdigit (hex_digit n) = true.
Proof. intros Hn. destruct n as [|p]; [done|]. do 4 (try (destruct p as [p|p|])); try done; lia. Qed.
Lemma all_hex_to_hex s : all_hex (to_hex s) = true.
Proof.
  unfold all_hex. induction s as [|c s IH]; [done|]. cbn [to_hex lacks].
  assert (N_of_ascii c < 256)%N by apply N_ascii_bounded.
  rewrite !all_hex_digit, IH; [done|by apply N.mod_lt|]. apply N.Div0.div_lt_upper_bound. lia.
Qed.
Lemma slen_to_hex s : slen (to_hex s) = (slen s * 2)%N.
Proof. unfold slen. induction s as [|c s IH]; cbn [to_hex String.length]; lia. Qed.
Lemma digest_ok_to_hex s : String.length s = 32 → digest_ok (to_hex s) = true.
Proof. intros Hs. unfold digest_ok. rewrite all_hex_to_hex, slen_to_hex. unfold slen. by rewrite Hs. Qed.
Lemma parse_hex_to_hex n s : String.length s = N.to_nat n → parse_hex n (to_hex s) = Ok s.
Proof.
  intros Hs. unfold parse_hex. rewrite slen_to_hex, all_hex_to_hex, hex_pairs_to_hex.
  unfold slen. rewrite Hs, N2Nat.id, N.eqb_refl. done.
Qed.

Section Chain.
Context `{Crypto, Scanner, Encode RequestIdentity, Encode ApprovalRequest, Encode DecisionStatement}.
Context `{Encode EntryIdentity, Encode LedgerEntry, Decode LedgerEntry}.

(** A decision carries a signature that verifies. *)
Definition signed (body : LedgerBody) : Prop :=
  match body with Requested _ => True | Decided d => decision_verify None d = Ok tt end.
Inductive Chain : ApprovalLedger → Prop :=
  | chain_empty : Chain empty_ledger
  | chain_append l body now_ms :
      Chain l → admit_body l body now_ms = Ok None → signed body →
      Chain (record (next_entry l body now_ms) l).

(** ** Replay *)
Fixpoint replay_from (l : ApprovalLedger) (es : list LedgerEntry) : outcome ApprovalLedger :=
  match es with
  | [] => Ok l
  | e :: es' => l' <-? replay_entry l e; replay_from l' es'
  end.
Lemma replay_app l es es' : replay_from l (es ++ es') = rbind (replay_from l es) (λ l', replay_from l' es').
Proof. revert l. induction es as [|e es IH]; intros l; [done|]. cbn [replay_from app].
  destruct (replay_entry l e); cbn [rbind]; [apply IH|done].
Qed.

Lemma replay_body_entries l body l' : replay_body l body = Ok l' → entries l' = entries l.
Proof.
  unfold replay_body. destruct body as [r|d]; intros Hr.
  - unq Hr. destruct (requests l !! _); [done|]. by injection Hr as <-.
  - destruct (requests l !! _); [|done]. unq Hr. destruct (decisions l !! _); [done|]. by injection Hr as <-.
Qed.
Lemma replay_entry_entries l e l' : replay_entry l e = Ok l' → entries l' = (entries l ++ [e])%list.
Proof.
  unfold replay_entry. intros Hr. unq Hr. injection Hr as <-. cbn. by erewrite replay_body_entries.
Qed.
Lemma replay_entries l es l' : replay_from l es = Ok l' → entries l' = (entries l ++ es)%list.
Proof.
  revert l. induction es as [|e es IH]; cbn [replay_from]; intros l Hr; [injection Hr as <-; by rewrite app_nil_r|].
  unq Hr. apply replay_entry_entries in Hm. rewrite (IH _ Hr), Hm, <- (assoc_L (++)). done.
Qed.

(** What is admitted replays to what the transaction records. *)
Lemma replay_next l body now_ms :
  admit_body l body now_ms = Ok None →
  replay_entry l (next_entry l body now_ms) = Ok (record (next_entry l body now_ms) l).
Proof.
  intros Ha. unfold replay_entry. cbn. rewrite N.eqb_refl, !bool_decide_eq_true_2 by done. cbn.
  unfold admit_body in Ha. unq Ha. unfold replay_body, record. cbn. destruct body as [r|d].
  - unq Ha. cbn [rbind]. destruct (requests l !! rq_id r) as [x|] eqn:E; [|done].
    case_bool_decide; [|done]. by destruct (recorded_request_entry l (rq_id r)).
  - destruct (requests l !! dc_request_id d) as [r|]; [|done]. unq Ha. cbn [refuse rbind].
    destruct (decisions l !! dc_request_id d) as [x|]; [|done].
    case_bool_decide; [|done]. by destruct (recorded_decision_entry l (dc_request_id d)).
Qed.
Lemma entries_record e l : entries (record e l) = (entries l ++ [e])%list.
Proof. unfold record. by destruct (le_body e). Qed.
Lemma chain_replays l : Chain l → replay_from empty_ledger (entries l) = Ok l.
Proof.
  induction 1 as [|l body now Hc IH Ha Hs]; [done|].
  rewrite entries_record, replay_app, IH. cbn [replay_from rbind]. by rewrite replay_next.
Qed.
Lemma chain_unique l l' : Chain l → Chain l' → entries l = entries l' → l = l'.
Proof. intros Hl%chain_replays Hl'%chain_replays He. congruence. Qed.

(** ** What stands on a chain *)
(** The decision of a request, as everybody may trust it. *)
Record settles (r : ApprovalRequest) (d : ApprovalDecision) : Prop := {
  st_request : dc_request_id d = rq_id r;
  st_digest : dc_request_digest d = request_digest r;
  st_human : pr_kind (dc_principal d) = HumanOperator;
  st_other : pr_id (dc_principal d) ≠ pr_id (rq_requester r);
  st_timed : (rq_created_at_ms r <= dc_decided_at_ms d <= rq_expires_at_ms r)%N;
  st_signed : decision_verify None d = Ok tt
}.
(** What a body records: the request, or the decision, of an id. *)
Definition slot (body : LedgerBody) : string * bool :=
  match body with Requested r => (rq_id r, false) | Decided d => (dc_request_id d, true) end.

Record Facts (l : ApprovalLedger) : Prop := {
  fa_request id r : requests l !! id = Some r →
    rq_id r = id ∧ request_validate r = Ok tt
    ∧ ∃ e, e ∈ entries l ∧ le_body e = Requested r ∧ le_recorded_at_ms e = rq_created_at_ms r;
  fa_decision id d : decisions l !! id = Some d →
    (∃ e, e ∈ entries l ∧ le_body e = Decided d) ∧ ∃ r, requests l !! id = Some r ∧ settles r d;
  fa_requested e r : e ∈ entries l → le_body e = Requested r → requests l !! rq_id r = Some r;
  fa_decided e d : e ∈ entries l → le_body e = Decided d → decisions l !! dc_request_id d = Some d;
  fa_once : NoDup (slot ∘ le_body <$> entries l);
  fa_next i e : entries l !! i = Some e →
    e = MkEntry LEDGER_SCHEMA (N.of_nat i + 1) (le_recorded_at_ms e) (last_digest (take i (entries l)))
          (le_body e) (entry_digest (last_digest (take i (entries l))) (N.of_nat i + 1)
                         (le_recorded_at_ms e) (le_body e))
}.

Lemma decision_validate_human d : decision_validate d = Ok tt → pr_kind (dc_principal d) = HumanOperator.
Proof.
  unfold decision_validate. intros Hd. unq Hd. apply negb_false_iff, bool_decide_eq_true in Hb1. done.
Qed.

Lemma admit_requested l r now_ms :
  admit_body l (Requested r) now_ms = Ok None →
  request_validate r = Ok tt ∧ rq_created_at_ms r = now_ms ∧ requests l !! rq_id r = None
  ∧ (open_count l now_ms < MAX_OPEN_APPROVALS)%N.
Proof.
  unfold admit_body. intros Ha. unq Ha. destruct (requests l !! rq_id r).
  - case_bool_decide; [|done]. by destruct (recorded_request_entry l _).
  - unq Ha. apply negb_false_iff, N.eqb_eq in Hb0. apply N.leb_gt in Hb1. done.
Qed.
Lemma admit_decided l d now_ms :
  admit_body l (Decided d) now_ms = Ok None → decision_verify None d = Ok tt →
  ∃ r, requests l !! dc_request_id d = Some r ∧ decisions l !! dc_request_id d = None
       ∧ (rq_id r = dc_request_id d → settles r d).
Proof.
  unfold admit_body. intros Ha Hs. unq Ha. destruct (requests l !! _) as [r|]; [|done]. unq Ha.
  exists r. split; [done|]. destruct (decisions l !! _).
  { case_bool_decide; [|done]. by destruct (recorded_decision_entry l _). }
  split; [done|]. intros Hid. apply negb_false_iff, bool_decide_eq_true in Hb0.
  apply bool_decide_eq_false in Hb2. apply orb_false_iff in Hb1 as [?%N.ltb_ge ?%N.ltb_ge].
  apply decision_validate_human in Hm. by split.
Qed.

Lemma facts_next l body now_ms :
  (∀ i e, entries l !! i = Some e →
    e = MkEntry LEDGER_SCHEMA (N.of_nat i + 1) (le_recorded_at_ms e) (last_digest (take i (entries l)))
          (le_body e) (entry_digest (last_digest (take i (entries l))) (N.of_nat i + 1)
                         (le_recorded_at_ms e) (le_body e))) →
  let es := (entries l ++ [next_entry l body now_ms])%list in
  ∀ i e, es !! i = Some e →
    e = MkEntry LEDGER_SCHEMA (N.of_nat i + 1) (le_recorded_at_ms e) (last_digest (take i es))
          (le_body e) (entry_digest (last_digest (take i es)) (N.of_nat i + 1)
                         (le_recorded_at_ms e) (le_body e)).
Proof.
  intros IH es i e. unfold es. rewrite lookup_app_Some, list_lookup_singleton_Some.
  intros [Hi|(Hge & Hi & <-)].
  - pose proof (lookup_lt_Some _ _ _ Hi). rewrite take_app_le by lia. by apply IH.
  - replace i with (List.length (entries l)) by lia. rewrite take_app_length. done.
Qed.

Lemma elem_of_record e e' l : e' ∈ entries (record e l) ↔ e' ∈ entries l ∨ e' = e.
Proof. rewrite entries_record, elem_of_app, list_elem_of_singleton. done. Qed.
Lemma once_record e l :
  NoDup (slot ∘ le_body <$> entries l) →
  (∀ e', e' ∈ entries l → slot (le_body e') ≠ slot (le_body e)) →
  NoDup (slot ∘ le_body <$> entries (record e l)).
Proof.
  intros Hn Hf. rewrite entries_record, fmap_app, NoDup_app. split_and!; [done| |apply NoDup_singleton].
  cbn. intros x (e' & -> & He')%list_elem_of_fmap. rewrite list_elem_of_singleton. by apply Hf.
Qed.

Lemma facts_requested l r now_ms :
  Facts l → admit_body l (Requested r) now_ms = Ok None →
  Facts (record (next_entry l (Requested r) now_ms) l).
Proof.
  intros F (Hv & Hnow & Hnew & _)%admit_requested.
  set (e := next_entry l (Requested r) now_ms).
  split; try setoid_rewrite elem_of_record; cbn.
  - intros id r' [[<- <-]|[Hne Hr]]%(lookup_insert_Some (M:=gmap _)).
    + split_and!; [done..|]. exists e. eauto.
    + destruct (fa_request _ F _ _ Hr) as (? & ? & e' & ? & ? & ?). split_and!; eauto.
  - intros id d Hd. destruct (fa_decision _ F _ _ Hd) as [(e' & ? & ?) (r' & Hr' & Hs)].
    split; [eauto|]. exists r'. split; [|done]. rewrite lookup_insert_ne; [done|]. congruence.
  - intros e' r' [He' | ->] Hb.
    + pose proof (fa_requested _ F _ _ He' Hb) as Hr'. rewrite lookup_insert_ne; [done|]. congruence.
    + injection Hb as <-. by rewrite lookup_insert_eq.
  - intros e' d' [He' | ->] Hb; [|done]. by eapply (fa_decided _ F).
  - apply (once_record e l); [apply F|]. intros e' He'. destruct (le_body e') as [r'|d'] eqn:Hb; cbn; [|done].
    pose proof (fa_requested _ F _ _ He' Hb). congruence.
  - apply facts_next, F.
Qed.

Lemma facts_decided l d now_ms :
  Facts l → admit_body l (Decided d) now_ms = Ok None → decision_verify None d = Ok tt →
  Facts (record (next_entry l (Decided d) now_ms) l).
Proof.
  intros F Ha Hs. destruct (admit_decided _ _ _ Ha Hs) as (r & Hr & Hnew & Hset).
  destruct (fa_request _ F _ _ Hr) as [Hid _].
  set (e := next_entry l (Decided d) now_ms).
  split; try setoid_rewrite elem_of_record; cbn.
  - intros id r' Hr'. destruct (fa_request _ F _ _ Hr') as (? & ? & e' & ? & ? & ?). split_and!; eauto.
  - intros id d' [[<- <-]|[Hne Hd]]%(lookup_insert_Some (M:=gmap _)).
    + split; [exists e; eauto|eauto].
    + destruct (fa_decision _ F _ _ Hd) as [(e' & ? & ?) (r' & Hr' & Hs')]. eauto 7.
  - intros e' r' [He' | ->] Hb; [|done]. by eapply (fa_requested _ F).
  - intros e' d' [He' | ->] Hb.
    + pose proof (fa_decided _ F _ _ He' Hb) as Hd'. rewrite lookup_insert_ne; [done|]. congruence.
    + injection Hb as <-. by rewrite lookup_insert_eq.
  - apply (once_record e l); [apply F|]. intros e' He'. destruct (le_body e') as [r'|d'] eqn:Hb; cbn; [done|].
    pose proof (fa_decided _ F _ _ He' Hb). congruence.
  - apply facts_next, F.
Qed.

Lemma chain_facts l : Chain l → Facts l.
Proof.
  induction 1 as [|l [r|d] now Hc IH Ha Hs]; [|by apply facts_requested|by apply facts_decided].
  split; cbn; try (intros *; by rewrite lookup_empty); try (by intros * ?%elem_of_nil); [constructor|done].
Qed.

(** ** The queue *)
Lemma filter_length_le {A} (P Q : A → Prop) `{∀ x, Decision (P x), ∀ x, Decision (Q x)} l :
  (∀ x, P x → Q x) → (List.length (filter P l) <= List.length (filter Q l))%nat.
Proof.
  intros HPQ. induction l as [|x l IH]; [done|].
  rewrite !filter_cons. repeat case_decide; cbn; [lia|naive_solver|lia|lia].
Qed.

Lemma open_count_mono l l' t t' :
  (∀ r, is_open l' t' r = true → is_open l t r = true) → requests l' = requests l →
  (open_count l' t' <= open_count l t)%N.
Proof.
  intros Hm Hr. unfold open_count. rewrite Hr.
  pose proof (filter_length_le (λ r, is_open l' t' r = true) (λ r, is_open l t r = true)
                (values (requests l)) Hm). lia.
Qed.
Lemma open_count_insert l r t :
  requests l !! rq_id r = None →
  (open_count (MkLedger (entries l) (<[rq_id r := r]> (requests l)) (decisions l)) t <= open_count l t + 1)%N.
Proof.
  intros Hn. unfold open_count, is_open. cbn.
  rewrite (values_perm (<[_:=_]> _)), map_to_list_insert, (values_perm (requests l)) by done.
  rewrite fmap_cons, filter_cons. cbn [snd]. case_decide; cbn [List.length]; lia.
Qed.

(** Counted at any time since the last entry. *)
Lemma chain_open_bounded l t :
  Chain l → Forall (λ e, le_recorded_at_ms e <= t)%N (entries l) → (open_count l t <= MAX_OPEN_APPROVALS)%N.
Proof.
  induction 1 as [|l [r|d] now Hc IH Ha Hs]; rewrite ?entries_record, ?Forall_app, ?Forall_singleton;
    [done|intros [Ht Hnow]; cbn in Hnow..].
  - apply admit_requested in Ha as (_ & _ & Hnew & Hlt). etrans; [exact (open_count_insert l r t Hnew)|].
    pose proof (open_count_mono l l now t) as Hm. cut (open_count l t <= open_count l now)%N; [lia|].
    apply Hm; [|done]. unfold is_open. intros r' [-> ?%N.leb_le]%andb_prop. cbn. apply N.leb_le. lia.
  - etrans; [|by apply IH]. apply open_count_mono; [|done]. unfold is_open. cbn.
    intros r [Hd%bool_decide_eq_true ->]%andb_prop.
    apply lookup_insert_None in Hd as [Hd _]. by rewrite Hd.
Qed.

(** ** Pasts *)
Lemma chain_past l j e :
  Chain l → entries l !! j = Some e →
  ∃ l', Chain l' ∧ entries l' = take j (entries l) ∧ signed (le_body e)
        ∧ admit_body l' (le_body e) (le_recorded_at_ms e) = Ok None.
Proof.
  intros Hc. revert j e. induction Hc as [|l body now Hc IH Ha Hs]; intros j e; [done|].
  rewrite entries_record, lookup_app_Some, list_lookup_singleton_Some. intros [Hj|(Hge & Hj & <-)].
  - pose proof (lookup_lt_Some _ _ _ Hj). rewrite take_app_le by lia. by apply IH.
  - exists l. replace j with (List.length (entries l)) by lia. by rewrite take_app_length.
Qed.
(** A decision follows the request it settles. *)
Lemma decided_after_requested l j e dc :
  Chain l → entries l !! j = Some e → le_body e = Decided dc →
  ∃ i e' r, i < j ∧ entries l !! i = Some e' ∧ le_body e' = Requested r
            ∧ request_validate r = Ok tt ∧ settles r dc.
Proof.
  intros Hc Hj Hb. destruct (chain_past _ _ _ Hc Hj) as (l' & Hc' & He & Hs & Ha). rewrite Hb in Hs, Ha.
  destruct (admit_decided _ _ _ Ha Hs) as (r & Hr & _ & Hset).
  destruct (fa_request _ (chain_facts _ Hc') _ _ Hr) as (Hid & Hv & e' & Hin & Hb' & _).
  rewrite He in Hin. apply elem_of_take in Hin as (i & Hi & Hlt).
  exists i, e', r. split_and!; auto.
Qed.
End Chain.
