(* ===== verification/ApprovalText.v ===== *)
(** * The ledger as bytes

    The text of a chain decodes to it, whole or cut anywhere in a line being
    appended; what parses is a replay of its lines; and two ledgers that agree
    on one digest agree on everything before it, unless blake3 collides on
    what they hash. *)
From S2P Require Import Prelude Strings Bytes Effects ApprovalModel ApprovalStore ApprovalChain.
#[local] Open Scope string_scope.

Section Text.
Context `{Crypto, Scanner, Encode RequestIdentity, Encode ApprovalRequest, Encode DecisionStatement}.
Context `{Encode EntryIdentity, Encode LedgerEntry, Decode LedgerEntry, !JsonLine LedgerEntry}.

Fixpoint text (es : list LedgerEntry) : string :=
  match es with [] => "" | e :: es' => line_of e ++ text es' end.
(** The entries a text stands for, up to the first line that is none. *)
Fixpoint decode (ls : list string) : list LedgerEntry :=
  match ls with
  | [] => []
  | line :: ls' =>
      if bool_decide (trim line = "") then decode ls'
      else match from_slice line with None => [] | Some e => e :: decode ls' end
  end.

Lemma text_app es es' : text (es ++ es') = (text es ++ text es')%string.
Proof. induction es as [|e es IH]; cbn [text app]; [done|]. by rewrite IH, append_assoc. Qed.
Lemma text_snoc es e : text (es ++ [e]) = (text es ++ line_of e)%string.
Proof. rewrite text_app. cbn. by rewrite append_nil_r. Qed.

(** ** Lines *)
Lemma strip_cr_id s : ends_with (λ c, bool_decide (c = carriage_return)) s = false → strip_cr s = s.
Proof.
  induction s as [|c [|d s] IH]; cbn; [done|by intros ->|]. intros Hs. f_equal. by apply IH.
Qed.
Lemma lines_cons line s :
  lacks is_newline line = true → ends_with (λ c, bool_decide (c = carriage_return)) line = false →
  lines (line ++ String newline s) = line :: lines s.
Proof.
  intros Hn Hc. unfold lines. rewrite split_on_app, split_on_lacks by done. cbn.
  destruct (split_on is_newline s) eqn:E; [by apply split_on_nonnil in E|]. by rewrite strip_cr_id.
Qed.
Lemma text_cons e es s : (text (e :: es) ++ s = to_vec e ++ String newline (text es ++ s))%string.
Proof. cbn [text]. unfold line_of. by rewrite !append_assoc. Qed.
Lemma lines_text es s : lines (text es ++ s) = (map to_vec es ++ lines s)%list.
Proof.
  induction es as [|e es IH]; [done|]. rewrite text_cons, lines_cons, IH; [done|apply line_one|apply line_last].
Qed.

Lemma trim_brace s : trim (String "{" s) ≠ "".
Proof.
  unfold trim. assert (trim_start (String "{" s) = String "{" s) as ->.
  { cbn. destruct s as [|d s]; [done|]. cbn. by destruct s. }
  cbn [trim_end]. rewrite bool_decide_eq_false_2; [done|].
  cbn. destruct s as [|d s]; [done|]. cbn. by destruct s.
Qed.
Lemma trim_entry (e : LedgerEntry) : bool_decide (trim (to_vec e) = "") = false.
Proof. destruct (line_brace e) as [s ->]. apply bool_decide_eq_false_2, trim_brace. Qed.
Lemma decode_text es ls : decode (map to_vec es ++ ls) = (es ++ decode ls)%list.
Proof.
  induction es as [|e es IH]; [done|]. cbn [map app decode]. rewrite trim_entry, from_to. by rewrite IH.
Qed.

(** ** Parsing *)
Lemma replay_lines_decode l ls l' : replay_lines l ls = Ok l' → replay_from l (decode ls) = Ok l'.
Proof.
  revert l. induction ls as [|line ls IH]; intros l; [done|]. cbn [replay_lines decode]. unfold replay_line.
  case_bool_decide; [apply IH|]. destruct (from_slice line) as [e|]; [|done].
  cbn [replay_from]. destruct (replay_entry l e); [|done]. apply IH.
Qed.
Lemma parse_replays raw l : parse_ledger raw = Ok l → replay_from empty_ledger (decode (lines raw)) = Ok l.
Proof. unfold parse_ledger. intros Hp. unq Hp. by apply replay_lines_decode. Qed.
Lemma parse_entries raw l : parse_ledger raw = Ok l → entries l = decode (lines raw).
Proof. intros Hp%parse_replays%replay_entries. done. Qed.

Lemma replay_lines_text l es ls :
  replay_lines l (map to_vec es ++ ls) = rbind (replay_from l es) (λ l', replay_lines l' ls).
Proof.
  revert l. induction es as [|e es IH]; intros l; [done|]. cbn [map app replay_lines replay_from].
  unfold replay_line. rewrite trim_entry, from_to. destruct (replay_entry l e); [|done]. apply IH.
Qed.

Lemma utf8_text es : utf8 (text es) = true.
Proof.
  induction es as [|e es IH]; [done|]. rewrite <- (append_nil_r (text _)), text_cons.
  rewrite (utf8_app_l _ _ (line_utf8 e)), append_nil_r. exact IH.
Qed.

(** The text of a chain is read back as it is, as long as it fits. *)
Lemma parse_text l :
  Chain l → (slen (text (entries l)) <= MAX_LEDGER_BYTES)%N → parse_ledger (text (entries l)) = Ok l.
Proof.
  intros Hc Hs. unfold parse_ledger. rewrite utf8_text. apply N.ltb_ge in Hs. rewrite Hs. cbn.
  rewrite <- (append_nil_r (text _)), lines_text, replay_lines_text, chain_replays by done. done.
Qed.

(** ** A line cut short *)
Lemma torn_cases e p q :
  line_of e = (p ++ q)%string →
  p = line_of e ∨ p = to_vec e ∨ ∃ w, w ≠ "" ∧ to_vec e = (p ++ w)%string.
Proof.
  unfold line_of. intros Hp. destruct (append_snoc_inv _ _ _ _ Hp) as [->|[w Hw]]; [by left|right].
  destruct (decide (w = "")) as [->|]; [left; by rewrite Hw, append_nil_r|eauto].
Qed.
Lemma lines_single s : lacks is_newline s = true → s ≠ "" → lines s = [s].
Proof. intros Hs Hn. unfold lines. rewrite split_on_lacks by done. cbn. by rewrite bool_decide_eq_false_2. Qed.
Lemma to_vec_nonempty (e : LedgerEntry) : to_vec e ≠ "".
Proof. by destruct (line_brace e) as [s ->]. Qed.
(** Only the newline, or not even that, is missing. *)
Lemma lines_whole e p : p = line_of e ∨ p = to_vec e → lines p = [to_vec e].
Proof.
  intros [->| ->].
  - unfold line_of. rewrite lines_cons by (apply line_one || apply line_last). done.
  - apply lines_single; [apply line_one|apply to_vec_nonempty].
Qed.
Lemma replay_cut l e p w :
  w ≠ "" → p ≠ "" → to_vec e = (p ++ w)%string →
  replay_lines l (lines p) = Err StoreFailed ∧ decode (lines p) = [].
Proof.
  intros Hw Hp He. pose proof (line_one e) as Hl. rewrite He, lacks_app in Hl.
  apply andb_prop in Hl as [Hl _]. rewrite lines_single by done. cbn [replay_lines decode]. unfold replay_line.
  rewrite bool_decide_eq_false_2.
  - by rewrite (line_whole e p w).
  - destruct (line_brace e) as [s Hs], p as [|c p]; [done|]. rewrite Hs in He. injection He as <- _. apply trim_brace.
Qed.

(** ** Tampering
    A chain commits to its past: unless blake3 collides on two of the inputs
    it hashes. *)
Definition identity_of_entry (e : LedgerEntry) : EntryIdentity :=
  MkEntryIdentity LEDGER_SCHEMA (le_seq e) (le_recorded_at_ms e) (le_prev_digest e) (le_body e).
Definition entry_input (e : LedgerEntry) : string := hash_input LEDGER_DOMAIN (identity_of_entry e).
Definition collision_free (inputs : list string) : Prop :=
  ∀ a b, a ∈ inputs → b ∈ inputs → blake3 a = blake3 b → a = b.

Lemma to_hex_inj a b : to_hex a = to_hex b → a = b.
Proof. intros Hh. pose proof (hex_pairs_to_hex a) as Ha. rewrite Hh, hex_pairs_to_hex in Ha. congruence. Qed.
Lemma append_cancel_l a b c : (a ++ b = a ++ c)%string → b = c.
Proof. induction a as [|x a IH]; [done|]. intros [=]. auto. Qed.

(** What a verified entry is. *)
Lemma replay_entry_spec l e l' :
  replay_entry l e = Ok l' →
  le_schema e = LEDGER_SCHEMA ∧ le_prev_digest e = last_digest (entries l)
  ∧ le_digest e = to_hex (blake3 (entry_input e)).
Proof.
  unfold replay_entry. intros Hr. unq Hr.
  apply negb_false_iff, bool_decide_eq_true in Hb, Hb1, Hb2. done.
Qed.
Lemma replay_snoc l0 es e l :
  replay_from l0 (es ++ [e]) = Ok l → ∃ l1, replay_from l0 es = Ok l1 ∧ replay_entry l1 e = Ok l.
Proof. rewrite replay_app. cbn. intros (l1 & ? & (l2 & ? & [= ->])%rbind_Ok)%rbind_Ok. eauto. Qed.

Lemma same_entry e e' :
  Inj (=) (=) (to_vec (T:=EntryIdentity)) →
  le_schema e = le_schema e' → le_digest e = to_hex (blake3 (entry_input e)) →
  le_digest e' = to_hex (blake3 (entry_input e')) → le_digest e = le_digest e' →
  (blake3 (entry_input e) = blake3 (entry_input e') → entry_input e = entry_input e') → e = e'.
Proof.
  intros Hi Hs He He' Hd Hc. pose proof Hd as Heq. rewrite He, He' in Hd. apply to_hex_inj, Hc in Hd.
  unfold entry_input, hash_input in Hd. apply append_cancel_l, append_cancel_l, Hi in Hd.
  unfold identity_of_entry in Hd. injection Hd as ?? ? ?.
  clear He He' Hc. destruct e, e'; cbn in *. by subst.
Qed.

Lemma same_past es es' l l' :
  Inj (=) (=) (to_vec (T:=EntryIdentity)) →
  collision_free (map entry_input (es ++ es')) →
  replay_from empty_ledger es = Ok l → replay_from empty_ledger es' = Ok l' →
  List.length es = List.length es' → last_digest es = last_digest es' → es = es'.
Proof.
  intros Hi. revert es' l l'. induction es as [|e es IH] using rev_ind; intros es' l l' Hc Hl Hl' Hlen Hd.
  { by destruct es'. }
  destruct es' as [|e' es' _] using rev_ind; [rewrite length_app in Hlen; cbn in Hlen; lia|].
  unfold last_digest in Hd. rewrite !last_snoc in Hd.
  apply replay_snoc in Hl as (l1 & Hr1 & (Hs & Hp & He)%replay_entry_spec).
  apply replay_snoc in Hl' as (l1' & Hr1' & (Hs' & Hp' & He')%replay_entry_spec).
  assert (e = e') as <-.
  { apply same_entry; [done|congruence|done..|]. apply Hc; apply list_elem_of_fmap_2; set_solver. }
  f_equal. apply (IH es' l1 l1'); [|done|done|rewrite !length_app in Hlen; cbn in Hlen; lia|].
  - intros a b Ha Hb. apply Hc; [revert Ha|revert Hb];
      intros (x & -> & Hx)%list_elem_of_fmap; apply list_elem_of_fmap_2; set_solver.
  - apply replay_entries in Hr1, Hr1'. cbn in Hr1, Hr1'. by rewrite <- Hr1, <- Hr1', <- Hp, <- Hp'.
Qed.
End Text.
