(* ===== verification/ApprovalRuns.v ===== *)
(** * What one method may conclude, whatever the files say

    Nothing is assumed here about who wrote the files, or who changes them
    while the method runs.  A token takes a registered human's signature on
    exactly the action; a ledger that was cut, reordered or rewritten behind
    its anchor is refused. *)
From S2P Require Import Prelude Strings Bytes Effects ApprovalModel ApprovalStore ApprovalAuthority.
From S2P Require Import ApprovalSystem ApprovalChain ApprovalText.
From stdpp Require Import sorting.
#[local] Open Scope string_scope.
#[local] Open Scope prog_scope.

Section Runs.
Context `{Crypto, Scanner, Encode RequestIdentity, Encode ApprovalRequest, Encode DecisionStatement}.
Context `{Encode EntryIdentity, Encode LedgerEntry, Decode LedgerEntry}.
Context `{Encode LedgerHead, Decode LedgerHead, Encode LedgerAnchor, Decode LedgerAnchor}.
Context `{Encode ClockAnchorRow, Decode ClockAnchorRow}.
Context `{Encode OperatorRegistryFile, Decode OperatorRegistryFile}.

(** ** Loading *)
Lemma run_replace f b tr u : run (replace f b) tr (Ok u) → tr = [Replaced f b true].
Proof. intros ([] & tr' & -> & Hr); [by destruct Hr as [-> _]|by destruct Hr]. Qed.

Lemma run_verify_anchor l heal tr :
  run (verify_anchor l heal) tr (Ok tt) →
  ∃ a tr', tr = SawFile Anchor a :: tr' ∧ (∀ b, SawFile Anchor b ∉ tr')
  ∧ match a with
    | Absent => entries l = []
    | ReadFailed => False
    | Content raw => ∃ b, anchor_verdict l raw = Ok b ∧ (b = true → heal = true)
    end.
Proof.
  intros (a & tr' & -> & Hr). exists a, tr'. split; [done|]. destruct a as [|raw|].
  - destruct (entries l); [|by destruct Hr]. destruct Hr as [-> _]. split; [by intros b ?%elem_of_nil|done].
  - apply run_sbind in Hr as (tr1 & tr2 & b & -> & [-> Hv]%run_lift & Hr).
    destruct b; [|destruct Hr as [-> _]; split; [by intros b ?%elem_of_nil|by exists false]].
    apply run_sbind in Hr as (tr3 & tr4 & healed & -> & Ra1 & Ra2).
    destruct (last (entries l)) as [e|] eqn:El; [|by destruct Ra2].
    destruct healed; [|by destruct Ra2]. apply run_replace in Ra2 as ->.
    destruct heal; [|destruct Ra1; congruence]. unfold local_head_matches_tail in Ra1. rewrite El in Ra1.
    destruct Ra1 as (h & tr5 & -> & Hh). split; [|eauto].
    destruct h; cbn in Hh; destruct Hh as [-> [=]]. set_solver.
  - by destruct Hr.
Qed.

(** The file the ledger was read from. *)
Definition loaded (l : ApprovalLedger) (tr : list Obs) : Prop :=
  ∃ a, SawFile Ledger a ∈ tr
       ∧ match a with Absent => l = empty_ledger | Content s => parse_ledger s = Ok l | ReadFailed => False end.
Lemma loaded_app l tr1 tr tr2 : loaded l tr → loaded l (tr1 ++ tr ++ tr2).
Proof. intros (a & Ha & Hm). exists a. split; [set_solver|done]. Qed.

Lemma run_load_inner heal tr l :
  run (load_inner heal) tr (Ok l) →
  loaded l tr
  ∧ ∃ h tr', run (verify_anchor l h) tr' (Ok tt) ∧ (h = true → heal = true)
             ∧ ∀ b, SawFile Anchor b ∈ tr → SawFile Anchor b ∈ tr'.
Proof.
  intros (a & tr' & -> & Hr). unfold loaded. destruct a as [|s|]; [| |by destruct Hr].
  - apply run_sbind in Hr as (tr1 & tr2 & [] & -> & Ra1 & [-> [= ->]]). split; [exists Absent; set_solver|].
    exists false, tr1. split_and!; [done|done|]. intros b. set_solver.
  - apply run_sbind in Hr as (tr1 & tr2 & l' & -> & [-> Hp]%run_lift & Hr).
    apply run_sbind in Hr as (tr3 & tr4 & [] & -> & Ra1 & Hr).
    apply run_sbind in Hr as (tr5 & tr6 & [] & -> & Ra2 & [-> [= ->]]).
    split; [exists (Content s); set_solver|]. exists heal, tr3. split_and!; [done|done|].
    intros b. destruct Ra2 as (h & tr7 & -> & Hh).
    destruct h; [destruct Hh as [-> _]; set_solver|destruct Hh as [-> _]; set_solver|by destruct Hh].
Qed.

(** What the anchor commits to, when it is accepted. *)
Lemma anchor_verdict_Ok l raw b :
  anchor_verdict l raw = Ok b →
  ∃ n d e, from_slice raw = Some (MkAnchor LEDGER_ANCHOR_SCHEMA n d) ∧ n ≠ 0%N
    ∧ entries l !! N.to_nat (n - 1) = Some e ∧ le_digest e = d
    ∧ (n <= N.of_nat (List.length (entries l)))%N
    ∧ b = bool_decide (n < N.of_nat (List.length (entries l)))%N.
Proof.
  unfold anchor_verdict. intros Hv. unq Hv. destruct (from_slice raw) as [[sch n d]|]; [|done]. cbn in Hv.
  unq Hv. unfold entry_at in Hv. destruct (_ !! _) as [e|] eqn:El; [|done]. unq Hv. injection Hv as <-.
  apply negb_false_iff, bool_decide_eq_true in Hb0 as ->. apply orb_false_iff in Hb1 as [?%N.eqb_neq _].
  apply N.ltb_ge in Hb2. apply negb_false_iff, bool_decide_eq_true in Hb3 as <-.
  exists n, (le_digest e), e. split_and!; try done.
  destruct (N.ltb_spec n (N.of_nat (List.length (entries l)))); [by rewrite bool_decide_eq_true_2|].
  rewrite bool_decide_eq_false_2; [done|lia].
Qed.

(** ** Tampering *)
Lemma parsed_replays `{!JsonLine LedgerEntry} l tr : loaded l tr → replay_from empty_ledger (entries l) = Ok l.
Proof.
  intros (a & _ & Ha). destruct a as [|raw|]; [by subst| |done].
  rewrite (parse_entries raw l) by done. by apply parse_replays.
Qed.
Lemma replay_take l es es' : replay_from empty_ledger (es ++ es') = Ok l → ∃ l', replay_from empty_ledger es = Ok l'.
Proof. rewrite replay_app. intros (l' & ? & _)%rbind_Ok. eauto. Qed.
Lemma last_take {A} (xs : list A) n x : xs !! n = Some x → last (take (S n) xs) = Some x.
Proof. intros Hx. rewrite (take_S_r _ _ _ Hx). apply last_snoc. Qed.

Lemma anchor_extends `{!JsonLine LedgerEntry, !LawfulJson LedgerAnchor} l l' b :
  Inj (=) (=) (to_vec (T:=EntryIdentity)) →
  replay_from empty_ledger (entries l) = Ok l → entries l ≠ [] → replay_from empty_ledger (entries l') = Ok l' →
  collision_free (map entry_input (entries l ++ entries l')) →
  anchor_verdict l' (to_vec (anchor_row l)) = Ok b →
  entries l `prefix_of` entries l' ∧ (b = false → entries l' = entries l).
Proof.
  intros Hi Hc Hne Hc' Hfree (n & d & e & Hn & Hn0 & He & Hd & Hle & ->)%anchor_verdict_Ok.
  rewrite from_to in Hn. injection Hn as <- <-.
  set (k := List.length (entries l)) in *. assert (k ≠ 0) by (destruct (entries l); done).
  replace (N.to_nat (N.of_nat k - 1)) with (k - 1) in He by lia.
  assert (entries l = take k (entries l')) as Ht.
  { rewrite <- (take_drop k (entries l')) in Hc'. destruct (replay_take _ _ _ Hc') as [l1 Hl1].
    eapply same_past; [done| |exact Hc|exact Hl1|rewrite length_take; lia|].
    - intros x y Hx Hy. apply Hfree; [revert Hx|revert Hy];
        intros (z & -> & Hz)%list_elem_of_fmap; apply list_elem_of_fmap_2;
        rewrite elem_of_app in Hz |- *; (destruct Hz as [Hz|Hz]; [by left|right]);
        apply elem_of_take in Hz as (i & Hz & _); by eapply list_elem_of_lookup_2.
    - rewrite <- Hd. unfold last_digest. replace k with (S (k - 1)) by lia. by rewrite (last_take _ _ _ He). }
  split.
  - rewrite Ht. apply prefix_take.
  - intros Hb%bool_decide_eq_false. rewrite Ht. rewrite take_ge; [done|lia].
Qed.

(** C15: a ledger that was edited, cut or reordered is never accepted: if the
    anchor still commits to the history [l], a read of the ledger that
    succeeds read exactly [l], and a writer at least [l], whatever the files
    under [approval/] say - unless blake3 collides on the entries at hand. *)
Theorem tampering_is_detected `{!JsonLine LedgerEntry, !LawfulJson LedgerAnchor} l l' heal tr :
  Inj (=) (=) (to_vec (T:=EntryIdentity)) →
  replay_from empty_ledger (entries l) = Ok l → entries l ≠ [] →
  run (load_inner heal) tr (Ok l') →
  SawFile Anchor (Content (to_vec (anchor_row l))) ∈ tr →
  collision_free (map entry_input (entries l ++ entries l')) →
  entries l `prefix_of` entries l' ∧ (heal = false → entries l' = entries l).
Proof.
  intros Hi Hc Hne (Hld & h & tr' & Hv & Hh & Hsaw)%run_load_inner Hin Hfree.
  apply Hsaw in Hin. destruct (run_verify_anchor _ _ _ Hv) as (a & tr1 & -> & Honce & Ha).
  apply elem_of_cons in Hin as [[= <-]|Hin]; [|by destruct (Honce _ Hin)].
  destruct Ha as (b & Hb & Hbh).
  destruct (anchor_extends l l' b) as [Hp He]; try done; [by eapply parsed_replays|].
  split; [done|]. intros ->. apply He. destruct b; [|done]. by specialize (Hh (Hbh eq_refl)).
Qed.

(** ** Tokens *)
Definition token_of (a : Answer) : option ApprovalToken :=
  match a with RToken (Ok t) => Some t | RMaybeToken (Ok (Some t)) => Some t | _ => None end.
(** The method was asked for this token. *)
Definition asked (m : Method) (t : ApprovalToken) : Prop :=
  match m with
  | MAuthorize check _ => token_check t = check
  | MAuthorizeRequest id check _ => tn_request_id t = id ∧ token_check t = check
  | MLatestAuthorized kind subject _ => tn_kind t = kind ∧ tn_subject t = subject
  | _ => False
  end.
Definition time_of (m : Method) : N :=
  match m with
  | MPropose _ now | MDecide _ _ _ _ _ now | MAuthorize _ now | MAuthorizeRequest _ _ now
  | MLatestAuthorized _ _ now | MRegister _ _ now => now
  | _ => 0%N
  end.

(** What stands behind a token: [r] as the ledger records it, approved by [d]
    with the key of one of [operators], not expired at [now_ms]. *)
Record approval (l : ApprovalLedger) (operators : list RegisteredOperator) (now_ms : N)
    (t : ApprovalToken) (r : ApprovalRequest) (d : ApprovalDecision) : Prop := {
  ap_request : requests l !! tn_request_id t = Some r;
  ap_exact : token_check t = request_check r;
  ap_expiry : tn_expires_at_ms t = rq_expires_at_ms r;
  ap_decision : decisions l !! tn_request_id t = Some d;
  ap_approved : dc_outcome d = Approved;
  ap_settles : settles r d;
  ap_signature : ∃ public_key signature,
    parse_hex 32 (sg_public_key (dc_signature d)) = Ok public_key
    ∧ parse_hex 64 (sg_signature (dc_signature d)) = Ok signature
    ∧ ed25519_verify public_key (signing_message (statement_digest d)) signature = true;
  ap_operator : Exists (holds_key (pr_id (dc_principal d)) (sg_key_id (dc_signature d))
                          (sg_public_key (dc_signature d))) operators;
  ap_current : (now_ms <= rq_expires_at_ms r)%N
}.

Lemma decision_verify_weaken trusted d : decision_verify trusted d = Ok tt → decision_verify None d = Ok tt.
Proof.
  unfold decision_verify. destruct (decision_validate d) as [[]|]; [|done]. cbn [rbind].
  destruct trusted; [|done]. destruct (negb _); [done|]. intros Hv. exact Hv.
Qed.
Lemma decision_verify_signature d :
  decision_verify None d = Ok tt →
  ∃ public_key signature,
    parse_hex 32 (sg_public_key (dc_signature d)) = Ok public_key
    ∧ parse_hex 64 (sg_signature (dc_signature d)) = Ok signature
    ∧ ed25519_verify public_key (signing_message (statement_digest d)) signature = true.
Proof.
  unfold decision_verify. intros Hv. unq Hv. apply refuse_Ok, negb_false_iff in Hv. eauto.
Qed.
Lemma verify_decision_with_Ok r d trusted operators :
  verify_decision_with r d trusted operators = Ok tt →
  dc_request_id d = rq_id r → dc_request_digest d = request_digest r →
  settles r d ∧ Exists (holds_key (pr_id (dc_principal d)) (sg_key_id (dc_signature d))
                          (sg_public_key (dc_signature d))) operators.
Proof.
  unfold verify_decision_with. intros Hv Hid Hdg. unq Hv. apply refuse_Ok in Hv.
  apply negb_false_iff, bool_decide_eq_true in Hb, Hv. apply bool_decide_eq_false in Hb0.
  apply orb_false_iff in Hb1 as [?%N.ltb_ge ?%N.ltb_ge]. split; [|done].
  split; try done. by eapply decision_verify_weaken.
Qed.

Lemma run_evaluate_with_trust r l now trusted operators tr t :
  requests l !! rq_id r = Some r →
  run (evaluate_with_trust r l now trusted operators) tr (Ok t) → ∃ d, approval l operators now t r d.
Proof.
  intros Hr (tr1 & tr2 & [] & -> & [-> Hnow]%run_lift & Ht)%run_sbind.
  apply refuse_Ok, N.ltb_ge in Hnow. destruct (decisions l !! rq_id r) as [d|] eqn:Hd; [|by destruct Ht].
  apply run_sbind in Ht as (tr3 & tr4 & [] & -> & [-> Hv]%run_lift & Ht).
  destruct (dc_outcome d) eqn:Ho; [|by destruct Ht]. unfold from_verified in Ht.
  destruct (negb _ || negb _) eqn:E; [by destruct Ht|]. destruct Ht as (n & tr5 & -> & [-> [= ->]]).
  apply orb_false_iff in E as [E1%negb_false_iff%bool_decide_eq_true E2%negb_false_iff%bool_decide_eq_true].
  destruct (verify_decision_with_Ok _ _ _ _ Hv) as [Hs Hop]; [done..|].
  exists d. split; cbn; try done. apply decision_verify_signature, Hs.
Qed.

Definition registered (operators : list RegisteredOperator) (tr : list Obs) : Prop :=
  ∃ a, SawFile Registry a ∈ tr
       ∧ match a with Absent => operators = [] | Content s => parse_registry s = Ok operators | ReadFailed => False end.
Lemma registered_app operators tr1 tr tr2 : registered operators tr → registered operators (tr1 ++ tr ++ tr2).
Proof. intros (a & Ha & Hm). exists a. split; [set_solver|done]. Qed.
Lemma run_load_registry tr operators : run load_registry tr (Ok operators) → registered operators tr.
Proof.
  intros (a & tr' & -> & Hr). exists a. split; [set_solver|]. destruct a as [|s|]; [|by destruct Hr|by destruct Hr].
  by destruct Hr as [_ [= ->]].
Qed.

Lemma run_effective_now now tr eff :
  run (effective_now now) tr (Ok eff) →
  (now <= eff)%N ∧ ∀ raw c, SawFile ClockAnchor (Content raw) ∈ tr → from_slice raw = Some c → (max_seen_wall_ms c <= eff)%N.
Proof.
  intros (tr1 & tr2 & [] & -> & Ha & Hr)%run_sbind.
  apply run_pbind in Hr as (tr3 & tr4 & r & -> & Ho & (u & tr5 & -> & [-> <-])).
  destruct Ho as (a & tr6 & -> & Ho). apply run_sbind in Ho as (tr7 & tr8 & persisted & -> & [-> Hp]%run_lift & Ho).
  assert (eff = N.max now persisted ∧ ∀ b, SawFile ClockAnchor b ∉ tr8) as [-> Hn].
  { cbv zeta in Ho. destruct (persisted <? N.max now persisted)%N; [|destruct Ho as [-> [= ->]]; set_solver].
    apply run_sbind in Ho as (tr9 & tr10 & [] & -> & ->%run_replace & [-> [= ->]]). set_solver. }
  split; [lia|]. intros raw c Hin Hc. assert (a = Content raw) as ->.
  { destruct Ha as (la & tr9 & -> & Ha). destruct la; [|by destruct Ha..]. destruct Ha as [-> _].
    set_solver. }
  unq Hp. rewrite Hc in Hp. unq Hp. injection Hp as <-. lia.
Qed.

(** The maps of a replayed ledger are keyed by what they hold. *)
Definition keyed (l : ApprovalLedger) : Prop := ∀ k r, requests l !! k = Some r → rq_id r = k.
Lemma replay_keyed l es l' : keyed l → replay_from l es = Ok l' → keyed l'.
Proof.
  revert l. induction es as [|e es IH]; intros l Hk; [by intros [= <-]|].
  cbn [replay_from]. intros (l1 & He & Hr)%rbind_Ok. apply (IH l1); [|done].
  unfold replay_entry in He. unq He. injection He as <-. unfold replay_body in Hm.
  destruct (le_body e) as [r|d].
  - unq Hm. destruct (requests l !! rq_id r); [done|]. injection Hm as <-.
    intros k r'. cbn. intros [[<- <-]|[_ Hr']]%(lookup_insert_Some (M:=gmap _)); [done|by apply Hk].
  - destruct (requests l !! _) as [r|]; [|done]. unq Hm. destruct (decisions l !! _); [done|]. by injection Hm as <-.
Qed.
Lemma loaded_keyed `{!JsonLine LedgerEntry} l tr : loaded l tr → keyed l.
Proof. intros Hl%parsed_replays. eapply replay_keyed, Hl. intros k r. cbn. by rewrite lookup_empty. Qed.

Lemma exactly_check c r : exactly c r = true → request_check r = c.
Proof.
  unfold exactly. rewrite !andb_true_iff, !bool_decide_eq_true. destruct c. cbn.
  intros [[[<- <-] <-] <-]. done.
Qed.
Lemma newest_In (P : ApprovalRequest → bool) l r rs :
  merge_sort newer (filter (λ r, P r = true) (values (requests l))) = r :: rs →
  Forall (λ r, P r = true ∧ ∃ k, requests l !! k = Some r) (r :: rs).
Proof.
  intros Hs. apply Forall_forall. intros x Hx. rewrite <- Hs, merge_sort_Permutation in Hx.
  apply list_elem_of_filter in Hx as [Hx Hin%elem_of_values]. done.
Qed.

Lemma run_evaluate r l now tr t :
  requests l !! rq_id r = Some r → run (evaluate r l now) tr (Ok t) →
  ∃ operators d, registered operators tr ∧ approval l operators now t r d.
Proof.
  intros Hr (tr1 & tr2 & trusted & -> & _ & Ht)%run_sbind.
  apply run_sbind in Ht as (tr3 & tr4 & operators & -> & Ho & Ht).
  apply run_load_registry in Ho. destruct (run_evaluate_with_trust _ _ _ _ _ _ _ Hr Ht) as [d Hd].
  exists operators, d. split; [|done]. by apply registered_app.
Qed.
Lemma run_first_authorized rs l now trusted operators tr t :
  Forall (λ r, requests l !! rq_id r = Some r) rs →
  run (first_authorized rs l now trusted operators) tr (Ok (Some t)) →
  ∃ r d, r ∈ rs ∧ approval l operators now t r d.
Proof.
  intros Hrs. revert tr. induction Hrs as [|r rs Hr Hrs IH]; intros tr; [by intros [_ [=]]|].
  intros (tr1 & tr2 & [t'|e] & -> & He & Ht)%run_pbind.
  - destruct Ht as [_ [= <-]]. destruct (run_evaluate_with_trust _ _ _ _ _ _ _ Hr He) as [d Hd].
    exists r, d. split; [by left|done].
  - assert (∃ r' d, r' ∈ rs ∧ approval l operators now t r' d) as (r' & d & Hin & Hd).
    { destruct e; (by destruct Ht) || by eapply IH. }
    exists r', d. split; [by right|done].
Qed.
Lemma run_then_answer {A} (p : Svc A) f tr a :
  run (then_answer p f) tr a → ∃ r, run p tr r ∧ a = f r.
Proof. intros (tr1 & tr2 & r & -> & Hr & [-> ->])%run_pbind. rewrite app_nil_r. eauto. Qed.

(** [now_ms] is what the monotonic clock made of the caller's time. *)
Definition clocked (observed_ms now_ms : N) (tr : list Obs) : Prop :=
  ∃ tr1 tr2, tr = (tr1 ++ tr2)%list ∧ run (effective_now observed_ms) tr1 (Ok now_ms).

Lemma run_clocked_load `{!JsonLine LedgerEntry} {A} now (f : N → ApprovalLedger → Svc A) tr a :
  run (now_ms <- effective_now now; ledger <- load; f now_ms ledger) tr (Ok a) →
  ∃ eff l tr', run (f eff l) tr' (Ok a) ∧ loaded l tr ∧ keyed l
    ∧ (clocked now eff tr ∧ (now <= eff)%N) ∧ ∀ operators, registered operators tr' → registered operators tr.
Proof.
  intros (tr1 & tr2 & eff & -> & Hc & Hr)%run_sbind.
  apply run_sbind in Hr as (tr3 & tr4 & l & -> & [Hl _]%run_load_inner & Hr).
  exists eff, l, tr4. split_and!; [done|by apply loaded_app|by eapply loaded_keyed| | |].
  - by exists tr1, (tr3 ++ tr4)%list.
  - by apply run_effective_now in Hc as [? _].
  - intros ops Hops. rewrite (assoc_L (++)), <- (app_nil_r tr4). by apply registered_app.
Qed.
Lemma of_subject_keyed l kind subject r :
  keyed l → r ∈ of_subject kind subject l →
  rq_kind r = kind ∧ rq_subject r = subject ∧ requests l !! rq_id r = Some r.
Proof.
  unfold of_subject. intros Hk. rewrite merge_sort_Permutation, list_elem_of_filter, elem_of_values.
  unfold about. rewrite andb_true_iff, !bool_decide_eq_true. intros [[-> ->] [k Hr]].
  by rewrite (Hk _ _ Hr).
Qed.

(** C13: a token takes a human.  Whichever method returned it, and whoever
    wrote the files, the ledger that was read holds the very request the
    method was asked about and its approval: by a human operator other than
    the requester, within the request's lifetime, over the digest of exactly
    that request, with a signature that verifies under a key the registry that
    was read lists for that operator; and by the monotonic clock, which runs no
    earlier than the caller's time, the request had not expired. *)
Theorem token_takes_a_human `{!JsonLine LedgerEntry} m tr a t :
  run (run_method m) tr a → token_of a = Some t →
  asked m t ∧ ∃ l operators r d now_ms,
    loaded l tr ∧ registered operators tr ∧ approval l operators now_ms t r d
    ∧ clocked (time_of m) now_ms tr ∧ (time_of m <= now_ms)%N.
Proof.
  intros Hr Ht. destruct m; apply run_then_answer in Hr as (r0 & Hr & ->); try done;
    destruct r0 as [t'|]; try done; cbn in Ht; try injection Ht as ->;
    [..|destruct t' as [t'|]; [|done]; injection Ht as ->];
    apply run_clocked_load in Hr as (eff & l & tr' & Hr & Hl & Hk & Hc & Hreg).
  - destruct (merge_sort _ _) as [|r rs] eqn:E; [destruct (max_by_key _ _); by destruct Hr|].
    apply newest_In, Forall_cons in E as [[Hex [k Hin]] _]. pose proof (Hk _ _ Hin) as <-.
    destruct (run_evaluate _ _ _ _ _ Hin Hr) as (ops & d & Hops & Hd). split; [|by eauto 12].
    cbn. by rewrite (ap_exact _ _ _ _ _ _ Hd), (exactly_check _ _ Hex).
  - destruct (requests l !! request_id) as [r|] eqn:Hin; [|by destruct Hr].
    destruct (exactly check r) eqn:Hex; [|by destruct Hr]. pose proof (Hk _ _ Hin) as <-.
    destruct (run_evaluate _ _ _ _ _ Hin Hr) as (ops & d & Hops & Hd). split; [|by eauto 12].
    cbn. rewrite (ap_exact _ _ _ _ _ _ Hd), (exactly_check _ _ Hex). split; [|done].
    symmetry. by apply Hk, (ap_request _ _ _ _ _ _ Hd).
  - apply run_sbind in Hr as (tr1 & tr2 & trusted & -> & _ & Hr).
    apply run_sbind in Hr as (tr3 & tr4 & ops & -> & Hops%run_load_registry & Hr).
    destruct (run_first_authorized _ _ _ _ _ _ _ ltac:(apply Forall_forall; intros r; by apply of_subject_keyed) Hr)
      as (r & d & (Hkind & Hsub & _)%of_subject_keyed & Hd); [|done].
    split; [|by eauto 12 using registered_app].
    pose proof (ap_exact _ _ _ _ _ _ Hd) as [= Hk1 Hk2 _ _]. cbn. by rewrite Hk1, Hk2.
Qed.
End Runs.
