(* ===== verification/ApprovalLogic.v ===== *)
(** * A method among the others

    [safe Q p w]: started in [w] as thread [t], whatever the other threads do
    between its events and however each event is answered, [p] does to the
    disk only what [guar] allows and [Q] holds of what it returns.  A thread
    may count on the files behind a lock it holds, and has to leave the files
    behind the others alone.  [steps_ok]: methods that are safe alone keep the
    invariant together. *)
From S2P Require Import Prelude Strings Effects ApprovalModel ApprovalStore ApprovalAuthority ApprovalSystem.
#[local] Open Scope prog_scope.

Definition protects (l : Lock) (f : File) : Prop :=
  match l with LedgerLock => f = Ledger ∨ f = Head ∨ f = Anchor | ClockLock => f = ClockAnchor end.
#[global] Instance protects_dec l f : Decision (protects l f).
Proof. destruct l; cbn; apply _. Defined.

Section Logic.
Variable Inv : Disk → Prop.
Variable evolves : Disk → Disk → Prop.
Context `{!PreOrder evolves}.

Section Thread.
Variable t : nat.
Definition owns (l : Lock) (w : World) : Prop := held w !! l = Some t.
#[global] Instance owns_dec l w : Decision (owns l w).
Proof using. unfold owns. apply _. Defined.

Record rely (w w' : World) : Prop := {
  re_evolves : evolves (disk w) (disk w');
  re_inv : Inv (disk w');
  re_owns l : owns l w' ↔ owns l w;
  re_same l f : owns l w → protects l f → disk w' !! f = disk w !! f
}.
Record guar (w w' : World) : Prop := {
  gu_evolves : evolves (disk w) (disk w');
  gu_inv : Inv (disk w');
  gu_same l f : ¬ owns l w → protects l f → disk w' !! f = disk w !! f
}.

Lemma rely_trans w1 w2 w3 : rely w1 w2 → rely w2 w3 → rely w1 w3.
Proof using All.
  intros R1 R2. split.
  - etrans; [apply R1|apply R2].
  - apply R2.
  - intros l. rewrite (re_owns _ _ R2). apply R1.
  - intros l f Ho Hp. rewrite (re_same _ _ R2 l f), (re_same _ _ R1 l f); [done..| |done].
    by apply (re_owns _ _ R1).
Qed.
Lemma rely_refl w : Inv (disk w) → rely w w.
Proof using All. by split. Qed.
Lemma guar_disk w w' : Inv (disk w) → disk w' = disk w → guar w w'.
Proof using All. intros Hi Hd. split; rewrite Hd; done. Qed.

Fixpoint safe {A} (Q : A → World → Prop) (p : Prog A) (w : World) : Prop :=
  match p with
  | Ret a => ∀ w', rely w w' → Q a w'
  | Halt => True
  | Call e k => ∀ w', rely w w' → ∀ x w'', answer t e w' x w'' → guar w' w'' ∧ safe Q (k x) w''
  end.

Lemma safe_since {A} Q (p : Prog A) w w' : rely w w' → safe Q p w → safe Q p w'.
Proof using All. intros Hr. destruct p; cbn; [|done|]; intros Hs w2 Hr2; apply Hs; by eapply rely_trans. Qed.
Lemma safe_weaken {A} (Q Q' : A → World → Prop) p w :
  (∀ a w', Q a w' → Q' a w') → safe Q p w → safe Q' p w.
Proof using.
  intros HQ. revert w. induction p as [a| |X e k IH]; cbn; intros w Hs; [by eauto|done|].
  intros w' Hr x w'' Ha. destruct (Hs _ Hr _ _ Ha). split; [done|]. by apply IH.
Qed.
Lemma safe_pbind {A B} Q Q' (p : Prog A) (f : A → Prog B) w :
  Inv (disk w) → safe Q p w → (∀ a w', Inv (disk w') → Q a w' → safe Q' (f a) w') → safe Q' (pbind p f) w.
Proof using All.
  revert w. induction p as [a| |X e k IH]; cbn; intros w Hi Hs Hf; [|done|].
  - apply Hf; [done|]. by apply Hs, rely_refl.
  - intros w' Hr x w'' Ha. destruct (Hs _ Hr _ _ Ha) as [Hg Hk]. split; [done|].
    apply IH; [apply Hg|done|done].
Qed.

(** What only grows stays true along the way. *)
Lemma safe_frame {A} (P : Disk → Prop) Q (p : Prog A) w :
  (∀ d d', evolves d d' → P d → P d') → P (disk w) → safe Q p w → safe (λ a w', Q a w' ∧ P (disk w')) p w.
Proof using.
  intros HP. revert w. induction p as [a| |X e k IH]; cbn; intros w Hw Hs; [|done|].
  - intros w' Hr. split; [by apply Hs|]. eapply HP, Hw. apply Hr.
  - intros w' Hr x w'' Ha. destruct (Hs _ Hr _ _ Ha) as [Hg Hk]. split; [done|]. apply IH; [|done].
    eapply HP; [apply Hg|]. eapply HP, Hw. apply Hr.
Qed.

(** ** Events *)
Lemma safe_read {A} Q f (k : ReadAnswer → Prog A) w :
  (∀ w', rely w w' → (∀ s, disk w' !! f = Some s → safe Q (k (Content s)) w')
                     ∧ (disk w' !! f = None → safe Q (k Absent) w') ∧ safe Q (k ReadFailed) w') →
  safe Q (Call (Read f) k) w.
Proof using All.
  intros Hk w' Hr x w'' [-> Ha]. destruct (Hk _ Hr) as (Hs & Hn & Hf).
  split; [by apply guar_disk; [apply Hr|]|]. destruct x; auto.
Qed.
Lemma safe_replace {A} Q f b (k : bool → Prog A) w :
  (∀ w', rely w w' → guar w' (on_disk <[f := b]> w') ∧ safe Q (k true) (on_disk <[f := b]> w')
                     ∧ safe Q (k false) w') →
  safe Q (Call (Replace f b) k) w.
Proof using All.
  intros Hk w' Hr x w'' Ha. destruct (Hk _ Hr) as (Hg & Ht & Hf). cbn in Ha.
  destruct x; subst; [by split|]. split; [by apply guar_disk; [apply Hr|]|done].
Qed.
Lemma safe_append {A} Q f b (k : bool → Prog A) w :
  (∀ w', rely w w' →
    (guar w' (on_disk (appended f b) w') ∧ safe Q (k true) (on_disk (appended f b) w'))
    ∧ safe Q (k false) w'
    ∧ ∀ p q, b = (p ++ q)%string →
        guar w' (on_disk (appended f p) w') ∧ safe Q (k false) (on_disk (appended f p) w')) →
  safe Q (Call (Append f b) k) w.
Proof using All.
  intros Hk w' Hr x w'' Ha. destruct (Hk _ Hr) as (Ht & Hf & Hp). cbn in Ha.
  destruct x; [by subst|]. destruct Ha as [->|(p & q & -> & ->)]; [|by apply (Hp p q)].
  split; [by apply guar_disk; [apply Hr|]|done].
Qed.
Lemma safe_acquire {A} Q l (k : LockAnswer → Prog A) w :
  (∀ w' w'', rely w w' → held w' !! l = None → w'' = on_locks <[l := t]> w' → safe Q (k Acquired) w'') →
  (∀ w' a, rely w w' → a ≠ Acquired → safe Q (k a) w') →
  safe Q (Call (Acquire l) k) w.
Proof using All.
  intros Hk Hf w' Hr x w'' Ha. cbn in Ha. destruct x.
  - destruct Ha as [Hn ->]. split; [by apply guar_disk; [apply Hr|]|by eapply Hk].
  - destruct Ha as [_ ->]. split; [by apply guar_disk; [apply Hr|]|by apply Hf].
  - subst. split; [by apply guar_disk; [apply Hr|]|by apply Hf].
Qed.
Lemma safe_release {A} Q l (k : unit → Prog A) w :
  (∀ w', rely w w' →
    safe Q (k tt) (on_locks (λ h, if decide (h !! l = Some t) then delete l h else h) w')) →
  safe Q (Call (Release l) k) w.
Proof using All.
  intros Hk w' Hr [] w'' ->. split; [by apply guar_disk; [apply Hr|]|by apply Hk].
Qed.
(** Clocks. *)
Lemma safe_instant {A} Q (k : N → Prog A) w :
  (∀ n w', rely w w' → safe Q (k n) w') → safe Q (Call Instant k) w.
Proof using All. intros Hk w' Hr n w'' [_ ->]. split; [by apply guar_disk; [apply Hr|]|by apply Hk]. Qed.
Lemma safe_wall {A} Q (k : N → Prog A) w :
  (∀ n w', rely w w' → safe Q (k n) w') → safe Q (Call WallClock k) w.
Proof using All. intros Hk w' Hr n w'' ->. split; [by apply guar_disk; [apply Hr|]|by apply Hk]. Qed.

(** ** Fallible programs: a success owes [Q], a refusal [R] *)
Variable R : ApprovalError → Disk → Prop.
Hypothesis R_stable : ∀ e d d', evolves d d' → R e d → R e d'.
Definition oks {A} (Q : A → World → Prop) (r : outcome A) (w : World) : Prop :=
  match r with Ok a => Q a w | Err e => R e (disk w) end.
Notation ssafe Q p w := (safe (oks Q) p w).

Lemma oks_fail {A} Q e w : R e (disk w) → ssafe Q (sfail e : Svc A) w.
Proof using R_stable. intros He w' Hr. eapply R_stable, He. apply Hr. Qed.
Lemma oks_bind {A B} Q Q' (p : Svc A) (f : A → Svc B) w :
  Inv (disk w) → ssafe Q p w → (∀ a w', Inv (disk w') → Q a w' → ssafe Q' (f a) w') → ssafe Q' (sbind p f) w.
Proof using All.
  intros Hi Hp Hf. eapply safe_pbind; [done|exact Hp|]. intros [a|e] w' Hi' HQ; [by apply Hf|by apply oks_fail].
Qed.
Lemma oks_ret {A} (Q : A → World → Prop) a w : (∀ w', rely w w' → Q a w') → ssafe Q (sret a) w.
Proof using. done. Qed.
Lemma oks_lift {A B} Q (r : outcome A) (f : A → Svc B) w :
  (∀ a, r = Ok a → ssafe Q (f a) w) → (∀ e, r = Err e → R e (disk w)) → ssafe Q (sbind (lift r) f) w.
Proof using R_stable. destruct r as [a|e]; intros Hf He; [by apply Hf|by apply oks_fail, He]. Qed.
End Thread.

(** ** All threads together *)
Lemma answer_owns t {X} (e : Event X) w x w' u l :
  answer t e w x w' → u ≠ t → owns u l w' ↔ owns u l w.
Proof using.
  unfold owns. intros Ha Hu.
  destruct e; cbn in Ha; destruct_and?; subst; try done; try (case_match; by naive_solver).
  - destruct x; destruct_and?; subst; cbn; [|done..].
    destruct (decide (l0 = l)) as [->|]; [rewrite lookup_insert_eq|by rewrite lookup_insert_ne]. naive_solver.
  - cbn. case_decide; [|done].
    destruct (decide (l0 = l)) as [->|]; [rewrite lookup_delete_eq|by rewrite lookup_delete_ne]. naive_solver.
Qed.
Lemma answer_held t {X} (e : Event X) w x w' l u :
  answer t e w x w' → held w' !! l = Some u → held w !! l = Some u ∨ u = t.
Proof using.
  intros Ha Hl. destruct (decide (u = t)) as [|Hu]; [by right|left].
  by apply (answer_owns t e w x w' u l).
Qed.
Lemma guar_rely t {X} (e : Event X) w x w' u :
  answer t e w x w' → guar t w w' → u ≠ t → rely u w w'.
Proof using.
  intros Ha Hg Hu. split; [apply Hg|apply Hg|intros l; by apply (answer_owns t e w x w')|].
  intros l f Ho Hp. apply (gu_same _ _ _ Hg l); [|done]. unfold owns in *. congruence.
Qed.
Lemma release_all_rely t w u : Inv (disk w) → u ≠ t → rely u w (release_all t w).
Proof using All.
  intros Hi Hu. split; [done|done| |done]. intros l. unfold owns. cbn.
  rewrite map_lookup_filter_Some. naive_solver.
Qed.

Section System.
Context `{Crypto, Scanner, Encode RequestIdentity, Encode ApprovalRequest, Encode DecisionStatement}.
Context `{Encode EntryIdentity, Encode LedgerEntry, Decode LedgerEntry}.
Context `{Encode LedgerHead, Decode LedgerHead, Encode LedgerAnchor, Decode LedgerAnchor}.
Context `{Encode ClockAnchorRow, Decode ClockAnchorRow}.
Context `{Encode OperatorRegistryFile, Decode OperatorRegistryFile}.

(** [Pre] holds of the disk from some point on, [Q] of what the methods called
    from then on answer: those numbered from [n0]. *)
Record sys_ok (Pre : Disk → Prop) (Q : Answer → Disk → Prop) (n0 : nat) (s : System) : Prop := {
  so_inv : Inv (disk (world s));
  so_pre : Pre (disk (world s));
  so_locks l t : held (world s) !! l = Some t → t < next_thread s;
  so_threads t p : threads s !! t = Some p →
    t < next_thread s ∧ safe t (λ a w, n0 ≤ t → Q a (disk w)) p (world s);
  so_returned t a : (t, a) ∈ returned s → t < next_thread s ∧ (n0 ≤ t → Q a (disk (world s)))
}.

Variable Pre : Disk → Prop.
Variable Q : Answer → Disk → Prop.
Hypothesis Pre_stable : ∀ d d', evolves d d' → Pre d → Pre d'.
Hypothesis Q_stable : ∀ a d d', evolves d d' → Q a d → Q a d'.
Hypothesis methods : ∀ t m w, Inv (disk w) → Pre (disk w) → (∀ l, ¬ owns t l w) →
  safe t (λ a w, Q a (disk w)) (run_method m) w.

Lemma sys_ok_since Pre' Q' n s : sys_ok Pre' Q' n s → Pre (disk (world s)) → sys_ok Pre Q (next_thread s) s.
Proof using.
  intros S Hp. split; [apply S|done|apply S| |].
  - intros t p Ht. destruct (so_threads _ _ _ _ S _ _ Ht) as [Hlt Hs]. split; [done|].
    eapply safe_weaken, Hs. cbn. intros. lia.
  - intros t a Ha. destruct (so_returned _ _ _ _ S _ _ Ha) as [Hlt _]. split; [done|lia].
Qed.

(** The world moved in a way every other thread is ready for. *)
Lemma sys_ok_move n0 w w' ts ts' n r r' t :
  sys_ok Pre Q n0 (MkSystem w ts n r) → evolves (disk w) (disk w') → Inv (disk w') →
  (∀ l u, held w' !! l = Some u → held w !! l = Some u ∨ u = t ∧ t < n) →
  (∀ u, u ≠ t → rely u w w') → (∀ u, u ≠ t → ts' !! u = ts !! u) →
  (∀ p, ts' !! t = Some p → t < n ∧ safe t (λ a w, n0 ≤ t → Q a (disk w)) p w') →
  (∀ u a, (u, a) ∈ r' → (u, a) ∈ r ∨ u < n ∧ (n0 ≤ u → Q a (disk w'))) →
  sys_ok Pre Q n0 (MkSystem w' ts' n r').
Proof using All.
  intros S Hev Hi Hl Hr Hts Ht Hret. split; cbn in *.
  - done.
  - eapply Pre_stable; [done|apply S].
  - intros l u [Hu|[-> ?]]%Hl; [by apply (so_locks _ _ _ _ S l)|done].
  - intros u p Hu. destruct (decide (u = t)) as [->|Hne]; [by apply Ht|]. rewrite Hts in Hu by done.
    destruct (so_threads _ _ _ _ S _ _ Hu) as [? Hs]. split; [done|]. eapply safe_since, Hs. by apply Hr.
  - intros u a [Hu|]%Hret; [|done]. destruct (so_returned _ _ _ _ S _ _ Hu) as [? HQ]. split; [done|].
    intros ?. eapply Q_stable; [done|by apply HQ].
Qed.

Lemma step_ok n0 s s' :
  sys_ok Pre Q n0 s → step s s' → sys_ok Pre Q n0 s' ∧ evolves (disk (world s)) (disk (world s')).
Proof using All.
  intros S Hst. pose proof (so_inv _ _ _ _ S) as Hi.
  destruct Hst as [m w ts n r|X t e k x w w' ts n r Ht Ha|t a w ts n r Ht|t w ts n r|i w ts n r Hle];
    cbn in *.
  - split; [|done]. split; cbn; [apply S|apply S| | |].
    + intros l t Hl%(so_locks _ _ _ _ S). cbn in Hl. lia.
    + intros t p Ht. destruct (decide (t = n)) as [->|Hne].
      * rewrite lookup_insert_eq in Ht. injection Ht as <-. split; [lia|].
        eapply safe_weaken; [|apply methods; [done|apply S|]]; [done|].
        intros l Hl%(so_locks _ _ _ _ S). cbn in Hl. lia.
      * rewrite lookup_insert_ne in Ht by done. destruct (so_threads _ _ _ _ S _ _ Ht). cbn in *. split; [lia|done].
    + intros t a Hin. destruct (so_returned _ _ _ _ S _ _ Hin). cbn in *. split; [lia|done].
  - destruct (so_threads _ _ _ _ S _ _ Ht) as [Hlt Hs]. cbn in Hs, Hlt.
    destruct (Hs w (rely_refl _ _ Hi) _ _ Ha) as [Hg Hk]. split; [|apply Hg].
    eapply (sys_ok_move n0 w w' ts _ n r r t); [done|apply Hg|apply Hg| | | | |by auto].
    + intros l u Hl. destruct (answer_held _ _ _ _ _ _ _ Ha Hl); auto.
    + intros u Hu. by eapply guar_rely.
    + intros u Hu. by rewrite lookup_insert_ne.
    + intros p Hp. rewrite lookup_insert_eq in Hp. injection Hp as <-. done.
  - destruct (so_threads _ _ _ _ S _ _ Ht) as [Hlt Hs]. cbn in Hs, Hlt. split; [|done].
    eapply (sys_ok_move n0 w _ ts _ n r _ t); [done|done|done| | | | |].
    + intros l u. cbn. rewrite map_lookup_filter_Some. naive_solver.
    + intros u Hu. by apply release_all_rely.
    + intros u Hu. by rewrite lookup_delete_ne.
    + intros p. by rewrite lookup_delete_eq.
    + intros u b [[= -> ->]|Hin]%elem_of_cons; [right|by left]. split; [done|]. cbn. by apply (Hs w), rely_refl.
  - split; [|done]. eapply (sys_ok_move n0 w _ ts _ n r _ t); [done|done|done| | | | |by auto].
    + intros l u. cbn. rewrite map_lookup_filter_Some. naive_solver.
    + intros u Hu. by apply release_all_rely.
    + intros u Hu. by rewrite lookup_delete_ne.
    + intros p. by rewrite lookup_delete_eq.
  - split; [|done]. split; cbn; [apply S|apply S|apply S| |apply S].
    intros t p Ht. destruct (so_threads _ _ _ _ S _ _ Ht) as [? Hs]. split; [done|].
    eapply safe_since, Hs. by split.
Qed.

Lemma steps_ok n0 s s' :
  sys_ok Pre Q n0 s → rtc step s s' → sys_ok Pre Q n0 s' ∧ evolves (disk (world s)) (disk (world s')).
Proof using All.
  intros S Hst. induction Hst as [s|s1 s2 s3 Hst _ IH]; [done|].
  destruct (step_ok _ _ _ S Hst) as [S2 He]. destruct (IH S2) as [S3 He2]. split; [done|by etrans].
Qed.
End System.
End Logic.
Notation ssafe Inv evolves R t Q p w := (safe Inv evolves t (oks R Q) p w).
