(* ===== verification/ApprovalInv.v ===== *)
(** * What the disk of the authority looks like

    Between any two events of any run the ledger file holds a chain, followed
    at most by the line of an append under way or cut short, and head and
    anchor commit to the chain, to the chain before its last entry, or to one
    of each.  [Layout d l]: the disk [d] stands for the ledger [l]. *)
From S2P Require Import Prelude Strings Bytes Effects ApprovalModel ApprovalStore ApprovalAuthority.
From S2P Require Import ApprovalSystem ApprovalChain ApprovalText ApprovalLogic.
#[local] Open Scope string_scope.

Section Inv.
Context `{Crypto, Scanner, Encode RequestIdentity, Encode ApprovalRequest, Encode DecisionStatement}.
Context `{Encode EntryIdentity, Encode LedgerEntry, Decode LedgerEntry, !JsonLine LedgerEntry}.
Context `{Encode LedgerHead, Decode LedgerHead, Encode LedgerAnchor, Decode LedgerAnchor}.
Context `{Encode ClockAnchorRow, Decode ClockAnchorRow}.
Context `{!LawfulJson LedgerHead, !LawfulJson LedgerAnchor, !LawfulJson ClockAnchorRow}.

(** ** Commitments *)
Definition head_of (l : ApprovalLedger) : option string :=
  match entries l with [] => None | _ => Some (to_vec (head_row l)) end.
Definition anchor_of (l : ApprovalLedger) : option string :=
  match entries l with [] => None | _ => Some (to_vec (anchor_row l)) end.

(** Everything agrees. *)
Record Settled (d : Disk) (l : ApprovalLedger) : Prop := {
  se_chain : Chain l;
  se_ledger : content d Ledger = text (entries l);
  se_head : d !! Head = head_of l;
  se_anchor : d !! Anchor = anchor_of l
}.
(** The last entry is in the ledger and the head, not in the anchor. *)
Record Ahead (d : Disk) (l l2 : ApprovalLedger) (e : LedgerEntry) : Prop := {
  ah_before : Chain l;
  ah_chain : Chain l2;
  ah_entries : entries l2 = (entries l ++ [e])%list;
  ah_ledger : content d Ledger = text (entries l2);
  ah_head : d !! Head = head_of l2;
  ah_anchor : d !! Anchor = anchor_of l
}.
(** Some of the line of [e] is in the ledger, and nowhere else. *)
Record Torn (d : Disk) (l l2 : ApprovalLedger) (e : LedgerEntry) (p q : string) : Prop := {
  to_before : Chain l;
  to_chain : Chain l2;
  to_entries : entries l2 = (entries l ++ [e])%list;
  to_line : line_of e = (p ++ q)%string;
  to_some : p ≠ "";
  to_ledger : content d Ledger = (text (entries l) ++ p)%string;
  to_head : d !! Head = head_of l;
  to_anchor : d !! Anchor = anchor_of l
}.
(** Nothing but a newline can be missing. *)
Definition whole (e : LedgerEntry) (p : string) : Prop := p = line_of e ∨ p = to_vec e.

Inductive Layout (d : Disk) : ApprovalLedger → Prop :=
  | lay_settled l : Settled d l → Layout d l
  | lay_ahead l l2 e : Ahead d l l2 e → Layout d l2
  | lay_whole l l2 e p q : Torn d l l2 e p q → whole e p → Layout d l2
  | lay_cut l l2 e p q w : Torn d l l2 e p q → w ≠ "" → to_vec e = (p ++ w)%string → Layout d l.

Definition Inv (d : Disk) : Prop := ∃ l, Layout d l.
Definition hist (d : Disk) : list LedgerEntry := decode (lines (content d Ledger)).
(** The clock's high-water mark. *)
Definition clock (d : Disk) : N :=
  match d !! ClockAnchor with
  | Some raw => match from_slice raw with Some c => max_seen_wall_ms c | None => 0%N end
  | None => 0%N
  end.
Record evolves (d d' : Disk) : Prop := {
  ev_hist : hist d `prefix_of` hist d';
  ev_clock : (clock d <= clock d')%N
}.
#[global] Instance evolves_preorder : PreOrder evolves.
Proof using.
  split; [done|]. intros d1 d2 d3 [? ?] [? ?]. split; [by etrans|lia].
Qed.

(** ** The history of a layout *)
Lemma layout_chain d l : Layout d l → Chain l.
Proof using. by intros [? S|? ? ? A|? ? ? ? ? T|? ? ? ? ? ? T]; [apply S|apply A|apply T|apply T]. Qed.
Lemma decode_lines_text l s : decode (lines (text (entries l) ++ s)) = (entries l ++ decode (lines s))%list.
Proof using All. by rewrite lines_text, decode_text. Qed.
Lemma layout_hist d l : Layout d l → hist d = entries l.
Proof using All.
  unfold hist. intros [? S|? ? ? A|? ? e p ? T Hw|? ? e p ? w T Hw He].
  - rewrite (se_ledger _ _ S), <- (append_nil_r (text _)), decode_lines_text. apply app_nil_r.
  - rewrite (ah_ledger _ _ _ _ A), <- (append_nil_r (text _)), decode_lines_text. apply app_nil_r.
  - rewrite (to_ledger _ _ _ _ _ _ T), decode_lines_text, (to_entries _ _ _ _ _ _ T).
    rewrite (lines_whole e p Hw). cbn [decode]. by rewrite trim_entry, from_to.
  - rewrite (to_ledger _ _ _ _ _ _ T), decode_lines_text.
    destruct (replay_cut l0 e p w Hw (to_some _ _ _ _ _ _ T) He) as [_ ->]. apply app_nil_r.
Qed.
Lemma layout_unique d l l' : Layout d l → Layout d l' → l = l'.
Proof using All.
  intros Hl Hl'. apply chain_unique; [by eapply layout_chain..|].
  by rewrite <- (layout_hist _ _ Hl), <- (layout_hist _ _ Hl').
Qed.
Lemma parse_layout d l l' : Layout d l → parse_ledger (content d Ledger) = Ok l' → l' = l.
Proof using All.
  intros Hl Hp. apply parse_replays in Hp. fold (hist d) in Hp. rewrite (layout_hist _ _ Hl) in Hp.
  rewrite chain_replays in Hp by (by eapply layout_chain). congruence.
Qed.

(** The layout depends on the protected files only. *)
Lemma layout_same d d' l :
  (∀ f, protects LedgerLock f → d' !! f = d !! f) → Layout d l → Layout d' l.
Proof using.
  intros Hs. assert (content d' Ledger = content d Ledger) as Hc by (unfold content; rewrite Hs; cbn; auto).
  assert (d' !! Head = d !! Head) as Hh by (apply Hs; cbn; auto).
  assert (d' !! Anchor = d !! Anchor) as Ha by (apply Hs; cbn; auto).
  intros [l0 S|l0 l2 e A|l0 l2 e p q T Hw|l0 l2 e p q w T Hw He].
  - apply lay_settled. destruct S. split; congruence.
  - apply (lay_ahead _ l0 l2 e). destruct A. split; congruence.
  - apply (lay_whole _ l0 l2 e p q); [|done]. destruct T. split; congruence.
  - apply (lay_cut _ l0 l2 e p q w); [|done..]. destruct T. split; congruence.
Qed.
Lemma hist_same d d' : d' !! Ledger = d !! Ledger → hist d' = hist d.
Proof using. unfold hist, content. by intros ->. Qed.

(** ** How an append moves through the layouts *)
Lemma chain_last l e :
  Chain l → last (entries l) = Some e →
  head_row l = MkHead LEDGER_HEAD_SCHEMA (le_seq e) (le_digest e)
  ∧ anchor_row l = MkAnchor LEDGER_ANCHOR_SCHEMA (le_seq e) (le_digest e)
  ∧ head_of l = Some (to_vec (head_row l)) ∧ anchor_of l = Some (to_vec (anchor_row l)).
Proof using.
  intros Hc He. assert (le_seq e = N.of_nat (List.length (entries l))) as Hs.
  { apply last_Some in He as [es He]. pose proof (fa_next _ (chain_facts _ Hc) (List.length es) e) as Hn.
    rewrite He, lookup_app_r, Nat.sub_diag in Hn by lia. specialize (Hn eq_refl).
    apply (f_equal le_seq) in Hn. cbn [le_seq] in Hn. rewrite Hn, He, length_app. cbn. lia. }
  split_and!; [unfold head_row, last_digest|unfold anchor_row, last_digest|unfold head_of|unfold anchor_of];
    [by rewrite He, Hs..|by destruct (entries l)|by destruct (entries l)].
Qed.

Lemma content_insert f s d : content (<[f := s]> d) f = s.
Proof using. unfold content. by rewrite lookup_insert_eq. Qed.
Lemma content_insert_ne f g s d : g ≠ f → content (<[g := s]> d) f = content d f.
Proof using. intros Hn. unfold content. by rewrite lookup_insert_ne. Qed.

Lemma append_layout d l body now p q :
  let e := next_entry l body now in
  Settled d l → admit_body l body now = Ok None → signed body → line_of e = (p ++ q)%string →
  ∃ l', Layout (appended Ledger p d) l' ∧ entries l `prefix_of` entries l'
        ∧ (q = "" → Torn (appended Ledger p d) l (record e l) e p q).
Proof using All.
  intros e S Ha Hs Hp. assert (Chain (record e l)) as Hc2 by (constructor; [apply S|done..]).
  assert (disk_same : ∀ f, f ≠ Ledger → appended Ledger p d !! f = d !! f)
    by (intros f Hf; unfold appended; by rewrite lookup_insert_ne).
  assert (content (appended Ledger p d) Ledger = (text (entries l) ++ p)%string) as Hcont
    by (unfold appended; rewrite content_insert; by rewrite (se_ledger _ _ S)).
  destruct (decide (p = "")) as [->|Hne].
  { exists l. split_and!; [|done|].
    - apply lay_settled. split; [apply S|by rewrite Hcont, append_nil_r|..]; rewrite disk_same by done; apply S.
    - intros ->. exfalso. unfold line_of in Hp. by destruct (to_vec e). }
  assert (Torn (appended Ledger p d) l (record e l) e p q) as T.
  { split; try done; [apply S|apply entries_record|..]; rewrite disk_same by done; apply S. }
  destruct (torn_cases _ _ _ Hp) as [Hw|[Hw|(w & Hw & Hw2)]].
  - exists (record e l). split_and!; [eapply lay_whole; [done|by left]|rewrite entries_record; by apply prefix_app_r|done].
  - exists (record e l). split_and!; [eapply lay_whole; [done|by right]|rewrite entries_record; by apply prefix_app_r|done].
  - exists l. split_and!; [by eapply lay_cut|done|done].
Qed.

Lemma head_layout d l l2 e :
  Torn d l l2 e (line_of e) "" →
  Ahead (<[Head := to_vec (MkHead LEDGER_HEAD_SCHEMA (le_seq e) (le_digest e))]> d) l l2 e.
Proof using All.
  intros T. assert (last (entries l2) = Some e) as He by (rewrite (to_entries _ _ _ _ _ _ T); apply last_snoc).
  destruct (chain_last _ _ (to_chain _ _ _ _ _ _ T) He) as (Hh & _ & Hho & _).
  destruct T. split; try done.
  - rewrite content_insert_ne by done. rewrite to_entries0, text_snoc. done.
  - by rewrite lookup_insert_eq, Hho, Hh.
  - by rewrite lookup_insert_ne.
Qed.
Lemma anchor_layout d l l2 e :
  Ahead d l l2 e →
  Settled (<[Anchor := to_vec (MkAnchor LEDGER_ANCHOR_SCHEMA (le_seq e) (le_digest e))]> d) l2.
Proof using.
  intros A. assert (last (entries l2) = Some e) as He by (rewrite (ah_entries _ _ _ _ A); apply last_snoc).
  destruct (chain_last _ _ (ah_chain _ _ _ _ A) He) as (_ & Hr & _ & Hao).
  destruct A. split; try done.
  - by rewrite content_insert_ne.
  - by rewrite lookup_insert_ne.
  - by rewrite lookup_insert_eq, Hao, Hr.
Qed.
End Inv.
