(* ===== verification/ApprovalSafe.v ===== *)
(** * Every method of the authority keeps the layout

    Under the ledger's lock a transaction takes a settled disk to a settled
    disk through the layouts of [ApprovalInv]; a begin that succeeds found or
    made one.  A read without the lock that succeeds saw a prefix of what is on
    record from then on. *)
From S2P Require Import Prelude Strings Bytes Effects ApprovalModel ApprovalStore ApprovalAuthority.
From S2P Require Import ApprovalSystem ApprovalChain ApprovalText ApprovalRuns ApprovalLogic ApprovalInv.
From stdpp Require Import sorting.
#[local] Open Scope string_scope.
#[local] Open Scope prog_scope.

(** ** Fallible code that never speaks of expiry *)
Definition quiet {A} (r : outcome A) : Prop := ∀ id at_ms, r ≠ Err (Expired id at_ms).
Lemma quiet_Ok {A} (a : A) : quiet (Ok a).
Proof. done. Qed.
Lemma quiet_Err {A} e : (∀ id at_ms, e ≠ Expired id at_ms) → quiet (@Err A _ e).
Proof. intros He id at_ms [= ->]. by destruct (He id at_ms). Qed.
Lemma quiet_bind {A B} (r : outcome A) (f : A → outcome B) : quiet r → (∀ a, quiet (f a)) → quiet (rbind r f).
Proof. intros Hr Hf. destruct r as [a|e]; [apply Hf|]. intros id at_ms [= ->]. by destruct (Hr id at_ms). Qed.
Lemma quiet_refuse b e : (∀ id at_ms, e ≠ Expired id at_ms) → quiet (refuse b e).
Proof. intros He. destruct b; [by apply quiet_Err|done]. Qed.
Lemma quiet_each {A} (f : A → outcome unit) l : (∀ a, quiet (f a)) → quiet (each f l).
Proof. intros Hf. induction l; cbn; [done|]. by apply quiet_bind. Qed.
Ltac solve_quiet := repeat first
  [ apply quiet_bind; [|intros ?] | apply quiet_refuse; done | apply quiet_Ok | apply quiet_Err; done
  | apply quiet_each; intros ? | progress case_match ].

(** ** Programs that only look *)
Fixpoint only_reads {A} (p : Prog A) : Prop :=
  match p with
  | Ret _ | Halt => True
  | Call e k => match e with Read _ | Instant | WallClock => True | _ => False end ∧ ∀ x, only_reads (k x)
  end.
Lemma only_reads_pbind {A B} (p : Prog A) (f : A → Prog B) :
  only_reads p → (∀ a, only_reads (f a)) → only_reads (pbind p f).
Proof. intros Hp Hf. induction p as [a| |X e k IH]; cbn in *; [apply Hf|done|]. split; [apply Hp|]. intros x. by apply IH, Hp. Qed.
Lemma only_reads_sbind {A B} (p : Svc A) (f : A → Svc B) :
  only_reads p → (∀ a, only_reads (f a)) → only_reads (sbind p f).
Proof. intros Hp Hf. apply only_reads_pbind; [done|]. intros [a|e]; [apply Hf|done]. Qed.

Section Safe.
Context `{Crypto, Scanner, Encode RequestIdentity, Encode ApprovalRequest, Encode DecisionStatement}.
Context `{Encode EntryIdentity, Encode LedgerEntry, Decode LedgerEntry, !JsonLine LedgerEntry}.
Context `{Encode LedgerHead, Decode LedgerHead, Encode LedgerAnchor, Decode LedgerAnchor}.
Context `{Encode ClockAnchorRow, Decode ClockAnchorRow}.
Context `{!LawfulJson LedgerHead, !LawfulJson LedgerAnchor, !LawfulJson ClockAnchorRow}.
Context `{Encode OperatorRegistryFile, Decode OperatorRegistryFile, !LawfulCrypto}.

(** ** What is on record stays on record *)
Definition on_record (body : LedgerBody) (d : Disk) : Prop := body ∈ le_body <$> hist d.
(** A request said to be expired is on record, and the clock is past it. *)
Definition expired (id : string) (at_ms : N) (d : Disk) : Prop :=
  (at_ms < clock d)%N ∧ ∃ r, on_record (Requested r) d ∧ rq_id r = id ∧ rq_expires_at_ms r = at_ms.
Definition refused (e : ApprovalError) (d : Disk) : Prop :=
  match e with Expired id at_ms => expired id at_ms d | _ => True end.

Lemma on_record_stable body d d' : evolves d d' → on_record body d → on_record body d'.
Proof using.
  intros [[es Hes] _]. unfold on_record. rewrite Hes, fmap_app. rewrite elem_of_app. by left.
Qed.
Lemma refused_stable e d d' : evolves d d' → refused e d → refused e d'.
Proof using.
  intros He. destruct e; try done. intros (? & r & ? & ? & ?). split; [pose proof (ev_clock _ _ He); lia|].
  exists r. split_and!; [by eapply on_record_stable|done|done].
Qed.

Lemma quiet_refused {A} (r : outcome A) e d : quiet r → r = Err e → refused e d.
Proof using. intros Hq ->. destruct e; try done. by destruct (Hq request_id expired_at_ms). Qed.

(** ** The parsers *)
Lemma quiet_request_validate r : quiet (request_validate r).
Proof using. unfold request_validate, bounded_single_line, bounded_text, ensure_no_credential, principal_validate. solve_quiet. Qed.
Lemma quiet_parse_hex n s : quiet (parse_hex n s).
Proof using. unfold parse_hex. solve_quiet. Qed.
Lemma quiet_decision_validate d : quiet (decision_validate d).
Proof using.
  unfold decision_validate, bounded_text, ensure_no_credential, principal_validate.
  solve_quiet; apply quiet_parse_hex.
Qed.
Lemma quiet_parse_ledger raw : quiet (parse_ledger raw).
Proof using.
  unfold parse_ledger. solve_quiet. generalize empty_ledger as l.
  induction (lines raw) as [|line ls IH]; intros l; cbn [replay_lines]; [done|].
  apply quiet_bind; [|done]. unfold replay_line, replay_entry, replay_body.
  solve_quiet; apply quiet_request_validate || apply quiet_decision_validate.
Qed.
Lemma quiet_anchor_verdict l raw : quiet (anchor_verdict l raw).
Proof using. unfold anchor_verdict. solve_quiet. Qed.
Lemma quiet_head_verdict l raw : quiet (head_verdict l raw).
Proof using. unfold head_verdict. solve_quiet. Qed.
Lemma quiet_admit_body l body now : quiet (admit_body l body now).
Proof using.
  unfold admit_body, recorded_request_entry, recorded_decision_entry, recorded_entry.
  solve_quiet; apply quiet_request_validate || apply quiet_decision_validate.
Qed.
(** ** Readings of an interrupted append *)
Lemma parse_not_cut d l l2 e p q w l' :
  Torn d l l2 e p q → w ≠ "" → to_vec e = (p ++ w)%string → parse_ledger (content d Ledger) ≠ Ok l'.
Proof using All.
  intros T Hw He. unfold parse_ledger. rewrite (to_ledger _ _ _ _ _ _ T). intros Hp. unq Hp.
  rewrite lines_text, replay_lines_text, chain_replays in Hp by apply T. cbn [rbind] in Hp.
  by rewrite (proj1 (replay_cut l e p w Hw (to_some _ _ _ _ _ _ T) He)) in Hp.
Qed.
(** A verdict on a well-formed anchor counts entries. *)
Lemma anchor_verdict_row l l0 b :
  anchor_verdict l (to_vec (anchor_row l0)) = Ok b →
  b = bool_decide (List.length (entries l0) < List.length (entries l)).
Proof using All.
  intros (n & d & e & Hn & _ & _ & _ & _ & ->)%anchor_verdict_Ok. rewrite from_to in Hn. injection Hn as <- <-.
  apply bool_decide_ext. lia.
Qed.
Lemma anchor_behind l l0 e raw b :
  entries l = (entries l0 ++ [e])%list → anchor_of l0 = Some raw → anchor_verdict l raw = Ok b → b = true.
Proof using All.
  unfold anchor_of. intros He Hraw Hv. destruct (entries l0) eqn:El0; [done|].
  injection Hraw as <-. apply anchor_verdict_row in Hv.
  rewrite bool_decide_eq_true_2 in Hv; [done|]. rewrite He, El0, length_app. cbn. lia.
Qed.

Section Thread.
Variable t : nat.
Notation safe := (safe Inv evolves t).
Notation ssafe Q p w := (ApprovalLogic.safe Inv evolves t (oks refused Q) p w).
Notation rely := (rely Inv evolves t).
Notation guar := (guar Inv evolves t).

Lemma read_same l f w w' : owns t l w → protects l f → rely w w' → disk w' !! f = disk w !! f.
Proof using. intros Ho Hp Hr. by apply (re_same _ _ _ _ _ Hr l). Qed.
Lemma owns_later l w w' : owns t l w → rely w w' → owns t l w'.
Proof using. intros Ho Hr. by apply (re_owns _ _ _ _ _ Hr). Qed.

(** ** The clock *)
Lemma guar_clock w raw n :
  Inv (disk w) → owns t ClockLock w → raw = to_vec (MkClock CLOCK_ANCHOR_SCHEMA n) → (clock (disk w) <= n)%N →
  guar w (on_disk <[ClockAnchor := raw]> w) ∧ clock (<[ClockAnchor := raw]> (disk w)) = n.
Proof using All.
  intros [l Hl] Ho -> Hn.
  assert (clock (<[ClockAnchor := to_vec (MkClock CLOCK_ANCHOR_SCHEMA n)]> (disk w)) = n) as Hc
    by (unfold clock; by rewrite lookup_insert_eq, from_to).
  split; [|done]. split.
  - split; cbn [on_disk disk]; [|by rewrite Hc]. rewrite (hist_same (disk w) (<[_:=_]> _)); [done|by rewrite lookup_insert_ne].
  - exists l. eapply layout_same, Hl. intros f Hf. cbn. rewrite lookup_insert_ne; [done|].
    intros <-. by destruct Hf as [|[|]].
  - intros l0 f Hno Hp. cbn. destruct l0; [|done]. rewrite lookup_insert_ne; [done|].
    intros <-. by destruct Hp as [|[|]].
Qed.

Lemma observe_locked_safe observed F w :
  Inv (disk w) → owns t ClockLock w → (F <= clock (disk w))%N →
  ssafe (λ n w', (F <= n)%N ∧ (observed <= n)%N ∧ (n <= clock (disk w'))%N) (observe_locked observed) w.
Proof using All.
  intros Hi Ho HF. apply safe_read; [apply _|]. intros w1 Hr.
  pose proof (owns_later _ _ _ Ho Hr) as Ho1. pose proof (re_inv _ _ _ _ _ Hr) as Hi1.
  pose proof (ev_clock _ _ (re_evolves _ _ _ _ _ Hr)) as Hcl.
  assert (Hrest : ∀ persisted, clock (disk w1) = persisted →
    ssafe (λ n w', (F <= n)%N ∧ (observed <= n)%N ∧ (n <= clock (disk w'))%N)
      (if (persisted <? N.max observed persisted)%N
       then replace ClockAnchor (to_vec (MkClock CLOCK_ANCHOR_SCHEMA (N.max observed persisted))) ;;
            sret (N.max observed persisted)
       else sret (N.max observed persisted)) w1).
  { intros p Hp. destruct (N.ltb_spec p (N.max observed p)) as [Hlt|Hge].
    - apply safe_replace; [apply _|]. intros w2 Hr2. pose proof (owns_later _ _ _ Ho1 Hr2) as Ho2.
      assert (clock (disk w2) = p) as Hp2.
      { unfold clock in *. rewrite (read_same ClockLock ClockAnchor w1 w2); done. }
      destruct (guar_clock w2 _ (N.max observed p) (re_inv _ _ _ _ _ Hr2) Ho2 eq_refl) as [Hg Hc]; [lia|].
      split_and!; [done| |by apply oks_fail; [apply refused_stable|]].
      apply oks_ret. intros w3 Hr3. pose proof (ev_clock _ _ (re_evolves _ _ _ _ _ Hr3)) as Hcl3.
      cbn [on_disk disk] in Hcl3. rewrite Hc in Hcl3. lia.
    - apply oks_ret. intros w3 Hr3. pose proof (ev_clock _ _ (re_evolves _ _ _ _ _ Hr3)). lia. }
  split_and!.
  - intros s Hs. apply oks_lift; [apply refused_stable| |].
    + intros p Hp. unq Hp. destruct (from_slice s) as [c|] eqn:Hc; [|done]. unq Hp. injection Hp as <-.
      apply Hrest. unfold clock. by rewrite Hs, Hc.
    + intros e He. apply rbind_Err in He as [He|(u & Hu & He)].
      * destruct (_ <? _)%N; [|done]. by injection He as <-.
      * destruct (from_slice s); [|by injection He as <-]. apply rbind_Err in He as [He|(u' & Hu' & [=])].
        destruct (negb _); [|done]. by injection He as <-.
  - intros Hn. apply oks_lift; [apply refused_stable| |done].
    intros p [= <-]. apply Hrest. unfold clock. by rewrite Hn.
  - apply oks_lift; [apply refused_stable|done|]. by intros e [= <-].
Qed.

Lemma effective_now_safe now F w :
  Inv (disk w) → (F <= clock (disk w))%N →
  ssafe (λ n w', (F <= n)%N ∧ (now <= n)%N ∧ (n <= clock (disk w'))%N) (effective_now now) w.
Proof using All.
  intros Hi HF. apply safe_acquire; [apply _| |].
  - intros w1 w2 Hr Hn ->. cbn [sbind pbind sret].
    assert (Inv (disk w1)) as Hi1 by apply Hr. pose proof (ev_clock _ _ (re_evolves _ _ _ _ _ Hr)) as Hcl.
    eapply safe_pbind; [apply _|done|apply (observe_locked_safe now F); [done| |]|].
    + unfold owns. cbn. by rewrite lookup_insert_eq.
    + cbn. lia.
    + intros r w3 Hi3 HQ. apply safe_release; [apply _|]. intros w4 Hr4 w5 Hr5.
      pose proof (ev_clock _ _ (re_evolves _ _ _ _ _ Hr5)) as Hc5.
      pose proof (ev_clock _ _ (re_evolves _ _ _ _ _ Hr4)) as Hc4. cbn [on_locks disk] in Hc5.
      destruct r as [n|e]; cbn in *; [lia|].
      eapply refused_stable; [apply Hr5|]. eapply refused_stable; [apply Hr4|done].
  - intros w1 a Hr Ha. destruct a; [done|..]; apply oks_fail; (apply refused_stable || done).
Qed.


(** Such a program leaves the world to the others, and answers as some run of
    it does. *)
Lemma only_reads_safe {A} (p : Prog A) w :
  Inv (disk w) → only_reads p → safe (λ a w', rely w w' ∧ ∃ tr, run p tr a) p w.
Proof using All.
  revert w. induction p as [a| |X e k IH]; cbn; intros w Hi Hp; [|done|].
  { intros w' Hr. split; [done|]. by exists []. }
  destruct Hp as [He Hk]. intros w1 Hr x w2 Ha.
  assert (w2 = w1) as -> by (destruct e; cbn in Ha; destruct_and?; done).
  assert (Inv (disk w1)) as Hi1 by apply Hr. split; [by apply guar_disk; [apply _|..]|].
  eapply safe_weaken; [|apply IH; [done|apply Hk]]. cbn. intros a w' [Hr2 [tr Htr]].
  split; [by eapply rely_trans; [apply _|done..]|]. eauto.
Qed.
Lemma only_reads_ssafe {A} (Q : A → World → Prop) (p : Svc A) w :
  Inv (disk w) → only_reads p →
  (∀ a w' tr, rely w w' → run p tr (Ok a) → Q a w') →
  (∀ e w' tr, rely w w' → run p tr (Err e) → refused e (disk w')) → ssafe Q p w.
Proof using All.
  intros Hi Hp HQ HE. eapply safe_weaken; [|by apply only_reads_safe].
  intros [a|e] w' [Hr [tr Htr]]; cbn; eauto.
Qed.

Lemma ssafe_seq {A B} Q Q' (p : Svc A) (f : A → Svc B) w :
  Inv (disk w) → ssafe Q p w → (∀ a w', Inv (disk w') → Q a w' → ssafe Q' (f a) w') → ssafe Q' (sbind p f) w.
Proof using. apply oks_bind; [apply _|apply refused_stable]. Qed.
Lemma ssafe_quiet {A B} Q (r : outcome A) (f : A → Svc B) w :
  quiet r → (∀ a, r = Ok a → ssafe Q (f a) w) → ssafe Q (sbind (lift r) f) w.
Proof using.
  intros Hq Hf. apply oks_lift; [apply refused_stable|done|]. intros e He. by eapply quiet_refused.
Qed.
Lemma ssafe_refuse {A} Q e w : (∀ id at_ms, e ≠ Expired id at_ms) → ssafe Q (sfail e : Svc A) w.
Proof using.
  intros He. apply oks_fail; [apply refused_stable|]. destruct e; try done. by destruct (He request_id expired_at_ms).
Qed.

(** ** Reading without the lock *)
Lemma reads_verify_anchor l : only_reads (verify_anchor l false).
Proof using.
  split; [done|]. intros [|raw|]; [by destruct (entries l)| |done].
  apply only_reads_sbind; [done|]. intros []; [|done].
  cbn. by destruct (last (entries l)).
Qed.
Lemma reads_verify_head l : only_reads (verify_committed_head l).
Proof using. split; [done|]. by intros [| raw |]. Qed.
Lemma run_verify_anchor_quiet l tr e : run (verify_anchor l false) tr (Err e) → ∀ d, refused e d.
Proof using.
  intros (a & tr' & -> & Hr) d. destruct a as [|raw|]; [destruct (entries l)| |];
    try (destruct Hr as [_ Hr]; by simplify_eq).
  apply run_pbind in Hr as (tr1 & tr2 & [b|e'] & -> & [_ Hv] & Hr).
  - destruct b; [destruct (last (entries l))|]; cbn in Hr; destruct Hr as [_ Hr]; by simplify_eq.
  - destruct Hr as [_ [= ->]]. by eapply quiet_refused; [apply quiet_anchor_verdict|].
Qed.
Lemma run_verify_head_quiet l tr e : run (verify_committed_head l) tr (Err e) → ∀ d, refused e d.
Proof using.
  intros (a & tr' & -> & Hr) d. destruct a as [|raw|]; destruct Hr as [_ Hr]; try by simplify_eq.
  eapply quiet_refused; [apply quiet_head_verdict|]. by symmetry.
Qed.
Lemma verify_anchor_reads l w : Inv (disk w) → ssafe (λ _ w', rely w w') (verify_anchor l false) w.
Proof using All.
  intros Hi. apply only_reads_ssafe; [done|apply reads_verify_anchor|done|].
  intros e w' tr _ He. by eapply run_verify_anchor_quiet.
Qed.
Lemma verify_head_reads l w : Inv (disk w) → ssafe (λ _ w', rely w w') (verify_committed_head l) w.
Proof using All.
  intros Hi. apply only_reads_ssafe; [done|apply reads_verify_head|done|].
  intros e w' tr _ He. by eapply run_verify_head_quiet.
Qed.

(** What a reader that succeeded knows from then on. *)
Definition knows (l : ApprovalLedger) (d : Disk) : Prop := Chain l ∧ entries l `prefix_of` hist d.
Lemma knows_later l w w' : knows l (disk w) → rely w w' → knows l (disk w').
Proof using. intros [Hc Hp] Hr. split; [done|]. etrans; [exact Hp|]. apply Hr. Qed.
Lemma knows_parsed w raw l :
  Inv (disk w) → content (disk w) Ledger = raw → parse_ledger raw = Ok l → Layout (disk w) l.
Proof using All. intros [l0 Hl] <- Hp. by rewrite (parse_layout _ _ _ Hl Hp). Qed.
Lemma layout_knows d l : Layout d l → knows l d.
Proof using All. intros Hl. split; [by eapply layout_chain|]. by rewrite (layout_hist _ _ Hl). Qed.

Lemma load_safe w : Inv (disk w) → ssafe (λ l w', knows l (disk w')) load w.
Proof using All.
  intros Hi. apply safe_read; [apply _|]. intros w1 Hr. assert (Inv (disk w1)) as Hi1 by apply Hr.
  split_and!; [| |by apply ssafe_refuse].
  - intros raw Hraw. apply ssafe_quiet; [apply quiet_parse_ledger|]. intros l Hp.
    assert (knows l (disk w1)) as Hk.
    { eapply layout_knows, (knows_parsed _ raw); [done| |done]. unfold content. by rewrite Hraw. }
    eapply ssafe_seq; [done|by apply verify_anchor_reads|]. intros u2 w2 Hi2 Hr2.
    eapply ssafe_seq; [done|by apply verify_head_reads|]. intros u3 w3 Hi3 Hr3.
    apply oks_ret. intros w4 Hr4. eapply knows_later, Hr4. eapply knows_later, Hr3. by eapply knows_later.
  - intros Hn. eapply ssafe_seq; [done|by apply verify_anchor_reads|].
    intros u2 w2 Hi2 Hr2. apply oks_ret. intros w3 Hr3. split; [constructor|]. cbn. apply prefix_nil.
Qed.

(** ** Under the ledger's lock *)
Record Mine (l : ApprovalLedger) (w : World) : Prop := {
  mi_owns : owns t LedgerLock w;
  mi_settled : Settled (disk w) l
}.
Lemma same_files w w' f : owns t LedgerLock w → rely w w' → protects LedgerLock f → disk w' !! f = disk w !! f.
Proof using. intros Ho Hr Hf. by apply (read_same LedgerLock). Qed.
Lemma same_content w w' : owns t LedgerLock w → rely w w' → content (disk w') Ledger = content (disk w) Ledger.
Proof using. intros Ho Hr. unfold content. by rewrite (same_files w w') by (done || by left). Qed.
Lemma layout_later w w' l : owns t LedgerLock w → rely w w' → Layout (disk w) l → Layout (disk w') l.
Proof using. intros Ho Hr. apply layout_same. intros f. by apply same_files. Qed.
Lemma mine_later l w w' : Mine l w → rely w w' → Mine l w'.
Proof using.
  intros [Ho S] Hr. split; [by eapply owns_later|]. destruct S. split; [done|by rewrite (same_content w w')|..];
    rewrite (same_files w w'); cbn; auto.
Qed.
Lemma ahead_later w w' l0 l e :
  owns t LedgerLock w → rely w w' → Ahead (disk w) l0 l e → Ahead (disk w') l0 l e.
Proof using.
  intros Ho Hr A. destruct A. split; try done; [by rewrite (same_content w w')|..];
    rewrite (same_files w w'); cbn; auto.
Qed.
Lemma guar_ledger w w' :
  owns t LedgerLock w → Inv (disk w') → hist (disk w) `prefix_of` hist (disk w') →
  disk w' !! ClockAnchor = disk w !! ClockAnchor → guar w w'.
Proof using.
  intros Ho Hi Hp Hc. split; [split; [done|]|done|].
  - unfold clock. by rewrite Hc.
  - intros [] f Hn Hf; [done|]. by rewrite Hf.
Qed.


Lemma write_anchor_safe w l0 l e :
  owns t LedgerLock w → Ahead (disk w) l0 l e →
  ssafe (λ _ w', Mine l w') (write_anchor (le_seq e) (le_digest e)) w.
Proof using All.
  intros Ho A. apply safe_replace; [apply _|]. intros w1 Hr. pose proof (owns_later _ _ _ Ho Hr) as Ho1.
  pose proof (ahead_later _ _ _ _ _ Ho Hr A) as A1.
  pose proof (anchor_layout _ _ _ _ A1) as S. split_and!; [| |by apply ssafe_refuse].
  - apply guar_ledger; cbn; [done|by eexists; apply lay_settled| |by rewrite lookup_insert_ne].
    rewrite (hist_same (disk w1) (<[_:=_]> _)); [done|by rewrite lookup_insert_ne].
  - apply oks_ret. intros w2 Hr2. by eapply mine_later; [|exact Hr2].
Qed.


(** Healing: the anchor follows a head that matches the ledger's tail. *)
Lemma anchor_content_settled w l raw :
  Settled (disk w) l → owns t LedgerLock w → disk w !! Anchor = Some raw →
  anchor_verdict l raw ≠ Ok true.
Proof using All.
  intros S Ho Hraw Hv. rewrite (se_anchor _ _ S) in Hraw. unfold anchor_of in Hraw.
  destruct (entries l) eqn:El; [done|]. injection Hraw as <-. apply anchor_verdict_row in Hv.
  rewrite bool_decide_eq_false_2 in Hv by lia. done.
Qed.
Lemma heal_ahead w l0 l e :
  Inv (disk w) → owns t LedgerLock w → Ahead (disk w) l0 l e →
  ssafe (λ _ w', Mine l w')
    (healed <- local_head_matches_tail l;
     match last (entries l) with
     | Some e => if (healed : bool) then write_anchor (le_seq e) (le_digest e) else sfail AnchorDegraded
     | None => sfail AnchorDegraded
     end) w.
Proof using All.
  intros Hi Ho A. unfold local_head_matches_tail. rewrite (ah_entries _ _ _ _ A), last_snoc.
  apply (ssafe_seq (λ _ w', rely w w')); [done| |].
  - apply only_reads_ssafe; [done|split; [done|by intros []]|done|].
    intros err w2 tr _ (a & tr' & -> & Ha). destruct a; destruct Ha as [_ Ha]; by simplify_eq.
  - intros [] w2 Hi2 Hr2; [|by apply ssafe_refuse].
    apply (write_anchor_safe w2 l0 l e); [by eapply owns_later|by eapply ahead_later].
Qed.
(** A head that was not replaced yet does not match the tail. *)
Lemma no_heal_torn w l0 l e p q Q :
  Inv (disk w) → owns t LedgerLock w → Torn (disk w) l0 l e p q →
  ssafe Q
    (healed <- local_head_matches_tail l;
     match last (entries l) with
     | Some e => if (healed : bool) then write_anchor (le_seq e) (le_digest e) else sfail AnchorDegraded
     | None => sfail AnchorDegraded
     end) w.
Proof using All.
  intros Hi Ho T. unfold local_head_matches_tail. rewrite (to_entries _ _ _ _ _ _ T), last_snoc.
  apply (ssafe_seq (λ h _, h = false)); [done| |by intros h w2 Hi2 ->; apply ssafe_refuse].
  apply safe_read; [apply _|]. intros w2 Hr2. rewrite (same_files w w2) by (cbn; auto).
  rewrite (to_head _ _ _ _ _ _ T). split_and!; [|done|by apply ssafe_refuse]. intros h Hh.
  apply oks_ret. intros w3 _. unfold head_of in Hh. destruct (entries l0) eqn:El0; [done|].
  injection Hh as <-. unfold head_matches. rewrite from_to. cbn [lh_schema lh_seq lh_digest head_row].
  assert (last (entries l) = Some e) as Hlast by (rewrite (to_entries _ _ _ _ _ _ T); apply last_snoc).
  destruct (chain_last _ _ (to_chain _ _ _ _ _ _ T) Hlast) as ([= Hseq _] & _).
  rewrite (to_entries _ _ _ _ _ _ T), length_app in Hseq. cbn in Hseq.
  apply andb_false_intro2, andb_false_intro1, andb_false_intro2, N.eqb_neq. lia.
Qed.

Lemma verify_anchor_locked w l :
  owns t LedgerLock w → Layout (disk w) l → parse_ledger (content (disk w) Ledger) = Ok l →
  ssafe (λ _ w', Mine l w') (verify_anchor l true) w.
Proof using All.
  intros Ho Hl Hp. apply safe_read; [apply _|]. intros w1 Hr.
  pose proof (owns_later _ _ _ Ho Hr) as Ho1. assert (Inv (disk w1)) as Hi1 by apply Hr.
  pose proof (layout_later _ _ _ Ho Hr Hl) as Hl1. rewrite <- (same_content _ _ Ho Hr) in Hp.
  clear w Ho Hl Hr. destruct Hl1 as [l S|l0 l e A|l0 l e p q T Hw|l l2 e p q v T Hv He].
  - split_and!; [| |by apply ssafe_refuse].
    + intros raw Hraw. apply ssafe_quiet; [apply quiet_anchor_verdict|]. intros [] Hv.
      { by destruct (anchor_content_settled _ _ _ S Ho1 Hraw). }
      apply oks_ret. intros w2 Hr2. by eapply mine_later; [|exact Hr2].
    + intros _. destruct (entries l) eqn:El; [|by apply ssafe_refuse].
      apply oks_ret. intros w2 Hr2. by eapply mine_later; [|exact Hr2].
  - rewrite (ah_anchor _ _ _ _ A). split_and!; [| |by apply ssafe_refuse].
    + intros raw Hraw. apply ssafe_quiet; [apply quiet_anchor_verdict|]. intros b Hv.
      rewrite (anchor_behind _ _ _ _ _ (ah_entries _ _ _ _ A) Hraw Hv). by eapply heal_ahead.
    + intros _. rewrite (ah_entries _ _ _ _ A). destruct (entries l0); by apply ssafe_refuse.
  - rewrite (to_anchor _ _ _ _ _ _ T). split_and!; [| |by apply ssafe_refuse].
    + intros raw Hraw. apply ssafe_quiet; [apply quiet_anchor_verdict|]. intros b Hv.
      rewrite (anchor_behind _ _ _ _ _ (to_entries _ _ _ _ _ _ T) Hraw Hv). by eapply no_heal_torn.
    + intros _. rewrite (to_entries _ _ _ _ _ _ T). destruct (entries l0); by apply ssafe_refuse.
  - by apply (parse_not_cut _ _ _ _ _ _ _ l T Hv He) in Hp.
Qed.

(** [begin]: what it returns is settled, and behind the lock. *)
Lemma begin_safe w : Inv (disk w) → ssafe Mine begin w.
Proof using All.
  intros Hi. apply safe_acquire; [apply _| |].
  - intros w1 w2 Hr Hn ->. apply safe_read; [apply _|]. intros w3 Hr3.
    assert (owns t LedgerLock w3) as Ho.
    { eapply owns_later, Hr3. unfold owns. cbn. by rewrite lookup_insert_eq. }
    assert (Inv (disk w3)) as Hi3 by apply Hr3. split_and!; [| |by apply ssafe_refuse].
    + intros raw Hraw. apply ssafe_quiet; [apply quiet_parse_ledger|]. intros l Hp.
      assert (content (disk w3) Ledger = raw) as Hc by (unfold content; by rewrite Hraw).
      pose proof (knows_parsed _ _ _ Hi3 Hc Hp) as Hl. rewrite <- Hc in Hp.
      eapply ssafe_seq; [done|by apply verify_anchor_locked|]. intros u4 w4 Hi4 M4.
      eapply ssafe_seq; [done|by apply verify_head_reads|]. intros u5 w5 Hi5 Hr5.
      apply oks_ret. intros w6 Hr6. eapply mine_later; [eapply mine_later; [exact M4|exact Hr5]|exact Hr6].
    + intros Hn3. eapply ssafe_seq; [done|by apply verify_anchor_reads|]. intros u4 w4 Hi4 Hr4.
      apply oks_ret. intros w5 Hr5. eapply mine_later; [eapply mine_later; [|exact Hr4]|exact Hr5]. split; [done|].
      destruct Hi3 as [l Hl]. assert (content (disk w3) Ledger = "") as Hc by (unfold content; by rewrite Hn3).
      assert (entries l = []) as Hl0 by (rewrite <- (layout_hist _ _ Hl); unfold hist; by rewrite Hc).
      assert (l = empty_ledger) as -> by (apply chain_unique; [by eapply layout_chain|constructor|done]).
      destruct Hl as [l S|l0 l e A|l0 l e p q T Hw|l l2 e p q v T Hv He]; [done|exfalso..].
      * rewrite (ah_entries _ _ _ _ A) in Hl0. by destruct (entries l0).
      * rewrite (to_entries _ _ _ _ _ _ T) in Hl0. by destruct (entries l0).
      * rewrite (to_ledger _ _ _ _ _ _ T), Hl0 in Hc. cbn in Hc. by apply (to_some _ _ _ _ _ _ T).
  - intros w1 a Hr Ha. destruct a; [done|..]; by apply ssafe_refuse.
Qed.

(** ** Appending *)
Definition holds (body : LedgerBody) (l : ApprovalLedger) : Prop :=
  match body with
  | Requested r => requests l !! rq_id r = Some r
  | Decided d => decisions l !! dc_request_id d = Some d
  end.
Lemma holds_record e l : holds (le_body e) (record e l).
Proof using. unfold record. destruct (le_body e); cbn; by rewrite lookup_insert_eq. Qed.
Lemma admit_existing l body now e : admit_body l body now = Ok (Some e) → holds body l.
Proof using.
  unfold admit_body. intros Ha. unq Ha. destruct body as [r|d]; cbn.
  - unq Ha. destruct (requests l !! rq_id r); [by case_bool_decide; subst|unq Ha; done].
  - destruct (requests l !! _); [|done]. unq Ha.
    destruct (decisions l !! dc_request_id d); [by case_bool_decide; subst|done].
Qed.
Lemma mine_on_record l w body : Inv (disk w) → Mine l w → holds body l → on_record body (disk w).
Proof using All.
  intros Hi M Hh. unfold on_record. rewrite (layout_hist (disk w) l) by apply lay_settled, M.
  pose proof (chain_facts _ (se_chain _ _ (mi_settled _ _ M))) as F. apply list_elem_of_fmap.
  destruct body as [r|d]; cbn in Hh.
  - destruct (fa_request _ F _ _ Hh) as (_ & _ & e & He & Hb & _). eauto.
  - destruct (fa_decision _ F _ _ Hh) as [(e & He & Hb) _]. eauto.
Qed.

Lemma torn_later w w' l l2 e p q :
  owns t LedgerLock w → rely w w' → Torn (disk w) l l2 e p q → Torn (disk w') l l2 e p q.
Proof using.
  intros Ho Hr T. destruct T. split; try done; [by rewrite (same_content w w')|..];
    rewrite (same_files w w'); cbn; auto.
Qed.
Lemma whole_line e : whole e (line_of e).
Proof using. by left. Qed.

(** After its line is down, an append replaces head and anchor. *)
Lemma write_committed_head_safe w l l2 e :
  owns t LedgerLock w → Torn (disk w) l l2 e (line_of e) "" →
  ssafe (λ _ w', Mine l2 w') (write_committed_head (le_seq e) (le_digest e)) w.
Proof using All.
  intros Ho T. apply safe_replace; [apply _|]. intros w1 Hr. pose proof (owns_later _ _ _ Ho Hr) as Ho1.
  pose proof (torn_later _ _ _ _ _ _ _ Ho Hr T) as T1. pose proof (head_layout _ _ _ _ T1) as A.
  split_and!; [| |by apply ssafe_refuse].
  - apply guar_ledger; cbn; [done|by eexists; eapply lay_ahead| |by rewrite lookup_insert_ne].
    rewrite (hist_same (disk w1) (<[_:=_]> _)); [done|by rewrite lookup_insert_ne].
  - by apply (write_anchor_safe _ l l2 e).
Qed.

Lemma append_safe w l body now :
  Inv (disk w) → Mine l w → signed body →
  ssafe (λ r w', Mine r.2 w' ∧ holds body r.2) (append l body now) w.
Proof using All.
  intros Hi M Hs. apply ssafe_quiet; [apply quiet_admit_body|]. intros [e|] Ha.
  { apply oks_ret. intros w' Hr. split; [by eapply mine_later|by eapply admit_existing]. }
  set (e := next_entry l body now). apply safe_append; [apply _|]. intros w1 Hr.
  pose proof (mine_later _ _ _ M Hr) as [Ho1 S1]. pose proof (re_inv _ _ _ _ _ Hr) as Hi1.
  assert (Hmove : ∀ p q, line_of e = (p ++ q)%string →
    guar w1 (on_disk (appended Ledger p) w1)
    ∧ (q = "" → Torn (appended Ledger p (disk w1)) l (record e l) e p q)).
  { intros p q Hp. destruct (append_layout _ _ _ _ p q S1 Ha Hs Hp) as (l' & Hl' & Hpre & HT).
    split; [|done]. apply guar_ledger; [done|by exists l'| |by cbn; unfold appended; rewrite lookup_insert_ne].
    cbn. rewrite (layout_hist _ _ Hl'), (layout_hist _ l) by by apply lay_settled. done. }
  split_and!.
  - apply (Hmove _ ""). by rewrite append_nil_r.
  - assert (Torn (disk (on_disk (appended Ledger (line_of e)) w1)) l (record e l) e (line_of e) "") as T.
    { apply (Hmove _ ""); [|done]. by rewrite append_nil_r. }
    eapply ssafe_seq; [eexists; by eapply lay_whole, whole_line| |].
    + apply (write_committed_head_safe _ l (record e l) e); [exact Ho1|exact T].
    + intros u w2 Hi2 M2. apply oks_ret. intros w3 Hr3. split; [eapply mine_later; [exact M2|exact Hr3]|].
      apply (holds_record e l).
  - by apply ssafe_refuse.
  - intros p q Hp. split; [by apply (Hmove p q)|by apply ssafe_refuse].
Qed.
End Thread.
End Safe.
