(* ===== verification/ApprovalThms.v ===== *)
(** * The authority as a whole

    Every method, run among any others, keeps the disk a chain and answers
    only what is on record; so every reachable state of the system is one, and
    the theorems about the system follow. *)
From S2P Require Import Prelude Strings Bytes Effects ApprovalModel ApprovalStore ApprovalAuthority.
From S2P Require Import ApprovalSystem ApprovalChain ApprovalText ApprovalRuns ApprovalLogic ApprovalInv ApprovalSafe.
From stdpp Require Import sorting.
#[local] Open Scope string_scope.
#[local] Open Scope prog_scope.

Section Thms.
Context `{Crypto, Scanner, Encode RequestIdentity, Encode ApprovalRequest, Encode DecisionStatement}.
Context `{Encode EntryIdentity, Encode LedgerEntry, Decode LedgerEntry, !JsonLine LedgerEntry}.
Context `{Encode LedgerHead, Decode LedgerHead, Encode LedgerAnchor, Decode LedgerAnchor}.
Context `{Encode ClockAnchorRow, Decode ClockAnchorRow}.
Context `{!LawfulJson LedgerHead, !LawfulJson LedgerAnchor, !LawfulJson ClockAnchorRow}.
Context `{Encode OperatorRegistryFile, Decode OperatorRegistryFile, !LawfulCrypto}.

(** ** What an answer is worth
    A token stands for a request and its approval on record, and outlives the
    clock's mark [floor]. *)
Record backed (floor : N) (t : ApprovalToken) (d : Disk) : Prop := {
  ba_request : ∃ r dc, on_record (Requested r) d ∧ on_record (Decided dc) d ∧ rq_id r = tn_request_id t
    ∧ token_check t = request_check r ∧ tn_expires_at_ms t = rq_expires_at_ms r
    ∧ dc_outcome dc = Approved ∧ settles r dc;
  ba_floor : (floor <= tn_expires_at_ms t)%N
}.
Definition kept (floor : N) (a : Answer) (d : Disk) : Prop :=
  match a with
  | RRequest (Ok r) => on_record (Requested r) d
  | RDecision (Ok dc) => on_record (Decided dc) d
  | RToken (Ok t) | RMaybeToken (Ok (Some t)) => backed floor t d
  | RRequest (Err e) | RDecision (Err e) | RToken (Err e) | RMaybeToken (Err e) => refused e d
  | _ => True
  end.
Lemma kept_stable floor a d d' : evolves d d' → kept floor a d → kept floor a d'.
Proof using.
  intros He. assert (Hb : ∀ t, backed floor t d → backed floor t d').
  { intros t [(r & dc & ? & ? & ?) ?]. split; [|done]. exists r, dc.
    split_and!; try (by eapply on_record_stable); naive_solver. }
  destruct a as [[]|[]|[]| |[[]|]| | | | |]; cbn; eauto using on_record_stable, refused_stable.
Qed.

(** ** The cryptography of a decision *)
Lemma issue_signed r o p why now key d : decision_issue r o p why now key = Ok d → signed (Decided d).
Proof using All.
  unfold decision_issue, decision_sign. intros Hd. unq Hd. injection Hd as <-. cbn [signed].
  unfold decision_verify. rewrite Hm1. cbn [rbind with_signature dc_signature sg_public_key sg_signature].
  unfold public_key_hex. rewrite parse_hex_to_hex by (rewrite key_len; done). cbn [rbind].
  rewrite key_decodes. cbn [negb refuse rbind]. rewrite parse_hex_to_hex by (rewrite sign_len; done).
  cbn [rbind]. by rewrite sign_verifies.
Qed.
Lemma refused_step {A} b e0 (k : outcome A) e d :
  rbind (refuse b e0) (λ _, k) = Err e → (b = true → refused e0 d) → (k = Err e → refused e d) → refused e d.
Proof using. destruct b; cbn; [intros [= <-]|]; auto. Qed.
Lemma issue_refused r o p why now key e d :
  decision_issue r o p why now key = Err e →
  on_record (Requested r) d → (now <= clock d)%N → refused e d.
Proof using.
  intros He Hr Hnow. revert He. unfold decision_issue.
  do 3 (intros He; eapply (refused_step _ _ _ _ _ He); [done|clear He]).
  intros He; eapply (refused_step _ _ _ _ _ He); [|clear He].
  { intros Hlt%N.ltb_lt. split; [lia|]. by exists r. }
  eapply quiet_refused. unfold decision_sign, ensure_no_credential. solve_quiet; apply quiet_decision_validate.
Qed.

(** ** Evaluating a request *)
Lemma quiet_decision_verify trusted dc : quiet (decision_verify trusted dc).
Proof using. unfold decision_verify. solve_quiet; apply quiet_decision_validate || apply quiet_parse_hex. Qed.
Lemma quiet_verify_decision_with r dc trusted operators : quiet (verify_decision_with r dc trusted operators).
Proof using. unfold verify_decision_with. solve_quiet. Qed.
Lemma quiet_parse_registry raw : quiet (parse_registry raw).
Proof using. unfold parse_registry, operator_ok, principal_new, principal_validate. solve_quiet. Qed.

Lemma reads_load_registry : only_reads load_registry.
Proof using. split; [done|]. by intros []. Qed.
Lemma reads_trusted_key_ids : only_reads trusted_key_ids.
Proof using. by apply only_reads_sbind; [apply reads_load_registry|]. Qed.
Lemma reads_evaluate_with_trust r l now trusted operators :
  only_reads (evaluate_with_trust r l now trusted operators).
Proof using.
  unfold evaluate_with_trust. apply only_reads_sbind; [done|]. intros _. destruct (decisions l !! _); [|done].
  apply only_reads_sbind; [done|]. intros _. destruct (dc_outcome a); [|done].
  unfold from_verified. by destruct (_ || _).
Qed.
Lemma reads_evaluate r l now : only_reads (evaluate r l now).
Proof using.
  apply only_reads_sbind; [apply reads_trusted_key_ids|intros trusted].
  apply only_reads_sbind; [apply reads_load_registry|intros operators]. apply reads_evaluate_with_trust.
Qed.
Lemma reads_first_authorized rs l now trusted operators : only_reads (first_authorized rs l now trusted operators).
Proof using.
  induction rs as [|r rs IH]; [done|]. apply only_reads_pbind; [apply reads_evaluate_with_trust|].
  intros [t|[]]; done.
Qed.

Definition says_expired (r : ApprovalRequest) (now_ms : N) (e : ApprovalError) : Prop :=
  ∀ id at_ms, e = Expired id at_ms → id = rq_id r ∧ at_ms = rq_expires_at_ms r ∧ (rq_expires_at_ms r < now_ms)%N.
Lemma run_load_registry_err tr e : run load_registry tr (Err e) → ∀ id at_ms, e ≠ Expired id at_ms.
Proof using.
  intros (a & tr' & -> & Hr). destruct a as [|raw|]; destruct Hr as [_ Hr]; [done| |by injection Hr as ->].
  intros id at_ms ->. by destruct (quiet_parse_registry raw id at_ms).
Qed.
Lemma run_sbind_err {A B} (p : Svc A) (f : A → Svc B) tr e :
  run (sbind p f) tr (Err e) →
  (∃ tr1, run p tr1 (Err e)) ∨ ∃ tr1 tr2 a, tr = (tr1 ++ tr2)%list ∧ run p tr1 (Ok a) ∧ run (f a) tr2 (Err e).
Proof using.
  intros (tr1 & tr2 & [a|e'] & -> & Hp & Hf)%run_pbind; [right; eauto 10|left]. destruct Hf as [_ [= ->]]. eauto.
Qed.
Lemma run_evaluate_with_trust_err r l now trusted operators tr e :
  run (evaluate_with_trust r l now trusted operators) tr (Err e) → says_expired r now e.
Proof using.
  intros [(tr1 & [_ He])|(tr1 & tr2 & [] & -> & _ & Hr)]%run_sbind_err id at_ms ->.
  { destruct (N.ltb_spec (rq_expires_at_ms r) now); [|done]. by injection He as -> ->. }
  destruct (decisions l !! _) as [dc|]; [|by destruct Hr as [_ [=]]].
  apply run_sbind_err in Hr as [(tr3 & [_ He])|(tr3 & tr4 & [] & -> & _ & Hr)].
  { by destruct (quiet_verify_decision_with r dc trusted operators id at_ms). }
  destruct (dc_outcome dc); [|by destruct Hr as [_ [=]]]. unfold from_verified in Hr.
  destruct (_ || _); [by destruct Hr as [_ [=]]|]. by destruct Hr as (n & tr5 & -> & [_ [=]]).
Qed.
Lemma run_evaluate_err r l now tr e : run (evaluate r l now) tr (Err e) → says_expired r now e.
Proof using.
  intros [(tr1 & [(tr2 & He)|(tr2 & tr3 & ops & -> & _ & [_ [=]])]%run_sbind_err)|
          (tr1 & tr2 & trusted & -> & _ & Hr)]%run_sbind_err; [intros id at_ms ->; by destruct (run_load_registry_err _ _ He id at_ms)|].
  apply run_sbind_err in Hr as [(tr3 & He)|(tr3 & tr4 & ops & -> & _ & Hr)];
    [intros id at_ms ->; by destruct (run_load_registry_err _ _ He id at_ms)|by eapply run_evaluate_with_trust_err].
Qed.
Lemma run_first_authorized_err rs l now trusted operators tr e :
  run (first_authorized rs l now trusted operators) tr (Err e) → ∀ id at_ms, e ≠ Expired id at_ms.
Proof using.
  revert tr. induction rs as [|r rs IH]; intros tr; [by intros [_ [=]]|].
  intros (tr1 & tr2 & [t|e'] & -> & _ & Hr)%run_pbind; [by destruct Hr as [_ [=]]|].
  destruct e'; (by eapply IH) || (destruct Hr as [_ [= ->]]; done).
Qed.

(** ** The methods *)
Section Thread.
Variable t : nat.
Notation ssafe Q p w := (ApprovalLogic.safe Inv evolves t (oks refused Q) p w).
Notation rely := (rely Inv evolves t).

Lemma ssafe_seq_frame {A B} (P : Disk → Prop) Q Q' (p : Svc A) (f : A → Svc B) w :
  (∀ d d', evolves d d' → P d → P d') → Inv (disk w) → P (disk w) → ssafe Q p w →
  (∀ a w', Inv (disk w') → Q a w' → P (disk w') → ssafe Q' (f a) w') → ssafe Q' (sbind p f) w.
Proof using All.
  intros HP Hi Hw Hp Hf. apply (ssafe_seq t (λ a w', Q a w' ∧ P (disk w'))); [done| |naive_solver].
  eapply safe_weaken; [|by apply (safe_frame _ _ _ P _ _ _ HP Hw Hp)].
  intros [a|e] w' [HQ HPw]; cbn in *; done.
Qed.
Lemma clock_stable n d d' : evolves d d' → (n <= clock d)%N → (n <= clock d')%N.
Proof using All. intros He ?. pose proof (ev_clock _ _ He). lia. Qed.

Lemma quiet_err e d : (∀ id at_ms, e ≠ Expired id at_ms) → refused e d.
Proof using. intros He. destruct e; try done. by destruct (He request_id expired_at_ms). Qed.
Lemma knows_request l d id r :
  knows l d → requests l !! id = Some r → on_record (Requested r) d ∧ rq_id r = id.
Proof using All.
  intros [Hc [es Hes]] Hr. destruct (fa_request _ (chain_facts _ Hc) _ _ Hr) as (Hid & _ & e & He & Hb & _).
  split; [|done]. unfold on_record. rewrite Hes. apply list_elem_of_fmap. exists e. split; [done|]. set_solver.
Qed.
Lemma knows_decision l d id dc : knows l d → decisions l !! id = Some dc → on_record (Decided dc) d.
Proof using All.
  intros [Hc [es Hes]] Hd. destruct (fa_decision _ (chain_facts _ Hc) _ _ Hd) as [(e & He & Hb) _].
  unfold on_record. rewrite Hes. apply list_elem_of_fmap. exists e. split; [done|]. set_solver.
Qed.
Lemma approval_backed l operators now floor tok r dc d :
  knows l d → approval l operators now tok r dc → (floor <= now)%N → backed floor tok d.
Proof using All.
  intros Hk A Hf. destruct (knows_request _ _ _ _ Hk (ap_request _ _ _ _ _ _ A)) as [Hr Hid].
  split; [|rewrite (ap_expiry _ _ _ _ _ _ A); pose proof (ap_current _ _ _ _ _ _ A); lia].
  exists r, dc. split_and!; try apply A; [done| |done]. eapply knows_decision, A. done.
Qed.

Lemma propose_safe draft now w :
  Inv (disk w) → ssafe (λ r w', on_record (Requested r) (disk w')) (propose draft now) w.
Proof using All.
  intros Hi. eapply ssafe_seq; [done|by apply (effective_now_safe t now 0); [|lia]|]. intros eff w1 Hi1 _.
  apply ssafe_quiet; [unfold request_propose, ensure_no_credential; solve_quiet; apply quiet_request_validate|].
  intros r _. eapply ssafe_seq; [done|by apply begin_safe|]. intros l w2 Hi2 M.
  destruct (requests l !! rq_id r) as [existing|] eqn:Hr.
  - case_bool_decide as He; [|by apply ssafe_refuse]. subst existing. apply oks_ret. intros w3 Hr3.
    eapply on_record_stable; [apply Hr3|]. by eapply mine_on_record.
  - eapply ssafe_seq; [done|by apply (append_safe t w2 l (Requested r) eff)|]. intros [e l'] w3 Hi3 [M3 Hh].
    apply oks_ret. intros w4 Hr4. eapply on_record_stable; [apply Hr4|]. by eapply mine_on_record.
Qed.

Lemma decide_safe id p key o why now w :
  Inv (disk w) → ssafe (λ dc w', on_record (Decided dc) (disk w')) (decide_request id p key o why now) w.
Proof using All.
  intros Hi. apply ssafe_quiet; [unfold principal_validate; solve_quiet|]. intros _ _.
  eapply ssafe_seq; [done|by apply (effective_now_safe t now 0); [|lia]|]. intros eff w1 Hi1 (_ & _ & Heff).
  apply ssafe_quiet; [solve_quiet|]. intros _ _.
  eapply (ssafe_seq_frame (λ d, eff <= clock d)%N); [apply clock_stable|done|done|by apply begin_safe|].
  clear w1 Hi1 Heff. intros l w2 Hi2 M Heff. destruct (requests l !! id) as [r|] eqn:Hr; [|by apply ssafe_refuse].
  pose proof (fa_request _ (chain_facts _ (se_chain _ _ (mi_settled _ _ _ M))) _ _ Hr) as (Hid & _).
  assert (on_record (Requested r) (disk w2)) as Hrec.
  { eapply mine_on_record; [done..|]. cbn. by rewrite Hid. }
  apply ssafe_quiet; [solve_quiet|]. intros _ _.
  eapply (ssafe_seq t (λ _ w', rely w2 w')); [done| |].
  { apply only_reads_ssafe; [done|apply only_reads_sbind; [apply reads_load_registry|intros ops; by case_bool_decide]|done|].
    intros e w' tr _ He. apply run_sbind_err in He as [(tr1 & He)|(tr1 & tr2 & ops & -> & _ & He)].
    - destruct e; try done. by destruct (run_load_registry_err _ _ He request_id expired_at_ms).
    - case_bool_decide; destruct He as [_ He]; by simplify_eq. }
  intros u w3 Hi3 Hr3. pose proof (mine_later _ _ _ _ M Hr3) as M3.
  assert (on_record (Requested r) (disk w3)) as Hrec3 by (eapply on_record_stable, Hrec; apply Hr3).
  assert (eff <= clock (disk w3))%N as Heff3 by (eapply clock_stable, Heff; apply Hr3).
  destruct (decisions l !! id) as [dc|] eqn:Hd.
  { case_match; [|by apply ssafe_refuse]. apply oks_ret. intros w4 Hr4.
    eapply on_record_stable; [apply Hr4|]. eapply mine_on_record; [done..|]. cbn.
    destruct (fa_decision _ (chain_facts _ (se_chain _ _ (mi_settled _ _ _ M))) _ _ Hd) as [_ (r' & Hr' & Hs)].
    rewrite Hr in Hr'. injection Hr' as <-. by rewrite (st_request _ _ Hs), Hid. }
  apply oks_lift; [apply refused_stable| |].
  - intros _ _. apply oks_lift; [apply refused_stable| |].
    + intros dc Hdc. apply issue_signed in Hdc.
      eapply ssafe_seq; [done|by apply (append_safe t w3 l (Decided dc) eff)|]. intros [e l'] w4 Hi4 [M4 Hh].
      apply oks_ret. intros w5 Hr5. eapply on_record_stable; [apply Hr5|]. by eapply mine_on_record.
    + intros e He. by eapply issue_refused.
  - intros e. destruct (N.ltb_spec (rq_expires_at_ms r) eff); [|done]. intros [= <-].
    split; [lia|]. by exists r.
Qed.

(** Time, then the ledger: what every reader of tokens starts with. *)
Lemma clocked_load_safe {A} (Q : A → World → Prop) now floor (f : N → ApprovalLedger → Svc A) w :
  Inv (disk w) → (floor <= clock (disk w))%N →
  (∀ eff l w', Inv (disk w') → (floor <= eff)%N → (eff <= clock (disk w'))%N → knows l (disk w') →
    ssafe Q (f eff l) w') →
  ssafe Q (now_ms <- effective_now now; ledger <- load; f now_ms ledger) w.
Proof using All.
  intros Hi Hfl Hf. eapply ssafe_seq; [done|by apply (effective_now_safe t now floor)|].
  intros eff w1 Hi1 (Hle & _ & Heff).
  eapply (ssafe_seq_frame (λ d, eff <= clock d)%N); [apply clock_stable|done|done|by apply load_safe|].
  intros l w2 Hi2 Hk Heff2. by apply Hf.
Qed.
Lemma says_expired_refused r now e d :
  says_expired r now e → on_record (Requested r) d → (now <= clock d)%N → refused e d.
Proof using.
  intros He Hr Hn. destruct e; try done. destruct (He _ _ eq_refl) as (-> & -> & Hlt).
  split; [lia|]. by exists r.
Qed.
Lemma evaluate_safe r l eff floor w :
  Inv (disk w) → knows l (disk w) → requests l !! rq_id r = Some r →
  (floor <= eff)%N → (eff <= clock (disk w))%N →
  ssafe (λ tok w', backed floor tok (disk w')) (evaluate r l eff) w.
Proof using All.
  intros Hi Hk Hr Hfl Heff. apply only_reads_ssafe; [done|apply reads_evaluate|..].
  - intros tok w' tr Hre (ops & d & _ & A)%run_evaluate; [|done].
    eapply approval_backed; [by eapply knows_later|exact A|done].
  - intros e w' tr Hre He%run_evaluate_err. eapply says_expired_refused; [done| |].
    + eapply (knows_request l); [by eapply knows_later|done].
    + eapply clock_stable, Heff. apply Hre.
Qed.

Lemma authorize_safe check now floor w :
  Inv (disk w) → (floor <= clock (disk w))%N →
  ssafe (λ tok w', backed floor tok (disk w')) (authorize check now) w.
Proof using All.
  intros Hi Hfl. apply (clocked_load_safe _ _ floor); [done..|]. intros eff l w1 Hi1 Hle Heff Hk.
  destruct (merge_sort _ _) as [|r rs] eqn:E; [destruct (max_by_key _ _); by apply ssafe_refuse|].
  apply newest_In, Forall_cons in E as [[_ [k Hr]] _].
  destruct (knows_request _ _ _ _ Hk Hr) as [_ Hid]. subst k. by apply evaluate_safe.
Qed.
Lemma authorize_request_safe id check now floor w :
  Inv (disk w) → (floor <= clock (disk w))%N →
  ssafe (λ tok w', backed floor tok (disk w')) (authorize_request id check now) w.
Proof using All.
  intros Hi Hfl. apply (clocked_load_safe _ _ floor); [done..|]. intros eff l w1 Hi1 Hle Heff Hk.
  destruct (requests l !! id) as [r|] eqn:Hr; [|by apply ssafe_refuse].
  destruct (negb _); [by apply ssafe_refuse|].
  destruct (knows_request _ _ _ _ Hk Hr) as [_ Hid]. subst id. by apply evaluate_safe.
Qed.
Lemma latest_authorized_safe kind subject now floor w :
  Inv (disk w) → (floor <= clock (disk w))%N →
  ssafe (λ o w', match o with Some tok => backed floor tok (disk w') | None => True end)
    (latest_authorized kind subject now) w.
Proof using All.
  intros Hi Hfl. apply (clocked_load_safe _ _ floor); [done..|]. intros eff l w1 Hi1 Hle Heff Hk.
  assert (keyed l) as Hkey by (intros k r Hr; by apply (knows_request _ _ _ _ Hk Hr)).
  apply only_reads_ssafe; [done| | |].
  - apply only_reads_sbind; [apply reads_trusted_key_ids|intros trusted].
    apply only_reads_sbind; [apply reads_load_registry|intros ops; apply reads_first_authorized].
  - intros [tok|] w' tr Hre Hr; [|done].
    apply run_sbind in Hr as (tr1 & tr2 & trusted & -> & _ & Hr).
    apply run_sbind in Hr as (tr3 & tr4 & ops & -> & _ & Hr).
    apply run_first_authorized in Hr as (r & d & _ & A);
      [|apply Forall_forall; intros r; by apply of_subject_keyed].
    eapply approval_backed; [by eapply knows_later|exact A|done].
  - intros e w' tr Hre Hr. apply quiet_err.
    apply run_sbind_err in Hr as [(tr1 & Hr)|(tr1 & tr2 & trusted & -> & _ & Hr)].
    { apply run_sbind_err in Hr as [(tr2 & Hr)|(tr2 & tr3 & ops & -> & _ & [_ [=]])].
      by eapply run_load_registry_err. }
    apply run_sbind_err in Hr as [(tr3 & Hr)|(tr3 & tr4 & ops & -> & _ & Hr)];
      [by eapply run_load_registry_err|by eapply run_first_authorized_err].
Qed.

(** ** Methods that only have to do no harm *)
Notation harmless p w := (ApprovalLogic.safe Inv evolves t (λ _ _, True) p w).
Lemma harmless_seq {A B} (p : Svc A) (f : A → Svc B) w :
  Inv (disk w) → harmless p w → (∀ a w', Inv (disk w') → harmless (f a) w') → harmless (sbind p f) w.
Proof using All. intros Hi Hp Hf. eapply safe_pbind; [apply _|done|exact Hp|]. intros [a|e] w' Hi' _; [by apply Hf|done]. Qed.
Lemma harmless_reads {A} (p : Prog A) w : Inv (disk w) → only_reads p → harmless p w.
Proof using All. intros Hi Hp. eapply safe_weaken; [|by apply only_reads_safe]. done. Qed.
Lemma harmless_load w : Inv (disk w) → harmless load w.
Proof using All. intros Hi. eapply safe_weaken; [|by apply load_safe]. done. Qed.
Lemma reads_verify_decision r d : only_reads (verify_decision r d).
Proof using.
  apply only_reads_sbind; [apply reads_trusted_key_ids|intros trusted].
  by apply only_reads_sbind; [apply reads_load_registry|].
Qed.
Lemma harmless_view id w : Inv (disk w) → harmless (view id) w.
Proof using All.
  intros Hi. apply harmless_seq; [done|by apply harmless_load|]. intros l w1 Hi1. apply harmless_reads; [done|].
  destruct (requests l !! id); [|done]. apply only_reads_sbind; [|done].
  destruct (decisions l !! id); [apply reads_verify_decision|done].
Qed.
Lemma harmless_status id w : Inv (disk w) → harmless (status id) w.
Proof using All.
  intros Hi. apply harmless_seq; [done|by apply harmless_view|]. intros v w1 Hi1.
  apply safe_wall; [apply _|]. intros wall w2 Hr. assert (Inv (disk w2)) as Hi2 by apply Hr.
  apply harmless_seq; [done| |done].
  eapply safe_weaken; [|by apply (effective_now_safe t wall 0); [|lia]]. done.
Qed.
Lemma harmless_list w : Inv (disk w) → harmless list_all w.
Proof using All.
  intros Hi. apply harmless_seq; [done|by apply harmless_load|]. intros l w1 Hi1. apply harmless_reads; [done|].
  apply only_reads_sbind; [apply reads_trusted_key_ids|intros trusted].
  apply only_reads_sbind; [apply reads_load_registry|intros ops].
  by apply only_reads_sbind.
Qed.
Lemma guar_registry w s : Inv (disk w) → guar Inv evolves t w (on_disk <[Registry := s]> w).
Proof using All.
  intros [l Hl]. assert (Hsame : ∀ f, f ≠ Registry → disk (on_disk <[Registry := s]> w) !! f = disk w !! f)
    by (intros f Hf; cbn; by rewrite lookup_insert_ne). split.
  - split; [rewrite (hist_same (disk w) (disk (on_disk _ w))); [done|by apply Hsame]|].
    unfold clock. by rewrite Hsame.
  - exists l. eapply layout_same, Hl. intros f Hf. apply Hsame. intros ->. by destruct Hf as [|[|]].
  - intros l0 f _ Hf. apply Hsame. intros ->. destruct l0; [by destruct Hf as [|[|]]|done].
Qed.
Lemma harmless_register id key now w : Inv (disk w) → harmless (register_operator_key id key now) w.
Proof using All.
  intros Hi. do 3 (apply harmless_seq; [done|done|clear w Hi; intros ? w Hi]).
  apply harmless_seq; [done|apply harmless_reads; [done|apply reads_load_registry]|]. clear w Hi. intros ops w Hi.
  cbv zeta. case_match; [by repeat case_match|]. case_bool_decide; [done|].
  apply safe_replace; [apply _|]. intros w1 Hr. split_and!; [|done|done]. apply guar_registry, Hr.
Qed.

(** Every method, for every answer. *)
Lemma then_answer_safe {A} (Q : A → World → Prop) (p : Svc A) (f : outcome A → Answer) floor w :
  Inv (disk w) → ssafe Q p w →
  (∀ a w', Q a w' → kept floor (f (Ok a)) (disk w')) →
  (∀ e w', refused e (disk w') → kept floor (f (Err e)) (disk w')) →
  safe Inv evolves t (λ a w', kept floor a (disk w')) (then_answer p f) w.
Proof using All.
  intros Hi Hp Hq He. eapply safe_pbind; [apply _|done|exact Hp|]. intros r w1 Hi1 HQ w2 Hr.
  eapply kept_stable; [apply Hr|]. destruct r; [by apply Hq|by apply He].
Qed.
Lemma harmless_answer {A} (p : Svc A) (f : outcome A → Answer) floor w :
  Inv (disk w) → harmless p w → (∀ r d, kept floor (f r) d) →
  safe Inv evolves t (λ a w', kept floor a (disk w')) (then_answer p f) w.
Proof using All. intros Hi Hp Hf. eapply safe_pbind; [apply _|done|exact Hp|]. intros r w1 Hi1 _ w2 Hr. apply Hf. Qed.
Lemma method_safe floor m w :
  Inv (disk w) → (floor <= clock (disk w))%N →
  safe Inv evolves t (λ a w', kept floor a (disk w')) (run_method m) w.
Proof using All.
  intros Hi Hfl. destruct m; cbn [run_method].
  - eapply then_answer_safe; [done|by apply propose_safe|done|done].
  - eapply then_answer_safe; [done|by apply decide_safe|done|done].
  - eapply then_answer_safe; [done|by apply (authorize_safe _ _ floor)|done|done].
  - eapply then_answer_safe; [done|by apply (authorize_request_safe _ _ _ floor)|done|done].
  - apply harmless_answer; [done| |by intros []].
    apply harmless_seq; [done|by apply harmless_load|done].
  - eapply then_answer_safe; [done|by apply (latest_authorized_safe _ _ _ floor)|by intros []|done].
  - apply harmless_answer; [done|by apply harmless_view|by intros []].
  - apply harmless_answer; [done|by apply harmless_status|by intros []].
  - apply harmless_answer; [done|by apply harmless_list|by intros []].
  - apply harmless_answer; [done| |by intros []].
    apply harmless_seq; [done|by apply harmless_load|done].
  - apply harmless_answer; [done|by apply harmless_register|by intros []].
Qed.
End Thread.

(** ** Every reachable state *)
Definition marked (floor : N) (d : Disk) : Prop := (floor <= clock d)%N.
Notation ok := (sys_ok Inv evolves).

Lemma initial_ok : ok (marked 0) (kept 0) 0 initial.
Proof using All.
  split; cbn; [|by unfold marked; lia|done|done|by intros t a ?%elem_of_nil].
  exists empty_ledger. apply lay_settled. split; [constructor|done..].
Qed.
Lemma run_ok floor n0 s s' :
  ok (marked floor) (kept floor) n0 s → rtc step s s' →
  ok (marked floor) (kept floor) n0 s' ∧ evolves (disk (world s)) (disk (world s')).
Proof using All.
  apply steps_ok; [apply _|..].
  - intros d d' He ?. unfold marked in *. pose proof (ev_clock _ _ He). lia.
  - intros a d d'. apply kept_stable.
  - intros t m w Hi Hm _. by apply method_safe.
Qed.
Lemma reachable_ok s : reachable s → ok (marked 0) (kept 0) 0 s.
Proof using All. intros Hs. by apply (run_ok 0 0 initial s initial_ok Hs). Qed.
Lemma reachable_chain s : reachable s → ∃ l, Chain l ∧ entries l = hist (disk (world s)).
Proof using All.
  intros Hs%reachable_ok. destruct (so_inv _ _ _ _ _ _ Hs) as [l Hl]. exists l.
  split; [by eapply layout_chain|]. symmetry. by apply layout_hist.
Qed.

(** C12: in every state any number of processes can reach, however they
    interleave, fail and die, the ledger file stands for a chain of admitted
    entries: every request is recorded once and valid, is decided at most
    once, and a decision follows the request it settles - taken by a human
    operator other than the requester, within the request's lifetime, signed
    over the digest of exactly that request.  From the last recorded time on
    at most [MAX_OPEN_APPROVALS] requests are open. *)
Theorem approvals_form_a_chain s :
  reachable s →
  ∃ l, Chain l ∧ entries l = hist (disk (world s)) ∧ NoDup (slot ∘ le_body <$> entries l)
  ∧ (∀ e r, e ∈ entries l → le_body e = Requested r → request_validate r = Ok tt)
  ∧ (∀ j e dc, entries l !! j = Some e → le_body e = Decided dc →
      ∃ i e' r, i < j ∧ entries l !! i = Some e' ∧ le_body e' = Requested r ∧ settles r dc)
  ∧ ∀ now_ms, Forall (λ e, le_recorded_at_ms e <= now_ms)%N (entries l) →
      (open_count l now_ms <= MAX_OPEN_APPROVALS)%N.
Proof using All.
  intros Hs. destruct (reachable_chain s Hs) as (l & Hc & He). pose proof (chain_facts _ Hc) as F.
  exists l. split_and!; [done..|apply F| | |intros now; by apply chain_open_bounded].
  - intros e r Hin Hb. by eapply (fa_request _ F), (fa_requested _ F).
  - intros j e dc Hj Hb. destruct (decided_after_requested _ _ _ _ Hc Hj Hb) as (i & e' & r & ? & ? & ? & ? & ?). eauto 10.
Qed.

(** the record only grows, and what a method answered stays backed by it:
    a request or decision that was returned is on record ever after, and a
    token stands for a recorded request with its recorded approval. *)
Theorem answers_are_durable s s' t a :
  reachable s → rtc step s s' → (t, a) ∈ returned s →
  hist (disk (world s)) `prefix_of` hist (disk (world s')) ∧ kept 0 a (disk (world s')).
Proof using All.
  intros Hs%reachable_ok Hst Hin. destruct (run_ok _ _ _ _ Hs Hst) as [_ He].
  split; [apply He|]. eapply kept_stable; [exact He|]. apply (so_returned _ _ _ _ _ _ Hs _ _ Hin). lia.
Qed.

Definition expired_of (a : Answer) : option string :=
  match a with RDecision (Err (Expired id _)) | RToken (Err (Expired id _)) => Some id | _ => None end.
Lemma expired_kept floor a d id : expired_of a = Some id → kept floor a d → ∃ at_ms, expired id at_ms d.
Proof using. destruct a as [|[|[]]|[|[]]| | | | | | |]; cbn; try done; intros [= <-]; eauto. Qed.
Lemma token_kept floor a d tok : token_of a = Some tok → kept floor a d → backed floor tok d.
Proof using. destruct a as [| |[]| |[[]|]| | | | |]; cbn; try done; by intros [= ->]. Qed.
Lemma on_record_once s r r' :
  reachable s → on_record (Requested r) (disk (world s)) → on_record (Requested r') (disk (world s)) →
  rq_id r = rq_id r' → r = r'.
Proof using All.
  intros Hs. destruct (reachable_chain s Hs) as (l & Hc & He). unfold on_record. rewrite <- He.
  intros (e & Hb & Hin)%list_elem_of_fmap (e' & Hb' & Hin')%list_elem_of_fmap Hid.
  pose proof (fa_requested _ (chain_facts _ Hc) _ _ Hin (eq_sym Hb)) as Hr.
  pose proof (fa_requested _ (chain_facts _ Hc) _ _ Hin' (eq_sym Hb')) as Hr'. congruence.
Qed.

(** C14: expiry is final.  Once any method answered that a request expired, no
    method called afterwards ever returns a token for it, whatever times the
    callers pass and whatever the wall clock shows. *)
Theorem expiry_is_final s s' t0 a0 id t1 a1 tok :
  reachable s → (t0, a0) ∈ returned s → expired_of a0 = Some id →
  rtc step s s' → (t1, a1) ∈ returned s' → next_thread s <= t1 → token_of a1 = Some tok →
  tn_request_id tok ≠ id.
Proof using All.
  intros Hs Hin0 He Hst Hin1 Hlt Htok Hid. pose proof (reachable_ok s Hs) as S.
  pose proof (so_returned _ _ _ _ _ _ S _ _ Hin0) as [_ Hk0].
  destruct (expired_kept _ _ _ _ He (Hk0 (Nat.le_0_l _))) as (at_ms & Hat & r & Hr & Hrid & Hexp).
  set (floor := clock (disk (world s))) in *.
  assert (ok (marked floor) (kept floor) (next_thread s) s) as S1.
  { eapply sys_ok_since; [exact S|]. unfold marked. done. }
  destruct (run_ok _ _ _ _ S1 Hst) as [S2 Hev].
  pose proof (so_returned _ _ _ _ _ _ S2 _ _ Hin1) as [_ Hk1].
  destruct (token_kept _ _ _ _ Htok (Hk1 Hlt)) as [(r' & dc & Hr' & _ & Hrid' & _ & Hexp' & _) Hfl].
  assert (r = r') as <-; [|lia].
  apply (on_record_once s'); [by apply (transitivity (R:=rtc step) Hs)|by eapply on_record_stable|done|congruence].
Qed.
End Thms.
