(* ===== verification/ApprovalJam.v ===== *)
(** * A ledger stuck half-way

    [begin] repairs one interruption only: the head was replaced, the anchor
    was not, and there was an anchor before.  After any other - a line cut
    short, a line whose head was never written, the very first entry without
    its anchor - no method ever reads the ledger again and none writes it: the
    three files stay as they are and every answer is an error. *)
From S2P Require Import Prelude Strings Bytes Effects ApprovalModel ApprovalStore ApprovalAuthority.
From S2P Require Import ApprovalSystem ApprovalChain ApprovalText ApprovalLogic ApprovalInv ApprovalSafe ApprovalThms.
#[local] Open Scope string_scope.
#[local] Open Scope prog_scope.

Section Jam.
Context `{Crypto, Scanner, Encode RequestIdentity, Encode ApprovalRequest, Encode DecisionStatement}.
Context `{Encode EntryIdentity, Encode LedgerEntry, Decode LedgerEntry, !JsonLine LedgerEntry}.
Context `{Encode LedgerHead, Decode LedgerHead, Encode LedgerAnchor, Decode LedgerAnchor}.
Context `{Encode ClockAnchorRow, Decode ClockAnchorRow}.
Context `{!LawfulJson LedgerHead, !LawfulJson LedgerAnchor, !LawfulJson ClockAnchorRow}.
Context `{Encode OperatorRegistryFile, Decode OperatorRegistryFile, !LawfulCrypto}.

(** ** Disks no load accepts *)
Definition head_speaks_for (d : Disk) (l : ApprovalLedger) : bool :=
  match last (entries l), d !! Head with Some e, Some raw => head_matches e raw | _, _ => false end.
Record Jammed (d : Disk) : Prop := {
  ja_there : is_Some (d !! Ledger);
  ja_anchor l : parse_ledger (content d Ledger) = Ok l →
    match d !! Anchor with
    | None => entries l ≠ []
    | Some raw => ∀ b, anchor_verdict l raw = Ok b → b = true ∧ head_speaks_for d l = false
    end
}.
(** The interruptions that are not repaired. *)
Inductive Interrupted (d : Disk) : Prop :=
  | int_line l l2 e p q : Torn d l l2 e p q → Interrupted d
  | int_first l l2 e : Ahead d l l2 e → entries l = [] → Interrupted d.

Lemma row_speaks_not l l2 e :
  entries l2 = (entries l ++ [e])%list → Chain l2 → head_matches e (to_vec (head_row l)) = false.
Proof using All.
  intros He Hc. unfold head_matches. rewrite from_to.
  assert (last (entries l2) = Some e) as Hl by (rewrite He; apply last_snoc).
  destruct (chain_last _ _ Hc Hl) as (Hrow & _). apply (f_equal lh_seq) in Hrow. cbn in Hrow.
  rewrite He, length_app in Hrow. cbn in Hrow. unfold head_row. cbn [lh_seq lh_schema lh_digest].
  assert (N.of_nat (List.length (entries l)) =? le_seq e = false)%N as -> by (apply N.eqb_neq; lia).
  by destruct (_ <=? _)%N, (bool_decide (LEDGER_HEAD_SCHEMA = _)).
Qed.
Lemma torn_jams d l l2 e p q : Torn d l l2 e p q → Jammed d.
Proof using All.
  intros T. split.
  { destruct (d !! Ledger) eqn:E; [done|]. pose proof (to_ledger _ _ _ _ _ _ T) as Hc.
    unfold content in Hc. rewrite E in Hc. cbn in Hc. destruct (text (entries l)); [|done].
    by destruct (to_some _ _ _ _ _ _ T). }
  intros l' Hp. destruct (torn_cases _ _ _ (to_line _ _ _ _ _ _ T)) as [Hw|[Hw|(w & Hw & He)]];
    [| |exfalso; eapply parse_not_cut; [exact T|exact Hw|exact He|exact Hp]].
  all: assert (l' = l2) as -> by (eapply parse_layout, Hp; eapply lay_whole; [done|unfold whole; auto]).
  all: rewrite (to_anchor _ _ _ _ _ _ T); pose proof (to_entries _ _ _ _ _ _ T) as He2.
  all: destruct (anchor_of l) as [raw|] eqn:Ea; [|by rewrite He2; destruct (entries l)].
  all: intros b Hb; split; [by eapply anchor_behind|].
  all: unfold head_speaks_for; rewrite He2, last_snoc, (to_head _ _ _ _ _ _ T); unfold head_of.
  all: destruct (entries l); [done|]; apply (row_speaks_not l l2 e); apply T.
Qed.
Lemma interrupted_jams d : Interrupted d → Jammed d.
Proof using All.
  intros [l l2 e p q T|l l2 e A Hl]; [by eapply torn_jams|].
  pose proof (ah_entries _ _ _ _ A) as He. rewrite Hl in He. cbn in He.
  assert (content d Ledger ≠ "") as Hne.
  { rewrite (ah_ledger _ _ _ _ A), He, <- (append_nil_r (text _)), text_cons.
    pose proof (to_vec_nonempty e). by destruct (to_vec e). }
  split.
  - unfold content in Hne. by destruct (d !! Ledger).
  - intros l' Hp. assert (l' = l2) as -> by (eapply parse_layout, Hp; by eapply lay_ahead).
    rewrite (ah_anchor _ _ _ _ A). unfold anchor_of. rewrite Hl, He. done.
Qed.

(** ** Methods on a jammed disk *)
Variable d0 : Disk.
Hypothesis jammed : Jammed d0.
Definition stuck (d : Disk) : Prop := ∀ f, protects LedgerLock f → d !! f = d0 !! f.
Definition whatever (_ _ : Disk) : Prop := True.
#[local] Instance whatever_preorder : PreOrder whatever.
Proof using. by split. Qed.

Lemma stuck_content d : stuck d → content d Ledger = content d0 Ledger.
Proof using. intros Hs. unfold content. by rewrite Hs by (cbn; auto). Qed.

Section Thread.
Variable t : nat.
Notation stops Q p w := (ssafe stuck whatever (λ _ _, True) t Q p w).
Notation fails p w := (stops (λ _ _, False) p w).
Notation rely := (rely stuck whatever t).
Notation guar := (guar stuck whatever t).

Lemma stops_fail {A} (Q : A → World → Prop) e w : stops Q (sfail e) w.
Proof using. by apply oks_fail. Qed.
Lemma stops_bind {A B} Q Q' (p : Svc A) (f : A → Svc B) w :
  stuck (disk w) → stops Q p w → (∀ a w', stuck (disk w') → Q a w' → stops Q' (f a) w') → stops Q' (sbind p f) w.
Proof using. by apply oks_bind; [apply _|]. Qed.
Lemma stops_lift {A B} Q (r : outcome A) (f : A → Svc B) w :
  (∀ a, r = Ok a → stops Q (f a) w) → stops Q (sbind (lift r) f) w.
Proof using. intros Hf. by apply oks_lift. Qed.
(** A step that fails ends the method. *)
Lemma fails_first {A B} Q (p : Svc A) (f : A → Svc B) w :
  stuck (disk w) → fails p w → stops Q (sbind p f) w.
Proof using. intros Hs Hp. by eapply stops_bind. Qed.
Lemma fails_after {A B} Q (p : Svc A) (f : A → Svc B) w :
  stuck (disk w) → stops (λ _ _, True) p w → (∀ a w', stuck (disk w') → stops Q (f a) w') → stops Q (sbind p f) w.
Proof using. intros Hs Hp Hf. eapply stops_bind; [done..|]. intros a w' Hs' _. by apply Hf. Qed.

(** Files that are not the ledger's may change. *)
Lemma guar_elsewhere w f s :
  stuck (disk w) → ¬ protects LedgerLock f → (∀ l, protects l f → owns t l w) →
  guar w (on_disk <[f := s]> w).
Proof using.
  intros Hs Hf Ho. split; [done| |].
  - intros g Hg. cbn. rewrite lookup_insert_ne; [by apply Hs|]. by intros <-.
  - intros l g Hn Hg. cbn. rewrite lookup_insert_ne; [done|]. intros <-. by destruct Hn; apply Ho.
Qed.
Lemma replace_elsewhere f s w :
  stuck (disk w) → ¬ protects LedgerLock f → (∀ l, protects l f → owns t l w) →
  stops (λ _ _, True) (replace f s) w.
Proof using.
  intros Hs Hf Ho. apply safe_replace; [apply _|]. intros w1 Hr. split_and!; [|by apply oks_ret|by apply stops_fail].
  apply guar_elsewhere; [apply Hr|done|]. intros l Hl. by apply (re_owns _ _ _ _ _ Hr), Ho.
Qed.

Lemma observe_locked_stops n w :
  stuck (disk w) → owns t ClockLock w → stops (λ _ _, True) (observe_locked n) w.
Proof using.
  intros Hs Ho. assert (Hrest : ∀ (r : outcome N) w1, rely w w1 → stops (λ _ _, True)
    (p <- lift r; if (p <? N.max n p)%N
      then replace ClockAnchor (to_vec (MkClock CLOCK_ANCHOR_SCHEMA (N.max n p))) ;; sret (N.max n p)
      else sret (N.max n p)) w1).
  { intros r w1 Hr. apply stops_lift. intros p _. destruct (_ <? _)%N; [|by apply oks_ret].
    apply fails_after; [apply Hr| |by intros; apply oks_ret]. apply replace_elsewhere; [apply Hr|by intros [|[|]]|].
    intros [] Hl; [by destruct Hl as [|[|]]|]. by apply (re_owns _ _ _ _ _ Hr). }
  apply safe_read; [apply _|]. intros w1 Hr. split_and!; intros; by apply Hrest.
Qed.
Lemma effective_now_stops n w : stuck (disk w) → stops (λ _ _, True) (effective_now n) w.
Proof using.
  intros Hs. apply safe_acquire; [apply _| |].
  - intros w1 w2 Hr Hn ->. cbn [sbind pbind sret]. assert (stuck (disk w1)) as Hs1 by apply Hr.
    eapply safe_pbind; [apply _|done|apply observe_locked_stops; [done|]|].
    + unfold owns. cbn. by rewrite lookup_insert_eq.
    + intros r w3 Hi3 _. apply safe_release; [apply _|]. intros w4 Hr4 w5 Hr5. by destruct r.
  - intros w1 a Hr Ha. destruct a; [done|..]; apply stops_fail.
Qed.

(** ** No load succeeds *)
Lemma local_head_stops l w :
  stuck (disk w) → head_speaks_for d0 l = false → stops (λ b _, b = false) (local_head_matches_tail l) w.
Proof using.
  intros Hs Hh. unfold local_head_matches_tail. unfold head_speaks_for in Hh.
  destruct (last (entries l)) as [e|]; [|by apply oks_ret].
  apply safe_read; [apply _|]. intros w1 Hr. assert (stuck (disk w1)) as Hs1 by apply Hr.
  split_and!; [|by intros; apply oks_ret|by apply stops_fail]. intros s Hd.
  rewrite (Hs1 Head) in Hd by (cbn; auto). rewrite Hd in Hh. by apply oks_ret.
Qed.
Lemma verify_anchor_fails l heal w :
  stuck (disk w) → parse_ledger (content d0 Ledger) = Ok l → fails (verify_anchor l heal) w.
Proof using All.
  intros Hs Hp. pose proof (ja_anchor _ jammed _ Hp) as Ha.
  apply safe_read; [apply _|]. intros w1 Hr. assert (stuck (disk w1)) as Hs1 by apply Hr.
  rewrite <- (Hs1 Anchor) in Ha by (cbn; auto). split_and!; [| |by apply stops_fail].
  - intros s Hd. rewrite Hd in Ha. apply stops_lift. intros b Hb. destruct (Ha b Hb) as [-> Hh].
    apply (stops_bind (λ b _, b = false)); [done| |].
    + destruct heal; [by apply local_head_stops|by apply oks_ret].
    + intros ? w2 Hs2 ->. destruct (last (entries l)); apply stops_fail.
  - intros Hd. rewrite Hd in Ha. destruct (entries l); [done|]. apply stops_fail.
Qed.
Lemma load_inner_fails heal w : stuck (disk w) → fails (load_inner heal) w.
Proof using All.
  intros Hs. apply safe_read; [apply _|]. intros w1 Hr. assert (stuck (disk w1)) as Hs1 by apply Hr.
  split_and!; [| |by apply stops_fail].
  - intros s Hd. apply stops_lift. intros l Hp. apply fails_first; [done|]. apply verify_anchor_fails; [done|].
    rewrite <- (stuck_content _ Hs1). unfold content. by rewrite Hd.
  - intros Hd. rewrite (Hs1 Ledger) in Hd by (cbn; auto). destruct (ja_there _ jammed) as [s Hl]. congruence.
Qed.
Lemma begin_fails w : stuck (disk w) → fails begin w.
Proof using All.
  intros Hs. apply safe_acquire; [apply _| |].
  - intros w1 w2 Hr _ ->. apply (load_inner_fails true). apply Hr.
  - intros w1 a Hr Ha. destruct a; [done|..]; apply stops_fail.
Qed.

(** ** The methods *)
Definition failed (a : Answer) : Prop :=
  match a with
  | RRequest (Err _) | RDecision (Err _) | RToken (Err _) | RMaybeRequest (Err _) | RMaybeToken (Err _)
  | RView (Err _) | RStatus (Err _) | RViews (Err _) | REntries (Err _) | ROperator _ => True
  | _ => False
  end.
Lemma register_stops p key n w : stuck (disk w) → stops (λ _ _, True) (register_operator_key p key n) w.
Proof using.
  intros Hs. apply stops_lift. intros pr _. do 2 (apply stops_lift; intros ? _).
  apply fails_after; [done| |].
  { apply safe_read; [apply _|]. intros w1 Hr. split_and!; intros; [|by apply oks_ret|by apply stops_fail].
    destruct (parse_registry _); [by apply oks_ret|by apply stops_fail]. }
  intros ops w1 Hs1. cbv zeta. case_match; [case_match|].
  { case_bool_decide; [by apply oks_ret|apply stops_fail]. }
  case_bool_decide; [apply stops_fail|]. apply fails_after; [done| |by intros; apply oks_ret].
  apply replace_elsewhere; [done|by intros [|[|]]|]. intros [] Hl; [by destruct Hl as [|[|]]|done].
Qed.
Lemma answer_failed {A} (f : outcome A → Answer) (p : Svc A) w :
  stuck (disk w) → fails p w → (∀ e, failed (f (Err e))) →
  safe stuck whatever t (λ a _, failed a) (then_answer p f) w.
Proof using.
  intros Hs Hp Hf. eapply safe_pbind; [apply _|done|exact Hp|]. intros [|e] w' _ HQ w2 _; [done|apply Hf].
Qed.

Lemma method_fails m w : stuck (disk w) → safe stuck whatever t (λ a _, failed a) (run_method m) w.
Proof using All.
  intros Hs. assert (Hload : ∀ {A} (f : ApprovalLedger → Svc A) w, stuck (disk w) → fails (sbind load f) w)
    by (intros; apply fails_first; [done|by apply load_inner_fails]).
  destruct m; cbn [run_method].
  11: { eapply safe_pbind; [apply _|done|by apply register_stops|]. by intros r w' _ _ w2 _. }
  all: apply answer_failed; [done| |done].
  - apply fails_after; [done|by apply effective_now_stops|]. intros now w1 Hs1. apply stops_lift. intros r _.
    apply fails_first; [done|by apply begin_fails].
  - apply stops_lift. intros _ _. apply fails_after; [done|by apply effective_now_stops|]. intros now w1 Hs1.
    apply stops_lift. intros _ _. apply fails_first; [done|by apply begin_fails].
  - apply fails_after; [done|by apply effective_now_stops|]. intros now w1 Hs1. by apply Hload.
  - apply fails_after; [done|by apply effective_now_stops|]. intros now w1 Hs1. by apply Hload.
  - by apply Hload.
  - apply fails_after; [done|by apply effective_now_stops|]. intros now w1 Hs1. by apply Hload.
  - by apply Hload.
  - apply fails_first; [done|by apply Hload].
  - by apply Hload.
  - by apply Hload.
Qed.
End Thread.

Lemma jam_ok s : threads s = ∅ → reachable s → disk (world s) = d0 →
  sys_ok stuck whatever (λ _, True) (λ a _, failed a) (next_thread s) s.
Proof using All.
  intros Ht Hs Hd. pose proof (reachable_ok s Hs) as S. split.
  - rewrite Hd. by intros f _.
  - done.
  - apply S.
  - rewrite Ht. intros t p. by rewrite lookup_empty.
  - intros t a Hin. destruct (so_returned _ _ _ _ _ _ S _ _ Hin). split; [done|lia].
Qed.
Lemma jam_steps s s' : threads s = ∅ → reachable s → disk (world s) = d0 → rtc step s s' →
  sys_ok stuck whatever (λ _, True) (λ a _, failed a) (next_thread s) s'.
Proof using All.
  intros Ht Hs Hd Hst. eapply (steps_ok stuck whatever); [..|exact Hst]; [done|done| |by apply jam_ok].
  intros t m w Hi _ _. by apply method_fails.
Qed.
End Jam.

Section JamThm.
Context `{Crypto, Scanner, Encode RequestIdentity, Encode ApprovalRequest, Encode DecisionStatement}.
Context `{Encode EntryIdentity, Encode LedgerEntry, Decode LedgerEntry, !JsonLine LedgerEntry}.
Context `{Encode LedgerHead, Decode LedgerHead, Encode LedgerAnchor, Decode LedgerAnchor}.
Context `{Encode ClockAnchorRow, Decode ClockAnchorRow}.
Context `{!LawfulJson LedgerHead, !LawfulJson LedgerAnchor, !LawfulJson ClockAnchorRow}.
Context `{Encode OperatorRegistryFile, Decode OperatorRegistryFile, !LawfulCrypto}.

(** C17: an append interrupted before the head was replaced, or the first
    append interrupted before the anchor was written, stops the authority for
    good: the ledger, the head and the anchor are never written again, and
    every method called afterwards - registering a key aside - answers with
    an error. *)
Theorem interrupted_append_jams s s' :
  reachable s → threads s = ∅ → Interrupted (disk (world s)) → rtc step s s' →
  (∀ f, protects LedgerLock f → disk (world s') !! f = disk (world s) !! f)
  ∧ ∀ t a, (t, a) ∈ returned s' → (next_thread s ≤ t)%nat → failed a.
Proof using All.
  intros Hs Ht Hd%interrupted_jams Hst.
  pose proof (jam_steps _ Hd s s' Ht Hs eq_refl Hst) as S. split; [apply S|].
  intros t a Hin Hle. by apply (so_returned _ _ _ _ _ _ S _ _ Hin).
Qed.
End JamThm.
