(* ===== verification/ApprovalProgress.v ===== *)
(** * The authority does let approved work through

    On a machine where nothing fails and nobody interferes, on a settled disk
    with room for two more lines: a valid proposal is recorded, a registered
    operator who is not the requester can approve it while it lasts, and from
    then on the gate gives a token for it. *)
From S2P Require Import Prelude Strings Bytes Effects ApprovalModel ApprovalStore ApprovalAuthority.
From S2P Require Import ApprovalSystem ApprovalChain ApprovalText ApprovalLogic ApprovalInv ApprovalSafe ApprovalThms.
#[local] Open Scope string_scope.
#[local] Open Scope prog_scope.

Section Progress.
Context `{Crypto, Scanner, Encode RequestIdentity, Encode ApprovalRequest, Encode DecisionStatement}.
Context `{Encode EntryIdentity, Encode LedgerEntry, Decode LedgerEntry, !JsonLine LedgerEntry}.
Context `{Encode LedgerHead, Decode LedgerHead, Encode LedgerAnchor, Decode LedgerAnchor}.
Context `{Encode ClockAnchorRow, Decode ClockAnchorRow}.
Context `{!LawfulJson LedgerHead, !LawfulJson LedgerAnchor, !LawfulJson ClockAnchorRow}.
Context `{Encode OperatorRegistryFile, Decode OperatorRegistryFile, !LawfulCrypto}.

Context `{!ShortRows}.

(** ** The clock's row *)
Definition clock_fine (d : Disk) : Prop :=
  match d !! ClockAnchor with
  | None => True
  | Some raw => (slen raw <= MAX_CLOCK_ANCHOR_BYTES)%N ∧ ∃ n, from_slice raw = Some (MkClock CLOCK_ANCHOR_SCHEMA n)
  end.
Definition with_clock (now : N) (d : Disk) : Disk :=
  if (clock d <? now)%N then <[ClockAnchor := to_vec (MkClock CLOCK_ANCHOR_SCHEMA now)]> d else d.
Lemma with_clock_other now d f : f ≠ ClockAnchor → with_clock now d !! f = d !! f.
Proof using. intros Hf. unfold with_clock. destruct (_ <? _)%N; [by rewrite lookup_insert_ne|done]. Qed.
Lemma with_clock_fine now d :
  clock_fine d → (clock d <= now < 2 ^ 64)%N → clock_fine (with_clock now d) ∧ clock (with_clock now d) = now.
Proof using All.
  intros Hf [Hle Hlt]. unfold with_clock. destruct (N.ltb_spec (clock d) now) as [|Hge]; [|split; [done|lia]].
  unfold clock_fine, clock. rewrite lookup_insert_eq, from_to. split; [|done]. split; [by apply short_clock|eauto].
Qed.

(** ** Programs that end *)
Section Ends.
Variable t : nat.
Variable wall : N.
Definition ends {A} (p : Prog A) (w : World) (a : A) (w' : World) : Prop :=
  ∃ tr, finish t wall None p w = Some (tr, a, w').
Lemma ends_ret {A} (a : A) w : ends (Ret a) w a w.
Proof using. by exists []. Qed.
Lemma ends_call {A X} (e : Event X) (k : X → Prog A) w a w' :
  ends (k (act t wall None e w).1) (act t wall None e w).2 a w' → ends (Call e k) w a w'.
Proof using.
  intros [tr Htr]. unfold ends. cbn [finish]. destruct (act t wall None e w) as [x w1]. cbn in Htr.
  rewrite Htr. by eexists.
Qed.
Lemma ends_pbind {A B} (p : Prog A) (f : A → Prog B) w a w1 b w2 :
  ends p w a w1 → ends (f a) w1 b w2 → ends (pbind p f) w b w2.
Proof using. intros [tr Hp] [tr' Hf]. eexists. by eapply finish_pbind. Qed.
Lemma ends_sbind {A B} (p : Svc A) (f : A → Svc B) w a w1 r w2 :
  ends p w (Ok a) w1 → ends (f a) w1 r w2 → ends (sbind p f) w r w2.
Proof using. intros Hp Hf. by eapply ends_pbind. Qed.
Lemma ends_lift {A B} (r : outcome A) (f : A → Svc B) w a b w2 :
  r = Ok a → ends (f a) w b w2 → ends (sbind (lift r) f) w b w2.
Proof using. intros -> Hf. exact Hf. Qed.

Lemma observe_ends now w :
  clock_fine (disk w) → (clock (disk w) <= now)%N →
  ends (observe_locked now) w (Ok now) (on_disk (with_clock now) w).
Proof using.
  intros Hf Hle. assert (Hrest : ends
    (if (clock (disk w) <? N.max now (clock (disk w)))%N
     then replace ClockAnchor (to_vec (MkClock CLOCK_ANCHOR_SCHEMA (N.max now (clock (disk w))))) ;;
          sret (N.max now (clock (disk w)))
     else sret (N.max now (clock (disk w)))) w (Ok now) (on_disk (with_clock now) w)).
  { rewrite N.max_l by lia. unfold with_clock, on_disk. destruct (_ <? _)%N; [|destruct w; apply ends_ret].
    apply ends_call. apply ends_ret. }
  apply ends_call. cbn [act fst snd]. revert Hf Hrest. unfold clock_fine, clock.
  destruct (disk w !! ClockAnchor) as [raw|]; [|done]. intros [Hs [n ->]]. cbn [max_seen_wall_ms].
  apply N.ltb_ge in Hs. rewrite Hs. cbn [refuse rbind]. by rewrite bool_decide_eq_true_2.
Qed.
Lemma effective_now_ends now w :
  held w !! ClockLock = None → clock_fine (disk w) → (clock (disk w) <= now)%N →
  ends (effective_now now) w (Ok now) (on_disk (with_clock now) w).
Proof using.
  intros Hh Hf Hle. apply ends_call. cbn [act]. rewrite bool_decide_eq_true_2 by done. cbn [fst snd sbind pbind sret].
  eapply ends_pbind; [by apply observe_ends|]. apply ends_call. cbn [act fst snd].
  destruct w as [d h i]. unfold on_disk, on_locks. cbn [disk held instant] in *.
  rewrite decide_True by (apply lookup_insert_eq). rewrite delete_insert_id by done. apply ends_ret.
Qed.
End Ends.

(** ** Loading a settled ledger *)
Lemma entries_fit es : (N.of_nat (List.length es) <= slen (text es))%N.
Proof using.
  induction es as [|e es IH] using rev_ind; [done|]. rewrite text_snoc, slen_app, length_app. cbn.
  assert (0 < slen (line_of e))%N; [|lia]. unfold line_of, slen. by destruct (to_vec e).
Qed.
Lemma tail_digest l e : Chain l → last (entries l) = Some e → le_seq e = N.of_nat (List.length (entries l)) ∧ digest_ok (le_digest e) = true.
Proof using All.
  intros Hc He. apply last_Some in He as [es He].
  pose proof (fa_next _ (chain_facts _ Hc) (List.length es) e) as Hn.
  rewrite He, lookup_app_r, Nat.sub_diag in Hn by lia. specialize (Hn eq_refl). split.
  - apply (f_equal le_seq) in Hn. cbn [le_seq] in Hn. rewrite Hn, He, length_app. cbn. lia.
  - apply (f_equal le_digest) in Hn. cbn [le_digest] in Hn. rewrite Hn. apply digest_ok_to_hex, blake3_len.
Qed.
Lemma entry_at_tail l e : Chain l → last (entries l) = Some e → entry_at (entries l) (le_seq e) = Some e.
Proof using All.
  intros Hc He. unfold entry_at. rewrite (proj1 (tail_digest _ _ Hc He)). rewrite last_lookup in He.
  rewrite <- He. f_equal. lia.
Qed.
Section Loading.
Variable l : ApprovalLedger.
Hypothesis Hc : Chain l.
Hypothesis fits : (slen (text (entries l)) <= MAX_LEDGER_BYTES)%N.
Variable e : LedgerEntry.
Hypothesis tail : last (entries l) = Some e.

Lemma seq_small : (0 < le_seq e < 2 ^ 64)%N.
Proof using All.
  destruct (tail_digest _ _ Hc tail) as [-> _]. pose proof (entries_fit (entries l)).
  assert (entries l ≠ []) by (intros El; by rewrite El in tail). destruct (entries l); [done|].
  unfold MAX_LEDGER_BYTES in *. cbn [List.length] in *. lia.
Qed.
Lemma anchor_accepted : anchor_verdict l (to_vec (anchor_row l)) = Ok false.
Proof using All.
  destruct (chain_last _ _ Hc tail) as (_ & -> & _ & _). destruct (tail_digest _ _ Hc tail) as [Hs Hd].
  pose proof seq_small as [Hs0 Hs1]. unfold anchor_verdict.
  pose proof (short_anchor _ _ Hs1 Hd) as Hsh. apply N.ltb_ge in Hsh. rewrite Hsh, from_to. cbn [refuse rbind la_schema la_seq la_digest].
  rewrite bool_decide_eq_true_2 by done. cbn [negb refuse rbind].
  rewrite (proj2 (N.eqb_neq (le_seq e) 0)), Hd by lia. cbn [negb orb refuse rbind].
  rewrite <- Hs, N.ltb_irrefl. cbn [refuse rbind]. rewrite (entry_at_tail _ _ Hc tail).
  by rewrite bool_decide_eq_true_2.
Qed.
Lemma head_accepted : head_verdict l (to_vec (head_row l)) = Ok tt.
Proof using All.
  destruct (chain_last _ _ Hc tail) as (-> & _ & _ & _). destruct (tail_digest _ _ Hc tail) as [Hs Hd].
  pose proof seq_small as [Hs0 Hs1]. unfold head_verdict.
  pose proof (short_head _ _ Hs1 Hd) as Hsh. apply N.ltb_ge in Hsh. rewrite Hsh, from_to. cbn [refuse rbind lh_schema lh_seq lh_digest].
  rewrite bool_decide_eq_true_2 by done. cbn [negb refuse rbind].
  rewrite (proj2 (N.eqb_neq (le_seq e) 0)), Hd by lia. cbn [negb orb refuse rbind].
  rewrite (entry_at_tail _ _ Hc tail), N.eqb_refl. by rewrite bool_decide_eq_true_2.
Qed.
End Loading.

Lemma load_inner_ends t wall heal w l :
  Settled (disk w) l → (slen (text (entries l)) <= MAX_LEDGER_BYTES)%N → ends t wall (load_inner heal) w (Ok l) w.
Proof using All.
  intros [Hc Hl Hh Ha] Hfit. apply ends_call. cbn [act fst snd]. unfold content in Hl.
  destruct (entries l) as [|e0 es0] eqn:El.
  - assert (l = empty_ledger) as -> by (apply chain_unique; [done|constructor|done]).
    unfold anchor_of, head_of in *. cbn in Ha, Hh.
    destruct (disk w !! Ledger) as [raw|]; cbn in Hl.
    + subst raw. eapply ends_lift; [done|]. do 2 (eapply ends_sbind; [apply ends_call; cbn [act fst snd]; rewrite ?Ha, ?Hh; apply ends_ret|]).
      apply ends_ret.
    + eapply ends_sbind; [apply ends_call; cbn [act fst snd]; rewrite Ha; apply ends_ret|]. apply ends_ret.
  - rewrite <- El in *. destruct (last (entries l)) as [e|] eqn:Et; [|apply last_None in Et; congruence].
    destruct (chain_last _ _ Hc Et) as (_ & _ & Eh & Ea). rewrite Eh in Hh. rewrite Ea in Ha.
    assert (disk w !! Ledger = Some (text (entries l))) as ->.
    { destruct (disk w !! Ledger); cbn in Hl; [by subst|]. pose proof (entries_fit (entries l)) as Hf.
      rewrite <- Hl in Hf. rewrite El in Hf. change (slen "") with 0%N in Hf. cbn [List.length] in Hf. lia. }
    eapply ends_lift; [by apply parse_text|].
    eapply ends_sbind; [apply ends_call; cbn [act fst snd]; rewrite Ha|].
    { eapply ends_lift; [by eapply anchor_accepted|]. apply ends_ret. }
    eapply ends_sbind; [apply ends_call; cbn [act fst snd]; rewrite Hh|].
    { rewrite (head_accepted l Hc Hfit e Et). apply ends_ret. }
    apply ends_ret.
Qed.

(** ** Appending *)
Definition written (e : LedgerEntry) (d : Disk) : Disk :=
  <[Anchor := to_vec (MkAnchor LEDGER_ANCHOR_SCHEMA (le_seq e) (le_digest e))]>
    (<[Head := to_vec (MkHead LEDGER_HEAD_SCHEMA (le_seq e) (le_digest e))]> (appended Ledger (line_of e) d)).
Lemma written_other e d f : ¬ protects LedgerLock f → written e d !! f = d !! f.
Proof using.
  intros Hf. unfold written, appended. cbn in Hf. rewrite !lookup_insert_ne; [done|..]; intros <-; apply Hf; auto.
Qed.
Lemma append_ends t wall w l body now :
  let e := next_entry l body now in
  Settled (disk w) l → admit_body l body now = Ok None → signed body →
  ends t wall (append l body now) w (Ok (e, record e l)) (on_disk (written e) w)
  ∧ Settled (written e (disk w)) (record e l).
Proof using All.
  intros e S Ha Hs. split.
  - eapply ends_lift; [exact Ha|]. apply ends_call. cbn [act fst snd]. eapply ends_sbind.
    + apply ends_call. cbn [act fst snd sbind pbind sret]. apply ends_call. apply ends_ret.
    + apply ends_ret.
  - destruct (append_layout (disk w) l body now (line_of e) "" S Ha Hs) as (l' & _ & _ & T);
      [by rewrite append_nil_r|]. by eapply anchor_layout, head_layout, T.
Qed.

(** ** A quiet machine *)
Record Good (w : World) (l : ApprovalLedger) (ops : list RegisteredOperator) : Prop := {
  go_settled : Settled (disk w) l;
  go_clock : clock_fine (disk w);
  go_registry : ∃ raw, disk w !! Registry = Some raw ∧ parse_registry raw = Ok ops
}.
Definition fits (l : ApprovalLedger) : Prop := (slen (text (entries l)) <= MAX_LEDGER_BYTES)%N.
Lemma good_clock now w l ops :
  Good w l ops → (clock (disk w) <= now < 2 ^ 64)%N →
  Good (on_disk (with_clock now) w) l ops ∧ clock (with_clock now (disk w)) = now.
Proof using All.
  intros [[? Hl Hh Ha] Hc (raw & Hr & Hp)] Hn. destruct (with_clock_fine now (disk w) Hc Hn) as [Hf Hn'].
  split; [|done]. split; [split|done|]; cbn [on_disk disk]; unfold content in *; rewrite ?with_clock_other by done; eauto.
Qed.
Lemma clocked_ends {A} t wall now w l ops (f : N → Svc A) a w' :
  Good w l ops → held w = ∅ → (clock (disk w) <= now < 2 ^ 64)%N →
  ends t wall (f now) (on_disk (with_clock now) w) a w' → ends t wall (sbind (effective_now now) f) w a w'.
Proof using.
  intros G Hh Hn Hf. eapply ends_sbind; [|exact Hf].
  apply effective_now_ends; [by rewrite Hh|apply G|lia].
Qed.
Lemma begin_ends t wall w l ops :
  Good w l ops → held w = ∅ → fits l → ends t wall begin w (Ok l) (on_locks <[LedgerLock := t]> w).
Proof using All.
  intros G Hh Hf. apply ends_call. cbn [act]. rewrite bool_decide_eq_true_2 by (by rewrite Hh). cbn [fst snd].
  apply load_inner_ends; [apply G|done].
Qed.
Lemma registry_ends t wall w l ops : Good w l ops → ends t wall load_registry w (Ok ops) w.
Proof using.
  intros G. destruct (go_registry _ _ _ G) as (raw & Hr & Hp). apply ends_call. cbn [act fst snd].
  rewrite Hr. rewrite Hp. apply ends_ret.
Qed.

(** One append under the lock, from a good world to a good world. *)
Lemma append_good t wall w l ops body now :
  let e := next_entry l body now in
  let w' := on_disk (written e) (on_locks <[LedgerLock := t]> w) in
  Good w l ops → held w = ∅ → admit_body l body now = Ok None → signed body →
  ends t wall (append l body now) (on_locks <[LedgerLock := t]> w) (Ok (e, record e l)) w'
  ∧ Good (release_all t w') (record e l) ops ∧ held (release_all t w') = ∅ ∧ clock (disk w') = clock (disk w).
Proof using All.
  intros e w' G Hh Ha Hs. destruct (append_ends t wall (on_locks <[LedgerLock := t]> w) l body now) as [He S]; [apply G|done..|].
  assert (Hother : ∀ f, ¬ protects LedgerLock f → written e (disk w) !! f = disk w !! f) by (intros; by apply written_other).
  split_and!; [exact He| | |].
  - destruct G as [_ Hc (raw & Hr & Hp)]. split; [exact S| |exists raw].
    + unfold clock_fine in *. cbn [w' release_all on_locks on_disk disk]. rewrite Hother; [done|]. by intros [|[|]].
    + cbn [w' release_all on_locks on_disk disk]. rewrite Hother; [done|]. by intros [|[|]].
  - cbn. rewrite Hh. apply map_empty. intros k. rewrite map_lookup_filter. destruct k; [|done].
    rewrite lookup_insert_eq. cbn. by rewrite option_guard_False by naive_solver.
  - unfold clock. cbn [w' on_locks on_disk disk]. rewrite Hother; [done|]. by intros [|[|]].
Qed.
Lemma fits_before e l : fits (record e l) → fits l.
Proof using. unfold fits. rewrite entries_record, text_snoc, slen_app. lia. Qed.

(** ** Proposing *)
Lemma propose_admits draft now r l :
  request_propose draft now = Ok r → requests l !! rq_id r = None → (open_count l now < MAX_OPEN_APPROVALS)%N →
  admit_body l (Requested r) now = Ok None ∧ rq_created_at_ms r = now.
Proof using.
  unfold request_propose. intros Hr Hn Ho. unq Hr. injection Hr as <-. split; [|done].
  unfold admit_body. rewrite Hb. cbn [refuse rbind]. rewrite Hm4. cbn [rbind rq_created_at_ms].
  rewrite N.eqb_refl. cbn [negb refuse rbind]. rewrite Hn. apply N.leb_gt in Ho. by rewrite Ho.
Qed.
Lemma propose_ends t wall w l ops draft now r :
  Good w l ops → held w = ∅ → (clock (disk w) <= now < 2 ^ 64)%N → fits l →
  request_propose draft now = Ok r → requests l !! rq_id r = None → (open_count l now < MAX_OPEN_APPROVALS)%N →
  ∃ w', ends t wall (propose draft now) w (Ok r) w'
    ∧ Good (release_all t w') (record (next_entry l (Requested r) now) l) ops
    ∧ held (release_all t w') = ∅ ∧ clock (disk w') = now.
Proof using All.
  intros G Hh Hn Hf Hr Hnew Ho. destruct (good_clock _ _ _ _ G Hn) as [G1 Hc1].
  destruct (propose_admits _ _ _ _ Hr Hnew Ho) as [Ha _].
  destruct (append_good t wall _ l ops (Requested r) now G1 Hh Ha I) as (He & G2 & Hh2 & Hc2).
  eexists. split_and!; [|exact G2|exact Hh2|by rewrite Hc2].
  eapply clocked_ends; [done..|]. eapply ends_lift; [done|].
  eapply ends_sbind; [by eapply begin_ends|]. cbv beta. rewrite Hnew.
  eapply ends_sbind; [exact He|]. apply ends_ret.
Qed.

(** ** Deciding *)
Lemma issue_admits l r o p why now key dc :
  Chain l → requests l !! rq_id r = Some r → decisions l !! rq_id r = None →
  decision_issue r o p why now key = Ok dc →
  admit_body l (Decided dc) now = Ok None ∧ pr_kind p = HumanOperator ∧ pr_id p ≠ pr_id (rq_requester r)
  ∧ (now <= rq_expires_at_ms r)%N
  ∧ dc_request_id dc = rq_id r ∧ dc_outcome dc = o ∧ dc_principal dc = p
  ∧ sg_key_id (dc_signature dc) = key_id key ∧ sg_public_key (dc_signature dc) = public_key_hex key.
Proof using All.
  intros Hc Hr Hd Hi. unfold decision_issue, decision_sign in Hi. unq Hi. injection Hi as <-.
  apply negb_false_iff, bool_decide_eq_true in Hb. apply bool_decide_eq_false in Hb0.
  apply N.ltb_ge in Hb1, Hb2. split_and!; try done.
  assert (now ≠ 0%N) as Hn0.
  { pose proof (fa_request _ (chain_facts _ Hc) _ _ Hr) as (_ & Hv & _). unfold request_validate in Hv. unq Hv.
    apply refuse_Ok, orb_false_iff in Hv as [Hv _]. apply orb_false_iff in Hv as [Hv%N.eqb_neq _]. lia. }
  unfold admit_body. rewrite (proj2 (N.eqb_neq now 0)) by done.
  cbn [refuse rbind]. revert Hm1. generalize (eq_refl (request_digest r)), Hb0, Hb1, Hb2.
  set (dc := with_signature _ _).
  change (request_digest r = request_digest r) with (request_digest r = dc_request_digest dc).
  change (pr_id p) with (pr_id (dc_principal dc)). change now with (dc_decided_at_ms dc).
  change (rq_id r) with (dc_request_id dc) in Hr, Hd. intros Hdg Hs Hlo%N.ltb_ge Hhi%N.ltb_ge Hv.
  rewrite Hr, Hv. cbn [rbind]. rewrite bool_decide_eq_true_2 by done. cbn [negb refuse rbind].
  rewrite Hlo, Hhi. cbn [orb refuse rbind]. rewrite bool_decide_eq_false_2 by done. cbn [refuse rbind]. by rewrite Hd.
Qed.
Lemma key_registered_ends t wall w l ops who key :
  Good w l ops → Exists (holds_key who (key_id key) (public_key_hex key)) ops →
  ends t wall (key_registered_for who key) w (Ok tt) w.
Proof using.
  intros G Ho. eapply ends_sbind; [by eapply registry_ends|]. cbv beta. rewrite bool_decide_eq_true_2 by done. apply ends_ret.
Qed.
Lemma decide_ends t wall w l ops r o p why now key dc :
  Good w l ops → held w = ∅ → (clock (disk w) <= now < 2 ^ 64)%N → fits l →
  requests l !! rq_id r = Some r → decisions l !! rq_id r = None →
  Exists (holds_key (pr_id p) (key_id key) (public_key_hex key)) ops →
  principal_validate p = Ok tt → decision_issue r o p why now key = Ok dc →
  ∃ w', ends t wall (decide_request (rq_id r) p key o why now) w (Ok dc) w'
    ∧ Good (release_all t w') (record (next_entry l (Decided dc) now) l) ops
    ∧ held (release_all t w') = ∅ ∧ clock (disk w') = now.
Proof using All.
  intros G Hh Hn Hf Hr Hd Ho Hp Hi. destruct (good_clock _ _ _ _ G Hn) as [G1 Hc1].
  destruct (issue_admits l r o p why now key dc) as (Ha & Hk & Hother & Hexp & _); [apply G|done..|].
  destruct (append_good t wall _ l ops (Decided dc) now G1 Hh Ha) as (He & G2 & Hh2 & Hc2); [by eapply issue_signed|].
  eexists. split_and!; [|exact G2|exact Hh2|by rewrite Hc2].
  eapply ends_lift; [exact Hp|]. eapply clocked_ends; [done..|].
  eapply ends_lift; [by rewrite bool_decide_eq_true_2|]. eapply ends_sbind; [by eapply begin_ends|]. cbv beta. rewrite Hr.
  eapply ends_lift; [by rewrite bool_decide_eq_false_2|].
  eapply ends_sbind; [eapply (key_registered_ends _ _ _ l ops); [destruct G1; by split|done]|]. cbv beta. rewrite Hd.
  eapply ends_lift; [apply N.ltb_ge in Hexp; by rewrite Hexp|]. eapply ends_lift; [exact Hi|].
  eapply ends_sbind; [exact He|]. apply ends_ret.
Qed.

(** ** Authorizing *)
Lemma verify_ends r dc ops :
  settles r dc → Exists (holds_key (pr_id (dc_principal dc)) (sg_key_id (dc_signature dc)) (sg_public_key (dc_signature dc))) ops →
  verify_decision_with r dc (key_ids ops) ops = Ok tt.
Proof using.
  intros [_ _ Hk Ho [Hlo%N.ltb_ge Hhi%N.ltb_ge] Hs] Hop. unfold verify_decision_with.
  rewrite bool_decide_eq_true_2 by done. rewrite bool_decide_eq_false_2 by done. rewrite Hlo, Hhi. cbn [negb orb refuse rbind].
  assert (decision_verify (Some (key_ids ops)) dc = Ok tt) as ->.
  { rewrite <- Hs. unfold decision_verify. destruct (decision_validate dc); [|done]. cbn [rbind].
    rewrite bool_decide_eq_true_2; [done|]. unfold key_ids. rewrite elem_of_list_to_set.
    apply Exists_exists in Hop as (o & Hin & _ & <- & _). by apply list_elem_of_fmap_2. }
  cbn [rbind]. by rewrite bool_decide_eq_true_2.
Qed.
Lemma exactly_refl r : exactly (request_check r) r = true.
Proof using. unfold exactly. by rewrite !bool_decide_eq_true_2. Qed.
Lemma authorize_ends t wall w l ops r dc now :
  Good w l ops → held w = ∅ → (clock (disk w) <= now < 2 ^ 64)%N → fits l → (now <= rq_expires_at_ms r)%N →
  requests l !! rq_id r = Some r → decisions l !! rq_id r = Some dc → dc_outcome dc = Approved →
  Exists (holds_key (pr_id (dc_principal dc)) (sg_key_id (dc_signature dc)) (sg_public_key (dc_signature dc))) ops →
  ∃ tok w', ends t wall (authorize_request (rq_id r) (request_check r) now) w (Ok tok) w'
    ∧ tn_request_id tok = rq_id r ∧ token_check tok = request_check r ∧ tn_expires_at_ms tok = rq_expires_at_ms r.
Proof using All.
  intros G Hh Hn Hf Hexp Hr Hd Ho Hop. destruct (good_clock _ _ _ _ G Hn) as [G1 Hc1].
  assert (settles r dc) as Hs.
  { pose proof (fa_decision _ (chain_facts l (se_chain _ _ (go_settled _ _ _ G))) _ _ Hd) as (_ & r' & Hr' & Hs). congruence. }
  eexists _, _. split.
  { eapply clocked_ends; [done..|]. eapply ends_sbind; [apply load_inner_ends; [apply G1|done]|]. cbv beta.
  rewrite Hr, exactly_refl. cbn [negb]. unfold evaluate, trusted_key_ids.
  eapply ends_sbind; [eapply ends_sbind; [by eapply registry_ends|apply ends_ret]|]. cbv beta.
  eapply ends_sbind; [by eapply registry_ends|]. unfold evaluate_with_trust.
  eapply ends_lift; [apply N.ltb_ge in Hexp; by rewrite Hexp|]. rewrite Hd.
  eapply ends_lift; [by apply verify_ends|]. cbv beta. rewrite Ho. unfold from_verified.
  rewrite (st_request _ _ Hs), (st_digest _ _ Hs), !bool_decide_eq_true_2 by done. cbn [negb orb].
  apply ends_call. apply ends_ret. }
  done.
Qed.

(** ** From the proposal to the token *)
Lemma perform1_ends t wall m w a w' ts n r :
  t = n → ends t wall (run_method m) w a w' →
  perform1 (m, wall, None) (MkSystem w ts n r) = MkSystem (release_all t w') ∅ (S n) ((t, a) :: r).
Proof using. intros -> [tr Htr]. unfold perform1. cbn [next_thread world returned]. by rewrite Htr. Qed.
Lemma method_ends {A} t wall (p : Svc A) (f : outcome A → Answer) w r w' :
  ends t wall p w r w' → ends t wall (then_answer p f) w (f r) w'.
Proof using. intros Hp. eapply ends_pbind; [exact Hp|apply ends_ret]. Qed.

(** C16: the gate opens for approved work.  On a settled disk with room, with
    fewer than [MAX_OPEN_APPROVALS] requests open and no process in the way: a
    valid proposal is recorded; a registered operator who may decide it does;
    and whoever asks for exactly that action before it expires gets a token. *)
Theorem approval_goes_through s l ops draft r p why key dc now1 now2 now3 wall :
  let l1 := record (next_entry l (Requested r) now1) l in
  let l2 := record (next_entry l1 (Decided dc) now2) l1 in
  Good (world s) l ops → held (world s) = ∅ → fits l2 →
  (clock (disk (world s)) <= now1)%N → (now1 <= now2 <= now3)%N → (now3 < 2 ^ 64)%N →
  request_propose draft now1 = Ok r → requests l !! rq_id r = None → (open_count l now1 < MAX_OPEN_APPROVALS)%N →
  Exists (holds_key (pr_id p) (key_id key) (public_key_hex key)) ops → principal_validate p = Ok tt →
  decision_issue r Approved p why now2 key = Ok dc → (now3 <= rq_expires_at_ms r)%N →
  ∃ tok, returned (perform [(MPropose draft now1, wall, None); (MDecide (rq_id r) p key Approved why now2, wall, None);
                            (MAuthorizeRequest (rq_id r) (request_check r) now3, wall, None)] s)
         = (S (S (next_thread s)), RToken (Ok tok)) :: (S (next_thread s), RDecision (Ok dc))
           :: (next_thread s, RRequest (Ok r)) :: returned s
    ∧ tn_request_id tok = rq_id r ∧ token_check tok = request_check r ∧ tn_expires_at_ms tok = rq_expires_at_ms r.
Proof using All.
  intros l1 l2 G Hh Hf Hn1 Hn2 Hn3 Hr Hnew Hopen Hop Hp Hi Hexp. destruct s as [w ts n ret]. cbn [world next_thread returned] in *.
  pose proof (se_chain _ _ (go_settled _ _ _ G)) as Hc.
  destruct (propose_ends n wall w l ops draft now1 r) as (w1 & E1 & G1 & Hh1 & C1); try done; [lia|by do 2 eapply fits_before|].
  assert (requests l1 !! rq_id r = Some r) as Hr1 by apply lookup_insert_eq.
  assert (decisions l1 !! rq_id r = None) as Hd1.
  { destruct (decisions l1 !! rq_id r) as [d|] eqn:E; [|done].
    pose proof (fa_decision _ (chain_facts _ Hc) _ _ E) as (_ & r' & Hr' & _). congruence. }
  destruct (decide_ends (S n) wall (release_all n w1) l1 ops r Approved p why now2 key dc) as (w2 & E2 & G2 & Hh2 & C2);
    try done; [cbn; rewrite C1; lia|by eapply fits_before|].
  destruct (issue_admits l1 r Approved p why now2 key dc) as (_ & _ & _ & _ & Hid & Hout & Hpr & Hkey & Hpub);
    [apply G1|done..|].
  destruct (authorize_ends (S (S n)) wall (release_all (S n) w2) l2 ops r dc now3) as (tok & w3 & E3 & Htok); try done.
  { cbn. rewrite C2. lia. }
  { rewrite <- Hid. apply lookup_insert_eq. }
  { by rewrite Hpr, Hkey, Hpub. }
  exists tok. split; [|exact Htok]. unfold perform. cbn [fold_left].
  rewrite (perform1_ends n wall (MPropose draft now1) w _ w1 ts n ret eq_refl (method_ends _ _ _ RRequest _ _ _ E1)).
  rewrite (perform1_ends (S n) wall (MDecide (rq_id r) p key Approved why now2) _ _ w2 ∅ _ _ eq_refl (method_ends _ _ _ RDecision _ _ _ E2)).
  by rewrite (perform1_ends (S (S n)) wall (MAuthorizeRequest (rq_id r) (request_check r) now3) _ _ w3 ∅ _ _ eq_refl (method_ends _ _ _ RToken _ _ _ E3)).
Qed.
End Progress.
