(* ===== verification/ApprovalWire.v ===== *)
(** * A concrete wire format and signature for the approval authority

    The classes of [ApprovalModel] given concrete functions, with the laws the
    theorems ask of them: rows printed on one line as hexadecimal fields
    between braces, a 256-bit checksum in the place of blake3, and a signature
    anyone can make.  Nothing here models the program; [ApprovalDemo] runs the
    authority with it. *)
From S2P Require Import Prelude Strings Bytes Effects ApprovalModel ApprovalStore ApprovalAuthority ApprovalChain.
#[local] Open Scope string_scope.

(** ** Rows on one line *)
Module Wire.
Definition is_comma (c : ascii) : bool := bool_decide (c = ","%char).
Definition is_brace (c : ascii) : bool := bool_decide (c = "}"%char).
Fixpoint body (l : list string) : string :=
  match l with [] => "" | f :: l' => to_hex f ++ String "," (body l') end.
Definition write (l : list string) : string := String "{" (body l ++ "}").
Definition read (s : string) : option (list string) :=
  match s with
  | String c s' =>
      let ps := split_on is_comma s' in
      if bool_decide (c = "{"%char) && bool_decide (last ps = Some "}") then mapM hex_pairs (removelast ps)
      else None
  | EmptyString => None
  end.

Lemma hex_lacks p s : (∀ c, is_ascii_hexdigit c = true → p c = false) → lacks p (to_hex s) = true.
Proof.
  intros Hp. pose proof (all_hex_to_hex s) as Ha. unfold all_hex in Ha. induction (to_hex s) as [|c h IH]; [done|].
  cbn in *. apply andb_prop in Ha as [Hc Ha]. rewrite IH by done. rewrite negb_involutive in Hc. by rewrite Hp.
Qed.
Lemma hexdigit_not c d : is_ascii_hexdigit d = false → is_ascii_hexdigit c = true → bool_decide (c = d) = false.
Proof. intros Hd Hc. apply bool_decide_eq_false. by intros ->; rewrite Hd in Hc. Qed.
Lemma body_lacks p l :
  p ","%char = false → (∀ c, is_ascii_hexdigit c = true → p c = false) → lacks p (body l) = true.
Proof.
  intros Hc Hp. induction l as [|f l IH]; [done|]. cbn [body]. rewrite lacks_app, hex_lacks by done. cbn.
  by rewrite Hc.
Qed.
Lemma split_write l : split_on is_comma (body l ++ "}") = (map to_hex l ++ ["}"])%list.
Proof.
  induction l as [|f l IH]; [done|]. cbn [body]. rewrite append_assoc.
  change (String "," (body l) ++ "}") with (String "," (body l ++ "}")).
  rewrite split_on_app, split_on_lacks, IH; [done| |done]. apply hex_lacks. intros c. by apply hexdigit_not.
Qed.
Lemma read_write l : read (write l) = Some l.
Proof.
  unfold read, write. rewrite split_write, last_snoc, removelast_last. rewrite !bool_decide_eq_true_2 by done. cbn [andb].
  induction l as [|f l IH]; [done|]. cbn. by rewrite hex_pairs_to_hex; cbn; rewrite IH.
Qed.
Lemma split_mono p q s : lacks q s = true → Forall (λ w, lacks q w = true) (split_on p s).
Proof.
  induction s as [|c s IH]; cbn; [by repeat constructor|]. intros [Hc Hs]%andb_prop. specialize (IH Hs).
  destruct (p c); [by constructor|]. destruct (split_on p s); [by repeat constructor; cbn; rewrite Hc|].
  apply Forall_cons in IH as [? ?]. constructor; [cbn; by rewrite Hc|done].
Qed.
Lemma read_prefix l p q : write l = (p ++ q)%string → q ≠ "" → read p = None.
Proof.
  unfold write. intros Hw Hq. destruct p as [|c p]; [done|]. injection Hw as <- Hw. cbn [read].
  rewrite bool_decide_eq_true_2 by done. rewrite bool_decide_eq_false_2; [done|]. intros Hl.
  assert (lacks is_brace p = true) as Hp.
  { destruct (append_snoc_inv p (body l) "}"%char q Hw) as [->|[w Hb]].
    - exfalso. apply (f_equal String.length) in Hw. rewrite !length_append in Hw. cbn in Hw.
      destruct q; [done|cbn in Hw; lia].
    - pose proof (body_lacks is_brace l eq_refl) as Hb2. rewrite Hb, lacks_app in Hb2.
      apply andb_prop in Hb2; [apply Hb2|]. intros c. by apply hexdigit_not. }
  apply (split_mono is_comma) in Hp. rewrite Forall_forall in Hp.
  apply last_Some_elem_of in Hl. by apply Hp in Hl.
Qed.

Lemma write_last l : ends_with (λ c, bool_decide (c = carriage_return)) (write l) = false.
Proof. unfold write. change (String "{" (body l ++ "}")) with (String "{" (body l) ++ "}"). by rewrite ends_with_app. Qed.
Lemma write_one l : lacks is_newline (write l) = true.
Proof.
  unfold write. cbn [lacks]. rewrite lacks_app, body_lacks; [done|done|]. intros c. by apply hexdigit_not.
Qed.
Lemma ascii_utf8 s : lacks (λ c, negb (uchar (String c ""))) s = true → utf8 s = true.
Proof.
  induction s as [|c s IH]; cbn [lacks utf8]; [done|]. intros [Hc Hs]%andb_prop. rewrite negb_involutive in Hc.
  by rewrite Hc, IH.
Qed.
Lemma write_utf8 l : utf8 (write l) = true.
Proof.
  apply ascii_utf8. unfold write. cbn [lacks]. rewrite lacks_app, body_lacks; [done|done|].
  intros [[] [] [] [] [] [] [] []]; cbn; (done || discriminate).
Qed.
End Wire.

(** ** Fields *)
Fixpoint bits (p : positive) : string :=
  match p with xH => "1" | xO p => String "0" (bits p) | xI p => String "1" (bits p) end.
Fixpoint of_bits (s : string) : option positive :=
  match s with
  | "" => None
  | "1" => Some xH
  | String c s' => (if bool_decide (c = "1"%char) then xI else xO) <$> of_bits s'
  end.
Lemma of_bits_bits p : of_bits (bits p) = Some p.
Proof.
  induction p as [p IH|p IH|]; [| |done]; cbn [bits of_bits].
  - destruct (bits p) eqn:E; [by destruct p|]. by rewrite IH.
  - by rewrite IH.
Qed.
Definition of_N (n : N) : string := match n with N0 => "0" | Npos p => bits p end.
Definition to_N (s : string) : option N :=
  match s with "0" => Some 0%N | _ => Npos <$> of_bits s end.
Lemma to_of_N n : to_N (of_N n) = Some n.
Proof.
  destruct n as [|p]; [done|]. unfold to_N, of_N. rewrite of_bits_bits. cbn.
  destruct p; cbn; [done| |done]. by destruct (bits p) eqn:E; [destruct p|].
Qed.

Definition all_kinds : list ApprovalKind :=
  [EngineeringConstraintRelaxation; EngineeringAcceptanceCriteriaChange; EngineeringProofObligationWaiver;
   EngineeringModelValidityOverride; EngineeringVerifiedConstraintChange; SupplyShouldCostAssumptionOverride;
   SupplySupplierQualification; SupplyAvlChange; SupplyRfqAcceptance; SupplyPurchaseOrder; SupplySupplierMessage;
   SupplyPaymentTerms; SupplyContractTerms; SupplyTariffClassification; SupplyInventoryPolicy; SupplyPlanProceed].
Definition to_kind (s : string) : option ApprovalKind := List.find (λ k, String.eqb (kind_str k) s) all_kinds.
Lemma to_kind_str k : to_kind (kind_str k) = Some k.
Proof. by destruct k. Qed.
Definition of_risk (r : RiskLevel) : string :=
  match r with Low => "low" | Medium => "medium" | High => "high" | Critical => "critical" end.
Definition to_risk (s : string) : option RiskLevel :=
  List.find (λ r, String.eqb (of_risk r) s) [Low; Medium; High; Critical].
Lemma to_of_risk r : to_risk (of_risk r) = Some r.
Proof. by destruct r. Qed.
Definition of_who (k : PrincipalKind) : string :=
  match k with HumanOperator => "human_operator" | Agent => "agent" | Service => "service" end.
Definition to_who (s : string) : option PrincipalKind :=
  List.find (λ k, String.eqb (of_who k) s) [HumanOperator; Agent; Service].
Lemma to_of_who k : to_who (of_who k) = Some k.
Proof. by destruct k. Qed.

#[local] Arguments to_kind : simpl never.
#[local] Arguments to_risk : simpl never.
#[local] Arguments to_who : simpl never.
#[local] Arguments to_N : simpl never.

(** ** Rows *)
Definition of_request (r : ApprovalRequest) : list string :=
  rq_id r :: kind_str (rq_kind r) :: rq_subject r :: rq_proposed_change r :: of_risk (rq_risk r)
  :: pr_id (rq_requester r) :: of_who (pr_kind (rq_requester r)) :: rq_bound_revision r :: rq_bound_digest r
  :: of_N (rq_created_at_ms r) :: of_N (rq_expires_at_ms r) :: rq_evidence r.
Definition to_request (l : list string) : option ApprovalRequest :=
  match l with
  | id :: kind :: subject :: change :: risk :: who :: kind_of :: revision :: digest :: created :: expires :: evidence =>
      k ← to_kind kind; r ← to_risk risk; p ← to_who kind_of; c ← to_N created; e ← to_N expires;
      Some (MkRequest id k subject evidence change r (MkPrincipal who p) revision digest c e)
  | _ => None
  end.
Lemma to_of_request r : to_request (of_request r) = Some r.
Proof. destruct r as [? ? ? ? ? ? []]. cbn. by rewrite to_kind_str, to_of_risk, to_of_who, !to_of_N. Qed.

Definition of_outcome (o : DecisionOutcome) : list string :=
  match o with Approved => ["approved"; ""] | DeniedFor why => ["denied"; why] end.
Definition to_outcome (tag why : string) : DecisionOutcome :=
  if String.eqb tag "approved" then Approved else DeniedFor why.
Definition of_decision (d : ApprovalDecision) : list string :=
  [dc_request_id d; dc_request_digest d; pr_id (dc_principal d); of_who (pr_kind (dc_principal d));
   dc_rationale d; of_N (dc_decided_at_ms d); sg_algorithm (dc_signature d); sg_key_id (dc_signature d);
   sg_public_key (dc_signature d); sg_signature (dc_signature d)] ++ of_outcome (dc_outcome d).
Definition to_decision (l : list string) : option ApprovalDecision :=
  match l with
  | [id; digest; who; kind_of; rationale; decided; alg; key; pub; sig; tag; why] =>
      p ← to_who kind_of; t ← to_N decided;
      Some (MkDecision id digest (to_outcome tag why) (MkPrincipal who p) rationale t (MkSignature alg key pub sig))
  | _ => None
  end.
Lemma to_of_decision d : to_decision (of_decision d) = Some d.
Proof. destruct d as [? ? [] [] ? ? []]; cbn; by rewrite to_of_who, to_of_N. Qed.

#[local] Arguments to_request : simpl never.
#[local] Arguments to_decision : simpl never.
Definition of_body (b : LedgerBody) : list string :=
  match b with Requested r => "requested" :: of_request r | Decided d => "decided" :: of_decision d end.
Definition to_body (l : list string) : option LedgerBody :=
  match l with
  | tag :: l' => if String.eqb tag "requested" then Requested <$> to_request l' else Decided <$> to_decision l'
  | [] => None
  end.
Lemma to_of_body b : to_body (of_body b) = Some b.
Proof. destruct b; cbn [of_body to_body String.eqb Ascii.eqb Bool.eqb]; by rewrite ?to_of_request, ?to_of_decision. Qed.

#[local] Arguments to_body : simpl never.
Definition of_entry (e : LedgerEntry) : list string :=
  le_schema e :: of_N (le_seq e) :: of_N (le_recorded_at_ms e) :: le_prev_digest e :: le_digest e :: of_body (le_body e).
Definition to_entry (l : list string) : option LedgerEntry :=
  match l with
  | schema :: seq :: at_ms :: prev :: digest :: b =>
      n ← to_N seq; t ← to_N at_ms; b ← to_body b; Some (MkEntry schema n t prev b digest)
  | _ => None
  end.
Lemma to_of_entry e : to_entry (of_entry e) = Some e.
Proof. destruct e. cbn. by rewrite !to_of_N; cbn; rewrite to_of_body. Qed.
Definition of_entry_identity (e : EntryIdentity) : list string :=
  ei_schema e :: of_N (ei_seq e) :: of_N (ei_recorded_at_ms e) :: ei_prev_digest e :: of_body (ei_body e).

Definition of_identity (i : RequestIdentity) : list string :=
  [kind_str (ri_kind i); ri_subject i; ri_proposed_change i; of_risk (ri_risk i); pr_id (ri_requester i);
   of_who (pr_kind (ri_requester i)); ri_bound_revision i; ri_bound_digest i; of_N (ri_created_at_ms i);
   of_N (ri_expires_at_ms i)] ++ ri_evidence i.
Definition of_statement (s : DecisionStatement) : list string :=
  [ds_schema s; ds_request_id s; ds_request_digest s; pr_id (ds_principal s); of_who (pr_kind (ds_principal s));
   ds_rationale s; of_N (ds_decided_at_ms s)] ++ of_outcome (ds_outcome s).

Definition to_head (l : list string) : option LedgerHead :=
  match l with [s; n; d] => n ← to_N n; Some (MkHead s n d) | _ => None end.
Definition to_anchor (l : list string) : option LedgerAnchor :=
  match l with [s; n; d] => n ← to_N n; Some (MkAnchor s n d) | _ => None end.
Definition to_clock (l : list string) : option ClockAnchorRow :=
  match l with [s; n] => n ← to_N n; Some (MkClock s n) | _ => None end.

Definition of_operator (o : RegisteredOperator) : list string :=
  [ro_principal_id o; ro_key_id o; ro_public_key o; of_N (ro_registered_at_ms o)].
Fixpoint to_operators (l : list string) : option (list RegisteredOperator) :=
  match l with
  | [] => Some []
  | p :: k :: pk :: t :: l' => t ← to_N t; os ← to_operators l'; Some (MkOperator p k pk t :: os)
  | _ => None
  end.
Definition to_registry (l : list string) : option OperatorRegistryFile :=
  match l with s :: l' => os ← to_operators l'; Some (MkRegistry s os) | [] => None end.
Fixpoint of_operators (os : list RegisteredOperator) : list string :=
  match os with [] => [] | o :: os' => of_operator o ++ of_operators os' end.
Lemma to_of_operators os : to_operators (of_operators os) = Some os.
Proof. induction os as [|[] os IH]; [done|]. cbn. by rewrite to_of_N; cbn; rewrite IH. Qed.

(** ** The instances *)
#[export] Instance enc_request : Encode ApprovalRequest := λ r, Wire.write (of_request r).
#[export] Instance enc_identity : Encode RequestIdentity := λ r, Wire.write (of_identity r).
#[export] Instance enc_statement : Encode DecisionStatement := λ r, Wire.write (of_statement r).
#[export] Instance enc_entry_identity : Encode EntryIdentity := λ r, Wire.write (of_entry_identity r).
#[export] Instance enc_entry : Encode LedgerEntry := λ r, Wire.write (of_entry r).
#[export] Instance dec_entry : Decode LedgerEntry := λ s, l ← Wire.read s; to_entry l.
#[export] Instance enc_head : Encode LedgerHead := λ h, Wire.write [lh_schema h; of_N (lh_seq h); lh_digest h].
#[export] Instance dec_head : Decode LedgerHead := λ s, l ← Wire.read s; to_head l.
#[export] Instance enc_anchor : Encode LedgerAnchor := λ h, Wire.write [la_schema h; of_N (la_seq h); la_digest h].
#[export] Instance dec_anchor : Decode LedgerAnchor := λ s, l ← Wire.read s; to_anchor l.
#[export] Instance enc_clock : Encode ClockAnchorRow := λ c, Wire.write [ca_schema c; of_N (max_seen_wall_ms c)].
#[export] Instance dec_clock : Decode ClockAnchorRow := λ s, l ← Wire.read s; to_clock l.
#[export] Instance enc_registry : Encode OperatorRegistryFile :=
  λ f, Wire.write (rf_schema f :: of_operators (rf_operators f)).
#[export] Instance dec_registry : Decode OperatorRegistryFile := λ s, l ← Wire.read s; to_registry l.
#[export] Instance scanner : Scanner := λ s, starts_with "sk-" s.

(** [n] as [k] bytes, least significant first. *)
Fixpoint le_bytes (k : nat) (n : N) : string :=
  match k with 0 => "" | S k' => String (ascii_of_N (N.land n 255)) (le_bytes k' (N.shiftr n 8)) end.
Fixpoint checksum (h : N) (s : string) : N :=
  match s with
  | "" => h
  | String c s' => checksum (N.land (h * 31 + N_of_ascii c + 1) (N.ones 256)) s'
  end.
Definition digest (s : string) : string := le_bytes 32 (checksum 7 s).
Definition seal (pk m : string) : string := (digest (pk ++ m) ++ digest (m ++ pk))%string.
#[export] Instance crypto : Crypto := {
  blake3 := digest;
  SigningKey := string;
  verifying_key := digest;
  ed25519_sign k m := seal (digest k) m;
  key_from_bytes pk := Nat.eqb (String.length pk) 32;
  ed25519_verify pk m s := String.eqb s (seal pk m)
}.

Lemma length_le_bytes k n : String.length (le_bytes k n) = k.
Proof. revert n. induction k; intros n; cbn; [done|]. by rewrite IHk. Qed.
#[export] Instance lawful_crypto : LawfulCrypto.
Proof.
  split.
  - intros s. apply length_le_bytes.
  - intros k. apply length_le_bytes.
  - intros k m. change (String.length (seal (digest k) m) = 64). unfold seal, digest.
    by rewrite length_append, !length_le_bytes.
  - intros k. apply Nat.eqb_eq, length_le_bytes.
  - intros k m. apply String.eqb_refl.
Qed.

#[export] Instance head_json : LawfulJson LedgerHead.
Proof. intros []. unfold from_slice, to_vec, dec_head, enc_head. rewrite Wire.read_write. cbn. by rewrite to_of_N. Qed.
#[export] Instance anchor_json : LawfulJson LedgerAnchor.
Proof. intros []. unfold from_slice, to_vec, dec_anchor, enc_anchor. rewrite Wire.read_write. cbn. by rewrite to_of_N. Qed.
#[export] Instance clock_json : LawfulJson ClockAnchorRow.
Proof. intros []. unfold from_slice, to_vec, dec_clock, enc_clock. rewrite Wire.read_write. cbn. by rewrite to_of_N. Qed.
#[export] Instance registry_json : LawfulJson OperatorRegistryFile.
Proof.
  intros []. unfold from_slice, to_vec, dec_registry, enc_registry. rewrite Wire.read_write. cbn [mbind option_bind].
  unfold to_registry. by rewrite to_of_operators.
Qed.
#[export] Instance entry_line : JsonLine LedgerEntry.
Proof.
  split; unfold to_vec, from_slice, dec_entry, enc_entry.
  - intros e. unfold to_vec, from_slice. rewrite Wire.read_write. apply to_of_entry.
  - intros e. unfold Wire.write. eauto.
  - intros e. apply Wire.write_last.
  - intros e. apply Wire.write_one.
  - intros e. apply Wire.write_utf8.
  - intros e p q Hp Hq. by rewrite (Wire.read_prefix _ _ _ Hp Hq).
Qed.
#[export] Instance entry_identity_inj : Inj (=) (=) (to_vec (T:=EntryIdentity)).
Proof.
  intros [] [] He. unfold to_vec, enc_entry_identity in He. apply (f_equal Wire.read) in He.
  rewrite !Wire.read_write in He. cbn in He. injection He as -> Hn Ht -> Hb.
  apply (f_equal to_N) in Hn, Ht. apply (f_equal to_body) in Hb. rewrite !to_of_N in Hn, Ht.
  rewrite !to_of_body in Hb. congruence.
Qed.

(** ** The rows are short *)
Lemma length_bits p k : (Npos p < 2 ^ N.of_nat k)%N → (String.length (bits p) ≤ k)%nat.
Proof.
  revert k. induction p as [p IH|p IH|]; intros [|k] Hp; cbn [bits String.length]; try (cbn in Hp; lia).
  all: rewrite Nat2N.inj_succ, N.pow_succ_r' in Hp; apply le_n_S, IH; lia.
Qed.
Lemma slen_of_N n : (n < 2 ^ 64)%N → (slen (of_N n) <= 64)%N.
Proof.
  intros Hn. unfold slen. destruct n as [|p]; [done|]. pose proof (length_bits p 64 Hn). unfold of_N. lia.
Qed.
Fixpoint total (l : list string) : N := match l with [] => 2 | f :: l' => slen f * 2 + 1 + total l' end.
Lemma slen_cons c s : slen (String c s) = (1 + slen s)%N.
Proof. unfold slen. cbn [String.length]. lia. Qed.
Lemma slen_write l : slen (Wire.write l) = total l.
Proof.
  unfold Wire.write. rewrite slen_cons, slen_app. induction l as [|f l IH]; [done|].
  cbn [Wire.body total]. rewrite slen_app, slen_to_hex, slen_cons, <- IH. lia.
Qed.
#[export] Instance wire_short : ShortRows.
Proof.
  split; unfold to_vec, enc_head, enc_anchor, enc_clock.
  - intros n d Hn%slen_of_N [Hd%N.eqb_eq _]%andb_prop. rewrite slen_write. cbn [total lh_schema lh_seq lh_digest].
    change (slen LEDGER_HEAD_SCHEMA) with 30%N. unfold MAX_LEDGER_HEAD_BYTES. lia.
  - intros n d Hn%slen_of_N [Hd%N.eqb_eq _]%andb_prop. rewrite slen_write. cbn [total la_schema la_seq la_digest].
    change (slen LEDGER_ANCHOR_SCHEMA) with 32%N. unfold MAX_LEDGER_HEAD_BYTES. lia.
  - intros n Hn%slen_of_N. rewrite slen_write. cbn [total ca_schema max_seen_wall_ms].
    change (slen CLOCK_ANCHOR_SCHEMA) with 31%N. unfold MAX_CLOCK_ANCHOR_BYTES. lia.
Qed.
