(* ===== verification/ApprovalDemo.v ===== *)
(** * The approval authority at work

    An operator registers a key, an agent proposes a change, the operator
    approves it and the agent gets its token; the theorems about the authority
    applied to runs of this and of an authority whose disk filled up. *)
From S2P Require Import Prelude Strings Bytes Effects ApprovalModel ApprovalStore ApprovalAuthority.
From S2P Require Import ApprovalSystem ApprovalChain ApprovalText ApprovalRuns ApprovalLogic ApprovalInv.
From S2P Require Import ApprovalSafe ApprovalThms ApprovalJam ApprovalProgress ApprovalWire.
#[local] Open Scope string_scope.

Module ApprovalDemo.
Definition alice : Principal := MkPrincipal "alice" HumanOperator.
Definition bound : string := "0123456789abcdef0123456789abcdef0123456789abcdef0123456789abcdef".
Definition draft : ApprovalDraft :=
  MkDraft SupplyPurchaseOrder "po-17" ["quote 42"] "buy 40 bearings" Medium
    (MkPrincipal "agent-7" Agent) "r3" bound 2000.
Definition check : ApprovalCheck := MkCheck SupplyPurchaseOrder "po-17" "r3" bound.
Definition on_time (m : Method) : Turn := (m, 1000%N, None).

Definition proposed : System := perform [on_time (MRegister "alice" "key a" 900); on_time (MPropose draft 1000)] initial.
Definition newest_id (s : System) : string :=
  match returned s with (_, RRequest (Ok r)) :: _ => rq_id r | _ => "" end.
Definition the_id : string := newest_id proposed.
Definition decided : System := perform [on_time (MDecide the_id alice "key a" Approved "fine" 1100)] proposed.
Definition granted : System := perform [on_time (MAuthorize check 1200); on_time (MAuthorizeRequest the_id check 1300)] decided.
(** The clock passes the request's end, then runs backwards. *)
Definition late : System := perform [on_time (MAuthorize check 2500)] granted.
Definition again : System := perform [on_time (MAuthorizeRequest the_id check 1300)] late.
(** Another request, once the first has expired. *)
Definition draft_2 : ApprovalDraft :=
  MkDraft SupplyPurchaseOrder "po-18" [] "buy 12 seals" Low (MkPrincipal "agent-7" Agent) "r1" bound 9000.
Definition asked_again : System := perform [on_time (MPropose draft_2 2600)] late.
Definition id_2 : string := newest_id asked_again.
Definition granted_2 : System :=
  perform [on_time (MDecide id_2 alice "key a" Approved "fine" 2700);
           on_time (MAuthorizeRequest id_2 (MkCheck SupplyPurchaseOrder "po-18" "r1" bound) 2800)] asked_again.
(** The disk is full after 100 bytes of the decision's line; then there is
    room again. *)
Definition torn : System := perform [(MDecide the_id alice "key a" Approved "fine" 1100, 1000%N, Some 100)] proposed.
Definition retried : System :=
  perform [on_time (MDecide the_id alice "key a" Approved "fine" 1200); on_time MList] torn.

(** One more program on that disk: what it saw, what it answered. *)
Definition tried {A} (none : A) (r : option (list Obs * A * World)) : list Obs * A :=
  match r with Some (tr, a, _) => (tr, a) | None => ([], none) end.
Lemma tried_run {A} (none : A) (p : Prog A) w :
  is_Some (finish 9 1000 None p w) →
  run p (tried none (finish 9 1000 None p w)).1 (tried none (finish 9 1000 None p w)).2.
Proof. intros [[[tr a] w'] Hf]. rewrite Hf. by eapply finish_run. Qed.
Definition answer_to (m : Method) (s : System) : list Obs * Answer :=
  tried (ROperator (Err NotFound)) (finish 9 1000 None (run_method m) (world s)).
Definition token_in (a : Answer) : ApprovalToken :=
  match token_of a with Some t => t | None => MkApproval SupplyAvlChange "" "" "" "" "" 0 0 0 end.
Definition ledger_of (d : Disk) : ApprovalLedger :=
  match parse_ledger (content d Ledger) with Ok l => l | Err _ => empty_ledger end.
(** The files of [decided], with the anchor of [proposed] put back. *)
Definition rolled_anchor : World :=
  on_disk <[Anchor := to_vec (anchor_row (ledger_of (disk (world proposed))))]> (world decided).
Definition rolled_load : list Obs * outcome ApprovalLedger :=
  tried (Err NotFound) (finish 9 1000 None (load_inner true) rolled_anchor).

Lemma collision_free_decide inputs :
  bool_decide (Forall (λ a, Forall (λ b, blake3 a = blake3 b → a = b) inputs) inputs) = true →
  collision_free inputs.
Proof.
  intros Hf%bool_decide_eq_true a b Ha Hb. rewrite Forall_forall in Hf. specialize (Hf a Ha).
  rewrite Forall_forall in Hf. by apply Hf.
Qed.

Lemma tampering_is_detected_witness :
  entries (ledger_of (disk (world proposed))) `prefix_of` entries (ledger_of (disk (world decided)))
  ∧ (true = false → entries (ledger_of (disk (world decided))) = entries (ledger_of (disk (world proposed)))).
Proof.
  apply (tampering_is_detected (ledger_of (disk (world proposed))) (ledger_of (disk (world decided)))
           true rolled_load.1).
  - apply _.
  - vm_compute. reflexivity.
  - vm_compute. discriminate.
  - assert (Ok (ledger_of (disk (world decided))) = rolled_load.2) as -> by (vm_compute; reflexivity).
    unfold rolled_load. apply tried_run. vm_compute. eauto.
  - vm_compute. repeat (left || right).
  - apply collision_free_decide. vm_compute. reflexivity.
Defined.

Lemma token_takes_a_human_witness :
  asked (MAuthorize check 1200) (token_in (answer_to (MAuthorize check 1200) decided).2)
  ∧ ∃ l operators r d now_ms,
      loaded l (answer_to (MAuthorize check 1200) decided).1
      ∧ registered operators (answer_to (MAuthorize check 1200) decided).1
      ∧ approval l operators now_ms (token_in (answer_to (MAuthorize check 1200) decided).2) r d
      ∧ clocked 1200 now_ms (answer_to (MAuthorize check 1200) decided).1 ∧ (1200 <= now_ms)%N.
Proof.
  apply (token_takes_a_human (MAuthorize check 1200) _ (answer_to (MAuthorize check 1200) decided).2).
  - unfold answer_to. apply tried_run. vm_compute. eauto.
  - vm_compute. reflexivity.
Defined.

(** The systems above are reachable, with nothing running. *)
Definition at_rest (s : System) : Prop := reachable s ∧ threads s = ∅.
Lemma perform_at_rest ms s : at_rest s → at_rest (perform ms s) ∧ rtc step s (perform ms s).
Proof.
  intros [Hs Ht]. destruct (perform_steps ms s Ht) as [Hst ?]. split; [split; [|done]|done].
  by apply (transitivity (R:=rtc step) Hs).
Qed.
Lemma proposed_at_rest : at_rest proposed.
Proof. refine (proj1 (perform_at_rest _ _ _)). split; [apply rtc_refl|done]. Qed.
Lemma decided_at_rest : at_rest decided.
Proof. exact (proj1 (perform_at_rest _ _ proposed_at_rest)). Qed.
Lemma granted_at_rest : at_rest granted.
Proof. exact (proj1 (perform_at_rest _ _ decided_at_rest)). Qed.
Lemma late_at_rest : at_rest late.
Proof. exact (proj1 (perform_at_rest _ _ granted_at_rest)). Qed.
Lemma asked_again_at_rest : at_rest asked_again.
Proof. exact (proj1 (perform_at_rest _ _ late_at_rest)). Qed.
Lemma torn_at_rest : at_rest torn.
Proof. exact (proj1 (perform_at_rest _ _ proposed_at_rest)). Qed.
Lemma decided_then : rtc step decided granted.
Proof. exact (proj2 (perform_at_rest _ _ decided_at_rest)). Qed.
Lemma late_then_1 : rtc step late asked_again.
Proof. exact (proj2 (perform_at_rest _ _ late_at_rest)). Qed.
Lemma late_then_2 : rtc step asked_again granted_2.
Proof. exact (proj2 (perform_at_rest _ _ asked_again_at_rest)). Qed.
Lemma late_then : rtc step late granted_2.
Proof. exact (transitivity (R:=rtc step) late_then_1 late_then_2). Qed.
Lemma torn_then : rtc step torn retried.
Proof. exact (proj2 (perform_at_rest _ _ torn_at_rest)). Qed.

Lemma approvals_form_a_chain_witness :
  ∃ l, Chain l ∧ entries l = hist (disk (world decided)) ∧ NoDup (slot ∘ le_body <$> entries l)
  ∧ (∀ e r, e ∈ entries l → le_body e = Requested r → request_validate r = Ok tt)
  ∧ (∀ j e dc, entries l !! j = Some e → le_body e = Decided dc →
      ∃ i e' r, i < j ∧ entries l !! i = Some e' ∧ le_body e' = Requested r ∧ settles r dc)
  ∧ ∀ now_ms, Forall (λ e, le_recorded_at_ms e <= now_ms)%N (entries l) →
      (open_count l now_ms <= MAX_OPEN_APPROVALS)%N.
Proof. apply (approvals_form_a_chain decided). apply decided_at_rest. Defined.

(** The decision answered first is on record when the second request is
    decided. *)
Lemma answers_are_durable_witness :
  ∃ a, (2, a) ∈ returned decided
  ∧ hist (disk (world decided)) `prefix_of` hist (disk (world granted)) ∧ kept 0 a (disk (world granted)).
Proof.
  eexists. split; [vm_compute; left|].
  apply (answers_are_durable decided granted 2).
  - apply decided_at_rest.
  - apply decided_then.
  - vm_compute. left.
Defined.

(** The first request has expired; the token for the second is another's. *)
Lemma expiry_is_final_witness :
  ∃ a0 a1 tok, (5, a0) ∈ returned late ∧ (8, a1) ∈ returned granted_2 ∧ token_of a1 = Some tok
  ∧ tn_request_id tok = id_2 ∧ tn_request_id tok ≠ the_id.
Proof.
  eexists _, _, _. split_and!.
  - vm_compute. left.
  - vm_compute. left.
  - vm_compute. reflexivity.
  - vm_compute. reflexivity.
  - eapply (expiry_is_final late granted_2 5 _ the_id 8).
    + apply late_at_rest.
    + vm_compute. left.
    + vm_compute. reflexivity.
    + apply late_then.
    + vm_compute. left.
    + vm_compute. lia.
    + vm_compute. reflexivity.
Defined.
(** The decision's line is cut short on the disk.  Retrying is refused, and so
    is looking. *)
Definition ledger_2 : ApprovalLedger := ledger_of (disk (world decided)).
Definition last_of (l : ApprovalLedger) : LedgerEntry :=
  match last (entries l) with Some e => e | None => MkEntry "" 0 0 "" (Requested (MkRequest "" SupplyAvlChange "" [] "" Low alice "" "" 0 0)) "" end.
Definition last_entry : LedgerEntry := last_of ledger_2.
Lemma chain_at_rest s l : at_rest s → replay_from empty_ledger (hist (disk (world s))) = Ok l → Chain l.
Proof.
  intros [Hs _] Hl. destruct (reachable_chain s Hs) as (l0 & Hc & He).
  rewrite <- He, chain_replays in Hl by done. by injection Hl as <-.
Qed.
Lemma torn_interrupted : Interrupted (disk (world torn)).
Proof.
  apply (int_line _ (ledger_of (disk (world proposed))) ledger_2 last_entry
           (String.substring 0 100 (line_of last_entry)) (String.substring 100 3000 (line_of last_entry))).
  split.
  - apply (chain_at_rest proposed); [apply proposed_at_rest|]. vm_compute. reflexivity.
  - apply (chain_at_rest decided); [apply decided_at_rest|]. vm_compute. reflexivity.
  - vm_compute. reflexivity.
  - vm_compute. reflexivity.
  - vm_compute. discriminate.
  - vm_compute. reflexivity.
  - vm_compute. reflexivity.
  - vm_compute. reflexivity.
Qed.
Lemma interrupted_append_jams_witness :
  (∀ f, protects LedgerLock f → disk (world retried) !! f = disk (world torn) !! f)
  ∧ ∀ t a, (t, a) ∈ returned retried → (next_thread torn ≤ t)%nat → failed a.
Proof.
  apply (interrupted_append_jams torn retried).
  - apply torn_at_rest.
  - apply torn_at_rest.
  - apply torn_interrupted.
  - apply torn_then.
Defined.

(** The proposal, the decision and the token, as the theorem has them. *)
Definition alice_key : SigningKey := "key a".
Definition registered_only : System := perform [on_time (MRegister "alice" "key a" 900)] initial.
Definition ok_or {A} (a : A) (r : outcome A) : A := match r with Ok a => a | Err _ => a end.
Definition no_request : ApprovalRequest := MkRequest "" SupplyAvlChange "" [] "" Low alice "" "" 0 0.
Definition no_decision : ApprovalDecision := MkDecision "" "" Approved alice "" 0 (MkSignature "" "" "" "").
Definition request_1 : ApprovalRequest := ok_or no_request (request_propose draft 1000).
Definition decision_1 : ApprovalDecision :=
  ok_or no_decision (decision_issue request_1 Approved alice "fine" 1100 "key a").
Definition operators_1 : list RegisteredOperator :=
  ok_or [] (parse_registry (content (disk (world registered_only)) Registry)).
Lemma registered_only_good : Good (world registered_only) empty_ledger operators_1.
Proof.
  split.
  - split; [constructor|vm_compute; reflexivity..].
  - vm_compute. exact I.
  - exists (content (disk (world registered_only)) Registry). split; vm_compute; reflexivity.
Qed.
Lemma approval_goes_through_witness :
  ∃ tok, returned (perform [(MPropose draft 1000, 1000%N, None);
                            (MDecide (rq_id request_1) alice "key a" Approved "fine" 1100, 1000%N, None);
                            (MAuthorizeRequest (rq_id request_1) (request_check request_1) 1200, 1000%N, None)] registered_only)
         = (3, RToken (Ok tok)) :: (2, RDecision (Ok decision_1)) :: (1, RRequest (Ok request_1))
           :: returned registered_only
    ∧ tn_request_id tok = rq_id request_1 ∧ token_check tok = request_check request_1
    ∧ tn_expires_at_ms tok = rq_expires_at_ms request_1.
Proof.
  apply (approval_goes_through registered_only empty_ledger operators_1 draft request_1 alice "fine" alice_key
           decision_1 1000 1100 1200 1000 registered_only_good).
  - vm_compute. reflexivity.
  - vm_compute. discriminate.
  - vm_compute. discriminate.
  - split; vm_compute; discriminate.
  - vm_compute. reflexivity.
  - vm_compute. reflexivity.
  - vm_compute. reflexivity.
  - vm_compute. reflexivity.
  - apply (bool_decide_unpack _). vm_compute. exact I.
  - vm_compute. reflexivity.
  - vm_compute. reflexivity.
  - vm_compute. discriminate.
Defined.
End ApprovalDemo.
