(* ===== verification/UpdaterManifest.v ===== *)
(** * Signed update manifests ([crates/updater/src/version.rs], [compat.rs], [channel.rs], [keys.rs], [manifest.rs], [error.rs])

    Versions and closed ranges, the compatibility policy, release channels with
    the deterministic selection, the operator's key allowlist, and the manifest:
    its shape, its canonical JSON, its authentication.  serde_json, SHA-256,
    base64 and ed25519 are parameters.  An error is its kind with the values
    its caller can tell apart, never its prose; a [Version] carries the fact
    that its fields are those of its text, since [Version::parse] is its only
    constructor. *)
From S2P Require Import Prelude Strings Bytes.
From stdpp Require Import sorting pretty.
#[local] Open Scope string_scope.
#[local] Open Scope N_scope.

(** [str::contains] of a pattern *)
Fixpoint contains (pat s : string) : bool :=
  starts_with pat s || match s with EmptyString => false | String _ s' => contains pat s' end.
Definition is_ascii (s : string) : bool := lacks (λ c, 127 <? N_of_ascii c) s.
Definition is_ascii_digit (c : ascii) : bool := (48 <=? N_of_ascii c) && (N_of_ascii c <=? 57).
Definition is_ascii_alphanumeric (c : ascii) : bool :=
  is_ascii_digit c || byte_in 65 90 c || byte_in 97 122 c.
Definition is_lower_hex (value : string) (len : N) : bool :=
  (slen value =? len) && lacks (λ c, negb (is_ascii_digit c || byte_in 97 102 c)) value.

(** ** Versions *)
Definition is_dot (c : ascii) : bool := bool_decide (c = "."%char).
Fixpoint decimal (acc : N) (s : string) : N :=
  match s with
  | EmptyString => acc
  | String c s' => decimal (acc * 10 + (N_of_ascii c - 48)) s'
  end.
Definition version_field (part : string) : option N :=
  if bool_decide (part = "") || negb (lacks (λ c, negb (is_ascii_digit c)) part) then None
  else if (1 <? slen part) && starts_with "0" part then None
  else if U32.max <? decimal 0 part then None
  else Some (decimal 0 part).
Definition strip_v (raw : string) : string :=
  match raw with String "v" s => s | _ => raw end.
(** The four fields a text spells, if it is a version. *)
Definition version_fields (raw : string) : option (list N) :=
  let trimmed := strip_v raw in
  if bool_decide (raw = "") || (64 <? slen raw) then None
  else if negb (is_ascii trimmed) then None
  else let parts := split_on is_dot trimmed in
    if (4 <? N.of_nat (length parts)) then None
    else fields ← mapM version_field parts;
      Some (fields ++ replicate (4 - length fields) 0)%list.
Record Version := MkVersion {
  v_raw : string; v_fields : list N; v_parsed : Is_true (bool_decide (version_fields v_raw = Some v_fields)) }.
Definition parse_version (raw : string) : option Version :=
  match version_fields raw as f return version_fields raw = f → option Version with
  | Some fields => λ H, Some (MkVersion raw fields (Is_true_eq_left _ (bool_decide_eq_true_2 _ H)))
  | None => λ _, None
  end eq_refl.
#[global] Instance Version_eq_dec : EqDecision Version.
Proof.
  intros [a fa Ha] [b fb Hb]. destruct (decide (a = b ∧ fa = fb)) as [[-> ->]|Hn].
  - left. f_equal. apply Is_true_pi.
  - right. intros [=]. tauto.
Defined.
(** [Ord] compares the numeric fields, in order. *)
Fixpoint fields_cmp (a b : list N) : comparison :=
  match a, b with
  | [], [] => Eq
  | [], _ => Lt
  | _, [] => Gt
  | x :: a, y :: b => match x ?= y with Eq => fields_cmp a b | c => c end
  end.
Definition version_cmp (a b : Version) : comparison := fields_cmp (v_fields a) (v_fields b).
Definition version_lt (a b : Version) : bool := match version_cmp a b with Lt => true | _ => false end.
Definition version_eq (a b : Version) : bool := match version_cmp a b with Eq => true | _ => false end.

Record VersionRange := MkRange { vr_min : option Version; vr_max : option Version }.
Definition range_new (min max : option Version) : option VersionRange :=
  match min, max with
  | Some a, Some b => if version_lt b a then None else Some (MkRange min max)
  | _, _ => Some (MkRange min max)
  end.
Definition parse_bound (raw : string) : option (option Version) :=
  if bool_decide (raw = "*") then Some None else Some <$> parse_version raw.
Definition range_from_parts (min max : string) : option VersionRange :=
  a ← parse_bound min; b ← parse_bound max; range_new a b.
Definition range_contains (r : VersionRange) (v : Version) : bool :=
  negb (match vr_min r with Some m => version_lt v m | None => false end)
  && negb (match vr_max r with Some m => version_lt m v | None => false end).
Definition is_unbounded (r : VersionRange) : bool :=
  match vr_min r, vr_max r with None, None => true | _, _ => false end.
Definition render_bound (b : option Version) : string :=
  match b with None => "*" | Some v => v_raw v end.
Definition range_render (r : VersionRange) : string :=
  render_bound (vr_min r) ++ ".." ++ render_bound (vr_max r).
Record SchemaRange := MkSchema { sr_min : N; sr_max : N }.
Definition schema_new (min max : N) : option SchemaRange :=
  if max <? min then None else Some (MkSchema min max).

(** ** Compatibility *)
Record Compatibility := MkCompat {
  cp_cli : VersionRange; cp_daemon : VersionRange; cp_vscode : VersionRange;
  cp_jetbrains : VersionRange; cp_schema : SchemaRange }.
Inductive Component := Cli | Daemon | Vscode | Jetbrains | Schema.
#[global] Instance Component_eq_dec : EqDecision Component.
Proof. solve_decision. Defined.
Definition ALL_COMPONENTS : list Component := [Cli; Daemon; Vscode; Jetbrains; Schema].
Inductive Verdict := Compatible | OutOfRange (running : string) | Unknown | Unconstrained.
#[global] Instance Verdict_eq_dec : EqDecision Verdict.
Proof. solve_decision. Defined.
Definition is_refusal (v : Verdict) : bool :=
  match v with OutOfRange _ | Unknown => true | _ => false end.
Record ComponentVerdict := MkRow {
  cv_component : Component; cv_running : option string; cv_range : string; cv_verdict : Verdict }.
#[global] Instance ComponentVerdict_eq_dec : EqDecision ComponentVerdict.
Proof. solve_decision. Defined.
Record CompatibilityReport := MkReport { cr_rows : list ComponentVerdict; cr_refused : bool }.
#[global] Instance CompatibilityReport_eq_dec : EqDecision CompatibilityReport.
Proof. solve_decision. Defined.
Definition refused_components (r : CompatibilityReport) : list Component :=
  cv_component <$> filter (λ row, is_refusal (cv_verdict row) = true) (cr_rows r).
Record RunningComponents := MkRunning {
  rn_cli : option Version; rn_daemon : option Version; rn_vscode : option Version;
  rn_jetbrains : option Version; rn_schema : option N }.

(** The declared range and the running version of a component, as the trait
    [RangeProbe] sees them. *)
Definition render_opt (v : option Version) : string :=
  match v with Some v => v_raw v | None => "unknown" end.
Definition version_probe (r : VersionRange) (v : option Version) : bool * bool * bool * string * string :=
  (is_unbounded r, bool_decide (is_Some v),
   match v with Some v => range_contains r v | None => false end, render_opt v, range_render r).
Definition schema_probe (r : SchemaRange) (v : option N) : bool * bool * bool * string * string :=
  (false, bool_decide (is_Some v),
   match v with Some s => (sr_min r <=? s) && (s <=? sr_max r) | None => false end,
   match v with Some s => pretty s | None => "unknown" end, pretty (sr_min r) ++ ".." ++ pretty (sr_max r)).
Definition range_probe (c : Compatibility) (r : RunningComponents) (k : Component) :
    bool * bool * bool * string * string :=
  match k with
  | Cli => version_probe (cp_cli c) (rn_cli r)
  | Daemon => version_probe (cp_daemon c) (rn_daemon r)
  | Vscode => version_probe (cp_vscode c) (rn_vscode r)
  | Jetbrains => version_probe (cp_jetbrains c) (rn_jetbrains r)
  | Schema => schema_probe (cp_schema c) (rn_schema r)
  end.
Definition component_verdict (c : Compatibility) (r : RunningComponents) (k : Component) : ComponentVerdict :=
  let '(unbounded, known, satisfied, running, range) := range_probe c r k in
  let verdict :=
    if negb known then (if unbounded then Unconstrained else Unknown)
    else if satisfied then Compatible else OutOfRange running in
  MkRow k (if known then Some running else None) range verdict.
Definition compat_check (c : Compatibility) (r : RunningComponents) : CompatibilityReport :=
  let rows := component_verdict c r <$> ALL_COMPONENTS in
  MkReport rows (existsb (λ row, is_refusal (cv_verdict row)) rows).

(** ** Channels *)
Inductive Channel := Stable | Beta | Dev.
#[global] Instance Channel_eq_dec : EqDecision Channel.
Proof. solve_decision. Defined.
Definition channel_str (c : Channel) : string :=
  match c with Stable => "stable" | Beta => "beta" | Dev => "dev" end.
Definition ALL_CHANNELS : list Channel := [Stable; Beta; Dev].
Definition parse_channel (raw : string) : option Channel :=
  List.find (λ c, bool_decide (channel_str c = raw)) ALL_CHANNELS.
Definition accepts (self candidate : Channel) : bool :=
  match self, candidate with
  | Dev, _ | Beta, Beta | Beta, Stable | Stable, Stable => true
  | _, _ => false
  end.
Record ChannelCandidate := MkCandidate {
  cd_channel : Channel; cd_version : Version; cd_commit : string; cd_issued_at : Z; cd_expires_at : Z }.
Definition is_valid_at (c : ChannelCandidate) (now_ms : Z) : bool :=
  (now_ms <=? cd_expires_at c)%Z && (cd_issued_at c <=? now_ms)%Z.
Definition wins (c incumbent : ChannelCandidate) : bool :=
  version_lt (cd_version incumbent) (cd_version c)
  || version_eq (cd_version c) (cd_version incumbent)
     && ((cd_issued_at incumbent <? cd_issued_at c)%Z
         || (cd_issued_at c =? cd_issued_at incumbent)%Z && String.ltb (cd_commit incumbent) (cd_commit c)).
Fixpoint select_from (configured : Channel) (now_ms : Z) (index : nat) (best : option (nat * ChannelCandidate))
    (candidates : list ChannelCandidate) : option (nat * ChannelCandidate) :=
  match candidates with
  | [] => best
  | c :: rest =>
      let best' :=
        if negb (accepts configured (cd_channel c)) || negb (is_valid_at c now_ms) then best
        else match best with
             | None => Some (index, c)
             | Some (current, incumbent) => if wins c incumbent then Some (index, c) else Some (current, incumbent)
             end in
      select_from configured now_ms (S index) best' rest
  end.
Definition select (configured : Channel) (candidates : list ChannelCandidate) (now_ms : Z) : option nat :=
  fst <$> select_from configured now_ms 0 None candidates.

(** ** The manifest *)
Record Artifact := MkArtifact {
  af_name : string; af_os : string; af_arch : string; af_sha256 : string; af_url : string; af_size : option N }.
#[global] Instance Artifact_eq_dec : EqDecision Artifact.
Proof. solve_decision. Defined.
Record Certification := MkCertification {
  ce_level : string; ce_commit : string; ce_manifest_sha256 : option string; ce_evidence : gmap string string }.
Record ManifestSignature := MkManifestSignature {
  ms_algorithm : string; ms_identity : string; ms_public_key : string; ms_value : string }.
Record UpdateManifest := MkManifest {
  mf_schema : string; mf_channel : Channel; mf_version : string; mf_commit : string;
  mf_release_generation : option N; mf_artifacts : list Artifact; mf_compatibility : Compatibility;
  mf_issued_at : Z; mf_expires_at : Z; mf_certification : option Certification;
  mf_signature : option ManifestSignature }.

Inductive ManifestRefusal :=
  | MalformedManifest
  | Unsigned
  | UnknownKey (identity : string)
  | KeyMismatch (identity : string)
  | Tampered
  | Expired (expires_at now_ms : Z)
  | NotYetValid (issued_at now_ms : Z)
  | ChannelMismatch (configured found : string)
  | NoArtifactForHost (os arch : string).
#[global] Instance ManifestRefusal_eq_dec : EqDecision ManifestRefusal.
Proof. solve_decision. Defined.
Definition refusal_code (r : ManifestRefusal) : string :=
  match r with
  | MalformedManifest => "manifest_malformed"
  | Unsigned => "manifest_unsigned"
  | UnknownKey _ => "manifest_unknown_key"
  | KeyMismatch _ => "manifest_key_mismatch"
  | Tampered => "manifest_tampered"
  | Expired _ _ => "manifest_expired"
  | NotYetValid _ _ => "manifest_not_yet_valid"
  | ChannelMismatch _ _ => "manifest_channel_mismatch"
  | NoArtifactForHost _ _ => "manifest_no_artifact_for_host"
  end.

Inductive UpdateError :=
  | Config
  | Refused (refusal : ManifestRefusal)
  | Incompatible (report : CompatibilityReport)
  | Transport (artifact : string)
  | ArtifactTooLarge (artifact : string) (max_bytes : N)
  | DigestMismatch (artifact expected actual : string)
  | NothingStaged
  | IllegalTransition (id state action : string)
  | HealthFailed
  | StagedArtifactUnusable (artifact : string)
  | Install
  | NotFound
  | Conflict
  | RollbackRefused (channel : string) (high_water offered : N)
  | LegacyManifestRefused (channel : string)
  | SchemaAhead (target_version : string) (found head : Z)
  | LaunchRefused
  | RestartFailed
  | RefusalUnrecorded (refusal : UpdateError)
  | Backend.
#[global] Instance UpdateError_eq_dec : EqDecision UpdateError.
Proof. solve_decision. Defined.
Fixpoint error_code (e : UpdateError) : string :=
  match e with
  | Config => "updater_config"
  | Refused r => refusal_code r
  | Incompatible _ => "incompatible"
  | Transport _ => "transport"
  | ArtifactTooLarge _ _ => "artifact_too_large"
  | DigestMismatch _ _ _ => "digest_mismatch"
  | NothingStaged => "nothing_staged"
  | IllegalTransition _ _ _ => "illegal_transition"
  | HealthFailed => "health_failed"
  | StagedArtifactUnusable _ => "staged_artifact_unusable"
  | Install => "install_error"
  | NotFound => "not_found"
  | Conflict => "conflict"
  | RollbackRefused _ _ _ => "rollback_refused"
  | LegacyManifestRefused _ => "legacy_manifest_refused"
  | SchemaAhead _ _ _ => "schema_ahead"
  | LaunchRefused => "launch_refused"
  | RestartFailed => "restart_failed"
  | RefusalUnrecorded r => error_code r
  | Backend => "internal"
  end.
Fixpoint http_status (e : UpdateError) : N :=
  match e with
  | Config | Backend => 500
  | Refused MalformedManifest => 400
  | Refused _ | Incompatible _ => 409
  | Transport _ => 502
  | ArtifactTooLarge _ _ => 413
  | DigestMismatch _ _ _ | NothingStaged | IllegalTransition _ _ _ => 409
  | HealthFailed => 500
  | StagedArtifactUnusable _ => 409
  | Install => 500
  | NotFound => 404
  | Conflict | RollbackRefused _ _ _ | LegacyManifestRefused _ | SchemaAhead _ _ _ | LaunchRefused => 409
  | RestartFailed => 500
  | RefusalUnrecorded r => http_status r
  end.
Definition retryable (e : UpdateError) : bool :=
  match e with Transport _ | Backend | RefusalUnrecorded _ => true | _ => false end.

Definition UPDATE_MANIFEST_SCHEMA := "faktor-update/v1".
Definition MAX_MANIFEST_ARTIFACTS : N := 32.
Definition MAX_ARTIFACT_TOKEN_BYTES : N := 128.
Definition MAX_ARTIFACT_URL_BYTES : N := 2048.
Definition MAX_CERTIFICATION_EVIDENCE_ENTRIES : N := 16.
Definition MAX_MANIFEST_VALIDITY_MS : Z := 31622400000.

(** A failed shape check is one error whichever check it is. *)
Definition shape (b : bool) : result unit ManifestRefusal := if b then Ok tt else Err MalformedManifest.
Definition is_token_byte (c : ascii) : bool :=
  is_ascii_alphanumeric c || bool_decide (c = "."%char) || bool_decide (c = "_"%char)
  || bool_decide (c = "-"%char) || bool_decide (c = "+"%char).
Definition token_ok (value : string) : bool :=
  negb (bool_decide (value = "") || (MAX_ARTIFACT_TOKEN_BYTES <? slen value) || negb (is_ascii value))
  && lacks (λ c, negb (is_token_byte c)) value.
Definition plain_file_name (name : string) : bool :=
  negb (contains "/" name || contains "\" name || contains ".." name).
Definition url_ok (url : string) : bool :=
  negb (bool_decide (url = "") || (MAX_ARTIFACT_URL_BYTES <? slen url)) && is_ascii url
  && (starts_with "https://" url || starts_with "http://" url) && lacks white1 url.
Definition artifact_ok (a : Artifact) : bool :=
  token_ok (af_name a) && plain_file_name (af_name a) && token_ok (af_os a) && token_ok (af_arch a)
  && is_lower_hex (af_sha256 a) 64 && url_ok (af_url a).
(** The loop over the artifacts, with the names seen so far. *)
Fixpoint artifacts_ok (names : list string) (l : list Artifact) : bool :=
  match l with
  | [] => true
  | a :: l => artifact_ok a && negb (bool_decide (af_name a ∈ names)) && artifacts_ok (af_name a :: names) l
  end.
Definition evidence_ok (e : string * string) : bool :=
  negb (bool_decide (e.1 = "") || (64 <? slen e.1) || negb (is_ascii e.1)) && is_lower_hex e.2 64.
Definition certification_ok (commit : string) (c : Certification) : bool :=
  bool_decide (ce_level c ∈ ["none"; "local_offline"; "release"])
  && bool_decide (ce_commit c = commit)
  && match ce_manifest_sha256 c with Some d => is_lower_hex d 64 | None => true end
  && negb (MAX_CERTIFICATION_EVIDENCE_ENTRIES <? N.of_nat (size (ce_evidence c)))
  && forallb evidence_ok (map_to_list (ce_evidence c)).
Definition manifest_validate (m : UpdateManifest) : result unit ManifestRefusal :=
  shape (bool_decide (mf_schema m = UPDATE_MANIFEST_SCHEMA));?
  shape (is_lower_hex (mf_commit m) 40);?
  shape (bool_decide (is_Some (parse_version (mf_version m))));?
  shape (negb (bool_decide (mf_artifacts m = []) || (MAX_MANIFEST_ARTIFACTS <? N.of_nat (length (mf_artifacts m)))));?
  shape (artifacts_ok [] (mf_artifacts m));?
  shape (negb ((mf_issued_at m <=? 0)%Z || (mf_expires_at m <=? 0)%Z));?
  shape (negb (mf_expires_at m <? mf_issued_at m)%Z);?
  shape (negb (MAX_MANIFEST_VALIDITY_MS <? mf_expires_at m - mf_issued_at m)%Z);?
  shape (match mf_certification m with Some c => certification_ok (mf_commit m) c | None => true end).
Definition artifact_for_host (m : UpdateManifest) (os arch : string) : option Artifact :=
  List.find (λ a, bool_decide (af_os a = os) && bool_decide (af_arch a = arch)) (mf_artifacts m).
Definition release_generation (m : UpdateManifest) : N := default 0 (mf_release_generation m).
Definition is_legacy_generation (m : UpdateManifest) : bool :=
  match mf_release_generation m with None => true | Some _ => false end.

(** ** Canonical JSON *)
Inductive Value :=
  | VNull
  | VBool (b : bool)
  | VNumber (n : Z)
  | VString (s : string)
  | VArray (items : list Value)
  | VObject (entries : list (string * Value)).

(** What the derived and hand-written [Serialize] implementations build. *)
Definition optional {A} (key : string) (f : A → Value) (x : option A) : list (string * Value) :=
  match x with Some x => [(key, f x)] | None => [] end.
Definition natural (n : N) : Value := VNumber (Z.of_N n).
Definition artifact_value (a : Artifact) : Value :=
  VObject ([("name", VString (af_name a)); ("os", VString (af_os a)); ("arch", VString (af_arch a));
            ("sha256", VString (af_sha256 a)); ("url", VString (af_url a))]
           ++ optional "size" natural (af_size a))%list.
Definition range_value (r : VersionRange) : Value :=
  VObject [("min", VString (render_bound (vr_min r))); ("max", VString (render_bound (vr_max r)))].
Definition schema_value (r : SchemaRange) : Value :=
  VObject [("min", natural (sr_min r)); ("max", natural (sr_max r))].
Definition compatibility_value (c : Compatibility) : Value :=
  VObject [("cli", range_value (cp_cli c)); ("daemon", range_value (cp_daemon c));
           ("vscode", range_value (cp_vscode c)); ("jetbrains", range_value (cp_jetbrains c));
           ("schema", schema_value (cp_schema c))].
Definition certification_value (c : Certification) : Value :=
  VObject [("level", VString (ce_level c)); ("commit", VString (ce_commit c));
           ("manifest_sha256", match ce_manifest_sha256 c with Some d => VString d | None => VNull end);
           ("evidence", VObject (prod_map id VString <$> map_to_list (ce_evidence c)))].
Definition signature_value (s : ManifestSignature) : Value :=
  VObject [("algorithm", VString (ms_algorithm s)); ("identity", VString (ms_identity s));
           ("public_key", VString (ms_public_key s)); ("value", VString (ms_value s))].
Definition manifest_fields (m : UpdateManifest) : list (string * Value) :=
  ([("schema", VString (mf_schema m)); ("channel", VString (channel_str (mf_channel m)));
    ("version", VString (mf_version m)); ("commit", VString (mf_commit m))]
   ++ optional "release_generation" natural (mf_release_generation m)
   ++ [("artifacts", VArray (artifact_value <$> mf_artifacts m));
       ("compatibility", compatibility_value (mf_compatibility m));
       ("issued_at", VNumber (mf_issued_at m)); ("expires_at", VNumber (mf_expires_at m))]
   ++ optional "certification" certification_value (mf_certification m)
   ++ optional "signature" signature_value (mf_signature m))%list.

(** ** Keys and authentication
    [json_string] is [serde_json::to_string] of a string and [parse_manifest]
    the derived deserialisation, which accepts any byte string or refuses it. *)
Class ReleaseWire := {
  json_string : string → string;
  parse_manifest : string → option UpdateManifest;
  sha256_hex : string → string;
  base64_encode : string → string;
  base64_decode : string → option string;
  valid_point : string → bool;                          (* [VerifyingKey::from_bytes] succeeds *)
  ed25519_verify : string → string → string → bool      (* key, message, signature *)
}.

Record TrustedKey := MkKey { tk_identity : string; tk_public_key : string }.
#[global] Instance TrustedKey_eq_dec : EqDecision TrustedKey.
Proof. solve_decision. Defined.
(** [TrustedKeys]: the allowlist, in configuration order. *)
Notation TrustedKeys := (list TrustedKey).
Fixpoint keys_new_from (seen : list string) (keys : list TrustedKey) : bool :=
  match keys with
  | [] => true
  | k :: keys => negb (bool_decide (tk_identity k ∈ seen)) && keys_new_from (tk_identity k :: seen) keys
  end.
Definition keys_new (keys : list TrustedKey) : option TrustedKeys :=
  if keys_new_from [] keys then Some keys else None.
Definition keys_get (keys : TrustedKeys) (identity : string) : option TrustedKey :=
  List.find (λ k, bool_decide (tk_identity k = identity)) keys.

Section Wire.
Context `{ReleaseWire}.

Definition braces (l r : string) (items : list string) : string :=
  l ++ String.concat "," items ++ r.
Fixpoint write_canonical (v : Value) : string :=
  match v with
  | VNull => "null"
  | VBool true => "true"
  | VBool false => "false"
  | VNumber n => pretty n
  | VString s => json_string s
  | VArray items => braces "[" "]" (write_canonical <$> items)
  | VObject entries =>
      braces "{" "}" ((λ kv, json_string kv.1 ++ ":" ++ kv.2) <$>
        merge_sort key_le ((λ kv, (kv.1, write_canonical kv.2)) <$> entries))
  end.
Definition signing_payload (m : UpdateManifest) : string :=
  write_canonical (VObject (filter (λ kv, kv.1 ≠ "signature") (manifest_fields m))).

Definition key_from_base64 (identity public_key_base64 : string) : option TrustedKey :=
  if bool_decide (identity = "") || (128 <? slen identity) || negb (is_ascii identity) then None
  else raw ← base64_decode public_key_base64;
    if negb (slen raw =? 32) then None
    else if negb (valid_point raw) then None
    else Some (MkKey identity raw).
Definition public_key_base64 (k : TrustedKey) : string := base64_encode (tk_public_key k).
Definition key_verify (k : TrustedKey) (payload signature_base64 : string) : bool :=
  match base64_decode signature_base64 with
  | Some raw => (slen raw =? 64) && ed25519_verify (tk_public_key k) payload raw
  | None => false
  end.

Definition manifest_parse (bytes : string) : result UpdateManifest ManifestRefusal :=
  match parse_manifest bytes with
  | Some m => manifest_validate m;? Ok m
  | None => Err MalformedManifest
  end.
Definition authenticate (m : UpdateManifest) (keys : TrustedKeys) : result string ManifestRefusal :=
  match mf_signature m with
  | None => Err Unsigned
  | Some s =>
      if negb (bool_decide (ms_algorithm s = "ed25519")) then Err MalformedManifest
      else match keys_get keys (ms_identity s) with
      | None => Err (UnknownKey (ms_identity s))
      | Some trusted =>
          if negb (bool_decide (public_key_base64 trusted = ms_public_key s)) then Err (KeyMismatch (ms_identity s))
          else if negb (key_verify trusted (signing_payload m) (ms_value s)) then Err Tampered
          else Ok (ms_identity s)
      end
  end.
(** [VerifiedManifest]: the manifest and the identity that signed it. *)
Definition verify_manifest (bytes : string) (keys : TrustedKeys) (configured : Channel) (now_ms skew_ms : Z) :
    result (UpdateManifest * string) ManifestRefusal :=
  m <-? manifest_parse bytes;
  identity <-? authenticate m keys;
  if (mf_expires_at m <? now_ms)%Z then Err (Expired (mf_expires_at m) now_ms)
  else if (I64.sat_add now_ms skew_ms <? mf_issued_at m)%Z then Err (NotYetValid (mf_issued_at m) now_ms)
  else if negb (accepts configured (mf_channel m))
    then Err (ChannelMismatch (channel_str configured) (channel_str (mf_channel m)))
  else Ok (m, identity).
Definition verify_manifest_at_launch (bytes : string) (keys : TrustedKeys) : result UpdateManifest ManifestRefusal :=
  m <-? manifest_parse bytes;
  authenticate m keys;?
  Ok m.
End Wire.
