(* ===== verification/UpdaterCanonical.v ===== *)
(** * What an update signature covers

    The canonical JSON of a manifest determines every field of it but the
    signature.  A text is cut off what follows it in one way ([cuts]): numbers
    end where no digit follows, strings where the serializer closes them
    ([LawfulJson]), arrays and objects at their closing mark; so equal texts
    have equal parts, and an object's entries are the same up to their order. *)
From stdpp Require Import sorting pretty.
From S2P Require Import Prelude Strings Bytes UpdaterManifest.
#[local] Open Scope string_scope.
#[local] Open Scope N_scope.

#[local] Arguments String.append !_ _ / : assert.
Definition quote : ascii := ascii_of_N 34.
(** What serde_json's string literals are: quoted, and closed where they end. *)
Class LawfulJson `{ReleaseWire} := {
  json_string_quoted s : ∃ t, json_string s = String quote t;
  json_string_closed s1 s2 r1 r2 : json_string s1 ++ r1 = json_string s2 ++ r2 → s1 = s2 ∧ r1 = r2
}.

(** ** Cutting texts *)
Definition number_char (c : ascii) : bool := is_ascii_digit c || bool_decide (c = "-"%char).
Definition closing (c : ascii) : bool :=
  bool_decide (c = ","%char) || bool_decide (c = "]"%char) || bool_decide (c = "}"%char).
(** Nothing follows, or a closing mark does. *)
Definition delimited (r : string) : Prop := match r with EmptyString => True | String c _ => closing c = true end.
Definition cuts (x y : string) : Prop :=
  ∀ r1 r2, delimited r1 → delimited r2 → x ++ r1 = y ++ r2 → x = y ∧ r1 = r2.
Definition opens (x : string) : Prop := match x with EmptyString => False | String c _ => closing c = false end.

Lemma cut_whole x y : cuts x y → x ++ "" = y ++ "" → x = y.
Proof. intros Hc E. by apply (Hc "" ""). Qed.
Lemma cut_numbers x y :
  lacks (λ c, negb (number_char c)) x = true → lacks (λ c, negb (number_char c)) y = true → cuts x y.
Proof.
  intros Hx Hy r1 r2 H1 H2. assert (Hd : ∀ c, number_char c = true → closing c = true → False).
  { intros c. unfold number_char, closing. rewrite !orb_true_iff, !bool_decide_eq_true.
    intros Hn [[->| ->]| ->]; by destruct Hn. }
  revert y Hy. induction x as [|c x IH]; intros [|d y] Hy E; cbn in *; [done|..].
  - subst. apply andb_prop in Hy as [Hy _]. rewrite negb_involutive in Hy. by destruct (Hd d).
  - subst. apply andb_prop in Hx as [Hx _]. rewrite negb_involutive in Hx. by destruct (Hd c).
  - injection E as -> E. apply andb_prop in Hx as [_ Hx], Hy as [_ Hy]. by destruct (IH Hx y Hy E) as [-> ->].
Qed.
(** Items between commas, up to the closing mark. *)
Lemma cut_items close (l1 l2 : list string) r1 r2 :
  closing close = true → close ≠ ","%char →
  (∀ x, x ∈ (l1 ++ l2)%list → opens x) → (∀ x y, x ∈ l1 → y ∈ l2 → cuts x y) →
  String.concat "," l1 ++ String close r1 = String.concat "," l2 ++ String close r2 → l1 = l2 ∧ r1 = r2.
Proof.
  intros Hcl Hne. assert (Hfirst : ∀ x r s, opens x → String close r = x ++ s → False).
  { intros [|c x] r s; cbn; [done|]. intros Hx [= <- _]. congruence. }
  revert l2. induction l1 as [|x l1 IH]; intros [|y l2] Ho Hc E.
  - cbn in E. by injection E as ->.
  - exfalso. assert (Hy : opens y) by (apply Ho, elem_of_app; right; apply elem_of_cons; by left).
    destruct l2; cbn in E; rewrite ?append_assoc in E; by eapply Hfirst.
  - exfalso. assert (Hx : opens x) by (apply Ho, elem_of_app; left; apply elem_of_cons; by left).
    destruct l1; cbn in E; rewrite ?append_assoc in E; symmetry in E; by eapply Hfirst.
  - assert (Hxy : cuts x y) by (apply Hc; apply elem_of_cons; by left).
    assert (Hrest : ∀ (l : list string) r, ∃ r', delimited r' ∧ String.concat "," (x :: l) ++ String close r = x ++ r'
              ∧ String.concat "," (y :: l) ++ String close r = y ++ r'
              ∧ r' = match l with [] => String close r | _ => String "," (String.concat "," l ++ String close r) end).
    { intros [|z l] r; [by exists (String close r)|]. exists (String "," (String.concat "," (z :: l) ++ String close r)).
      cbn. by rewrite !append_assoc. }
    destruct (Hrest l1 r1) as (t1 & Hd1 & E1 & _ & ->), (Hrest l2 r2) as (t2 & Hd2 & _ & E2 & ->).
    rewrite E1, E2 in E. destruct (Hxy _ _ Hd1 Hd2 E) as [-> Et].
    destruct l1 as [|x' l1], l2 as [|y' l2]; [by injection Et as ->|congruence|congruence|].
    injection Et as Et. destruct (IH (y' :: l2)) as [-> ->]; [..|exact Et|done].
    + intros z Hz. apply Ho. apply elem_of_app in Hz as [?|?]; apply elem_of_app; [left|right]; by apply elem_of_cons; right.
    + intros a b Ha Hb. by apply Hc; apply elem_of_cons; right.
Qed.

(** ** The texts of values *)
Lemma pretty_N_number (n : N) : lacks (λ c, negb (number_char c)) (pretty n) = true ∧ pretty n ≠ "".
Proof.
  assert (Hd : ∀ d, number_char (pretty_N_char d) = true).
  { intros d. unfold pretty_N_char. by repeat case_match. }
  unfold pretty, pretty_N. case_decide as Hn; [done|].
  assert (Hg : ∀ x s, lacks (λ c, negb (number_char c)) s = true → (0 < x ∨ s ≠ "") →
    lacks (λ c, negb (number_char c)) (pretty_N_go x s) = true ∧ pretty_N_go x s ≠ "").
  { intros x. induction (N.lt_wf_0 x) as [x _ IH]. intros s Hs Hx.
    destruct (decide (x = 0)) as [->|Hx0]; [rewrite pretty_N_go_0; split; [done|]; by destruct Hx|].
    rewrite pretty_N_go_step by lia. apply IH; [by apply N.div_lt; lia| |by right].
    cbn. by rewrite Hd. }
  apply Hg; [done|left; lia].
Qed.
Lemma pretty_Z_number (n : Z) : lacks (λ c, negb (number_char c)) (pretty n) = true ∧ pretty n ≠ "".
Proof.
  destruct n as [|p|p]; [done|apply (pretty_N_number (Npos p))|]. unfold pretty, pretty_Z. split; [|done].
  cbn. apply pretty_N_number.
Qed.

Section Canonical.
Context `{RW : ReleaseWire, LJ : !LawfulJson}.

(** The first character tells the kind of a value. *)
Definition first_of (v : Value) (c : ascii) : Prop :=
  match v with
  | VNull => c = "n"%char | VBool b => c = if b then "t"%char else "f"%char
  | VNumber _ => number_char c = true | VString _ => c = quote | VArray _ => c = "["%char | VObject _ => c = "{"%char
  end.
Lemma write_first v : ∃ c t, write_canonical v = String c t ∧ first_of v c.
Proof using LJ.
  destruct v as [|[]|n|s|l|es]; cbn; eauto.
  - destruct (pretty_Z_number n) as [Hl Hn]. destruct (pretty n) as [|c t]; [done|]. exists c, t. split; [done|].
    cbn in Hl. apply andb_prop in Hl as [Hl _]. by rewrite negb_involutive in Hl.
  - destruct (json_string_quoted s) as [t ->]. eauto.
Qed.
Lemma write_opens v : opens (write_canonical v).
Proof using LJ.
  destruct (write_first v) as (c & t & -> & Hc). destruct v as [|[]|n|s|l|es]; cbn in Hc; try by subst.
  cbn. unfold number_char in Hc. unfold closing. destruct (bool_decide (c = ","%char)) eqn:E1; [by apply bool_decide_eq_true in E1 as ->|].
  destruct (bool_decide (c = "]"%char)) eqn:E2; [by apply bool_decide_eq_true in E2 as ->|].
  destruct (bool_decide (c = "}"%char)) eqn:E3; [by apply bool_decide_eq_true in E3 as ->|]. done.
Qed.
Definition kind_of (v : Value) : nat :=
  match v with VNull => 0 | VBool true => 1 | VBool false => 2 | VNumber _ => 3 | VString _ => 4 | VArray _ => 5 | VObject _ => 6 end%nat.
Lemma first_kind v1 v2 c : first_of v1 c → first_of v2 c → kind_of v1 = kind_of v2.
Proof using. destruct v1 as [|[]| | | |], v2 as [|[]| | | |]; cbn; intros H1 H2; try done; subst; done. Qed.
Lemma write_kind v1 v2 r1 r2 : write_canonical v1 ++ r1 = write_canonical v2 ++ r2 → kind_of v1 = kind_of v2.
Proof using LJ.
  destruct (write_first v1) as (c & t & -> & H1), (write_first v2) as (c2 & t2 & -> & H2). cbn. intros [= <- _].
  by eapply first_kind.
Qed.

(** The entries of an object as they are written. *)
Definition entry_text (kv : string * string) : string := json_string kv.1 ++ ":" ++ kv.2.
Definition entries_of (es : list (string * Value)) : list (string * string) := (λ kv, (kv.1, write_canonical kv.2)) <$> es.
Lemma entry_opens kv : opens (entry_text kv).
Proof using LJ. unfold entry_text. by destruct (json_string_quoted kv.1) as [t ->]. Qed.
Lemma entry_cuts a b : cuts a.2 b.2 → cuts (entry_text a) (entry_text b).
Proof using LJ.
  intros Hc r1 r2 H1 H2. unfold entry_text. rewrite !append_assoc. intros [Hk E]%json_string_closed. cbn in E.
  injection E as E. destruct (Hc r1 r2 H1 H2 E) as [Hv ->]. by rewrite Hk, Hv.
Qed.
Lemma entry_text_inj a b : entry_text a = entry_text b → a = b.
Proof using LJ.
  destruct a as [k v], b as [k' v']. unfold entry_text. cbn. intros [-> E]%json_string_closed. by injection E as ->.
Qed.
Lemma item_length x l : x ∈ l → (String.length x <= String.length (String.concat "," l))%nat.
Proof using.
  induction l as [|y l IH]; [by intros ?%elem_of_nil|]. intros [->|Hx]%elem_of_cons.
  - destruct l; [done|]. cbn. rewrite length_append. lia.
  - specialize (IH Hx). destruct l as [|z l]; [by apply elem_of_nil in Hx|].
    change (String.concat "," (y :: z :: l)) with (y ++ "," ++ String.concat "," (z :: l)). rewrite !length_append. lia.
Qed.
Lemma braces_cut (l r : ascii) i1 i2 r1 r2 :
  closing r = true → r ≠ ","%char → (∀ x, x ∈ (i1 ++ i2)%list → opens x) → (∀ x y, x ∈ i1 → y ∈ i2 → cuts x y) →
  braces (String l "") (String r "") i1 ++ r1 = braces (String l "") (String r "") i2 ++ r2 → i1 = i2 ∧ r1 = r2.
Proof using.
  intros Hr Hc Ho Hx. unfold braces. cbn. intros [= E]. rewrite !append_assoc in E. by eapply cut_items.
Qed.
Lemma write_cuts v1 v2 : cuts (write_canonical v1) (write_canonical v2).
Proof using LJ.
  remember (String.length (write_canonical v1)) as n eqn:Hn. revert v1 v2 Hn.
  induction (Nat.lt_wf_0 n) as [n _ IH]. intros v1 v2 -> r1 r2 H1 H2 E. pose proof (write_kind _ _ _ _ E) as Hk.
  destruct v1 as [|[]|n1|s1|l1|e1], v2 as [|[]|n2|s2|l2|e2]; try done; cbn [write_canonical] in *.
  - by injection E as ->.
  - by injection E as ->.
  - by injection E as ->.
  - eapply cut_numbers; [apply pretty_Z_number..|done|done|done].
  - by apply json_string_closed in E as [-> ->].
  - apply (braces_cut "[" "]") in E as [-> ->]; [done..| |].
    + intros x [(v & -> & _)%list_elem_of_fmap|(v & -> & _)%list_elem_of_fmap]%elem_of_app; apply write_opens.
    + intros x y Hx (v2 & -> & _)%list_elem_of_fmap. pose proof (item_length _ _ Hx) as Hlen.
      apply list_elem_of_fmap in Hx as (v1 & -> & Hv1). eapply IH; [|done].
      unfold braces. cbn [String.append String.length]. rewrite length_append. cbn. lia.
  - apply (braces_cut "{" "}") in E as [-> ->]; [done..| |].
    + intros x [(kv & -> & _)%list_elem_of_fmap|(kv & -> & _)%list_elem_of_fmap]%elem_of_app; apply entry_opens.
    + intros x y Hx (b & -> & Hb)%list_elem_of_fmap. pose proof (item_length _ _ Hx) as Hlen.
      apply list_elem_of_fmap in Hx as (a & -> & Ha). rewrite merge_sort_Permutation in Ha, Hb.
      apply list_elem_of_fmap in Ha as ([k1 v1] & -> & _), Hb as ([k2 v2] & -> & _). apply entry_cuts. cbn.
      eapply IH; [|done]. revert Hlen. unfold braces. cbn [fst snd String.append String.length]. rewrite !length_append. cbn. lia.
Qed.

(** ** Equal texts have equal parts *)
Lemma write_inj_string s1 s2 : write_canonical (VString s1) = write_canonical (VString s2) → s1 = s2.
Proof using LJ. cbn. intros E. apply (json_string_closed s1 s2 "" ""). by rewrite E. Qed.
Lemma write_inj_number n1 n2 : write_canonical (VNumber n1) = write_canonical (VNumber n2) → n1 = n2.
Proof using. apply (inj pretty). Qed.
Lemma whole_items (l r : ascii) i1 i2 :
  closing r = true → r ≠ ","%char → (∀ x, x ∈ (i1 ++ i2)%list → opens x) → (∀ x y, x ∈ i1 → y ∈ i2 → cuts x y) →
  braces (String l "") (String r "") i1 = braces (String l "") (String r "") i2 → i1 = i2.
Proof using. intros ? ? ? ? E. apply (braces_cut l r i1 i2 "" ""); [done..|]. by rewrite E. Qed.
Lemma write_inj_array l1 l2 :
  write_canonical (VArray l1) = write_canonical (VArray l2) → write_canonical <$> l1 = write_canonical <$> l2.
Proof using LJ.
  apply (whole_items "[" "]"); [done..| |].
  - intros x [(v & -> & _)%list_elem_of_fmap|(v & -> & _)%list_elem_of_fmap]%elem_of_app; apply write_opens.
  - intros x y (v1 & -> & _)%list_elem_of_fmap (v2 & -> & _)%list_elem_of_fmap. apply write_cuts.
Qed.
Lemma write_inj_object e1 e2 :
  write_canonical (VObject e1) = write_canonical (VObject e2) → entries_of e1 ≡ₚ entries_of e2.
Proof using LJ.
  cbn [write_canonical]. intros E. apply (whole_items "{" "}") in E; [|done..| |].
  - apply (list_fmap_eq_inj entry_text) in E; [|by intros a b; apply entry_text_inj].
    unfold entries_of. by rewrite <- (merge_sort_Permutation key_le), E, merge_sort_Permutation.
  - intros x [(kv & -> & _)%list_elem_of_fmap|(kv & -> & _)%list_elem_of_fmap]%elem_of_app; apply entry_opens.
  - intros x y (a & -> & Ha)%list_elem_of_fmap (b & -> & Hb)%list_elem_of_fmap. rewrite merge_sort_Permutation in Ha, Hb.
    apply list_elem_of_fmap in Ha as ([k1 v1] & -> & _), Hb as ([k2 v2] & -> & _). apply entry_cuts, write_cuts.
Qed.
End Canonical.

(** ** The fields of a manifest *)
Fixpoint assoc (k : string) (es : list (string * string)) : option string :=
  match es with [] => None | (k', t) :: es => if String.eqb k k' then Some t else assoc k es end.
Fixpoint distinct (l : list string) : bool :=
  match l with [] => true | k :: l => forallb (λ k', negb (String.eqb k k')) l && distinct l end.
Lemma distinct_NoDup l : distinct l = true → NoDup l.
Proof.
  induction l as [|k l IH]; cbn; [constructor|]. intros [Hk Hl]%andb_prop. constructor; [|by apply IH].
  intros Hin%list_elem_of_In. rewrite forallb_forall in Hk. specialize (Hk k Hin). by rewrite String.eqb_refl in Hk.
Qed.
Lemma assoc_Some k t es : NoDup es.*1 → assoc k es = Some t ↔ (k, t) ∈ es.
Proof.
  induction es as [|[k' t'] es IH]; cbn; intros Hn; [split; [done|by intros ?%elem_of_nil]|].
  apply NoDup_cons in Hn as [Hk Hn]. rewrite elem_of_cons. destruct (String.eqb_spec k k') as [<-|Hne].
  - split; [intros [= ->]; by left|]. intros [[= ->]|Hin]; [done|]. exfalso. apply Hk. by apply (list_elem_of_fmap_2 fst _ (k, t)).
  - rewrite IH by done. split; [by right|]. intros [[= -> ->]|?]; done.
Qed.
Lemma assoc_perm k es es' : NoDup es.*1 → es ≡ₚ es' → assoc k es = assoc k es'.
Proof.
  intros Hn Hp. assert (Hn' : NoDup es'.*1) by (by rewrite <- Hp). apply option_eq. intros t.
  rewrite !assoc_Some by done. by rewrite Hp.
Qed.

Section Fields.
Context `{RW : ReleaseWire, LJ : !LawfulJson}.
Notation text := write_canonical.

(** The value under a key of an object's text. *)
Lemma object_fields e1 e2 :
  text (VObject e1) = text (VObject e2) → NoDup (entries_of e1).*1 → ∀ k, assoc k (entries_of e1) = assoc k (entries_of e2).
Proof using LJ. intros E Hn k. apply assoc_perm; [done|]. by apply write_inj_object. Qed.
Ltac fields Hf :=
  let E := fresh in let N := fresh in
  intros E; pose proof (object_fields _ _ E) as Hf; clear E;
  match type of Hf with ?P → _ => assert (N : P); [|specialize (Hf N); clear N] end.
Ltac no_dup := apply distinct_NoDup; reflexivity.

Lemma natural_inj a b : text (natural a) = text (natural b) → a = b.
Proof using. intros E%write_inj_number. lia. Qed.
Lemma artifact_text_inj a b : text (artifact_value a) = text (artifact_value b) → a = b.
Proof using LJ.
  unfold artifact_value. fields Hf; [destruct (af_size a); no_dup|].
  destruct a as [n1 o1 a1 h1 u1 z1], b as [n2 o2 a2 h2 u2 z2]. cbn in Hf.
  pose proof (Hf "name") as En. pose proof (Hf "os") as Eo. pose proof (Hf "arch") as Ea. pose proof (Hf "sha256") as Eh.
  pose proof (Hf "url") as Eu. pose proof (Hf "size") as Ez. cbn in *.
  apply (inj Some), write_inj_string in En as ->. apply (inj Some), write_inj_string in Eo as ->. apply (inj Some), write_inj_string in Ea as ->.
  apply (inj Some), write_inj_string in Eh as ->. apply (inj Some), write_inj_string in Eu as ->. f_equal.
  destruct z1, z2; cbn in Ez; try done. apply (inj Some), natural_inj in Ez as ->. done.
Qed.
Lemma version_eq_raw a b : v_raw a = v_raw b → a = b.
Proof using.
  destruct a as [r f Hf], b as [r' f' Hf']. cbn. intros ->. pose proof (bool_decide_unpack _ Hf) as E.
  pose proof (bool_decide_unpack _ Hf') as E'. assert (f = f') as <- by congruence. f_equal. apply Is_true_pi.
Qed.
Lemma bound_inj a b : render_bound a = render_bound b → a = b.
Proof using.
  assert (Hs : ∀ v, v_raw v ≠ "*").
  { intros [r f Hf] E. cbn in E. subst. apply (bool_decide_unpack _) in Hf. vm_compute in Hf. done. }
  destruct a as [a|], b as [b|]; cbn; intros E; [f_equal; by apply version_eq_raw|by destruct (Hs a)|by destruct (Hs b)|done].
Qed.
Lemma range_text_inj a b : text (range_value a) = text (range_value b) → a = b.
Proof using LJ.
  fields Hf; [no_dup|]. pose proof (Hf "min") as Emin. pose proof (Hf "max") as Emax.
  destruct a as [a1 a2], b as [b1 b2]. cbn in *.
  apply (inj Some), (write_inj_string _ _), bound_inj in Emin as ->. apply (inj Some), (write_inj_string _ _), bound_inj in Emax as ->. done.
Qed.
Lemma schema_text_inj a b : text (schema_value a) = text (schema_value b) → a = b.
Proof using LJ.
  fields Hf; [no_dup|]. pose proof (Hf "min") as Emin. pose proof (Hf "max") as Emax.
  destruct a as [a1 a2], b as [b1 b2]. cbn in *. apply (inj Some), natural_inj in Emin as ->. apply (inj Some), natural_inj in Emax as ->. done.
Qed.
Lemma compatibility_text_inj a b : text (compatibility_value a) = text (compatibility_value b) → a = b.
Proof using LJ.
  fields Hf; [no_dup|].
  pose proof (Hf "cli") as E1. pose proof (Hf "daemon") as E2. pose proof (Hf "vscode") as E3.
  pose proof (Hf "jetbrains") as E4. pose proof (Hf "schema") as E5. clear Hf. destruct a, b.
  cbn -[write_canonical range_value schema_value] in *.
  apply (inj Some), range_text_inj in E1 as ->. apply (inj Some), range_text_inj in E2 as ->. apply (inj Some), range_text_inj in E3 as ->.
  apply (inj Some), range_text_inj in E4 as ->. apply (inj Some), schema_text_inj in E5 as ->. done.
Qed.
Lemma evidence_text_inj (a b : gmap string string) :
  text (VObject (prod_map id VString <$> map_to_list a)) = text (VObject (prod_map id VString <$> map_to_list b)) → a = b.
Proof using LJ.
  intros E%write_inj_object. apply map_eq. intros k. apply option_eq. intros v.
  assert (Hin : ∀ m : gmap string string, m !! k = Some v ↔ (k, text (VString v)) ∈ entries_of (prod_map id VString <$> map_to_list m)).
  { intros m. rewrite <- elem_of_map_to_list. unfold entries_of. rewrite <- list_fmap_compose, list_elem_of_fmap. split.
    - intros Hm. by exists (k, v).
    - intros ([k' v'] & [= <- E'%(write_inj_string v v')] & Hm). by subst. }
  by rewrite !Hin, E.
Qed.
Lemma optional_text_inj (a b : option string) :
  text (match a with Some d => VString d | None => VNull end) = text (match b with Some d => VString d | None => VNull end) → a = b.
Proof using LJ.
  intros E. assert (Hk := write_kind _ _ "" "" (f_equal (λ x, x ++ "") E)).
  destruct a as [d|], b as [e|]; try done. by apply write_inj_string in E as ->.
Qed.
Lemma certification_text_inj a b : text (certification_value a) = text (certification_value b) → a = b.
Proof using LJ.
  fields Hf; [no_dup|].
  pose proof (Hf "level") as E1. pose proof (Hf "commit") as E2. pose proof (Hf "manifest_sha256") as E3.
  pose proof (Hf "evidence") as E4. clear Hf. destruct a as [l c d e], b as [l' c' d' e'].
  cbn -[write_canonical] in *.
  apply (inj Some), write_inj_string in E1 as ->. apply (inj Some), write_inj_string in E2 as ->. apply (inj Some), optional_text_inj in E3 as ->.
  apply (inj Some), evidence_text_inj in E4 as ->. done.
Qed.
Lemma channel_str_inj a b : channel_str a = channel_str b → a = b.
Proof using. by destruct a, b. Qed.

(** A manifest without its signature. *)
Definition unsigned (m : UpdateManifest) : UpdateManifest :=
  let 'MkManifest s c v k g a p i e t _ := m in MkManifest s c v k g a p i e t None.
Lemma payload_unsigned m : signing_payload m = text (VObject (manifest_fields (unsigned m))).
Proof using.
  destruct m as [s c v k [g|] a p i e [t|] [sg|]]; reflexivity.
Qed.
Lemma manifest_keys m : NoDup (entries_of (manifest_fields (unsigned m))).*1.
Proof using. destruct m as [s c v k [g|] a p i e [t|] sg]; no_dup. Qed.

(** C10: The canonical payload an update signature is verified against determines the manifest: two
    manifests have the same payload exactly when they agree on every field but the signature itself:
    schema, channel, version, commit, release generation (its absence included), every artifact with its
    digest, address and size, the compatibility ranges, the validity window and the certification with all
    its evidence.  A signature therefore vouches for nothing but the manifest it was made for. *)
Theorem signature_covers_the_manifest m1 m2 : signing_payload m1 = signing_payload m2 ↔ unsigned m1 = unsigned m2.
Proof using LJ.
  rewrite !payload_unsigned. split; [|by intros ->]. fields Hf; [apply manifest_keys|].
  pose proof (Hf "schema") as E1. pose proof (Hf "channel") as E2. pose proof (Hf "version") as E3. pose proof (Hf "commit") as E4.
  pose proof (Hf "release_generation") as E5. pose proof (Hf "artifacts") as E6. pose proof (Hf "compatibility") as E7.
  pose proof (Hf "issued_at") as E8. pose proof (Hf "expires_at") as E9. pose proof (Hf "certification") as E10. clear Hf.
  destruct m1 as [s c v k g a p i e t sg], m2 as [s' c' v' k' g' a' p' i' e' t' sg'].
  assert (Hg : g = g') by (destruct g, g', t, t'; cbn in E5; try done; by apply (inj Some), natural_inj in E5 as ->).
  assert (Ht : t = t')
    by (destruct g, g', t, t'; cbn -[write_canonical] in E10; try done; by apply (inj Some), certification_text_inj in E10 as ->).
  subst. destruct g', t'; cbn -[write_canonical] in *; subst;
    apply (inj Some), write_inj_string in E1 as ->; apply (inj Some), write_inj_string, channel_str_inj in E2 as ->;
    apply (inj Some), write_inj_string in E3 as ->; apply (inj Some), write_inj_string in E4 as ->;
    apply (inj Some), write_inj_array in E6; rewrite <- !list_fmap_compose in E6;
    apply (list_fmap_eq_inj (write_canonical ∘ artifact_value)) in E6 as ->; try (by intros ??; apply artifact_text_inj);
    apply (inj Some), compatibility_text_inj in E7 as ->;
    apply (inj Some), write_inj_number in E8 as ->; apply (inj Some), write_inj_number in E9 as ->; done.
Qed.
End Fields.
