(* ===== verification/UpdaterStore.v ===== *)
(** * The updater's durable state ([crates/updater/src/store.rs], [install.rs], [release.rs])

    Operation rows and anti-rollback marks as the tables of [update.db], the
    install pointer, the paths of the install root, and the events of the
    updater's methods: one per statement on the store and per step on the file
    system, with the probe, the restarter, the fetcher and the minting of names.
    The column [detail] (prose nothing reads) is left out of a row. *)
From S2P Require Import Prelude Strings Bytes Effects UpdaterManifest.
From stdpp Require Import sorting.
#[local] Open Scope string_scope.
#[local] Open Scope N_scope.

Definition MAX_LIST : N := 200.
Definition MAX_CHANNEL_BYTES : N := 32.
Inductive UpdateStoreError := SMalformed | SBackend | SUnsupportedSchema (found maximum_supported : Z).

(** ** Operation rows *)
Inductive UpdateOpKind := KCheck | KStage | KApply | KRollback | KDowngrade.
#[global] Instance UpdateOpKind_eq_dec : EqDecision UpdateOpKind.
Proof. solve_decision. Defined.
Definition op_kind_str (k : UpdateOpKind) : string :=
  match k with KCheck => "check" | KStage => "stage" | KApply => "apply" | KRollback => "rollback"
  | KDowngrade => "downgrade" end.
Inductive UpdateOpStatus := SRunning | SSucceeded | SStaged | SApplied | SRolledBack | SFailed | SUnverified.
#[global] Instance UpdateOpStatus_eq_dec : EqDecision UpdateOpStatus.
Proof. solve_decision. Defined.
Definition op_status_str (s : UpdateOpStatus) : string :=
  match s with SRunning => "running" | SSucceeded => "succeeded" | SStaged => "staged" | SApplied => "applied"
  | SRolledBack => "rolled_back" | SFailed => "failed" | SUnverified => "unverified" end.
Definition op_is_terminal (s : UpdateOpStatus) : bool := match s with SRunning => false | _ => true end.

Record UpdateOperation := MkOp {
  op_id : string; op_kind : UpdateOpKind; op_status : UpdateOpStatus; op_channel : option string;
  op_before_version : option string; op_after_version : option string;
  op_before_digest : option string; op_after_digest : option string;
  op_before_artifact : option string; op_artifact : option string;
  op_release_generation : option N; op_store_schema_head : option Z; op_actor : option string;
  op_identity : option string; op_certification_level : option string; op_legacy_admission : bool;
  op_idempotency_key : option string; op_created_ms : Z; op_updated_ms : Z }.
#[global] Instance UpdateOperation_eq_dec : EqDecision UpdateOperation.
Proof. solve_decision. Defined.
(** [UpdateOperation::new]; the id is [UpdateOpId::generate]'s. *)
Definition op_new (id : string) (kind : UpdateOpKind) (now_ms : Z) : UpdateOperation :=
  MkOp id kind SRunning None None None None None None None None None None None None false None now_ms now_ms.
Definition is_running (o : UpdateOperation) : bool := bool_decide (op_status o = SRunning).

(** Assignments to the fields of a row. *)
Definition settle_op (s : UpdateOpStatus) (now_ms : Z) (o : UpdateOperation) : UpdateOperation :=
  let 'MkOp i k _ c bv av bd ad ba a g h w n l y e t _ := o in MkOp i k s c bv av bd ad ba a g h w n l y e t now_ms.
Definition touch (now_ms : Z) (o : UpdateOperation) : UpdateOperation := settle_op (op_status o) now_ms o.
Definition set_channel (c : option string) (o : UpdateOperation) : UpdateOperation :=
  let 'MkOp i k s _ bv av bd ad ba a g h w n l y e t u := o in MkOp i k s c bv av bd ad ba a g h w n l y e t u.
Definition set_before (bv bd ba : option string) (o : UpdateOperation) : UpdateOperation :=
  let 'MkOp i k s c _ av _ ad _ a g h w n l y e t u := o in MkOp i k s c bv av bd ad ba a g h w n l y e t u.
Definition set_after (av ad a : option string) (o : UpdateOperation) : UpdateOperation :=
  let 'MkOp i k s c bv _ bd _ ba _ g h w n l y e t u := o in MkOp i k s c bv av bd ad ba a g h w n l y e t u.
Definition set_generation (g : option N) (o : UpdateOperation) : UpdateOperation :=
  let 'MkOp i k s c bv av bd ad ba a _ h w n l y e t u := o in MkOp i k s c bv av bd ad ba a g h w n l y e t u.
Definition set_schema_head (h : option Z) (o : UpdateOperation) : UpdateOperation :=
  let 'MkOp i k s c bv av bd ad ba a g _ w n l y e t u := o in MkOp i k s c bv av bd ad ba a g h w n l y e t u.
Definition set_actor (w : option string) (o : UpdateOperation) : UpdateOperation :=
  let 'MkOp i k s c bv av bd ad ba a g h _ n l y e t u := o in MkOp i k s c bv av bd ad ba a g h w n l y e t u.
Definition set_identity (n l : option string) (o : UpdateOperation) : UpdateOperation :=
  let 'MkOp i k s c bv av bd ad ba a g h w _ _ y e t u := o in MkOp i k s c bv av bd ad ba a g h w n l y e t u.
Definition set_legacy (y : bool) (o : UpdateOperation) : UpdateOperation :=
  let 'MkOp i k s c bv av bd ad ba a g h w n l _ e t u := o in MkOp i k s c bv av bd ad ba a g h w n l y e t u.
Definition set_key (e : option string) (o : UpdateOperation) : UpdateOperation :=
  let 'MkOp i k s c bv av bd ad ba a g h w n l y _ t u := o in MkOp i k s c bv av bd ad ba a g h w n l y e t u.

(** ** The operation table *)
Notation Rows := (list UpdateOperation).
(** Oldest first: [ORDER BY created_ms, id]. *)
Definition older (a b : UpdateOperation) : Prop :=
  (op_created_ms a < op_created_ms b)%Z ∨ op_created_ms a = op_created_ms b ∧ str_le (op_id a) (op_id b).
#[global] Instance older_dec : RelDecision older.
Proof. intros a b. unfold older. apply _. Defined.
Definition bounded (limit : N) : nat := N.to_nat (N.max 1 (N.min limit MAX_LIST)).
Definition get_row (id : string) (rows : Rows) : option UpdateOperation :=
  List.find (λ o, bool_decide (op_id o = id)) rows.
Definition insert_row (o : UpdateOperation) (rows : Rows) : option Rows :=
  match get_row (op_id o) rows with Some _ => None | None => Some (rows ++ [o])%list end.
Definition update_row (o : UpdateOperation) (rows : Rows) : option Rows :=
  match get_row (op_id o) rows with
  | Some _ => Some ((λ r, if bool_decide (op_id r = op_id o) then o else r) <$> rows)
  | None => None
  end.
Definition running_rows (rows : Rows) : Rows := merge_sort older (filter (λ o, is_running o = true) rows).
Definition newest (rows : Rows) : option UpdateOperation := last (merge_sort older rows).
Definition list_rows (limit : N) (rows : Rows) : Rows := take (bounded limit) (reverse (merge_sort older rows)).
Definition latest_row (k : UpdateOpKind) (s : UpdateOpStatus) (rows : Rows) : option UpdateOperation :=
  newest (filter (λ o, op_kind o = k ∧ op_status o = s) rows).
Definition by_key_row (key : string) (rows : Rows) : option UpdateOperation :=
  newest (filter (λ o, op_idempotency_key o = Some key) rows).

(** ** The anti-rollback marks *)
Record HighWaterMark := MkMark {
  hw_channel : string; hw_generation : N; hw_legacy_consumed : bool; hw_updated_ms : Z }.
#[global] Instance HighWaterMark_eq_dec : EqDecision HighWaterMark.
Proof. solve_decision. Defined.
Notation Marks := (gmap string HighWaterMark).
Definition valid_channel (channel : string) : bool :=
  negb (bool_decide (channel = "") || (MAX_CHANNEL_BYTES <? slen channel) || negb (is_ascii channel)).
(** [generation_to_i64] of the durable store; the in-memory one has no such bound. *)
Definition fits_i64 (generation : N) : bool := generation <=? 9223372036854775807.
(** The two upserts. *)
Definition raise_mark (channel : string) (generation : N) (legacy : bool) (now_ms : Z) (m : Marks) : Marks :=
  match m !! channel with
  | None => <[channel := MkMark channel generation legacy now_ms]> m
  | Some h => <[channel := MkMark channel (N.max (hw_generation h) generation) (hw_legacy_consumed h || legacy) now_ms]> m
  end.
Definition set_mark (channel : string) (generation : N) (now_ms : Z) (m : Marks) : Marks :=
  match m !! channel with
  | None => <[channel := MkMark channel generation false now_ms]> m
  | Some h => <[channel := MkMark channel generation (hw_legacy_consumed h) now_ms]> m
  end.

(** ** Releases and the install pointer *)
Definition release_id_for (version digest : string) : string := version ++ "-" ++ substring 0 12 digest.
Definition release_id_valid (id : string) : bool :=
  negb (bool_decide (id = "") || (160 <? slen id)) && is_ascii id
  && negb (contains "/" id || contains "\" id || contains ".." id || bool_decide (id = "."))
  && lacks (λ c, negb (is_token_byte c)) id.

Definition INSTALL_POINTER_SCHEMA := "faktor-install-pointer/v1".
Record InstallPointer := MkPointer {
  ip_schema : string; ip_artifact : string; ip_digest : string; ip_version : string; ip_channel : string;
  ip_applied_ms : Z; ip_release_id : option string }.
#[global] Instance InstallPointer_eq_dec : EqDecision InstallPointer.
Proof. solve_decision. Defined.
Definition pointer_valid (p : InstallPointer) : bool :=
  bool_decide (ip_schema p = INSTALL_POINTER_SCHEMA)
  && negb (bool_decide (ip_artifact p = "")) && plain_file_name (ip_artifact p)
  && is_lower_hex (ip_digest p) 64
  && match ip_release_id p with Some id => release_id_valid id | None => true end.
Definition pointer_check (p : InstallPointer) : result InstallPointer UpdateError :=
  if pointer_valid p then Ok p else Err Install.
Definition pointer_new (artifact digest version channel : string) (applied_ms : Z) : result InstallPointer UpdateError :=
  pointer_check (MkPointer INSTALL_POINTER_SCHEMA artifact digest version channel applied_ms None).
Definition with_release_id (id : option string) (p : InstallPointer) : result InstallPointer UpdateError :=
  let 'MkPointer s a d v c t _ := p in pointer_check (MkPointer s a d v c t id).

Definition TRUST_FILE_SCHEMA := "faktor-install-trust/v1".
Record TrustFile := MkTrust { tf_schema : string; tf_keys : list (string * string) }.
Class InstallWire := {
  pointer_json : InstallPointer → string;
  parse_pointer : string → option InstallPointer;
  trust_json : TrustFile → string;
  parse_trust : string → option TrustFile
}.

(** ** The install root
    A release directory is the final one or a temporary beside it, told apart
    by its nonce. *)
Inductive Place := Final (release : string) | Temp (release nonce : string).
#[global] Instance Place_eq_dec : EqDecision Place.
Proof. solve_decision. Defined.
Inductive Path :=
  | Current
  | ArtifactAt (name digest : string)
  | StagingFile (op name : string)
  | BinaryIn (p : Place)
  | ManifestIn (p : Place)
  | TrustAnchor
  | Launcher
  | LauncherTemp (nonce : string)
  | CurrentExe.
#[global] Instance Path_eq_dec : EqDecision Path.
Proof. solve_decision. Defined.
Inductive Dir := VersionsDir | ReleaseDir (p : Place) | StagingDir (op : string) | ArtifactDir (name : string).
#[global] Instance Dir_eq_dec : EqDecision Dir.
Proof. solve_decision. Defined.

(** ** Events *)
Inductive FileAnswer := FAbsent | FContent (s : string) | FFailed.
#[global] Instance FileAnswer_eq_dec : EqDecision FileAnswer.
Proof. solve_decision. Defined.
Inductive StatAnswer := SMissing | SRegular (len : N) | SIrregular | SStatFailed.
Record DataStoreSchema := MkDataSchema { dss_head : Z; dss_live : option Z }.
Inductive UpdEvent : Type → Type :=
  (* the store, a statement each *)
  | Insert (o : UpdateOperation) : UpdEvent (result unit UpdateStoreError)
  | Update (o : UpdateOperation) : UpdEvent (result unit UpdateStoreError)
  | ListRows (limit : N) : UpdEvent (result Rows UpdateStoreError)
  | Running : UpdEvent (result Rows UpdateStoreError)
  | Latest (k : UpdateOpKind) (s : UpdateOpStatus) : UpdEvent (result (option UpdateOperation) UpdateStoreError)
  | ByKey (key : string) : UpdEvent (result (option UpdateOperation) UpdateStoreError)
  | ReadMark (channel : string) : UpdEvent (result (option HighWaterMark) UpdateStoreError)
  | RaiseMark (channel : string) (generation : N) (legacy : bool) (now_ms : Z) : UpdEvent (result unit UpdateStoreError)
  | SetMark (channel : string) (generation : N) (now_ms : Z) : UpdEvent (result unit UpdateStoreError)
  (* files; [false] and [None] are a failed call *)
  | ReadFile (p : Path) : UpdEvent FileAnswer
  | Stat (p : Path) : UpdEvent StatAnswer
  | IsDir (d : Dir) : UpdEvent bool
  | Digest (p : Path) : UpdEvent (option string)        (* [digest_memoized] and [file_digest] *)
  | Replace (p : Path) (bytes : string) : UpdEvent bool  (* [atomic_replace] *)
  | RemoveFile (p : Path) : UpdEvent bool
  | MakeDir (d : Dir) : UpdEvent bool
  | RemoveDir (d : Dir) : UpdEvent bool
  | ClearTemps (release : string) : UpdEvent unit        (* [clear_stale_release_temps] *)
  | CreateFile (p : Path) : UpdEvent bool
  | WriteFile (p : Path) (bytes : string) : UpdEvent bool
  | CopyFile (p q : Path) : UpdEvent bool
  | SyncFile (p : Path) : UpdEvent bool
  | Adopt (p q : Path) : UpdEvent bool                   (* [atomic_adopt] *)
  | AdoptDir (release nonce : string) : UpdEvent bool    (* [atomic_adopt_dir] *)
  (* the seams *)
  | Fetch (p : Path) (url : string) (max_bytes : N) : UpdEvent (result N UpdateError)
  | Probe (p : InstallPointer) : UpdEvent bool
  | ObserveSchema : UpdEvent (option DataStoreSchema)
  | RestartProcess (p : InstallPointer) : UpdEvent (option string)
  | NewOpId (k : UpdateOpKind) : UpdEvent string
  | NewNonce : UpdEvent string.
