(* ===== verification/UpdaterInstall.v ===== *)
(** * The install root ([crates/updater/src/install.rs], [release.rs], the shared parts of [service.rs])

    The operations of [InstallLayout] as programs over file events: the
    pointer, the content-addressed artifacts, the immutable release
    directories, the trust anchor, and the resolution of a launch. *)
From S2P Require Import Prelude Strings Bytes Effects UpdaterManifest UpdaterStore.
#[local] Open Scope string_scope.
#[local] Open Scope N_scope.
#[local] Open Scope prog_scope.

Notation Prog := (Prog UpdEvent).
Notation Svc A := (Prog (result A UpdateError)).

Definition store {A} (e : UpdEvent (result A UpdateStoreError)) : Svc A :=
  Call e (λ r, Ret (rmap_err (λ _, Backend) r)).
Definition tried (e : UpdEvent bool) (err : UpdateError) : Svc unit :=
  Call e (λ done : bool, if done then sret tt else sfail err).
Definition require (b : bool) (err : UpdateError) : Svc unit := if b then sret tt else sfail err.
Definition some_or {A} (x : option A) (err : UpdateError) : Svc A :=
  match x with Some a => sret a | None => sfail err end.
(** [?] on a [ManifestRefusal] *)
Definition refusing {A} (r : result A ManifestRefusal) : Svc A := lift (rmap_err Refused r).

Section Install.
Context `{ReleaseWire, InstallWire}.

(** ** The pointer *)
Definition read_pointer : Svc (option InstallPointer) :=
  Call (ReadFile Current) (λ a,
    match a with
    | FAbsent => sret None
    | FFailed => sfail Install
    | FContent bytes =>
        match parse_pointer bytes with
        | None => sfail Install
        | Some p => if pointer_valid p then sret (Some p) else sfail Install
        end
    end).
Definition write_pointer (p : InstallPointer) : Svc unit :=
  require (pointer_valid p) Install;;
  tried (Replace Current (pointer_json p)) Install.
Definition remove_pointer : Svc unit := tried (RemoveFile Current) Install.

(** ** Artifacts *)
Definition publish_staged (staged : Path) (name digest : string) : Svc unit :=
  require (is_lower_hex digest 64) Install;;
  tried (MakeDir (ArtifactDir name)) Install;;
  tried (Adopt staged (ArtifactAt name digest)) Install.
(** The digest of a file, or the error the caller wraps a failure in. *)
Definition digest_of (p : Path) (err : UpdateError) : Svc string :=
  Call (Digest p) (λ d, match d with Some d => sret d | None => sfail err end).
Definition artifact_digest (name digest : string) : Svc string :=
  digest_of (ArtifactAt name digest) (StagedArtifactUnusable name).
Definition binary_name (release : string) : string := release ++ "/faktor".
Definition verify_installed (p : InstallPointer) : Svc unit :=
  match ip_release_id p with
  | Some release =>
      actual <- digest_of (BinaryIn (Final release)) (StagedArtifactUnusable (binary_name release));
      require (bool_decide (actual = ip_digest p)) (StagedArtifactUnusable (binary_name release))
  | None =>
      actual <- artifact_digest (ip_artifact p) (ip_digest p);
      require (bool_decide (actual = ip_digest p)) (StagedArtifactUnusable (ip_artifact p))
  end.
Definition clear_staging (op : string) : Svc unit := tried (RemoveDir (StagingDir op)) Install.

(** ** Releases *)
Definition file_present (s : StatAnswer) : bool :=
  match s with SRegular len => 0 <? len | _ => false end.
Definition is_regular (s : StatAnswer) : bool := match s with SRegular _ => true | _ => false end.
Definition release_id_if_materialized (version digest : string) : Svc (option string) :=
  let release := release_id_for version digest in
  if slen digest <? 12 then sret None
  else if negb (release_id_valid release) then sret None
  else Call (Stat (ManifestIn (Final release))) (λ ms,
    let manifest_present := file_present ms in
    Call (Stat (BinaryIn (Final release))) (λ bs,
      match bs with
      | SMissing =>
          if manifest_present then sfail Install
          else Call (IsDir VersionsDir) (λ dir : bool, if dir then sfail Install else sret None)
      | SStatFailed | SIrregular => sfail Install
      | SRegular _ =>
          actual <- digest_of (BinaryIn (Final release)) (StagedArtifactUnusable (binary_name release));
          require (bool_decide (actual = digest)) (StagedArtifactUnusable (binary_name release));;
          require manifest_present Install;;
          sret (Some release)
      end)).

(** A cleanup whose failure only lengthens the message of [e]. *)
Definition discarding {A} (cleanup : UpdEvent bool) (e : UpdateError) : Svc A := Call cleanup (λ _, sfail e).
Definition or_cleanup {A} (p : Svc A) (cleanup : UpdEvent bool) : Svc A :=
  pbind p (λ r, match r with Ok a => sret a | Err e => discarding cleanup e end).

(** The artifact an error names is the temporary directory's file. *)
Definition write_complete_release_dir (tmp : Place) (artifact : Path) (digest manifest_bytes : string) : Svc unit :=
  tried (WriteFile (ManifestIn tmp) manifest_bytes) Install;;
  tried (CopyFile artifact (BinaryIn tmp)) Install;;
  actual <- digest_of (BinaryIn tmp) (StagedArtifactUnusable "faktor");
  require (bool_decide (actual = digest)) (StagedArtifactUnusable "faktor");;
  tried (SyncFile (BinaryIn tmp)) Install.
Definition rebuild_release (release digest manifest_bytes : string) (artifact : Path) : Svc unit :=
  Call NewNonce (λ nonce,
    let tmp := Temp release nonce in
    tried (MakeDir (ReleaseDir tmp)) Install;;
    or_cleanup (write_complete_release_dir tmp artifact digest manifest_bytes) (RemoveDir (ReleaseDir tmp));;
    or_cleanup
      (Call (IsDir (ReleaseDir (Final release))) (λ present : bool,
         if present then tried (RemoveDir (ReleaseDir (Final release))) Install else sret tt);;
       tried (AdoptDir release nonce) Install)
      (RemoveDir (ReleaseDir tmp));;
    Call (ClearTemps release) (λ _, sret tt)).
Definition materialize_release (release artifact_name digest manifest_bytes : string) : Svc unit :=
  require (release_id_valid release) Install;;
  require (negb (bool_decide (manifest_bytes = ""))) Install;;
  actual <- artifact_digest artifact_name digest;
  require (bool_decide (actual = digest)) (StagedArtifactUnusable artifact_name);;
  tried (MakeDir VersionsDir) Install;;
  let rebuild := rebuild_release release digest manifest_bytes (ArtifactAt artifact_name digest) in
  Call (IsDir (ReleaseDir (Final release))) (λ dir : bool,
    if negb dir then rebuild
    else Call (Stat (BinaryIn (Final release))) (λ bs,
      binary_current <-
        (if is_regular bs
         then d <- digest_of (BinaryIn (Final release)) (StagedArtifactUnusable (binary_name release));
              (sret (bool_decide (d = digest)) : Svc bool)
         else sret false);
      Call (Stat (ManifestIn (Final release))) (λ ms,
        manifest_current <-
          (if is_regular ms
           then Call (ReadFile (ManifestIn (Final release))) (λ a, sret (bool_decide (a = FContent manifest_bytes)) : Svc bool)
           else sret false);
        if binary_current
        then (if manifest_current : bool then sret tt
              else tried (Replace (ManifestIn (Final release)) manifest_bytes) Install);;
             Call (ClearTemps release) (λ _, sret tt)
        else rebuild))).

(** ** The trust anchor and the launcher *)
Definition trust_from_keys (keys : TrustedKeys) : TrustFile :=
  MkTrust TRUST_FILE_SCHEMA ((λ k, (tk_identity k, public_key_base64 k)) <$> keys).
Definition trust_to_keys (t : TrustFile) : result TrustedKeys UpdateError :=
  if negb (bool_decide (tf_schema t = TRUST_FILE_SCHEMA)) then Err Install
  else match mapM (λ e : string * string, key_from_base64 e.1 e.2) (tf_keys t) with
       | Some keys => match keys_new keys with Some ks => Ok ks | None => Err Install end
       | None => Err Install
       end.
Definition read_trust : Svc TrustedKeys :=
  Call (ReadFile TrustAnchor) (λ a,
    match a with
    | FAbsent => sret []
    | FFailed => sfail Install
    | FContent bytes => match parse_trust bytes with Some t => lift (trust_to_keys t) | None => sfail Install end
    end).
Definition write_trust (keys : TrustedKeys) : Svc unit :=
  tried (Replace TrustAnchor (trust_json (trust_from_keys keys))) Install.
Definition install_launcher : Svc unit :=
  Call (Stat Launcher) (λ s,
    if is_regular s then sret tt
    else Call (Stat CurrentExe) (λ e,
      require (is_regular e) Install;;
      Call NewNonce (λ nonce,
        or_cleanup (tried (CopyFile CurrentExe (LauncherTemp nonce)) Install;;
                    tried (SyncFile (LauncherTemp nonce)) Install;;
                    tried (Adopt (LauncherTemp nonce) Launcher) Install)
          (RemoveFile (LauncherTemp nonce))))).

(** ** Resolving a launch *)
Record ReleaseTarget := MkTarget {
  rt_release_id : string; rt_version : string; rt_channel : string; rt_digest : string }.
Definition lists_digest (m : UpdateManifest) (digest : string) : bool :=
  existsb (λ a, bool_decide (af_sha256 a = digest)) (mf_artifacts m).
Definition resolve_launch (keys : TrustedKeys) : Svc ReleaseTarget :=
  current <- read_pointer;
  pointer <- some_or current LaunchRefused;
  release <- some_or (ip_release_id pointer) LaunchRefused;
  require (release_id_valid release) Install;;
  require (negb (bool_decide (keys = []))) LaunchRefused;;
  Call (Stat (ManifestIn (Final release))) (λ ms,
  require (file_present ms) LaunchRefused;;
  Call (Stat (BinaryIn (Final release))) (λ bs,
  require (is_regular bs) LaunchRefused;;
  Call (ReadFile (ManifestIn (Final release))) (λ a,
  match a with
  | FContent manifest_bytes =>
      signed <- refusing (verify_manifest_at_launch manifest_bytes keys);
      require (bool_decide (mf_version signed = ip_version pointer)) LaunchRefused;;
      require (bool_decide (channel_str (mf_channel signed) = ip_channel pointer)) LaunchRefused;;
      require (lists_digest signed (ip_digest pointer)) LaunchRefused;;
      actual <- digest_of (BinaryIn (Final release)) LaunchRefused;
      require (bool_decide (actual = ip_digest pointer)) LaunchRefused;;
      sret (MkTarget release (ip_version pointer) (ip_channel pointer) (ip_digest pointer))
  | _ => sfail LaunchRefused
  end))).
End Install.
