(* ===== verification/UpdaterService.v ===== *)
(** * The update lifecycle ([crates/updater/src/service.rs])

    Every method of [Updater] as a program over the store, the file system and
    the seams: check, stage, apply, downgrade, rollback, the release-aware
    methods and recovery.  [now_ms] is an argument of each, as in the source.
    The reasons and notes that only go into messages are left out. *)
From S2P Require Import Prelude Strings Bytes Effects UpdaterManifest UpdaterStore UpdaterInstall.
#[local] Open Scope string_scope.
#[local] Open Scope N_scope.
#[local] Open Scope prog_scope.

Definition NATIVE_SCHEMA_SUPPORTED : N := 1.
Definition normalize_host_os_arch (os arch : string) : string * string :=
  (if bool_decide (os = "macos") then "darwin" else os,
   if bool_decide (arch = "aarch64") then "arm64" else if bool_decide (arch = "amd64") then "x86_64" else arch).

Record UpdaterConfig := MkConfig {
  cf_channel : Channel; cf_keys : TrustedKeys; cf_max_artifact_bytes : N; cf_clock_skew_ms : Z;
  cf_host_os : string; cf_host_arch : string; cf_local_version : string; cf_allow_legacy_manifests_once : bool }.
(** The configuration [Updater::new] keeps. *)
Definition normalized (c : UpdaterConfig) : UpdaterConfig :=
  let 'MkConfig ch k m s os arch v l := c in
  let '(os', arch') := normalize_host_os_arch os arch in MkConfig ch k m s os' arch' v l.

Record CheckOutcome := MkCheckOutcome {
  co_op_id : string; co_version : string; co_channel : string; co_commit : string; co_identity : string;
  co_release_generation : N; co_certification_level : option string; co_artifact : Artifact;
  co_report : CompatibilityReport }.
Record StageOutcome := MkStageOutcome {
  so_op_id : string; so_version : string; so_channel : string; so_artifact : Artifact; so_digest : string;
  so_bytes : N; so_release_generation : N; so_idempotent : bool }.
Inductive ApplyOutcome :=
  | Applied (op_id version digest artifact : string)
  | RolledBack (op_id version digest artifact : string).
Record ReleaseStageOutcome := MkReleaseStage { rs_stage : StageOutcome; rs_release_id : string }.
Inductive ReleaseOutcome :=
  | ReleaseActivated (op_id release_id version digest artifact : string)
  | ReleaseApplied (op_id release_id version digest artifact running_digest : string)
  | ReleaseRolledBack (op_id release_id version digest artifact : string)
      (restored_version restored_digest running_digest : option string).
Inductive RecoveryOutcome :=
  | Abandoned (op_id : string)
  | Resumed (op_id : string)
  | RecoveredBack (op_id : string)
  | NeedsVerification (op_id : string).
Record StatusView := MkStatus {
  sv_observed_at_ms : Z; sv_channel : string; sv_os : string; sv_arch : string; sv_local_version : string;
  sv_keys : list string; sv_max_artifact_bytes : N; sv_installed : option InstallPointer;
  sv_staged : option (string * string * string * option string * option string);
  sv_operations : Rows; sv_recovery_required : bool; sv_high_water : option HighWaterMark }.
Record Admission := MkAdmission { ad_generation : N; ad_legacy : bool }.

(** ** Characters of the actor *)
Definition char_len (c : ascii) : nat :=
  let n := N_of_ascii c in if n <? 192 then 1 else if n <? 224 then 2 else if n <? 240 then 3 else 4.
Definition is_control (w : string) : bool :=
  match w with
  | String c "" => (N_of_ascii c <? 32) || (N_of_ascii c =? 127)
  | String c (String d "") => (N_of_ascii c =? 194) && byte_in 128 159 d
  | _ => false
  end.
(** [chars().take(n).filter(!control)] *)
Fixpoint printable_chars (n : nat) (s : string) : string :=
  match n, s with
  | S n, String c _ =>
      let w := substring 0 (char_len c) s in
      (if is_control w then "" else w) ++ printable_chars n (substring (char_len c) (String.length s) s)
  | _, _ => ""
  end.

Section Service.
Context `{ReleaseWire, InstallWire}.
Variable cfg : UpdaterConfig.

(** ** Store calls of two statements *)
Definition high_water (channel : string) : Svc (option HighWaterMark) :=
  require (valid_channel channel) Backend;;
  store (ReadMark channel).
Definition reread_mark (channel : string) : Svc unit :=
  mark <- high_water channel;
  match mark with Some _ => sret tt | None => sfail Backend end.
Definition raise_high_water (channel : string) (generation : N) (legacy : bool) (now_ms : Z) : Svc unit :=
  require (valid_channel channel && fits_i64 generation) Backend;;
  store (RaiseMark channel generation legacy now_ms);;
  reread_mark channel.
Definition set_high_water (channel : string) (generation : N) (now_ms : Z) : Svc unit :=
  require (valid_channel channel && fits_i64 generation) Backend;;
  store (SetMark channel generation now_ms);;
  reread_mark channel.

(** ** Guards *)
Definition ensure_no_running : Svc unit :=
  running <- store Running;
  require (bool_decide (running = [])) Conflict.
Definition latest_staged : Svc UpdateOperation :=
  staged <- store (Latest KStage SStaged);
  some_or staged NothingStaged.
Definition with_launch_release (p : InstallPointer) : Svc InstallPointer :=
  release <- release_id_if_materialized (ip_version p) (ip_digest p);
  match release with
  | Some id => lift (with_release_id (Some id) p)
  | None => sret p
  end.
Definition verified (bytes : string) (now_ms : Z) : Svc (UpdateManifest * string) :=
  refusing (verify_manifest bytes (cf_keys cfg) (cf_channel cfg) now_ms (cf_clock_skew_ms cfg)).
Definition admit_manifest (m : UpdateManifest) : Svc Admission :=
  let channel := channel_str (mf_channel m) in
  floor <- high_water channel;
  let floor_generation := match floor with Some mark => hw_generation mark | None => 0 end in
  let legacy_consumed := match floor with Some mark => hw_legacy_consumed mark | None => false end in
  let generation := release_generation m in
  let admission := MkAdmission generation (is_legacy_generation m) in
  if is_legacy_generation m && (0 <? floor_generation) then sfail (RollbackRefused channel floor_generation 0)
  else if is_legacy_generation m && negb (cf_allow_legacy_manifests_once cfg) then sfail (LegacyManifestRefused channel)
  else if is_legacy_generation m && legacy_consumed then sfail (LegacyManifestRefused channel)
  else if generation <? floor_generation then sfail (RollbackRefused channel floor_generation generation)
  else sret admission.
Definition commit_admission (channel : string) (a : Admission) (now_ms : Z) : Svc unit :=
  raise_high_water channel (ad_generation a) (ad_legacy a) now_ms.
Definition plain_artifact_name (name : string) : bool := negb (bool_decide (name = "")) && plain_file_name name.
Definition stage_artifact_published (o : UpdateOperation) : Prog bool :=
  match op_artifact o, op_after_digest o with
  | Some name, Some digest =>
      if plain_artifact_name name && is_lower_hex digest 64
      then Call (Digest (ArtifactAt name digest)) (λ d, Ret (bool_decide (d = Some digest)))
      else Ret false
  | _, _ => Ret false
  end.

(** ** Status and check *)
Definition status (now_ms : Z) : Svc StatusView :=
  installed <- read_pointer;
  staged <- store (Latest KStage SStaged);
  operations <- store (ListRows 64);
  mark <- high_water (channel_str (cf_channel cfg));
  sret (MkStatus now_ms (channel_str (cf_channel cfg)) (cf_host_os cfg) (cf_host_arch cfg) (cf_local_version cfg)
    (tk_identity <$> cf_keys cfg) (cf_max_artifact_bytes cfg) installed
    ((λ o, (op_id o, default "" (op_after_version o), default "" (op_after_digest o), op_channel o, op_artifact o)) <$> staged)
    operations
    (existsb is_running operations || existsb (λ o, bool_decide (op_status o = SUnverified)) operations) mark).

Definition record_refusal {A} (o : UpdateOperation) (refusal : UpdateError) (now_ms : Z) : Svc A :=
  Call (Insert (settle_op SFailed now_ms o)) (λ r,
    match r with Ok _ => sfail refusal | Err _ => sfail (RefusalUnrecorded refusal) end).
Definition too_large (a : Artifact) : bool :=
  match af_size a with Some size => cf_max_artifact_bytes cfg <? size | None => false end.
Definition host_artifact (m : UpdateManifest) : option Artifact :=
  artifact_for_host m (cf_host_os cfg) (cf_host_arch cfg).
Definition no_artifact : UpdateError := Refused (NoArtifactForHost (cf_host_os cfg) (cf_host_arch cfg)).
Definition level_of (m : UpdateManifest) : option string := ce_level <$> mf_certification m.
Definition check (bytes : string) (running : RunningComponents) (now_ms : Z) : Svc CheckOutcome :=
  v <- verified bytes now_ms;
  let '(m, identity) := v in
  let report := compat_check (mf_compatibility m) running in
  Call (NewOpId KCheck) (λ id,
  let o := set_identity (Some identity) (level_of m)
    (set_generation (mf_release_generation m) (set_after (Some (mf_version m)) None None
      (set_channel (Some (channel_str (mf_channel m))) (op_new id KCheck now_ms)))) in
  pbind (admit_manifest m) (λ r,
    match r with
    | Err e => record_refusal o e now_ms
    | Ok admission =>
        let o := set_generation (Some (ad_generation admission)) o in
        if cr_refused report then
          store (Insert (settle_op SFailed now_ms o));;
          sfail (Incompatible report)
        else match host_artifact m with
        | None => record_refusal o no_artifact now_ms
        | Some artifact =>
            let o := settle_op SSucceeded now_ms
              (set_after (Some (mf_version m)) (Some (af_sha256 artifact)) (Some (af_name artifact)) o) in
            if too_large artifact
            then record_refusal o (ArtifactTooLarge (af_name artifact) (cf_max_artifact_bytes cfg)) now_ms
            else store (Insert o);;
              sret (MkCheckOutcome id (mf_version m) (channel_str (mf_channel m)) (mf_commit m) identity
                (ad_generation admission) (level_of m) artifact report)
        end
    end)).

(** ** Stage *)
Definition stage_outcome (o : UpdateOperation) (idempotent : bool) : StageOutcome :=
  MkStageOutcome (op_id o) (default "" (op_after_version o)) (default "" (op_channel o))
    (MkArtifact (default "" (op_artifact o)) (cf_host_os cfg) (cf_host_arch cfg)
      (default "" (op_after_digest o)) "" None)
    (default "" (op_after_digest o)) 0 (default 0 (op_release_generation o)) idempotent.
Definition download_and_publish (id : string) (a : Artifact) : Svc N :=
  require (negb (too_large a)) (ArtifactTooLarge (af_name a) (cf_max_artifact_bytes cfg));;
  clear_staging id;;
  tried (MakeDir (StagingDir id)) Install;;
  let staged := StagingFile id (af_name a) in
  tried (CreateFile staged) Install;;
  streamed <- (Call (Fetch staged (af_url a) (cf_max_artifact_bytes cfg)) Ret);
  tried (SyncFile staged) Install;;
  actual <- digest_of staged Install;
  require (bool_decide (actual = af_sha256 a)) (DigestMismatch (af_name a) (af_sha256 a) actual);;
  publish_staged staged (af_name a) (af_sha256 a);;
  clear_staging id;;
  sret streamed.
(** The columns every operation on the install starts with. *)
Definition seen_before (current : option InstallPointer) : UpdateOperation → UpdateOperation :=
  set_before (ip_version <$> current) (ip_digest <$> current) (ip_artifact <$> current).
Definition stage_row (id : string) (m : UpdateManifest) (identity : string) (a : Artifact) (admission : Admission)
    (current : option InstallPointer) (key : option string) (now_ms : Z) : UpdateOperation :=
  set_key key (set_identity (Some identity) (level_of m) (set_legacy (ad_legacy admission)
    (set_generation (Some (ad_generation admission))
      (set_after (Some (mf_version m)) (Some (af_sha256 a)) (Some (af_name a))
        (seen_before current (set_channel (Some (channel_str (mf_channel m))) (op_new id KStage now_ms))))))).
(** The replay of an idempotency key: an answer, a refusal, or nothing. *)
Definition replay_key (key : option string) (a : Artifact) : Svc (option StageOutcome) :=
  match key with
  | None => sret None
  | Some key =>
      existing <- store (ByKey key);
      match existing with
      | Some o =>
          if bool_decide (op_kind o = KStage) && bool_decide (op_status o = SStaged) then
            if bool_decide (op_after_digest o = Some (af_sha256 a)) && bool_decide (op_artifact o = Some (af_name a))
            then sret (Some (stage_outcome o true))
            else sfail Conflict
          else sret None
      | None => sret None
      end
  end.
Definition stage (bytes : string) (running : RunningComponents) (key : option string) (now_ms : Z) : Svc StageOutcome :=
  ensure_no_running;;
  check bytes running now_ms;;
  v <- verified bytes now_ms;
  let '(m, identity) := v in
  a <- some_or (host_artifact m) no_artifact;
  replayed <- replay_key key a;
  match replayed with
  | Some outcome => sret outcome
  | None =>
  admission <- admit_manifest m;
  current <- read_pointer;
  Call (NewOpId KStage) (λ id,
  let o := stage_row id m identity a admission current key now_ms in
  store (Insert o);;
  pbind (download_and_publish id a) (λ r,
    match r with
    | Ok streamed =>
        pbind (commit_admission (channel_str (mf_channel m)) admission now_ms) (λ c,
          match c with
          | Err e => store (Update (touch now_ms o));; sfail e
          | Ok _ =>
              store (Update (settle_op SStaged now_ms o));;
              sret (MkStageOutcome id (mf_version m) (channel_str (mf_channel m)) a (af_sha256 a) streamed
                (ad_generation admission) false)
          end)
    | Err e =>
        pbind (clear_staging id) (λ _,
          store (Update (settle_op SFailed now_ms o));;
          sfail e)
    end))
  end.

(** ** Apply *)
Definition staged_at_floor (staged : UpdateOperation) : Svc unit :=
  let channel := default (channel_str (cf_channel cfg)) (op_channel staged) in
  floor <- high_water channel;
  let floor_generation := match floor with Some mark => hw_generation mark | None => 0 end in
  let offered := default 0 (op_release_generation staged) in
  require (negb (offered <? floor_generation)) (RollbackRefused channel floor_generation offered).
Definition not_yet_applied (staged : UpdateOperation) : Svc unit :=
  last <- store (Latest KApply SApplied);
  match last with
  | Some l => require (negb (bool_decide (is_Some (op_after_digest l))
                             && bool_decide (op_after_digest l = op_after_digest staged))) Conflict
  | None => sret tt
  end.
Definition apply_row (id : string) (staged : UpdateOperation) (target : InstallPointer)
    (current : option InstallPointer) (head : option Z) (now_ms : Z) : UpdateOperation :=
  set_schema_head head (set_identity (op_identity staged) (op_certification_level staged)
    (set_generation (op_release_generation staged)
      (set_after (Some (ip_version target)) (Some (ip_digest target)) (Some (ip_artifact target))
        (seen_before current (set_channel (op_channel staged) (op_new id KApply now_ms)))))).
(** The pointer swap of a recorded operation: a failed write settles the row. *)
Definition swap_pointer (o : UpdateOperation) (target : InstallPointer) (now_ms : Z) : Svc unit :=
  pbind (write_pointer target) (λ r,
    match r with
    | Ok _ => sret tt
    | Err e => store (Update (settle_op SFailed now_ms o));; sfail e
    end).
Definition restore_previous (previous : option InstallPointer) : Prog unit :=
  match previous with
  | Some p =>
      pbind (write_pointer p) (λ r,
        match r with Ok _ => Call (Probe p) (λ _, Ret tt) | Err _ => Ret tt end)
  | None => pbind remove_pointer (λ _, Ret tt)
  end.
Definition record_rollback (previous : option InstallPointer) (target : InstallPointer) (now_ms : Z) : Svc unit :=
  Call (NewOpId KRollback) (λ id,
    store (Insert (settle_op SRolledBack now_ms
      (set_after (ip_version <$> previous) (ip_digest <$> previous) (ip_artifact <$> previous)
        (set_before (Some (ip_version target)) (Some (ip_digest target)) (Some (ip_artifact target))
          (set_channel (Some (ip_channel target)) (op_new id KRollback now_ms))))))).
(** A failed probe after the swap: restore, settle the row, record the rollback. *)
Definition roll_back_swap (o : UpdateOperation) (current : option InstallPointer) (target : InstallPointer)
    (now_ms : Z) : Svc ApplyOutcome :=
  pbind (restore_previous current) (λ _,
    store (Update (settle_op SRolledBack now_ms o));;
    record_rollback current target now_ms;;
    sret (RolledBack (op_id o) (ip_version target) (ip_digest target) (ip_artifact target))).
Definition apply (now_ms : Z) : Svc ApplyOutcome :=
  ensure_no_running;;
  staged <- latest_staged;
  staged_at_floor staged;;
  not_yet_applied staged;;
  artifact <- some_or (op_artifact staged) Conflict;
  digest <- some_or (op_after_digest staged) Conflict;
  target <- lift (pointer_new artifact digest (default "" (op_after_version staged))
                    (default "stable" (op_channel staged)) now_ms);
  target <- with_launch_release target;
  verify_installed target;;
  current <- read_pointer;
  Call (NewOpId KApply) (λ id,
  Call ObserveSchema (λ schema : option DataStoreSchema,
  let o := apply_row id staged target current (dss_head <$> schema) now_ms in
  store (Insert o);;
  swap_pointer o target now_ms;;
  Call (Probe target) (λ healthy : bool,
    if healthy then
      store (Update (settle_op SApplied now_ms o));;
      sret (Applied id (ip_version target) (ip_digest target) (ip_artifact target))
    else roll_back_swap o current target now_ms))).

(** ** Downgrade *)
Definition clean_actor (actor : string) : string := printable_chars 128 actor.
Definition refuse_recorded {A} (o : UpdateOperation) (e : UpdateError) (now_ms : Z) : Svc A :=
  store (Insert (settle_op SFailed now_ms o));; sfail e.
Definition downgrade_row (id : string) (m : UpdateManifest) (identity : string) (generation : N)
    (current : option InstallPointer) (key actor : option string) (now_ms : Z) : UpdateOperation :=
  set_key key (set_actor (clean_actor <$> actor) (set_generation (Some generation)
    (set_identity (Some identity) (level_of m) (set_after (Some (mf_version m)) None None
      (seen_before current (set_channel (Some (channel_str (mf_channel m))) (op_new id KDowngrade now_ms))))))).
Definition complete_downgrade (o : UpdateOperation) (channel : string) (generation : N) (target : InstallPointer)
    (now_ms : Z) : Svc ApplyOutcome :=
  pbind (set_high_water channel generation now_ms) (λ r,
    store (Update (settle_op SApplied now_ms o));;
    match r with
    | Err e => sfail e
    | Ok _ => sret (Applied (op_id o) (ip_version target) (ip_digest target) (ip_artifact target))
    end).
Definition downgrade (bytes : string) (running : RunningComponents) (key actor : option string) (now_ms : Z) :
    Svc ApplyOutcome :=
  ensure_no_running;;
  v <- verified bytes now_ms;
  let '(m, identity) := v in
  let channel := channel_str (mf_channel m) in
  generation <- some_or (mf_release_generation m) (LegacyManifestRefused channel);
  current <- read_pointer;
  Call (NewOpId KDowngrade) (λ id,
  let o := downgrade_row id m identity generation current key actor now_ms in
  let report := compat_check (mf_compatibility m) running in
  if cr_refused report then refuse_recorded o (Incompatible report) now_ms
  else match host_artifact m with
  | None => refuse_recorded o no_artifact now_ms
  | Some a =>
      let o := set_after (Some (mf_version m)) (Some (af_sha256 a)) (Some (af_name a)) o in
      if too_large a
      then refuse_recorded o (ArtifactTooLarge (af_name a) (cf_max_artifact_bytes cfg)) now_ms
      else if bool_decide (ip_digest <$> current = Some (af_sha256 a)) then sfail Conflict
      else store (Insert o);;
        pbind (download_and_publish id a) (λ r,
          match r with
          | Err e =>
              pbind (clear_staging id) (λ _, store (Update (settle_op SFailed now_ms o));; sfail e)
          | Ok _ =>
              target <- lift (pointer_new (af_name a) (af_sha256 a) (mf_version m) channel now_ms);
              target <- with_launch_release target;
              verify_installed target;;
              swap_pointer o target now_ms;;
              Call (Probe target) (λ healthy : bool,
                if healthy then complete_downgrade o channel generation target now_ms
                else roll_back_swap o current target now_ms)
          end)
  end).

(** ** Rollback *)
Definition rollback_row (id : string) (last : UpdateOperation) (current : InstallPointer)
    (version digest artifact : string) (now_ms : Z) : UpdateOperation :=
  set_after (Some version) (Some digest) (Some artifact)
    (seen_before (Some current) (set_channel (op_channel last) (op_new id KRollback now_ms))).
(** The live schema version and the head of the binary a rollback would
    restore, when the former is newer. *)
Definition schema_ahead (last : UpdateOperation) (schema : option DataStoreSchema) : option (Z * Z) :=
  head ← op_store_schema_head last;
  found ← schema ≫= dss_live;
  if (head <? found)%Z then Some (found, head) else None.
Definition rollback (now_ms : Z) : Svc ApplyOutcome :=
  ensure_no_running;;
  applied <- store (Latest KApply SApplied);
  last <- some_or applied Conflict;
  installed <- read_pointer;
  current <- some_or installed Conflict;
  require (bool_decide (Some (ip_digest current) = op_after_digest last)) Conflict;;
  previous_digest <- some_or (op_before_digest last) Conflict;
  previous_version <- some_or (op_before_version last) Conflict;
  let previous_artifact := default "" (op_before_artifact last) in
  Call ObserveSchema (λ schema : option DataStoreSchema,
  match schema_ahead last schema with
  | Some (found, head) =>
      Call (NewOpId KRollback) (λ id,
        store (Insert (settle_op SFailed now_ms
          (rollback_row id last current previous_version previous_digest previous_artifact now_ms)));;
        sfail (SchemaAhead previous_version found head))
  | None =>
      target <- lift (pointer_new previous_artifact previous_digest previous_version
                        (default "stable" (op_channel last)) now_ms);
      target <- with_launch_release target;
      verify_installed target;;
      Call (NewOpId KRollback) (λ id,
      let o := rollback_row id last current (ip_version target) (ip_digest target) (ip_artifact target) now_ms in
      store (Insert o);;
      write_pointer target;;
      Call (Probe target) (λ healthy : bool,
        if healthy then
          store (Update (settle_op SRolledBack now_ms o));;
          sret (RolledBack id (ip_version target) (ip_digest target) (ip_artifact target))
        else
          store (Update (settle_op SUnverified now_ms o));;
          sfail HealthFailed))
  end).
End Service.
