(* ===== verification/UpdaterRelease.v ===== *)
(** * Releases and recovery ([crates/updater/src/service.rs])

    The release-aware half of [Updater]: staging a materialized release, its
    activation with or without a supervised restart, finalizing and aborting,
    and the recovery of what a crash left running. *)
From S2P Require Import Prelude Strings Bytes Effects UpdaterManifest UpdaterStore UpdaterInstall UpdaterService.
#[local] Open Scope string_scope.
#[local] Open Scope N_scope.
#[local] Open Scope prog_scope.

Section Release.
Context `{ReleaseWire, InstallWire}.
Variable cfg : UpdaterConfig.

Definition stage_release (bytes : string) (running : RunningComponents) (key : option string) (now_ms : Z) :
    Svc ReleaseStageOutcome :=
  staged <- stage cfg bytes running key now_ms;
  v <- verified cfg bytes now_ms;
  a <- some_or (host_artifact cfg v.1) (no_artifact cfg);
  require (bool_decide (af_sha256 a = so_digest staged)) Conflict;;
  let release := release_id_for (so_version staged) (so_digest staged) in
  require (release_id_valid release) Install;;
  write_trust (cf_keys cfg);;
  install_launcher;;
  materialize_release release (af_name a) (so_digest staged) bytes;;
  sret (MkReleaseStage staged release).

(** ** Failing and activating *)
Definition previous_pointer (o : UpdateOperation) : Svc (option InstallPointer) :=
  match op_before_artifact o, op_before_digest o with
  | Some artifact, Some digest =>
      p <- lift (pointer_new artifact digest (default "" (op_before_version o)) (default "stable" (op_channel o))
                   (op_created_ms o));
      p <- with_launch_release p;
      sret (Some p)
  | _, _ => sret None
  end.
Definition restore_pointer (previous : option InstallPointer) : Prog unit :=
  match previous with
  | Some p => pbind (write_pointer p) (λ _, Ret tt)
  | None => pbind remove_pointer (λ _, Ret tt)
  end.
(** What the restarted previous process reports, when a restarter is wired. *)
Definition restart_previous (restarter : bool) (previous : option InstallPointer) : Prog (option string) :=
  match restarter, previous with
  | true, Some p => Call (RestartProcess p) Ret
  | _, _ => Ret None
  end.
Definition fail_release (o : UpdateOperation) (previous : option InstallPointer) (target : InstallPointer)
    (now_ms : Z) (restarter : bool) : Svc ReleaseOutcome :=
  pbind (restore_pointer previous) (λ _,
  pbind (restart_previous restarter previous) (λ running,
    store (Update (settle_op SRolledBack now_ms o));;
    record_rollback previous target now_ms;;
    sret (ReleaseRolledBack (op_id o) (default "" (ip_release_id target)) (ip_version target) (ip_digest target)
      (ip_artifact target) (ip_version <$> previous) (ip_digest <$> previous) running))).
Definition activate_release (now_ms : Z) (restarter : bool) : Svc ReleaseOutcome :=
  ensure_no_running;;
  staged <- latest_staged;
  staged_at_floor cfg staged;;
  not_yet_applied staged;;
  let version := default "" (op_after_version staged) in
  digest <- some_or (op_after_digest staged) Conflict;
  artifact <- some_or (op_artifact staged) Conflict;
  let release := release_id_for version digest in
  require (release_id_valid release) Install;;
  Call (Stat (BinaryIn (Final release))) (λ bs,
  require (is_regular bs) Conflict;;
  Call (ReadFile (ManifestIn (Final release))) (λ a,
  match a with
  | FContent manifest_bytes =>
      signed <- refusing (verify_manifest_at_launch manifest_bytes (cf_keys cfg));
      require (bool_decide (mf_version signed = version)) Conflict;;
      require (lists_digest signed digest) Conflict;;
      target <- lift (pointer_new artifact digest version (default "stable" (op_channel staged)) now_ms);
      target <- lift (with_release_id (Some release) target);
      verify_installed target;;
      current <- read_pointer;
      Call (NewOpId KApply) (λ id,
      Call ObserveSchema (λ schema : option DataStoreSchema,
      let o := apply_row id staged target current (dss_head <$> schema) now_ms in
      store (Insert o);;
      swap_pointer o target now_ms;;
      let fail := fail_release o current target now_ms restarter in
      if restarter then
        Call (RestartProcess target) (λ reported,
          if bool_decide (reported = Some (ip_digest target)) then
            Call (Probe target) (λ healthy : bool,
              if healthy then
                store (Update (settle_op SApplied now_ms o));;
                sret (ReleaseApplied id release (ip_version target) (ip_digest target) (ip_artifact target)
                  (ip_digest target))
              else fail)
          else fail)
      else
        Call (Probe target) (λ healthy : bool,
          if healthy then
            store (Update (touch now_ms o));;
            sret (ReleaseActivated id release (ip_version target) (ip_digest target) (ip_artifact target))
          else fail)))
  | _ => sfail Install
  end)).
Definition apply_release (now_ms : Z) : Svc ReleaseOutcome := activate_release now_ms true.

(** ** Finalizing and aborting *)
Definition running_release_apply (digest : string) : Svc (option UpdateOperation) :=
  rows <- store Running;
  sret (List.find (λ o, bool_decide (op_kind o = KApply) && bool_decide (op_after_digest o = Some digest)) rows).
(** The installed release pointer with its activation that is in flight. *)
Definition pending_activation (k : InstallPointer → string → UpdateOperation → Svc ReleaseOutcome)
    (guard : InstallPointer → Svc unit) : Svc ReleaseOutcome :=
  installed <- read_pointer;
  current <- some_or installed Conflict;
  release <- some_or (ip_release_id current) Conflict;
  guard current;;
  found <- running_release_apply (ip_digest current);
  o <- some_or found Conflict;
  k current release o.
Definition finalize_release (reported : string) (now_ms : Z) : Svc ReleaseOutcome :=
  pending_activation
    (λ current release o,
      Call (Probe current) (λ healthy : bool,
        if healthy then
          store (Update (settle_op SApplied now_ms o));;
          sret (ReleaseApplied (op_id o) release (ip_version current) (ip_digest current) (ip_artifact current) reported)
        else
          previous <- previous_pointer o;
          fail_release o previous current now_ms false))
    (λ current, require (bool_decide (reported = ip_digest current)) Conflict).
Definition abort_release (now_ms : Z) : Svc ReleaseOutcome :=
  pending_activation
    (λ current release o,
      previous <- previous_pointer o;
      outcome <- fail_release o previous current now_ms false;
      match outcome with
      | ReleaseRolledBack id _ version digest artifact rv rd run =>
          sret (ReleaseRolledBack id release version digest artifact rv rd run)
      | other => sret other
      end)
    (λ _, sret tt).

(** ** Recovery *)
(** [Result<(), String>]: the reason is prose. *)
Definition reauthenticate_recovered_release (o : UpdateOperation) (target : InstallPointer) : Prog bool :=
  match ip_release_id target with
  | None => Ret true
  | Some release =>
      Call (ReadFile (ManifestIn (Final release))) (λ a,
        match a with
        | FContent bytes =>
            match verify_manifest_at_launch bytes (cf_keys cfg) with
            | Ok signed =>
                if negb (bool_decide (mf_version signed = ip_version target)) then Ret false
                else if negb (bool_decide (channel_str (mf_channel signed) = ip_channel target)) then Ret false
                else if negb (lists_digest signed (ip_digest target)) then Ret false
                else if match op_release_generation o with
                        | Some recorded => negb (bool_decide (release_generation signed = recorded)) | None => false end
                then Ret false
                else if bool_decide (op_kind o = KDowngrade) then Ret true
                else pbind (high_water (default (channel_str (cf_channel cfg)) (op_channel o))) (λ r,
                  match r with
                  | Ok floor =>
                      Ret (negb (default 0 (op_release_generation o)
                                 <? match floor with Some mark => hw_generation mark | None => 0 end))
                  | Err _ => Ret false
                  end)
            | Err _ => Ret false
            end
        | _ => Ret false
        end)
  end.
Definition needs_verification (o : UpdateOperation) (now_ms : Z) : Svc RecoveryOutcome :=
  store (Update (settle_op SUnverified now_ms o));;
  sret (NeedsVerification (op_id o)).
Definition abandon (o : UpdateOperation) (now_ms : Z) : Svc RecoveryOutcome :=
  store (Update (settle_op SFailed now_ms o));;
  sret (Abandoned (op_id o)).
(** The floor reset a resumed downgrade still owes. *)
Definition owed_reset (o : UpdateOperation) (now_ms : Z) : Svc unit :=
  if bool_decide (op_kind o = KDowngrade)
  then set_high_water (default (channel_str (cf_channel cfg)) (op_channel o)) (default 0 (op_release_generation o)) now_ms
  else sret tt.
Definition recover_swapped (o : UpdateOperation) (target : InstallPointer) (now_ms : Z) (running_digest : option string) :
    Svc RecoveryOutcome :=
  if bool_decide (is_Some (ip_release_id target)) && negb (bool_decide (running_digest = Some (ip_digest target)))
  then needs_verification o now_ms
  else pbind (reauthenticate_recovered_release o target) (λ authentic : bool,
    if negb authentic then needs_verification o now_ms
    else Call (Probe target) (λ healthy : bool,
      if healthy then
        pbind (owed_reset o now_ms) (λ r,
          match r with
          | Err _ => needs_verification o now_ms
          | Ok _ =>
              store (Update (settle_op SApplied now_ms o));;
              sret (Resumed (op_id o))
          end)
      else
        pbind (previous_pointer o) (λ r,
          match r with
          | Err _ => needs_verification o now_ms
          | Ok previous =>
              pbind (restore_previous previous) (λ _,
                store (Update (settle_op SRolledBack now_ms o));;
                record_rollback previous target now_ms;;
                sret (RecoveredBack (op_id o)))
          end))).
Definition recover_apply (o : UpdateOperation) (now_ms : Z) (running_digest : option string) : Svc RecoveryOutcome :=
  current <- read_pointer;
  let target_digest := default "" (op_after_digest o) in
  match current with
  | Some target =>
      if bool_decide (ip_digest target = target_digest) then recover_swapped o target now_ms running_digest
      else if bool_decide (op_before_digest o = Some (ip_digest target)) then
        if match running_digest with Some running => negb (bool_decide (running = ip_digest target)) | None => false end
        then needs_verification o now_ms
        else abandon o now_ms
      else needs_verification o now_ms
  | None => if bool_decide (op_before_digest o = None) then abandon o now_ms else needs_verification o now_ms
  end.
Definition recover_rollback (o : UpdateOperation) (now_ms : Z) : Svc RecoveryOutcome :=
  current <- read_pointer;
  match current with
  | Some target =>
      if bool_decide (ip_digest target = default "" (op_after_digest o)) then
        pbind (reauthenticate_recovered_release o target) (λ authentic : bool,
          if negb authentic then needs_verification o now_ms
          else
            store (Update (settle_op SRolledBack now_ms o));;
            sret (Resumed (op_id o)))
      else needs_verification o now_ms
  | None => needs_verification o now_ms
  end.
Definition recover_stage (o : UpdateOperation) (now_ms : Z) : Svc RecoveryOutcome :=
  clear_staging (op_id o);;
  pbind (stage_artifact_published o) (λ published : bool,
    if published then
      raise_high_water (default (channel_str (cf_channel cfg)) (op_channel o)) (default 0 (op_release_generation o))
        (op_legacy_admission o) now_ms;;
      abandon o now_ms
    else abandon o now_ms).
Definition recover_operation (o : UpdateOperation) (now_ms : Z) (running_digest : option string) : Svc RecoveryOutcome :=
  match op_kind o with
  | KCheck => abandon o now_ms
  | KStage => recover_stage o now_ms
  | KApply | KDowngrade => recover_apply o now_ms running_digest
  | KRollback => recover_rollback o now_ms
  end.
Fixpoint recover_each (rows : Rows) (now_ms : Z) (running_digest : option string) : Svc (list RecoveryOutcome) :=
  match rows with
  | [] => sret []
  | o :: rows =>
      outcome <- recover_operation o now_ms running_digest;
      rest <- recover_each rows now_ms running_digest;
      sret (outcome :: rest)
  end.
Definition recover_with_running_digest (now_ms : Z) (running_digest : option string) : Svc (list RecoveryOutcome) :=
  rows <- store Running;
  recover_each rows now_ms running_digest.
Definition recover (now_ms : Z) : Svc (list RecoveryOutcome) := recover_with_running_digest now_ms None.
End Release.
