(* ===== verification/UpdaterSystem.v ===== *)
(** * The updater as a system of processes

    The daemon's handlers take no lock, and the command line runs the same
    methods from processes of its own: any number of them run at once on one
    store and one install root, event by event.  A statement on the store is
    atomic; any call may fail; removing a directory may stop half-way, a copy
    or write that fails may leave a part; a process may die anywhere.  The
    world keeps, beside the disk, who drew which name: a UUID or a nonce is not
    drawn twice. *)
From S2P Require Import Prelude Strings Bytes Effects Rely UpdaterManifest UpdaterStore UpdaterInstall UpdaterService UpdaterRelease.
#[local] Open Scope string_scope.
#[local] Open Scope N_scope.

#[global] Instance Place_countable : Countable Place.
Proof.
  refine (inj_countable' (λ p, match p with Final r => inl r | Temp r n => inr (r, n) end)
    (λ s : string + string * string, match s with inl r => Final r | inr (r, n) => Temp r n end) _).
  by intros [].
Defined.
#[global] Instance Path_countable : Countable Path.
Proof.
  refine (inj_countable' (λ p, match p with
    | Current => inl 0%nat | TrustAnchor => inl 1%nat | Launcher => inl 2%nat | CurrentExe => inl 3%nat
    | ArtifactAt n d => inr (inl (true, n, d)) | StagingFile o n => inr (inl (false, o, n))
    | BinaryIn p => inr (inr (inl (true, p))) | ManifestIn p => inr (inr (inl (false, p)))
    | LauncherTemp n => inr (inr (inr n)) end)
    (λ s : nat + ((bool * string * string) + ((bool * Place) + string)), match s with
    | inl 0%nat => Current | inl 1%nat => TrustAnchor | inl 2%nat => Launcher | inl _ => CurrentExe
    | inr (inl (true, n, d)) => ArtifactAt n d | inr (inl (false, o, n)) => StagingFile o n
    | inr (inr (inl (true, p))) => BinaryIn p | inr (inr (inl (false, p))) => ManifestIn p
    | inr (inr (inr n)) => LauncherTemp n end) _).
  by intros [].
Defined.
#[global] Instance Dir_countable : Countable Dir.
Proof.
  refine (inj_countable' (λ d, match d with
    | VersionsDir => inl tt | ReleaseDir p => inr (inl p) | StagingDir o => inr (inr (true, o))
    | ArtifactDir n => inr (inr (false, n)) end)
    (λ s : unit + (Place + bool * string), match s with
    | inl _ => VersionsDir | inr (inl p) => ReleaseDir p | inr (inr (true, o)) => StagingDir o
    | inr (inr (false, n)) => ArtifactDir n end) _).
  by intros [].
Defined.

Notation Files := (gmap Path string).
Record World := MkWorld { rows : Rows; marks : Marks; files : Files; dirs : gset Dir; drawn : gmap string nat }.
Definition on_rows (f : Rows → Rows) (w : World) : World := MkWorld (f (rows w)) (marks w) (files w) (dirs w) (drawn w).
Definition on_marks (f : Marks → Marks) (w : World) : World := MkWorld (rows w) (f (marks w)) (files w) (dirs w) (drawn w).
Definition on_files (f : Files → Files) (w : World) : World := MkWorld (rows w) (marks w) (f (files w)) (dirs w) (drawn w).
Definition on_dirs (f : gset Dir → gset Dir) (w : World) : World := MkWorld (rows w) (marks w) (files w) (f (dirs w)) (drawn w).
Definition draw (t : nat) (name : string) (w : World) : World :=
  MkWorld (rows w) (marks w) (files w) (dirs w) (<[name := t]> (drawn w)).

(** The files a directory holds, itself and below. *)
Definition within (d : Dir) (p : Path) : bool :=
  match d, p with
  | VersionsDir, (BinaryIn _ | ManifestIn _) => true
  | ReleaseDir q, (BinaryIn q' | ManifestIn q') => bool_decide (q = q')
  | StagingDir o, StagingFile o' _ => bool_decide (o = o')
  | ArtifactDir n, ArtifactAt n' _ => bool_decide (n = n')
  | _, _ => false
  end.
Definition temp_of (release : string) (p : Path) : bool :=
  match p with BinaryIn (Temp r _) | ManifestIn (Temp r _) => bool_decide (r = release) | _ => false end.
Definition without (gone : gset Path) (fs : Files) : Files := filter (λ pc, pc.1 ∉ gone) fs.
Definition rename (p q : Path) (fs : Files) : Files :=
  match fs !! p with Some s => <[q := s]> (delete p fs) | None => fs end.
Definition move_release (release nonce : string) (fs : Files) : Files :=
  rename (BinaryIn (Temp release nonce)) (BinaryIn (Final release))
    (rename (ManifestIn (Temp release nonce)) (ManifestIn (Final release)) fs).

Section Answers.
Context `{ReleaseWire}.

(** What thread [t] may be answered, and what the event does.  A failed
    statement of the store does nothing. *)
Definition answer (t : nat) {X} (e : UpdEvent X) : World → X → World → Prop :=
  match e in UpdEvent X return World → X → World → Prop with
  | Insert o => λ w r w',
      match r with
      | Ok _ => ∃ rs, insert_row o (rows w) = Some rs ∧ w' = on_rows (λ _, rs) w
      | Err _ => w' = w
      end
  | Update o => λ w r w',
      match r with
      | Ok _ => ∃ rs, update_row o (rows w) = Some rs ∧ w' = on_rows (λ _, rs) w
      | Err _ => w' = w
      end
  | ListRows limit => λ w r w', w' = w ∧ match r with Ok l => l = list_rows limit (rows w) | Err _ => True end
  | Running => λ w r w', w' = w ∧ match r with Ok l => l = running_rows (rows w) | Err _ => True end
  | Latest k s => λ w r w', w' = w ∧ match r with Ok o => o = latest_row k s (rows w) | Err _ => True end
  | ByKey key => λ w r w', w' = w ∧ match r with Ok o => o = by_key_row key (rows w) | Err _ => True end
  | ReadMark c => λ w r w', w' = w ∧ match r with Ok m => m = marks w !! c | Err _ => True end
  | RaiseMark c g l now => λ w r w', w' = match r with Ok _ => on_marks (raise_mark c g l now) w | Err _ => w end
  | SetMark c g now => λ w r w', w' = match r with Ok _ => on_marks (set_mark c g now) w | Err _ => w end
  | ReadFile p => λ w r w', w' = w
      ∧ match r with FAbsent => files w !! p = None | FContent s => files w !! p = Some s | FFailed => True end
  | Stat p => λ w r w', w' = w
      ∧ match r with
        | SMissing => files w !! p = None
        | SRegular n => ∃ s, files w !! p = Some s ∧ n = slen s
        | SIrregular | SStatFailed => True
        end
  | IsDir d => λ w (r : bool) w', w' = w ∧ (r = true → d ∈ dirs w)
  | Digest p => λ w r w', w' = w
      ∧ match r with Some d => ∃ s, files w !! p = Some s ∧ d = sha256_hex s | None => True end
  | Replace p b => λ w (r : bool) w', w' = if r then on_files <[p := b]> w else w
  | RemoveFile p => λ w (r : bool) w', w' = if r then on_files (delete p) w else w
  | MakeDir d => λ w (r : bool) w', w' = if r then on_dirs ({[d]} ∪.) w else w
  | RemoveDir d => λ w (r : bool) w', ∃ gone,
      (∀ p, p ∈ gone → within d p = true)
      ∧ (r = true → ∀ p, within d p = true → is_Some (files w !! p) → p ∈ gone)
      ∧ w' = on_files (without gone) (if r then on_dirs (.∖ {[d]}) w else w)
  | ClearTemps release => λ w _ w', ∃ gone lost,
      (∀ p, p ∈ gone → temp_of release p = true)
      ∧ (∀ d, d ∈ lost → ∃ n, d = ReleaseDir (Temp release n))
      ∧ w' = on_files (without gone) (on_dirs (.∖ lost) w)
  | CreateFile p => λ w (r : bool) w', w' = if r then on_files <[p := ""]> w else w
  | WriteFile p b => λ w (r : bool) w',
      if r then w' = on_files <[p := b]> w
      else w' = w ∨ ∃ b1 b2, b = b1 ++ b2 ∧ w' = on_files <[p := b1]> w
  | CopyFile p q => λ w (r : bool) w',
      if r then ∃ s, files w !! p = Some s ∧ w' = on_files <[q := s]> w
      else w' = w ∨ ∃ s, w' = on_files <[q := s]> w
  | SyncFile p => λ w _ w', w' = w
  | Adopt p q => λ w (r : bool) w',
      if r then is_Some (files w !! p) ∧ w' = on_files (rename p q) w else w' = w
  | AdoptDir release nonce => λ w (r : bool) w',
      if r then files w !! BinaryIn (Final release) = None ∧ files w !! ManifestIn (Final release) = None
                ∧ w' = on_files (move_release release nonce)
                         (on_dirs (λ ds, {[ReleaseDir (Final release)]} ∪ ds ∖ {[ReleaseDir (Temp release nonce)]}) w)
      else w' = w
  (* what was fetched is in the file, if nobody removed it *)
  | Fetch p url max => λ w r w', ∃ s,
      w' = (if decide (is_Some (files w !! p)) then on_files <[p := s]> w else w)
      ∧ match r with Ok n => n = slen s ∧ n <= max | Err _ => True end
  | Probe p => λ w _ w', w' = w
  | ObserveSchema => λ w _ w', w' = w
  | RestartProcess p => λ w _ w', w' = w
  | NewOpId k => λ w id w', drawn w !! id = None ∧ w' = draw t id w
  | NewNonce => λ w n w', drawn w !! n = None ∧ w' = draw t n w
  end.
End Answers.

(** ** The methods *)
Inductive Answer :=
  | ACheck (r : result CheckOutcome UpdateError)
  | AStage (r : result StageOutcome UpdateError)
  | AStageRelease (r : result ReleaseStageOutcome UpdateError)
  | AApply (r : result ApplyOutcome UpdateError)
  | ARelease (r : result ReleaseOutcome UpdateError)
  | ARecover (r : result (list RecoveryOutcome) UpdateError)
  | AStatus (r : result StatusView UpdateError)
  | ALaunch (r : result ReleaseTarget UpdateError).
Inductive Method :=
  | MCheck (bytes : string) (running : RunningComponents) (now_ms : Z)
  | MStage (bytes : string) (running : RunningComponents) (key : option string) (now_ms : Z)
  | MStageRelease (bytes : string) (running : RunningComponents) (key : option string) (now_ms : Z)
  | MApply (now_ms : Z)
  | MDowngrade (bytes : string) (running : RunningComponents) (key actor : option string) (now_ms : Z)
  | MRollback (now_ms : Z)
  | MActivate (now_ms : Z) (restarter : bool)
  | MFinalize (reported : string) (now_ms : Z)
  | MAbort (now_ms : Z)
  | MRecover (now_ms : Z) (running_digest : option string)
  | MStatus (now_ms : Z)
  | MLaunch.

Section Methods.
Context `{ReleaseWire, InstallWire}.
Variable cfg : UpdaterConfig.
Definition answering {A} (p : Svc A) (f : result A UpdateError → Answer) : Prog Answer := pbind p (λ r, Ret (f r)).
Definition run_method (m : Method) : Prog Answer :=
  match m with
  | MCheck b r now => answering (check cfg b r now) ACheck
  | MStage b r key now => answering (stage cfg b r key now) AStage
  | MStageRelease b r key now => answering (stage_release cfg b r key now) AStageRelease
  | MApply now => answering (apply cfg now) AApply
  | MDowngrade b r key actor now => answering (downgrade cfg b r key actor now) AApply
  | MRollback now => answering (rollback now) AApply
  | MActivate now restarter => answering (activate_release cfg now restarter) ARelease
  | MFinalize reported now => answering (finalize_release reported now) ARelease
  | MAbort now => answering (abort_release now) ARelease
  | MRecover now running => answering (recover_with_running_digest cfg now running) ARecover
  | MStatus now => answering (status cfg now) AStatus
  | MLaunch => answering (keys <- read_trust; resolve_launch keys)%prog ALaunch
  end.
Definition is_method (p : Prog Answer) : Prop := ∃ m, p = run_method m.
Definition empty_world : World := MkWorld [] ∅ ∅ ∅ ∅.
Notation UpdaterSystem := (System (E := UpdEvent) (World := World) Answer).
Definition initial : UpdaterSystem := MkSystem empty_world (λ _, None) 0%nat [].
Definition updater_step : relation UpdaterSystem :=
  step (λ t X, @answer _ t X) is_method.
Definition reachable (s : UpdaterSystem) : Prop := rtc updater_step initial s.
End Methods.
