(* ===== verification/UpdaterInv.v ===== *)
(** * What every state of the updater keeps

    [signed m]: an allowlisted key signed the manifest [m].  A row, the
    pointer, a mark and a release directory all go back to a signed manifest
    and, where bytes are promised, to bytes that hash to its digest.  [evolves]
    is the order in which the durable state grows: rows keep what they say
    (their status aside), published artifacts stay, a floor only falls below
    where it was when a recorded downgrade says so. *)
From S2P Require Import Prelude Strings Bytes Effects Rely UpdaterManifest UpdaterStore UpdaterInstall UpdaterService UpdaterRelease UpdaterSystem.
#[local] Open Scope string_scope.
#[local] Open Scope N_scope.

Create HintDb updater.

(** A row without what its life changes. *)
Definition core (o : UpdateOperation) : UpdateOperation := settle_op SRunning 0 o.
Lemma core_settle s t o : core (settle_op s t o) = core o.
Proof. by destruct o. Qed.
Lemma core_fields o o' : core o' = core o →
  op_id o' = op_id o ∧ op_kind o' = op_kind o ∧ op_channel o' = op_channel o
  ∧ op_after_version o' = op_after_version o ∧ op_after_digest o' = op_after_digest o ∧ op_artifact o' = op_artifact o
  ∧ op_before_version o' = op_before_version o ∧ op_before_digest o' = op_before_digest o
  ∧ op_before_artifact o' = op_before_artifact o ∧ op_release_generation o' = op_release_generation o
  ∧ op_legacy_admission o' = op_legacy_admission o.
Proof. destruct o, o'. cbn. by intros [= -> -> -> -> -> -> -> -> -> -> -> -> -> -> -> -> ->]. Qed.

(** Files that belong to whoever drew the name. *)
Definition belongs (name : string) (p : Path) : bool :=
  match p with
  | StagingFile o _ => bool_decide (o = name)
  | BinaryIn (Temp _ n) | ManifestIn (Temp _ n) | LauncherTemp n => bool_decide (n = name)
  | _ => false
  end.
(** Files the invariant speaks about. *)
Definition critical (p : Path) : bool :=
  match p with Current | ArtifactAt _ _ | BinaryIn (Final _) => true | _ => false end.
Definition is_artifact (p : Path) : bool := match p with ArtifactAt _ _ => true | _ => false end.

Definition floor_of (m : Marks) (c : string) : N := match m !! c with Some h => hw_generation h | None => 0 end.
Definition legacy_spent (m : Marks) (c : string) : bool := match m !! c with Some h => hw_legacy_consumed h | None => false end.
Definition known (o : UpdateOperation) (w : World) : Prop := ∃ r, r ∈ rows w ∧ core r = core o.
Definition authorizes_fall (o : UpdateOperation) (c : string) (g : N) : Prop :=
  op_kind o = KDowngrade ∧ op_channel o = Some c ∧ op_release_generation o = Some g.

Class LawfulInstall `{InstallWire} := parse_pointer_json p : parse_pointer (pointer_json p) = Some p.

Section Facts.
Context `{RW : ReleaseWire, IW : InstallWire}.
Variable cfg : UpdaterConfig.

Definition signed (m : UpdateManifest) : Prop :=
  manifest_validate m = Ok tt ∧ is_ok (authenticate m (cf_keys cfg)) = true.
Definition genuine (v d n : string) : Prop :=
  ∃ m a, signed m ∧ a ∈ mf_artifacts m ∧ mf_version m = v ∧ af_sha256 a = d ∧ af_name a = n.
Definition published (fs : Files) (n d : string) : Prop := ∃ s, fs !! ArtifactAt n d = Some s ∧ sha256_hex s = d.
Definition held (fs : Files) (v d n : string) : Prop := genuine v d n ∧ published fs n d.
Definition pointer_ok (fs : Files) (p : InstallPointer) : Prop :=
  held fs (ip_version p) (ip_digest p) (ip_artifact p)
  ∧ ∀ r, ip_release_id p = Some r → r = release_id_for (ip_version p) (ip_digest p).
Definition earned (fs : Files) (c : string) (g : N) : Prop :=
  g = 0 ∨ ∃ m a n, signed m ∧ channel_str (mf_channel m) = c ∧ release_generation m = g
    ∧ a ∈ mf_artifacts m ∧ published fs n (af_sha256 a).

(** What [read_pointer] may find. *)
Definition before_known (fs : Files) (current : option InstallPointer) : Prop :=
  match current with Some p => pointer_ok fs p | None => True end.

(** ** Rows *)
Definition of_manifest (o : UpdateOperation) (m : UpdateManifest) : Prop :=
  signed m ∧ op_channel o = Some (channel_str (mf_channel m)) ∧ op_after_version o = Some (mf_version m)
  ∧ ∀ d, op_after_digest o = Some d → ∃ a, a ∈ mf_artifacts m ∧ af_sha256 a = d ∧ op_artifact o = Some (af_name a).
Definition target_published (fs : Files) (o : UpdateOperation) : Prop :=
  ∃ n d, op_artifact o = Some n ∧ op_after_digest o = Some d ∧ published fs n d.
Definition source_ok (fs : Files) (o : UpdateOperation) : Prop :=
  match op_kind o with
  | KCheck => True
  | KStage => ∃ m, of_manifest o m ∧ op_release_generation o = Some (release_generation m) ∧ is_Some (op_after_digest o)
  | KApply => (∃ m, of_manifest o m ∧ op_release_generation o = Some (release_generation m)) ∧ target_published fs o
  | KDowngrade => ∃ m, of_manifest o m ∧ op_release_generation o = mf_release_generation m
      ∧ is_Some (op_release_generation o)
  | KRollback => ∀ d, op_after_digest o = Some d →
      ∃ v n, op_after_version o = Some v ∧ op_artifact o = Some n ∧ held fs v d n
  end.
Definition before_ok (fs : Files) (o : UpdateOperation) : Prop :=
  ∀ d, op_before_digest o = Some d →
    ∃ v n, op_before_version o = Some v ∧ op_before_artifact o = Some n ∧ held fs v d n.
Definition core_ok (fs : Files) (o : UpdateOperation) : Prop := source_ok fs o ∧ before_ok fs o.
Definition status_ok (fs : Files) (o : UpdateOperation) : Prop :=
  op_kind o = KStage → op_status o = SStaged → target_published fs o.

(** ** The state *)
Record Inv (w : World) : Prop := {
  inv_ids : NoDup (op_id <$> rows w);
  inv_core o : o ∈ rows w → core_ok (files w) o;
  inv_status o : o ∈ rows w → status_ok (files w) o;
  inv_artifact n d s : files w !! ArtifactAt n d = Some s → sha256_hex s = d;
  inv_binary r s : files w !! BinaryIn (Final r) = Some s →
    ∃ v n, r = release_id_for v (sha256_hex s) ∧ genuine v (sha256_hex s) n;
  inv_pointer b : files w !! Current = Some b →
    ∃ p, b = pointer_json p ∧ pointer_valid p = true ∧ pointer_ok (files w) p;
  inv_mark c : earned (files w) c (floor_of (marks w) c)
}.
Definition kept (fs fs' : Files) : Prop := ∀ n d, published fs n d → published fs' n d.
Record evolves (w w' : World) : Prop := {
  ev_rows o : o ∈ rows w → ∃ o', o' ∈ rows w' ∧ core o' = core o;
  ev_files : kept (files w) (files w');
  ev_drawn : drawn w ⊆ drawn w';
  ev_floor c : floor_of (marks w') c < floor_of (marks w) c →
    ∃ o g, o ∈ rows w' ∧ authorizes_fall o c g ∧ g <= floor_of (marks w') c;
  ev_legacy c : legacy_spent (marks w) c = true → legacy_spent (marks w') c = true
}.
Definition private (t : nat) (w w' : World) : Prop :=
  ∀ name p, drawn w !! name = Some t → belongs name p = true → files w' !! p = files w !! p ∨ files w' !! p = None.
Definition rely (t : nat) (w w' : World) : Prop := Inv w' ∧ evolves w w' ∧ private t w w'.
Definition guar (t : nat) (w w' : World) : Prop := Inv w' ∧ evolves w w' ∧ ∀ t', t' ≠ t → private t' w w'.

(** ** Stability *)
Lemma held_kept fs fs' v d n : kept fs fs' → held fs v d n → held fs' v d n.
Proof. intros Hk [? ?]. split; [done|by apply Hk]. Qed.
Lemma pointer_kept fs fs' p : kept fs fs' → pointer_ok fs p → pointer_ok fs' p.
Proof. intros Hk [? ?]. split; [by eapply held_kept|done]. Qed.
Lemma before_known_kept fs fs' p : kept fs fs' → before_known fs p → before_known fs' p.
Proof. intros Hk. destruct p; [|done]. by apply pointer_kept. Qed.
Lemma earned_kept fs fs' c g : kept fs fs' → earned fs c g → earned fs' c g.
Proof. intros Hk [->|(m & a & n & ? & ? & ? & ? & ?)]; [by left|]. right. exists m, a, n. split_and!; try done. by apply Hk. Qed.
Lemma target_kept fs fs' o : kept fs fs' → target_published fs o → target_published fs' o.
Proof. intros Hk (n & d & ? & ? & ?). exists n, d. split_and!; [done..|by apply Hk]. Qed.
Lemma core_ok_kept fs fs' o : kept fs fs' → core_ok fs o → core_ok fs' o.
Proof.
  intros Hk [Hs Hb]. split.
  - unfold source_ok in *. destruct (op_kind o); [done..| | |done].
    + destruct Hs as [? ?]. split; [done|by eapply target_kept].
    + intros d Hd. destruct (Hs d Hd) as (v & n & ? & ? & ?). exists v, n. split_and!; [done..|by eapply held_kept].
  - intros d Hd. destruct (Hb d Hd) as (v & n & ? & ? & ?). exists v, n. split_and!; [done..|by eapply held_kept].
Qed.
Lemma status_ok_kept fs fs' o : kept fs fs' → status_ok fs o → status_ok fs' o.
Proof. intros Hk Hs ? ?. by eapply target_kept, Hs. Qed.
Lemma core_ok_core fs o o' : core o' = core o → core_ok fs o → core_ok fs o'.
Proof.
  intros (_ & Hk & Hc & Hv & Hd & Ha & Hbv & Hbd & Hba & Hg & _)%core_fields [Hs Hb].
  split; [|unfold before_ok; by rewrite Hbv, Hbd, Hba].
  unfold source_ok, of_manifest, target_published in *. by rewrite Hk, Hc, Hv, Hd, Ha, Hg.
Qed.

Lemma kept_trans fs1 fs2 fs3 : kept fs1 fs2 → kept fs2 fs3 → kept fs1 fs3.
Proof. intros H1 H2 n d Hp. by apply H2, H1. Qed.
#[export] Instance evolves_preorder : PreOrder evolves.
Proof.
  split.
  - intros w. split; try done; [by eauto|by intros n d|]. intros c. lia.
  - intros w1 w2 w3 [R1 F1 D1 H1 L1] [R2 F2 D2 H2 L2]. split.
    + intros o Ho. destruct (R1 o Ho) as (o' & Ho' & Hc'). destruct (R2 o' Ho') as (o2 & ? & Hc2). exists o2. split; [done|congruence].
    + by eapply kept_trans.
    + by etrans.
    + intros c Hlt. destruct (decide (floor_of (marks w3) c < floor_of (marks w2) c)) as [Hf|Hf]; [by apply H2|].
      destruct (H1 c) as (o & g & Ho & (Hk & Hc & Hg) & Hle); [lia|].
      destruct (R2 o Ho) as (o' & Ho' & Hco). destruct (core_fields _ _ Hco) as (_ & Hk' & Hc' & _ & _ & _ & _ & _ & _ & Hg' & _).
      exists o', g. split_and!; [done|split_and!; congruence|lia].
    + intros c Hc. by apply L2, L1.
Qed.
Lemma known_stable o w w' : evolves w w' → known o w → known o w'.
Proof. intros Hev (r & Hr & Hc). destruct (ev_rows _ _ Hev r Hr) as (r' & ? & ?). exists r'. split; [done|congruence]. Qed.
Lemma private_trans t w1 w2 w3 : drawn w1 ⊆ drawn w2 → private t w1 w2 → private t w2 w3 → private t w1 w3.
Proof.
  intros Hd H1 H2 name p Hn Hb.
  destruct (H2 name p (lookup_weaken _ _ _ _ Hn Hd) Hb) as [->| ->]; [exact (H1 name p Hn Hb)|by right].
Qed.
Lemma laws : lawful Inv evolves rely guar.
Proof.
  split.
  - reflexivity.
  - intros w1 w2 w3. apply transitivity.
  - intros t w Hi. split_and!; [done|reflexivity|by left].
  - intros t w1 w2 w3 (? & E1 & P1) (? & E2 & P2).
    split_and!; [done|by etrans|eapply private_trans; [apply E1|done|done]].
  - by intros t w w' (? & ? & ?).
  - by intros t w w' (? & ? & ?).
  - intros t t' w w' Hne (? & ? & Hp). split_and!; [done..|by apply Hp].
Qed.
End Facts.
#[export] Hint Resolve held_kept pointer_kept earned_kept target_kept known_stable : updater.
