(* ===== verification/UpdaterCalls.v ===== *)
(** * The updater's events and its invariant

    Each event that changes the world, with what its caller has to know for
    the change to stay within the guarantee, and the logic of one thread. *)
From S2P Require Import Prelude Strings Bytes Effects Rely UpdaterManifest UpdaterStore UpdaterInstall UpdaterService UpdaterRelease UpdaterSystem UpdaterInv.
From stdpp Require Import sorting.
#[local] Open Scope N_scope.

(** ** Tables *)
Lemma get_row_Some id rs o : get_row id rs = Some o → o ∈ rs ∧ op_id o = id.
Proof. intros [Hin Hid]%List.find_some. split; [by apply list_elem_of_In|by apply bool_decide_eq_true in Hid]. Qed.
Lemma get_row_None id rs : get_row id rs = None → id ∉ op_id <$> rs.
Proof.
  intros Hn (o & -> & Ho)%list_elem_of_fmap. pose proof (List.find_none _ _ Hn o) as Hf.
  cbn in Hf. rewrite bool_decide_eq_false in Hf. by apply Hf; [by apply list_elem_of_In|].
Qed.
Lemma insert_row_Some o rs rs' : insert_row o rs = Some rs' → rs' = (rs ++ [o])%list ∧ op_id o ∉ op_id <$> rs.
Proof.
  unfold insert_row. destruct (get_row _ _) eqn:E; [done|]. intros [= <-]. split; [done|by apply get_row_None].
Qed.
Definition replaced (o r : UpdateOperation) : UpdateOperation := if bool_decide (op_id r = op_id o) then o else r.
Lemma update_row_Some o rs rs' : update_row o rs = Some rs' → rs' = replaced o <$> rs.
Proof. unfold update_row. destruct (get_row _ _); [by intros [= <-]|done]. Qed.
Lemma replaced_id o r : op_id (replaced o r) = op_id r.
Proof. unfold replaced. case_bool_decide; congruence. Qed.
Lemma ids_replaced o (rs : Rows) : op_id <$> (replaced o <$> rs) = op_id <$> rs.
Proof. rewrite <- list_fmap_compose. apply list_fmap_ext. intros ? ? _. apply replaced_id. Qed.
Lemma newest_elem rs o : newest rs = Some o → o ∈ rs.
Proof.
  unfold newest. intros Hl. rewrite <- (merge_sort_Permutation older rs).
  rewrite last_lookup in Hl. by eapply list_elem_of_lookup_2.
Qed.
Lemma latest_row_elem k s rs o : latest_row k s rs = Some o → o ∈ rs ∧ op_kind o = k ∧ op_status o = s.
Proof. intros [[? ?] ?]%newest_elem%list_elem_of_filter. done. Qed.
Lemma by_key_elem key rs o : by_key_row key rs = Some o → o ∈ rs.
Proof. by intros [_ ?]%newest_elem%list_elem_of_filter. Qed.
Lemma running_rows_elem rs o : o ∈ running_rows rs ↔ o ∈ rs ∧ op_status o = SRunning.
Proof.
  unfold running_rows. rewrite (merge_sort_Permutation older), list_elem_of_filter.
  unfold is_running. rewrite bool_decide_eq_true. tauto.
Qed.

Lemma floor_raised c c' g l t m :
  floor_of (raise_mark c g l t m) c' = if decide (c = c') then N.max (floor_of m c) g else floor_of m c'.
Proof.
  unfold raise_mark, floor_of. destruct (decide (c = c')) as [<-|Hn]; destruct (m !! c);
    rewrite ?lookup_insert_eq, ?lookup_insert_ne by done; cbn; [done|by rewrite N.max_0_l|done..].
Qed.
Lemma legacy_raised c c' g l t m :
  legacy_spent (raise_mark c g l t m) c' = if decide (c = c') then legacy_spent m c || l else legacy_spent m c'.
Proof.
  unfold raise_mark, legacy_spent. destruct (decide (c = c')) as [<-|Hn]; destruct (m !! c);
    by rewrite ?lookup_insert_eq, ?lookup_insert_ne by done.
Qed.
Lemma floor_set c c' g t m :
  floor_of (set_mark c g t m) c' = if decide (c = c') then g else floor_of m c'.
Proof.
  unfold set_mark, floor_of. destruct (decide (c = c')) as [<-|Hn]; destruct (m !! c);
    by rewrite ?lookup_insert_eq, ?lookup_insert_ne by done.
Qed.
Lemma legacy_set c c' g t m : legacy_spent (set_mark c g t m) c' = legacy_spent m c'.
Proof.
  unfold set_mark, legacy_spent. destruct (decide (c = c')) as [<-|Hn]; destruct (m !! c) eqn:E;
    rewrite ?lookup_insert_eq, ?lookup_insert_ne by done; [done|by rewrite ?E|done..].
Qed.

Section Calls.
Context `{RW : ReleaseWire, IW : InstallWire, LI : !LawfulInstall}.
Variable cfg : UpdaterConfig.
Notation Inv := (Inv cfg).
Notation guar := (guar cfg).
Notation rely := (rely cfg).

(** ** Statements of the store *)
Lemma guar_rows t w rs :
  Inv w → NoDup (op_id <$> rs) → (∀ o, o ∈ rs → core_ok cfg (files w) o ∧ status_ok (files w) o) →
  (∀ o, o ∈ rows w → ∃ o', o' ∈ rs ∧ core o' = core o) → guar t w (on_rows (λ _, rs) w).
Proof using.
  intros [] Hn Hok Hr. split_and!; [|split|]; try done; try (by intros n d).
  - split; try done; intros o Ho; by apply Hok.
  - intros c. cbn. lia.
  - intros t' _ name p _ _. by left.
Qed.
Lemma guar_insert t w o rs :
  Inv w → core_ok cfg (files w) o → status_ok (files w) o → insert_row o (rows w) = Some rs →
  guar t w (on_rows (λ _, rs) w) ∧ known o (on_rows (λ _, rs) w).
Proof using.
  intros Hi Hc Hs [-> Hid]%insert_row_Some. split.
  - apply guar_rows; [done| | |].
    + rewrite fmap_app. apply NoDup_app. split_and!; [apply Hi| |apply NoDup_singleton].
      intros i Hin ->%list_elem_of_singleton. done.
    + intros o' [Ho| ->%list_elem_of_singleton]%elem_of_app; [|done]. by split; apply Hi.
    + intros o' Ho. exists o'. split; [|done]. apply elem_of_app. by left.
  - exists o. split; [|done]. cbn. apply elem_of_app. right. by apply list_elem_of_singleton.
Qed.
Lemma guar_update t w o rs :
  Inv w → known o w → status_ok (files w) o → update_row o (rows w) = Some rs → guar t w (on_rows (λ _, rs) w).
Proof using.
  intros Hi (r & Hr & Hc) Hs ->%update_row_Some.
  assert (Hr' : ∀ x, x ∈ rows w → op_id x = op_id o → core x = core o).
  { intros x Hx Hid. rewrite <- Hc. f_equal.
    destruct (core_fields _ _ Hc) as [Hid' _].
    apply list_elem_of_lookup in Hx as [i Hx], Hr as [j Hr].
    assert (i = j) as ->; [|congruence].
    eapply (NoDup_lookup (op_id <$> rows w)); [apply Hi|by rewrite list_lookup_fmap, Hx|].
    rewrite list_lookup_fmap, Hr. cbn. congruence. }
  apply guar_rows; [done|by rewrite ids_replaced; apply Hi| |].
  - intros x (y & -> & Hy)%list_elem_of_fmap. unfold replaced. case_bool_decide as Hid; [|by split; apply Hi].
    split; [|done]. eapply core_ok_core; [symmetry; by apply Hr'|by apply Hi].
  - intros x Hx. exists (replaced o x). split; [by apply list_elem_of_fmap_2|].
    unfold replaced. case_bool_decide as Hid; [|done]. symmetry. by apply Hr'.
Qed.
Lemma guar_raise t w c g l now :
  Inv w → earned cfg (files w) c g → guar t w (on_marks (raise_mark c g l now) w).
Proof using.
  intros [] He. split_and!; [|split|]; cbn; try done; try (by intros n d).
  - split; cbn; try done. intros c'. rewrite floor_raised. case_decide; [|done]. subst.
    destruct (N.max_spec (floor_of (marks w) c') g) as [[_ ->]|[_ ->]]; [done|done].
  - by eauto.
  - intros c'. rewrite floor_raised. case_decide; subst; lia.
  - intros c'. rewrite legacy_raised. case_decide; [|done]. subst. by intros ->.
  - intros t' _ name p _ _. by left.
Qed.
Lemma guar_set_mark t w o c g now :
  Inv w → known o w → authorizes_fall o c g → earned cfg (files w) c g → guar t w (on_marks (set_mark c g now) w).
Proof using.
  intros [] (r & Hr & Hc) (Hk & Hch & Hg) He. split_and!; [|split|]; cbn; try done; try (by intros n d).
  - split; cbn; try done. intros c'. rewrite floor_set. case_decide; [by subst|done].
  - by eauto.
  - intros c'. rewrite floor_set. case_decide as E; [|lia]. intros _. exists r, g.
    destruct (core_fields _ _ Hc) as (_ & Hk' & Hc' & _ & _ & _ & _ & _ & _ & Hg' & _).
    split_and!; [done| |done]. split_and!; congruence.
  - intros c'. by rewrite legacy_set.
  - intros t' _ name p _ _. by left.
Qed.
Lemma guar_draw t w name : Inv w → drawn w !! name = None → guar t w (draw t name w).
Proof using.
  intros [] Hn. split_and!; [|split|]; cbn; try done; try (by intros n d).
  - by eauto.
  - by apply insert_subseteq.
  - intros c. lia.
  - intros t' _ nm p _ _. by left.
Qed.
Lemma guar_dirs t w f : Inv w → guar t w (on_dirs f w).
Proof using.
  intros []. split_and!; [|split|]; cbn; try done; try (by intros n d); [by eauto|intros c; lia|].
  intros t' _ nm p _ _. by left.
Qed.
Lemma guar_same t w : Inv w → guar t w w.
Proof using. intros Hi. split_and!; [done|reflexivity|by left]. Qed.
Lemma guar_trans t w1 w2 w3 : guar t w1 w2 → guar t w2 w3 → guar t w1 w3.
Proof using.
  intros (I1 & E1 & P1) (I2 & E2 & P2). split_and!; [done|by etrans|].
  intros t' Hne. eapply private_trans; [apply E1|by apply P1|by apply P2].
Qed.

(** ** Files *)
Lemma guar_files t w fs' :
  Inv w → kept (files w) fs' →
  (∀ n d s, fs' !! ArtifactAt n d = Some s → sha256_hex s = d) →
  (∀ r s, fs' !! BinaryIn (Final r) = Some s →
     ∃ v n, r = release_id_for v (sha256_hex s) ∧ genuine cfg v (sha256_hex s) n) →
  (∀ b, fs' !! Current = Some b → ∃ p, b = pointer_json p ∧ pointer_valid p = true ∧ pointer_ok cfg fs' p) →
  (∀ t', t' ≠ t → private t' w (on_files (λ _, fs') w)) →
  guar t w (on_files (λ _, fs') w).
Proof using.
  intros [] Hk Ha Hb Hc Hp. split_and!; [|split|]; cbn; try done; try (by intros n d).
  - split; cbn; try done.
    + intros o Ho. by eapply core_ok_kept; [|auto].
    + intros o Ho. by eapply status_ok_kept; [|auto].
    + intros c. by eapply earned_kept; [|auto].
  - by eauto.
  - intros c. lia.
Qed.
(** Nothing the invariant speaks about changes, a removal apart. *)
Lemma guar_plain t w fs' :
  Inv w →
  (∀ p, critical p = true → fs' !! p = files w !! p ∨ is_artifact p = false ∧ fs' !! p = None) →
  (∀ t', t' ≠ t → private t' w (on_files (λ _, fs') w)) →
  guar t w (on_files (λ _, fs') w).
Proof using.
  intros Hi Hc Hp.
  assert (Ha : ∀ n d, fs' !! ArtifactAt n d = files w !! ArtifactAt n d).
  { intros n d. destruct (Hc (ArtifactAt n d) eq_refl) as [?|[? _]]; done. }
  assert (Hk : kept (files w) fs') by (intros n d; unfold published; by rewrite Ha).
  apply guar_files; try done.
  - intros n d s. rewrite Ha. apply Hi.
  - intros r s Hs. destruct (Hc (BinaryIn (Final r)) eq_refl) as [E|[_ E]]; rewrite E in Hs; [by apply Hi|done].
  - intros b Hb. destruct (Hc Current eq_refl) as [E|[_ E]]; rewrite E in Hb; [|done].
    destruct (inv_pointer _ _ Hi _ Hb) as (p & ? & ? & ?). exists p. split_and!; [done..|by eapply pointer_kept].
Qed.
Lemma private_gone t w gone : private t w (on_files (without gone) w).
Proof using.
  intros name p _ _. cbn. unfold without. destruct (decide (p ∈ gone)).
  - right. apply map_lookup_filter_None. right. intros x _ Hx. by apply Hx.
  - left. destruct (files w !! p) eqn:E; [by apply map_lookup_filter_Some|].
    apply map_lookup_filter_None. by left.
Qed.
Lemma without_lookup gone fs p : without gone fs !! p = fs !! p ∨ p ∈ gone ∧ without gone fs !! p = None.
Proof using.
  unfold without. destruct (decide (p ∈ gone)).
  - right. split; [done|]. apply map_lookup_filter_None. right. intros x _ Hx. by apply Hx.
  - left. destruct (fs !! p) eqn:E; [by apply map_lookup_filter_Some|]. apply map_lookup_filter_None. by left.
Qed.
Lemma guar_gone t w gone :
  Inv w → (∀ p, p ∈ gone → is_artifact p = false) → guar t w (on_files (without gone) w).
Proof using.
  intros Hi Hg. apply (guar_plain t w (without gone (files w))); [done| |].
  - intros p _. destruct (without_lookup gone (files w) p) as [?|[? ?]]; [by left|right; auto].
  - intros t' _. apply private_gone.
Qed.
(** A write to a file of one's own. *)
Lemma guar_own t w name p s :
  Inv w → drawn w !! name = Some t → belongs name p = true → guar t w (on_files <[p := s]> w).
Proof using.
  intros Hi Hd Hb. apply (guar_plain t w (<[p := s]> (files w))); [done| |].
  - intros q Hq. left. rewrite lookup_insert_ne; [done|]. intros <-. by destruct p as [| | |[]|[]| | | |].
  - intros t' Hne nm q Hn Hq. left. cbn. rewrite lookup_insert_ne; [done|]. intros <-.
    assert (nm = name); [|congruence].
    destruct p as [| | |[]|[]| | | |]; cbn in *; try done; apply bool_decide_eq_true in Hb, Hq; congruence.
Qed.
Lemma guar_free t w p s :
  Inv w → critical p = false → (∀ name, belongs name p = false) → guar t w (on_files <[p := s]> w).
Proof using.
  intros Hi Hc Hb. apply (guar_plain t w (<[p := s]> (files w))); [done| |].
  - intros q Hq. left. rewrite lookup_insert_ne; [done|]. intros <-. congruence.
  - intros t' _ nm q _ Hq. left. cbn. rewrite lookup_insert_ne; [done|]. intros <-. by rewrite Hb in Hq.
Qed.
Lemma guar_pointer t w p :
  Inv w → pointer_valid p = true → pointer_ok cfg (files w) p → guar t w (on_files <[Current := pointer_json p]> w).
Proof using.
  intros Hi Hv Hp.
  assert (Ha : ∀ q, q ≠ Current → <[Current := pointer_json p]> (files w) !! q = files w !! q).
  { intros q Hq. by rewrite lookup_insert_ne. }
  assert (Hk : kept (files w) (<[Current := pointer_json p]> (files w))) by (intros n d; unfold published; by rewrite Ha).
  apply (guar_files t w (<[Current := pointer_json p]> (files w))); [done..| | | |].
  - intros n d s. rewrite Ha by done. apply Hi.
  - intros r s. rewrite Ha by done. apply Hi.
  - intros b. rewrite lookup_insert_eq. intros [= <-]. exists p. split_and!; [done..|by eapply pointer_kept].
  - intros t' _ nm q _ Hq. left. cbn. rewrite lookup_insert_ne; [done|]. by intros <-.
Qed.
Lemma guar_remove_pointer t w : Inv w → guar t w (on_files (delete Current) w).
Proof using.
  intros Hi. apply (guar_plain t w (delete Current (files w))); [done| |].
  - intros q _. destruct (decide (q = Current)) as [->|Hn].
    + right. by rewrite lookup_delete_eq.
    + left. by rewrite lookup_delete_ne.
  - intros t' _ nm q _ Hq. left. cbn. rewrite lookup_delete_ne; [done|]. by intros <-.
Qed.
Lemma guar_publish t w name p n d s :
  Inv w → drawn w !! name = Some t → belongs name p = true → files w !! p = Some s → sha256_hex s = d →
  guar t w (on_files (rename p (ArtifactAt n d)) w)
  ∧ published (files (on_files (rename p (ArtifactAt n d)) w)) n d.
Proof using.
  intros Hi Hd Hb Hs Hsha. set (fs' := <[ArtifactAt n d := s]> (delete p (files w))).
  assert (Hp : ∀ q, q ≠ p → q ≠ ArtifactAt n d → fs' !! q = files w !! q).
  { intros q H1 H2. unfold fs'. by rewrite lookup_insert_ne, lookup_delete_ne. }
  assert (Hpc : critical p = false) by by destruct p as [| | |[]|[]| | | |].
  assert (Hpub : published fs' n d) by (exists s; split; [apply lookup_insert_eq|done]).
  assert (Hk : kept (files w) fs').
  { intros n' d' (s' & Hs' & ?). destruct (decide (ArtifactAt n' d' = ArtifactAt n d)) as [[= -> ->]|Hn]; [done|].
    exists s'. split; [|done]. rewrite Hp; [done| |done]. by intros <-. }
  assert (on_files (rename p (ArtifactAt n d)) w = on_files (λ _, fs') w) as ->
    by (unfold on_files, rename; by rewrite Hs).
  split; [|exact Hpub]. apply guar_files; [done..| | | |].
  - intros n' d' s' Hs'. destruct (decide (ArtifactAt n' d' = ArtifactAt n d)) as [[= -> ->]|Hn].
    + unfold fs' in Hs'. rewrite lookup_insert_eq in Hs'. congruence.
    + rewrite Hp in Hs'; [by eapply Hi| |done]. by intros <-.
  - intros r s'. rewrite Hp; [apply Hi| |done]. by intros <-.
  - intros b. rewrite Hp; [|by intros <-|done]. intros Hc.
    destruct (inv_pointer _ _ Hi _ Hc) as (q & ? & ? & ?). exists q. split_and!; [done..|by eapply pointer_kept].
  - intros t' Hne nm q Hn Hq. left. cbn. apply Hp; [|by intros ->].
    intros ->. assert (nm = name); [|congruence].
    destruct p as [| | |[]|[]| | | |]; cbn in *; try done; apply bool_decide_eq_true in Hb, Hq; congruence.
Qed.
Lemma rename_other p q fs x : x ≠ p → x ≠ q → rename p q fs !! x = fs !! x.
Proof using. intros H1 H2. unfold rename. destruct (fs !! p); [|done]. by rewrite lookup_insert_ne, lookup_delete_ne. Qed.
Lemma rename_from p q fs : p ≠ q → rename p q fs !! p = None.
Proof using.
  intros Hn. unfold rename. destruct (fs !! p) eqn:E; [|done]. by rewrite lookup_insert_ne, lookup_delete_eq.
Qed.
Lemma rename_to p q fs s : rename p q fs !! q = Some s → fs !! p = Some s ∨ fs !! q = Some s.
Proof using. unfold rename. destruct (fs !! p); [|by right]. rewrite lookup_insert_eq. intros [= ->]. by left. Qed.
Lemma guar_move t w r n f :
  Inv w → drawn w !! n = Some t →
  (∀ s, files w !! BinaryIn (Temp r n) = Some s →
     ∃ v nm, r = release_id_for v (sha256_hex s) ∧ genuine cfg v (sha256_hex s) nm) →
  guar t w (on_files (move_release r n) (on_dirs f w)).
Proof using.
  intros Hi Hd Hb. eapply guar_trans; [by apply (guar_dirs t w f)|].
  pose proof (guar_dirs t w f Hi) as (Hi' & _ & _).
  set (w' := on_dirs f w) in *. set (fs' := move_release r n (files w')).
  assert (Ho : ∀ q, critical q = true → q ≠ BinaryIn (Final r) → fs' !! q = files w !! q).
  { intros q Hq Hne. unfold fs', move_release. rewrite !rename_other; [done|..]; try done; by intros ->. }
  assert (Ha : ∀ n d, fs' !! ArtifactAt n d = files w !! ArtifactAt n d) by (intros; by apply Ho).
  assert (Hk : kept (files w') fs') by (intros n' d'; unfold published; by rewrite Ha).
  apply (guar_files t w' fs'); [done..| | | |].
  - intros n' d' s. rewrite Ha. apply Hi.
  - intros r' s Hs. destruct (decide (r' = r)) as [->|Hne].
    + unfold fs', move_release in Hs. apply rename_to in Hs as [Hs|Hs];
        (rewrite rename_other in Hs by done); [by apply Hb|by apply Hi].
    + rewrite Ho in Hs; [by apply Hi|done|]. by intros [= ->].
  - intros b. rewrite Ho by done. intros Hc.
    destruct (inv_pointer _ _ Hi' _ Hc) as (q & ? & ? & ?). exists q. split_and!; [done..|by eapply pointer_kept].
  - intros t' Hne nm q Hn Hq. cbn. fold fs'. left. unfold fs', move_release.
    rewrite !rename_other; [done|..]; intros ->; try done; cbn in Hq;
      apply bool_decide_eq_true in Hq; subst; cbn in Hn; congruence.
Qed.
End Calls.
