(* ===== verification/UpdaterLogic.v ===== *)
(** * A method of the updater among the others

    The rely-guarantee logic of [Rely] at the updater's invariant: rules for
    fallible programs, for the statements of the store and for the operations
    of the install root. *)
From S2P Require Import Prelude Strings Bytes Effects Rely UpdaterManifest UpdaterStore UpdaterInstall UpdaterService UpdaterRelease UpdaterSystem UpdaterInv UpdaterCalls.
#[local] Open Scope N_scope.
#[local] Open Scope prog_scope.

Section Logic.
Context `{RW : ReleaseWire, IW : InstallWire, LI : !LawfulInstall}.
Variable cfg : UpdaterConfig.
Variable t : nat.
Notation Inv := (Inv cfg).
Notation rely := (rely cfg t).
Notation guar := (guar cfg t).
Notation safe := (Rely.safe (λ t X, @answer _ t X) (UpdaterInv.rely cfg) (UpdaterInv.guar cfg) t).

Definition oks {A} (R : A → World → Prop) (r : result A UpdateError) (w : World) : Prop :=
  match r with Ok a => R a w | Err _ => True end.
Notation ssafe R p w := (safe (oks R) p w).
Notation any := (λ _ _, True).

(** ** Rules *)
Lemma safe_bind {A B} (P : A → World → Prop) (Q : B → World → Prop) (p : Prog A) (f : A → Prog B) w :
  Inv w → safe P p w → (∀ a w', Inv w' → evolves w w' → P a w' → safe Q (f a) w') → safe Q (pbind p f) w.
Proof using. intros Hi Hp Hf. by eapply (rely_pbind _ _ _ _ _ (laws cfg)). Qed.
Lemma svc_bind {A B} (P : A → World → Prop) (R : B → World → Prop) (p : Svc A) (f : A → Svc B) w :
  Inv w → ssafe P p w → (∀ a w', Inv w' → evolves w w' → P a w' → ssafe R (f a) w') → ssafe R (sbind p f) w.
Proof using. intros Hi Hp Hf. eapply safe_bind; [done|exact Hp|]. intros [a|e] w' ? ? ?; [by apply Hf|done]. Qed.
Lemma svc_ret {A} (R : A → World → Prop) a w : (∀ w', Inv w' → evolves w w' → R a w') → ssafe R (sret a : Svc A) w.
Proof using. intros HR w' (? & ? & ?). by apply HR. Qed.
Lemma svc_fail {A} (R : A → World → Prop) e w : ssafe R (sfail e : Svc A) w.
Proof using. done. Qed.
Lemma ssafe_weaken {A} (P R : A → World → Prop) (p : Svc A) w :
  (∀ a w', P a w' → R a w') → ssafe P p w → ssafe R p w.
Proof using. intros HR. apply rely_weaken. intros [a|e]; [apply HR|done]. Qed.
Lemma svc_lift {A B} (R : B → World → Prop) (r : result A UpdateError) (f : A → Svc B) w :
  (∀ a, r = Ok a → ssafe R (f a) w) → ssafe R (sbind (lift r) f) w.
Proof using. destruct r as [a|e]; intros Hf; [exact (Hf a eq_refl)|done]. Qed.
Lemma ssafe_require {B} (R : B → World → Prop) b e (f : unit → Svc B) w :
  (b = true → ssafe R (f tt) w) → ssafe R (sbind (require b e) f) w.
Proof using. destruct b; intros Hf; [exact (Hf eq_refl)|done]. Qed.
Lemma ssafe_some {A B} (R : B → World → Prop) (x : option A) e (f : A → Svc B) w :
  (∀ a, x = Some a → ssafe R (f a) w) → ssafe R (sbind (some_or x e) f) w.
Proof using. destruct x as [a|]; intros Hf; [exact (Hf a eq_refl)|done]. Qed.

(** ** Events *)
Lemma safe_event {A X} Q (e : UpdEvent X) (k : X → Prog A) w :
  (∀ w' x w'', Inv w' → evolves w w' → rely w w' → answer t e w' x w'' →
     guar w' w'' ∧ (Inv w'' → evolves w w'' → safe Q (k x) w'')) →
  safe Q (Call e k) w.
Proof using.
  intros Hk. apply (safe_call _ _ _ _ _ (laws cfg)). intros w' x w'' Hi Hev Hr Ha.
  destruct (Hk w' x w'' Hi Hev Hr Ha) as [Hg Hs]. split; [done|].
  destruct Hg as (? & ? & _). apply Hs; [done|by etrans].
Qed.
(** An event that only looks. *)
Definition looks {X} (e : UpdEvent X) : Prop := ∀ w x w', answer t e w x w' → w' = w.
Lemma safe_look {A X} Q (e : UpdEvent X) (k : X → Prog A) w :
  looks e →
  (∀ x w', Inv w' → evolves w w' → answer t e w' x w' → safe Q (k x) w') → safe Q (Call e k) w.
Proof using.
  intros Hl Hk. apply safe_event. intros w' x w'' Hi Hev Hr Ha.
  pose proof (Hl _ _ _ Ha) as ->. split; [by apply guar_same|]. intros _ _. by apply Hk.
Qed.
Lemma safe_draw_op {A} Q k (f : string → Prog A) w :
  (∀ id w', Inv w' → evolves w w' → drawn w' !! id = Some t → safe Q (f id) w') → safe Q (Call (NewOpId k) f) w.
Proof using.
  intros Hk. apply safe_event. intros w' x w'' Hi Hev Hr [Hn ->]. split; [by apply guar_draw|].
  intros ??. apply Hk; [done..|]. apply lookup_insert_eq.
Qed.
Lemma safe_draw_nonce {A} Q (f : string → Prog A) w :
  (∀ n w', Inv w' → evolves w w' → drawn w' !! n = Some t → safe Q (f n) w') → safe Q (Call NewNonce f) w.
Proof using.
  intros Hk. apply safe_event. intros w' x w'' Hi Hev Hr [Hn ->]. split; [by apply guar_draw|].
  intros ??. apply Hk; [done..|]. apply lookup_insert_eq.
Qed.
Lemma ssafe_tried (e : UpdEvent bool) err w :
  (∀ w' b w'', Inv w' → evolves w w' → rely w w' → answer t e w' b w'' → guar w' w'') → ssafe any (tried e err) w.
Proof using. intros Hg. apply safe_event. intros w' [] w'' ? ? ? Ha; (split; [by eapply Hg|done]). Qed.

(** ** The store *)
Lemma ssafe_query {A} (e : UpdEvent (result A UpdateStoreError)) (P : A → World → Prop) w :
  looks e → (∀ w' x, Inv w' → evolves w w' → answer t e w' (Ok x) w' → P x w') →
  (∀ x w1 w2, P x w1 → evolves w1 w2 → P x w2) → ssafe P (store e) w.
Proof using.
  intros Hl HP Hst. apply safe_look; [done|]. intros [x|] w' Hi Hev Ha; [|done]. cbn.
  intros w2 (? & ? & ?). eapply Hst; [|done]. by apply HP.
Qed.
Lemma ssafe_insert o w :
  core_ok cfg (files w) o → status_ok (files w) o → ssafe (λ _ w', known o w') (store (Insert o)) w.
Proof using.
  intros Hc Hs. apply safe_event. intros w' [[]|] w'' Hi Hev Hr Ha; cbn in Ha.
  - destruct Ha as (rs & Hrs & ->). edestruct (guar_insert cfg t w' o rs) as [Hg Hk]; [done| | |done|].
    + eapply core_ok_kept, Hc. apply Hev.
    + eapply status_ok_kept, Hs. apply Hev.
    + split; [done|]. intros _ _ w2 (? & ? & ?). by eapply known_stable.
  - subst. split; [by apply guar_same|done].
Qed.
Lemma ssafe_update o w :
  known o w → status_ok (files w) o → ssafe any (store (Update o)) w.
Proof using.
  intros Hk Hs. apply safe_event. intros w' [[]|] w'' Hi Hev Hr Ha; cbn in Ha.
  - destruct Ha as (rs & Hrs & ->). split; [|done]. eapply guar_update; [done| | |done].
    + by eapply known_stable.
    + eapply status_ok_kept, Hs. apply Hev.
  - subst. split; [by apply guar_same|done].
Qed.
Lemma known_settle s now o w : known o w → known (settle_op s now o) w.
Proof using. intros (r & ? & ?). exists r. by rewrite core_settle. Qed.
Lemma status_ok_other fs o s now : s ≠ SStaged → status_ok fs (settle_op s now o).
Proof using. intros Hs _. destruct o. cbn. done. Qed.
Lemma ssafe_settle o s now w : known o w → s ≠ SStaged → ssafe any (store (Update (settle_op s now o))) w.
Proof using. intros Hk Hs. apply ssafe_update; [by apply known_settle|by apply status_ok_other]. Qed.
Lemma looks_mark c : looks (ReadMark c).
Proof using. intros w x w' [? _]. done. Qed.
(** What a query finds are rows of the table. *)
Definition row_read (o : UpdateOperation) (w : World) : Prop := known o w ∧ core_ok cfg (files w) o ∧ status_ok (files w) o.
Lemma row_read_stable o w w' : evolves w w' → row_read o w → row_read o w'.
Proof using.
  intros Hev (? & ? & ?). split_and!; [by eapply known_stable|eapply core_ok_kept; [apply Hev|done]|].
  eapply status_ok_kept; [apply Hev|done].
Qed.
Lemma row_in o w : Inv w → o ∈ rows w → row_read o w.
Proof using. intros Hi Ho. split_and!; [by exists o|by apply Hi..]. Qed.
Lemma ssafe_running w : ssafe (λ rs w', ∀ o, o ∈ rs → row_read o w') (store Running) w.
Proof using.
  apply ssafe_query; [by intros ??? [? _]| |].
  - intros w' rs Hi _ [_ ->] o [Ho _]%running_rows_elem. by apply row_in.
  - intros rs w1 w2 Hr Hev o Ho. by eapply row_read_stable, Hr.
Qed.
Lemma ssafe_latest k s w :
  ssafe (λ x w', ∀ o, x = Some o → row_read o w' ∧ op_kind o = k ∧ op_status o = s) (store (Latest k s)) w.
Proof using.
  apply ssafe_query; [by intros ??? [? _]| |].
  - intros w' x Hi _ [_ ->] o (Ho & ? & ?)%latest_row_elem. split; [by apply row_in|done].
  - intros x w1 w2 Hr Hev o Ho. destruct (Hr o Ho) as (? & ? & ?). split; [by eapply row_read_stable|done].
Qed.
Lemma ssafe_by_key key w : ssafe (λ x w', ∀ o, x = Some o → row_read o w') (store (ByKey key)) w.
Proof using.
  apply ssafe_query; [by intros ??? [? _]| |].
  - intros w' x Hi _ [_ ->] o Ho%by_key_elem. by apply row_in.
  - intros x w1 w2 Hr Hev o Ho. by eapply row_read_stable, Hr.
Qed.
Lemma ssafe_high_water c w : ssafe any (high_water c) w.
Proof using.
  unfold high_water. apply ssafe_require. intros _.
  apply (ssafe_query _ any); [apply looks_mark|done..].
Qed.
Lemma ssafe_reread c w : Inv w → ssafe any (reread_mark c) w.
Proof using.
  intros Hi. eapply (svc_bind any); [done|apply ssafe_high_water|]. intros [m|] w' ???; [by apply svc_ret|done].
Qed.
Lemma ssafe_raise c g l now w : Inv w → earned cfg (files w) c g → ssafe any (raise_high_water c g l now) w.
Proof using.
  intros Hi He. apply ssafe_require. intros _. eapply (svc_bind any); [done| |intros; by apply ssafe_reread].
  apply safe_event. intros w' [[]|] w'' Hi' Hev Hr Ha; cbn in Ha; subst; [|split; [by apply guar_same|done]].
  split; [|done]. apply guar_raise; [done|]. eapply earned_kept, He. apply Hev.
Qed.
Lemma ssafe_set_mark o c g now w :
  Inv w → known o w → authorizes_fall o c g → earned cfg (files w) c g → ssafe any (set_high_water c g now) w.
Proof using.
  intros Hi Hk Ho He. apply ssafe_require. intros _. eapply (svc_bind any); [done| |intros; by apply ssafe_reread].
  apply safe_event. intros w' [[]|] w'' Hi' Hev Hr Ha; cbn in Ha; subst; [|split; [by apply guar_same|done]].
  split; [|done]. eapply guar_set_mark; [done|by eapply known_stable|done|]. eapply earned_kept, He. apply Hev.
Qed.

(** ** The install root *)
Lemma ssafe_read_pointer w :
  ssafe (λ p w', ∀ q, p = Some q → pointer_valid q = true ∧ pointer_ok cfg (files w') q) read_pointer w.
Proof using LI.
  apply safe_look; [by intros ??? [? _]|]. intros [|b|] w' Hi Hev [_ Ha]; [by intros ? ? ? [=]| |done].
  destruct (inv_pointer _ _ Hi _ Ha) as (p & -> & Hv & Hp).
  rewrite parse_pointer_json, Hv. intros w2 (? & Hev2 & _) q [= <-].
  split; [done|]. eapply pointer_kept, Hp. apply Hev2.
Qed.
Lemma ssafe_write_pointer p w : pointer_ok cfg (files w) p → ssafe any (write_pointer p) w.
Proof using.
  intros Hp. apply ssafe_require. intros Hv. apply ssafe_tried. intros w' [] w'' Hi Hev Hr ->; [|by apply guar_same].
  apply guar_pointer; [done..|]. eapply pointer_kept, Hp. apply Hev.
Qed.
Lemma ssafe_remove_pointer w : ssafe any remove_pointer w.
Proof using. apply ssafe_tried. intros w' [] w'' Hi Hev Hr ->; [by apply guar_remove_pointer|by apply guar_same]. Qed.
Lemma ssafe_digest p err w : ssafe any (digest_of p err) w.
Proof using. apply safe_look; [by intros ??? [? _]|]. intros [d|] w' ? ? ?; [by apply svc_ret|done]. Qed.
Lemma ssafe_verify_installed p w : Inv w → ssafe any (verify_installed p) w.
Proof using.
  intros Hi. unfold verify_installed, artifact_digest. destruct (ip_release_id p);
    (eapply (svc_bind any); [done|apply ssafe_digest|]; intros d w' ? ? _; case_bool_decide; [by apply svc_ret|done]).
Qed.
Lemma guar_remove_dir d w b w' :
  Inv w → (∀ n, d ≠ ArtifactDir n) → answer t (RemoveDir d) w b w' → guar w w'.
Proof using.
  intros Hi Hd (gone & Hin & _ & ->).
  assert (Hg : ∀ p, p ∈ gone → is_artifact p = false).
  { intros p Hp. specialize (Hin p Hp). destruct d as [| | |n]; destruct p; try done. by destruct (Hd n). }
  destruct b; [|by apply guar_gone]. eapply guar_trans; [by apply guar_dirs|].
  apply guar_gone; [|done]. by apply (guar_dirs cfg t w _ Hi).
Qed.
Lemma ssafe_clear_staging id w : ssafe any (clear_staging id) w.
Proof using. apply ssafe_tried. intros w' b w'' Hi Hev Hr Ha. by apply (guar_remove_dir (StagingDir id) w' b w''). Qed.
Lemma ssafe_make_dir d err w : ssafe any (tried (MakeDir d) err) w.
Proof using. apply ssafe_tried. intros w' [] w'' Hi Hev Hr ->; [by apply guar_dirs|by apply guar_same]. Qed.

Lemma pointer_check_ok p q : pointer_check p = Ok q → q = p ∧ pointer_valid p = true.
Proof using. unfold pointer_check. destruct (pointer_valid p); [by intros [= <-]|done]. Qed.
Lemma pointer_new_ok a d v c s p fs :
  pointer_new a d v c s = Ok p → held cfg fs v d a →
  pointer_ok cfg fs p ∧ ip_release_id p = None ∧ ip_version p = v ∧ ip_digest p = d ∧ ip_artifact p = a ∧ ip_channel p = c.
Proof using. intros [-> _]%pointer_check_ok Hh. split; [|done]. by split. Qed.
Lemma with_release_id_ok r p q fs :
  with_release_id (Some r) p = Ok q → r = release_id_for (ip_version p) (ip_digest p) →
  pointer_ok cfg fs p →
  pointer_ok cfg fs q ∧ ip_version q = ip_version p ∧ ip_digest q = ip_digest p ∧ ip_artifact q = ip_artifact p.
Proof using.
  destruct p as [s a d v c z i]. intros [-> _]%pointer_check_ok Hr [Hh _]. cbn in *. split; [|done].
  split; [done|]. cbn. by intros ? [= <-].
Qed.
Lemma ssafe_materialized v d w :
  ssafe (λ r _, ∀ x, r = Some x → x = release_id_for v d) (release_id_if_materialized v d) w.
Proof using.
  unfold release_id_if_materialized. destruct (slen d <? 12); [by apply svc_ret|].
  destruct (negb _); [by apply svc_ret|].
  apply safe_look; [by intros ??? [? _]|]. intros ms w1 Hi1 _ _.
  apply safe_look; [by intros ??? [? _]|]. intros bs w2 Hi2 _ _.
  destruct bs as [|n| |]; [|..|done]; [destruct (file_present ms); [done|]| |done].
  - apply safe_look; [by intros ??? [? _]|]. intros [] w3 Hi3 _ _; [done|by apply svc_ret].
  - eapply (svc_bind any); [done|apply ssafe_digest|]. intros x w3 Hi3 _ _.
    apply ssafe_require. intros _. apply ssafe_require. intros _. apply svc_ret. by intros ? ? ? ? [= <-].
Qed.
(** Naming a materialized release keeps what the pointer promises. *)
Lemma ssafe_launch_release p w :
  Inv w → pointer_ok cfg (files w) p →
  ssafe (λ q w', pointer_ok cfg (files w') q ∧ ip_version q = ip_version p ∧ ip_digest q = ip_digest p
                 ∧ ip_artifact q = ip_artifact p) (with_launch_release p) w.
Proof using.
  intros Hi Hp. eapply svc_bind; [done|apply ssafe_materialized|]. intros [r|] w1 Hi1 Hev1 Hr.
  - destruct (with_release_id (Some r) p) as [q|] eqn:E; [|done]. apply svc_ret. intros w2 _ Hev2.
    eapply with_release_id_ok; [done|by apply Hr|]. eapply pointer_kept, Hp. apply (transitivity Hev1 Hev2).
  - apply svc_ret. intros w2 _ Hev2. split; [|done]. eapply pointer_kept, Hp. apply (transitivity Hev1 Hev2).
Qed.

(** ** Files of one's own *)
Section Own.
Variable name : string.
Definition own_file (p : Path) (P : string → Prop) (w : World) : Prop :=
  drawn w !! name = Some t ∧ belongs name p = true ∧ ∀ s, files w !! p = Some s → P s.
Lemma own_rely p P w w' : rely w w' → own_file p P w → own_file p P w'.
Proof using.
  intros (_ & Hev & Hp) (Hd & Hb & HP). split_and!; [by eapply lookup_weaken, Hev|done|].
  intros s Hs. destruct (Hp name p Hd Hb) as [E|E]; rewrite E in Hs; [by apply HP|done].
Qed.
Lemma ssafe_create p err w :
  drawn w !! name = Some t → belongs name p = true → ssafe any (tried (CreateFile p) err) w.
Proof using.
  intros Hd Hb. apply ssafe_tried. intros w' [] w'' Hi Hev Hr ->; [|by apply guar_same].
  eapply guar_own; [done| |done]. by eapply lookup_weaken, Hev.
Qed.
Lemma ssafe_fetch p url max w :
  drawn w !! name = Some t → belongs name p = true → ssafe any (Call (Fetch p url max) Ret) w.
Proof using.
  intros Hd Hb. apply safe_event. intros w' r w'' Hi Hev Hr (s & -> & _). split; [|by destruct r].
  case_decide; [|by apply guar_same]. eapply guar_own; [done| |done]. by eapply lookup_weaken, Hev.
Qed.
Lemma ssafe_write p b err w :
  drawn w !! name = Some t → belongs name p = true → ssafe any (tried (WriteFile p b) err) w.
Proof using.
  intros Hd Hb. assert (Hg : ∀ w' s, Inv w' → evolves w w' → guar w' (on_files <[p := s]> w')).
  { intros w' s Hi Hev. eapply guar_own; [done| |done]. by eapply lookup_weaken, Hev. }
  apply ssafe_tried. intros w' [] w'' Hi Hev Hr Ha; cbn in Ha.
  - subst. by apply Hg.
  - destruct Ha as [->|(b1 & b2 & _ & ->)]; [by apply guar_same|by apply Hg].
Qed.
Lemma ssafe_copy p q err w :
  drawn w !! name = Some t → belongs name q = true → ssafe any (tried (CopyFile p q) err) w.
Proof using.
  intros Hd Hb. assert (Hg : ∀ w' s, Inv w' → evolves w w' → guar w' (on_files <[q := s]> w')).
  { intros w' s Hi Hev. eapply guar_own; [done| |done]. by eapply lookup_weaken, Hev. }
  apply ssafe_tried. intros w' [] w'' Hi Hev Hr Ha; cbn in Ha.
  - destruct Ha as (s & _ & ->). by apply Hg.
  - destruct Ha as [->|(s & ->)]; [by apply guar_same|by apply Hg].
Qed.
Lemma ssafe_own_digest p err w :
  drawn w !! name = Some t → belongs name p = true →
  ssafe (λ d w', own_file p (λ s, sha256_hex s = d) w') (digest_of p err) w.
Proof using.
  intros Hd Hb. apply safe_look; [by intros ??? [? _]|]. intros [d|] w' Hi Hev [_ Ha]; [|done].
  destruct Ha as (s & Hs & ->). intros w2 Hr2. eapply own_rely; [exact Hr2|].
  split_and!; [by eapply lookup_weaken, Hev|done|]. intros s' Hs'. congruence.
Qed.
(** A step that leaves the file, or removes it. *)
Lemma ssafe_tried_own p P e err w :
  (∀ w' b w'', Inv w' → evolves w w' → rely w w' → answer t e w' b w'' →
     guar w' w'' ∧ (files w'' !! p = files w' !! p ∨ files w'' !! p = None)) →
  own_file p P w → ssafe (λ _ w', own_file p P w') (tried e err) w.
Proof using.
  intros He Ho. apply safe_event. intros w' b w'' Hi Hev Hr Ha.
  destruct (He _ _ _ Hi Hev Hr Ha) as [Hg Hp]. split; [done|]. intros _ _.
  destruct b; [|done]. intros w2 Hr2. eapply own_rely; [exact Hr2|].
  destruct (own_rely _ _ _ _ Hr Ho) as (Hd & Hb & HP).
  split_and!; [by eapply lookup_weaken, Hg|done|].
  intros s Hs. destruct Hp as [E|E]; rewrite E in Hs; [by apply HP|done].
Qed.
Lemma ssafe_adopt_artifact p n d err w :
  own_file p (λ s, sha256_hex s = d) w →
  ssafe (λ _ w', published (files w') n d) (tried (Adopt p (ArtifactAt n d)) err) w.
Proof using.
  intros Ho. apply safe_event. intros w' [] w'' Hi Hev Hr Ha; cbn in Ha; [|subst; split; [by apply guar_same|done]].
  destruct Ha as [[s Hs] ->]. destruct (own_rely _ _ _ _ Hr Ho) as (Hd & Hb & HP).
  destruct (guar_publish cfg t w' name p n d s Hi Hd Hb Hs (HP s Hs)) as [Hg Hp].
  split; [done|]. intros _ _ w2 (_ & Hev2 & _). by apply Hev2.
Qed.
End Own.
Lemma ssafe_sync p err w : ssafe any (tried (SyncFile p) err) w.
Proof using. apply ssafe_tried. intros w' b w'' Hi ? ? ->. by apply guar_same. Qed.
End Logic.
#[export] Hint Resolve known_settle row_read_stable : updater.

(** ** Tactics *)
(** Carry what is known of [w] to the later world. *)
Ltac later Hev :=
  match type of Hev with evolves ?w ?w' =>
    repeat match goal with
    | H : known _ w |- _ => apply (known_stable _ _ _ Hev) in H
    | H : pointer_ok _ (files w) _ |- _ => apply (pointer_kept _ _ _ _ (ev_files _ _ Hev)) in H
    | H : published (files w) _ _ |- _ => apply (ev_files _ _ Hev) in H
    | H : held _ (files w) _ _ _ |- _ => apply (held_kept _ _ _ _ _ _ (ev_files _ _ Hev)) in H
    | H : core_ok _ (files w) _ |- _ => apply (core_ok_kept _ _ _ _ (ev_files _ _ Hev)) in H
    | H : target_published (files w) _ |- _ => apply (target_kept _ _ _ (ev_files _ _ Hev)) in H
    | H : earned _ (files w) _ _ |- _ => apply (earned_kept _ _ _ _ _ (ev_files _ _ Hev)) in H
    | H : drawn w !! _ = Some _ |- _ => apply (λ H, lookup_weaken _ _ _ _ H (ev_drawn _ _ Hev)) in H
    | H : row_read _ _ w |- _ => apply (row_read_stable _ _ _ _ Hev) in H
    | H : before_known _ (files w) _ |- _ => apply (before_known_kept _ _ _ _ (ev_files _ _ Hev)) in H
    end
  end.
(** Sequencing: the first part by the lemma, then the rest in the later world [w]. *)
Tactic Notation "then_" uconstr(lem) "as" simple_intropattern(x) simple_intropattern(H) ident(w) :=
  let Hi := fresh "Hi" in let Hev := fresh "Hev" in
  eapply svc_bind; [eassumption|eapply lem; eauto with updater|intros x w Hi Hev H; cbv beta in *; later Hev].
Tactic Notation "looking" "as" simple_intropattern(x) simple_intropattern(H) ident(w) :=
  let Hi := fresh "Hi" in let Hev := fresh "Hev" in
  apply safe_look; [by intros ???; cbn; intuition|]; intros x w Hi Hev H; later Hev.
Tactic Notation "drawing" "as" simple_intropattern(x) simple_intropattern(H) ident(w) :=
  let Hi := fresh "Hi" in let Hev := fresh "Hev" in
  (apply safe_draw_op || apply safe_draw_nonce); intros x w Hi Hev H; later Hev.

(** The branches of the program at the head of the goal; failures close themselves. *)
Ltac tests :=
  repeat match goal with
  | |- Rely.safe _ _ _ _ _ (if ?b then _ else _) _ =>
      let E := fresh "E" in destruct b eqn:E; try (by apply svc_fail)
  end.
