(* ===== verification/UpdaterSafe.v ===== *)
(** * Every method of the updater keeps the invariant

    One lemma per method of [UpdaterService] and [UpdaterRelease], with what
    its result says about the state.  They compose to [run_method_safe]. *)
From S2P Require Import Prelude Strings Bytes Effects Rely UpdaterManifest UpdaterStore UpdaterInstall UpdaterService UpdaterRelease UpdaterSystem UpdaterInv UpdaterCalls UpdaterLogic.
#[local] Open Scope string_scope.
#[local] Open Scope N_scope.
#[local] Open Scope prog_scope.

Section Safe.
Context `{RW : ReleaseWire, IW : InstallWire, LI : !LawfulInstall}.
Variable cfg : UpdaterConfig.
Variable t : nat.
Notation Inv := (Inv cfg).
Notation rely := (rely cfg t).
Notation guar := (guar cfg t).
Notation safe := (Rely.safe (λ t X, @answer _ t X) (UpdaterInv.rely cfg) (UpdaterInv.guar cfg) t).
Notation ssafe R p w := (safe (oks R) p w).
Notation any := (λ _ _, True).

Lemma verify_manifest_signed bytes now m i :
  verify_manifest bytes (cf_keys cfg) (cf_channel cfg) now (cf_clock_skew_ms cfg) = Ok (m, i) → signed cfg m.
Proof using.
  unfold verify_manifest. intros (m' & Hm & E)%rbind_Ok. apply rbind_Ok in E as (i' & Hi & E).
  repeat (case_match; try done). injection E as -> ->.
  unfold manifest_parse in Hm. case_match; [|done]. apply rbind_Ok in Hm as ([] & Hm & [= ->]).
  split; [done|]. by rewrite Hi.
Qed.
Lemma verified_signed bytes now w :
  ssafe (λ v _, signed cfg v.1) (verified cfg bytes now) w.
Proof using.
  unfold verified, refusing. destruct (verify_manifest _ _ _ _ _) as [[m i]|e] eqn:E; [|done].
  apply svc_ret. intros w' _ _. by eapply verify_manifest_signed.
Qed.
Lemma launch_signed bytes m : verify_manifest_at_launch bytes (cf_keys cfg) = Ok m → signed cfg m.
Proof using.
  unfold verify_manifest_at_launch. intros (m' & Hm & E)%rbind_Ok. apply rbind_Ok in E as (i & Hi & [= ->]).
  unfold manifest_parse in Hm. case_match; [|done]. apply rbind_Ok in Hm as ([] & Hm & [= ->]).
  split; [done|]. by rewrite Hi.
Qed.
Lemma host_artifact_in m a : host_artifact cfg m = Some a → a ∈ mf_artifacts m.
Proof using. intros [? _]%List.find_some. by apply list_elem_of_In. Qed.
Lemma safe_admit m w :
  Inv w → ssafe (λ a _, ad_generation a = release_generation m) (admit_manifest cfg m) w.
Proof using.
  intros Hi. unfold admit_manifest. then_ ssafe_high_water as floor _ w1.
  tests. by apply svc_ret.
Qed.
Lemma ssafe_ensure_no_running w : Inv w → ssafe any ensure_no_running w.
Proof using.
  intros Hi. unfold ensure_no_running. then_ ssafe_running as rs _ w1. unfold require. by destruct (bool_decide _).
Qed.
Lemma ssafe_any_require b e w : ssafe any (require b e) w.
Proof using. by destruct b. Qed.

(** ** Check *)
Definition check_row_ok (o : UpdateOperation) : Prop :=
  op_kind o = KCheck ∧ op_before_digest o = None.
Lemma check_row_core o fs : check_row_ok o → core_ok cfg fs o ∧ status_ok fs o.
Proof using.
  intros [Hk Hb]. split; [split|].
  - unfold source_ok. by rewrite Hk.
  - intros d. by rewrite Hb.
  - intros Hk'. congruence.
Qed.
Lemma settle_check s now o : check_row_ok o → check_row_ok (settle_op s now o).
Proof using. by destruct o. Qed.
Lemma safe_record_refusal {A} (R : A → World → Prop) o e now w :
  core_ok cfg (files w) (settle_op SFailed now o) → ssafe R (record_refusal o e now) w.
Proof using.
  intros Hc. apply safe_event. intros w' [[]|] w'' Hi Hev Hr Ha; cbn in Ha.
  - destruct Ha as (rs & Hrs & ->). split; [|by intros ??].
    eapply guar_insert; [done| | |done].
    + eapply core_ok_kept, Hc. apply Hev.
    + by apply status_ok_other.
  - subst. split; [by apply guar_same|by intros ??].
Qed.
Lemma safe_check bytes running now w : Inv w → ssafe any (check cfg bytes running now) w.
Proof using.
  intros Hi. unfold check. then_ verified_signed as [m i] Hm w1. cbn [fst] in Hm.
  drawing as id Hid w2.
  eapply safe_bind; [done|by apply safe_admit|]. intros [a|e] w3 Hi3 Hev3 _.
  - case_match.
    + then_ ssafe_insert as ? ? w4; [by apply check_row_core..|done].
    + case_match; [|apply safe_record_refusal; by apply check_row_core].
      case_match; [apply safe_record_refusal; by apply check_row_core|].
      then_ ssafe_insert as ? ? w4; [by apply check_row_core..|by apply svc_ret].
  - apply safe_record_refusal. by apply check_row_core.
Qed.

(** ** Stage *)
Lemma safe_publish id p n d w :
  Inv w → own_file t id p (λ s, sha256_hex s = d) w →
  ssafe (λ _ w', published (files w') n d) (publish_staged p n d) w.
Proof using.
  intros Hi Ho. apply ssafe_require. intros _.
  eapply svc_bind; [done|eapply (ssafe_tried_own cfg t id p); [|exact Ho]|].
  - intros w' [] w'' ? ? ? ->; split; [by apply guar_dirs|by left|by apply guar_same|by left].
  - intros [] w1 Hi1 Hev1 Ho1. by eapply ssafe_adopt_artifact.
Qed.
Lemma belongs_staging id n : belongs id (StagingFile id n) = true.
Proof using. cbn. by rewrite bool_decide_true. Qed.
Lemma safe_download id a w :
  Inv w → drawn w !! id = Some t →
  ssafe (λ _ w', published (files w') (af_name a) (af_sha256 a)) (download_and_publish cfg id a) w.
Proof using.
  intros Hi Hd. pose proof (belongs_staging id (af_name a)) as Hb.
  apply ssafe_require. intros _.
  then_ ssafe_clear_staging as [] _ w1.
  then_ ssafe_make_dir as [] _ w2.
  then_ ssafe_create as [] _ w3.
  then_ ssafe_fetch as n _ w4.
  then_ ssafe_sync as [] _ w5.
  then_ (ssafe_own_digest cfg t id) as d Ho w6.
  apply ssafe_require. intros ->%bool_decide_eq_true.
  then_ safe_publish as [] Hp w7.
  then_ ssafe_clear_staging as [] _ w8.
  apply svc_ret. intros w9 _ Hev'. by apply Hev'.
Qed.

Lemma safe_read_pointer w : ssafe (λ p w', before_known cfg (files w') p) read_pointer w.
Proof using LI.
  eapply ssafe_weaken; [|apply ssafe_read_pointer; done]. intros [p|] w' Hp; [by apply Hp|done].
Qed.
Lemma seen_before_ok fs current o :
  before_known cfg fs current → op_before_version o = ip_version <$> current →
  op_before_digest o = ip_digest <$> current → op_before_artifact o = ip_artifact <$> current → before_ok cfg fs o.
Proof using.
  intros Hb Hv Hd Ha d. rewrite Hd, Hv, Ha. destruct current as [p|]; [|done]. intros [= <-].
  destruct Hb as [? _]. eauto.
Qed.
Lemma of_manifest_genuine o m d :
  of_manifest cfg o m → op_after_digest o = Some d →
  ∃ n, op_artifact o = Some n ∧ genuine cfg (mf_version m) d n.
Proof using.
  intros (Hs & _ & _ & Ha) Hd. destruct (Ha d Hd) as (a & Hin & Hsha & Hn).
  exists (af_name a). split; [done|]. by exists m, a.
Qed.
Lemma stage_row_ok fs id m i a admission current key now :
  signed cfg m → a ∈ mf_artifacts m → ad_generation admission = release_generation m → before_known cfg fs current →
  core_ok cfg fs (stage_row id m i a admission current key now).
Proof using.
  intros Hs Ha Hg Hb. split.
  - exists m. split; [|by rewrite <- Hg]. split_and!; [done..|]. intros d [= <-]. by exists a.
  - by eapply seen_before_ok.
Qed.
Lemma stage_row_genuine fs o :
  core_ok cfg fs o → op_kind o = KStage →
  ∃ m d n, op_after_version o = Some (mf_version m) ∧ op_after_digest o = Some d ∧ op_artifact o = Some n
           ∧ op_channel o = Some (channel_str (mf_channel m)) ∧ of_manifest cfg o m ∧ genuine cfg (mf_version m) d n
           ∧ op_release_generation o = Some (release_generation m).
Proof using.
  intros [Hs _] Hk. unfold source_ok in Hs. rewrite Hk in Hs. destruct Hs as (m & Hm & Hg & [d Hd]).
  destruct (of_manifest_genuine _ _ _ Hm Hd) as (n & Hn & Hge). exists m, d, n.
  pose proof Hm as (_ & ? & ? & _). done.
Qed.
Definition outcome_genuine (o : StageOutcome) : Prop := genuine cfg (so_version o) (so_digest o) (af_name (so_artifact o)).
Lemma safe_replay_key key a w :
  Inv w → ssafe (λ x _, ∀ o, x = Some o → outcome_genuine o) (replay_key cfg key a) w.
Proof using.
  intros Hi. unfold replay_key. destruct key as [key|]; [|by apply svc_ret].
  then_ ssafe_by_key as [o|] Ho w1; [|by apply svc_ret]. specialize (Ho o eq_refl) as (_ & Hc & _).
  tests; (apply svc_ret; intros w2 _ _ x [= <-]).
  apply andb_prop in E as [Hk%bool_decide_eq_true _].
  destruct (stage_row_genuine _ _ Hc Hk) as (m & d & n & Hv & Hd & Hn & _ & _ & Hg & _).
  unfold outcome_genuine. cbn. by rewrite Hv, Hd, Hn.
Qed.
Lemma safe_stage bytes running key now w :
  Inv w → ssafe (λ o _, outcome_genuine o) (stage cfg bytes running key now) w.
Proof using LI.
  intros Hi. unfold stage.
  then_ ssafe_ensure_no_running as [] _ w1. then_ safe_check as c _ w2.
  then_ verified_signed as [m i] Hm w3. cbn [fst] in Hm.
  apply ssafe_some. intros a Ha%host_artifact_in.
  then_ safe_replay_key as x Hx w4. destruct x as [o|]; [apply svc_ret; intros; by apply Hx|].
  then_ safe_admit as admission Hg w5. then_ safe_read_pointer as current Hb w6.
  drawing as id Hid w7. set (o := stage_row _ _ _ _ _ _ _ _).
  assert (Hc : core_ok cfg (files w7) o) by by apply stage_row_ok.
  then_ ssafe_insert as [] Ho w8; [by intros _|].
  eapply safe_bind; [done|by apply safe_download|]. intros [n|e] w9 Hi9 Hev9 Hp; later Hev9.
  - cbn in Hp. assert (He : earned cfg (files w9) (channel_str (mf_channel m)) (ad_generation admission)).
    { right. exists m, a, (af_name a). by rewrite Hg. }
    eapply safe_bind; [done|by apply ssafe_raise|]. intros [[]|e] w10 Hi10 Hev10 _; later Hev10.
    + then_ ssafe_update as [] _ w11; [|apply svc_ret; intros; by exists m, a].
      intros _ _. by exists (af_name a), (af_sha256 a).
    + then_ ssafe_update as [] _ w11; [|done]. by apply status_ok_other.
  - eapply safe_bind; [done|apply ssafe_clear_staging|]. intros _ w10 Hi10 Hev10 _; later Hev10.
    by then_ ssafe_settle as [] _ w11.
Qed.

(** ** Swapping the pointer *)
Lemma safe_restore previous w : Inv w → before_known cfg (files w) previous → safe any (restore_previous previous) w.
Proof using LI.
  intros Hi Hb. destruct previous as [p|].
  - eapply safe_bind; [done|by apply ssafe_write_pointer|]. intros [] w1 Hi1 Hev1 _; [|done].
    by apply safe_look; [by intros ???|].
  - by eapply safe_bind; [done|apply ssafe_remove_pointer|].
Qed.
Definition names (o : UpdateOperation) (p : InstallPointer) : Prop :=
  op_before_version o = Some (ip_version p) ∧ op_before_digest o = Some (ip_digest p)
  ∧ op_before_artifact o = Some (ip_artifact p).
Lemma rollback_row_ok fs o previous target :
  op_kind o = KRollback → before_known cfg fs previous → pointer_ok cfg fs target → names o target →
  op_after_version o = ip_version <$> previous → op_after_digest o = ip_digest <$> previous →
  op_artifact o = ip_artifact <$> previous → core_ok cfg fs o ∧ status_ok fs o.
Proof using.
  intros Hk Hb [Ht _] (Hbv & Hbd & Hba) Hv Hd Ha. split; [split|].
  - unfold source_ok. rewrite Hk, Hv, Hd, Ha. intros d. destruct previous as [p|]; [|done]. intros [= <-].
    destruct Hb. eauto.
  - intros d. rewrite Hbd, Hbv, Hba. intros [= <-]. eauto.
  - intros Hk'. congruence.
Qed.
Lemma safe_record_rollback previous target now w :
  Inv w → before_known cfg (files w) previous → pointer_ok cfg (files w) target →
  ssafe any (record_rollback previous target now) w.
Proof using.
  intros Hi Hb Ht. unfold record_rollback. drawing as id Hid w1.
  eapply ssafe_weaken; [|eapply ssafe_insert; eapply (rollback_row_ok _ _ previous target)]; done.
Qed.
Lemma safe_swap o target now w :
  Inv w → known o w → pointer_ok cfg (files w) target → ssafe any (swap_pointer o target now) w.
Proof using.
  intros Hi Ho Ht. eapply safe_bind; [done|by apply ssafe_write_pointer|]. intros [[]|e] w1 Hi1 Hev1 _; [done|].
  later Hev1. by then_ ssafe_settle as [] _ w2.
Qed.
Lemma safe_roll_back_swap o current target now w :
  Inv w → known o w → before_known cfg (files w) current → pointer_ok cfg (files w) target →
  ssafe any (roll_back_swap o current target now) w.
Proof using LI.
  intros Hi Ho Hb Ht. eapply safe_bind; [done|by apply safe_restore|]. intros [] w1 Hi1 Hev1 _. later Hev1.
  then_ ssafe_settle as [] _ w2. then_ safe_record_rollback as [] _ w3. by apply svc_ret.
Qed.

(** ** Apply *)
Lemma safe_staged_at_floor o w : Inv w → ssafe any (staged_at_floor cfg o) w.
Proof using. intros Hi. unfold staged_at_floor. then_ ssafe_high_water as floor _ w1. apply ssafe_any_require. Qed.
Lemma safe_not_yet_applied o w : Inv w → ssafe any (not_yet_applied o) w.
Proof using.
  intros Hi. unfold not_yet_applied. then_ ssafe_latest as [l|] _ w1; [apply ssafe_any_require|by apply svc_ret].
Qed.
Lemma safe_latest_staged w :
  Inv w → ssafe (λ o w', row_read cfg o w' ∧ op_kind o = KStage ∧ op_status o = SStaged) latest_staged w.
Proof using.
  intros Hi. unfold latest_staged. then_ ssafe_latest as x Hx w1. destruct x as [o|]; [|done].
  destruct (Hx o eq_refl) as (Hr & Hk & Hs). apply svc_ret. intros w2 _ Hev2. split; [by eapply row_read_stable|done].
Qed.
(** What a staged row lets an install name. *)
Lemma staged_held fs o v d n :
  core_ok cfg fs o → status_ok fs o → op_kind o = KStage → op_status o = SStaged →
  default "" (op_after_version o) = v → op_after_digest o = Some d → op_artifact o = Some n →
  held cfg fs v d n.
Proof using.
  intros Hc Hs Hk Hst <- Hd Hn. destruct (stage_row_genuine _ _ Hc Hk) as (m & d' & n' & Hv & Hd' & Hn' & _ & _ & Hg & _).
  destruct (Hs Hk Hst) as (n2 & d2 & ? & ? & ?). rewrite Hv. simplify_eq. by split.
Qed.
Lemma apply_row_ok fs id staged target current head now :
  core_ok cfg fs staged → op_kind staged = KStage → before_known cfg fs current → pointer_ok cfg fs target →
  ip_version target = default "" (op_after_version staged) → op_after_digest staged = Some (ip_digest target) →
  op_artifact staged = Some (ip_artifact target) →
  core_ok cfg fs (apply_row id staged target current head now).
Proof using.
  intros Hc Hk Hb [[_ Hp] _] Hv Hd Ha.
  destruct (stage_row_genuine _ _ Hc Hk) as (m & d & n & Hv' & Hd' & Hn' & Hch & (Hsg & _ & _ & Hm) & _ & Hg).
  split; [|by eapply seen_before_ok]. split.
  - exists m. split; [|done]. split_and!; [done..| |].
    + cbn. by rewrite Hv, Hv'.
    + intros d0 [= <-]. destruct (Hm _ Hd) as (a & ? & ? & ?). exists a. split_and!; [done..|]. cbn. congruence.
  - by exists (ip_artifact target), (ip_digest target).
Qed.
Lemma safe_apply now w : Inv w → ssafe any (apply cfg now) w.
Proof using LI.
  intros Hi. unfold apply.
  then_ ssafe_ensure_no_running as [] _ w1. then_ safe_latest_staged as staged Hst w2.
  destruct Hst as (Hr & Hk & Hst).
  then_ safe_staged_at_floor as [] _ w3. then_ safe_not_yet_applied as [] _ w4.
  apply ssafe_some. intros n Hn. apply ssafe_some. intros d Hd. apply svc_lift. intros target0 Ht0.
  assert (Hh : held cfg (files w4) (default "" (op_after_version staged)) d n) by (eapply staged_held; by try apply Hr).
  edestruct pointer_new_ok as (Hp0 & _ & Hv0 & Hd0 & Hn0 & _); [exact Ht0|exact Hh|].
  then_ ssafe_launch_release as target Ht w5. destruct Ht as (Hp & Hv & Hdg & Hna).
  then_ ssafe_verify_installed as [] _ w6. then_ safe_read_pointer as current Hb w7.
  drawing as id Hid w8. looking as schema _ w9. set (o := apply_row _ _ _ _ _ _).
  assert (Hc : core_ok cfg (files w9) o) by (apply apply_row_ok; try congruence; by try apply Hr).
  then_ ssafe_insert as [] Ho w10; [by intros _|].
  then_ safe_swap as [] _ w11. looking as healthy _ w12. destruct healthy.
  - then_ ssafe_settle as [] _ w13. by apply svc_ret.
  - by apply safe_roll_back_swap.
Qed.

(** ** Downgrade *)
Lemma downgrade_row_ok fs id m i g current key actor now :
  signed cfg m → mf_release_generation m = Some g → before_known cfg fs current →
  core_ok cfg fs (downgrade_row id m i g current key actor now).
Proof using.
  intros Hs Hg Hb. split; [|by eapply seen_before_ok]. exists m. split; [|by rewrite Hg].
  by split_and!.
Qed.
Lemma downgrade_target_ok fs id m i g current key actor now a :
  signed cfg m → mf_release_generation m = Some g → before_known cfg fs current → a ∈ mf_artifacts m →
  core_ok cfg fs (set_after (Some (mf_version m)) (Some (af_sha256 a)) (Some (af_name a))
                    (downgrade_row id m i g current key actor now)).
Proof using.
  intros Hs Hg Hb Ha. split; [|by eapply seen_before_ok]. exists m. split; [|by rewrite Hg].
  split_and!; [done..|]. intros d [= <-]. by exists a.
Qed.
Lemma not_stage_status fs o : op_kind o ≠ KStage → status_ok fs o.
Proof using. by intros Hk ?. Qed.
Lemma safe_refuse_recorded {A} (R : A → World → Prop) o e now w :
  Inv w → core_ok cfg (files w) o → ssafe R (refuse_recorded o e now) w.
Proof using.
  intros Hi Hc. apply (core_ok_core cfg _ o (settle_op SFailed now o)) in Hc; [|apply core_settle]. unfold refuse_recorded. then_ ssafe_insert as [] _ w1; [by apply status_ok_other|done].
Qed.
Lemma safe_complete_downgrade o c g target now w :
  Inv w → known o w → authorizes_fall o c g → earned cfg (files w) c g →
  ssafe any (complete_downgrade o c g target now) w.
Proof using.
  intros Hi Ho Ha He. eapply safe_bind; [done|by eapply ssafe_set_mark|]. intros r w1 Hi1 Hev1 _. later Hev1.
  then_ ssafe_settle as [] _ w2. by destruct r; [apply svc_ret|].
Qed.
Lemma safe_downgrade bytes running key actor now w : Inv w → ssafe any (downgrade cfg bytes running key actor now) w.
Proof using LI.
  intros Hi. unfold downgrade.
  then_ ssafe_ensure_no_running as [] _ w1. then_ verified_signed as [m i] Hm w2. cbn [fst] in Hm.
  apply ssafe_some. intros g Hg. then_ safe_read_pointer as current Hb w3. drawing as id Hid w4.
  tests; [apply safe_refuse_recorded; [done|]; by apply downgrade_row_ok|].
  destruct (host_artifact cfg m) as [a|] eqn:Ha;
    [apply host_artifact_in in Ha|apply safe_refuse_recorded; [done|]; by apply downgrade_row_ok].
  set (o := set_after _ _ _ _).
  assert (Hc : core_ok cfg (files w4) o) by by apply downgrade_target_ok.
  tests; [by apply safe_refuse_recorded|].
  then_ ssafe_insert as [] Ho w5; [by apply not_stage_status|].
  eapply safe_bind; [done|by apply safe_download|]. intros [n|e] w6 Hi6 Hev6 Hp; later Hev6.
  - cbn in Hp. apply svc_lift. intros target0 Ht0.
    edestruct pointer_new_ok as (Hp0 & _); [exact Ht0|by split; [exists m, a|]|].
    then_ ssafe_launch_release as target Ht w7. destruct Ht as (Ht & _).
    then_ ssafe_verify_installed as [] _ w8. then_ safe_swap as [] _ w9. looking as healthy _ w10. destruct healthy.
    + apply safe_complete_downgrade; [done..|]. right. exists m, a, (af_name a). unfold release_generation. by rewrite Hg.
    + by apply safe_roll_back_swap.
  - eapply safe_bind; [done|apply ssafe_clear_staging|]. intros _ w7 Hi7 Hev7 _; later Hev7.
    by then_ ssafe_settle as [] _ w8.
Qed.

(** ** Rollback *)
Lemma rollback_target_ok fs o current target :
  op_kind o = KRollback → pointer_ok cfg fs current → names o current → held cfg fs (default "" (op_after_version o)) (default "" (op_after_digest o)) (default "" (op_artifact o)) →
  is_Some (op_after_version o) → is_Some (op_after_digest o) → op_artifact o = Some target → core_ok cfg fs o ∧ status_ok fs o.
Proof using.
  intros Hk [Hc _] (Hbv & Hbd & Hba) Hh [v Hv] [d Hd] Ha. rewrite Hv, Hd, Ha in Hh. split; [split|].
  - unfold source_ok. rewrite Hk, Hv, Hd, Ha. intros ? [= <-]. eauto.
  - intros d'. rewrite Hbd, Hbv, Hba. intros [= <-]. eauto.
  - intros Hk'. congruence.
Qed.
Lemma safe_rollback now w : Inv w → ssafe any (rollback now) w.
Proof using LI.
  intros Hi. unfold rollback.
  then_ ssafe_ensure_no_running as [] _ w1. then_ ssafe_latest as x Hx w2. apply ssafe_some. intros last ->.
  destruct (Hx last eq_refl) as (Hr & _ & _). clear Hx.
  then_ safe_read_pointer as installed Hin w3. apply ssafe_some. intros current ->. cbn in Hin.
  apply ssafe_require. intros _. apply ssafe_some. intros d Hd. apply ssafe_some. intros v Hv.
  looking as schema _ w4.
  assert (Hh : held cfg (files w4) v d (default "" (op_before_artifact last))).
  { destruct Hr as (_ & [_ Hb] & _). destruct (Hb d Hd) as (v' & n & Hv' & -> & ?). cbn. congruence. }
  destruct (schema_ahead last schema) as [[found head]|].
  - drawing as id Hid w5. then_ ssafe_insert as [] _ w6; [..|done];
      by eapply (rollback_target_ok _ _ current).
  - apply svc_lift. intros target0 Ht0.
    edestruct pointer_new_ok as (Hp0 & _ & Hv0 & Hd0 & Hn0 & _); [exact Ht0|exact Hh|].
    then_ ssafe_launch_release as target Ht w5. destruct Ht as (Ht & Hv1 & Hd1 & Hn1).
    then_ ssafe_verify_installed as [] _ w6. drawing as id Hid w7.
    set (o := rollback_row _ _ _ _ _ _ _).
    assert (Hok : core_ok cfg (files w7) o ∧ status_ok (files w7) o).
    { eapply (rollback_target_ok _ _ current); [done..| |done|done|done]. apply Ht. }
    destruct Hok as [Hc Hs]. then_ ssafe_insert as [] Ho w8.
    then_ ssafe_write_pointer as [] _ w9. looking as healthy _ w10. destruct healthy.
    + then_ ssafe_settle as [] _ w11. by apply svc_ret.
    + by then_ ssafe_settle as [] _ w11.
Qed.
End Safe.
