(* ===== verification/UpdaterReleaseSafe.v ===== *)
(** * The release-aware methods and recovery keep the invariant

    The second half of [UpdaterSafe], and the methods together. *)
From S2P Require Import Prelude Strings Bytes Effects Rely UpdaterManifest UpdaterStore UpdaterInstall UpdaterService UpdaterRelease UpdaterSystem UpdaterInv UpdaterCalls UpdaterLogic UpdaterSafe.
#[local] Open Scope string_scope.
#[local] Open Scope N_scope.
#[local] Open Scope prog_scope.

Section Safe.
Context `{RW : ReleaseWire, IW : InstallWire, LI : !LawfulInstall}.
Variable cfg : UpdaterConfig.
Variable t : nat.
Notation Inv := (Inv cfg).
Notation rely := (rely cfg t).
Notation guar := (guar cfg t).
Notation safe := (Rely.safe (λ t X, @answer _ t X) (UpdaterInv.rely cfg) (UpdaterInv.guar cfg) t).
Notation ssafe R p w := (safe (oks R) p w).
Notation any := (λ _ _, True).

(** ** Materializing a release *)
Lemma safe_cleanup {A} (R : A → World → Prop) (p : Svc A) e w :
  Inv w → (∀ w' b w'', Inv w' → evolves w w' → answer t e w' b w'' → guar w' w'') →
  (∀ a w1 w2, rely w1 w2 → R a w1 → R a w2) → ssafe R p w → ssafe R (or_cleanup p e) w.
Proof using.
  intros Hi He HR Hp. unfold or_cleanup. eapply safe_bind; [done|exact Hp|]. intros [a|er] w1 Hi1 Hev1 Ha.
  - intros w2 Hr2. by eapply HR.
  - apply safe_event. intros w' b w'' Hi' Hev Hr Hans. split; [|done].
    eapply He; [done|by etrans|done].
Qed.
Lemma guar_remove_release p w b w' : Inv w → answer t (RemoveDir (ReleaseDir p)) w b w' → guar w w'.
Proof using. intros Hi Ha. by apply (guar_remove_dir cfg t (ReleaseDir p) w b w'). Qed.
Lemma belongs_binary r n : belongs n (BinaryIn (Temp r n)) = true.
Proof using. cbn. by rewrite bool_decide_true. Qed.
Lemma belongs_manifest r n : belongs n (ManifestIn (Temp r n)) = true.
Proof using. cbn. by rewrite bool_decide_true. Qed.
Lemma safe_write_complete r n art d b w :
  Inv w → drawn w !! n = Some t →
  ssafe (λ _ w', own_file t n (BinaryIn (Temp r n)) (λ s, sha256_hex s = d) w')
    (write_complete_release_dir (Temp r n) art d b) w.
Proof using.
  intros Hi Hd. pose proof (belongs_binary r n) as Hb. pose proof (belongs_manifest r n) as Hm.
  unfold write_complete_release_dir.
  then_ ssafe_write as [] _ w1. then_ ssafe_copy as [] _ w2.
  then_ (ssafe_own_digest cfg t n) as x Ho w3. apply ssafe_require. intros ->%bool_decide_eq_true.
  eapply (ssafe_tried_own cfg t n); [|exact Ho].
  intros w' x w'' Hi' _ _ ->. split; [by apply guar_same|by left].
Qed.
Lemma safe_adopt_dir r n v d nm w :
  own_file t n (BinaryIn (Temp r n)) (λ s, sha256_hex s = d) w →
  r = release_id_for v d → genuine cfg v d nm → ssafe any (tried (AdoptDir r n) Install) w.
Proof using.
  intros Ho Hr Hg. apply ssafe_tried. intros w' [] w'' Hi Hev Hre Ha; cbn in Ha; [|subst; by apply guar_same].
  destruct Ha as (_ & _ & ->). destruct (own_rely _ _ _ _ _ _ _ Hre Ho) as (Hd & _ & Hs).
  apply guar_move; [done..|]. intros s Hs'. rewrite (Hs s Hs'). by exists v, nm.
Qed.
Lemma safe_clear_temps {A} Q r (k : unit → Prog A) w :
  (∀ w', Inv w' → evolves w w' → safe Q (k tt) w') → safe Q (Call (ClearTemps r) k) w.
Proof using.
  intros Hk. apply safe_event. intros w' [] w'' Hi Hev Hr (gone & lost & Hg & _ & ->). split; [|by intros ??; apply Hk].
  eapply guar_trans; [by apply guar_dirs|]. apply guar_gone.
  - by apply (guar_dirs cfg t w' (.∖ lost) Hi).
  - intros p Hp. specialize (Hg p Hp). by destruct p.
Qed.
Lemma safe_rebuild r d b art v nm w :
  Inv w → r = release_id_for v d → genuine cfg v d nm → ssafe any (rebuild_release r d b art) w.
Proof using.
  intros Hi Hr Hg. unfold rebuild_release. drawing as n Hn w1. then_ ssafe_make_dir as [] _ w2.
  assert (Hrm : ∀ w w' b' w'', Inv w' → evolves w w' → answer t (RemoveDir (ReleaseDir (Temp r n))) w' b' w'' → guar w' w'').
  { intros ? w' b' w'' Hi' _ Ha. by eapply guar_remove_release. }
  eapply svc_bind; [done|eapply (safe_cleanup (λ _, own_file t n (BinaryIn (Temp r n)) (λ s, sha256_hex s = d)));
    [done|by apply Hrm| |by apply safe_write_complete]|].
  { intros _ w1' w2' Hre Ho. by eapply own_rely. }
  intros [] w3 Hi3 Hev3 Ho. later Hev3.
  eapply (svc_bind _ _ any); [done|apply safe_cleanup; [done|by apply Hrm|done|]|].
  - eapply (svc_bind _ _ (λ _, own_file t n (BinaryIn (Temp r n)) (λ s, sha256_hex s = d))); [done| |].
    + apply safe_event. intros w' present w'' Hi' Hev' Hre [-> _]. split; [by apply guar_same|]. intros _ _.
      pose proof (own_rely _ _ _ _ _ _ _ Hre Ho) as Ho'. destruct present.
      * eapply (ssafe_tried_own cfg t n); [|exact Ho']. intros w4 b4 w5 Hi4 Hev4 Hr4 Ha.
        split; [by eapply guar_remove_release|]. destruct Ha as (gone & _ & _ & ->).
        destruct b4; cbn; (destruct (without_lookup gone (files w4) (BinaryIn (Temp r n))) as [?|[_ ?]]; [by left|by right]).
      * intros w4 Hr4. by eapply own_rely.
    + intros [] w4 Hi4 Hev4 Ho4. by eapply safe_adopt_dir.
  - intros [] w4 Hi4 Hev4 _. apply safe_clear_temps. intros w5 _ _. by apply svc_ret.
Qed.
Lemma guar_replace_free p b w' done w'' :
  critical p = false → (∀ name, belongs name p = false) → Inv w' → answer t (Replace p b) w' done w'' → guar w' w''.
Proof using.
  intros Hc Hb Hi Ha. cbn in Ha. destruct done; subst; [by apply guar_free|by apply guar_same].
Qed.
Lemma safe_materialize r n d b v nm w :
  Inv w → r = release_id_for v d → genuine cfg v d nm → ssafe any (materialize_release r n d b) w.
Proof using.
  intros Hi Hr Hg. unfold materialize_release. apply ssafe_require. intros _. apply ssafe_require. intros _.
  then_ ssafe_digest as x _ w1. apply ssafe_require. intros _. then_ ssafe_make_dir as [] _ w2.
  looking as dir _ w3. destruct dir; cbn [negb]; [|by eapply safe_rebuild].
  looking as bs _ w4.
  eapply (svc_bind _ _ any); [done|destruct (is_regular bs); [|by apply svc_ret]|].
  { then_ ssafe_digest as y _ w5. by apply svc_ret. }
  intros binary_current w5 Hi5 Hev5 _. looking as ms _ w6.
  eapply (svc_bind _ _ any); [done|destruct (is_regular ms); [|by apply svc_ret]|].
  { looking as a _ w7. by apply svc_ret. }
  intros manifest_current w7 Hi7 Hev7 _. destruct binary_current; [|by eapply safe_rebuild].
  eapply (svc_bind _ _ any); [done|destruct manifest_current; [by apply svc_ret|]|].
  { apply ssafe_tried. intros w' x' w'' Hi' _ _ Ha. by eapply (guar_replace_free (ManifestIn (Final r))). }
  intros [] w8 Hi8 Hev8 _. apply safe_clear_temps. intros w9 _ _. by apply svc_ret.
Qed.

(** ** The trust anchor and the launcher *)
Lemma safe_write_trust w : ssafe any (write_trust (cf_keys cfg)) w.
Proof using.
  apply ssafe_tried. intros w' b w'' Hi _ _ Ha. by eapply (guar_replace_free TrustAnchor).
Qed.
Lemma guar_own_gone p n w' b w'' :
  belongs n p = true → drawn w' !! n = Some t → Inv w' → answer t (RemoveFile p) w' b w'' → guar w' w''.
Proof using.
  intros Hb Hd Hi Ha. cbn in Ha. destruct b; subst; [|by apply guar_same].
  apply (guar_plain cfg t w' (delete p (files w'))); [done| |].
  - intros q Hq. left. rewrite lookup_delete_ne; [done|]. intros <-. by destruct p as [| | |[]|[]| | | |].
  - intros t' _ nm q _ _. cbn. destruct (decide (q = p)) as [->|Hn]; [right; apply lookup_delete_eq|].
    left. by rewrite lookup_delete_ne.
Qed.
Lemma guar_adopt_launcher n w' b w'' :
  drawn w' !! n = Some t → Inv w' → answer t (Adopt (LauncherTemp n) Launcher) w' b w'' → guar w' w''.
Proof using.
  intros Hd Hi Ha. cbn in Ha. destruct b; [|subst; by apply guar_same]. destruct Ha as [_ ->].
  apply (guar_plain cfg t w' (rename (LauncherTemp n) Launcher (files w'))); [done| |].
  - intros q Hq. left. by rewrite rename_other; [|by intros ->..].
  - intros t' Hne nm q Hn Hq. cbn. left. rewrite rename_other; [done| |by intros ->].
    intros ->. cbn in Hq. apply bool_decide_eq_true in Hq. congruence.
Qed.
Lemma safe_install_launcher w : ssafe any install_launcher w.
Proof using.
  unfold install_launcher. looking as s _ w1. destruct (is_regular s); [by apply svc_ret|].
  looking as e _ w2. apply ssafe_require. intros _. drawing as n Hn w3.
  assert (Hb : belongs n (LauncherTemp n) = true) by (cbn; by rewrite bool_decide_true).
  apply safe_cleanup; [done| |done|].
  - intros w' b w'' Hi' Hev' Ha. eapply guar_own_gone; [exact Hb| |done|exact Ha]. by eapply lookup_weaken, Hev'.
  - then_ (ssafe_copy cfg t n) as [] _ w4. then_ ssafe_sync as [] _ w5.
    apply ssafe_tried. intros w' b w'' Hi' Hev' _ Ha. eapply guar_adopt_launcher; [|done|exact Ha].
    by eapply lookup_weaken, Hev'.
Qed.
Lemma safe_stage_release bytes running key now w : Inv w → ssafe any (stage_release cfg bytes running key now) w.
Proof using LI.
  intros Hi. unfold stage_release. then_ safe_stage as o Ho w1. then_ verified_signed as v Hv w2.
  apply ssafe_some. intros a _. apply ssafe_require. intros _. apply ssafe_require. intros _.
  then_ safe_write_trust as [] _ w3. then_ safe_install_launcher as [] _ w4.
  eapply (svc_bind _ _ any); [done|by eapply safe_materialize|]. intros [] w5 Hi5 Hev5 _. by apply svc_ret.
Qed.

(** ** Activation *)
Lemma safe_previous_pointer o w :
  Inv w → core_ok cfg (files w) o → ssafe (λ p w', before_known cfg (files w') p) (previous_pointer o) w.
Proof using.
  intros Hi [_ Hb]. unfold previous_pointer.
  destruct (op_before_artifact o) as [n|] eqn:Hn; [|by apply svc_ret].
  destruct (op_before_digest o) as [d|] eqn:Hd; [|by apply svc_ret].
  destruct (Hb d Hd) as (v & n' & Hv & Hn' & Hh). simplify_eq.
  apply svc_lift. intros p0 Hp0. edestruct pointer_new_ok as (Hp & _); [exact Hp0|by rewrite Hv|].
  then_ ssafe_launch_release as p Hp1 w1. destruct Hp1 as (Hp1 & _).
  apply svc_ret. intros w2 _ Hev2. cbn. eapply pointer_kept, Hp1. apply Hev2.
Qed.
Lemma safe_restore_pointer previous w :
  Inv w → before_known cfg (files w) previous → safe any (restore_pointer previous) w.
Proof using LI.
  intros Hi Hb. destruct previous as [p|].
  - by eapply safe_bind; [done|by apply ssafe_write_pointer|].
  - by eapply safe_bind; [done|apply ssafe_remove_pointer|].
Qed.
Lemma safe_restart_previous b previous w : safe any (restart_previous b previous) w.
Proof using. destruct b, previous; try done. by apply safe_look; [by intros ???|]. Qed.
Lemma safe_fail_release o previous target now b w :
  Inv w → known o w → before_known cfg (files w) previous → pointer_ok cfg (files w) target →
  ssafe any (fail_release o previous target now b) w.
Proof using LI.
  intros Hi Ho Hb Ht. eapply safe_bind; [done|by apply safe_restore_pointer|]. intros [] w1 Hi1 Hev1 _. later Hev1.
  eapply safe_bind; [done|by apply safe_restart_previous|]. intros running w2 Hi2 Hev2 _. later Hev2.
  then_ ssafe_settle as [] _ w3. then_ safe_record_rollback as [] _ w4. by apply svc_ret.
Qed.
Lemma safe_activate now restarter w : Inv w → ssafe any (activate_release cfg now restarter) w.
Proof using LI.
  intros Hi. unfold activate_release.
  then_ ssafe_ensure_no_running as [] _ w1. then_ safe_latest_staged as staged Hst w2.
  destruct Hst as (Hr & Hk & Hst).
  then_ safe_staged_at_floor as [] _ w3. then_ safe_not_yet_applied as [] _ w4.
  apply ssafe_some. intros d Hd. apply ssafe_some. intros n Hn. apply ssafe_require. intros _.
  looking as bs _ w5. apply ssafe_require. intros _. looking as a _ w6. destruct a as [|bytes|]; [done| |done].
  unfold refusing. apply svc_lift. intros m _. apply ssafe_require. intros _. apply ssafe_require. intros _.
  apply svc_lift. intros target0 Ht0. apply svc_lift. intros target Ht.
  assert (Hh : held cfg (files w6) (default "" (op_after_version staged)) d n) by (eapply staged_held; by try apply Hr).
  edestruct pointer_new_ok as (Hp0 & _ & Hv0 & Hd0 & Hn0 & _); [exact Ht0|exact Hh|].
  edestruct with_release_id_ok as (Hp & Hv & Hdg & Hna); [exact Ht|by rewrite Hv0, Hd0|exact Hp0|].
  then_ ssafe_verify_installed as [] _ w7. then_ safe_read_pointer as current Hb w8.
  drawing as id Hid w9. looking as schema _ w10. set (o := apply_row _ _ _ _ _ _).
  assert (Hc : core_ok cfg (files w10) o) by (apply apply_row_ok; try congruence; by try apply Hr).
  then_ ssafe_insert as [] Ho w11; [by intros _|].
  then_ safe_swap as [] _ w12. destruct restarter.
  - looking as reported _ w13. tests; [|by apply safe_fail_release].
    looking as healthy _ w14. destruct healthy; [|by apply safe_fail_release].
    then_ ssafe_settle as [] _ w15. by apply svc_ret.
  - looking as healthy _ w13. destruct healthy; [|by apply safe_fail_release].
    then_ ssafe_update as [] _ w14; [by apply status_ok_other|by apply svc_ret].
Qed.

(** ** Finalizing and aborting *)
Lemma safe_pending k guard w :
  Inv w → (∀ p w', Inv w' → ssafe any (guard p) w') →
  (∀ p r o w', Inv w' → pointer_ok cfg (files w') p → row_read cfg o w' → ssafe any (k p r o) w') →
  ssafe any (pending_activation k guard) w.
Proof using LI.
  intros Hi Hg Hk. unfold pending_activation.
  then_ safe_read_pointer as x Hx w1. apply ssafe_some. intros p ->. cbn in Hx. apply ssafe_some. intros r _.
  then_ Hg as [] _ w2. unfold running_release_apply.
  eapply (svc_bind _ _ (λ x w', ∀ o, x = Some o → row_read cfg o w')); [done| |].
  - then_ ssafe_running as rs Hrs w3. apply svc_ret. intros w4 _ Hev4 o [Ho _]%List.find_some.
    eapply row_read_stable, Hrs; [done|]. by apply list_elem_of_In.
  - intros y w3 Hi3 Hev3 Hy. later Hev3. apply ssafe_some. intros o ->. by apply Hk; [|auto..].
Qed.
Lemma safe_finalize reported now w : Inv w → ssafe any (finalize_release reported now) w.
Proof using LI.
  intros Hi. apply safe_pending; [done|intros; apply ssafe_any_require|].
  intros p r o w1 Hi1 Hp Hr. looking as healthy _ w2. pose proof Hr as (Ho & Hc & _). destruct healthy.
  - then_ ssafe_settle as [] _ w3. by apply svc_ret.
  - then_ safe_previous_pointer as previous Hb w3. by apply safe_fail_release.
Qed.
Lemma safe_abort now w : Inv w → ssafe any (abort_release now) w.
Proof using LI.
  intros Hi. apply safe_pending; [done|intros; by apply svc_ret|].
  intros p r o w1 Hi1 Hp Hr. pose proof Hr as (Ho & Hc & _).
  then_ safe_previous_pointer as previous Hb w2. then_ safe_fail_release as x _ w3.
  destruct x; by apply svc_ret.
Qed.

(** ** Recovery *)
Lemma safe_needs_verification o now w : Inv w → known o w → ssafe any (needs_verification o now) w.
Proof using. intros Hi Ho. unfold needs_verification. then_ ssafe_settle as [] _ w1. by apply svc_ret. Qed.
Lemma safe_abandon o now w : Inv w → known o w → ssafe any (abandon o now) w.
Proof using. intros Hi Ho. unfold abandon. then_ ssafe_settle as [] _ w1. by apply svc_ret. Qed.
Lemma safe_reauthenticate o p w : Inv w → safe any (reauthenticate_recovered_release cfg o p) w.
Proof using.
  intros Hi. unfold reauthenticate_recovered_release. destruct (ip_release_id p); [|done].
  looking as a _ w1. destruct a as [|bytes|]; [done| |done].
  destruct (verify_manifest_at_launch _ _) as [m|]; [|done].
  repeat (match goal with |- Rely.safe _ _ _ _ _ (if ?b then _ else _) _ => destruct b; [done|] end).
  eapply safe_bind; [done|apply ssafe_high_water|]. intros [floor|] w2 ???; done.
Qed.
(** The floor an interrupted operation's row names is its manifest's. *)
Notation channel_of o := (default (channel_str (cf_channel cfg)) (op_channel o)).
Notation generation_of o := (default 0 (op_release_generation o)).
Lemma of_manifest_earned fs o m n d :
  of_manifest cfg o m → op_release_generation o = Some (release_generation m) → op_after_digest o = Some d →
  published fs n d → earned cfg fs (channel_of o) (generation_of o).
Proof using.
  intros (Hsg & -> & _ & Ha) -> Hd Hp. destruct (Ha d Hd) as (a & Hin & <- & _). right. by exists m, a, n.
Qed.
Lemma downgrade_earned fs o n d :
  core_ok cfg fs o → op_kind o = KDowngrade → op_after_digest o = Some d → published fs n d →
  earned cfg fs (channel_of o) (generation_of o) ∧ authorizes_fall o (channel_of o) (generation_of o).
Proof using.
  intros [Hs _] Hk Hd Hp. unfold source_ok in Hs. rewrite Hk in Hs. destruct Hs as (m & Hm & Hg & [g Hgs]).
  assert (release_generation m = g) as Hr by (unfold release_generation; by rewrite <- Hg, Hgs).
  split; [eapply of_manifest_earned; [done|by rewrite Hr|done..]|].
  destruct Hm as (_ & Hch & _). by rewrite Hch, Hgs.
Qed.
Lemma safe_owed_reset o p now w :
  Inv w → row_read cfg o w → pointer_valid p = true → pointer_ok cfg (files w) p →
  ip_digest p = default "" (op_after_digest o) → ssafe any (owed_reset cfg o now) w.
Proof using.
  intros Hi (Ho & Hc & _) Hv [[_ Hp] _] Hd. unfold owed_reset. case_bool_decide as Hk; [|by apply svc_ret].
  destruct (op_after_digest o) as [d|] eqn:E; cbn in Hd.
  - edestruct downgrade_earned as [He Ha]; [exact Hc|done..|by rewrite <- Hd; exact Hp|]. by eapply ssafe_set_mark.
  - exfalso. revert Hv. unfold pointer_valid. rewrite Hd. cbn. by rewrite !andb_false_r.
Qed.
Lemma safe_recover_swapped o p now running w :
  Inv w → row_read cfg o w → pointer_valid p = true → pointer_ok cfg (files w) p →
  ip_digest p = default "" (op_after_digest o) → ssafe any (recover_swapped cfg o p now running) w.
Proof using LI.
  intros Hi Hr Hv Hp Hd. unfold recover_swapped. pose proof Hr as (Ho & Hc & _).
  tests; [by apply safe_needs_verification|].
  eapply safe_bind; [done|by apply safe_reauthenticate|]. intros authentic w1 Hi1 Hev1 _. later Hev1.
  destruct authentic; cbn [negb]; [|by apply safe_needs_verification]. looking as healthy _ w2. destruct healthy.
  - eapply safe_bind; [done|by eapply safe_owed_reset|]. intros [[]|e] w3 Hi3 Hev3 _; later Hev3.
    + then_ ssafe_settle as [] _ w4. by apply svc_ret.
    + by apply safe_needs_verification.
  - eapply safe_bind; [done|by apply safe_previous_pointer|]. intros [previous|e] w3 Hi3 Hev3 Hb; later Hev3.
    + cbn in Hb. eapply safe_bind; [done|by apply safe_restore|]. intros [] w4 Hi4 Hev4 _. later Hev4.
      then_ ssafe_settle as [] _ w5. then_ safe_record_rollback as [] _ w6. by apply svc_ret.
    + by apply safe_needs_verification.
Qed.
Lemma safe_recover_apply o now running w :
  Inv w → row_read cfg o w → ssafe any (recover_apply cfg o now running) w.
Proof using LI.
  intros Hi Hr. unfold recover_apply. then_ ssafe_read_pointer as current Hc w1. pose proof Hr as (Ho & _ & _).
  destruct current as [p|]; [|tests; (by apply safe_abandon) || by apply safe_needs_verification].
  destruct (Hc p eq_refl) as [Hv Hp].
  case_bool_decide; [by apply safe_recover_swapped|].
  tests; (by apply safe_abandon) || by apply safe_needs_verification.
Qed.
Lemma safe_recover_rollback o now w : Inv w → row_read cfg o w → ssafe any (recover_rollback cfg o now) w.
Proof using LI.
  intros Hi Hr. unfold recover_rollback. then_ ssafe_read_pointer as current Hc w1. pose proof Hr as (Ho & _ & _).
  destruct current as [p|]; [|by apply safe_needs_verification]. tests; [|by apply safe_needs_verification].
  eapply safe_bind; [done|by apply safe_reauthenticate|]. intros authentic w2 Hi2 Hev2 _. later Hev2.
  destruct authentic; cbn [negb]; [|by apply safe_needs_verification].
  then_ ssafe_settle as [] _ w3. by apply svc_ret.
Qed.
Lemma safe_artifact_published o w :
  Inv w → safe (λ b w', b = true → target_published (files w') o) (stage_artifact_published o) w.
Proof using.
  intros Hi. unfold stage_artifact_published. destruct (op_artifact o) as [n|] eqn:Hn; [|by intros ? _].
  destruct (op_after_digest o) as [d|] eqn:Hd; [|by intros ? _]. destruct (_ && _); [|by intros ? _].
  looking as x Hx w1. intros w2 (_ & Hev2 & _) ->%bool_decide_eq_true. destruct Hx as (_ & s & Hs & ->).
  eapply target_kept; [apply Hev2|]. exists n, (sha256_hex s). split_and!; [done..|]. by exists s.
Qed.
Lemma safe_recover_stage o now w :
  Inv w → row_read cfg o w → op_kind o = KStage → ssafe any (recover_stage cfg o now) w.
Proof using.
  intros Hi Hr Hk. unfold recover_stage. then_ ssafe_clear_staging as [] _ w1. pose proof Hr as (Ho & Hc & _).
  eapply safe_bind; [done|by apply safe_artifact_published|]. intros published w2 Hi2 Hev2 Hp. later Hev2.
  destruct published; [|by apply safe_abandon]. destruct (Hp eq_refl) as (n & d & _ & Hd & Hpub).
  destruct (stage_row_genuine _ _ _ Hc Hk) as (m & _ & _ & _ & _ & _ & _ & Hm & _ & Hg).
  eapply (svc_bind _ _ any); [done|by eapply ssafe_raise, of_manifest_earned|].
  intros [] w3 Hi3 Hev3 _. later Hev3. by apply safe_abandon.
Qed.
Lemma safe_recover_one o now running w :
  Inv w → row_read cfg o w → ssafe any (recover_operation cfg o now running) w.
Proof using LI.
  intros Hi Hr. unfold recover_operation. pose proof Hr as (Ho & _ & _). destruct (op_kind o) eqn:Hk.
  - by apply safe_abandon.
  - by apply safe_recover_stage.
  - by apply safe_recover_apply.
  - by apply safe_recover_rollback.
  - by apply safe_recover_apply.
Qed.
Lemma safe_recover_each rs now running w :
  Inv w → (∀ o, o ∈ rs → row_read cfg o w) → ssafe any (recover_each cfg rs now running) w.
Proof using LI.
  revert w. induction rs as [|o rs IH]; intros w Hi Hr; cbn [recover_each]; [by apply svc_ret|].
  eapply (svc_bind _ _ any); [done|apply safe_recover_one; [done|apply Hr, elem_of_cons; by left]|].
  intros x w1 Hi1 Hev1 _. eapply (svc_bind _ _ any); [done|apply IH; [done|]|by intros; apply svc_ret].
  intros o' Ho'. eapply row_read_stable; [done|]. apply Hr, elem_of_cons. by right.
Qed.
Lemma safe_recover_all now running w : Inv w → ssafe any (recover_with_running_digest cfg now running) w.
Proof using LI.
  intros Hi. unfold recover_with_running_digest. then_ ssafe_running as rs Hr w1. by apply safe_recover_each.
Qed.

(** ** Looking only *)
Lemma safe_status now w : Inv w → ssafe any (status cfg now) w.
Proof using LI.
  intros Hi. unfold status. then_ safe_read_pointer as p _ w1. then_ ssafe_latest as x _ w2.
  eapply (svc_bind _ _ any); [done|apply (ssafe_query _ _ _ any); [by intros ??? [? _]|done..]|].
  intros l w3 Hi3 _ _. then_ ssafe_high_water as h _ w4. by apply svc_ret.
Qed.
Lemma safe_read_trust w : ssafe any read_trust w.
Proof using.
  unfold read_trust. looking as a _ w1. destruct a; [by apply svc_ret|destruct (parse_trust _); [|done]|done].
  by destruct (trust_to_keys _); [apply svc_ret|].
Qed.
Lemma safe_resolve_launch keys w : Inv w → ssafe any (resolve_launch keys) w.
Proof using LI.
  intros Hi. unfold resolve_launch. then_ safe_read_pointer as x _ w1. apply ssafe_some. intros p _.
  apply ssafe_some. intros r _. do 2 (apply ssafe_require; intros _).
  looking as ms _ w2. apply ssafe_require. intros _. looking as bs _ w3. apply ssafe_require. intros _.
  looking as a _ w4. destruct a; [done| |done]. apply svc_lift. intros m _. do 3 (apply ssafe_require; intros _).
  then_ ssafe_digest as d _ w5. apply ssafe_require. intros _. by apply svc_ret.
Qed.

(** ** All methods *)
Lemma safe_answering {A} (p : Svc A) f w : Inv w → ssafe any p w → safe any (answering p f) w.
Proof using. intros Hi Hp. by eapply safe_bind; [done|exact Hp|]. Qed.
Lemma run_method_safe m w : Inv w → safe any (run_method cfg m) w.
Proof using LI.
  intros Hi. destruct m; (apply safe_answering; [done|]).
  - by apply safe_check.
  - eapply ssafe_weaken; [|by apply safe_stage]. done.
  - by apply safe_stage_release.
  - by apply safe_apply.
  - by apply safe_downgrade.
  - by apply safe_rollback.
  - by apply safe_activate.
  - by apply safe_finalize.
  - by apply safe_abort.
  - by apply safe_recover_all.
  - by apply safe_status.
  - then_ safe_read_trust as keys _ w1. by apply safe_resolve_launch.
Qed.
End Safe.
