(* ===== verification/UpdaterQuiet.v ===== *)
(** * The updater on a machine where nothing fails

    [handle]: a host whose calls all succeed when they can — the store and the
    file system do what they are asked, an artifact's server serves what it
    serves, the probe and the restarter answer by a function of the pointer —
    one of the hosts of [UpdaterSystem] ([handle_answers]).  What a method run
    alone on it does is therefore reachable ([run_reaches], [cut_reaches]). *)
From S2P Require Import Prelude Strings Bytes Effects Rely UpdaterManifest UpdaterStore UpdaterInstall UpdaterService UpdaterRelease UpdaterSystem.
#[local] Open Scope string_scope.
#[local] Open Scope N_scope.

Record Host := MkHost {
  serves : string → string; healthy : InstallPointer → bool;
  schema : option DataStoreSchema; restarts : InstallPointer → option string }.
(** A name nobody drew. *)
Definition mint (w : World) : string := fresh (dom (drawn w) ∪ list_to_set (op_id <$> rows w) : gset string).
Definition gone_with (d : Dir) (fs : Files) : gset Path := filter (λ p, within d p = true) (dom fs).

Definition temp_dir_of (release : string) (d : Dir) : bool :=
  match d with ReleaseDir (Temp r _) => bool_decide (r = release) | _ => false end.

Section Quiet.
Context `{ReleaseWire}.
Variable host : Host.

Definition stored (rs : option Rows) (w : World) : result unit UpdateStoreError * World :=
  match rs with Some rs => (Ok tt, on_rows (λ _, rs) w) | None => (Err SMalformed, w) end.
Definition handle (t : nat) {X} (e : UpdEvent X) : World → X * World :=
  match e in UpdEvent X return World → X * World with
  | Insert o => λ w, stored (insert_row o (rows w)) w
  | Update o => λ w, stored (update_row o (rows w)) w
  | ListRows limit => λ w, (Ok (list_rows limit (rows w)), w)
  | Running => λ w, (Ok (running_rows (rows w)), w)
  | Latest k s => λ w, (Ok (latest_row k s (rows w)), w)
  | ByKey key => λ w, (Ok (by_key_row key (rows w)), w)
  | ReadMark c => λ w, (Ok (marks w !! c), w)
  | RaiseMark c g l now => λ w, (Ok tt, on_marks (raise_mark c g l now) w)
  | SetMark c g now => λ w, (Ok tt, on_marks (set_mark c g now) w)
  | ReadFile p => λ w, (match files w !! p with Some s => FContent s | None => FAbsent end, w)
  | Stat p => λ w, (match files w !! p with Some s => SRegular (slen s) | None => SMissing end, w)
  | IsDir d => λ w, (bool_decide (d ∈ dirs w), w)
  | Digest p => λ w, (sha256_hex <$> files w !! p, w)
  | Replace p b => λ w, (true, on_files <[p := b]> w)
  | RemoveFile p => λ w, (true, on_files (delete p) w)
  | MakeDir d => λ w, (true, on_dirs ({[d]} ∪.) w)
  | RemoveDir d => λ w, (true, on_files (without (gone_with d (files w))) (on_dirs (.∖ {[d]}) w))
  | ClearTemps release => λ w,
      (tt, on_files (without (filter (λ p, temp_of release p = true) (dom (files w))))
             (on_dirs (.∖ filter (λ d, temp_dir_of release d = true) (dirs w)) w))
  | CreateFile p => λ w, (true, on_files <[p := ""]> w)
  | WriteFile p b => λ w, (true, on_files <[p := b]> w)
  | CopyFile p q => λ w,
      match files w !! p with Some s => (true, on_files <[q := s]> w) | None => (false, w) end
  | SyncFile p => λ w, (true, w)
  | Adopt p q => λ w,
      match files w !! p with Some _ => (true, on_files (rename p q) w) | None => (false, w) end
  | AdoptDir release nonce => λ w,
      match files w !! BinaryIn (Final release), files w !! ManifestIn (Final release) with
      | None, None => (true, on_files (move_release release nonce)
          (on_dirs (λ ds, {[ReleaseDir (Final release)]} ∪ ds ∖ {[ReleaseDir (Temp release nonce)]}) w))
      | _, _ => (false, w)
      end
  | Fetch p url max => λ w,
      let s := serves host url in
      (if slen s <=? max then Ok (slen s) else Err (ArtifactTooLarge url max),
       if decide (is_Some (files w !! p)) then on_files <[p := s]> w else w)
  | Probe p => λ w, (healthy host p, w)
  | ObserveSchema => λ w, (schema host, w)
  | RestartProcess p => λ w, (restarts host p, w)
  | NewOpId k => λ w, (mint w, draw t (mint w) w)
  | NewNonce => λ w, (mint w, draw t (mint w) w)
  end.

Lemma mint_fresh w : drawn w !! mint w = None ∧ mint w ∉ op_id <$> rows w.
Proof using.
  pose proof (is_fresh (dom (drawn w) ∪ list_to_set (op_id <$> rows w) : gset string)) as Hf.
  fold (mint w) in Hf. rewrite not_elem_of_union, elem_of_list_to_set in Hf. destruct Hf. split; [by apply not_elem_of_dom|done].
Qed.
(** The quiet host is one of the hosts. *)
Lemma handle_answers t {X} (e : UpdEvent X) w : answer t e w (handle t e w).1 (handle t e w).2.
Proof using.
  destruct e; cbn; try done.
  - destruct (insert_row _ _) eqn:E; cbn; [by eauto|done].
  - destruct (update_row _ _) eqn:E; cbn; [by eauto|done].
  - by destruct (files w !! p) eqn:E.
  - destruct (files w !! p) eqn:E; cbn; eauto.
  - split; [done|]. by intros ?%bool_decide_eq_true.
  - destruct (files w !! p) eqn:E; cbn; eauto.
  - exists (gone_with d (files w)). split_and!; [| |done].
    + by intros p [? _]%elem_of_filter.
    + intros _ p Hw Hp. apply elem_of_filter. split; [done|by apply elem_of_dom].
  - eexists _, _. split_and!; [| |done].
    + by intros p [? _]%elem_of_filter.
    + intros d [Hd _]%elem_of_filter. destruct d as [|[|r n]| |]; try done. apply bool_decide_eq_true in Hd as ->. eauto.
  - destruct (files w !! p) eqn:E; cbn; eauto.
  - by destruct (files w !! p) eqn:E; cbn; [split; [by eexists|]|].
  - destruct (files w !! BinaryIn (Final release)) eqn:E1; [done|].
    by destruct (files w !! ManifestIn (Final release)) eqn:E2.
  - exists (serves host url). split; [done|]. destruct (_ <=? _) eqn:E; [|done]. split; [done|by apply N.leb_le].
  - split; [apply mint_fresh|done].
  - split; [apply mint_fresh|done].
Qed.
End Quiet.

Section Reaches.
Context `{ReleaseWire, InstallWire}.
Variable cfg : UpdaterConfig.
Variable host : Host.
Notation updater_step := (updater_step cfg).
Notation hd t := (λ X, @handle _ host t X).

(** One thread run alone, as steps of the system. *)
Lemma run_thread_steps t p w ts n r :
  ts t = Some p →
  ∃ ts', rtc updater_step (MkSystem w ts n r)
           (MkSystem (run (hd t) p w).2 ts' n (match (run (hd t) p w).1 with Some a => (t, a) :: r | None => r end))
         ∧ ∀ t', t' ≠ t → ts' t' = ts t'.
Proof using.
  revert w ts. induction p as [a| |X e k IH]; cbn; intros w ts Ht.
  - exists (set_thread t None ts). split; [by apply steps_one, step_return|].
    intros t' ?. unfold set_thread. by case_decide.
  - exists ts. split; [constructor|done].
  - pose proof (handle_answers host t e w) as Ha. revert Ha. destruct (handle host t e w) as [x w']. cbn. intros Ha.
    edestruct (IH x w' (set_thread t (Some (k x)) ts)) as (ts' & Hsteps & Hts).
    { unfold set_thread. by case_decide. }
    exists ts'. split.
    + eapply steps_trans; [eapply steps_one; by eapply step_call|exact Hsteps].
    + intros t' Ht'. rewrite Hts by done. unfold set_thread. by case_decide.
Qed.
Lemma cut_steps t m p w ts n r :
  ts t = Some p →
  ∃ ts', rtc updater_step (MkSystem w ts n r) (MkSystem (cut (hd t) m p w) ts' n r) ∧ ∀ t', t' ≠ t → ts' t' = ts t'.
Proof using.
  revert m w ts. induction p as [a| |X e k IH]; intros [|m] w ts Ht; cbn;
    try (exists ts; split; [constructor|done]).
  pose proof (handle_answers host t e w) as Ha. revert Ha. destruct (handle host t e w) as [x w']. cbn. intros Ha.
  edestruct (IH x m w' (set_thread t (Some (k x)) ts)) as (ts' & Hsteps & Hts).
  { unfold set_thread. by case_decide. }
  exists ts'. split.
  - eapply steps_trans; [eapply steps_one; by eapply step_call|exact Hsteps].
  - intros t' Ht'. rewrite Hts by done. unfold set_thread. by case_decide.
Qed.
(** Worlds the processes can bring about, with the number of the next one. *)
Definition reached (n : nat) (w : World) : Prop := ∃ ts r, reachable cfg (MkSystem w ts n r).
Lemma spawned n w m :
  reached n w → ∃ ts r, ts n = Some (run_method cfg m) ∧ reachable cfg (MkSystem w ts (S n) r).
Proof using.
  intros (ts & r & Hr). exists (set_thread n (Some (run_method cfg m)) ts), r. split.
  - unfold set_thread. by case_decide.
  - eapply steps_trans; [exact Hr|]. apply steps_one, step_spawn. by exists m.
Qed.
Lemma reached_run n w m : reached n w → reached (S n) (run (hd n) (run_method cfg m) w).2.
Proof using.
  intros (ts & r & Ht & Hr)%(spawned _ _ m). destruct (run_thread_steps n _ w ts (S n) r Ht) as (ts' & Hs & _).
  eexists ts', _. by eapply steps_trans.
Qed.
(** The steps of that run, from a given state. *)
Lemma run_from n w ts r m :
  ∃ s', rtc updater_step (MkSystem w ts n r) s' ∧ world s' = (run (hd n) (run_method cfg m) w).2.
Proof using.
  destruct (run_thread_steps n (run_method cfg m) w (set_thread n (Some (run_method cfg m)) ts) (S n) r) as (ts' & Hs & _).
  { unfold set_thread. by case_decide. }
  eexists. split; [eapply steps_trans; [apply steps_one, step_spawn; by exists m|exact Hs]|done].
Qed.
Lemma reached_cut n w m k : reached n w → reached (S n) (cut (hd n) k (run_method cfg m) w).
Proof using.
  intros (ts & r & Ht & Hr)%(spawned _ _ m). destruct (cut_steps n k _ w ts (S n) r Ht) as (ts' & Hs & _).
  eexists ts', _. by eapply steps_trans.
Qed.
Lemma reached_empty : reached 0 empty_world.
Proof using. eexists _, _. constructor. Qed.
End Reaches.
