(* ===== verification/UpdaterRuns.v ===== *)
(** * Runs on a machine where nothing fails

    [wp Q p w]: alone on the quiet host, [p] started in [w] returns, and [Q]
    holds of what it returns and the world it leaves.  What a run keeps comes
    from the safety proofs ([wp_inv]); what it does is computed. *)
From S2P Require Import Prelude Strings Bytes Effects Rely UpdaterManifest UpdaterStore UpdaterInstall UpdaterService UpdaterRelease UpdaterSystem UpdaterInv UpdaterCalls UpdaterLogic UpdaterSafe UpdaterReleaseSafe UpdaterQuiet.
#[local] Open Scope string_scope.
#[local] Open Scope N_scope.
#[local] Open Scope prog_scope.

Section Runs.
Context `{RW : ReleaseWire, IW : InstallWire, LI : !LawfulInstall}.
Variable cfg : UpdaterConfig.
Variable host : Host.
Variable t : nat.
Notation run := (Rely.run (λ X, @handle _ host t X)).
Notation safe := (Rely.safe (λ t X, @answer _ t X) (UpdaterInv.rely cfg) (UpdaterInv.guar cfg) t).

Definition wp {A} (Q : A → World → Prop) (p : Prog A) (w : World) : Prop :=
  match run p w with (Some a, w') => Q a w' | (None, _) => False end.
Lemma wp_run {A} Q (p : Prog A) w : wp Q p w → ∃ a w', run p w = (Some a, w') ∧ Q a w'.
Proof using. unfold wp. destruct (run p w) as [[a|] w']; [by eauto|done]. Qed.
Lemma wp_mono {A} (Q Q' : A → World → Prop) (p : Prog A) w : (∀ a w', Q a w' → Q' a w') → wp Q p w → wp Q' p w.
Proof using. intros HQ. unfold wp. destruct (run p w) as [[a|] w']; [apply HQ|done]. Qed.
Lemma wp_pbind {A B} (Q : B → World → Prop) (p : Prog A) (f : A → Prog B) w :
  wp (λ a w', wp Q (f a) w') p w → wp Q (pbind p f) w.
Proof using. unfold wp. rewrite run_prog_pbind. by destruct (run p w) as [[a|] w']. Qed.
Lemma wp_sbind {A B} (Q : result B UpdateError → World → Prop) (p : Svc A) (f : A → Svc B) w :
  wp (λ r w', match r with Ok a => wp Q (f a) w' | Err e => Q (Err e) w' end) p w → wp Q (sbind p f) w.
Proof using. intros Hp. apply wp_pbind. eapply wp_mono, Hp. by intros [a|e]. Qed.
Lemma wp_and {A} (P Q : A → World → Prop) p w : wp P p w → wp Q p w → wp (λ a w', P a w' ∧ Q a w') p w.
Proof using. unfold wp. by destruct (run p w) as [[a|] w']. Qed.
Lemma wp_call {A X} (Q : A → World → Prop) (e : UpdEvent X) k w :
  wp Q (k (handle host t e w).1) (handle host t e w).2 → wp Q (Call e k) w.
Proof using. done. Qed.

(** A run is one of the runs the safety proofs are about. *)
Lemma run_safe {A} (Q : A → World → Prop) (p : Prog A) w :
  Inv cfg w → safe Q p w →
  Inv cfg (run p w).2 ∧ evolves w (run p w).2 ∧ ∀ a, (run p w).1 = Some a → Q a (run p w).2.
Proof using LI.
  revert w. induction p as [a| |X e k IH]; cbn; intros w Hi Hs.
  - split_and!; [done|reflexivity|]. intros ? [= <-]. by apply Hs, (rely_refl _ _ _ _ (laws cfg)).
  - by split_and!; [done|reflexivity|].
  - destruct (Hs w (rely_refl _ _ _ _ (laws cfg) t w Hi) _ _ (handle_answers host t e w)) as [(Hi' & Hev & _) Hk].
    destruct (IH _ _ Hi' Hk) as (? & ? & ?). split_and!; [done|by etrans|done].
Qed.
Lemma wp_inv {A} (P Q : A → World → Prop) (p : Prog A) w :
  Inv cfg w → safe P p w → wp Q p w → wp (λ a w', Q a w' ∧ P a w' ∧ Inv cfg w' ∧ evolves w w') p w.
Proof using LI.
  intros Hi Hs. destruct (run_safe P p w Hi Hs) as (Hi' & Hev & Hp). revert Hi' Hev Hp. unfold wp.
  destruct (run p w) as [[a|] w']; cbn; [by auto|done].
Qed.

(** ** Programs that keep to some events *)
Fixpoint only {A} (ok : ∀ X, UpdEvent X → bool) (p : Prog A) : Prop :=
  match p with Ret _ => True | Halt => False | Call e k => ok _ e = true ∧ ∀ x, only ok (k x) end.
Definition leaves_rows X (e : UpdEvent X) : bool := match e with Insert _ | Update _ => false | _ => true end.
Definition only_looks X (e : UpdEvent X) : bool :=
  match e with
  | ListRows _ | Running | Latest _ _ | ByKey _ | ReadMark _ | ReadFile _ | Stat _ | IsDir _ | Digest _ | SyncFile _
  | Probe _ | ObserveSchema | RestartProcess _ => true
  | _ => false
  end.
(** The table stays, or the whole world does. *)
Definition tableless {A} : Prog A → Prop := only leaves_rows.
Definition reading {A} : Prog A → Prop := only only_looks.
Lemma handle_rows {X} (e : UpdEvent X) w : leaves_rows _ e = true → rows (handle host t e w).2 = rows w.
Proof using. destruct e; cbn; intros [=]; try done; by repeat case_match. Qed.
Lemma handle_looks {X} (e : UpdEvent X) w : only_looks _ e = true → (handle host t e w).2 = w.
Proof using. by destruct e. Qed.
Lemma wp_tableless {A} (p : Prog A) w : tableless p → wp (λ _ w', rows w' = rows w) p w.
Proof using.
  revert w. induction p as [a| |X e k IH]; intros w; [done|done|]. intros [He Hk]. apply wp_call.
  eapply wp_mono; [|apply IH, Hk]. intros a w' E. cbv beta in E. by rewrite E, handle_rows.
Qed.
(** What a program returns, whatever it is answered. *)
Definition yields {A} (P : A → Prop) (p : Prog A) : Prop := ∀ tr a, traces p tr a → P a.
Lemma run_traces {A} (p : Prog A) w a w' : run p w = (Some a, w') → ∃ tr, traces p tr a.
Proof using.
  revert w. induction p as [b| |X e k IH]; cbn; intros w; [intros [= <- <-]; by exists []|done|].
  intros (tr & Ht)%IH. by eexists _, _, tr.
Qed.
Lemma wp_reading {A} (P : A → Prop) (p : Prog A) w : reading p → yields P p → wp (λ a w', w' = w ∧ P a) p w.
Proof using.
  intros Hp HP. assert (Hw : wp (λ _ w', w' = w) p w).
  { clear HP. revert w. induction p as [a| |X e k IH]; intros w; [done|done|]. destruct Hp as [He Hk]. apply wp_call.
    rewrite handle_looks by done. apply IH, Hk. }
  apply wp_run in Hw as (a & w' & Hr & ->). unfold wp. rewrite Hr. split; [done|].
  destruct (run_traces _ _ _ _ Hr) as [tr Ht]. by eapply HP.
Qed.
Lemma only_pbind {A B} (ok : ∀ X, UpdEvent X → bool) (p : Prog A) (f : A → Prog B) : only ok p → (∀ a, only ok (f a)) → only ok (pbind p f).
Proof using. induction p as [a| |X e k IH]; cbn; [by intuition|done|]. intros [He Hk] Hf. split; [done|]. intros x. by apply IH. Qed.
Lemma only_sbind {A B} (ok : ∀ X, UpdEvent X → bool) (p : Svc A) (f : A → Svc B) : only ok p → (∀ a, only ok (f a)) → only ok (sbind p f).
Proof using. intros Hp Hf. apply only_pbind; [done|]. by intros [a|e]; [apply Hf|]. Qed.
Lemma only_tried (ok : ∀ X, UpdEvent X → bool) e err : ok _ e = true → only ok (tried e err).
Proof using. intros He. split; [done|]. by intros []. Qed.
Lemma only_require (ok : ∀ X, UpdEvent X → bool) b e : only ok (require b e).
Proof using. by destruct b. Qed.
Lemma only_store {A} (ok : ∀ X, UpdEvent X → bool) (e : UpdEvent (result A UpdateStoreError)) : ok _ e = true → only ok (store e).
Proof using. done. Qed.
Lemma only_digest (ok : ∀ X, UpdEvent X → bool) p e : ok _ (Digest p) = true → only ok (digest_of p e).
Proof using. split; [done|]. by intros [d|]. Qed.
Lemma only_lift {A} (ok : ∀ X, UpdEvent X → bool) (r : result A UpdateError) : only ok (lift r : Svc A).
Proof using. done. Qed.
Lemma only_some {A} (ok : ∀ X, UpdEvent X → bool) (x : option A) e : only ok (some_or x e).
Proof using. by destruct x. Qed.
End Runs.

(** The events of a program, one by one. *)
Ltac keeps_to :=
  unfold tableless, reading;
  repeat first
    [ done
    | apply only_pbind; [|intros ?]
    | apply only_sbind; [|intros ?]
    | apply only_require | apply only_lift | apply only_some | apply only_digest; done
    | apply only_store; done | apply only_tried; done
    | progress (intros)
    | match goal with
      | |- only _ (Call _ _) => split; [done|]
      | |- only _ (if ?b then _ else _) => destruct b
      | |- only _ (match ?x with _ => _ end) => destruct x
      end ].
