(* ===== verification/UpdaterDemo.v ===== *)
(** * A machine to run the updater on

    Concrete stand-ins for serde_json, SHA-256, base64 and ed25519, an
    operator's key, two releases it signed, and the worlds a quiet host reaches
    with them: the inputs of the witnesses. *)
From S2P Require Import Prelude Strings Bytes Effects Rely UpdaterManifest UpdaterCanonical UpdaterStore UpdaterInstall UpdaterService UpdaterRelease UpdaterSystem UpdaterInv UpdaterQuiet.
#[local] Open Scope string_scope.
#[local] Open Scope N_scope.

(** ** The stand-ins *)
#[local] Arguments String.append !_ _ / : assert.
Definition nibble (n : N) : ascii := ascii_of_N (if n <? 10 then 48 + n else 87 + n).
Fixpoint hex_of (s : string) : string :=
  match s with
  | EmptyString => ""
  | String c s => String (nibble (N_of_ascii c / 16)) (String (nibble (N_of_ascii c mod 16)) (hex_of s))
  end.
Definition zeros : string := "0000000000000000000000000000000000000000000000000000000000000000".
Definition demo_hash (s : string) : string := substring 0 64 (hex_of s ++ zeros).
Fixpoint of_pos (p : positive) : string :=
  match p with xH => "" | xO p => String "0" (of_pos p) | xI p => String "1" (of_pos p) end.
Fixpoint to_pos (s : string) : positive :=
  match s with EmptyString => xH | String c s => if bool_decide (c = "0"%char) then xO (to_pos s) else xI (to_pos s) end.
Lemma to_of_pos p : to_pos (of_pos p) = p.
Proof. by induction p as [p IH|p IH|]; cbn; rewrite ?IH. Qed.
Definition demo_quote (s : string) : string := String quote (of_pos (encode s) ++ String quote "").

Definition demo_key : TrustedKey := MkKey "operator" "pppppppppppppppppppppppppppppppp".
Definition any_version : VersionRange := MkRange None None.
Definition demo_digest (payload : string) : string := demo_hash payload.
Definition demo_unsigned (channel : Channel) (version : string) (generation : option N) (payload : string) : UpdateManifest :=
  MkManifest UPDATE_MANIFEST_SCHEMA channel version "aaaaaaaaaaaaaaaaaaaaaaaaaaaaaaaaaaaaaaaa" generation
    [MkArtifact ("faktor-" ++ version) "linux" "x86_64" (demo_digest payload) ("https://h/" ++ version) None]
    (MkCompat any_version any_version any_version any_version (MkSchema 0 9)) 1 100000 None None.
Definition demo_release (m : UpdateManifest) : UpdateManifest :=
  MkManifest (mf_schema m) (mf_channel m) (mf_version m) (mf_commit m) (mf_release_generation m) (mf_artifacts m)
    (mf_compatibility m) (mf_issued_at m) (mf_expires_at m) (mf_certification m)
    (Some (MkManifestSignature "ed25519" "operator" (tk_public_key demo_key) zeros)).
Definition old_release : UpdateManifest := demo_release (demo_unsigned Stable "1.0" (Some 1) "old").
Definition new_release : UpdateManifest := demo_release (demo_unsigned Stable "2.0" (Some 2) "new").
(** Signed, with a generation past [i64::MAX]. *)
Definition vast_release : UpdateManifest := demo_release (demo_unsigned Stable "3.0" (Some (2 ^ 63)) "vast").
Definition demo_manifests : list (string * UpdateManifest) :=
  [("old-manifest", old_release); ("new-manifest", new_release); ("vast-manifest", vast_release)].
#[export] Instance demo_wire : ReleaseWire := {|
  json_string := demo_quote;
  parse_manifest s := snd <$> List.find (λ e, bool_decide (e.1 = s)) demo_manifests;
  sha256_hex := demo_hash; base64_encode s := s; base64_decode := Some; valid_point _ := true;
  ed25519_verify _ _ s := bool_decide (s = zeros) |}.

Lemma of_pos_closed p1 p2 r1 r2 :
  of_pos p1 ++ String quote r1 = of_pos p2 ++ String quote r2 → p1 = p2 ∧ r1 = r2.
Proof.
  revert p2. induction p1 as [p IH|p IH|]; intros [p2|p2|] E; cbn in E; try done.
  - injection E as E. by destruct (IH p2 E) as [-> ->].
  - injection E as E. by destruct (IH p2 E) as [-> ->].
  - by injection E as ->.
Qed.
#[export] Instance demo_json : LawfulJson.
Proof.
  split; [intros s; by eexists|]. intros s1 s2 r1 r2. unfold json_string, demo_wire, demo_quote. cbn.
  rewrite !append_assoc. cbn. intros [= [E ->]%of_pos_closed]. by apply (inj encode) in E.
Qed.

Definition pointer_tuple (p : InstallPointer) :=
  (ip_schema p, ip_artifact p, ip_digest p, ip_version p, ip_channel p, ip_applied_ms p, ip_release_id p).
Definition tuple_pointer (x : string * string * string * string * string * Z * option string) : InstallPointer :=
  let '(s, a, d, v, c, t, r) := x in MkPointer s a d v c t r.
#[export] Instance demo_install : InstallWire := {|
  pointer_json p := of_pos (encode (pointer_tuple p));
  parse_pointer s := tuple_pointer <$> decode (to_pos s);
  trust_json t := of_pos (encode (tf_schema t, tf_keys t));
  parse_trust s := (λ x : string * list (string * string), MkTrust x.1 x.2) <$> decode (to_pos s) |}.
#[export] Instance demo_lawful : LawfulInstall.
Proof. intros []. cbn [pointer_json parse_pointer demo_install]. by rewrite to_of_pos, decode_encode. Qed.

(** ** Runs *)
Definition demo_config : UpdaterConfig := MkConfig Stable [demo_key] 1000 0 "linux" "x86_64" "0.9" false.
Definition demo_running : RunningComponents := MkRunning None None None None (Some 1).
Definition demo_serves (url : string) : string :=
  if bool_decide (url = "https://h/1.0") then "old"
  else if bool_decide (url = "https://h/2.0") then "new" else "vast".
Definition demo_host : Host := MkHost demo_serves (λ _, true) None (λ p, Some (ip_digest p)).
Definition demo_run (n : nat) (m : Method) (w : World) : option Answer * World :=
  run (λ X, @handle _ demo_host n X) (run_method demo_config m) w.
Definition stage_old : Method := MStage "old-manifest" demo_running None 10.
Definition stage_new : Method := MStage "new-manifest" demo_running None 20.
Definition stage_vast : Method := MStage "vast-manifest" demo_running None 20.
(** The worlds after installing the old release, then the new one. *)
Definition world_after (n : nat) (m : Method) (w : World) : World := (demo_run n m w).2.
Definition old_installed : World := world_after 1 (MApply 12) (world_after 0 stage_old empty_world).
Definition new_staged : World := world_after 2 stage_new old_installed.
Definition new_installed : World := world_after 3 (MApply 22) new_staged.
(** The new release's apply, dead right after the pointer swap. *)
Definition apply_cut : World := cut (λ X, @handle _ demo_host 3%nat X) 14 (run_method demo_config (MApply 22)) new_staged.
Definition vast_staged : World := world_after 2 stage_vast old_installed.
Definition back_to_old : Method := MDowngrade "old-manifest" demo_running None (Some "operator") 30.
Lemma old_reached : reached demo_config 2 old_installed.
Proof. do 2 apply reached_run. apply reached_empty. Qed.
Lemma new_staged_reached : reached demo_config 3 new_staged.
Proof. apply reached_run, old_reached. Qed.
Lemma new_reached : reached demo_config 4 new_installed.
Proof. apply reached_run, new_staged_reached. Qed.
Lemma apply_cut_reached : reached demo_config 4 apply_cut.
Proof. apply reached_cut, new_staged_reached. Qed.
Lemma vast_reached : reached demo_config 3 vast_staged.
Proof. apply reached_run, old_reached. Qed.

Lemma signature_covers_the_manifest_witness : signing_payload old_release ≠ signing_payload new_release.
Proof. intros E%signature_covers_the_manifest. discriminate E. Defined.
