(* ===== verification/UpdaterThms.v ===== *)
(** * What the updater guarantees

    Whatever processes run its methods, in whatever interleaving, failing and
    dying anywhere: the install is what an allowlisted key signed, an
    anti-rollback floor is earned, falls only by a recorded downgrade, and a
    launch hands out only what it just authenticated. *)
From S2P Require Import Prelude Strings Bytes Effects Rely UpdaterManifest UpdaterStore UpdaterInstall UpdaterService UpdaterRelease UpdaterSystem UpdaterInv UpdaterCalls UpdaterLogic UpdaterSafe UpdaterReleaseSafe UpdaterQuiet UpdaterDemo.
#[local] Open Scope string_scope.
#[local] Open Scope N_scope.

Section Reachable.
Context `{RW : ReleaseWire, IW : InstallWire, LI : !LawfulInstall}.
Variable cfg : UpdaterConfig.
Notation any := (λ _ _, True).

Lemma methods_safe p t w :
  is_method cfg p → Inv cfg w → Rely.safe (λ t X, @answer _ t X) (rely cfg) (guar cfg) t any p w.
Proof using LI.
  intros [m ->] Hi. eapply rely_weaken; [|by apply run_method_safe]. done.
Qed.
Lemma updater_initial_ok : threads_ok (λ t X, @answer _ t X) (Inv cfg) evolves (rely cfg) (guar cfg) any (initial : System Answer).
Proof using.
  split_and!; [|done|by intros ?? ?%elem_of_nil].
  split; cbn; try done; try (by intros ? ?%elem_of_nil); [apply NoDup_nil_2|]. intros c. by left.
Qed.
Lemma reachable_updater_ok s :
  reachable cfg s → threads_ok (λ t X, @answer _ t X) (Inv cfg) evolves (rely cfg) (guar cfg) any s.
Proof using LI.
  intros Hr. by eapply (system_steps_ok _ _ _ _ _ (laws cfg)) in Hr as [? _]; [| |exact updater_initial_ok]; [|exact methods_safe].
Qed.
Lemma reachable_updater_inv s : reachable cfg s → Inv cfg (world s).
Proof using LI. by intros [? _]%reachable_updater_ok. Qed.
Lemma reached_inv n w : reached cfg n w → Inv cfg w.
Proof using LI. by intros (ts & r & ?%reachable_updater_inv). Qed.
Lemma steps_evolve s s' : reachable cfg s → rtc (updater_step cfg) s s' → evolves (world s) (world s').
Proof using LI.
  intros Hr%reachable_updater_ok Hs. by eapply (system_steps_ok _ _ _ _ _ (laws cfg)) in Hs as [_ ?]; [| |exact Hr]; [|exact methods_safe].
Qed.
End Reachable.

(** ** The install *)
Section Install.
Context `{RW : ReleaseWire, IW : InstallWire, LI : !LawfulInstall}.
Variable cfg : UpdaterConfig.

(** In every reachable state, a channel whose anti-rollback floor is above zero got it from a manifest
    of that channel an allowlisted key signed, with that very generation, one of whose artifacts is
    published and hashes to its digest: a download that fails, or a forged manifest, never moves a floor. *)
Lemma floor_is_earned s c :
  reachable cfg s → 0 < floor_of (marks (world s)) c →
  ∃ m a n bytes, signed cfg m ∧ channel_str (mf_channel m) = c ∧ release_generation m = floor_of (marks (world s)) c
    ∧ a ∈ mf_artifacts m ∧ files (world s) !! ArtifactAt n (af_sha256 a) = Some bytes ∧ sha256_hex bytes = af_sha256 a.
Proof using LI.
  intros Hi%reachable_updater_inv Hc. destruct (inv_mark _ _ Hi c) as [E|(m & a & n & Hs & Hch & Hg & Ha & bytes & Hb & Hh)]; [lia|].
  exists m, a, n, bytes. by rewrite <- Hg.
Qed.

(** C4: Whatever processes run the updater's methods, in whatever interleaving, with calls failing and
    processes dying anywhere: if an install pointer exists it parses, is valid and names an artifact of a
    manifest an allowlisted key signed, by that manifest's version, digest and file name, and the bytes
    under the content-addressed name are there and hash to the digest; and the binary in every release
    directory hashes to an artifact of a signed manifest, whose version and digest spell the directory's
    name; and an anti-rollback floor above zero is the generation of a signed manifest of the channel, one
    of whose artifacts is published and hashes to its digest: no failed download or forgery moves a floor. *)
Theorem install_is_authentic s :
  reachable cfg s →
  (∀ b, files (world s) !! Current = Some b →
     ∃ p m a bytes, parse_pointer b = Some p ∧ pointer_valid p = true
       ∧ signed cfg m ∧ a ∈ mf_artifacts m
       ∧ ip_version p = mf_version m ∧ ip_digest p = af_sha256 a ∧ ip_artifact p = af_name a
       ∧ files (world s) !! ArtifactAt (ip_artifact p) (ip_digest p) = Some bytes ∧ sha256_hex bytes = ip_digest p)
  ∧ (∀ r bytes, files (world s) !! BinaryIn (Final r) = Some bytes →
     ∃ m a, signed cfg m ∧ a ∈ mf_artifacts m ∧ sha256_hex bytes = af_sha256 a
       ∧ r = release_id_for (mf_version m) (af_sha256 a))
  ∧ (∀ c, 0 < floor_of (marks (world s)) c →
     ∃ m a n bytes, signed cfg m ∧ channel_str (mf_channel m) = c ∧ release_generation m = floor_of (marks (world s)) c
       ∧ a ∈ mf_artifacts m ∧ files (world s) !! ArtifactAt n (af_sha256 a) = Some bytes ∧ sha256_hex bytes = af_sha256 a).
Proof using LI.
  intros Hr. pose proof (reachable_updater_inv _ _ Hr) as Hi. split_and!; [| |by intros c; apply floor_is_earned].
  - intros b (p & -> & Hv & ((m & a & Hs & Ha & Hver & Hd & Hn) & bytes & Hb & Hh) & _)%(inv_pointer _ _ Hi).
    exists p, m, a, bytes. by rewrite parse_pointer_json.
  - intros r bytes (v & n & -> & m & a & Hs & Ha & <- & Hd & _)%(inv_binary _ _ Hi).
    exists m, a. by rewrite Hd.
Qed.

(** C5: From any reachable state on, whatever happens: a row of the operation table is never lost nor
    rewritten but for its status and time; a published artifact stays; a spent legacy allowance stays
    spent; and if a channel's floor is later lower than it was, the table holds a downgrade of that
    channel, made from a signed manifest of the channel whose generation the floor has not fallen below. *)
Theorem floor_falls_only_by_a_recorded_downgrade s s' :
  reachable cfg s → rtc (updater_step cfg) s s' →
  (∀ o, o ∈ rows (world s) → ∃ o', o' ∈ rows (world s') ∧ core o' = core o)
  ∧ (∀ n d bytes, files (world s) !! ArtifactAt n d = Some bytes → sha256_hex bytes = d
       ∧ ∃ bytes', files (world s') !! ArtifactAt n d = Some bytes' ∧ sha256_hex bytes' = d)
  ∧ (∀ c, legacy_spent (marks (world s)) c = true → legacy_spent (marks (world s')) c = true)
  ∧ ∀ c, floor_of (marks (world s')) c < floor_of (marks (world s)) c →
      ∃ o m g, o ∈ rows (world s') ∧ op_kind o = KDowngrade ∧ op_channel o = Some c ∧ op_release_generation o = Some g
        ∧ signed cfg m ∧ channel_str (mf_channel m) = c ∧ mf_release_generation m = Some g
        ∧ op_after_version o = Some (mf_version m) ∧ g <= floor_of (marks (world s')) c.
Proof using LI.
  intros Hr Hs. pose proof (reachable_updater_inv _ _ Hr) as Hi. pose proof (steps_evolve _ _ _ Hr Hs) as Hev.
  assert (Hi' : Inv cfg (world s')) by by eapply reachable_updater_inv, steps_trans.
  split_and!; [apply Hev| |apply Hev|].
  - intros n d bytes Hb. pose proof (inv_artifact _ _ Hi _ _ _ Hb). split; [done|]. apply (ev_files _ _ Hev). by exists bytes.
  - intros c (o & g & Ho & (Hk & Hc & Hg) & Hle)%(ev_floor _ _ Hev).
    destruct (inv_core _ _ Hi' _ Ho) as [Hsrc _]. unfold source_ok in Hsrc. rewrite Hk in Hsrc.
    destruct Hsrc as (m & (Hsg & Hch & Hv & _) & Hgm & _). exists o, m, g. rewrite Hg in Hgm. rewrite Hch in Hc.
    split_and!; try congruence; done.
Qed.
End Install.

Lemma install_is_authentic_witness :
  ∃ (s : System Answer) b, reachable demo_config s ∧ files (world s) !! Current = Some b ∧ 0 < floor_of (marks (world s)) "stable"
    ∧ (∃ p m a bytes, parse_pointer b = Some p ∧ pointer_valid p = true
       ∧ signed demo_config m ∧ a ∈ mf_artifacts m
       ∧ ip_version p = mf_version m ∧ ip_digest p = af_sha256 a ∧ ip_artifact p = af_name a
       ∧ files (world s) !! ArtifactAt (ip_artifact p) (ip_digest p) = Some bytes ∧ sha256_hex bytes = ip_digest p)
    ∧ ∃ m a n bytes, signed demo_config m ∧ channel_str (mf_channel m) = "stable"
       ∧ release_generation m = floor_of (marks (world s)) "stable"
       ∧ a ∈ mf_artifacts m ∧ files (world s) !! ArtifactAt n (af_sha256 a) = Some bytes ∧ sha256_hex bytes = af_sha256 a.
Proof.
  destruct old_reached as (ts & r & Hr). eexists _, _. split; [exact Hr|].
  assert (Hb : files old_installed !! Current = Some (pointer_json (MkPointer INSTALL_POINTER_SCHEMA "faktor-1.0" (demo_digest "old") "1.0" "stable" 12 None)))
    by (vm_compute; reflexivity).
  assert (Hf : 0 < floor_of (marks old_installed) "stable") by (vm_compute; reflexivity).
  split; [exact Hb|]. split; [exact Hf|]. destruct (install_is_authentic demo_config _ Hr) as (Hp & _ & Hm).
  split; [by apply Hp|by apply Hm].
Defined.
Lemma floor_falls_only_by_a_recorded_downgrade_witness :
  ∃ s s' : System Answer, reachable demo_config s ∧ rtc (updater_step demo_config) s s'
    ∧ floor_of (marks (world s')) "stable" < floor_of (marks (world s)) "stable"
    ∧ ∃ o m g, o ∈ rows (world s') ∧ op_kind o = KDowngrade ∧ op_channel o = Some "stable" ∧ op_release_generation o = Some g
        ∧ signed demo_config m ∧ channel_str (mf_channel m) = "stable" ∧ mf_release_generation m = Some g
        ∧ op_after_version o = Some (mf_version m) ∧ g <= floor_of (marks (world s')) "stable".
Proof.
  destruct new_reached as (ts & r & Hr). destruct (run_from demo_config demo_host 4 new_installed ts r back_to_old) as (s' & Hs & Hw).
  eexists _, s'. split; [exact Hr|]. split; [exact Hs|].
  assert (Hf : floor_of (marks (world s')) "stable" < floor_of (marks new_installed) "stable")
    by (rewrite Hw; vm_compute; reflexivity).
  split; [exact Hf|].
  by apply (proj2 (proj2 (proj2 (floor_falls_only_by_a_recorded_downgrade demo_config _ _ Hr Hs)))).
Defined.

(** ** Launching *)
Section Launch.
Context `{RW : ReleaseWire, IW : InstallWire}.

(** A run of [resolve_launch] that answers a target, as the calls it makes. *)
Definition launch_calls (b manifest : string) (size_m size_b : N) (target : ReleaseTarget) : list (Seen (E := UpdEvent)) :=
  let release := Final (rt_release_id target) in
  [seen (ReadFile Current) (FContent b); seen (Stat (ManifestIn release)) (SRegular size_m);
   seen (Stat (BinaryIn release)) (SRegular size_b); seen (ReadFile (ManifestIn release)) (FContent manifest);
   seen (Digest (BinaryIn release)) (Some (rt_digest target))].
Lemma traces_require {A} b e (k : unit → Svc A) tr x :
  traces (sbind (require b e) k) tr (Ok x) ↔ b = true ∧ traces (k tt) tr (Ok x).
Proof using. destruct b; cbn; [by intuition|]. split; [by intros [_ [=]]|by intros [[=] _]]. Qed.
Lemma traces_some {A B} (o : option A) e (k : A → Svc B) tr x :
  traces (sbind (some_or o e) k) tr (Ok x) ↔ ∃ a, o = Some a ∧ traces (k a) tr (Ok x).
Proof using.
  destruct o as [a|]; cbn; [split; [by eauto|by intros (? & [= <-] & ?)]|].
  split; [by intros [_ [=]]|by intros (? & [=] & _)].
Qed.
Lemma traces_lift {A B} (r : result A UpdateError) (k : A → Svc B) tr x :
  traces (sbind (lift r) k) tr (Ok x) ↔ ∃ a, r = Ok a ∧ traces (k a) tr (Ok x).
Proof using.
  destruct r as [a|e]; cbn; [split; [by eauto|by intros (? & [= <-] & ?)]|].
  split; [by intros [_ [=]]|by intros (? & [=] & _)].
Qed.
Lemma traces_digest {B} p e (k : string → Svc B) tr x :
  traces (sbind (digest_of p e) k) tr (Ok x) ↔
  ∃ d tr', tr = seen (Digest p) (Some d) :: tr' ∧ traces (k d) tr' (Ok x).
Proof using.
  cbn. split; [|by intros (d & tr' & -> & ?); exists (Some d), tr'].
  intros ([d|] & tr' & -> & Ht); [by eauto|]. by destruct Ht as [_ [=]].
Qed.
Lemma traces_pointer {B} (k : option InstallPointer → Svc B) tr x :
  traces (sbind read_pointer k) tr (Ok x) ↔
  ∃ tr', tr = seen (ReadFile Current) FAbsent :: tr' ∧ traces (k None) tr' (Ok x)
    ∨ ∃ b p, tr = seen (ReadFile Current) (FContent b) :: tr' ∧ parse_pointer b = Some p ∧ pointer_valid p = true
        ∧ traces (k (Some p)) tr' (Ok x).
Proof using.
  cbn. split.
  - intros ([|b|] & tr' & -> & Ht); cbn in Ht; [by eauto| |by destruct Ht as [_ [=]]].
    destruct (parse_pointer b) as [p|] eqn:E; [|by destruct Ht as [_ [=]]].
    destruct (pointer_valid p) eqn:V; [|by destruct Ht as [_ [=]]]. exists tr'. right. by exists b, p.
  - intros (tr' & [[-> Ht]|(b & p & -> & Hp & Hv & Ht)]); [by exists FAbsent, tr'|].
    exists (FContent b), tr'. by rewrite Hp, Hv.
Qed.

(** C6: [resolve_launch] answers a target exactly when, whatever the files said: it read a pointer that
    parses, is valid and names the target's release, version, channel and digest; some key is trusted; the
    release's manifest is a non-empty file that parses, validates and is signed by an allowlisted key, says
    the target's version and channel and lists the target's digest; and the last thing it did was hash the
    release's binary, which gave that digest. *)
Theorem launch_takes_a_signature keys tr target :
  traces (resolve_launch keys) tr (Ok target) ↔
  ∃ b manifest p m size_m size_b,
    tr = launch_calls b manifest size_m size_b target
    ∧ parse_pointer b = Some p ∧ pointer_valid p = true
    ∧ ip_release_id p = Some (rt_release_id target) ∧ ip_version p = rt_version target
    ∧ ip_channel p = rt_channel target ∧ ip_digest p = rt_digest target
    ∧ keys ≠ [] ∧ 0 < size_m
    ∧ manifest_parse manifest = Ok m ∧ is_ok (authenticate m keys) = true
    ∧ mf_version m = rt_version target ∧ channel_str (mf_channel m) = rt_channel target
    ∧ ∃ a, a ∈ mf_artifacts m ∧ af_sha256 a = rt_digest target.
Proof using.
  unfold resolve_launch. split.
  - intros (tr1 & [[_ Ht]|(b & p & -> & Hp & Hv & Ht)])%traces_pointer; [by apply traces_some in Ht as (? & [=] & _)|].
    apply traces_some in Ht as (? & [= <-] & (r & Hr & Ht)%traces_some).
    apply traces_require in Ht as (_ & (Hk%negb_true_iff & ([| n| |] & tr2 & -> & (Hs & Ht)%traces_require))%traces_require);
      try done. cbn in Hs. apply N.ltb_lt in Hs.
    destruct Ht as ([| n'| |] & tr3 & -> & (Hreg & Ht)%traces_require); try done.
    destruct Ht as ([|manifest|] & tr4 & -> & Ht); try by destruct Ht as [_ [=]].
    apply traces_lift in Ht as (m & Hm & (Hver & (Hch & (Hl & Ht)%traces_require)%traces_require)%traces_require).
    apply traces_digest in Ht as (d & tr5 & -> & (Hd & [-> [= ->]])%traces_require). cbn.
    apply bool_decide_eq_true in Hver, Hch, Hd. apply bool_decide_eq_false in Hk. subst d.
    apply List.existsb_exists in Hl as (a & Ha%list_elem_of_In & Hsha%bool_decide_eq_true).
    unfold verify_manifest_at_launch in Hm. destruct (manifest_parse manifest) as [m'|] eqn:Hmp; [|done].
    cbn in Hm. destruct (authenticate m' keys) eqn:Hau; [|done]. injection Hm as ->.
    exists b, manifest, p, m, n, n'. split_and!; try done. + by rewrite Hau. + by exists a.
  - intros (b & manifest & p & m & sm & sb & -> & Hp & Hv & Hr & Hver & Hch & Hd & Hk & Hs & Hm & Hau & Hmv & Hmc & a & Ha & Hsha).
    apply traces_pointer. eexists. right. exists b, p. split_and!; [done..|].
    apply traces_some. eexists. split; [done|]. apply traces_some. exists (rt_release_id target). split; [done|].
    apply traces_require. split.
    { revert Hv. unfold pointer_valid. rewrite Hr. by intros [_ ?]%andb_prop. }
    apply traces_require. split; [by rewrite bool_decide_false|]. eexists _, _. split; [done|].
    apply traces_require. split; [by apply N.ltb_lt|]. eexists _, _. split; [done|]. apply traces_require. split; [done|].
    eexists _, _. split; [done|]. cbn. apply traces_lift. exists m.
    split. { unfold verify_manifest_at_launch. rewrite Hm. cbn. by destruct (authenticate m keys). }
    apply traces_require. split; [apply bool_decide_eq_true; congruence|].
    apply traces_require. split; [apply bool_decide_eq_true; congruence|].
    apply traces_require. split.
    { apply List.existsb_exists. exists a. split; [by apply list_elem_of_In|apply bool_decide_eq_true; congruence]. }
    apply traces_digest. eexists _, _. split; [done|]. apply traces_require. split; [by rewrite bool_decide_true|].
    split; [done|]. rewrite Hver, Hch, Hd. by destruct target.
Qed.
End Launch.
