(* ===== verification/UpdaterRecovery.v ===== *)
(** * Recovery on a machine where nothing fails

    What [recover] does with each interrupted operation, and that it leaves
    none behind. *)
From stdpp Require Import sorting.
From S2P Require Import Prelude Strings Bytes Effects Rely UpdaterManifest UpdaterStore UpdaterInstall UpdaterService UpdaterRelease UpdaterSystem UpdaterInv UpdaterCalls UpdaterLogic UpdaterSafe UpdaterReleaseSafe UpdaterQuiet UpdaterRuns UpdaterThms UpdaterDemo.
#[local] Open Scope string_scope.
#[local] Open Scope N_scope.
#[local] Open Scope prog_scope.

Definition outcome_id (x : RecoveryOutcome) : string :=
  match x with Abandoned id | Resumed id | RecoveredBack id | NeedsVerification id => id end.
(** The status a recovered operation ends in. *)
Definition settled_as (k : UpdateOpKind) (x : RecoveryOutcome) : UpdateOpStatus :=
  match x with
  | Abandoned _ => SFailed
  | Resumed _ => if bool_decide (k = KRollback) then SRolledBack else SApplied
  | RecoveredBack _ => SRolledBack
  | NeedsVerification _ => SUnverified
  end.

Section Recovery.
Context `{RW : ReleaseWire, IW : InstallWire, LI : !LawfulInstall}.
Variable cfg : UpdaterConfig.
Variable host : Host.
Variable t : nat.
Variable now : Z.
Notation wp := (UpdaterRuns.wp host t).

Lemma reading_previous o : reading (previous_pointer o).
Proof using. unfold previous_pointer, with_launch_release, release_id_if_materialized. keeps_to. Qed.
Lemma reading_reauthenticate o p : reading (reauthenticate_recovered_release cfg o p).
Proof using. unfold reauthenticate_recovered_release, high_water. keeps_to. Qed.
Lemma reading_published o : reading (stage_artifact_published o).
Proof using. unfold stage_artifact_published. keeps_to. Qed.
Lemma tableless_restore p : tableless (restore_previous p).
Proof using. unfold restore_previous, remove_pointer, write_pointer. keeps_to. Qed.
Lemma tableless_owed o : tableless (owed_reset cfg o now).
Proof using. unfold owed_reset, set_high_water, reread_mark, high_water. keeps_to. Qed.
Lemma reading_tableless {A} (p : Prog A) : reading p → tableless p.
Proof using.
  unfold reading, tableless. induction p as [a| |X e k IH]; cbn; [done..|]. intros [He Hk]. split; [by destruct e|]. auto.
Qed.
#[local] Hint Resolve reading_tableless reading_previous reading_reauthenticate reading_published tableless_restore
  tableless_owed : core.

(** ** What a signed artifact's name and digest are *)
Lemma shape_Ok b : shape b = Ok tt → b = true.
Proof using. by destruct b. Qed.
Lemma artifacts_ok_elem l a : ∀ names, artifacts_ok names l = true → a ∈ l → artifact_ok a = true.
Proof using.
  induction l as [|b l IH]; intros names; [by intros _ ?%elem_of_nil|]. cbn.
  intros [[Hb _]%andb_prop Hl]%andb_prop [->|Ha]%elem_of_cons; [done|by eapply IH].
Qed.
Lemma signed_artifact m a : signed cfg m → a ∈ mf_artifacts m → artifact_ok a = true.
Proof using.
  intros [Hv _] Ha. unfold manifest_validate in Hv.
  do 4 apply rbind_Ok in Hv as ([] & _ & Hv). apply rbind_Ok in Hv as ([] & Hl%shape_Ok & _). by eapply artifacts_ok_elem.
Qed.
Lemma signed_plain m a : signed cfg m → a ∈ mf_artifacts m → plain_artifact_name (af_name a) = true ∧ is_lower_hex (af_sha256 a) 64 = true.
Proof using.
  intros Hs Ha. pose proof (signed_artifact m a Hs Ha) as Hok. unfold artifact_ok in Hok.
  repeat (apply andb_prop in Hok as [Hok ?]). unfold token_ok in *. split; [|done].
  unfold plain_artifact_name. apply andb_true_intro. split; [|done]. by destruct (af_name a).
Qed.
Lemma fresh_pointer_valid n d v c at_ms :
  plain_artifact_name n = true → is_lower_hex d 64 = true →
  pointer_valid (MkPointer INSTALL_POINTER_SCHEMA n d v c at_ms None) = true.
Proof using. unfold plain_artifact_name, pointer_valid. cbn. by intros [-> ->]%andb_prop ->. Qed.

(** ** Statements of the table *)
Lemma known_rows o w w' : rows w' = rows w → known o w → known o w'.
Proof using. intros E (r & ? & ?). exists r. by rewrite E. Qed.
Lemma wp_update o w : known o w → wp (λ r w', r = Ok tt ∧ w' = on_rows (fmap (replaced o)) w) (store (Update o)) w.
Proof using.
  intros (r & Hr & Hc). unfold UpdaterRuns.wp. cbn. unfold update_row.
  destruct (get_row (op_id o) (rows w)) eqn:E; [done|]. exfalso. apply (get_row_None _ _ E).
  destruct (core_fields _ _ Hc) as [<- _]. by apply list_elem_of_fmap_2.
Qed.
Lemma wp_insert o w : op_id o ∉ op_id <$> rows w →
  wp (λ r w', r = Ok tt ∧ w' = on_rows (λ rs, rs ++ [o])%list w) (store (Insert o)) w.
Proof using.
  intros Hid. unfold UpdaterRuns.wp. cbn. unfold insert_row. destruct (get_row (op_id o) (rows w)) eqn:E; [|done].
  exfalso. apply Hid. apply get_row_Some in E as [? <-]. by apply list_elem_of_fmap_2.
Qed.

(** ** One operation *)
(** The table after: the operation's row settled as the outcome says, at most a finished row more. *)
Definition recovered (o : UpdateOperation) (rs : Rows) (r : result RecoveryOutcome UpdateError) (w' : World) : Prop :=
  ∃ x extra, r = Ok x ∧ outcome_id x = op_id o
    ∧ rows w' = ((replaced (settle_op (settled_as (op_kind o) x) now o) <$> rs) ++ extra)%list
    ∧ ∀ e, e ∈ extra → op_status e ≠ SRunning.
Lemma op_id_settle s o : op_id (settle_op s now o) = op_id o.
Proof using. by destruct o. Qed.
Lemma wp_settled o x rs w :
  rows w = rs → known o w → outcome_id x = op_id o →
  wp (recovered o rs) (store (Update (settle_op (settled_as (op_kind o) x) now o));; sret x) w.
Proof using.
  intros <- Ho Hx. apply wp_sbind. eapply wp_mono; [|by apply wp_update, known_settle].
  intros ? ? [-> ->]. exists x, []. rewrite app_nil_r. split_and!; [done..|]. by intros e ?%elem_of_nil.
Qed.
Lemma wp_needs_verification o rs w : rows w = rs → known o w → wp (recovered o rs) (needs_verification o now) w.
Proof using. intros Hw Ho. by apply (wp_settled o (NeedsVerification (op_id o))). Qed.
Lemma wp_abandon o rs w : rows w = rs → known o w → wp (recovered o rs) (abandon o now) w.
Proof using. intros Hw Ho. by apply (wp_settled o (Abandoned (op_id o))). Qed.
Lemma wp_prefix {A B} (p : Prog A) (f : A → Prog B) (Q : B → World → Prop) o rs w :
  rows w = rs → known o w → tableless p →
  (∀ a w', rows w' = rs → known o w' → wp Q (f a) w') → wp Q (pbind p f) w.
Proof using.
  intros Hw Ho Hp Hf. apply wp_pbind. eapply wp_mono; [|by apply wp_tableless]. intros a w' E.
  cbv beta in E. apply Hf; [congruence|]. by eapply known_rows.
Qed.
Lemma wp_recover_swapped o p running rs w :
  rows w = rs → known o w → op_kind o ≠ KRollback → wp (recovered o rs) (recover_swapped cfg o p now running) w.
Proof using.
  intros Hw Ho Hk. unfold recover_swapped. case_match; [by apply wp_needs_verification|].
  eapply wp_prefix; [eassumption..|by auto|]. intros authentic w1 Hw1 Ho1.
  destruct authentic; cbn [negb]; [|by apply wp_needs_verification].
  apply wp_call. cbn [handle fst snd]. destruct (healthy host p).
  - eapply wp_prefix; [eassumption..|by auto|]. intros [[]|e] w2 Hw2 Ho2; [|by apply wp_needs_verification].
    pose proof (wp_settled o (Resumed (op_id o)) rs w2 Hw2 Ho2 eq_refl) as Hr. cbn in Hr.
    by rewrite bool_decide_false in Hr by done.
  - eapply wp_prefix; [eassumption..|by auto|]. intros [previous|e] w2 Hw2 Ho2; [|by apply wp_needs_verification].
    eapply wp_prefix; [eassumption..|by auto|]. intros [] w3 <- Ho3. apply wp_sbind.
    eapply wp_mono; [|by apply wp_update, known_settle]. intros ? w4 [-> ->].
    apply wp_sbind. unfold record_rollback. apply wp_call. cbn [handle fst snd].
    eapply wp_mono; [|apply wp_insert; exact (proj2 (mint_fresh _))]. intros ? w5 [-> ->].
    exists (RecoveredBack (op_id o)). eexists. split_and!; [done..|]. by intros e ->%list_elem_of_singleton.
Qed.
Lemma wp_read_pointer w :
  Inv cfg w → wp (λ r w', ∃ p, r = Ok p ∧ w' = w) read_pointer w.
Proof using LI.
  intros Hi. apply wp_call. cbn. destruct (files w !! Current) as [b|] eqn:E; [|by exists None].
  destruct (inv_pointer _ _ Hi _ E) as (p & -> & Hv & _). rewrite parse_pointer_json, Hv. by exists (Some p).
Qed.
Lemma wp_recover_apply o running rs w :
  Inv cfg w → rows w = rs → known o w → op_kind o ≠ KRollback → wp (recovered o rs) (recover_apply cfg o now running) w.
Proof using LI.
  intros Hi Hw Ho Hk. apply wp_sbind. eapply wp_mono; [|by apply wp_read_pointer]. intros ? ? [current [-> ->]].
  cbv zeta. repeat (match goal with |- UpdaterRuns.wp _ _ _ (match ?x with _ => _ end) _ => destruct x end);
    auto using wp_needs_verification, wp_abandon, wp_recover_swapped.
Qed.
Lemma wp_recover_rollback o rs w :
  Inv cfg w → rows w = rs → known o w → op_kind o = KRollback → wp (recovered o rs) (recover_rollback cfg o now) w.
Proof using LI.
  intros Hi Hw Ho Hk. apply wp_sbind. eapply wp_mono; [|by apply wp_read_pointer]. intros ? ? [current [-> ->]].
  destruct current as [p|]; [|by apply wp_needs_verification]. case_match; [|by apply wp_needs_verification].
  eapply wp_prefix; [eassumption..|by auto|]. intros [] w1 Hw1 Ho1; cbn [negb]; [|by apply wp_needs_verification].
  pose proof (wp_settled o (Resumed (op_id o)) rs w1 Hw1 Ho1 eq_refl) as Hr. cbn in Hr. by rewrite Hk in Hr.
Qed.

(** The channels of manifests are names the store takes. *)
Lemma channel_valid c : valid_channel (channel_str c) = true.
Proof using. by destruct c. Qed.
Lemma wp_raise c g l w :
  valid_channel c = true → fits_i64 g = true → wp (λ r w', r = Ok tt ∧ w' = on_marks (raise_mark c g l now) w) (raise_high_water c g l now) w.
Proof using.
  intros Hc Hg. unfold raise_high_water, reread_mark, high_water, UpdaterRuns.wp. rewrite Hc, Hg. cbn.
  unfold raise_mark. by destruct (marks w !! c); rewrite lookup_insert_eq.
Qed.
Lemma wp_raise_refused c g l w :
  fits_i64 g = false → wp (λ r w', r = Err Backend ∧ w' = w) (raise_high_water c g l now) w.
Proof using. intros Hg. unfold raise_high_water. by rewrite Hg, andb_false_r. Qed.
Lemma wp_recover_stage o rs w :
  rows w = rs → row_read cfg o w → op_kind o = KStage → fits_i64 (default 0 (op_release_generation o)) = true →
  wp (recovered o rs) (recover_stage cfg o now) w.
Proof using.
  intros Hw (Ho & Hc & _) Hk Hg. apply wp_sbind. apply wp_call. cbn.
  destruct (stage_row_genuine _ _ _ Hc Hk) as (m & _ & _ & _ & _ & _ & Hch & _).
  eapply wp_prefix; [eassumption..|by auto|]. intros [] w1 Hw1 Ho1; [|by apply wp_abandon].
  apply wp_sbind. rewrite Hch. cbn. eapply wp_mono; [|apply wp_raise; [apply channel_valid|done]].
  intros ? ? [-> ->]. by apply wp_abandon.
Qed.
Definition recoverable (o : UpdateOperation) : Prop :=
  op_kind o = KStage → fits_i64 (default 0 (op_release_generation o)) = true.
Lemma wp_recover_one o running rs w :
  Inv cfg w → rows w = rs → row_read cfg o w → recoverable o → wp (recovered o rs) (recover_operation cfg o now running) w.
Proof using LI.
  intros Hi Hw Hr Hg. pose proof Hr as (Ho & _ & _). unfold recover_operation. destruct (op_kind o) eqn:Hk.
  - by apply wp_abandon.
  - apply wp_recover_stage; auto.
  - apply wp_recover_apply; congruence.
  - by apply wp_recover_rollback.
  - apply wp_recover_apply; congruence.
Qed.

(** ** All of them *)
Lemma same_id (rs : Rows) a b : NoDup (op_id <$> rs) → a ∈ rs → b ∈ rs → op_id a = op_id b → a = b.
Proof using.
  intros Hn [i Ha]%list_elem_of_lookup [j Hb]%list_elem_of_lookup Hid.
  assert (i = j) as ->; [|congruence].
  eapply NoDup_lookup; [done|by rewrite list_lookup_fmap, Ha|by rewrite list_lookup_fmap, Hb; cbn; f_equal].
Qed.
Lemma running_ids w : Inv cfg w → NoDup (op_id <$> running_rows (rows w)).
Proof using.
  intros Hi. apply NoDup_fmap_2_strong.
  - intros a b [Ha _]%running_rows_elem [Hb _]%running_rows_elem. by apply (same_id (rows w)); [apply Hi|..].
  - unfold running_rows. rewrite (merge_sort_Permutation older). apply NoDup_filter. eapply NoDup_fmap_1, Hi.
Qed.
Definition settled_row (o : UpdateOperation) (x : RecoveryOutcome) : UpdateOperation :=
  settle_op (settled_as (op_kind o) x) now o.
Lemma replaced_other o r : op_id r ≠ op_id o → replaced o r = r.
Proof using. intros Hn. unfold replaced. by rewrite bool_decide_false. Qed.
Lemma settled_as_terminal k x : settled_as k x ≠ SRunning.
Proof using. destruct x; cbn; try done. by case_bool_decide. Qed.
(** One step: the operation's row is settled, no other one runs that did not. *)
Lemma recovered_rows o rs x w' :
  recovered o rs (Ok x) w' → (∃ r, r ∈ rs ∧ op_id r = op_id o) →
  outcome_id x = op_id o ∧ settled_row o x ∈ rows w'
  ∧ (∀ r, r ∈ rs → op_id r ≠ op_id o → r ∈ rows w')
  ∧ ∀ r, r ∈ rows w' → op_status r = SRunning → r ∈ rs ∧ op_id r ≠ op_id o.
Proof using.
  intros (y & extra & [= <-] & Hid & Hw & Hextra) (r0 & Hr0 & Hi0).
  pose proof (op_id_settle (settled_as (op_kind o) x) o) as Hs. split_and!; [done|..]; rewrite ?Hw.
  - apply elem_of_app. left. apply list_elem_of_fmap. exists r0. split; [|done]. unfold replaced. rewrite Hs. by rewrite bool_decide_true.
  - intros r Hr Hn. apply elem_of_app. left. apply list_elem_of_fmap. exists r. split; [|done].
    rewrite replaced_other; [done|congruence].
  - intros r [(y & -> & Hy)%list_elem_of_fmap|Hr]%elem_of_app Hrun; [|by destruct (Hextra r Hr)].
    unfold replaced in *. rewrite Hs in *. case_bool_decide as E; [|done].
    exfalso. revert Hrun. destruct o. apply settled_as_terminal.
Qed.
Lemma wp_recover_each os running w :
  Inv cfg w → (∀ o, o ∈ os → row_read cfg o w ∧ recoverable o) → NoDup (op_id <$> os) →
  wp (λ r w', ∃ outs, r = Ok outs ∧ outcome_id <$> outs = op_id <$> os
        ∧ Forall2 (λ o x, settled_row o x ∈ rows w') os outs
        ∧ (∀ r, r ∈ rows w → op_id r ∉ op_id <$> os → r ∈ rows w')
        ∧ ∀ r, r ∈ rows w' → op_status r = SRunning → r ∈ rows w ∧ op_id r ∉ op_id <$> os)
    (recover_each cfg os now running) w.
Proof using LI.
  revert w. induction os as [|o os IH]; intros w Hi Hos Hnd.
  - exists []. split_and!; [done..| | |]; [constructor|done|]. intros r Hr _. split; [done|apply not_elem_of_nil].
  - apply NoDup_cons in Hnd as [Hno Hnd]. destruct (Hos o) as [Hr Hg]; [apply elem_of_cons; by left|].
    apply wp_sbind. eapply wp_mono; [|eapply (wp_inv cfg host t); [done|by apply safe_recover_one|by apply wp_recover_one]].
    intros r w1 (Hrec & _ & Hi1 & Hev1). pose proof Hrec as (x & _ & -> & _).
    destruct (recovered_rows _ _ _ _ Hrec) as (Hx & Hset & Hrest & Hrun).
    { destruct Hr as ((r & ? & Hc) & _). exists r. split; [done|]. by destruct (core_fields _ _ Hc). }
    apply wp_sbind. eapply wp_mono; [|apply IH; [done| |done]].
    + intros ? w2 (outs & -> & Hids & Hall & Hrest2 & Hrun2). cbn. exists (x :: outs). split_and!; [done|..].
      * cbn. by rewrite Hx, Hids.
      * constructor; [|done]. apply Hrest2; [done|]. unfold settled_row. by rewrite op_id_settle.
      * intros r Hr1 [? ?]%not_elem_of_cons. auto.
      * intros r Hr1 Hs. destruct (Hrun2 r Hr1 Hs) as [Hr2 ?]. destruct (Hrun r Hr2 Hs). split; [done|].
        by apply not_elem_of_cons.
    + intros o' Ho'. destruct (Hos o') as [Hr' Hg']; [apply elem_of_cons; by right|]. split; [|done]. by eapply row_read_stable.
Qed.

(** ** What decides the fate of an interrupted swap *)
Definition installed (w : World) : option InstallPointer := files w !! Current ≫= parse_pointer.
Definition manifest_there (r : string) (w : World) : Prop := ∃ m, files w !! ManifestIn (Final r) = Some m ∧ 0 < slen m.

(** A version with that digest can be pointed at: its release directory is whole, or there are no release
    directories, or it cannot have one. *)
Definition standing (v d : string) (w : World) : Prop :=
  let r := release_id_for v d in
  release_id_valid r = true →
  match files w !! BinaryIn (Final r) with
  | Some s => sha256_hex s = d ∧ manifest_there r w
  | None => VersionsDir ∉ dirs w ∧ ¬ manifest_there r w
  end.

Section Fate.
Context (running : option string) (o : UpdateOperation) (w : World).
(** The swap happened: the pointer names the operation's digest. *)
Definition swapped (p : InstallPointer) : Prop := installed w = Some p ∧ op_after_digest o = Some (ip_digest p).
(** The release directory [r] still carries the signed manifest the operation was for, at or above the floor
    unless the operation is a downgrade. *)
Definition carries (r : string) (p : InstallPointer) : Prop :=
  ∃ bytes m, files w !! ManifestIn (Final r) = Some bytes ∧ verify_manifest_at_launch bytes (cf_keys cfg) = Ok m
    ∧ mf_version m = ip_version p ∧ channel_str (mf_channel m) = ip_channel p ∧ lists_digest m (ip_digest p) = true
    ∧ (∀ g, op_release_generation o = Some g → release_generation m = g)
    ∧ (op_kind o = KApply → ∀ c, op_channel o = Some c → floor_of (marks w) c <= default 0 (op_release_generation o)).
Definition authentic (p : InstallPointer) : Prop := ∀ r, ip_release_id p = Some r → carries r p.
(** Nothing is in doubt about what the pointer names: if it is a release, it is the one that runs. *)
Definition vouched (p : InstallPointer) : Prop :=
  (is_Some (ip_release_id p) → running = Some (ip_digest p)) ∧ authentic p.
(** The floor a resumed downgrade owes can be stored. *)
Definition recordable : Prop := op_kind o = KDowngrade → fits_i64 (default 0 (op_release_generation o)) = true.
(** What was installed before can be pointed at again. *)
Definition restorable : Prop :=
  ∀ v d, op_before_version o = Some v → op_before_digest o = Some d → standing v d w.
Definition resumes : Prop := ∃ p, swapped p ∧ vouched p ∧ healthy host p = true ∧ recordable.
Definition rolls_back : Prop := ∃ p, swapped p ∧ vouched p ∧ healthy host p = false ∧ restorable.
(** The swap never happened: the pointer names what it named before, and no process says otherwise. *)
Definition abandons : Prop :=
  (∀ p, ¬ swapped p) ∧ ip_digest <$> installed w = op_before_digest o
  ∧ ∀ d b, running = Some d → op_before_digest o = Some b → d = b.
Definition due (x : RecoveryOutcome) : Prop :=
  match x with
  | Resumed _ => resumes
  | RecoveredBack _ => rolls_back
  | Abandoned _ => abandons
  | NeedsVerification _ => ¬ resumes ∧ ¬ rolls_back ∧ ¬ abandons
  end.
(** What recovery does besides settling the row. *)
Definition carried_out (x : RecoveryOutcome) (w' : World) : Prop :=
  match x with
  | Resumed _ => files w' = files w
      ∧ match op_kind o with
        | KDowngrade => ∃ c g, op_channel o = Some c ∧ op_release_generation o = Some g ∧ floor_of (marks w') c = g
        | _ => marks w' = marks w
        end
  | RecoveredBack _ => ip_digest <$> installed w' = op_before_digest o
      ∧ (∀ q, q ≠ Current → files w' !! q = files w !! q) ∧ marks w' = marks w
      ∧ ∃ r, r ∈ rows w' ∧ op_kind r = KRollback ∧ op_status r = SRolledBack
             ∧ op_before_digest r = op_after_digest o ∧ op_after_digest r = op_before_digest o
  | Abandoned _ | NeedsVerification _ => files w' = files w ∧ marks w' = marks w
  end.
Definition judged (r : result RecoveryOutcome UpdateError) (w' : World) : Prop :=
  ∃ x, r = Ok x ∧ outcome_id x = op_id o ∧ due x ∧ carried_out x w'.
End Fate.
Lemma swapped_same o w p q : swapped o w p → swapped o w q → q = p.
Proof using. intros [H1 _] [H2 _]. congruence. Qed.

Lemma wp_restore previous w :
  (∀ q, previous = Some q → pointer_valid q = true) →
  wp (λ _ w', installed w' = previous ∧ (∀ q, q ≠ Current → files w' !! q = files w !! q)
              ∧ marks w' = marks w ∧ rows w' = rows w) (restore_previous previous) w.
Proof using LI.
  intros Hv. destruct previous as [p|]; unfold UpdaterRuns.wp, installed; cbn.
  - specialize (Hv p eq_refl). unfold write_pointer. rewrite Hv. cbn. rewrite lookup_insert_eq. cbn.
    split_and!; [apply parse_pointer_json| |done..]. intros q Hq. by rewrite lookup_insert_ne.
  - rewrite lookup_delete_eq. split_and!; [done| |done..]. intros q Hq. by rewrite lookup_delete_ne.
Qed.
Lemma settle_judged running o w s x w1 :
  known o w1 → outcome_id x = op_id o → due running o w x →
  (∀ w2, files w2 = files w1 → marks w2 = marks w1 → carried_out o w x w2) →
  wp (judged running o w) (store (Update (settle_op s now o));; sret x) w1.
Proof using.
  intros Ho Hx Hd Hv. apply wp_sbind. eapply wp_mono; [|by apply wp_update, known_settle].
  intros ? ? [-> ->]. exists x. split_and!; [done..|]. by apply Hv.
Qed.
Lemma unverified_judged running o w :
  known o w → ¬ resumes running o w → ¬ rolls_back running o w → ¬ abandons running o w →
  wp (judged running o w) (needs_verification o now) w.
Proof using. intros Ho H1 H2 H3. by apply settle_judged. Qed.
(** Of a swap that happened, what is not resumed or rolled back is left for verification. *)
Lemma swapped_unverified running o w p :
  known o w → swapped o w p →
  (vouched running o w p → healthy host p = true → ¬ recordable o) →
  (vouched running o w p → healthy host p = false → ¬ restorable o w) →
  wp (judged running o w) (needs_verification o now) w.
Proof using.
  intros Ho Hp H1 H2. apply unverified_judged; [done|..].
  - intros (q & Hq & ? & ? & ?). rewrite (swapped_same _ _ _ _ Hp Hq) in *. by apply H1.
  - intros (q & Hq & ? & ? & ?). rewrite (swapped_same _ _ _ _ Hp Hq) in *. by apply H2.
  - intros [Hn _]. by apply (Hn p).
Qed.
(** Of one that did not, what is not abandoned is. *)
Lemma unswapped_unverified running o w :
  known o w → (∀ p, ¬ swapped o w p) → ¬ abandons running o w →
  wp (judged running o w) (needs_verification o now) w.
Proof using.
  intros Ho Hn Ha. apply unverified_judged; [done| | |done].
  - intros (p & Hp & _). by apply (Hn p).
  - intros (p & Hp & _). by apply (Hn p).
Qed.
Lemma abandon_judged running o w :
  known o w → abandons running o w → wp (judged running o w) (abandon o now) w.
Proof using. intros Ho Hd. by apply settle_judged. Qed.

(** The checks on a release under the pointer. *)
Lemma wp_authentic o p w :
  (∃ m, of_manifest cfg o m) → op_kind o = KApply ∨ op_kind o = KDowngrade →
  wp (λ b w', w' = w ∧ (b = true ↔ authentic o w p)) (reauthenticate_recovered_release cfg o p) w.
Proof using.
  intros (m0 & _ & Hch & _) Hk. unfold reauthenticate_recovered_release, authentic.
  destruct (ip_release_id p) as [r|]; [|done].
  assert (wp (λ b w', w' = w ∧ (b = true ↔ carries o w r p)) (reauthenticate_recovered_release cfg o
    (MkPointer (ip_schema p) (ip_artifact p) (ip_digest p) (ip_version p) (ip_channel p) (ip_applied_ms p) (Some r))) w) as H.
  2: { eapply wp_mono; [|exact H]. intros b w' [-> Hb]. split; [done|]. rewrite Hb. split; [by intros ? ? [= <-]|auto]. }
  unfold reauthenticate_recovered_release. cbn [ip_release_id ip_version ip_channel ip_digest]. apply wp_call. cbn [handle fst snd].
  destruct (files w !! ManifestIn (Final r)) as [bytes|] eqn:Ef;
    [|cbn; split; [done|split; [done|intros (? & ? & ? & _); congruence]]].
  destruct (verify_manifest_at_launch bytes (cf_keys cfg)) as [m|] eqn:Ev;
    [|cbn; split; [done|split; [done|intros (? & ? & ? & ? & _); congruence]]].
  assert (Hiff : carries o w r p ↔ mf_version m = ip_version p ∧ channel_str (mf_channel m) = ip_channel p
    ∧ lists_digest m (ip_digest p) = true ∧ (∀ g, op_release_generation o = Some g → release_generation m = g)
    ∧ (op_kind o = KApply → floor_of (marks w) (channel_str (mf_channel m0)) <= default 0 (op_release_generation o))).
  { unfold carries. rewrite Ef, Hch. split.
    - intros (? & ? & [= <-] & E & ? & ? & ? & ? & ?). rewrite Ev in E. injection E as <-. split_and!; auto.
    - intros (? & ? & ? & ? & Hfl). exists bytes, m. split_and!; try done. by intros Hka ? [= <-]; apply Hfl. }
  eapply wp_mono; [intros b w' H; rewrite Hiff; exact H|]. clear Hiff. unfold UpdaterRuns.wp.
  case_bool_decide as H1; cbn [negb Rely.run]; [|split; [done|split; [done|by intros (? & _)]]].
  case_bool_decide as H2; cbn [negb Rely.run]; [|split; [done|split; [done|by intros (_ & ? & _)]]].
  destruct (lists_digest m (ip_digest p)) eqn:H3; cbn [negb Rely.run]; [|split; [done|split; [done|by intros (_ & _ & ? & _)]]].
  destruct (match op_release_generation o with Some g => negb (bool_decide (release_generation m = g)) | None => false end) eqn:H4;
    cbn [Rely.run].
  { split; [done|split; [done|]]. intros (_ & _ & _ & Hg & _). destruct (op_release_generation o); [|done].
    by rewrite bool_decide_true in H4 by auto. }
  assert (Hg : ∀ g, op_release_generation o = Some g → release_generation m = g).
  { intros g Hg. rewrite Hg in H4. by apply negb_false_iff, bool_decide_eq_true in H4. }
  case_bool_decide as H5; cbn [Rely.run].
  - split; [done|]. split; [|done]. intros _. split_and!; try done. congruence.
  - rewrite Hch. cbn [default from_option id]. unfold high_water. rewrite channel_valid. cbn. unfold floor_of.
    assert (Hka : op_kind o = KApply) by by destruct Hk.
    destruct (marks w !! _) as [h|]; cbn; (split; [done|]);
      (rewrite negb_true_iff, N.ltb_ge; split; [intros ?; split_and!; auto|intros (_ & _ & _ & _ & H); by apply H]).
Qed.
(** The release directory behind a version, if there should be one. *)
Lemma manifest_present r w :
  file_present (match files w !! ManifestIn (Final r) with Some s => SRegular (slen s) | None => SMissing end) = true
  ↔ manifest_there r w.
Proof using.
  unfold manifest_there. destruct (files w !! ManifestIn (Final r)) as [m|]; cbn; [|split; [done|by intros (? & ? & _)]].
  rewrite N.ltb_lt. split; [by exists m|by intros (? & [= <-] & ?)].
Qed.
Lemma wp_materialized v d w :
  is_lower_hex d 64 = true →
  wp (λ r w', w' = w ∧ match r with
      | Ok x => standing v d w ∧ ∀ id, x = Some id → release_id_valid id = true
                  ∧ ∃ s, files w !! BinaryIn (Final id) = Some s ∧ sha256_hex s = d
      | Err _ => ¬ standing v d w
      end) (release_id_if_materialized v d) w.
Proof using.
  intros Hd. unfold release_id_if_materialized, standing. cbv zeta.
  assert (slen d <? 12 = false) as ->.
  { unfold is_lower_hex in Hd. apply andb_prop in Hd as [Hd _]. apply N.ltb_ge. apply N.eqb_eq in Hd. lia. }
  destruct (release_id_valid _) eqn:Hv; cbn [negb]; [|by split].
  unfold UpdaterRuns.wp. cbn [Rely.run handle fst snd]. pose proof (manifest_present (release_id_for v d) w) as Hm.
  destruct (file_present _); cbn [negb].
  - assert (manifest_there (release_id_for v d) w) by by apply Hm.
    destruct (files w !! BinaryIn (Final (release_id_for v d))) as [s|] eqn:Eb; cbn.
    + rewrite Eb. cbn. case_bool_decide; cbn; (split; [done|]); naive_solver.
    + split; [done|]. naive_solver.
  - assert (¬ manifest_there (release_id_for v d) w) by (intros ?%Hm; done).
    destruct (files w !! BinaryIn (Final (release_id_for v d))) as [s|] eqn:Eb; cbn.
    + rewrite Eb. cbn. case_bool_decide; cbn; (split; [done|]); naive_solver.
    + case_bool_decide; cbn; (split; [done|]); naive_solver.
Qed.
(** A pointer made for a launch: by its release directory when there is one. *)
Lemma wp_launch n d v c at_ms w :
  plain_artifact_name n = true → is_lower_hex d 64 = true →
  wp (λ r w', w' = w ∧ match r with
      | Ok q => standing v d w ∧ ∃ id, q = MkPointer INSTALL_POINTER_SCHEMA n d v c at_ms id ∧ pointer_valid q = true
                ∧ ∀ r, id = Some r → ∃ s, files w !! BinaryIn (Final r) = Some s ∧ sha256_hex s = d
      | Err _ => ¬ standing v d w
      end) (with_launch_release (MkPointer INSTALL_POINTER_SCHEMA n d v c at_ms None)) w.
Proof using.
  intros Hname Hhex. pose proof (fresh_pointer_valid n d v c at_ms Hname Hhex) as Hf. unfold with_launch_release.
  cbn [ip_version ip_digest]. apply wp_sbind. eapply wp_mono; [|by apply wp_materialized].
  intros [x|e] w' [-> Hx]; [|done]. destruct Hx as [Hst Hid]. destruct x as [id|]; [|split; [done|split; [done|by exists None]]].
  destruct (Hid id eq_refl) as [Hval Hbin].
  assert (Hok : pointer_valid (MkPointer INSTALL_POINTER_SCHEMA n d v c at_ms (Some id)) = true).
  { unfold pointer_valid in *. cbn in *. rewrite Hval. by destruct (_ && _). }
  unfold with_release_id, pointer_check. rewrite Hok. split; [done|]. split; [done|]. exists (Some id).
  split_and!; [done..|]. by intros r [= <-].
Qed.
(** The pointer of before the operation, rebuilt. *)
Lemma wp_previous o w :
  before_ok cfg (files w) o →
  wp (λ r w', w' = w ∧ match r with
      | Ok x => restorable o w ∧ ip_digest <$> x = op_before_digest o ∧ ∀ q, x = Some q → pointer_valid q = true
      | Err _ => ¬ restorable o w
      end) (previous_pointer o) w.
Proof using.
  intros Hb. unfold previous_pointer, restorable.
  destruct (op_before_digest o) as [d|] eqn:Ed; [|by destruct (op_before_artifact o)].
  destruct (Hb d Ed) as (v & n & Hv & Hn & (m & a & Hsg & Hin & <- & <- & <-) & _). rewrite Hv, Hn.
  destruct (signed_plain m a Hsg Hin) as [Hname Hhex]. unfold pointer_new, pointer_check.
  cbn [default from_option id]. rewrite fresh_pointer_valid by done. cbn [lift sbind pbind].
  apply wp_sbind. eapply wp_mono; [|by apply wp_launch].
  assert (Hre : standing (mf_version m) (af_sha256 a) w ↔
    ∀ v d0, Some (mf_version m) = Some v → Some (af_sha256 a) = Some d0 → standing v d0 w)
    by (split; [by intros ? ? ? [= <-] [= <-]|auto]).
  intros [q|e] w' [-> Hx]; (split; [done|]); [|by rewrite <- Hre].
  destruct Hx as (Hst & id & -> & Hval & _). split_and!; [by rewrite <- Hre|done|]. by intros q [= <-].
Qed.
Lemma source_manifest fs o :
  source_ok cfg fs o → op_kind o = KApply ∨ op_kind o = KDowngrade →
  (∃ m, of_manifest cfg o m) ∧ (op_kind o = KDowngrade → is_Some (op_release_generation o)).
Proof using.
  unfold source_ok. intros Hs [Hk|Hk]; rewrite Hk in *.
  - destruct Hs as [(m & ? & _) _]. split; [by exists m|done].
  - destruct Hs as (m & ? & _ & ?). split; [by exists m|done].
Qed.
Lemma wp_owed running o w :
  source_ok cfg (files w) o → op_kind o = KApply ∨ op_kind o = KDowngrade →
  wp (λ r w', match r with
      | Ok _ => recordable o ∧ rows w' = rows w
                ∧ ∀ w2, files w2 = files w' → marks w2 = marks w' → carried_out o w (Resumed running) w2
      | Err _ => ¬ recordable o ∧ w' = w
      end) (owed_reset cfg o now) w.
Proof using.
  intros Hs Hk. destruct (source_manifest _ _ Hs Hk) as [(m & _ & Hch & _) Hgen].
  unfold owed_reset, recordable. case_bool_decide as Hkd.
  - destruct (Hgen Hkd) as [g Hg]. rewrite Hch, Hg. cbn [default from_option id].
    unfold set_high_water, reread_mark, high_water, UpdaterRuns.wp. rewrite channel_valid.
    destruct (fits_i64 g) eqn:Hf; [|cbn; split; [|done]; intros H; by specialize (H Hkd)].
    assert (is_Some (set_mark (channel_str (mf_channel m)) g now (marks w) !! channel_str (mf_channel m))) as [h Hh].
    { unfold set_mark. destruct (marks w !! _); rewrite lookup_insert_eq; by eexists. }
    cbn [Rely.run require andb sbind pbind sret store handle fst snd rmap_err on_marks marks]. rewrite Hh.
    cbn [Rely.run sret]. split_and!; [done..|]. intros w2 Hf2 Hm2. unfold carried_out. rewrite Hkd. split; [done|].
    exists (channel_str (mf_channel m)), g. split_and!; [done..|]. rewrite Hm2. cbn. rewrite floor_set. by case_decide.
  - split_and!; [done..|]. intros w2 Hf2 Hm2. split; [done|]. by destruct Hk as [-> | ?].
Qed.
(** The swap is undone, settled and recorded. *)
Lemma wp_rolled_back running o p previous w :
  known o w → swapped o w p → rolls_back running o w →
  ip_digest <$> previous = op_before_digest o → (∀ q, previous = Some q → pointer_valid q = true) →
  wp (judged running o w)
    (pbind (restore_previous previous) (λ _,
       store (Update (settle_op SRolledBack now o));;
       record_rollback previous p now;;
       sret (RecoveredBack (op_id o)))) w.
Proof using LI.
  intros Ho [Hin Hd] Hb Hdg Hv. apply wp_pbind. eapply wp_mono; [|by apply wp_restore].
  intros [] w1 (Hp1 & Hf1 & Hm1 & Hr1). apply wp_sbind.
  eapply wp_mono; [|apply wp_update, known_settle; by eapply known_rows]. intros ? w2 [-> ->]. apply wp_sbind.
  unfold record_rollback. apply wp_call. cbn [handle fst snd].
  eapply wp_mono; [|apply wp_insert; exact (proj2 (mint_fresh _))]. intros ? w3 [-> ->].
  exists (RecoveredBack (op_id o)). split_and!; [done..|]. split_and!; cbn.
  - unfold installed in *. cbn. by rewrite Hp1.
  - exact Hf1.
  - exact Hm1.
  - eexists. split; [apply elem_of_app; right; by apply list_elem_of_singleton|]. by rewrite Hd, Hdg.
Qed.
Lemma wp_swapped_judged o p running w :
  row_read cfg o w → op_kind o = KApply ∨ op_kind o = KDowngrade → swapped o w p →
  wp (judged running o w) (recover_swapped cfg o p now running) w.
Proof using LI.
  intros (Ho & [Hs Hb] & _) Hk Hp. destruct (source_manifest _ _ Hs Hk) as [Hm _]. unfold recover_swapped.
  destruct (_ && negb _) eqn:Hrun.
  { apply andb_prop in Hrun as [Hid%bool_decide_eq_true Hne%negb_true_iff%bool_decide_eq_false].
    apply (swapped_unverified _ _ _ p); [done..| |]; intros [Hr _]; by destruct (Hne (Hr Hid)). }
  assert (Hr : is_Some (ip_release_id p) → running = Some (ip_digest p)).
  { intros Hid. rewrite bool_decide_true in Hrun by done. by apply negb_false_iff, bool_decide_eq_true in Hrun. }
  apply wp_pbind. eapply wp_mono; [|by apply wp_authentic]. intros authentic ? [-> Ha].
  destruct authentic; cbn [negb]; [|apply (swapped_unverified _ _ _ p); [done..| |]; intros [_ Hau]; by apply Ha in Hau].
  assert (Hv : vouched running o w p) by (split; [done|by apply Ha]).
  apply wp_call. cbn [handle fst snd]. destruct (healthy host p) eqn:Hh.
  - apply wp_pbind. eapply wp_mono; [|by apply (wp_owed (op_id o))]. intros [[]|e] w1.
    + intros (Hrec & Hr1 & Hc). apply wp_sbind. eapply wp_mono; [|apply wp_update, known_settle; by eapply known_rows].
      intros ? ? [-> ->]. exists (Resumed (op_id o)). split_and!; [done..|by exists p|by apply Hc].
    + intros [Hrec ->]. by apply (swapped_unverified _ _ _ p); [..|congruence].
  - apply wp_pbind. eapply wp_mono; [|by apply wp_previous]. intros [previous|e] ? [-> Hy].
    + destruct Hy as (Hre & Hdg & Hva). apply wp_rolled_back; [done..|by exists p|done|done].
    + by apply (swapped_unverified _ _ _ p); [..|congruence|].
Qed.
Lemma wp_apply_judged o running w :
  Inv cfg w → row_read cfg o w → op_kind o = KApply ∨ op_kind o = KDowngrade →
  wp (judged running o w) (recover_apply cfg o now running) w.
Proof using LI.
  intros Hi Hr Hk. pose proof Hr as (Ho & _ & _).
  apply wp_sbind. unfold UpdaterRuns.wp at 1. cbn [read_pointer Rely.run handle fst snd].
  destruct (files w !! Current) as [b|] eqn:E.
  - destruct (inv_pointer _ _ Hi _ E) as (p & -> & Hv & _).
    assert (Hin : installed w = Some p) by (unfold installed; rewrite E; apply parse_pointer_json).
    rewrite parse_pointer_json, Hv. cbn [Rely.run sret]. cbv zeta. case_bool_decide as Hd.
    + apply wp_swapped_judged; [done..|]. split; [done|]. destruct (op_after_digest o); cbn in Hd; [by rewrite Hd|].
      exfalso. revert Hv. unfold pointer_valid. rewrite Hd. cbn. by rewrite !andb_false_r.
    + assert (Hno : ∀ q, ¬ swapped o w q).
      { intros q [Hq Ha]. rewrite Hin in Hq. injection Hq as <-. by rewrite Ha in Hd. }
      case_bool_decide as Hb.
      2: { apply unswapped_unverified; [done..|]. intros (_ & Hd' & _). rewrite Hin in Hd'. by apply Hb. }
      destruct (match running with Some _ => _ | None => _ end) eqn:Hrun.
      * destruct running as [d|]; [|done]. apply negb_true_iff, bool_decide_eq_false in Hrun.
        apply unswapped_unverified; [done..|]. intros (_ & _ & Hag). by apply Hrun, Hag.
      * apply abandon_judged; [done|]. split_and!; [done|by rewrite Hin, Hb|]. intros d b -> Hb'. rewrite Hb in Hb'.
        injection Hb' as <-. by apply negb_false_iff, bool_decide_eq_true in Hrun.
  - assert (Hin : installed w = None) by (unfold installed; by rewrite E). cbn [Rely.run sret].
    assert (Hno : ∀ q, ¬ swapped o w q) by (intros q [Hq _]; congruence).
    case_bool_decide as Hb; [|apply unswapped_unverified; [done..|]; intros (_ & Hd & _); by rewrite Hin in Hd].
    apply abandon_judged; [done|]. split_and!; [done|by rewrite Hin, Hb|]. intros d b _ Hb'. congruence.
Qed.
(** Exactly one outcome is due. *)
Lemma due_exact running o w x :
  outcome_id x = op_id o → due running o w x →
  (x = Resumed (op_id o) ↔ resumes running o w) ∧ (x = RecoveredBack (op_id o) ↔ rolls_back running o w)
  ∧ (x = Abandoned (op_id o) ↔ abandons running o w)
  ∧ (x = NeedsVerification (op_id o) ↔ ¬ resumes running o w ∧ ¬ rolls_back running o w ∧ ¬ abandons running o w).
Proof using.
  intros Hx Hd.
  assert (Hrb : resumes running o w → rolls_back running o w → False).
  { intros (p & Hp & _ & ? & _) (q & Hq & _ & ? & _). rewrite (swapped_same _ _ _ _ Hp Hq) in *. congruence. }
  assert (Hra : resumes running o w → abandons running o w → False) by (intros (p & Hp & _) [Hn _]; by apply (Hn p)).
  assert (Hba : rolls_back running o w → abandons running o w → False) by (intros (p & Hp & _) [Hn _]; by apply (Hn p)).
  destruct x; cbn in Hx, Hd; subst; split_and!; (split; [by intros [=]|intros]); naive_solver.
Qed.
End Recovery.

Section Thms.
Context `{RW : ReleaseWire, IW : InstallWire, LI : !LawfulInstall}.
Variable cfg : UpdaterConfig.
Variable host : Host.

(** C7: In any state the processes can have left behind, crashes at any point included, where the
    generation of every interrupted stage fits the store's signed 64 bits: recovery, with nothing failing
    under it, answers; it answers one outcome per interrupted operation, each row is settled as its outcome
    says, every other row is as it was, and no operation is left running. *)
Theorem recovery_settles n w now running :
  reached cfg n w →
  (∀ o, o ∈ rows w → op_status o = SRunning → recoverable o) →
  ∃ outs w', run (λ X, @handle _ host n X) (recover_with_running_digest cfg now running) w = (Some (Ok outs), w')
    ∧ outcome_id <$> outs = op_id <$> running_rows (rows w)
    ∧ Forall2 (λ o x, settled_row now o x ∈ rows w') (running_rows (rows w)) outs
    ∧ (∀ o, o ∈ rows w → op_status o ≠ SRunning → o ∈ rows w')
    ∧ running_rows (rows w') = [].
Proof using LI.
  intros Hi%reached_inv Hg.
  assert (Hall : ∀ o, o ∈ running_rows (rows w) → row_read cfg o w ∧ recoverable o).
  { intros o [Ho Hs]%running_rows_elem. split; [by apply row_in|by apply Hg]. }
  destruct (wp_run _ _ _ _ _ (wp_recover_each cfg host n now _ running w Hi Hall (running_ids _ _ Hi)))
    as (r & w' & Hrun & outs & -> & Hids & Hset & Hrest & Hno).
  exists outs, w'. split_and!; [exact Hrun|done|done|..].
  - intros o Ho Hs. apply Hrest; [done|]. intros (o' & Hid & [Ho' Hs']%running_rows_elem)%list_elem_of_fmap.
    apply Hs. by rewrite (same_id _ _ _ (inv_ids _ _ Hi) Ho Ho' Hid).
  - destruct (running_rows (rows w')) as [|o l] eqn:E; [done|exfalso].
    assert (Ho : o ∈ running_rows (rows w')) by (rewrite E; apply elem_of_cons; by left).
    apply running_rows_elem in Ho as [Ho Hs]. destruct (Hno o Ho Hs) as [Hin Hnin]. apply Hnin.
    apply list_elem_of_fmap_2, running_rows_elem. done.
Qed.

End Thms.

#[local] Opaque apply_cut.
Lemma recovery_settles_witness :
  running_rows (rows apply_cut) ≠ []
  ∧ ∃ outs w', run (λ X, @handle _ demo_host 4%nat X) (recover_with_running_digest demo_config 30 None) apply_cut = (Some (Ok outs), w')
    ∧ outcome_id <$> outs = op_id <$> running_rows (rows apply_cut)
    ∧ Forall2 (λ o x, settled_row 30 o x ∈ rows w') (running_rows (rows apply_cut)) outs
    ∧ (∀ o, o ∈ rows apply_cut → op_status o ≠ SRunning → o ∈ rows w')
    ∧ running_rows (rows w') = [].
Proof.
  split; [by vm_compute|]. apply (recovery_settles demo_config demo_host 4 apply_cut 30 None apply_cut_reached).
  assert (Hg : forallb (λ o, fits_i64 (default 0 (op_release_generation o))) (rows apply_cut) = true) by (vm_compute; reflexivity).
  intros o Ho _ _. exact (proj1 (List.forallb_forall _ _) Hg o (proj1 (list_elem_of_In _ _) Ho)).
Defined.
Definition cut_apply : UpdateOperation := default (op_new "" KCheck 0) (head (running_rows (rows apply_cut))).
