(* ===== verification/UpdaterLiveness.v ===== *)
(** * A signed release installs

    On a machine where nothing fails, a manifest that authenticates and suits
    the host stages and applies: its artifact ends under the pointer, the floor
    at its generation, no operation running. *)
From stdpp Require Import sorting.
From S2P Require Import Prelude Strings Bytes Effects Rely UpdaterManifest UpdaterStore UpdaterInstall UpdaterService UpdaterRelease UpdaterSystem UpdaterInv UpdaterCalls UpdaterLogic UpdaterSafe UpdaterReleaseSafe UpdaterQuiet UpdaterRuns UpdaterThms UpdaterDemo UpdaterRecovery.
#[local] Open Scope string_scope.
#[local] Open Scope N_scope.
#[local] Open Scope prog_scope.

#[global] Instance older_trans : Transitive older.
Proof.
  intros a b c [H1|[H1 S1]] [H2|[H2 S2]]; [left; lia|left; lia|left; lia|right; split; [lia|by etrans]].
Qed.
#[global] Instance older_total : Total older.
Proof.
  intros a b. destruct (Z.lt_total (op_created_ms a) (op_created_ms b)) as [?|[E|?]]; [by left; left| |by right; left].
  destruct (total str_le (op_id a) (op_id b)); [left|right]; right; by split.
Qed.
(** The newest of rows is the one made after all the others. *)
Lemma newest_is o (rs : Rows) :
  o ∈ rs → (∀ x, x ∈ rs → x ≠ o → (op_created_ms x < op_created_ms o)%Z) → newest rs = Some o.
Proof.
  intros Ho Hmax. unfold newest. pose proof (merge_sort_Permutation older rs) as Hp.
  pose proof (StronglySorted_merge_sort older rs) as Hs. set (l := merge_sort older rs) in *.
  destruct (last l) as [x|] eqn:E.
  - apply last_Some in E as [l' E]. destruct (decide (x = o)) as [->|Hne]; [done|exfalso].
    assert (Hx : x ∈ rs) by (rewrite <- Hp, E; apply elem_of_app; right; by apply list_elem_of_singleton).
    pose proof (Hmax x Hx Hne). assert (Hol : o ∈ l').
    { assert (Hin : o ∈ l) by by rewrite Hp. rewrite E in Hin. apply elem_of_app in Hin as [?|E'%list_elem_of_singleton]; [done|congruence]. }
    rewrite E in Hs. apply StronglySorted_app in Hs as (Hox & _ & _).
    destruct (Hox o x Hol ltac:(by apply list_elem_of_singleton)) as [?|[? _]]; lia.
  - apply last_None in E. rewrite E in Hp. symmetry in Hp. apply Permutation_nil_r in Hp as ->. by apply elem_of_nil in Ho.
Qed.

Section Live.
Context `{RW : ReleaseWire, IW : InstallWire, LI : !LawfulInstall}.
Variable cfg : UpdaterConfig.
Variable host : Host.
Variable t : nat.
Notation wp := (UpdaterRuns.wp host t).

(** A manifest the host can stage on an idle install: authentic, compatible, with an artifact for this host that
    is served as promised, carrying a generation that is not below the floor. *)
Record stageable (bytes : string) (comps : RunningComponents) (now : Z) (m : UpdateManifest) (a : Artifact) (g : N)
    (w : World) : Prop := {
  st_verified : ∃ i, verify_manifest bytes (cf_keys cfg) (cf_channel cfg) now (cf_clock_skew_ms cfg) = Ok (m, i);
  st_compatible : cr_refused (compat_check (mf_compatibility m) comps) = false;
  st_artifact : host_artifact cfg m = Some a;
  st_small : too_large cfg a = false;
  st_digest : sha256_hex (serves host (af_url a)) = af_sha256 a;
  st_size : slen (serves host (af_url a)) <= cf_max_artifact_bytes cfg;
  st_generation : mf_release_generation m = Some g;
  st_floor : floor_of (marks w) (channel_str (mf_channel m)) <= g;
  st_idle : running_rows (rows w) = []
}.
(** One it can install: the generation is one the store holds, the clock is past every row, the digest is not
    the one applied last, and nothing is wrong with a release directory of it. *)
Record installable (bytes : string) (comps : RunningComponents) (now : Z) (m : UpdateManifest) (a : Artifact) (g : N)
    (w : World) : Prop := {
  ins_stageable : stageable bytes comps now m a g w;
  ins_fits : fits_i64 g = true;
  ins_later o : o ∈ rows w → (op_created_ms o < now)%Z;
  ins_other o : latest_row KApply SApplied (rows w) = Some o → op_after_digest o ≠ Some (af_sha256 a);
  ins_standing : standing (mf_version m) (af_sha256 a) w
}.

(** ** Single steps *)
Lemma wp_ret {A} (Q : A → World → Prop) a w : Q a w → wp Q (Ret a) w.
Proof using. done. Qed.
Lemma wp_lift {A B} (Q : result B UpdateError → World → Prop) (r : result A UpdateError) a (k : A → Svc B) w :
  r = Ok a → wp Q (k a) w → wp Q (sbind (lift r) k) w.
Proof using. by intros ->. Qed.
Lemma wp_require {B} (Q : result B UpdateError → World → Prop) b e (k : unit → Svc B) w :
  b = true → wp Q (k tt) w → wp Q (sbind (require b e) k) w.
Proof using. by intros ->. Qed.
Lemma wp_some {A B} (Q : result B UpdateError → World → Prop) (x : option A) e a (k : A → Svc B) w :
  x = Some a → wp Q (k a) w → wp Q (sbind (some_or x e) k) w.
Proof using. by intros ->. Qed.
Lemma wp_then {A B} (P : A → World → Prop) (Q : result B UpdateError → World → Prop) (p : Svc A) (f : A → Svc B) w :
  wp (λ r w', ∃ a, r = Ok a ∧ P a w') p w → (∀ a w', P a w' → wp Q (f a) w') → wp Q (sbind p f) w.
Proof using. intros Hp Hf. apply wp_sbind. eapply wp_mono; [|exact Hp]. intros r w' (a & -> & Ha). by apply Hf. Qed.
Lemma wp_idle w : running_rows (rows w) = [] → wp (λ r w', ∃ a, r = Ok a ∧ w' = w) ensure_no_running w.
Proof using. intros Hr. unfold UpdaterRuns.wp. cbn. rewrite Hr. by exists tt. Qed.
Lemma wp_high_water c w : wp (λ r w', ∃ x, r = Ok x ∧ x = marks w !! channel_str c ∧ w' = w) (high_water (channel_str c)) w.
Proof using. unfold high_water. rewrite channel_valid. by exists (marks w !! channel_str c). Qed.
Lemma wp_admit m g w :
  mf_release_generation m = Some g → floor_of (marks w) (channel_str (mf_channel m)) <= g →
  wp (λ r w', ∃ a, r = Ok a ∧ a = MkAdmission g false ∧ w' = w) (admit_manifest cfg m) w.
Proof using.
  intros Hg Hf. unfold admit_manifest. eapply wp_then; [apply wp_high_water|]. intros x ? [-> ->].
  unfold release_generation, is_legacy_generation. rewrite Hg. cbn. unfold floor_of in Hf.
  destruct (marks w !! _); cbn in *; (destruct (_ <? _) eqn:E; [apply N.ltb_lt in E; lia|by eexists]).
Qed.
(** Tables extended by an insert or an update of the last row. *)
Lemma wp_insert_fresh o w :
  op_id o ∉ op_id <$> rows w → wp (λ r w', ∃ x, r = Ok x ∧ w' = on_rows (λ rs, rs ++ [o])%list w) (store (Insert o)) w.
Proof using. intros Hid. eapply wp_mono; [|by apply wp_insert]. intros ? ? [-> ->]. by exists tt. Qed.
Lemma replaced_last o o' (rs : Rows) :
  op_id o' = op_id o → op_id o ∉ op_id <$> rs → replaced o' <$> (rs ++ [o])%list = (rs ++ [o'])%list.
Proof using.
  intros Hid Hn. rewrite fmap_app. cbn. unfold replaced at 2. rewrite bool_decide_true by done. f_equal.
  rewrite <- (list_fmap_id rs) at 2. apply list_fmap_ext. intros i x Hx. apply replaced_other. rewrite Hid.
  intros E. apply Hn. rewrite <- E. apply list_elem_of_fmap_2. by eapply list_elem_of_lookup_2.
Qed.
Lemma wp_settle_last s now o w rs :
  rows w = (rs ++ [o])%list → op_id o ∉ op_id <$> rs →
  wp (λ r w', ∃ x, r = Ok x ∧ w' = on_rows (λ _, rs ++ [settle_op s now o])%list w) (store (Update (settle_op s now o))) w.
Proof using.
  intros Hr Hn. eapply wp_mono; [|apply wp_update, known_settle; exists o; split; [|done]].
  - intros ? ? [-> ->]. exists tt. split; [done|]. unfold on_rows. by rewrite Hr, replaced_last by (by destruct o).
  - rewrite Hr. apply elem_of_app. right. by apply list_elem_of_singleton.
Qed.

(** ** Check *)
Definition same_disk (w w' : World) : Prop := marks w' = marks w ∧ files w' = files w ∧ dirs w' = dirs w.
Lemma wp_verified bytes now x w :
  verify_manifest bytes (cf_keys cfg) (cf_channel cfg) now (cf_clock_skew_ms cfg) = Ok x →
  wp (λ r w', ∃ v, r = Ok v ∧ v = x ∧ w' = w) (verified cfg bytes now) w.
Proof using. intros Hv. unfold verified, refusing. rewrite Hv. by exists x. Qed.
Lemma wp_check bytes comps now m a g w :
  stageable bytes comps now m a g w →
  wp (λ r w', ∃ c, r = Ok c ∧ ∃ o, rows w' = (rows w ++ [o])%list ∧ op_kind o = KCheck ∧ op_created_ms o = now ∧ op_status o = SSucceeded ∧ same_disk w w')
    (check cfg bytes comps now) w.
Proof using.
  intros [[i Hv] Hcomp Ha Hsmall _ _ Hg Hfl _]. unfold check.
  eapply wp_then; [by apply wp_verified|]. intros ? ? [-> ->]. cbv zeta. apply wp_call. cbn [handle fst snd].
  apply wp_pbind. eapply wp_mono; [|by apply wp_admit]. intros ? ? (? & -> & -> & ->).
  rewrite Hcomp, Ha, Hsmall. cbv zeta.
  eapply wp_then; [apply wp_insert_fresh; exact (proj2 (mint_fresh w))|]. intros ? ? ->.
  apply wp_ret. eexists. split; [done|]. eexists. split; [reflexivity|]. by split_and!.
Qed.

(** ** Download *)
Lemma lookup_kept d fs gone p : within d p = false → (∀ q, q ∈ gone → within d q = true) → without gone fs !! p = fs !! p.
Proof using LI.
  intros Hp Hg. destruct (without_lookup gone fs p) as [?|[Hin _]]; [done|]. specialize (Hg p Hin). congruence.
Qed.
Lemma gone_within d fs q : q ∈ gone_with d fs → within d q = true.
Proof using LI. by intros [? _]%elem_of_filter. Qed.
(** Files a stage leaves alone. *)
Definition settled_path (p : Path) : bool := match p with StagingFile _ _ | ArtifactAt _ _ => false | _ => true end.
Lemma wp_download id a w :
  too_large cfg a = false → sha256_hex (serves host (af_url a)) = af_sha256 a →
  slen (serves host (af_url a)) <= cf_max_artifact_bytes cfg → is_lower_hex (af_sha256 a) 64 = true →
  wp (λ r w', ∃ n, r = Ok n ∧ rows w' = rows w ∧ marks w' = marks w
        ∧ files w' !! ArtifactAt (af_name a) (af_sha256 a) = Some (serves host (af_url a))
        ∧ (∀ p, settled_path p = true → files w' !! p = files w !! p) ∧ (VersionsDir ∈ dirs w' → VersionsDir ∈ dirs w))
    (download_and_publish cfg id a) w.
Proof using LI.
  intros Hs Hd Hn Hh. unfold download_and_publish. apply wp_require; [by rewrite Hs|].
  set (st := StagingFile id (af_name a)). set (fs1 := without (gone_with (StagingDir id) (files w)) (files w)).
  unfold UpdaterRuns.wp. cbn [clear_staging tried sbind pbind Rely.run handle fst snd sret].
  cbn [on_files on_dirs files rows marks dirs drawn]. fold fs1.
  rewrite decide_True by (rewrite lookup_insert_eq; by eexists).
  rewrite (proj2 (N.leb_le _ _) Hn). cbn [digest_of sbind pbind Rely.run handle fst snd sret on_files on_dirs files rows marks dirs].
  rewrite lookup_insert_eq. cbn [fmap option_fmap option_map sret pbind Rely.run]. rewrite Hd.
  rewrite bool_decide_true by done. unfold publish_staged. rewrite Hh.
  cbn [require tried sbind pbind Rely.run handle fst snd sret on_files on_dirs files rows marks dirs].
  rewrite lookup_insert_eq.
  cbn [require tried sbind pbind Rely.run handle fst snd sret on_files on_dirs files rows marks dirs].
  set (fs2 := rename _ _ _). exists (slen (serves host (af_url a))).
  assert (H2 : ∀ p, p ≠ st → fs2 !! p = if decide (p = ArtifactAt (af_name a) (af_sha256 a)) then Some (serves host (af_url a)) else fs1 !! p).
  { intros p Hp. unfold fs2, rename. rewrite lookup_insert_eq. case_decide as E; [subst; by rewrite lookup_insert_eq|].
    by rewrite lookup_insert_ne, lookup_delete_ne, !lookup_insert_ne by congruence. }
  split_and!; [done..| | |].
  - rewrite (lookup_kept (StagingDir id)); [|done|by apply gone_within]. rewrite H2 by done. by rewrite decide_True.
  - intros p Hp. rewrite (lookup_kept (StagingDir id)); [|by destruct p|by apply gone_within].
    rewrite H2 by (intros ->; done). rewrite decide_False by (intros ->; done).
    apply (lookup_kept (StagingDir id)); [by destruct p|by apply gone_within].
  - set_solver.
Qed.

(** ** Stage *)
Lemma wp_read w :
  Inv cfg w → wp (λ r w', ∃ p, r = Ok p ∧ w' = w) read_pointer w.
Proof using LI. intros Hi. by apply (wp_read_pointer cfg). Qed.
(** What staging leaves: a finished check, the stage's row in status [s], the artifact published; release
    directories are not touched. *)
Definition stage_left (now : Z) (m : UpdateManifest) (a : Artifact) (g : N) (st : UpdateOpStatus) (w w' : World) : Prop :=
  ∃ o s, rows w' = (rows w ++ [o; s])%list
    ∧ op_kind o = KCheck ∧ op_created_ms o = now ∧ op_status o = SSucceeded
    ∧ op_kind s = KStage ∧ op_status s = st ∧ op_created_ms s = now
    ∧ op_channel s = Some (channel_str (mf_channel m)) ∧ op_after_version s = Some (mf_version m)
    ∧ op_after_digest s = Some (af_sha256 a) ∧ op_artifact s = Some (af_name a) ∧ op_release_generation s = Some g
    ∧ files w' !! ArtifactAt (af_name a) (af_sha256 a) = Some (serves host (af_url a))
    ∧ (∀ p, settled_path p = true → files w' !! p = files w !! p) ∧ (VersionsDir ∈ dirs w' → VersionsDir ∈ dirs w).
(** Staging succeeds exactly when the store holds the generation. *)
Lemma wp_stage bytes comps now m a g w :
  Inv cfg w → stageable bytes comps now m a g w →
  wp (λ r w', if fits_i64 g
        then is_ok r = true ∧ stage_left now m a g SStaged w w' ∧ floor_of (marks w') (channel_str (mf_channel m)) = g
        else r = Err Backend ∧ stage_left now m a g SRunning w w')
    (stage cfg bytes comps None now) w.
Proof using LI.
  intros Hi Hin. pose proof Hin as [[i Hv] _ Ha Hsmall Hd Hsz Hg Hfl Hidle]. unfold stage.
  eapply wp_then; [by apply wp_idle|]. intros ? ? ->.
  apply wp_sbind. eapply wp_mono; [|eapply (wp_inv cfg host t); [done|by apply safe_check|by eapply wp_check]].
  intros ? w1 ((c & -> & o & Hr1 & Ho & Hoc & Hos & Hm1 & Hf1 & Hd1) & _ & Hi1 & _).
  eapply wp_then; [by apply wp_verified|]. intros ? ? [-> ->]. cbv beta iota. apply (wp_some _ _ _ _ _ _ Ha).
  unfold replay_key. apply wp_sbind, wp_ret. cbv beta iota.
  eapply wp_then; [apply wp_admit; [done|by rewrite Hm1]|]. intros ? ? [-> ->].
  eapply wp_then; [by apply wp_read|]. intros current ? ->. apply wp_call. cbn [handle fst snd]. cbv zeta.
  set (s := stage_row _ _ _ _ _ _ _ _). destruct (mint_fresh w1) as [_ Hfresh].
  eapply wp_then; [by apply wp_insert_fresh|]. intros ? w2 ->. apply wp_pbind.
  destruct (signed_plain cfg m a (verify_manifest_signed cfg _ _ _ _ Hv) (host_artifact_in cfg m a Ha)) as [_ Hhex].
  eapply wp_mono; [|by apply wp_download]. intros ? w3 (n & -> & Hr3 & Hm3 & Hart & Hrest & Hdirs).
  assert (Hleft : ∀ st w4, rows w4 = (rows w1 ++ [settle_op st now s])%list → files w4 = files w3 → dirs w4 = dirs w3 →
    stage_left now m a g st w w4).
  { intros st w4 Hr4 Hf4 Hd4. exists o, (settle_op st now s). rewrite Hr4, Hf4, Hd4, Hr1, <- app_assoc. split_and!; try done.
    - intros p Hp. rewrite Hrest by done. cbn. by rewrite Hf1.
    - intros Hin3%Hdirs. cbn in Hin3. by rewrite Hd1 in Hin3. }
  apply wp_pbind. destruct (fits_i64 g) eqn:Hfit.
  - eapply wp_mono; [|by apply wp_raise; [apply channel_valid|]]. intros ? w4 [-> ->]. cbv beta iota.
    eapply wp_then; [by eapply (wp_settle_last _ _ s _ (rows w1))|]. intros ? ? ->.
    apply wp_ret. split_and!; [done|by apply Hleft|]. cbn [on_rows on_marks marks].
    rewrite floor_raised, decide_True by done. cbn. rewrite Hm3. cbn. rewrite Hm1. by apply N.max_r.
  - eapply wp_mono; [|by apply wp_raise_refused]. intros ? w4 [-> ->]. cbv beta iota.
    eapply wp_then; [by eapply (wp_settle_last _ _ s _ (rows w1))|]. intros ? ? ->.
    apply wp_ret. split; [done|]. by apply Hleft.
Qed.

Lemma standing_left v d w w' :
  (∀ p, settled_path p = true → files w' !! p = files w !! p) → (VersionsDir ∈ dirs w' → VersionsDir ∈ dirs w) →
  standing v d w → standing v d w'.
Proof using.
  intros Hf Hd Hs Hv. specialize (Hs Hv). unfold manifest_there in *. rewrite !Hf by done.
  destruct (files w !! BinaryIn _); [done|]. destruct Hs. split; auto.
Qed.

(** ** Apply *)
Lemma wp_latest k st w : wp (λ r w', ∃ x, r = Ok x ∧ x = latest_row k st (rows w) ∧ w' = w) (store (Latest k st)) w.
Proof using. by eexists. Qed.
Lemma pointer_new_valid n d v c now :
  plain_artifact_name n = true → is_lower_hex d 64 = true →
  pointer_new n d v c now = Ok (MkPointer INSTALL_POINTER_SCHEMA n d v c now None).
Proof using. intros. unfold pointer_new, pointer_check. by rewrite fresh_pointer_valid. Qed.
Lemma wp_apply now s g n d v c w payload :
  Inv cfg w → running_rows (rows w) = [] → latest_row KStage SStaged (rows w) = Some s →
  op_channel s = Some (channel_str c) → op_after_version s = Some v → op_after_digest s = Some d → op_artifact s = Some n →
  op_release_generation s = Some g → floor_of (marks w) (channel_str c) = g →
  (∀ l, latest_row KApply SApplied (rows w) = Some l → op_after_digest l ≠ Some d) →
  plain_artifact_name n = true → is_lower_hex d 64 = true →
  files w !! ArtifactAt n d = Some payload → sha256_hex payload = d → standing v d w →
  (∀ p, healthy host p = true) →
  wp (λ r w', ∃ out, r = Ok out ∧ ∃ id o p, out = Applied id v d n ∧ installed w' = Some p
        ∧ ip_version p = v ∧ ip_digest p = d ∧ ip_artifact p = n ∧ ip_channel p = channel_str c
        ∧ rows w' = (rows w ++ [o])%list ∧ op_kind o = KApply ∧ op_status o = SApplied ∧ op_after_digest o = Some d
        ∧ marks w' = marks w ∧ files w' !! ArtifactAt n d = Some payload)
    (apply cfg now) w.
Proof using LI.
  intros Hi Hidle Hs Hc Hv Hd Hn Hg Hfl Hother Hplain Hhex Hart Hsha Hst Hh. unfold apply.
  eapply wp_then; [by apply wp_idle|]. intros ? ? ->.
  eapply (wp_then (λ x w', x = s ∧ w' = w)); [eapply wp_then; [apply wp_latest|intros ? ? [-> ->]; rewrite Hs; by eexists]|].
  intros ? ? [-> ->].
  eapply (wp_then (λ _ w', w' = w)).
  { unfold staged_at_floor. rewrite Hc. eapply wp_then; [apply wp_high_water|]. intros x ? [-> ->]. rewrite Hg. cbn.
    unfold floor_of in Hfl. unfold UpdaterRuns.wp. destruct (marks w !! _); subst; rewrite N.ltb_irrefl; by eexists. }
  intros ? ? ->. eapply (wp_then (λ _ w', w' = w)).
  { eapply wp_then; [apply wp_latest|]. intros x ? [-> ->]. destruct (latest_row KApply _ _) as [l|] eqn:E; [|by eexists].
    specialize (Hother _ eq_refl). rewrite Hd, (bool_decide_false (_ = Some d)), andb_false_r by done. by eexists. }
  intros ? ? ->. apply (wp_some _ _ _ _ _ _ Hn), (wp_some _ _ _ _ _ _ Hd). rewrite Hv, Hc. cbn [default from_option id].
  eapply wp_lift; [by apply pointer_new_valid|].
  eapply (wp_then (λ p w', w' = w ∧ pointer_valid p = true ∧ ip_version p = v ∧ ip_digest p = d ∧ ip_artifact p = n
    ∧ ip_channel p = channel_str c ∧ ∀ r, ip_release_id p = Some r → ∃ s, files w !! BinaryIn (Final r) = Some s ∧ sha256_hex s = d)).
  { eapply wp_mono; [|by apply wp_launch]. intros [q|e] w' [-> Hq]; [|by destruct Hq].
    destruct Hq as (_ & id & -> & Hval & Hbin). eexists. by split_and!. }
  intros p ? (-> & Hval & Hpv & Hpd & Hpn & Hpc & Hbin). eapply (wp_then (λ _ w', w' = w)).
  { unfold verify_installed, artifact_digest, UpdaterRuns.wp. rewrite Hpd, Hpn. destruct (ip_release_id p) as [r|]; cbn.
    - destruct (Hbin r eq_refl) as (b & -> & Hb). cbn. rewrite Hb, bool_decide_true by done. by eexists.
    - rewrite Hart. cbn. rewrite Hsha, bool_decide_true by done. by eexists. }
  intros ? ? ->. eapply wp_then; [by apply wp_read|]. intros current ? ->.
  apply wp_call. cbn [handle fst snd]. apply wp_call. cbn [handle fst snd]. cbv zeta. set (o := apply_row _ _ _ _ _ _).
  destruct (mint_fresh w) as [_ Hfresh]. eapply wp_then; [by apply wp_insert_fresh|]. intros ? w2 ->.
  eapply (wp_then (λ _ w', w' = on_files <[Current := pointer_json p]> _)).
  { unfold swap_pointer, write_pointer, UpdaterRuns.wp. rewrite Hval. cbn. by eexists. }
  intros ? ? ->. apply wp_call. cbn [handle fst snd]. rewrite Hh.
  eapply wp_then; [by eapply (wp_settle_last _ _ o _ (rows w))|]. intros ? ? ->. apply wp_ret. eexists. split; [done|].
  exists (mint w), (settle_op SApplied now o), p. split; [by rewrite Hpv, Hpd, Hpn|]. split_and!; try done.
  - unfold installed. cbn. rewrite lookup_insert_eq. apply parse_pointer_json.
  - cbn. by rewrite Hpd.
  - cbn. by rewrite lookup_insert_ne.
Qed.

Lemma idle_iff (rs : Rows) : running_rows rs = [] ↔ ∀ o, o ∈ rs → op_status o ≠ SRunning.
Proof using.
  split.
  - intros E o Ho Hs. assert (Hin : o ∈ running_rows rs) by by apply running_rows_elem. rewrite E in Hin. by apply elem_of_nil in Hin.
  - intros Hn. destruct (running_rows rs) as [|o l] eqn:E; [done|exfalso].
    assert (Hin : o ∈ running_rows rs) by (rewrite E; apply elem_of_cons; by left).
    apply running_rows_elem in Hin as [Ho Hs]. by destruct (Hn o Ho).
Qed.
Lemma latest_skip k st (rs extra : Rows) :
  (∀ o, o ∈ extra → op_kind o ≠ k) → latest_row k st (rs ++ extra) = latest_row k st rs.
Proof using.
  intros Hx. unfold latest_row. rewrite filter_app.
  assert (filter (λ o, op_kind o = k ∧ op_status o = st) extra = []) as ->; [|by rewrite app_nil_r].
  induction extra as [|o l IH]; [done|]. rewrite filter_cons_False, IH; [done|by intros x Hx'; apply Hx, elem_of_cons; right|].
  intros [Hk _]. by apply (Hx o); [apply elem_of_cons; left|].
Qed.
End Live.

Section Thms.
Context `{RW : ReleaseWire, IW : InstallWire, LI : !LawfulInstall}.
Variable cfg : UpdaterConfig.
Variable host : Host.

(** C9: On a host where no call fails and the probe is content, from any reachable state where no operation
    runs, every row is older than now: a manifest that authenticates, suits the host's channel, platform and
    components, carries a generation that is not below its channel's floor and fits the store, is served with
    the bytes it promises, is not what was applied last, and whose release directory, if there are release
    directories at all, is whole, can be installed.  Staging it and then applying answer success; the pointer
    then names its version, digest, file and channel, the bytes served are under the content-addressed name,
    the floor is its generation, and no operation runs. *)
Theorem signed_release_installs n w bytes comps now later m a g :
  reached cfg n w → (∀ p, healthy host p = true) → installable cfg host bytes comps now m a g w →
  ∃ out w1 id w2 p,
    run (λ X, @handle _ host n X) (stage cfg bytes comps None now) w = (Some (Ok out), w1)
    ∧ run (λ X, @handle _ host (S n) X) (apply cfg later) w1
      = (Some (Ok (Applied id (mf_version m) (af_sha256 a) (af_name a))), w2)
    ∧ installed w2 = Some p ∧ ip_version p = mf_version m ∧ ip_digest p = af_sha256 a ∧ ip_artifact p = af_name a
    ∧ ip_channel p = channel_str (mf_channel m)
    ∧ files w2 !! ArtifactAt (af_name a) (af_sha256 a) = Some (serves host (af_url a))
    ∧ floor_of (marks w2) (channel_str (mf_channel m)) = g ∧ running_rows (rows w2) = [].
Proof using LI.
  intros Hi%reached_inv Hh [Hst Hfit Hlate Hother Hstand]. pose proof Hst as [[i Hv] _ Ha _ Hd _ _ _ Hidle].
  pose proof (wp_inv cfg host n _ _ _ _ Hi (safe_stage cfg n bytes comps None now w Hi)
    (wp_stage cfg host n bytes comps now m a g w Hi Hst)) as Hw. rewrite Hfit in Hw.
  apply wp_run in Hw as ([out|e] & w1 & Hrun & ([=] & (o & s & Hr1 & Hok & Hot & Hos & Hsk & Hss & Hst1 & Hch & Hsv & Hsd & Hsn & Hsg
    & Hart & Hrest & Hdirs) & Hfl1) & _ & Hi1 & _).
  destruct (signed_plain cfg m a (verify_manifest_signed cfg _ _ _ _ Hv) (host_artifact_in cfg m a Ha)) as [Hplain Hhex].
  assert (Hidle1 : running_rows (rows w1) = []).
  { rewrite idle_iff in Hidle |- *. intros x. rewrite Hr1, elem_of_app, !elem_of_cons, elem_of_nil.
    intros [?|[->|[->|[]]]]; [by apply Hidle|congruence|congruence]. }
  assert (Hs : latest_row KStage SStaged (rows w1) = Some s).
  { apply newest_is; [apply list_elem_of_filter; split; [done|]; rewrite Hr1; set_solver|].
    intros x [[Hxk _] Hx]%list_elem_of_filter Hne. rewrite Hst1. rewrite Hr1, elem_of_app, !elem_of_cons, elem_of_nil in Hx.
    destruct Hx as [Hx|[->|[->|[]]]]; [by apply Hlate|congruence|done]. }
  destruct (wp_run _ _ _ _ _ (wp_apply cfg host (S n) later s g (af_name a) (af_sha256 a) (mf_version m) (mf_channel m) w1
    (serves host (af_url a)) Hi1 Hidle1 Hs Hch Hsv Hsd Hsn Hsg Hfl1
    ltac:(intros l; rewrite Hr1, latest_skip; [by apply Hother|]; intros x; rewrite !elem_of_cons, elem_of_nil; intros [->|[->|[]]]; congruence)
    Hplain Hhex Hart Hd ltac:(by eapply standing_left) Hh))
    as (r2 & w2 & Hrun2 & out2 & -> & id & o2 & p & -> & Hp & Hpv & Hpd & Hpn & Hpc & Hr2 & _ & Ho2 & _ & Hm2 & Hart2).
  exists out, w1, id, w2, p. split_and!; try done; [by rewrite Hm2|].
  rewrite idle_iff in Hidle1 |- *. intros x. rewrite Hr2, elem_of_app, list_elem_of_singleton.
  intros [?| ->]; [by apply Hidle1|congruence].
Qed.
End Thms.

#[local] Opaque old_installed.
Lemma signed_release_installs_witness :
  ∃ out w1 id w2 p,
    run (λ X, @handle _ demo_host 2%nat X) (stage demo_config "new-manifest" demo_running None 20) old_installed = (Some (Ok out), w1)
    ∧ run (λ X, @handle _ demo_host 3%nat X) (apply demo_config 22) w1 = (Some (Ok (Applied id "2.0" (demo_digest "new") "faktor-2.0")), w2)
    ∧ installed w2 = Some p ∧ ip_version p = "2.0" ∧ ip_digest p = demo_digest "new" ∧ ip_artifact p = "faktor-2.0"
    ∧ ip_channel p = "stable"
    ∧ files w2 !! ArtifactAt "faktor-2.0" (demo_digest "new") = Some "new"
    ∧ floor_of (marks w2) "stable" = 2 ∧ running_rows (rows w2) = [].
Proof.
  apply (signed_release_installs demo_config demo_host 2 old_installed "new-manifest" demo_running 20 22 new_release
    (MkArtifact "faktor-2.0" "linux" "x86_64" (demo_digest "new") "https://h/2.0" None) 2 old_reached); [done|].
  split.
  - split; try by vm_compute. exists "operator". vm_compute. reflexivity.
  - by vm_compute.
  - assert (Hl : forallb (λ o, op_created_ms o <? 20)%Z (rows old_installed) = true) by (vm_compute; reflexivity).
    intros o Ho. apply Z.ltb_lt.
    exact (proj1 (List.forallb_forall _ _) Hl o (proj1 (list_elem_of_In _ _) Ho)).
  - intros o. vm_compute. by intros [= <-].
  - intros _. set (r := release_id_for _ _).
    assert (files old_installed !! BinaryIn (Final r) = None) as -> by (vm_compute; reflexivity).
    assert (Hm : files old_installed !! ManifestIn (Final r) = None) by (vm_compute; reflexivity).
    split; [apply (bool_decide_unpack _); vm_compute; exact I|]. intros (m & E & _). rewrite Hm in E. discriminate E.
Defined.
