(* ===== verification/UpdaterJam.v ===== *)
(** * A generation the store cannot hold

    A manifest's release generation is an unsigned 64-bit number and nothing
    bounds it; the SQLite store keeps a floor in a signed one.  Staging a
    signed manifest past [i64::MAX] publishes its artifact, cannot raise the
    floor and leaves its row running; recovery tries the same again.  From then
    on, whatever is called, the updater never stages, applies, activates,
    downgrades or rolls back anything.  The in-memory store of the crate takes
    any generation: this is about the durable one. *)
From stdpp Require Import sorting.
From S2P Require Import Prelude Strings Bytes Effects Rely UpdaterManifest UpdaterStore UpdaterInstall UpdaterService UpdaterRelease UpdaterSystem UpdaterInv UpdaterCalls UpdaterLogic UpdaterSafe UpdaterReleaseSafe UpdaterQuiet UpdaterRuns UpdaterThms UpdaterDemo UpdaterRecovery UpdaterLiveness.
#[local] Open Scope string_scope.
#[local] Open Scope N_scope.
#[local] Open Scope prog_scope.

(** The one running row is a stage whose artifact is published and whose generation does not fit. *)
Definition jammed `{ReleaseWire} (w : World) : Prop :=
  ∃ o, running_rows (rows w) = [o] ∧ op_kind o = KStage ∧ fits_i64 (default 0 (op_release_generation o)) = false
    ∧ target_published (files w) o.

(** Methods called one after the other, each by a thread of its own. *)
Fixpoint serve `{ReleaseWire, InstallWire} (cfg : UpdaterConfig) (host : Host) (n : nat) (ms : list Method) (w : World) :
    list (option Answer) * World :=
  match ms with
  | [] => ([], w)
  | m :: ms =>
      let '(a, w1) := run (λ X, @handle _ host n X) (run_method cfg m) w in
      let '(rest, w2) := serve cfg host (S n) ms w1 in
      (a :: rest, w2)
  end.
(** How a jammed updater answers: what would change the install is refused, recovery fails; checking a
    manifest, the status and resolving a launch work as ever. *)
Definition turned_down (m : Method) (a : option Answer) : Prop :=
  match m with
  | MStage _ _ _ _ => a = Some (AStage (Err Conflict))
  | MStageRelease _ _ _ _ => a = Some (AStageRelease (Err Conflict))
  | MApply _ | MDowngrade _ _ _ _ _ | MRollback _ => a = Some (AApply (Err Conflict))
  | MActivate _ _ | MFinalize _ _ | MAbort _ => a = Some (ARelease (Err Conflict))
  | MRecover _ _ => a = Some (ARecover (Err Backend))
  | MCheck _ _ _ => ∃ r, a = Some (ACheck r)
  | MStatus _ => ∃ v, a = Some (AStatus (Ok v))
  | MLaunch => ∃ r, a = Some (ALaunch r)
  end.

Section Jam.
Context `{RW : ReleaseWire, IW : InstallWire, LI : !LawfulInstall}.
Variable cfg : UpdaterConfig.
Variable host : Host.
Variable t : nat.
Notation wp := (UpdaterRuns.wp host t).

(** ** Programs that start nothing *)
Definition starts_nothing X (e : UpdEvent X) : bool :=
  match e with Insert o => negb (is_running o) | Update _ => false | _ => true end.
Lemma running_app (rs : Rows) o : is_running o = false → running_rows (rs ++ [o])%list = running_rows rs.
Proof using.
  intros Ho. unfold running_rows. by rewrite filter_app, filter_cons_False, filter_nil, app_nil_r by congruence.
Qed.
Lemma handle_starts {X} (e : UpdEvent X) w :
  starts_nothing _ e = true → running_rows (rows (handle host t e w).2) = running_rows (rows w).
Proof using.
  destruct e; try (intros _; by rewrite handle_rows); [|done].
  cbn. intros Ho%negb_true_iff. unfold insert_row. repeat (case_match; [done|]). cbn. by apply running_app.
Qed.
Lemma wp_starts_nothing {A} (p : Prog A) w :
  only starts_nothing p → wp (λ _ w', running_rows (rows w') = running_rows (rows w)) p w.
Proof using.
  revert w. induction p as [a| |X e k IH]; intros w; [done|done|]. intros [He Hk]. apply wp_call.
  eapply wp_mono; [|apply IH, Hk]. intros a w' E. cbv beta in E. by rewrite E, handle_starts.
Qed.
Lemma check_starts_nothing bytes comps now : only starts_nothing (check cfg bytes comps now).
Proof using.
  unfold check, verified, refusing, admit_manifest, high_water, record_refusal. keeps_to.
Qed.

(** ** What is refused at the door *)
Lemma wp_blocked {A} (k : Svc A) w :
  running_rows (rows w) ≠ [] → wp (λ r w', r = Err Conflict ∧ w' = w) (ensure_no_running;; k) w.
Proof using. intros Hr. unfold UpdaterRuns.wp. cbn. by rewrite bool_decide_false. Qed.
(** No activation is in flight. *)
Lemma wp_pending k guard o w :
  Inv cfg w → running_rows (rows w) = [o] → op_kind o = KStage →
  (∀ p, guard p = sret tt ∨ guard p = sfail Conflict) →
  wp (λ r w', r = Err Conflict ∧ w' = w) (pending_activation k guard) w.
Proof using LI.
  intros Hi Hr Hk Hg. unfold pending_activation. eapply (wp_then host t); [by apply (wp_read cfg)|]. intros current ? ->.
  destruct current as [p|]; [|done]. apply (wp_some host t _ _ _ p); [done|].
  destruct (ip_release_id p) as [r|]; [|done]. apply (wp_some host t _ _ _ r); [done|].
  destruct (Hg p) as [-> | ->]; [|done]. apply wp_sbind, wp_ret. apply wp_sbind, wp_sbind.
  unfold UpdaterRuns.wp. cbn. rewrite Hr. cbn. rewrite Hk. done.
Qed.

(** ** Recovery fails on it, and leaves it *)
Lemma wp_published o w :
  core_ok cfg (files w) o → op_kind o = KStage → target_published (files w) o →
  wp (λ b w', b = true ∧ w' = w) (stage_artifact_published o) w.
Proof using.
  intros Hc Hk (nm & d & Hn & Hd & bytes & Hb & <-).
  destruct (stage_row_genuine _ _ _ Hc Hk) as (m & ? & ? & _ & ? & ? & _ & _ & (m' & a & Hsg & Hin & _ & Hsha & Hna) & _). simplify_eq.
  destruct (signed_plain cfg m' a Hsg Hin) as [Hname Hhex].
  match goal with E : af_sha256 a = _ |- _ => rewrite E in Hhex end.
  unfold stage_artifact_published, UpdaterRuns.wp. rewrite Hn, Hd, Hname, Hhex. cbn. rewrite Hb. cbn. by rewrite bool_decide_true.
Qed.
Lemma wp_recover_jammed now running w :
  Inv cfg w → jammed w →
  wp (λ r w', r = Err Backend ∧ rows w' = rows w) (recover_with_running_digest cfg now running) w.
Proof using LI.
  intros Hi (o & Hrun & Hk & Hg & Hp).
  assert (Ho : o ∈ rows w).
  { assert (Ho : o ∈ running_rows (rows w)) by (rewrite Hrun; by apply list_elem_of_singleton). by apply running_rows_elem in Ho as [? _]. }
  apply wp_sbind, wp_call. cbn [handle fst snd rmap_err]. rewrite Hrun. apply wp_ret. cbn [recover_each]. unfold recover_operation.
  rewrite Hk. apply wp_sbind, wp_sbind.
  eapply wp_mono; [|eapply (wp_inv cfg host t (oks (λ _ _, True)) (λ r w', r = Ok tt ∧ rows w' = rows w)); [done|apply ssafe_clear_staging|done]].
  intros ? w1 ([-> Hw1] & _ & Hi1 & Hev). apply wp_pbind.
  eapply wp_mono; [|apply wp_published; [eapply core_ok_kept; [apply Hev|by apply Hi]|done|eapply target_kept; [apply Hev|done]]].
  intros ? ? [-> ->]. apply wp_sbind. eapply wp_mono; [|by apply wp_raise_refused]. by intros ? ? [-> ->].
Qed.

(** ** Every method *)
Lemma wp_answering {A} (Q : Answer → World → Prop) (p : Svc A) f w :
  wp (λ r w', Q (f r) w') p w → wp Q (answering p f) w.
Proof using. intros H. by apply wp_pbind. Qed.
Lemma jammed_kept w w' : jammed w → running_rows (rows w') = running_rows (rows w) → kept (files w) (files w') → jammed w'.
Proof using. intros (o & Hr & Hk & Hg & Hp) E Hkept. exists o. rewrite E. split_and!; [done..|by eapply target_kept]. Qed.
Lemma wp_status_answers now w : Inv cfg w → wp (λ r w', (∃ v, r = Ok v) ∧ w' = w) (status cfg now) w.
Proof using LI.
  intros Hi. unfold status. eapply (wp_then host t); [by apply (wp_read cfg)|]. intros p ? ->.
  unfold high_water, UpdaterRuns.wp. rewrite channel_valid. cbn. split; [by eexists|done].
Qed.
Lemma wp_jammed_method m w :
  Inv cfg w → jammed w →
  wp (λ a w', turned_down m (Some a) ∧ running_rows (rows w') = running_rows (rows w)) (run_method cfg m) w.
Proof using LI.
  intros Hi Hj. pose proof Hj as (o & Hr & Hk & _).
  assert (Hne : running_rows (rows w) ≠ []) by by rewrite Hr.
  assert (Hgone : ∀ A (p : Svc A) f, (∀ r, turned_down m (Some (f r)) ↔ r = Err Conflict) →
    wp (λ r w', r = Err Conflict ∧ w' = w) p w →
    wp (λ a w', turned_down m (Some a) ∧ running_rows (rows w') = running_rows (rows w)) (answering p f) w).
  { intros A p f Hf Hp. apply wp_answering. eapply wp_mono; [|exact Hp]. intros r w' [-> ->]. split; [by apply Hf|done]. }
  destruct m; cbn [run_method];
    try (apply Hgone; [intros r; cbn; split; [congruence|by intros ->]|]); try by apply wp_blocked.
  - apply wp_answering. eapply wp_mono; [|apply wp_starts_nothing, check_starts_nothing]. intros r w' E. split; [by exists r|done].
  - unfold stage_release. apply wp_sbind. eapply wp_mono; [|by apply wp_blocked]. by intros ? ? [-> ->].
  - apply (wp_pending _ _ o); [done..|]. intros p. unfold require. case_bool_decide; auto.
  - apply (wp_pending _ _ o); [done..|]. auto.
  - apply wp_answering. eapply wp_mono; [|by apply wp_recover_jammed]. intros r w' [-> E]. split; [done|]. by rewrite E.
  - apply wp_answering. eapply wp_mono; [|by apply wp_status_answers]. intros r w' [[v ->] ->]. split; [by exists v|done].
  - apply wp_answering. eapply wp_mono; [|apply wp_starts_nothing].
    + intros r w' E. split; [by exists r|done].
    + unfold read_trust, resolve_launch, read_pointer, refusing. keeps_to.
Qed.
Lemma jammed_method m w :
  Inv cfg w → jammed w →
  wp (λ a w', turned_down m (Some a) ∧ Inv cfg w' ∧ jammed w') (run_method cfg m) w.
Proof using LI.
  intros Hi Hj. eapply wp_mono; [|eapply (wp_inv cfg host t); [done|by apply run_method_safe|by apply wp_jammed_method]].
  intros a w' ([Ht Hr] & _ & Hi' & Hev). split_and!; [done..|]. eapply jammed_kept; [done|done|apply Hev].
Qed.
(** Staging it. *)
Lemma wp_stage_jams bytes comps now m a g w :
  Inv cfg w → stageable cfg host bytes comps now m a g w → fits_i64 g = false →
  wp (λ r w', r = Err Backend ∧ jammed w') (stage cfg bytes comps None now) w.
Proof using LI.
  intros Hi Hst Hg. eapply wp_mono; [|by apply wp_stage]. rewrite Hg.
  intros r w' [-> (o & s & Hrows & Hok & _ & Hos & Hsk & Hss & _ & _ & _ & Hd & Hn & Hgen & Hart & _)]. split; [done|].
  exists s. rewrite Hrows, Hgen. split_and!; [|done|done|].
  - pose proof (st_idle _ _ _ _ _ _ _ _ _ Hst) as Hidle. unfold running_rows in *. rewrite filter_app.
    assert (filter (λ o, is_running o = true) (rows w) = []) as ->.
    { pose proof (merge_sort_Permutation older (filter (λ o, is_running o = true) (rows w))) as Hp. rewrite Hidle in Hp.
      by apply Permutation_nil_l in Hp. }
    rewrite filter_cons_False by (unfold is_running; rewrite Hos; done).
    by rewrite filter_cons_True by (unfold is_running; rewrite Hss; done).
  - exists (af_name a), (af_sha256 a). split_and!; [done..|]. eexists. split; [done|]. apply Hst.
Qed.
End Jam.

Section Thms.
Context `{RW : ReleaseWire, IW : InstallWire, LI : !LawfulInstall}.
Variable cfg : UpdaterConfig.
Variable host : Host.

Lemma serve_jammed ms : ∀ n w, Inv cfg w → jammed w →
  let '(answers, w') := serve cfg host n ms w in Forall2 turned_down ms answers ∧ jammed w'.
Proof using LI.
  induction ms as [|m ms IH]; intros n w Hi Hj; cbn [serve]; [by split|].
  destruct (wp_run _ _ _ _ _ (jammed_method cfg host n m w Hi Hj)) as (a & w1 & -> & Ht & Hi1 & Hj1).
  specialize (IH (S n) w1 Hi1 Hj1). destruct (serve cfg host (S n) ms w1). destruct IH. split; [by constructor|done].
Qed.

(** C11: A signed manifest may carry a release generation past the largest signed 64-bit integer, and on
    the durable store nothing refuses it in time.  From any reachable state where no operation runs, with
    nothing failing, staging a manifest that is in every other way stageable publishes its artifact, answers
    an internal error and leaves its row running.  After that, whatever methods are called, in any order and
    any number of times, with nothing failing: each stage, apply, activation, finalization, abort, downgrade
    and rollback is refused as a conflict, each recovery answers the internal error, and the row stays
    running; only checking a manifest, the status and resolving a launch still work. *)
Theorem oversized_generation_jams_the_updater n w bytes comps now m a g :
  reached cfg n w → stageable cfg host bytes comps now m a g w → fits_i64 g = false →
  ∃ w1, run (λ X, @handle _ host n X) (stage cfg bytes comps None now) w = (Some (Err Backend), w1) ∧ jammed w1
    ∧ ∀ ms, let '(answers, w2) := serve cfg host (S n) ms w1 in Forall2 turned_down ms answers ∧ jammed w2.
Proof using LI.
  intros Hi%reached_inv Hst Hg.
  pose proof (wp_inv cfg host n _ _ _ _ Hi (safe_stage cfg n bytes comps None now w Hi)
    (wp_stage_jams cfg host n bytes comps now m a g w Hi Hst Hg)) as Hw.
  apply wp_run in Hw as (r & w1 & Hrun & [-> Hj] & _ & Hi1 & _). exists w1. split_and!; [done..|].
  intros ms. by apply serve_jammed.
Qed.
End Thms.

#[local] Opaque old_installed.
Lemma oversized_generation_jams_the_updater_witness :
  ∃ w1, run (λ X, @handle _ demo_host 2%nat X) (stage demo_config "vast-manifest" demo_running None 20) old_installed
        = (Some (Err Backend), w1) ∧ jammed w1
    ∧ ∀ ms, let '(answers, w2) := serve demo_config demo_host 3 ms w1 in Forall2 turned_down ms answers ∧ jammed w2.
Proof.
  apply (oversized_generation_jams_the_updater demo_config demo_host 2 old_installed "vast-manifest" demo_running 20 vast_release
    (MkArtifact "faktor-3.0" "linux" "x86_64" (demo_digest "vast") "https://h/3.0" None) (2 ^ 63) old_reached); [|by vm_compute].
  split; try by vm_compute. exists "operator". vm_compute. reflexivity.
Defined.
